(* ===== verification/_CoqProject ===== *)
-Q . S2P
Prelude.v
Bytes.v
Http.v
HttpCodec.v
HttpMime.v
ObjectModel.v
ObjectRanges.v
ObjectOrigin.v
ObjectClient.v
ObjectClientProofs.v
Route.v
Budget.v
HotPage.v
Intervals.v
Sweep.v
Fanout.v
Subscriptions.v
SubscriptionEntry.v
SubscriptionRuns.v
Silence.v
Rank0.v
WireCodec.v
Segments.v
PageIndex.v
PageIndexRuns.v
SegmentProofs.v
SegmentRuns.v
Checkpoint.v
CheckpointCodec.v
CheckpointBudget.v
CheckpointProofs.v
CheckpointRuns.v
CheckpointSlots.v
CheckpointSlotRuns.v
CheckpointCut.v
CheckpointCutRuns.v
Lanes.v
Cache.v
OrderedCache.v
Expiry.v
Prefetch.v
ReadRules.v
CheckpointDisk.v
CheckpointDiskRuns.v
Targets.v
Walk.v
WalkRuns.v
Fill.v
FillRuns.v
Notices.v
NoticeRuns.v
Hints.v
HintRuns.v
FlightState.v
FlightRuns.v
FlightTable.v
PageFlights.v
PageFlightRuns.v
AdmissionRules.v
Shares.v
ShareRuns.v
SecondSight.v
SightRuns.v
MemoryCache.v
