(* ===== verification/Prelude.v ===== *)
(** * Racer: a verification development

    Racer ([src/cmd/racer]) is a distributed page cache.  A client asks its local node for a
    byte range of an immutable object version over HTTP; the node answers from memory, from a
    peer, or from the origin.  This library models the deterministic rules of that node: the
    wire formats at its edges, the rules that route, admit and share acquisitions, and the
    structures that keep pages in memory.  Paths below are under [src/cmd/racer].

    ** The parts and their files

    Foundations.
    - [Prelude]: results with the [?] operator, machine-integer bounds, ordered iteration of
      maps ([btree_iter], [wrap_from]), and shared lemmas and tactics.
    - [Bytes]: byte strings, big-endian integers, ASCII and canonical decimals.

    The client and origin edge.  A request's bytes pass [decode_head], then [request_parse];
    the node forwards it with [origin_request], checks the answer with [validate_response] and
    [validate_page], and replies with [success_head], [body_head] and [frame].
    - [Http] ([http/src/lib.rs]): message heads, MIME values and range grammars; [HttpCodec]
      proves the head codec exact and unambiguous, [HttpMime] the MIME grammar.
    - [ObjectModel] ([object-wire/src/model.rs], [lib.rs]): decimals, keys, tags, ranges, page
      slices, expiry and metadata; [ObjectRanges] proves the spellings canonical and a
      range's slices exact.
    - [ObjectOrigin] ([object-wire/src/origin.rs]) and [ObjectClient], [ObjectClientProofs]
      ([object-wire/src/client.rs]): requests and responses on both sides.

    Routing and acquisition.  A page request travels at most [MAX_LINKS] links between nodes,
    paid from the credits of its acquisition.
    - [Route] ([core/src/route.rs]): the wire and search forms of a route and the hop, failure
      and grant tables.
    - [Budget], [HotPage] ([core/src/read/budget.rs]): acquisition credits; hot pages and the
      helpers that relieve them.
    - [ReadRules] ([core/src/read/mod.rs]): what a peer's answer means, origin authority, the
      serve, retention and persistence tables, the window of a range read, and the order in
      which a reader visits a page's owners.
    - [Targets], [Walk] ([core/src/read/walk.rs], [hints.rs]): the target lists of an owner and
      the candidate walk, which plans each probe with the credits it may spend; [WalkRuns]
      proves all its runs.
    - [Fill] ([core/src/read/walk.rs]): one whole acquisition, from its ranking through hedge,
      walk, stale memberships and origin to its result; [FillRuns] proves all its runs with
      any driver.  The node's tasks perform its actions and report its events.
    - [Notices], [Hints] ([core/src/read/hints.rs], and its use in [src/read.rs]): an owner that
      fetched a page offers its copy to the owners that did not answer, and an owner without a
      copy sends readers to one that fetched it; [NoticeRuns] and [HintRuns] prove all runs,
      the latter with the requests of a node interleaved.
    - [Silence], [Rank0] ([core/src/liveness.rs]): silent peers, detours, and whether an owner
      waits for the first-ranked owner before it asks the origin.
    - [Prefetch] ([core/src/prefetch.rs]): records of the prefetch operation.

    Sharing.  Concurrent demands for a page share one acquisition.
    - [Intervals], [Sweep], [Fanout] ([flow/src/subscriptions.rs]): demand as intervals, the
      vote for the most wanted page, and shared flights.
    - [Subscriptions], [SubscriptionEntry], [SubscriptionRuns] ([core/src/subscriptions.rs]):
      the scheduler of page subscriptions over those, and all its runs.
    - [FlightState], [FlightRuns], [FlightTable] ([flow/src/coalesce.rs]): the lifecycle of one
      flight, all its runs, and the tables that own flights and operation slots.
    - [PageFlights] ([core/src/read/flight.rs]): what pages add to a flight, and the table of
      page flights; [PageFlightRuns] proves all its runs.

    Memory.
    - [Lanes], [Cache], [OrderedCache], [Expiry] ([core/src/cache.rs]): recency order, lanes
      per cache, reclamation and idle expiry.
    - [MemoryCache] ([src/memory.rs]): the worker's cache over those.
    - [AdmissionRules] ([core/src/admission.rs]): resource classes, limits and floors.

    The disk.
    - [Segments] ([alloc/src/segments.rs], and the geometry of [alloc/src/lib.rs]): the table
      that allocates a slab's segments, its leases, and the clock that evicts them.  The clock
      removes mappings through the class [SegmentEntries], whose laws are [LawfulEntries].
    - [PageIndex] ([alloc/src/index.rs], and [PhantomEntries] of [segments.rs]): the index of
      pages by key, segment, group and age; [PageIndexRuns] proves it a queue of publications
      and that its entries are lawful.
    - [SegmentProofs], [SegmentRuns]: the invariant of the table, and all its runs with restores
      and reclamations.
    - [WireCodec] ([wire-codec/src/lib.rs]): the bounded readers and writers of byte formats.
    - [Checkpoint] ([src/store/checkpoint.rs]): the images from which a node restores its disk
      cache, with their validation, encoder, memory preflight and decoder.  [CheckpointCodec]
      has what is written and read back, [CheckpointBudget] its size and the memory counted for
      it, [CheckpointProofs] what validation establishes, [CheckpointRuns] the theorems.
    - [CheckpointSlots] ([runtime/src/reactor/filesystem/checkpoint.rs] and [operations.rs]
      beside it): staged publication of a file and the two slots that checkpoints alternate
      between; [CheckpointSlotRuns] proves it atomic and says what recovery finds afterwards.
    - [CheckpointCut] ([poll_checkpoint] of [src/app/recovery.rs]): the coordinator that
      collects one snapshot of each worker and publishes them, as steps of the workers' polls;
      [CheckpointCutRuns] has its invariant over all interleavings.
    - [CheckpointDisk] (the rest of [recovery.rs], [publish_async] of [checkpoint.rs]): the
      coordinator joined to its files, and the selection of a cut at startup;
      [CheckpointDiskRuns] has all runs with a stop of the process at any point.
    - [Shares] ([src/priority.rs], [src/retention.rs]): the shares of the disk that caches have
      by their published weights, the payload charged to them, and the order in which passes
      look for caches over their share; [ShareRuns] proves what is kept from event to event
      equal to a recount.
    - [SecondSight] ([alloc/src/retention.rs]): the Bloom history that admits a page on its
      second sight, and the heat of resident pages; [SightRuns] has their runs.

    ** How the code is represented

    Unsigned integers, instants and durations (in nanoseconds) are [N]; where the source
    checks, saturates or wraps, the model does so at the width.  A [&mut self] method returns
    its result and the new state.  A panic is [None].  [HashMap] and [BTreeMap] are [gmap],
    the latter iterated in key order.  Byte strings and text are lists of bytes.  Traits are
    classes or section variables, closures functions over an explicit state, and everything
    that reads the world (clocks, cancellation, reference counts) a function over an explicit
    environment.  Enum constructors are [Type_Variant].  Code outside the repository, such as
    the crate [httparse], is a parameter whose documented behaviour is a named hypothesis,
    shown satisfiable by each theorem's witness.

    ** What the theorems show

    - Codecs: encoders and decoders are inverse, an accepted byte string has one meaning, a
      head is never read past its end, and a range is served byte for byte.
    - Types: what a parser accepts satisfies every bound its type documents, and only
      well-formed failures are reported as anything but a bad gateway.
    - Routing: no route revisits a node or exceeds its links; no sequence of budget operations
      mints a credit or extends a deadline.
    - Acquisitions: whatever peers answer and drivers spend, a walk and a fill never panic,
      end within a bounded number of events, ask the origin at most once and only with the
      authority of an owner, keep every credit accounted for, and address every probe.  An owner
      on bounded routes that runs short of links asks without the evidence the check wants
      ([bounded_owner_lacks_evidence]).
    - Notices and hints: due offers leave in order, none is lost or offered past its tries, both
      tables stay within their capacity and never panic; the readers a hint sends away are
      bounded, and one that comes back is served.
    - Subscriptions: along every run the scheduler stays within its limits, a sequence is
      admitted once, budgets only shrink, and a delivered grant passes the receiver's checks until
      the earlier of its own and its contract's deadline.
    - Flights: while an attempt runs no other is elected, every settled caller is woken, and a
      sweep visits flights fairly.
    - Page flights: one acquisition of a page runs at a time, no wake-up is lost, and a
      publication reaches every waiter.
    - Segments: bytes that a valid mapping or an outstanding lease names are never reserved
      again, no operation panics, and reclamation stays within its budget and makes room unless
      the table is frozen.
    - Checkpoints: an image survives encoding and decoding within its budget, its size is known
      beforehand, and what any file restores has no page twice and no overlapping mappings.
      Publication replaces a slot at once or not at all; in every interleaving of the workers
      and wherever the process stops, no checkpoint reported as published is lost as long as
      those published fit the recovery budget once decoded.  Publication does not check that,
      only the encoded size, and [published_cut_recovered] says exactly when recovery reads what
      was published.  Every cut with a result ends once its workers have started, and startup
      selects the newest cut its workers can install.
    - Retention: shares never exceed the capacity, accounts never drift, looking at the top of
      the pressure order misses no cache over its share; a page observed is seen again for
      three periods and forgotten after four, and asking for heat does not cool it.
    - Caches: entries, ticks, order and lanes agree in every reachable state, reclamation
      never panics and removes exactly what its visitor decided, expiry cutoffs are exact.

    ** Bounds and fuel

    Loops over collections are structural recursions.  Fuel appears where the source loops
    until a condition: the digits of a decimal (fuel from the bit size of the number, shown
    enough by the decimal round trip), fixed-size records, UTF-8 sequences and MIME parameters
    (the number of bytes, each step taking at least one), the probe for a free sweep
    identifier ([len + 1] probes, shown enough by [table_insert_total]), the passes of
    expiry (the number of entries, each batch taking at least one), the planning loop of a
    walk (two passes: only a consumed primary is skipped, and only at the first position; shown
    enough by [walk_next_ok]), and its batch of granted targets (the number of targets).
    The eviction and the pop of the notices take one more step than there are notices, since
    each step drops a notice or puts a due one off; [notices_run_safe] shows it enough.
    Euclid's loop takes at most two steps for each bit of its second number, and one more,
    which [euclid_gcd] shows enough.
    A fill's 130 events come from [events_left], a bound that every event lowers: at most
    eleven positions of four events in each of two epochs, and two waits.

    ** Not modelled

    Asynchronous tasks, sockets, TLS, RDMA, GPU and the descriptors behind disk I/O; live
    snapshots of the store and their installation; cryptography, which is calls of
    third-party crates; telemetry; the simulator; the control plane; floating-point token
    buckets; and the Go programs, which are Kubernetes controllers, host agents and
    command-line tools of other systems of the repository. *)

From stdpp Require Export base tactics numbers list gmap sorting option relations.
From Stdlib Require Export Lia.

(** ** Results

    Rust's [Result<T, E>], with the [?] operator as a bind. *)

Inductive result (A E : Type) : Type :=
| Ok (a : A)
| Err (e : E).
Arguments Ok {A E} a.
Arguments Err {A E} e.

Declare Scope racer_scope.
Delimit Scope racer_scope with racer.

Definition result_bind {A B E} (r : result A E) (k : A → result B E) : result B E :=
  match r with
  | Ok a => k a
  | Err e => Err e
  end.

(** [Option::ok_or]. *)
Definition ok_or {A E} (o : option A) (e : E) : result A E :=
  match o with
  | Some a => Ok a
  | None => Err e
  end.

Definition is_some {A} (o : option A) : bool := match o with Some _ => true | None => false end.

Definition is_ok {A E} (r : result A E) : bool :=
  match r with
  | Ok _ => true
  | Err _ => false
  end.

Notation "'let?' x ':=' r 'in' k" :=
  (result_bind r (λ x, k))
  (at level 10, x pattern, r at level 100, k at level 200,
   format "'let?'  x  ':='  r  'in'  '//' k") : racer_scope.

#[export] Instance result_eq_dec {A E} `{EqDecision A, EqDecision E} : EqDecision (result A E).
Proof. solve_decision. Defined.

(** ** Machine integers

    Unsigned integers are [N]; a width enters where the source checks, saturates
    or wraps.  [saturating_sub] is [N.sub], which is already truncated. *)

Definition U8_MAX : N := 255.
Definition U16_MAX : N := 65535.
Definition U32_MAX : N := 4294967295.
Definition U64_MAX : N := 18446744073709551615.
Definition NANOS_PER_SECOND : N := 1000000000.
Definition USIZE_MAX : N := U64_MAX.

(** Instants and durations are nanoseconds. *)
Definition SECOND : N := 1000000000.

Definition checked_add (max a b : N) : option N :=
  if (a + b <=? max)%N then Some (a + b)%N else None.

Definition checked_sub (a b : N) : option N :=
  if (b <=? a)%N then Some (a - b)%N else None.

Definition checked_mul (max a b : N) : option N :=
  if (a * b <=? max)%N then Some (a * b)%N else None.

Definition saturating_add (max a b : N) : N := N.min (a + b) max.

Definition saturating_mul (max a b : N) : N := N.min (a * b) max.

Definition wrapping_add64 (a b : N) : N := ((a + b) mod 2 ^ 64)%N.

Definition wrapping_mul64 (a b : N) : N := ((a * b) mod 2 ^ 64)%N.

Definition div_ceil (a b : N) : N := ((a + b - 1) / b)%N.

(** Length of a slice as a machine word. *)
Definition len {A} (l : list A) : N := N.of_nat (length l).

(** [slice.contains]. *)
Definition contains_b {A} `{EqDecision A} (l : list A) (x : A) : bool := bool_decide (x ∈ l).

(** [iter().position]. *)
Fixpoint position {A} (p : A → bool) (l : list A) : option nat :=
  match l with
  | [] => None
  | x :: rest => if p x then Some 0%nat else S <$> position p rest
  end.

(** [sort_by]: a stable sort. *)
Fixpoint insert_by {A} (le : A → A → bool) (x : A) (l : list A) : list A :=
  match l with
  | [] => [x]
  | y :: l => if le x y then x :: y :: l else y :: insert_by le x l
  end.
Definition sort_by {A} (le : A → A → bool) (l : list A) : list A := foldr (insert_by le) [] l.

(** [Vec::swap_remove]: the last element takes the removed one's place. *)
Definition swap_remove {A} (i : nat) (l : list A) : option (A * list A) :=
  match l !! i with
  | None => None
  | Some x =>
      let init := take (length l - 1) l in
      Some (x, match last l with
               | Some y => if decide (i < length init)%nat then <[i := y]> init else init
               | None => init
               end)
  end.

(** [iter().enumerate().min_by_key]: the first of the least elements. *)
Fixpoint min_by_key {A} (key : A → N) (l : list A) : option (nat * A) :=
  match l with
  | [] => None
  | x :: rest =>
      match min_by_key key rest with
      | Some (i, y) => if (key x <=? key y)%N then Some (0%nat, x) else Some (S i, y)
      | None => Some (0%nat, x)
      end
  end.

(** [iter().take_while(p)]. *)
Fixpoint take_while {A} (p : A → bool) (l : list A) : list A :=
  match l with
  | [] => []
  | x :: rest => if p x then x :: take_while p rest else []
  end.

(** [iter().map(f).sum()]. *)
Definition sum_by {A} (f : A → N) (l : list A) : N := foldr (λ x n, f x + n)%N 0%N l.

(** [map.values().map(f).sum()]. *)
Definition map_sum {K A} `{Countable K} (f : A → N) (m : gmap K A) : N :=
  sum_by (λ kv, f kv.2) (map_to_list m).

(** ** Arithmetic facts *)

Lemma checked_sub_Some a b c : checked_sub a b = Some c ↔ (b ≤ a ∧ c = a - b)%N.
Proof. unfold checked_sub. destruct (N.leb_spec b a); naive_solver lia. Qed.

Lemma checked_sub_None a b : checked_sub a b = None ↔ (a < b)%N.
Proof. unfold checked_sub. destruct (N.leb_spec b a); naive_solver lia. Qed.

Lemma checked_add_Some m a b c : checked_add m a b = Some c ↔ (a + b ≤ m ∧ c = a + b)%N.
Proof. unfold checked_add. destruct (N.leb_spec (a + b) m); naive_solver lia. Qed.

Lemma checked_add_le m a b : (a + b ≤ m)%N → checked_add m a b = Some (a + b)%N.
Proof. intros. by apply checked_add_Some. Qed.

Lemma checked_mul_Some m a b c : checked_mul m a b = Some c ↔ (a * b ≤ m ∧ c = a * b)%N.
Proof. unfold checked_mul. destruct (N.leb_spec (a * b) m); naive_solver lia. Qed.

Lemma checked_mul_le m a b : (a * b ≤ m)%N → checked_mul m a b = Some (a * b)%N.
Proof. intros. by apply checked_mul_Some. Qed.

Lemma checked_add_None m a b : checked_add m a b = None ↔ (m < a + b)%N.
Proof. unfold checked_add. destruct (N.leb_spec (a + b) m); naive_solver lia. Qed.

Lemma ok_or_Ok {A E} (o : option A) (e : E) a : ok_or o e = Ok a ↔ o = Some a.
Proof. destruct o; naive_solver. Qed.

Lemma result_bind_Ok {A B E} (r : result A E) (k : A → result B E) b :
  result_bind r k = Ok b ↔ ∃ a, r = Ok a ∧ k a = Ok b.
Proof. destruct r; naive_solver. Qed.

Lemma sum_by_app {A} (f : A → N) l k : sum_by f (l ++ k) = (sum_by f l + sum_by f k)%N.
Proof. unfold sum_by. induction l as [|x l IH]; simpl; [done|]. rewrite IH. lia. Qed.

Lemma sum_by_perm {A} (f : A → N) l k : l ≡ₚ k → sum_by f l = sum_by f k.
Proof. unfold sum_by. induction 1; simpl; lia. Qed.

Section map_sum.
Context {K A : Type} `{Countable K} (f : A → N).
Implicit Types (m : gmap K A).

Lemma map_sum_empty : map_sum f (∅ : gmap K A) = 0%N.
Proof. unfold map_sum. by rewrite map_to_list_empty. Qed.

Lemma map_sum_insert_new m k x : m !! k = None → map_sum f (<[k := x]> m) = (f x + map_sum f m)%N.
Proof. intros Hk. unfold map_sum. by rewrite (sum_by_perm _ _ _ (map_to_list_insert m k x Hk)). Qed.

Lemma map_sum_lookup m k x : m !! k = Some x → map_sum f m = (f x + map_sum f (delete k m))%N.
Proof. intros Hk. unfold map_sum. by rewrite <- (sum_by_perm _ _ _ (map_to_list_delete m k x Hk)). Qed.

Lemma map_sum_update m k x y :
  m !! k = Some x → (map_sum f (<[k := y]> m) + f x = map_sum f m + f y)%N.
Proof.
  intros Hk. rewrite (map_sum_lookup m k x Hk), <- insert_delete_eq.
  rewrite map_sum_insert_new by apply lookup_delete_eq. lia.
Qed.

Lemma map_sum_filter (p : A → bool) m :
  map_sum f m =
  (map_sum f (filter (λ kv, p kv.2 = true) m) + map_sum f (filter (λ kv, p kv.2 = false) m))%N.
Proof.
  induction m as [|k x m Hk IH] using map_ind; [by rewrite !map_filter_empty, map_sum_empty|].
  rewrite map_sum_insert_new, IH by done. destruct (p x) eqn:Ep.
  - rewrite map_filter_insert_True, map_filter_insert_False, delete_id by (simpl; congruence || done).
    rewrite map_sum_insert_new by (apply map_lookup_filter_None; naive_solver). lia.
  - rewrite (map_filter_insert_False _ _ k x), delete_id by (simpl; congruence || done).
    rewrite map_filter_insert_True by done.
    rewrite map_sum_insert_new by (apply map_lookup_filter_None; naive_solver). lia.
Qed.
End map_sum.

Lemma position_Some {A} (p : A → bool) l i :
  position p l = Some i → ∃ x, l !! i = Some x ∧ p x = true.
Proof.
  revert i. induction l as [|x l IH]; intros i; simpl; [done|].
  destruct (p x) eqn:E; [intros [= <-]; eauto|]. intros (j & Hj & ->)%fmap_Some. eauto.
Qed.

Lemma position_None {A} (p : A → bool) l x : position p l = None → x ∈ l → p x = false.
Proof.
  induction l as [|y l IH]; simpl; [set_solver|]. destruct (p y) eqn:E; [done|].
  intros Hn%fmap_None [->|Hx]%elem_of_cons; auto.
Qed.

Lemma filter_sublist {X} (f : X → bool) l : sublist (List.filter f l) l.
Proof. induction l as [|x l IH]; simpl; [done|]. destruct (f x); by constructor. Qed.

Lemma elem_of_filter_b {X} (f : X → bool) l x : x ∈ List.filter f l ↔ x ∈ l ∧ f x = true.
Proof. by rewrite list_elem_of_In, filter_In, <- list_elem_of_In. Qed.

Lemma sorted_sublist {X} (R : X → X → Prop) l l' : sublist l' l → StronglySorted R l → StronglySorted R l'.
Proof.
  intros Hs. induction Hs as [|x l' l Hs IH|x l' l Hs IH]; intros Hl; [constructor|..]; apply StronglySorted_inv in Hl as [Hl Hx].
  - constructor; [by apply IH|]. rewrite Forall_forall in *. intros y Hy. apply Hx. by eapply elem_of_sublist.
  - by apply IH.
Qed.

Lemma filter_ext_members {X} (P Q : X → Prop) `{∀ x, Decision (P x)} `{∀ x, Decision (Q x)} (l : list X) :
  (∀ x, x ∈ l → P x ↔ Q x) → filter P l = filter Q l.
Proof.
  induction l as [|x l IH]; intros HPQ; [done|]. rewrite !filter_cons, IH by set_solver.
  repeat case_decide; (done || exfalso; set_solver).
Qed.

Lemma sorted_snoc {X} (R : X → X → Prop) l x : StronglySorted R l → Forall (λ a, R a x) l → StronglySorted R (l ++ [x]).
Proof.
  induction l as [|y l IH]; simpl; intros Hs Hf; [repeat constructor|]. apply StronglySorted_inv in Hs as [Hs Hy].
  apply Forall_cons in Hf as [Hx Hf]. constructor; [by apply IH|]. apply Forall_app. split; [done|by constructor].
Qed.

Lemma insert_size_le `{Countable K} {V} (m : gmap K V) k x n : (size m < n)%nat ∨ is_Some (m !! k) ∧ (size m ≤ n)%nat →
  (size (<[k := x]> m) ≤ n)%nat.
Proof.
  intros Hor. rewrite map_size_insert. destruct (m !! k) as [y|] eqn:E; unfold id; destruct Hor as [?|[[? ?] ?]]; done || lia.
Qed.

Lemma swap_remove_perm {A} i (l : list A) x l' : swap_remove i l = Some (x, l') → l ≡ₚ x :: l'.
Proof.
  unfold swap_remove. destruct (l !! i) as [z|] eqn:Hi; [|done]. intros [= <- <-].
  destruct (last l) as [y|] eqn:Hl; [|apply last_None in Hl; by subst].
  apply last_Some in Hl as [l0 ->]. rewrite length_app, Nat.add_sub, take_app_length. simpl.
  apply lookup_lt_Some in Hi as Hlt. rewrite length_app in Hlt. simpl in Hlt.
  case_decide as Hd.
  - rewrite lookup_app_l in Hi by done.
    rewrite <- (take_drop_middle l0 i z Hi) at 1. rewrite insert_take_drop by done.
    solve_Permutation.
  - assert (i = length l0) as -> by lia. rewrite list_lookup_middle in Hi by done.
    simplify_eq. by rewrite <- Permutation_cons_append.
Qed.

Lemma swap_remove_Some {A} i (l : list A) x : l !! i = Some x → ∃ l', swap_remove i l = Some (x, l').
Proof. unfold swap_remove. intros ->. eauto. Qed.

Lemma min_by_key_Some {A} (key : A → N) l i x :
  min_by_key key l = Some (i, x) → l !! i = Some x ∧ ∀ y, y ∈ l → (key x ≤ key y)%N.
Proof.
  revert i x. induction l as [|y l IH]; intros i x; simpl; [done|].
  destruct (min_by_key key l) as [[j z]|] eqn:E.
  - destruct (IH j z eq_refl) as [Hj Hz]. destruct (N.leb_spec (key y) (key z)); intros [= <- <-].
    + split; [done|]. intros w [->|Hw]%elem_of_cons; [lia|]. specialize (Hz w Hw). lia.
    + split; [done|]. intros w [->|Hw]%elem_of_cons; [lia|]. auto.
  - intros [= <- <-]. split; [done|]. intros w [->|Hw]%elem_of_cons; [lia|].
    destruct l as [|w' l]; [set_solver|]. simpl in E. destruct (min_by_key key l) as [[]|]; [case_match|]; done.
Qed.

Lemma min_by_key_None {A} (key : A → N) l : min_by_key key l = None → l = [].
Proof. destruct l; simpl; [done|]. destruct (min_by_key key l) as [[]|]; [case_match|]; done. Qed.

Lemma len_app {A} (l k : list A) : len (l ++ k) = (len l + len k)%N.
Proof. unfold len. rewrite length_app. lia. Qed.

Lemma len_cons {A} (x : A) l : len (x :: l) = (len l + 1)%N.
Proof. unfold len. simpl. lia. Qed.

Lemma len_nil {A} : len (@nil A) = 0%N.
Proof. done. Qed.

Lemma filter_all {A} (P : A → Prop) `{∀ x, Decision (P x)} (l : list A) : (∀ x, x ∈ l → P x) → filter P l = l.
Proof.
  induction l as [|x l IH]; intros Hl; [done|]. rewrite filter_cons_True by (apply Hl; left).
  f_equal. apply IH. intros y Hy. apply Hl. by right.
Qed.

Lemma filter_none {A} (P : A → Prop) `{∀ x, Decision (P x)} (l : list A) : (∀ x, x ∈ l → ¬ P x) → filter P l = [].
Proof.
  induction l as [|x l IH]; intros Hl; [done|]. rewrite filter_cons_False by (apply Hl; left).
  apply IH. intros y Hy. apply Hl. by right.
Qed.

Lemma filter_iff_elem {A} (P Q : A → Prop) `{∀ x, Decision (P x), ∀ x, Decision (Q x)} (l : list A) :
  (∀ x, x ∈ l → P x ↔ Q x) → filter P l = filter Q l.
Proof.
  induction l as [|x l IH]; intros Hl; [done|]. rewrite !filter_cons.
  assert (P x ↔ Q x) as HPQ by (apply Hl; left).
  rewrite IH by (intros; apply Hl; by right).
  destruct (decide (P x)), (decide (Q x)); tauto.
Qed.

Lemma filter_fmap {A B} (f : A → B) (P : B → Prop) `{∀ x, Decision (P x)} (l : list A) :
  filter P (f <$> l) = f <$> filter (λ x, P (f x)) l.
Proof.
  induction l as [|x l IH]; [done|]. rewrite fmap_cons, !filter_cons.
  destruct (decide (P (f x))); [by rewrite IH|done].
Qed.

Lemma elem_of_take_weak {A} n (l : list A) x : x ∈ take n l → x ∈ l.
Proof. intros (i & Hi & _)%elem_of_take. by eapply list_elem_of_lookup_2. Qed.

Lemma sorted_filter {A} (R : relation A) (P : A → Prop) `{∀ x, Decision (P x)} (l : list A) :
  StronglySorted R l → StronglySorted R (filter P l).
Proof.
  induction 1 as [|x l Hs IH Hall]; [constructor|]. rewrite filter_cons.
  case_decide; [|done]. constructor; [done|]. rewrite Forall_forall in Hall |- *.
  intros y [_ ?]%list_elem_of_filter. by apply Hall.
Qed.

(** On a sorted list, the elements up to a bound are a prefix. *)
Lemma take_while_sorted {A} (R : relation A) `{!RelDecision R, !Transitive R} c (l : list A) :
  StronglySorted R l → take_while (λ x, bool_decide (R x c)) l = filter (λ x, R x c) l.
Proof.
  induction 1 as [|x l Hs IH Hall]; [done|]. simpl. rewrite filter_cons.
  case_bool_decide; [rewrite decide_True by done; by rewrite IH|].
  rewrite decide_False by done. symmetry. apply filter_none. intros y Hy Hyc.
  rewrite Forall_forall in Hall. specialize (Hall y Hy). by assert (R x c) by by etrans.
Qed.

(** ** Sorting *)

Section sort_by.
Context {A : Type} (le : A → A → bool).

Lemma insert_by_perm x l : insert_by le x l ≡ₚ x :: l.
Proof. induction l as [|y l IH]; simpl; [done|]. destruct (le x y); [done|]. rewrite IH. apply Permutation_swap. Qed.

Lemma sort_by_perm l : sort_by le l ≡ₚ l.
Proof. induction l as [|x l IH]; simpl; [done|]. rewrite insert_by_perm. by f_equiv. Qed.

Lemma sort_by_id l : StronglySorted (λ x y, le x y = true) l → sort_by le l = l.
Proof.
  induction 1 as [|x l Hs IH Hall]; simpl; [done|]. rewrite IH. destruct l as [|y l]; simpl; [done|].
  apply Forall_cons in Hall as [-> _]. done.
Qed.

Context (le_total : ∀ x y, le x y = true ∨ le y x = true) (le_trans : ∀ x y z, le x y = true → le y z = true → le x z = true).

Lemma insert_by_sorted x l : StronglySorted (λ x y, le x y = true) l → StronglySorted (λ x y, le x y = true) (insert_by le x l).
Proof.
  induction 1 as [|y l Hs IH Hall]; simpl; [repeat constructor|]. destruct (le x y) eqn:E.
  - constructor; [by constructor|]. constructor; [done|]. eapply Forall_impl; [exact Hall|]. eauto.
  - constructor; [done|]. rewrite insert_by_perm. constructor; [|done]. destruct (le_total x y); [congruence|done].
Qed.

Lemma sort_by_sorted l : StronglySorted (λ x y, le x y = true) (sort_by le l).
Proof. induction l as [|x l IH]; simpl; [constructor|]. by apply insert_by_sorted. Qed.

(** A sort on an antisymmetric order does not depend on the order of its input. *)
Lemma sort_by_unique l k : (∀ x y, x ∈ l → y ∈ l → le x y = true → le y x = true → x = y) → l ≡ₚ k → sort_by le l = sort_by le k.
Proof.
  intros Hanti Hp. apply StronglySorted_unique_strong with (R := λ x y, le x y = true); [|apply sort_by_sorted..|by rewrite !sort_by_perm].
  intros x y Hx Hy Hxy Hyx. rewrite sort_by_perm in Hx, Hy. apply Hanti; [done|by rewrite Hp|done|done].
Qed.

End sort_by.

(** ** Ordered maps

    [BTreeMap] iteration: the entries of a finite map in increasing key order. *)

Section ordered.
Context {K : Type} `{Countable K} (R : relation K) `{!RelDecision R} `{!PartialOrder R} `{!Total R}.
Context {V : Type}.
Implicit Types m : gmap K V.

Definition key_le (p q : K * V) : Prop := R p.1 q.1.

#[local] Instance key_le_dec : RelDecision key_le.
Proof. intros p q. unfold key_le. apply _. Defined.

#[local] Instance key_le_trans : Transitive key_le.
Proof. intros p q r. unfold key_le. intros; by etrans. Qed.

#[local] Instance key_le_total : Total key_le.
Proof. intros p q. unfold key_le. apply (total R). Qed.

Definition btree_iter (m : gmap K V) : list (K * V) := merge_sort key_le (map_to_list m).

Lemma btree_iter_perm m : btree_iter m ≡ₚ map_to_list m.
Proof. apply merge_sort_Permutation. Qed.

Lemma elem_of_btree_iter m k v : (k, v) ∈ btree_iter m ↔ m !! k = Some v.
Proof. rewrite btree_iter_perm. apply elem_of_map_to_list. Qed.

Lemma btree_iter_NoDup m : NoDup (btree_iter m).*1.
Proof. rewrite btree_iter_perm. apply NoDup_fst_map_to_list. Qed.

Lemma btree_iter_length m : length (btree_iter m) = size m.
Proof. rewrite btree_iter_perm. apply length_map_to_list. Qed.

Lemma btree_iter_sorted m : StronglySorted key_le (btree_iter m).
Proof. apply StronglySorted_merge_sort; apply _. Qed.

(** The iteration order does not depend on how the map is represented. *)
Lemma btree_iter_unique m l :
  l ≡ₚ map_to_list m → StronglySorted key_le l → btree_iter m = l.
Proof.
  intros Hp Hs. apply StronglySorted_unique_strong with (R := key_le);
    [|apply btree_iter_sorted|done|by rewrite btree_iter_perm].
  intros [k1 v1] [k2 v2] H1 H2 Hle Hge. unfold key_le in *. simpl in *.
  assert (k1 = k2) as -> by by apply (anti_symm R).
  apply elem_of_btree_iter in H1. rewrite Hp, elem_of_map_to_list in H2. congruence.
Qed.
End ordered.

(** The trait [Ord], as far as a [BTreeMap] key uses it: a decidable total order. *)
Class Ord (A : Type) `{Countable A} := {
  ord_le : relation A;
  ord_dec :: RelDecision ord_le;
  ord_partial :: PartialOrder ord_le;
  ord_total :: Total ord_le;
}.

#[export] Instance N_ord : Ord N.
Proof. refine {| ord_le := N.le |}. Defined.

(** Tuples compare lexicographically. *)
Definition pair_le (p q : N * N) : Prop := (p.1 < q.1 ∨ p.1 = q.1 ∧ p.2 ≤ q.2)%N.

#[export] Instance pair_le_dec : RelDecision pair_le.
Proof. intros p q. unfold pair_le. apply _. Defined.

#[export] Instance pair_ord : Ord (N * N).
Proof.
  refine {| ord_le := pair_le |}; unfold pair_le.
  - split; [split|].
    + intros [a b]. simpl. lia.
    + intros [a b] [c d] [e f]. simpl. lia.
    + intros [a b] [c d]. simpl. intros. f_equal; lia.
  - intros [a b] [c d]. simpl. lia.
Defined.

(** ** Wrapping iteration

    [m.range((Excluded(cur), Unbounded)).chain(m.range(..=cur))]. *)
Section wrap.
Context {A : Type} `{Ord A} {V : Type}.

Definition wrap_from (m : gmap A V) (cur : A) : list (A * V) :=
  filter (λ p, ¬ ord_le p.1 cur) (btree_iter ord_le m) ++
  filter (λ p, ord_le p.1 cur) (btree_iter ord_le m).

Lemma wrap_from_perm m cur : wrap_from m cur ≡ₚ map_to_list m.
Proof.
  unfold wrap_from. rewrite <- (btree_iter_perm ord_le m).
  induction (btree_iter ord_le m) as [|p l IH]; [done|]. rewrite !filter_cons.
  destruct (decide (ord_le p.1 cur)), (decide (¬ ord_le p.1 cur)); try done.
  - by rewrite <- Permutation_middle, IH.
  - simpl. by rewrite IH.
Qed.

Lemma elem_of_wrap_from m cur k v : (k, v) ∈ wrap_from m cur ↔ m !! k = Some v.
Proof. rewrite wrap_from_perm. apply elem_of_map_to_list. Qed.

Lemma wrap_from_NoDup m cur : NoDup (wrap_from m cur).*1.
Proof. rewrite wrap_from_perm. apply NoDup_fst_map_to_list. Qed.

Lemma wrap_from_length m cur : length (wrap_from m cur) = size m.
Proof. rewrite wrap_from_perm. apply length_map_to_list. Qed.

(** Cutting the iteration at an entry makes the cursor at that entry a rotation. *)
Lemma wrap_from_cut (m : gmap A V) X k v Y :
  btree_iter ord_le m = X ++ (k, v) :: Y → wrap_from m k = Y ++ X ++ [(k, v)].
Proof.
  intros E. unfold wrap_from.
  pose proof (btree_iter_sorted ord_le m) as Hs. pose proof (btree_iter_NoDup ord_le m) as Hnd.
  rewrite E in Hs, Hnd |- *.
  apply StronglySorted_app in Hs as (Hcross & _ & Hs).
  apply StronglySorted_cons in Hs as [Hs _].
  rewrite fmap_app, fmap_cons in Hnd.
  apply NoDup_app in Hnd as (_ & _ & Hnd). apply NoDup_cons in Hnd as [Hk _].
  assert (∀ p, p ∈ X → ord_le p.1 k) as HX.
  { intros p Hp. apply (Hcross p (k, v)); [done|apply list_elem_of_here]. }
  assert (∀ p, p ∈ Y → ¬ ord_le p.1 k) as HY.
  { intros p Hp Hle. pose proof (proj1 (Forall_forall _ _) Hs p Hp) as Hkp.
    unfold key_le in Hkp. simpl in Hkp.
    assert (k = p.1) as -> by by apply (anti_symm ord_le).
    apply Hk. apply list_elem_of_fmap. by exists p. }
  rewrite !filter_app, !filter_cons.
  rewrite decide_False by (simpl; intros Hn; by apply Hn). rewrite decide_True by done.
  rewrite (filter_none _ X) by (intros p Hp Hn; by apply Hn, HX).
  rewrite (filter_all _ Y) by done. rewrite (filter_all _ X) by done.
  by rewrite (filter_none _ Y) by done.
Qed.

Lemma wrap_from_head (m : gmap A V) cur k v rest :
  wrap_from m cur = (k, v) :: rest → ∃ X Y, btree_iter ord_le m = X ++ (k, v) :: Y ∧ rest = Y ++ X.
Proof.
  unfold wrap_from. pose proof (btree_iter_sorted ord_le m) as Hs.
  assert (btree_iter ord_le m = filter (λ p, ord_le p.1 cur) (btree_iter ord_le m) ++
                                filter (λ p, ¬ ord_le p.1 cur) (btree_iter ord_le m)) as Hsplit.
  { induction Hs as [|p L Hs IH Hall]; [done|]. rewrite !filter_cons.
    destruct (decide (ord_le p.1 cur)) as [Hle|Hgt], (decide (¬ ord_le p.1 cur)); try done.
    - simpl. by rewrite <- IH.
    - assert (∀ q, q ∈ L → ¬ ord_le q.1 cur) as HL.
      { intros q Hq Hqc. apply Hgt. rewrite Forall_forall in Hall. specialize (Hall q Hq).
        unfold key_le in Hall. by etrans. }
      rewrite (filter_none (λ p, ord_le p.1 cur) L) by done.
      by rewrite (filter_all (λ p, ¬ ord_le p.1 cur) L) by done. }
  destruct (filter (λ p, ¬ ord_le p.1 cur) (btree_iter ord_le m)) as [|q Y] eqn:EY.
  - intros E. simpl in E. rewrite app_nil_r in Hsplit. rewrite E in Hsplit. exists [], rest. by rewrite app_nil_r.
  - intros E. simpl in E. injection E as -> <-.
    by exists (filter (λ p, ord_le p.1 cur) (btree_iter ord_le m)), Y.
Qed.

(** Moving the cursor to the entry just visited. *)
Lemma wrap_from_step (m : gmap A V) cur k v rest :
  wrap_from m cur = (k, v) :: rest → wrap_from m k = rest ++ [(k, v)].
Proof.
  intros (X & Y & Hm & ->)%wrap_from_head. rewrite (wrap_from_cut m X k v Y) by done.
  by rewrite <- (assoc_L (++)).
Qed.

Lemma btree_iter_delete (m : gmap A V) k :
  btree_iter ord_le (delete k m) = filter (λ p, p.1 ≠ k) (btree_iter ord_le m).
Proof.
  apply btree_iter_unique; try apply _.
  - apply NoDup_Permutation.
    + apply NoDup_filter. eapply NoDup_fmap_1, btree_iter_NoDup.
    + apply NoDup_map_to_list.
    + intros [k' v']. rewrite list_elem_of_filter, elem_of_btree_iter, elem_of_map_to_list, lookup_delete_Some.
      simpl. naive_solver.
  - apply sorted_filter, btree_iter_sorted; apply _.
Qed.

(** Moving the cursor to the entry just visited and removed. *)
Lemma wrap_from_step_delete (m : gmap A V) cur k v rest :
  wrap_from m cur = (k, v) :: rest → wrap_from (delete k m) k = rest.
Proof.
  intros E. apply wrap_from_step in E. unfold wrap_from in *. rewrite btree_iter_delete.
  assert (∀ (Q : A * V → Prop) `{∀ x, Decision (Q x)} (l : list (A * V)),
    filter Q (filter (λ p, p.1 ≠ k) l) = filter (λ p, p.1 ≠ k) (filter Q l)) as Hcomm.
  { intros Q ? l. rewrite !list_filter_filter. apply list_filter_iff. intros x. tauto. }
  rewrite !Hcomm, <- filter_app, E.
  pose proof (wrap_from_NoDup m k) as Hnd. unfold wrap_from in Hnd. rewrite E, fmap_app in Hnd.
  apply NoDup_app in Hnd as (_ & Hdis & _).
  rewrite filter_app, (filter_none _ [(k, v)]), app_nil_r.
  - apply filter_all. intros [k' v'] Hin. simpl. intros ->. apply (Hdis k).
    + apply list_elem_of_fmap. by exists (k, v').
    + apply list_elem_of_here.
  - intros p ->%list_elem_of_singleton. simpl. tauto.
Qed.
End wrap.

(** The order after an entry takes the newest tick. *)
Lemma btree_iter_newest {X} (m : gmap N X) old new id :
  (∀ t i, m !! t = Some i → (t < new)%N) →
  btree_iter ord_le (<[new := id]> (delete old m)) =
  filter (λ p, p.1 ≠ old) (btree_iter ord_le m) ++ [(new, id)].
Proof.
  intros Hnew. apply btree_iter_unique; try apply _.
  - rewrite map_to_list_insert.
    2:{ apply lookup_delete_None. right. apply eq_None_ne_Some. intros i Hi. apply Hnew in Hi. lia. }
    rewrite Permutation_app_comm. cbn [app]. constructor.
    apply NoDup_Permutation.
    { apply NoDup_filter. eapply NoDup_fmap_1, btree_iter_NoDup. }
    { apply NoDup_map_to_list. }
    intros [t i].
    rewrite list_elem_of_filter, elem_of_btree_iter, elem_of_map_to_list, lookup_delete_Some.
    simpl. naive_solver.
  - apply StronglySorted_app. split_and!.
    + intros [t i] p [_ Hi%elem_of_btree_iter]%list_elem_of_filter ->%list_elem_of_singleton;
        try apply _. unfold key_le. simpl. apply Hnew in Hi. lia.
    + apply sorted_filter, btree_iter_sorted; apply _.
    + repeat constructor.
Qed.

Lemma btree_iter_snoc {X} (m : gmap N X) new id :
  (∀ t i, m !! t = Some i → (t < new)%N) → btree_iter ord_le (<[new := id]> m) = btree_iter ord_le m ++ [(new, id)].
Proof.
  intros Hnew. rewrite <- (delete_id m new) at 1.
  2: { apply eq_None_ne_Some. intros i Hi. apply Hnew in Hi. lia. }
  rewrite btree_iter_newest by done. f_equal. apply filter_all. intros [t i] Hi%elem_of_btree_iter; [|apply _..].
  simpl. intros ->. apply Hnew in Hi. lia.
Qed.
