(* ===== verification/Bytes.v ===== *)
(** * Byte strings

    Bytes, big-endian integers, fixed-size records, and the byte-string and ASCII operations
    of the Rust standard library the wire components use.  A byte is an [N] below 256; a byte
    string, and the bytes of a [String], are lists of bytes. *)

From S2P Require Import Prelude.
From stdpp Require Export strings.
From Stdlib Require String Ascii.

(** ** Literals *)

(** [b"..."]. *)
Definition lit (s : string) : list N := Ascii.N_of_ascii <$> String.list_ascii_of_string s.

(** ** Integers and records *)

(** [to_be_bytes] of an integer of [n] bytes. *)
Fixpoint be_bytes (n : nat) (v : N) : list N :=
  match n with
  | 0 => []
  | S n => be_bytes n (v / 256) ++ [v mod 256]%N
  end.

(** [from_be_bytes]. *)
Definition from_be_bytes (bs : list N) : N := foldl (λ acc b, acc * 256 + b)%N 0%N bs.

(** [chunks_exact(n)]: the fuel is the number of bytes, enough for any positive [n]. *)
Fixpoint chunks_exact_from {A} (fuel n : nat) (l : list A) : list (list A) :=
  match fuel with
  | 0 => []
  | S fuel => if bool_decide (length l < n) then [] else take n l :: chunks_exact_from fuel n (drop n l)
  end.

Definition chunks_exact {A} (n : nat) (l : list A) : list (list A) := chunks_exact_from (length l) n l.


(** ** Slices *)

(** [slice::strip_prefix]. *)
Fixpoint strip_prefix (p l : list N) : option (list N) :=
  match p, l with
  | [], _ => Some l
  | a :: p, b :: l => if (a =? b)%N then strip_prefix p l else None
  | _ :: _, [] => None
  end.

Definition starts_with (l p : list N) : bool := is_some (strip_prefix p l).

(** [slice::strip_suffix] of one byte. *)
Definition strip_last (b : N) (l : list N) : option (list N) :=
  match last l with
  | Some x => if (x =? b)%N then Some (take (length l - 1) l) else None
  | None => None
  end.

(** [slice::split] on one byte: one part more than there are separators. *)
Fixpoint split_on (sep : N) (l : list N) : list (list N) :=
  match l with
  | [] => [[]]
  | b :: l =>
      match split_on sep l with
      | part :: parts => if (b =? sep)%N then [] :: part :: parts else (b :: part) :: parts
      | [] => [[b]]
      end
  end.

(** ** ASCII *)

Definition is_ascii_digit (b : N) : bool := ((48 <=? b) && (b <=? 57))%N.
Definition is_ascii_upper (b : N) : bool := ((65 <=? b) && (b <=? 90))%N.
Definition is_ascii_lower (b : N) : bool := ((97 <=? b) && (b <=? 122))%N.
Definition is_ascii_alphanumeric (b : N) : bool := is_ascii_digit b || is_ascii_upper b || is_ascii_lower b.

Definition to_ascii_lowercase (b : N) : N := if is_ascii_upper b then (b + 32)%N else b.

(** [<[u8]>::eq_ignore_ascii_case]. *)
Definition eq_ignore_ascii_case (a b : list N) : bool :=
  bool_decide ((to_ascii_lowercase <$> a) = (to_ascii_lowercase <$> b)).

(** ** UTF-8

    [std::str::from_utf8]: well-formed sequences of one to four bytes, without surrogates,
    overlong forms or code points above U+10FFFF. *)

Definition continuation (b : N) : bool := ((128 <=? b) && (b <=? 191))%N.

(** The fuel is the length: every sequence takes at least one byte. *)
Fixpoint utf8_from (fuel : nat) (l : list N) : bool :=
  match fuel with
  | 0 => true
  | S fuel =>
      match l with
      | [] => true
      | a :: l =>
          if (a <=? 127)%N then utf8_from fuel l
          else
            match l with
            | b :: l =>
                if ((194 <=? a) && (a <=? 223))%N then continuation b && utf8_from fuel l
                else
                  match l with
                  | c :: l =>
                      let second :=
                        if (a =? 224)%N then ((160 <=? b) && (b <=? 191))%N
                        else if (a =? 237)%N then ((128 <=? b) && (b <=? 159))%N
                        else ((225 <=? a) && (a <=? 239))%N && continuation b in
                      if ((224 <=? a) && (a <=? 239))%N then second && continuation c && utf8_from fuel l
                      else
                        match l with
                        | d :: l =>
                            let second :=
                              if (a =? 240)%N then ((144 <=? b) && (b <=? 191))%N
                              else if (a =? 244)%N then ((128 <=? b) && (b <=? 143))%N
                              else ((241 <=? a) && (a <=? 243))%N && continuation b in
                            second && continuation c && continuation d && utf8_from fuel l
                        | [] => false
                        end
                  | [] => false
                  end
            | [] => false
            end
      end
  end.

Definition from_utf8 (l : list N) : option (list N) := if utf8_from (length l) l then Some l else None.

Lemma from_utf8_ascii l : Forall (λ b, b ≤ 127)%N l → from_utf8 l = Some l.
Proof.
  intros Hl. unfold from_utf8. assert (utf8_from (length l) l = true) as ->; [|done].
  induction Hl as [|b l Hb Hl IH]; [done|]. simpl. by rewrite (proj2 (N.leb_le b 127) Hb).
Qed.

Lemma from_utf8_Some l l' : from_utf8 l = Some l' → l' = l.
Proof. unfold from_utf8. destruct (utf8_from _ _); naive_solver. Qed.

(** ** Decimal text *)

Definition digit (d : N) : N := (48 + d)%N.

(** [n.to_string()]; twenty digits hold any [u64] and 39 any [u128]. *)
Fixpoint decimal_digits (fuel : nat) (n : N) : list N :=
  match fuel with
  | 0 => []
  | S fuel => if (n <? 10)%N then [digit n] else decimal_digits fuel (n / 10) ++ [digit (n mod 10)]
  end.

Definition to_decimal (n : N) : list N := decimal_digits 39 n.

(** ** Record lemmas *)

Definition bytes_ok (bs : list N) : Prop := Forall (λ b, b < 256)%N bs.

Lemma be_bytes_length n v : length (be_bytes n v) = n.
Proof. revert v. induction n as [|n IH]; intros v; [done|]. simpl. rewrite length_app, IH. simpl. lia. Qed.

Lemma be_bytes_ok n v : bytes_ok (be_bytes n v).
Proof.
  revert v. induction n as [|n IH]; intros v; [constructor|]. apply Forall_app. split; [apply IH|].
  constructor; [|constructor]. by apply N.mod_lt.
Qed.

Lemma from_be_bytes_snoc bs b : from_be_bytes (bs ++ [b]) = (from_be_bytes bs * 256 + b)%N.
Proof. unfold from_be_bytes. by rewrite foldl_app. Qed.

Lemma from_be_to_be n v : (v < 256 ^ N.of_nat n)%N → from_be_bytes (be_bytes n v) = v.
Proof.
  revert v. induction n as [|n IH]; intros v Hv; [change (256 ^ N.of_nat 0)%N with 1%N in Hv; simpl; unfold from_be_bytes; simpl; lia|].
  cbn [be_bytes]. rewrite from_be_bytes_snoc, IH.
  - pose proof (N.div_mod v 256). lia.
  - apply N.Div0.div_lt_upper_bound. rewrite Nat2N.inj_succ, N.pow_succ_r' in Hv. lia.
Qed.

Lemma to_be_from_be bs : bytes_ok bs → be_bytes (length bs) (from_be_bytes bs) = bs.
Proof.
  induction bs as [|b bs IH] using rev_ind; intros Hb; [done|].
  apply Forall_app in Hb as [Hbs Hb]. rewrite Forall_singleton in Hb.
  rewrite length_app, from_be_bytes_snoc, Nat.add_comm. cbn [length Nat.add be_bytes].
  rewrite (N.div_add_l _ 256) by done. rewrite (N.div_small b) by done.
  rewrite N.add_0_r, IH by done. f_equal. f_equal.
  rewrite (N.add_comm (_ * _)), N.Div0.mod_add. by apply N.mod_small.
Qed.

Lemma from_be_bytes_bound bs : bytes_ok bs → (from_be_bytes bs < 256 ^ len bs)%N.
Proof.
  induction bs as [|b bs IH] using rev_ind; intros Hb; [done|].
  apply Forall_app in Hb as [Hbs Hb]. rewrite Forall_singleton in Hb. specialize (IH Hbs).
  rewrite from_be_bytes_snoc, len_app, len_cons. change (len (@nil N)) with 0%N.
  change (0 + 1)%N with 1%N. rewrite N.pow_add_r, N.pow_1_r. lia.
Qed.

(** Cutting a concatenation of records of one size gives the records back. *)
Lemma chunks_exact_concat {A} n (rs : list (list A)) fuel :
  0 < n → Forall (λ r, length r = n) rs → length rs ≤ fuel →
  chunks_exact_from fuel n (concat rs) = rs.
Proof.
  intros Hn. revert fuel. induction rs as [|r rs IH]; intros fuel Hl Hf.
  - destruct fuel; [done|]. simpl. rewrite bool_decide_true by lia. done.
  - apply Forall_cons in Hl as [Hr Hl]. destruct fuel as [|fuel]; [simpl in Hf; lia|].
    cbn [concat chunks_exact_from]. rewrite bool_decide_false by (rewrite length_app; lia).
    rewrite <- Hr at 1 3. rewrite take_app_length, drop_app_length.
    rewrite IH; [done|done|]. simpl in Hf. lia.
Qed.

Lemma chunks_exact_join {A} n (l : list A) fuel :
  0 < n → length l mod n = 0 → length l ≤ fuel →
  concat (chunks_exact_from fuel n l) = l ∧ Forall (λ r, length r = n) (chunks_exact_from fuel n l).
Proof.
  intros Hn. revert l. induction fuel as [|fuel IH]; intros l Hm Hf.
  - destruct l; [done|simpl in Hf; lia].
  - cbn [chunks_exact_from]. case_bool_decide as Hlt.
    + rewrite Nat.mod_small in Hm by done. by destruct l.
    + destruct (IH (drop n l)) as [Hc Hall].
      * rewrite length_drop. rewrite <- (Nat.Div0.mod_add (length l - n) 1 n).
        by replace (length l - n + 1 * n) with (length l) by lia.
      * rewrite length_drop. lia.
      * split; [cbn [concat]; by rewrite Hc, take_drop|].
        constructor; [rewrite length_take; lia|done].
Qed.

Lemma bind_concat {A B} (f : A → list B) (l : list A) : l ≫= f = concat (f <$> l).
Proof. induction l as [|x l IH]; [done|]. csimpl. by rewrite IH. Qed.

Section records.
Context {A : Type} (n : nat) (enc : A → list N).
Hypothesis enc_length : ∀ x, length (enc x) = n.
Hypothesis n_pos : 0 < n.

Lemma records_length (l : list A) : length (l ≫= enc) = length l * n.
Proof using enc_length.
  clear n_pos.
  induction l as [|x l IH]; [done|]. csimpl. rewrite length_app, IH, enc_length. lia.
Qed.

(** Cutting encoded records. *)
Lemma records_cut (l : list A) : chunks_exact n (l ≫= enc) = enc <$> l.
Proof.
  unfold chunks_exact. rewrite records_length, bind_concat. apply chunks_exact_concat; [done| |].
  - apply Forall_fmap, Forall_forall. intros x _. apply enc_length.
  - rewrite length_fmap. nia.
Qed.

(** Decoding each record of a cut and encoding it again restores the bytes. *)
Lemma records_uncut (bs : list N) (dec : list N → option A) l :
  bytes_ok bs → length bs mod n = 0 →
  (∀ r x, length r = n → bytes_ok r → dec r = Some x → enc x = r) →
  mapM dec (chunks_exact n bs) = Some l → l ≫= enc = bs.
Proof.
  intros Hb Hm Hdec Hl. destruct (chunks_exact_join n bs (length bs)) as [Hc Hall]; [done|done|done|].
  fold (chunks_exact n bs) in Hc, Hall.
  assert (Forall bytes_ok (chunks_exact n bs)) as Hok.
  { rewrite <- Hc in Hb. apply Forall_forall. intros r Hr. apply Forall_forall. intros b Hbr.
    unfold bytes_ok in Hb. rewrite Forall_forall in Hb. apply Hb.
    apply list_elem_of_In, in_concat. exists r. by rewrite <- !list_elem_of_In. }
  rewrite bind_concat, <- Hc. f_equal. clear Hc. apply mapM_Some in Hl.
  induction Hl as [|r x rs l Hr Hl IH]; [done|].
  apply Forall_cons in Hall as [Hn Hall]. apply Forall_cons in Hok as [Hbr Hok].
  csimpl. by rewrite IH, (Hdec r x).
Qed.
End records.

Lemma mapM_from_fmap {A B} (f : A → B) l : mapM (λ x, Some (f x)) l = Some (f <$> l).
Proof. induction l as [|x l IH]; [done|]. simpl. by rewrite IH. Qed.

(** ** Decimal lemmas *)

(** The value of a string of digits, most significant first. *)
Definition digits_value (l : list N) : N := foldl (λ acc b, acc * 10 + (b - 48))%N 0%N l.

Lemma digits_value_snoc l b : digits_value (l ++ [b]) = (digits_value l * 10 + (b - 48))%N.
Proof. unfold digits_value. by rewrite foldl_app. Qed.

Lemma is_ascii_digit_digit d : (d < 10)%N → is_ascii_digit (digit d) = true.
Proof. unfold is_ascii_digit, digit. intros Hd. apply andb_true_iff. rewrite !N.leb_le. lia. Qed.

(** The digits of a number evaluate to it, and only zero starts with a zero. *)
Lemma decimal_digits_spec fuel n :
  (n < 10 ^ N.of_nat (S fuel))%N →
  let l := decimal_digits (S fuel) n in
  forallb is_ascii_digit l = true ∧ digits_value l = n ∧ l ≠ [] ∧ (head l = Some 48%N → l = [48%N]).
Proof.
  revert n. induction fuel as [|fuel IH]; intros n Hn.
  - change (10 ^ N.of_nat 1)%N with 10%N in Hn. cbn [decimal_digits].
    rewrite (proj2 (N.ltb_lt n 10) Hn). cbn [forallb]. rewrite is_ascii_digit_digit by done.
    split_and!; [done|unfold digits_value, digit; simpl; lia|done|simpl; congruence].
  - change (decimal_digits (S (S fuel)) n)
      with (if (n <? 10)%N then [digit n] else decimal_digits (S fuel) (n / 10) ++ [digit (n mod 10)%N]).
    destruct (N.ltb_spec n 10) as [Hlt|Hge]; cbv zeta.
    + cbn [forallb]. rewrite is_ascii_digit_digit by done.
      split_and!; [done|unfold digits_value, digit; simpl; lia|done|simpl; congruence].
    + destruct (IH (n / 10)%N) as (Hd & Hv & Hne & Hh).
      { apply N.Div0.div_lt_upper_bound. rewrite (Nat2N.inj_succ (S fuel)), N.pow_succ_r' in Hn. lia. }
      pose proof (N.mod_lt n 10 ltac:(done)). pose proof (N.div_mod n 10 ltac:(done)).
      split_and!.
      * rewrite forallb_app, Hd. cbn [forallb]. rewrite is_ascii_digit_digit by lia. done.
      * rewrite digits_value_snoc, Hv. unfold digit. clear - H H0. set (q := (n / 10)%N) in *. set (r := (n mod 10)%N) in *. clearbody q r. lia.
      * by destruct (decimal_digits (S fuel) (n / 10)).
      * destruct (decimal_digits (S fuel) (n / 10)) as [|x l] eqn:El; [done|]. intros Hx.
        apply Hh in Hx. injection Hx as -> ->.
        exfalso. change (digits_value [48%N]) with 0%N in Hv. lia.
Qed.

Lemma to_decimal_spec n :
  (n ≤ U64_MAX)%N →
  forallb is_ascii_digit (to_decimal n) = true ∧ digits_value (to_decimal n) = n ∧ to_decimal n ≠ [] ∧
  (head (to_decimal n) = Some 48%N → to_decimal n = [48%N]).
Proof.
  intros Hn. apply (decimal_digits_spec 38). apply (N.le_lt_trans _ _ _ Hn). vm_compute. reflexivity.
Qed.

(** ** Slice lemmas *)

Lemma forallb_elem {A} (p : A → bool) l x : forallb p l = true → x ∈ l → p x = true.
Proof. intros Hp Hx. eapply forallb_forall; [done|by apply list_elem_of_In]. Qed.

Lemma drop_app_cons {A} (l k : list A) x : drop (length l + 1) (l ++ x :: k) = k.
Proof. rewrite drop_app_ge by lia. by replace (length l + 1 - length l) with 1 by lia. Qed.

Lemma strip_prefix_app p l : strip_prefix p (p ++ l) = Some l.
Proof. induction p as [|a p IH]; [by destruct l|]. simpl. by rewrite N.eqb_refl. Qed.

Lemma strip_prefix_Some p l r : strip_prefix p l = Some r ↔ l = p ++ r.
Proof.
  split; [|intros ->; apply strip_prefix_app]. revert l. induction p as [|a p IH]; intros l; [destruct l; naive_solver|].
  destruct l as [|b l]; [done|]. simpl. destruct (N.eqb_spec a b) as [->|]; [|done]. intros ->%IH. done.
Qed.

Lemma strip_last_app l b : strip_last b (l ++ [b]) = Some l.
Proof.
  unfold strip_last. rewrite last_snoc, N.eqb_refl, length_app, Nat.add_sub. by rewrite take_app_length.
Qed.

Lemma split_on_none sep l : sep ∉ l → split_on sep l = [l].
Proof.
  induction l as [|b l IH]; [done|]. intros [Hb Hl]%not_elem_of_cons. simpl. rewrite IH by done.
  by destruct (N.eqb_spec b sep).
Qed.

Lemma split_on_app sep a l : sep ∉ a → split_on sep (a ++ sep :: l) = a :: split_on sep l.
Proof.
  induction a as [|b a IH]; intros Ha.
  - simpl. rewrite N.eqb_refl. destruct (split_on sep l) eqn:E; [|done]. destruct l as [|c l]; [done|].
    simpl in E. destruct (split_on sep l); [done|]. by destruct (c =? sep)%N.
  - apply not_elem_of_cons in Ha as [Hb Ha]. simpl. rewrite IH by done. by destruct (N.eqb_spec b sep).
Qed.

Lemma eq_ignore_ascii_case_refl a : eq_ignore_ascii_case a a = true.
Proof. by apply bool_decide_eq_true. Qed.

Lemma position_skip sep l rest :
  forallb (λ b, negb (b =? sep)%N) l = true → position (λ b, b =? sep)%N (l ++ sep :: rest) = Some (length l).
Proof.
  induction l as [|b l IH]; intros Hl; [simpl; by rewrite N.eqb_refl|]. apply andb_true_iff in Hl as [Hb Hl].
  apply negb_true_iff in Hb. cbn [app position]. rewrite Hb, IH by done. done.
Qed.

Lemma forallb_impl {A} (p q : A → bool) l : (∀ x, p x = true → q x = true) → forallb p l = true → forallb q l = true.
Proof. intros Hpq Hp. apply forallb_forall. intros x Hx. apply Hpq. by eapply forallb_forall. Qed.

Lemma position_split {A} (p : A → bool) l i :
  position p l = Some i → ∃ x, p x = true ∧ l = take i l ++ x :: drop (i + 1) l.
Proof.
  revert i. induction l as [|y l IH]; intros i Hi; [done|]. simpl in Hi. destruct (p y) eqn:Ey.
  - injection Hi as <-. by exists y.
  - destruct (position p l) as [j|] eqn:Ej; [|done]. injection Hi as <-.
    destruct (IH j eq_refl) as (x & Hx & Heq). exists x. split; [done|]. simpl. by f_equal.
Qed.

(** ** Canonical decimals *)

(** Digits without a superfluous leading zero. *)
Definition canonical_digits (l : list N) : Prop :=
  forallb is_ascii_digit l = true ∧ l ≠ [] ∧ (head l = Some 48%N → l = [48%N]).

Lemma is_ascii_digit_inv b : is_ascii_digit b = true → (48 ≤ b ≤ 57)%N.
Proof. unfold is_ascii_digit. by rewrite andb_true_iff, !N.leb_le. Qed.

Lemma canonical_snoc l b :
  canonical_digits (l ++ [b]) → l ≠ [] → canonical_digits l ∧ (48 ≤ b ≤ 57)%N ∧ head l ≠ Some 48%N.
Proof.
  intros (Hd & _ & Hz) Hl. rewrite forallb_app in Hd. apply andb_true_iff in Hd as [Hd Hb].
  simpl in Hb. rewrite andb_true_r in Hb. apply is_ascii_digit_inv in Hb.
  assert (head l ≠ Some 48%N) as Hh.
  { intros Hh. destruct l as [|x l]; [done|]. simpl in *. specialize (Hz Hh). by destruct l. }
  split; [|done]. split; [done|]. split; [done|]. by intros ?.
Qed.

(** The first digit bounds the value from below. *)
Lemma digits_value_lower l : canonical_digits l → head l ≠ Some 48%N → (10 ^ (len l - 1) ≤ digits_value l)%N.
Proof.
  induction l as [|b l IH] using rev_ind; intros Hc Hh; [by destruct Hc as (_ & ? & _)|].
  destruct (decide (l = [])) as [->|Hl].
  - destruct Hc as (Hd & _). simpl in Hd. rewrite andb_true_r in Hd. apply is_ascii_digit_inv in Hd.
    simpl in Hh. change (len ([] ++ [b]) - 1)%N with 0%N. unfold digits_value. simpl.
    assert (b ≠ 48%N) by congruence. lia.
  - apply canonical_snoc in Hc as (Hc & Hb & Hh'); [|done]. specialize (IH Hc Hh').
    rewrite digits_value_snoc, len_app, len_cons, len_nil.
    replace (len l + (0 + 1) - 1)%N with (N.succ (len l - 1)) by (destruct l; [done|]; rewrite len_cons; lia).
    rewrite N.pow_succ_r'. lia.
Qed.

(** Canonical digits are the digits of their value. *)
Lemma decimal_digits_canonical fuel l :
  canonical_digits l → length l ≤ fuel → decimal_digits fuel (digits_value l) = l.
Proof.
  revert l. induction fuel as [|fuel IH]; intros l Hc Hf; [destruct Hc as (_ & Hne & _); destruct l; [done|simpl in Hf; lia]|].
  destruct l as [|b l _] using rev_ind; [by destruct Hc as (_ & ? & _)|].
  rewrite digits_value_snoc. destruct (decide (l = [])) as [->|Hl].
  - destruct Hc as (Hd & _). simpl in Hd. rewrite andb_true_r in Hd. apply is_ascii_digit_inv in Hd.
    change (digits_value []) with 0%N. cbn [decimal_digits].
    rewrite (proj2 (N.ltb_lt _ 10)) by lia. unfold digit. simpl. f_equal. lia.
  - apply canonical_snoc in Hc as (Hc & Hb & Hh); [|done]. pose proof (digits_value_lower l Hc Hh) as Hlow.
    assert (1 ≤ digits_value l)%N as H1.
    { etrans; [|exact Hlow]. pose proof (N.pow_nonzero 10 (len l - 1)). lia. }
    cbn [decimal_digits]. rewrite (proj2 (N.ltb_ge _ 10)) by lia.
    rewrite N.div_add_l, (N.div_small (b - 48)), N.add_0_r by lia.
    rewrite (N.add_comm (_ * _)), N.Div0.mod_add, N.mod_small by lia.
    rewrite length_app in Hf. simpl in Hf. rewrite IH by (try done; lia). f_equal. unfold digit. f_equal. lia.
Qed.

Lemma to_decimal_canonical n : (n ≤ U64_MAX)%N → canonical_digits (to_decimal n) ∧ digits_value (to_decimal n) = n.
Proof. intros Hn. destruct (to_decimal_spec n Hn) as (Hd & Hv & Hne & Hz). done. Qed.

(** ** Orders

    [Ord] of byte strings, [then] and [is_le], and the laws of an [Ord] that agrees with equality. *)

Fixpoint bytes_compare (a b : list N) : comparison :=
  match a, b with
  | [], [] => Eq
  | [], _ => Lt
  | _, [] => Gt
  | x :: a, y :: b => match (x ?= y)%N with Eq => bytes_compare a b | c => c end
  end.
Definition then_compare (c d : comparison) : comparison := match c with Eq => d | c => c end.
Definition not_gt (c : comparison) : bool := match c with Gt => false | _ => true end.

Record lawful_compare {A} (c : A → A → comparison) : Prop := {
  lc_eq : ∀ a b, c a b = Eq ↔ a = b;
  lc_opp : ∀ a b, c b a = CompOpp (c a b);
  lc_trans : ∀ a b d, c a b = Lt → c b d = Lt → c a d = Lt
}.

Lemma lawful_N : lawful_compare N.compare.
Proof. split; [apply N.compare_eq_iff|intros; apply N.compare_antisym|intros a b d; rewrite !N.compare_lt_iff; apply N.lt_trans]. Qed.

Lemma lawful_then {A B} (c : A → A → comparison) (d : B → B → comparison) : lawful_compare c → lawful_compare d →
  lawful_compare (λ x y : A * B, then_compare (c x.1 y.1) (d x.2 y.2)).
Proof.
  intros [Ce Co Ct] [De Do Dt]. assert (∀ a, c a a = Eq) as Cr by (intros; by apply Ce). split.
  - intros [a1 a2] [b1 b2]; simpl. destruct (c a1 b1) eqn:E; simpl; [apply Ce in E as ->; rewrite De; naive_solver| |]; (split; [done|intros [= -> ->]; by rewrite Cr in E]).
  - intros [a1 a2] [b1 b2]; simpl. rewrite (Co a1 b1). destruct (c a1 b1); simpl; [apply Do|done|done].
  - intros [a1 a2] [b1 b2] [d1 d2]; simpl. destruct (c a1 b1) eqn:E1; simpl; [apply Ce in E1 as ->| |done].
    + intros H1. destruct (c b1 d1) eqn:E2; simpl; [by apply Dt|done|done].
    + intros _. destruct (c b1 d1) eqn:E2; simpl; [apply Ce in E2 as ->; by rewrite E1|by rewrite (Ct _ _ _ E1 E2)|done].
Qed.

Lemma lawful_map {A B} (f : A → B) (c : B → B → comparison) : Inj (=) (=) f → lawful_compare c → lawful_compare (λ x y, c (f x) (f y)).
Proof. intros Hf [Ce Co Ct]. split; [|intros; apply Co|intros a b d; apply Ct]. intros a b. rewrite Ce. split; [apply Hf|congruence]. Qed.

Lemma lawful_bytes : lawful_compare bytes_compare.
Proof.
  destruct lawful_N as [Ce Co Ct]. split.
  - induction a as [|x a IH]; intros [|y b]; simpl; [done..|]. destruct (x ?= y)%N eqn:E; [apply Ce in E as ->; rewrite IH; naive_solver| |];
      (split; [done|intros [= -> ->]; by rewrite N.compare_refl in E]).
  - induction a as [|x a IH]; intros [|y b]; simpl; [done..|]. rewrite (Co x y). destruct (x ?= y)%N; simpl; [apply IH|done|done].
  - induction a as [|x a IH]; intros [|y b] [|z d]; simpl; try done. destruct (x ?= y)%N eqn:E1; [apply Ce in E1 as ->| |done].
    + destruct (y ?= z)%N; [apply IH|done|done].
    + intros _. destruct (y ?= z)%N eqn:E2; [apply Ce in E2 as ->; by rewrite E1|by rewrite (Ct _ _ _ E1 E2)|done].
Qed.

(** A list sorted by a lawful key stays as it is. *)
Lemma lawful_sorted {A B} (key : A → B) (c : B → B → comparison) l : lawful_compare c →
  sort_by (λ x y, not_gt (c (key x) (key y))) (sort_by (λ x y, not_gt (c (key x) (key y))) l) = sort_by (λ x y, not_gt (c (key x) (key y))) l.
Proof.
  intros [Ce Co Ct]. apply sort_by_id, sort_by_sorted.
  - intros x y. rewrite (Co (key x)). destruct (c _ _); simpl; auto.
  - intros x y z. destruct (c (key x) (key y)) eqn:E1; [apply Ce in E1 as ->; done| |done]. intros _.
    destruct (c (key y) (key z)) eqn:E2; [apply Ce in E2 as <-; by rewrite E1|by rewrite (Ct _ _ _ E1 E2)|done].
Qed.
