(* ===== verification/Http.v ===== *)
(** * HTTP/1.1 heads

    The head codec of [cmd/racer/http/src/lib.rs]: message heads, their validation, encoding
    and decoding, MIME values, and the single-range grammars.  The trait constant
    [Opaque::NAMES] and the crate [httparse], which splits a start line, are parameters, as
    are the two [size_of] values of the storage bound.  Text is the list of its bytes. *)

From S2P Require Import Prelude Bytes.

Local Open Scope racer_scope.

Inductive HttpError := HttpError_Malformed | HttpError_HeadTooLarge.

#[export] Instance http_error_eq_dec : EqDecision HttpError.
Proof. solve_decision. Defined.

Inductive StartLine :=
| StartLine_Request (method target : list N)
| StartLine_Response (status : N).

Record Header : Type := mkHeader {
  h_name : list N;
  h_value : list N;
}.

Record MessageHead : Type := mkHead {
  start : StartLine;
  headers : list Header;
}.

#[export] Instance start_line_eq_dec : EqDecision StartLine.
Proof. solve_decision. Defined.

#[export] Instance header_eq_dec : EqDecision Header.
Proof. solve_decision. Defined.

#[export] Instance message_head_eq_dec : EqDecision MessageHead.
Proof. solve_decision. Defined.

Definition SP : N := 32.
Definition TAB : N := 9.
Definition CR : N := 13.
Definition LF : N := 10.
Definition COLON : N := 58.
Definition COMMA : N := 44.
Definition DASH : N := 45.
Definition SLASH : N := 47.
Definition SEMICOLON : N := 59.
Definition EQUALS : N := 61.
Definition QUOTE : N := 34.
Definition BACKSLASH : N := 92.
Definition CRLF : list N := [CR; LF].

(** ** Bytes of a head *)

Definition token_punctuation : list N := lit "!#$%&'*+-.^_`|~".

(** [is_token]. *)
Definition is_token (b : N) : bool := is_ascii_alphanumeric b || contains_b token_punctuation b.

Definition is_ows (b : N) : bool := (b =? SP)%N || (b =? TAB)%N.

Fixpoint trim_start_ows (value : list N) : list N :=
  match value with
  | b :: rest => if is_ows b then trim_start_ows rest else value
  | [] => []
  end.

(** [trim_ows]: leading, then trailing whitespace. *)
Definition trim_ows (value : list N) : list N := reverse (trim_start_ows (reverse (trim_start_ows value))).

(** [decimal]: nonempty digits within [u64]. *)
Fixpoint decimal_from (n : N) (value : list N) : result N HttpError :=
  match value with
  | [] => Ok n
  | b :: value =>
      if negb (is_ascii_digit b) then Err HttpError_Malformed
      else
        match checked_mul U64_MAX n 10 ≫= λ n, checked_add U64_MAX n (b - 48) with
        | Some n => decimal_from n value
        | None => Err HttpError_Malformed
        end
  end.

Definition http_decimal (value : list N) : result N HttpError :=
  if bool_decide (value = []) then Err HttpError_Malformed else decimal_from 0 value.

(** ** Fields *)

(** [MessageHead::values]. *)
Definition values (head : MessageHead) (name : list N) : list (list N) :=
  h_value <$> filter (λ h, eq_ignore_ascii_case (h_name h) name = true) (headers head).

(** [MessageHead::unique]: the loop over the fields. *)
Fixpoint unique_from (found : option (list N)) (name : list N) (hs : list Header) :
    result (option (list N)) HttpError :=
  match hs with
  | [] => Ok found
  | h :: hs =>
      if eq_ignore_ascii_case (h_name h) name then
        if is_some found then Err HttpError_Malformed else unique_from (Some (h_value h)) name hs
      else unique_from found name hs
  end.

Definition unique (head : MessageHead) (name : list N) : result (option (list N)) HttpError :=
  unique_from None name (headers head).

(** [Option<Result<..>>::transpose] of a mapped option. *)
Definition transpose {A B E} (f : A → result B E) (o : option A) : result (option B) E :=
  match o with
  | Some a => let? b := f a in Ok (Some b)
  | None => Ok None
  end.

(** [MessageHead::content_length]. *)
Definition content_length (head : MessageHead) : result (option N) HttpError :=
  if existsb (λ h, eq_ignore_ascii_case (h_name h) (lit "transfer-encoding")) (headers head) then
    Err HttpError_Malformed
  else
    let? value := unique head (lit "content-length") in
    transpose http_decimal value.

Fixpoint close_tokens (close : bool) (tokens : list (list N)) : result bool HttpError :=
  match tokens with
  | [] => Ok close
  | t :: tokens =>
      let t := trim_ows t in
      if bool_decide (t = []) || negb (forallb is_token t) then Err HttpError_Malformed
      else if negb (eq_ignore_ascii_case t (lit "close")) && negb (eq_ignore_ascii_case t (lit "keep-alive")) then
        Err HttpError_Malformed
      else close_tokens (close || eq_ignore_ascii_case t (lit "close")) tokens
  end.

Fixpoint close_values (close : bool) (vs : list (list N)) : result bool HttpError :=
  match vs with
  | [] => Ok close
  | v :: vs => let? close := close_tokens close (split_on COMMA v) in close_values close vs
  end.

(** [MessageHead::closes_connection]. *)
Definition closes_connection (head : MessageHead) : result bool HttpError :=
  close_values false (values head (lit "connection")).

(** [validate_opaque_edges]. *)
Definition validate_opaque_edges (value : list N) : result () HttpError :=
  if match head value with Some b => is_ows b | None => false end ||
     match last value with Some b => is_ows b | None => false end
  then Err HttpError_Malformed else Ok ().

(** ** MIME values *)

Definition mime_spaces (rest : list N) : list N := drop (length (take_while (λ b, b =? SP)%N rest)) rest.

Definition mime_consume (rest : list N) (byte : N) : result (list N) HttpError :=
  match rest with
  | b :: rest => if (b =? byte)%N then Ok rest else Err HttpError_Malformed
  | [] => Err HttpError_Malformed
  end.

(** [token]: the value and what follows it. *)
Definition mime_token (rest : list N) : result (list N * list N) HttpError :=
  let length := length (take_while is_token rest) in
  if bool_decide (length = 0) then Err HttpError_Malformed else Ok (take length rest, drop length rest).

(** The loop over a quoted parameter value, after its opening quote. *)
Fixpoint mime_quoted (rest : list N) : result (list N) HttpError :=
  match rest with
  | [] => Err HttpError_Malformed
  | b :: rest =>
      if (b =? QUOTE)%N then Ok rest
      else if (b =? BACKSLASH)%N then
        match rest with
        | [] => Err HttpError_Malformed
        | _ :: rest => mime_quoted rest
        end
      else mime_quoted rest
  end.

(** One parameter: its name and what follows its value. *)
Definition mime_parameter (parameters : list (list N)) (rest : list N) :
    result (list N * list N) HttpError :=
  let? rest := mime_consume (mime_spaces rest) SEMICOLON in
  let? (name, rest) := mime_token (mime_spaces rest) in
  if existsb (λ old, eq_ignore_ascii_case old name) parameters then Err HttpError_Malformed
  else
    let? rest := mime_consume (mime_spaces rest) EQUALS in
    let rest := mime_spaces rest in
    match rest with
    | b :: after =>
        if (b =? QUOTE)%N then let? rest := mime_quoted after in Ok (name, rest)
        else let? (_, rest) := mime_token rest in Ok (name, rest)
    | [] => Err HttpError_Malformed
    end.

(** The parameter loop; every parameter takes bytes, so the length is fuel enough. *)
Fixpoint mime_parameters (fuel : nat) (parameters : list (list N)) (rest : list N) : result () HttpError :=
  if bool_decide (rest = []) then Ok ()
  else
    match fuel with
    | 0 => Err HttpError_Malformed
    | S fuel =>
        let? (name, rest) := mime_parameter parameters rest in
        mime_parameters fuel (parameters ++ [name]) rest
    end.

(** [ContentType::parse]: the accepted bytes unchanged. *)
Definition content_type_parse (bytes : list N) : result (list N) HttpError :=
  if bool_decide (bytes = []) || existsb (λ b, negb ((32 <=? b) && (b <=? 126))%N) bytes ||
     bool_decide (head bytes = Some SP) || bool_decide (last bytes = Some SP)
  then Err HttpError_Malformed
  else
    let? (_, rest) := mime_token bytes in
    let? rest := mime_consume rest SLASH in
    let? (_, rest) := mime_token rest in
    let? _ := mime_parameters (length rest) [] rest in
    ok_or (from_utf8 bytes) HttpError_Malformed.

(** ** Ranges *)

Inductive HttpByteRange :=
| HttpByteRange_Closed (first last : N)
| HttpByteRange_From (first : N)
| HttpByteRange_Suffix (length : N).

Record ContentRange : Type := mkContentRange {
  cr_first : N;
  cr_last : N;
  cr_total : N;
}.

Section ranges.
Context {E : Type} (from_http : HttpError → E) (decimal : list N → result N E).

(** [range::ByteRange::parse_with]. *)
Definition byte_range_parse_with (value : list N) : result HttpByteRange E :=
  let malformed := from_http HttpError_Malformed in
  let? bounds := ok_or (strip_prefix (lit "bytes=") value) malformed in
  let? separator := ok_or (position (λ b, b =? DASH)%N bounds) malformed in
  let first := take separator bounds in
  let last := drop (separator + 1) bounds in
  match bool_decide (first = []), bool_decide (last = []) with
  | true, true => Err malformed
  | true, false => let? n := decimal last in Ok (HttpByteRange_Suffix n)
  | false, true => let? n := decimal first in Ok (HttpByteRange_From n)
  | false, false =>
      let? first := decimal first in
      let? last := decimal last in
      if (last <? first)%N then Err malformed else Ok (HttpByteRange_Closed first last)
  end.

(** [range::ContentRange::parse_with]. *)
Definition content_range_parse_with (value : list N) : result ContentRange E :=
  let malformed := from_http HttpError_Malformed in
  let? value := ok_or (strip_prefix (lit "bytes ") value) malformed in
  let? slash := ok_or (position (λ b, b =? SLASH)%N value) malformed in
  let bounds := take slash value in
  let? dash := ok_or (position (λ b, b =? DASH)%N bounds) malformed in
  let? first := decimal (take dash bounds) in
  let? last := decimal (drop (dash + 1) bounds) in
  let? total := decimal (drop (slash + 1) value) in
  if (last <? first)%N || (total <=? last)%N then Err malformed
  else Ok (mkContentRange first last total).
End ranges.

(** ** Layout *)

(** [head_end]. *)
Fixpoint head_end (bytes : list N) : option nat :=
  if starts_with bytes (CRLF ++ CRLF) then Some 4
  else match bytes with
       | [] => None
       | _ :: bytes => S <$> head_end bytes
       end.

(** [invalid_line_endings], with the byte before the current one. *)
Fixpoint invalid_endings_from (prev : option N) (bytes : list N) : bool :=
  match bytes with
  | [] => false
  | b :: rest =>
      ((b =? LF)%N && negb (bool_decide (prev = Some CR))) ||
      ((b =? CR)%N && match rest with c :: _ => negb (c =? LF)%N | [] => false end) ||
      invalid_endings_from (Some b) rest
  end.

Definition invalid_line_endings (bytes : list N) : bool := invalid_endings_from None bytes.

(** Offsets of the [windows(2)] that are a line break. *)
Fixpoint line_breaks (offset : nat) (bytes : list N) : list nat :=
  match bytes with
  | [] => []
  | _ :: rest =>
      (if starts_with bytes CRLF then [offset] else []) ++ line_breaks (S offset) rest
  end.

Record HeadLayout : Type := mkLayout {
  first : nat;
  fields : N;
  allocation : N;
}.

Section codec.
(** [O::NAMES], and what [httparse] makes of a start line: the version with the method and
    path of a request, or with the code of a response. *)
Variable NAMES : list (list N).
Variable httparse_request : list N → option (option N * option (list N) * option (list N)).
Variable httparse_response : list N → option (option N * option N).
Variable size_of_header size_of_head : N.

(** [opaque_field]. *)
Definition opaque_field (name : list N) : bool := existsb (λ n, eq_ignore_ascii_case name n) NAMES.

(** [HeadLayout::checked]. *)
Definition layout_checked (bytes : list N) (end_ : nat) (limit : N) : result HeadLayout HttpError :=
  if (limit <? N.of_nat end_)%N then Err HttpError_HeadTooLarge
  else
    match line_breaks 0 (take end_ bytes) with
    | [] => Err HttpError_Malformed
    | first :: lines =>
        let fields := (len lines - 1)%N in
        if (limit / 4 <? fields)%N then Err HttpError_HeadTooLarge
        else
          match checked_mul USIZE_MAX fields size_of_header ≫= λ n, checked_add USIZE_MAX n (N.of_nat end_) ≫=
                λ n, checked_add USIZE_MAX n size_of_head with
          | Some allocation => Ok (mkLayout first fields allocation)
          | None => Err HttpError_HeadTooLarge
          end
    end.

(** [Codec::decoded_allocation]. *)
Definition decoded_allocation (header_limit : N) (bytes : list N) : result N HttpError :=
  let? end_ := ok_or (head_end bytes) HttpError_Malformed in
  let? layout := layout_checked bytes end_ header_limit in
  Ok (allocation layout).

Definition valid_value_byte (b : N) : bool := (b =? TAB)%N || ((32 <=? b) && negb (b =? 127))%N.

Fixpoint validate_fields (hs : list Header) : result () HttpError :=
  match hs with
  | [] => Ok ()
  | h :: hs =>
      if bool_decide (h_name h = []) || negb (forallb is_token (h_name h)) ||
         negb (forallb valid_value_byte (h_value h))
      then Err HttpError_Malformed
      else
        let? _ := if opaque_field (h_name h) then validate_opaque_edges (h_value h) else Ok () in
        validate_fields hs
  end.

(** [Codec::validate]. *)
Definition validate_head (head : MessageHead) : result () HttpError :=
  let? _ :=
    match start head with
    | StartLine_Request method target =>
        if bool_decide (method = []) || negb (forallb is_token method) || bool_decide (target = []) ||
           negb (forallb (λ b, (32 <? b) && (b <? 127))%N target)
        then Err HttpError_Malformed else Ok ()
    | StartLine_Response status =>
        if ((100 <=? status) && (status <=? 599))%N then Ok () else Err HttpError_Malformed
    end in
  let? _ := validate_fields (headers head) in
  let? _ := content_length head in
  let? _ := closes_connection head in
  let? _ := unique head (lit "host") in
  Ok ().

(** The line loop of [Codec::decode_head]. *)
Fixpoint decode_fields (lines : list (list N)) : result (list Header) HttpError :=
  match lines with
  | [] => Ok []
  | line :: lines =>
      if bool_decide (line = []) then decode_fields lines
      else
        let? line := ok_or (strip_last CR line) HttpError_Malformed in
        if bool_decide (line = []) then decode_fields lines
        else
          let? colon := ok_or (position (λ b, b =? COLON)%N line) HttpError_Malformed in
          let? name := ok_or (from_utf8 (take colon line)) HttpError_Malformed in
          let value := drop (colon + 1) line in
          let? _ :=
            if opaque_field name then
              let? v := ok_or (strip_prefix [SP] value) HttpError_Malformed in validate_opaque_edges v
            else Ok () in
          let? rest := decode_fields lines in
          Ok (mkHeader name (default value (strip_prefix [SP] value)) :: rest)
  end.

(** The start line of [Codec::decode_head]. *)
Definition decode_start (bytes line : list N) : result StartLine HttpError :=
  if starts_with bytes (lit "HTTP/") then
    let? (version, code) := ok_or (httparse_response line) HttpError_Malformed in
    if negb (bool_decide (version = Some 1%N)) then Err HttpError_Malformed
    else
      let? status := ok_or code HttpError_Malformed in
      Ok (StartLine_Response status)
  else
    let? (version, method, path) := ok_or (httparse_request line) HttpError_Malformed in
    if negb (bool_decide (version = Some 1%N)) then Err HttpError_Malformed
    else
      let? method := ok_or method HttpError_Malformed in
      let? target := ok_or path HttpError_Malformed in
      Ok (StartLine_Request method target).

(** [Codec::decode_head]. *)
Definition decode_head (header_limit : N) (bytes : list N) : result (option (MessageHead * nat)) HttpError :=
  let bounded := take (N.to_nat (N.min (len bytes) header_limit)) bytes in
  match head_end bounded with
  | None =>
      if (header_limit <=? len bytes)%N then Err HttpError_HeadTooLarge
      else if invalid_line_endings bytes then Err HttpError_Malformed
      else Ok None
  | Some end_ =>
      if invalid_line_endings (take end_ bytes) then Err HttpError_Malformed
      else
        let? layout := layout_checked bytes end_ header_limit in
        let? start := decode_start bytes (take (first layout + 2) bytes) in
        let? headers := decode_fields (split_on LF (drop (first layout + 2) (take (end_ - 2) bytes))) in
        let head := mkHead start headers in
        let? _ := validate_head head in
        Ok (Some (head, end_))
  end.

(** The encoded length, checked. *)
Definition encoded_length (head : MessageHead) : option N :=
  let start_length :=
    match start head with
    | StartLine_Request method target => checked_add USIZE_MAX (len method) (len target) ≫= λ n, checked_add USIZE_MAX n 12
    | StartLine_Response _ => Some 15%N
    end in
  foldl (λ total h, total ≫= λ n, checked_add USIZE_MAX n (len (h_name h)) ≫= λ n,
                    checked_add USIZE_MAX n (len (h_value h)) ≫= λ n, checked_add USIZE_MAX n 4)
        (start_length ≫= λ n, checked_add USIZE_MAX n 2) (headers head).

(** [format!("{status:03}")]. *)
Definition pad3 (n : N) : list N := let ds := to_decimal n in replicate (3 - length ds) 48%N ++ ds.

Definition encode_start (s : StartLine) : list N :=
  match s with
  | StartLine_Request method target => method ++ [SP] ++ target ++ lit " HTTP/1.1"
  | StartLine_Response status => lit "HTTP/1.1 " ++ pad3 status ++ [SP]
  end.

Definition encode_field (h : Header) : list N := h_name h ++ [COLON; SP] ++ h_value h.

(** [Codec::encode_head]. *)
Definition encode_head (header_limit : N) (head : MessageHead) : result (list N) HttpError :=
  let? length := ok_or (encoded_length head) HttpError_HeadTooLarge in
  if (header_limit <? length)%N then Err HttpError_HeadTooLarge
  else
    let? _ := validate_head head in
    Ok (encode_start (start head) ++ CRLF ++ (headers head ≫= λ h, encode_field h ++ CRLF) ++ CRLF).
End codec.
