(* ===== verification/HttpCodec.v ===== *)
(** * The head codec's guarantees

    Encoding and decoding are inverse on valid heads, whatever follows the head and however
    it is fragmented; an accepted head is valid, bounded, and independent of read-ahead.
    The crate [httparse] enters by its documented behaviour on well-formed start lines. *)

From S2P Require Import Prelude Bytes Http.

Local Open Scope racer_scope.

(** ** Lines *)

(** No line break inside, and not empty. *)
Definition clean (l : list N) : Prop := CR ∉ l ∧ LF ∉ l.
Definition clean_line (l : list N) : Prop := l ≠ [] ∧ clean l.

(** Terminated lines. *)
Definition lines_text (ls : list (list N)) : list N := ls ≫= λ l, l ++ CRLF.

Lemma lines_text_cons l ls : lines_text (l :: ls) = l ++ CR :: LF :: lines_text ls.
Proof. unfold lines_text. csimpl. by rewrite <- app_assoc. Qed.

Lemma lines_text_fields hs : lines_text (encode_field <$> hs) = hs ≫= λ h, encode_field h ++ CRLF.
Proof.
  unfold lines_text. induction hs as [|h hs IH]; [done|]. rewrite fmap_cons, !bind_cons. by rewrite IH.
Qed.

Lemma clean_cons b l : clean (b :: l) → b ≠ CR ∧ b ≠ LF ∧ clean l.
Proof. unfold clean. rewrite !not_elem_of_cons. naive_solver. Qed.

Lemma starts_with_other b l p a : b ≠ a → starts_with (b :: l) (a :: p) = false.
Proof. intros Hb. unfold starts_with. simpl. by destruct (N.eqb_spec a b). Qed.

Lemma head_end_cons b l :
  head_end (b :: l) = if starts_with (b :: l) [CR; LF; CR; LF] then Some 4 else S <$> head_end l.
Proof. done. Qed.

Lemma head_end_skip b l : b ≠ CR → head_end (b :: l) = S <$> head_end l.
Proof.
  intros Hb. rewrite head_end_cons. by rewrite (starts_with_other b l [LF; CR; LF]).
Qed.

Lemma head_end_clean l X : clean l → head_end (l ++ X) = (λ n, length l + n) <$> head_end X.
Proof.
  induction l as [|b l IH]; intros Hl; [simpl; by destruct (head_end X)|].
  apply clean_cons in Hl as (Hb & _ & Hl). rewrite <- app_comm_cons, head_end_skip, IH by done.
  by destruct (head_end X).
Qed.

Lemma head_end_break b l : b ≠ CR → head_end (CR :: LF :: b :: l) = (λ n, 2 + n) <$> head_end (b :: l).
Proof.
  intros Hb.
  change (head_end (CR :: LF :: b :: l))
    with (if starts_with (b :: l) [CR; LF] then Some 4 else S <$> head_end (LF :: b :: l)).
  rewrite (starts_with_other b l [LF]) by done. rewrite head_end_skip by done. by destruct (head_end (b :: l)).
Qed.

Lemma lines_text_head ls rest : Forall clean_line ls → ls ≠ [] → ∃ b l, b ≠ CR ∧ lines_text ls ++ rest = b :: l.
Proof.
  intros Hls Hne. destruct ls as [|l ls]; [done|]. apply Forall_cons in Hls as [[Hl Hc] _].
  destruct l as [|b l]; [done|]. rewrite lines_text_cons. eexists b, _. split; [|reflexivity]. by apply clean_cons in Hc as [? _].
Qed.

(** The terminator is found right after the last line. *)
Lemma head_end_lines ls rest :
  Forall clean_line ls → ls ≠ [] → head_end (lines_text ls ++ CRLF ++ rest) = Some (length (lines_text ls ++ CRLF)).
Proof.
  induction ls as [|l ls IH]; intros Hls Hne; [done|]. apply Forall_cons in Hls as [[_ Hc] Hls].
  rewrite lines_text_cons, <- !app_assoc, head_end_clean by done.
  destruct (decide (ls = [])) as [->|Hls'].
  - simpl. rewrite length_app. done.
  - destruct (lines_text_head ls (CRLF ++ rest) Hls Hls') as (b & t & Hb & Et).
    cbn [app]. rewrite Et, head_end_break, <- Et, IH by done. simpl. f_equal.
    rewrite !length_app. simpl. rewrite !length_app. simpl. lia.
Qed.

(** ** Line endings *)

Lemma endings_clean prev l X :
  clean l → invalid_endings_from prev (l ++ X) = invalid_endings_from (if last l is Some b then Some b else prev) X.
Proof.
  revert prev. induction l as [|b l IH]; intros prev Hl; [done|]. apply clean_cons in Hl as (Hb & Hb' & Hl).
  rewrite <- app_comm_cons. cbn [invalid_endings_from].
  rewrite (proj2 (N.eqb_neq b LF) Hb'), (proj2 (N.eqb_neq b CR) Hb). simpl. rewrite IH by done.
  rewrite last_cons. by destruct (last l).
Qed.

Lemma endings_break prev X : invalid_endings_from prev (CR :: LF :: X) = invalid_endings_from (Some LF) X.
Proof. done. Qed.

Lemma endings_lines prev ls : Forall clean_line ls → invalid_endings_from prev (lines_text ls ++ CRLF) = false.
Proof.
  revert prev. induction ls as [|l ls IH]; intros prev Hls; [done|]. apply Forall_cons in Hls as [[_ Hc] Hls].
  rewrite lines_text_cons, <- app_assoc, endings_clean by done. cbn [app]. rewrite endings_break. by apply IH.
Qed.

Lemma endings_prefix prev p q : invalid_endings_from prev (p ++ q) = false → invalid_endings_from prev p = false.
Proof.
  revert prev. induction p as [|b p IH]; intros prev Hf; [done|]. rewrite <- app_comm_cons in Hf.
  cbn [invalid_endings_from] in *. apply orb_false_iff in Hf as [Hf Hr]. apply orb_false_iff in Hf as [H1 H2].
  rewrite H1, (IH _ Hr). destruct p; [by rewrite andb_false_r|]. cbn [app] in H2. by rewrite H2.
Qed.

(** ** Layout *)

Lemma breaks_clean o l X : clean l → line_breaks o (l ++ X) = line_breaks (o + length l) X.
Proof.
  revert o. induction l as [|b l IH]; intros o Hl; [by rewrite Nat.add_0_r|].
  apply clean_cons in Hl as (Hb & _ & Hl). rewrite <- app_comm_cons. cbn [line_breaks]. change CRLF with [CR; LF].
  rewrite (starts_with_other b (l ++ X) [LF]) by done. cbn [app length]. rewrite IH by done. f_equal. lia.
Qed.

Lemma breaks_break o X : line_breaks o (CR :: LF :: X) = o :: line_breaks (o + 2) X.
Proof.
  cbn [line_breaks]. change (starts_with (CR :: LF :: X) CRLF) with true.
  change CRLF with [CR; LF]. rewrite (starts_with_other LF X [LF]) by done. cbn [app]. do 2 f_equal. lia.
Qed.

Lemma breaks_lines o ls : Forall clean_line ls → length (line_breaks o (lines_text ls ++ CRLF)) = length ls + 1.
Proof.
  revert o. induction ls as [|l ls IH]; intros o Hls; [done|]. apply Forall_cons in Hls as [[_ Hc] Hls].
  rewrite lines_text_cons, <- app_assoc, breaks_clean by done. cbn [app]. rewrite breaks_break. simpl.
  rewrite IH by done. done.
Qed.

Lemma split_lines ls : Forall clean_line ls → split_on LF (lines_text ls) = ((λ l, l ++ [CR]) <$> ls) ++ [[]].
Proof.
  induction ls as [|l ls IH]; intros Hls; [done|]. apply Forall_cons in Hls as [[_ Hc] Hls].
  rewrite lines_text_cons. change (CR :: LF :: lines_text ls) with ([CR] ++ LF :: lines_text ls).
  assert (LF ∉ l ++ [CR]) as Hl by (apply not_elem_of_app; split; [apply Hc|by rewrite list_elem_of_singleton]).
  rewrite app_assoc, split_on_app, IH by done. done.
Qed.

Lemma head_end_length l n : head_end l = Some n → 4 ≤ n ≤ length l.
Proof.
  revert n. induction l as [|b l IH]; intros n Hn; [done|]. rewrite head_end_cons in Hn.
  destruct (starts_with (b :: l) _) eqn:Es.
  - injection Hn as <-. unfold starts_with in Es. destruct (strip_prefix _ (b :: l)) as [r|] eqn:Er; [|done].
    apply strip_prefix_Some in Er. rewrite Er, length_app. simpl. lia.
  - destruct (head_end l) as [m|]; [|done]. injection Hn as <-. specialize (IH m eq_refl). simpl. lia.
Qed.

(** The terminator found in a prefix is the one found in the whole. *)
Lemma head_end_app p q n : head_end p = Some n → head_end (p ++ q) = Some n.
Proof.
  revert n. induction p as [|b p IH]; intros n Hn; [done|]. rewrite <- app_comm_cons.
  rewrite head_end_cons in *. unfold starts_with in *.
  destruct (strip_prefix _ (b :: p)) as [r|] eqn:Er.
  - apply strip_prefix_Some in Er. rewrite app_comm_cons, Er, <- app_assoc. by rewrite strip_prefix_app.
  - simpl in Hn. destruct (head_end p) as [m|] eqn:Em; [|done]. rewrite (IH m eq_refl).
    destruct (strip_prefix _ (b :: p ++ q)) as [r|] eqn:Er'; [|done]. exfalso.
    apply strip_prefix_Some in Er'. apply head_end_length in Em.
    destruct p as [|p1 [|p2 [|p3 p]]]; [simpl in Em; lia..|]. cbn [app] in Er'. injection Er' as -> -> -> -> _.
    discriminate Er.
Qed.

Lemma head_end_take l n k : head_end l = Some n → n ≤ k → head_end (take k l) = Some n.
Proof.
  revert n k. induction l as [|b l IH]; intros n k Hn Hk; [done|]. rewrite head_end_cons in Hn.
  destruct k as [|k]; [|cbn [take]; rewrite head_end_cons; unfold starts_with in *].
  { assert (4 ≤ n) as H4; [|lia]. apply (head_end_length (b :: l)). by rewrite head_end_cons. }
  destruct (strip_prefix _ (b :: l)) as [r|] eqn:Er.
  - apply strip_prefix_Some in Er. simpl in Hn. injection Hn as <-.
    change (b :: take k l) with (take (S k) (b :: l)). rewrite Er.
    rewrite take_app_ge by (simpl; lia). by rewrite strip_prefix_app.
  - simpl in Hn. destruct (head_end l) as [m|] eqn:Em; [|done]. injection Hn as <-.
    destruct (strip_prefix _ (b :: take k l)) as [r|] eqn:Er'; [|by rewrite (IH m k eq_refl) by lia].
    exfalso. apply strip_prefix_Some in Er'. rewrite <- (take_drop k l), app_comm_cons, Er', <- app_assoc in Er.
    by rewrite strip_prefix_app in Er.
Qed.

(** ** Fields *)

Lemma is_token_range b : is_token b = true → (33 ≤ b ≤ 126 ∧ b ≠ COLON)%N.
Proof.
  unfold is_token, is_ascii_alphanumeric, is_ascii_digit, is_ascii_upper, is_ascii_lower, COLON.
  intros [H|H]%orb_true_iff.
  - rewrite !orb_true_iff, !andb_true_iff, !N.leb_le in H. lia.
  - apply bool_decide_eq_true in H. unfold token_punctuation in H. vm_compute lit in H.
    repeat (apply elem_of_cons in H as [->|H]; [lia|]). by apply elem_of_nil in H.
Qed.

Lemma tokens_no_colon name rest :
  forallb is_token name = true → position (λ b, b =? COLON)%N (name ++ COLON :: rest) = Some (length name).
Proof.
  induction name as [|b name IH]; [done|]. intros [Hb Hn]%andb_true_iff. cbn [app position length].
  apply is_token_range in Hb as [_ Hb]. rewrite (proj2 (N.eqb_neq _ _) Hb). by rewrite IH.
Qed.

Lemma tokens_ascii name : forallb is_token name = true → from_utf8 name = Some name.
Proof.
  intros Hn. apply from_utf8_ascii. apply Forall_forall. intros b Hb.
  destruct (is_token_range b) as [? _]; [by eapply forallb_elem|]. lia.
Qed.

Lemma clean_app a b : clean a → clean b → clean (a ++ b).
Proof. unfold clean. rewrite !not_elem_of_app. naive_solver. Qed.

Lemma clean_bytes l : forallb (λ b, negb (b =? CR)%N && negb (b =? LF)%N) l = true → clean l.
Proof. intros Hl. by split; intros Hb; apply (forallb_elem _ _ _ Hl) in Hb. Qed.

Lemma tokens_clean name : forallb is_token name = true → clean name.
Proof.
  intros Hn. split; intros Hb; apply (forallb_elem _ _ _ Hn), is_token_range in Hb as [? _]; unfold CR, LF in *; lia.
Qed.

Lemma values_clean value : forallb valid_value_byte value = true → clean value.
Proof.
  intros Hv. by split; intros Hb; apply (forallb_elem _ _ _ Hv) in Hb.
Qed.

Section guarantees.
Variable NAMES : list (list N).
Variable httparse_request : list N → option (option N * option (list N) * option (list N)).
Variable httparse_response : list N → option (option N * option N).
Variable size_of_header size_of_head : N.
#[local] Notation decode_head := (decode_head NAMES httparse_request httparse_response size_of_header size_of_head).
#[local] Notation encode_head := (encode_head NAMES).
#[local] Notation decode_fields := (decode_fields NAMES).
#[local] Notation validate_fields := (validate_fields NAMES).
#[local] Notation validate_head := (validate_head NAMES).

Lemma validate_fields_cons h hs :
  validate_fields (h :: hs) = Ok () →
  h_name h ≠ [] ∧ forallb is_token (h_name h) = true ∧ forallb valid_value_byte (h_value h) = true ∧
  (opaque_field NAMES (h_name h) = true → validate_opaque_edges (h_value h) = Ok ()) ∧ validate_fields hs = Ok ().
Proof.
  cbn [Http.validate_fields]. destruct (_ || _) eqn:Eo; [done|].
  apply orb_false_iff in Eo as [Eo Ev]. apply orb_false_iff in Eo as [En Et].
  apply bool_decide_eq_false in En. apply negb_false_iff in Et, Ev.
  destruct (opaque_field NAMES (h_name h)); [|done].
  destruct (validate_opaque_edges (h_value h)) as [[]|]; [done|done].
Qed.

Lemma encode_field_clean h hs : validate_fields (h :: hs) = Ok () → clean_line (encode_field h).
Proof.
  intros (Hn & Ht & Hv & _)%validate_fields_cons. apply tokens_clean in Ht as [Ht1 Ht2].
  apply values_clean in Hv as [Hv1 Hv2]. unfold encode_field. split; [by destruct (h_name h)|].
  split; rewrite !not_elem_of_app, !not_elem_of_cons; repeat split; done || apply not_elem_of_nil.
Qed.

Lemma encode_fields_clean hs : validate_fields hs = Ok () → Forall clean_line (encode_field <$> hs).
Proof.
  induction hs as [|h hs IH]; intros Hv; [constructor|]. constructor; [by eapply encode_field_clean|].
  apply IH. by apply validate_fields_cons in Hv as (_ & _ & _ & _ & ?).
Qed.

(** One encoded field is decoded as itself. *)
Lemma decode_encoded_field h hs lines :
  validate_fields (h :: hs) = Ok () →
  decode_fields ((encode_field h ++ [CR]) :: lines) = let? rest := decode_fields lines in Ok (h :: rest).
Proof.
  intros (Hn & Ht & _ & Ho & _)%validate_fields_cons. cbn [Http.decode_fields].
  assert (encode_field h ≠ []) as Hne by (unfold encode_field; by destruct (h_name h)).
  rewrite bool_decide_false by (by destruct (encode_field h)). rewrite strip_last_app. cbn [ok_or result_bind].
  rewrite bool_decide_false by done. change (encode_field h) with (h_name h ++ COLON :: SP :: h_value h).
  rewrite tokens_no_colon by done. cbn [ok_or result_bind]. rewrite take_app_length, tokens_ascii by done.
  cbn [ok_or result_bind]. rewrite drop_app_cons.
  change (strip_prefix [SP] (SP :: h_value h)) with (Some (h_value h)). cbn [ok_or result_bind default from_option id].
  assert ((if opaque_field NAMES (h_name h) then validate_opaque_edges (h_value h) else Ok ()) = Ok ()) as ->
    by (destruct (opaque_field NAMES (h_name h)); [by apply Ho|done]).
  by destruct h.
Qed.

Lemma decode_encoded_fields hs :
  validate_fields hs = Ok () → decode_fields (((λ l, l ++ [CR]) <$> (encode_field <$> hs)) ++ [[]]) = Ok hs.
Proof.
  induction hs as [|h hs IH]; intros Hv; [done|]. rewrite !fmap_cons, <- app_comm_cons.
  rewrite (decode_encoded_field h hs) by done.
  rewrite IH; [done|]. by apply validate_fields_cons in Hv as (_ & _ & _ & _ & ?).
Qed.

(** ** Lengths *)

Lemma encoded_length_start s n0 :
  (match s with
   | StartLine_Request method target => checked_add USIZE_MAX (len method) (len target) ≫= λ n, checked_add USIZE_MAX n 12
   | StartLine_Response _ => Some 15%N
   end ≫= λ n, checked_add USIZE_MAX n 2) = Some n0 →
  (∀ status, s = StartLine_Response status → 100 ≤ status ≤ 999)%N →
  n0 = (len (encode_start s) + 4)%N.
Proof.
  destruct s as [m t|status]; intros Hn Hs.
  - destruct (checked_add _ (len m) _) as [n1|] eqn:E1; [|done]. apply checked_add_Some in E1 as [_ ->].
    cbn [mbind option_bind] in Hn. destruct (checked_add _ _ 12) as [n2|] eqn:E2; [|done].
    apply checked_add_Some in E2 as [_ ->]. cbn [mbind option_bind] in Hn. apply checked_add_Some in Hn as [_ ->].
    unfold encode_start. rewrite !len_app. change (len [SP]) with 1%N. change (len (lit " HTTP/1.1")) with 9%N. lia.
  - cbn [mbind option_bind] in Hn. apply checked_add_Some in Hn as [_ ->]. specialize (Hs status eq_refl).
    unfold encode_start. rewrite !len_app. change (len (lit "HTTP/1.1 ")) with 9%N. change (len [SP]) with 1%N.
    enough (len (pad3 status) = 3%N) by lia. unfold len.
    assert (∃ a b c, pad3 status = [a; b; c]) as (a & b & c & ->); [|done].
    unfold pad3, to_decimal. cbn [decimal_digits].
    rewrite (proj2 (N.ltb_ge status 10)) by lia.
    rewrite (proj2 (N.ltb_ge (status / 10) 10)) by (apply N.div_le_lower_bound; [done|]; lia).
    rewrite N.Div0.div_div. change (10 * 10)%N with 100%N.
    rewrite (proj2 (N.ltb_lt (status / 100) 10)) by (apply N.Div0.div_lt_upper_bound; lia).
    by eexists _, _, _.
Qed.

Lemma encoded_length_fields hs n0 n :
  foldl (λ total h, total ≫= λ n, checked_add USIZE_MAX n (len (h_name h)) ≫= λ n,
                    checked_add USIZE_MAX n (len (h_value h)) ≫= λ n, checked_add USIZE_MAX n 4) (Some n0) hs = Some n →
  n = (n0 + len (lines_text (encode_field <$> hs)))%N ∧ (4 * len hs ≤ n - n0)%N.
Proof.
  revert n0. induction hs as [|h hs IH]; intros n0 Hn.
  { simpl in Hn. injection Hn as ->. unfold len. simpl. split; lia. }
  rewrite fmap_cons, lines_text_cons. cbn [foldl mbind option_bind] in Hn.
  assert (∀ (l : list Header) (f : option N → Header → option N), (∀ h, f None h = None) → foldl f None l = None) as Hnone
    by (intros l f Hf; induction l; simpl; [done|by rewrite Hf]).
  destruct (checked_add _ n0 _) as [n1|] eqn:E1; cbn [mbind option_bind] in Hn; [|by rewrite Hnone in Hn].
  destruct (checked_add _ n1 _) as [n2|] eqn:E2; cbn [mbind option_bind] in Hn; [|by rewrite Hnone in Hn].
  destruct (checked_add _ n2 4) as [n3|] eqn:E3; [|by rewrite Hnone in Hn].
  apply checked_add_Some in E1 as [_ ->], E2 as [_ ->], E3 as [_ ->].
  destruct (IH _ Hn) as [-> H4].
  assert (len (encode_field h) = len (h_name h) + 2 + len (h_value h))%N as Hf
    by (unfold encode_field; rewrite !len_app, !len_cons, len_nil; lia).
  rewrite !len_app, !len_cons, Hf. lia.
Qed.

Definition status_bounded (s : StartLine) : Prop :=
  match s with StartLine_Response status => 100 ≤ status ≤ 599 | StartLine_Request _ _ => True end%N.

Lemma validate_head_Ok head :
  validate_head head = Ok () →
  match start head with
  | StartLine_Request method target =>
      method ≠ [] ∧ forallb is_token method = true ∧ target ≠ [] ∧
      forallb (λ b, (32 <? b) && (b <? 127))%N target = true
  | StartLine_Response status => (100 ≤ status ≤ 599)%N
  end ∧ validate_fields (headers head) = Ok () ∧ (∃ n, content_length head = Ok n) ∧
  (∃ v, unique head (lit "host") = Ok v).
Proof.
  unfold Http.validate_head. intros Hv. apply result_bind_Ok in Hv as ([] & Hs & Hv).
  apply result_bind_Ok in Hv as ([] & Hf & Hv). apply result_bind_Ok in Hv as (n & Hc & Hv).
  apply result_bind_Ok in Hv as (c & _ & Hv). apply result_bind_Ok in Hv as (v & Hh & _).
  split_and!; [|done|by exists n|by exists v]. destruct (start head) as [m t|status].
  - destruct (_ || _) eqn:Eo; [done|]. rewrite !orb_false_iff, !bool_decide_eq_false, !negb_false_iff in Eo. naive_solver.
  - destruct (_ && _) eqn:Ea; [|done]. rewrite andb_true_iff, !N.leb_le in Ea. done.
Qed.

(** The lines of an encoded head. *)
Definition head_lines (head : MessageHead) : list (list N) := encode_start (start head) :: (encode_field <$> headers head).

Lemma encode_head_Ok limit head bytes :
  encode_head limit head = Ok bytes →
  bytes = lines_text (head_lines head) ++ CRLF ∧ validate_head head = Ok () ∧
  (len bytes ≤ limit)%N ∧ (4 * len (headers head) ≤ limit)%N.
Proof.
  unfold Http.encode_head. intros He. apply result_bind_Ok in He as (n & Hn & He).
  destruct (N.ltb_spec limit n) as [|Hle]; [done|]. apply result_bind_Ok in He as ([] & Hv & He).
  assert (encode_start (start head) ++ CRLF ++ (headers head ≫= λ h, encode_field h ++ CRLF) ++ CRLF =
          lines_text (head_lines head) ++ CRLF) as Hb.
  { unfold head_lines. rewrite lines_text_cons, lines_text_fields, <- app_assoc. done. }
  rewrite Hb in He. set (text := lines_text (head_lines head) ++ CRLF) in *. injection He as <-.
  apply ok_or_Ok in Hn. unfold encoded_length in Hn.
  destruct (match start head with StartLine_Request _ _ => _ | _ => _ end ≫= _) as [n0|] eqn:E0.
  2:{ exfalso. clear -Hn. induction (headers head) as [|h hs IH]; [done|by apply IH]. }
  apply encoded_length_start in E0.
  2:{ intros status Es. apply validate_head_Ok in Hv as [Hs _]. rewrite Es in Hs. lia. }
  apply encoded_length_fields in Hn as [-> H4]. split_and!; [done|done| |].
  - unfold text, head_lines. rewrite lines_text_cons, !len_app, !len_cons. change (len CRLF) with 2%N. lia.
  - lia.
Qed.

Lemma encode_start_clean head : validate_head head = Ok () → clean_line (encode_start (start head)).
Proof.
  intros [Hs _]%validate_head_Ok. destruct (start head) as [m t|status]; unfold encode_start.
  - destruct Hs as (Hm & Ht & _ & Hv). split; [by destruct m|].
    assert (clean t) by (by split; intros Hb; apply (forallb_elem _ _ _ Hv) in Hb).
    apply clean_app; [by apply tokens_clean|]. apply clean_app; [by apply clean_bytes|].
    apply clean_app; [done|by apply clean_bytes].
  - split; [done|]. apply clean_app; [by apply clean_bytes|]. apply clean_app; [|by apply clean_bytes].
    destruct (to_decimal_spec status) as (Hd & _); [unfold U64_MAX; lia|]. unfold pad3. apply clean_app.
    + by split; intros [? _]%elem_of_replicate.
    + by split; intros Hb; apply (forallb_elem _ _ _ Hd) in Hb.
Qed.

Lemma head_lines_clean head : validate_head head = Ok () → Forall clean_line (head_lines head).
Proof.
  intros Hv. constructor; [by apply encode_start_clean|]. apply encode_fields_clean. by apply validate_head_Ok in Hv as (_ & ? & _).
Qed.

(** A request's text is not taken for a response. *)
Lemma request_not_response m rest :
  forallb is_token m = true → starts_with (m ++ SP :: rest) (lit "HTTP/") = false.
Proof.
  intros Hm. unfold starts_with. destruct (strip_prefix (lit "HTTP/") _) as [r|] eqn:Er; [|done]. exfalso.
  apply strip_prefix_Some in Er. change (lit "HTTP/") with [72; 84; 84; 80; 47]%N in Er.
  destruct m as [|a [|b [|c [|d [|e m]]]]]; cbn [app] in Er; simplify_eq.
Qed.

(** The size of the decoded storage fits a machine word. *)
Definition storage_fits (limit : N) : Prop := (limit / 4 * size_of_header + limit + size_of_head ≤ USIZE_MAX)%N.

Lemma layout_encoded limit head rest :
  storage_fits limit → validate_head head = Ok () → (4 * len (headers head) ≤ limit)%N →
  let text := lines_text (head_lines head) ++ CRLF in
  (len text ≤ limit)%N →
  ∃ fields allocation, layout_checked size_of_header size_of_head (text ++ rest) (length text) limit =
    Ok (mkLayout (length (encode_start (start head))) fields allocation).
Proof.
  intros Hfit Hv H4 text Hlen. unfold layout_checked. rewrite (proj2 (N.ltb_ge _ _)) by done.
  rewrite take_app_length.
  pose proof (head_lines_clean head Hv) as Hc. pose proof (breaks_lines 0 (head_lines head) Hc) as Hb.
  fold text in Hb. destruct (line_breaks 0 text) as [|x l] eqn:El; [rewrite Nat.add_comm in Hb; done|].
  assert (x = length (encode_start (start head))) as ->.
  { unfold text, head_lines in El. rewrite lines_text_cons, <- app_assoc, breaks_clean in El by (by apply encode_start_clean).
    cbn [app] in El. rewrite breaks_break in El. by injection El as -> _. }
  assert (len l - 1 = len (headers head))%N as ->.
  { unfold head_lines in Hb. simpl in Hb. rewrite length_fmap in Hb. unfold len. lia. }
  assert (len (headers head) ≤ limit / 4)%N as Hq by (apply N.div_le_lower_bound; [done|lia]).
  rewrite (proj2 (N.ltb_ge _ _)) by done. unfold storage_fits in Hfit. change (N.of_nat (length text)) with (len text).
  assert (len (headers head) * size_of_header ≤ limit / 4 * size_of_header)%N by (by apply N.mul_le_mono_r).
  unfold checked_mul, checked_add.
  set (q := (limit / 4 * size_of_header)%N) in *. set (p := (len (headers head) * size_of_header)%N) in *. clearbody p q.
  rewrite (proj2 (N.leb_le p _)) by lia. cbn [mbind option_bind].
  rewrite (proj2 (N.leb_le (p + len text) _)) by lia. cbn [mbind option_bind].
  rewrite (proj2 (N.leb_le (p + len text + size_of_head) _)) by lia. by eexists _, _.
Qed.

(** The slices of an encoded head. *)
Lemma take_start_line (a rest : list N) : take (length a + 2) (a ++ CRLF ++ rest) = a ++ CRLF.
Proof. rewrite app_assoc. replace (length a + 2) with (length (a ++ CRLF)) by (by rewrite length_app). apply take_app_length. Qed.

Lemma take_field_lines (a b rest : list N) :
  drop (length a + 2) (take (length (a ++ CRLF ++ b ++ CRLF) - 2) (a ++ CRLF ++ b ++ CRLF ++ rest)) = b.
Proof.
  rewrite (app_assoc a), (app_assoc a), (app_assoc (a ++ CRLF) b), (app_assoc (a ++ CRLF) b).
  replace (length (((a ++ CRLF) ++ b) ++ CRLF) - 2) with (length ((a ++ CRLF) ++ b))
    by (rewrite (length_app _ CRLF); change (length CRLF) with 2; lia).
  rewrite take_app_length. replace (length a + 2) with (length (a ++ CRLF)) by (by rewrite length_app).
  apply drop_app_length.
Qed.

(** ** Round trip *)
Section round_trip.
(** The bytes [httparse] accepts in a request target, and its behaviour on well-formed
    start lines: it splits a request line at its spaces and reads a three-digit code. *)
Variable uri_byte : N → bool.
Hypothesis httparse_request_spec : ∀ method target,
  method ≠ [] → forallb is_token method = true → target ≠ [] → forallb uri_byte target = true →
  httparse_request (encode_start (StartLine_Request method target) ++ CRLF) = Some (Some 1%N, Some method, Some target).
Hypothesis httparse_response_spec : ∀ status,
  (100 ≤ status ≤ 599)%N →
  httparse_response (encode_start (StartLine_Response status) ++ CRLF) = Some (Some 1%N, Some status).

Definition target_parsed (s : StartLine) : Prop :=
  match s with StartLine_Request _ target => forallb uri_byte target = true | StartLine_Response _ => True end.

Lemma decode_encoded_start head rest :
  target_parsed (start head) → validate_head head = Ok () →
  decode_start httparse_request httparse_response (encode_start (start head) ++ CRLF ++ rest)
    (encode_start (start head) ++ CRLF) = Ok (start head).
Proof.
  intros Hu [Hs _]%validate_head_Ok. unfold decode_start. destruct (start head) as [m t|status].
  - destruct Hs as (Hm & Ht & Ht' & _). rewrite httparse_request_spec by done.
    unfold encode_start. rewrite <- !app_assoc. cbn [app]. by rewrite request_not_response.
  - rewrite httparse_response_spec by done. unfold encode_start, starts_with. rewrite <- !app_assoc.
    change (lit "HTTP/1.1 ") with (lit "HTTP/" ++ lit "1.1 "). rewrite <- app_assoc, strip_prefix_app. done.
Qed.

Lemma decode_encoded limit head bytes rest :
  storage_fits limit → target_parsed (start head) → encode_head limit head = Ok bytes →
  decode_head limit (bytes ++ rest) = Ok (Some (head, length bytes)).
Proof.
  intros Hfit Hu (-> & Hv & Hlen & H4)%encode_head_Ok. set (text := lines_text (head_lines head) ++ CRLF) in *.
  pose proof (head_lines_clean head Hv) as Hc. unfold Http.decode_head. cbv zeta.
  assert (length text ≤ length (text ++ rest)) as Hl by (rewrite length_app; lia).
  rewrite (head_end_take (text ++ rest) (length text)).
  2:{ unfold text at 1. rewrite <- app_assoc. by apply head_end_lines. }
  2:{ unfold len in *. lia. }
  rewrite take_app_length. unfold invalid_line_endings.
  rewrite (endings_lines None (head_lines head) Hc : invalid_endings_from None text = false).
  destruct (layout_encoded limit head rest Hfit Hv H4 Hlen) as (f & a & El). fold text in El. rewrite El.
  cbn [result_bind first].
  assert (text = encode_start (start head) ++ CRLF ++ lines_text (encode_field <$> headers head) ++ CRLF) as Et.
  { unfold text, head_lines. by rewrite lines_text_cons, <- app_assoc. }
  rewrite Et, <- !app_assoc, take_start_line, decode_encoded_start by done. cbn [result_bind].
  rewrite take_field_lines.
  pose proof Hv as (_ & Hvf & _)%validate_head_Ok.
  rewrite split_lines by (by apply encode_fields_clean). rewrite decode_encoded_fields by done. cbn [result_bind].
  destruct head as [st hs]. simpl in *. by rewrite Hv.
Qed.

(** C33: With httparse as documented, an encoded head whose target httparse accepts decodes to
    itself whatever bytes follow it, consuming exactly the encoded bytes, and every proper prefix of it is reported as incomplete rather than
    accepted or rejected. *)
Theorem head_round_trip limit head bytes rest :
  storage_fits limit → target_parsed (start head) → encode_head limit head = Ok bytes →
  decode_head limit (bytes ++ rest) = Ok (Some (head, length bytes)) ∧
  ∀ p q, bytes = p ++ q → q ≠ [] → decode_head limit p = Ok None.
Proof.
  intros Hfit Hu He. split; [by apply decode_encoded|]. intros p q Hpq Hq.
  pose proof He as (Hb & Hv & Hlen & _)%encode_head_Ok. pose proof (head_lines_clean head Hv) as Hc.
  assert (len p < len bytes)%N as Hp.
  { rewrite Hpq, len_app. destruct q; [done|]. rewrite len_cons. lia. }
  unfold Http.decode_head. cbv zeta. rewrite N.min_l by lia. unfold len at 1. rewrite Nat2N.id, take_ge by done.
  destruct (head_end p) as [n|] eqn:En.
  - exfalso. pose proof (head_end_length _ _ En). apply (head_end_app p q) in En. rewrite <- Hpq in En.
    pose proof (head_end_lines (head_lines head) [] Hc) as Hh. rewrite app_nil_r, <- Hb in Hh. rewrite Hh in En by done.
    injection En as En. unfold len in Hp. lia.
  - rewrite (proj2 (N.leb_gt limit (len p))) by lia.
    assert (invalid_line_endings p = false) as ->; [|done]. apply (endings_prefix None p q).
    rewrite <- Hpq, Hb. by apply endings_lines.
Qed.
End round_trip.

(** ** Accepted heads *)

Lemma unique_from_length found name hs v :
  unique_from found name hs = Ok v →
  length (filter (λ h, eq_ignore_ascii_case (h_name h) name = true) hs) + (if is_some found then 1 else 0) ≤ 1.
Proof.
  revert found. induction hs as [|h hs IH]; intros found Hu; [destruct found; simpl; lia|].
  cbn [unique_from] in Hu. rewrite filter_cons.
  destruct (eq_ignore_ascii_case (h_name h) name) eqn:En.
  - destruct found; [done|]. apply IH in Hu. rewrite decide_True by done. simpl in *. lia.
  - rewrite decide_False by done. by apply IH.
Qed.

Lemma unique_length head name v : unique head name = Ok v → length (values head name) ≤ 1.
Proof. intros Hu%unique_from_length. unfold values. rewrite length_fmap. simpl in Hu. lia. Qed.

Lemma content_length_framing head n :
  content_length head = Ok n →
  length (values head (lit "content-length")) ≤ 1 ∧ values head (lit "transfer-encoding") = [].
Proof.
  unfold content_length. destruct (existsb _ _) eqn:Ee; [done|]. intros Hc.
  apply result_bind_Ok in Hc as (v & Hu & _). split; [by eapply unique_length|]. unfold values.
  rewrite filter_none; [done|]. intros h Hh He. apply not_true_iff_false in Ee. apply Ee, existsb_exists.
  exists h. by rewrite <- list_elem_of_In.
Qed.

Lemma line_breaks_bound o l x : x ∈ line_breaks o l → x + 2 ≤ o + length l.
Proof.
  revert o. induction l as [|b l IH]; intros o Hx; [by apply elem_of_nil in Hx|].
  cbn [line_breaks] in Hx. apply elem_of_app in Hx as [Hx|Hx].
  - destruct (starts_with (b :: l) CRLF) eqn:Es; [|by apply elem_of_nil in Hx].
    apply list_elem_of_singleton in Hx as ->. unfold starts_with in Es.
    destruct (strip_prefix CRLF (b :: l)) as [r|] eqn:Er; [|done]. apply strip_prefix_Some in Er.
    rewrite Er. simpl. lia.
  - apply IH in Hx. simpl. lia.
Qed.

(** Whether a head is a response is decided before its end. *)
Lemma starts_with_bounded x y y' n :
  head_end x = Some n → starts_with (x ++ y) (lit "HTTP/") = starts_with (x ++ y') (lit "HTTP/").
Proof.
  intros Hn. pose proof (head_end_length _ _ Hn) as Hl.
  destruct x as [|a [|b [|c [|d [|e x]]]]]; [simpl in Hl; lia..| |].
  - rewrite head_end_cons in Hn. unfold starts_with in Hn. destruct (strip_prefix _ [a; b; c; d]) as [r|] eqn:Er.
    + apply strip_prefix_Some in Er. cbn [app] in Er. injection Er as -> -> -> -> _. done.
    + cbn [is_some] in Hn. destruct (head_end [b; c; d]) as [m|] eqn:Em; [|discriminate]. apply head_end_length in Em. simpl in Em. lia.
  - unfold starts_with. cbn [app]. change (lit "HTTP/") with [72; 84; 84; 80; 47]%N. cbn [strip_prefix].
    by repeat (destruct (_ =? _)%N; [|done]).
Qed.

Lemma decode_head_Some limit bytes head n :
  decode_head limit bytes = Ok (Some (head, n)) →
  head_end (take n bytes) = Some n ∧ n ≤ length bytes ∧ (N.of_nat n ≤ limit)%N ∧ validate_head head = Ok ().
Proof.
  unfold Http.decode_head. cbv zeta. destruct (head_end (take _ bytes)) as [m|] eqn:Em.
  2:{ by repeat case_match. }
  pose proof (head_end_length _ _ Em) as Hm. rewrite length_take in Hm. unfold len in Hm.
  destruct (invalid_line_endings _); [done|]. intros Hd.
  apply result_bind_Ok in Hd as (layout & _ & Hd). apply result_bind_Ok in Hd as (st & _ & Hd).
  apply result_bind_Ok in Hd as (hs & _ & Hd). apply result_bind_Ok in Hd as ([] & Hv & [= <- <-]).
  split_and!; [|lia|lia|done].
  apply (head_end_app _ (drop (N.to_nat (N.min (len bytes) limit)) bytes)) in Em. rewrite take_drop in Em.
  by apply head_end_take.
Qed.

Lemma decode_head_bounded limit bytes bytes' head n :
  decode_head limit bytes = Ok (Some (head, n)) → take n bytes' = take n bytes →
  decode_head limit bytes' = Ok (Some (head, n)).
Proof.
  intros Hd Heq. pose proof (decode_head_Some _ _ _ _ Hd) as (He & Hn & Hlim & _).
  assert (n ≤ length bytes') as Hn'.
  { apply (f_equal length) in Heq. rewrite !length_take in Heq. lia. }
  assert (∀ b, take n b = take n bytes → n ≤ length b →
    head_end (take (N.to_nat (N.min (len b) limit)) b) = Some n) as Hfound.
  { intros b Hb Hnb. apply head_end_take; [|unfold len; lia].
    rewrite <- (take_drop n b), Hb. by apply head_end_app. }
  revert Hd. unfold Http.decode_head. cbv zeta. rewrite !Hfound, Heq by done.
  destruct (invalid_line_endings _); [done|]. unfold layout_checked. rewrite Heq.
  destruct (limit <? N.of_nat n)%N; [done|].
  destruct (line_breaks 0 (take n bytes)) as [|f l] eqn:El; [done|].
  assert (f + 2 ≤ n) as Hf.
  { pose proof (line_breaks_bound 0 (take n bytes) f) as Hb. rewrite El, length_take in Hb.
    specialize (Hb ltac:(left)). lia. }
  assert (∀ k, k ≤ n → take k bytes' = take k bytes) as Hk.
  { intros k Hk. by rewrite <- (Nat.min_l k n Hk), <- !take_take, Heq. }
  assert (starts_with bytes' (lit "HTTP/") = starts_with bytes (lit "HTTP/")) as Hsw.
  { rewrite <- (take_drop n bytes'), <- (take_drop n bytes), Heq. by eapply starts_with_bounded. }
  destruct (_ <? _)%N; [done|]. destruct (_ ≫= _) as [al|]; [|done]. cbn [result_bind first].
  rewrite (Hk (n - 2)), (Hk (f + 2)) by lia. unfold decode_start. by rewrite Hsw.
Qed.

(** C34: An accepted head is within the limit and the bytes it was read from, passes
    validation, carries at most one content length and one host and no transfer coding, and
    is the same whatever follows it: framing never depends on read-ahead. *)
Theorem accepted_head_unambiguous limit bytes head n :
  decode_head limit bytes = Ok (Some (head, n)) →
  n ≤ length bytes ∧ (N.of_nat n ≤ limit)%N ∧ validate_head head = Ok () ∧
  length (values head (lit "content-length")) ≤ 1 ∧ length (values head (lit "host")) ≤ 1 ∧
  values head (lit "transfer-encoding") = [] ∧
  ∀ other, decode_head limit (take n bytes ++ other) = Ok (Some (head, n)).
Proof.
  intros Hd. pose proof (decode_head_Some _ _ _ _ Hd) as (_ & Hn & Hlim & Hv).
  pose proof Hv as (_ & _ & [m Hc] & [v Hh])%validate_head_Ok.
  pose proof (content_length_framing _ _ Hc) as [Hcl Hte].
  split_and!; try done; [by eapply unique_length|]. intros other. apply (decode_head_bounded limit bytes); [done|].
  rewrite take_app_le by (rewrite length_take; lia). rewrite take_take. by rewrite Nat.min_id.
Qed.
End guarantees.

(** ** Witnesses

    A start-line parser with the behaviour the round trip relies on. *)

Definition line_version : list N := lit " HTTP/1.1" ++ CRLF.

Definition example_request (line : list N) : option (option N * option (list N) * option (list N)) :=
  text ← reverse <$> strip_prefix (reverse line_version) (reverse line);
  sep ← position (λ b, b =? SP)%N text;
  Some (Some 1%N, Some (take sep text), Some (drop (sep + 1) text)).

Definition example_response (line : list N) : option (option N * option N) :=
  rest ← strip_prefix (lit "HTTP/1.1 ") line;
  sep ← position (λ b, b =? SP)%N rest;
  Some (Some 1%N, Some (digits_value (take sep rest))).

Definition visible (b : N) : bool := ((32 <? b) && (b <? 127))%N.

Lemma example_request_spec method target :
  method ≠ [] → forallb is_token method = true → target ≠ [] → forallb visible target = true →
  example_request (encode_start (StartLine_Request method target) ++ CRLF) = Some (Some 1%N, Some method, Some target).
Proof.
  intros _ Hm _ _. unfold example_request, encode_start.
  assert ((method ++ [SP] ++ target ++ lit " HTTP/1.1") ++ CRLF = (method ++ SP :: target) ++ line_version) as ->
    by (unfold line_version; rewrite <- !app_assoc; done).
  rewrite reverse_app, strip_prefix_app. cbn [fmap option_fmap mbind option_bind option_map]. rewrite reverse_involutive.
  rewrite position_skip.
  - cbn [mbind option_bind]. by rewrite take_app_length, drop_app_cons.
  - eapply forallb_impl; [|exact Hm]. intros b [? _]%is_token_range. apply negb_true_iff, N.eqb_neq. unfold SP. lia.
Qed.

Lemma example_response_spec status :
  (100 ≤ status ≤ 599)%N →
  example_response (encode_start (StartLine_Response status) ++ CRLF) = Some (Some 1%N, Some status).
Proof.
  intros Hs. unfold example_response, encode_start. rewrite <- !app_assoc, strip_prefix_app. cbn [mbind option_bind].
  destruct (to_decimal_spec status) as (Hd & Hv & _); [unfold U64_MAX; lia|].
  assert (forallb is_ascii_digit (pad3 status) = true) as Hp.
  { unfold pad3. rewrite forallb_app, Hd, andb_true_r. apply forallb_forall. intros b Hb.
    apply list_elem_of_In, elem_of_replicate in Hb as [-> _]. done. }
  cbn [app]. rewrite position_skip.
  - cbn [mbind option_bind]. rewrite take_app_length. do 3 f_equal. unfold pad3, digits_value in *.
    rewrite foldl_app. enough (∀ k, foldl (λ acc b, acc * 10 + (b - 48))%N 0%N (replicate k 48%N) = 0%N) as -> by done.
    induction k as [|k IH]; [done|]. simpl. done.
  - eapply forallb_impl; [|exact Hp]. intros b Hb. unfold is_ascii_digit in Hb. rewrite andb_true_iff, !N.leb_le in Hb.
    apply negb_true_iff, N.eqb_neq. unfold SP. lia.
Qed.

Definition example_head : MessageHead :=
  mkHead (StartLine_Request (lit "POST") (lit "/v1/objects/0a"))
    [mkHeader (lit "Host") (lit "racer"); mkHeader (lit "Content-Length") (lit "0");
     mkHeader (lit "Authorization") (lit "Bearer a:b")].

Definition example_bytes : list N :=
  match encode_head [lit "authorization"] 1024 example_head with Ok bytes => bytes | Err _ => [] end.

Lemma head_round_trip_witness :
  len example_bytes = 91%N ∧
  decode_head [lit "authorization"] example_request example_response 48 72 1024 (example_bytes ++ lit "body") =
    Ok (Some (example_head, length example_bytes)) ∧
  decode_head [lit "authorization"] example_request example_response 48 72 1024 (take 40 example_bytes) = Ok None.
Proof.
  split; [vm_compute; reflexivity|].
  pose proof (head_round_trip [lit "authorization"] example_request example_response 48 72 visible
    example_request_spec example_response_spec 1024 example_head example_bytes (lit "body")) as Hr.
  destruct Hr as [Hd Hp]; [vm_compute; discriminate|reflexivity|vm_compute; reflexivity|].
  split; [exact Hd|]. apply (Hp (take 40 example_bytes) (drop 40 example_bytes)).
  - symmetry. apply take_drop.
  - vm_compute. discriminate.
Defined.

Lemma accepted_head_unambiguous_witness :
  decode_head [lit "authorization"] example_request example_response 48 72 1024 (example_bytes ++ lit "read") =
    Ok (Some (example_head, 91)).
Proof.
  pose proof (accepted_head_unambiguous [lit "authorization"] example_request example_response 48 72 1024
    (example_bytes ++ lit "read-ahead") example_head 91) as Ha.
  destruct Ha as (_ & _ & _ & _ & _ & _ & Ho); [vm_compute; reflexivity|].
  exact (Ho (lit "read")).
Defined.
