(* ===== verification/HttpMime.v ===== *)
(** * MIME values

    [ContentType::parse] of [cmd/racer/http/src/lib.rs] against a declarative grammar: type
    and subtype tokens, then parameters with distinct names and token or quoted values. *)

From S2P Require Import Prelude Bytes Http.

Local Open Scope racer_scope.

(** ** The grammar *)

Definition token_text (t : list N) : Prop := t ≠ [] ∧ forallb is_token t = true.

Definition blank (s : list N) : Prop := Forall (λ b, b = SP) s.

(** What follows an opening quote, up to and including the closing one. *)
Inductive quoted_text : list N → Prop :=
| qt_end : quoted_text [QUOTE]
| qt_plain b l : b ≠ QUOTE → b ≠ BACKSLASH → quoted_text l → quoted_text (b :: l)
| qt_escape b l : quoted_text l → quoted_text (BACKSLASH :: b :: l).

Definition mime_value (v : list N) : Prop := token_text v ∨ ∃ q, v = QUOTE :: q ∧ quoted_text q.

Inductive mime_params : list (list N) → list N → Prop :=
| mp_nil used : mime_params used []
| mp_cons used s1 s2 name s3 s4 value rest :
    blank s1 → blank s2 → blank s3 → blank s4 → token_text name →
    existsb (λ old, eq_ignore_ascii_case old name) used = false → mime_value value →
    mime_params (used ++ [name]) rest →
    mime_params used (s1 ++ SEMICOLON :: s2 ++ name ++ s3 ++ EQUALS :: s4 ++ value ++ rest).

Definition mime_text (bytes : list N) : Prop :=
  ∃ type subtype rest, bytes = type ++ SLASH :: subtype ++ rest ∧ token_text type ∧ token_text subtype ∧
    mime_params [] rest.

(** ** Scanning *)

Definition stops (p : N → bool) (l : list N) : Prop := ∀ b, head l = Some b → p b = false.

Lemma take_while_split p l :
  ∃ r, l = take_while p l ++ r ∧ drop (length (take_while p l)) l = r ∧ forallb p (take_while p l) = true ∧ stops p r.
Proof.
  induction l as [|b l IH]; [by exists []|]. simpl. destruct (p b) eqn:Eb.
  - destruct IH as (r & Hr & Hd & Hf & Hs). exists r. simpl. rewrite Eb. split_and!; [by f_equal|done|done|done].
  - exists (b :: l). split_and!; [done|done|done|]. intros ? [= <-]. done.
Qed.

Lemma take_while_app p a r : forallb p a = true → stops p r → take_while p (a ++ r) = a.
Proof.
  intros Ha Hr. induction a as [|b a IH]; simpl.
  - destruct r as [|c r]; [done|]. simpl. by rewrite (Hr c).
  - apply andb_true_iff in Ha as [-> Ha]. by rewrite IH.
Qed.

Lemma blank_forallb s : blank s ↔ forallb (λ b, b =? SP)%N s = true.
Proof.
  unfold blank. rewrite Forall_forall, forallb_forall. setoid_rewrite list_elem_of_In.
  split; intros Hs x Hx; [by apply N.eqb_eq, Hs|by apply N.eqb_eq, (Hs x Hx)].
Qed.

Lemma mime_spaces_spec l : ∃ s, blank s ∧ l = s ++ mime_spaces l.
Proof.
  destruct (take_while_split (λ b, b =? SP)%N l) as (r & Hl & Hd & Hf & _).
  exists (take_while (λ b, b =? SP)%N l). unfold mime_spaces. rewrite Hd. split; [by apply blank_forallb|done].
Qed.

Lemma mime_spaces_app s b r : blank s → b ≠ SP → mime_spaces (s ++ b :: r) = b :: r.
Proof.
  intros Hs Hb. unfold mime_spaces. rewrite take_while_app.
  - apply drop_app_length.
  - by apply blank_forallb.
  - intros ? [= <-]. by apply N.eqb_neq.
Qed.

Lemma mime_consume_Ok rest b r : mime_consume rest b = Ok r ↔ rest = b :: r.
Proof.
  unfold mime_consume. destruct rest as [|c rest]; [done|]. destruct (N.eqb_spec c b) as [->|]; naive_solver.
Qed.

Lemma mime_token_Ok l t r : mime_token l = Ok (t, r) → l = t ++ r ∧ token_text t ∧ stops is_token r.
Proof.
  unfold mime_token. destruct (take_while_split is_token l) as (r' & Hl & Hd & Hf & Hs).
  case_bool_decide as Hz; [done|]. rewrite Hd. intros [= <- <-].
  assert (take (length (take_while is_token l)) l = take_while is_token l) as Ht.
  { rewrite Hl at 2. apply take_app_length. }
  rewrite Ht. split_and!; [done| |done]. split; [|done]. by destruct (take_while is_token l).
Qed.

Lemma mime_token_app t r : token_text t → stops is_token r → mime_token (t ++ r) = Ok (t, r).
Proof.
  intros [Ht Hf] Hr. unfold mime_token. rewrite take_while_app by done.
  rewrite bool_decide_false by (by destruct t). by rewrite take_app_length, drop_app_length.
Qed.

Lemma mime_quoted_Ok l r : mime_quoted l = Ok r ↔ ∃ q, quoted_text q ∧ l = q ++ r.
Proof.
  split.
  - assert (∀ n l, length l ≤ n → mime_quoted l = Ok r → ∃ q, quoted_text q ∧ l = q ++ r) as Hind; [|by eauto].
    clear l. induction n as [|n IH]; intros [|b l] Hn Hq; try done; [simpl in Hn; lia|]. simpl in Hq, Hn.
    destruct (N.eqb_spec b QUOTE) as [->|Hb]; [injection Hq as ->; exists [QUOTE]; split; [constructor|done]|].
    destruct (N.eqb_spec b BACKSLASH) as [->|Hb'].
    + destruct l as [|c l]; [done|]. simpl in Hn. destruct (IH l) as (q & Hq' & ->); [lia|done|].
      exists (BACKSLASH :: c :: q). split; [by constructor|done].
    + destruct (IH l) as (q & Hq' & ->); [lia|done|]. exists (b :: q). split; [by constructor|done].
  - intros (q & Hq & ->). induction Hq as [|b l Hb Hb' Hq IH|b l Hq IH]; [done| |].
    + cbn [app mime_quoted]. by rewrite (proj2 (N.eqb_neq b _) Hb), (proj2 (N.eqb_neq b _) Hb').
    + exact IH.
Qed.

(** ** Parameters *)

Lemma mime_parameter_Ok used l name r :
  mime_parameter used l = Ok (name, r) →
  ∃ s1 s2 s3 s4 value, l = s1 ++ SEMICOLON :: s2 ++ name ++ s3 ++ EQUALS :: s4 ++ value ++ r ∧
    blank s1 ∧ blank s2 ∧ blank s3 ∧ blank s4 ∧ token_text name ∧
    existsb (λ old, eq_ignore_ascii_case old name) used = false ∧ mime_value value.
Proof.
  unfold mime_parameter. intros Hp. apply result_bind_Ok in Hp as (r1 & Hc1 & Hp).
  apply result_bind_Ok in Hp as ([n r2] & Ht & Hp). cbv beta iota in Hp. destruct (existsb _ _) eqn:Ee; [done|].
  apply result_bind_Ok in Hp as (r3 & Hc2 & Hp). apply mime_consume_Ok in Hc1, Hc2. apply mime_token_Ok in Ht as (Ht & Hn & _).
  destruct (mime_spaces_spec l) as (s1 & Hs1 & E1). destruct (mime_spaces_spec r1) as (s2 & Hs2 & E2).
  destruct (mime_spaces_spec r2) as (s3 & Hs3 & E3). destruct (mime_spaces_spec r3) as (s4 & Hs4 & E4).
  rewrite Hc1 in E1. rewrite Ht in E2. rewrite Hc2 in E3.
  assert (∃ value, mime_spaces r3 = value ++ r ∧ mime_value value ∧ n = name) as (value & Hv & Hmv & ->).
  { destruct (mime_spaces r3) as [|b after]; [done|]. destruct (N.eqb_spec b QUOTE) as [->|Hb].
    - apply result_bind_Ok in Hp as (r4 & (q & Hq & ->)%mime_quoted_Ok & [= -> ->]).
      exists (QUOTE :: q). split_and!; [done|right; by exists q|done].
    - apply result_bind_Ok in Hp as ([t r4] & (Htk & Htt & _)%mime_token_Ok & [= -> ->]).
      exists t. split_and!; [done|by left|done]. }
  exists s1, s2, s3, s4, value. split_and!; try done.
  by rewrite E1, E2, E3, E4, Hv.
Qed.

Lemma token_head t : token_text t → ∃ b l, t = b :: l ∧ is_token b = true ∧ b ≠ SP ∧ b ≠ QUOTE.
Proof.
  intros [Ht Hf]. destruct t as [|b t]; [done|]. apply andb_true_iff in Hf as [Hb _]. exists b, t.
  split_and!; [done|done|by intros ->|by intros ->].
Qed.

Lemma blank_stops s b r : blank s → is_token b = false → stops is_token (s ++ b :: r).
Proof. intros Hs Hb c Hc. destruct s as [|x s]; simpl in Hc; injection Hc as <-; [done|]. by apply Forall_cons in Hs as [-> _]. Qed.

Lemma mime_params_stops used rest : mime_params used rest → stops is_token rest.
Proof. intros Hp. destruct Hp as [|used s1 s2 name s3 s4 value rest Hs1]; [by intros ?|]. by apply blank_stops. Qed.

Lemma mime_parameter_app used s1 s2 name s3 s4 value rest :
  blank s1 → blank s2 → blank s3 → blank s4 → token_text name →
  existsb (λ old, eq_ignore_ascii_case old name) used = false → mime_value value → stops is_token rest →
  mime_parameter used (s1 ++ SEMICOLON :: s2 ++ name ++ s3 ++ EQUALS :: s4 ++ value ++ rest) = Ok (name, rest).
Proof.
  intros Hs1 Hs2 Hs3 Hs4 Hn Hu Hv Hr. unfold mime_parameter. rewrite mime_spaces_app by done.
  cbn [mime_consume]. rewrite N.eqb_refl. cbn [result_bind].
  pose proof (token_head name Hn) as (b & t & En & _ & Hb & _). rewrite En, <- app_comm_cons, mime_spaces_app, app_comm_cons, <- En by done.
  rewrite mime_token_app by (try done; by apply blank_stops). cbn [result_bind]. rewrite Hu.
  rewrite mime_spaces_app by done. cbn [mime_consume]. rewrite N.eqb_refl. cbn [result_bind].
  destruct Hv as [Hv|(q & -> & Hq)].
  - pose proof (token_head value Hv) as (c & t' & Ev & _ & Hc & Hc').
    rewrite Ev, <- app_comm_cons, mime_spaces_app by done. rewrite (proj2 (N.eqb_neq c _) Hc').
    rewrite app_comm_cons, <- Ev. by rewrite mime_token_app.
  - rewrite <- app_comm_cons, mime_spaces_app by done. rewrite N.eqb_refl.
    rewrite (proj2 (mime_quoted_Ok (q ++ rest) rest)) by (by exists q). done.
Qed.

Lemma mime_parameters_sound fuel used rest : mime_parameters fuel used rest = Ok () → mime_params used rest.
Proof.
  revert used rest. induction fuel as [|fuel IH]; intros used rest Hp; cbn [mime_parameters] in Hp;
    (case_bool_decide as Hr; [subst; constructor|]); [done|].
  apply result_bind_Ok in Hp as ([name r] & Hm & Hp). cbv beta iota in Hp.
  apply mime_parameter_Ok in Hm as (s1 & s2 & s3 & s4 & value & -> & ? & ? & ? & ? & ? & ? & ?).
  constructor; try done. by apply IH.
Qed.

Lemma mime_parameters_complete fuel used rest :
  mime_params used rest → length rest ≤ fuel → mime_parameters fuel used rest = Ok ().
Proof.
  intros Hp. revert fuel. induction Hp as [|used s1 s2 name s3 s4 value rest ? ? ? ? ? ? ? Hp IH]; intros fuel Hf;
    [by destruct fuel|].
  destruct fuel as [|fuel]; [rewrite !length_app in Hf; simpl in Hf; lia|].
  cbn [mime_parameters]. rewrite bool_decide_false by (by destruct s1).
  rewrite mime_parameter_app by (try done; by eapply mime_params_stops). cbn [result_bind]. apply IH.
  repeat (rewrite length_app in Hf; simpl in Hf). lia.
Qed.

(** A MIME value is accepted exactly when it is printable, has no space at its edges and
    derives from the grammar; its bytes are kept unchanged.  The parameter loop always ends. *)
Theorem content_type_accepts_grammar bytes v :
  content_type_parse bytes = Ok v ↔
  v = bytes ∧ (∀ b, b ∈ bytes → 32 ≤ b ≤ 126)%N ∧ head bytes ≠ Some SP ∧ last bytes ≠ Some SP ∧ mime_text bytes.
Proof.
  unfold content_type_parse.
  assert (existsb (λ b, negb ((32 <=? b) && (b <=? 126))%N) bytes = false ↔ ∀ b, b ∈ bytes → (32 ≤ b ≤ 126)%N) as Hprint.
  { rewrite <- not_true_iff_false, existsb_exists. setoid_rewrite <- list_elem_of_In. split.
    - intros Hn b Hb. destruct (decide (32 ≤ b ≤ 126)%N) as [|Hr]; [done|]. exfalso. apply Hn. exists b. split; [done|].
      apply negb_true_iff, andb_false_iff. rewrite !N.leb_gt. lia.
    - intros Hall (b & Hb & Hneg). apply Hall in Hb. apply negb_true_iff, andb_false_iff in Hneg. rewrite !N.leb_gt in Hneg. lia. }
  split.
  - destruct (_ || _) eqn:Eo; [done|]. rewrite !orb_false_iff, !bool_decide_eq_false, Hprint in Eo.
    destruct Eo as [[[_ Hp] Hh] Hl]. intros Hc.
    apply result_bind_Ok in Hc as ([t1 r1] & (Ht1 & Hty & _)%mime_token_Ok & Hc). cbv beta iota in Hc.
    apply result_bind_Ok in Hc as (r2 & Hs%mime_consume_Ok & Hc).
    apply result_bind_Ok in Hc as ([t2 r3] & (Ht2 & Hsub & _)%mime_token_Ok & Hc). cbv beta iota in Hc.
    apply result_bind_Ok in Hc as ([] & Hps%mime_parameters_sound & Hv%ok_or_Ok). apply from_utf8_Some in Hv as ->.
    split_and!; try done. exists t1, t2, r3. split_and!; try done. by rewrite Ht1, Hs, Ht2.
  - intros (-> & Hp & Hh & Hl & (t1 & t2 & r3 & Heq & Hty & Hsub & Hps)).
    assert (bytes ≠ []) as Hne by (rewrite Heq; by destruct t1).
    rewrite !bool_decide_false, (proj2 Hprint Hp) by done. cbn [orb].
    assert (from_utf8 bytes = Some bytes) as Hu by (apply from_utf8_ascii, Forall_forall; intros b Hb; apply Hp in Hb; lia).
    rewrite Heq at 1. rewrite mime_token_app by (try done; by intros ? [= <-]). cbn [result_bind mime_consume].
    rewrite N.eqb_refl. cbn [result_bind]. rewrite mime_token_app by (try done; by eapply mime_params_stops).
    cbn [result_bind]. rewrite mime_parameters_complete by done. cbn [result_bind]. by rewrite Hu.
Qed.
