(* ===== verification/ObjectModel.v ===== *)
(** * Objects, ranges and metadata

    [cmd/racer/object-wire/src/model.rs]: canonical decimals and keys, strong tags, byte
    ranges and their page slices, expiry and version metadata.  Text is the list of its
    bytes, a [SystemTime] the signed nanoseconds since the epoch, whose seconds are an [i64]. *)

From S2P Require Import Prelude Bytes Http.

Local Open Scope racer_scope.

(** [racer_object_wire::Error]. *)
Inductive ObjError :=
| ObjError_InvalidRequest | ObjError_MethodNotAllowed | ObjError_HeaderTooLarge
| ObjError_InvalidRange | ObjError_UnsatisfiableRange | ObjError_UnsatisfiableRangeWithLength (length : N)
| ObjError_NotFound | ObjError_BadGateway | ObjError_Internal | ObjError_VersionUnavailable
| ObjError_Unavailable | ObjError_OriginRejected | ObjError_OriginForbidden | ObjError_CorruptRecord.

#[export] Instance obj_error_eq_dec : EqDecision ObjError.
Proof. solve_decision. Defined.

(** [impl From<http1::Error> for Error]. *)
Definition obj_error_from_http (e : HttpError) : ObjError :=
  match e with
  | HttpError_Malformed => ObjError_InvalidRequest
  | HttpError_HeadTooLarge => ObjError_HeaderTooLarge
  end.

(** [Result::map_err_to] to one error. *)
Definition map_err_to {A E E'} (r : result A E) (e : E') : result A E' :=
  match r with Ok a => Ok a | Err _ => Err e end.

Definition MAX_FIELD_BYTES : N := 8192.
Definition MAX_WIRE_INTEGER : N := 9223372036854775807.

(** ** Canonical decimals *)

Fixpoint parse_decimal_from (n : N) (value : list N) : result N ObjError :=
  match value with
  | [] => Ok n
  | byte :: value =>
      if negb (is_ascii_digit byte) then Err ObjError_InvalidRequest
      else
        match checked_mul U64_MAX n 10 ≫= λ n, checked_add U64_MAX n (byte - 48) with
        | Some n => if (n <=? MAX_WIRE_INTEGER)%N then parse_decimal_from n value else Err ObjError_InvalidRequest
        | None => Err ObjError_InvalidRequest
        end
  end.

(** [parse_decimal]. *)
Definition parse_decimal (value : list N) : result N ObjError :=
  if bool_decide (value = []) || (19 <? len value)%N ||
     ((1 <? len value)%N && bool_decide (head value = Some 48%N))
  then Err ObjError_InvalidRequest
  else parse_decimal_from 0 value.

(** ** Hexadecimal *)

Definition nibble (byte : N) : option N :=
  if ((48 <=? byte) && (byte <=? 57))%N then Some (byte - 48)%N
  else if ((97 <=? byte) && (byte <=? 102))%N then Some (byte - 97 + 10)%N
  else None.

(** [wire_codec::decode_hex]: exactly [2 * n] lowercase digits. *)
Definition decode_hex (n : nat) (value : list N) : option (list N) :=
  if bool_decide (length value = n * 2) then
    mapM (λ pair, match pair with
                  | [a; b] => a ← nibble a; b ← nibble b; Some (N.lor (N.shiftl a 4) b)
                  | _ => None
                  end) (chunks_exact 2 value)
  else None.

(** [wire_codec::encode_hex]. *)
Definition HEX : list N := lit "0123456789abcdef".

Definition encode_hex (bytes : list N) : list N :=
  bytes ≫= λ byte, [default 0%N (HEX !! N.to_nat (N.shiftr byte 4)); default 0%N (HEX !! N.to_nat (N.land byte 15))].

(** ** Identity *)

(** [CacheKey::parse_hex] and [CacheKey::to_hex]. *)
Definition cache_key_parse_hex (value : list N) : result (list N) ObjError :=
  ok_or (decode_hex 32 value) ObjError_InvalidRequest.

Definition cache_key_to_hex (key : list N) : list N := encode_hex key.

Definition etag_byte (b : N) : bool := (b =? 33)%N || ((35 <=? b) && (b <=? 126))%N.

(** [StrongEtag::parse]. *)
Definition etag_parse (value : list N) : result (list N) ObjError :=
  if negb ((2 <=? len value) && (len value <=? MAX_FIELD_BYTES))%N ||
     negb (bool_decide (head value = Some QUOTE)) || negb (bool_decide (last value = Some QUOTE)) ||
     negb (forallb etag_byte (drop 1 (take (length value - 1) value)))
  then Err ObjError_InvalidRequest
  else ok_or (from_utf8 value) ObjError_InvalidRequest.

Record ObjectId : Type := mkObject { o_cache : list N; o_key : list N }.
Record ObjectVersion : Type := mkVersion { v_object : ObjectId; v_etag : list N }.
Record PageId : Type := mkPage { p_version : ObjectVersion; p_number : N }.

#[export] Instance object_id_eq_dec : EqDecision ObjectId.
Proof. solve_decision. Defined.
#[export] Instance object_version_eq_dec : EqDecision ObjectVersion.
Proof. solve_decision. Defined.
#[export] Instance page_id_eq_dec : EqDecision PageId.
Proof. solve_decision. Defined.

(** ** Ranges *)

Definition PAGE_BYTES : N := 16 * 1024 * 1024.

Inductive ByteRange :=
| ByteRange_Closed (first last : N)
| ByteRange_From (first : N)
| ByteRange_Suffix (length : N).

Record ResolvedRange : Type := mkResolved { r_start : N; r_end : N }.

Record PageSlice : Type := mkSlice { s_page : N; s_offset : N; s_length : N }.

(** [ByteRange::validate]. *)
Definition range_validate (r : ByteRange) : result () ObjError :=
  match r with
  | ByteRange_Closed first last =>
      if ((first <=? last) && (last <=? MAX_WIRE_INTEGER))%N then Ok () else Err ObjError_InvalidRange
  | ByteRange_From first => if (first <=? MAX_WIRE_INTEGER)%N then Ok () else Err ObjError_InvalidRange
  | ByteRange_Suffix length => if (length <=? MAX_WIRE_INTEGER)%N then Ok () else Err ObjError_InvalidRange
  end.

(** [ByteRange::closed], [ByteRange::from] and [ByteRange::suffix]. *)
Definition range_closed (first last : N) : result ByteRange ObjError :=
  let? _ := range_validate (ByteRange_Closed first last) in Ok (ByteRange_Closed first last).

Definition range_from (first : N) : result ByteRange ObjError :=
  let? _ := range_validate (ByteRange_From first) in Ok (ByteRange_From first).

Definition range_suffix (length : N) : result ByteRange ObjError :=
  let? _ := range_validate (ByteRange_Suffix length) in Ok (ByteRange_Suffix length).

(** [ByteRange::parse]. *)
Definition range_parse (value : list N) : result ByteRange ObjError :=
  let? range := map_err_to (byte_range_parse_with obj_error_from_http parse_decimal value) ObjError_InvalidRange in
  match range with
  | HttpByteRange_Closed first last => range_closed first last
  | HttpByteRange_From first => range_from first
  | HttpByteRange_Suffix length => range_suffix length
  end.

(** [ByteRange::resolve]. *)
Definition range_resolve (r : ByteRange) (object_length : N) : result ResolvedRange ObjError :=
  let? _ := range_validate r in
  if (MAX_WIRE_INTEGER <? object_length)%N then Err ObjError_InvalidRange
  else if (object_length =? 0)%N then Err ObjError_UnsatisfiableRange
  else
    let? (start, end_) :=
      match r with
      | ByteRange_Closed first last => Ok (first, N.min (last + 1) object_length)
      | ByteRange_From first => Ok (first, object_length)
      | ByteRange_Suffix length =>
          if (length =? 0)%N then Err ObjError_UnsatisfiableRange
          else Ok (object_length - length, object_length)%N
      end in
    if (object_length <=? start)%N then Err ObjError_UnsatisfiableRange else Ok (mkResolved start end_).

(** [ByteRange::to_header]. *)
Definition range_to_header (r : ByteRange) : result (list N) ObjError :=
  let? _ := range_validate r in
  Ok (match r with
      | ByteRange_Closed first last => lit "bytes=" ++ to_decimal first ++ DASH :: to_decimal last
      | ByteRange_From first => lit "bytes=" ++ to_decimal first ++ [DASH]
      | ByteRange_Suffix length => lit "bytes=-" ++ to_decimal length
      end).

(** [ResolvedRange::len], [first_page] and [last_page]. *)
Definition resolved_len (r : ResolvedRange) : N := r_end r - r_start r.
Definition first_page (r : ResolvedRange) : N := r_start r / PAGE_BYTES.
Definition last_page (r : ResolvedRange) : N := (r_end r - 1) / PAGE_BYTES.

(** [as u32]. *)
Definition as_u32 (n : N) : N := n mod 2 ^ 32.

(** [ResolvedRange::slice_at]. *)
Definition slice_at (r : ResolvedRange) (page : N) : result (option PageSlice) ObjError :=
  let? page_start := ok_or (checked_mul U64_MAX page PAGE_BYTES) ObjError_InvalidRange in
  if (r_end r <=? page_start)%N then Ok None
  else
    let start := N.max (r_start r) page_start in
    let end_ := N.min (r_end r) (page_start + PAGE_BYTES) in
    if (end_ <=? start)%N then Ok None
    else Ok (Some (mkSlice page (as_u32 (start - page_start)) (as_u32 (end_ - start)))).

(** ** Metadata *)

Definition MAX_CONTENT_TYPE_BYTES : N := 256.

(** [ContentType::parse] of the object protocol. *)
Definition object_content_type_parse (bytes : list N) : result (list N) ObjError :=
  if (MAX_CONTENT_TYPE_BYTES <? len bytes)%N then Err ObjError_InvalidRequest
  else match content_type_parse bytes with
       | Ok v => Ok v
       | Err e => Err (obj_error_from_http e)
       end.

Definition MILLISECOND : N := 1000000.

(** [UNIX_EPOCH.checked_add]: seconds are an [i64]. *)
Definition epoch_checked_add (nanos : N) : option Z :=
  if (nanos / SECOND <=? MAX_WIRE_INTEGER)%N then Some (Z.of_N nanos) else None.

(** [SystemTime::duration_since(UNIX_EPOCH)]. *)
Definition since_epoch (time : Z) : option N := if (time <? 0)%Z then None else Some (Z.to_N time).

(** [ExpiresAt::from_unix_millis]. *)
Definition expires_from_unix_millis (milliseconds : N) : result Z ObjError :=
  if (MAX_WIRE_INTEGER <? milliseconds)%N then Err ObjError_InvalidRequest
  else ok_or (epoch_checked_add (milliseconds * MILLISECOND)) ObjError_InvalidRequest.

(** [ExpiresAt::to_unix_millis]. *)
Definition expires_to_unix_millis (time : Z) : result N ObjError :=
  let? duration := ok_or (since_epoch time) ObjError_InvalidRequest in
  if negb ((duration mod SECOND) mod MILLISECOND =? 0)%N || (MAX_WIRE_INTEGER <? duration / MILLISECOND)%N
  then Err ObjError_InvalidRequest
  else Ok (duration / MILLISECOND)%N.

(** [ExpiresAt::from_system_time], [parse] and [to_header]. *)
Definition expires_from_system_time (time : Z) : result Z ObjError :=
  let? _ := expires_to_unix_millis time in Ok time.

Definition expires_parse (value : list N) : result Z ObjError :=
  let? n := parse_decimal value in expires_from_unix_millis n.

Definition expires_to_header (time : Z) : result (list N) ObjError :=
  let? n := expires_to_unix_millis time in Ok (to_decimal n).

Record ObjectMetadata : Type := mkMetadata {
  om_content_type : option (list N);
  om_version : ObjectVersion;
  om_length : N;
  om_expires_at : Z;
}.

Record VersionMetadata : Type := mkVersionMetadata {
  vm_content_type : option (list N);
  vm_version : ObjectVersion;
  vm_length : N;
}.

Record CurrentVersion : Type := mkCurrent { cv_version : ObjectVersion; cv_expires_at : Z }.

#[export] Instance object_metadata_eq_dec : EqDecision ObjectMetadata.
Proof. solve_decision. Defined.
#[export] Instance version_metadata_eq_dec : EqDecision VersionMetadata.
Proof. solve_decision. Defined.

(** [ObjectMetadata::validate] and [ObjectMetadata::immutable]. *)
Definition metadata_validate (m : ObjectMetadata) : result () ObjError :=
  if (MAX_WIRE_INTEGER <? om_length m)%N then Err ObjError_InvalidRequest
  else let? _ := expires_to_unix_millis (om_expires_at m) in Ok ().

Definition immutable (m : ObjectMetadata) : VersionMetadata :=
  mkVersionMetadata (om_content_type m) (om_version m) (om_length m).

(** [VersionMetadata::compatible] and [VersionMetadata::for_pin]. *)
Definition compatible (a b : VersionMetadata) : bool :=
  bool_decide (vm_version a = vm_version b) && (vm_length a =? vm_length b)%N &&
  bool_decide (vm_content_type a = vm_content_type b).

Definition for_pin (m : VersionMetadata) : ObjectMetadata :=
  mkMetadata (vm_content_type m) (vm_version m) (vm_length m) 0%Z.

(** [VersionMetadata::page_length]. *)
Definition page_length (m : VersionMetadata) (page : PageId) : result N ObjError :=
  let? start := ok_or (checked_mul U64_MAX (p_number page) PAGE_BYTES) ObjError_CorruptRecord in
  if (MAX_WIRE_INTEGER <? vm_length m)%N || negb (bool_decide (p_version page = vm_version m)) ||
     (vm_length m <=? start)%N
  then Err ObjError_CorruptRecord
  else Ok (as_u32 (N.min (vm_length m - start) PAGE_BYTES)).

(** The trait [PageDescriptor]: its structure check, page and plaintext length. *)
Record PageDescriptor : Type := mkDescriptor {
  validate_structure : result () ObjError;
  descriptor_page : PageId;
  plaintext_length : N;
}.

(** [VersionMetadata::validate_page]. *)
Definition version_validate_page (m : VersionMetadata) (d : PageDescriptor) : result () ObjError :=
  let? _ := validate_structure d in
  let? n := page_length m (descriptor_page d) in
  if negb (n =? plaintext_length d)%N then Err ObjError_CorruptRecord else Ok ().

(** [CurrentVersion::resolve]. *)
Definition current_resolve (c : CurrentVersion) (descriptor : VersionMetadata) (now : Z) :
    result (option ObjectMetadata) ObjError :=
  if negb (bool_decide (cv_version c = vm_version descriptor)) then Err ObjError_VersionUnavailable
  else if (MAX_WIRE_INTEGER <? vm_length descriptor)%N then Err ObjError_CorruptRecord
  else
    let? _ := expires_to_unix_millis (cv_expires_at c) in
    Ok (if (now <? cv_expires_at c)%Z
        then Some (mkMetadata (vm_content_type descriptor) (vm_version descriptor) (vm_length descriptor) (cv_expires_at c))
        else None).
