(* ===== verification/ObjectRanges.v ===== *)
(** * Canonical text and byte ranges

    What the object model guarantees of its encodings and ranges: decimals, keys, ranges and
    expiries have exactly one accepted spelling, a resolved range is exactly the requested
    bytes of the object, and its page slices cover exactly those bytes within their pages. *)

From S2P Require Import Prelude Bytes Http ObjectModel.

Local Open Scope racer_scope.

(** ** Decimals *)

Definition digits_from (n : N) (l : list N) : N := foldl (λ acc b, acc * 10 + (b - 48))%N n l.

Lemma digits_from_mono n l : (n ≤ digits_from n l)%N.
Proof.
  revert n. induction l as [|b l IH]; intros n; simpl; [lia|].
  specialize (IH (n * 10 + (b - 48))%N). unfold digits_from in *. lia.
Qed.

Lemma parse_decimal_from_Ok n value v :
  parse_decimal_from n value = Ok v →
  forallb is_ascii_digit value = true ∧ v = digits_from n value ∧ (n ≤ MAX_WIRE_INTEGER → v ≤ MAX_WIRE_INTEGER)%N.
Proof.
  revert n. induction value as [|b value IH]; intros n Hp; [by injection Hp as <-|].
  cbn [parse_decimal_from] in Hp. destruct (is_ascii_digit b) eqn:Eb; [|done]. cbn [negb] in Hp.
  destruct (checked_mul _ n 10) as [m|] eqn:Em; [|done]. cbn [mbind option_bind] in Hp.
  destruct (checked_add _ m _) as [k|] eqn:Ek; [|done].
  destruct (N.leb_spec k MAX_WIRE_INTEGER) as [Hk|]; [|done].
  apply checked_mul_Some in Em as [_ ->]. apply checked_add_Some in Ek as [_ ->].
  destruct (IH _ Hp) as (Hd & -> & Hb). simpl. rewrite Eb. split_and!; [done|done|]. intros _. by apply Hb.
Qed.

Lemma parse_decimal_from_digits n value :
  forallb is_ascii_digit value = true → (digits_from n value ≤ MAX_WIRE_INTEGER)%N →
  parse_decimal_from n value = Ok (digits_from n value).
Proof.
  revert n. induction value as [|b value IH]; intros n Hd Hv; [done|]. apply andb_true_iff in Hd as [Hb Hd].
  cbn [parse_decimal_from]. rewrite Hb. cbn [negb].
  pose proof (digits_from_mono (n * 10 + (b - 48))%N value) as Hm. simpl in Hv. unfold digits_from in *.
  assert (checked_mul U64_MAX n 10 = Some (n * 10)%N) as ->
    by (apply checked_mul_Some; unfold U64_MAX, MAX_WIRE_INTEGER in *; lia).
  cbn [mbind option_bind].
  assert (checked_add U64_MAX (n * 10) (b - 48) = Some (n * 10 + (b - 48))%N) as ->
    by (apply checked_add_Some; unfold U64_MAX, MAX_WIRE_INTEGER in *; lia).
  rewrite (proj2 (N.leb_le _ MAX_WIRE_INTEGER)) by lia. by apply IH.
Qed.

Lemma decimal_text_length n : (n ≤ MAX_WIRE_INTEGER)%N → (1 ≤ len (to_decimal n) ≤ 19)%N.
Proof.
  intros Hn. destruct (to_decimal_canonical n) as [Hc Hv]; [unfold U64_MAX, MAX_WIRE_INTEGER in *; lia|].
  pose proof Hc as (_ & Hne & Hz). split; [destruct (to_decimal n); [done|rewrite len_cons; lia]|].
  destruct (decide (head (to_decimal n) = Some 48%N)) as [Hh|Hh]; [by rewrite (Hz Hh)|].
  pose proof (digits_value_lower _ Hc Hh) as Hl. rewrite Hv in Hl.
  destruct (N.le_gt_cases (len (to_decimal n)) 19) as [|Hgt]; [done|]. exfalso.
  assert (10 ^ 19 ≤ 10 ^ (len (to_decimal n) - 1))%N as Hp by (apply N.pow_le_mono_r; lia).
  change (10 ^ 19)%N with 10000000000000000000%N in Hp. unfold MAX_WIRE_INTEGER in Hn. lia.
Qed.

(** Decimals have one accepted spelling. *)
Lemma parse_decimal_canonical value n :
  parse_decimal value = Ok n ↔ (n ≤ MAX_WIRE_INTEGER)%N ∧ value = to_decimal n.
Proof.
  unfold parse_decimal. split.
  - destruct (_ || _) eqn:Eo; [done|]. rewrite !orb_false_iff, bool_decide_eq_false, N.ltb_ge in Eo.
    destruct Eo as [[Hne Hlen] Hz]. intros (Hd & -> & Hb)%parse_decimal_from_Ok.
    split; [apply Hb; done|]. symmetry. apply decimal_digits_canonical; [|unfold len in Hlen; lia].
    split_and!; [done|done|]. intros Hh. apply andb_false_iff in Hz as [Hz|Hz].
    + apply N.ltb_ge in Hz. destruct value as [|x [|y l]]; [done|simpl in Hh; congruence|rewrite !len_cons in Hz; lia].
    + by apply bool_decide_eq_false in Hz.
  - intros [Hn ->]. pose proof (decimal_text_length n Hn) as Hl.
    destruct (to_decimal_canonical n) as [(Hd & Hne & Hz) Hv]; [unfold U64_MAX, MAX_WIRE_INTEGER in *; lia|].
    rewrite bool_decide_false, (proj2 (N.ltb_ge 19 _)) by (done || lia). cbn [orb].
    assert ((1 <? len (to_decimal n))%N && bool_decide (head (to_decimal n) = Some 48%N) = false) as ->.
    { apply andb_false_iff. destruct (decide (head (to_decimal n) = Some 48%N)) as [Hh|Hh].
      - left. by rewrite (Hz Hh).
      - right. by apply bool_decide_eq_false. }
    rewrite parse_decimal_from_digits; unfold digits_from; fold (digits_value (to_decimal n)); by rewrite ?Hv.
Qed.

(** ** Ranges as text *)

Lemma to_decimal_no_dash n : (n ≤ MAX_WIRE_INTEGER)%N → forallb (λ b, negb (b =? DASH)%N) (to_decimal n) = true.
Proof.
  intros Hn. destruct (to_decimal_spec n) as (Hd & _); [unfold U64_MAX, MAX_WIRE_INTEGER in *; lia|].
  eapply forallb_impl; [|exact Hd]. intros b Hb%is_ascii_digit_inv. apply negb_true_iff, N.eqb_neq. unfold DASH. lia.
Qed.

Lemma to_decimal_nonempty n : (n ≤ MAX_WIRE_INTEGER)%N → to_decimal n ≠ [].
Proof. intros Hn. destruct (to_decimal_spec n) as (_ & _ & ? & _); [unfold U64_MAX, MAX_WIRE_INTEGER in *; lia|done]. Qed.

Lemma range_validate_Ok r :
  range_validate r = Ok () ↔
  match r with
  | ByteRange_Closed first last => (first ≤ last ≤ MAX_WIRE_INTEGER)%N
  | ByteRange_From first => (first ≤ MAX_WIRE_INTEGER)%N
  | ByteRange_Suffix length => (length ≤ MAX_WIRE_INTEGER)%N
  end.
Proof.
  destruct r as [f l|f|n]; simpl; [|destruct (N.leb_spec f MAX_WIRE_INTEGER); naive_solver lia|
    destruct (N.leb_spec n MAX_WIRE_INTEGER); naive_solver lia].
  destruct (_ && _) eqn:Ea; [rewrite andb_true_iff, !N.leb_le in Ea|rewrite andb_false_iff, !N.leb_gt in Ea]; naive_solver lia.
Qed.

Lemma range_parse_Ok value r :
  range_parse value = Ok r → range_validate r = Ok () ∧
  match r with
  | ByteRange_Closed first last => byte_range_parse_with obj_error_from_http parse_decimal value = Ok (HttpByteRange_Closed first last)
  | ByteRange_From first => byte_range_parse_with obj_error_from_http parse_decimal value = Ok (HttpByteRange_From first)
  | ByteRange_Suffix n => byte_range_parse_with obj_error_from_http parse_decimal value = Ok (HttpByteRange_Suffix n)
  end.
Proof.
  unfold range_parse. intros Hp. apply result_bind_Ok in Hp as (hr & Hm & Hp).
  destruct (byte_range_parse_with _ _ _) as [x|]; [|done]. injection Hm as ->.
  destruct hr; apply result_bind_Ok in Hp as ([] & Hv & [= <-]); done.
Qed.

Lemma range_parse_header value r : range_parse value = Ok r → range_to_header r = Ok value.
Proof.
  intros [Hv Hp]%range_parse_Ok. unfold range_to_header. rewrite Hv. cbn [result_bind]. f_equal.
  assert (∀ hr, byte_range_parse_with obj_error_from_http parse_decimal value = Ok hr →
    value = match hr with
            | HttpByteRange_Closed first last => lit "bytes=" ++ to_decimal first ++ DASH :: to_decimal last
            | HttpByteRange_From first => lit "bytes=" ++ to_decimal first ++ [DASH]
            | HttpByteRange_Suffix length => lit "bytes=-" ++ to_decimal length
            end) as Htext.
  2:{ by destruct r; apply Htext in Hp. }
  clear. intros hr Hp. unfold byte_range_parse_with in Hp.
  apply result_bind_Ok in Hp as (bounds & Hb%ok_or_Ok%strip_prefix_Some & Hp).
  apply result_bind_Ok in Hp as (sep & Hs%ok_or_Ok & Hp). apply position_split in Hs as (x & ->%N.eqb_eq & Hsplit).
  rewrite Hb. clear Hb value. set (f := take sep bounds) in *. set (l := drop (sep + 1) bounds) in *. clearbody f l. subst bounds.
  destruct (decide (f = [])) as [->|Hf], (decide (l = [])) as [->|Hl];
    rewrite ?(bool_decide_true (_ = _)), ?(bool_decide_false (_ = _)) in Hp by done; cbv beta iota in Hp; [done|..].
  - apply result_bind_Ok in Hp as (n & [_ ->]%parse_decimal_canonical & [= <-]). done.
  - apply result_bind_Ok in Hp as (n & [_ ->]%parse_decimal_canonical & [= <-]). done.
  - apply result_bind_Ok in Hp as (n & [_ ->]%parse_decimal_canonical & Hp).
    apply result_bind_Ok in Hp as (m & [_ ->]%parse_decimal_canonical & Hp).
    destruct (m <? n)%N; [done|]. injection Hp as <-. done.
Qed.

Lemma byte_range_parse_text f l :
  forallb (λ b, negb (b =? DASH)%N) f = true →
  byte_range_parse_with obj_error_from_http parse_decimal (lit "bytes=" ++ f ++ DASH :: l) =
  match bool_decide (f = []), bool_decide (l = []) with
  | true, true => Err ObjError_InvalidRequest
  | true, false => let? n := parse_decimal l in Ok (HttpByteRange_Suffix n)
  | false, true => let? n := parse_decimal f in Ok (HttpByteRange_From n)
  | false, false =>
      let? first := parse_decimal f in
      let? last := parse_decimal l in
      if (last <? first)%N then Err ObjError_InvalidRequest else Ok (HttpByteRange_Closed first last)
  end.
Proof.
  intros Hf. unfold byte_range_parse_with. rewrite strip_prefix_app. cbn [ok_or result_bind].
  rewrite position_skip by done. cbn [ok_or result_bind]. by rewrite take_app_length, drop_app_cons.
Qed.

Lemma range_header_parse value r : range_to_header r = Ok value → range_parse value = Ok r.
Proof.
  unfold range_to_header. intros Hh. apply result_bind_Ok in Hh as ([] & Hv & Hh).
  pose proof (proj1 (range_validate_Ok r) Hv) as Hb. unfold range_parse.
  assert (∀ n, (n ≤ MAX_WIRE_INTEGER)%N → parse_decimal (to_decimal n) = Ok n) as Hdec
    by (intros n Hn; by apply parse_decimal_canonical).
  destruct r as [f l|f|n];
    match type of Hh with Ok ?t = _ => assert (value = t) as -> by congruence end; clear Hh.
  - rewrite byte_range_parse_text by (apply to_decimal_no_dash; lia).
    rewrite !bool_decide_false, !Hdec by (try apply to_decimal_nonempty; lia). cbn [result_bind].
    rewrite (proj2 (N.ltb_ge l f)) by lia. cbn [map_err_to result_bind]. unfold range_closed. by rewrite Hv.
  - rewrite byte_range_parse_text by (by apply to_decimal_no_dash).
    rewrite bool_decide_false, bool_decide_true, Hdec by (try apply to_decimal_nonempty; done). cbn [result_bind map_err_to].
    unfold range_from. by rewrite Hv.
  - change (lit "bytes=-" ++ to_decimal n) with (lit "bytes=" ++ [] ++ DASH :: to_decimal n).
    rewrite byte_range_parse_text by done.
    rewrite bool_decide_true, bool_decide_false, Hdec by (try apply to_decimal_nonempty; done). cbn [result_bind map_err_to].
    unfold range_suffix. by rewrite Hv.
Qed.

(** ** Keys as text *)

Lemma forall_below (n : nat) (P : N → bool) x :
  forallb P (N.of_nat <$> seq 0 n) = true → (x < N.of_nat n)%N → P x = true.
Proof.
  intros HP Hx. apply (forallb_elem _ _ _ HP), list_elem_of_fmap. exists (N.to_nat x). split; [lia|].
  apply elem_of_seq. lia.
Qed.

Definition hex_pair (byte : N) : list N :=
  [default 0%N (HEX !! N.to_nat (N.shiftr byte 4)); default 0%N (HEX !! N.to_nat (N.land byte 15))].

Definition hex_unpair (pair : list N) : option N :=
  match pair with
  | [a; b] => a ← nibble a; b ← nibble b; Some (N.lor (N.shiftl a 4) b)
  | _ => None
  end.

Lemma hex_pair_length x : length (hex_pair x) = 2.
Proof. done. Qed.

Lemma hex_pair_unpair x : (x < 256)%N → hex_unpair (hex_pair x) = Some x.
Proof.
  intros Hx.
  assert (forallb (λ x, match hex_unpair (hex_pair x) with Some y => (y =? x)%N | None => false end)
            (N.of_nat <$> seq 0 256) = true) as Hall by (vm_compute; reflexivity).
  apply (forall_below _ _ x Hall) in Hx. destruct (hex_unpair (hex_pair x)); [|done]. by apply N.eqb_eq in Hx as ->.
Qed.

Definition hex_digit (h a : N) : bool :=
  (h <? 16)%N && match HEX !! N.to_nat h with Some b => (b =? a)%N | None => false end.

Lemma nibble_digit a h : (a < 256)%N → nibble a = Some h → (h < 16)%N ∧ HEX !! N.to_nat h = Some a.
Proof.
  intros Ha Hn.
  assert (forallb (λ a, match nibble a with Some h => hex_digit h a | None => true end) (N.of_nat <$> seq 0 256) = true)
    as Hall by (vm_compute; reflexivity).
  apply (forall_below _ _ a Hall) in Ha. rewrite Hn in Ha. apply andb_true_iff in Ha as [Hh Hb].
  apply N.ltb_lt in Hh. destruct (HEX !! N.to_nat h); [|done]. by apply N.eqb_eq in Hb as ->.
Qed.

Definition hex_joined (h l : N) : bool :=
  (N.shiftr (N.lor (N.shiftl h 4) l) 4 =? h)%N && (N.land (N.lor (N.shiftl h 4) l) 15 =? l)%N &&
  (N.lor (N.shiftl h 4) l <? 256)%N.

Lemma hex_join h l : (h < 16)%N → (l < 16)%N →
  N.shiftr (N.lor (N.shiftl h 4) l) 4 = h ∧ N.land (N.lor (N.shiftl h 4) l) 15 = l ∧ (N.lor (N.shiftl h 4) l < 256)%N.
Proof.
  intros Hh Hl.
  assert (forallb (λ h, forallb (hex_joined h) (N.of_nat <$> seq 0 16)) (N.of_nat <$> seq 0 16) = true)
    as Hall by (vm_compute; reflexivity).
  apply (forall_below _ _ h Hall) in Hh. apply (forall_below _ _ l Hh) in Hl.
  unfold hex_joined in Hl. rewrite !andb_true_iff, !N.eqb_eq, N.ltb_lt in Hl. naive_solver.
Qed.

Lemma hex_unpair_pair r x :
  length r = 2 → bytes_ok r → hex_unpair r = Some x → hex_pair x = r ∧ (x < 256)%N.
Proof.
  intros Hl Hb Hu. destruct r as [|a [|b [|c r]]]; try done. apply Forall_cons in Hb as [Ha Hb]. rewrite Forall_singleton in Hb.
  unfold hex_unpair in Hu. destruct (nibble a) as [h|] eqn:Eh; [|done]. destruct (nibble b) as [l|] eqn:El; [|done].
  injection Hu as <-. apply nibble_digit in Eh as [Hh Eh], El as [Hl' El]; try done.
  destruct (hex_join h l Hh Hl') as (H1 & H2 & H3). unfold hex_pair. by rewrite H1, H2, Eh, El.
Qed.

Lemma mapM_unpair_bytes rs k :
  Forall (λ r, length r = 2 ∧ bytes_ok r) rs → mapM hex_unpair rs = Some k → bytes_ok k ∧ length k = length rs.
Proof.
  intros Hr Hm. apply mapM_Some in Hm. induction Hm as [|r x rs k Hx Hm IH]; [split; [constructor|done]|].
  apply Forall_cons in Hr as [[Hl Hb] Hr]. destruct (IH Hr) as [Hk Hlen].
  destruct (hex_unpair_pair r x Hl Hb Hx) as [_ ?]. split; [by constructor|]. simpl. by rewrite Hlen.
Qed.

Lemma chunks_bytes (n : nat) v : 0 < n → length v mod n = 0 → bytes_ok v →
  Forall (λ r, length r = n ∧ bytes_ok r) (chunks_exact n v).
Proof.
  intros Hn Hm Hv. destruct (chunks_exact_join n v (length v) Hn Hm ltac:(done)) as [Hc Hall].
  fold (chunks_exact n v) in Hc, Hall. apply Forall_and. split; [done|].
  rewrite <- Hc in Hv. apply Forall_forall. intros r Hr. apply Forall_forall. intros b Hb.
  unfold bytes_ok in Hv. rewrite Forall_forall in Hv. apply Hv. apply list_elem_of_In, in_concat. exists r.
  by rewrite <- !list_elem_of_In.
Qed.

Lemma cache_key_text v k :
  bytes_ok v → cache_key_parse_hex v = Ok k ↔ length k = 32 ∧ bytes_ok k ∧ v = cache_key_to_hex k.
Proof.
  intros Hv. unfold cache_key_parse_hex, decode_hex. rewrite ok_or_Ok. fold hex_unpair.
  change (cache_key_to_hex k) with (k ≫= hex_pair). split.
  - case_bool_decide as Hl; [|done]. intros Hm.
    assert (length v mod 2 = 0) as H2 by (by rewrite Hl).
    pose proof (chunks_bytes 2 v ltac:(lia) H2 Hv) as Hc. destruct (mapM_unpair_bytes _ _ Hc Hm) as [Hk Hlen].
    assert (k ≫= hex_pair = v) as Hkv.
    { apply (records_uncut 2 hex_pair ltac:(lia) v hex_unpair k); try done.
      intros r x Hr Hb Hu. by apply (hex_unpair_pair r x). }
    split_and!; [|done|done]. pose proof (records_length 2 hex_pair hex_pair_length k) as Hrl. rewrite Hkv, Hl in Hrl. lia.
  - intros (Hl & Hk & ->). rewrite (records_length 2 hex_pair hex_pair_length). rewrite bool_decide_true by lia.
    rewrite (records_cut 2 hex_pair hex_pair_length) by lia. clear Hl Hv. induction Hk as [|x k Hx Hk IH]; [done|].
    rewrite fmap_cons. cbn [mapM]. rewrite hex_pair_unpair by done. cbn [mbind option_bind]. by rewrite IH.
Qed.

(** ** Expiry as text *)

Lemma expires_text v t : expires_parse v = Ok t ↔ expires_to_header t = Ok v.
Proof.
  unfold expires_parse, expires_to_header, expires_from_unix_millis, expires_to_unix_millis, epoch_checked_add, since_epoch.
  split.
  - intros Hp. apply result_bind_Ok in Hp as (n & [Hn ->]%parse_decimal_canonical & Hp).
    rewrite (proj2 (N.ltb_ge _ _) Hn) in Hp. apply ok_or_Ok in Hp. destruct (_ <=? _)%N; [|done]. injection Hp as <-.
    rewrite (proj2 (Z.ltb_ge _ _)) by lia. cbn [ok_or result_bind]. rewrite N2Z.id.
    assert ((n * MILLISECOND) mod SECOND mod MILLISECOND = 0)%N as ->.
    { change SECOND with (MILLISECOND * 1000)%N. rewrite (N.mul_comm n), N.Div0.mul_mod_distr_l, N.mul_comm.
      apply N.Div0.mod_mul. }
    rewrite N.div_mul by done. rewrite (proj2 (N.ltb_ge _ _) Hn). done.
  - intros Hp. apply result_bind_Ok in Hp as (n & Hn & Hv).
    match type of Hv with Ok ?t = _ => assert (v = t) as -> by congruence end.
    apply result_bind_Ok in Hn as (d & Hd%ok_or_Ok & Hn). destruct (Z.ltb_spec t 0) as [|Ht]; [done|]. injection Hd as <-.
    destruct (_ || _) eqn:Eo; [done|]. injection Hn as <-.
    apply orb_false_iff in Eo as [Hz Hle]. apply negb_false_iff, N.eqb_eq in Hz. apply N.ltb_ge in Hle.
    rewrite (proj2 (parse_decimal_canonical _ (Z.to_N t / MILLISECOND)%N)) by done. cbn [result_bind].
    rewrite (proj2 (N.ltb_ge _ _) Hle).
    assert (Z.to_N t / MILLISECOND * MILLISECOND = Z.to_N t)%N as ->.
    { assert (Z.to_N t mod MILLISECOND = 0)%N as Hm.
      { rewrite <- Hz. change SECOND with (MILLISECOND * 1000)%N. rewrite N.Div0.mod_mul_r.
        by rewrite (N.mul_comm MILLISECOND (_ mod _)), N.Div0.mod_add, N.Div0.mod_mod. }
      pose proof (N.div_mod (Z.to_N t) MILLISECOND ltac:(done)). lia. }
    rewrite (proj2 (N.leb_le _ _)); [cbn [ok_or]; by rewrite Z2N.id|].
    etrans; [|exact Hle]. apply N.div_le_compat_l. done.
Qed.

(** Every decimal, key, range and expiry has exactly one accepted spelling, the one its
    encoder produces: parsing and encoding are mutually inverse. *)
Theorem object_text_canonical :
  (∀ value n, parse_decimal value = Ok n ↔ (n ≤ MAX_WIRE_INTEGER)%N ∧ value = to_decimal n) ∧
  (∀ value r, range_parse value = Ok r ↔ range_to_header r = Ok value) ∧
  (∀ value t, expires_parse value = Ok t ↔ expires_to_header t = Ok value) ∧
  (∀ value key, bytes_ok value →
     cache_key_parse_hex value = Ok key ↔ length key = 32 ∧ bytes_ok key ∧ value = cache_key_to_hex key).
Proof.
  split_and!; [apply parse_decimal_canonical| |apply expires_text|apply cache_key_text].
  intros value r. split; [apply range_parse_header|apply range_header_parse].
Qed.

(** ** What a range serves *)

(** The bytes a range asks for in an object of a given length. *)
Definition requested (r : ByteRange) (object_length x : N) : Prop :=
  match r with
  | ByteRange_Closed first last => first ≤ x ≤ last
  | ByteRange_From first => first ≤ x
  | ByteRange_Suffix length => object_length ≤ x + length
  end%N.

Lemma range_resolve_spec r object_length :
  range_validate r = Ok () → (object_length ≤ MAX_WIRE_INTEGER)%N →
  match range_resolve r object_length with
  | Ok rr => (r_start rr < r_end rr ≤ object_length)%N ∧
             ∀ x, (r_start rr ≤ x < r_end rr)%N ↔ (x < object_length)%N ∧ requested r object_length x
  | Err e => e = ObjError_UnsatisfiableRange ∧ ∀ x, (x < object_length)%N → ¬ requested r object_length x
  end.
Proof.
  intros Hv Hl. unfold range_resolve. rewrite Hv. cbn [result_bind]. apply range_validate_Ok in Hv.
  rewrite (proj2 (N.ltb_ge _ _) Hl). destruct (N.eqb_spec object_length 0) as [->|Hz]; [split; [done|lia]|].
  destruct r as [f l|f|n]; cbn [result_bind requested].
  - destruct (N.leb_spec object_length f); cbn; [split; [done|lia]|]. split; [lia|]. intros x. lia.
  - destruct (N.leb_spec object_length f); cbn; [split; [done|lia]|]. split; [lia|]. intros x. lia.
  - destruct (N.eqb_spec n 0) as [->|Hn]; [split; [done|lia]|]. cbn [result_bind].
    destruct (N.leb_spec object_length (object_length - n)); cbn; [lia|]. split; [lia|]. intros x. lia.
Qed.

Lemma as_u32_page n : (n ≤ PAGE_BYTES)%N → as_u32 n = n.
Proof. intros Hn. unfold as_u32. apply N.mod_small. unfold PAGE_BYTES in Hn. lia. Qed.

(** The bytes of a page a slice covers. *)
Definition covers (s : PageSlice) (offset : N) : Prop := (s_offset s ≤ offset < s_offset s + s_length s)%N.

Lemma slice_at_spec rr page offset :
  (r_end rr ≤ MAX_WIRE_INTEGER)%N → (offset < PAGE_BYTES)%N →
  (r_start rr ≤ page * PAGE_BYTES + offset < r_end rr)%N ↔
  ∃ s, slice_at rr page = Ok (Some s) ∧ covers s offset.
Proof.
  intros He Ho. unfold slice_at. destruct (checked_mul U64_MAX page PAGE_BYTES) as [ps|] eqn:Em.
  2:{ unfold checked_mul in Em. destruct (N.leb_spec (page * PAGE_BYTES) U64_MAX); [done|].
      split; [unfold U64_MAX, MAX_WIRE_INTEGER in *; lia|]. by intros (s & ? & _). }
  apply checked_mul_Some in Em as [_ Em]. rewrite <- Em. clear Em. cbn [ok_or result_bind].
  destruct (N.leb_spec (r_end rr) ps); [split; [lia|]; by intros (s & ? & _)|].
  destruct (N.leb_spec (N.min (r_end rr) (ps + PAGE_BYTES)) (N.max (r_start rr) ps)).
  { split; [lia|]. by intros (s & ? & _). }
  rewrite !as_u32_page by lia. split.
  - intros Hx. eexists. split; [reflexivity|]. unfold covers. simpl. lia.
  - intros (s & [= <-] & Hc). unfold covers in Hc. simpl in Hc. lia.
Qed.

Lemma slice_at_in_page rr m page s :
  (r_end rr ≤ vm_length m ≤ MAX_WIRE_INTEGER)%N → slice_at rr page = Ok (Some s) →
  s_page s = page ∧ (0 < s_length s)%N ∧
  ∃ n, page_length m (mkPage (vm_version m) page) = Ok n ∧ (s_offset s + s_length s ≤ n ≤ PAGE_BYTES)%N.
Proof.
  intros He. unfold slice_at, page_length. cbn [p_number p_version].
  destruct (checked_mul U64_MAX page PAGE_BYTES) as [ps|] eqn:Em; [|done]. apply checked_mul_Some in Em as [_ Em].
  cbn [ok_or result_bind]. clear Em. destruct (N.leb_spec (r_end rr) ps); [done|].
  destruct (N.leb_spec (N.min (r_end rr) (ps + PAGE_BYTES)) (N.max (r_start rr) ps)); [done|].
  intros [= <-]. cbn [s_page s_offset s_length]. rewrite !as_u32_page by lia. split; [done|]. split; [lia|].
  rewrite (proj2 (N.ltb_ge _ _)), (bool_decide_true (_ = _)), (proj2 (N.leb_gt _ _)) by (done || lia). cbn [orb negb].
  eexists. split; [reflexivity|]. lia.
Qed.

(** C35: Resolving a valid range against an object and slicing it page by page serves exactly
    the requested bytes of the object: a byte is covered by its page's slice exactly when
    it was requested and exists, every slice lies within the length its page has, and the
    range is refused, as unsatisfiable, only when it requests no byte of the object. *)
Theorem range_served_exactly r m :
  range_validate r = Ok () → (vm_length m ≤ MAX_WIRE_INTEGER)%N →
  match range_resolve r (vm_length m) with
  | Err e => e = ObjError_UnsatisfiableRange ∧ ∀ x, (x < vm_length m)%N → ¬ requested r (vm_length m) x
  | Ok rr =>
      (∀ page offset, (offset < PAGE_BYTES)%N →
         ((page * PAGE_BYTES + offset < vm_length m)%N ∧ requested r (vm_length m) (page * PAGE_BYTES + offset)) ↔
         ∃ s, slice_at rr page = Ok (Some s) ∧ covers s offset) ∧
      (∀ page s, slice_at rr page = Ok (Some s) →
         s_page s = page ∧ (0 < s_length s)%N ∧
         ∃ n, page_length m (mkPage (vm_version m) page) = Ok n ∧ (s_offset s + s_length s ≤ n ≤ PAGE_BYTES)%N)
  end.
Proof.
  intros Hv Hl. pose proof (range_resolve_spec r (vm_length m) Hv Hl) as Hr.
  destruct (range_resolve r (vm_length m)) as [rr|e]; [|done]. destruct Hr as [Hb Hx]. split.
  - intros page offset Ho. rewrite <- Hx. apply slice_at_spec; [lia|done].
  - intros page s. apply slice_at_in_page. lia.
Qed.

Definition example_version : ObjectVersion := mkVersion (mkObject (lit "cache") []) (lit "v").

Lemma range_served_exactly_witness :
  range_resolve (ByteRange_Closed 16777210 16777220) 40000000 = Ok (mkResolved 16777210 16777221) ∧
  ∃ s, slice_at (mkResolved 16777210 16777221) 1 = Ok (Some s) ∧ covers s 4.
Proof.
  split; [vm_compute; reflexivity|].
  pose proof (range_served_exactly (ByteRange_Closed 16777210 16777220)
    (mkVersionMetadata None example_version 40000000)) as Hr.
  change (range_resolve (ByteRange_Closed 16777210 16777220) (vm_length (mkVersionMetadata None example_version 40000000)))
    with (Ok (E := ObjError) (mkResolved 16777210 16777221)) in Hr.
  destruct Hr as [Hc _]; [reflexivity|vm_compute; discriminate|].
  apply (Hc 1%N 4%N); [reflexivity|]. vm_compute. split; [reflexivity|]. split; discriminate.
Defined.
