(* ===== verification/ObjectOrigin.v ===== *)
(** * Origin responses

    [cmd/racer/object-wire/src/origin.rs]: the request sent to an origin adapter and the
    validation of its responses. *)

From S2P Require Import Prelude Bytes Http ObjectModel ObjectRanges.

Local Open Scope racer_scope.

(** [opaque]. *)
Definition opaque (bytes : list N) : result () ObjError :=
  if (MAX_FIELD_BYTES <? len bytes)%N then Err ObjError_HeaderTooLarge
  else if bool_decide (bytes = []) || bool_decide (head bytes = Some SP) || bool_decide (last bytes = Some SP) ||
          existsb (λ b, (b <? 32)%N || (b =? 127)%N) bytes
  then Err ObjError_InvalidRequest
  else Ok ().

(** The fields a request carries besides the framing ones. *)
Fixpoint request_fields (fs : list (list N * option (list N))) : result (list Header) ObjError :=
  match fs with
  | [] => Ok []
  | (name, value) :: fs =>
      match value with
      | None => request_fields fs
      | Some bytes =>
          let? _ := opaque bytes in
          let? rest := request_fields fs in
          Ok (mkHeader name bytes :: rest)
      end
  end.

(** [request]. *)
Definition origin_request (key method : list N) (metadata authorization : option (list N)) :
    result MessageHead ObjError :=
  if negb (bool_decide (method = lit "HEAD") || bool_decide (method = lit "GET")) then Err ObjError_MethodNotAllowed
  else
    let target := lit "/v1/objects/" ++ cache_key_to_hex key in
    let? fields := request_fields [(lit "Racer-Metadata", metadata); (lit "Authorization", authorization)] in
    Ok (mkHead (StartLine_Request method target)
          (mkHeader (lit "Host") (lit "racer") :: mkHeader (lit "Content-Length") (lit "0") :: fields)).

(** ** Fields *)

Definition exact_fields : list (list N) :=
  [lit "Authorization"; lit "Racer-Metadata"; lit "Racer-Expires-At"; lit "Content-Length"; lit "Content-Range"].

(** [field]. *)
Definition field (head : MessageHead) (name : list N) : result (option (list N)) ObjError :=
  let? value := map_err_to (unique head name) ObjError_BadGateway in
  Ok ((λ value, if existsb (eq_ignore_ascii_case name) exact_fields then value else trim_ows value) <$> value).

(** [required]. *)
Definition required (head : MessageHead) (name : list N) : result (list N) ObjError :=
  let? value := field head name in
  ok_or value ObjError_BadGateway.

(** [decimal]. *)
Definition origin_decimal (bytes : list N) : result N ObjError := map_err_to (parse_decimal bytes) ObjError_BadGateway.

(** [absent]. *)
Fixpoint absent (head : MessageHead) (names : list (list N)) : result () ObjError :=
  match names with
  | [] => Ok ()
  | name :: names =>
      let? value := field head name in
      if is_some value then Err ObjError_BadGateway else absent head names
  end.

Fixpoint fields_unique (head : MessageHead) (names : list (list N)) : result () ObjError :=
  match names with
  | [] => Ok ()
  | name :: names => let? _ := field head name in fields_unique head names
  end.

Definition malformed_opaque (value : list N) : bool :=
  bool_decide (value = []) || (8192 <? len value)%N || bool_decide (hd_error value = Some SP) ||
  bool_decide (last value = Some SP) || existsb (λ b, (b <? 32)%N || (b =? 127)%N) value.

Fixpoint opaque_fields_valid (head : MessageHead) (names : list (list N)) : result () ObjError :=
  match names with
  | [] => Ok ()
  | name :: names =>
      let? value := field head name in
      if match value with Some v => malformed_opaque v | None => false end then Err ObjError_BadGateway
      else opaque_fields_valid head names
  end.

(** [trim_ascii] strips space, tab, line feed, form feed and carriage return. *)
Definition is_ascii_whitespace (b : N) : bool := contains_b [32; 9; 10; 12; 13]%N b.

Fixpoint trim_ascii_start (value : list N) : list N :=
  match value with
  | b :: rest => if is_ascii_whitespace b then trim_ascii_start rest else value
  | [] => []
  end.

Definition trim_ascii (value : list N) : list N := reverse (trim_ascii_start (reverse (trim_ascii_start value))).

Definition upgrades (connection : list N) : bool :=
  existsb (λ token, eq_ignore_ascii_case (trim_ascii token) (lit "upgrade")) (split_on COMMA connection).

(** ** Responses *)

Definition unique_fields : list (list N) :=
  [lit "Host"; lit "Content-Length"; lit "Content-Type"; lit "Content-Range"; lit "ETag"; lit "If-Match"; lit "Range";
   lit "Racer-Expires-At"; lit "Racer-Content-Type"; lit "Racer-Metadata"; lit "Authorization"].

Definition forbidden_fields : list (list N) :=
  [lit "Transfer-Encoding"; lit "Content-Encoding"; lit "Trailer"; lit "Upgrade"; lit "Expect"; lit "If-None-Match";
   lit "If-Modified-Since"; lit "If-Unmodified-Since"; lit "If-Range"].

(** The error of a failed status. *)
Definition status_error (status : N) (pinned : bool) (unsatisfied_length : option N) : ObjError :=
  match status with
  | 400 => ObjError_InvalidRequest
  | 405 => ObjError_MethodNotAllowed
  | 431 => ObjError_HeaderTooLarge
  | 401 => ObjError_OriginRejected
  | 403 => ObjError_OriginForbidden
  | 404 => if pinned then ObjError_BadGateway else ObjError_NotFound
  | 500 => ObjError_Internal
  | 503 => ObjError_Unavailable
  | 412 => ObjError_VersionUnavailable
  | 416 =>
      match unsatisfied_length with
      | Some n => ObjError_UnsatisfiableRangeWithLength n
      | None => ObjError_BadGateway
      end
  | _ => ObjError_BadGateway
  end%N.

(** [validate_response]. *)
Definition validate_response (head : MessageHead) (pinned : bool) : result (N * N) ObjError :=
  let? _ := fields_unique head unique_fields in
  let? _ := opaque_fields_valid head [lit "Racer-Metadata"; lit "Authorization"] in
  let? _ := absent head forbidden_fields in
  let? content_type := field head (lit "Racer-Content-Type") in
  let? _ :=
    match content_type with
    | Some value => let? _ := map_err_to (object_content_type_parse value) ObjError_BadGateway in Ok ()
    | None => Ok ()
    end in
  if existsb upgrades (values head (lit "Connection")) then Err ObjError_BadGateway
  else
    let? status := match start head with StartLine_Response status => Ok status | _ => Err ObjError_BadGateway end in
    let? length := let? v := required head (lit "Content-Length") in origin_decimal v in
    if (status =? 200)%N || (status =? 206)%N then Ok (status, length)
    else if negb (length =? 0)%N then Err ObjError_BadGateway
    else
      let? _ := absent head [lit "ETag"; lit "Racer-Expires-At"; lit "Racer-Content-Type"] in
      let? unsatisfied :=
        if (status =? 416)%N then
          let? value := required head (lit "Content-Range") in
          let? rest := ok_or (strip_prefix (lit "bytes */") value) ObjError_BadGateway in
          let? n := origin_decimal rest in
          Ok (Some n)
        else let? _ := absent head [lit "Content-Range"] in Ok None in
      let? allow := if (status =? 405)%N then let? v := required head (lit "Allow") in Ok (Some v) else Ok None in
      if match allow with Some v => negb (bool_decide (v = lit "HEAD, GET")) | None => false end
      then Err ObjError_BadGateway
      else Err (status_error status pinned unsatisfied).

(** [metadata]. *)
Definition origin_metadata (head : MessageHead) (object : ObjectId) (length : N) : result ObjectMetadata ObjError :=
  let? tag := required head (lit "ETag") in
  let? etag := map_err_to (etag_parse tag) ObjError_BadGateway in
  let? expires := required head (lit "Racer-Expires-At") in
  let? expires_at := map_err_to (expires_parse expires) ObjError_BadGateway in
  let? content_type := field head (lit "Racer-Content-Type") in
  let? content_type := map_err_to (transpose object_content_type_parse content_type) ObjError_BadGateway in
  Ok (mkMetadata content_type (mkVersion object etag) length expires_at).

(** [content_range]. *)
Definition content_range (head : MessageHead) : result (N * N * N) ObjError :=
  let? value := required head (lit "Content-Range") in
  let? range := map_err_to (content_range_parse_with obj_error_from_http origin_decimal value) ObjError_BadGateway in
  Ok (cr_first range, cr_last range, cr_total range).

Definition octet_stream : list N := lit "application/octet-stream".

(** [validate_bootstrap]. *)
Definition validate_bootstrap (head : MessageHead) (object : ObjectId) : result (ObjectMetadata * N) ObjError :=
  let? (status, length) := validate_response head false in
  let? content_type := required head (lit "Content-Type") in
  if negb (bool_decide (content_type = octet_stream)) then Err ObjError_BadGateway
  else
    let? total :=
      if (status =? 200)%N then
        if negb (length =? 0)%N then Err ObjError_BadGateway
        else let? _ := absent head [lit "Content-Range"] in Ok 0%N
      else
        let? (first, last, total) := content_range head in
        if negb (first =? 0)%N || negb (length =? last + 1)%N || negb (length =? N.min total PAGE_BYTES)%N
        then Err ObjError_BadGateway
        else Ok total in
    let? metadata := origin_metadata head object total in
    Ok (metadata, length).

(** [validate_metadata]. *)
Definition validate_metadata (head : MessageHead) (object : ObjectId) : result ObjectMetadata ObjError :=
  let? (status, length) := validate_response head false in
  if negb (status =? 200)%N then Err ObjError_BadGateway
  else
    let? _ := absent head [lit "Content-Range"] in
    origin_metadata head object length.

(** [validate_page_head]. *)
Definition validate_page_head (head : MessageHead) (page : PageId) : result (ObjectMetadata * N) ObjError :=
  let? (status, length) := validate_response head true in
  let? typed :=
    if negb (status =? 206)%N then Ok false
    else let? v := required head (lit "Content-Type") in Ok (bool_decide (v = octet_stream)) in
  if negb typed then Err ObjError_BadGateway
  else
    let? (first, last, total) := content_range head in
    let? expected_first := ok_or (checked_mul U64_MAX (p_number page) PAGE_BYTES) ObjError_InvalidRange in
    if negb (first =? expected_first)%N || negb (length =? last - first + 1)%N ||
       negb (length =? N.min (total - first) PAGE_BYTES)%N
    then Err ObjError_BadGateway
    else
      let? metadata := origin_metadata head (v_object (p_version page)) total in
      if negb (bool_decide (om_version metadata = p_version page)) then Err ObjError_BadGateway
      else Ok (metadata, length).

(** [validate_page]. *)
Definition validate_page (head : MessageHead) (page : PageId) (received_bytes : N) : result ObjectMetadata ObjError :=
  let? (metadata, length) := validate_page_head head page in
  if negb (received_bytes =? length)%N then Err ObjError_BadGateway else Ok metadata.

(** ** Lemmas *)

Lemma map_err_to_Ok {A E E'} (r : result A E) (e : E') a : map_err_to r e = Ok a ↔ r = Ok a.
Proof. destruct r; naive_solver. Qed.

Lemma validate_response_status head pinned status length :
  validate_response head pinned = Ok (status, length) →
  start head = StartLine_Response status ∧ (status = 200 ∨ status = 206)%N ∧ (length ≤ MAX_WIRE_INTEGER)%N.
Proof.
  unfold validate_response. intros Hv. do 5 apply result_bind_Ok in Hv as (? & _ & Hv).
  destruct (existsb _ _); [done|]. apply result_bind_Ok in Hv as (s & Hs & Hv).
  apply result_bind_Ok in Hv as (l & Hl & Hv). destruct (start head) as [|s'] eqn:Est; [done|]. injection Hs as ->.
  apply result_bind_Ok in Hl as (v & _ & [? _]%map_err_to_Ok%parse_decimal_canonical).
  destruct ((s =? 200) || (s =? 206))%N eqn:Eo.
  - injection Hv as <- <-. rewrite orb_true_iff, !N.eqb_eq in Eo. done.
  - destruct (negb _); [done|]. do 3 apply result_bind_Ok in Hv as (? & _ & Hv). by destruct (match _ with Some _ => _ | _ => _ end).
Qed.

Lemma content_range_Ok head first last total :
  content_range head = Ok (first, last, total) → (first ≤ last < total)%N ∧ (total ≤ MAX_WIRE_INTEGER)%N.
Proof.
  unfold content_range, content_range_parse_with. intros Hc. apply result_bind_Ok in Hc as (v & _ & Hc).
  apply result_bind_Ok in Hc as (r & Hr%map_err_to_Ok & Heq).
  do 3 apply result_bind_Ok in Hr as (? & _ & Hr). apply result_bind_Ok in Hr as (f & _ & Hr).
  apply result_bind_Ok in Hr as (l & _ & Hr). apply result_bind_Ok in Hr as (t & [Ht _]%map_err_to_Ok%parse_decimal_canonical & Hr).
  destruct (_ || _) eqn:Eo; [done|]. injection Hr as <-. injection Heq as <- <- <-.
  rewrite orb_false_iff, N.ltb_ge, N.leb_gt in Eo. simpl. lia.
Qed.

Lemma expires_parse_valid v t : expires_parse v = Ok t → ∃ n, expires_to_unix_millis t = Ok n.
Proof.
  intros Hp%expires_text. unfold expires_to_header in Hp. apply result_bind_Ok in Hp as (n & Hn & _). by exists n.
Qed.

Lemma origin_metadata_Ok head object length m :
  origin_metadata head object length = Ok m → (length ≤ MAX_WIRE_INTEGER)%N →
  v_object (om_version m) = object ∧ om_length m = length ∧ metadata_validate m = Ok ().
Proof.
  unfold origin_metadata. intros Hm Hl. apply result_bind_Ok in Hm as (tag & _ & Hm).
  apply result_bind_Ok in Hm as (etag & _ & Hm). apply result_bind_Ok in Hm as (ev & _ & Hm).
  apply result_bind_Ok in Hm as (t & Ht%map_err_to_Ok & Hm). do 2 apply result_bind_Ok in Hm as (? & _ & Hm).
  injection Hm as <-. split_and!; [done|done|]. unfold metadata_validate. cbn [om_length om_expires_at].
  rewrite (proj2 (N.ltb_ge _ _) Hl). apply expires_parse_valid in Ht as [n ->]. done.
Qed.

(** The length a version's metadata gives an accepted page. *)
Lemma page_length_accepted m number start total :
  checked_mul U64_MAX number PAGE_BYTES = Some start → om_length m = total → (start < total ≤ MAX_WIRE_INTEGER)%N →
  page_length (immutable m) (mkPage (om_version m) number) = Ok (N.min (total - start) PAGE_BYTES).
Proof.
  intros Hs <- Hl. unfold page_length. cbn [p_number p_version vm_length vm_version immutable]. rewrite Hs. cbn [ok_or result_bind].
  rewrite (proj2 (N.ltb_ge _ _)), (bool_decide_true (_ = _)), (proj2 (N.leb_gt _ _)) by (done || lia). cbn [orb negb].
  by rewrite as_u32_page by lia.
Qed.

(** ** Accepted pages *)

Lemma validate_page_accepts head page received m :
  validate_page head page received = Ok m →
  om_version m = p_version page ∧ metadata_validate m = Ok () ∧ page_length (immutable m) page = Ok received.
Proof.
  unfold validate_page, validate_page_head. intros Hp.
  apply result_bind_Ok in Hp as ([m' l'] & Hh & Hp). cbv beta iota in Hp.
  destruct (N.eqb_spec received l') as [->|]; [|done]. cbn [negb] in Hp. injection Hp as ->.
  apply result_bind_Ok in Hh as ([status l] & _ & Hh). cbv beta iota in Hh.
  apply result_bind_Ok in Hh as (typed & _ & Hh). destruct typed; [|done]. cbn [negb] in Hh.
  apply result_bind_Ok in Hh as ([[first last] total] & Hr & Hh). cbv beta iota in Hh.
  apply content_range_Ok in Hr as [Hr Ht]. apply result_bind_Ok in Hh as (ef & He%ok_or_Ok & Hh).
  destruct (_ || _) eqn:Eo; [done|]. rewrite !orb_false_iff, !negb_false_iff, !N.eqb_eq in Eo. destruct Eo as [[-> Hl1] Hl2].
  apply result_bind_Ok in Hh as (m1 & Hm & Hh). apply origin_metadata_Ok in Hm as (_ & Hlen & Hval); [|done].
  case_bool_decide as Hver; [|done]. cbn [negb] in Hh. injection Hh as -> ->.
  split_and!; [done|done|]. destruct page as [version number]. cbn [p_version p_number] in *. rewrite <- Hver.
  rewrite Hl2. apply page_length_accepted; [done|done|lia].
Qed.

Lemma validate_bootstrap_accepts head object m received :
  validate_bootstrap head object = Ok (m, received) →
  v_object (om_version m) = object ∧ metadata_validate m = Ok () ∧
  (if decide (om_length m = 0)%N then received = 0%N
   else page_length (immutable m) (mkPage (om_version m) 0) = Ok received).
Proof.
  unfold validate_bootstrap. intros Hb. apply result_bind_Ok in Hb as ([status l] & Hv & Hb). cbv beta iota in Hb.
  apply result_bind_Ok in Hb as (ct & _ & Hb). destruct (negb _); [done|].
  apply result_bind_Ok in Hb as (total & Ht & Hb). apply result_bind_Ok in Hb as (m1 & Hm & Hb).
  match type of Hb with Ok (?a, ?b) = Ok (?c, ?d) => assert (c = a ∧ d = b) as [-> ->] by (split; congruence) end.
  destruct (status =? 200)%N.
  - destruct (N.eqb_spec l 0) as [->|]; [|done]. cbn [negb] in Ht. apply result_bind_Ok in Ht as (? & _ & [= <-]).
    apply origin_metadata_Ok in Hm as (Ho & Hl & Hval); [|done]. split_and!; [done|done|]. by rewrite decide_True.
  - apply result_bind_Ok in Ht as ([[first last] t] & Hr & Ht). cbv beta iota in Ht.
    apply content_range_Ok in Hr as [Hr Htm]. destruct (_ || _) eqn:Eo; [done|].
    assert (total = t) as -> by congruence.
    rewrite !orb_false_iff, !negb_false_iff, !N.eqb_eq in Eo. destruct Eo as [[-> Hl1] Hl2].
    apply origin_metadata_Ok in Hm as (Ho & Hl & Hval); [|done]. split_and!; [done|done|].
    rewrite decide_False by lia. rewrite Hl2, <- (N.sub_0_r t) at 1.
    apply page_length_accepted; [done|done|lia].
Qed.

(** A page or bootstrap response is accepted only with metadata for the requested object
    and version that validates, and with exactly the number of bytes that metadata gives
    the page: the final page may be short, no page is long, and an empty object has no body. *)
Theorem origin_page_accepted head :
  (∀ page received m, validate_page head page received = Ok m →
     om_version m = p_version page ∧ metadata_validate m = Ok () ∧ page_length (immutable m) page = Ok received) ∧
  (∀ object received m, validate_bootstrap head object = Ok (m, received) →
     v_object (om_version m) = object ∧ metadata_validate m = Ok () ∧
     (if decide (om_length m = 0)%N then received = 0%N
      else page_length (immutable m) (mkPage (om_version m) 0) = Ok received)).
Proof. split; [apply validate_page_accepts|intros; by apply (validate_bootstrap_accepts head)]. Qed.

(** ** Failures *)

(** Every error is a bad gateway. *)
Definition only_bad {A} (r : result A ObjError) : Prop := ∀ e, r = Err e → e = ObjError_BadGateway.

Lemma only_bad_bind {A B} (r : result A ObjError) (k : A → result B ObjError) e :
  only_bad r → (let? a := r in k a) = Err e → e = ObjError_BadGateway ∨ ∃ a, r = Ok a ∧ k a = Err e.
Proof. intros Hr. destruct r as [a|e'] eqn:Er; simpl; [eauto|]. intros [= ->]. left. by apply Hr. Qed.

Lemma only_bad_map_err_to {A E} (r : result A E) : only_bad (map_err_to r ObjError_BadGateway).
Proof. intros e. by destruct r; intros [= <-]. Qed.

Lemma only_bad_ok_or {A} (o : option A) : only_bad (ok_or o ObjError_BadGateway).
Proof. intros e. by destruct o; intros [= <-]. Qed.

Lemma only_bad_field head name : only_bad (field head name).
Proof. intros e He. apply only_bad_bind in He as [|(? & _ & ?)]; [done|done|apply only_bad_map_err_to]. Qed.

Lemma only_bad_required head name : only_bad (required head name).
Proof.
  intros e He. apply only_bad_bind in He as [|(? & _ & He)]; [done| |apply only_bad_field]. by apply only_bad_ok_or in He.
Qed.

Lemma only_bad_absent head names : only_bad (absent head names).
Proof.
  induction names as [|name names IH]; intros e He; [done|]. cbn [absent] in He.
  apply only_bad_bind in He as [|(v & _ & He)]; [done| |apply only_bad_field]. destruct (is_some v); [by injection He|by apply IH].
Qed.

Lemma only_bad_unique head names : only_bad (fields_unique head names).
Proof.
  induction names as [|name names IH]; intros e He; [done|]. cbn [fields_unique] in He.
  apply only_bad_bind in He as [|(v & _ & He)]; [done|by apply IH|apply only_bad_field].
Qed.

Lemma only_bad_opaque head names : only_bad (opaque_fields_valid head names).
Proof.
  induction names as [|name names IH]; intros e He; [done|]. cbn [opaque_fields_valid] in He.
  apply only_bad_bind in He as [|(v & _ & He)]; [done| |apply only_bad_field].
  destruct (match v with Some _ => _ | None => _ end); [by injection He|by apply IH].
Qed.

Lemma absent_Ok head names : absent head names = Ok () → ∀ name, name ∈ names → field head name = Ok None.
Proof.
  induction names as [|n names IH]; intros Ha name Hn; [by apply elem_of_nil in Hn|]. cbn [absent] in Ha.
  apply result_bind_Ok in Ha as (v & Hv & Ha). destruct v; [done|]. apply elem_of_cons in Hn as [->|Hn]; [done|by apply IH].
Qed.

Lemma required_Ok head name v : required head name = Ok v → field head name = Ok (Some v).
Proof.
  unfold required. intros Hr. apply result_bind_Ok in Hr as ([x|] & Hf & [= ->]%ok_or_Ok). done.
Qed.

(** The part of a response check that precedes its status. *)
Lemma validate_response_head head pinned e :
  validate_response head pinned = Err e → e ≠ ObjError_BadGateway →
  ∃ status, start head = StartLine_Response status ∧ (status =? 200)%N || (status =? 206)%N = false ∧
    required head (lit "Content-Length") = Ok (lit "0") ∧
    absent head [lit "ETag"; lit "Racer-Expires-At"; lit "Racer-Content-Type"] = Ok () ∧
    (let? unsatisfied :=
       if (status =? 416)%N then
         let? value := required head (lit "Content-Range") in
         let? rest := ok_or (strip_prefix (lit "bytes */") value) ObjError_BadGateway in
         let? n := origin_decimal rest in
         Ok (Some n)
       else let? _ := absent head [lit "Content-Range"] in Ok None in
     let? allow := if (status =? 405)%N then let? v := required head (lit "Allow") in Ok (Some v) else Ok None in
     if match allow with Some v => negb (bool_decide (v = lit "HEAD, GET")) | None => false end
     then Err ObjError_BadGateway
     else Err (E := ObjError) (A := N * N) (status_error status pinned unsatisfied)) = Err e.
Proof.
  unfold validate_response. intros Hv He.
  apply only_bad_bind in Hv as [|(? & _ & Hv)]; [done| |apply only_bad_unique].
  apply only_bad_bind in Hv as [|(? & _ & Hv)]; [done| |apply only_bad_opaque].
  apply only_bad_bind in Hv as [|(? & _ & Hv)]; [done| |apply only_bad_absent].
  apply only_bad_bind in Hv as [|(ct & _ & Hv)]; [done| |apply only_bad_field].
  apply only_bad_bind in Hv as [|(? & _ & Hv)]; [done| |].
  2:{ destruct ct; [|done]. intros e' He'. apply only_bad_bind in He' as [|(? & _ & ?)]; [done|done|apply only_bad_map_err_to]. }
  destruct (existsb _ _); [by injection Hv|].
  apply only_bad_bind in Hv as [|(status & Hs & Hv)]; [done| |by intros e'; destruct (start head) as [|]; intros [= <-]].
  apply only_bad_bind in Hv as [|(l & Hl & Hv)]; [done| |].
  2:{ intros e' He'. apply only_bad_bind in He' as [|(? & _ & He')]; [done| |apply only_bad_required]. by apply only_bad_map_err_to in He'. }
  destruct (start head) as [|s'] eqn:Est; [done|]. injection Hs as ->.
  destruct ((status =? 200) || (status =? 206))%N eqn:Eo; [done|].
  destruct (N.eqb_spec l 0) as [->|]; cbn [negb] in Hv; [|by injection Hv].
  apply only_bad_bind in Hv as [|([] & Ha & Hv)]; [done| |apply only_bad_absent].
  exists status. split_and!; try done. apply result_bind_Ok in Hl as (v & Hr & [_ ->]%map_err_to_Ok%parse_decimal_canonical).
  exact Hr.
Qed.

(** An origin response is reported as anything but a bad gateway only if it is a well-formed
    empty error response: its status decides the error, its content length is zero, it
    names no version, expiry or content type, and a content range appears exactly on
    status 416, where it gives the length.  In particular a malformed response is never
    taken as proof that an object does not exist. *)
Theorem origin_failure_is_well_formed head pinned e :
  validate_response head pinned = Err e → e ≠ ObjError_BadGateway →
  ∃ status unsatisfied, start head = StartLine_Response status ∧ status ≠ 200%N ∧ status ≠ 206%N ∧
    e = status_error status pinned unsatisfied ∧ field head (lit "Content-Length") = Ok (Some (lit "0")) ∧
    (∀ name, name ∈ [lit "ETag"; lit "Racer-Expires-At"; lit "Racer-Content-Type"] → field head name = Ok None) ∧
    match unsatisfied with
    | Some n => status = 416%N ∧ field head (lit "Content-Range") = Ok (Some (lit "bytes */" ++ to_decimal n))
    | None => status ≠ 416%N ∧ field head (lit "Content-Range") = Ok None
    end.
Proof.
  intros Hv He. destruct (validate_response_head head pinned e Hv He) as (status & Hs & Ho & Hl & Ha & Hk).
  rewrite orb_false_iff, !N.eqb_neq in Ho. destruct Ho as [H2 H6]. pose proof (absent_Ok _ _ Ha) as Ha'.
  apply only_bad_bind in Hk as [|(u & Hu & Hk)]; [done| |].
  2:{ intros e' He'. destruct (status =? 416)%N.
      - apply only_bad_bind in He' as [|(? & _ & He')]; [done| |apply only_bad_required].
        apply only_bad_bind in He' as [|(? & _ & He')]; [done| |apply only_bad_ok_or].
        apply only_bad_bind in He' as [|(? & _ & He')]; [done|done|apply only_bad_map_err_to].
      - apply only_bad_bind in He' as [|(? & _ & He')]; [done|done|apply only_bad_absent]. }
  apply only_bad_bind in Hk as [|(al & _ & Hk)]; [done| |].
  2:{ intros e' He'. destruct (status =? 405)%N; [|done].
      apply only_bad_bind in He' as [|(? & _ & ?)]; [done|done|apply only_bad_required]. }
  destruct (match al with Some _ => _ | None => _ end); [by injection Hk|]. injection Hk as <-.
  exists status, u. split_and!; try done; [by apply required_Ok|].
  destruct (N.eqb_spec status 416) as [->|H4].
  - apply result_bind_Ok in Hu as (v & Hr%required_Ok & Hu).
    apply result_bind_Ok in Hu as (rest & Hp%ok_or_Ok%strip_prefix_Some & Hu).
    apply result_bind_Ok in Hu as (n & [_ ->]%map_err_to_Ok%parse_decimal_canonical & Hu).
    assert (u = Some n) as -> by congruence. split; [done|]. by rewrite Hr, Hp.
  - apply result_bind_Ok in Hu as ([] & Hc & Hu). assert (u = None) as -> by congruence.
    split; [done|]. eapply absent_Ok; [done|]. by left.
Qed.

Definition missing_head : MessageHead :=
  mkHead (StartLine_Response 404) [mkHeader (lit "content-length") (lit "0"); mkHeader (lit "Connection") (lit "close")].

Lemma origin_failure_is_well_formed_witness :
  validate_response missing_head false = Err ObjError_NotFound ∧ field missing_head (lit "ETag") = Ok None.
Proof.
  split; [vm_compute; reflexivity|].
  destruct (origin_failure_is_well_formed missing_head false ObjError_NotFound) as (s & u & _ & _ & _ & _ & _ & Hn & _);
    [vm_compute; reflexivity|discriminate|]. apply Hn. left.
Defined.

Definition page_head : MessageHead :=
  mkHead (StartLine_Response 206)
    [mkHeader (lit "Content-Length") (lit "5"); mkHeader (lit "Content-Type") octet_stream;
     mkHeader (lit "Content-Range") (lit "bytes 16777216-16777220/16777221"); mkHeader (lit "ETag") (QUOTE :: lit "v1" ++ [QUOTE]);
     mkHeader (lit "Racer-Expires-At") (lit "1700000000000")].

Definition page_one : PageId := mkPage (mkVersion (mkObject (lit "cache") []) (QUOTE :: lit "v1" ++ [QUOTE])) 1.

Lemma origin_page_accepted_witness :
  ∃ m, validate_page page_head page_one 5 = Ok m ∧ page_length (immutable m) page_one = Ok 5%N.
Proof.
  destruct (validate_page page_head page_one 5) as [m|e] eqn:Ev; [|vm_compute in Ev; discriminate].
  exists m. split; [reflexivity|]. exact (proj2 (proj2 (proj1 (origin_page_accepted page_head) page_one 5%N m Ev))).
Defined.
