(* ===== verification/ObjectClient.v ===== *)
(** * Client requests and responses

    [cmd/racer/object-wire/src/client.rs]: the semantic request parser and the response heads
    and frames of the client protocol.  The parser's locals are a record threaded through
    the loop over the fields; borrowed fields are their bytes. *)

From S2P Require Import Prelude Bytes Http ObjectModel ObjectRanges ObjectOrigin.

Local Open Scope racer_scope.

Definition MAX_HEAD_BYTES : N := 32 * 1024.

(** [Destination] and [Destination::end]. *)
Record Destination : Type := mkDestination { d_offset : N; d_length : N }.

Definition destination_end (d : Destination) : N := d_offset d + d_length d.

Inductive DirectDelivery := DirectDelivery_Host | DirectDelivery_Gpu.

#[export] Instance direct_delivery_eq_dec : EqDecision DirectDelivery.
Proof. solve_decision. Defined.

(** [DirectDelivery::as_str]. *)
Definition delivery_as_str (d : DirectDelivery) : list N :=
  match d with DirectDelivery_Host => lit "host" | DirectDelivery_Gpu => lit "gpu" end.

Inductive ReadKind :=
| ReadKind_Head
| ReadKind_HeadPinned (etag : list N)
| ReadKind_Subscription (pin : option (list N)) (range : option ByteRange) (page_credits byte_credits : N)
| ReadKind_HostRead (pin : option (list N)) (range : option ByteRange) (destination : Destination)
| ReadKind_GpuRead (pin : option (list N)) (range : option ByteRange) (destination : Destination)
    (allocation_size : N) (gpu_uuid : option (list N)).

(** [ReadKind::is_head], [pin], [range], [direct] and [destination]. *)
Definition kind_is_head (k : ReadKind) : bool :=
  match k with ReadKind_Head | ReadKind_HeadPinned _ => true | _ => false end.

Definition kind_pin (k : ReadKind) : option (list N) :=
  match k with
  | ReadKind_HeadPinned etag => Some etag
  | ReadKind_Subscription pin _ _ _ | ReadKind_HostRead pin _ _ | ReadKind_GpuRead pin _ _ _ _ => pin
  | ReadKind_Head => None
  end.

Definition kind_range (k : ReadKind) : option ByteRange :=
  match k with
  | ReadKind_Subscription _ range _ _ | ReadKind_HostRead _ range _ | ReadKind_GpuRead _ range _ _ _ => range
  | _ => None
  end.

Definition kind_direct (k : ReadKind) : option DirectDelivery :=
  match k with
  | ReadKind_HostRead _ _ _ => Some DirectDelivery_Host
  | ReadKind_GpuRead _ _ _ _ _ => Some DirectDelivery_Gpu
  | _ => None
  end.

Definition kind_destination (k : ReadKind) : option Destination :=
  match k with
  | ReadKind_HostRead _ _ d | ReadKind_GpuRead _ _ d _ _ => Some d
  | _ => None
  end.

Record ClientRequest : Type := mkRequest {
  q_kind : ReadKind;
  q_key : list N;
  q_metadata : option (list N);
  q_authorization : option (list N);
}.

(** ** Field parsers *)

(** [char::to_digit(16)] of a byte. *)
Definition hex_digit_any (b : N) : option N :=
  if is_ascii_digit b then Some (b - 48)%N
  else if ((97 <=? b) && (b <=? 102))%N then Some (b - 87)%N
  else if ((65 <=? b) && (b <=? 70))%N then Some (b - 55)%N
  else None.

(** The loop of [parse_gpu_uuid]: the digits seen, or [None] on a malformed byte. *)
Fixpoint gpu_uuid_digits (i : nat) (value : list N) : option (list N) :=
  match value with
  | [] => Some []
  | b :: value =>
      if bool_decide (i ∈ [8; 13; 18; 23]) then
        if (b =? DASH)%N then gpu_uuid_digits (S i) value else None
      else
        nibble ← hex_digit_any b;
        rest ← gpu_uuid_digits (S i) value;
        Some (nibble :: rest)
  end.

(** Two digits to a byte: [uuid[digits / 2] |= nibble << 4] or [|= nibble]. *)
Fixpoint join_nibbles (l : list N) : list N :=
  match l with
  | a :: b :: l => N.lor (N.shiftl a 4) b :: join_nibbles l
  | [a] => [N.shiftl a 4]
  | [] => []
  end.

(** [parse_gpu_uuid]. *)
Definition parse_gpu_uuid (value : list N) : result (list N) ObjError :=
  let value :=
    if bool_decide (4 ≤ length value) && eq_ignore_ascii_case (take 4 value) (lit "GPU-") then drop 4 value else value in
  if negb (bool_decide (length value = 36)) then Err ObjError_InvalidRequest
  else let? digits := ok_or (gpu_uuid_digits 0 value) ObjError_InvalidRequest in Ok (join_nibbles digits).

(** [once]: the slot after storing. *)
Definition once (slot : option N) (value : N) : result (option N) ObjError :=
  if is_some slot then Err ObjError_InvalidRequest else Ok (Some value).

Fixpoint credit_from (n : N) (value : list N) : option N :=
  match value with
  | [] => Some n
  | digit :: value => (checked_mul U64_MAX n 10 ≫= λ n, checked_add U64_MAX n (digit - 48)) ≫= λ n, credit_from n value
  end.

(** [decimal]: a nonzero canonical credit within bounds. *)
Definition client_decimal (value : list N) (minimum maximum : N) : result N ObjError :=
  if bool_decide (value = []) || bool_decide (head value = Some 48%N) || negb (forallb is_ascii_digit value)
  then Err ObjError_InvalidRequest
  else
    let? number := ok_or (credit_from 0 value) ObjError_InvalidRequest in
    if negb ((minimum <=? number) && (number <=? maximum))%N then Err ObjError_InvalidRequest else Ok number.

(** [validate_opaque] is the origin's check on a client field. *)
Definition validate_opaque (value : list N) : result () ObjError :=
  if (MAX_FIELD_BYTES <? len value)%N then Err ObjError_HeaderTooLarge
  else if bool_decide (value = []) || bool_decide (head value = Some SP) || bool_decide (last value = Some SP) ||
          existsb (λ b, (b <? 32)%N || (b =? 127)%N) value
  then Err ObjError_InvalidRequest
  else Ok ().

(** ** The request parser *)

(** The locals of [RequestParser::parse]. *)
Record Parse : Type := mkParse {
  decoded_bytes : N;
  destination_offset : option N;
  destination_length : option N;
  allocation_size : option N;
  gpu_uuid : option (list N);
  seen : list (list N);
  host : option bool;
  pin : option (list N);
  range : option ByteRange;
  metadata : option (list N);
  authorization : option (list N);
  content_length_zero : bool;
  page_credits : N;
  byte_credits : N;
}.

Definition parse_start (decoded : N) : Parse :=
  mkParse decoded None None None None [] None None None None None false 2 (2 * PAGE_BYTES).

Definition put_decoded_bytes (p : Parse) (x : N) : Parse :=
  mkParse x (destination_offset p) (destination_length p) (allocation_size p) (gpu_uuid p) (seen p) (host p)
    (pin p) (range p) (metadata p) (authorization p) (content_length_zero p) (page_credits p) (byte_credits p).

Definition put_destination_offset (p : Parse) (x : option N) : Parse :=
  mkParse (decoded_bytes p) x (destination_length p) (allocation_size p) (gpu_uuid p) (seen p) (host p) (pin
    p) (range p) (metadata p) (authorization p) (content_length_zero p) (page_credits p) (byte_credits p).

Definition put_destination_length (p : Parse) (x : option N) : Parse :=
  mkParse (decoded_bytes p) (destination_offset p) x (allocation_size p) (gpu_uuid p) (seen p) (host p) (pin
    p) (range p) (metadata p) (authorization p) (content_length_zero p) (page_credits p) (byte_credits p).

Definition put_allocation_size (p : Parse) (x : option N) : Parse :=
  mkParse (decoded_bytes p) (destination_offset p) (destination_length p) x (gpu_uuid p) (seen p) (host p)
    (pin p) (range p) (metadata p) (authorization p) (content_length_zero p) (page_credits p) (byte_credits p).

Definition put_gpu_uuid (p : Parse) (x : option (list N)) : Parse :=
  mkParse (decoded_bytes p) (destination_offset p) (destination_length p) (allocation_size p) x (seen p)
    (host p) (pin p) (range p) (metadata p) (authorization p) (content_length_zero p) (page_credits p) (byte_credits p).

Definition put_seen (p : Parse) (x : list (list N)) : Parse :=
  mkParse (decoded_bytes p) (destination_offset p) (destination_length p) (allocation_size p) (gpu_uuid p) x
    (host p) (pin p) (range p) (metadata p) (authorization p) (content_length_zero p) (page_credits p) (byte_credits p).

Definition put_host (p : Parse) (x : option bool) : Parse :=
  mkParse (decoded_bytes p) (destination_offset p) (destination_length p) (allocation_size p) (gpu_uuid p)
    (seen p) x (pin p) (range p) (metadata p) (authorization p) (content_length_zero p) (page_credits p) (byte_credits p).

Definition put_pin (p : Parse) (x : option (list N)) : Parse :=
  mkParse (decoded_bytes p) (destination_offset p) (destination_length p) (allocation_size p) (gpu_uuid p)
    (seen p) (host p) x (range p) (metadata p) (authorization p) (content_length_zero p) (page_credits p) (byte_credits p).

Definition put_range (p : Parse) (x : option ByteRange) : Parse :=
  mkParse (decoded_bytes p) (destination_offset p) (destination_length p) (allocation_size p) (gpu_uuid p)
    (seen p) (host p) (pin p) x (metadata p) (authorization p) (content_length_zero p) (page_credits p) (byte_credits p).

Definition put_metadata (p : Parse) (x : option (list N)) : Parse :=
  mkParse (decoded_bytes p) (destination_offset p) (destination_length p) (allocation_size p) (gpu_uuid p)
    (seen p) (host p) (pin p) (range p) x (authorization p) (content_length_zero p) (page_credits p) (byte_credits p).

Definition put_authorization (p : Parse) (x : option (list N)) : Parse :=
  mkParse (decoded_bytes p) (destination_offset p) (destination_length p) (allocation_size p) (gpu_uuid p)
    (seen p) (host p) (pin p) (range p) (metadata p) x (content_length_zero p) (page_credits p) (byte_credits p).

Definition put_content_length_zero (p : Parse) (x : bool) : Parse :=
  mkParse (decoded_bytes p) (destination_offset p) (destination_length p) (allocation_size p) (gpu_uuid p)
    (seen p) (host p) (pin p) (range p) (metadata p) (authorization p) x (page_credits p) (byte_credits p).

Definition put_page_credits (p : Parse) (x : N) : Parse :=
  mkParse (decoded_bytes p) (destination_offset p) (destination_length p) (allocation_size p) (gpu_uuid p)
    (seen p) (host p) (pin p) (range p) (metadata p) (authorization p) (content_length_zero p) x (byte_credits p).

Definition put_byte_credits (p : Parse) (x : N) : Parse :=
  mkParse (decoded_bytes p) (destination_offset p) (destination_length p) (allocation_size p) (gpu_uuid p)
    (seen p) (host p) (pin p) (range p) (metadata p) (authorization p) (content_length_zero p) (page_credits p) x.

Definition single_fields : list (list N) :=
  [lit "host"; lit "content-length"; lit "content-type"; lit "content-range"; lit "etag"; lit "if-match"; lit "range";
   lit "racer-expires-at"; lit "racer-content-type"; lit "racer-metadata"; lit "authorization";
   lit "racer-page-credits"; lit "racer-byte-credits"].

Definition refused_fields : list (list N) :=
  [lit "content-length"; lit "content-range"; lit "etag"; lit "racer-expires-at"; lit "racer-content-type";
   lit "transfer-encoding"; lit "content-encoding"; lit "trailer"; lit "upgrade"; lit "expect"; lit "if-none-match";
   lit "if-modified-since"; lit "if-unmodified-since"; lit "if-range"].

Definition client_upgrades (connection : list N) : bool :=
  existsb (λ token, eq_ignore_ascii_case (trim_ows token) (lit "upgrade")) (split_on COMMA connection).

(** One field, by its lowercase name. *)
Definition parse_field (direct : option DirectDelivery) (p : Parse) (name value : list N) : result Parse ObjError :=
  let named n := bool_decide (name = lit n) in
  if named "host"%string then Ok (put_host p (Some (bool_decide (trim_ows value = lit "racer"))))
  else if named "content-length"%string && bool_decide (value = lit "0") then Ok (put_content_length_zero p true)
  else if contains_b refused_fields name then Err ObjError_InvalidRequest
  else if named "connection"%string && client_upgrades value then Err ObjError_InvalidRequest
  else if named "if-match"%string then
    if (MAX_FIELD_BYTES <? len value)%N then Err ObjError_HeaderTooLarge
    else let? etag := etag_parse value in Ok (put_pin p (Some etag))
  else if named "range"%string then let? r := range_parse value in Ok (put_range p (Some r))
  else if (named "racer-page-credits"%string || named "racer-byte-credits"%string) && is_some direct then Ok p
  else if named "racer-page-credits"%string then let? n := client_decimal value 1 64 in Ok (put_page_credits p n)
  else if named "racer-byte-credits"%string then
    let? n := client_decimal value PAGE_BYTES (64 * PAGE_BYTES) in Ok (put_byte_credits p n)
  else if named "racer-destination-offset"%string && is_some direct then
    let? n := parse_decimal value in
    let? slot := once (destination_offset p) n in Ok (put_destination_offset p slot)
  else if named "racer-destination-length"%string && is_some direct then
    let? n := parse_decimal value in
    let? slot := once (destination_length p) n in Ok (put_destination_length p slot)
  else if named "racer-allocation-size"%string && bool_decide (direct = Some DirectDelivery_Gpu) then
    let? n := parse_decimal value in
    let? slot := once (allocation_size p) n in Ok (put_allocation_size p slot)
  else if named "racer-gpu-uuid"%string && bool_decide (direct = Some DirectDelivery_Gpu) then
    if is_some (gpu_uuid p) then Err ObjError_InvalidRequest
    else let? u := parse_gpu_uuid (trim_ows value) in Ok (put_gpu_uuid p (Some u))
  else if named "racer-metadata"%string then
    let? _ := validate_opaque value in Ok (put_metadata p (Some value))
  else if named "authorization"%string then
    let? _ := validate_opaque value in Ok (put_authorization p (Some value))
  else Ok p.

Definition client_value_byte (b : N) : bool := (b =? 127)%N || ((b <? 32)%N && negb (b =? TAB)%N).

(** The loop over the fields. *)
Fixpoint parse_fields (header_limit : N) (direct : option DirectDelivery) (p : Parse) (hs : list Header) :
    result Parse ObjError :=
  match hs with
  | [] => Ok p
  | h :: hs =>
      let decoded :=
        saturating_add USIZE_MAX (saturating_add USIZE_MAX (decoded_bytes p) (len (h_name h))) (len (h_value h)) in
      let p := put_decoded_bytes p decoded in
      if (header_limit <? decoded)%N then Err ObjError_HeaderTooLarge
      else if bool_decide (h_name h = []) || negb (forallb is_token (h_name h)) || existsb client_value_byte (h_value h)
      then Err ObjError_InvalidRequest
      else
        let name := to_ascii_lowercase <$> h_name h in
        if contains_b single_fields name && contains_b (seen p) name then Err ObjError_InvalidRequest
        else
          let p := if contains_b single_fields name then put_seen p (name :: seen p) else p in
          let? p := parse_field direct p name (h_value h) in
          parse_fields header_limit direct p hs
  end.

(** [path.split_once('/')] and the two direct-read suffixes. *)
Definition split_path (path : list N) : list N * option DirectDelivery :=
  match position (λ b, b =? SLASH)%N path with
  | Some i =>
      if bool_decide (drop (i + 1) path = lit "host-read") then (take i path, Some DirectDelivery_Host)
      else if bool_decide (drop (i + 1) path = lit "gpu-read") then (take i path, Some DirectDelivery_Gpu)
      else (path, None)
  | None => (path, None)
  end.

(** The request kind from the method and the parsed fields. *)
Definition request_kind (method : list N) (direct : option DirectDelivery) (p : Parse) : result ReadKind ObjError :=
  let post := bool_decide (method = lit "POST") in
  match direct with
  | Some delivery =>
      if negb post then Err ObjError_MethodNotAllowed
      else if negb (content_length_zero p) then Err ObjError_InvalidRequest
      else
        let? offset := ok_or (destination_offset p) ObjError_InvalidRequest in
        let? length := ok_or (destination_length p ≫= λ l, if (l =? 0)%N then None else Some l) ObjError_InvalidRequest in
        let destination := mkDestination offset length in
        let? _ := ok_or (checked_add U64_MAX offset length ≫= λ e, if (e <=? MAX_WIRE_INTEGER)%N then Some e else None)
                    ObjError_InvalidRequest in
        match delivery with
        | DirectDelivery_Host => Ok (ReadKind_HostRead (pin p) (range p) destination)
        | DirectDelivery_Gpu =>
            let? size := ok_or (allocation_size p ≫= λ s, if (destination_end destination <=? s)%N then Some s else None)
                           ObjError_InvalidRequest in
            Ok (ReadKind_GpuRead (pin p) (range p) destination size (gpu_uuid p))
        end
  | None =>
      if bool_decide (method = lit "HEAD") then
        if is_some (range p) then Err ObjError_InvalidRequest
        else Ok (match pin p with Some etag => ReadKind_HeadPinned etag | None => ReadKind_Head end)
      else if post then
        if content_length_zero p then Ok (ReadKind_Subscription (pin p) (range p) (page_credits p) (byte_credits p))
        else Err ObjError_InvalidRequest
      else Err ObjError_MethodNotAllowed
  end.

(** [RequestParser::new]: the effective limit. *)
Definition parser_new (header_limit : N) : N := N.min header_limit MAX_HEAD_BYTES.

(** [RequestParser::parse]. *)
Definition request_parse (header_limit : N) (head : MessageHead) : result ClientRequest ObjError :=
  match start head with
  | StartLine_Response _ => Err ObjError_InvalidRequest
  | StartLine_Request method target =>
      let decoded := saturating_add USIZE_MAX (len method) (len target) in
      let? path := ok_or (strip_prefix (lit "/v1/objects/") target) ObjError_InvalidRequest in
      let '(key_text, direct) := split_path path in
      let? p := parse_fields header_limit direct (parse_start decoded) (headers head) in
      if (header_limit <? decoded_bytes p)%N then Err ObjError_HeaderTooLarge
      else if negb (bool_decide (host p = Some true)) then Err ObjError_InvalidRequest
      else
        let? key := cache_key_parse_hex key_text in
        let? kind := request_kind method direct p in
        Ok (mkRequest kind key (metadata p) (authorization p))
  end.

(** ** Response heads *)

Definition client_header (name : string) (value : list N) : Header := mkHeader (lit name) value.

(** [success_head]. *)
Definition success_head (m : ObjectMetadata) (range : option ResolvedRange) : result MessageHead ObjError :=
  let? expiry := ok_or (since_epoch (om_expires_at m)) ObjError_BadGateway in
  if (MAX_WIRE_INTEGER <? om_length m)%N || (MAX_WIRE_INTEGER <? expiry / MILLISECOND)%N ||
     negb ((expiry mod SECOND) mod MILLISECOND =? 0)%N
  then Err ObjError_BadGateway
  else if is_some range then Err ObjError_BadGateway
  else
    Ok (mkHead (StartLine_Response 200)
          ([client_header "ETag" (v_etag (om_version m));
            client_header "Racer-Expires-At" (to_decimal (expiry / MILLISECOND))] ++
           (match om_content_type m with Some ct => [client_header "Racer-Content-Type" ct] | None => [] end) ++
           [client_header "Content-Length" (to_decimal (om_length m));
            client_header "Content-Type" octet_stream])).

Definition FRAME_BYTES : N := 21.

(** [body_head]. *)
Definition body_head (m : ObjectMetadata) (range : option ResolvedRange) (payload : bool) : result MessageHead ObjError :=
  let? head := success_head m None in
  let hs := filter (λ h, eq_ignore_ascii_case (h_name h) (lit "Content-Length") = false) (headers head) in
  let? (start, end_, pages) :=
    match range with
    | Some r =>
        if (r_end r <=? om_length m)%N then Ok (r_start r, r_end r, last_page r - first_page r + 1)%N
        else Err ObjError_BadGateway
    | None => if (om_length m =? 0)%N then Ok (0, 0, 0)%N else Err ObjError_BadGateway
    end in
  let? length :=
    ok_or (checked_add U64_MAX pages 1 ≫= λ n, checked_mul U64_MAX n FRAME_BYTES ≫= λ n,
           checked_add U64_MAX n (if payload then end_ - start else 0)%N ≫= λ n,
           if (n <=? MAX_WIRE_INTEGER)%N then Some n else None) ObjError_BadGateway in
  Ok (mkHead (StartLine_Response 200)
        (hs ++ [client_header "Racer-Object-Length" (to_decimal (om_length m));
                client_header "Racer-Range-Start" (to_decimal start);
                client_header "Racer-Range-End" (to_decimal end_);
                client_header "Content-Length" (to_decimal length);
                client_header "Connection" (lit "close")])).

(** [subscription_head]. *)
Definition subscription_head (m : ObjectMetadata) (range : option ResolvedRange) : result MessageHead ObjError :=
  body_head m range true.

(** [direct_head]. *)
Definition direct_head (m : ObjectMetadata) (range : option ResolvedRange) (delivery : DirectDelivery) :
    result MessageHead ObjError :=
  let? head := body_head m range false in
  let close := default (length (headers head))
                 (position (λ h, eq_ignore_ascii_case (h_name h) (lit "Connection")) (headers head)) in
  Ok (mkHead (start head)
        (take close (headers head) ++ client_header "Racer-Delivery" (delivery_as_str delivery) :: drop close (headers head))).

(** [frame]. *)
Definition frame (kind number offset length : N) : list N :=
  kind :: be_bytes 8 number ++ be_bytes 8 offset ++ be_bytes 4 length.

(** [error_head]. *)
Definition error_head (status : N) (unsatisfied_length : option N) : result MessageHead ObjError :=
  let hs := [client_header "Content-Length" (lit "0")] in
  let hs := if (status =? 405)%N then hs ++ [client_header "Allow" (lit "HEAD, POST")] else hs in
  let? hs :=
    if (status =? 416)%N then
      let? n := ok_or (unsatisfied_length ≫= λ n, if (n <=? MAX_WIRE_INTEGER)%N then Some n else None) ObjError_Internal in
      Ok (hs ++ [client_header "Content-Range" (lit "bytes */" ++ to_decimal n)])
    else Ok hs in
  Ok (mkHead (StartLine_Response status) hs).
