(* ===== verification/ObjectClientProofs.v ===== *)
(** * Guarantees of the client protocol

    An accepted request satisfies every bound its type documents and can always be
    forwarded to an origin; a body head announces exactly the bytes of the frames that
    follow; a metadata head survives the origin parser. *)

From S2P Require Import Prelude Bytes Http ObjectModel ObjectRanges ObjectOrigin ObjectClient.

Local Open Scope racer_scope.

(** ** Accepted requests *)

(** What the fields parsed so far satisfy. *)
Record parse_ok (p : Parse) : Prop := {
  po_pin : ∀ t, pin p = Some t → etag_parse t = Ok t;
  po_range : ∀ r, range p = Some r → range_validate r = Ok ();
  po_uuid : ∀ u, gpu_uuid p = Some u → length u = 16;
  po_metadata : ∀ v, metadata p = Some v → opaque v = Ok ();
  po_authorization : ∀ v, authorization p = Some v → opaque v = Ok ();
  po_pages : (1 ≤ page_credits p ≤ 64)%N;
  po_bytes : (PAGE_BYTES ≤ byte_credits p ≤ 64 * PAGE_BYTES)%N;
}.

Lemma parse_start_ok n : parse_ok (parse_start n).
Proof. split; simpl; try done; unfold PAGE_BYTES; lia. Qed.

Lemma etag_parse_idem v t : etag_parse v = Ok t → etag_parse t = Ok t.
Proof.
  intros Hp. assert (t = v) as ->; [|done]. unfold etag_parse in Hp.
  destruct (_ || _); [done|]. apply ok_or_Ok in Hp. by apply from_utf8_Some in Hp.
Qed.

Lemma client_decimal_Ok v lo hi n : client_decimal v lo hi = Ok n → (lo ≤ n ≤ hi)%N.
Proof.
  unfold client_decimal. destruct (_ || _); [done|]. intros Hn. apply result_bind_Ok in Hn as (m & _ & Hn).
  destruct (_ && _) eqn:Ea; [|done]. injection Hn as <-. by rewrite andb_true_iff, !N.leb_le in Ea.
Qed.

Lemma gpu_uuid_digits_length i v ds :
  gpu_uuid_digits i v = Some ds →
  length ds + length (filter (λ k, k ∈ [8; 13; 18; 23]) (seq i (length v))) = length v.
Proof.
  revert i ds. induction v as [|b v IH]; intros i ds Hd; [by injection Hd as <-|]. cbn [gpu_uuid_digits] in Hd.
  cbn [length seq]. rewrite filter_cons. case_bool_decide as Hi.
  - destruct (b =? DASH)%N; [|done]. rewrite decide_True by done. apply IH in Hd. simpl. lia.
  - destruct (hex_digit_any b) as [n|]; [|done]. cbn [mbind option_bind] in Hd.
    destruct (gpu_uuid_digits (S i) v) as [rest|] eqn:Er; [|done]. injection Hd as <-.
    rewrite decide_False by done. apply IH in Er. simpl. lia.
Qed.

Lemma join_nibbles_length n l : length l = 2 * n → length (join_nibbles l) = n.
Proof.
  revert l. induction n as [|n IH]; intros l Hl; [by destruct l|].
  destruct l as [|a [|b l]]; simpl in Hl; [lia|lia|]. simpl. rewrite IH; lia.
Qed.

Lemma parse_gpu_uuid_length v u : parse_gpu_uuid v = Ok u → length u = 16.
Proof.
  unfold parse_gpu_uuid. set (v' := if _ && _ then _ else _). clearbody v'. case_bool_decide as Hl; [|done].
  cbn [negb]. intros Hu. apply result_bind_Ok in Hu as (ds & Hd%ok_or_Ok & [= <-]).
  apply gpu_uuid_digits_length in Hd. rewrite Hl in Hd. change (length (filter _ (seq 0 36))) with 4 in Hd.
  apply join_nibbles_length. lia.
Qed.

Ltac solve_parse_ok Hp :=
  split; cbn; try (by apply Hp); try (by intros; simplify_eq; eauto).

Lemma parse_field_ok direct p name value p' :
  parse_ok p → parse_field direct p name value = Ok p' → parse_ok p'.
Proof.
  intros Hp. unfold parse_field. cbv zeta.
  repeat match goal with
  | |- (if ?b then _ else _) = _ → _ => destruct b; try done
  end; intros Hf; try (injection Hf as <-; solve_parse_ok Hp).
  all: apply result_bind_Ok in Hf as (x & Hx & Hf).
  all: try (apply result_bind_Ok in Hf as (y & Hy & Hf)); injection Hf as <-; solve_parse_ok Hp.
  - intros t [= <-]. by eapply etag_parse_idem.
  - intros r [= <-]. by apply range_parse_Ok in Hx as [? _].
  - by eapply client_decimal_Ok.
  - by eapply client_decimal_Ok.
  - intros u [= <-]. by eapply parse_gpu_uuid_length.
  - intros v [= <-]. by destruct x.
  - intros v [= <-]. by destruct x.
Qed.

Lemma parse_fields_ok limit direct p hs p' :
  parse_ok p → parse_fields limit direct p hs = Ok p' → parse_ok p'.
Proof.
  revert p. induction hs as [|h hs IH]; intros p Hp Hf; [by injection Hf as <-|]. cbn [parse_fields] in Hf.
  destruct (_ <? _)%N; [done|]. destruct (_ || _); [done|]. destruct (_ && _); [done|].
  apply result_bind_Ok in Hf as (p1 & Hp1 & Hf). apply (IH p1); [|done].
  eapply parse_field_ok; [|exact Hp1]. destruct (contains_b _ _); split; cbn; apply Hp.
Qed.

Lemma cache_key_length v k : cache_key_parse_hex v = Ok k → length k = 32.
Proof.
  unfold cache_key_parse_hex, decode_hex. intros Hk%ok_or_Ok. case_bool_decide as Hl; [|done].
  apply length_mapM in Hk. rewrite <- Hk.
  destruct (chunks_exact_join 2 v (length v)) as [Hc Hall]; [lia|by rewrite Hl|done|].
  fold (chunks_exact 2 v) in Hc, Hall. apply (f_equal length) in Hc. rewrite Hl in Hc.
  enough (length (concat (chunks_exact 2 v)) = length (chunks_exact 2 v) * 2) by lia.
  clear -Hall. induction Hall as [|r rs Hr Hall IH]; [done|]. simpl. rewrite length_app, IH, Hr. lia.
Qed.

(** The documented shape of an accepted request. *)
Record request_ok (q : ClientRequest) : Prop := {
  ro_key : length (q_key q) = 32;
  ro_range : ∀ r, kind_range (q_kind q) = Some r → range_validate r = Ok ();
  ro_pin : ∀ t, kind_pin (q_kind q) = Some t → etag_parse t = Ok t;
  ro_destination : ∀ d, kind_destination (q_kind q) = Some d → (0 < d_length d)%N ∧ (destination_end d ≤ MAX_WIRE_INTEGER)%N;
  ro_kind : match q_kind q with
            | ReadKind_Subscription _ _ pages bytes => (1 ≤ pages ≤ 64)%N ∧ (PAGE_BYTES ≤ bytes ≤ 64 * PAGE_BYTES)%N
            | ReadKind_GpuRead _ _ d size uuid => (destination_end d ≤ size)%N ∧ ∀ u, uuid = Some u → length u = 16
            | _ => True
            end;
}.

Lemma request_kind_ok method direct p k key md au :
  parse_ok p → request_kind method direct p = Ok k → length key = 32 → request_ok (mkRequest k key md au).
Proof.
  intros Hp Hk Hkey. unfold request_kind in Hk. destruct direct as [delivery|].
  - destruct (negb _); [done|]. destruct (negb _); [done|]. apply result_bind_Ok in Hk as (o & _ & Hk).
    apply result_bind_Ok in Hk as (l & Hl%ok_or_Ok & Hk). apply result_bind_Ok in Hk as (e & He%ok_or_Ok & Hk).
    assert (0 < l)%N as Hl0.
    { destruct (destination_length p) as [l'|]; [|done]. cbn [mbind option_bind] in Hl.
      destruct (N.eqb_spec l' 0); [done|]. injection Hl as ->. lia. }
    assert (o + l ≤ MAX_WIRE_INTEGER)%N as Hend.
    { destruct (checked_add U64_MAX o l) as [e'|] eqn:Ee; [|done]. apply checked_add_Some in Ee as [_ ->].
      cbn [mbind option_bind] in He. destruct (N.leb_spec (o + l) MAX_WIRE_INTEGER); [done|done]. }
    destruct delivery.
    + injection Hk as <-. split; cbn; try done; try apply Hp. intros d [= <-]. by split.
    + apply result_bind_Ok in Hk as (size & Hs%ok_or_Ok & Hk). injection Hk as <-.
      destruct (allocation_size p) as [s'|]; [|done]. cbn [mbind option_bind] in Hs.
      destruct (N.leb_spec (destination_end (mkDestination o l)) s'); [|done]. injection Hs as ->.
      split; cbn; try done; try apply Hp; [intros d [= <-]; by split|]. split; [done|apply Hp].
  - destruct (bool_decide _); [|destruct (bool_decide _); [|done]].
    + destruct (is_some (range p)); [done|]. injection Hk as <-. destruct (pin p) as [t|] eqn:Et; split; cbn; try done.
      intros t' [= <-]. by apply Hp.
    + destruct (content_length_zero p); [|done]. injection Hk as <-. split; cbn; try done; try apply Hp. split; apply Hp.
Qed.

(** C36: An accepted client request satisfies every bound its type promises (key size, valid
    range and version tag, credits, a nonempty destination window that ends within a wire
    integer and the GPU allocation), and its opaque fields always form a valid origin
    request: forwarding an accepted request cannot fail. *)
Theorem accepted_request_well_formed limit head q :
  request_parse limit head = Ok q →
  request_ok q ∧
  ∀ method, method = lit "HEAD" ∨ method = lit "GET" →
    ∃ forwarded, origin_request (q_key q) method (q_metadata q) (q_authorization q) = Ok forwarded.
Proof.
  unfold request_parse. destruct (start head) as [method target|]; [|done]. intros Hq.
  apply result_bind_Ok in Hq as (path & _ & Hq). destruct (split_path path) as [key_text direct].
  apply result_bind_Ok in Hq as (p & Hp%parse_fields_ok & Hq); [|apply parse_start_ok].
  destruct (_ <? _)%N; [done|]. destruct (negb _); [done|].
  apply result_bind_Ok in Hq as (key & Hk%cache_key_length & Hq).
  apply result_bind_Ok in Hq as (kind & Hkind & [= <-]). split; [by eapply request_kind_ok|].
  intros m Hm. unfold origin_request.
  assert (bool_decide (m = lit "HEAD") || bool_decide (m = lit "GET") = true) as ->.
  { destruct Hm; subst m; reflexivity. }
  cbn [negb q_key q_metadata q_authorization request_fields].
  destruct (metadata p) as [v|] eqn:Ev, (authorization p) as [w|] eqn:Ew;
    rewrite ?(po_metadata p Hp v Ev), ?(po_authorization p Hp w Ew); cbn [result_bind]; by eexists.
Qed.

Definition gpu_request : MessageHead :=
  mkHead (StartLine_Request (lit "POST")
            (lit "/v1/objects/" ++ cache_key_to_hex (replicate 32 171%N) ++ lit "/gpu-read"))
    [mkHeader (lit "Host") (lit " racer "); mkHeader (lit "Content-Length") (lit "0");
     mkHeader (lit "Range") (lit "bytes=0-99"); mkHeader (lit "Racer-Destination-Offset") (lit "4096");
     mkHeader (lit "Racer-Destination-Length") (lit "100"); mkHeader (lit "Racer-Allocation-Size") (lit "8192");
     mkHeader (lit "Racer-Gpu-Uuid") (lit "gpu-00112233-4455-6677-8899-AABBCCDDEEFF");
     mkHeader (lit "Authorization") (lit "Bearer token")].

Lemma accepted_request_well_formed_witness :
  ∃ q, request_parse 4096 gpu_request = Ok q ∧
    q_kind q = ReadKind_GpuRead None (Some (ByteRange_Closed 0 99)) (mkDestination 4096 100) 8192
                 (Some [0; 17; 34; 51; 68; 85; 102; 119; 136; 153; 170; 187; 204; 221; 238; 255]%N) ∧
    ∃ forwarded, origin_request (q_key q) (lit "GET") (q_metadata q) (q_authorization q) = Ok forwarded.
Proof.
  destruct (request_parse 4096 gpu_request) as [q|e] eqn:Eq; [|vm_compute in Eq; discriminate].
  exists q. split; [reflexivity|]. split.
  - vm_compute in Eq. injection Eq as <-. reflexivity.
  - apply (proj2 (accepted_request_well_formed 4096 gpu_request q Eq)). right. reflexivity.
Defined.

(** ** Body lengths *)

(** The pages of a resolved range, in order. *)
Definition range_pages (r : ResolvedRange) : list N :=
  (λ i, first_page r + N.of_nat i)%N <$> seq 0 (N.to_nat (last_page r - first_page r + 1)).

(** The bytes of the frames of a range: one per page, with its payload, and the final one. *)
Definition frames_length (payload : bool) (r : ResolvedRange) : N :=
  sum_by (λ page, FRAME_BYTES + match slice_at r page with
                                | Ok (Some s) => if payload then s_length s else 0
                                | _ => 0
                                end)%N (range_pages r) + FRAME_BYTES.

Lemma slice_length r page :
  (r_end r ≤ MAX_WIRE_INTEGER)%N →
  match slice_at r page with Ok (Some s) => s_length s | _ => 0%N end =
  (N.min (r_end r) ((page + 1) * PAGE_BYTES) - N.max (r_start r) (page * PAGE_BYTES))%N.
Proof.
  intros He. unfold slice_at. destruct (checked_mul U64_MAX page PAGE_BYTES) as [ps|] eqn:Em; cbn [ok_or result_bind].
  2:{ unfold checked_mul in Em. destruct (N.leb_spec (page * PAGE_BYTES) U64_MAX); [done|].
      unfold U64_MAX, MAX_WIRE_INTEGER in *. lia. }
  apply checked_mul_Some in Em as [_ ->]. replace ((page + 1) * PAGE_BYTES)%N with (page * PAGE_BYTES + PAGE_BYTES)%N by lia.
  destruct (N.leb_spec (r_end r) (page * PAGE_BYTES)); [lia|].
  destruct (N.leb_spec (N.min (r_end r) (page * PAGE_BYTES + PAGE_BYTES)) (N.max (r_start r) (page * PAGE_BYTES))); [lia|].
  cbn [s_length]. rewrite as_u32_page by lia. done.
Qed.

Lemma first_le_last r : (r_start r < r_end r ≤ MAX_WIRE_INTEGER)%N → (first_page r ≤ last_page r)%N.
Proof. intros Hr. unfold first_page, last_page. apply N.Div0.div_le_mono. lia. Qed.

(** The slices of the first pages reach the end of the last of them. *)
Lemma slices_prefix r k :
  (r_start r < r_end r ≤ MAX_WIRE_INTEGER)%N → (N.of_nat k ≤ last_page r - first_page r + 1)%N →
  sum_by (λ page, match slice_at r page with Ok (Some s) => s_length s | _ => 0%N end)
    ((λ i, first_page r + N.of_nat i)%N <$> seq 0 k) =
  (if decide (k = 0%nat) then 0 else N.min (r_end r) ((first_page r + N.of_nat k) * PAGE_BYTES) - r_start r)%N.
Proof.
  intros Hr. pose proof (first_le_last r Hr) as Hfl.
  pose proof (N.div_mod (r_start r) PAGE_BYTES ltac:(done)) as Hd. pose proof (N.mod_lt (r_start r) PAGE_BYTES ltac:(done)).
  pose proof (N.div_mod (r_end r - 1) PAGE_BYTES ltac:(done)) as Hd'. pose proof (N.mod_lt (r_end r - 1) PAGE_BYTES ltac:(done)).
  fold (first_page r) in Hd. fold (last_page r) in Hd'. set (m := (r_start r mod PAGE_BYTES)%N) in *.
  set (m' := ((r_end r - 1) mod PAGE_BYTES)%N) in *. set (f := first_page r) in *. set (l := last_page r) in *. clearbody f l m m'.
  induction k as [|k IH]; intros Hk; [done|]. rewrite seq_S, fmap_app, sum_by_app. cbn [fmap list_fmap sum_by foldr Nat.add].
  rewrite IH by lia. rewrite slice_length by lia. rewrite (decide_False (P := S k = 0)) by done.
  rewrite Nat2N.inj_succ. replace (f + N.succ (N.of_nat k))%N with (f + N.of_nat k + 1)%N by lia.
  set (p := (f + N.of_nat k)%N) in *. assert (p ≤ l)%N by lia.
  assert (p * PAGE_BYTES ≤ l * PAGE_BYTES)%N by (by apply N.mul_le_mono_r).
  destruct (decide (k = 0)) as [->|Hk0].
  - assert (p = f) as -> by lia. lia.
  - assert (f + 1 ≤ p)%N by lia. assert ((f + 1) * PAGE_BYTES ≤ p * PAGE_BYTES)%N by (by apply N.mul_le_mono_r). lia.
Qed.

Lemma frames_length_spec payload r :
  (r_start r < r_end r ≤ MAX_WIRE_INTEGER)%N →
  frames_length payload r =
  ((last_page r - first_page r + 1 + 1) * FRAME_BYTES + (if payload then r_end r - r_start r else 0))%N.
Proof.
  intros Hr. unfold frames_length, range_pages.
  assert (∀ (f : N → N) (l : list N), sum_by (λ x, FRAME_BYTES + f x)%N l = (len l * FRAME_BYTES + sum_by f l)%N) as Hsum.
  { intros f l. induction l as [|x l IH]; [done|]. unfold sum_by in *. cbn [foldr]. rewrite IH, len_cons. lia. }
  rewrite Hsum. unfold len at 1. rewrite length_fmap, length_seq, N2Nat.id.
  destruct payload.
  - rewrite slices_prefix by lia. rewrite decide_False by lia. rewrite N2Nat.id.
    assert (r_end r ≤ (last_page r + 1) * PAGE_BYTES)%N.
    { unfold last_page. pose proof (N.div_mod (r_end r - 1) PAGE_BYTES ltac:(done)). pose proof (N.mod_lt (r_end r - 1) PAGE_BYTES ltac:(done)). lia. }
    pose proof (first_le_last r Hr).
    replace (first_page r + (last_page r - first_page r + 1))%N with (last_page r + 1)%N by lia. lia.
  - assert (∀ l, sum_by (λ page, match slice_at r page with Ok (Some _) => 0%N | _ => 0%N end) l = 0%N) as ->; [|lia].
    intros l. induction l as [|x l IH]; [done|]. unfold sum_by in *. cbn [foldr]. rewrite IH. by repeat case_match.
Qed.

Lemma values_app s hs hs' name : values (mkHead s (hs ++ hs')) name = values (mkHead s hs) name ++ values (mkHead s hs') name.
Proof. unfold values. cbn [headers]. by rewrite filter_app, fmap_app. Qed.

Lemma values_cons s h hs name :
  values (mkHead s (h :: hs)) name =
  (if eq_ignore_ascii_case (h_name h) name then [h_value h] else []) ++ values (mkHead s hs) name.
Proof.
  unfold values. cbn [headers]. rewrite filter_cons. destruct (eq_ignore_ascii_case (h_name h) name); done.
Qed.

Lemma values_dropped s hs name :
  values (mkHead s (filter (λ h, eq_ignore_ascii_case (h_name h) name = false) hs)) name = [].
Proof.
  unfold values. cbn [headers]. rewrite filter_none; [done|].
  intros h [Hf _]%list_elem_of_filter. by rewrite Hf.
Qed.

Lemma body_head_length m r payload head :
  (r_start r < r_end r)%N → body_head m (Some r) payload = Ok head →
  values head (lit "Content-Length") = [to_decimal (frames_length payload r)] ∧
  (frames_length payload r ≤ MAX_WIRE_INTEGER)%N.
Proof.
  intros Hr Hb. unfold body_head in Hb. apply result_bind_Ok in Hb as (h & Hs & Hb). 
  assert (om_length m ≤ MAX_WIRE_INTEGER)%N as Hm.
  { unfold success_head in Hs. apply result_bind_Ok in Hs as (? & _ & Hs). destruct (_ || _) eqn:Eo; [done|].
    rewrite !orb_false_iff, !N.ltb_ge in Eo. lia. }
  apply result_bind_Ok in Hb as ([[st en] pages] & Hp & Hb). cbv beta iota in Hb.
  destruct (N.leb_spec (r_end r) (om_length m)) as [Hle|]; [|done]. injection Hp as <- <- <-.
  apply result_bind_Ok in Hb as (n & Hn%ok_or_Ok & Hb).
  match type of Hb with Ok ?t = _ => assert (head = t) as -> by congruence end.
  assert (n = frames_length payload r ∧ (n ≤ MAX_WIRE_INTEGER)%N) as [-> Hmax].
  { destruct (checked_add U64_MAX _ 1) as [a|] eqn:Ea; [|done]. apply checked_add_Some in Ea as [_ ->].
    cbn [mbind option_bind] in Hn. destruct (checked_mul U64_MAX _ FRAME_BYTES) as [b|] eqn:Eb; [|done].
    apply checked_mul_Some in Eb as [_ ->]. cbn [mbind option_bind] in Hn.
    destruct (checked_add U64_MAX _ (if payload then _ else _)) as [c|] eqn:Ec; [|done]. apply checked_add_Some in Ec as [_ ->].
    cbn [mbind option_bind] in Hn. destruct (N.leb_spec ((last_page r - first_page r + 1 + 1) * FRAME_BYTES + (if payload then r_end r - r_start r else 0)) MAX_WIRE_INTEGER); [|done].
    injection Hn as <-. split; [|done]. symmetry. apply frames_length_spec. lia. }
  split; [|done]. rewrite values_app, values_dropped. cbn [app]. rewrite !values_cons. reflexivity.
Qed.

(** The content length a body head announces is exactly the length of the frames that
    follow: one frame for every page of the range, with the page's slice as payload for a
    subscription and without it for a direct read, and the final frame. *)
Theorem body_length_is_frames m r payload head :
  (r_start r < r_end r)%N → body_head m (Some r) payload = Ok head →
  values head (lit "Content-Length") = [to_decimal (frames_length payload r)] ∧
  (frames_length payload r ≤ MAX_WIRE_INTEGER)%N ∧
  (∀ delivery direct, payload = false → direct_head m (Some r) delivery = Ok direct →
     values direct (lit "Content-Length") = [to_decimal (frames_length payload r)]) ∧
  (∀ kind number offset length, len (frame kind number offset length) = FRAME_BYTES).
Proof.
  intros Hr Hb. destruct (body_head_length m r payload head Hr Hb) as [Hv Hm]. split_and!; [done|done| |].
  - intros delivery direct -> Hd. unfold direct_head in Hd. rewrite Hb in Hd. cbn [result_bind] in Hd.
    set (close := default _ _) in Hd. clearbody close.
    match type of Hd with Ok ?t = _ => assert (direct = t) as -> by congruence end.
    destruct head as [st hs]. cbn [headers start] in *. rewrite values_app, values_cons.
    change (eq_ignore_ascii_case _ _) with false. cbn [app]. by rewrite <- values_app, take_drop.
  - intros k n o l. unfold frame, len, FRAME_BYTES. cbn [length]. by rewrite !length_app, !be_bytes_length.
Qed.

Definition example_metadata : ObjectMetadata :=
  mkMetadata (Some (lit "text/plain")) (mkVersion (mkObject (lit "cache") []) (QUOTE :: lit "v1" ++ [QUOTE]))
    40000000 1700000000000000000.

Lemma body_length_is_frames_witness :
  frames_length true (mkResolved 16777210 16777221) = 74%N ∧
  ∃ head, body_head example_metadata (Some (mkResolved 16777210 16777221)) true = Ok head ∧
    values head (lit "Content-Length") = [lit "74"].
Proof.
  split; [vm_compute; reflexivity|].
  destruct (body_head example_metadata (Some (mkResolved 16777210 16777221)) true) as [h|e] eqn:Eb;
    [|vm_compute in Eb; discriminate].
  exists h. split; [reflexivity|].
  exact (proj1 (body_length_is_frames example_metadata (mkResolved 16777210 16777221) true h ltac:(reflexivity) Eb)).
Defined.

(** ** Metadata heads *)

Lemma trim_start_id v : (∀ b, head v = Some b → is_ows b = false) → trim_start_ows v = v.
Proof. destruct v as [|b v]; [done|]. intros Hb. simpl. by rewrite (Hb b). Qed.

Lemma trim_ows_id v :
  (∀ b, head v = Some b → is_ows b = false) → (∀ b, last v = Some b → is_ows b = false) → trim_ows v = v.
Proof.
  intros Hh Hl. unfold trim_ows. rewrite (trim_start_id v) by done. rewrite trim_start_id; [apply reverse_involutive|].
  intros b. rewrite head_reverse. apply Hl.
Qed.

Lemma etag_trim t : etag_parse t = Ok t → trim_ows t = t.
Proof.
  intros Ht. unfold etag_parse in Ht. destruct (_ || _) eqn:Eo; [done|].
  rewrite !orb_false_iff, !negb_false_iff, !bool_decide_eq_true in Eo. destruct Eo as [[[_ Hh] Hl] _].
  apply trim_ows_id; intros b Hb; [rewrite Hh in Hb|rewrite Hl in Hb]; by injection Hb as <-.
Qed.

Lemma content_type_trim ct v : object_content_type_parse ct = Ok v → trim_ows ct = ct.
Proof.
  unfold object_content_type_parse. destruct (_ <? _)%N; [done|]. destruct (content_type_parse ct) as [w|] eqn:Ec; [|done].
  intros _. unfold content_type_parse in Ec. destruct (_ || _) eqn:Eo; [done|]. clear Ec.
  rewrite !orb_false_iff, !bool_decide_eq_false in Eo. destruct Eo as [[[_ He] Hh] Hl].
  assert (∀ b, b ∈ ct → b ≠ SP → is_ows b = false) as Hb.
  { intros b Hb Hsp. unfold is_ows. rewrite (proj2 (N.eqb_neq b SP) Hsp). apply N.eqb_neq. intros ->.
    apply not_true_iff_false in He. apply He, existsb_exists. exists TAB. by rewrite <- list_elem_of_In. }
  apply trim_ows_id; intros b Hx; (apply Hb; [|by intros ->]);
    [by apply head_Some_elem_of|by apply last_Some_elem_of].
Qed.

Lemma success_head_Ok m head :
  success_head m None = Ok head →
  (om_length m ≤ MAX_WIRE_INTEGER)%N ∧ ∃ e, expires_to_header (om_expires_at m) = Ok e ∧
  head = mkHead (StartLine_Response 200)
    ([client_header "ETag" (v_etag (om_version m)); client_header "Racer-Expires-At" e] ++
     (match om_content_type m with Some ct => [client_header "Racer-Content-Type" ct] | None => [] end) ++
     [client_header "Content-Length" (to_decimal (om_length m)); client_header "Content-Type" octet_stream]).
Proof.
  unfold success_head, expires_to_header, expires_to_unix_millis. intros Hs. apply result_bind_Ok in Hs as (d & Hd%ok_or_Ok & Hs).
  destruct (_ || _) eqn:Eo; [done|]. rewrite !orb_false_iff, !N.ltb_ge, negb_false_iff in Eo. destruct Eo as [[Hl He] Hz].
  cbn [is_some] in Hs. split; [done|]. exists (to_decimal (d / MILLISECOND)%N). split.
  - rewrite Hd. cbn [ok_or result_bind]. rewrite Hz, (proj2 (N.ltb_ge _ _) He). done.
  - congruence.
Qed.

(** A metadata head survives the origin parser: what a node answers to a HEAD request is
    accepted by another node's origin validation as exactly the same metadata. *)
Theorem metadata_head_round_trip m head :
  success_head m None = Ok head → etag_parse (v_etag (om_version m)) = Ok (v_etag (om_version m)) →
  (∀ ct, om_content_type m = Some ct → object_content_type_parse ct = Ok ct) →
  validate_metadata head (v_object (om_version m)) = Ok m.
Proof.
  intros (Hl & e & He & ->)%success_head_Ok Ht Hc.
  destruct m as [ct [object tag] n t]. cbn [om_content_type om_version v_etag v_object om_length om_expires_at] in *.
  assert (origin_decimal (to_decimal n) = Ok n) as Hn.
  { unfold origin_decimal. by rewrite (proj2 (parse_decimal_canonical _ n)). }
  pose proof (proj2 (expires_text e t) He) as Hp. pose proof (etag_trim tag Ht) as Htrim.
  set (hd := mkHead _ _). set (digits := to_decimal n) in *. clearbody digits.
  assert (field hd (lit "Racer-Content-Type") = Ok ct) as Hct.
  { destruct ct as [c|]; [|reflexivity].
    transitivity (Ok (A := option (list N)) (E := ObjError) (Some (trim_ows c))); [reflexivity|].
    by rewrite (content_type_trim c c) by (by apply Hc). }
  assert (required hd (lit "Content-Length") = Ok digits) as Hcl by (destruct ct; reflexivity).
  assert (required hd (lit "Racer-Expires-At") = Ok e) as Hex by (destruct ct; reflexivity).
  assert (required hd (lit "ETag") = Ok tag) as Htag.
  { transitivity (Ok (A := list N) (E := ObjError) (trim_ows tag)); [destruct ct; reflexivity|by rewrite Htrim]. }
  assert (validate_response hd false = Ok (200%N, n)) as Hvr.
  { unfold validate_response.
    assert (fields_unique hd unique_fields = Ok ()) as -> by (destruct ct; reflexivity).
    assert (opaque_fields_valid hd [lit "Racer-Metadata"; lit "Authorization"] = Ok ()) as -> by (destruct ct; reflexivity).
    assert (absent hd forbidden_fields = Ok ()) as -> by (destruct ct; reflexivity).
    cbn [result_bind]. rewrite Hct. cbn [result_bind].
    assert (match ct with Some v => let? _ := map_err_to (object_content_type_parse v) ObjError_BadGateway in Ok () | None => Ok () end
            = Ok (E := ObjError) ()) as -> by (destruct ct as [c|]; [by rewrite (Hc c)|done]).
    cbn [result_bind]. assert (values hd (lit "Connection") = []) as -> by (destruct ct; reflexivity).
    cbn [existsb]. cbn [hd start result_bind]. rewrite Hcl. cbn [result_bind]. rewrite Hn. done. }
  unfold validate_metadata. rewrite Hvr. cbn [result_bind negb N.eqb Pos.eqb].
  assert (absent hd [lit "Content-Range"] = Ok ()) as -> by (destruct ct; reflexivity). cbn [result_bind].
  unfold origin_metadata. rewrite Htag. cbn [result_bind]. rewrite Ht. cbn [result_bind map_err_to]. rewrite Hex.
  cbn [result_bind]. rewrite Hp. cbn [result_bind map_err_to]. rewrite Hct. cbn [result_bind].
  assert (transpose object_content_type_parse ct = Ok ct) as ->; [|done].
  destruct ct as [c|]; [|done]. cbn [transpose]. by rewrite (Hc c).
Qed.

Lemma metadata_head_round_trip_witness :
  ∃ head, success_head example_metadata None = Ok head ∧
    validate_metadata head (mkObject (lit "cache") []) = Ok example_metadata.
Proof.
  destruct (success_head example_metadata None) as [h|e] eqn:Eh; [|vm_compute in Eh; discriminate].
  exists h. split; [reflexivity|].
  apply (metadata_head_round_trip example_metadata h Eh); [vm_compute; reflexivity|].
  intros ct Hct. vm_compute in Hct. injection Hct as <-. vm_compute. reflexivity.
Defined.
