(* ===== verification/Route.v ===== *)
(** * Route budgets and peer decisions ([core/src/route.rs])

    The wire-form and search-form rules that bound every route to [MAX_LINKS]
    links, the hop decision of a node, and the failure, evidence and grant
    tables.  The theorems show that a request never revisits a node nor takes
    more than eight links, and that the two forms of the rule agree. *)

From S2P Require Import Prelude.
From Stdlib Require Import String.
Local Open Scope N_scope.
Local Open Scope racer_scope.

(** ** Route budget *)

Definition MAX_LINKS : N := 8.

Inductive RouteFault : Type :=
| RouteFault_DeadlineExceeded
| RouteFault_HopBudgetExhausted
| RouteFault_Invalid.

#[export] Instance RouteFault_eq_dec : EqDecision RouteFault.
Proof. solve_decision. Defined.

Definition within_wire (visited links : N) : bool :=
  saturating_add U64_MAX visited links <=? MAX_LINKS + 1.

Definition check_wire (visited links : N) : result unit RouteFault :=
  if (links =? 0) || (MAX_LINKS <? links) || (visited =? 0) || negb (within_wire visited links)
  then Err RouteFault_HopBudgetExhausted
  else Ok tt.

Definition check_wire_transition (old_links new_links : N) : result unit RouteFault :=
  if (old_links <=? 1) || negb (new_links =? old_links - 1)
  then Err RouteFault_HopBudgetExhausted
  else Ok tt.

(** ** Failure classes *)

Inductive Fault : Type :=
| Fault_Overloaded
| Fault_Unavailable
| Fault_Io
| Fault_Os
| Fault_DeadlineExceeded
| Fault_BadGateway
| Fault_CorruptRecord
| Fault_Cancelled
| Fault_HopBudgetExhausted
| Fault_IncompatibleMembership
| Fault_NotFound
| Fault_VersionUnavailable
| Fault_Unauthorized
| Fault_OriginForbidden
| Fault_MissingKey
| Fault_Other.

#[export] Instance Fault_eq_dec : EqDecision Fault.
Proof. solve_decision. Defined.

Inductive Response : Type :=
| Response_Overloaded
| Response_Unavailable
| Response_NotFound
| Response_VersionUnavailable
| Response_OriginRejected
| Response_OriginForbidden
| Response_StaleMembership.

#[export] Instance Response_eq_dec : EqDecision Response.
Proof. solve_decision. Defined.

Inductive RelayFailure : Type :=
| RelayFailure_Respond (r : Response)
| RelayFailure_RespondIfLive (r : Response)
| RelayFailure_Propagate.

Definition relay_failure (fault : Fault) (ping : bool) : RelayFailure :=
  match fault, ping with
  | Fault_Io, true | Fault_Os, true => RelayFailure_Propagate
  | Fault_Overloaded, _ => RelayFailure_Respond Response_Overloaded
  | Fault_Unavailable, _ | Fault_Io, _ | Fault_Os, _
  | Fault_HopBudgetExhausted, _ | Fault_IncompatibleMembership, _ =>
      RelayFailure_RespondIfLive Response_Unavailable
  | _, _ => RelayFailure_Propagate
  end.

Definition serve_failure (fault : Fault) : option Response :=
  match fault with
  | Fault_NotFound => Some Response_NotFound
  | Fault_VersionUnavailable => Some Response_VersionUnavailable
  | Fault_Overloaded => Some Response_Overloaded
  | Fault_Unauthorized => Some Response_OriginRejected
  | Fault_OriginForbidden => Some Response_OriginForbidden
  | Fault_Unavailable | Fault_Io | Fault_Os | Fault_MissingKey | Fault_CorruptRecord =>
      Some Response_Unavailable
  | _ => None
  end.

Definition waiter_failure (fault : Fault) : option Response :=
  if bool_decide (fault = Fault_Overloaded) then Some Response_Overloaded else None.

Inductive LinkOutcome : Type :=
| LinkOutcome_Success
| LinkOutcome_Timeout
| LinkOutcome_Refused
| LinkOutcome_ProtocolFailure.

Definition operation_link_outcome (r : result unit Fault) : option LinkOutcome :=
  match r with
  | Err (Fault_Io | Fault_Os | Fault_Unavailable) => Some LinkOutcome_Refused
  | Err Fault_DeadlineExceeded => Some LinkOutcome_Timeout
  | Err (Fault_BadGateway | Fault_CorruptRecord) => Some LinkOutcome_ProtocolFailure
  | Err (Fault_Cancelled | Fault_Overloaded) => None
  | _ => Some LinkOutcome_Success
  end.

Inductive Exchange : Type :=
| Exchange_Complete (overloaded : bool)
| Exchange_Streaming
| Exchange_Failed (fault : Fault) (socket_failure : bool).

(** [flow_control::AdaptiveOutcome]. *)
Inductive AdaptiveOutcome : Type :=
| Adaptive_Verified
| Adaptive_PeerFailure
| Adaptive_LocalPressure
| Adaptive_Neutral.

Definition exchange_evidence (exchange : Exchange) (admitted : bool) :
    option LinkOutcome * AdaptiveOutcome * option bool :=
  match exchange with
  | Exchange_Complete true => (Some LinkOutcome_Success, Adaptive_Neutral, Some true)
  | Exchange_Complete false => (Some LinkOutcome_Success, Adaptive_Verified, Some true)
  | Exchange_Streaming => (None, Adaptive_Neutral, Some true)
  | Exchange_Failed fault socket_failure =>
      (if socket_failure && negb admitted then Some LinkOutcome_Refused else None,
       match fault with
       | Fault_Overloaded => Adaptive_LocalPressure
       | _ => Adaptive_Neutral
       end,
       if negb socket_failure &&
          match fault with Fault_DeadlineExceeded | Fault_Cancelled => true | _ => false end
       then Some false else None)
  end.

(** Link retry backoff in milliseconds. *)
Definition link_backoff (failures jitter : N) : N :=
  let base := N.min (N.shiftl 100 (N.min (failures - 1) 8)) 20000 in
  base + jitter mod (base / 4 + 1).

(** ** Response outcomes *)

Inductive RouteOutcome : Type :=
| Outcome_Page
| Outcome_Metadata
| Outcome_Bootstrap
| Outcome_Selected
| Outcome_NotFound
| Outcome_Prefetch
| Outcome_Other.

Definition from_wire (value : string) : RouteOutcome :=
  if (value =? "page")%string then Outcome_Page
  else if (value =? "metadata")%string then Outcome_Metadata
  else if (value =? "bootstrap")%string then Outcome_Bootstrap
  else if (value =? "selected")%string then Outcome_Selected
  else if (value =? "not-found")%string then Outcome_NotFound
  else if (value =? "prefetch")%string then Outcome_Prefetch
  else Outcome_Other.

Definition asserts_success (o : RouteOutcome) : bool :=
  match o with Outcome_Other => false | _ => true end.

Definition is_prefetch (o : RouteOutcome) : bool :=
  match o with Outcome_Prefetch => true | _ => false end.

Definition echoes_operation (o : RouteOutcome) : bool :=
  match o with Outcome_Page | Outcome_Metadata | Outcome_Bootstrap => true | _ => false end.

Definition not_found_ok (operation mode selector : string) : bool :=
  ((operation =? "metadata") || (operation =? "bootstrap"))%string
  && (mode =? "acquire")%string && (selector =? "fresh")%string.

(** ** Grant rules *)

Definition grant_membership_ok (grant route : N) : bool := grant =? route.

Definition grant_deadline_ok (grant_ms route_ms now_ms : N) : bool :=
  (grant_ms <=? route_ms) && (now_ms <? grant_ms).

Definition page_budget_ok (granted requested : N) : bool :=
  bool_decide (checked_add U64_MAX granted 1 = Some requested).

Definition byte_budget_ok (granted ciphertext requested : N) : bool :=
  bool_decide (checked_add U64_MAX granted ciphertext = Some requested).

Definition opt_le (a b : option N) : bool :=
  match a, b with
  | None, _ => true
  | Some _, None => false
  | Some x, Some y => x <=? y
  end.

Definition flights_ok (granted requested : option N) : bool :=
  Bool.eqb (bool_decide (is_Some granted)) (bool_decide (is_Some requested)) && opt_le granted requested.

Definition bootstrap_presence_ok (length present : N) : bool :=
  present =? (if length =? 0 then 0 else 1).

(** ** Rules generic over the node identity *)

Section nodes.
Context {A : Type} `{EqDecision A}.
Implicit Types (visited : list A) (local holder next destination : A).

(** [visited.iter().enumerate().any(|(i, node)| visited[..i].contains(node))] *)
Fixpoint has_repeat (seen rest : list A) : bool :=
  match rest with
  | [] => false
  | node :: rest => contains_b seen node || has_repeat (seen ++ [node]) rest
  end.

Definition validate visited holder destination (links deadline now : N) : result unit RouteFault :=
  if deadline <=? now then Err RouteFault_DeadlineExceeded
  else if (MAX_LINKS <? len visited) || (MAX_LINKS <? len visited + links)
  then Err RouteFault_HopBudgetExhausted
  else if contains_b visited holder || contains_b visited destination || has_repeat [] visited
  then Err RouteFault_Invalid
  else Ok tt.

Definition forward visited holder next destination (links deadline now : N) : result N RouteFault :=
  let? _ := validate visited holder destination links deadline now in
  if links =? 0 then Err RouteFault_HopBudgetExhausted
  else if bool_decide (next = holder) || contains_b visited next then Err RouteFault_Invalid
  else Ok (links - 1).

Definition search_budget visited (links : N) local : result (N * N) RouteFault :=
  if bool_decide (last visited = Some local) then Ok (len visited - 1, links)
  else let? links := ok_or (checked_sub links 1) RouteFault_HopBudgetExhausted in
       Ok (len visited, links).

Definition relay visited destination (links : N) local : result N RouteFault :=
  if bool_decide (destination = local) || contains_b visited local then Err RouteFault_Invalid
  else ok_or (checked_sub links 1) RouteFault_HopBudgetExhausted.

Record RelayPlan : Type := {
  search : result (N * N) RouteFault;
  outbound : result N RouteFault
}.

Inductive Hop : Type :=
| Hop_StaleMembership
| Hop_Serve
| Hop_Relay (plan : RelayPlan).

Definition decide_hop local visited destination (links : N) (membership_known : bool) : Hop :=
  if negb membership_known then Hop_StaleMembership
  else if bool_decide (destination = local) then Hop_Serve
  else Hop_Relay {| search := search_budget visited links local;
                    outbound := relay visited destination links local |}.

Definition grant_receiver_ok visited (receiver : A) : bool :=
  bool_decide (head visited = Some receiver).
End nodes.

(** ** Route shape lemmas *)

Section route_facts.
Context {A : Type} `{EqDecision A}.
Implicit Types (visited : list A) (local holder next destination : A).

Lemma check_wire_Ok v l : check_wire v l = Ok tt ↔ 1 ≤ v ∧ 1 ≤ l ∧ v + l ≤ 9.
Proof.
  unfold check_wire, within_wire, saturating_add, MAX_LINKS, U64_MAX.
  destruct (N.eqb_spec l 0), (N.ltb_spec 8 l), (N.eqb_spec v 0); simpl;
    try (split; [discriminate|lia]).
  destruct (N.leb_spec (N.min (v + l) 18446744073709551615) (8 + 1)); simpl;
    split; intros; try done; lia.
Qed.

Lemma has_repeat_false (seen rest : list A) :
  has_repeat seen rest = false ↔ (∀ x, x ∈ rest → x ∉ seen) ∧ NoDup rest.
Proof.
  revert seen. induction rest as [|x rest IH]; intros seen; simpl.
  { split; [intros _; split; [by intros ? ?%not_elem_of_nil|constructor]|done]. }
  rewrite orb_false_iff, IH, NoDup_cons. unfold contains_b.
  rewrite bool_decide_eq_false. setoid_rewrite elem_of_cons. set_solver.
Qed.

Lemma validate_Ok visited holder destination links deadline now :
  validate visited holder destination links deadline now = Ok tt ↔
  now < deadline ∧ len visited + links ≤ MAX_LINKS ∧
  holder ∉ visited ∧ destination ∉ visited ∧ NoDup visited.
Proof.
  unfold validate, contains_b.
  destruct (N.leb_spec deadline now); [split; [done|lia]|].
  destruct (N.ltb_spec MAX_LINKS (len visited)); simpl; [split; [done|lia]|].
  destruct (N.ltb_spec MAX_LINKS (len visited + links)); simpl; [split; [done|lia]|].
  case_bool_decide; simpl; [naive_solver|].
  case_bool_decide; simpl; [naive_solver|].
  destruct (has_repeat [] visited) eqn:E.
  - split; [done|]. intros (_&_&_&_&Hn).
    assert (has_repeat [] visited = false); [|congruence].
    apply has_repeat_false. split; [set_solver|done].
  - apply has_repeat_false in E. naive_solver.
Qed.

Lemma relay_Ok visited destination links local out :
  relay visited destination links local = Ok out ↔
  destination ≠ local ∧ local ∉ visited ∧ 1 ≤ links ∧ out = links - 1.
Proof.
  unfold relay, contains_b. do 2 case_bool_decide; simpl; try naive_solver.
  rewrite ok_or_Ok, checked_sub_Some. naive_solver.
Qed.

(** The signed wire-form routes a request can carry: the origin signs itself and
    each relay that [decide_hop] lets forward appends itself; every receiver
    rejects a head that fails [check_wire]. *)
Inductive journey (destination : A) : list A → N → Prop :=
| journey_origin origin links :
    origin ≠ destination →
    check_wire 1 links = Ok tt →
    journey destination [origin] links
| journey_relay visited links local plan out :
    journey destination visited links →
    decide_hop local visited destination links true = Hop_Relay plan →
    outbound plan = Ok out →
    check_wire (len (visited ++ [local])) out = Ok tt →
    journey destination (visited ++ [local]) out.

(** The plan [decide_hop] makes. *)
Lemma decide_hop_Relay local visited destination links known plan :
  decide_hop local visited destination links known = Hop_Relay plan →
  known = true ∧ destination ≠ local ∧
  search plan = search_budget visited links local ∧
  outbound plan = relay visited destination links local.
Proof.
  unfold decide_hop. destruct known; simpl; [|done]. case_bool_decide; [done|].
  intros [= <-]. done.
Qed.

Lemma journey_wire destination visited links :
  journey destination visited links → check_wire (len visited) links = Ok tt.
Proof. by destruct 1. Qed.

Lemma journey_nodup destination visited links :
  journey destination visited links → NoDup visited ∧ destination ∉ visited.
Proof.
  induction 1 as [origin links Hne _|v l local plan out Hj [IHn IHd] Hd Ho _].
  - split; [apply NoDup_singleton|set_solver].
  - apply decide_hop_Relay in Hd as (_ & Hne & _ & Hout). rewrite Hout in Ho.
    apply relay_Ok in Ho as (_ & Hv & _ & _).
    split; [apply NoDup_app; split_and!; [done|set_solver|apply NoDup_singleton]|set_solver].
Qed.

(** C37: on every route the rules admit, no node appears twice, the destination
    is not among the relays, and the links already taken plus the links left are
    at most eight in search form, so a request crosses at most [MAX_LINKS] links. *)
Theorem journey_simple_and_bounded destination visited links :
  journey destination visited links →
  NoDup visited ∧ destination ∉ visited ∧
  1 ≤ links ∧ len visited + links ≤ MAX_LINKS + 1 ∧ len visited ≤ MAX_LINKS.
Proof.
  intros Hj. pose proof (journey_wire _ _ _ Hj) as Hw%check_wire_Ok.
  destruct (journey_nodup _ _ _ Hj). unfold MAX_LINKS. split_and!; try done; lia.
Qed.

(** Every search budget a relay derives from an admitted wire route is a
    valid search-form route for that relay: the two forms of the rule agree. *)
Theorem wire_route_gives_valid_search destination visited links local plan keep left deadline now :
  journey destination visited links →
  local ∉ visited →
  now < deadline →
  decide_hop local visited destination links true = Hop_Relay plan →
  search plan = Ok (keep, left) →
  validate (take (N.to_nat keep) visited) local destination left deadline now = Ok tt.
Proof.
  intros Hj Hnl Hlt Hd Hs.
  destruct (journey_nodup _ _ _ Hj) as [Hnd Hdest].
  pose proof (journey_wire _ _ _ Hj) as (Hl & Hb)%check_wire_Ok.
  apply decide_hop_Relay in Hd as (_ & _ & Hs' & _). rewrite Hs' in Hs.
  unfold search_budget in Hs. case_bool_decide as Hlast.
  { apply last_Some_elem_of in Hlast. done. }
  apply result_bind_Ok in Hs as (l' & Hl' & [= <- <-]).
  apply ok_or_Ok, checked_sub_Some in Hl' as [_ ->].
  unfold len. rewrite Nat2N.id, take_ge by done.
  apply validate_Ok. unfold MAX_LINKS in *. repeat split; try done. lia.
Qed.

(** A search-form [forward] spends exactly one link, never returns to a
    visited node, and leaves a valid search-form route at the next holder. *)
Theorem forward_keeps_valid visited holder next destination links left deadline now now' :
  forward visited holder next destination links deadline now = Ok left →
  holder ≠ destination → now' < deadline →
  left + 1 = links ∧ next ∉ visited ++ [holder] ∧
  validate (visited ++ [holder]) next destination left deadline now' = Ok tt.
Proof.
  unfold forward. intros Hf Hne Hnow.
  apply result_bind_Ok in Hf as ([] & Hv & Hf). apply validate_Ok in Hv as (_&Hb&Hh&Hd&Hn).
  destruct (N.eqb_spec links 0); [done|]. unfold contains_b in Hf.
  do 2 case_bool_decide; simplify_eq/=.
  assert (next ∉ visited ++ [holder]) by set_solver.
  repeat split; [lia|done|]. apply validate_Ok.
  rewrite len_app, len_cons, len_nil. unfold MAX_LINKS in *.
  repeat split; [done|lia|done|set_solver|]. apply NoDup_app. split; [done|]. split; [set_solver|].
  apply NoDup_singleton.
Qed.
End route_facts.

(** ** Backoff *)

Lemma shiftl_100_cases (k : N) :
  (k ≤ 8) → In (N.shiftl 100 k) [100; 200; 400; 800; 1600; 3200; 6400; 12800; 25600].
Proof.
  intros Hk. assert (k = 0 ∨ k = 1 ∨ k = 2 ∨ k = 3 ∨ k = 4 ∨ k = 5 ∨ k = 6 ∨ k = 7 ∨ k = 8) as Hc by lia.
  repeat destruct Hc as [->|Hc]; [..|subst k]; vm_compute; tauto.
Qed.

(** Link retry backoff stays between 100 ms and 25 s and its jitter adds at
    most a quarter of the base. *)
Theorem link_backoff_bounds failures jitter :
  let base := link_backoff failures 0 in
  100 ≤ base ≤ 20000 ∧ base ≤ link_backoff failures jitter ≤ base + base / 4.
Proof.
  unfold link_backoff. set (b := N.min (N.shiftl 100 _) 20000).
  assert (100 ≤ b ≤ 20000) as Hb.
  { pose proof (shiftl_100_cases (N.min (failures - 1) 8) ltac:(lia)) as Hin.
    subst b. simpl in Hin. repeat destruct Hin as [<-|Hin]; try lia; done. }
  rewrite N.Div0.mod_0_l, N.add_0_r. cbv zeta. clearbody b. generalize (b / 4) as q. intros q.
  assert (jitter mod (q + 1) < q + 1) by (apply N.mod_lt; lia). revert H. generalize (jitter mod (q + 1)). intros r ?. lia.
Qed.

(** ** Witnesses *)

Lemma journey_simple_and_bounded_witness :
  journey 9%nat [1%nat; 2%nat] 7 ∧ NoDup [1%nat; 2%nat].
Proof.
  assert (Hj : journey 9%nat [1%nat; 2%nat] 7).
  { apply (journey_relay 9%nat [1%nat] 8 2%nat
             {| search := Ok (1, 7); outbound := Ok 7 |} 7); try reflexivity.
    by apply (journey_origin 9%nat 1%nat 8). }
  split; [exact Hj|]. apply (journey_simple_and_bounded 9%nat [1%nat; 2%nat] 7 Hj).
Defined.

Lemma wire_route_gives_valid_search_witness :
  validate [1%nat] 2%nat 9%nat 7 10 5 = Ok tt.
Proof.
  apply (wire_route_gives_valid_search 9%nat [1%nat] 8 2%nat
           {| search := Ok (1, 7); outbound := Ok 7 |} 1 7 10 5); try reflexivity.
  - by apply (journey_origin 9%nat 1%nat 8).
  - set_solver.
Defined.

Lemma forward_keeps_valid_witness :
  validate ([1%nat] ++ [2%nat]) 3%nat 9%nat 3 10 6 = Ok tt.
Proof.
  apply (forward_keeps_valid [1%nat] 2%nat 3%nat 9%nat 4 3 10 5 6); [reflexivity|done|reflexivity].
Defined.
