(* ===== verification/Budget.v ===== *)
(** * Acquisition credits ([core/src/read/budget.rs])

    The credits of one acquisition: a deadline, attempts and route links, with
    partitioning into owned children, reunification, and refunds of what a
    verified stale answer shows was never used.  The theorems show that no
    sequence of operations over any number of owned budgets mints a credit or
    extends a deadline, and that a refused operation changes nothing. *)

From S2P Require Import Prelude.
Local Open Scope N_scope.

(** ** Errors of the read path ([core/src/read/mod.rs]) *)

Inductive Error : Type :=
| Error_InvalidConfiguration
| Error_InvalidRequest
| Error_HeaderTooLarge
| Error_NotFound
| Error_Internal
| Error_VersionUnavailable
| Error_Unavailable
| Error_Overloaded
| Error_DeadlineExceeded
| Error_Cancelled
| Error_Unauthorized
| Error_OriginRejected
| Error_OriginForbidden
| Error_IncompatibleMembership
| Error_HopBudgetExhausted
| Error_CorruptRecord
| Error_MissingKey
| Error_Io
| Error_Os (code : Z).

#[export] Instance Error_eq_dec : EqDecision Error.
Proof. solve_decision. Defined.

(** ** The budget *)

Record AcquisitionBudget : Type := mkBudget {
  b_deadline : N;
  b_attempts : N;
  b_links : N;
  b_charged_links : N;
  b_failed_route : bool;
  b_remote_sent : N
}.

#[export] Instance AcquisitionBudget_eq_dec : EqDecision AcquisitionBudget.
Proof. solve_decision. Defined.

Implicit Types b child : AcquisitionBudget.

(** [AcquisitionBudget::new]. *)
Definition new_budget (deadline attempts links : N) : AcquisitionBudget :=
  mkBudget deadline attempts links 0 false 0.

(** Every method takes [&mut self]: it returns its result and the budget left. *)

Definition send_remote b (attempts : N) : result N Error * AcquisitionBudget :=
  match checked_sub (b_attempts b) attempts with
  | None => (Err Error_Unavailable, b)
  | Some rest =>
      (Ok attempts,
       mkBudget (b_deadline b) rest (b_links b) (b_charged_links b) (b_failed_route b)
         (saturating_add U32_MAX (b_remote_sent b) attempts))
  end.

Definition refund_remote b (attempts : N) : result unit Error * AcquisitionBudget :=
  match checked_sub (b_remote_sent b) attempts with
  | None => (Err Error_InvalidRequest, b)
  | Some sent =>
      match checked_add U32_MAX (b_attempts b) attempts with
      | None => (Err Error_InvalidRequest, b)
      | Some available =>
          (Ok tt, mkBudget (b_deadline b) available (b_links b) (b_charged_links b)
                    (b_failed_route b) sent)
      end
  end.

Definition begin_attempt b (now caller_deadline : N) : result N Error * AcquisitionBudget :=
  let deadline := N.min (b_deadline b) caller_deadline in
  if deadline <=? now then (Err Error_DeadlineExceeded, b)
  else match checked_sub (b_attempts b) 1 with
       | None => (Err Error_Unavailable, b)
       | Some rest =>
           (Ok deadline, mkBudget (b_deadline b) rest (b_links b) (b_charged_links b)
                           (b_failed_route b) (b_remote_sent b))
       end.

Definition charge_links b (links : N) : result unit Error * AcquisitionBudget :=
  match checked_sub (b_links b) links with
  | None => (Err Error_HopBudgetExhausted, b)
  | Some rest =>
      (Ok tt, mkBudget (b_deadline b) (b_attempts b) rest
                (saturating_add U16_MAX (b_charged_links b) links)
                (b_failed_route b) (b_remote_sent b))
  end.

Definition refund_links b (links : N) : result unit Error * AcquisitionBudget :=
  match checked_sub (b_charged_links b) links with
  | None => (Err Error_InvalidRequest, b)
  | Some charged =>
      match checked_add U8_MAX (b_links b) links with
      | None => (Err Error_InvalidRequest, b)
      | Some available =>
          (Ok tt, mkBudget (b_deadline b) (b_attempts b) available charged
                    (b_failed_route b) (b_remote_sent b))
      end
  end.

Definition route_links b : N := N.min (b_links b) (if b_failed_route b then 8 else 4).

Definition note_route_failure b : AcquisitionBudget :=
  mkBudget (b_deadline b) (b_attempts b) (b_links b) (b_charged_links b) true (b_remote_sent b).

Definition reunite b child : result unit Error * AcquisitionBudget :=
  match checked_add U32_MAX (b_attempts b) (b_attempts child) with
  | None => (Err Error_InvalidRequest, b)
  | Some attempts =>
      match checked_add U8_MAX (b_links b) (b_links child) with
      | None => (Err Error_InvalidRequest, b)
      | Some links =>
          (Ok tt, mkBudget (N.min (b_deadline b) (b_deadline child)) attempts links
                    (b_charged_links b) (b_failed_route b || b_failed_route child)
                    (b_remote_sent b))
      end
  end.

Definition partition b (attempts links : N) : result AcquisitionBudget Error * AcquisitionBudget :=
  match checked_sub (b_attempts b) attempts with
  | None => (Err Error_Unavailable, b)
  | Some remaining_attempts =>
      match checked_sub (b_links b) links with
      | None => (Err Error_HopBudgetExhausted, b)
      | Some remaining_links =>
          let child := mkBudget (b_deadline b) attempts links 0 (b_failed_route b) 0 in
          (Ok child, mkBudget (b_deadline b) remaining_attempts remaining_links
                       (b_charged_links b) (b_failed_route b) (b_remote_sent b))
      end
  end.

Definition transfer b : AcquisitionBudget * AcquisitionBudget :=
  (mkBudget (b_deadline b) (b_attempts b) (b_links b) (b_charged_links b) (b_failed_route b)
     (b_remote_sent b),
   mkBudget (b_deadline b) 0 0 0 (b_failed_route b) 0).

Definition begin_peer_attempt b (now caller_deadline links : N) :
    result N Error * AcquisitionBudget :=
  if links =? 0 then (Err Error_InvalidRequest, b)
  else
    let deadline := N.min (b_deadline b) caller_deadline in
    if deadline <=? now then (Err Error_DeadlineExceeded, b)
    else if b_attempts b =? 0 then (Err Error_Unavailable, b)
    else match checked_sub (b_links b) links with
         | None => (Err Error_HopBudgetExhausted, b)
         | Some remaining =>
             (Ok deadline,
              mkBudget (b_deadline b) (b_attempts b - 1) remaining
                (saturating_add U16_MAX (b_charged_links b) links)
                (b_failed_route b) (b_remote_sent b))
         end.

Definition stale_unused_links (charged hops : N) : N := charged - N.min hops U8_MAX.

Definition MAX_ROUTE_LINKS : N := 8.
Definition NORMAL_ROUTE_LINKS : N := 4.

Definition inherited_budget (scope_deadline route_deadline remaining_attempts remaining_links visited : N) :
    result AcquisitionBudget Error :=
  if (MAX_ROUTE_LINKS <? remaining_links) || (remaining_links =? 0) || (visited =? 0)
  then Err Error_HopBudgetExhausted
  else match checked_sub remaining_links 1 with
       | None => Err Error_HopBudgetExhausted
       | Some links =>
           let budget := new_budget (N.min scope_deadline route_deadline) remaining_attempts links in
           Ok (if NORMAL_ROUTE_LINKS <? remaining_links then note_route_failure budget else budget)
       end.

(** ** Credits held by a pool of owned budgets *)

(** Attempts a budget holds or may still be refunded. *)
Definition attempt_credit b : N := b_attempts b + b_remote_sent b.

(** Links a budget holds or may still be refunded. *)
Definition link_credit b : N := b_links b + b_charged_links b.

Definition pool_attempts (pool : list AcquisitionBudget) : N :=
  foldr (λ b n, attempt_credit b + n) 0 pool.

Definition pool_links (pool : list AcquisitionBudget) : N :=
  foldr (λ b n, link_credit b + n) 0 pool.

(** Operations on one budget, as requests. *)
Inductive BudgetOp : Type :=
| OpSendRemote (attempts : N)
| OpRefundRemote (attempts : N)
| OpBeginAttempt (now caller_deadline : N)
| OpChargeLinks (links : N)
| OpRefundLinks (links : N)
| OpBeginPeerAttempt (now caller_deadline links : N)
| OpNoteRouteFailure.

Definition run_op (op : BudgetOp) b : bool * AcquisitionBudget :=
  match op with
  | OpSendRemote n => let '(r, b') := send_remote b n in (is_ok r, b')
  | OpRefundRemote n => let '(r, b') := refund_remote b n in (is_ok r, b')
  | OpBeginAttempt now d => let '(r, b') := begin_attempt b now d in (is_ok r, b')
  | OpChargeLinks n => let '(r, b') := charge_links b n in (is_ok r, b')
  | OpRefundLinks n => let '(r, b') := refund_links b n in (is_ok r, b')
  | OpBeginPeerAttempt now d n => let '(r, b') := begin_peer_attempt b now d n in (is_ok r, b')
  | OpNoteRouteFailure => (true, note_route_failure b)
  end.

(** One step of a set of workers that own budgets: a local operation, a fan-out,
    a reunion that consumes the child, a hand-off to another owner, or a drop.
    Ownership is linear: [AcquisitionBudget] is not [Clone]. *)
Inductive pool_step : list AcquisitionBudget → list AcquisitionBudget → Prop :=
| pool_op op pre b post :
    pool_step (pre ++ b :: post) (pre ++ (run_op op b).2 :: post)
| pool_partition a l pre b post child b' :
    partition b a l = (Ok child, b') →
    pool_step (pre ++ b :: post) (pre ++ b' :: child :: post)
| pool_reunite pre b mid child post r b' :
    reunite b child = (r, b') →
    pool_step (pre ++ b :: mid ++ child :: post) (pre ++ b' :: mid ++ post)
| pool_transfer pre b post :
    pool_step (pre ++ b :: post) (pre ++ (transfer b).2 :: (transfer b).1 :: post)
| pool_drop pre b post :
    pool_step (pre ++ b :: post) (pre ++ post).

(** ** Lemmas *)

Lemma pool_attempts_app p q : pool_attempts (p ++ q) = pool_attempts p + pool_attempts q.
Proof. induction p as [|x p IH]; simpl; [lia|]. unfold pool_attempts in *. simpl. lia. Qed.

Lemma pool_links_app p q : pool_links (p ++ q) = pool_links p + pool_links q.
Proof. induction p as [|x p IH]; simpl; [lia|]. unfold pool_links in *. simpl. lia. Qed.

Lemma pool_attempts_cons b p : pool_attempts (b :: p) = attempt_credit b + pool_attempts p.
Proof. done. Qed.

Lemma pool_links_cons b p : pool_links (b :: p) = link_credit b + pool_links p.
Proof. done. Qed.

Create Rewrite HintDb budget.
#[export] Hint Rewrite pool_attempts_app pool_links_app pool_attempts_cons pool_links_cons : budget.

(** Case analysis on the checked arithmetic of an operation. *)
Ltac budget_cases :=
  repeat match goal with
  | |- context [match checked_sub ?a ?c with _ => _ end] =>
      let E := fresh "E" in
      destruct (checked_sub a c) eqn:E; [apply checked_sub_Some in E as [? ->]|clear E]
  | |- context [match checked_add ?m ?a ?c with _ => _ end] =>
      let E := fresh "E" in
      destruct (checked_add m a c) eqn:E; [apply checked_add_Some in E as [? ->]|clear E]
  | |- context [if ?c then _ else _] => destruct c eqn:?
  end.

(** No operation on one budget raises its credit or its deadline. *)
Lemma run_op_credit op b :
  attempt_credit (run_op op b).2 ≤ attempt_credit b ∧
  link_credit (run_op op b).2 ≤ link_credit b ∧
  b_deadline (run_op op b).2 = b_deadline b.
Proof.
  unfold attempt_credit, link_credit.
  destruct op; simpl; unfold send_remote, refund_remote, begin_attempt, charge_links,
    refund_links, begin_peer_attempt, note_route_failure, saturating_add;
    budget_cases; simpl; repeat split; try lia.
Qed.

Lemma partition_Ok b a l child b' :
  partition b a l = (Ok child, b') →
  a ≤ b_attempts b ∧ l ≤ b_links b ∧
  child = mkBudget (b_deadline b) a l 0 (b_failed_route b) 0 ∧
  b' = mkBudget (b_deadline b) (b_attempts b - a) (b_links b - l) (b_charged_links b)
         (b_failed_route b) (b_remote_sent b).
Proof. unfold partition. budget_cases; intros [= <- <-]; done. Qed.

Lemma reunite_Ok b child b' :
  reunite b child = (Ok tt, b') →
  b_attempts b + b_attempts child ≤ U32_MAX ∧ b_links b + b_links child ≤ U8_MAX ∧
  b' = mkBudget (N.min (b_deadline b) (b_deadline child))
         (b_attempts b + b_attempts child) (b_links b + b_links child)
         (b_charged_links b) (b_failed_route b || b_failed_route child) (b_remote_sent b).
Proof. unfold reunite. budget_cases; intros [= <-]; done. Qed.

Lemma reunite_credit b child :
  attempt_credit (reunite b child).2 ≤ attempt_credit b + attempt_credit child ∧
  link_credit (reunite b child).2 ≤ link_credit b + link_credit child ∧
  b_deadline (reunite b child).2 ≤ b_deadline b.
Proof.
  unfold attempt_credit, link_credit, reunite. budget_cases; simpl; repeat split; lia.
Qed.

(** One step neither mints credits nor extends a deadline. *)
Lemma pool_step_credit p q :
  pool_step p q →
  pool_attempts q ≤ pool_attempts p ∧ pool_links q ≤ pool_links p ∧
  ∀ d, Forall (λ b, b_deadline b ≤ d) p → Forall (λ b, b_deadline b ≤ d) q.
Proof.
  destruct 1 as [op pre b post|a l pre b post child b' Hp|pre b mid child post r b' Hr|pre b post|pre b post];
    autorewrite with budget.
  - destruct (run_op_credit op b) as (?&?&Hd). split_and!; [lia|lia|].
    intros d. rewrite !Forall_app, !Forall_cons, Hd. tauto.
  - apply partition_Ok in Hp as (?&?&->&->). unfold attempt_credit, link_credit; simpl.
    split_and!; [lia|lia|]. intros d. rewrite !Forall_app, !Forall_cons. simpl. tauto.
  - destruct (reunite_credit b child) as (?&?&Hd). rewrite Hr in *. simpl in *.
    split_and!; [lia|lia|]. intros d. rewrite !Forall_app, !Forall_cons, !Forall_app, !Forall_cons.
    intuition lia.
  - unfold attempt_credit, link_credit; simpl. split_and!; [lia|lia|].
    intros d. rewrite !Forall_app, !Forall_cons. simpl. tauto.
  - split_and!; [lia|lia|]. intros d. rewrite !Forall_app, !Forall_cons. tauto.
Qed.

(** ** Properties *)

(** Whatever sequence of attempts, charges, refunds, partitions, reunions,
    transfers and drops the workers of one acquisition perform, the attempts and
    links held together (or still refundable) never exceed the original budget,
    and no budget outlives the original deadline. *)
Theorem pool_never_mints_credits b pool :
  rtc pool_step [b] pool →
  pool_attempts pool ≤ attempt_credit b ∧
  pool_links pool ≤ link_credit b ∧
  Forall (λ c, b_deadline c ≤ b_deadline b) pool.
Proof.
  intros Hr.
  assert (pool_attempts pool ≤ pool_attempts [b] ∧ pool_links pool ≤ pool_links [b] ∧
          ∀ d, Forall (λ b, b_deadline b ≤ d) [b] → Forall (λ b, b_deadline b ≤ d) pool)
    as (Ha & Hl & Hd).
  { induction Hr as [p|p q r Hs _ (?&?&Hd)]; [split_and!; [lia|lia|done]|].
    apply pool_step_credit in Hs as (?&?&Hd'). split_and!; [lia|lia|]. auto. }
  autorewrite with budget in *. unfold pool_attempts, pool_links in *. simpl in *.
  split_and!; [lia|lia|]. apply Hd. rewrite Forall_singleton. lia.
Qed.

(** An operation that reports an error leaves the budget exactly as it was;
    [begin_peer_attempt] in particular debits the attempt and every link, or
    nothing. *)
Theorem refused_operation_is_atomic op b :
  (run_op op b).1 = false → (run_op op b).2 = b.
Proof.
  destruct op; simpl; unfold send_remote, refund_remote, begin_attempt, charge_links,
    refund_links, begin_peer_attempt; budget_cases; simpl; done.
Qed.

(** Partitioning a child and reuniting it unspent restores exactly the
    attempts and links of the parent, whatever the split. *)
Theorem partition_reunite_roundtrip b a l child b' :
  b_attempts b ≤ U32_MAX → b_links b ≤ U8_MAX →
  partition b a l = (Ok child, b') →
  reunite b' child = (Ok tt, b).
Proof.
  intros Ha Hl Hp. apply partition_Ok in Hp as (?&?&->&->).
  unfold reunite. simpl.
  destruct (checked_add U32_MAX _ _) eqn:E;
    [apply checked_add_Some in E as [_ ->]|apply checked_add_None in E; lia].
  destruct (checked_add U8_MAX _ _) eqn:E';
    [apply checked_add_Some in E' as [_ ->]|apply checked_add_None in E'; lia].
  destruct b as [d at_ li ch fr rs]; simpl in *. do 2 f_equal; try lia. apply orb_diag.
Qed.

(** A peer that accepts a forwarded request inherits at most the links left
    after the one that reached it, and never a later deadline than the route. *)
Theorem inherited_budget_bounds sd rd att links visited b :
  inherited_budget sd rd att links visited = Ok b →
  b_links b + 1 = links ∧ b_links b < MAX_ROUTE_LINKS ∧ b_attempts b = att ∧
  b_deadline b = N.min sd rd ∧ route_links b ≤ b_links b ∧
  b_failed_route b = (NORMAL_ROUTE_LINKS <? links).
Proof.
  unfold inherited_budget, MAX_ROUTE_LINKS, NORMAL_ROUTE_LINKS.
  destruct (N.ltb_spec 8 links), (N.eqb_spec links 0), (N.eqb_spec visited 0); simpl; try done.
  budget_cases; intros [= <-]; unfold route_links; simpl; repeat split; lia.
Qed.

(** ** Witnesses *)

Lemma pool_never_mints_credits_witness :
  pool_attempts [mkBudget 10 1 3 0 false 0; mkBudget 10 3 5 0 false 0] ≤ 4.
Proof.
  apply (pool_never_mints_credits (new_budget 10 4 8)).
  apply rtc_once, (pool_partition 3 5 [] _ []). reflexivity.
Defined.

Lemma refused_operation_is_atomic_witness :
  (run_op (OpBeginPeerAttempt 1 5 3) (new_budget 5 1 2)).2 = new_budget 5 1 2.
Proof. apply refused_operation_is_atomic. reflexivity. Defined.

Lemma partition_reunite_roundtrip_witness :
  reunite (mkBudget 10 1 3 0 false 0) (mkBudget 10 3 5 0 false 0) = (Ok tt, new_budget 10 4 8).
Proof.
  apply (partition_reunite_roundtrip (new_budget 10 4 8) 3 5); [done|done|reflexivity].
Defined.

Lemma inherited_budget_bounds_witness :
  b_links (mkBudget 3 2 4 0 true 0) + 1 = 5.
Proof. apply (inherited_budget_bounds 9 3 2 5 1). reflexivity. Defined.
