(* ===== verification/HotPage.v ===== *)
(** * Hot page shedding and overflow helpers ([core/src/read/budget.rs])

    When an owner sheds readers of a hot page, and which helper a shed reader
    asks.  The hashes are computed exactly (FNV-1a with a SplitMix finalizer),
    so helper choice is executable.  The theorems bound an owner's fan-in and
    show that a chosen helper is always a recognised, non-excluded member. *)

From S2P Require Import Prelude.
Local Open Scope N_scope.

(** ** Constants *)

Definition HELPER_ATTEMPTS : N := 4.
Definition HELPER_LINKS : N := 8.
Definition HELPER_FLOOR_ATTEMPTS : N := 3.
Definition HELPER_FLOOR_LINKS : N := 4.
Definition HELPER_MIN_ATTEMPTS : N := HELPER_ATTEMPTS + 1.
Definition MAX_HELPERS : N := 256.
Definition HOT_PAGE_QUEUE_BYTES : N := 32 * 2 ^ 20.
Definition HOT_PAGE_MIN_BODIES : N := 2.
Definition HOT_PAGE_EXEMPT_BODIES : N := HOT_PAGE_MIN_BODIES.

Definition fanout_width (members : N) : N := N.min (N.sqrt members) MAX_HELPERS.

(** ** Hashing *)

Definition byte_at (w i : N) : N := N.land (N.shiftr w (8 * i)) 255.

(** [u64::to_le_bytes]. *)
Definition to_le_bytes (w : N) : list N :=
  [byte_at w 0; byte_at w 1; byte_at w 2; byte_at w 3;
   byte_at w 4; byte_at w 5; byte_at w 6; byte_at w 7].

Definition fnv_byte (hash byte : N) : N :=
  wrapping_mul64 (N.lxor hash byte) 1099511628211.

(** The SplitMix64 finalizer. *)
Definition mix64 (z : N) : N :=
  let z := wrapping_mul64 (N.lxor z (N.shiftr z 30)) 13787848793156543929 in
  let z := wrapping_mul64 (N.lxor z (N.shiftr z 27)) 10723151780598845931 in
  N.lxor z (N.shiftr z 31).

Definition fnv (parts : list (list N)) : N :=
  let hash := foldl (λ hash part, foldl fnv_byte hash (to_le_bytes (len part) ++ part))
                14695981039346656037 parts in
  mix64 (wrapping_add64 hash 11400714819323198485).

(** ** Shedding *)

Definition hot_page_bodies (page_bytes : N) : N :=
  let bodies := HOT_PAGE_QUEUE_BYTES / (if page_bytes =? 0 then 1 else page_bytes) in
  if bodies <? HOT_PAGE_MIN_BODIES then HOT_PAGE_MIN_BODIES
  else if U32_MAX <? bodies then U32_MAX
  else bodies.

Record HotPageLimits : Type := { threshold : N; exempt_cap : N }.

Definition hot_page_exempt_bodies (threshold : N) : N :=
  saturating_add USIZE_MAX threshold HOT_PAGE_EXEMPT_BODIES.

(** [HotPageLimits::mesh] and [HotPageLimits::v1]. *)
Definition mesh_limits (threshold : N) : HotPageLimits :=
  {| threshold := threshold; exempt_cap := hot_page_exempt_bodies threshold |}.

Definition v1_limits (threshold : N) : HotPageLimits :=
  {| threshold := threshold; exempt_cap := USIZE_MAX |}.

Section nodes.
Context {A : Type} `{EqDecision A}.
Implicit Types (owners : list A) (local requester : A).

Definition shed_hot_page owners local requester (exempt : bool) (streaming all : N)
    (limits : HotPageLimits) : bool :=
  let owners := take 3 owners in
  (N.max (threshold limits) 1 <=? streaming)
  && (all <=? streaming * 2)
  && contains_b owners local
  && negb (contains_b owners requester)
  && ((exempt_cap limits <=? streaming) || negb exempt).

(** ** Helpers *)

(** First helper in [candidates] whose delegate exists and is not excluded. *)
Definition mesh_helper owners (start : nat) (helper_of : A → option A) (excluded : A → bool) :
    option A :=
  let owners := take 3 owners in
  let start := (if decide (length owners = 0)%nat then 0 else start mod length owners)%nat in
  List.find (λ helper, negb (excluded helper))
    (omap helper_of (drop start owners ++ take start owners)).

End nodes.

(** [b"racer/mesh-helper"]. *)
Definition mesh_helper_tag : list N :=
  [114; 97; 99; 101; 114; 47; 109; 101; 115; 104; 45; 104; 101; 108; 112; 101; 114].

Definition helper_start (reader : list N) : N := fnv [mesh_helper_tag; reader] mod 3.

(** Position of the [j]-th hashed helper of a page. *)
Definition helper_position (cache key : list N) (page members j : N) : N :=
  fnv [cache; key; to_le_bytes page; to_le_bytes j] mod members.

Definition N_range (n : N) : list N := N.of_nat <$> seq 0 (N.to_nat n).

Definition is_helper (cache key : list N) (page position members : N) : bool :=
  existsb (λ j, helper_position cache key page members j =? position)
    (N_range (fanout_width members)).

(** The scan of [fanout_helper]: the first preferred helper wins, else the first
    non-excluded one. *)
Fixpoint scan_helpers (excluded preferred : N → bool) (first : option N) (positions : list N) :
    option N :=
  match positions with
  | [] => first
  | p :: rest =>
      if excluded p then scan_helpers excluded preferred first rest
      else if preferred p then Some p
      else scan_helpers excluded preferred (match first with Some q => Some q | None => Some p end) rest
  end.

Definition fanout_helper (cache key requester : list N) (page members : N)
    (excluded preferred : N → bool) : option N :=
  let width := fanout_width members in
  if width =? 0 then None
  else
    let start := fnv [requester; cache; key; to_le_bytes page] mod width in
    scan_helpers excluded preferred None
      ((λ offset, helper_position cache key page members ((start + offset) mod width)) <$> N_range width).

(** ** Lemmas *)

Lemma elem_of_N_range n x : x ∈ N_range n ↔ x < n.
Proof.
  unfold N_range. rewrite list_elem_of_fmap. split.
  - intros (y & -> & Hy). apply elem_of_seq in Hy. lia.
  - intros Hx. exists (N.to_nat x). split; [lia|]. apply elem_of_seq. lia.
Qed.

Lemma scan_helpers_sound excluded preferred first positions p :
  scan_helpers excluded preferred first positions = Some p →
  first = Some p ∨ (p ∈ positions ∧ excluded p = false).
Proof.
  revert first. induction positions as [|q rest IH]; intros first; simpl; [by left|].
  destruct (excluded q) eqn:Ex; [intros [?|[? ?]]%IH; set_solver|].
  destruct (preferred q); [intros [= ->]; right; set_solver|].
  intros [Hf|[? ?]]%IH; [|set_solver].
  destruct first; [by left|]. simplify_eq. right; set_solver.
Qed.

Lemma scan_helpers_None excluded preferred first positions :
  scan_helpers excluded preferred first positions = None →
  first = None ∧ ∀ p, p ∈ positions → excluded p = true.
Proof.
  revert first. induction positions as [|q rest IH]; intros first; simpl; [set_solver|].
  destruct (excluded q) eqn:Ex; [intros [? ?]%IH; set_solver|].
  destruct (preferred q); [done|]. intros [? ?]%IH. by destruct first.
Qed.

(** The offsets visit every helper index: a rotation of [0..width]. *)
Lemma rotation_covers width start j :
  start < width → j < width → ∃ offset, offset < width ∧ (start + offset) mod width = j.
Proof.
  intros Hs Hj. destruct (N.le_gt_cases start j).
  - exists (j - start). split; [lia|]. replace (start + (j - start)) with j by lia.
    by apply N.mod_small.
  - exists (width - start + j). split; [lia|].
    replace (start + (width - start + j)) with (j + 1 * width) by lia.
    rewrite N.Div0.mod_add. by apply N.mod_small.
Qed.

Lemma is_helper_iff cache key page p members :
  is_helper cache key page p members = true ↔
  ∃ j, j < fanout_width members ∧ helper_position cache key page members j = p.
Proof.
  unfold is_helper. rewrite existsb_exists. split.
  - intros (j & Hj & Hp). apply list_elem_of_In, elem_of_N_range in Hj. apply N.eqb_eq in Hp. eauto.
  - intros (j & Hj & <-). exists j. rewrite N.eqb_refl. split; [|done].
    by apply list_elem_of_In, elem_of_N_range.
Qed.

Lemma fanout_width_le members : fanout_width members ≤ members.
Proof. unfold fanout_width. pose proof (N.sqrt_le_lin members). lia. Qed.

(** ** Properties *)

(** The helper a shed reader picks is inside the membership, is one of the
    page's recognised helpers, and is not excluded; and when none is returned
    every helper of the page was excluded. *)
Theorem fanout_helper_sound_and_complete cache key requester page members excluded preferred :
  match fanout_helper cache key requester page members excluded preferred with
  | Some p => p < members ∧ excluded p = false ∧ is_helper cache key page p members = true
  | None => ∀ p, is_helper cache key page p members = true → excluded p = true
  end.
Proof.
  unfold fanout_helper. destruct (N.eqb_spec (fanout_width members) 0) as [Hw|Hw].
  { intros p (j & Hj & _)%is_helper_iff. lia. }
  set (width := fanout_width members) in *. set (start := fnv _ mod width).
  assert (start < width) as Hstart by (apply N.mod_lt; lia).
  destruct (scan_helpers _ _ _ _) as [p|] eqn:E.
  - apply scan_helpers_sound in E as [?|[Hin Hex]]; [done|].
    apply list_elem_of_fmap in Hin as (off & -> & _).
    pose proof (fanout_width_le members). split_and!; [|done|].
    + apply N.mod_lt. subst width. lia.
    + apply is_helper_iff. eexists. split; [|done]. by apply N.mod_lt.
  - apply scan_helpers_None in E as [_ Hall]. intros p (j & Hj & <-)%is_helper_iff.
    apply Hall, list_elem_of_fmap.
    destruct (rotation_covers width start j Hstart Hj) as (off & Hoff & <-).
    exists off. split; [done|]. by apply elem_of_N_range.
Qed.

Section shed_facts.
Context {A : Type} `{EqDecision A}.
Implicit Types (owners : list A) (local requester : A).

(** An owner sheds only as an owner and never another owner; with mesh
    limits a reader of a dominant page is always shed once [threshold] plus
    [HOT_PAGE_EXEMPT_BODIES] bodies stream, and no column mate is shed earlier. *)
Theorem shed_hot_page_mesh_rule owners local requester exempt streaming all th :
  1 ≤ th → th + HOT_PAGE_EXEMPT_BODIES ≤ USIZE_MAX →
  shed_hot_page owners local requester exempt streaming all (mesh_limits th) = true ↔
  th ≤ streaming ∧ all ≤ 2 * streaming ∧
  local ∈ take 3 owners ∧ requester ∉ take 3 owners ∧
  (exempt = true → th + HOT_PAGE_EXEMPT_BODIES ≤ streaming).
Proof.
  intros H1 Hmax. unfold shed_hot_page, mesh_limits, hot_page_exempt_bodies, contains_b, saturating_add.
  cbv beta iota delta [threshold exempt_cap]. rewrite !andb_true_iff, orb_true_iff, !negb_true_iff.
  rewrite bool_decide_eq_true, bool_decide_eq_false, !N.leb_le.
  rewrite N.max_l, N.min_l by lia. destruct exempt; intuition (try lia; try congruence).
Qed.

(** The mesh helper is the delegate of one of the first three owners and is
    never excluded; without a result every such delegate is missing or excluded. *)
Theorem mesh_helper_sound_and_complete owners start helper_of excluded :
  match mesh_helper owners start helper_of excluded with
  | Some h => excluded h = false ∧ ∃ o, o ∈ take 3 owners ∧ helper_of o = Some h
  | None => ∀ o h, o ∈ take 3 owners → helper_of o = Some h → excluded h = true
  end.
Proof.
  unfold mesh_helper. set (s := if decide _ then _ else _).
  assert (∀ x : A, x ∈ drop s (take 3 owners) ++ take s (take 3 owners) ↔ x ∈ take 3 owners) as Hel.
  { intros x. rewrite elem_of_app.
    transitivity (x ∈ take s (take 3 owners) ∨ x ∈ drop s (take 3 owners)); [tauto|].
    by rewrite <-elem_of_app, take_drop. }
  destruct (List.find _ _) as [h|] eqn:E.
  - apply find_some in E as [Hin Hex]. apply negb_true_iff in Hex.
    apply list_elem_of_In, list_elem_of_omap in Hin as (o & Ho & Hh).
    split; [done|]. exists o. by rewrite <-Hel.
  - intros o h Ho Hh. eapply find_none with (x := h) in E; [by apply negb_false_iff in E|].
    apply list_elem_of_In, list_elem_of_omap. exists o. by rewrite Hel.
Qed.
End shed_facts.

(** Below the saturation limit the bodies an owner writes before shedding
    stay within the byte queue, except for the two-body floor. *)
Theorem hot_page_bodies_backlog page :
  page ≠ 0 →
  HOT_PAGE_MIN_BODIES ≤ hot_page_bodies page ∧
  hot_page_bodies page * page ≤ N.max HOT_PAGE_QUEUE_BYTES (HOT_PAGE_MIN_BODIES * page) ∧
  (hot_page_bodies page < U32_MAX → HOT_PAGE_QUEUE_BYTES < (hot_page_bodies page + 1) * page).
Proof.
  intros Hp. unfold hot_page_bodies. rewrite (proj2 (N.eqb_neq _ _) Hp).
  pose proof (N.Div0.mul_div_le HOT_PAGE_QUEUE_BYTES page) as Hle.
  pose proof (N.mul_succ_div_gt HOT_PAGE_QUEUE_BYTES page Hp) as Hgt.
  revert Hle Hgt. generalize (HOT_PAGE_QUEUE_BYTES / page). intros q Hle Hgt.
  unfold HOT_PAGE_MIN_BODIES, U32_MAX in *.
  destruct (N.ltb_spec q 2); [split_and!; nia|].
  destruct (N.ltb_spec 4294967295 q); split_and!; nia.
Qed.

(** ** Witnesses *)

Lemma shed_hot_page_mesh_rule_witness :
  shed_hot_page [0%nat; 1%nat; 2%nat] 0%nat 9%nat true 34 34 (mesh_limits 32) = true.
Proof.
  apply (shed_hot_page_mesh_rule [0%nat; 1%nat; 2%nat] 0%nat 9%nat true 34 34 32); [lia|done|].
  split_and!; [lia|lia|simpl; set_solver|simpl; set_solver|]. intros _. done.
Defined.

Lemma hot_page_bodies_backlog_witness : hot_page_bodies (2 ^ 20) * 2 ^ 20 ≤ HOT_PAGE_QUEUE_BYTES.
Proof.
  change HOT_PAGE_QUEUE_BYTES with (N.max HOT_PAGE_QUEUE_BYTES (HOT_PAGE_MIN_BODIES * 2 ^ 20)).
  apply (hot_page_bodies_backlog (2 ^ 20)). done.
Defined.
