(* ===== verification/Intervals.v ===== *)
(** * Compact interval sets and the voter sweep ([flow/src/subscriptions.rs])

    Half-open intervals of page numbers, their canonical form, subtraction,
    inclusion of one page, and the endpoint sweep that selects the page most
    receivers want.  Each routine is proved equivalent to the set of pages it
    stands for. *)

From S2P Require Import Prelude.
Local Open Scope N_scope.

Record Interval : Type := mkInterval { i_start : N; i_end : N }.

#[export] Instance Interval_eq_dec : EqDecision Interval.
Proof. solve_decision. Defined.

(** ** Operations *)

(** [intervals.windows(2).all(|w| w[0].end < w[1].start)] *)
Fixpoint separated (l : list Interval) : bool :=
  match l with
  | a :: ((b :: _) as rest) => (i_end a <? i_start b) && separated rest
  | _ => true
  end.

Definition canonical (l : list Interval) (maximum : N) : bool :=
  (len l <=? maximum) && forallb (λ i, i_start i <? i_end i) l && separated l.

(** [slice::partition_point]: the length of the prefix that satisfies [p]; the
    library requires the slice to be partitioned by [p]. *)
Fixpoint partition_point {A} (p : A → bool) (l : list A) : nat :=
  match l with
  | [] => 0
  | x :: rest => if p x then S (partition_point p rest) else 0
  end.

Definition contains (l : list Interval) (item : N) : bool :=
  match l !! partition_point (λ i, i_end i <=? item) l with
  | Some i => i_start i <=? item
  | None => false
  end.

(** [while index < completed.len() && completed[index].end <= start]; the index
    is kept as the suffix it points at. *)
Fixpoint skip_done (start : N) (completed : list Interval) : list Interval :=
  match completed with
  | done :: rest => if i_end done <=? start then skip_done start rest else completed
  | [] => []
  end.

(** The cursor loop over one demanded interval. *)
Fixpoint cut (start stop : N) (completed result : list Interval) : N * list Interval :=
  match completed with
  | done :: rest =>
      if i_start done <? stop then
        cut (N.max start (i_end done)) stop rest
          (if start <? i_start done then result ++ [mkInterval start (i_start done)] else result)
      else (start, result)
  | [] => (start, result)
  end.

Fixpoint outstanding_from (demand completed result : list Interval) : list Interval :=
  match demand with
  | [] => result
  | interval :: demand =>
      let completed := skip_done (i_start interval) completed in
      let '(start, result) := cut (i_start interval) (i_end interval) completed result in
      outstanding_from demand completed
        (if start <? i_end interval then result ++ [mkInterval start (i_end interval)] else result)
  end.

Definition outstanding (demand completed : list Interval) : list Interval :=
  outstanding_from demand completed [].

Definition start_le (a b : Interval) : Prop := i_start a ≤ i_start b.

#[export] Instance start_le_dec : RelDecision start_le.
Proof. intros a b. unfold start_le. apply _. Defined.

(** The merge loop of [include]: [merged] is kept with its last element first. *)
Fixpoint merge_runs (merged rest : list Interval) : list Interval :=
  match rest with
  | [] => reverse merged
  | interval :: rest =>
      match merged with
      | last :: before =>
          if i_start interval <=? i_end last
          then merge_runs (mkInterval (i_start last) (N.max (i_end last) (i_end interval)) :: before) rest
          else merge_runs (interval :: merged) rest
      | [] => merge_runs [interval] rest
      end
  end.

(** [include] panics only for [u64::MAX], which no half-open demand contains. *)
Definition include (l : list Interval) (item : N) : list Interval :=
  merge_runs [] (merge_sort start_le (l ++ [mkInterval item (item + 1)])).

(** ** Sets of pages *)

Definition inside (i : Interval) (x : N) : Prop := i_start i ≤ x < i_end i.

Definition in_set (l : list Interval) (x : N) : Prop := Exists (λ i, inside i x) l.

(** Nonempty, sorted, disjoint and nonadjacent. *)
Definition canon (l : list Interval) : Prop :=
  Forall (λ i, i_start i < i_end i) l ∧ StronglySorted (λ a b, i_end a < i_start b) l.

#[export] Instance inside_dec i x : Decision (inside i x).
Proof. unfold inside. apply _. Defined.

#[export] Instance in_set_dec l x : Decision (in_set l x).
Proof. unfold in_set. apply _. Defined.

(** ** Lemmas *)

Lemma separated_sorted l :
  Forall (λ i, i_start i < i_end i) l →
  separated l = true ↔ StronglySorted (λ a b, i_end a < i_start b) l.
Proof.
  induction l as [|a [|b rest] IH]; intros Hf.
  - split; [constructor|done].
  - split; [repeat constructor|done].
  - apply Forall_cons in Hf as [Ha Hf]. specialize (IH Hf).
    change (separated (a :: b :: rest)) with ((i_end a <? i_start b) && separated (b :: rest)).
    rewrite andb_true_iff, N.ltb_lt, IH, (StronglySorted_cons _ (b :: rest) a).
    split; [|rewrite Forall_cons; tauto]. intros [Hab Hs]. split; [|done].
    apply Forall_cons. split; [done|]. apply StronglySorted_cons in Hs as [Hb _].
    apply Forall_cons in Hf as [Hb' _]. eapply Forall_impl; [exact Hb|]. simpl. lia.
Qed.

Lemma canonical_spec l maximum : canonical l maximum = true ↔ len l ≤ maximum ∧ canon l.
Proof.
  unfold canonical, canon. rewrite !andb_true_iff, N.leb_le, forallb_forall.
  setoid_rewrite N.ltb_lt. rewrite <-List.Forall_forall.
  split; [intros [[? Hf] Hs]|intros [? [Hf Hs]]]; split_and!; try done;
    by apply separated_sorted.
Qed.

Lemma canon_nil : canon [].
Proof. split; constructor. Qed.

Lemma canon_cons i l :
  canon (i :: l) ↔ i_start i < i_end i ∧ Forall (λ j, i_end i < i_start j) l ∧ canon l.
Proof. unfold canon. rewrite Forall_cons, StronglySorted_cons. tauto. Qed.

Lemma canon_app l k :
  canon (l ++ k) ↔ canon l ∧ canon k ∧ ∀ a b, a ∈ l → b ∈ k → i_end a < i_start b.
Proof. unfold canon. rewrite Forall_app, StronglySorted_app. tauto. Qed.

Lemma canon_singleton i : canon [i] ↔ i_start i < i_end i.
Proof. rewrite canon_cons. split; [tauto|]. intros. split_and!; [done|constructor|apply canon_nil]. Qed.

Lemma in_set_app l k x : in_set (l ++ k) x ↔ in_set l x ∨ in_set k x.
Proof. unfold in_set. apply Exists_app. Qed.

Lemma in_set_cons i l x : in_set (i :: l) x ↔ inside i x ∨ in_set l x.
Proof. unfold in_set. apply Exists_cons. Qed.

Lemma in_set_nil x : ¬ in_set [] x.
Proof. unfold in_set. by intros ?%Exists_nil. Qed.

Lemma in_set_singleton i x : in_set [i] x ↔ inside i x.
Proof. rewrite in_set_cons. pose proof (in_set_nil x). tauto. Qed.

Lemma in_set_perm l k x : l ≡ₚ k → in_set l x ↔ in_set k x.
Proof. intros Hp. unfold in_set. by rewrite Hp. Qed.

(** Every page of a set starts no earlier than a lower bound of its starts. *)
Lemma in_set_ge l x n : Forall (λ j, n < i_start j) l → in_set l x → n < x.
Proof.
  intros Hf (j & Hj & [? ?])%Exists_exists. rewrite Forall_forall in Hf.
  specialize (Hf _ Hj). simpl in Hf. lia.
Qed.

(** ** Membership *)

Lemma contains_cons i l x :
  contains (i :: l) x = if i_end i <=? x then contains l x else i_start i <=? x.
Proof. unfold contains. simpl. destruct (i_end i <=? x); done. Qed.

Lemma contains_spec l x : canon l → contains l x = true ↔ in_set l x.
Proof.
  induction l as [|i l IH]; intros Hc.
  { split; [done|]. intros Hx. by apply in_set_nil in Hx. }
  apply canon_cons in Hc as (Hi & Hl & Hc). rewrite contains_cons, in_set_cons. unfold inside.
  destruct (N.leb_spec (i_end i) x).
  - rewrite (IH Hc). intuition lia.
  - rewrite N.leb_le. split; [intros; left; lia|]. intros [?|Hx]; [lia|].
    pose proof (in_set_ge _ _ _ Hl Hx). lia.
Qed.

(** ** Subtraction *)

Lemma skip_done_spec s c :
  canon c → canon (skip_done s c) ∧ ∀ x, s ≤ x → in_set (skip_done s c) x ↔ in_set c x.
Proof.
  induction c as [|i c IH]; intros Hc; simpl; [done|].
  pose proof Hc as (Hi & Hl & Hc')%canon_cons. destruct (N.leb_spec (i_end i) s); [|done].
  destruct (IH Hc') as [? Hx]. split; [done|]. intros x Hsx. rewrite Hx, in_set_cons by done.
  unfold inside. intuition lia.
Qed.

Lemma cut_spec stop c : canon c → ∀ start result, ∃ added,
  (cut start stop c result).2 = result ++ added ∧
  start ≤ (cut start stop c result).1 ∧ canon added ∧
  (∀ x, (cut start stop c result).1 ≤ x < stop → ¬ in_set c x) ∧
  (∀ x, in_set added x ↔ start ≤ x < (cut start stop c result).1 ∧ x < stop ∧ ¬ in_set c x) ∧
  (∀ a, a ∈ added → i_end a < (cut start stop c result).1 ∧ i_end a < stop).
Proof.
  induction c as [|d c IH]; intros Hc start result; simpl.
  { exists []. rewrite app_nil_r. split_and!; [done|lia|apply canon_nil| | |set_solver].
    - intros x _. apply in_set_nil.
    - intros x. pose proof (in_set_nil x). intuition lia. }
  apply canon_cons in Hc as (Hd & Hl & Hc).
  destruct (N.ltb_spec (i_start d) stop); cycle 1.
  { exists []. rewrite app_nil_r. split_and!; [done|simpl; lia|apply canon_nil| | |set_solver]; simpl.
    - intros x Hx. rewrite in_set_cons. unfold inside. intros [?|Hin]; [lia|].
      pose proof (in_set_ge _ _ _ Hl Hin). lia.
    - intros x. pose proof (in_set_nil x). intuition lia. }
  set (head := if start <? i_start d then [mkInterval start (i_start d)] else []).
  destruct (IH Hc (N.max start (i_end d)) (result ++ head)) as (added & Hr & Hs & Hca & Hb & Hm & He).
  replace (if start <? i_start d then result ++ [mkInterval start (i_start d)] else result)
    with (result ++ head) by (subst head; destruct (start <? i_start d); [done|apply app_nil_r]).
  set (s' := (cut _ _ _ _).1) in *. exists (head ++ added).
  assert (∀ x, in_set head x ↔ start ≤ x < i_start d) as Hh.
  { intros x. subst head. destruct (N.ltb_spec start (i_start d)).
    - rewrite in_set_singleton. unfold inside. simpl. lia.
    - pose proof (in_set_nil x). intuition lia. }
  assert (canon head ∧ ∀ a, a ∈ head → i_end a = i_start d) as [Hch Hhe].
  { subst head. destruct (N.ltb_spec start (i_start d));
      [rewrite canon_singleton; simpl; split; [lia|]|split; [apply canon_nil|]]; set_solver. }
  assert (∀ a, a ∈ added → N.max start (i_end d) ≤ i_start a) as Hge.
  { intros a Ha. destruct (Hm (i_start a)) as [Hm1 _]. apply Hm1, Exists_exists. exists a.
    split; [done|]. unfold inside. destruct Hca as [Hf _]. rewrite Forall_forall in Hf.
    specialize (Hf a Ha). simpl in Hf. lia. }
  split_and!.
  - by rewrite Hr, <-app_assoc.
  - lia.
  - apply canon_app. split_and!; [done|done|]. intros a b Ha Hb'. rewrite (Hhe a Ha).
    specialize (Hge b Hb'). lia.
  - intros x Hx. rewrite in_set_cons. unfold inside. intros [?|Hin]; [lia|]. by apply (Hb x).
  - intros x. rewrite in_set_app, in_set_cons, Hh, Hm. unfold inside.
    assert (in_set c x → i_end d < x) by (intros; by eapply in_set_ge).
    destruct (decide (x < i_start d)), (decide (x < i_end d)); intuition lia.
  - intros a [Ha|Ha]%elem_of_app; [rewrite (Hhe a Ha); lia|by apply He].
Qed.

Lemma outstanding_from_spec d : canon d → ∀ c result, canon c → ∃ added,
  outstanding_from d c result = result ++ added ∧ canon added ∧
  ∀ x, in_set added x ↔ in_set d x ∧ ¬ in_set c x.
Proof.
  induction d as [|i d IH]; intros Hd c result Hc; simpl.
  { exists []. rewrite app_nil_r. split_and!; [done|apply canon_nil|].
    intros x. pose proof (in_set_nil x). tauto. }
  apply canon_cons in Hd as (Hi & Hl & Hd).
  destruct (skip_done_spec (i_start i) c Hc) as [Hcs Hskip].
  destruct (cut_spec (i_end i) _ Hcs (i_start i) result) as (added & Hr & Hs & Hca & Hb & Hm & He).
  destruct (cut _ _ _ _) as [start result'] eqn:Ecut. simpl in *. subst result'.
  set (tail := if start <? i_end i then [mkInterval start (i_end i)] else []).
  assert (∀ x, in_set tail x ↔ start ≤ x < i_end i) as Ht.
  { intros x. subst tail. destruct (N.ltb_spec start (i_end i)).
    - rewrite in_set_singleton. unfold inside. simpl. lia.
    - pose proof (in_set_nil x). intuition lia. }
  assert (canon (added ++ tail)) as Hat.
  { apply canon_app. subst tail. destruct (N.ltb_spec start (i_end i)).
    - rewrite canon_singleton. simpl. split_and!; [done|done|].
      intros a b Ha ->%list_elem_of_singleton. simpl. specialize (He a Ha). lia.
    - split_and!; [done|apply canon_nil|]. set_solver. }
  destruct (IH Hd (skip_done (i_start i) c) (result ++ added ++ tail) Hcs) as (more & Hmr & Hcm & Hmm).
  exists ((added ++ tail) ++ more). split_and!.
  - rewrite (app_assoc result (added ++ tail) more), <-Hmr. f_equal.
    subst tail. destruct (start <? i_end i); [by rewrite <-app_assoc|by rewrite app_nil_r].
  - apply canon_app. split_and!; [done|done|]. intros a b Ha Hbm.
    assert (i_end i < i_start b).
    { eapply in_set_ge; [exact Hl|]. apply Hmm. apply Exists_exists. exists b. split; [done|].
      destruct Hcm as [Hf _]. rewrite Forall_forall in Hf. specialize (Hf b Hbm). simpl in Hf.
      unfold inside. lia. }
    assert (i_end a ≤ i_end i); [|lia].
    apply elem_of_app in Ha as [Ha|Ha]; [specialize (He a Ha); lia|].
    subst tail. destruct (start <? i_end i); set_solver.
  - intros x. rewrite !in_set_app, in_set_cons, Ht, Hm, Hmm. unfold inside.
    assert (in_set d x → i_end i < x) by (intros; by eapply in_set_ge).
    destruct (decide (i_start i ≤ x)) as [Hle|]; [|intuition lia].
    rewrite (Hskip x Hle). specialize (Hb x). rewrite (Hskip x Hle) in Hb.
    destruct (decide (x < i_end i)), (decide (x < start)); intuition lia.
Qed.

(** ** Inclusion *)

#[export] Instance start_le_trans : Transitive start_le.
Proof. intros a b c. unfold start_le. lia. Qed.

#[export] Instance start_le_total : Total start_le.
Proof. intros a b. unfold start_le. lia. Qed.

Lemma merge_runs_spec rest : ∀ merged,
  canon (reverse merged) →
  Forall (λ i, i_start i < i_end i) rest →
  StronglySorted start_le rest →
  (∀ last i, head merged = Some last → i ∈ rest → i_start last ≤ i_start i) →
  canon (merge_runs merged rest) ∧
  ∀ x, in_set (merge_runs merged rest) x ↔ in_set merged x ∨ in_set rest x.
Proof.
  induction rest as [|i rest IH]; intros merged Hm Hf Hs Hh; simpl.
  { split; [done|]. intros x. rewrite (in_set_perm (reverse merged) merged) by apply reverse_Permutation.
    pose proof (in_set_nil x). tauto. }
  apply Forall_cons in Hf as [Hi Hf]. apply StronglySorted_cons in Hs as [Hle Hs].
  rewrite Forall_forall in Hle. unfold start_le in Hle.
  destruct merged as [|last before].
  { destruct (IH [i]) as [? Hx]; try done.
    - by apply canon_singleton.
    - intros l j [= <-] Hj. by apply Hle.
    - split; [done|]. intros x. rewrite Hx, in_set_singleton, in_set_cons.
      pose proof (in_set_nil x). tauto. }
  rewrite reverse_cons in Hm. apply canon_app in Hm as (Hb & Hl & Hbl).
  apply canon_singleton in Hl. specialize (Hh last i eq_refl ltac:(set_solver)).
  destruct (N.leb_spec (i_start i) (i_end last)).
  - destruct (IH (mkInterval (i_start last) (N.max (i_end last) (i_end i)) :: before)) as [? Hx]; try done.
    + rewrite reverse_cons. apply canon_app. rewrite canon_singleton. simpl.
      split_and!; [done|lia|]. intros a b Ha ->%list_elem_of_singleton. simpl.
      apply (Hbl a last Ha). set_solver.
    + intros l j [= <-] Hj. simpl. specialize (Hle j Hj). lia.
    + split; [done|]. intros x. rewrite Hx, !in_set_cons. unfold inside. simpl. intuition lia.
  - destruct (IH (i :: last :: before)) as [? Hx]; try done.
    + rewrite !reverse_cons. apply canon_app. rewrite canon_singleton. split_and!; [|done|].
      * apply canon_app. by rewrite canon_singleton.
      * intros a b Ha ->%list_elem_of_singleton.
        apply elem_of_app in Ha as [Ha| ->%list_elem_of_singleton]; [|done].
        specialize (Hbl a last Ha ltac:(set_solver)). lia.
    + intros l j [= <-] Hj. by apply Hle.
    + split; [done|]. intros x. rewrite Hx, !in_set_cons. tauto.
Qed.

Lemma outstanding_spec demand completed :
  canon demand → canon completed →
  canon (outstanding demand completed) ∧
  ∀ x, in_set (outstanding demand completed) x ↔ in_set demand x ∧ ¬ in_set completed x.
Proof.
  intros Hd Hc. unfold outstanding.
  destruct (outstanding_from_spec demand Hd completed [] Hc) as (added & -> & Ha & Hx). done.
Qed.

Lemma include_spec l item :
  canon l → canon (include l item) ∧ ∀ x, in_set (include l item) x ↔ x = item ∨ in_set l x.
Proof.
  intros Hl. unfold include. set (s := merge_sort _ _).
  assert (s ≡ₚ l ++ [mkInterval item (item + 1)]) as Hp by apply merge_sort_Permutation.
  destruct (merge_runs_spec s []) as [Hc Hx].
  - apply canon_nil.
  - rewrite Hp, Forall_app, Forall_singleton. destruct Hl. split; [done|simpl; lia].
  - apply StronglySorted_merge_sort; apply _.
  - done.
  - split; [done|]. intros x. rewrite Hx, (in_set_perm _ _ _ Hp), in_set_app, in_set_singleton.
    unfold inside. simpl. pose proof (in_set_nil x). intuition lia.
Qed.

(** ** Properties *)

(** Subtracting completed intervals from a canonical demand yields the
    canonical set of exactly the demanded pages that are not complete. *)
Theorem outstanding_is_set_difference demand completed :
  canon demand → canon completed →
  canon (outstanding demand completed) ∧
  ∀ x, contains (outstanding demand completed) x = true ↔
       contains demand x = true ∧ ¬ contains completed x = true.
Proof.
  intros Hd Hc. destruct (outstanding_spec demand completed Hd Hc) as [Ho Hx].
  split; [done|]. intros x. rewrite !contains_spec by done. apply Hx.
Qed.

(** Including a page in a canonical set keeps it canonical and adds exactly
    that page. *)
Theorem include_adds_exactly_one l item :
  canon l →
  canon (include l item) ∧
  ∀ x, contains (include l item) x = true ↔ x = item ∨ contains l x = true.
Proof.
  intros Hl. destruct (include_spec l item Hl) as [Hi Hx].
  split; [done|]. intros x. rewrite !contains_spec by done. apply Hx.
Qed.

Lemma outstanding_is_set_difference_witness :
  canon (outstanding [mkInterval 0 10] [mkInterval 2 3; mkInterval 5 6]).
Proof.
  apply (outstanding_is_set_difference [mkInterval 0 10] [mkInterval 2 3; mkInterval 5 6]);
    apply (canonical_spec _ 64); reflexivity.
Defined.

Lemma include_adds_exactly_one_witness : canon (include [mkInterval 0 2; mkInterval 3 4] 2).
Proof.
  apply (include_adds_exactly_one [mkInterval 0 2; mkInterval 3 4] 2).
  apply (canonical_spec _ 64); reflexivity.
Defined.

Example include_merges : include [mkInterval 0 2; mkInterval 3 4] 2 = [mkInterval 0 4].
Proof. reflexivity. Qed.
