(* ===== verification/Sweep.v ===== *)
(** * The voter sweep ([select] of [flow/src/subscriptions.rs])

    Selection sweeps interval endpoints and counts distinct voters.  The
    theorems show that it finds the page of the target's demand that most
    receivers want, without expanding any interval into pages. *)

From S2P Require Import Prelude Intervals.
Local Open Scope N_scope.

Section sweep.
Context {K : Type} `{Countable K}.

(** An endpoint of one receiver's interval. *)
Record SweepEvent : Type := mkEvent {
  e_point : N;
  e_receiver : K;
  e_target : bool;
  e_start : bool
}.

(** One receiver's vote: identity, whether it is the target, outstanding intervals. *)
Definition Vote : Type := K * bool * list Interval.

Definition interval_events (k : K) (target : bool) (i : Interval) : list SweepEvent :=
  [mkEvent (i_start i) k target true; mkEvent (i_end i) k target false].

Definition vote_events (v : Vote) : list SweepEvent :=
  mjoin (interval_events v.1.1 v.1.2 <$> v.2).

Definition events_of (demands : list Vote) : list SweepEvent := mjoin (vote_events <$> demands).

Definition point_le (a b : SweepEvent) : Prop := e_point a ≤ e_point b.

#[export] Instance point_le_dec : RelDecision point_le.
Proof. intros a b. unfold point_le. apply _. Defined.

(** Receiver counts: [entry().or_default() += 1], or decrement and remove at zero. *)
Definition bump (receivers : gmap K nat) (e : SweepEvent) : gmap K nat :=
  if e_start e
  then <[e_receiver e := S (default 0%nat (receivers !! e_receiver e))]> receivers
  else match receivers !! e_receiver e with
       | Some count =>
           if decide (count - 1 = 0)%nat then delete (e_receiver e) receivers
           else <[e_receiver e := (count - 1)%nat]> receivers
       | None => receivers
       end.

(** The two nested loops: all events of one point are applied, then the point is
    considered. *)
Fixpoint sweep (eligible : N → option bool) (events : list SweepEvent) (receivers : gmap K nat)
    (active : bool) (best : option N) (score : nat) : result (option N) N :=
  match events with
  | [] => Ok best
  | e :: rest =>
      let point := e_point e in
      let receivers := bump receivers e in
      let active := if e_target e then e_start e else active in
      if match rest with e' :: _ => e_point e' =? point | [] => false end
      then sweep eligible rest receivers active best score
      else if active && (score <? size receivers)%nat
      then match eligible point with
           | None => Err point
           | Some true => sweep eligible rest receivers active (Some point) (size receivers)
           | Some false => sweep eligible rest receivers active best score
           end
      else sweep eligible rest receivers active best score
  end.

Definition select (demands : list Vote) (eligible : N → option bool) : result (option N) N :=
  sweep eligible (merge_sort point_le (events_of demands)) ∅ false None 0.

(** ** Specification *)

Definition voters (demands : list Vote) (x : N) : gset K :=
  list_to_set ((λ v : Vote, v.1.1) <$> filter (λ v, in_set v.2 x) demands).

Definition votes (demands : list Vote) (x : N) : nat := size (voters demands x).

(** The target wants page [x]. *)
Definition wanted (demands : list Vote) (x : N) : Prop :=
  ∃ v, v ∈ demands ∧ v.1.2 = true ∧ in_set v.2 x.

Definition endpoint (demands : list Vote) (x : N) : Prop :=
  ∃ e, e ∈ events_of demands ∧ e_point e = x.

(** Exactly one vote is the target's and every vote is a canonical set. *)
Definition votes_wf (demands : list Vote) : Prop :=
  (∃ pre v post, demands = pre ++ v :: post ∧ v.1.2 = true ∧
                 Forall (λ w : Vote, w.1.2 = false) (pre ++ post)) ∧
  Forall (λ v : Vote, canon v.2) demands.

(** ** Counting *)

Definition nb (f : SweepEvent → bool) (l : list SweepEvent) : nat :=
  foldr (λ e n, (if f e then 1 else 0) + n)%nat 0%nat l.

Lemma nb_app f l k : nb f (l ++ k) = (nb f l + nb f k)%nat.
Proof. induction l as [|e l IH]; simpl; [done|]. rewrite IH. lia. Qed.

Lemma nb_perm f l k : l ≡ₚ k → nb f l = nb f k.
Proof. induction 1; simpl; lia. Qed.

Lemma nb_le f g l : (∀ e, e ∈ l → f e = true → g e = true) → (nb f l ≤ nb g l)%nat.
Proof.
  induction l as [|e l IH]; intros Hi; simpl; [done|].
  assert (nb f l ≤ nb g l)%nat by (apply IH; set_solver).
  specialize (Hi e ltac:(set_solver)). destruct (f e), (g e); try lia; by discriminate Hi.
Qed.

Lemma nb_ext f g l : (∀ e, e ∈ l → f e = g e) → nb f l = nb g l.
Proof. intros Hi. apply Nat.le_antisymm; apply nb_le; intros e He; rewrite (Hi e He); done. Qed.

Lemma nb_zero f l : (∀ e, e ∈ l → f e = false) → nb f l = 0%nat.
Proof.
  induction l as [|e l IH]; intros Hi; simpl; [done|].
  rewrite (Hi e) by set_solver. rewrite IH; set_solver.
Qed.

Definition starts (k : K) (e : SweepEvent) : bool := bool_decide (e_receiver e = k) && e_start e.
Definition ends (k : K) (e : SweepEvent) : bool := bool_decide (e_receiver e = k) && negb (e_start e).

(** The same, restricted to points at most [x] (or below it). *)
Definition starts_to (k : K) (x : N) (e : SweepEvent) : bool := starts k e && (e_point e <=? x).
Definition starts_below (k : K) (x : N) (e : SweepEvent) : bool := starts k e && (e_point e <? x).
Definition ends_to (k : K) (x : N) (e : SweepEvent) : bool := ends k e && (e_point e <=? x).

Lemma starts_mk k p k' t s : starts k (mkEvent p k' t s) = bool_decide (k' = k) && s.
Proof. done. Qed.
Lemma ends_mk k p k' t s : ends k (mkEvent p k' t s) = bool_decide (k' = k) && negb s.
Proof. done. Qed.
Lemma starts_to_mk k x p k' t s :
  starts_to k x (mkEvent p k' t s) = bool_decide (k' = k) && s && (p <=? x).
Proof. done. Qed.
Lemma starts_below_mk k x p k' t s :
  starts_below k x (mkEvent p k' t s) = bool_decide (k' = k) && s && (p <? x).
Proof. done. Qed.
Lemma ends_to_mk k x p k' t s :
  ends_to k x (mkEvent p k' t s) = bool_decide (k' = k) && negb s && (p <=? x).
Proof. done. Qed.

(** Intervals of [k] containing [x]. *)
Definition open_count (demands : list Vote) (k : K) (x : N) : nat :=
  foldr (λ v n, (if bool_decide (v.1.1 = k) then length (filter (λ i, inside i x) v.2) else 0) + n)%nat
    0%nat demands.

Lemma vote_events_counts v k x :
  Forall (λ i, i_start i < i_end i) v.2 →
  (nb (starts_to k x) (vote_events v) =
   nb (ends_to k x) (vote_events v) +
   (if bool_decide (v.1.1 = k) then length (filter (λ i, inside i x) v.2) else 0))%nat ∧
  (nb (ends_to k x) (vote_events v) ≤
   nb (starts_below k x) (vote_events v))%nat.
Proof.
  destruct v as [[k' t] l]. unfold vote_events. simpl. intros Hf.
  induction l as [|i l IH]; csimpl; [by case_bool_decide|].
  apply Forall_cons in Hf as [Hi Hf]. destruct (IH Hf) as [IH1 IH2].
  rewrite !starts_to_mk, !starts_below_mk, !ends_to_mk.
  case_bool_decide as Hk; csimpl in *; [|split; lia].
  rewrite filter_cons. case_decide as Hin; unfold inside in Hin;
  destruct (N.leb_spec (i_start i) x), (N.leb_spec (i_end i) x), (N.ltb_spec (i_start i) x);
    csimpl; split; lia.
Qed.

Lemma events_of_counts demands k x :
  Forall (λ v : Vote, canon v.2) demands →
  (nb (starts_to k x) (events_of demands) =
   nb (ends_to k x) (events_of demands) + open_count demands k x)%nat ∧
  (nb (ends_to k x) (events_of demands) ≤
   nb (starts_below k x) (events_of demands))%nat.
Proof.
  unfold events_of. induction demands as [|v demands IH]; csimpl; intros Hf; [done|].
  apply Forall_cons in Hf as [Hv Hf]. destruct (IH Hf) as [? ?].
  destruct (vote_events_counts v k x) as [? ?]; [apply Hv|]. rewrite !nb_app. lia.
Qed.

Lemma open_count_pos demands k x :
  open_count demands k x ≠ 0%nat ↔ k ∈ voters demands x.
Proof.
  unfold voters. rewrite elem_of_list_to_set, list_elem_of_fmap.
  setoid_rewrite list_elem_of_filter.
  induction demands as [|v demands IH]; simpl; [set_solver|].
  setoid_rewrite elem_of_cons. case_bool_decide as Hk.
  - destruct (decide (in_set v.2 x)) as [Hin|Hin].
    + split; [naive_solver|]. intros _. apply Exists_exists in Hin as (i & Hi & Hix).
      enough (length (filter (λ i, inside i x) v.2) ≠ 0%nat) by lia.
      intros E. apply nil_length_inv in E.
      assert (i ∈ filter (λ i, inside i x) v.2) as Hf by by apply list_elem_of_filter.
      rewrite E in Hf. set_solver.
    + replace (length (filter (λ i, inside i x) v.2)) with 0%nat; [naive_solver|].
      destruct (filter _ v.2) as [|i l] eqn:E; [done|]. exfalso. apply Hin, Exists_exists.
      assert (i ∈ filter (λ i, inside i x) v.2) as [? ?]%list_elem_of_filter
        by (rewrite E; set_solver). eauto.
  - rewrite IH. naive_solver.
Qed.

(** ** The target's activity flag *)

Definition last_target (P : list SweepEvent) : bool :=
  foldl (λ a e, if e_target e then e_start e else a) false P.

Definition target_events (P : list SweepEvent) : list SweepEvent := filter (λ e, e_target e = true) P.

Lemma last_target_filter_aux P a :
  foldl (λ a e, if e_target e then e_start e else a) a P =
  foldl (λ _ e, e_start e) a (target_events P).
Proof.
  revert a. induction P as [|e P IH]; intros a; simpl; [done|]. unfold target_events.
  rewrite filter_cons. destruct (e_target e) eqn:E; simpl; rewrite ?E; apply IH.
Qed.

Lemma last_target_filter P : last_target P = foldl (λ _ e, e_start e) false (target_events P).
Proof. apply last_target_filter_aux. Qed.

Definition point_lt (a b : SweepEvent) : Prop := e_point a < e_point b.

(** A canonical target's endpoints are strictly increasing, so their sorted order is unique. *)
Lemma interval_events_sorted k l :
  canon l →
  StronglySorted point_lt (mjoin (interval_events k true <$> l)) ∧
  ∀ b, Forall (λ i, b < i_start i) l →
       Forall (λ e, b < e_point e) (mjoin (interval_events k true <$> l)).
Proof.
  induction l as [|i l IH]; simpl; intros Hc; [by repeat constructor|].
  apply canon_cons in Hc as (Hi & Hs & Hc). destruct (IH Hc) as [IH1 IH2].
  specialize (IH2 _ Hs). split.
  - apply StronglySorted_cons; split; [|by apply StronglySorted_cons].
    apply Forall_cons; split; [done|]. eapply Forall_impl; [exact IH2|]. unfold point_lt. simpl. lia.
  - intros b [Hb _]%Forall_cons. do 2 (apply Forall_cons; split; simpl; [lia|]).
    eapply Forall_impl; [exact IH2|]. simpl. lia.
Qed.

Lemma sorted_perm_unique (l k : list SweepEvent) :
  StronglySorted point_lt l → StronglySorted point_le k → l ≡ₚ k → k = l.
Proof.
  revert k. induction l as [|x l IH]; intros k Hl Hk Hp; [by apply Permutation_nil_l in Hp|].
  inversion_clear Hl as [|? ? Hl' Hx]. destruct k as [|y k]; [by apply Permutation_nil_r in Hp|].
  inversion_clear Hk as [|? ? Hk' Hy].
  assert (x = y) as ->.
  { assert (y ∈ x :: l) as Hyx by (rewrite Hp; set_solver).
    assert (x ∈ y :: k) as Hxy by (rewrite <- Hp; set_solver).
    apply elem_of_cons in Hyx as [->|Hyx]; [done|]. apply elem_of_cons in Hxy as [->|Hxy]; [done|].
    rewrite Forall_forall in Hx, Hy. specialize (Hx y Hyx). specialize (Hy x Hxy).
    unfold point_lt, point_le in *. lia. }
  f_equal. apply IH; [done|done|]. by apply Permutation_cons_inv in Hp.
Qed.

Lemma target_events_sorted l : StronglySorted point_le l → StronglySorted point_le (target_events l).
Proof.
  unfold target_events. induction 1 as [|e l Hl IH He]; [constructor|]. rewrite filter_cons.
  case_decide; [|done]. apply StronglySorted_cons. split; [|done].
  rewrite Forall_forall in *. intros e' [_ ?]%list_elem_of_filter. auto.
Qed.

Lemma target_events_vote v :
  target_events (vote_events v) = if v.1.2 then vote_events v else [].
Proof.
  destruct v as [[k t] l]. unfold target_events, vote_events. simpl.
  induction l as [|i l IH]; csimpl; [by destruct t|]. rewrite !filter_cons. simpl.
  destruct t; simpl; by rewrite IH.
Qed.

Lemma target_events_others demands :
  Forall (λ w : Vote, w.1.2 = false) demands → target_events (events_of demands) = [].
Proof.
  unfold events_of. induction 1 as [|v demands Hv _ IH]; [done|]. csimpl.
  unfold target_events in *. rewrite filter_app, IH, app_nil_r.
  pose proof (target_events_vote v) as E. unfold target_events in E. by rewrite E, Hv.
Qed.

Lemma target_events_of pre k l post :
  Forall (λ w : Vote, w.1.2 = false) (pre ++ post) →
  target_events (events_of (pre ++ (k, true, l) :: post)) = mjoin (interval_events k true <$> l).
Proof.
  intros [Hpre Hpost]%Forall_app. unfold events_of. rewrite fmap_app, join_app. csimpl.
  pose proof (target_events_others _ Hpre) as E1. pose proof (target_events_others _ Hpost) as E2.
  pose proof (target_events_vote (k, true, l)) as E3. unfold target_events, events_of in *.
  by rewrite !filter_app, E1, E2, E3, app_nil_r.
Qed.

(** Cutting a canonical target's endpoints at [q] leaves a start last exactly when
    [q] is demanded. *)
Lemma last_start_iff k l q P R a :
  canon l → mjoin (interval_events k true <$> l) = P ++ R →
  Forall (λ e, e_point e ≤ q) P → Forall (λ e, q < e_point e) R →
  foldl (λ _ e, e_start e) a P = true ↔ (P = [] ∧ a = true) ∨ in_set l q.
Proof.
  revert P a. induction l as [|i l IH]; intros P a Hc E HP HR; simpl in E.
  - symmetry in E. apply app_eq_nil in E as [-> ->]. simpl. pose proof (in_set_nil q). tauto.
  - apply canon_cons in Hc as (Hi & Hs & Hc). rewrite in_set_cons. unfold inside.
    assert (∀ x, in_set l x → i_end i < x) as Hbig.
    { intros x Hx. apply Exists_exists in Hx as (j & Hj & Hjx).
      rewrite Forall_forall in Hs. specialize (Hs j Hj). unfold inside in Hjx. lia. }
    destruct P as [|e1 P]; simpl in E.
    { subst R. apply Forall_cons in HR as [HR _]. simpl in HR. simpl.
      split; [tauto|]. intros [?|[?|?%Hbig]]; try tauto; lia. }
    injection E as <- E. apply Forall_cons in HP as [HP1 HP]. simpl in HP1. simpl.
    destruct P as [|e2 P]; simpl in E.
    { subst R. apply Forall_cons in HR as [HR _]. simpl in HR. simpl. split; [|done].
      intros _. right. left. lia. }
    injection E as <- E. apply Forall_cons in HP as [HP2 HP]. simpl in HP2. simpl.
    rewrite (IH P false Hc E HP HR). split; [naive_solver|].
    intros [[? ?]|[?|?]]; [done|lia|tauto].
Qed.

(** ** The sweep invariant *)

(** [m] holds the positive balances of the processed prefix [P]. *)
Definition counted (P : list SweepEvent) (m : gmap K nat) : Prop :=
  ∀ k, (nb (ends k) P ≤ nb (starts k) P)%nat ∧
       m !! k = let n := (nb (starts k) P - nb (ends k) P)%nat in
                if decide (n = 0%nat) then None else Some n.

Lemma counted_bump P m e :
  counted P m →
  (e_start e = false → nb (ends (e_receiver e)) P < nb (starts (e_receiver e)) P)%nat →
  counted (P ++ [e]) (bump m e).
Proof.
  intros Hm He k. destruct e as [p r t b]. simpl in He. unfold bump. simpl.
  rewrite !nb_app. simpl. rewrite starts_mk, ends_mk.
  specialize (Hm k) as [Hle Hm]. destruct (decide (r = k)) as [->|Hk].
  - rewrite bool_decide_true by done. rewrite Hm. destruct b; simpl.
    + split; [lia|]. rewrite lookup_insert_eq. repeat case_decide; simpl; f_equal; lia.
    + specialize (He eq_refl). split; [lia|].
      repeat case_decide; rewrite ?lookup_delete_eq, ?lookup_insert_eq; try lia; f_equal; lia.
  - rewrite bool_decide_false by done. simpl. split; [lia|].
    assert (∀ v, <[r := v]> m !! k = m !! k) as Hi by (intros; by rewrite lookup_insert_ne).
    assert (delete r m !! k = m !! k) as Hd by by rewrite lookup_delete_ne.
    transitivity (m !! k); [|rewrite Hm; simpl; repeat case_decide; f_equal; lia].
    destruct b, (m !! r); simpl; try case_decide; auto.
Qed.

Section run.
Variables (demands : list Vote) (eligible : N → option bool) (S : list SweepEvent).
Hypothesis wf : votes_wf demands.
Hypothesis S_sorted : StronglySorted point_le S.
Hypothesis S_perm : S ≡ₚ events_of demands.

Lemma sorted_split P e R :
  S = P ++ e :: R → Forall (λ e', e_point e' ≤ e_point e) P ∧ Forall (λ e', e_point e ≤ e_point e') R.
Proof.
  intros E. rewrite E in S_sorted. apply StronglySorted_app in S_sorted as (HPR & HP & HR).
  apply StronglySorted_cons in HR as [HR _].
  split; [|done]. apply Forall_forall. intros e' He'. unfold point_le in *. apply HPR; set_solver.
Qed.

Lemma end_after_start P e R :
  S = P ++ e :: R → e_start e = false →
  (nb (ends (e_receiver e)) P < nb (starts (e_receiver e)) P)%nat.
Proof.
  intros E Hs. destruct (sorted_split P e R E) as [HP HR]. rewrite Forall_forall in HP, HR.
  set (k := e_receiver e). set (x := e_point e).
  destruct (events_of_counts demands k x) as [_ Hle]; [apply wf|].
  rewrite <- !(nb_perm _ _ _ S_perm), E, !nb_app in Hle. simpl in Hle.
  replace (ends_to k x e) with true in Hle.
  2:{ unfold ends_to, ends, k, x. rewrite bool_decide_true, Hs by done. simpl. symmetry. by apply N.leb_le. }
  replace (starts_below k x e) with false in Hle
    by (unfold starts_below, starts; rewrite Hs; by rewrite andb_false_r).
  rewrite (nb_zero (starts_below k x) R) in Hle.
  2:{ intros e' He'. specialize (HR e' He'). unfold starts_below.
      replace (e_point e' <? x) with false by (symmetry; apply N.ltb_ge; done). apply andb_false_r. }
  rewrite (nb_ext (ends_to k x) (ends k) P) in Hle.
  2:{ intros e' He'. specialize (HP e' He'). unfold ends_to.
      replace (e_point e' <=? x) with true by (symmetry; by apply N.leb_le). apply andb_true_r. }
  assert (nb (starts_below k x) P ≤ nb (starts k) P)%nat; [|lia].
  apply nb_le. intros e' _ [? _]%andb_prop. done.
Qed.

(** Between two groups of events the counts are the votes at the last point. *)
Lemma counted_voters P R q m :
  S = P ++ R → Forall (λ e, e_point e ≤ q) P → Forall (λ e, q < e_point e) R →
  counted P m → dom m = voters demands q.
Proof.
  intros E HP HR Hm. rewrite Forall_forall in HP, HR. apply set_eq. intros k.
  rewrite <- open_count_pos, elem_of_dom.
  destruct (events_of_counts demands k q) as [Heq _]; [apply wf|].
  rewrite <- !(nb_perm _ _ _ S_perm), E, !nb_app in Heq.
  assert (∀ f : SweepEvent → bool, nb (λ e, f e && (e_point e <=? q)) R = 0%nat) as Hz.
  { intros f. apply nb_zero. intros e He. specialize (HR e He).
    rewrite (proj2 (N.leb_gt _ _)) by done. apply andb_false_r. }
  assert (∀ f : SweepEvent → bool, nb (λ e, f e && (e_point e <=? q)) P = nb f P) as Hall.
  { intros f. apply nb_ext. intros e He. specialize (HP e He).
    rewrite (proj2 (N.leb_le _ _)) by done. apply andb_true_r. }
  unfold starts_to, ends_to in Heq. rewrite !Hz, !Hall in Heq.
  destruct (Hm k) as [Hle ->]. simpl. case_decide; split; intros Hx;
    [by apply is_Some_None in Hx|lia|lia|eauto].
Qed.

Lemma last_target_wanted P R q :
  S = P ++ R → Forall (λ e, e_point e ≤ q) P → Forall (λ e, q < e_point e) R →
  last_target P = true ↔ wanted demands q.
Proof.
  intros E HP HR. destruct wf as [(pre & [[k t] l] & post & Ed & Ht & Hno) Hc]. simpl in Ht. subst t.
  assert (canon l) as Hl. { rewrite Ed in Hc. apply Forall_app in Hc as [_ Hc]. by apply Forall_cons in Hc as [? _]. }
  assert (wanted demands q ↔ in_set l q) as ->.
  { split; [|intros; exists (k, true, l); rewrite Ed; set_solver].
    intros (v & Hv & Hvt & Hq). rewrite Ed, elem_of_app, elem_of_cons in Hv. rewrite Forall_forall in Hno.
    destruct Hv as [Hv|[->|Hv]]; [|done|]; specialize (Hno v ltac:(set_solver)); congruence. }
  assert (target_events S = mjoin (interval_events k true <$> l)) as ET.
  { apply sorted_perm_unique; [by apply interval_events_sorted|by apply target_events_sorted|].
    rewrite <- (target_events_of pre k l post Hno). unfold target_events. rewrite S_perm.
    by subst demands. }
  rewrite E in ET. unfold target_events in ET. rewrite filter_app in ET. symmetry in ET.
  rewrite last_target_filter.
  rewrite (last_start_iff k l q _ _ false Hl ET); [naive_solver| |];
    rewrite Forall_forall in *; intros e [_ ?]%list_elem_of_filter; auto.
Qed.

(** Points whose whole group of events has been applied once only [R] is left. *)
Definition completed (R : list SweepEvent) (x : N) : Prop :=
  endpoint demands x ∧ Forall (λ e, x < e_point e) R.

(** What [best] and [score] mean over the completed points. *)
Definition best_of (seen : N → Prop) (best : option N) : Prop :=
  match best with
  | None => ∀ x, seen x → wanted demands x → eligible x = Some false
  | Some p =>
      seen p ∧ wanted demands p ∧ eligible p = Some true ∧
      ∀ x, seen x → wanted demands x → eligible x ≠ Some false →
           (votes demands x ≤ votes demands p)%nat ∧
           (x < p → (votes demands x < votes demands p)%nat)
  end.

Definition score_of (best : option N) : nat := from_option (votes demands) 0%nat best.

Definition outcome_ok (r : result (option N) N) : Prop :=
  match r with
  | Ok best => best_of (endpoint demands) best
  | Err q => endpoint demands q ∧ wanted demands q ∧ eligible q = None
  end.

Lemma best_of_iff f g best : (∀ x, f x ↔ g x) → best_of f best → best_of g best.
Proof. intros Hi. destruct best; simpl; naive_solver. Qed.

Lemma wanted_votes x : wanted demands x → (0 < votes demands x)%nat.
Proof.
  intros (v & Hv & _ & Hx). unfold votes.
  assert (v.1.1 ∈ voters demands x) as Hin.
  { unfold voters. rewrite elem_of_list_to_set, list_elem_of_fmap. exists v.
    by rewrite list_elem_of_filter. }
  destruct (decide (size (voters demands x) = 0%nat)) as [E|]; [|lia].
  apply size_empty_inv in E. set_solver.
Qed.

Lemma completed_group P e R :
  S = P ++ e :: R → Forall (λ e', e_point e < e_point e') R →
  ∀ x, completed R x ↔ completed (e :: R) x ∨ x = e_point e.
Proof.
  intros E HR x. destruct (sorted_split _ _ _ E) as [HP _]. unfold completed.
  rewrite Forall_cons. split.
  - intros [Hx Hall]. pose proof Hx as (e' & He' & <-).
    rewrite <- S_perm, E, elem_of_app, elem_of_cons in He'. rewrite Forall_forall in HP, Hall.
    destruct He' as [He'|[->|He']]; [|by right|specialize (Hall e' He'); lia].
    specialize (HP e' He'). destruct (decide (e_point e' = e_point e)); [by right|left].
    split; [done|]. split; [lia|by apply Forall_forall].
  - intros [?| ->]; [tauto|]. split; [|done]. exists e. split; [|done].
    rewrite <- S_perm, E. set_solver.
Qed.

Lemma best_of_skip (f : N → Prop) best p :
  best_of f best → (∀ x, f x → x < p) →
  (wanted demands p → eligible p ≠ Some false → (votes demands p ≤ score_of best)%nat) →
  best_of (λ x, f x ∨ x = p) best.
Proof.
  intros Hb Hlt Hp. destruct best as [b|]; simpl in *.
  - destruct Hb as (Hfb & Hw & He & Hb). split_and!; [tauto|done..|].
    intros x [Hx| ->] Hwx Hex; [by apply Hb|]. split; [by apply Hp|]. specialize (Hlt b Hfb). lia.
  - intros x [Hx| ->] Hw; [by apply Hb|]. pose proof (wanted_votes _ Hw).
    destruct (eligible p) as [[]|]; [..|]; try done; specialize (Hp Hw ltac:(done)); lia.
Qed.

Lemma best_of_take (f : N → Prop) best p :
  best_of f best → wanted demands p → eligible p = Some true →
  (score_of best < votes demands p)%nat → best_of (λ x, f x ∨ x = p) (Some p).
Proof.
  intros Hb Hw He Hlt. simpl. split_and!; [tauto|done..|].
  intros x [Hx| ->] Hwx Hex; [|split; lia]. destruct best as [b|]; simpl in *.
  - destruct Hb as (_ & _ & _ & Hb). destruct (Hb x Hx Hwx Hex). lia.
  - by specialize (Hb x Hx Hwx).
Qed.

Lemma head_group P e R :
  S = P ++ e :: R →
  (if match R with e' :: _ => e_point e' =? e_point e | [] => false end
   then ∀ x, completed (e :: R) x ↔ completed R x
   else Forall (λ e', e_point e < e_point e') R).
Proof.
  intros E. destruct (sorted_split _ _ _ E) as [_ HR]. destruct R as [|e' R]; [done|].
  destruct (N.eqb_spec (e_point e') (e_point e)) as [Heq|Hne].
  - intros x. unfold completed. rewrite !Forall_cons, Heq. tauto.
  - assert (S = (P ++ [e]) ++ e' :: R) as E' by by rewrite <- app_assoc.
    destruct (sorted_split _ _ _ E') as [_ HR']. apply Forall_cons in HR as [He _].
    apply Forall_cons. split; [lia|]. eapply Forall_impl; [exact HR'|]. simpl. lia.
Qed.

Lemma sweep_ok R P m best :
  S = P ++ R → counted P m → best_of (completed R) best →
  outcome_ok (sweep eligible R m (last_target P) best (score_of best)).
Proof.
  revert P m best. induction R as [|e R IH]; intros P m best E Hm Hb; cbn [sweep].
  { eapply best_of_iff; [|exact Hb]. unfold completed. intros x. rewrite Forall_nil. tauto. }
  assert (S = (P ++ [e]) ++ R) as E' by by rewrite <- app_assoc.
  assert (counted (P ++ [e]) (bump m e)) as Hm'.
  { apply counted_bump; [done|]. by apply (end_after_start P e R). }
  replace (if e_target e then e_start e else last_target P) with (last_target (P ++ [e]))
    by (unfold last_target; by rewrite foldl_app).
  pose proof (head_group _ _ _ E) as Hg.
  destruct (match R with e' :: _ => _ | [] => _ end).
  { apply IH; [done..|]. by eapply best_of_iff. }
  pose proof (completed_group _ _ _ E Hg) as Hc.
  assert (Forall (λ e', e_point e' ≤ e_point e) (P ++ [e])) as HP.
  { apply Forall_app. split; [apply (sorted_split _ _ _ E)|by repeat constructor]. }
  assert (size (bump m e) = votes demands (e_point e)) as Hsz.
  { unfold votes. rewrite <- (counted_voters _ _ _ _ E' HP Hg Hm'). by rewrite size_dom. }
  pose proof (last_target_wanted _ _ _ E' HP Hg) as Hw. rewrite Hsz.
  assert (∀ x, completed (e :: R) x → x < e_point e) as Hlt.
  { intros x [_ [? _]%Forall_cons]. done. }
  assert (∀ best', best_of (λ x, completed (e :: R) x ∨ x = e_point e) best' →
                   best_of (completed R) best') as Hconv.
  { intros best'. apply best_of_iff. intros x. symmetry. apply Hc. }
  assert ((wanted demands (e_point e) → eligible (e_point e) ≠ Some false →
           (votes demands (e_point e) ≤ score_of best)%nat) →
          outcome_ok (sweep eligible R (bump m e) (last_target (P ++ [e])) best (score_of best))) as Hskip.
  { intros Hs. apply IH; [done..|]. by apply Hconv, best_of_skip. }
  destruct (last_target (P ++ [e]) && _) eqn:Hgo; cycle 1.
  { apply Hskip. intros ?%Hw _. apply andb_false_iff in Hgo as [?|?%Nat.ltb_ge]; [congruence|done]. }
  apply andb_prop in Hgo as [Ha%Hw Hgo%Nat.ltb_lt].
  destruct (eligible (e_point e)) as [[]|] eqn:Hel.
  - change (votes demands (e_point e)) with (score_of (Some (e_point e))).
    apply IH; [done..|]. apply Hconv. by eapply best_of_take.
  - by apply Hskip.
  - simpl. split_and!; [|done..]. exists e. split; [|done]. rewrite <- S_perm, E. set_solver.
Qed.
End run.

(** ** Pages between endpoints *)

Lemma elem_of_events_of demands e :
  e ∈ events_of demands ↔
  ∃ v i, v ∈ demands ∧ i ∈ v.2 ∧ e ∈ interval_events v.1.1 v.1.2 i.
Proof.
  unfold events_of, vote_events. rewrite list_elem_of_join. setoid_rewrite list_elem_of_fmap.
  split.
  - intros (l & He & v & -> & Hv). apply list_elem_of_join in He as (l & He & Hl).
    apply list_elem_of_fmap in Hl as (i & -> & Hi). eauto.
  - intros (v & i & Hv & Hi & He). eexists. split; [|by eauto].
    apply list_elem_of_join. eexists. split; [exact He|]. apply list_elem_of_fmap. eauto.
Qed.

Lemma last_endpoint demands x :
  wanted demands x →
  ∃ q, endpoint demands q ∧ q ≤ x ∧ ∀ r, endpoint demands r → r ≤ x → r ≤ q.
Proof.
  intros (v & Hv & _ & Hx). apply Exists_exists in Hx as (i & Hi & Hix).
  set (pts := filter (λ y, y ≤ x) (e_point <$> events_of demands)).
  assert (∀ r, r ∈ pts ↔ endpoint demands r ∧ r ≤ x) as Hpts.
  { intros r. unfold pts, endpoint. rewrite list_elem_of_filter, list_elem_of_fmap. naive_solver. }
  assert (i_start i ∈ pts) as Hin.
  { apply Hpts. split; [|apply Hix]. exists (mkEvent (i_start i) v.1.1 v.1.2 true). split; [|done].
    apply elem_of_events_of. exists v, i. split_and!; [done..|]. apply list_elem_of_here. }
  clearbody pts.
  assert (∃ q, q ∈ pts ∧ ∀ r, r ∈ pts → r ≤ q) as (q & Hq & Hmax).
  { clear Hpts. revert Hin. generalize (i_start i). induction pts as [|y pts IH]; [set_solver|].
    intros z Hz. destruct pts as [|y' pts]; [exists y; set_solver by lia|].
    destruct (IH y' ltac:(set_solver)) as (q & Hq & Hm).
    destruct (decide (y ≤ q)) as [Hy|Hy]; [exists q|exists y]; split; try set_solver;
      intros r [->|Hr]%elem_of_cons; try lia; specialize (Hm r Hr); lia. }
  exists q. apply Hpts in Hq as [? ?]. split_and!; [done..|]. intros r ? ?. by apply Hmax, Hpts.
Qed.

(** No endpoint separates [q] from [x], so both lie in the same intervals. *)
Lemma same_interval demands q x v i :
  v ∈ demands → i ∈ v.2 → q ≤ x → (∀ r, endpoint demands r → r ≤ x → r ≤ q) →
  inside i q ↔ inside i x.
Proof.
  intros Hv Hi Hle Hmax. unfold inside.
  assert (∀ e, e ∈ interval_events v.1.1 v.1.2 i → e_point e ≤ x → e_point e ≤ q) as Hpt.
  { intros e He. apply Hmax. exists e. split; [|done]. apply elem_of_events_of. eauto. }
  specialize (Hpt _ (list_elem_of_here _ _)) as H1.
  specialize (Hpt _ (list_elem_of_further _ _ _ (list_elem_of_here _ _))) as H2.
  simpl in H1, H2. destruct (decide (i_end i ≤ x)), (decide (i_start i ≤ x)); lia.
Qed.

Lemma same_demand demands q x v :
  v ∈ demands → q ≤ x → (∀ r, endpoint demands r → r ≤ x → r ≤ q) →
  in_set v.2 q ↔ in_set v.2 x.
Proof.
  intros Hv Hle Hmax. unfold in_set. rewrite !Exists_exists.
  split; intros (i & Hi & Hx); exists i; (split; [done|]); by apply (same_interval demands q x v i).
Qed.

Lemma endpoint_represents demands x :
  wanted demands x →
  ∃ q, endpoint demands q ∧ q ≤ x ∧ wanted demands q ∧ voters demands q = voters demands x.
Proof.
  intros Hx. destruct (last_endpoint demands x Hx) as (q & Hq & Hle & Hmax).
  exists q. split_and!; [done..| |].
  - destruct Hx as (v & Hv & Ht & Hin). exists v. split_and!; [done..|]. by apply (same_demand demands q x).
  - apply set_eq. intros k. unfold voters. rewrite !elem_of_list_to_set, !list_elem_of_fmap.
    setoid_rewrite list_elem_of_filter.
    split; intros (v & -> & Hin & Hv); exists v; (split_and!; [done| |done]);
      by apply (same_demand demands q x v).
Qed.

Lemma select_ok demands eligible :
  votes_wf demands → outcome_ok demands eligible (select demands eligible).
Proof.
  intros Hwf. unfold select.
  pose proof (merge_sort_Permutation point_le (events_of demands)) as Hp.
  assert (StronglySorted point_le (merge_sort point_le (events_of demands))) as Hs.
  { apply Sorted_StronglySorted; [intros a b c; unfold point_le; lia|].
    apply Sorted_merge_sort. intros a b. unfold point_le. lia. }
  apply (sweep_ok demands eligible _ Hwf Hs Hp) with (best := None) (P := []); [done| |].
  - intros k. split; [done|]. apply lookup_empty.
  - intros x [(e & He & <-) Hall]. rewrite Hp, Forall_forall in Hall. specialize (Hall e He). lia.
Qed.

(** The endpoint sweep is exact.  When one vote is the target's and all votes
    are canonical, a chosen page is demanded by the target, eligible, and wanted by
    at least as many distinct receivers as every page the target demands that is
    not ruled out (with all pages eligible: every demanded page at all), and it is
    the lowest such page; [None] means every page the sweep considered is ruled out,
    and a suspension names an undecided page the target demands. *)
Theorem select_prefers_most_wanted (demands : list Vote) (eligible : N → option bool) :
  votes_wf demands →
  match select demands eligible with
  | Ok (Some p) =>
      wanted demands p ∧ eligible p = Some true ∧
      (∀ x, endpoint demands x → wanted demands x → eligible x ≠ Some false →
            (votes demands x ≤ votes demands p)%nat) ∧
      ((∀ x, eligible x = Some true) → ∀ x, wanted demands x →
            (votes demands x ≤ votes demands p)%nat ∧
            (votes demands x = votes demands p → p ≤ x))
  | Ok None => (∀ x, endpoint demands x → wanted demands x → eligible x = Some false) ∧
               ((∀ x, eligible x = Some true) → ∀ x, ¬ wanted demands x)
  | Err q => wanted demands q ∧ eligible q = None
  end.
Proof.
  intros Hwf. pose proof (select_ok demands eligible Hwf) as Hok.
  destruct (select demands eligible) as [[p|]|q]; simpl in Hok; [|split; [done|]|by destruct Hok].
  - destruct Hok as (_ & Hw & He & Hmax). split_and!; [done..| |].
    + intros x Hx Hwx Hne. by apply Hmax.
    + intros Hall x Hx. destruct (endpoint_represents demands x Hx) as (q & Hq & Hle & Hwq & Hv).
      destruct (Hmax q Hq Hwq) as [H1 H2]; [by rewrite Hall|].
      unfold votes in *. rewrite Hv in *. split; [done|]. intros Heq.
      destruct (decide (q < p)) as [Hlt|]; [|lia]. specialize (H2 Hlt). lia.
  - intros Hall x Hx. destruct (endpoint_represents demands x Hx) as (q & Hq & _ & Hwq & _).
    specialize (Hok q Hq Hwq). rewrite Hall in Hok. done.
Qed.
End sweep.
Arguments SweepEvent : clear implicits.
Arguments Vote : clear implicits.

(** Three receivers; receiver 0 is the target. *)
Definition sample_votes : list (Vote N) :=
  [(0, true, [mkInterval 0 4; mkInterval 6 9]);
   (1, false, [mkInterval 2 7]);
   (2, false, [mkInterval 3 4; mkInterval 6 8])].

Lemma select_prefers_most_wanted_witness :
  select sample_votes (λ _, Some true) = Ok (Some 3) ∧ votes sample_votes 7 = 2%nat ∧
  (votes sample_votes 7 ≤ votes sample_votes 3)%nat.
Proof.
  split; [reflexivity|]. split; [reflexivity|].
  refine (proj1 (proj2 (proj2 (proj2
    (select_prefers_most_wanted sample_votes (λ _, Some true) _))) _ 7 _)).
  - split; [|repeat constructor; simpl; lia].
    eexists [], _, _. split; [reflexivity|]. split; [done|by repeat constructor].
  - done.
  - eexists. split; [apply list_elem_of_here|]. split; [done|]. right. left. unfold inside. simpl. lia.
Defined.
