(* ===== verification/Fanout.v ===== *)
(** * Bounded flights and response slots ([Fanout] of [flow/src/subscriptions.rs])

    One acquisition owner per flight, any number of retained response slots, and
    promotion of one follower when an owner's credentials are rejected.  Keys,
    owners, values, errors and wakers are parameters, as in the source.  A closure
    [FnMut] is a function over an explicit state.  [HashMap] iteration is
    [map_to_list]; where its order matters the theorems show that it does not. *)

From S2P Require Import Prelude.
Local Open Scope N_scope.

Section fanout.
Context {K O V E W : Type} `{EqDecision K}.

(** One retained response slot. *)
Record Pending : Type := mkPending {
  pd_owner : O;
  pd_flight : N;
  pd_deadline : N;
  pd_result : option (result V E);
  pd_waker : option W;
  pd_promoted : bool
}.

Record Fanout : Type := mkFanout {
  fan_next : N;
  fan_flights : gmap N K;
  fan_pending : gmap N Pending
}.

Definition fanout_default : Fanout := mkFanout 0 ∅ ∅.

Definition set_pending (f : Fanout) (m : gmap N Pending) : Fanout :=
  mkFanout (fan_next f) (fan_flights f) m.

(** A slot still waiting for the flight [token] at [now]. *)
Definition waits_on (token now : N) (p : Pending) : bool :=
  (pd_flight p =? token) && negb (is_some (pd_result p)) && (now <? pd_deadline p).

(** [flights.iter().find_map(..)]: a flight for [key] that some slot still awaits. *)
Definition existing_flight (f : Fanout) (key : K) (now : N) : option N :=
  fst <$> find (λ '(token, candidate), bool_decide (candidate = key) &&
                 existsb (λ tp, waits_on token now tp.2) (map_to_list (fan_pending f)))
               (map_to_list (fan_flights f)).

Definition attach (f : Fanout) (key : K) (owner : O) (deadline now max_pending max_flights : N)
    : option (N * N * bool) * Fanout :=
  if max_pending <=? N.of_nat (size (fan_pending f)) then (None, f)
  else
    let existing := existing_flight f key now in
    if negb (is_some existing) && (max_flights <=? N.of_nat (size (fan_flights f))) then (None, f)
    else
      match checked_add U64_MAX (fan_next f) 1 with
      | None => (None, f)
      | Some token =>
          let flight := default token existing in
          let flights := if is_some existing then fan_flights f
                         else <[flight := key]> (fan_flights f) in
          let slot := mkPending owner flight deadline None None false in
          (Some (token, flight, negb (is_some existing)),
           mkFanout token flights (<[token := slot]> (fan_pending f)))
      end.

(** Set a result and take the waker. *)
Definition settle (r : result V E) (p : Pending) : Pending :=
  mkPending (pd_owner p) (pd_flight p) (pd_deadline p) (Some r) None (pd_promoted p).

Definition expire (f : Fanout) (now : N) (error : E) (wake : list W) : Fanout * list W :=
  (set_pending f ((λ p, if pd_deadline p <=? now then settle (Err error) p else p) <$> fan_pending f),
   wake ++ omap (λ tp, if pd_deadline tp.2 <=? now then pd_waker tp.2 else None)
                (map_to_list (fan_pending f))).

Definition fan_remove (f : Fanout) (token : N) : option Pending * Fanout :=
  (fan_pending f !! token, set_pending f (delete token (fan_pending f))).

(** [pending_mut]: mutate the slot of [token] in place. *)
Definition pending_mut (f : Fanout) (token : N) (g : Pending → Pending) : Fanout :=
  set_pending f (alter g token (fan_pending f)).

(** Move a follower to the promoted owner's flight. *)
Definition follow (next token : N) (p : Pending) : Pending :=
  mkPending (pd_owner p) next (pd_deadline p) (pd_result p) None (token =? next).

(** The loop over followers. *)
Fixpoint follow_all (next : N) (tokens : list N) (m : gmap N Pending) (wake : list W)
    : gmap N Pending * list W :=
  match tokens with
  | [] => (m, wake)
  | token :: rest =>
      match m !! token with
      | Some p => follow_all next rest (<[token := follow next token p]> m)
                    (wake ++ option_list (pd_waker p))
      | None => follow_all next rest m wake
      end
  end.

(** The loop that answers each token, threading the closure's state. *)
Fixpoint complete_all {St} (complete : St → N → O → K → result V E * St) (key : K)
    (tokens : list N) (m : gmap N Pending) (st : St) (wake : list W)
    : gmap N Pending * St * list W :=
  match tokens with
  | [] => (m, st, wake)
  | token :: rest =>
      match m !! token with
      | Some p =>
          let '(r, st) := complete st token (pd_owner p) key in
          complete_all complete key rest (<[token := settle r p]> m) st
            (wake ++ option_list (pd_waker p))
      | None => complete_all complete key rest m st wake
      end
  end.

(** Unanswered slots of [flight], in token order. *)
Definition unanswered (f : Fanout) (flight : N) : list N :=
  merge_sort N.le
    (omap (λ '(token, p), if (pd_flight p =? flight) && negb (is_some (pd_result p))
                          then Some token else None)
          (map_to_list (fan_pending f))).

Definition fan_finish {St} (f : Fanout) (flight : N) (promote : bool)
    (complete : St → N → O → K → result V E * St) (st : St) (wake : list W)
    : Fanout * St * list W :=
  match fan_flights f !! flight with
  | None => (f, st, wake)
  | Some key =>
      let flights := delete flight (fan_flights f) in
      let tokens := unanswered f flight in
      match (if promote then find (λ token, negb (token =? flight)) tokens else None) with
      | Some next =>
          let followers := List.filter (λ token, negb (token =? flight)) tokens in
          let '(m, wake) := follow_all next followers (fan_pending f) wake in
          let '(m, st, wake) :=
            complete_all complete key (List.filter (λ token, token =? flight) tokens) m st wake in
          (mkFanout (fan_next f) (<[next := key]> flights) m, st, wake)
      | None =>
          let '(m, st, wake) := complete_all complete key tokens (fan_pending f) st wake in
          (mkFanout (fan_next f) flights m, st, wake)
      end
  end.

(** ** Lemmas on the loops *)

Lemma elem_of_unanswered f flight t :
  t ∈ unanswered f flight ↔
  ∃ p, fan_pending f !! t = Some p ∧ pd_flight p = flight ∧ pd_result p = None.
Proof.
  unfold unanswered. rewrite merge_sort_Permutation, list_elem_of_omap. split.
  - intros ([t' p] & Hin & Ht). apply elem_of_map_to_list in Hin.
    destruct (N.eqb_spec (pd_flight p) flight), (pd_result p) eqn:Er; simplify_eq/=. eauto.
  - intros (p & Hp & <- & Hr). exists (t, p). rewrite elem_of_map_to_list, N.eqb_refl, Hr. done.
Qed.

Lemma unanswered_NoDup f flight : NoDup (unanswered f flight).
Proof.
  unfold unanswered. rewrite merge_sort_Permutation.
  pose proof (NoDup_fst_map_to_list (fan_pending f)) as Hnd. revert Hnd.
  generalize (map_to_list (fan_pending f)). induction l as [|[t p] l IH]; csimpl; [constructor|].
  intros [Hn Hl]%NoDup_cons. specialize (IH Hl).
  destruct ((pd_flight p =? flight) && _); [|done]. apply NoDup_cons. split; [|done].
  rewrite list_elem_of_omap. intros ([t' p'] & Hin & Ht). apply Hn.
  case_match; simplify_eq. apply list_elem_of_fmap. by exists (t, p').
Qed.

Lemma follow_all_lookup next tokens m wake t :
  NoDup tokens →
  (follow_all next tokens m wake).1 !! t =
  if decide (t ∈ tokens) then follow next t <$> m !! t else m !! t.
Proof.
  revert m wake. induction tokens as [|t' tokens IH]; intros m wake Hnd; [done|].
  apply NoDup_cons in Hnd as [Hn Hnd]. simpl.
  destruct (m !! t') as [p|] eqn:Hp; rewrite IH by done; destruct (decide (t = t')) as [->|Hne].
  - rewrite decide_False by done. rewrite decide_True by set_solver.
    by rewrite lookup_insert_eq, Hp.
  - rewrite lookup_insert_ne by done. repeat case_decide; set_solver.
  - rewrite decide_False by done. rewrite decide_True by set_solver. by rewrite Hp.
  - repeat case_decide; set_solver.
Qed.

(** Every token is answered once, with some result, and nothing else changes. *)
Lemma complete_all_lookup {St} (complete : St → N → O → K → result V E * St) key tokens m st wake t :
  NoDup tokens →
  let m' := (complete_all complete key tokens m st wake).1.1 in
  (t ∉ tokens → m' !! t = m !! t) ∧
  (t ∈ tokens → ∀ p, m !! t = Some p →
     ∃ st0, m' !! t = Some (settle (complete st0 t (pd_owner p) key).1 p)) ∧
  (m' !! t = None ↔ m !! t = None).
Proof.
  revert m st wake. induction tokens as [|t' tokens IH]; intros m st wake Hnd; simpl.
  { split_and!; [done|set_solver|done]. }
  apply NoDup_cons in Hnd as [Hn Hnd]. destruct (m !! t') as [p'|] eqn:Hp'.
  - destruct (complete st t' (pd_owner p') key) as [r st'] eqn:Hc.
    destruct (IH (<[t' := settle r p']> m) st' (wake ++ option_list (pd_waker p')) Hnd) as (IH1 & IH2 & IH3).
    destruct (decide (t = t')) as [->|Hne].
    + rewrite lookup_insert_eq in *. split_and!; [set_solver| |rewrite IH3, Hp'; naive_solver].
      intros _ p ?. simplify_eq. exists st. rewrite Hc. simpl. by apply IH1.
    + rewrite lookup_insert_ne in * by done. split_and!; [set_solver|set_solver|done].
  - destruct (IH m st wake Hnd) as (IH1 & IH2 & IH3). split_and!; [set_solver| |done].
    intros [->|Ht]%elem_of_cons p Hp; [congruence|by apply IH2].
Qed.

(** The closure's state only moves along any preorder its single steps respect. *)
Lemma complete_all_state {St} (Q : relation St) `{!PreOrder Q}
    (complete : St → N → O → K → result V E * St) key tokens m st wake :
  (∀ st t o, Q st (complete st t o key).2) →
  Q st (complete_all complete key tokens m st wake).1.2.
Proof.
  intros Hc. revert m st wake. induction tokens as [|t tokens IH]; intros m st wake; simpl; [done|].
  destruct (m !! t) as [p|]; [|apply IH].
  pose proof (Hc st t (pd_owner p)) as Hstep. destruct (complete st t (pd_owner p) key) as [r st'].
  etrans; [exact Hstep|apply IH].
Qed.

Lemma fan_finish_state {St} (Q : relation St) `{!PreOrder Q} f flight promote
    (complete : St → N → O → K → result V E * St) st wake :
  (∀ st t o key, Q st (complete st t o key).2) →
  Q st (fan_finish f flight promote complete st wake).1.2.
Proof.
  intros Hc. unfold fan_finish. destruct (fan_flights f !! flight) as [key|]; [|done].
  destruct (if promote then _ else _) as [next|].
  - destruct (follow_all _ _ _ _) as [m w].
    pose proof (complete_all_state Q complete key (List.filter (λ token, token =? flight) (unanswered f flight))
                  m st w (λ st t o, Hc st t o key)) as Hq.
    by destruct (complete_all _ _ _ _ _ _) as [[m' st'] w'].
  - pose proof (complete_all_state Q complete key (unanswered f flight) (fan_pending f) st wake
                  (λ st t o, Hc st t o key)) as Hq.
    by destruct (complete_all _ _ _ _ _ _) as [[m' st'] w'].
Qed.

(** ** What [fan_finish] does *)

(** The elected follower: the lowest unanswered token other than the owner's. *)
Definition elected (f : Fanout) (flight : N) (promote : bool) : option N :=
  if promote then find (λ token, negb (token =? flight)) (unanswered f flight) else None.

Lemma unanswered_sorted f flight : StronglySorted N.le (unanswered f flight).
Proof.
  apply Sorted_StronglySorted; [intros a b c; lia|]. apply Sorted_merge_sort. intros a b. lia.
Qed.

Lemma elected_Some f flight promote n :
  elected f flight promote = Some n →
  promote = true ∧ n ≠ flight ∧ n ∈ unanswered f flight ∧
  ∀ t, t ∈ unanswered f flight → t ≠ flight → n ≤ t.
Proof.
  unfold elected. destruct promote; [|done]. pose proof (unanswered_sorted f flight) as Hs. revert Hs.
  induction (unanswered f flight) as [|t l IH]; simpl; [done|]. intros [Hall Hl]%StronglySorted_cons.
  rewrite Forall_forall in Hall. destruct (N.eqb_spec t flight) as [->|Hne]; simpl.
  - intros Hf. destruct (IH Hl Hf) as (? & ? & ? & Hmin). split_and!; [done..|set_solver|].
    intros t [->|Ht]%elem_of_cons ?; [done|auto].
  - intros [= ->]. split_and!; [done..|set_solver|]. intros t [->|Ht]%elem_of_cons ?; [lia|auto].
Qed.

Lemma elected_None f flight promote t :
  elected f flight promote = None → promote = true → t ∈ unanswered f flight → t = flight.
Proof.
  unfold elected. intros Hf -> Ht. eapply find_none in Hf; [|by apply list_elem_of_In].
  by destruct (N.eqb_spec t flight).
Qed.

(** The new content of slot [t], which held [p]. *)
Definition finished_slot {St} (complete : St → N → O → K → result V E * St) (key : K)
    (next : option N) (flight t : N) (p p' : Pending) : Prop :=
  if decide (pd_flight p = flight ∧ pd_result p = None) then
    match next with
    | Some n => if decide (t = flight)
                then ∃ st0, p' = settle (complete st0 t (pd_owner p) key).1 p
                else p' = follow n t p
    | None => ∃ st0, p' = settle (complete st0 t (pd_owner p) key).1 p
    end
  else p' = p.

Lemma unanswered_slot f flight t p :
  fan_pending f !! t = Some p →
  pd_flight p = flight ∧ pd_result p = None ↔ t ∈ unanswered f flight.
Proof. intros Hp. rewrite elem_of_unanswered. naive_solver. Qed.

Lemma elem_of_list_filter_b (g : N → bool) l t : t ∈ List.filter g l ↔ g t = true ∧ t ∈ l.
Proof. rewrite !list_elem_of_In, filter_In. tauto. Qed.

Lemma NoDup_list_filter_b (g : N → bool) l : NoDup l → NoDup (List.filter g l).
Proof. rewrite !NoDup_ListNoDup. apply List.NoDup_filter. Qed.

Lemma fan_finish_missing {St} f flight promote (complete : St → N → O → K → result V E * St) st wake :
  fan_flights f !! flight = None → fan_finish f flight promote complete st wake = (f, st, wake).
Proof. unfold fan_finish. by intros ->. Qed.

Lemma fan_finish_spec {St} f flight promote (complete : St → N → O → K → result V E * St) st wake key :
  fan_flights f !! flight = Some key →
  let f' := (fan_finish f flight promote complete st wake).1.1 in
  let next := elected f flight promote in
  fan_next f' = fan_next f ∧
  fan_flights f' = match next with
                   | Some n => <[n := key]> (delete flight (fan_flights f))
                   | None => delete flight (fan_flights f)
                   end ∧
  ∀ t, match fan_pending f !! t with
       | None => fan_pending f' !! t = None
       | Some p => ∃ p', fan_pending f' !! t = Some p' ∧
                         finished_slot complete key next flight t p p'
       end.
Proof.
  intros Hk. unfold fan_finish. rewrite Hk. fold (elected f flight promote). simpl.
  pose proof (unanswered_NoDup f flight) as Hnd.
  destruct (elected f flight promote) as [n|] eqn:Hel.
  - destruct (follow_all _ _ _ _) as [m1 wake1] eqn:Hf.
    destruct (complete_all _ _ _ _ _ _) as [[m2 st2] wake2] eqn:Hc. simpl.
    split_and!; [done..|]. intros t.
    pose proof (follow_all_lookup n (List.filter (λ token, negb (token =? flight)) (unanswered f flight))
                  (fan_pending f) wake t (NoDup_list_filter_b _ _ Hnd)) as H1.
    pose proof (complete_all_lookup complete key (List.filter (λ token, token =? flight) (unanswered f flight))
                  m1 st wake1 t (NoDup_list_filter_b _ _ Hnd)) as H2.
    rewrite Hf in H1. rewrite Hc in H2. simpl in H1, H2. destruct H2 as (H2a & H2b & H2c).
    rewrite elem_of_list_filter_b in H2a, H2b.
    destruct (fan_pending f !! t) as [p|] eqn:Hp.
    2:{ apply H2c. rewrite H1. by case_decide. }
    unfold finished_slot. pose proof (unanswered_slot f flight t p Hp) as Hu.
    destruct (decide (t = flight)) as [->|Hne].
    + rewrite N.eqb_refl in H2a, H2b.
      rewrite decide_False in H1 by (rewrite elem_of_list_filter_b, N.eqb_refl; naive_solver).
      destruct (decide (pd_flight p = _ ∧ pd_result p = None)) as [Ht|Ht]; rewrite Hu in Ht; [|rewrite H2a; naive_solver].
      destruct (H2b ltac:(done) p H1). eauto.
    + apply N.eqb_neq in Hne. rewrite Hne in H2a. rewrite H2a by naive_solver. rewrite H1.
      destruct (decide (pd_flight p = _ ∧ pd_result p = None)) as [Ht|Ht]; rewrite Hu in Ht.
      * rewrite decide_True by (rewrite elem_of_list_filter_b, Hne; done). eauto.
      * rewrite decide_False by (rewrite elem_of_list_filter_b; naive_solver). eauto.
  - destruct (complete_all _ _ _ _ _ _) as [[m2 st2] wake2] eqn:Hc. simpl.
    split_and!; [done..|]. intros t.
    pose proof (complete_all_lookup complete key (unanswered f flight) (fan_pending f) st wake t Hnd) as H2.
    rewrite Hc in H2. simpl in H2. destruct H2 as (H2a & H2b & H2c).
    destruct (fan_pending f !! t) as [p|] eqn:Hp; [|by apply H2c].
    unfold finished_slot. pose proof (unanswered_slot f flight t p Hp) as Hu.
    destruct (decide (pd_flight p = _ ∧ pd_result p = None)) as [Ht|Ht]; rewrite Hu in Ht; [|rewrite H2a; naive_solver]. destruct (H2b Ht p eq_refl) as [? ->]. eauto.
Qed.

(** ** Invariant *)

(** Some slot still waits for flight [t] at [now]. *)
Definition live (f : Fanout) (t now : N) : Prop :=
  ∃ t' p, fan_pending f !! t' = Some p ∧ waits_on t now p = true.

Record fan_inv (now : N) (f : Fanout) : Prop := {
  inv_flight_tok : ∀ t k, fan_flights f !! t = Some k → t ≤ fan_next f;
  inv_slot_tok : ∀ t p, fan_pending f !! t = Some p → t ≤ fan_next f ∧ pd_flight p ≤ t;
  (** No unanswered slot is stranded without an acquisition owner. *)
  inv_owned : ∀ t p, fan_pending f !! t = Some p → pd_result p = None →
              is_Some (fan_flights f !! pd_flight p);
  inv_follower : ∀ t p, fan_pending f !! t = Some p → pd_flight p ≠ t → fan_flights f !! t = None;
  inv_promoted : ∀ t p, fan_pending f !! t = Some p → pd_promoted p = true → pd_flight p = t;
  (** Live work is coalesced: one flight per key. *)
  inv_coalesced : ∀ t1 t2 k, fan_flights f !! t1 = Some k → fan_flights f !! t2 = Some k →
                  live f t1 now → live f t2 now → t1 = t2
}.

Definition fan_bounded (max_pending max_flights : N) (f : Fanout) : Prop :=
  N.of_nat (size (fan_pending f)) ≤ max_pending ∧ N.of_nat (size (fan_flights f)) ≤ max_flights.

Lemma waits_on_true t now p :
  waits_on t now p = true ↔ pd_flight p = t ∧ pd_result p = None ∧ now < pd_deadline p.
Proof.
  unfold waits_on. rewrite !andb_true_iff, N.eqb_eq, N.ltb_lt.
  destruct (pd_result p); simpl; naive_solver.
Qed.

Lemma existing_flight_Some f key now t :
  existing_flight f key now = Some t → fan_flights f !! t = Some key ∧ live f t now.
Proof.
  unfold existing_flight. intros ([t' k] & Hf & ->)%fmap_Some. simpl.
  apply find_some in Hf as [Hin [Hk Hw]%andb_prop].
  apply bool_decide_eq_true in Hk as ->. apply list_elem_of_In, elem_of_map_to_list in Hin.
  split; [done|]. apply existsb_exists in Hw as ([t p] & Hp & Hw).
  apply list_elem_of_In, elem_of_map_to_list in Hp. by exists t, p.
Qed.

Lemma existing_flight_None f key now t :
  existing_flight f key now = None → fan_flights f !! t = Some key → ¬ live f t now.
Proof.
  unfold existing_flight. intros Hf Hk (t' & p & Hp & Hw). apply fmap_None in Hf.
  eapply find_none in Hf; [|by apply list_elem_of_In, elem_of_map_to_list].
  apply andb_false_iff in Hf as [Hf|Hf]; [by apply bool_decide_eq_false in Hf|].
  enough (existsb (λ tp, waits_on t now tp.2) (map_to_list (fan_pending f)) = true) by congruence.
  apply existsb_exists. exists (t', p). split; [|done]. by apply list_elem_of_In, elem_of_map_to_list.
Qed.

Lemma live_mono f t now now' : now ≤ now' → live f t now' → live f t now.
Proof.
  intros Hle (t' & p & Hp & Hw). exists t', p. split; [done|].
  apply waits_on_true in Hw as (? & ? & ?). apply waits_on_true. split_and!; [done..|lia].
Qed.

Lemma fan_inv_later now now' f : now ≤ now' → fan_inv now f → fan_inv now' f.
Proof.
  intros Hle []. split; eauto 3.
  intros t1 t2 k H1 H2 L1 L2. eapply inv_coalesced0; eauto using live_mono.
Qed.

Lemma attach_cases f key owner deadline now mp mf r f' :
  attach f key owner deadline now mp mf = (r, f') →
  (r = None ∧ f' = f) ∨
  (∃ t flight leader, r = Some (t, flight, leader) ∧
     t = fan_next f + 1 ∧ t ≤ U64_MAX ∧ N.of_nat (size (fan_pending f)) < mp ∧
     fan_next f' = t ∧
     fan_pending f' = <[t := mkPending owner flight deadline None None false]> (fan_pending f) ∧
     ((leader = false ∧ existing_flight f key now = Some flight ∧ fan_flights f' = fan_flights f) ∨
      (leader = true ∧ existing_flight f key now = None ∧ flight = t ∧
       fan_flights f' = <[t := key]> (fan_flights f) ∧ N.of_nat (size (fan_flights f)) < mf))).
Proof.
  unfold attach. destruct (N.leb_spec mp (N.of_nat (size (fan_pending f)))) as [|Hp]; [naive_solver|].
  destruct (existing_flight f key now) as [x|] eqn:Hex; simpl.
  - destruct (checked_add _ _ _) as [t|] eqn:Ht; intros [= <- <-]; [|by left].
    apply checked_add_Some in Ht as [? ->]. right. simpl. naive_solver.
  - destruct (N.leb_spec mf (N.of_nat (size (fan_flights f)))) as [|Hf]; [naive_solver|].
    destruct (checked_add _ _ _) as [t|] eqn:Ht; intros [= <- <-]; [|by left].
    apply checked_add_Some in Ht as [? ->]. right. simpl. naive_solver.
Qed.

(** Slot updates that keep flight and deadline and only add answers. *)
Definition slot_le (p' p : Pending) : Prop :=
  pd_owner p' = pd_owner p ∧ pd_flight p' = pd_flight p ∧ pd_deadline p' = pd_deadline p ∧
  (pd_result p' = None → pd_result p = None) ∧ (pd_promoted p' = true → pd_promoted p = true).

Lemma fan_inv_slots now f m :
  (∀ t p', m !! t = Some p' → ∃ p, fan_pending f !! t = Some p ∧ slot_le p' p) →
  fan_inv now f → fan_inv now (set_pending f m).
Proof.
  intros Hm Hinv.
  assert (∀ t, live (set_pending f m) t now → live f t now) as Hlive.
  { intros t (t' & p' & Hp' & Hw). destruct (Hm _ _ Hp') as (p & Hp & (_ & H1 & H2 & H3 & _)).
    exists t', p. split; [done|]. apply waits_on_true in Hw as (? & ? & ?).
    apply waits_on_true. rewrite <- H1, <- H2. auto. }
  destruct Hinv as [I1 I2 I3 I4 I5 I6]. split; simpl.
  - exact I1.
  - intros t p' (p & Hp & (_ & -> & _))%Hm. eauto.
  - intros t p' (p & Hp & (_ & -> & _ & Hr & _))%Hm ?. eauto.
  - intros t p' (p & Hp & (_ & -> & _))%Hm ?. eauto.
  - intros t p' (p & Hp & (_ & -> & _ & _ & Hpr))%Hm ?. eauto.
  - intros t1 t2 k ? ? ?%Hlive ?%Hlive. eauto.
Qed.

Lemma expire_slots f now error t p' :
  ((λ p, if pd_deadline p <=? now then settle (Err error) p else p) <$> fan_pending f) !! t = Some p' →
  ∃ p, fan_pending f !! t = Some p ∧ slot_le p' p.
Proof.
  rewrite lookup_fmap. intros (p & Hp & ->)%fmap_Some. exists p. split; [done|].
  unfold slot_le. case_match; simpl; naive_solver.
Qed.

Lemma fan_inv_expire now f error wake : fan_inv now f → fan_inv now (expire f now error wake).1.
Proof. apply fan_inv_slots. apply expire_slots. Qed.

Lemma fan_inv_remove now f token : fan_inv now f → fan_inv now (fan_remove f token).2.
Proof.
  apply fan_inv_slots. intros t p [_ Hp]%lookup_delete_Some. exists p. by split; [|repeat split].
Qed.

Lemma fan_inv_pending_mut now f token g :
  (∀ p, slot_le (g p) p) → fan_inv now f → fan_inv now (pending_mut f token g).
Proof.
  intros Hg. apply fan_inv_slots. intros t p'. destruct (decide (t = token)) as [->|Hne].
  - rewrite lookup_alter_eq. intros (p & Hp & ->)%fmap_Some. eauto.
  - rewrite lookup_alter_ne by done. intros Hp. exists p'. by split; [|repeat split].
Qed.

Lemma live_attach f f' owner deadline now t flight t0 :
  fan_pending f' = <[t := mkPending owner flight deadline None None false]> (fan_pending f) →
  live f' t0 now → t0 = flight ∨ live f t0 now.
Proof.
  intros Hp (t' & p & Hp' & Hw). rewrite Hp in Hp'. apply lookup_insert_Some in Hp' as [[<- <-]|[_ Hp']].
  - apply waits_on_true in Hw as (? & _). auto.
  - right. by exists t', p.
Qed.

Lemma fan_inv_attach f key owner deadline now mp mf :
  fan_inv now f → fan_inv now (attach f key owner deadline now mp mf).2.
Proof.
  intros Hinv. destruct (attach _ _ _ _ _ _ _) as [r f'] eqn:Ha. simpl.
  apply attach_cases in Ha as [[_ ->]|(t & flight & leader & _ & Ht & _ & _ & Hn & Hp & Hc)]; [done|].
  pose proof Hinv as [I1 I2 I3 I4 I5 I6].
  assert (fan_flights f !! t = None) as Hfresh.
  { destruct (fan_flights f !! t) eqn:E'; [|done]. apply I1 in E'. lia. }
  pose proof (live_attach f f' owner deadline now t flight) as Hl.
  destruct Hc as [(_ & Hex & Hf)|(_ & Hex & -> & Hf & _)].
  - apply existing_flight_Some in Hex as [Hk Hlive]. pose proof (I1 _ _ Hk).
    split; rewrite ?Hf, ?Hp, ?Hn.
    + intros ? ? ?%I1. lia.
    + intros t0 p [[<- <-]|[_ Hp0%I2]]%lookup_insert_Some; simpl; [split; lia|lia].
    + intros t0 p [[<- <-]|[_ Hp0]]%lookup_insert_Some Hr; simpl; eauto.
    + intros t0 p [[<- <-]|[_ Hp0]]%lookup_insert_Some Hne; eauto.
    + intros t0 p [[<- <-]|[_ Hp0]]%lookup_insert_Some; simpl; [done|eauto].
    + intros t1 t2 k H1 H2 L1 L2. apply (I6 _ _ k); try done.
      * destruct (Hl t1 Hp L1) as [->|?]; done.
      * destruct (Hl t2 Hp L2) as [->|?]; done.
  - split; rewrite ?Hf, ?Hp, ?Hn.
    + intros t0 k [[<- _]|[_ ?%I1]]%lookup_insert_Some; lia.
    + intros t0 p [[<- <-]|[_ Hp0%I2]]%lookup_insert_Some; simpl; [split; lia|lia].
    + intros t0 p [[<- <-]|[_ Hp0]]%lookup_insert_Some Hr; simpl; [by rewrite lookup_insert_eq; eauto|].
      apply lookup_insert_is_Some'. right. eauto.
    + intros t0 p [[<- <-]|[? Hp0]]%lookup_insert_Some Hne; simpl in *; [done|].
      rewrite lookup_insert_ne by done. eauto.
    + intros t0 p [[<- <-]|[_ Hp0]]%lookup_insert_Some; simpl; [done|eauto].
    + intros t1 t2 k [[<- ->]|[? H1]]%lookup_insert_Some [[<- H2]|[? H2]]%lookup_insert_Some L1 L2; try done.
      * destruct (Hl t2 Hp L2) as [->|L]; [done|]. by eapply existing_flight_None in L.
      * subst. destruct (Hl t1 Hp L1) as [->|L]; [done|]. by eapply existing_flight_None in L.
      * destruct (Hl t1 Hp L1) as [?|?]; [done|]. destruct (Hl t2 Hp L2) as [?|?]; [done|]. eauto.
Qed.

(** How one slot may change while flight [flight] is finished. *)
Inductive slot_change (next : option N) (flight t : N) (p : Pending) : Pending → Prop :=
  | sc_same : (pd_flight p = flight → pd_result p ≠ None) → slot_change next flight t p p
  | sc_settle r : pd_flight p = flight → pd_result p = None → next = None ∨ t = flight →
      slot_change next flight t p (settle r p)
  | sc_follow n : pd_flight p = flight → pd_result p = None → next = Some n → t ≠ flight →
      slot_change next flight t p (follow n t p).

Lemma finished_slot_change {St} (complete : St → N → O → K → result V E * St) key next flight t p p' :
  finished_slot complete key next flight t p p' → slot_change next flight t p p'.
Proof.
  unfold finished_slot. case_decide as Hd; [destruct Hd as [H1 H2]|intros ->; constructor; tauto].
  destruct next as [n|]; [|intros [? ->]; constructor; auto].
  case_decide; [intros [? ->]; constructor; auto|]. intros ->. by constructor.
Qed.

Section finish_inv.
Variables (now : N) (f f' : Fanout) (flight : N) (key : K) (next : option N).
Hypothesis Hinv : fan_inv now f.
Hypothesis Hkey : fan_flights f !! flight = Some key.
Hypothesis Hfl : fan_flights f' =
  match next with
  | Some n => <[n := key]> (delete flight (fan_flights f))
  | None => delete flight (fan_flights f)
  end.
Hypothesis Hback : ∀ t p', fan_pending f' !! t = Some p' →
  ∃ p, fan_pending f !! t = Some p ∧ slot_change next flight t p p'.
Hypothesis Hnext : ∀ n, next = Some n →
  n ≠ flight ∧ n ∈ unanswered f flight ∧ ∀ t, t ∈ unanswered f flight → t ≠ flight → n ≤ t.

Lemma next_follower n :
  next = Some n → ∃ p, fan_pending f !! n = Some p ∧ pd_flight p = flight ∧ fan_flights f !! n = None.
Proof.
  intros (Hne & (p & Hp & Hpf & _)%elem_of_unanswered & _)%Hnext. exists p. split_and!; [done..|].
  eapply inv_follower; [done..|]. congruence.
Qed.

(** A flight that remains was there before, or is the elected one. *)
Lemma finish_flights t k :
  fan_flights f' !! t = Some k →
  (next = Some t ∧ k = key) ∨ (next ≠ Some t ∧ t ≠ flight ∧ fan_flights f !! t = Some k).
Proof.
  rewrite Hfl. destruct next as [n|].
  - intros [[<- <-]|[? [? ?]%lookup_delete_Some]]%lookup_insert_Some; naive_solver.
  - intros [? ?]%lookup_delete_Some. naive_solver.
Qed.

Lemma finish_keeps t : next ≠ Some t → t ≠ flight → fan_flights f' !! t = fan_flights f !! t.
Proof.
  intros Hn Ht. rewrite Hfl. destruct next as [n|].
  - rewrite lookup_insert_ne by naive_solver. by apply lookup_delete_ne.
  - by apply lookup_delete_ne.
Qed.

(** A flight that is live afterwards was live before; the elected one inherits. *)
Lemma finish_live t :
  live f' t now → if decide (next = Some t) then live f flight now else t ≠ flight ∧ live f t now.
Proof.
  intros (t' & p' & Hp' & (Hw1 & Hw2 & Hw3)%waits_on_true).
  destruct (Hback _ _ Hp') as (p & Hp & Hc).
  destruct Hc as [Hc|r Hc1 Hc2 Hc3|n Hc1 Hc2 Hc3 Hc4]; simpl in *; [|done|].
  - case_decide as Hn.
    + apply next_follower in Hn as (_ & _ & _ & Hn).
      destruct (inv_owned _ _ Hinv _ _ Hp Hw2) as [k' Hk']. congruence.
    + split; [naive_solver|]. exists t', p. split; [done|]. by apply waits_on_true.
  - subst n. rewrite decide_True by done. exists t', p. split; [done|]. by apply waits_on_true.
Qed.

Lemma finish_owned t p' :
  fan_pending f' !! t = Some p' → pd_result p' = None → is_Some (fan_flights f' !! pd_flight p').
Proof.
  intros (p & Hp & Hc)%Hback Hr. destruct Hc as [Hc|r Hc1 Hc2 Hc3|n Hc1 Hc2 Hc3 Hc4]; simpl in *; [|done|].
  - destruct (inv_owned _ _ Hinv _ _ Hp Hr) as [k Hk].
    rewrite finish_keeps; [eauto| |naive_solver]. intros (_ & _ & _ & ?)%next_follower. congruence.
  - rewrite Hfl, Hc3, lookup_insert_eq. eauto.
Qed.

Lemma finish_follower t p' :
  fan_pending f' !! t = Some p' → pd_flight p' ≠ t → fan_flights f' !! t = None.
Proof.
  intros (p & Hp & Hc)%Hback Hne. pose proof (inv_follower _ _ Hinv _ _ Hp) as Hf.
  assert (next ≠ Some t ∧ pd_flight p ≠ t) as [Hn Hpt].
  { destruct Hc as [Hc|r Hc1 Hc2 Hc3|n Hc1 Hc2 Hc3 Hc4]; simpl in *; [|naive_solver..].
    split; [|done]. intros (_ & (p0 & ? & ? & ?)%elem_of_unanswered & _)%Hnext. simplify_eq. naive_solver. }
  destruct (decide (t = flight)) as [->|Ht]; [by rewrite Hf in Hkey|]. rewrite finish_keeps by done. auto.
Qed.

Lemma finish_coalesced t1 t2 k :
  fan_flights f' !! t1 = Some k → fan_flights f' !! t2 = Some k →
  live f' t1 now → live f' t2 now → t1 = t2.
Proof.
  intros H1 H2 L1%finish_live L2%finish_live.
  apply finish_flights in H1 as [[N1 ->]|(N1 & D1 & H1)], H2 as [[N2 E2]|(N2 & D2 & H2)].
  - congruence.
  - rewrite decide_True in L1 by done. rewrite decide_False in L2 by done.
    destruct D2. symmetry. by eapply (inv_coalesced _ _ Hinv flight t2); [..|apply L2].
  - rewrite decide_False in L1 by done. rewrite decide_True in L2 by done. subst k.
    destruct D1. by eapply (inv_coalesced _ _ Hinv t1 flight); [..|apply L1|].
  - rewrite decide_False in L1 by done. rewrite decide_False in L2 by done. by eapply (inv_coalesced _ _ Hinv); [..|apply L1|apply L2].
Qed.

Lemma fan_inv_finished : fan_next f' = fan_next f → fan_inv now f'.
Proof.
  intros Hn. split; [| |exact finish_owned|exact finish_follower| |exact finish_coalesced]; rewrite ?Hn.
  - intros t k [[(p & Hp & _ & _)%next_follower _]|(_ & _ & Hk)]%finish_flights;
      [by eapply inv_slot_tok|by eapply inv_flight_tok].
  - intros t p' (p & Hp & Hc)%Hback. pose proof (inv_slot_tok _ _ Hinv _ _ Hp) as [? ?].
    destruct Hc as [Hc|r Hc1 Hc2 Hc3|n Hc1 Hc2 Hc3 Hc4]; simpl; [done..|]. split; [done|].
    apply Hnext in Hc3 as (_ & _ & Hmin). apply Hmin; [|done]. apply elem_of_unanswered. eauto.
  - intros t p' (p & Hp & Hc)%Hback. pose proof (inv_promoted _ _ Hinv _ _ Hp).
    destruct Hc as [Hc|r Hc1 Hc2 Hc3|n Hc1 Hc2 Hc3 Hc4]; simpl; [done..|]. by intros ->%N.eqb_eq.
Qed.
End finish_inv.

Lemma fan_finish_back {St} f flight promote (complete : St → N → O → K → result V E * St) st wake key t p' :
  fan_flights f !! flight = Some key →
  fan_pending (fan_finish f flight promote complete st wake).1.1 !! t = Some p' →
  ∃ p, fan_pending f !! t = Some p ∧ slot_change (elected f flight promote) flight t p p'.
Proof.
  intros Hk Hp'. destruct (fan_finish_spec f flight promote complete st wake key Hk) as (_ & _ & Hs).
  specialize (Hs t). destruct (fan_pending f !! t) as [p|]; [|congruence].
  destruct Hs as (p0 & Hp0 & Hc). simplify_eq. eauto using finished_slot_change.
Qed.

Lemma fan_inv_finish {St} now f flight promote (complete : St → N → O → K → result V E * St) st wake :
  fan_inv now f → fan_inv now (fan_finish f flight promote complete st wake).1.1.
Proof.
  intros Hinv. destruct (fan_flights f !! flight) as [key|] eqn:Hk; [|by rewrite fan_finish_missing].
  destruct (fan_finish_spec f flight promote complete st wake key Hk) as (Hn & Hf & _).
  eapply (fan_inv_finished now f); [done|done|exact Hf| | |done].
  - intros t p'. by apply fan_finish_back with (key := key).
  - intros n (_ & ?)%elected_Some. done.
Qed.

(** ** Bounds *)

Lemma fan_finish_bounded {St} mp mf f flight promote (complete : St → N → O → K → result V E * St) st wake :
  fan_bounded mp mf f → fan_bounded mp mf (fan_finish f flight promote complete st wake).1.1.
Proof.
  intros [Hp Hf]. destruct (fan_flights f !! flight) as [key|] eqn:Hk; [|by rewrite fan_finish_missing].
  destruct (fan_finish_spec f flight promote complete st wake key Hk) as (_ & Hfl & Hs).
  set (f' := (fan_finish _ _ _ _ _ _).1.1) in *. clearbody f'. split.
  - replace (size (fan_pending f')) with (size (fan_pending f)); [done|].
    rewrite <- !size_dom. f_equal. apply set_eq. intros t. rewrite !elem_of_dom. specialize (Hs t).
    destruct (fan_pending f !! t); [destruct Hs as (? & -> & _); split; eauto|by rewrite Hs].
  - rewrite Hfl. pose proof (map_size_delete_Some flight (fan_flights f) ltac:(eauto)) as Hd.
    assert (0 < size (fan_flights f))%nat.
    { apply Nat.neq_0_lt_0. intros E0%map_size_empty_inv. by rewrite E0 in Hk. }
    destruct (elected _ _ _) as [n|]; [|lia].
    rewrite map_size_insert. case_match; simpl; lia.
Qed.

Lemma attach_bounded mp mf f key owner deadline now :
  fan_bounded mp mf f → fan_bounded mp mf (attach f key owner deadline now mp mf).2.
Proof.
  intros [Hp Hf]. destruct (attach _ _ _ _ _ _ _) as [r f'] eqn:Ha. simpl.
  apply attach_cases in Ha as [[_ ->]|(t & flight & leader & _ & _ & _ & Hlt & _ & Hpe & Hc)]; [done|].
  split.
  - rewrite Hpe, map_size_insert. case_match; simpl; lia.
  - destruct Hc as [(_ & _ & ->)|(_ & _ & _ & -> & Hlt')]; [done|].
    rewrite map_size_insert. case_match; simpl; lia.
Qed.

(** ** Runs *)

(** One transaction of the callers; the clock does not go back.  [pending_mut]
    is only used to park a waker and to take a promotion. *)
Inductive fan_step (mp mf : N) : N * Fanout → N * Fanout → Prop :=
  | step_attach now now' f key owner deadline : now ≤ now' →
      fan_step mp mf (now, f) (now', (attach f key owner deadline now' mp mf).2)
  | step_expire now now' f error wake : now ≤ now' →
      fan_step mp mf (now, f) (now', (expire f now' error wake).1)
  | step_remove now f token : fan_step mp mf (now, f) (now, (fan_remove f token).2)
  | step_mut now f token g : (∀ p, slot_le (g p) p) →
      fan_step mp mf (now, f) (now, pending_mut f token g)
  | step_finish now f flight promote (St : Type) (complete : St → N → O → K → result V E * St) st wake :
      fan_step mp mf (now, f) (now, (fan_finish f flight promote complete st wake).1.1).

Lemma fan_default_inv : fan_inv 0 fanout_default.
Proof. by split. Qed.

Lemma fan_step_inv mp mf s s' :
  fan_step mp mf s s' → fan_inv s.1 s.2 ∧ fan_bounded mp mf s.2 →
  fan_inv s'.1 s'.2 ∧ fan_bounded mp mf s'.2.
Proof.
  intros Hs [Hi Hb]. destruct Hs; cbn [fst snd] in *.
  - split; [apply fan_inv_attach; by eapply fan_inv_later|by apply attach_bounded].
  - split; [eapply fan_inv_expire, fan_inv_later; eassumption|].
    destruct Hb. split; simpl; [by rewrite map_size_fmap|done].
  - split; [by apply fan_inv_remove|]. destruct Hb. split; simpl; [|done].
    rewrite map_size_delete. case_match; simpl; lia.
  - split; [by apply fan_inv_pending_mut|]. destruct Hb. split; simpl; [|done].
    rewrite <- size_dom, dom_alter_L, size_dom. done.
  - split; [by apply fan_inv_finish|by apply fan_finish_bounded].
Qed.

(** Whatever transactions run, in any order, the storage stays within both
    bounds, every unanswered response slot has an acquisition owner, and no two
    owners acquire the same key for slots that still wait. *)
Theorem fanout_run_invariant mp mf now f :
  rtc (fan_step mp mf) (0, fanout_default) (now, f) →
  N.of_nat (size (fan_pending f)) ≤ mp ∧ N.of_nat (size (fan_flights f)) ≤ mf ∧
  (∀ t p, fan_pending f !! t = Some p → pd_result p = None → is_Some (fan_flights f !! pd_flight p)) ∧
  (∀ t1 t2 k, fan_flights f !! t1 = Some k → fan_flights f !! t2 = Some k →
     live f t1 now → live f t2 now → t1 = t2).
Proof.
  intros Hr.
  assert (fan_inv now f ∧ fan_bounded mp mf f) as [Hi [Hb1 Hb2]].
  { enough (∀ s s', rtc (fan_step mp mf) s s' → fan_inv s.1 s.2 ∧ fan_bounded mp mf s.2 →
              fan_inv s'.1 s'.2 ∧ fan_bounded mp mf s'.2) as He.
    { apply (He _ _ Hr). split; [apply fan_default_inv|]. split; cbn; rewrite map_size_empty; lia. }
    induction 1; [done|]. eauto using fan_step_inv. }
  split_and!; [done..|apply Hi|apply Hi].
Qed.

(** Finishing a flight resolves every slot that waited on it: without an
    election each is answered once with the caller's result; with one, exactly the
    lowest follower owns the retained flight and is promoted, the others wait on
    it, and only the finished owner's own slot is answered.  All other slots are
    untouched. *)
Theorem finish_resolves_flight {St} now f flight promote
    (complete : St → N → O → K → result V E * St) st wake key t p :
  fan_inv now f → fan_flights f !! flight = Some key → fan_pending f !! t = Some p →
  let f' := (fan_finish f flight promote complete st wake).1.1 in
  fan_flights f' !! flight = None ∧
  ∃ p', fan_pending f' !! t = Some p' ∧
    (if decide (pd_flight p = flight ∧ pd_result p = None) then
       match elected f flight promote with
       | Some n =>
           fan_flights f' !! n = Some key ∧ n ∈ unanswered f flight ∧ n ≠ flight ∧
           if decide (t = flight) then is_some (pd_result p') = true
           else n ≤ t ∧ pd_flight p' = n ∧ pd_result p' = None ∧ (pd_promoted p' = true ↔ t = n)
       | None => ∃ st0, pd_result p' = Some (complete st0 t (pd_owner p) key).1
       end
     else p' = p).
Proof.
  intros Hinv Hk Hp f'.
  destruct (fan_finish_spec f flight promote complete st wake key Hk) as (_ & Hf & Hs).
  fold f' in Hf, Hs. specialize (Hs t). rewrite Hp in Hs. destruct Hs as (p' & Hp' & Hs).
  unfold finished_slot in Hs. rewrite Hf.
  destruct (elected f flight promote) as [n|] eqn:Hel.
  - apply elected_Some in Hel as (_ & Hne & Hun & Hmin).
    rewrite lookup_insert_ne, lookup_delete_eq by done. split; [done|]. exists p'. split; [done|].
    destruct (decide (pd_flight p = flight ∧ pd_result p = None)) as [Hd|]; [|done].
    rewrite lookup_insert_eq. split_and!; [done..|].
    destruct (decide (t = flight)); [by destruct Hs as [? ->]|]. subst p'. simpl.
    split_and!; [|done|apply Hd|apply N.eqb_eq].
    apply Hmin; [|done]. apply elem_of_unanswered. eauto.
  - rewrite lookup_delete_eq. split; [done|]. exists p'. split; [done|].
    case_decide; [|done]. destruct Hs as [st0 ->]. by exists st0.
Qed.
End fanout.
Arguments Pending : clear implicits.
Arguments Fanout : clear implicits.

(** A leader and two followers on one key; the leader's credentials are rejected. *)
Definition sample_fanout : Fanout N N N N N :=
  let f := (attach fanout_default 7 1 100 0 8 4).2 in
  let f := (attach f 7 2 100 0 8 4).2 in
  (attach f 7 3 100 0 8 4).2.

Lemma fanout_run_invariant_witness :
  rtc (fan_step 8 4) (0, fanout_default) (0, sample_fanout) ∧
  size (fan_pending sample_fanout) = 3%nat ∧ N.of_nat (size (fan_flights sample_fanout)) ≤ 4.
Proof.
  assert (rtc (fan_step 8 4) (0, fanout_default) (0, sample_fanout)) as Hr.
  { do 3 (eapply rtc_l; [by apply step_attach|]). apply rtc_refl. }
  split; [exact Hr|]. split; [reflexivity|].
  apply (fanout_run_invariant 8 4 0 sample_fanout Hr).
Defined.

Lemma finish_resolves_flight_witness :
  elected sample_fanout 1 true = Some 2 ∧
  fan_flights (fan_finish sample_fanout 1 true (λ (_ : unit) _ _ _, (Err 9, tt)) tt []).1.1 !! 1 = None.
Proof.
  split; [reflexivity|].
  eapply (finish_resolves_flight 0 sample_fanout 1 true (λ (_ : unit) _ _ _, (Err 9, tt)) tt [] 7 2).
  - do 3 (apply fan_inv_attach). apply fan_default_inv.
  - reflexivity.
  - reflexivity.
Defined.
