(* ===== verification/Subscriptions.v ===== *)
(** * The subscription scheduler ([core/src/subscriptions.rs])

    Contracts between a receiver and this node: admission with a replay window,
    page and byte budgets that only shrink, a vote over outstanding demand, and
    one shared flight per page.  [Scheduler] is the struct; a [&mut self] method
    returns its result and the new scheduler. *)

From S2P Require Import Prelude ObjectModel Intervals Sweep Fanout.
Local Open Scope N_scope.
Local Open Scope racer_scope.

Definition MAX_SUBSCRIPTION_FLIGHTS : N := 64.

(** The bytes debited per selection. *)
Definition RESERVE : N := PAGE_BYTES + 16.

Definition RETAIN_MS : N := 60000.
Definition PRUNE_INTERVAL_MS : N := 100.

Record SubscriptionLimits : Type := mkLimits {
  max_entries : N;
  max_completed_intervals : N;
  max_inflight : N;
  max_pending : N;
  max_flights_per_subscription : N
}.

Definition subscription_limits_default : SubscriptionLimits := mkLimits 1024 4096 64 256 8.

Definition limits_valid (l : SubscriptionLimits) : bool :=
  negb (max_entries l =? 0) && negb (max_completed_intervals l =? 0) && negb (max_inflight l =? 0)
  && negb (max_pending l =? 0) && negb (max_flights_per_subscription l =? 0)
  && (max_flights_per_subscription l <=? max_inflight l)
  && (max_flights_per_subscription l <=? max_pending l)
  && (max_flights_per_subscription l <=? MAX_SUBSCRIPTION_FLIGHTS).

Definition MAX_DEMAND_INTERVALS : N := 64.

(** [Demand] wraps canonical intervals; [demand_new] is its only constructor. *)
Definition Demand : Type := list Interval.

Definition demand_new (intervals : list Interval) : option Demand :=
  if canonical intervals MAX_DEMAND_INTERVALS then Some intervals else None.

Definition demand_page_count (d : Demand) : N := sum_by (λ i, i_end i - i_start i) d.

Inductive Kind : Type :=
  | Kind_DeadlineExceeded | Kind_Cancelled | Kind_Overloaded | Kind_Unavailable
  | Kind_StaleFlight | Kind_Replay | Kind_InvalidRequest.

#[export] Instance Kind_eq_dec : EqDecision Kind.
Proof. solve_decision. Defined.

(** [Reservation]: the selecting request's own terms and the widening recorded for it. *)
Record Reservation : Type := mkReservation {
  rv_sequence : N;
  rv_demand : Demand;
  rv_page_budget : N;
  rv_byte_budget : N;
  rv_deadline : N;
  rv_flights : option N;
  rv_covered_page : bool;
  rv_covered_bytes : N
}.

Definition set_cover (r : Reservation) (page : bool) (bytes : N) : Reservation :=
  mkReservation (rv_sequence r) (rv_demand r) (rv_page_budget r) (rv_byte_budget r)
    (rv_deadline r) (rv_flights r) page bytes.

(** The scheduler's [Flight]: one selected page of one contract. *)
Record SubFlight : Type := mkSubFlight {
  fl_token : N;
  fl_page : N;
  fl_reservation : Reservation;
  fl_settled : bool
}.

Section types.
Context {M R V P : Type}.

Record Contract : Type := mkContract {
  ct_id : N;
  ct_version : V;
  ct_demand : Demand;
  ct_sequence : N;
  ct_page_budget : N;
  ct_byte_budget : N;
  ct_flights : option N
}.

Record EntryKey : Type := mkEntryKey {
  ek_membership : M;
  ek_receiver : R;
  ek_id : N
}.

Record Grant : Type := mkGrant {
  gr_subscription_id : N;
  gr_sequence : N;
  gr_version : V;
  gr_page : N;
  gr_membership : M;
  gr_receiver : R;
  gr_deadline : N;
  gr_remaining_page_budget : N;
  gr_remaining_byte_budget : N;
  gr_flights : option N
}.

Record Delivery : Type := mkDelivery { dl_payload : P; dl_grant : Grant }.

Record Selected : Type := mkSelected {
  sel_waiter : N;
  sel_work : option N;
  sel_version : V;
  sel_page : N
}.

Record Entry : Type := mkEntry {
  en_subscription : Contract;
  en_deadline : N;
  en_completed : list Interval;
  en_flights : N;
  en_seen : N;
  en_admitted : list Reservation;
  en_pending : list SubFlight;
  en_pledges : list (N * bool * N)
}.

Record FlightKey : Type := mkFlightKey {
  fk_membership : M;
  fk_version : V;
  fk_page : N
}.
End types.
Arguments Contract : clear implicits.
Arguments EntryKey : clear implicits.
Arguments Grant : clear implicits.
Arguments Delivery : clear implicits.
Arguments Selected : clear implicits.
Arguments Entry : clear implicits.
Arguments FlightKey : clear implicits.

#[export] Instance EntryKey_eq_dec {M R} `{EqDecision M, EqDecision R} : EqDecision (EntryKey M R).
Proof. solve_decision. Defined.

#[export] Instance FlightKey_eq_dec {M V} `{EqDecision M, EqDecision V} : EqDecision (FlightKey M V).
Proof. solve_decision. Defined.

#[export] Instance EntryKey_countable {M R} `{Countable M, Countable R} : Countable (EntryKey M R).
Proof.
  refine (inj_countable' (λ k, (ek_membership k, ek_receiver k, ek_id k))
                         (λ '(m, r, i), mkEntryKey m r i) _). by intros [].
Defined.

(** Result of polling a response slot. *)
Inductive Polled (T : Type) : Type :=
  | Polled_Ready (t : T)
  | Polled_Pending.
Arguments Polled_Ready {T} t.
Arguments Polled_Pending {T}.

(** ** One contract's entry *)

Section entry.
Context {V : Type}.
Implicit Types (e : Entry V) (c : Contract V).

Definition with_budgets c (page byte : N) : Contract V :=
  mkContract (ct_id c) (ct_version c) (ct_demand c) (ct_sequence c) page byte (ct_flights c).

Definition set_subscription e c : Entry V :=
  mkEntry c (en_deadline e) (en_completed e) (en_flights e) (en_seen e) (en_admitted e)
    (en_pending e) (en_pledges e).
Definition set_budgets e (page byte : N) : Entry V :=
  set_subscription e (with_budgets (en_subscription e) page byte).
Definition set_deadline e (deadline : N) : Entry V :=
  mkEntry (en_subscription e) deadline (en_completed e) (en_flights e) (en_seen e) (en_admitted e)
    (en_pending e) (en_pledges e).
Definition set_completed e (completed : list Interval) : Entry V :=
  mkEntry (en_subscription e) (en_deadline e) completed (en_flights e) (en_seen e) (en_admitted e)
    (en_pending e) (en_pledges e).
Definition set_flights e (flights : N) : Entry V :=
  mkEntry (en_subscription e) (en_deadline e) (en_completed e) flights (en_seen e) (en_admitted e)
    (en_pending e) (en_pledges e).
Definition set_seen e (seen : N) : Entry V :=
  mkEntry (en_subscription e) (en_deadline e) (en_completed e) (en_flights e) seen (en_admitted e)
    (en_pending e) (en_pledges e).
Definition set_admitted e (admitted : list Reservation) : Entry V :=
  mkEntry (en_subscription e) (en_deadline e) (en_completed e) (en_flights e) (en_seen e) admitted
    (en_pending e) (en_pledges e).
Definition set_flying e (pending : list SubFlight) : Entry V :=
  mkEntry (en_subscription e) (en_deadline e) (en_completed e) (en_flights e) (en_seen e)
    (en_admitted e) pending (en_pledges e).
Definition set_pledges e (pledges : list (N * bool * N)) : Entry V :=
  mkEntry (en_subscription e) (en_deadline e) (en_completed e) (en_flights e) (en_seen e)
    (en_admitted e) (en_pending e) pledges.

Definition page_budget e : N := ct_page_budget (en_subscription e).
Definition byte_budget e : N := ct_byte_budget (en_subscription e).

Definition reservation c (deadline : N) : Reservation :=
  mkReservation (ct_sequence c) (ct_demand c) (ct_page_budget c) (ct_byte_budget c) deadline
    (ct_flights c) false 0.

Definition forfeit e (page : bool) (bytes : N) : Entry V :=
  set_budgets e (if page then page_budget e - 1 else page_budget e) (byte_budget e - bytes).

(** Lower sequences in the window that have not arrived. *)
Definition unseen_sequences e (sequence : N) : list N :=
  (λ offset, sequence - offset) <$>
    List.filter (λ offset, (offset <=? sequence) && negb (N.testbit (en_seen e) offset))
      (N.of_nat <$> seq 1 (N.to_nat (N.min (en_flights e) 64) - 1)).

(** The three loops that hand out the widening; [(pages, bytes)] is what is left. *)
Fixpoint cover_admitted (sequence : N) (l : list Reservation) (pages bytes : N)
    : list Reservation * N * N :=
  match l with
  | [] => ([], pages, bytes)
  | r :: rest =>
      if rv_sequence r =? sequence
      then let '(l, pages, bytes) := cover_admitted sequence rest pages bytes in (r :: l, pages, bytes)
      else let covered := N.min bytes RESERVE in
           let r := set_cover r (0 <? pages) covered in
           let '(l, pages, bytes) := cover_admitted sequence rest (pages - 1) (bytes - covered) in
           (r :: l, pages, bytes)
  end.

Definition set_fl_reservation (fl : SubFlight) (r : Reservation) : SubFlight :=
  mkSubFlight (fl_token fl) (fl_page fl) r (fl_settled fl).

Fixpoint cover_pending (l : list SubFlight) (bytes : N) : list SubFlight * N :=
  match l with
  | [] => ([], bytes)
  | fl :: rest =>
      if fl_settled fl
      then let '(l, bytes) := cover_pending rest bytes in (fl :: l, bytes)
      else let covered := N.min bytes RESERVE in
           let r := fl_reservation fl in
           let fl := set_fl_reservation fl (set_cover r (rv_covered_page r) covered) in
           let '(l, bytes) := cover_pending rest (bytes - covered) in
           (fl :: l, bytes)
  end.

Fixpoint make_pledges (unseen : list N) (pages bytes : N) : list (N * bool * N) :=
  match unseen with
  | [] => []
  | s :: rest =>
      let covered := N.min bytes RESERVE in
      (s, 0 <? pages, covered) :: make_pledges rest (pages - 1) (bytes - covered)
  end.

Definition apply_ceiling e (sequence page_ceiling byte_ceiling : N) : Entry V :=
  let unseen := unseen_sequences e sequence in
  let pages := len (List.filter (λ r, negb (rv_sequence r =? sequence)) (en_admitted e)) + len unseen in
  let flights := pages + len (List.filter (λ fl, negb (fl_settled fl)) (en_pending e)) in
  let page := N.min (page_budget e) (saturating_add U32_MAX page_ceiling (N.min pages U32_MAX)) in
  let byte := N.min (byte_budget e)
                (saturating_add U64_MAX byte_ceiling (saturating_mul U64_MAX RESERVE flights)) in
  let '(admitted, pages, bytes) :=
    cover_admitted sequence (en_admitted e) (page - page_ceiling) (byte - byte_ceiling) in
  let '(pending, bytes) := cover_pending (en_pending e) bytes in
  set_pledges (set_flying (set_admitted (set_budgets e page byte) admitted) pending)
    (make_pledges unseen pages bytes).

(** Hand a late request the allowance pledged for its sequence, if any. *)
Definition take_pledge e (r : Reservation) : Reservation * Entry V :=
  match position (λ pl, pl.1.1 =? rv_sequence r) (en_pledges e) with
  | Some index =>
      match swap_remove index (en_pledges e) with
      | Some ((_, page, bytes), pledges) => (set_cover r page bytes, set_pledges e pledges)
      | None => (r, e)
      end
  | None => (r, e)
  end.

Definition reserve e (r : Reservation) : result unit Kind * Entry V :=
  if en_flights e <=? len (en_pending e) then (Err Kind_Overloaded, e)
  else if en_flights e <=? len (en_admitted e) + len (en_pending e) then
    match min_by_key rv_sequence (en_admitted e) with
    | None => (Ok tt, set_admitted e (en_admitted e ++ [r])) (* the [expect]: unreachable *)
    | Some (index, oldest) =>
        if rv_sequence r <? rv_sequence oldest then (Err Kind_Replay, e)
        else match swap_remove index (en_admitted e) with
             | Some (oldest, admitted) =>
                 let e := forfeit (set_admitted e admitted) (rv_covered_page oldest)
                            (rv_covered_bytes oldest) in
                 (Ok tt, set_admitted e (en_admitted e ++ [r]))
             | None => (Ok tt, e)
             end
    end
  else (Ok tt, set_admitted e (en_admitted e ++ [r])).
End entry.

(** ** The scheduler *)

Section scheduler.
Context {M R V P E : Type} `{Countable M} `{Countable R} `{EqDecision V}.
(** [E: From<Kind>]. *)
Context (from_kind : Kind → E).

#[local] Notation Key := (EntryKey M R).
#[local] Notation Slots := (Fanout (FlightKey M V) Key (Delivery M R V P) E N).
#[local] Notation Slot := (Pending Key (Delivery M R V P) E N).

Record Scheduler : Type := mkScheduler {
  sc_limits : SubscriptionLimits;
  sc_now : N;
  sc_next_prune : N;
  sc_entries : gmap Key (Entry V);
  sc_fanout : Slots;
  sc_completed_intervals : N;
  sc_wake : list N
}.

Definition set_entries (s : Scheduler) (m : gmap Key (Entry V)) : Scheduler :=
  mkScheduler (sc_limits s) (sc_now s) (sc_next_prune s) m (sc_fanout s)
    (sc_completed_intervals s) (sc_wake s).
Definition set_fanout (s : Scheduler) (f : Slots) : Scheduler :=
  mkScheduler (sc_limits s) (sc_now s) (sc_next_prune s) (sc_entries s) f
    (sc_completed_intervals s) (sc_wake s).
Definition set_entry (s : Scheduler) (k : Key) (e : Entry V) : Scheduler :=
  set_entries s (<[k := e]> (sc_entries s)).

Definition scheduler_new (limits : SubscriptionLimits) : option Scheduler :=
  if limits_valid limits
  then Some (mkScheduler limits 0 0 ∅ fanout_default 0 []) else None.

Definition take_wakes (s : Scheduler) : list N * Scheduler :=
  (sc_wake s, mkScheduler (sc_limits s) (sc_now s) (sc_next_prune s) (sc_entries s) (sc_fanout s)
                (sc_completed_intervals s) []).

(** A contract is retained until its deadline plus the freshness window. *)
Definition retained (now : N) (e : Entry V) : bool :=
  now <? saturating_add U64_MAX (en_deadline e) RETAIN_MS.

Definition advance (s : Scheduler) (now_ms : N) : Scheduler :=
  let now := N.max (sc_now s) now_ms in
  let '(fanout, wake) := expire (sc_fanout s) now (from_kind Kind_DeadlineExceeded) (sc_wake s) in
  if now <? sc_next_prune s
  then mkScheduler (sc_limits s) now (sc_next_prune s) (sc_entries s) fanout
         (sc_completed_intervals s) wake
  else
    let dropped := filter (λ kv, retained now kv.2 = false) (sc_entries s) in
    mkScheduler (sc_limits s) now (saturating_add U64_MAX now PRUNE_INTERVAL_MS)
      (filter (λ kv, retained now kv.2 = true) (sc_entries s)) fanout
      (sc_completed_intervals s - map_sum (λ e, len (en_completed e)) dropped) wake.

(** A request whose sequence is not above the newest one. *)
Definition admit_late (e : Entry V) (c : Contract V) (deadline : N) : result unit Kind * Entry V :=
  let offset := ct_sequence (en_subscription e) - ct_sequence c in
  if (en_flights e <=? offset) || N.testbit (en_seen e) offset then (Err Kind_Replay, e)
  else if bool_decide (ct_version (en_subscription e) ≠ ct_version c) then (Err Kind_InvalidRequest, e)
  else
    match reserve e (reservation c deadline) with
    | (Err k, e) => (Err k, e)
    | (Ok _, e) =>
        match last (en_admitted e) with
        | None => (Ok tt, e) (* [expect("just reserved")]: unreachable *)
        | Some r =>
            let e := set_admitted e (take (length (en_admitted e) - 1) (en_admitted e)) in
            let '(r, e) := take_pledge e r in
            let e := set_admitted e (en_admitted e ++ [r]) in
            (Ok tt, set_seen e (N.lor (en_seen e) (N.shiftl 1 offset)))
        end
    end.

(** A request above the newest sequence: it replaces demand, budgets and deadline. *)
Definition admit_newer (e : Entry V) (c : Contract V) (deadline granted : N)
    : result unit Kind * Entry V :=
  let strict := en_flights e =? 1 in
  if bool_decide (ct_version (en_subscription e) ≠ ct_version c)
     || (strict && ((en_deadline e <? deadline) || (page_budget e <? ct_page_budget c)
                    || (byte_budget e <? ct_byte_budget c)))
  then (Err Kind_InvalidRequest, e)
  else
    let flights := N.min (en_flights e) granted in
    if flights <=? len (en_pending e) then (Err Kind_Overloaded, e)
    else
      match reserve (set_flights e flights) (reservation c deadline) with
      | (Err k, e) => (Err k, e)
      | (Ok _, e) =>
          let shift := ct_sequence c - ct_sequence (en_subscription e) in
          let seen := N.lor (if 64 <=? shift then 0 else N.shiftl (en_seen e) shift mod 2 ^ 64) 1 in
          let e := set_deadline (set_seen e seen) (N.min (en_deadline e) deadline) in
          let e := apply_ceiling e (ct_sequence c) (ct_page_budget c) (ct_byte_budget c) in
          (Ok tt, set_subscription e (with_budgets c (page_budget e) (byte_budget e)))
      end.

Definition admit_at (s : Scheduler) (c : Contract V) (membership : M) (receiver : R) (deadline : N)
    : result (Key * N) Kind * Scheduler :=
  let granted := N.min (default 1 (ct_flights c)) (max_flights_per_subscription (sc_limits s)) in
  if deadline <=? sc_now s then (Err Kind_DeadlineExceeded, s)
  else
    let key := mkEntryKey membership receiver (ct_id c) in
    let sequence := ct_sequence c in
    match sc_entries s !! key with
    | Some e =>
        let '(r, e) := if sequence <=? ct_sequence (en_subscription e)
                       then admit_late e c deadline
                       else admit_newer e c deadline granted in
        (let? _ := r in Ok (key, sequence), set_entry s key e)
    | None =>
        if existsb (λ oe, bool_decide (ek_membership oe.1 = membership)
                          && bool_decide (ek_receiver oe.1 = receiver)
                          && bool_decide (ct_version (en_subscription oe.2) = ct_version c)
                          && (sc_now s <? en_deadline oe.2))
                   (map_to_list (sc_entries s))
        then (Err Kind_Overloaded, s)
        else if max_entries (sc_limits s) <=? N.of_nat (size (sc_entries s))
        then (Err Kind_Overloaded, s)
        else
          let e := mkEntry c deadline [] granted 1 [reservation c deadline] [] [] in
          (Ok (key, sequence), set_entry s key e)
    end.

(** [map_err(E::from)]. *)
Definition map_err {A} (r : result A Kind) : result A E :=
  match r with Ok a => Ok a | Err k => Err (from_kind k) end.

Definition sub_admit (s : Scheduler) (c : Contract V) (membership : M) (receiver : R)
    (deadline now_ms : N) : result (Key * N) E * Scheduler :=
  let '(r, s) := admit_at (advance s now_ms) c membership receiver deadline in (map_err r, s).

Definition sub_release (s : Scheduler) (admitted : Key * N) : Scheduler :=
  match sc_entries s !! admitted.1 with
  | None => s
  | Some e =>
      match position (λ r, rv_sequence r =? admitted.2) (en_admitted e) with
      | None => s
      | Some index =>
          match swap_remove index (en_admitted e) with
          | Some (r, rest) =>
              set_entry s admitted.1
                (forfeit (set_admitted e rest) (rv_covered_page r) (rv_covered_bytes r))
          | None => s
          end
      end
  end.

(** The vote one entry casts, if it may vote. *)
Definition entry_vote (s : Scheduler) (target : Key) (version : V) (demand : Demand)
    (ke : Key * Entry V) : option (Vote R) :=
  let '(key, e) := ke in
  if negb (bool_decide (ek_membership key = ek_membership target))
     || negb (bool_decide (ct_version (en_subscription e) = version))
     || (en_deadline e <=? sc_now s)
     || (byte_budget e =? 0)
     || ((page_budget e =? 0) && bool_decide (en_pending e = []))
  then None
  else if negb (bool_decide (key = target))
  then Some (ek_receiver key, false, outstanding (ct_demand (en_subscription e)) (en_completed e))
  else
    let done := foldl (λ done fl, include done (fl_page fl)) (en_completed e) (en_pending e) in
    Some (ek_receiver key, true, outstanding demand done).

Definition vote (s : Scheduler) (target : Key) (version : V) (demand : Demand)
    (eligible : N → option bool) : result (option N) N :=
  select (omap (entry_vote s target version demand) (map_to_list (sc_entries s))) eligible.

(** The guards of [select_at] before it votes: the entry and the admitted request. *)
Definition select_guard (s : Scheduler) (key : Key) (sequence : N) : result (Entry V * Reservation) Kind :=
  let? e := ok_or (sc_entries s !! key) Kind_DeadlineExceeded in
  if en_deadline e <=? sc_now s then Err Kind_DeadlineExceeded
  else if en_flights e <=? len (en_pending e) then Err Kind_Overloaded
  else
    let? r := ok_or (find (λ r, rv_sequence r =? sequence) (en_admitted e)) Kind_Replay in
    if (page_budget e =? 0) || (byte_budget e =? 0) || (rv_page_budget r =? 0) || (rv_byte_budget r =? 0)
    then Err Kind_Unavailable
    else if max_pending (sc_limits s) <=? N.of_nat (size (fan_pending (sc_fanout s)))
    then Err Kind_Overloaded
    else Ok (e, r).

(** The entry after page [number] is selected for [r] with response slot [token]. *)
Definition note_selected (e : Entry V) (r : Reservation) (token number : N) : Entry V :=
  let e := set_budgets e (page_budget e - 1) (byte_budget e) in
  let e := set_admitted e (List.filter (λ r', negb (rv_sequence r' =? rv_sequence r)) (en_admitted e)) in
  set_flying e (en_pending e ++
    [mkSubFlight token number (set_cover r false (rv_covered_bytes r)) false]).

Definition select_at (s : Scheduler) (admitted : Key * N) (eligible : N → option bool)
    : result (result (Selected V) N) Kind * Scheduler :=
  let '(key, sequence) := admitted in
  match select_guard s key sequence with
  | Err k => (Err k, s)
  | Ok (e, r) =>
      let version := ct_version (en_subscription e) in
      match vote s key version (rv_demand r) eligible with
      | Err page => (Ok (Err page), s)
      | Ok None => (Err Kind_Unavailable, s)
      | Ok (Some number) =>
          match attach (sc_fanout s) (mkFlightKey (ek_membership key) version number) key
                  (N.min (en_deadline e) (rv_deadline r)) (sc_now s)
                  (max_pending (sc_limits s)) (max_inflight (sc_limits s)) with
          | (None, f) => (Err Kind_Overloaded, set_fanout s f)
          | (Some (token, flight, leader), f) =>
              (Ok (Ok (mkSelected token (if leader then Some flight else None) version number)),
               set_entry (set_fanout s f) key (note_selected e r token number))
          end
      end
  end.

Definition sub_select (s : Scheduler) (admitted : Key * N) (now_ms : N) (eligible : N → option bool)
    : result (result (Selected V) N) E * Scheduler :=
  let '(r, s) := select_at (advance s now_ms) admitted eligible in (map_err r, s).

(** Drop flight [token] from its contract, forfeiting what it will not charge. *)
Definition drop_flight (e : Entry V) (token : N) : Entry V :=
  match position (λ fl, fl_token fl =? token) (en_pending e) with
  | None => e
  | Some index =>
      match swap_remove index (en_pending e) with
      | None => e
      | Some (fl, rest) =>
          let e := set_flying e rest in
          if fl_settled fl then e else forfeit e false (rv_covered_bytes (fl_reservation fl))
      end
  end.

Definition remove_pending (s : Scheduler) (token : N) : option Slot * Scheduler :=
  match fan_remove (sc_fanout s) token with
  | (None, _) => (None, s)
  | (Some slot, f) =>
      let s := set_fanout s f in
      (Some slot,
       match sc_entries s !! pd_owner slot with
       | None => s
       | Some e => set_entry s (pd_owner slot) (drop_flight e token)
       end)
  end.

Definition settle_flight (l : list SubFlight) (token : N) : list SubFlight :=
  match position (λ fl, fl_token fl =? token) l with
  | None => l
  | Some i => alter (λ fl, mkSubFlight (fl_token fl) (fl_page fl) (fl_reservation fl) true) i l
  end.

(** What [complete] charges one contract: the grant, and the entry after the charge. *)
Definition grant_one (limit completed_intervals : N) (e : Entry V) (owner : Key)
    (key : FlightKey M V) (token bytes : N) : result (Grant M R V * Entry V * N) Kind :=
  let? fl := ok_or (find (λ fl, fl_token fl =? token) (en_pending e)) Kind_StaleFlight in
  let r := fl_reservation fl in
  let? contract := ok_or (checked_sub (byte_budget e) (N.max bytes (rv_covered_bytes r))) Kind_Unavailable in
  let? remaining := ok_or (checked_sub (rv_byte_budget r) bytes) Kind_Unavailable in
  let grant := mkGrant (ek_id owner) (rv_sequence r) (fk_version key) (fk_page key)
                 (ek_membership owner) (ek_receiver owner) (N.min (en_deadline e) (rv_deadline r))
                 (rv_page_budget r - 1) remaining ((λ requested, N.min (en_flights e) requested) <$> rv_flights r) in
  let completed := include (en_completed e) (fk_page key) in
  let count := completed_intervals - len (en_completed e) + len completed in
  if limit <? count then Err Kind_Overloaded
  else
    let e := set_completed e completed in
    let e := set_budgets e (page_budget e) contract in
    Ok (grant, set_flying e (settle_flight (en_pending e) token), count).

(** The closure of [finish], over the entries and the interval count. *)
Definition complete_one (limit : N) (result : result (P * N) E)
    (st : gmap Key (Entry V) * N) (token : N) (owner : Key) (key : FlightKey M V)
    : Prelude.result (Delivery M R V P) E * (gmap Key (Entry V) * N) :=
  match result with
  | Err e => (Err e, st)
  | Ok (payload, bytes) =>
      match st.1 !! owner with
      | None => (Err (from_kind Kind_DeadlineExceeded), st)
      | Some e =>
          match grant_one limit st.2 e owner key token bytes with
          | Err k => (Err (from_kind k), st)
          | Ok (grant, e, count) => (Ok (mkDelivery payload grant), (<[owner := e]> st.1, count))
          end
      end
  end.

Definition sub_finish (s : Scheduler) (flight : N) (result : result (P * N) E) (promote : bool)
    : Scheduler :=
  let promote := promote && negb (is_ok result) in
  let '(f, st, wake) :=
    fan_finish (sc_fanout s) flight promote
      (complete_one (max_completed_intervals (sc_limits s)) result)
      (sc_entries s, sc_completed_intervals s) (sc_wake s) in
  mkScheduler (sc_limits s) (sc_now s) (sc_next_prune s) st.1 f st.2 wake.

Definition cancel_work (s : Scheduler) (work : N) : Scheduler :=
  sub_finish s work (Err (from_kind Kind_Cancelled)) false.

Definition sub_complete (s : Scheduler) (work : N) (result : result (P * N) E) (promote : bool)
    (now_ms : option N) : Scheduler :=
  let s := match now_ms with Some now => advance s now | None => s end in
  sub_finish s work result promote.

Definition set_promoted (b : bool) (p : Slot) : Slot :=
  mkPending (pd_owner p) (pd_flight p) (pd_deadline p) (pd_result p) (pd_waker p) b.

Definition set_waker (w : N) (p : Slot) : Slot :=
  mkPending (pd_owner p) (pd_flight p) (pd_deadline p) (pd_result p) (Some w) (pd_promoted p).

Definition take_work (s : Scheduler) (waiter now_ms : N) : option (N * V * N) * Scheduler :=
  let s := advance s now_ms in
  match fan_pending (sc_fanout s) !! waiter with
  | None => (None, s)
  | Some slot =>
      if negb (pd_promoted slot) || is_some (pd_result slot) then (None, s)
      else
        let s := set_fanout s (pending_mut (sc_fanout s) waiter (set_promoted false)) in
        match fan_flights (sc_fanout s) !! pd_flight slot with
        | None => (None, s)
        | Some key => (Some (pd_flight slot, fk_version key, fk_page key), s)
        end
  end.

Definition cancel_if_promoted (s : Scheduler) (slot : Slot) : Scheduler :=
  if pd_promoted slot then cancel_work s (pd_flight slot) else s.

Definition sub_poll (s : Scheduler) (waiter now_ms : N)
    : Polled (result (Delivery M R V P) E) * Scheduler :=
  let s := advance s now_ms in
  match fan_pending (sc_fanout s) !! waiter with
  | None => (Polled_Ready (Err (from_kind Kind_StaleFlight)), s)
  | Some slot =>
      match pd_result slot with
      | None => (Polled_Pending, set_fanout s (pending_mut (sc_fanout s) waiter (set_waker waiter)))
      | Some r => (Polled_Ready r, cancel_if_promoted (remove_pending s waiter).2 slot)
      end
  end.

Definition cancel_waiter (s : Scheduler) (waiter : N) : Scheduler :=
  match remove_pending s waiter with
  | (None, s) => s
  | (Some slot, s) => cancel_if_promoted s slot
  end.
End scheduler.
