(* ===== verification/SubscriptionEntry.v ===== *)
(** * One subscription contract

    What every operation of [core/src/subscriptions.rs] does to a single [Entry]:
    budgets, flights and the deadline only shrink, an admitted sequence is spent
    for good, and the widening handed out by newer ceilings stays accounted for. *)

From S2P Require Import Prelude ObjectModel Intervals Fanout Subscriptions.
Local Open Scope N_scope.

Lemma list_filter_all {A} (f : A → bool) l : (∀ x, x ∈ l → f x = true) → List.filter f l = l.
Proof.
  induction l as [|x l IH]; intros Hf; simpl; [done|]. rewrite Hf by set_solver. f_equal. apply IH. set_solver.
Qed.

Section entry_facts.
Context {V : Type} `{EqDecision V}.
Implicit Types (e : Entry V) (c : Contract V) (r : Reservation).

Definition b2n (b : bool) : N := if b then 1 else 0.

(** Widening recorded on account of requests that have not charged it yet. *)
Definition page_cover e : N :=
  sum_by (λ r, b2n (rv_covered_page r)) (en_admitted e) + sum_by (λ pl, b2n pl.1.2) (en_pledges e).

Definition flight_cover (fl : SubFlight) : N :=
  if fl_settled fl then 0 else rv_covered_bytes (fl_reservation fl).

Definition byte_cover e : N :=
  sum_by rv_covered_bytes (en_admitted e) + sum_by flight_cover (en_pending e)
  + sum_by (λ pl, pl.2) (en_pledges e).

(** The contract exceeds the ceilings at most by the recorded widening. *)
Definition accounted (pc bc : N) e : Prop :=
  page_budget e ≤ pc + page_cover e ∧ byte_budget e ≤ bc + byte_cover e.

Definition latest e : N := ct_sequence (en_subscription e).

(** Sequence [s] can not be admitted again. *)
Definition spent e (s : N) : Prop :=
  s ≤ latest e ∧ (latest e - s < 64 → N.testbit (en_seen e) (latest e - s) = true).

#[export] Instance spent_dec e s : Decision (spent e s).
Proof. unfold spent. apply _. Defined.

(** Nothing a contract promised grows back. *)
Record evolves (e e' : Entry V) : Prop := {
  ev_page : page_budget e' ≤ page_budget e;
  ev_byte : byte_budget e' ≤ byte_budget e;
  ev_flights : en_flights e' ≤ en_flights e;
  ev_deadline : en_deadline e' ≤ en_deadline e;
  ev_latest : latest e ≤ latest e';
  ev_spent : ∀ s, spent e s → spent e' s
}.

#[export] Instance evolves_preorder : PreOrder evolves.
Proof.
  split.
  - intros e. split; auto with lia.
  - intros e1 e2 e3 [] []. split; eauto using N.le_trans.
Qed.

(** ** The loops of [apply_ceiling] *)

Lemma cover_admitted_spec sequence l pages bytes l' pages' bytes' :
  cover_admitted sequence l pages bytes = (l', pages', bytes') →
  let n := len (List.filter (λ r, negb (rv_sequence r =? sequence)) l) in
  pages' = pages - n ∧ bytes' = bytes - RESERVE * n ∧
  pages ≤ sum_by (λ r, b2n (rv_covered_page r)) l' + pages' ∧
  bytes ≤ sum_by rv_covered_bytes l' + bytes' ∧
  rv_sequence <$> l' = rv_sequence <$> l ∧
  Forall2 (λ r' r, rv_page_budget r' = rv_page_budget r ∧ rv_byte_budget r' = rv_byte_budget r ∧
                   rv_demand r' = rv_demand r) l' l.
Proof.
  revert pages bytes l' pages' bytes'.
  induction l as [|r l IH]; intros pages bytes l' pages' bytes'; cbn [cover_admitted List.filter].
  { intros [= <- <- <-]. cbn. unfold len. simpl. split_and!; try done; lia. }
  destruct (N.eqb_spec (rv_sequence r) sequence) as [Hs|Hs]; cbn [negb].
  - destruct (cover_admitted sequence l pages bytes) as [[l1 p1] b1] eqn:E. intros [= <- <- <-].
    apply IH in E as (-> & -> & Hp & Hb & Hq & Hf). cbn [sum_by foldr] in *. unfold sum_by in *.
    split_and!; [done|done|lia|lia|by csimpl; f_equal|by constructor].
  - destruct (cover_admitted sequence l _ _) as [[l1 p1] b1] eqn:E. intros [= <- <- <-].
    apply IH in E as (-> & -> & Hp & Hb & Hq & Hf). rewrite len_cons.
    set (n := len _) in *. clearbody n. unfold sum_by in *. cbn in *.
    assert (b2n (0 <? pages) = N.min pages 1) as -> by (destruct (N.ltb_spec 0 pages); simpl; lia).
    split_and!; [lia|lia|lia|lia|by f_equal|by constructor].
Qed.

Lemma cover_pending_spec l bytes l' bytes' :
  cover_pending l bytes = (l', bytes') →
  let n := len (List.filter (λ fl, negb (fl_settled fl)) l) in
  bytes' = bytes - RESERVE * n ∧ bytes ≤ sum_by flight_cover l' + bytes' ∧
  Forall2 (λ fl' fl, fl_token fl' = fl_token fl ∧ fl_page fl' = fl_page fl ∧
                     fl_settled fl' = fl_settled fl ∧
                     rv_page_budget (fl_reservation fl') = rv_page_budget (fl_reservation fl) ∧
                     rv_byte_budget (fl_reservation fl') = rv_byte_budget (fl_reservation fl)) l' l.
Proof.
  revert bytes l' bytes'. induction l as [|fl l IH]; intros bytes l' bytes'; cbn [cover_pending List.filter].
  { intros [= <- <-]. unfold len. simpl. split_and!; try done; lia. }
  destruct (fl_settled fl) eqn:Hs; cbn [negb].
  - destruct (cover_pending l bytes) as [l1 b1] eqn:E. intros [= <- <-].
    apply IH in E as (-> & Hb & Hf). unfold sum_by, flight_cover in *. cbn. rewrite Hs.
    split_and!; [done|lia|by constructor].
  - destruct (cover_pending l _) as [l1 b1] eqn:E. intros [= <- <-].
    apply IH in E as (-> & Hb & Hf). rewrite len_cons. set (n := len _) in *. clearbody n.
    unfold sum_by in *. cbn. unfold flight_cover at 1. cbn. rewrite Hs.
    split_and!; [lia|lia|by constructor].
Qed.

Lemma make_pledges_spec unseen pages bytes :
  pages ≤ sum_by (λ pl, b2n pl.1.2) (make_pledges unseen pages bytes) + (pages - len unseen) ∧
  bytes ≤ sum_by (λ pl, pl.2) (make_pledges unseen pages bytes) + (bytes - RESERVE * len unseen).
Proof.
  revert pages bytes. induction unseen as [|s unseen IH]; intros pages bytes; cbn [make_pledges].
  { unfold sum_by, len. simpl. lia. }
  specialize (IH (pages - 1) (bytes - N.min bytes RESERVE)). rewrite len_cons.
  set (n := len unseen) in *. clearbody n. unfold sum_by in *. cbn.
  assert (b2n (0 <? pages) = N.min pages 1) as -> by (destruct (N.ltb_spec 0 pages); simpl; lia).
  unfold RESERVE, PAGE_BYTES in *. lia.
Qed.

Lemma apply_ceiling_spec e sequence pc bc :
  let e' := apply_ceiling e sequence pc bc in
  accounted pc bc e' ∧
  page_budget e' ≤ page_budget e ∧ byte_budget e' ≤ byte_budget e ∧
  latest e' = latest e ∧ en_flights e' = en_flights e ∧ en_deadline e' = en_deadline e ∧
  en_seen e' = en_seen e ∧ en_completed e' = en_completed e ∧
  rv_sequence <$> en_admitted e' = rv_sequence <$> en_admitted e ∧
  Forall2 (λ r' r, rv_page_budget r' = rv_page_budget r ∧ rv_byte_budget r' = rv_byte_budget r ∧
                   rv_demand r' = rv_demand r) (en_admitted e') (en_admitted e) ∧
  Forall2 (λ fl' fl, fl_token fl' = fl_token fl ∧ fl_page fl' = fl_page fl ∧
                     fl_settled fl' = fl_settled fl ∧
                     rv_page_budget (fl_reservation fl') = rv_page_budget (fl_reservation fl) ∧
                     rv_byte_budget (fl_reservation fl') = rv_byte_budget (fl_reservation fl))
    (en_pending e') (en_pending e).
Proof.
  unfold apply_ceiling. set (un := unseen_sequences e sequence). set (na := len (List.filter _ (en_admitted e))).
  set (np := len (List.filter _ (en_pending e))).
  set (page := N.min (page_budget e) _). set (byte := N.min (byte_budget e) _).
  destruct (cover_admitted _ _ _ _) as [[l1 p1] b1] eqn:E1.
  destruct (cover_pending _ _) as [l2 b2] eqn:E2.
  apply cover_admitted_spec in E1 as (-> & -> & Hp1 & Hb1 & Hq & Hf1).
  apply cover_pending_spec in E2 as (-> & Hb2 & Hf2). fold na np in Hp1, Hb1, Hb2 |- *.
  destruct (make_pledges_spec un (page - pc - na) (byte - bc - RESERVE * na - RESERVE * np)) as [Hp3 Hb3].
  assert (page ≤ pc + (na + len un)) as Hpage by (unfold page, saturating_add; lia).
  assert (byte ≤ bc + RESERVE * (na + len un + np)) as Hbyte
    by (unfold byte, saturating_add, saturating_mul; lia).
  assert (page ≤ page_budget e ∧ byte ≤ byte_budget e) as [? ?] by (unfold page, byte; lia).
  set (pl := make_pledges _ _ _) in *. clearbody pl na np page byte.
  simpl. split_and!; try done. unfold accounted, page_cover, byte_cover.
  unfold page_budget, byte_budget. simpl. clear Hq Hf1 Hf2. unfold RESERVE, PAGE_BYTES in *. lia.
Qed.

(** ** Forfeits *)

(** Removing a recorded widening and forfeiting as much keeps the account. *)
Lemma forfeit_accounted pc bc e e0 page bytes :
  accounted pc bc e →
  page_budget e0 = page_budget e → byte_budget e0 = byte_budget e →
  page_cover e = b2n page + page_cover e0 → byte_cover e = bytes + byte_cover e0 →
  accounted pc bc (forfeit e0 page bytes).
Proof.
  unfold accounted. intros [Hp Hb] E1 E2 E3 E4.
  change (page_cover (forfeit e0 page bytes)) with (page_cover e0).
  change (byte_cover (forfeit e0 page bytes)) with (byte_cover e0).
  assert (page_budget (forfeit e0 page bytes) = page_budget e - b2n page) as ->
    by (unfold forfeit, page_budget in *; simpl; destruct page; simpl; lia).
  assert (byte_budget (forfeit e0 page bytes) = byte_budget e - bytes) as ->
    by (unfold forfeit, byte_budget in *; simpl; lia).
  split; lia.
Qed.

Lemma forfeit_evolves e e0 page bytes :
  page_budget e0 = page_budget e → byte_budget e0 = byte_budget e → latest e0 = latest e →
  en_flights e0 = en_flights e → en_deadline e0 = en_deadline e → en_seen e0 = en_seen e →
  evolves e (forfeit e0 page bytes).
Proof.
  intros E1 E2 E3 E4 E5 E6. split.
  - change (page_budget (forfeit e0 page bytes))
      with (if page then page_budget e0 - 1 else page_budget e0). destruct page; lia.
  - change (byte_budget (forfeit e0 page bytes)) with (byte_budget e0 - bytes). lia.
  - simpl. lia.
  - simpl. lia.
  - change (latest (forfeit e0 page bytes)) with (latest e0). lia.
  - intros s. unfold spent. change (latest (forfeit e0 page bytes)) with (latest e0).
    change (en_seen (forfeit e0 page bytes)) with (en_seen e0). by rewrite E3, E6.
Qed.

(** ** Well-formed entries *)

(** Field widths the types guarantee, and canonical demand ([Demand::new]). *)
Definition contract_typed c : Prop :=
  ct_page_budget c ≤ U32_MAX ∧ ct_byte_budget c ≤ U64_MAX ∧ canon (ct_demand c).

Definition reservation_typed r : Prop :=
  rv_page_budget r ≤ U32_MAX ∧ rv_byte_budget r ≤ U64_MAX ∧ canon (rv_demand r).

Record entry_ok (max_flights : N) e : Prop := {
  eo_flights : en_flights e ≤ max_flights;
  eo_pending : len (en_pending e) ≤ en_flights e;
  eo_completed : canon (en_completed e);
  eo_demand : canon (ct_demand (en_subscription e));
  eo_distinct : NoDup (rv_sequence <$> en_admitted e);
  eo_spent : Forall (λ r, spent e (rv_sequence r)) (en_admitted e);
  eo_typed : Forall reservation_typed (en_admitted e);
  (** A selection consumed a page of its own request's budget. *)
  eo_funded : Forall (λ fl, 1 ≤ rv_page_budget (fl_reservation fl) ≤ U32_MAX ∧
                            rv_byte_budget (fl_reservation fl) ≤ U64_MAX) (en_pending e)
}.

(** ** [reserve] *)

(** Everything but budgets and admitted requests is as before. *)
Record same_frame e e' : Prop := {
  sf_deadline : en_deadline e' = en_deadline e;
  sf_completed : en_completed e' = en_completed e;
  sf_flights : en_flights e' = en_flights e;
  sf_seen : en_seen e' = en_seen e;
  sf_pending : en_pending e' = en_pending e;
  sf_pledges : en_pledges e' = en_pledges e;
  sf_latest : latest e' = latest e;
  sf_version : ct_version (en_subscription e') = ct_version (en_subscription e);
  sf_demand : ct_demand (en_subscription e') = ct_demand (en_subscription e)
}.

Definition uncovered r : Prop := rv_covered_page r = false ∧ rv_covered_bytes r = 0.

Lemma accounted_admitted pc bc e l :
  accounted pc bc e →
  sum_by (λ r, b2n (rv_covered_page r)) l = sum_by (λ r, b2n (rv_covered_page r)) (en_admitted e) →
  sum_by rv_covered_bytes l = sum_by rv_covered_bytes (en_admitted e) →
  accounted pc bc (set_admitted e l).
Proof. unfold accounted, page_cover, byte_cover, page_budget, byte_budget. simpl. lia. Qed.

(** Dropping an admitted request and forfeiting its widening. *)
Lemma drop_admitted_accounted pc bc e r rest :
  accounted pc bc e → en_admitted e ≡ₚ r :: rest →
  accounted pc bc (forfeit (set_admitted e rest) (rv_covered_page r) (rv_covered_bytes r)).
Proof.
  intros Ha Hp. apply (forfeit_accounted pc bc e); [done..| |].
  - unfold page_cover. simpl. rewrite (sum_by_perm _ _ _ Hp). unfold sum_by. simpl. lia.
  - unfold byte_cover. simpl. rewrite (sum_by_perm _ _ _ Hp). unfold sum_by. simpl. lia.
Qed.

Lemma push_accounted pc bc e r :
  accounted pc bc e → uncovered r → accounted pc bc (set_admitted e (en_admitted e ++ [r])).
Proof.
  intros Ha [H1 H2]. apply accounted_admitted; [done|..]; rewrite sum_by_app; simpl;
    rewrite ?H1, ?H2; simpl; lia.
Qed.

(** A slot was taken for [r]; at most one admitted request was superseded. *)
Record reserved e r e' : Prop := {
  rs_free : len (en_pending e) < en_flights e;
  rs_frame : same_frame e e';
  rs_page : page_budget e' ≤ page_budget e;
  rs_byte : byte_budget e' ≤ byte_budget e;
  rs_accounted : ∀ pc bc, accounted pc bc e → uncovered r → accounted pc bc e';
  rs_admitted : ∃ dropped rest, en_admitted e' = rest ++ [r] ∧ en_admitted e ≡ₚ dropped ++ rest
}.

Lemma reserve_spec e r res e' :
  reserve e r = (res, e') → (∃ k, res = Err k ∧ e' = e) ∨ (res = Ok tt ∧ reserved e r e').
Proof.
  unfold reserve. destruct (N.leb_spec (en_flights e) (len (en_pending e))) as [|Hfree].
  { intros [= <- <-]. left. eauto. }
  assert (reserved e r (set_admitted e (en_admitted e ++ [r]))) as Hplain.
  { split; try done; [intros; by apply push_accounted|]. by exists [], (en_admitted e). }
  destruct (_ <=? len (en_admitted e) + _); [|intros [= <- <-]; by right].
  destruct (min_by_key _ _) as [[i oldest]|] eqn:Hm; [|intros [= <- <-]; by right].
  apply min_by_key_Some in Hm as [Hi _].
  destruct (_ <? _); [intros [= <- <-]; left; eauto|].
  destruct (swap_remove_Some _ _ _ Hi) as [rest Hs]. rewrite Hs. apply swap_remove_perm in Hs.
  intros [= <- <-]. right. split; [done|].
  set (e0 := forfeit (set_admitted e rest) (rv_covered_page oldest) (rv_covered_bytes oldest)).
  pose proof (forfeit_evolves e (set_admitted e rest) (rv_covered_page oldest) (rv_covered_bytes oldest)
                eq_refl eq_refl eq_refl eq_refl eq_refl eq_refl) as Hev.
  split; [done|by constructor|apply Hev|apply Hev| |].
  - intros pc bc Ha Hr. apply (push_accounted pc bc e0); [|done]. by apply drop_admitted_accounted.
  - by exists [oldest], rest.
Qed.

(** ** Admission *)

Lemma take_pledge_spec e r r' e' :
  take_pledge e r = (r', e') → uncovered r →
  ∃ page bytes pledges, r' = set_cover r page bytes ∧ e' = set_pledges e pledges ∧
    sum_by (λ pl, b2n pl.1.2) (en_pledges e) = b2n page + sum_by (λ pl, b2n pl.1.2) pledges ∧
    sum_by (λ pl, pl.2) (en_pledges e) = bytes + sum_by (λ pl, pl.2) pledges.
Proof.
  intros Ht [H1 H2]. unfold take_pledge in Ht.
  assert (r = set_cover r false 0) as Hr by (destruct r; simpl in *; by subst).
  assert (e = set_pledges e (en_pledges e)) as He by by destruct e.
  destruct (position _ _) as [i|]; [destruct (swap_remove i _) as [[[[s page] bytes] pledges]|] eqn:Hs|];
    injection Ht as <- <-.
  - exists page, bytes, pledges. apply swap_remove_perm in Hs.
    rewrite !(sum_by_perm _ _ _ Hs). unfold sum_by. by simpl.
  - exists false, 0, (en_pledges e). by split_and!.
  - exists false, 0, (en_pledges e). by split_and!.
Qed.

Lemma NoDup_fresh_admitted (l dropped rest : list Reservation) r :
  l ≡ₚ dropped ++ rest → NoDup (rv_sequence <$> l) → rv_sequence r ∉ (rv_sequence <$> l) →
  NoDup (rv_sequence <$> (rest ++ [r])).
Proof.
  intros Hp Hnd Hfresh. rewrite Hp, fmap_app in Hnd, Hfresh. apply NoDup_app in Hnd as (_ & _ & Hnd).
  rewrite fmap_app. apply NoDup_app. split_and!; [done| |apply NoDup_singleton].
  intros s Hs. set_solver.
Qed.

Lemma spent_bit e s seen' :
  (∀ i, N.testbit (en_seen e) i = true → N.testbit seen' i = true) → spent e s →
  spent (set_seen e seen') s.
Proof. intros Hb [Hs Hi]. split; [done|]. intros Hlt. apply Hb, Hi, Hlt. Qed.

Lemma spent_frame e e' s : latest e' = latest e → en_seen e' = en_seen e → spent e' s ↔ spent e s.
Proof. intros E1 E2. unfold spent. by rewrite E1, E2. Qed.

(** A spent sequence is refused as a replay. *)
Lemma admit_late_spent mf e c deadline :
  entry_ok mf e → mf ≤ 64 → spent e (ct_sequence c) →
  admit_late e c deadline = (Err Kind_Replay, e).
Proof.
  intros Hok Hmf [Hs Hb]. unfold admit_late. fold (latest e).
  pose proof (eo_flights _ _ Hok).
  destruct (N.leb_spec (en_flights e) (latest e - ct_sequence c)) as [|Hlt]; [done|].
  rewrite Hb by lia. done.
Qed.

(** What a successful or refused admission leaves. *)
Record admitted_ok mf e e' (s : N) : Prop := {
  ad_ok : entry_ok mf e';
  ad_evolves : evolves e e';
  ad_spent : spent e' s
}.

(** The entry a late request leaves behind, before its budgets are looked at. *)
Lemma late_admitted_ok mf e c deadline e1 dropped rest page bytes pledges :
  let off := latest e - ct_sequence c in
  entry_ok mf e → contract_typed c → ct_sequence c ≤ latest e → ¬ spent e (ct_sequence c) → off < 64 →
  reserved e (reservation c deadline) e1 → en_admitted e ≡ₚ dropped ++ rest →
  let e2 := set_pledges (set_admitted e1 rest) pledges in
  let r := set_cover (reservation c deadline) page bytes in
  let e3 := set_admitted e2 (en_admitted e2 ++ [r]) in
  admitted_ok mf e (set_seen e3 (N.lor (en_seen e3) (N.shiftl 1 off))) (ct_sequence c).
Proof.
  intros off Hok (Hty1 & Hty2 & Hty3) Hle Hns Hoff Hr Hperm e2 r e3.
  destruct (rs_frame _ _ _ Hr) as [F1 F2 F3 F4 F5 F6 F7 F8 F9].
  set (seen' := N.lor (en_seen e3) (N.shiftl 1 off)). set (e' := set_seen e3 seen').
  assert (∀ s, spent e s → spent e' s) as Hsp.
  { intros s Hs. apply (spent_bit e3 s seen').
    - intros i Hi. unfold seen'. by rewrite N.lor_spec, Hi.
    - by apply (spent_frame e e3 s F7 F4). }
  assert (spent e' (ct_sequence c)) as Hnew.
  { split; [change (latest e') with (latest e1); lia|]. intros _. change (latest e') with (latest e1).
    rewrite F7. change (en_seen e') with seen'. unfold seen'. fold off.
    by rewrite N.lor_spec, N.shiftl_spec_high', N.sub_diag, orb_true_r by lia. }
  pose proof (eo_distinct _ _ Hok) as Hnd. pose proof (eo_spent _ _ Hok) as Hspl.
  pose proof (eo_typed _ _ Hok) as Htl. rewrite Hperm in Hspl, Htl.
  apply Forall_app in Hspl as [_ Hspl], Htl as [_ Htl].
  split; [split|split|exact Hnew]; simpl; rewrite ?F1, ?F2, ?F3, ?F5, ?F9; try apply Hok; try done.
  - eapply NoDup_fresh_admitted with (r := r); [exact Hperm|done|].
    rewrite list_elem_of_fmap. intros (r0 & E0 & Hr0). apply Hns.
    pose proof (eo_spent _ _ Hok) as Hall. rewrite Forall_forall in Hall.
    specialize (Hall r0 Hr0). by rewrite <- E0 in Hall.
  - apply Forall_app. split; [eapply Forall_impl; [exact Hspl|]; intros r0; apply Hsp|].
    by apply Forall_singleton.
  - apply Forall_app. split; [done|]. apply Forall_singleton. by split_and!.
  - apply (rs_page _ _ _ Hr).
  - apply (rs_byte _ _ _ Hr).
  - change (latest e') with (latest e1). lia.
Qed.

Lemma admit_late_spec mf e c deadline res e' :
  entry_ok mf e → mf ≤ 64 → contract_typed c → ct_sequence c ≤ latest e →
  admit_late e c deadline = (res, e') →
  (∃ k, res = Err k ∧ e' = e) ∨
  (res = Ok tt ∧ ¬ spent e (ct_sequence c) ∧ admitted_ok mf e e' (ct_sequence c) ∧
   en_completed e' = en_completed e ∧ ∀ pc bc, accounted pc bc e → accounted pc bc e').
Proof.
  intros Hok Hmf (Hty1 & Hty2 & Hty3) Hle Ha.
  destruct (decide (spent e (ct_sequence c))) as [Hsp|Hns].
  { rewrite (admit_late_spent mf) in Ha by done. injection Ha as <- <-. left. eauto. }
  unfold admit_late in Ha. fold (latest e) in Ha. set (off := latest e - ct_sequence c) in *.
  destruct (N.leb_spec (en_flights e) off) as [|Hoff]; [simpl in Ha; injection Ha as <- <-; left; eauto|].
  destruct (N.testbit (en_seen e) off); simpl in Ha; [injection Ha as <- <-; left; eauto|].
  case_bool_decide; [injection Ha as <- <-; left; eauto|].
  destruct (reserve e (reservation c deadline)) as [[[]|k] e1] eqn:Hr;
    apply reserve_spec in Hr as [(? & ? & ->)|[? Hr]]; simplify_eq; [|left; eauto].
  destruct (rs_admitted _ _ _ Hr) as (dropped & rest & Hadm & Hperm).
  rewrite Hadm, last_snoc, length_app, Nat.add_sub, take_app_length in Ha.
  destruct (take_pledge _ _) as [r' e3] eqn:Ht. apply take_pledge_spec in Ht; [|done].
  destruct Ht as (page & bytes & pledges & -> & -> & Hp1 & Hp2).
  injection Ha; intros; subst e'.
  right. split_and!; [done..| |apply (sf_completed _ _ (rs_frame _ _ _ Hr))|].
  - pose proof (eo_flights _ _ Hok).
    apply (late_admitted_ok mf e c deadline e1 dropped rest page bytes pledges); try done. fold off. lia.
  - intros pc bc [Hx Hy]%(rs_accounted _ _ _ Hr); [|done].
    unfold accounted, page_cover, byte_cover, page_budget, byte_budget in *. simpl in *.
    rewrite Hadm, !sum_by_app in *. simpl in *. split; lia.
Qed.

(** Shifting the window to a newer sequence keeps every spent one spent. *)
Definition shifted (seen shift : N) : N :=
  N.lor (if 64 <=? shift then 0 else N.shiftl seen shift mod 2 ^ 64) 1.

Lemma shifted_bit seen shift i :
  i + shift < 64 → N.testbit seen i = true → N.testbit (shifted seen shift) (i + shift) = true.
Proof.
  intros Hlt Hi. unfold shifted. rewrite N.lor_spec.
  destruct (N.leb_spec 64 shift); [lia|].
  rewrite N.mod_pow2_bits_low by done. rewrite N.shiftl_spec_high' by lia.
  by replace (i + shift - shift) with i by lia; rewrite Hi.
Qed.

Lemma shifted_zero seen shift : N.testbit (shifted seen shift) 0 = true.
Proof. unfold shifted. by rewrite N.lor_spec, orb_true_r. Qed.

Lemma spent_shifted e e' s :
  latest e ≤ latest e' → en_seen e' = shifted (en_seen e) (latest e' - latest e) →
  spent e s → spent e' s.
Proof.
  intros Hle Hseen [Hs Hb]. split; [lia|]. intros Hlt. rewrite Hseen.
  replace (latest e' - s) with ((latest e - s) + (latest e' - latest e)) by lia.
  apply shifted_bit; [lia|]. apply Hb. lia.
Qed.

Lemma spent_newest e' seen shift : en_seen e' = shifted seen shift → spent e' (latest e').
Proof. intros Hs. split; [done|]. intros _. by rewrite N.sub_diag, Hs, shifted_zero. Qed.

Lemma Forall2_len {A B} (Q : A → B → Prop) l k : Forall2 Q l k → len l = len k.
Proof. intros Hf. unfold len. by rewrite (Forall2_length _ _ _ Hf). Qed.

Lemma newer_distinct mf e c deadline dropped rest l' l :
  entry_ok mf e → latest e < ct_sequence c → en_admitted e ≡ₚ dropped ++ rest →
  l = rest ++ [reservation c deadline] → rv_sequence <$> l' = rv_sequence <$> l →
  NoDup (rv_sequence <$> l').
Proof.
  intros Hok Hlt Hperm -> ->. eapply NoDup_fresh_admitted; [exact Hperm|apply Hok|].
  rewrite list_elem_of_fmap. intros (r0 & E0 & Hr0). pose proof (eo_spent _ _ Hok) as Hall.
  rewrite Forall_forall in Hall. destruct (Hall r0 Hr0) as [Hle _]. simpl in E0. lia.
Qed.

Lemma newer_typed mf e r dropped rest l' :
  entry_ok mf e → reservation_typed r → en_admitted e ≡ₚ dropped ++ rest →
  Forall2 (λ r' r, rv_page_budget r' = rv_page_budget r ∧ rv_byte_budget r' = rv_byte_budget r ∧
                   rv_demand r' = rv_demand r) l' (rest ++ [r]) →
  Forall reservation_typed l'.
Proof.
  intros Hok Hr Hperm Hf. pose proof (eo_typed _ _ Hok) as Hall. rewrite Hperm in Hall.
  apply Forall_app in Hall as [_ Hall]. eapply Forall2_Forall_l; [exact Hf|].
  assert (Forall reservation_typed (rest ++ [r])) as Hall'.
  { apply Forall_app. split; [done|]. by apply Forall_singleton. }
  eapply Forall_impl; [exact Hall'|]. unfold reservation_typed.
  by intros r1 Ht r2 (-> & -> & ->).
Qed.

Lemma admit_newer_ok mf e c deadline flights e1 :
  entry_ok mf e → contract_typed c → latest e < ct_sequence c →
  flights ≤ en_flights e → reserved (set_flights e flights) (reservation c deadline) e1 →
  let seen := shifted (en_seen e1) (ct_sequence c - latest e1) in
  let e2 := set_deadline (set_seen e1 seen) (N.min (en_deadline e1) deadline) in
  let e3 := apply_ceiling e2 (ct_sequence c) (ct_page_budget c) (ct_byte_budget c) in
  let e' := set_subscription e3 (with_budgets c (page_budget e3) (byte_budget e3)) in
  admitted_ok mf e e' (ct_sequence c) ∧ accounted (ct_page_budget c) (ct_byte_budget c) e'.
Proof.
  intros Hok (Hty1 & Hty2 & Hty3) Hlt Hfl Hr seen e2 e3 e'.
  destruct (rs_frame _ _ _ Hr) as [F1 F2 F3 F4 F5 F6 F7 F8 F9]. simpl in F1, F2, F3, F4, F5.
  change (latest (set_flights e flights)) with (latest e) in F7.
  destruct (rs_admitted _ _ _ Hr) as (dropped & rest & Hadm & Hperm). simpl in Hperm.
  destruct (apply_ceiling_spec e2 (ct_sequence c) (ct_page_budget c) (ct_byte_budget c))
    as (Hacc & Hpg & Hby & _ & Hf & Hd & Hse & Hco & Hsq & Had & Hpe).
  fold e3 in Hacc, Hpg, Hby, Hf, Hd, Hse, Hco, Hsq, Had, Hpe. clearbody e3.
  cbn [e2 set_deadline set_seen en_flights en_deadline en_seen en_completed en_admitted en_pending] in *.
  assert (∀ s, spent e s → spent e' s) as Hsp.
  { intros s. apply spent_shifted; [change (latest e') with (ct_sequence c); lia|].
    change (en_seen e') with (en_seen e3). rewrite Hse. unfold seen. by rewrite F4, F7. }
  assert (spent e' (ct_sequence c)) as Hnew.
  { apply (spent_newest e' (en_seen e1) (ct_sequence c - latest e1)). exact Hse. }
  pose proof (rs_page _ _ _ Hr) as Hrp. pose proof (rs_byte _ _ _ Hr) as Hrb.
  change (page_budget e2) with (page_budget e1) in Hpg. change (byte_budget e2) with (byte_budget e1) in Hby.
  change (page_budget (set_flights e flights)) with (page_budget e) in Hrp.
  change (byte_budget (set_flights e flights)) with (byte_budget e) in Hrb.
  split; [split; [split|split|exact Hnew]|exact Hacc]; simpl; rewrite ?Hf, ?Hd, ?Hco, ?F1, ?F2, ?F3.
  - pose proof (eo_flights _ _ Hok). lia.
  - rewrite (Forall2_len _ _ _ Hpe), F5. pose proof (rs_free _ _ _ Hr). simpl in *. lia.
  - apply Hok.
  - done.
  - by eapply newer_distinct.
  - apply (Forall_fmap rv_sequence (spent e')). rewrite Hsq, Hadm, fmap_app, Forall_app.
    pose proof (eo_spent _ _ Hok) as Hall. rewrite Hperm in Hall. apply Forall_app in Hall as [_ Hall].
    split; [|by apply Forall_singleton]. apply Forall_fmap. eapply Forall_impl; [exact Hall|]. intros; by apply Hsp.
  - eapply newer_typed; [done| |exact Hperm|by rewrite <- Hadm]. by split_and!.
  - eapply Forall2_Forall_l; [exact Hpe|]. rewrite F5. eapply Forall_impl; [apply Hok|]. simpl.
    intros fl Hfu fl' (_ & _ & _ & -> & ->). done.
  - change (page_budget e') with (page_budget e3). lia.
  - change (byte_budget e') with (byte_budget e3). lia.
  - lia.
  - lia.
  - change (latest e') with (ct_sequence c). lia.
  - done.
Qed.

(** The entry stays well-formed, promises nothing new and stays within whatever
    ceilings it was accounted under. *)
Record benign mf e e' : Prop := {
  bn_ok : entry_ok mf e';
  bn_evolves : evolves e e';
  bn_accounted : ∀ pc bc, accounted pc bc e → accounted pc bc e'
}.

Lemma benign_refl mf e : entry_ok mf e → benign mf e e.
Proof. by split. Qed.

Lemma benign_trans mf e1 e2 e3 : benign mf e1 e2 → benign mf e2 e3 → benign mf e1 e3.
Proof. intros [A1 B1 C1] [A2 B2 C2]. split; [done|by etrans|auto]. Qed.

Lemma admit_newer_spec mf e c deadline granted res e' :
  entry_ok mf e → contract_typed c → latest e < ct_sequence c →
  admit_newer e c deadline granted = (res, e') →
  (∃ k, res = Err k ∧ benign mf e e' ∧ en_completed e' = en_completed e) ∨
  (res = Ok tt ∧ admitted_ok mf e e' (ct_sequence c) ∧
   accounted (ct_page_budget c) (ct_byte_budget c) e' ∧ en_completed e' = en_completed e).
Proof.
  intros Hok Hty Hlt Ha. unfold admit_newer in Ha.
  destruct (bool_decide _ || _); [injection Ha as <- <-; left; eauto using benign_refl|].
  set (flights := N.min (en_flights e) granted) in *.
  destruct (N.leb_spec flights (len (en_pending e))); [injection Ha as <- <-; left; eauto using benign_refl|].
  destruct (reserve _ _) as [res1 e1] eqn:Hr. apply reserve_spec in Hr as [(k & -> & ->)|[-> Hr]].
  - injection Ha as <- <-. left. exists k. split_and!; [done| |done]. destruct Hok.
    split; [split; simpl; try done; lia| |done]. split; simpl; try done. lia.
  - fold (latest e1) in Ha. fold (shifted (en_seen e1) (ct_sequence c - latest e1)) in Ha.
    injection Ha as <- <-. right.
    destruct (admit_newer_ok mf e c deadline flights e1) as [H1 H2]; [done..|unfold flights; lia|done|].
    split_and!; [done..|]. simpl.
    match goal with |- en_completed (apply_ceiling ?e2 ?s ?pc ?bc) = _ =>
      destruct (apply_ceiling_spec e2 s pc bc) as (_ & _ & _ & _ & _ & _ & _ & -> & _) end.
    simpl. apply (sf_completed _ _ (rs_frame _ _ _ Hr)).
Qed.

(** ** The other operations *)

Lemma entry_ok_admitted mf e e0 rest dropped :
  entry_ok mf e → en_admitted e ≡ₚ dropped ++ rest → en_admitted e0 = rest → en_pending e0 = en_pending e →
  latest e0 = latest e → en_seen e0 = en_seen e → en_flights e0 = en_flights e →
  en_completed e0 = en_completed e → ct_demand (en_subscription e0) = ct_demand (en_subscription e) →
  entry_ok mf e0.
Proof.
  intros [A1 A2 A3 A4 A5 A6 A7 A8] Hperm E1 E2 E3 E4 E5 E6 E7.
  rewrite Hperm in A5, A6, A7. rewrite fmap_app in A5. apply NoDup_app in A5 as (_ & _ & A5).
  apply Forall_app in A6 as [_ A6], A7 as [_ A7].
  split; rewrite ?E1, ?E2, ?E5, ?E6, ?E7; try done.
  eapply Forall_impl; [exact A6|]. intros r. by apply spent_frame.
Qed.

Lemma release_benign mf e r rest :
  entry_ok mf e → en_admitted e ≡ₚ r :: rest →
  benign mf e (forfeit (set_admitted e rest) (rv_covered_page r) (rv_covered_bytes r)).
Proof.
  intros Hok Hp. split.
  - by apply (entry_ok_admitted mf e _ rest [r]).
  - by apply forfeit_evolves.
  - intros pc bc Ha. by apply drop_admitted_accounted.
Qed.

(** Keeping the requests other than [r] drops exactly [r], as sequences are distinct. *)
Lemma filter_sequence_perm (l : list Reservation) r :
  NoDup (rv_sequence <$> l) → r ∈ l →
  l ≡ₚ r :: List.filter (λ r', negb (rv_sequence r' =? rv_sequence r)) l.
Proof.
  induction l as [|r0 l IH]; [set_solver|]. csimpl. intros [Hn Hnd]%NoDup_cons Hr.
  destruct (N.eqb_spec (rv_sequence r0) (rv_sequence r)) as [Heq|Hne]; simpl.
  - assert (r = r0) as ->.
    { apply elem_of_cons in Hr as [->|Hr]; [done|]. destruct Hn. rewrite Heq. by apply list_elem_of_fmap_2. }
    f_equiv. rewrite list_filter_all; [done|]. intros r' Hr'. apply negb_true_iff, N.eqb_neq. intros E.
    apply Hn. rewrite <- E. by apply list_elem_of_fmap_2.
  - apply elem_of_cons in Hr as [->|Hr]; [done|]. rewrite Permutation_swap. f_equiv. by apply IH.
Qed.

Lemma select_benign mf e r token number :
  entry_ok mf e → r ∈ en_admitted e → 1 ≤ rv_page_budget r → 1 ≤ page_budget e →
  len (en_pending e) < en_flights e →
  benign mf e (note_selected e r token number) ∧
  page_budget (note_selected e r token number) + 1 = page_budget e.
Proof.
  intros Hok Hr Hrp Hpb Hlt.
  pose proof (filter_sequence_perm _ _ (eo_distinct _ _ Hok) Hr) as Hperm.
  assert (page_budget (note_selected e r token number) = page_budget e - 1) as Hpb' by done.
  set (rest := List.filter _ _) in Hperm. split; [|lia]. split.
  - pose proof (entry_ok_admitted mf e (set_admitted e rest) rest [r] Hok Hperm eq_refl eq_refl
      eq_refl eq_refl eq_refl eq_refl eq_refl) as [A1 A2 A3 A4 A5 A6 A7 A8].
    split; simpl; try done.
    + rewrite len_app, len_cons, len_nil. lia.
    + apply Forall_app. split; [done|]. apply Forall_singleton. simpl.
      pose proof (eo_typed _ _ Hok) as Hty. rewrite Forall_forall in Hty.
      destruct (Hty r Hr) as (? & ? & _). lia.
  - split; simpl; try done. rewrite Hpb'. lia.
  - intros pc bc [Hp Hb]. unfold accounted. rewrite Hpb'.
    change (byte_budget (note_selected e r token number)) with (byte_budget e).
    unfold page_cover, byte_cover in *. simpl. fold rest. rewrite sum_by_app.
    rewrite (sum_by_perm _ _ _ Hperm) in Hp. rewrite (sum_by_perm _ _ _ Hperm) in Hb. unfold sum_by in *. simpl in *. unfold flight_cover in *. simpl in *.
    destruct (rv_covered_page r); simpl in *; lia.
Qed.

Lemma entry_ok_pending mf e l :
  entry_ok mf e → len l ≤ en_flights e →
  Forall (λ fl, 1 ≤ rv_page_budget (fl_reservation fl) ≤ U32_MAX ∧
                rv_byte_budget (fl_reservation fl) ≤ U64_MAX) l →
  entry_ok mf (set_flying e l).
Proof. intros [] ? ?. by split. Qed.

Lemma entry_ok_budgets mf e page byte : entry_ok mf e → entry_ok mf (set_budgets e page byte).
Proof. intros []. by split. Qed.

Lemma drop_flight_benign mf e token : entry_ok mf e → benign mf e (drop_flight e token).
Proof.
  intros Hok. unfold drop_flight.
  destruct (position _ _) as [i|]; [|by apply benign_refl].
  destruct (swap_remove i _) as [[fl rest]|] eqn:Hs; [|by apply benign_refl].
  apply swap_remove_perm in Hs.
  assert (entry_ok mf (set_flying e rest)) as Hok'.
  { pose proof (eo_funded _ _ Hok) as Hf. pose proof (eo_pending _ _ Hok) as Hl. rewrite Hs in Hf.
    apply Forall_cons in Hf as [_ Hf]. apply entry_ok_pending; [done| |done].
    unfold len in *. rewrite Hs in Hl. simpl in Hl. lia. }
  assert (byte_cover e = flight_cover fl + byte_cover (set_flying e rest)) as Hcov.
  { unfold byte_cover. simpl. rewrite (sum_by_perm _ _ _ Hs). unfold sum_by. simpl. lia. }
  unfold flight_cover in Hcov. destruct (fl_settled fl).
  - split; [done|by split|]. unfold accounted. intros pc bc [H1 H2]. split; [done|].
    change (byte_budget (set_flying e rest)) with (byte_budget e). lia.
  - split; [by apply entry_ok_budgets|by apply forfeit_evolves|].
    intros pc bc Ha. by apply (forfeit_accounted pc bc e).
Qed.

Lemma drop_flight_completed e token : en_completed (drop_flight e token) = en_completed e.
Proof.
  unfold drop_flight. destruct (position _ _); [|done]. destruct (swap_remove _ _) as [[fl rest]|]; [|done].
  by destruct (fl_settled fl).
Qed.

Lemma find_position {A} (p : A → bool) l x :
  find p l = Some x → ∃ i, position p l = Some i ∧ l !! i = Some x.
Proof.
  induction l as [|y l IH]; simpl; [done|]. destruct (p y); [intros [= ->]; by exists 0%nat|].
  intros (i & Hp & Hi)%IH. exists (S i). by rewrite Hp.
Qed.

Lemma sum_by_alter {A} (g : A → N) (h : A → A) i l x :
  l !! i = Some x → sum_by g (alter h i l) + g x = sum_by g l + g (h x).
Proof.
  revert i. induction l as [|y l IH]; intros [|i] Hi; try done.
  - injection Hi as ->. unfold sum_by. simpl. lia.
  - specialize (IH i Hi). change (alter h (S i) (y :: l)) with (y :: alter h i l).
    unfold sum_by in *. simpl in *. lia.
Qed.

Lemma settle_flight_spec l token fl :
  find (λ fl, fl_token fl =? token) l = Some fl →
  len (settle_flight l token) = len l ∧
  sum_by flight_cover (settle_flight l token) + flight_cover fl = sum_by flight_cover l ∧
  ∀ Q : SubFlight → Prop, (∀ t n v b b', Q (mkSubFlight t n v b) → Q (mkSubFlight t n v b')) →
    Forall Q l → Forall Q (settle_flight l token).
Proof.
  intros (i & Hp & Hi)%find_position. unfold settle_flight. rewrite Hp. split_and!.
  - unfold len. by rewrite length_alter.
  - rewrite (sum_by_alter _ _ _ _ _ Hi). unfold flight_cover at 2. simpl. lia.
  - intros Q HQ Hall. apply Forall_alter; [done|]. intros [t n v b] _. simpl. apply HQ.
Qed.

(** A delivered grant: the flight it settles, the charge, and the entry after it. *)
Lemma grant_one_spec {M R} mf limit count0 e (owner : EntryKey M R) key token bytes g e' count :
  entry_ok mf e → grant_one limit count0 e owner key token bytes = Ok (g, e', count) →
  ∃ fl, fl ∈ en_pending e ∧ fl_token fl = token ∧
    let r := fl_reservation fl in
    benign mf e e' ∧ bytes ≤ rv_byte_budget r ∧ byte_budget e' + bytes ≤ byte_budget e ∧
    page_budget e' = page_budget e ∧
    en_completed e' = include (en_completed e) (fk_page key) ∧
    count = count0 - len (en_completed e) + len (en_completed e') ∧ count ≤ limit ∧
    gr_sequence g = rv_sequence r ∧ gr_remaining_page_budget g = rv_page_budget r - 1 ∧
    gr_remaining_byte_budget g = rv_byte_budget r - bytes ∧
    gr_flights g = (N.min (en_flights e) <$> rv_flights r) ∧
    gr_deadline g = N.min (en_deadline e) (rv_deadline r) ∧
    gr_page g = fk_page key ∧ gr_version g = fk_version key ∧
    gr_receiver g = ek_receiver owner ∧ gr_membership g = ek_membership owner ∧
    gr_subscription_id g = ek_id owner.
Proof.
  intros Hok Hg. unfold grant_one in Hg.
  apply result_bind_Ok in Hg as (fl & Hfl%ok_or_Ok & Hg).
  apply result_bind_Ok in Hg as (contract & Hc%ok_or_Ok & Hg).
  apply result_bind_Ok in Hg as (remaining & Hrem%ok_or_Ok & Hg).
  apply checked_sub_Some in Hc as [Hc ->], Hrem as [Hrem ->].
  destruct (N.ltb_spec limit (count0 - len (en_completed e) + len (include (en_completed e) (fk_page key))))
    as [|Hlim]; [done|]. injection Hg as <- <- <-.
  destruct (settle_flight_spec _ _ _ Hfl) as (Hlen & Hsum & Hall).
  apply find_some in Hfl as [Hin%list_elem_of_In Htok%N.eqb_eq].
  exists fl. cbv zeta. split_and!; try done.
  - split.
    + destruct Hok as [A1 A2 A3 A4 A5 A6 A7 A8]. split; simpl; try done.
      * change (len (settle_flight (en_pending e) token) ≤ en_flights e). by rewrite Hlen.
      * by apply include_spec.
      * by apply Hall.
    + split; simpl; try done. change (byte_budget e - N.max bytes (rv_covered_bytes (fl_reservation fl)) ≤ byte_budget e). lia.
    + intros pc bc [H1 H2]. split; [exact H1|]. unfold byte_cover, byte_budget in *. simpl.
      unfold flight_cover in Hsum at 2. destruct (fl_settled fl); lia.
  - change (byte_budget e - N.max bytes (rv_covered_bytes (fl_reservation fl)) + bytes ≤ byte_budget e). lia.
Qed.
End entry_facts.
