(* ===== verification/SubscriptionRuns.v ===== *)
(** * Runs of the subscription scheduler

    Every public operation of [Scheduler] ([core/src/subscriptions.rs]), run in any
    order: the storage bounds hold, a sequence is admitted once, a contract never
    spends more than its budgets, and the selected page is one the request wants. *)

From S2P Require Import Prelude ObjectModel Route Intervals Sweep Fanout Subscriptions SubscriptionEntry.
Local Open Scope N_scope.

Section runs.
Context {M R V P E : Type} `{Countable M} `{Countable R} `{EqDecision V}.
Context (from_kind : Kind → E).

#[local] Notation Key := (EntryKey M R).
#[local] Notation Sched := (@Scheduler M R V P E _ _ _ _).

(** The public operations; [eligible] is the caller's ranking policy. *)
Inductive SubOp : Type :=
  | SubOp_Admit (c : Contract V) (membership : M) (receiver : R) (deadline now_ms : N)
  | SubOp_Release (admitted : Key * N)
  | SubOp_Select (admitted : Key * N) (now_ms : N) (eligible : N → option bool)
  | SubOp_Complete (work : N) (result : result (P * N) E) (promote : bool) (now_ms : option N)
  | SubOp_CancelWork (work : N)
  | SubOp_TakeWork (waiter now_ms : N)
  | SubOp_Poll (waiter now_ms : N)
  | SubOp_CancelWaiter (waiter : N)
  | SubOp_TakeWakes
  | SubOp_Advance (now_ms : N).

Definition run_sub (s : Sched) (op : SubOp) : Sched :=
  match op with
  | SubOp_Admit c m r d now => (sub_admit from_kind s c m r d now).2
  | SubOp_Release a => sub_release s a
  | SubOp_Select a now el => (sub_select from_kind s a now el).2
  | SubOp_Complete w r p now => sub_complete from_kind s w r p now
  | SubOp_CancelWork w => cancel_work from_kind s w
  | SubOp_TakeWork w now => (take_work from_kind s w now).2
  | SubOp_Poll w now => (sub_poll from_kind s w now).2
  | SubOp_CancelWaiter w => cancel_waiter from_kind s w
  | SubOp_TakeWakes => (take_wakes s).2
  | SubOp_Advance now => advance from_kind s now
  end.

Definition op_typed (op : SubOp) : Prop :=
  match op with SubOp_Admit c _ _ _ _ => contract_typed c | _ => True end.

Definition entry_total (e : Entry V) : N := len (en_completed e).

Definition mf (s : Sched) : N := max_flights_per_subscription (sc_limits s).

Record sched_inv (s : Sched) : Prop := {
  si_valid : limits_valid (sc_limits s) = true;
  si_entries : N.of_nat (size (sc_entries s)) ≤ max_entries (sc_limits s);
  si_ok : ∀ k e, sc_entries s !! k = Some e → entry_ok (mf s) e;
  si_total : sc_completed_intervals s = map_sum entry_total (sc_entries s);
  si_cap : sc_completed_intervals s ≤ max_completed_intervals (sc_limits s);
  si_fan : fan_inv (sc_now s) (sc_fanout s);
  si_bounded : fan_bounded (max_pending (sc_limits s)) (max_inflight (sc_limits s)) (sc_fanout s)
}.

Lemma mf_le s : sched_inv s → mf s ≤ 64.
Proof.
  intros [Hv _ _ _ _ _ _]. unfold limits_valid in Hv. rewrite !andb_true_iff in Hv.
  destruct Hv as [_ Hv]. by apply N.leb_le in Hv.
Qed.

Lemma sched_new_inv limits s : scheduler_new limits = Some s → sched_inv s.
Proof.
  unfold scheduler_new. destruct (limits_valid limits) eqn:Hv; [|done]. intros [= <-].
  split; simpl; try done.
  - rewrite map_size_empty. lia.
  - lia.
  - split; cbn; rewrite map_size_empty; lia.
Qed.

(** ** Entry updates *)

(** Surviving entries change benignly. *)
Definition keeps (limit : N) (m m' : gmap Key (Entry V)) : Prop :=
  ∀ k e', m' !! k = Some e' → ∃ e, m !! k = Some e ∧ benign limit e e'.

Lemma keeps_refl s : sched_inv s → keeps (mf s) (sc_entries s) (sc_entries s).
Proof. intros Hi k e Hk. exists e. split; [done|]. apply benign_refl. by eapply si_ok. Qed.

Lemma keeps_trans limit m1 m2 m3 : keeps limit m1 m2 → keeps limit m2 m3 → keeps limit m1 m3.
Proof.
  intros H1 H2 k e3 He3. destruct (H2 _ _ He3) as (e2 & He2 & Hb2).
  destruct (H1 _ _ He2) as (e1 & He1 & Hb1). eauto using benign_trans.
Qed.

Lemma set_entry_inv s k e e' :
  sched_inv s → sc_entries s !! k = Some e → entry_ok (mf s) e' →
  en_completed e' = en_completed e → sched_inv (set_entry s k e').
Proof.
  intros [A1 A2 A3 A4 A5 A6 A7] Hk Hok Hc. split; simpl; try done.
  - rewrite map_size_insert_Some by eauto. done.
  - intros k0 e0 [[<- <-]|[_ ?]]%lookup_insert_Some; [done|eauto].
  - pose proof (map_sum_update entry_total _ _ _ e' Hk) as Hs.
    unfold entry_total in Hs at 2 4. rewrite Hc in Hs. lia.
Qed.

Lemma set_entry_keeps s k e e' :
  sched_inv s → sc_entries s !! k = Some e → benign (mf s) e e' →
  keeps (mf s) (sc_entries s) (sc_entries (set_entry s k e')).
Proof.
  intros Hi Hk Hb k0 e0. simpl. intros [[<- <-]|[_ ?]]%lookup_insert_Some; [eauto|].
  by apply (keeps_refl s Hi).
Qed.

Lemma set_fanout_inv s f :
  sched_inv s → fan_inv (sc_now s) f →
  fan_bounded (max_pending (sc_limits s)) (max_inflight (sc_limits s)) f → sched_inv (set_fanout s f).
Proof. intros [] ? ?. by split. Qed.

(** ** Time *)

Lemma expire_inv s now wake :
  sched_inv s → sc_now s ≤ now →
  fan_inv now (expire (sc_fanout s) now (from_kind Kind_DeadlineExceeded) wake).1 ∧
  fan_bounded (max_pending (sc_limits s)) (max_inflight (sc_limits s))
    (expire (sc_fanout s) now (from_kind Kind_DeadlineExceeded) wake).1.
Proof.
  intros [A1 A2 A3 A4 A5 A6 [A7 A8]] Hle. split; [by apply fan_inv_expire; eapply fan_inv_later|].
  split; simpl; [by rewrite map_size_fmap|done].
Qed.

Lemma advance_inv s now :
  sched_inv s →
  sched_inv (advance from_kind s now) ∧
  sc_limits (advance from_kind s now) = sc_limits s ∧
  ∀ k e, sc_entries (advance from_kind s now) !! k = Some e → sc_entries s !! k = Some e.
Proof.
  intros Hi. unfold advance. set (now' := N.max (sc_now s) now).
  destruct (expire_inv s now' (sc_wake s) Hi ltac:(unfold now'; lia)) as [Hf Hb].
  destruct (expire _ _ _ _) as [f w]. simpl in Hf, Hb. destruct Hi as [A1 A2 A3 A4 A5 A6 A7].
  destruct (now' <? sc_next_prune s); [by split_and!|].
  assert (∀ k e, filter (λ kv, retained now' kv.2 = true) (sc_entries s) !! k = Some e →
                 sc_entries s !! k = Some e) as Hsub by by intros k e [? _]%map_lookup_filter_Some.
  split_and!; [|done..]. split; simpl; try done.
  - pose proof (map_size_filter (λ kv, retained now' kv.2 = true) (sc_entries s)). lia.
  - intros k e Hk. eapply A3; eauto.
  - rewrite A4, (map_sum_filter entry_total (retained now') (sc_entries s)). unfold entry_total at 2. lia.
  - lia.
Qed.

(** ** Admission *)

(** The request becomes the contract's newest one. *)
Definition newest (old : option (Entry V)) (c : Contract V) : bool :=
  match old with Some e => latest e <? ct_sequence c | None => true end.

(** What a successful admission of [c] makes of the entry that was [old]. *)
Record admitted_as (limit : N) (old : option (Entry V)) (c : Contract V) (e' : Entry V) : Prop := {
  aa_ok : entry_ok limit e';
  aa_spent : spent e' (ct_sequence c);
  aa_fresh : ∀ e, old = Some e → ¬ spent e (ct_sequence c) ∧ evolves e e';
  aa_ceiling : newest old c = true → accounted (ct_page_budget c) (ct_byte_budget c) e';
  aa_keep : ∀ e pc bc, newest old c = false → old = Some e → accounted pc bc e → accounted pc bc e';
  aa_completed : len (en_completed e') = from_option entry_total 0 old
}.

Lemma fresh_entry_admitted limit c deadline granted :
  contract_typed c → granted ≤ limit →
  admitted_as limit None c (mkEntry c deadline [] granted 1 [reservation c deadline] [] []).
Proof.
  intros (Ht1 & Ht2 & Ht3) Hg. set (e := mkEntry _ _ _ _ _ _ _ _).
  assert (spent e (ct_sequence c)) as Hsp.
  { split; [done|]. intros _. change (latest e) with (ct_sequence c). by rewrite N.sub_diag. }
  split; try done.
  - split; simpl; try done.
    + rewrite len_nil. lia.
    + apply canon_nil.
    + apply NoDup_singleton.
    + by apply Forall_singleton.
    + apply Forall_singleton. by split_and!.
  - intros _. unfold accounted, page_cover, byte_cover, page_budget, byte_budget. simpl. lia.
Qed.

(** The outcome on an existing entry. *)
Lemma admit_existing limit e c deadline granted res e' :
  entry_ok limit e → limit ≤ 64 → contract_typed c →
  (if ct_sequence c <=? ct_sequence (en_subscription e) then admit_late e c deadline
   else admit_newer e c deadline granted) = (res, e') →
  match res with
  | Ok _ => admitted_as limit (Some e) c e'
  | Err _ => benign limit e e' ∧ en_completed e' = en_completed e
  end.
Proof.
  intros Hok Hlim Hty. fold (latest e). destruct (N.leb_spec (ct_sequence c) (latest e)) as [Hle|Hlt]; intros Ha.
  - apply (admit_late_spec limit) in Ha as [(k & -> & ->)|(-> & Hns & [H1 H2 H3] & Hco & Hacc)]; try done.
    split; try done.
    + by intros e0 [= <-].
    + unfold newest. intros ?%N.ltb_lt. lia.
    + intros e0 pc bc _ [= <-]. apply Hacc.
    + simpl. by rewrite Hco.
  - apply (admit_newer_spec limit) in Ha as [(k & -> & Hb & Hco)|(-> & [H1 H2 H3] & Hacc & Hco)]; try done.
    split; try done.
    + intros e0 [= <-]. split; [|done]. intros [Hle _]. lia.
    + unfold newest. intros e0 pc bc ?%N.ltb_ge. lia.
    + simpl. by rewrite Hco.
Qed.

Lemma set_entry_inv_admitted s k c e' :
  sched_inv s → admitted_as (mf s) (sc_entries s !! k) c e' →
  (sc_entries s !! k = None → N.of_nat (size (sc_entries s)) < max_entries (sc_limits s)) →
  sched_inv (set_entry s k e').
Proof.
  intros [A1 A2 A3 A4 A5 A6 A7] Haa Hroom. pose proof (aa_completed _ _ _ _ Haa) as Hc.
  destruct (sc_entries s !! k) as [e|] eqn:Hk; simpl in Hc.
  - split; simpl; try done.
    + rewrite map_size_insert_Some by eauto. done.
    + intros k0 e0 [[<- <-]|[_ ?]]%lookup_insert_Some; [apply Haa|eauto].
    + pose proof (map_sum_update entry_total _ _ _ e' Hk). unfold entry_total in *. lia.
  - split; simpl; try done.
    + rewrite map_size_insert_None by done. specialize (Hroom eq_refl). lia.
    + intros k0 e0 [[<- <-]|[_ ?]]%lookup_insert_Some; [apply Haa|eauto].
    + rewrite map_sum_insert_new by done. unfold entry_total in *. lia.
Qed.

Lemma admit_at_inv s c m r deadline res s' :
  let key := mkEntryKey m r (ct_id c) in
  sched_inv s → contract_typed c → admit_at s c m r deadline = (res, s') →
  sched_inv s' ∧ sc_limits s' = sc_limits s ∧
  match res with
  | Ok a => a = (key, ct_sequence c) ∧
            ∃ e', s' = set_entry s key e' ∧ admitted_as (mf s) (sc_entries s !! key) c e'
  | Err _ => keeps (mf s) (sc_entries s) (sc_entries s')
  end.
Proof.
  intros key Hi Hty. unfold admit_at. fold key.
  destruct (deadline <=? sc_now s); [intros [= <- <-]; eauto using keeps_refl|].
  destruct (sc_entries s !! key) as [e|] eqn:Hk.
  - destruct (if _ <=? _ then _ else _) as [r0 e'] eqn:Ha. intros [= <- <-].
    apply (admit_existing (mf s)) in Ha; [|by eapply si_ok|by apply mf_le|done].
    destruct r0 as [[]|k]; simpl.
    + split_and!; [|done|done|]; [|by exists e'].
      eapply set_entry_inv_admitted; [done|by rewrite Hk|congruence].
    + destruct Ha as [Hb Hc]. split_and!; [|done|by eapply set_entry_keeps].
      eapply set_entry_inv; [done..|apply Hb|done].
  - destruct (existsb _ _); [intros [= <- <-]; eauto using keeps_refl|].
    destruct (N.leb_spec (max_entries (sc_limits s)) (N.of_nat (size (sc_entries s))));
      [intros [= <- <-]; eauto using keeps_refl|].
    intros [= <- <-].
    assert (admitted_as (mf s) None c (mkEntry c deadline []
      (N.min (default 1 (ct_flights c)) (max_flights_per_subscription (sc_limits s))) 1
      [reservation c deadline] [] [])) as Haa by (apply fresh_entry_admitted; [done|unfold mf; lia]).
    split_and!; [|done|done|eexists; split; [done|exact Haa]].
    eapply set_entry_inv_admitted; [done|by rewrite Hk|done].
Qed.

(** ** The other operations *)

(** A step that only changes surviving entries benignly. *)
Record quiet (s s' : Sched) : Prop := {
  qt_inv : sched_inv s';
  qt_limits : sc_limits s' = sc_limits s;
  qt_keeps : keeps (mf s) (sc_entries s) (sc_entries s')
}.

Lemma quiet_refl s : sched_inv s → quiet s s.
Proof. intros Hi. split; [done..|by apply keeps_refl]. Qed.

Lemma quiet_trans s1 s2 s3 : quiet s1 s2 → quiet s2 s3 → quiet s1 s3.
Proof.
  intros [A1 B1 C1] [A2 B2 C2]. split; [done|congruence|].
  unfold mf in *. rewrite B1 in C2. by eapply keeps_trans.
Qed.

Lemma advance_quiet s now : sched_inv s → quiet s (advance from_kind s now).
Proof.
  intros Hi. destruct (advance_inv s now Hi) as (H1 & H2 & H3). split; [done..|].
  intros k e Hk%H3. by apply (keeps_refl s Hi).
Qed.

Lemma set_entry_quiet s k e e' :
  sched_inv s → sc_entries s !! k = Some e → benign (mf s) e e' →
  en_completed e' = en_completed e → quiet s (set_entry s k e').
Proof.
  intros Hi Hk Hb Hc. split; [|done|by eapply set_entry_keeps].
  eapply set_entry_inv; [done..|apply Hb|done].
Qed.

Lemma set_fanout_quiet s f :
  sched_inv s → fan_inv (sc_now s) f →
  fan_bounded (max_pending (sc_limits s)) (max_inflight (sc_limits s)) f → quiet s (set_fanout s f).
Proof. intros Hi Hf Hb. split; [by apply set_fanout_inv|done|by apply (keeps_refl s)]. Qed.

Lemma release_quiet s a : sched_inv s → quiet s (sub_release s a).
Proof.
  intros Hi. unfold sub_release. destruct (sc_entries s !! a.1) as [e|] eqn:Hk; [|by apply quiet_refl].
  destruct (position _ _) as [i|]; [|by apply quiet_refl].
  destruct (swap_remove _ _) as [[r rest]|] eqn:Hs; [|by apply quiet_refl].
  apply swap_remove_perm in Hs. eapply set_entry_quiet; [done..| |done].
  apply release_benign; [by eapply si_ok|done].
Qed.

Lemma select_guard_Ok (s : Sched) key sequence e r :
  select_guard s key sequence = Ok (e, r) →
  sc_entries s !! key = Some e ∧ r ∈ en_admitted e ∧ rv_sequence r = sequence ∧
  sc_now s < en_deadline e ∧ len (en_pending e) < en_flights e ∧
  1 ≤ page_budget e ∧ 1 ≤ byte_budget e ∧ 1 ≤ rv_page_budget r ∧ 1 ≤ rv_byte_budget r.
Proof.
  unfold select_guard. intros (e0 & He%ok_or_Ok & Hg)%result_bind_Ok.
  destruct (N.leb_spec (en_deadline e0) (sc_now s)); [done|].
  destruct (N.leb_spec (en_flights e0) (len (en_pending e0))); [done|].
  apply result_bind_Ok in Hg as (r0 & Hr%ok_or_Ok & Hg).
  destruct (N.eqb_spec (page_budget e0) 0), (N.eqb_spec (byte_budget e0) 0),
    (N.eqb_spec (rv_page_budget r0) 0), (N.eqb_spec (rv_byte_budget r0) 0); try done. simpl in Hg.
  destruct (_ <=? _); [done|]. injection Hg as <- <-.
  apply find_some in Hr as [Hin%list_elem_of_In Hs%N.eqb_eq]. split_and!; try done; lia.
Qed.

Lemma attach_inv s key owner deadline r f :
  sched_inv s →
  attach (sc_fanout s) key owner deadline (sc_now s) (max_pending (sc_limits s))
    (max_inflight (sc_limits s)) = (r, f) →
  quiet s (set_fanout s f).
Proof.
  intros Hi Ha. apply set_fanout_quiet; [done| |].
  - replace f with (attach (sc_fanout s) key owner deadline (sc_now s) (max_pending (sc_limits s))
      (max_inflight (sc_limits s))).2 by by rewrite Ha. by apply fan_inv_attach, si_fan.
  - replace f with (attach (sc_fanout s) key owner deadline (sc_now s) (max_pending (sc_limits s))
      (max_inflight (sc_limits s))).2 by by rewrite Ha. by apply attach_bounded, si_bounded.
Qed.

Lemma select_at_quiet s a eligible res s' :
  sched_inv s → select_at s a eligible = (res, s') →
  quiet s s' ∧
  match res with
  | Ok (Ok sel) =>
      ∃ e r, select_guard s a.1 a.2 = Ok (e, r) ∧
        vote s a.1 (ct_version (en_subscription e)) (rv_demand r) eligible = Ok (Some (sel_page sel)) ∧
        sc_entries s' = <[a.1 := note_selected e r (sel_waiter sel) (sel_page sel)]> (sc_entries s)
  | _ => sc_entries s' = sc_entries s
  end.
Proof.
  intros Hi. destruct a as [key sequence]. unfold select_at.
  destruct (select_guard s key sequence) as [[e r]|k] eqn:Hg; [|intros [= <- <-]; eauto using quiet_refl].
  destruct (vote _ _ _ _ _) as [[number|]|page] eqn:Hv; [|intros [= <- <-]; eauto using quiet_refl..].
  pose proof (select_guard_Ok _ _ _ _ _ Hg) as (Hk & Hr & _ & _ & Hlt & Hpb & _ & Hrp & _).
  destruct (attach _ _ _ _ _ _ _) as [[[[token flight] leader]|] f] eqn:Ha; intros [= <- <-];
    apply (attach_inv s) in Ha; try done.
  split; [|simpl; eauto 10]. eapply quiet_trans; [exact Ha|].
  destruct (select_benign (mf s) e r token number) as [Hb _]; [by eapply si_ok|done..|].
  eapply set_entry_quiet; [apply Ha|exact Hk|exact Hb|done].
Qed.

(** The entries and interval count the closure of [finish] threads. *)
Definition charge_inv (limit cap : N) (st : gmap Key (Entry V) * N) : Prop :=
  (∀ k e, st.1 !! k = Some e → entry_ok limit e) ∧ st.2 = map_sum entry_total st.1 ∧ st.2 ≤ cap.

Definition charges (limit cap : N) (st st' : gmap Key (Entry V) * N) : Prop :=
  charge_inv limit cap st →
  charge_inv limit cap st' ∧ size st'.1 = size st.1 ∧ keeps limit st.1 st'.1.

#[local] Instance charges_preorder limit cap : PreOrder (charges limit cap).
Proof.
  split.
  - intros st Hi. split_and!; [done..|]. intros k e Hk. exists e. split; [done|].
    apply benign_refl. by eapply Hi.
  - intros s1 s2 s3 H1 H2 Hi. destruct (H1 Hi) as (I2 & Z2 & K2). destruct (H2 I2) as (I3 & Z3 & K3).
    split_and!; [done|congruence|by eapply keeps_trans].
Qed.

Lemma complete_one_charges limit cap (result : result (P * N) E) st token owner key :
  charges limit cap st (complete_one from_kind cap result st token owner key).2.
Proof.
  unfold complete_one. destruct result as [[payload bytes]|err]; [|done].
  destruct (st.1 !! owner) as [e|] eqn:Hk; [|done].
  destruct (grant_one _ _ _ _ _ _ _) as [[[g e'] count]|k] eqn:Hg; [|done].
  intros (Hok & Htot & Hcap). eapply (grant_one_spec limit) in Hg; [|by eapply Hok].
  destruct Hg as (fl & _ & _ & Hb & _ & _ & _ & Hcomp & Hcount & Hlim & _). simpl.
  pose proof (map_sum_update entry_total _ _ _ e' Hk) as Hs.
  pose proof (map_sum_lookup entry_total _ _ _ Hk) as Hl. unfold entry_total in Hs at 2 4.
  unfold entry_total in Hl at 2. unfold charge_inv. cbn [fst snd].
  split_and!.
  - intros k0 e0 [[<- <-]|[_ ?]]%lookup_insert_Some; [apply Hb|eauto].
  - lia.
  - lia.
  - by rewrite map_size_insert_Some by eauto.
  - intros k0 e0 [[<- <-]|[_ Hk0]]%lookup_insert_Some; [eauto|].
    exists e0. split; [done|]. apply benign_refl. eauto.
Qed.

Lemma finish_quiet s flight result promote : sched_inv s → quiet s (sub_finish from_kind s flight result promote).
Proof.
  intros Hi. unfold sub_finish. set (cap := max_completed_intervals (sc_limits s)).
  set (pr := promote && negb (is_ok result)).
  pose proof (fan_finish_state (charges (mf s) cap) (sc_fanout s) flight pr (complete_one from_kind cap result)
    (sc_entries s, sc_completed_intervals s) (sc_wake s)
    ltac:(intros; apply complete_one_charges)) as Hq.
  pose proof (fan_inv_finish (sc_now s) (sc_fanout s) flight pr (complete_one from_kind cap result)
    (sc_entries s, sc_completed_intervals s) (sc_wake s) (si_fan _ Hi)) as Hf.
  pose proof (fan_finish_bounded (max_pending (sc_limits s)) (max_inflight (sc_limits s)) (sc_fanout s) flight pr
    (complete_one from_kind cap result) (sc_entries s, sc_completed_intervals s) (sc_wake s)
    (si_bounded _ Hi)) as Hb.
  destruct (fan_finish _ _ _ _ _ _) as [[f st] wake]. simpl in Hq, Hf, Hb.
  destruct Hi as [A1 A2 A3 A4 A5 A6 A7].
  destruct Hq as ((B1 & B2 & B3) & Hsz & Hk); [by split_and!|]. simpl in Hsz, Hk.
  split; [split; simpl; try done; by rewrite Hsz|done|done].
Qed.

Lemma remove_pending_quiet s token : sched_inv s → quiet s (remove_pending s token).2.
Proof.
  intros Hi. unfold remove_pending. pose proof (fan_inv_remove (sc_now s) (sc_fanout s) token (si_fan _ Hi)) as Hf.
  unfold fan_remove in *. destruct (fan_pending (sc_fanout s) !! token) as [slot|]; simpl; [|by apply quiet_refl].
  assert (quiet s (set_fanout s (set_pending (sc_fanout s) (delete token (fan_pending (sc_fanout s)))))) as Hq.
  { apply set_fanout_quiet; [done..|]. destruct (si_bounded _ Hi). split; simpl; [|done].
    rewrite map_size_delete. case_match; simpl; lia. }
  simpl. destruct (sc_entries s !! pd_owner slot) as [e|] eqn:Hk; [|exact Hq].
  eapply quiet_trans; [exact Hq|]. eapply set_entry_quiet; [apply Hq|exact Hk| |apply drop_flight_completed].
  apply drop_flight_benign. by eapply (si_ok s).
Qed.

Lemma pending_mut_quiet s token g : sched_inv s → (∀ p, slot_le (g p) p) →
  quiet s (set_fanout s (pending_mut (sc_fanout s) token g)).
Proof.
  intros Hi Hg. apply set_fanout_quiet; [done|by apply fan_inv_pending_mut, si_fan|].
  destruct (si_bounded _ Hi). split; simpl; [|done]. by rewrite <- size_dom, dom_alter_L, size_dom.
Qed.

Lemma cancel_if_promoted_quiet s slot : sched_inv s → quiet s (cancel_if_promoted from_kind s slot).
Proof. intros Hi. unfold cancel_if_promoted. destruct (pd_promoted slot); [by apply finish_quiet|by apply quiet_refl]. Qed.

(** Every operation other than a successful admission is quiet. *)
Lemma run_sub_quiet s op :
  sched_inv s → (∀ c m r d now, op ≠ SubOp_Admit c m r d now) → quiet s (run_sub s op).
Proof.
  intros Hi Hop. destruct op; simpl.
  - by destruct (Hop c membership receiver deadline now_ms).
  - by apply release_quiet.
  - unfold sub_select. destruct (select_at _ _ _) as [r s'] eqn:Hs.
    pose proof (advance_quiet s now_ms Hi) as Ha.
    eapply quiet_trans; [exact Ha|]. by eapply select_at_quiet in Hs as [? _]; [|apply Ha].
  - unfold sub_complete. destruct now_ms as [now|]; [|by apply finish_quiet].
    pose proof (advance_quiet s now Hi) as Ha. eapply quiet_trans; [exact Ha|]. apply finish_quiet, Ha.
  - by apply finish_quiet.
  - unfold take_work. pose proof (advance_quiet s now_ms Hi) as Ha.
    destruct (fan_pending _ !! waiter) as [slot|]; [|done].
    destruct (negb _ || _); [done|]. eapply quiet_trans; [exact Ha|].
    assert (quiet (advance from_kind s now_ms) (set_fanout (advance from_kind s now_ms)
      (pending_mut (sc_fanout (advance from_kind s now_ms)) waiter (set_promoted false)))) as Hq.
    { apply pending_mut_quiet; [apply Ha|]. intros p. by repeat split. }
    by destruct (fan_flights _ !! _).
  - unfold sub_poll. pose proof (advance_quiet s now_ms Hi) as Ha.
    destruct (fan_pending _ !! waiter) as [slot|]; [|done]. eapply quiet_trans; [exact Ha|].
    destruct (pd_result slot); simpl.
    + pose proof (remove_pending_quiet (advance from_kind s now_ms) waiter (qt_inv _ _ Ha)) as Hr.
      eapply quiet_trans; [exact Hr|]. apply cancel_if_promoted_quiet, Hr.
    + apply pending_mut_quiet; [apply Ha|]. intros p. by repeat split.
  - unfold cancel_waiter. pose proof (remove_pending_quiet s waiter Hi) as Hr.
    destruct (remove_pending s waiter) as [[slot|] s']; [|done]. simpl in Hr.
    eapply quiet_trans; [exact Hr|]. apply cancel_if_promoted_quiet, Hr.
  - split; [by destruct Hi; split|done|by apply (keeps_refl s)].
  - by apply advance_quiet.
Qed.

(** The outcome of a public admission. *)
Lemma sub_admit_spec s c m r deadline now res s' :
  let key := mkEntryKey m r (ct_id c) in
  let s0 := advance from_kind s now in
  sched_inv s → contract_typed c → sub_admit from_kind s c m r deadline now = (res, s') →
  sched_inv s' ∧ sc_limits s' = sc_limits s ∧
  match res with
  | Ok a => a = (key, ct_sequence c) ∧
            ∃ e', s' = set_entry s0 key e' ∧ admitted_as (mf s) (sc_entries s0 !! key) c e'
  | Err _ => quiet s s'
  end.
Proof.
  intros key s0 Hi Hty. unfold sub_admit. fold s0.
  pose proof (advance_quiet s now Hi) as Ha. fold s0 in Ha.
  destruct (admit_at s0 c m r deadline) as [r0 s1] eqn:Hat. intros [= <- <-].
  apply admit_at_inv in Hat as (Hi' & Hl & Hm); [|apply Ha|done].
  pose proof (qt_limits _ _ Ha) as Hl0. split_and!; [done|congruence|].
  destruct r0 as [a|k]; simpl.
  - unfold mf in *. by rewrite Hl0 in Hm.
  - eapply quiet_trans; [exact Ha|]. by split.
Qed.

(** ** Runs *)

Definition run_subs (s : Sched) (ops : list SubOp) : Sched := foldl run_sub s ops.

Lemma run_sub_inv s op : sched_inv s → op_typed op → sched_inv (run_sub s op) ∧ sc_limits (run_sub s op) = sc_limits s.
Proof.
  intros Hi Hty.
  destruct op; try (match goal with |- sched_inv (run_sub s ?o) ∧ _ =>
    destruct (run_sub_quiet s o Hi ltac:(done)) as [? ? _]; by split end).
  simpl in *. destruct (sub_admit _ _ _ _ _ _ _) as [res s'] eqn:Ha.
  by apply sub_admit_spec in Ha as (? & ? & _).
Qed.

Lemma run_subs_inv s ops : sched_inv s → Forall op_typed ops → sched_inv (run_subs s ops) ∧ sc_limits (run_subs s ops) = sc_limits s.
Proof.
  intros Hi Hty. revert s Hi. induction Hty as [|op ops Hop _ IH]; intros s Hi; [done|].
  destruct (run_sub_inv s op Hi Hop) as [Hi' Hl']. destruct (IH _ Hi') as [? ?].
  split; [done|]. simpl. congruence.
Qed.

(** The clock an operation reads before anything else. *)
Definition op_clock (s : Sched) (op : SubOp) : Sched :=
  match op with SubOp_Admit _ _ _ _ now => advance from_kind s now | _ => s end.

(** The contract an operation admits under key [k], if it does. *)
Definition admits (s : Sched) (op : SubOp) (k : Key) : option (Contract V) :=
  match op with
  | SubOp_Admit c m r d now =>
      if bool_decide (k = mkEntryKey m r (ct_id c)) && is_ok (sub_admit from_kind s c m r d now).1
      then Some c else None
  | _ => None
  end.

(** Where an entry after one operation comes from. *)
Lemma run_sub_entry s op k e' :
  sched_inv s → op_typed op → sc_entries (run_sub s op) !! k = Some e' →
  match admits s op k with
  | None => ∃ e, sc_entries s !! k = Some e ∧ benign (mf s) e e'
  | Some c => admitted_as (mf s) (sc_entries (op_clock s op) !! k) c e'
  end.
Proof.
  intros Hi Hty Hk.
  destruct op as [c m r d now| | | | | | | | |];
    try (match type of Hk with sc_entries (run_sub s ?o) !! _ = _ =>
           by eapply (qt_keeps _ _ (run_sub_quiet s o Hi ltac:(done))) end).
  simpl in *. destruct (sub_admit _ _ _ _ _ _ _) as [res s'] eqn:Ha. simpl in Hk.
  pose proof (sub_admit_spec _ _ _ _ _ _ _ _ Hi Hty Ha) as (_ & _ & Hm).
  destruct res as [a|]; simpl; [|rewrite andb_false_r; by eapply (qt_keeps _ _ Hm)].
  destruct Hm as (-> & e1 & -> & Haa). simpl in Hk. rewrite andb_true_r.
  apply lookup_insert_Some in Hk as [[<- <-]|[Hne Hk]].
  - by rewrite bool_decide_true.
  - rewrite bool_decide_false by done. by eapply (qt_keeps _ _ (advance_quiet s now Hi)).
Qed.

(** Contract [k] is not pruned while [ops] run. *)
Fixpoint retained_through (k : Key) (s : Sched) (ops : list SubOp) : Prop :=
  match ops with
  | [] => True
  | op :: rest => is_Some (sc_entries (op_clock s op) !! k) ∧ retained_through k (run_sub s op) rest
  end.

Lemma op_clock_lookup s op k e :
  sched_inv s → sc_entries (op_clock s op) !! k = Some e → sc_entries s !! k = Some e.
Proof. intros Hi. destruct op; simpl; try done. by apply advance_inv. Qed.

(** A retained entry only evolves, whatever the operation. *)
Lemma run_sub_evolves s op k e' :
  sched_inv s → op_typed op → is_Some (sc_entries (op_clock s op) !! k) →
  sc_entries (run_sub s op) !! k = Some e' → ∃ e, sc_entries s !! k = Some e ∧ evolves e e'.
Proof.
  intros Hi Hty [e0 He0] Hk.
  pose proof (run_sub_entry s op k e' Hi Hty Hk) as Hm. destruct (admits s op k) as [c|].
  - exists e0. split; [by eapply op_clock_lookup|]. by apply (aa_fresh _ _ _ _ Hm).
  - destruct Hm as (e & He & Hb). exists e. split; [done|apply Hb].
Qed.

Lemma run_subs_evolves s ops k e' :
  sched_inv s → Forall op_typed ops → retained_through k s ops →
  sc_entries (run_subs s ops) !! k = Some e' → ∃ e, sc_entries s !! k = Some e ∧ evolves e e'.
Proof.
  revert s. induction ops as [|op ops IH]; intros s Hi Hty Hret Hk; [by exists e'|].
  apply Forall_cons in Hty as [Hop Hty]. destruct Hret as [Hr Hret].
  destruct (IH (run_sub s op)) as (e1 & He1 & Hev1); [by apply run_sub_inv|done..|].
  destruct (run_sub_evolves s op k e1 Hi Hop Hr He1) as (e & He & Hev).
  exists e. split; [done|by etrans].
Qed.

(** ** Properties *)

(** Whatever the callers do, the scheduler stays within every configured
    bound, no contract has more flights than granted, and the interval count is
    the number of intervals kept (so the count never goes negative). *)
Theorem subscription_run_bounded limits s0 ops :
  scheduler_new limits = Some s0 → Forall op_typed ops →
  let s := run_subs s0 ops in
  N.of_nat (size (sc_entries s)) ≤ max_entries limits ∧
  N.of_nat (size (fan_pending (sc_fanout s))) ≤ max_pending limits ∧
  N.of_nat (size (fan_flights (sc_fanout s))) ≤ max_inflight limits ∧
  sc_completed_intervals s = map_sum (λ e, len (en_completed e)) (sc_entries s) ∧
  sc_completed_intervals s ≤ max_completed_intervals limits ∧
  ∀ k e, sc_entries s !! k = Some e →
    len (en_pending e) ≤ en_flights e ∧ en_flights e ≤ max_flights_per_subscription limits ∧
    canon (en_completed e).
Proof.
  intros Hn Hty s. pose proof (sched_new_inv _ _ Hn) as Hi0.
  assert (sc_limits s0 = limits) as Hl0 by (unfold scheduler_new in Hn; case_match; by simplify_eq/=).
  destruct (run_subs_inv s0 ops Hi0 Hty) as [Hi Hl]. fold s in Hi, Hl. rewrite Hl0 in Hl.
  destruct Hi as [A1 A2 A3 A4 A5 A6 [A7 A8]]. unfold mf in A3. rewrite Hl in *.
  split_and!; try done. intros k e Hk. destruct (A3 k e Hk). done.
Qed.

(** C2: a sequence is admitted at most once while its contract is retained:
    after an admission succeeds, any later request with the same contract and
    sequence is refused, whatever happened in between. *)
Theorem admitted_sequence_never_replayed limits s0 ops1 c m r d now a s2 ops2 c' d' now' :
  scheduler_new limits = Some s0 → Forall op_typed ops1 → contract_typed c →
  sub_admit from_kind (run_subs s0 ops1) c m r d now = (Ok a, s2) →
  Forall op_typed ops2 →
  contract_typed c' → ct_id c' = ct_id c → ct_sequence c' = ct_sequence c →
  retained_through a.1 s2 (ops2 ++ [SubOp_Admit c' m r d' now']) →
  is_ok (sub_admit from_kind (run_subs s2 ops2) c' m r d' now').1 = false.
Proof.
  intros Hn Ht1 Hc Ha Ht2 Hc' Hid Hseq Hret.
  destruct (run_subs_inv s0 ops1 (sched_new_inv _ _ Hn) Ht1) as [Hi1 _].
  pose proof (sub_admit_spec _ _ _ _ _ _ _ _ Hi1 Hc Ha) as (Hi2 & _ & -> & e2 & Hs2 & Haa).
  cbn [fst] in Hret. set (key := mkEntryKey m r (ct_id c)) in *.
  assert (sc_entries s2 !! key = Some e2) as Hk2 by (rewrite Hs2; apply lookup_insert_eq).
  assert (retained_through key s2 ops2 ∧
    is_Some (sc_entries (advance from_kind (run_subs s2 ops2) now') !! key)) as [Hr2 [e3 He3]].
  { clear -Hret. revert s2 Hret. induction ops2 as [|op ops2 IH]; intros s2; simpl; [tauto|].
    intros [? ?]. naive_solver. }
  destruct (run_subs_inv s2 ops2 Hi2 Ht2) as [Hi3 _].
  assert (sc_entries (run_subs s2 ops2) !! key = Some e3) as Hk3 by by eapply advance_inv.
  destruct (run_subs_evolves _ _ _ _ Hi2 Ht2 Hr2 Hk3) as (e2' & He2' & Hev).
  rewrite Hk2 in He2'. injection He2' as <-.
  assert (spent e3 (ct_sequence c')) as Hsp by (rewrite Hseq; apply Hev, Haa).
  destruct (sub_admit _ (run_subs s2 ops2) _ _ _ _ _) as [res s4] eqn:Ha'. simpl.
  pose proof (sub_admit_spec _ _ _ _ _ _ _ _ Hi3 Hc' Ha') as (_ & _ & Hm).
  destruct res as [a'|]; [|done]. destruct Hm as (_ & e4 & _ & Haa'). rewrite Hid in Haa'.
  by destruct (aa_fresh _ _ _ _ Haa' e3 He3).
Qed.

(** Pages selected for contract [k] while [ops] run. *)
Definition op_selects (k : Key) (s : Sched) (op : SubOp) : N :=
  match op with
  | SubOp_Select a now el =>
      if bool_decide (a.1 = k)
      then match (sub_select from_kind s a now el).1 with Ok (Ok _) => 1 | _ => 0 end
      else 0
  | _ => 0
  end.

Fixpoint pages_selected (k : Key) (s : Sched) (ops : list SubOp) : N :=
  match ops with
  | [] => 0
  | op :: rest => op_selects k s op + pages_selected k (run_sub s op) rest
  end.

Lemma run_sub_select_charges s op k e' :
  sched_inv s → op_typed op → is_Some (sc_entries (op_clock s op) !! k) →
  sc_entries (run_sub s op) !! k = Some e' →
  ∃ e, sc_entries s !! k = Some e ∧ evolves e e' ∧ page_budget e' + op_selects k s op ≤ page_budget e.
Proof.
  intros Hi Hty Hr Hk. destruct (run_sub_evolves s op k e' Hi Hty Hr Hk) as (e & He & Hev).
  exists e. split_and!; [done..|]. pose proof (ev_page _ _ Hev).
  destruct op as [| |a now el| | | | | | |]; simpl; try lia.
  case_bool_decide as Hak; [|lia]. simpl in Hk. unfold sub_select in *.
  pose proof (advance_quiet s now Hi) as Ha.
  destruct (select_at (advance from_kind s now) a el) as [res s'] eqn:Hs. simpl in *.
  apply select_at_quiet in Hs as [_ Hs]; [|apply Ha].
  destruct res as [[sel|page]|k']; simpl; try lia.
  destruct Hs as (e0 & r & Hg & _ & Hent). rewrite Hent, <- Hak, lookup_insert_eq in Hk.
  injection Hk as <-. apply select_guard_Ok in Hg as (He0 & Hr0 & _ & _ & Hlt & Hpb & _ & Hrp & _).
  assert (sc_entries s !! a.1 = Some e0) as He0' by by eapply advance_inv.
  rewrite Hak, He in He0'. injection He0' as <-.
  destruct (select_benign (mf s) e r (sel_waiter sel) (sel_page sel)) as [_ Hx]; [by eapply si_ok|done..|]. lia.
Qed.

(** A contract's promises only shrink: while it is retained its budgets, its
    flights and its deadline never grow, and every page selected for it is paid
    from its page budget, so it can not obtain more pages than it was granted. *)
Theorem contract_budgets_only_shrink limits s0 ops1 ops2 k e e' :
  scheduler_new limits = Some s0 → Forall op_typed ops1 → Forall op_typed ops2 →
  let s1 := run_subs s0 ops1 in
  sc_entries s1 !! k = Some e → retained_through k s1 ops2 →
  sc_entries (run_subs s1 ops2) !! k = Some e' →
  page_budget e' + pages_selected k s1 ops2 ≤ page_budget e ∧ byte_budget e' ≤ byte_budget e ∧
  en_flights e' ≤ en_flights e ∧ en_deadline e' ≤ en_deadline e.
Proof.
  intros Hn Ht1 Ht2 s1 He Hret Hk'.
  destruct (run_subs_inv s0 ops1 (sched_new_inv _ _ Hn) Ht1) as [Hi _]. fold s1 in Hi. clearbody s1.
  enough (∃ e0, sc_entries s1 !! k = Some e0 ∧ evolves e0 e' ∧
            page_budget e' + pages_selected k s1 ops2 ≤ page_budget e0) as (e0 & He0 & [] & Hp) by by simplify_eq.
  clear Hn Ht1 He e. revert s1 Hi Hret Hk'. induction Ht2 as [|op ops Hop Ht2 IH]; intros s1 Hi Hret Hk'; simpl in *.
  { exists e'. split_and!; [done..|lia]. }
  destruct Hret as [Hr Hret]. destruct (IH _ (proj1 (run_sub_inv s1 op Hi Hop)) Hret Hk') as (e1 & He1 & Hev1 & Hp1).
  destruct (run_sub_select_charges s1 op k e1 Hi Hop Hr He1) as (e0 & He0 & Hev0 & Hp0).
  exists e0. split_and!; [done|by etrans|lia].
Qed.

(** The ceilings of the newest request admitted under each key. *)
Definition ceiling_step (sg : Sched * gmap Key (N * N)) (op : SubOp) : Sched * gmap Key (N * N) :=
  (run_sub sg.1 op,
   match op with
   | SubOp_Admit c m r d now =>
       let key := mkEntryKey m r (ct_id c) in
       match admits sg.1 op key with
       | Some c => if newest (sc_entries (op_clock sg.1 op) !! key) c
                   then <[key := (ct_page_budget c, ct_byte_budget c)]> sg.2 else sg.2
       | None => sg.2
       end
   | _ => sg.2
   end).

Definition within_ceilings (sg : Sched * gmap Key (N * N)) : Prop :=
  ∀ k e, sc_entries sg.1 !! k = Some e → ∃ pc bc, sg.2 !! k = Some (pc, bc) ∧ accounted pc bc e.

Lemma ceiling_step_other sg op k : admits sg.1 op k = None → (ceiling_step sg op).2 !! k = sg.2 !! k.
Proof.
  destruct op as [c m r d now| | | | | | | | |]; simpl; try done.
  rewrite (bool_decide_eq_true_2 (mkEntryKey m r (ct_id c) = mkEntryKey m r (ct_id c)) eq_refl).
  destruct (bool_decide_reflect (k = mkEntryKey m r (ct_id c))) as [Hk|Hk]; simpl.
  - subst k. by destruct (is_ok _).
  - intros _. destruct (is_ok _); [|done]. case_match; [|done]. by rewrite lookup_insert_ne.
Qed.

Lemma ceiling_step_within sg op :
  sched_inv sg.1 → op_typed op → within_ceilings sg → within_ceilings (ceiling_step sg op).
Proof.
  intros Hi Hty Hw k e' Hk. simpl in Hk.
  pose proof (run_sub_entry _ _ _ _ Hi Hty Hk) as Hm. destruct (admits sg.1 op k) as [c|] eqn:Had.
  - destruct op as [c0 m r d now| | | | | | | | |]; try done. simpl in Had |- *.
    destruct (bool_decide_reflect (k = mkEntryKey m r (ct_id c0))) as [->|]; [|done]. simpl in Had.
    rewrite bool_decide_true by done. simpl. destruct (is_ok _); [|done]. injection Had as ->.
    simpl in Hm. destruct (newest _ c) eqn:Hnew.
    + rewrite lookup_insert_eq. eexists _, _. split; [done|]. by apply Hm.
    + destruct (sc_entries (advance from_kind sg.1 now) !! _) as [e|] eqn:He; [|done].
      destruct (Hw (mkEntryKey m r (ct_id c)) e) as (pc & bc & Hg & Hacc); [by eapply advance_inv|].
      exists pc, bc. split; [done|]. by eapply (aa_keep _ _ _ _ Hm).
  - destruct Hm as (e & He & Hb). destruct (Hw _ e He) as (pc & bc & Hg & Hacc).
    exists pc, bc. rewrite ceiling_step_other by done. split; [done|]. by apply Hb.
Qed.

(** C1: out-of-order requests can not inflate a contract: at every moment its
    budgets exceed the newest request's ceilings at most by the allowances recorded
    for requests that are still outstanding, and each of those charges or forfeits
    its share. *)
Theorem contract_within_newest_ceiling limits s0 ops s ceilings k e :
  scheduler_new limits = Some s0 → Forall op_typed ops →
  foldl ceiling_step (s0, ∅) ops = (s, ceilings) →
  sc_entries s !! k = Some e →
  s = run_subs s0 ops ∧
  ∃ pc bc, ceilings !! k = Some (pc, bc) ∧
    page_budget e ≤ pc + page_cover e ∧ byte_budget e ≤ bc + byte_cover e.
Proof.
  intros Hn Hty Hf Hk. pose proof (sched_new_inv _ _ Hn) as Hi0.
  assert (within_ceilings (s0, ∅)) as Hw0.
  { unfold scheduler_new in Hn. case_match; simplify_eq. by intros k0 e0. }
  enough (∀ sg, sched_inv sg.1 → within_ceilings sg →
            (foldl ceiling_step sg ops).1 = run_subs sg.1 ops ∧ within_ceilings (foldl ceiling_step sg ops)) as He.
  { destruct (He (s0, ∅) Hi0 Hw0) as [H1 H2]. rewrite Hf in H1, H2. split; [exact H1|]. exact (H2 k e Hk). }
  clear -Hty. induction Hty as [|op ops Hop Hty IH]; intros sg Hi Hw; [done|]. simpl.
  apply (IH (ceiling_step sg op)); [by apply run_sub_inv|by apply ceiling_step_within].
Qed.

(** C3: a grant that a completion delivers names its subscription, sequence, page, version, membership and receiver, and against the
    request it was selected for it passes the rules of the receiving node ([core/src/route.rs]): it spends exactly one page and exactly
    the delivered bytes and grants no more flights than asked; at any time [now] it passes the deadline rule exactly if [now] is before
    both that request's deadline and the deadline the contract has by then, which a newer request may have brought forward. *)
Theorem delivered_grant_is_acceptable limits s0 ops (payload : P) bytes token owner key d st' :
  scheduler_new limits = Some s0 → Forall op_typed ops →
  let s := run_subs s0 ops in
  complete_one from_kind (max_completed_intervals limits) (Ok (payload, bytes))
    (sc_entries s, sc_completed_intervals s) token owner key = (Ok d, st') →
  ∃ e fl, sc_entries s !! owner = Some e ∧ fl ∈ en_pending e ∧ fl_token fl = token ∧
    let r := fl_reservation fl in let g := dl_grant d in
    gr_subscription_id g = ek_id owner ∧ gr_sequence g = rv_sequence r ∧ gr_page g = fk_page key ∧ gr_version g = fk_version key ∧
    gr_membership g = ek_membership owner ∧ gr_receiver g = ek_receiver owner ∧
    page_budget_ok (gr_remaining_page_budget g) (rv_page_budget r) = true ∧
    byte_budget_ok (gr_remaining_byte_budget g) bytes (rv_byte_budget r) = true ∧
    flights_ok (gr_flights g) (rv_flights r) = true ∧
    ∀ now, grant_deadline_ok (gr_deadline g) (rv_deadline r) now = (now <? en_deadline e) && (now <? rv_deadline r).
Proof.
  intros Hn Hty s Hc. destruct (run_subs_inv s0 ops (sched_new_inv _ _ Hn) Hty) as [Hi _]. fold s in Hi.
  unfold complete_one in Hc. cbn [fst snd] in Hc. destruct (sc_entries s !! owner) as [e|] eqn:He; [|done].
  destruct (grant_one _ _ _ _ _ _ _) as [[[g e'] count]|k] eqn:Hg; [|done]. injection Hc as <- <-.
  pose proof (si_ok _ Hi _ _ He) as Hok. apply (grant_one_spec (mf s)) in Hg; [|done].
  destruct Hg as (fl & Hfl & Htok & _ & Hby & _ & _ & _ & _ & _ & G1 & G2 & G3 & G4 & G5 & G6 & G7 & G8 & G9 & G10).
  exists e, fl. split_and!; [done..|]. cbn [dl_grant].
  pose proof (eo_funded _ _ Hok) as Hfu. rewrite Forall_forall in Hfu. destruct (Hfu fl Hfl) as [[? ?] ?].
  unfold U32_MAX, U64_MAX in *. rewrite G1, G2, G3, G4, G5. split_and!; [done..| | | |].
  - apply bool_decide_eq_true, checked_add_Some. unfold U64_MAX. lia.
  - apply bool_decide_eq_true, checked_add_Some. unfold U64_MAX. lia.
  - unfold flights_ok. destruct (rv_flights (fl_reservation fl)) as [n|]; simpl; [|done].
    apply N.leb_le. lia.
  - intros now. unfold grant_deadline_ok. rewrite (proj2 (N.leb_le _ _)) by lia. cbn [andb].
    apply eq_bool_prop_intro. rewrite !Is_true_true, andb_true_iff, !N.ltb_lt. lia.
Qed.

(** ** The vote *)

Lemma fold_include_spec l (pending : list SubFlight) :
  canon l →
  canon (foldl (λ done fl, include done (fl_page fl)) l pending) ∧
  ∀ x, in_set (foldl (λ done fl, include done (fl_page fl)) l pending) x ↔
       in_set l x ∨ ∃ fl, fl ∈ pending ∧ fl_page fl = x.
Proof.
  revert l. induction pending as [|fl pending IH]; intros l Hl; simpl; [set_solver|].
  destruct (include_spec l (fl_page fl) Hl) as [Hc Hx]. destruct (IH _ Hc) as [Hc' Hx'].
  split; [done|]. intros x. rewrite Hx', Hx. set_solver.
Qed.

Lemma omap_split_target {A B} (f : A → option B) (l : list A) (x : A) (y : B) :
  x ∈ l → NoDup l → f x = Some y →
  ∃ pre post, omap f l = pre ++ y :: post ∧
    ∀ z, z ∈ pre ++ post → ∃ x', x' ∈ l ∧ x' ≠ x ∧ f x' = Some z.
Proof.
  intros Hx Hnd Hf. apply list_elem_of_split in Hx as (l1 & l2 & ->).
  apply NoDup_app in Hnd as (_ & Hd & [Hn _]%NoDup_cons).
  exists (omap f l1), (omap f l2). rewrite omap_app. csimpl. rewrite Hf. split; [done|].
  intros z [Hz|Hz]%elem_of_app; apply list_elem_of_omap in Hz as (x' & Hx' & Hfx);
    exists x'; split_and!; set_solver.
Qed.

(** What the selecting request still wants: its demand without what the contract
    has or already awaits. *)
Definition still_wants (e : Entry V) (r : Reservation) : list Interval :=
  outstanding (rv_demand r) (foldl (λ done fl, include done (fl_page fl)) (en_completed e) (en_pending e)).

Lemma still_wants_spec limit e r :
  entry_ok limit e → r ∈ en_admitted e →
  canon (still_wants e r) ∧
  ∀ x, in_set (still_wants e r) x ↔
       in_set (rv_demand r) x ∧ ¬ in_set (en_completed e) x ∧ ∀ fl, fl ∈ en_pending e → fl_page fl ≠ x.
Proof.
  intros Hok Hr. destruct (fold_include_spec (en_completed e) (en_pending e) (eo_completed _ _ Hok)) as [Hc Hx].
  pose proof (eo_typed _ _ Hok) as Hty. rewrite Forall_forall in Hty. destruct (Hty r Hr) as (_ & _ & Hrd).
  destruct (outstanding_spec (rv_demand r) _ Hrd Hc) as [Ho Hox]. split; [done|].
  intros x. unfold still_wants. rewrite Hox, Hx. naive_solver.
Qed.

Lemma entry_vote_target (s : Sched) a e r :
  select_guard s a.1 a.2 = Ok (e, r) →
  entry_vote s a.1 (ct_version (en_subscription e)) (rv_demand r) (a.1, e) =
  Some (ek_receiver a.1, true, still_wants e r).
Proof.
  intros (He & Hr & _ & Hd & _ & Hpb & Hbb & _)%select_guard_Ok.
  unfold entry_vote. rewrite !bool_decide_true by done. simpl.
  rewrite (proj2 (N.leb_gt _ _) Hd). destruct (N.eqb_spec (byte_budget e) 0); [lia|].
  destruct (N.eqb_spec (page_budget e) 0); [lia|]. simpl. by rewrite bool_decide_true.
Qed.

Lemma entry_vote_other s key version demand k' e' z :
  sched_inv s → sc_entries s !! k' = Some e' → k' ≠ key →
  entry_vote s key version demand (k', e') = Some z → z.1.2 = false ∧ canon z.2.
Proof.
  intros Hi Hk' Hne. unfold entry_vote. destruct (_ || _ || _ || _ || _); [done|].
  rewrite bool_decide_false by done. simpl. intros [= <-]. simpl. split; [done|].
  pose proof (si_ok _ Hi _ _ Hk') as Hok'. apply outstanding_spec; apply Hok'.
Qed.

(** The votes are well-formed, and the target wants what the request still wants. *)
Lemma vote_wf s a e r :
  sched_inv s → select_guard s a.1 a.2 = Ok (e, r) →
  let demands := omap (entry_vote s a.1 (ct_version (en_subscription e)) (rv_demand r))
                      (map_to_list (sc_entries s)) in
  votes_wf demands ∧ ∀ x, wanted demands x → in_set (still_wants e r) x.
Proof.
  intros Hi Hg demands. pose proof (entry_vote_target s a e r Hg) as Htv.
  pose proof (select_guard_Ok _ _ _ _ _ Hg) as (He & Hr & _). pose proof (si_ok _ Hi _ _ He) as Hok.
  destruct (still_wants_spec _ _ _ Hok Hr) as [Hcan _].
  destruct (omap_split_target _ (map_to_list (sc_entries s)) (a.1, e) _
              ltac:(by apply elem_of_map_to_list) (NoDup_map_to_list _) Htv) as (pre & post & Ed & Hoth).
  fold demands in Ed.
  assert (∀ z, z ∈ pre ++ post → z.1.2 = false ∧ canon z.2) as Hz.
  { intros z ([k' e'] & Hk'%elem_of_map_to_list & Hne & Hev)%Hoth.
    eapply entry_vote_other; [done..| |exact Hev]. intros ->. simplify_eq. }
  split; [split|].
  - exists pre, (ek_receiver a.1, true, still_wants e r), post. split_and!; [done..|].
    apply Forall_forall. intros z Hin. by apply Hz.
  - rewrite Ed. apply Forall_forall. intros z [Hin|[->|Hin]%elem_of_cons]%elem_of_app; [|done|];
      apply Hz; set_solver.
  - intros x (z & Hin & Ht & Hx). rewrite Ed, elem_of_app, elem_of_cons in Hin.
    destruct Hin as [Hin|[->|Hin]]; [|done|]; destruct (Hz z ltac:(set_solver)); congruence.
Qed.

(** A selected page is useful: the requester's own demand contains it, the
    contract neither has it nor already awaits it, the caller's ranking accepted it,
    and the fresh response slot is charged to one of the contract's free flights. *)
Theorem selected_page_is_useful limits s0 ops a now eligible sel s' :
  scheduler_new limits = Some s0 → Forall op_typed ops →
  let s := advance from_kind (run_subs s0 ops) now in
  sub_select from_kind (run_subs s0 ops) a now eligible = (Ok (Ok sel), s') →
  ∃ e r, sc_entries s !! a.1 = Some e ∧ r ∈ en_admitted e ∧ rv_sequence r = a.2 ∧
    in_set (rv_demand r) (sel_page sel) ∧ ¬ in_set (en_completed e) (sel_page sel) ∧
    (∀ fl, fl ∈ en_pending e → fl_page fl ≠ sel_page sel) ∧
    eligible (sel_page sel) = Some true ∧ len (en_pending e) < en_flights e.
Proof.
  intros Hn Hty s. destruct (run_subs_inv s0 ops (sched_new_inv _ _ Hn) Hty) as [Hi0 _].
  destruct (advance_inv _ now Hi0) as [Hi _]. fold s in Hi. unfold sub_select. fold s.
  destruct (select_at s a eligible) as [res s1] eqn:Hs. intros [= Hres _].
  apply select_at_quiet in Hs as [_ Hs]; [|done].
  destruct res as [[sel'|]|]; simpl in Hres; simplify_eq.
  destruct Hs as (e & r & Hg & Hv & _). destruct (vote_wf s a e r Hi Hg) as [Hwf Hw].
  pose proof (select_ok _ eligible Hwf) as Hok. unfold vote in Hv. rewrite Hv in Hok.
  destruct Hok as (_ & Hwant%Hw & Hel & _).
  apply select_guard_Ok in Hg as (He & Hr & Hq & _ & Hlt & _).
  apply (still_wants_spec (mf s)) in Hwant as (H1 & H2 & H3); [|by eapply si_ok|done].
  exists e, r. by split_and!.
Qed.
End runs.

(** ** A concrete contract *)

Module SubscriptionSample.
Definition Sched : Type := @Scheduler N N N N Kind _ _ _ _.
Definition start : Sched :=
  mkScheduler subscription_limits_default 0 0 ∅ fanout_default 0 [].

Definition request (sequence : N) : Contract N :=
  mkContract 7 1 [mkInterval 0 4; mkInterval 9 10] sequence 10 (10 * RESERVE) (Some 4).

Definition key : EntryKey N N := mkEntryKey 5 3 7.

Lemma request_typed sequence : contract_typed (request sequence).
Proof.
  split_and!; [done..|]. apply (canonical_spec _ 64). reflexivity.
Qed.

Definition admit_op (sequence : N) : @SubOp N N N N Kind := SubOp_Admit (request sequence) 5 3 1000 0.
Definition select_op (sequence : N) : @SubOp N N N N Kind :=
  SubOp_Select (key, sequence) 0 (λ _, Some true).

(** A newer request arrives before an older one, which then selects. *)
Definition history : list (@SubOp N N N N Kind) := [admit_op 3; admit_op 2; select_op 2].

Lemma history_typed : Forall op_typed history.
Proof. repeat constructor; try apply request_typed; done. Qed.
End SubscriptionSample.

Section sample.
Import SubscriptionSample.

Lemma subscription_run_bounded_witness :
  size (sc_entries (run_subs id start history)) = 1%nat ∧
  N.of_nat (size (sc_entries (run_subs id start history))) ≤ 1024.
Proof.
  split; [vm_compute; reflexivity|].
  apply (subscription_run_bounded id subscription_limits_default start history eq_refl history_typed).
Defined.

Lemma admitted_sequence_never_replayed_witness :
  is_ok (sub_admit id start (request 3) 5 3 1000 0).1 = true ∧
  is_ok (sub_admit id (run_subs id (sub_admit id start (request 3) 5 3 1000 0).2 [admit_op 2; select_op 2])
           (request 3) 5 3 1000 0).1 = false.
Proof.
  split; [vm_compute; reflexivity|].
  apply (admitted_sequence_never_replayed id subscription_limits_default start [] (request 3) 5 3 1000 0
    (key, 3) _ [admit_op 2; select_op 2] (request 3) 1000 0); try done; try apply request_typed.
  - repeat constructor; apply request_typed.
Defined.

Lemma contract_budgets_only_shrink_witness :
  ∃ e e' : Entry N, sc_entries (run_subs id start [admit_op 3; admit_op 2]) !! key = Some e ∧
    pages_selected id key (run_subs id start [admit_op 3; admit_op 2]) [select_op 2] = 1 ∧
    page_budget e' + pages_selected id key (run_subs id start [admit_op 3; admit_op 2]) [select_op 2]
      ≤ page_budget e.
Proof.
  destruct (sc_entries (run_subs id start [admit_op 3; admit_op 2]) !! key) as [e|] eqn:E;
    [|vm_compute in E; discriminate].
  destruct (sc_entries (run_subs id (run_subs id start [admit_op 3; admit_op 2]) [select_op 2]) !! key)
    as [e'|] eqn:E'; [|vm_compute in E'; discriminate].
  exists e, e'. split; [reflexivity|]. split; [vm_compute; reflexivity|].
  apply (contract_budgets_only_shrink id subscription_limits_default start
    [admit_op 3; admit_op 2] [select_op 2] key e e' eq_refl).
  - repeat constructor; apply request_typed.
  - repeat constructor.
  - exact E.
  - split; [vm_compute; eauto|exact I].
  - exact E'.
Defined.

Lemma contract_within_newest_ceiling_witness :
  ∃ e pc bc, sc_entries (run_subs id start history) !! key = Some e ∧
    (foldl (ceiling_step id) (start, ∅) history).2 !! key = Some (pc, bc) ∧
    page_budget e ≤ pc + page_cover e.
Proof.
  destruct (sc_entries (foldl (ceiling_step id) (start, ∅) history).1 !! key) as [e|] eqn:E;
    [|vm_compute in E; discriminate].
  destruct (contract_within_newest_ceiling id subscription_limits_default start history _ _ key e
    eq_refl history_typed (surjective_pairing _) E) as (Hs & pc & bc & Hc & Hp & _).
  exists e, pc, bc. split; [|by split]. rewrite <- Hs. exact E.
Defined.

Lemma selected_page_is_useful_witness :
  ∃ sel s', sub_select id (run_subs id start [admit_op 3; admit_op 2]) (key, 2) 0 (λ _, Some true) = (Ok (Ok sel), s') ∧
    sel_page sel = 0 ∧ ∃ r, rv_sequence r = 2 ∧ in_set (rv_demand r) (sel_page sel).
Proof.
  destruct (sub_select id (run_subs id start [admit_op 3; admit_op 2]) (key, 2) 0 (λ _, Some true))
    as [[[sel|]|] s'] eqn:E; [|vm_compute in E; discriminate..].
  exists sel, s'. split; [reflexivity|]. split; [vm_compute in E; by injection E as <- _|].
  destruct (selected_page_is_useful id subscription_limits_default start [admit_op 3; admit_op 2] (key, 2) 0
    (λ _, Some true) sel s' eq_refl ltac:(repeat constructor; apply request_typed) E)
    as (e & r & _ & _ & Hq & Hin & _). by exists r.
Defined.

Lemma delivered_grant_is_acceptable_witness :
  ∃ d st', complete_one id 4096 (Ok (42, 100))
    (sc_entries (run_subs id start history), sc_completed_intervals (run_subs id start history))
    1 key (mkFlightKey 5 1 0) = (Ok d, st') ∧
    ∃ e r, sc_entries (run_subs id start history) !! key = Some e ∧ page_budget_ok (gr_remaining_page_budget (dl_grant d)) (rv_page_budget r) = true ∧
      ∀ now, grant_deadline_ok (gr_deadline (dl_grant d)) (rv_deadline r) now = (now <? en_deadline e) && (now <? rv_deadline r).
Proof.
  destruct (complete_one id 4096 (Ok (42, 100)) _ 1 key (mkFlightKey 5 1 0)) as [[d|] st'] eqn:E;
    [|vm_compute in E; discriminate].
  exists d, st'. split; [reflexivity|].
  destruct (delivered_grant_is_acceptable id subscription_limits_default start history 42 100 1 key
    (mkFlightKey 5 1 0) d st' eq_refl history_typed E) as (e & fl & He & _ & _ & _ & _ & _ & _ & _ & _ & Hp & _ & _ & Hd).
  exists e, (fl_reservation fl). split; [exact He|]. split; [exact Hp|exact Hd].
Defined.
End sample.
