(* ===== verification/Silence.v ===== *)
(** * Peer silence and detours ([core/src/liveness.rs])

    Which peers a sender presumes hung, when it pings them, and which relays its
    routes avoid.  Instants and durations are nanoseconds in [N]; a [HashMap] is a
    [gmap] and its iteration [map_to_list], whose order the unique sequence numbers
    make irrelevant. *)

From S2P Require Import Prelude.
Local Open Scope N_scope.

Definition DURATION_MAX : N := U64_MAX * SECOND + (SECOND - 1).

Definition SILENCE_CAPACITY : N := 256.
Definition MAX_PINGS_IN_FLIGHT : N := 16.
Definition MAX_OFFERS_IN_FLIGHT : N := 4.
Definition SILENCE_TTL : N := 60 * SECOND.
Definition LINK_TIMEOUTS : N := 2.
Definition RANK0_TIMEOUTS : N := 1.
Definition NO_PING : N := U32_MAX.

Definition ping_verdict (answer : result (bool * bool) bool) : option bool :=
  match answer with
  | Ok (true, _) => Some true
  | Ok (false, true) | Err true => Some false
  | Ok (false, false) | Err false => None
  end.

(** ** Least recently used victim, shared by both maps *)

Section evict.
Context {K A : Type} `{Countable K}.
Variables (last_of seq_of : A → N).

(** [(e.last, e.seq)] as a lexicographic key. *)
Definition stamp_le (x y : A) : bool :=
  (last_of x <? last_of y) || ((last_of x =? last_of y) && (seq_of x <=? seq_of y)).

(** [iter().min_by_key(..)]: the first least element in iteration order. *)
Fixpoint oldest_of (l : list (K * A)) : option (K * A) :=
  match l with
  | [] => None
  | kx :: rest =>
      match oldest_of rest with
      | Some ky => if stamp_le kx.2 ky.2 then Some kx else Some ky
      | None => Some kx
      end
  end.

(** [make_room]: expire, then evict the oldest if the map is still full. *)
Definition make_room (capacity ttl now : N) (m : gmap K A) : gmap K A :=
  if N.of_nat (size m) <? capacity then m
  else
    let m := filter (λ kx, now - last_of kx.2 <= ttl) m in
    if capacity <=? N.of_nat (size m)
    then match oldest_of (map_to_list m) with Some (k, _) => delete k m | None => m end
    else m.

Lemma oldest_of_Some l kx : oldest_of l = Some kx → kx ∈ l ∧ ∀ ky, ky ∈ l → stamp_le kx.2 ky.2 = true.
Proof.
  assert (∀ x, stamp_le x x = true) as Hrefl.
  { intros x. unfold stamp_le. rewrite N.eqb_refl, N.leb_refl. by destruct (_ <? _). }
  revert kx. induction l as [|a l IH]; intros kx; simpl; [done|].
  destruct (oldest_of l) as [ky|] eqn:Eo.
  - destruct (IH ky eq_refl) as [Hin Hmin]. destruct (stamp_le a.2 ky.2) eqn:Es; intros [= <-].
    + split; [set_solver|]. intros kz [->|Hz]%elem_of_cons; [done|]. specialize (Hmin kz Hz).
      revert Es Hmin. unfold stamp_le. rewrite !orb_true_iff, !andb_true_iff, !N.ltb_lt, !N.eqb_eq, !N.leb_le. lia.
    + split; [set_solver|]. intros kz [->|Hz]%elem_of_cons; [|auto].
      revert Es. unfold stamp_le.
      rewrite orb_false_iff, andb_false_iff, orb_true_iff, andb_true_iff, !N.ltb_lt, !N.ltb_ge, !N.eqb_eq, !N.eqb_neq, !N.leb_le, !N.leb_gt. lia.
  - intros [= <-]. split; [set_solver|]. intros kz [->|Hz]%elem_of_cons; [done|].
    destruct l as [|b l]; [set_solver|]. simpl in Eo. destruct (oldest_of l); [case_match|]; done.
Qed.

Lemma oldest_of_None l : oldest_of l = None → l = [].
Proof. destruct l; simpl; [done|]. destruct (oldest_of l); [case_match|]; done. Qed.

(** Room for one more entry, and nothing but removals. *)
Lemma make_room_spec capacity ttl now m :
  0 < capacity → N.of_nat (size m) ≤ capacity →
  N.of_nat (size (make_room capacity ttl now m)) < capacity ∧ make_room capacity ttl now m ⊆ m.
Proof.
  intros Hc Hs. unfold make_room. destruct (N.ltb_spec (N.of_nat (size m)) capacity); [done|].
  set (m' := filter _ m).
  assert (m' ⊆ m) as Hsub by apply map_filter_subseteq.
  assert (size m' ≤ size m)%nat by (apply map_size_filter).
  destruct (N.leb_spec capacity (N.of_nat (size m'))) as [Hfull|]; [|done].
  destruct (oldest_of (map_to_list m')) as [[k x]|] eqn:Ho.
  - apply oldest_of_Some in Ho as [Hin%elem_of_map_to_list _].
    rewrite map_size_delete_Some by eauto.
    split; [lia|]. etrans; [apply delete_subseteq|done].
  - apply oldest_of_None in Ho. rewrite <- length_map_to_list, Ho in Hfull. simpl in Hfull. lia.
Qed.
End evict.

(** ** Silence *)

Section silence.
Context {Nd P : Type} `{Countable Nd}.

Record SilenceEntry : Type := mkSilenceEntry {
  se_subject : P;
  se_want : bool;
  se_timeouts : N;
  se_pinging : option N;
  se_silent : bool;
  se_next : N;
  se_busy_until : option N;
  se_last : N;
  se_seq : N
}.

Record Silence : Type := mkSilence {
  si_capacity : N;
  si_hang_after : N;
  si_ping_timeout : N;
  si_map : gmap Nd SilenceEntry;
  si_seq : N
}.

Definition silence_new (capacity hang_after ping_timeout : N) : Silence :=
  mkSilence (N.max capacity 1) hang_after ping_timeout ∅ 0.

Definition min_wait (s : Silence) : N := si_hang_after s / 10.
Definition hold (s : Silence) : N := saturating_mul DURATION_MAX (si_hang_after s) 2.
Definition quiet_time (s : Silence) : N := si_hang_after s.
Definition stale_ping (s : Silence) : N := saturating_mul DURATION_MAX (si_ping_timeout s) 2.

Definition set_map (s : Silence) (m : gmap Nd SilenceEntry) : Silence :=
  mkSilence (si_capacity s) (si_hang_after s) (si_ping_timeout s) m (si_seq s).

(** Insert a fresh entry with the next sequence number. *)
Definition insert_fresh (s : Silence) (m : gmap Nd SilenceEntry) (peer : Nd) (e : SilenceEntry) : Silence :=
  mkSilence (si_capacity s) (si_hang_after s) (si_ping_timeout s) (<[peer := e]> m) (si_seq s + 1).

(** [pinging.is_some_and(|at| now - at < stale)]. *)
Definition ping_live (s : Silence) (now : N) (e : SilenceEntry) : bool :=
  match se_pinging e with Some at_ => now - at_ <? stale_ping s | None => false end.

Definition silence_room (s : Silence) (now : N) : gmap Nd SilenceEntry :=
  make_room se_last se_seq (si_capacity s) SILENCE_TTL now (si_map s).

Definition timed_out (s : Silence) (peer : Nd) (subject : P) (sent now needed : N) : bool * Silence :=
  if now - sent <? min_wait s then (false, s)
  else
    match si_map s !! peer with
    | Some e =>
        let timeouts := saturating_add U32_MAX (se_timeouts e) 1 in
        let want := negb (se_silent e) && negb (ping_live s now e) && (se_next e <=? now)
                    && (needed <=? timeouts) in
        (want, set_map s (<[peer := mkSilenceEntry subject (se_want e || want) timeouts (se_pinging e)
                                    (se_silent e) (se_next e) (se_busy_until e) (N.max (se_last e) now)
                                    (se_seq e)]> (si_map s)))
    | None =>
        (needed <=? 1,
         insert_fresh s (silence_room s now) peer
           (mkSilenceEntry subject (needed <=? 1) 1 None false now None now (si_seq s)))
    end.

Definition answered_entry (quiet now : N) (e : SilenceEntry) : SilenceEntry :=
  mkSilenceEntry (se_subject e) false 0 None false (N.max (se_next e) (now + quiet)) None
    (N.max (se_last e) now) (se_seq e).

Definition answered (s : Silence) (peer : Nd) (now : N) : Silence :=
  set_map s (alter (answered_entry (quiet_time s) now) peer (si_map s)).

Definition set_busy (until : N) (e : SilenceEntry) : SilenceEntry :=
  mkSilenceEntry (se_subject e) (se_want e) (se_timeouts e) (se_pinging e) (se_silent e) (se_next e)
    (Some until) (se_last e) (se_seq e).

Definition shed (s : Silence) (peer : Nd) (subject : P) (now : N) : Silence :=
  let quiet := quiet_time s in
  let s := match si_map s !! peer with
           | Some _ => s
           | None => insert_fresh s (silence_room s now) peer
                       (mkSilenceEntry subject false 0 None false now None now (si_seq s))
           end in
  let s := answered s peer now in
  set_map s (alter (set_busy (now + quiet)) peer (si_map s)).

Definition start_entry (now : N) (e : SilenceEntry) : SilenceEntry :=
  mkSilenceEntry (se_subject e) false (se_timeouts e) (Some now) (se_silent e) (se_next e)
    (se_busy_until e) (se_last e) (se_seq e).

Definition start_ping (s : Silence) (peer : Nd) (now : N) : Silence :=
  set_map s (alter (start_entry now) peer (si_map s)).

Definition ping_due (s : Silence) (now : N) (e : SilenceEntry) : bool :=
  negb (ping_live s now e) && (se_want e || (se_silent e && (se_next e <=? now))).

Definition seq_le (a b : Nd * SilenceEntry) : Prop := se_seq a.2 ≤ se_seq b.2.

#[export] Instance seq_le_dec : RelDecision seq_le.
Proof. intros a b. unfold seq_le. apply _. Defined.

(** Due peers, oldest first, at most [max]. *)
Definition due_list (s : Silence) (now : N) (max : nat) : list (Nd * SilenceEntry) :=
  take max (merge_sort seq_le (filter (λ pe, ping_due s now pe.2 = true) (map_to_list (si_map s)))).

Definition due_pings (s : Silence) (now : N) (max : nat) : list (Nd * P) * Silence :=
  let due := due_list s now max in
  ((λ pe, (pe.1, se_subject pe.2)) <$> due,
   set_map s (foldl (λ m pe, alter (start_entry now) pe.1 m) (si_map s) due)).

Definition ping_result (s : Silence) (peer : Nd) (answer : option bool) (now : N) : bool * Silence :=
  match si_map s !! peer, answer with
  | Some e, Some ans =>
      if negb (is_some (se_pinging e)) && negb ans then (false, s)
      else
        let became := negb ans && negb (se_silent e) in
        (became,
         set_map s (<[peer := mkSilenceEntry (se_subject e) false (if ans then 0 else se_timeouts e) None
                                (negb ans) (now + (if ans then quiet_time s else hold s))
                                (se_busy_until e) (N.max (se_last e) now) (se_seq e)]> (si_map s)))
  | _, _ => (false, s)
  end.

Definition holds (e : SilenceEntry) (now : N) : bool := se_silent e && (now - se_last e <=? SILENCE_TTL).

Definition silent (s : Silence) (peer : Nd) (now : N) : bool :=
  match si_map s !! peer with Some e => holds e now | None => false end.

Definition silent_peers (s : Silence) (now : N) : list Nd :=
  fst <$> filter (λ pe, holds pe.2 now = true) (map_to_list (si_map s)).

Definition unanswered_peer (s : Silence) (peer : Nd) (now : N) : bool :=
  match si_map s !! peer with
  | Some e => ((se_silent e || (0 <? se_timeouts e)) && (now - se_last e <=? SILENCE_TTL))
              || match se_busy_until e with Some until => now <? until | None => false end
  | None => false
  end.

Definition silence_retain (s : Silence) (keep : Nd → bool) : Silence :=
  set_map s (filter (λ pe, keep pe.1 = true) (si_map s)).

(** ** Operations as data *)

Inductive SilenceOp : Type :=
  | SOp_TimedOut (peer : Nd) (subject : P) (sent now needed : N)
  | SOp_Shed (peer : Nd) (subject : P) (now : N)
  | SOp_StartPing (peer : Nd) (now : N)
  | SOp_DuePings (now : N) (max : nat)
  | SOp_PingResult (peer : Nd) (answer : option bool) (now : N)
  | SOp_Answered (peer : Nd) (now : N)
  | SOp_Retain (keep : Nd → bool).

Definition silence_step (s : Silence) (op : SilenceOp) : Silence :=
  match op with
  | SOp_TimedOut p x sent now needed => (timed_out s p x sent now needed).2
  | SOp_Shed p x now => shed s p x now
  | SOp_StartPing p now => start_ping s p now
  | SOp_DuePings now max => (due_pings s now max).2
  | SOp_PingResult p a now => (ping_result s p a now).2
  | SOp_Answered p now => answered s p now
  | SOp_Retain keep => silence_retain s keep
  end.

Definition silence_run (s : Silence) (ops : list SilenceOp) : Silence := foldl silence_step s ops.

(** ** What a step does to one peer's entry *)

(** An operation that shows [q] is alive. *)
Definition proves_alive (q : Nd) (op : SilenceOp) : Prop :=
  match op with
  | SOp_Answered p _ | SOp_PingResult p (Some true) _ | SOp_Shed p _ _ => p = q
  | _ => False
  end.

Inductive entry_step (s : Silence) (op : SilenceOp) (q : Nd) (e : SilenceEntry) : SilenceEntry → Prop :=
  | es_same : ¬ proves_alive q op → entry_step s op q e e
  | es_timeout x sent now needed want :
      op = SOp_TimedOut q x sent now needed →
      (want = true → se_next e ≤ now ∧ se_silent e = false ∧ ping_live s now e = false) →
      entry_step s op q e (mkSilenceEntry x (se_want e || want) (saturating_add U32_MAX (se_timeouts e) 1)
        (se_pinging e) (se_silent e) (se_next e) (se_busy_until e) (N.max (se_last e) now) (se_seq e))
  | es_start now :
      op = SOp_StartPing q now ∨ (∃ max, op = SOp_DuePings now max ∧ ping_due s now e = true) →
      entry_step s op q e (start_entry now e)
  | es_result ans now :
      op = SOp_PingResult q (Some ans) now → is_Some (se_pinging e) ∨ ans = true →
      entry_step s op q e (mkSilenceEntry (se_subject e) false (if ans then 0 else se_timeouts e) None
        (negb ans) (now + (if ans then quiet_time s else hold s)) (se_busy_until e)
        (N.max (se_last e) now) (se_seq e))
  | es_answered now :
      op = SOp_Answered q now → entry_step s op q e (answered_entry (quiet_time s) now e)
  | es_shed x now :
      op = SOp_Shed q x now →
      entry_step s op q e (set_busy (now + quiet_time s) (answered_entry (quiet_time s) now e)).

(** A new entry carries the next sequence number and is neither silent nor pinged. *)
Definition fresh_entry (s : Silence) (op : SilenceOp) (q : Nd) (e : SilenceEntry) : Prop :=
  se_silent e = false ∧ se_pinging e = None ∧ se_seq e = si_seq s ∧
  ((∃ x sent now needed, op = SOp_TimedOut q x sent now needed) ∨ (∃ x now, op = SOp_Shed q x now)).

Lemma silence_room_sub s now : silence_room s now ⊆ si_map s.
Proof.
  unfold silence_room, make_room. destruct (_ <? _); [done|]. destruct (_ <=? _); [|apply map_filter_subseteq].
  destruct (oldest_of _ _ _) as [[k x]|]; [|apply map_filter_subseteq].
  etrans; [apply delete_subseteq|apply map_filter_subseteq].
Qed.

Lemma lookup_fold_start now (due : list (Nd * SilenceEntry)) (m : gmap Nd SilenceEntry) q :
  NoDup due.*1 →
  foldl (λ m pe, alter (start_entry now) pe.1 m) m due !! q =
  if decide (q ∈ due.*1) then start_entry now <$> m !! q else m !! q.
Proof.
  revert m. induction due as [|[k e] due IH]; intros m; csimpl; [done|].
  intros [Hn Hnd]%NoDup_cons. rewrite IH by done. destruct (decide (q = k)) as [->|Hne].
  - rewrite lookup_alter_eq, decide_False by done. rewrite decide_True by set_solver. done.
  - rewrite lookup_alter_ne by done. repeat case_decide; set_solver.
Qed.

Lemma due_list_spec s now max :
  NoDup (due_list s now max).*1 ∧
  ∀ q e, (q, e) ∈ due_list s now max → si_map s !! q = Some e ∧ ping_due s now e = true.
Proof.
  unfold due_list. set (l := filter _ _).
  pose proof (merge_sort_Permutation seq_le l) as Hp.
  assert (NoDup (merge_sort seq_le l).*1) as Hnd.
  { rewrite Hp. eapply sublist_NoDup; [apply (NoDup_fst_map_to_list (si_map s))|]. apply fmap_sublist, sublist_filter. }
  split.
  - eapply sublist_NoDup; [exact Hnd|]. apply fmap_sublist, sublist_take.
  - intros q e (i & Hi & _)%elem_of_take. apply list_elem_of_lookup_2 in Hi. rewrite Hp in Hi.
    unfold l in Hi. apply list_elem_of_filter in Hi as [Hd Hi%elem_of_map_to_list]. done.
Qed.

Ltac not_alive := let Ha := fresh in intros Ha; simpl in Ha; by subst.

(** Where an entry after one step comes from. *)
Lemma silence_step_lookup s op q e' :
  si_map (silence_step s op) !! q = Some e' →
  (∃ e, si_map s !! q = Some e ∧ entry_step s op q e e') ∨
  (si_map s !! q = None ∧ fresh_entry s op q e').
Proof.
  assert (∀ m e, ¬ proves_alive q op → m ⊆ si_map s → m !! q = Some e →
            ∃ e0, si_map s !! q = Some e0 ∧ entry_step s op q e0 e) as Hsame.
  { intros m e Ha Hsub Hm. exists e. split; [by eapply lookup_weaken|by constructor]. }
  destruct op as [p x sent now needed|p x now|p now|now max|p ans now|p now|keep]; simpl.
  - unfold timed_out. destruct (_ <? _); [intros Hq; left; eapply Hsame; [not_alive|done|done]|].
    destruct (si_map s !! p) as [e|] eqn:Hp; simpl.
    + intros [[<- <-]|[_ Hq]]%lookup_insert_Some; [|left; eapply Hsame; [not_alive|done|done]]. left. exists e. split; [done|].
      econstructor; [done|]. rewrite !andb_true_iff, !negb_true_iff, !N.leb_le. tauto.
    + intros [[<- <-]|[_ Hq]]%lookup_insert_Some; [|left; eapply Hsame; [not_alive|apply silence_room_sub|done]].
      right. split; [done|]. unfold fresh_entry. simpl. eauto 10.
  - unfold shed. destruct (si_map s !! p) as [e|] eqn:Hp; simpl.
    + destruct (decide (q = p)) as [->|Hne].
      * rewrite !lookup_alter_eq, Hp. intros [= <-]. left. exists e. split; [done|]. by econstructor.
      * rewrite !lookup_alter_ne by done. intros Hq. left. eapply Hsame; [not_alive|done|done].
    + destruct (decide (q = p)) as [->|Hne].
      * rewrite !lookup_alter_eq, lookup_insert_eq. intros [= <-]. right. split; [done|].
        unfold fresh_entry. simpl. eauto 10.
      * rewrite !lookup_alter_ne, lookup_insert_ne by done. intros Hq. left.
        eapply Hsame; [not_alive|apply silence_room_sub|done].
  - destruct (decide (q = p)) as [->|Hne].
    + rewrite lookup_alter_eq. intros (e & He & ->)%fmap_Some. left. exists e. split; [done|]. econstructor; eauto.
    + rewrite lookup_alter_ne by done. intros Hq. left. eapply Hsame; [not_alive|done|done].
  - destruct (due_list_spec s now max) as [Hnd Hdue]. rewrite lookup_fold_start by done.
    case_decide as Hin; [|intros Hq; left; eapply Hsame; [not_alive|done|done]].
    intros (e & He & ->)%fmap_Some. apply list_elem_of_fmap in Hin as ([q0 e0] & -> & Hin).
    destruct (Hdue _ _ Hin) as [Hq Hd]. simpl in *.
    rewrite Hq in He. injection He as ->. left. exists e. split; [done|]. econstructor; eauto.
  - unfold ping_result. destruct (decide (q = p)) as [->|Hne].
    + destruct (si_map s !! p) as [e|] eqn:Hp; [|simpl; intros; congruence].
      destruct ans as [ans|]; [|simpl; rewrite Hp; intros [= <-]; left; exists e; split; [done|constructor; not_alive]].
      destruct (negb (is_some (se_pinging e)) && negb ans) eqn:Hig.
      { destruct ans; [by rewrite andb_false_r in Hig|]. simpl. rewrite Hp. intros [= <-]. left. exists e. split; [done|constructor; not_alive]. }
      simpl. rewrite lookup_insert_eq. intros [= <-]. left. exists e. split; [done|].
      constructor; [done|]. destruct (se_pinging e), ans; eauto; done.
    + intros Hq. left. eapply Hsame; [|done|].
      { destruct ans as [[]|]; not_alive. }
      revert Hq. destruct (si_map s !! p), ans; try done. destruct (_ && _); [done|]. simpl.
      by rewrite lookup_insert_ne.
  - unfold answered. simpl. destruct (decide (q = p)) as [->|Hne].
    + rewrite lookup_alter_eq. intros (e & He & ->)%fmap_Some. left. exists e. split; [done|]. by constructor.
    + rewrite lookup_alter_ne by done. intros Hq. left. eapply Hsame; [not_alive|done|done].
  - intros Hq. left. eapply Hsame; [not_alive| |done]. apply map_filter_subseteq.
Qed.

(** ** Invariant *)

Record silence_inv (s : Silence) : Prop := {
  sv_capacity : 0 < si_capacity s;
  sv_size : N.of_nat (size (si_map s)) ≤ si_capacity s;
  sv_seq : ∀ q e, si_map s !! q = Some e → se_seq e < si_seq s;
  sv_inj : ∀ q1 q2 e1 e2, si_map s !! q1 = Some e1 → si_map s !! q2 = Some e2 →
           se_seq e1 = se_seq e2 → q1 = q2
}.

Lemma entry_step_seq s op q e e' : entry_step s op q e e' → se_seq e' = se_seq e.
Proof. by destruct 1. Qed.

Lemma size_alter_le (f : SilenceEntry → SilenceEntry) q (m : gmap Nd SilenceEntry) : size (alter f q m) = size m.
Proof. by rewrite <- !size_dom, dom_alter_L. Qed.

Lemma insert_fresh_size s now p e :
  silence_inv s → N.of_nat (size (<[p := e]> (silence_room s now))) ≤ si_capacity s.
Proof.
  intros [H1 H2 _ _]. destruct (make_room_spec se_last se_seq (si_capacity s) SILENCE_TTL now (si_map s) H1 H2) as [Hr _].
  unfold silence_room. rewrite map_size_insert. case_match; simpl; lia.
Qed.

Lemma silence_step_size s op :
  silence_inv s → N.of_nat (size (si_map (silence_step s op))) ≤ si_capacity s ∧
                  si_capacity (silence_step s op) = si_capacity s.
Proof.
  intros Hi. pose proof (sv_size _ Hi) as Hs.
  destruct op as [p x sent now needed|p x now|p now|now max|p ans now|p now|keep]; simpl.
  - unfold timed_out. destruct (_ <? _); [done|]. destruct (si_map s !! p) eqn:Hp; simpl.
    + by rewrite map_size_insert_Some by eauto.
    + split; [by apply insert_fresh_size|done].
  - unfold shed. destruct (si_map s !! p) eqn:Hp; simpl; rewrite !size_alter_le; [done|].
    split; [by apply insert_fresh_size|done].
  - by rewrite size_alter_le.
  - split; [|done]. generalize (due_list s now max). intros due. revert Hs.
    generalize (si_map s). induction due as [|pe due IH]; intros m Hs; simpl; [done|].
    apply IH. by rewrite size_alter_le.
  - unfold ping_result. destruct (si_map s !! p) eqn:Hp; [|done]. destruct ans; [|done].
    destruct (_ && _); [done|]. simpl. by rewrite map_size_insert_Some by eauto.
  - unfold answered. simpl. by rewrite size_alter_le.
  - pose proof (map_size_filter (λ pe, keep pe.1 = true) (si_map s)). split; [lia|done].
Qed.

Lemma silence_step_seq_le s op : si_seq s ≤ si_seq (silence_step s op).
Proof.
  destruct op; simpl; try done.
  - unfold timed_out. destruct (_ <? _); [done|]. destruct (si_map s !! peer); simpl; lia.
  - unfold shed. destruct (si_map s !! peer); simpl; lia.
  - unfold ping_result. destruct (si_map s !! peer), answer; try done. by destruct (_ && _).
Qed.

(** A fresh entry moves the counter past its own sequence number. *)
Lemma silence_step_fresh s op q e' :
  si_map (silence_step s op) !! q = Some e' → si_map s !! q = None → fresh_entry s op q e' →
  si_seq (silence_step s op) = si_seq s + 1 ∧
  ∀ q' e, si_map (silence_step s op) !! q' = Some e → q' ≠ q → si_map s !! q' ≠ None.
Proof.
  intros Hq' Hq (_ & _ & _ & [(x & sent & now & needed & ->)|(x & now & ->)]); simpl in *.
  - unfold timed_out in *. destruct (_ <? _); simpl in *; [congruence|]. rewrite Hq in *. simpl in *.
    split; [done|]. intros q' e. rewrite lookup_insert_Some. intros [[<- _]|[_ Hr]] Hne Hn; [done|].
    eapply lookup_weaken in Hr; [|apply silence_room_sub]. congruence.
  - unfold shed in *. rewrite Hq in *. simpl in *. split; [done|].
    intros q' e Hl Hne Hn. rewrite !lookup_alter_ne, lookup_insert_ne in Hl by done.
    eapply lookup_weaken in Hl; [|apply silence_room_sub]. congruence.
Qed.

Lemma silence_step_inv s op : silence_inv s → silence_inv (silence_step s op).
Proof.
  intros Hi. destruct (silence_step_size s op Hi) as [Hsz Hcap]. destruct Hi as [H1 H2 H3 H4].
  pose proof (silence_step_seq_le s op) as Hle.
  split; rewrite ?Hcap; [done|done| |].
  - intros q e' He'. destruct (silence_step_lookup s op q e' He') as [(e & He & Hs)|[Hn Hf]].
    + rewrite (entry_step_seq _ _ _ _ _ Hs). specialize (H3 _ _ He). lia.
    + destruct (silence_step_fresh _ _ _ _ He' Hn Hf) as [-> _]. destruct Hf as (_ & _ & -> & _). lia.
  - intros q1 q2 e1 e2 He1 He2 Heq.
    destruct (silence_step_lookup s op q1 e1 He1) as [(f1 & Hf1 & S1)|[N1 F1]],
             (silence_step_lookup s op q2 e2 He2) as [(f2 & Hf2 & S2)|[N2 F2]].
    + rewrite (entry_step_seq _ _ _ _ _ S1), (entry_step_seq _ _ _ _ _ S2) in Heq. eauto.
    + rewrite (entry_step_seq _ _ _ _ _ S1) in Heq. destruct F2 as (_ & _ & F2 & _).
      specialize (H3 _ _ Hf1). lia.
    + rewrite (entry_step_seq _ _ _ _ _ S2) in Heq. destruct F1 as (_ & _ & F1 & _).
      specialize (H3 _ _ Hf2). lia.
    + destruct (decide (q1 = q2)) as [|Hne]; [done|].
      destruct (silence_step_fresh _ _ _ _ He2 N2 F2) as [_ Hall]. by destruct (Hall q1 e1 He1 Hne).
Qed.

Lemma silence_run_inv capacity hang ping ops : silence_inv (silence_run (silence_new capacity hang ping) ops).
Proof.
  assert (silence_inv (silence_new capacity hang ping)) as Hi.
  { split; simpl; try done; [lia|]. rewrite map_size_empty. lia. }
  revert Hi. generalize (silence_new capacity hang ping). unfold silence_run.
  induction ops as [|op ops IH]; intros s Hi; simpl; [done|]. apply IH. by apply silence_step_inv.
Qed.

(** ** Properties *)

Lemma entry_step_silent s op q e e' :
  entry_step s op q e e' → se_silent e' = true →
  (se_silent e = true ∧ ¬ proves_alive q op) ∨
  (∃ now, op = SOp_PingResult q (Some false) now ∧ is_Some (se_pinging e)).
Proof.
  intros Hs Hsil. destruct Hs as [Ha|x sent now needed want -> _|now Hop|ans now -> Hp|now ->|x now ->];
    simpl in *; try done.
  - left. by split.
  - left. split; [done|not_alive].
  - left. split; [done|]. destruct Hop as [->|(max & -> & _)]; not_alive.
  - right. destruct ans; [done|]. exists now. split; [done|]. by destruct Hp.
Qed.

(** Whatever is reported to it, the map never tracks more peers than its
    capacity, and insertion numbers are distinct, so eviction and ping order do not
    depend on hash order. *)
Theorem silence_bounded capacity hang ping ops :
  let s := silence_run (silence_new capacity hang ping) ops in
  N.of_nat (size (si_map s)) ≤ N.max capacity 1 ∧
  ∀ q1 q2 e1 e2, si_map s !! q1 = Some e1 → si_map s !! q2 = Some e2 →
    se_seq e1 = se_seq e2 → q1 = q2.
Proof.
  intros s. destruct (silence_run_inv capacity hang ping ops) as [_ H2 _ H4]. fold s in H2, H4.
  split; [|exact H4]. replace (N.max capacity 1) with (si_capacity s); [done|].
  unfold s, silence_run. change (N.max capacity 1) with (si_capacity (silence_new capacity hang ping)).
  assert (silence_inv (silence_new capacity hang ping)) as Hi
    by apply (silence_run_inv capacity hang ping []).
  revert Hi. generalize (silence_new capacity hang ping). clear.
  induction ops as [|op ops IH]; intros s Hi; simpl; [done|].
  rewrite IH by by apply silence_step_inv. by apply silence_step_size.
Qed.

(** A peer is presumed silent only because a ping that was outstanding went
    unanswered and nothing has proved it alive since: timeouts alone never do. *)
Theorem silent_only_after_unanswered_ping capacity hang ping ops q now :
  silent (silence_run (silence_new capacity hang ping) ops) q now = true →
  ∃ before after at_,
    ops = before ++ SOp_PingResult q (Some false) at_ :: after ∧
    (∃ e, si_map (silence_run (silence_new capacity hang ping) before) !! q = Some e ∧
          is_Some (se_pinging e)) ∧
    Forall (λ op, ¬ proves_alive q op) after.
Proof.
  unfold silent. destruct (si_map _ !! q) as [e|] eqn:He; [|done]. unfold holds.
  intros [Hsil _]%andb_prop. revert e He Hsil. induction ops as [|op ops IH] using rev_ind; intros e He Hsil.
  { simpl in He. by rewrite lookup_empty in He. }
  unfold silence_run in *. rewrite foldl_app in He. simpl in He.
  apply silence_step_lookup in He as [(e0 & He0 & Hs)|[_ (Hf & _)]]; [|congruence].
  apply entry_step_silent in Hs as [[Hs0 Hna]|(at_ & -> & Hp)]; [..|done].
  - destruct (IH e0 He0 Hs0) as (before & after & at_ & -> & Hb & Ha).
    exists before, (after ++ [op]), at_. rewrite <- app_assoc. split_and!; [done..|].
    apply Forall_app. by split; [|apply Forall_singleton].
  - exists ops, [], at_. split_and!; [done| |done]. eauto.
Qed.

(** When an operation happens, if it reads the clock. *)
Definition sop_time (op : SilenceOp) : option N :=
  match op with
  | SOp_TimedOut _ _ _ now _ | SOp_Shed _ _ now | SOp_StartPing _ now | SOp_DuePings now _
  | SOp_PingResult _ _ now | SOp_Answered _ now => Some now
  | SOp_Retain _ => None
  end.

Definition starts_ping (q : Nd) (op : SilenceOp) : Prop :=
  match op with SOp_StartPing p _ => p = q | _ => False end.

(** [q] is quiet until [until]: alive, nothing outstanding, nothing wanted. *)
Definition quiet_entry (until : N) (e : SilenceEntry) : Prop :=
  se_silent e = false ∧ se_want e = false ∧ se_pinging e = None ∧ until ≤ se_next e.

Lemma quiet_entry_step s op q e e' at_ until :
  entry_step s op q e e' → quiet_entry until e →
  (∀ now, sop_time op = Some now → at_ ≤ now ∧ now < until) → ¬ starts_ping q op →
  until ≤ at_ + quiet_time s → quiet_entry until e'.
Proof.
  unfold quiet_entry. intros Hs (Q1 & Q2 & Q3 & Q4) Ht Hns Hu.
  destruct Hs as [Ha|x sent now needed want -> Hw|now Hop|ans now -> Hp|now ->|x now ->]; simpl in *.
  - done.
  - destruct (Ht now eq_refl) as [_ Hlt]. destruct want; [destruct (Hw eq_refl); lia|].
    rewrite Q2. done.
  - destruct Hop as [->|(max & -> & Hd)]; [by destruct Hns|]. exfalso. unfold ping_due in Hd.
    by rewrite Q1, Q2, andb_false_r in Hd.
  - destruct (Ht now eq_refl) as [Hle _]. destruct Hp as [[? Hp]| ->]; [congruence|]. simpl. split_and!; try done. lia.
  - split_and!; try done. lia.
  - split_and!; try done. lia.
Qed.

Lemma silence_step_params s op :
  si_hang_after (silence_step s op) = si_hang_after s ∧ si_ping_timeout (silence_step s op) = si_ping_timeout s.
Proof.
  destruct op; simpl; try done.
  - unfold timed_out. destruct (_ <? _); [done|]. by destruct (si_map s !! peer).
  - unfold shed. by destruct (si_map s !! peer).
  - unfold ping_result. destruct (si_map s !! peer), answer; try done. by destruct (_ && _).
Qed.

(** A tracked peer that answered is left alone for the quiet time: whatever
    happens meanwhile (timeouts included), it is not silent and no ping to it is due,
    unless the caller starts one itself or the entry is evicted. *)
Theorem answered_peer_is_left_alone s q at_ ops now :
  let s0 := answered s q at_ in
  (∀ n, is_Some (si_map (silence_run s0 (take n ops)) !! q)) →
  Forall (λ op, (∀ t, sop_time op = Some t → at_ ≤ t ∧ t < at_ + quiet_time s) ∧ ¬ starts_ping q op) ops →
  let s' := silence_run s0 ops in
  silent s' q now = false ∧
  ∃ e, si_map s' !! q = Some e ∧ ping_due s' now e = false.
Proof.
  intros s0 Hkeep Hops s'.
  assert (∀ s1 e, si_hang_after s1 = si_hang_after s → si_map s1 !! q = Some e →
     (∀ n, is_Some (si_map (silence_run s1 (take n ops)) !! q)) →
     quiet_entry (at_ + quiet_time s) e →
     ∃ e', si_map (silence_run s1 ops) !! q = Some e' ∧ quiet_entry (at_ + quiet_time s) e') as Hrun.
  { clear Hkeep s' s0. induction Hops as [|op ops [Ht Hns] _ IH]; intros s1 e Hh He Hk Hq; [by exists e|].
    simpl. destruct (Hk 1%nat) as [e1 He1]. simpl in He1. destruct (silence_step_params s1 op) as [Hh1 _].
    apply (IH (silence_step s1 op) e1); [congruence|done| |].
    - intros n. exact (Hk (S n)).
    - destruct (silence_step_lookup _ _ _ _ He1) as [(e0 & He0 & Hs)|[Hn _]]; [|congruence].
      rewrite He in He0. injection He0 as <-. eapply quiet_entry_step; [done..|].
      unfold quiet_time. rewrite Hh. done. }
  destruct (Hkeep 0%nat) as [e0 He0]. simpl in He0.
  destruct (Hrun s0 e0) as (e & He & Q1 & Q2 & Q3 & Q4); [done..| |].
  - unfold s0, answered in He0. simpl in He0. rewrite lookup_alter_eq in He0.
    apply fmap_Some in He0 as (e1 & _ & ->). unfold quiet_entry. simpl. split_and!; try done. lia.
  - fold s' in He. unfold silent, holds. rewrite He, Q1. split; [done|]. exists e. split; [done|].
    unfold ping_due. by rewrite Q1, Q2, andb_false_r.
Qed.

(** Due peers left out of the round are younger than all that are in it. *)
Lemma due_list_rest s now max q e :
  si_map s !! q = Some e → ping_due s now e = true → q ∉ (due_list s now max).*1 →
  length (due_list s now max) = max ∧ ∀ pe, pe ∈ due_list s now max → se_seq pe.2 ≤ se_seq e.
Proof.
  intros He Hd Hnot. unfold due_list in *. set (l := filter _ _) in *.
  pose proof (merge_sort_Permutation seq_le l) as Hp.
  assert (StronglySorted seq_le (merge_sort seq_le l)) as Hs.
  { apply Sorted_StronglySorted; [intros a b c; unfold seq_le; lia|].
    apply Sorted_merge_sort. intros a b. unfold seq_le. lia. }
  assert ((q, e) ∈ merge_sort seq_le l) as Hin.
  { rewrite Hp. apply list_elem_of_filter. split; [done|]. by apply elem_of_map_to_list. }
  rewrite <- (take_drop max (merge_sort seq_le l)) in Hs, Hin.
  apply StronglySorted_app in Hs as (Hle & _ & _).
  apply elem_of_app in Hin as [Hin|Hin].
  { destruct Hnot. by apply (list_elem_of_fmap_2 fst) in Hin. }
  split; [|intros pe Hpe; exact (Hle _ _ Hpe Hin)].
  apply length_take_le. destruct (decide (max ≤ length (merge_sort seq_le l))%nat); [done|].
  rewrite drop_ge in Hin by lia. set_solver.
Qed.

(** A round of pings takes the oldest due peers, each once and at most [max],
    and none of them is due again until the ping's answer is late. *)
Theorem due_pings_fair capacity hang ping ops now max :
  let s := silence_run (silence_new capacity hang ping) ops in
  let pings := (due_pings s now max).1 in
  let s' := (due_pings s now max).2 in
  NoDup pings.*1 ∧ (length pings ≤ max)%nat ∧
  (∀ q x, (q, x) ∈ pings → ∃ e e', si_map s !! q = Some e ∧ ping_due s now e = true ∧
     si_map s' !! q = Some e' ∧ ∀ t, t - now < stale_ping s → ping_due s' t e' = false) ∧
  (∀ q e, si_map s !! q = Some e → ping_due s now e = true → q ∉ pings.*1 →
     length pings = max ∧ ∀ p x ep, (p, x) ∈ pings → si_map s !! p = Some ep → se_seq ep ≤ se_seq e).
Proof.
  intros s pings s'. destruct (due_list_spec s now max) as [Hnd Hdue].
  assert (pings.*1 = (due_list s now max).*1) as Hfst.
  { unfold pings, due_pings. simpl. by rewrite <- list_fmap_compose. }
  assert (length pings = length (due_list s now max)) as Hlen by (unfold pings, due_pings; simpl; apply length_fmap).
  split_and!.
  - by rewrite Hfst.
  - rewrite Hlen. unfold due_list. rewrite length_take. lia.
  - intros q x Hin. unfold pings, due_pings in Hin. simpl in Hin.
    apply list_elem_of_fmap in Hin as ([q0 e] & [= <- ->] & Hin). simpl in *.
    destruct (Hdue _ _ Hin) as [He Hd]. exists e, (start_entry now e). split_and!; [done..| |].
    + unfold s', due_pings. simpl. rewrite lookup_fold_start by done.
      rewrite decide_True by (by apply (list_elem_of_fmap_2 fst) in Hin). by rewrite He.
    + intros t Ht. unfold ping_due, ping_live. simpl.
      change (stale_ping s') with (stale_ping s). apply N.ltb_lt in Ht. by rewrite Ht.
  - intros q e He Hd Hnot. rewrite Hfst in Hnot. rewrite Hlen.
    destruct (due_list_rest s now max q e He Hd Hnot) as [Hl Hle]. split; [done|].
    intros p x ep Hin Hp. unfold pings, due_pings in Hin. simpl in Hin.
    apply list_elem_of_fmap in Hin as ([p0 e0] & [= <- ->] & Hin).
    destruct (Hdue _ _ Hin) as [Hp0 _]. simpl in Hp0. rewrite Hp in Hp0. injection Hp0 as <-.
    exact (Hle _ Hin).
Qed.
End silence.
Arguments Silence : clear implicits.
Arguments Silence Nd P {_ _}.
Arguments SilenceEntry : clear implicits.
Arguments SilenceOp : clear implicits.

(** Two timeouts ask for a ping, which then goes unanswered. *)
Definition silent_history : list (SilenceOp N unit) :=
  [SOp_TimedOut 7 tt 0 (20 * SECOND) 1; SOp_DuePings (20 * SECOND) 4; SOp_PingResult 7 (Some false) (21 * SECOND)].

Lemma silent_only_after_unanswered_ping_witness :
  silent (silence_run (silence_new 4 (15 * SECOND) SECOND) silent_history) 7 (22 * SECOND) = true ∧
  ∃ before after at_, silent_history = before ++ SOp_PingResult 7 (Some false) at_ :: after.
Proof.
  split; [vm_compute; reflexivity|].
  destruct (silent_only_after_unanswered_ping 4 (15 * SECOND) SECOND silent_history 7 (22 * SECOND))
    as (before & after & at_ & He & _); [vm_compute; reflexivity|]. by exists before, after, at_.
Defined.

Lemma answered_peer_is_left_alone_witness :
  let s := silence_run (silence_new 4 (15 * SECOND) SECOND) silent_history in
  silent s 7 (22 * SECOND) = true ∧
  silent (silence_run (answered s 7 (23 * SECOND)) [SOp_TimedOut 7 tt (23 * SECOND) (30 * SECOND) 1]) 7
    (30 * SECOND) = false.
Proof.
  intros s. split; [vm_compute; reflexivity|].
  apply (answered_peer_is_left_alone s 7 (23 * SECOND) [SOp_TimedOut 7 tt (23 * SECOND) (30 * SECOND) 1] (30 * SECOND)).
  - intros [|[|n]]; vm_compute; eauto.
  - apply Forall_singleton. split; [|by intros []]. intros t [= <-]. by vm_compute.
Defined.

(** ** Detours *)

Definition DETOUR_TTL : N := SILENCE_TTL.
Definition MAX_DETOUR : N := 2.

Section detours.
Context {Nd : Type} `{Countable Nd}.

Record Detour : Type := mkDetour {
  dt_level : N;
  dt_since : N;
  dt_last : N;
  dt_seq : N
}.

Record Detours : Type := mkDetours {
  dts_capacity : N;
  dts_map : gmap Nd Detour;
  dts_seq : N
}.

Definition detours_new (capacity : N) : Detours := mkDetours (N.max capacity 1) ∅ 0.

(** The detour of [peer] that has not expired. *)
Definition detour_live (d : Detours) (peer : Nd) (now : N) : option Detour :=
  e ← dts_map d !! peer; if now - dt_last e <=? DETOUR_TTL then Some e else None.

Definition detour_timed_out (d : Detours) (peer : Nd) (sent now : N) : Detours :=
  match detour_live d peer now with
  | Some e =>
      let raise := (dt_since e <=? sent) && (dt_level e <? MAX_DETOUR) in
      mkDetours (dts_capacity d)
        (<[peer := mkDetour (if raise then dt_level e + 1 else dt_level e)
                     (if raise then now else dt_since e) (N.max (dt_last e) now) (dt_seq e)]> (dts_map d))
        (dts_seq d)
  | None =>
      let m := delete peer (dts_map d) in
      let m := make_room dt_last dt_seq (dts_capacity d) DETOUR_TTL now m in
      mkDetours (dts_capacity d) (<[peer := mkDetour 1 now now (dts_seq d)]> m) (dts_seq d + 1)
  end.

Definition detour_level (d : Detours) (peer : Nd) (now : N) : N :=
  from_option dt_level 0 (detour_live d peer now).

Definition detour_retain (d : Detours) (keep : Nd → bool) : Detours :=
  mkDetours (dts_capacity d) (filter (λ pe, keep pe.1 = true) (dts_map d)) (dts_seq d).

Inductive DetourOp : Type :=
  | DOp_TimedOut (peer : Nd) (sent now : N)
  | DOp_Retain (keep : Nd → bool).

Definition detour_step (d : Detours) (op : DetourOp) : Detours :=
  match op with
  | DOp_TimedOut p sent now => detour_timed_out d p sent now
  | DOp_Retain keep => detour_retain d keep
  end.

Definition detour_inv (d : Detours) : Prop :=
  0 < dts_capacity d ∧ N.of_nat (size (dts_map d)) ≤ dts_capacity d ∧
  ∀ p e, dts_map d !! p = Some e → 1 ≤ dt_level e ≤ MAX_DETOUR ∧ dt_since e ≤ dt_last e.

Lemma detour_live_Some d p now e :
  detour_live d p now = Some e ↔ dts_map d !! p = Some e ∧ now - dt_last e ≤ DETOUR_TTL.
Proof.
  unfold detour_live. destruct (dts_map d !! p) as [e0|]; simpl; [|naive_solver].
  destruct (N.leb_spec (now - dt_last e0) DETOUR_TTL); naive_solver lia.
Qed.

Lemma detour_step_inv d op : detour_inv d → detour_inv (detour_step d op).
Proof.
  intros (Hc & Hs & Hl). destruct op as [p sent now|keep]; simpl.
  - unfold detour_timed_out. destruct (detour_live d p now) as [e|] eqn:Hlive.
    + apply detour_live_Some in Hlive as [Hp _]. destruct (Hl _ _ Hp) as [[? ?] ?].
      unfold detour_inv. simpl. split_and!; [done|by rewrite map_size_insert_Some by eauto|].
      intros p0 e0 [[<- <-]|[_ Hp0]]%lookup_insert_Some; [|by eapply Hl]. simpl. unfold MAX_DETOUR in *.
      destruct (N.leb_spec (dt_since e) sent), (N.ltb_spec (dt_level e) 2); simpl; lia.
    + assert (N.of_nat (size (delete p (dts_map d))) ≤ dts_capacity d) as Hs'.
      { rewrite map_size_delete. case_match; simpl; lia. }
      destruct (make_room_spec dt_last dt_seq (dts_capacity d) DETOUR_TTL now _ Hc Hs') as [Hr Hsub].
      unfold detour_inv. simpl. split_and!; [done| |].
      * rewrite map_size_insert. case_match; simpl; lia.
      * intros p0 e0 [[<- <-]|[_ Hp0]]%lookup_insert_Some; [simpl; unfold MAX_DETOUR; lia|].
        eapply lookup_weaken in Hp0; [|exact Hsub]. apply lookup_delete_Some in Hp0 as [_ Hp0]. by eapply Hl.
  - unfold detour_inv. simpl. split_and!; [done| |].
    + pose proof (map_size_filter (λ pe, keep pe.1 = true) (dts_map d)). lia.
    + intros p e [Hp _]%map_lookup_filter_Some. by eapply Hl.
Qed.

Lemma detour_run_inv capacity ops : detour_inv (foldl detour_step (detours_new capacity) ops).
Proof.
  assert (detour_inv (detours_new capacity)) as Hi.
  { unfold detour_inv. simpl. split_and!; [lia|rewrite map_size_empty; lia|done]. }
  revert Hi. generalize (detours_new capacity). induction ops as [|op ops IH]; intros d Hi; simpl; [done|].
  apply IH. by apply detour_step_inv.
Qed.

(** Detours stay bounded in number and level; an unanswered exchange raises a
    live detour by one level only if it was itself sent on that detour, so a burst of
    exchanges sent before a relay was skipped never skips the next relay too; and a
    detour ends once [DETOUR_TTL] passes without a timeout. *)
Theorem detour_levels capacity ops p sent now :
  let d := foldl detour_step (detours_new capacity) ops in
  let d' := detour_timed_out d p sent now in
  N.of_nat (size (dts_map d)) ≤ N.max capacity 1 ∧
  detour_level d p now ≤ MAX_DETOUR ∧
  (detour_level d p now = 0 → detour_level d' p now = 1) ∧
  (∀ e, detour_live d p now = Some e → sent < dt_since e → detour_level d' p now = detour_level d p now) ∧
  (∀ e, detour_live d p now = Some e → dt_since e ≤ sent →
     detour_level d' p now = N.min (detour_level d p now + 1) MAX_DETOUR) ∧
  (∀ e t, dts_map d !! p = Some e → dt_last e + DETOUR_TTL < t → detour_level d p t = 0).
Proof.
  intros d d'. destruct (detour_run_inv capacity ops) as (Hc & Hs & Hl). fold d in Hc, Hs, Hl.
  assert (dts_capacity d = N.max capacity 1) as Hcap.
  { unfold d. change (N.max capacity 1) with (dts_capacity (detours_new capacity)). clear.
    generalize (detours_new capacity). induction ops as [|op ops IH]; intros d; simpl; [done|].
    rewrite IH. destruct op; simpl; [|done]. unfold detour_timed_out. by destruct (detour_live d peer now). }
  rewrite Hcap in Hs. split_and!; [done|..].
  - unfold detour_level. destruct (detour_live d p now) as [e|] eqn:E; simpl; [|unfold MAX_DETOUR; lia].
    apply detour_live_Some in E as [E _]. by apply Hl in E as [[? ?] _].
  - intros H0. unfold d', detour_timed_out, detour_level in *. destruct (detour_live d p now) as [e|] eqn:E; simpl in *.
    + apply detour_live_Some in E as [E _]. apply Hl in E as [[? ?] _]. lia.
    + unfold detour_live. simpl. rewrite lookup_insert_eq. simpl. rewrite N.sub_diag. done.
  - intros e E Hlt. unfold d', detour_timed_out, detour_level. rewrite E. simpl.
    unfold detour_live. simpl. rewrite lookup_insert_eq. simpl. apply N.leb_gt in Hlt. rewrite Hlt. simpl.
    apply detour_live_Some in E as [_ E]. rewrite (proj2 (N.leb_le _ _)); [done|lia].
  - intros e E Hle. unfold d', detour_timed_out, detour_level. rewrite E. simpl.
    unfold detour_live. simpl. rewrite lookup_insert_eq. simpl. apply N.leb_le in Hle. rewrite Hle. simpl.
    apply detour_live_Some in E as [Hp E]. rewrite (proj2 (N.leb_le _ _)) by lia. simpl.
    apply Hl in Hp as [[? ?] _]. unfold MAX_DETOUR in *. destruct (N.ltb_spec (dt_level e) 2); lia.
  - intros e t He Ht. unfold detour_level, detour_live. rewrite He. simpl.
    rewrite (proj2 (N.leb_gt _ _)); [done|lia].
Qed.
End detours.
