(* ===== verification/Rank0.v ===== *)
(** * The rank 0 watch ([Rank0Watch] of [core/src/liveness.rs])

    What an owner knows about rank 0's acquisition of a page, and so whether it
    withholds its own origin request.  Bounded by an eviction queue whose stale
    stamps are skipped. *)

From S2P Require Import Prelude Silence.
Local Open Scope N_scope.

Definition WATCH_CAPACITY : N := 4096.
Definition HANG_AFTER : N := 15 * SECOND.
Definition WATCH_TTL : N := 60 * SECOND.

Inductive Rank0State : Type :=
  | Rank0State_Unknown | Rank0State_Fetching | Rank0State_Overdue | Rank0State_Failed.

#[export] Instance Rank0State_eq_dec : EqDecision Rank0State.
Proof. solve_decision. Defined.

Section watch.
Context {K Nd : Type} `{Countable K} `{Countable Nd}.

Record Rank0Entry : Type := mkRank0Entry {
  re_node : Nd;
  re_until : N;
  re_last : N;
  re_failed : bool
}.

Record Rank0Watch : Type := mkWatch {
  rw_capacity : N;
  rw_ttl : N;
  rw_hang_after : N;
  rw_entries : gmap K Rank0Entry;
  rw_silent : gmap Nd N;
  rw_order : list (K * N)
}.

Definition watch_new (capacity ttl hang_after : N) : Rank0Watch :=
  mkWatch (N.max capacity 1) (N.max ttl hang_after) hang_after ∅ ∅ [].

Definition set_watch (w : Rank0Watch) (entries : gmap K Rank0Entry) (silent : gmap Nd N)
    (order : list (K * N)) : Rank0Watch :=
  mkWatch (rw_capacity w) (rw_ttl w) (rw_hang_after w) entries silent order.

Definition rank0_silent (w : Rank0Watch) (rank0 : Nd) (now : N) : bool :=
  match rw_silent w !! rank0 with Some at_ => now - at_ <=? rw_ttl w | None => false end.

(** The entry of [key] for this rank 0, unless it expired. *)
Definition watch_entry (w : Rank0Watch) (key : K) (rank0 : Nd) (now : N) : option Rank0Entry :=
  match rw_entries w !! key with
  | Some e => if bool_decide (re_node e = rank0) && (now - re_last e <=? rw_ttl w) then Some e else None
  | None => None
  end.

Definition watch_state (w : Rank0Watch) (key : K) (rank0 : Nd) (now : N) : Rank0State :=
  let silent := rank0_silent w rank0 now in
  match watch_entry w key rank0 now with
  | Some e =>
      if re_failed e then
        if now <? re_until e then Rank0State_Failed
        else if silent then Rank0State_Overdue else Rank0State_Unknown
      else if (now <? re_until e) && negb silent then Rank0State_Fetching
      else Rank0State_Overdue
  | None => if silent then Rank0State_Overdue else Rank0State_Unknown
  end.

(** [entries.get(k).is_some_and(|e| e.last == at)]. *)
Definition stamp_matches (entries : gmap K Rank0Entry) (ka : K * N) : bool :=
  match entries !! ka.1 with Some e => re_last e =? ka.2 | None => false end.

(** The eviction loop of [insert]. *)
Fixpoint evict_pages (capacity : N) (entries : gmap K Rank0Entry) (order : list (K * N))
    : gmap K Rank0Entry * list (K * N) :=
  if N.of_nat (size entries) <? capacity then (entries, order)
  else
    match order with
    | [] => (entries, [])
    | ka :: rest =>
        evict_pages capacity (if stamp_matches entries ka then delete ka.1 entries else entries) rest
    end.

Definition watch_insert (w : Rank0Watch) (key : K) (e : Rank0Entry) : Rank0Watch :=
  let '(entries, order) := evict_pages (rw_capacity w) (delete key (rw_entries w)) (rw_order w) in
  set_watch w (<[key := e]> entries) (rw_silent w) order.

(** Bound the eviction queue: drop stamps that no longer match. *)
Definition compact (w : Rank0Watch) : Rank0Watch :=
  if len (rw_order w) <=? 2 * rw_capacity w then w
  else set_watch w (rw_entries w) (rw_silent w)
         (List.filter (stamp_matches (rw_entries w)) (rw_order w)).

Definition push_stamp (w : Rank0Watch) (key : K) (now : N) : Rank0Watch :=
  compact (set_watch w (rw_entries w) (rw_silent w) (rw_order w ++ [(key, now)])).

(** Remember a rank 0 that stayed silent past a deadline, within capacity. *)
Definition note_silent (w : Rank0Watch) (rank0 : Nd) (now : N) : gmap Nd N :=
  let m := rw_silent w in
  let known m := bool_decide (is_Some ((m : gmap Nd N) !! rank0)) in
  let m := if (rw_capacity w <=? N.of_nat (size m)) && negb (known m)
           then filter (λ na, now - na.2 <= rw_ttl w) m else m in
  if (N.of_nat (size m) <? rw_capacity w) || known m then <[rank0 := now]> m else m.

Definition touch (now : N) (e : Rank0Entry) : Rank0Entry :=
  mkRank0Entry (re_node e) (re_until e) now (re_failed e).

Definition watch_timed_out (w : Rank0Watch) (key : K) (rank0 : Nd) (now deadline : N) : Rank0Watch :=
  let w :=
    match watch_entry w key rank0 now with
    | Some e =>
        if re_failed e
        then watch_insert w key (mkRank0Entry rank0 (N.max deadline (now + rw_hang_after w)) now false)
        else set_watch w (<[key := touch now e]> (rw_entries w))
               (if re_until e <=? now then note_silent w rank0 now else rw_silent w) (rw_order w)
    | None => watch_insert w key (mkRank0Entry rank0 (N.max deadline (now + rw_hang_after w)) now false)
    end in
  push_stamp w key now.

Definition watch_failed (w : Rank0Watch) (key : K) (rank0 : Nd) (now : N) : Rank0Watch :=
  let fresh := watch_insert w key (mkRank0Entry rank0 (now + rw_hang_after w) now true) in
  let w :=
    match watch_entry w key rank0 now with
    | Some e => if re_failed e && (now <? re_until e)
                then set_watch w (<[key := touch now e]> (rw_entries w)) (rw_silent w) (rw_order w)
                else fresh
    | None => fresh
    end in
  push_stamp w key now.

Definition watch_answered (w : Rank0Watch) (key : K) (rank0 : Nd) : Rank0Watch :=
  set_watch w (delete key (rw_entries w)) (delete rank0 (rw_silent w)) (rw_order w).

Definition watch_answered_failure (w : Rank0Watch) (key : K) (rank0 : Nd) : Rank0Watch :=
  set_watch w
    (match rw_entries w !! key with
     | Some e => if re_failed e then rw_entries w else delete key (rw_entries w)
     | None => rw_entries w
     end)
    (delete rank0 (rw_silent w)) (rw_order w).

Inductive WatchOp : Type :=
  | WOp_TimedOut (key : K) (rank0 : Nd) (now deadline : N)
  | WOp_Failed (key : K) (rank0 : Nd) (now : N)
  | WOp_Answered (key : K) (rank0 : Nd)
  | WOp_AnsweredFailure (key : K) (rank0 : Nd).

Definition watch_step (w : Rank0Watch) (op : WatchOp) : Rank0Watch :=
  match op with
  | WOp_TimedOut k r now d => watch_timed_out w k r now d
  | WOp_Failed k r now => watch_failed w k r now
  | WOp_Answered k r => watch_answered w k r
  | WOp_AnsweredFailure k r => watch_answered_failure w k r
  end.

(** ** Invariant *)

(** Every entry has its current stamp in the queue, so eviction always finds one. *)
Definition stamped (entries : gmap K Rank0Entry) (order : list (K * N)) : Prop :=
  ∀ k e, entries !! k = Some e → (k, re_last e) ∈ order.

Record watch_inv (w : Rank0Watch) : Prop := {
  wi_capacity : 0 < rw_capacity w;
  wi_size : N.of_nat (size (rw_entries w)) ≤ rw_capacity w;
  wi_silent : N.of_nat (size (rw_silent w)) ≤ rw_capacity w;
  wi_stamped : stamped (rw_entries w) (rw_order w)
}.

Lemma stamp_matches_true entries ka :
  stamp_matches entries ka = true ↔ ∃ e, entries !! ka.1 = Some e ∧ re_last e = ka.2.
Proof.
  unfold stamp_matches. destruct (entries !! ka.1); [rewrite N.eqb_eq|]; naive_solver.
Qed.

Lemma evict_pages_spec capacity entries order entries' order' :
  0 < capacity → stamped entries order → evict_pages capacity entries order = (entries', order') →
  entries' ⊆ entries ∧ stamped entries' order' ∧ N.of_nat (size entries') < capacity.
Proof.
  intros Hc. revert entries. induction order as [|ka order IH]; intros entries Hst; simpl;
    destruct (N.ltb_spec (N.of_nat (size entries)) capacity) as [Hlt|Hge].
  - intros [= <- <-]. done.
  - intros [= <- <-]. exfalso. assert (size entries ≠ 0%nat) as Hn by lia.
    apply map_size_ne_0_lookup in Hn as (k & e & Hk). apply Hst in Hk. set_solver.
  - intros [= <- <-]. done.
  - intros He. apply IH in He as (H1 & H2 & H3).
    + split_and!; [|done..]. destruct (stamp_matches entries ka); [|done].
      etrans; [exact H1|apply delete_subseteq].
    + destruct (stamp_matches entries ka) eqn:Hm.
      * intros k e [Hne Hk]%lookup_delete_Some. apply Hst in Hk. apply elem_of_cons in Hk as [Hk|Hk]; [|done].
        destruct ka as [k0 a0]. simpl in *. congruence.
      * intros k e Hk. pose proof (Hst _ _ Hk) as Hin. apply elem_of_cons in Hin as [Hin|Hin]; [|done].
        exfalso. rewrite <- Hin in Hm. enough (stamp_matches entries (k, re_last e) = true) by congruence.
        apply stamp_matches_true. eauto.
Qed.

Lemma compact_entries w : rw_entries (compact w) = rw_entries w ∧ rw_silent (compact w) = rw_silent w ∧
  rw_capacity (compact w) = rw_capacity w ∧ rw_ttl (compact w) = rw_ttl w ∧ rw_hang_after (compact w) = rw_hang_after w.
Proof. unfold compact. by destruct (_ <=? _). Qed.

Lemma compact_stamped w : stamped (rw_entries w) (rw_order w) → stamped (rw_entries w) (rw_order (compact w)).
Proof.
  intros Hst. unfold compact. destruct (_ <=? _); [done|]. simpl. intros k e Hk.
  apply list_elem_of_In, filter_In. split; [by apply list_elem_of_In, Hst|]. apply stamp_matches_true. eauto.
Qed.

(** Pushing the stamp of the one entry that lacks it restores the invariant. *)
Lemma push_stamp_inv w key now :
  0 < rw_capacity w → N.of_nat (size (rw_entries w)) ≤ rw_capacity w →
  N.of_nat (size (rw_silent w)) ≤ rw_capacity w →
  (∀ k e, rw_entries w !! k = Some e → k = key ∧ re_last e = now ∨ (k, re_last e) ∈ rw_order w) →
  watch_inv (push_stamp w key now).
Proof.
  intros H1 H2 H3 H4. unfold push_stamp. set (w1 := set_watch _ _ _ _).
  destruct (compact_entries w1) as (E1 & E2 & E3 & _).
  assert (stamped (rw_entries w1) (rw_order w1)) as Hst.
  { intros k e Hk. simpl in *. destruct (H4 _ _ Hk) as [[-> ->]|?]; set_solver. }
  split; rewrite ?E1, ?E2, ?E3; try done. by apply compact_stamped.
Qed.

Lemma note_silent_size w rank0 now :
  0 < rw_capacity w → N.of_nat (size (rw_silent w)) ≤ rw_capacity w →
  N.of_nat (size (note_silent w rank0 now)) ≤ rw_capacity w.
Proof.
  intros Hc Hs. unfold note_silent.
  set (m := if _ && _ then _ else _).
  assert (N.of_nat (size m) ≤ rw_capacity w) as Hm.
  { unfold m. destruct (_ && _); [|done].
    pose proof (map_size_filter (λ na : Nd * N, now - na.2 <= rw_ttl w) (rw_silent w)). lia. }
  clearbody m. destruct (N.ltb_spec (N.of_nat (size m)) (rw_capacity w)) as [Hlt|]; simpl.
  - rewrite map_size_insert. case_match; simpl; lia.
  - case_bool_decide; [|done]. by rewrite map_size_insert_Some.
Qed.

Lemma watch_insert_spec w key e :
  watch_inv w →
  let w' := watch_insert w key e in
  rw_capacity w' = rw_capacity w ∧ rw_ttl w' = rw_ttl w ∧ rw_hang_after w' = rw_hang_after w ∧
  rw_silent w' = rw_silent w ∧
  N.of_nat (size (rw_entries w')) ≤ rw_capacity w ∧ rw_entries w' !! key = Some e ∧
  (∀ k e', k ≠ key → rw_entries w' !! k = Some e' → rw_entries w !! k = Some e' ∧ (k, re_last e') ∈ rw_order w').
Proof.
  intros [H1 H2 H3 H4]. unfold watch_insert.
  destruct (evict_pages _ _ _) as [entries order] eqn:He.
  apply evict_pages_spec in He as (Hsub & Hst & Hlt); [|done|].
  2:{ intros k e' [_ Hk]%lookup_delete_Some. by apply H4. }
  simpl. split_and!; try done.
  - rewrite map_size_insert. case_match; simpl; lia.
  - apply lookup_insert_eq.
  - intros k e' Hne Hk. rewrite lookup_insert_ne in Hk by done. split; [|by apply Hst].
    eapply lookup_weaken in Hk; [|exact Hsub]. by apply lookup_delete_Some in Hk as [_ ?].
Qed.

(** The two ways an operation records a stamped entry. *)
Lemma insert_push_inv w key e now :
  watch_inv w → re_last e = now → watch_inv (push_stamp (watch_insert w key e) key now).
Proof.
  intros Hi Hl. pose proof Hi as [H1 H2 H3 H4].
  destruct (watch_insert_spec w key e Hi) as (E1 & _ & _ & E2 & Hs & Hk & Ho).
  apply push_stamp_inv; rewrite ?E1, ?E2; try done.
  intros k e' He'. destruct (decide (k = key)) as [->|Hne]; [left; by simplify_eq|right; by apply Ho].
Qed.

Lemma touch_push_inv w key e now silent' :
  watch_inv w → rw_entries w !! key = Some e → N.of_nat (size silent') ≤ rw_capacity w →
  watch_inv (push_stamp (set_watch w (<[key := touch now e]> (rw_entries w)) silent' (rw_order w)) key now).
Proof.
  intros [H1 H2 H3 H4] Hk Hs. apply push_stamp_inv; simpl; try done.
  - by rewrite map_size_insert_Some by eauto.
  - intros k e' [[<- <-]|[Hne He']]%lookup_insert_Some; [by left|right; by apply H4].
Qed.

Lemma watch_entry_Some w key rank0 now e :
  watch_entry w key rank0 now = Some e ↔
  rw_entries w !! key = Some e ∧ re_node e = rank0 ∧ now - re_last e ≤ rw_ttl w.
Proof.
  unfold watch_entry. destruct (rw_entries w !! key) as [e0|]; [|naive_solver].
  case_bool_decide; simpl; [|naive_solver]. destruct (N.leb_spec (now - re_last e0) (rw_ttl w)); naive_solver lia.
Qed.

Lemma watch_step_inv w op : watch_inv w → watch_inv (watch_step w op).
Proof.
  intros Hi. pose proof Hi as [H1 H2 H3 H4]. destruct op as [k r now d|k r now|k r|k r]; simpl.
  - unfold watch_timed_out. destruct (watch_entry w k r now) as [e|] eqn:He; [|by apply insert_push_inv].
    apply watch_entry_Some in He as (Hk & _). destruct (re_failed e); [by apply insert_push_inv|].
    apply touch_push_inv; try done. destruct (_ <=? _); [by apply note_silent_size|done].
  - unfold watch_failed. destruct (watch_entry w k r now) as [e|] eqn:He; [|by apply insert_push_inv].
    apply watch_entry_Some in He as (Hk & _). destruct (_ && _); [by apply touch_push_inv|by apply insert_push_inv].
  - split; simpl; try done.
    + rewrite map_size_delete. case_match; simpl; lia.
    + rewrite map_size_delete. case_match; simpl; lia.
    + intros k0 e [_ ?]%lookup_delete_Some. by apply H4.
  - assert (rw_entries (watch_answered_failure w k r) ⊆ rw_entries w) as Hsub.
    { simpl. destruct (rw_entries w !! k) as [e|]; [destruct (re_failed e)|]; try done. apply delete_subseteq. }
    split; [done| | |].
    + simpl. destruct (rw_entries w !! k) as [e|]; [destruct (re_failed e)|]; try done.
      rewrite map_size_delete. case_match; simpl; lia.
    + simpl. rewrite map_size_delete. case_match; simpl; lia.
    + intros k0 e Hk0. apply H4. by eapply lookup_weaken.
Qed.

Lemma watch_run_inv capacity ttl hang ops : watch_inv (foldl watch_step (watch_new capacity ttl hang) ops).
Proof.
  assert (watch_inv (watch_new capacity ttl hang)) as Hi.
  { split; simpl; try done; [lia|rewrite map_size_empty; lia..]. }
  revert Hi. generalize (watch_new capacity ttl hang). induction ops as [|op ops IH]; intros w Hi; simpl; [done|].
  apply IH. by apply watch_step_inv.
Qed.

Lemma push_stamp_params w key now :
  rw_entries (push_stamp w key now) = rw_entries w ∧ rw_silent (push_stamp w key now) = rw_silent w ∧
  rw_capacity (push_stamp w key now) = rw_capacity w ∧ rw_ttl (push_stamp w key now) = rw_ttl w ∧
  rw_hang_after (push_stamp w key now) = rw_hang_after w.
Proof. unfold push_stamp. destruct (compact_entries (set_watch w (rw_entries w) (rw_silent w) (rw_order w ++ [(key, now)]))). done. Qed.

Lemma watch_insert_params w key e :
  rw_entries (watch_insert w key e) !! key = Some e ∧ rw_silent (watch_insert w key e) = rw_silent w ∧
  rw_capacity (watch_insert w key e) = rw_capacity w ∧ rw_ttl (watch_insert w key e) = rw_ttl w ∧
  rw_hang_after (watch_insert w key e) = rw_hang_after w.
Proof. unfold watch_insert. destruct (evict_pages _ _ _). simpl. by rewrite lookup_insert_eq. Qed.

Lemma watch_step_params w op :
  rw_capacity (watch_step w op) = rw_capacity w ∧ rw_ttl (watch_step w op) = rw_ttl w ∧
  rw_hang_after (watch_step w op) = rw_hang_after w.
Proof.
  destruct op as [k r now d|k r now|k r|k r]; simpl; [| |done|done].
  - unfold watch_timed_out. match goal with |- context [push_stamp ?x k now] =>
      destruct (push_stamp_params x k now) as (_ & _ & -> & -> & ->) end.
    destruct (watch_entry w k r now) as [e|]; [destruct (re_failed e)|]; try done; apply watch_insert_params.
  - unfold watch_failed. match goal with |- context [push_stamp ?x k now] =>
      destruct (push_stamp_params x k now) as (_ & _ & -> & -> & ->) end.
    destruct (watch_entry w k r now) as [e|]; [destruct (_ && _)|]; try done; apply watch_insert_params.
Qed.

(** ** Properties *)

(** The watch never holds more pages, or more silent nodes, than its capacity:
    the eviction queue always holds the current stamp of every page. *)
Theorem rank0_watch_bounded capacity ttl hang ops :
  let w := foldl watch_step (watch_new capacity ttl hang) ops in
  N.of_nat (size (rw_entries w)) ≤ N.max capacity 1 ∧ N.of_nat (size (rw_silent w)) ≤ N.max capacity 1 ∧
  ∀ k e, rw_entries w !! k = Some e → (k, re_last e) ∈ rw_order w.
Proof.
  intros w. destruct (watch_run_inv capacity ttl hang ops) as [_ H2 H3 H4]. fold w in H2, H3, H4.
  assert (rw_capacity w = N.max capacity 1) as Hc; [|by rewrite <- Hc].
  unfold w. change (N.max capacity 1) with (rw_capacity (watch_new capacity ttl hang)). clear.
  generalize (watch_new capacity ttl hang). induction ops as [|op ops IH]; intros w; simpl; [done|].
  rewrite IH. apply watch_step_params.
Qed.

(** Timeouts of one page at the given instants, each no later than [ttl] after the last. *)
Fixpoint gaps_ok (ttl prev : N) (ts : list (N * N)) : Prop :=
  match ts with
  | [] => True
  | (now, _) :: rest => now - prev ≤ ttl ∧ gaps_ok ttl now rest
  end.

Fixpoint last_time (prev : N) (ts : list (N * N)) : N :=
  match ts with [] => prev | (now, _) :: rest => last_time now rest end.

Lemma timed_out_live w key rank0 now deadline e :
  watch_entry w key rank0 now = Some e → re_failed e = false →
  rw_entries (watch_timed_out w key rank0 now deadline) !! key = Some (touch now e) ∧
  rw_ttl (watch_timed_out w key rank0 now deadline) = rw_ttl w.
Proof.
  intros He Hf. split; [|apply (watch_step_params w (WOp_TimedOut key rank0 now deadline))].
  unfold watch_timed_out. rewrite He, Hf.
  match goal with |- context [push_stamp ?x key now] => destruct (push_stamp_params x key now) as (-> & _) end.
  simpl. apply lookup_insert_eq.
Qed.

Lemma timed_out_repeated ts : ∀ w key rank0 e,
  rw_entries w !! key = Some e → re_node e = rank0 → re_failed e = false →
  gaps_ok (rw_ttl w) (re_last e) ts →
  let w' := foldl (λ w td, watch_timed_out w key rank0 td.1 td.2) w ts in
  rw_entries w' !! key = Some (touch (last_time (re_last e) ts) e) ∧ rw_ttl w' = rw_ttl w.
Proof.
  induction ts as [|[now d] ts IH]; intros w key rank0 e He Hn Hf Hg; simpl in *.
  - split; [|done]. rewrite He. by destruct e.
  - destruct Hg as [Hg Hgs].
    assert (watch_entry w key rank0 now = Some e) as Hw by by apply watch_entry_Some.
    destruct (timed_out_live w key rank0 now d e Hw Hf) as [Hk Ht].
    specialize (IH (watch_timed_out w key rank0 now d) key rank0 (touch now e) Hk Hn Hf).
    rewrite Ht in IH. by destruct (IH Hgs) as [? ?].
Qed.

(** Repeated timeouts can not postpone [Overdue]: once a probe of an unknown
    page times out, further timeouts, whatever their deadlines, leave the page
    [Overdue] from the first deadline (at least [hang_after] later) on; until then it
    is [Fetching] unless rank 0 is known silent. *)
Theorem repeated_timeouts_cannot_postpone w key rank0 now deadline ts t :
  watch_entry w key rank0 now = None →
  gaps_ok (rw_ttl w) now ts → t - last_time now ts ≤ rw_ttl w →
  let w' := foldl (λ w td, watch_timed_out w key rank0 td.1 td.2) w ((now, deadline) :: ts) in
  let until := N.max deadline (now + rw_hang_after w) in
  (until ≤ t → watch_state w' key rank0 t = Rank0State_Overdue) ∧
  (t < until → watch_state w' key rank0 t =
     if rank0_silent w' rank0 t then Rank0State_Overdue else Rank0State_Fetching).
Proof.
  intros Hn Hg Ht w' until. simpl in w'. set (w1 := watch_timed_out w key rank0 now deadline) in w'.
  assert (rw_entries w1 !! key = Some (mkRank0Entry rank0 until now false) ∧ rw_ttl w1 = rw_ttl w) as [Hk Httl].
  { split; [|apply (watch_step_params w (WOp_TimedOut key rank0 now deadline))].
    unfold w1, watch_timed_out. rewrite Hn.
    match goal with |- context [push_stamp ?x key now] => destruct (push_stamp_params x key now) as (-> & _) end.
    apply watch_insert_params. }
  destruct (timed_out_repeated ts w1 key rank0 _ Hk eq_refl eq_refl) as [Hk' Httl']; [by rewrite Httl|].
  fold w' in Hk', Httl'. simpl in Hk'.
  assert (watch_entry w' key rank0 t = Some (touch (last_time now ts) (mkRank0Entry rank0 until now false))) as Hw.
  { apply watch_entry_Some. simpl. rewrite Httl', Httl. done. }
  unfold watch_state. rewrite Hw. simpl. split; intros Hlt.
  - rewrite (proj2 (N.ltb_ge _ _) Hlt). done.
  - rewrite (proj2 (N.ltb_lt _ _) Hlt). simpl. by destruct (rank0_silent w' rank0 t).
Qed.

(** What a watch without timeouts from [rank0] may hold about it. *)
Definition no_timeouts (rank0 : Nd) (w : Rank0Watch) : Prop :=
  rw_silent w !! rank0 = None ∧
  ∀ k e, rw_entries w !! k = Some e → re_node e = rank0 → re_failed e = true.

Lemma evict_pages_sub capacity entries order : (evict_pages capacity entries order).1 ⊆ entries.
Proof.
  revert entries. induction order as [|ka order IH]; intros entries; simpl; destruct (_ <? _); try done.
  etrans; [apply IH|]. destruct (stamp_matches entries ka); [apply delete_subseteq|done].
Qed.

Lemma no_timeouts_insert rank0 w key e now :
  no_timeouts rank0 w → (re_node e = rank0 → re_failed e = true) →
  no_timeouts rank0 (push_stamp (watch_insert w key e) key now).
Proof.
  intros [Hs He] Hf. destruct (push_stamp_params (watch_insert w key e) key now) as (E1 & E2 & _).
  unfold no_timeouts. rewrite E1, E2. unfold watch_insert.
  pose proof (evict_pages_sub (rw_capacity w) (delete key (rw_entries w)) (rw_order w)) as Hsub.
  destruct (evict_pages _ _ _) as [entries order]. simpl in *. split; [done|].
  intros k e' [[<- <-]|[_ Hk]]%lookup_insert_Some; [done|].
  eapply lookup_weaken in Hk; [|exact Hsub]. apply lookup_delete_Some in Hk as [_ ?]. eauto.
Qed.

Lemma note_silent_other w r now rank0 :
  r ≠ rank0 → rw_silent w !! rank0 = None → note_silent w r now !! rank0 = None.
Proof.
  intros Hne Hs. unfold note_silent. set (m := if _ && _ then _ else _).
  assert (m !! rank0 = None) as Hm.
  { unfold m. destruct (_ && _); [|done]. apply map_lookup_filter_None. by left. }
  destruct (_ || _); [|done]. by rewrite lookup_insert_ne.
Qed.

Lemma no_timeouts_touch rank0 w key e now silent' :
  no_timeouts rank0 w → rw_entries w !! key = Some e → silent' !! rank0 = None →
  no_timeouts rank0 (push_stamp (set_watch w (<[key := touch now e]> (rw_entries w)) silent' (rw_order w)) key now).
Proof.
  intros [Hs He] Hk Hs'. match goal with |- context [push_stamp ?x key now] =>
    destruct (push_stamp_params x key now) as (E1 & E2 & _) end.
  unfold no_timeouts. rewrite E1, E2. simpl. split; [done|].
  intros k e' [[<- <-]|[_ Hk']]%lookup_insert_Some; simpl; eauto.
Qed.

Lemma no_timeouts_step rank0 w op :
  no_timeouts rank0 w → match op with WOp_TimedOut _ r _ _ => r ≠ rank0 | _ => True end →
  no_timeouts rank0 (watch_step w op).
Proof.
  intros Hn Hop. pose proof Hn as [Hs He]. destruct op as [k r now d|k r now|k r|k r]; simpl.
  - unfold watch_timed_out. destruct (watch_entry w k r now) as [e|] eqn:Hw; [|by apply no_timeouts_insert].
    apply watch_entry_Some in Hw as (Hk & Hr & _). destruct (re_failed e); [by apply no_timeouts_insert|].
    apply no_timeouts_touch; [done..|]. destruct (_ <=? _); [by apply note_silent_other|done].
  - unfold watch_failed. destruct (watch_entry w k r now) as [e|] eqn:Hw; [|by apply no_timeouts_insert].
    apply watch_entry_Some in Hw as (Hk & Hr & _).
    destruct (_ && _); [by apply no_timeouts_touch|by apply no_timeouts_insert].
  - split; simpl; [apply lookup_delete_None; by right|]. intros k0 e [_ ?]%lookup_delete_Some. eauto.
  - split; simpl; [apply lookup_delete_None; by right|]. intros k0 e.
    destruct (rw_entries w !! k) as [e0|]; [destruct (re_failed e0)|]; try apply He.
    intros [_ ?]%lookup_delete_Some. eauto.
Qed.

(** Only timeouts of rank 0 withhold origin: however many of this owner's own
    fetches fail and whatever other nodes do, a rank 0 that never timed out is at most
    [Failed], and any answer it signs makes the page [Unknown]. *)
Theorem only_timeouts_withhold_origin capacity ttl hang ops key rank0 now :
  let w := foldl watch_step (watch_new capacity ttl hang) ops in
  (Forall (λ op, match op with WOp_TimedOut _ r _ _ => r ≠ rank0 | _ => True end) ops →
   watch_state w key rank0 now = Rank0State_Unknown ∨ watch_state w key rank0 now = Rank0State_Failed) ∧
  watch_state (watch_answered w key rank0) key rank0 now = Rank0State_Unknown.
Proof.
  intros w. split.
  - intros Hops. assert (no_timeouts rank0 w) as [Hs He].
    { unfold w. assert (no_timeouts rank0 (watch_new capacity ttl hang)) as Hw0 by by split.
      revert Hw0. generalize (watch_new capacity ttl hang). clear w.
      induction Hops as [|op ops Hop _ IH]; intros w Hw; simpl; [done|]. by apply IH, no_timeouts_step. }
    unfold watch_state, rank0_silent. rewrite Hs.
    destruct (watch_entry w key rank0 now) as [e|] eqn:Hw; [|by left].
    apply watch_entry_Some in Hw as (Hk & Hn & _). rewrite (He _ _ Hk Hn). destruct (_ <? _); auto.
  - unfold watch_state, rank0_silent, watch_entry. simpl. by rewrite !lookup_delete_eq.
Qed.
End watch.

Lemma repeated_timeouts_cannot_postpone_witness :
  let w := watch_new 4 WATCH_TTL HANG_AFTER in
  let ts := [(10 * SECOND, 90 * SECOND); (14 * SECOND, 90 * SECOND)] in
  watch_state (foldl (λ w td, watch_timed_out w 1 2 td.1 td.2) w ((0, 5 * SECOND) :: ts)) 1 2 (20 * SECOND)
  = Rank0State_Overdue.
Proof.
  intros w ts.
  apply (repeated_timeouts_cannot_postpone w 1 2 0 (5 * SECOND) ts (20 * SECOND));
    [reflexivity|by vm_compute; split_and!|by vm_compute|by vm_compute].
Defined.
