(* ===== verification/WireCodec.v ===== *)
(** * Bounded byte codecs

    [Reader] and [Writer] of [cmd/racer/wire-codec/src/lib.rs]: fixed-width integers in either byte order, counts and
    length-prefixed fields, each within a bound of its caller.  A reader is the input that is left, a writer the output so far. *)

From S2P Require Import Prelude Bytes.
Local Open Scope racer_scope.
Local Open Scope N_scope.

Inductive WireError := WireError_Truncated | WireError_Limit | WireError_InvalidHex.

Inductive Endian := Endian_Little | Endian_Big.

(** [to_le_bytes], [to_be_bytes] and their inverses. *)
Definition endian_bytes (endian : Endian) (n : nat) (v : N) : list N :=
  match endian with Endian_Little => reverse (be_bytes n v) | Endian_Big => be_bytes n v end.
Definition from_endian_bytes (endian : Endian) (bs : list N) : N :=
  match endian with Endian_Little => from_be_bytes (reverse bs) | Endian_Big => from_be_bytes bs end.

(** ** The reader *)

Record Reader := mkReader { rd_remaining : list N; rd_endian : Endian }.

(** [take]. *)
Definition reader_take (r : Reader) (n : nat) : result (list N) WireError * Reader :=
  if (n <=? length (rd_remaining r))%nat
  then (Ok (take n (rd_remaining r)), mkReader (drop n (rd_remaining r)) (rd_endian r))
  else (Err WireError_Truncated, r).

(** [u32] and [u64]; [array] is [take] of its width. *)
Definition reader_int (r : Reader) (n : nat) : result N WireError * Reader :=
  match reader_take r n with
  | (Ok bs, r) => (Ok (from_endian_bytes (rd_endian r) bs), r)
  | (Err e, r) => (Err e, r)
  end.
Definition reader_u32 (r : Reader) : result N WireError * Reader := reader_int r 4.
Definition reader_u64 (r : Reader) : result N WireError * Reader := reader_int r 8.

(** [count]. *)
Definition reader_count (r : Reader) (maximum minimum_bytes : N) : result N WireError * Reader :=
  match reader_u32 r with
  | (Err e, r) => (Err e, r)
  | (Ok count, r) =>
      if (maximum <? count) || (negb (minimum_bytes =? 0) && (len (rd_remaining r) / minimum_bytes <? count))
      then (Err WireError_Limit, r) else (Ok count, r)
  end.

(** [length_prefixed]. *)
Definition reader_prefixed (r : Reader) (maximum : N) : result (list N) WireError * Reader :=
  match reader_count r maximum 1 with
  | (Err e, r) => (Err e, r)
  | (Ok n, r) => reader_take r (N.to_nat n)
  end.

(** ** The writer *)

Record Writer := mkWriter { wr_bytes : list N; wr_maximum : N; wr_endian : Endian }.

(** [append]: all parts or nothing. *)
Fixpoint parts_length (n : N) (parts : list (list N)) : option N :=
  match parts with
  | [] => Some n
  | part :: parts => checked_add USIZE_MAX n (len part) ≫= λ n, parts_length n parts
  end.

Definition writer_append (w : Writer) (parts : list (list N)) : result () WireError * Writer :=
  match parts_length (len (wr_bytes w)) parts with
  | None => (Err WireError_Limit, w)
  | Some n =>
      if wr_maximum w <? n then (Err WireError_Limit, w)
      else (Ok (), mkWriter (wr_bytes w ++ concat parts) (wr_maximum w) (wr_endian w))
  end.

(** [bytes], [u32], [u64] and [count]. *)
Definition writer_bytes (w : Writer) (value : list N) : result () WireError * Writer := writer_append w [value].
Definition writer_u32 (w : Writer) (value : N) : result () WireError * Writer := writer_bytes w (endian_bytes (wr_endian w) 4 value).
Definition writer_u64 (w : Writer) (value : N) : result () WireError * Writer := writer_bytes w (endian_bytes (wr_endian w) 8 value).
Definition writer_count (w : Writer) (value : N) : result () WireError * Writer :=
  if U32_MAX <? value then (Err WireError_Limit, w) else writer_u32 w value.

(** [Writer::length_prefixed]. *)
Definition writer_prefixed (w : Writer) (value : list N) (maximum : N) : result () WireError * Writer :=
  if maximum <? len value then (Err WireError_Limit, w)
  else if U32_MAX <? len value then (Err WireError_Limit, w)
  else writer_append w [endian_bytes (wr_endian w) 4 (len value); value].

(** ** Fields *)

(** What a codec writes, field by field, and what it asks to read. *)
Inductive WireField :=
| Field_bytes (value : list N)
| Field_u32 (value : N)
| Field_u64 (value : N)
| Field_prefixed (value : list N) (maximum : N).

Definition write_field (w : Writer) (f : WireField) : result () WireError * Writer :=
  match f with
  | Field_bytes value => writer_bytes w value
  | Field_u32 value => writer_u32 w value
  | Field_u64 value => writer_u64 w value
  | Field_prefixed value maximum => writer_prefixed w value maximum
  end.

(** Reading a field of the same shape. *)
Definition read_field (r : Reader) (f : WireField) : result WireField WireError * Reader :=
  match f with
  | Field_bytes value => match reader_take r (length value) with (Ok v, r) => (Ok (Field_bytes v), r) | (Err e, r) => (Err e, r) end
  | Field_u32 _ => match reader_u32 r with (Ok v, r) => (Ok (Field_u32 v), r) | (Err e, r) => (Err e, r) end
  | Field_u64 _ => match reader_u64 r with (Ok v, r) => (Ok (Field_u64 v), r) | (Err e, r) => (Err e, r) end
  | Field_prefixed _ maximum =>
      match reader_prefixed r maximum with (Ok v, r) => (Ok (Field_prefixed v maximum), r) | (Err e, r) => (Err e, r) end
  end.

Fixpoint write_fields (w : Writer) (fs : list WireField) : result () WireError * Writer :=
  match fs with
  | [] => (Ok (), w)
  | f :: fs => match write_field w f with (Ok _, w) => write_fields w fs | (Err e, w) => (Err e, w) end
  end.

Fixpoint read_fields (r : Reader) (fs : list WireField) : result (list WireField) WireError * Reader :=
  match fs with
  | [] => (Ok [], r)
  | f :: fs =>
      match read_field r f with
      | (Ok v, r) => match read_fields r fs with (Ok vs, r) => (Ok (v :: vs), r) | (Err e, r) => (Err e, r) end
      | (Err e, r) => (Err e, r)
      end
  end.

(** ** Proofs *)

Lemma endian_bytes_length endian n v : length (endian_bytes endian n v) = n.
Proof. destruct endian; simpl; rewrite ?length_reverse; apply be_bytes_length. Qed.

Lemma from_endian_round endian n v : v < 256 ^ N.of_nat n → from_endian_bytes endian (endian_bytes endian n v) = v.
Proof. intros Hv. destruct endian; simpl; rewrite ?reverse_involutive; by apply from_be_to_be. Qed.

Lemma reader_take_app bs rest endian : reader_take (mkReader (bs ++ rest) endian) (length bs) = (Ok bs, mkReader rest endian).
Proof.
  unfold reader_take. simpl. rewrite (proj2 (Nat.leb_le _ _)) by (rewrite length_app; lia).
  by rewrite take_app_length, drop_app_length.
Qed.

Lemma reader_int_app endian n v rest : v < 256 ^ N.of_nat n →
  reader_int (mkReader (endian_bytes endian n v ++ rest) endian) n = (Ok v, mkReader rest endian).
Proof.
  intros Hv. unfold reader_int. rewrite <- (endian_bytes_length endian n v) at 2. rewrite reader_take_app. simpl. by rewrite from_endian_round.
Qed.

(** A count is accepted when the items that follow can be there. *)
Lemma reader_count_app endian n maximum minimum rest : n <= maximum → n <= U32_MAX → n * minimum <= len rest →
  reader_count (mkReader (endian_bytes endian 4 n ++ rest) endian) maximum minimum = (Ok n, mkReader rest endian).
Proof.
  intros Hmax Hu Hrest. unfold reader_count, reader_u32. rewrite reader_int_app by (unfold U32_MAX in Hu; change (256 ^ N.of_nat 4) with 4294967296; lia).
  simpl. rewrite (proj2 (N.ltb_ge _ _) Hmax). cbn [orb]. destruct (N.eqb_spec minimum 0); [done|]. cbn [negb andb].
  rewrite (proj2 (N.ltb_ge _ _)); [done|]. apply N.div_le_lower_bound; lia.
Qed.

Lemma reader_prefixed_app endian value maximum rest : len value <= maximum → len value <= U32_MAX →
  reader_prefixed (mkReader (endian_bytes endian 4 (len value) ++ value ++ rest) endian) maximum = (Ok value, mkReader rest endian).
Proof.
  intros Hmax Hu. unfold reader_prefixed. rewrite reader_count_app by (rewrite ?len_app; lia). unfold len. rewrite Nat2N.id. apply reader_take_app.
Qed.

Lemma parts_length_spec n parts : parts_length n parts = if n + len (concat parts) <=? USIZE_MAX then Some (n + len (concat parts)) else
  if bool_decide (parts = []) then Some n else None.
Proof.
  revert n. induction parts as [|part parts IH]; intros n; simpl.
  { change (len (@nil N)) with 0. rewrite N.add_0_r. by destruct (_ <=? _). }
  rewrite len_app. unfold checked_add. destruct (N.leb_spec (n + len part) USIZE_MAX) as [H|H]; simpl.
  - rewrite IH, N.add_assoc. destruct (N.leb_spec (n + len part + len (concat parts)) USIZE_MAX) as [|H2]; [done|].
    case_bool_decide as E; [|done]. subst parts. change (len (concat (@nil (list N)))) with 0 in H2. lia.
  - rewrite (proj2 (N.leb_gt _ _)) by lia. done.
Qed.

(** An append writes all its parts within the bound, or nothing. *)
Lemma writer_append_spec w parts r w' : writer_append w parts = (r, w') →
  w' = mkWriter (wr_bytes w ++ concat parts) (wr_maximum w) (wr_endian w) ∧ r = Ok () ∧ len (wr_bytes w') <= wr_maximum w ∨
  w' = w ∧ r = Err WireError_Limit.
Proof.
  unfold writer_append. rewrite parts_length_spec. destruct (N.leb_spec (len (wr_bytes w) + len (concat parts)) USIZE_MAX).
  - destruct (N.ltb_spec (wr_maximum w) (len (wr_bytes w) + len (concat parts))); intros [= <- <-]; [by right|]. left. simpl. rewrite len_app. done.
  - case_bool_decide as E; [|intros [= <- <-]; by right]. subst parts. simpl. change (len (concat (@nil (list N)))) with 0 in *. rewrite app_nil_r.
    destruct (N.ltb_spec (wr_maximum w) (len (wr_bytes w))); intros [= <- <-]; [by right|by left].
Qed.

(** The bytes of a field. *)
Definition field_bytes (endian : Endian) (f : WireField) : list N :=
  match f with
  | Field_bytes value => value
  | Field_u32 value => endian_bytes endian 4 value
  | Field_u64 value => endian_bytes endian 8 value
  | Field_prefixed value _ => endian_bytes endian 4 (len value) ++ value
  end.

(** The values that the integer fields can hold. *)
Definition field_ok (f : WireField) : Prop :=
  match f with Field_u32 v => v <= U32_MAX | Field_u64 v => v <= U64_MAX | _ => True end.

Lemma write_field_spec w f r w' : write_field w f = (r, w') →
  w' = mkWriter (wr_bytes w ++ field_bytes (wr_endian w) f) (wr_maximum w) (wr_endian w) ∧ r = Ok () ∧ len (wr_bytes w') <= wr_maximum w ∧
    (∀ value maximum, f = Field_prefixed value maximum → len value <= maximum ∧ len value <= U32_MAX) ∨
  w' = w ∧ r = Err WireError_Limit.
Proof.
  destruct f as [value|value|value|value maximum]; simpl.
  1-3: intros [(-> & -> & ?)|[-> ->]]%writer_append_spec; [left; simpl in *; rewrite !app_nil_r in *; by split_and!|by right].
  unfold writer_prefixed. destruct (N.ltb_spec maximum (len value)); [intros [= <- <-]; by right|].
  destruct (N.ltb_spec U32_MAX (len value)); [intros [= <- <-]; by right|].
  intros [(-> & -> & ?)|[-> ->]]%writer_append_spec; [left; simpl in *; rewrite !app_nil_r in *|by right].
  split_and!; [done|done|done|]. by intros ?? [= <- <-].
Qed.

Lemma read_field_app endian f rest : field_ok f →
  (∀ value maximum, f = Field_prefixed value maximum → len value <= maximum ∧ len value <= U32_MAX) →
  read_field (mkReader (field_bytes endian f ++ rest) endian) f = (Ok f, mkReader rest endian).
Proof.
  intros Hok Hp. destruct f as [value|value|value|value maximum]; simpl in *.
  - by rewrite reader_take_app.
  - unfold reader_u32. rewrite reader_int_app; [done|]. unfold U32_MAX in Hok. change (256 ^ N.of_nat 4) with 4294967296. lia.
  - unfold reader_u64. rewrite reader_int_app; [done|]. unfold U64_MAX in Hok. change (256 ^ N.of_nat 8) with 18446744073709551616. lia.
  - destruct (Hp value maximum eq_refl). rewrite <- (assoc_L (++)). by rewrite reader_prefixed_app.
Qed.

(** Fields that a writer accepted stay within its bound and are read back as they were written, in either byte order, and a
    field it refuses leaves the output as it was. *)
Theorem wire_fields_round_trip (w : Writer) (fs : list WireField) (rest : list N) : Forall field_ok fs → len (wr_bytes w) <= wr_maximum w →
  ∃ done written, done `prefix_of` fs ∧ (write_fields w fs).2 = mkWriter (wr_bytes w ++ written) (wr_maximum w) (wr_endian w) ∧
    len (wr_bytes w ++ written) <= wr_maximum w ∧
    read_fields (mkReader (written ++ rest) (wr_endian w)) done = (Ok done, mkReader rest (wr_endian w)) ∧
    ((write_fields w fs).1 = Ok () ∧ done = fs ∨ (write_fields w fs).1 = Err WireError_Limit).
Proof.
  revert w. induction fs as [|f fs IH]; intros w Hok Hb; simpl.
  { exists [], []. rewrite !app_nil_r. destruct w. by split_and!; [exists []|..|left]. }
  apply Forall_cons in Hok as [Hf Hok]. destruct (write_field w f) as [r w1] eqn:Hw. apply write_field_spec in Hw as [(-> & -> & Hb1 & Hp)|[-> ->]].
  - destruct (IH _ Hok Hb1) as (done & written & [tl ->] & Hw2 & Hb2 & Hr & Hres). simpl in *.
    exists (f :: done), (field_bytes (wr_endian w) f ++ written). split_and!.
    + by exists tl.
    + rewrite Hw2. simpl. by rewrite <- (assoc_L (++)).
    + by rewrite (assoc_L (++)).
    + rewrite <- (assoc_L (++)). cbn [read_fields]. rewrite read_field_app by done. by rewrite Hr.
    + destruct Hres as [[? Hd]|?]; [left|by right]. split; [done|]. by rewrite <- Hd.
  - exists [], []. rewrite !app_nil_r. destruct w. split_and!; [by exists (f :: fs)|done|done|done|by right].
Qed.

Lemma wire_fields_round_trip_witness :
  ∃ done written, done `prefix_of` [Field_u32 7; Field_prefixed [1; 2] 8; Field_u64 9] ∧
    len written <= 18 ∧ read_fields (mkReader (written ++ [5]) Endian_Little) done = (Ok done, mkReader [5] Endian_Little).
Proof.
  destruct (wire_fields_round_trip (mkWriter [] 18 Endian_Little) [Field_u32 7; Field_prefixed [1; 2] 8; Field_u64 9] [5])
    as (done & written & H1 & _ & H3 & H4 & _); [repeat constructor; by vm_compute|by vm_compute|]. exists done, written. split_and!; [exact H1|exact H3|exact H4].
Defined.
