(* ===== verification/Segments.v ===== *)
(** * Segment allocation

    The allocation table of a worker's slab and its eviction clock, from
    [cmd/racer/alloc/src/segments.rs] and the geometry of [cmd/racer/alloc/src/lib.rs].  A slab
    is divided into segments of equal size; records are appended to one open segment, and a
    segment is reused only as a whole, under a new generation.  The lease counter that a slot
    shares with its leases is a field of the slot: the slots of a table are created once, so a
    counter is named by its slot's position.  Dropping a lease and a freeze guard are
    operations.  A slice index out of range and an arithmetic underflow are panics, [None]. *)

From S2P Require Import Prelude.
Local Open Scope racer_scope.
Local Open Scope N_scope.

(** ** Geometry *)

Inductive SegError :=
| SegError_Unsupported
| SegError_InvalidConfiguration
| SegError_Busy
| SegError_Corrupt
| SegError_Stale
| SegError_Unavailable
| SegError_Io
| SegError_SystemIo (operation : list N) (errno : option Z).

#[export] Instance SegError_eq_dec : EqDecision SegError.
Proof. solve_decision. Defined.

Definition MAX_SEGMENTS : N := 1000000.
Definition MAX_TRANSFER_LENGTH : N := 2 ^ 30.
Definition ISIZE_MAX : N := 2 ^ 63 - 1.

Record Alignment := mkAlignment { al_memory : N; al_offset : N; al_length : N }.

Record Extent := mkExtent { ex_offset : N; ex_length : N }.

Record SegmentGeometry := mkGeometry { ge_slab_bytes : N; ge_segment_bytes : N; ge_segment_count : N; ge_alignment : Alignment }.

#[export] Instance Alignment_eq_dec : EqDecision Alignment.
Proof. solve_decision. Defined.
#[export] Instance Extent_eq_dec : EqDecision Extent.
Proof. solve_decision. Defined.
#[export] Instance SegmentGeometry_eq_dec : EqDecision SegmentGeometry.
Proof. solve_decision. Defined.

Definition is_power_of_two (n : N) : bool := negb (n =? 0) && (N.land n (n - 1) =? 0).
Definition is_multiple_of (n unit : N) : bool := if unit =? 0 then n =? 0 else n mod unit =? 0.

(** [Extent::new]. *)
Definition extent_new (offset length : N) : result Extent SegError :=
  if (length =? 0) || (MAX_TRANSFER_LENGTH <? length) || negb (is_some (checked_add U64_MAX offset length))
  then Err SegError_Corrupt else Ok (mkExtent offset length).

(** [Alignment::new]. *)
Definition alignment_new (memory offset length : N) : result Alignment SegError :=
  if negb (is_power_of_two memory) || (offset =? 0) || (length =? 0) || (ISIZE_MAX <? memory)
  then Err SegError_Unsupported else Ok (mkAlignment memory offset length).

(** The loop [while b != 0 { (a, b) = (b, a % b) }]. *)
Fixpoint euclid (fuel : nat) (a b : N) : N :=
  match fuel with
  | O => a
  | S fuel => if b =? 0 then a else euclid fuel b (a mod b)
  end.

Definition euclid_fuel (b : N) : nat := 2 * N.size_nat b + 1.

(** [Alignment::extent]. *)
Definition alignment_extent (al : Alignment) (offset logical : N) : result Extent SegError :=
  if negb (is_multiple_of offset (al_offset al)) || (logical =? 0) || (MAX_TRANSFER_LENGTH <? logical)
  then Err SegError_InvalidConfiguration
  else
    let a := euclid (euclid_fuel (al_length al)) (al_offset al) (al_length al) in
    match checked_mul USIZE_MAX (al_offset al / a) (al_length al) with
    | None => Err SegError_InvalidConfiguration
    | Some unit =>
        match checked_add USIZE_MAX logical (unit - 1) ≫= λ v, checked_mul USIZE_MAX (v / unit) unit with
        | None => Err SegError_InvalidConfiguration
        | Some length =>
            if MAX_TRANSFER_LENGTH <? length then Err SegError_InvalidConfiguration else extent_new offset length
        end
    end.

(** [SegmentGeometry::new]. *)
Definition geometry_new (slab_bytes segment_bytes segment_count : N) (al : Alignment) : result SegmentGeometry SegError :=
  if (segment_bytes =? 0) || (slab_bytes =? 0) || (segment_count =? 0) || negb (is_multiple_of slab_bytes segment_bytes) ||
     (slab_bytes / segment_bytes <? segment_count) || negb (is_multiple_of segment_bytes (al_offset al)) ||
     negb (is_multiple_of segment_bytes (al_length al)) || negb (is_some (checked_mul U64_MAX segment_count segment_bytes))
  then Err SegError_Corrupt else Ok (mkGeometry slab_bytes segment_bytes segment_count al).

(** ** The table *)

Inductive SegmentState := SegmentState_Free | SegmentState_Open | SegmentState_Sealed | SegmentState_Evicting.

#[export] Instance SegmentState_eq_dec : EqDecision SegmentState.
Proof. solve_decision. Defined.

(** A retention deadline is a [SystemTime]: nanoseconds since the Unix epoch, negative before it. *)
Record SegmentSnapshot := mkSnapshot {
  ss_id : N;
  ss_generation : N;
  ss_state : SegmentState;
  ss_used : N;
  ss_retained : list (N * Z)
}.

(** [SegmentLease]: the table is named by its identity. *)
Record SegmentLease := mkLease {
  le_id : N;
  le_generation : N;
  le_table : N;
  le_geometry : SegmentGeometry;
  le_start : N;
  le_end : N
}.

Record Slot := mkSlot { sl_image : SegmentSnapshot; sl_group : nat; sl_leases : N }.

(** [free] is a [BTreeSet] of positions. *)
Record Segments := mkSegments {
  sg_bytes : N;
  sg_geometry : option SegmentGeometry;
  sg_slots : list Slot;
  sg_frozen : bool;
  sg_table : N;
  sg_epoch : N;
  sg_open : option N;
  sg_free : gmap N ();
  sg_evicting : N;
  sg_usage : list (N * N)
}.

Implicit Types (t : Segments) (sl : Slot).

Definition with_image sl (im : SegmentSnapshot) : Slot := mkSlot im (sl_group sl) (sl_leases sl).
Definition image_state (im : SegmentSnapshot) (st : SegmentState) : SegmentSnapshot :=
  mkSnapshot (ss_id im) (ss_generation im) st (ss_used im) (ss_retained im).
Definition slot_at t (position : N) : option Slot := sg_slots t !! N.to_nat position.
Definition put_slot t (position : N) sl : list Slot := <[N.to_nat position := sl]> (sg_slots t).

(** [Segments::new], with the identity of the table. *)
Definition segments_new (table segment_bytes : N) : Segments := mkSegments segment_bytes None [] false table 0 None ∅ 0 [].

(** [capacity_bytes]. *)
Definition capacity_bytes t : N := match sg_geometry t with Some g => ge_slab_bytes g | None => 0 end.

(** [configure_usage_groups]: the groups in turn take [count] slots each. *)
Fixpoint usage_groups (bytes : N) (group : nat) (slots : list Slot) (counts : list nat) : list Slot * list (N * N) :=
  match counts with
  | [] => (slots, [])
  | count :: counts =>
      let here := (λ sl, mkSlot (sl_image sl) group (sl_leases sl)) <$> take count slots in
      let used := foldr (λ sl n, ss_used (sl_image sl) + n) 0 here in
      let '(rest, usage) := usage_groups bytes (S group) (drop count slots) counts in
      (here ++ rest, (N.of_nat count * bytes, used) :: usage)
  end.

Definition configure_usage_groups t (counts : list nat) : result () SegError * Segments :=
  if negb (is_some (sg_geometry t)) || bool_decide (counts = []) || existsb (Nat.eqb 0) counts ||
     negb (sum_list counts =? length (sg_slots t))%nat
  then (Err SegError_InvalidConfiguration, t)
  else
    let '(slots, usage) := usage_groups (sg_bytes t) 0 (sg_slots t) counts in
    (Ok (), mkSegments (sg_bytes t) (sg_geometry t) slots (sg_frozen t) (sg_table t) (sg_epoch t) (sg_open t) (sg_free t)
              (sg_evicting t) usage).

Definition free_image (id : N) : SegmentSnapshot := mkSnapshot id 1 SegmentState_Free 0 [].

(** [configure_table]. *)
Definition configure_table t (capacity count : N) (al : Alignment) : result () SegError * Segments :=
  if sg_frozen t then (Err SegError_Busy, t)
  else if is_some (sg_geometry t) || (MAX_SEGMENTS <? count) then (Err SegError_InvalidConfiguration, t)
  else
    match geometry_new capacity (sg_bytes t) count al with
    | Err _ => (Err SegError_InvalidConfiguration, t)
    | Ok g =>
        let ids := N.of_nat <$> seq 0 (N.to_nat count) in
        (Ok (), mkSegments (sg_bytes t) (Some g) ((λ id, mkSlot (free_image id) 0 0) <$> ids) (sg_frozen t) (sg_table t)
                  (sg_epoch t) (sg_open t) (list_to_map ((λ id, (id, ())) <$> ids)) (sg_evicting t) [(count * sg_bytes t, 0)])
    end.

(** [from_geometry]. *)
Definition from_geometry (table : N) (g : SegmentGeometry) : result Segments SegError :=
  match configure_table (segments_new table (ge_segment_bytes g)) (ge_slab_bytes g) (ge_segment_count g) (ge_alignment g) with
  | (Ok _, t) => Ok t
  | (Err e, _) => Err e
  end.

(** [take_lease] of the slot [sl]; the counter is returned. *)
Definition take_lease t sl (used : N) : result (SegmentLease * N) SegError :=
  match checked_mul U64_MAX (ss_id (sl_image sl)) (sg_bytes t) with
  | None => Err SegError_Corrupt
  | Some start =>
      match checked_add U64_MAX start used, sg_geometry t with
      | None, _ => Err SegError_Corrupt
      | Some _, None => Err SegError_Unavailable
      | Some stop, Some g =>
          match checked_add USIZE_MAX (sl_leases sl) 1 with
          | None => Err SegError_Busy
          | Some n => Ok (mkLease (ss_id (sl_image sl)) (ss_generation (sl_image sl)) (sg_table t) g start stop, n)
          end
      end
  end.

(** [usage[group].1 += n]; [None] is a panic. *)
Definition add_usage (usage : list (N * N)) (group : nat) (n : N) : option (list (N * N)) :=
  match usage !! group with Some (cap, used) => Some (<[group := (cap, used + n)]> usage) | None => None end.
Definition sub_usage (usage : list (N * N)) (group : nat) (n : N) : option (list (N * N)) :=
  match usage !! group with
  | Some (cap, used) => if used <? n then None else Some (<[group := (cap, used - n)]> usage)
  | None => None
  end.

(** The previous open segment is sealed. *)
Definition seal_open (slots : list Slot) (open : option N) : option (list Slot) :=
  match open with
  | None => Some slots
  | Some p =>
      match slots !! N.to_nat p with
      | Some sl => Some (<[N.to_nat p := with_image sl (image_state (sl_image sl) SegmentState_Sealed)]> slots)
      | None => None
      end
  end.

Definition first_free t : option N := fst <$> head (btree_iter ord_le (sg_free t)).

(** The open segment, when [length] bytes remain in it. *)
Definition usable_open t (length : N) : option (option N) :=
  match sg_open t with
  | None => Some None
  | Some p =>
      match slot_at t p with
      | Some sl =>
          if sg_bytes t <? ss_used (sl_image sl) then None
          else Some (if length <=? sg_bytes t - ss_used (sl_image sl) then Some p else None)
      | None => None
      end
  end.

(** [append] at [position]. *)
Definition append_at t (al : Alignment) (length position : N) (fresh : bool) :
    option (result (SegmentLease * Extent) SegError * Segments) :=
  match slot_at t position with
  | None => None
  | Some sl =>
      let im := sl_image sl in
      match checked_mul U64_MAX (ss_id im) (sg_bytes t) ≫= λ v, checked_add U64_MAX v (ss_used im) with
      | None => Some (Err SegError_InvalidConfiguration, t)
      | Some offset =>
          match alignment_extent al offset length with
          | Err e => Some (Err e, t)
          | Ok extent =>
              match checked_add U64_MAX (ss_used im) length with
              | None => Some (Err SegError_InvalidConfiguration, t)
              | Some used =>
                  match take_lease t sl used with
                  | Err e => Some (Err e, t)
                  | Ok (lease, leases) =>
                      let slots := <[N.to_nat position := mkSlot im (sl_group sl) leases]> (sg_slots t) in
                      match (if fresh then seal_open slots (sg_open t) else Some slots) with
                      | None => None
                      | Some slots =>
                          let free := if fresh then delete position (sg_free t) else sg_free t in
                          let full := used =? sg_bytes t in
                          match slots !! N.to_nat position, add_usage (sg_usage t) (sl_group sl) length with
                          | Some sl, Some usage =>
                              let im := mkSnapshot (ss_id im) (ss_generation im) (if full then SegmentState_Sealed else SegmentState_Open)
                                          used (ss_retained im) in
                              Some (Ok (lease, extent),
                                    mkSegments (sg_bytes t) (sg_geometry t) (<[N.to_nat position := with_image sl im]> slots) (sg_frozen t)
                                      (sg_table t) (sg_epoch t) (if full then None else Some position) free (sg_evicting t) usage)
                          | _, _ => None
                          end
                      end
                  end
              end
          end
      end
  end.

(** [append]. *)
Definition append t (length : N) : option (result (SegmentLease * Extent) SegError * Segments) :=
  if sg_frozen t then Some (Err SegError_Busy, t)
  else
    match sg_geometry t with
    | None => Some (Err SegError_Unavailable, t)
    | Some g =>
        let al := ge_alignment g in
        if (length =? 0) || (sg_bytes t <? length) then Some (Err SegError_InvalidConfiguration, t)
        else
          match alignment_extent al 0 length with
          | Err e => Some (Err e, t)
          | Ok e =>
              if negb (ex_length e =? length) then Some (Err SegError_InvalidConfiguration, t)
              else
                match usable_open t length with
                | None => None
                | Some (Some position) => append_at t al length position false
                | Some None =>
                    match first_free t with
                    | Some position => append_at t al length position true
                    | None =>
                        match seal_open (sg_slots t) (sg_open t) with
                        | Some slots =>
                            Some (Err SegError_Busy,
                                  mkSegments (sg_bytes t) (sg_geometry t) slots (sg_frozen t) (sg_table t) (sg_epoch t) None
                                    (sg_free t) (sg_evicting t) (sg_usage t))
                        | None => None
                        end
                    end
                end
          end
    end.

Definition readable (st : SegmentState) : bool :=
  match st with SegmentState_Open | SegmentState_Sealed => true | _ => false end.

(** [lease]. *)
Definition segment_lease t (id generation : N) : result SegmentLease SegError * Segments :=
  match slot_at t id with
  | None => (Err SegError_Corrupt, t)
  | Some sl =>
      if negb (ss_generation (sl_image sl) =? generation) || negb (readable (ss_state (sl_image sl))) then (Err SegError_Stale, t)
      else
        match take_lease t sl (ss_used (sl_image sl)) with
        | Err e => (Err e, t)
        | Ok (lease, n) =>
            (Ok lease, mkSegments (sg_bytes t) (sg_geometry t) (put_slot t id (mkSlot (sl_image sl) (sl_group sl) n)) (sg_frozen t)
                         (sg_table t) (sg_epoch t) (sg_open t) (sg_free t) (sg_evicting t) (sg_usage t))
        end
  end.

(** [SegmentLease::drop]. *)
Definition drop_lease t (lease : SegmentLease) : option Segments :=
  match slot_at t (le_id lease) with
  | None => None
  | Some sl =>
      if sl_leases sl =? 0 then None
      else Some (mkSegments (sg_bytes t) (sg_geometry t) (put_slot t (le_id lease) (mkSlot (sl_image sl) (sl_group sl) (sl_leases sl - 1)))
                   (sg_frozen t) (sg_table t) (sg_epoch t) (sg_open t) (sg_free t) (sg_evicting t) (sg_usage t))
  end.

(** [begin_eviction]. *)
Definition begin_eviction t (id : N) : result () SegError * Segments :=
  if sg_frozen t then (Err SegError_Busy, t)
  else
    match slot_at t id with
    | None => (Err SegError_Corrupt, t)
    | Some sl =>
        match ss_state (sl_image sl) with
        | SegmentState_Evicting => (Ok (), t)
        | SegmentState_Sealed =>
            (Ok (), mkSegments (sg_bytes t) (sg_geometry t) (put_slot t id (with_image sl (image_state (sl_image sl) SegmentState_Evicting)))
                      (sg_frozen t) (sg_table t) (sg_epoch t) (sg_open t) (sg_free t) (sg_evicting t + 1) (sg_usage t))
        | _ => (Err SegError_Busy, t)
        end
    end.

(** [recycle_evicted]. *)
Definition recycle_evicted t (id : N) : option (result () SegError * Segments) :=
  if sg_frozen t then Some (Err SegError_Busy, t)
  else
    match slot_at t id with
    | None => Some (Err SegError_Corrupt, t)
    | Some sl =>
        let im := sl_image sl in
        if negb (bool_decide (ss_state im = SegmentState_Evicting)) || negb (sl_leases sl =? 0) then Some (Err SegError_Busy, t)
        else
          match checked_add U64_MAX (ss_generation im) 1 with
          | None => Some (Err SegError_Unavailable, t)
          | Some generation =>
              if sg_evicting t =? 0 then None
              else
                match sub_usage (sg_usage t) (sl_group sl) (ss_used im) with
                | None => None
                | Some usage =>
                    Some (Ok (), mkSegments (sg_bytes t) (sg_geometry t)
                      (put_slot t id (with_image sl (mkSnapshot (ss_id im) generation SegmentState_Free 0 (ss_retained im)))) (sg_frozen t)
                      (sg_table t) (sg_epoch t) (sg_open t) (<[id := ()]> (sg_free t)) (sg_evicting t - 1) usage)
                end
          end
    end.

(** [snapshot]. *)
Definition segments_snapshot t : list SegmentSnapshot := sl_image <$> sg_slots t.

Definition with_frozen t (b : bool) : Segments :=
  mkSegments (sg_bytes t) (sg_geometry t) (sg_slots t) b (sg_table t) (sg_epoch t) (sg_open t) (sg_free t) (sg_evicting t) (sg_usage t).

(** [freeze], and the drop of its guard. *)
Definition freeze t : result () SegError * Segments := (if sg_frozen t then Err SegError_Busy else Ok (), with_frozen t true).
Definition thaw t : Segments := with_frozen t false.

(** The checks of one image in [validate_restore_epoch], and of the open flag across them. *)
Definition image_corrupt (bytes : N) (al : Alignment) (i : N) (im : SegmentSnapshot) : bool :=
  negb (ss_id im =? i) || (ss_generation im =? 0) || (bytes <? ss_used im) ||
  negb (is_multiple_of (ss_used im) (al_offset al)) || negb (is_multiple_of (ss_used im) (al_length al)) ||
  (bool_decide (ss_state im = SegmentState_Free) && negb (ss_used im =? 0)) ||
  (negb (bool_decide (ss_state im = SegmentState_Free)) && (ss_used im =? 0)).

Fixpoint validate_images (bytes : N) (al : Alignment) (i : N) (open : bool) (images : list SegmentSnapshot) : result () SegError :=
  match images with
  | [] => Ok ()
  | im :: images =>
      if image_corrupt bytes al i im then Err SegError_Corrupt
      else if bool_decide (ss_state im = SegmentState_Open) then
        if open || (ss_used im =? bytes) then Err SegError_Corrupt else validate_images bytes al (i + 1) true images
      else validate_images bytes al (i + 1) open images
  end.

(** [restored_generation]. *)
Definition restored_generation (im live : SegmentSnapshot) : result N SegError :=
  if bool_decide (ss_state im = SegmentState_Free) && (ss_generation im =? ss_generation live) &&
     negb (bool_decide (ss_state live = SegmentState_Free))
  then
    match checked_add U64_MAX (ss_generation live) 1 with
    | Some g => Ok g
    | None => Err SegError_Unavailable
    end
  else Ok (ss_generation im).

Fixpoint restored_generations (pairs : list (SegmentSnapshot * Slot)) : result () SegError :=
  match pairs with
  | [] => Ok ()
  | (im, l) :: pairs =>
      match restored_generation im (sl_image l) with
      | Ok _ => restored_generations pairs
      | Err e => Err e
      end
  end.

(** [validate_restore_epoch]; [validate_restore] forgets the epoch. *)
Definition validate_restore_epoch t (images : list SegmentSnapshot) : result N SegError :=
  if sg_frozen t then Err SegError_Busy
  else if existsb (λ sl, negb (sl_leases sl =? 0)) (sg_slots t) then Err SegError_Busy
  else if negb (length images =? length (sg_slots t))%nat then Err SegError_Corrupt
  else
    match sg_geometry t with
    | None => Err SegError_Unavailable
    | Some g =>
        let? _ := validate_images (sg_bytes t) (ge_alignment g) 0 false images in
        if existsb (λ '(im, l), ss_generation im <? ss_generation (sl_image l)) (zip images (sg_slots t)) then Err SegError_Stale
        else
          let? _ := restored_generations (zip images (sg_slots t)) in
          match checked_add U64_MAX (sg_epoch t) 1 with
          | Some epoch => Ok epoch
          | None => Err SegError_Unavailable
          end
    end.

(** A restored table has no open tail. *)
Definition sealed_state (st : SegmentState) : SegmentState :=
  match st with SegmentState_Open => SegmentState_Sealed | st => st end.

(** The loop of [restore], over the slots and their images. *)
Fixpoint restore_slots (slots : list Slot) (images : list SegmentSnapshot) (free : gmap N ()) (evicting : N) (usage : list (N * N)) :
    option (result () SegError * list Slot * gmap N () * N * list (N * N)) :=
  match slots, images with
  | sl :: slots, im :: images =>
      match restored_generation im (sl_image sl) with
      | Err e => Some (Err e, sl :: slots, free, evicting, usage)
      | Ok generation =>
          let st := sealed_state (ss_state im) in
          let free := if bool_decide (st = SegmentState_Free) then <[ss_id im := ()]> free else free in
          let evicting := if bool_decide (st = SegmentState_Evicting) then evicting + 1 else evicting in
          match add_usage usage (sl_group sl) (ss_used im) with
          | None => None
          | Some usage =>
              match restore_slots slots images free evicting usage with
              | None => None
              | Some (r, rest, free, evicting, usage) =>
                  Some (r, with_image sl (mkSnapshot (ss_id im) generation st (ss_used im) []) :: rest, free, evicting, usage)
              end
          end
      end
  | _, _ => Some (Ok (), slots, free, evicting, usage)
  end.

(** [restore]. *)
Definition restore t (images : list SegmentSnapshot) : option (result () SegError * Segments) :=
  match validate_restore_epoch t images with
  | Err e => Some (Err e, t)
  | Ok epoch =>
      match restore_slots (sg_slots t) images ∅ 0 ((λ '(cap, _), (cap, 0)) <$> sg_usage t) with
      | None => None
      | Some (r, slots, free, evicting, usage) =>
          Some (r, mkSegments (sg_bytes t) (sg_geometry t) slots (sg_frozen t) (sg_table t)
                     (if is_ok r then epoch else sg_epoch t) None free evicting usage)
      end
  end.

(** [validate]: a stored mapping against the current state. *)
Definition segments_validate t (id generation : N) (extent : Extent) : result () SegError :=
  match slot_at t id with
  | None => Err SegError_Corrupt
  | Some sl =>
      match checked_mul U64_MAX id (sg_bytes t), checked_add U64_MAX (ex_offset extent) (ex_length extent) with
      | Some start, Some stop =>
          if negb (ss_generation (sl_image sl) =? generation) || negb (readable (ss_state (sl_image sl))) then Err SegError_Stale
          else if ex_offset extent <? start then Err SegError_Corrupt
          else
            match checked_add U64_MAX start (ss_used (sl_image sl)) with
            | None => Err SegError_Corrupt
            | Some limit =>
                if limit <? stop then Err SegError_Corrupt
                else
                  match sg_geometry t with
                  | None => Err SegError_Unavailable
                  | Some g =>
                      match alignment_extent (ge_alignment g) (ex_offset extent) (ex_length extent) with
                      | Ok e => if bool_decide (e = extent) then Ok () else Err SegError_Corrupt
                      | Err _ => Err SegError_Corrupt
                      end
                  end
            end
      | _, _ => Err SegError_Corrupt
      end
  end.

(** [SegmentLease::validate_extent]. *)
Definition lease_validate_extent (lease : SegmentLease) (extent : Extent) : result () SegError :=
  match checked_add U64_MAX (ex_offset extent) (ex_length extent) with
  | None => Err SegError_Corrupt
  | Some stop =>
      if (ex_offset extent <? le_start lease) || (le_end lease <? stop) then Err SegError_Corrupt
      else
        match alignment_extent (ge_alignment (le_geometry lease)) (ex_offset extent) (ex_length extent) with
        | Ok e => if bool_decide (e = extent) then Ok () else Err SegError_Corrupt
        | Err _ => Err SegError_Corrupt
        end
  end.

(** [validate_lease]. *)
Definition validate_lease t (lease : SegmentLease) (extent : Extent) : result () SegError :=
  if negb (sg_table t =? le_table lease) then Err SegError_Stale else lease_validate_extent lease extent.

(** [free_count], [count] and [state]. *)
Definition free_count t : N := N.of_nat (size (sg_free t)).
Definition segment_count t : N := N.of_nat (length (sg_slots t)).
Definition segment_state t (id : N) : result SegmentState SegError :=
  match slot_at t id with Some sl => Ok (ss_state (sl_image sl)) | None => Err SegError_Corrupt end.

(** ** The clock *)

(** [SegmentEntries]: the mappings of the caller, as operations on the caller's state [E].
    The callbacks change that state only. *)
Class SegmentEntries (E : Type) := {
  can_reclaim : E → N → bool;
  can_evict : E → N → bool;
  remove_bounded : E → N → N → N * E;
  entries_empty : E → N → bool
}.

(** What the clock may rely on: the mappings that are left are counted, a removal stays within its budget, and one that is large
    enough empties a segment that may be evicted. *)
Class LawfulEntries (E : Type) `{SegmentEntries E} := {
  entries_ok : E → Prop;
  entries_size : E → N;
  law_removed : ∀ e id budget n e', entries_ok e → remove_bounded e id budget = (n, e') →
    entries_ok e' ∧ n <= budget ∧ entries_size e = entries_size e' + n;
  law_cleared : ∀ e id budget n e', entries_ok e → can_evict e id = true → entries_size e <= budget →
    remove_bounded e id budget = (n, e') → entries_empty e' id = true;
  law_none : ∀ e id, entries_ok e → entries_size e = 0 → entries_empty e id = true;
  law_vetoes : ∀ e id budget n e' id', entries_ok e → remove_bounded e id budget = (n, e') →
    can_reclaim e' id' = can_reclaim e id' ∧ can_evict e' id' = can_evict e id'
}.

Record SegmentClock := mkClock { ck_hand : N; ck_recent : gset N; ck_epoch : N }.

Implicit Types ck : SegmentClock.

(** [SegmentClock::new]. *)
Definition clock_new t : SegmentClock := mkClock 0 ∅ (sg_epoch t).

(** [sync_restore]. *)
Definition sync_restore t ck : SegmentClock :=
  if ck_epoch ck =? sg_epoch t then ck else mkClock 0 ∅ (sg_epoch t).

(** [mark_read]. *)
Definition mark_read t ck (segment : N) : result () SegError * SegmentClock :=
  let ck := sync_restore t ck in
  match segment_state t segment with
  | Err e => (Err e, ck)
  | Ok st => (Ok (), if readable st then mkClock (ck_hand ck) ({[segment]} ∪ ck_recent ck) (ck_epoch ck) else ck)
  end.

(** [next]. *)
Definition clock_next ck (count : N) : N * SegmentClock :=
  let hand := ck_hand ck mod count in (hand, mkClock ((hand + 1) mod count) (ck_recent ck) (ck_epoch ck)).

(** [recent.remove]: whether it was there. *)
Definition forget_recent ck (id : N) : bool * SegmentClock :=
  (bool_decide (id ∈ ck_recent ck), mkClock (ck_hand ck) (ck_recent ck ∖ {[id]}) (ck_epoch ck)).

Section clock.
Context {E : Type} `{SegmentEntries E}.
Implicit Types e : E.

(** The sweep of [reclaim_index]. *)
Fixpoint index_sweep (visits : nat) (count : N) (ready : E → bool * E) ck e : result () SegError * SegmentClock * E :=
  match visits with
  | O => (Err SegError_Busy, ck, e)
  | S visits =>
      let '(id, ck) := clock_next ck count in
      let '(recent, ck) := forget_recent ck id in
      if recent then index_sweep visits count ready ck e
      else if negb (can_reclaim e id) then index_sweep visits count ready ck e
      else
        let '(removed, e) := remove_bounded e id 1 in
        if 1 <? removed then (Err SegError_InvalidConfiguration, ck, e)
        else
          let '(done, e) := ready e in
          if done then (Ok (), ck, e) else index_sweep visits count ready ck e
  end.

Definition two_rotations (count max_visits : N) : nat := N.to_nat (N.min (N.min (count * 2) USIZE_MAX) max_visits).

(** [reclaim_index]; [ready] runs on the caller's state. *)
Definition reclaim_index t ck e (max_visits : N) (ready : E → bool * E) : result () SegError * SegmentClock * E :=
  let ck := sync_restore t ck in
  let '(done, e) := ready e in
  if done then (Ok (), ck, e)
  else index_sweep (two_rotations (segment_count t) max_visits) (segment_count t) ready ck e.

(** From the removal of the mappings to the recycling of one slot that is in eviction, common to both
    sweeps: whether it was recycled, and the mappings that may still be removed. *)
Definition drain t e (id entries_left : N) : option (result bool SegError * Segments * E * N) :=
  let removal :=
    if negb (entries_left =? 0) && negb (entries_empty e id) then
      let '(removed, e) := remove_bounded e id entries_left in
      if entries_left <? removed then (Err SegError_InvalidConfiguration, e, entries_left)
      else (Ok (), e, entries_left - removed)
    else (Ok (), e, entries_left) in
  match removal with
  | (Err err, e, budget) => Some (Err err, t, e, budget)
  | (Ok _, e, budget) =>
      if negb (entries_empty e id) then Some (Ok false, t, e, budget)
      else
        match recycle_evicted t id with
        | None => None
        | Some (Ok _, t) => Some (Ok true, t, e, budget)
        | Some (Err SegError_Busy, t) => Some (Ok false, t, e, budget)
        | Some (Err err, t) => Some (Err err, t, e, budget)
        end
  end.

Definition in_sweep (st : SegmentState) : bool :=
  match st with SegmentState_Sealed | SegmentState_Evicting => true | _ => false end.

(** A visited slot may be a candidate. *)
Definition candidate e (id : N) (st : SegmentState) : bool :=
  in_sweep st && (can_reclaim e id && negb (bool_decide (st = SegmentState_Sealed) && negb (can_evict e id))).

(** The first loop of [reclaim_scored]: candidates as (sealed, value, visit, id). *)
Fixpoint rank_sweep (visits : nat) (visit count : N) (score : E → N → N * E) t ck e :
    result (list (bool * N * N * N)) SegError * SegmentClock * E :=
  match visits with
  | O => (Ok [], ck, e)
  | S visits =>
      let '(id, ck) := clock_next ck count in
      match segment_state t id with
      | Err err => (Err err, ck, e)
      | Ok st =>
          if negb (candidate e id st) then rank_sweep visits (visit + 1) count score t ck e
          else
            let evicting := bool_decide (st = SegmentState_Evicting) in
            let '(value, e) := if evicting then (0, e) else score e id in
            match rank_sweep visits (visit + 1) count score t ck e with
            | (Ok l, ck, e) => (Ok ((negb evicting, value, visit, id) :: l), ck, e)
            | other => other
            end
      end
  end.

Definition rank_le (a b : bool * N * N * N) : bool :=
  let '(s1, v1, n1, _) := a in
  let '(s2, v2, n2, _) := b in
  if Bool.eqb s1 s2 then if v1 =? v2 then n1 <=? n2 else v1 <? v2 else negb s1.

(** The second loop of [reclaim_scored]. *)
Fixpoint evict_ranked (target entries_left : N) (candidates : list (bool * N * N * N)) t ck e :
    option (result () SegError * Segments * SegmentClock * E) :=
  match candidates with
  | [] => Some (if target <=? free_count t then Ok () else Err SegError_Busy, t, ck, e)
  | (_, _, _, id) :: candidates =>
      match segment_state t id with
      | Err err => Some (Err err, t, ck, e)
      | Ok st =>
          let full := (target <=? N.min (free_count t + sg_evicting t) USIZE_MAX) || negb (can_evict e id) in
          if negb (can_reclaim e id) || (bool_decide (st = SegmentState_Sealed) && full) ||
             ((entries_left =? 0) && negb (entries_empty e id))
          then evict_ranked target entries_left candidates t ck e
          else
            match begin_eviction t id with
            | (Err err, t) => Some (Err err, t, ck, e)
            | (Ok _, t) =>
                let ck := snd (forget_recent ck id) in
                match drain t e id entries_left with
                | None => None
                | Some (Err err, t, e, _) => Some (Err err, t, ck, e)
                | Some (Ok _, t, e, budget) => evict_ranked target budget candidates t ck e
                end
            end
      end
  end.

(** [reclaim_scored]. *)
Definition reclaim_scored t ck e (free_reserve max_visits max_entries : N) (score : E → N → N * E) :
    option (result () SegError * Segments * SegmentClock * E) :=
  let ck := sync_restore t ck in
  let count := segment_count t in
  let target := N.min free_reserve count in
  if free_reserve =? 0 then Some (Ok (), t, ck, e)
  else if count =? 0 then Some (Err SegError_Unavailable, t, ck, e)
  else if (target <=? free_count t) && (sg_evicting t =? 0) then Some (Ok (), t, ck, e)
  else
    match rank_sweep (N.to_nat (N.min (N.min count max_visits) 64)) 0 count score t ck e with
    | (Err err, ck, e) => Some (Err err, t, ck, e)
    | (Ok candidates, ck, e) => evict_ranked target max_entries (sort_by rank_le candidates) t ck e
    end.

(** The sweep of [reclaim]. *)
Fixpoint reclaim_sweep (visits : nat) (count target free entries_left : N) t ck e :
    option (result () SegError * Segments * SegmentClock * E) :=
  match visits with
  | O => Some (if target <=? free then Ok () else Err SegError_Busy, t, ck, e)
  | S visits =>
      if target <=? free then Some (Ok (), t, ck, e)
      else
        let '(id, ck) := clock_next ck count in
        match segment_state t id with
        | Err err => Some (Err err, t, ck, e)
        | Ok st =>
            if negb (candidate e id st) then reclaim_sweep visits count target free entries_left t ck e
            else
              let '(recent, ck) := forget_recent ck id in
              if recent || ((entries_left =? 0) && negb (entries_empty e id))
              then reclaim_sweep visits count target free entries_left t ck e
              else
                match begin_eviction t id with
                | (Err err, t) => Some (Err err, t, ck, e)
                | (Ok _, t) =>
                    match drain t e id entries_left with
                    | None => None
                    | Some (Err err, t, e, _) => Some (Err err, t, ck, e)
                    | Some (Ok recycled, t, e, budget) =>
                        reclaim_sweep visits count target (if recycled : bool then free + 1 else free) budget t ck e
                    end
                end
        end
  end.

(** [reclaim]. *)
Definition clock_reclaim t ck e (free_reserve max_visits max_entries : N) : option (result () SegError * Segments * SegmentClock * E) :=
  let ck := sync_restore t ck in
  let count := segment_count t in
  if free_reserve =? 0 then Some (Ok (), t, ck, e)
  else if count =? 0 then Some (Err SegError_Unavailable, t, ck, e)
  else reclaim_sweep (two_rotations count max_visits) count (N.min free_reserve count) (free_count t) max_entries t ck e.

End clock.
