(* ===== verification/PageIndex.v ===== *)
(** * The page index

    [PageIndex] of [cmd/racer/alloc/src/index.rs]: mappings by key, by segment in publication order,
    by group, and in age order, kept together; and [PhantomEntries] of [segments.rs], the mappings of
    the eviction clock without payloads.  A failed [expect] and indexing with a missing key are panics, [None]. *)

From S2P Require Import Prelude Segments.
Local Open Scope racer_scope.
Local Open Scope N_scope.

(** ** The index *)

Section index.
Context {K V G : Type} `{Countable K} `{Countable G}.

Record IndexGroup := mkIndexGroup { gr_order : gmap N K; gr_cursor : N }.

Record PageIndex := mkPageIndex {
  px_pages : gmap K V;
  px_reverse : gmap N (gmap N K);
  px_order : gmap N K;
  px_ages : gmap K (N * N * G);
  px_groups : gmap G IndexGroup;
  px_next_age : N;
  px_cursor : N
}.

Implicit Types ix : PageIndex.

Definition page_index_new : PageIndex := mkPageIndex ∅ ∅ ∅ ∅ ∅ 0 0.

(** A candidate victim: score, age, key. *)
Definition Victim : Type := N * N * K.

Definition victim_lt (value age : N) (best : option Victim) : bool :=
  match best with
  | None => true
  | Some (v, a, _) => (value <? v) || ((value =? v) && (age <? a))
  end.

(** The loop of [scan] over the visited entries: the best so far and the cursor. *)
Fixpoint scan_entries (entries : list (N * K)) (cursor : N) (score : K → option (option N)) (best : option Victim) : option (option Victim * N) :=
  match entries with
  | [] => Some (best, cursor)
  | (age, key) :: entries =>
      match score key with
      | None => None
      | Some None => scan_entries entries age score best
      | Some (Some value) =>
          scan_entries entries age score (if victim_lt value age best then Some (value, age, key) else best)
      end
  end.

(** [scan]. *)
Definition scan (order : gmap N K) (cursor : N) (budget : nat) (score : K → option (option N)) : option (option Victim * N) :=
  scan_entries (take budget (wrap_from order cursor)) cursor score None.

(** [len], [get] and [can_publish]. *)
Definition index_len ix : N := N.of_nat (size (px_pages ix)).
Definition index_get ix (key : K) : option V := px_pages ix !! key.
Definition can_publish ix : bool := px_next_age ix <? U64_MAX.

(** [remove]. *)
Definition index_remove_page ix (key : K) : option (option V * PageIndex) :=
  match px_pages ix !! key with
  | None => Some (None, ix)
  | Some old =>
      match px_ages ix !! key with
      | None => None
      | Some (age, segment, group) =>
          match px_groups ix !! group, px_reverse ix !! segment with
          | Some members, Some pages =>
              let members_order := delete age (gr_order members) in
              let groups :=
                if bool_decide (members_order = ∅) then delete group (px_groups ix)
                else <[group := mkIndexGroup members_order (gr_cursor members)]> (px_groups ix) in
              let pages := delete age pages in
              let reverse := if bool_decide (pages = ∅) then delete segment (px_reverse ix) else <[segment := pages]> (px_reverse ix) in
              Some (Some old, mkPageIndex (delete key (px_pages ix)) reverse (delete age (px_order ix)) (delete key (px_ages ix)) groups
                                (px_next_age ix) (px_cursor ix))
          | _, _ => None
          end
      end
  end.

Definition group_or_default (groups : gmap G IndexGroup) (group : G) : IndexGroup := default (mkIndexGroup ∅ 0) (groups !! group).
Definition reverse_or_default (reverse : gmap N (gmap N K)) (segment : N) : gmap N K := default ∅ (reverse !! segment).

(** [insert_in]. *)
Definition insert_in ix (key : K) (value : V) (segment : N) (group : G) : option (result (option V) (K * V) * PageIndex) :=
  match checked_add U64_MAX (px_next_age ix) 1 with
  | None => Some (Err (key, value), ix)
  | Some age =>
      match index_remove_page ix key with
      | None => None
      | Some (old, ix) =>
          let members := group_or_default (px_groups ix) group in
          Some (Ok old, mkPageIndex (<[key := value]> (px_pages ix))
                          (<[segment := <[age := key]> (reverse_or_default (px_reverse ix) segment)]> (px_reverse ix))
                          (<[age := key]> (px_order ix)) (<[key := (age, segment, group)]> (px_ages ix))
                          (<[group := mkIndexGroup (<[age := key]> (gr_order members)) (gr_cursor members)]> (px_groups ix))
                          age (px_cursor ix))
      end
  end.

(** [after]: a checkpoint scan. *)
Definition index_after ix (after : N) (limit : nat) : option (list (N * K * V)) :=
  mapM (λ '(age, key), (λ v, (age, key, v)) <$> px_pages ix !! key)
    (take limit (filter (λ p, ¬ ord_le p.1 after) (btree_iter ord_le (px_order ix)))).

(** The score of a key that is indexed. *)
Definition page_score ix (score : K → V → option N) (key : K) : option (option N) := score key <$> px_pages ix !! key.

(** [victim_if], and [victim] with a total score. *)
Definition victim_if ix (budget : nat) (score : K → V → option N) : option (option K * PageIndex) :=
  match scan (px_order ix) (px_cursor ix) budget (page_score ix score) with
  | None => None
  | Some (best, cursor) =>
      Some ((λ '(_, _, key), key) <$> best,
            mkPageIndex (px_pages ix) (px_reverse ix) (px_order ix) (px_ages ix) (px_groups ix) (px_next_age ix) cursor)
  end.

Definition index_victim ix (budget : nat) (score : K → V → N) : option (option K * PageIndex) :=
  victim_if ix budget (λ key value, Some (score key value)).

(** [victim_in_groups]. *)
Fixpoint groups_scan ix (groups : list G) (budget : nat) (score : K → V → option N) (best : option Victim) : option (option Victim * PageIndex) :=
  match groups with
  | [] => Some (best, ix)
  | group :: groups =>
      match px_groups ix !! group with
      | None => groups_scan ix groups budget score best
      | Some members =>
          match scan (gr_order members) (gr_cursor members) budget (page_score ix score) with
          | None => None
          | Some (found, cursor) =>
              let ix := mkPageIndex (px_pages ix) (px_reverse ix) (px_order ix) (px_ages ix)
                          (<[group := mkIndexGroup (gr_order members) cursor]> (px_groups ix)) (px_next_age ix) (px_cursor ix) in
              let best := match found with Some (v, a, k) => if victim_lt v a best then found else best | None => best end in
              groups_scan ix groups budget score best
          end
      end
  end.

Definition victim_in_groups ix (groups : list G) (budget_per_group : nat) (score : K → V → option N) : option (option K * PageIndex) :=
  match groups_scan ix groups budget_per_group score None with
  | None => None
  | Some (best, ix) => Some ((λ '(_, _, key), key) <$> best, ix)
  end.

(** [segment]: a bounded prefix of one segment's mappings. *)
Definition index_segment ix (segment : N) (budget : nat) : option (list (K * V)) :=
  mapM (λ '(_, key), (λ v, (key, v)) <$> px_pages ix !! key)
    (take budget (btree_iter ord_le (reverse_or_default (px_reverse ix) segment))).

(** [segment_empty]. *)
Definition index_segment_empty ix (segment : N) : bool := negb (is_some (px_reverse ix !! segment)).

(** [segment_score]. *)
Definition index_segment_score ix (segment : N) (budget : nat) (unseen_value : N) (score : K → V → N) : option N :=
  let count := size (reverse_or_default (px_reverse ix) segment) in
  match index_segment ix segment budget with
  | None => None
  | Some known =>
      let known := foldl (λ sum '(key, value), saturating_add U64_MAX sum (score key value)) 0 known in
      Some (saturating_add U64_MAX known (saturating_mul U64_MAX (N.of_nat (count - budget)) unseen_value))
  end.

End index.

Arguments PageIndex K V G {_ _ _ _}.
Arguments IndexGroup K : clear implicits.

(** ** Entries without payloads *)

Section phantom.
Context {K : Type} `{Countable K}.

Record PhantomEntries := mkPhantom {
  ph_index : PageIndex K N ();
  ph_held : gset N;
  ph_writing : gset N;
  ph_evicted : list (K * N)
}.

Implicit Types ph : PhantomEntries.

Definition phantom_new : PhantomEntries := mkPhantom page_index_new ∅ ∅ [].

Definition with_index ph (ix : PageIndex K N ()) : PhantomEntries := mkPhantom ix (ph_held ph) (ph_writing ph) (ph_evicted ph).

(** [publish]. *)
Definition phantom_publish ph (page : K) (bytes segment : N) : option (result (option N) SegError * PhantomEntries) :=
  match insert_in (ph_index ph) page bytes segment () with
  | None => None
  | Some (Ok old, ix) => Some (Ok old, with_index ph ix)
  | Some (Err _, ix) => Some (Err SegError_Unavailable, with_index ph ix)
  end.

(** [PhantomEntries::remove]. *)
Definition phantom_remove ph (page : K) : option (option N * PhantomEntries) :=
  (λ '(old, ix), (old, with_index ph ix)) <$> index_remove_page (ph_index ph) page.

(** [set_held] and [set_writing]. *)
Definition set_held ph (segment : N) (held : bool) : PhantomEntries :=
  mkPhantom (ph_index ph) (if held then {[segment]} ∪ ph_held ph else ph_held ph ∖ {[segment]}) (ph_writing ph) (ph_evicted ph).
Definition set_writing ph (segment : N) (writing : bool) : PhantomEntries :=
  mkPhantom (ph_index ph) (ph_held ph) (if writing then {[segment]} ∪ ph_writing ph else ph_writing ph ∖ {[segment]}) (ph_evicted ph).

(** [take_evicted]. *)
Definition take_evicted ph : list (K * N) * PhantomEntries :=
  (ph_evicted ph, mkPhantom (ph_index ph) (ph_held ph) (ph_writing ph) []).

(** The vetoes. *)
Definition phantom_can_reclaim ph (segment : N) : bool := negb (bool_decide (segment ∈ ph_held ph)).
Definition phantom_can_evict ph (segment : N) : bool := negb (bool_decide (segment ∈ ph_writing ph)) && phantom_can_reclaim ph segment.

(** The removal loop of [remove_bounded]; a page that is not indexed fails the [expect]. *)
Fixpoint phantom_evict ph (pages : list K) : option PhantomEntries :=
  match pages with
  | [] => Some ph
  | page :: pages =>
      match index_remove_page (ph_index ph) page with
      | Some (Some bytes, ix) => phantom_evict (mkPhantom ix (ph_held ph) (ph_writing ph) (ph_evicted ph ++ [(page, bytes)])) pages
      | _ => None
      end
  end.

(** [remove_bounded]. *)
Definition phantom_remove_bounded ph (segment budget : N) : option (N * PhantomEntries) :=
  if negb (phantom_can_evict ph segment) then Some (0, ph)
  else
    match index_segment (ph_index ph) segment (N.to_nat budget) with
    | None => None
    | Some found =>
        let pages := found.*1 in
        (λ ph, (N.of_nat (length pages), ph)) <$> phantom_evict ph pages
    end.

(** [is_empty] of a segment. *)
Definition phantom_segment_empty ph (segment : N) : bool := index_segment_empty (ph_index ph) segment.

(** The implementation of the trait; the removal is total on the states that arise, which [PageIndexRuns] shows. *)
#[export] Instance phantom_entries : SegmentEntries PhantomEntries := {|
  can_reclaim := phantom_can_reclaim;
  can_evict := phantom_can_evict;
  remove_bounded := λ ph segment budget, default (0, ph) (phantom_remove_bounded ph segment budget);
  entries_empty := phantom_segment_empty
|}.

End phantom.

Arguments PhantomEntries K {_ _}.
