(* ===== verification/PageIndexRuns.v ===== *)
(** * The page index: refinement

    [PageIndex] implements a queue of publications: publishing a key removes its mapping and
    appends the new one, and the reverse maps, groups, ages and cursors are views of that queue.
    Victim scans take the least score in a window that rotates through the queue. *)

From S2P Require Import Prelude Segments PageIndex.
Local Open Scope racer_scope.
Local Open Scope N_scope.

Section index.
Context {K V G : Type} `{Countable K} `{Countable G}.
Implicit Types (ix : PageIndex K V G) (k : K).

(** ** The invariant *)

Record page_index_ok ix : Prop := {
  pi_pages : ∀ k, is_Some (px_pages ix !! k) ↔ is_Some (px_ages ix !! k);
  pi_order : ∀ a k, px_order ix !! a = Some k ↔ ∃ s g, px_ages ix !! k = Some (a, s, g);
  pi_reverse : ∀ s a k, reverse_or_default (px_reverse ix) s !! a = Some k ↔ ∃ g, px_ages ix !! k = Some (a, s, g);
  pi_groups : ∀ g a k, gr_order (group_or_default (px_groups ix) g) !! a = Some k ↔ ∃ s, px_ages ix !! k = Some (a, s, g);
  pi_reverse_full : ∀ s m, px_reverse ix !! s = Some m → m ≠ ∅;
  pi_groups_full : ∀ g m, px_groups ix !! g = Some m → gr_order m ≠ ∅;
  pi_range : ∀ a k, px_order ix !! a = Some k → 1 <= a <= px_next_age ix
}.

Lemma page_index_new_ok : page_index_ok page_index_new.
Proof.
  split; simpl; intros; try done.
  all: unfold reverse_or_default, group_or_default; rewrite ?lookup_empty; simpl; rewrite ?lookup_empty; split; [by intros [? ?]||done|].
  - by intros [? ?].
  - by intros (? & ? & ?).
  - by intros (? & ?).
  - by intros (? & ?).
Qed.

(** Two keys do not share an age. *)
Lemma age_unique ix k1 k2 a s1 g1 s2 g2 : page_index_ok ix →
  px_ages ix !! k1 = Some (a, s1, g1) → px_ages ix !! k2 = Some (a, s2, g2) → k1 = k2.
Proof.
  intros Hok H1 H2. assert (px_order ix !! a = Some k1) by (apply (pi_order ix Hok); eauto).
  assert (px_order ix !! a = Some k2) by (apply (pi_order ix Hok); eauto). congruence.
Qed.

(** Deleting one age from a map of maps without empty parts. *)
Lemma reverse_delete (reverse : gmap N (gmap N K)) segment age s :
  reverse_or_default (if bool_decide (delete age (reverse_or_default reverse segment) = ∅) then delete segment reverse
                      else <[segment := delete age (reverse_or_default reverse segment)]> reverse) s =
    if decide (s = segment) then delete age (reverse_or_default reverse segment) else reverse_or_default reverse s.
Proof.
  unfold reverse_or_default at 1. case_bool_decide as E; case_decide as Es; subst.
  - by rewrite lookup_delete_eq, E.
  - by rewrite lookup_delete_ne.
  - by rewrite lookup_insert_eq.
  - by rewrite lookup_insert_ne.
Qed.

Lemma group_delete (groups : gmap G (IndexGroup K)) group (members : IndexGroup K) age g : groups !! group = Some members →
  gr_order (group_or_default (if bool_decide (delete age (gr_order members) = ∅) then delete group groups
                      else <[group := mkIndexGroup (delete age (gr_order members)) (gr_cursor members)]> groups) g) =
    if decide (g = group) then delete age (gr_order members) else gr_order (group_or_default groups g).
Proof.
  intros Hm. unfold group_or_default at 1. case_bool_decide as E; case_decide as Es; subst.
  - by rewrite lookup_delete_eq, E.
  - by rewrite lookup_delete_ne.
  - by rewrite lookup_insert_eq.
  - by rewrite lookup_insert_ne.
Qed.

(** Membership after one key and its age are removed. *)
Lemma delete_member ix k age s0 g0 (m m' : gmap N K) (P : N → K → Prop) : page_index_ok ix → px_ages ix !! k = Some (age, s0, g0) →
  (∀ a k', P a k' → ∃ s g, px_ages ix !! k' = Some (a, s, g)) →
  (∀ a k', m !! a = Some k' ↔ P a k') → m' = delete age m →
  ∀ a k', m' !! a = Some k' ↔ P a k' ∧ k' ≠ k.
Proof.
  intros Hok Hk HP Hm -> a k'. rewrite lookup_delete_Some, Hm. split.
  - intros [Ha Hp]. split; [done|]. intros ->. destruct (HP a k Hp) as (s & g & ?). congruence.
  - intros [Hp Hne]. split; [|done]. intros <-. destruct (HP age k' Hp) as (s & g & ?). destruct Hne. by eapply age_unique.
Qed.

(** The index without a key. *)
Definition index_removed ix k (age segment : N) (group : G) (members : IndexGroup K) : PageIndex K V G :=
  let members_order := delete age (gr_order members) in
  let pages := delete age (reverse_or_default (px_reverse ix) segment) in
  mkPageIndex (delete k (px_pages ix))
    (if bool_decide (pages = ∅) then delete segment (px_reverse ix) else <[segment := pages]> (px_reverse ix))
    (delete age (px_order ix)) (delete k (px_ages ix))
    (if bool_decide (members_order = ∅) then delete group (px_groups ix)
     else <[group := mkIndexGroup members_order (gr_cursor members)]> (px_groups ix))
    (px_next_age ix) (px_cursor ix).

Lemma removed_ok ix k age segment group members : page_index_ok ix → px_ages ix !! k = Some (age, segment, group) →
  px_groups ix !! group = Some members → page_index_ok (index_removed ix k age segment group members).
Proof.
  intros Hok Ha Hm.
  assert (gr_order members = gr_order (group_or_default (px_groups ix) group)) as Hgm by (unfold group_or_default; by rewrite Hm).
  split; simpl.
  - intros k'. destruct (decide (k = k')) as [->|]; [by rewrite !lookup_delete_eq; split; intros []|]. rewrite !lookup_delete_ne by done. apply Hok.
  - intros a k'. rewrite (delete_member ix k age segment group (px_order ix) _ _ Hok Ha (λ _ _ h, h) (pi_order ix Hok) eq_refl).
    setoid_rewrite lookup_delete_Some. naive_solver.
  - intros s a k'. rewrite reverse_delete. case_decide as Es.
    + subst s. rewrite (delete_member ix k age segment group (reverse_or_default (px_reverse ix) segment) _ (λ a k', ∃ g, px_ages ix !! k' = Some (a, segment, g)) Hok Ha);
        [|naive_solver|apply Hok|done]. setoid_rewrite lookup_delete_Some. naive_solver.
    + rewrite (pi_reverse ix Hok). setoid_rewrite lookup_delete_Some. naive_solver congruence.
  - intros g a k'. rewrite group_delete by done. rewrite Hgm. case_decide as Es.
    + subst g. rewrite (delete_member ix k age segment group (gr_order (group_or_default (px_groups ix) group)) _ (λ a k', ∃ s, px_ages ix !! k' = Some (a, s, group)) Hok Ha);
        [|naive_solver|apply Hok|done]. setoid_rewrite lookup_delete_Some. naive_solver.
    + rewrite (pi_groups ix Hok). setoid_rewrite lookup_delete_Some. naive_solver congruence.
  - intros s m. case_bool_decide; [intros [_ ?]%lookup_delete_Some|intros [[<- <-]|[_ ?]]%lookup_insert_Some]; try done; by eapply pi_reverse_full.
  - intros g m. case_bool_decide; [intros [_ ?]%lookup_delete_Some|intros [[<- <-]|[_ ?]]%lookup_insert_Some]; try done; by eapply pi_groups_full.
  - intros a k' [_ ?]%lookup_delete_Some. by eapply pi_range.
Qed.

(** The publications of an index, oldest first. *)
Local Notation iter ix := (btree_iter ord_le (px_order ix)).

Lemma iter_spec ix a k : page_index_ok ix → (a, k) ∈ iter ix ↔ ∃ s g, px_ages ix !! k = Some (a, s, g).
Proof. intros Hok. rewrite elem_of_btree_iter. apply Hok. Qed.

(** [remove] drops the key everywhere, and never panics. *)
Lemma remove_ok ix k : page_index_ok ix →
  ∃ ix', index_remove_page ix k = Some (px_pages ix !! k, ix') ∧ page_index_ok ix' ∧
    px_pages ix' = delete k (px_pages ix) ∧ px_ages ix' = delete k (px_ages ix) ∧ iter ix' = filter (λ p, p.2 ≠ k) (iter ix) ∧
    px_next_age ix' = px_next_age ix.
Proof.
  intros Hok. unfold index_remove_page. destruct (px_pages ix !! k) as [v|] eqn:Hv.
  2: { assert (px_ages ix !! k = None) as Ha.
       { apply eq_None_not_Some. rewrite <- (pi_pages ix Hok), Hv. by intros [? ?]. }
       exists ix. rewrite !delete_id by done. split_and!; try done. symmetry. apply filter_all. intros [a k'] Hin. simpl. intros ->.
       apply iter_spec in Hin as (? & ? & ?); [|done]. congruence. }
  destruct (proj1 (pi_pages ix Hok k)) as [[[age segment] group] Ha]; [by eexists|]. rewrite Ha.
  destruct (px_groups ix !! group) as [members|] eqn:Hm.
  2: { assert (gr_order (group_or_default (px_groups ix) group) !! age = Some k) as Hx by (apply (pi_groups ix Hok); eauto).
       unfold group_or_default in Hx. by rewrite Hm in Hx. }
  destruct (px_reverse ix !! segment) as [pages|] eqn:Hp.
  2: { assert (reverse_or_default (px_reverse ix) segment !! age = Some k) as Hx by (apply (pi_reverse ix Hok); eauto).
       unfold reverse_or_default in Hx. by rewrite Hp in Hx. }
  assert (pages = reverse_or_default (px_reverse ix) segment) as -> by (unfold reverse_or_default; by rewrite Hp).
  exists (index_removed ix k age segment group members). split_and!; [done|by apply removed_ok|done|done| |done].
  unfold index_removed. cbn [px_order]. rewrite btree_iter_delete. apply filter_ext_members. intros [a k'] Hin%iter_spec; [|done]. simpl.
  destruct Hin as (s & g & Hk'). split; [intros Hne ->; congruence|]. intros Hne ->. destruct Hne. by eapply age_unique.
Qed.

(** The index with a key that it does not hold yet. *)
Definition index_published ix k (v : V) (segment : N) (group : G) (age : N) : PageIndex K V G :=
  let members := group_or_default (px_groups ix) group in
  mkPageIndex (<[k := v]> (px_pages ix)) (<[segment := <[age := k]> (reverse_or_default (px_reverse ix) segment)]> (px_reverse ix))
    (<[age := k]> (px_order ix)) (<[k := (age, segment, group)]> (px_ages ix))
    (<[group := mkIndexGroup (<[age := k]> (gr_order members)) (gr_cursor members)]> (px_groups ix)) age (px_cursor ix).

Lemma insert_member ix k age (m : gmap N K) (P : N → K → Prop) : page_index_ok ix → px_next_age ix < age →
  (∀ a k', m !! a = Some k' ↔ P a k') → (∀ a k', P a k' → ∃ s g, px_ages ix !! k' = Some (a, s, g)) →
  ∀ a k', <[age := k]> m !! a = Some k' ↔ a = age ∧ k' = k ∨ P a k'.
Proof.
  intros Hok Hage Hm HP a k'. rewrite lookup_insert_Some, Hm. split; [naive_solver|]. intros [[-> ->]|Hp]; [by left|right].
  split; [|done]. intros <-. apply HP in Hp as Hx. apply (pi_order ix Hok), (pi_range ix Hok) in Hx. lia.
Qed.

Lemma published_ok ix k v segment group age : page_index_ok ix → px_ages ix !! k = None → px_next_age ix < age →
  page_index_ok (index_published ix k v segment group age).
Proof.
  intros Hok Hk Hage. split; simpl.
  - intros k'. destruct (decide (k = k')) as [->|]; [by rewrite !lookup_insert_eq|]. rewrite !lookup_insert_ne by done. apply Hok.
  - intros a k'. rewrite (insert_member ix k age (px_order ix) _ Hok Hage (pi_order ix Hok) (λ _ _ h, h)).
    setoid_rewrite lookup_insert_Some. naive_solver.
  - intros s a k'. unfold reverse_or_default at 1. destruct (decide (segment = s)) as [->|Hs].
    + rewrite lookup_insert_eq. simpl. rewrite (insert_member ix k age _ _ Hok Hage (pi_reverse ix Hok s)) by naive_solver.
      setoid_rewrite lookup_insert_Some. naive_solver.
    + rewrite lookup_insert_ne by done. fold (reverse_or_default (px_reverse ix) s). rewrite (pi_reverse ix Hok).
      setoid_rewrite lookup_insert_Some. naive_solver.
  - intros g a k'. unfold group_or_default at 1. destruct (decide (group = g)) as [->|Hs].
    + rewrite lookup_insert_eq. simpl. rewrite (insert_member ix k age _ _ Hok Hage (pi_groups ix Hok g)) by naive_solver.
      setoid_rewrite lookup_insert_Some. naive_solver.
    + rewrite lookup_insert_ne by done. fold (group_or_default (px_groups ix) g). rewrite (pi_groups ix Hok).
      setoid_rewrite lookup_insert_Some. naive_solver.
  - intros s m [[<- <-]|[_ ?]]%lookup_insert_Some; [apply insert_non_empty|by eapply pi_reverse_full].
  - intros g m [[<- <-]|[_ ?]]%lookup_insert_Some; [apply insert_non_empty|by eapply pi_groups_full].
  - intros a k' [[<- <-]|[_ Ha]]%lookup_insert_Some; [lia|]. apply (pi_range ix Hok) in Ha. lia.
Qed.

Lemma insert_ok ix k v segment group : page_index_ok ix → px_next_age ix < U64_MAX →
  ∃ ix', insert_in ix k v segment group = Some (Ok (px_pages ix !! k), ix') ∧ page_index_ok ix' ∧
    px_pages ix' = <[k := v]> (px_pages ix) ∧ px_ages ix' = <[k := (px_next_age ix + 1, segment, group)]> (px_ages ix) ∧
    iter ix' = filter (λ p, p.2 ≠ k) (iter ix) ++ [(px_next_age ix + 1, k)] ∧ px_next_age ix' = px_next_age ix + 1.
Proof.
  intros Hok Hn. unfold insert_in. rewrite checked_add_le by lia.
  destruct (remove_ok ix k Hok) as (ix1 & -> & Hok1 & Hp1 & Ha1 & Hi1 & Hn1).
  exists (index_published ix1 k v segment group (px_next_age ix + 1)). split_and!.
  - done.
  - apply published_ok; [done|rewrite Ha1; apply lookup_delete_eq|lia].
  - simpl. by rewrite Hp1, insert_delete_eq.
  - simpl. by rewrite Ha1, insert_delete_eq.
  - unfold index_published. cbn [px_order]. rewrite btree_iter_snoc, Hi1; [done|]. intros a k' Ha%(pi_range ix1 Hok1). lia.
  - done.
Qed.

(** ** The queue of publications *)

(** Key, value, segment and group. *)
Definition Publication : Type := K * V * N * G.
Definition pub_key (p : Publication) : K := p.1.1.1.
Definition pub_value (p : Publication) : V := p.1.1.2.
Definition pub_segment (p : Publication) : N := p.1.2.

Definition publication_of ix (p : N * K) : option Publication :=
  match px_pages ix !! p.2, px_ages ix !! p.2 with
  | Some v, Some (_, s, g) => Some (p.2, v, s, g)
  | _, _ => None
  end.

Definition index_view ix : list Publication := omap (publication_of ix) (iter ix).

(** The operations, on the queue. *)
Definition queue_remove (queue : list Publication) k : list Publication := filter (λ p, pub_key p ≠ k) queue.
Definition queue_publish (queue : list Publication) k (v : V) (s : N) (g : G) : list Publication := queue_remove queue k ++ [(k, v, s, g)].

Lemma publication_of_key ix p pub : publication_of ix p = Some pub → pub_key pub = p.2.
Proof. unfold publication_of. destruct (px_pages ix !! p.2), (px_ages ix !! p.2) as [[[? ?] ?]|]; naive_solver. Qed.

Lemma omap_filter_keys ix ix' k (l : list (N * K)) :
  (∀ k', k' ≠ k → px_pages ix' !! k' = px_pages ix !! k' ∧ px_ages ix' !! k' = px_ages ix !! k') →
  omap (publication_of ix') (filter (λ p, p.2 ≠ k) l) = queue_remove (omap (publication_of ix) l) k.
Proof.
  intros Hsame. unfold queue_remove. induction l as [|[a k'] l IH]; [done|]. rewrite filter_cons. cbn [omap list_omap].
  case_decide as Hk; simpl in Hk.
  - cbn [omap list_omap]. destruct (Hsame k' Hk) as [H1 H2].
    assert (publication_of ix' (a, k') = publication_of ix (a, k')) as -> by (unfold publication_of; simpl; by rewrite H1, H2).
    destruct (publication_of ix (a, k')) as [pub|] eqn:Ep; [|done]. rewrite filter_cons, decide_True; [by f_equal|].
    by rewrite (publication_of_key _ _ _ Ep).
  - destruct (publication_of ix (a, k')) as [pub|] eqn:Ep; [|done]. rewrite filter_cons, decide_False; [done|].
    rewrite (publication_of_key _ _ _ Ep). simpl. tauto.
Qed.

Lemma remove_view ix k : page_index_ok ix →
  ∃ ix', index_remove_page ix k = Some (px_pages ix !! k, ix') ∧ page_index_ok ix' ∧ index_view ix' = queue_remove (index_view ix) k ∧
    px_next_age ix' = px_next_age ix.
Proof.
  intros Hok. destruct (remove_ok ix k Hok) as (ix' & -> & Hok' & Hp & Ha & Hi & Hn). exists ix'. split_and!; [done|done| |done].
  unfold index_view. rewrite Hi. apply omap_filter_keys. intros k' Hk. by rewrite Hp, Ha, !lookup_delete_ne.
Qed.

Lemma insert_view ix k v s g : page_index_ok ix → px_next_age ix < U64_MAX →
  ∃ ix', insert_in ix k v s g = Some (Ok (px_pages ix !! k), ix') ∧ page_index_ok ix' ∧ index_view ix' = queue_publish (index_view ix) k v s g ∧
    px_next_age ix' = px_next_age ix + 1.
Proof.
  intros Hok Hn. destruct (insert_ok ix k v s g Hok Hn) as (ix' & -> & Hok' & Hp & Ha & Hi & Hn'). exists ix'. split_and!; [done|done| |done].
  unfold index_view. rewrite Hi, omap_app. unfold queue_publish. f_equal.
  - apply omap_filter_keys. intros k' Hk. by rewrite Hp, Ha, !lookup_insert_ne.
  - simpl. unfold publication_of. simpl. by rewrite Hp, Ha, !lookup_insert_eq.
Qed.

(** ** Reading the queue *)

Lemma iter_publication ix p : page_index_ok ix → p ∈ iter ix →
  ∃ v s g, publication_of ix p = Some (p.2, v, s, g) ∧ px_pages ix !! p.2 = Some v ∧ px_ages ix !! p.2 = Some (p.1, s, g).
Proof.
  intros Hok Hp. destruct p as [a k]. apply iter_spec in Hp as (s & g & Ha); [|done].
  destruct (proj2 (pi_pages ix Hok k)) as [v Hv]; [by eexists|]. exists v, s, g. unfold publication_of. simpl. by rewrite Hv, Ha.
Qed.

Lemma view_spec ix k v s g : page_index_ok ix →
  (k, v, s, g) ∈ index_view ix ↔ px_pages ix !! k = Some v ∧ ∃ a, px_ages ix !! k = Some (a, s, g).
Proof.
  intros Hok. unfold index_view. rewrite list_elem_of_omap. split.
  - intros (p & Hin & Hp). destruct (iter_publication ix p Hok Hin) as (v0 & s0 & g0 & Hp0 & Hv & Ha).
    rewrite Hp in Hp0. injection Hp0 as -> <- <- <-. eauto.
  - intros (Hv & a & Ha). exists (a, k). split; [apply iter_spec; eauto|]. unfold publication_of. simpl. by rewrite Hv, Ha.
Qed.

Lemma view_keys ix (l : list (N * K)) : page_index_ok ix → (∀ p, p ∈ l → p ∈ iter ix) → pub_key <$> omap (publication_of ix) l = l.*2.
Proof.
  intros Hok. induction l as [|p l IH]; intros Hl; [done|]. cbn [omap list_omap].
  destruct (iter_publication ix p Hok) as (v & s & g & -> & _); [set_solver|]. rewrite !fmap_cons, IH by set_solver. done.
Qed.

Lemma iter_keys_NoDup ix : page_index_ok ix → NoDup (iter ix).*2.
Proof.
  intros Hok. pose proof (btree_iter_NoDup ord_le (px_order ix)) as Hnd. apply NoDup_fmap_2_strong.
  - intros [a1 k1] [a2 k2] H1 H2 Hk. simpl in Hk. subst k2. apply iter_spec in H1 as (? & ? & ?); [|done].
    apply iter_spec in H2 as (? & ? & ?); [|done]. congruence.
  - by eapply NoDup_fmap_1.
Qed.

Lemma view_keys_NoDup ix : page_index_ok ix → NoDup (pub_key <$> index_view ix).
Proof. intros Hok. unfold index_view. rewrite view_keys by done. by apply iter_keys_NoDup. Qed.

(** The mappings of one segment, in publication order. *)
Definition segment_of ix (s : N) (p : N * K) : Prop := (λ x : N * N * G, x.1.2) <$> px_ages ix !! p.2 = Some s.

#[local] Instance segment_of_dec ix s p : Decision (segment_of ix s p).
Proof. unfold segment_of. apply _. Defined.

Lemma reverse_iter ix s : page_index_ok ix →
  btree_iter ord_le (reverse_or_default (px_reverse ix) s) = filter (segment_of ix s) (iter ix).
Proof.
  intros Hok. apply btree_iter_unique; try apply _.
  - apply NoDup_Permutation; [apply NoDup_filter; eapply NoDup_fmap_1, btree_iter_NoDup|apply NoDup_map_to_list|].
    intros [a k]. rewrite list_elem_of_filter, iter_spec, elem_of_map_to_list, (pi_reverse ix Hok) by done. unfold segment_of. simpl.
    split; [intros (Hs & s' & g & Ha); rewrite Ha in Hs; simplify_eq/=; eauto|]. intros [g Ha]. rewrite Ha. eauto.
  - apply sorted_filter, btree_iter_sorted; apply _.
Qed.

Lemma view_segment ix s (l : list (N * K)) budget : page_index_ok ix → (∀ p, p ∈ l → p ∈ iter ix) →
  mapM (λ '(_, key), (λ v, (key, v)) <$> px_pages ix !! key) (take budget (filter (segment_of ix s) l)) =
    Some ((λ p, (pub_key p, pub_value p)) <$> take budget (filter (λ p, pub_segment p = s) (omap (publication_of ix) l))).
Proof.
  intros Hok. revert budget. induction l as [|p l IH]; intros budget Hl; [by destruct budget|].
  destruct (iter_publication ix p Hok) as (v & s0 & g & Hp & Hv & Ha); [set_solver|]. cbn [omap list_omap]. rewrite Hp, !filter_cons.
  assert (∀ p, p ∈ l → p ∈ iter ix) as Hl' by set_solver.
  assert (segment_of ix s p ↔ s0 = s) as Hseg by (unfold segment_of; rewrite Ha; simpl; naive_solver).
  destruct (decide (s0 = s)) as [->|Hs]; [|rewrite !decide_False by (done || tauto); by apply IH].
  rewrite (decide_True (P := segment_of ix s p)) by tauto.
  rewrite decide_True by done. destruct budget as [|budget]; [done|]. destruct p as [a k]. simpl in *. rewrite Hv. simpl.
  specialize (IH budget Hl'). simpl in IH. by rewrite IH.
Qed.

(** [segment] is a prefix of the queue's publications into the segment. *)
Lemma index_segment_view ix s budget : page_index_ok ix →
  index_segment ix s budget = Some ((λ p, (pub_key p, pub_value p)) <$> take budget (filter (λ p, pub_segment p = s) (index_view ix))).
Proof. intros Hok. unfold index_segment. rewrite reverse_iter by done. by apply view_segment. Qed.

Lemma segment_empty_view ix s : page_index_ok ix → index_segment_empty ix s = true ↔ ∀ p, p ∈ index_view ix → pub_segment p ≠ s.
Proof.
  intros Hok. unfold index_segment_empty. destruct (px_reverse ix !! s) as [m|] eqn:Hm; simpl; split; try done.
  - intros Hall. exfalso. apply (pi_reverse_full ix Hok s m Hm). apply map_empty. intros a.
    destruct (m !! a) as [k|] eqn:Hk; [|done]. exfalso.
    assert (reverse_or_default (px_reverse ix) s !! a = Some k) as Hx by (unfold reverse_or_default; by rewrite Hm).
    apply (pi_reverse ix Hok) in Hx as [g Ha]. destruct (proj2 (pi_pages ix Hok k)) as [v Hv]; [by eexists|].
    apply (Hall (k, v, s, g)); [|done]. apply view_spec; eauto.
  - intros _ [[[k v] s'] g] Hin. unfold pub_segment. simpl. intros ->. apply view_spec in Hin as (_ & a & Ha); [|done].
    assert (reverse_or_default (px_reverse ix) s !! a = Some k) as Hx by (apply (pi_reverse ix Hok); eauto).
    unfold reverse_or_default in Hx. by rewrite Hm in Hx.
Qed.

Lemma index_len_view ix : page_index_ok ix → index_len ix = N.of_nat (length (index_view ix)).
Proof.
  intros Hok. unfold index_len. f_equal. rewrite <- (length_fmap pub_key (index_view ix)), <- size_dom.
  rewrite <- (size_list_to_set (C := gset K) (pub_key <$> index_view ix)) by (by apply view_keys_NoDup). f_equal.
  apply set_eq. intros k. rewrite elem_of_dom, elem_of_list_to_set, list_elem_of_fmap. split.
  - intros [v Hv]. destruct (proj1 (pi_pages ix Hok k)) as [[[a s] g] Ha]; [by eexists|]. exists (k, v, s, g). split; [done|]. apply view_spec; eauto.
  - intros ([[[k' v] s] g] & -> & Hin). apply view_spec in Hin as [? _]; [|done]. by eexists.
Qed.

(** ** Victims *)

(** The cursor after a scan. *)
Definition last_age (entries : list (N * K)) (cursor : N) : N := from_option fst cursor (last entries).

(** [best] is the least candidate of [entries] and [init], by score, then age. *)
Definition least_victim (entries : list (N * K)) (score : K → option (option N)) (init best : option (N * N * K)) : Prop :=
  match best with
  | None => init = None ∧ ∀ p, p ∈ entries → score p.2 = Some None
  | Some (v, a, k) =>
      (init = Some (v, a, k) ∨ (a, k) ∈ entries ∧ score k = Some (Some v)) ∧
      (∀ p v', p ∈ entries → score p.2 = Some (Some v') → pair_le (v, a) (v', p.1)) ∧
      (∀ v0 a0 k0, init = Some (v0, a0, k0) → pair_le (v, a) (v0, a0))
  end.

Lemma scan_entries_spec entries cursor score init : (∀ p, p ∈ entries → is_Some (score p.2)) →
  ∃ best, scan_entries entries cursor score init = Some (best, last_age entries cursor) ∧ least_victim entries score init best.
Proof.
  revert cursor init. induction entries as [|[age key] entries IH]; intros cursor init Hs.
  { exists init. split; [done|]. destruct init as [[[v a] k]|]; simpl; [|set_solver].
    split_and!; [by left|set_solver|]. intros v0 a0 k0 [= -> -> ->]. unfold pair_le. simpl. lia. }
  assert (last_age ((age, key) :: entries) cursor = last_age entries age) as ->.
  { unfold last_age. rewrite last_cons. by destruct (last entries). }
  destruct (Hs (age, key)) as [sc Hsc]; [set_solver|]. simpl in Hsc. cbn [scan_entries]. rewrite Hsc.
  assert (∀ p, p ∈ entries → is_Some (score p.2)) as Hs' by set_solver.
  set (init' := match sc with None => init | Some value => if victim_lt value age init then Some (value, age, key) else init end).
  destruct (IH age init' Hs') as (best & Heq & Hb). exists best. split; [subst init'; by destruct sc|]. clear IH Heq.
  destruct best as [[[v a] k]|]; simpl in *.
  - destruct Hb as (Hin & Hle & Hinit). subst init'. destruct sc as [value|].
    + unfold victim_lt in *. destruct init as [[[v0 a0] k0]|].
      * destruct (N.ltb_spec value v0), (N.eqb_spec value v0), (N.ltb_spec age a0); cbn [orb andb] in *; unfold pair_le in *; simpl in *;
          (split_and!; [set_solver|intros p v' [->|Hp]%elem_of_cons Hp'; [|by apply Hle]|]);
          specialize (Hinit _ _ _ eq_refl); simplify_eq/=; try lia; intros ??? [= <- <- <-]; lia.
      * unfold pair_le in *. simpl in *. split_and!; [set_solver| |done]. intros p v' [->|Hp]%elem_of_cons Hp'; [|by apply Hle].
        specialize (Hinit _ _ _ eq_refl). simplify_eq/=. lia.
    + split_and!; [set_solver| |done]. intros p v' [->|Hp]%elem_of_cons Hp'; [simplify_eq/=; congruence|by apply Hle].
  - destruct Hb as [Hi Hall]. subst init'. destruct sc as [value|].
    + destruct init as [[[v0 a0] k0]|]; [by destruct (victim_lt _ _ _)|done].
    + split; [done|]. intros p [->|Hp]%elem_of_cons; [done|by apply Hall].
Qed.

(** A scan of [b] entries rotates the order by [b]. *)
Lemma wrap_from_rotate (m : gmap N K) cursor b : (b <= size m)%nat →
  wrap_from m (last_age (take b (wrap_from m cursor)) cursor) = drop b (wrap_from m cursor) ++ take b (wrap_from m cursor).
Proof.
  rewrite <- (wrap_from_length m cursor). revert cursor. induction b as [|b IH]; intros cursor Hb; [by rewrite app_nil_r|].
  destruct (wrap_from m cursor) as [|[a k] rest] eqn:E; [simpl in Hb; lia|]. apply wrap_from_step in E as Es. simpl in Hb.
  assert (last_age (take (S b) ((a, k) :: rest)) cursor = last_age (take b (wrap_from m a)) a) as ->.
  { rewrite Es, take_app_le by lia. unfold last_age. cbn [take]. rewrite last_cons. by destruct (last (take b rest)). }
  rewrite IH by (rewrite Es, length_app; lia). rewrite Es, drop_app_le, take_app_le by lia. cbn [drop take].
  by rewrite <- (assoc_L (++)).
Qed.

(** Moving cursors keeps the index. *)
Lemma page_score_ok ix score (m : gmap N K) cursor budget : page_index_ok ix →
  (∀ a k, m !! a = Some k → ∃ s g, px_ages ix !! k = Some (a, s, g)) →
  ∀ p, p ∈ take budget (wrap_from m cursor) → is_Some (page_score ix score p.2).
Proof.
  intros Hok Hm [a k] Hin. assert ((a, k) ∈ wrap_from m cursor) as Hin' by (eapply elem_of_sublist; [exact Hin|apply sublist_take]).
  apply elem_of_wrap_from, Hm in Hin' as (s & g & Ha). destruct (proj2 (pi_pages ix Hok k)) as [v Hv]; [by eexists|].
  unfold page_score. simpl. rewrite Hv. by eexists.
Qed.

Definition with_cursor ix (cursor : N) : PageIndex K V G :=
  mkPageIndex (px_pages ix) (px_reverse ix) (px_order ix) (px_ages ix) (px_groups ix) (px_next_age ix) cursor.
Definition with_group_cursor ix (group : G) (members : IndexGroup K) (cursor : N) : PageIndex K V G :=
  mkPageIndex (px_pages ix) (px_reverse ix) (px_order ix) (px_ages ix) (<[group := mkIndexGroup (gr_order members) cursor]> (px_groups ix))
    (px_next_age ix) (px_cursor ix).

Lemma with_group_cursor_ok ix group members cursor : page_index_ok ix → px_groups ix !! group = Some members →
  page_index_ok (with_group_cursor ix group members cursor).
Proof.
  intros [? ? ? Hg ? Hf ?] Hm. split; simpl; try done.
  - intros g a k. rewrite <- (Hg g). unfold group_or_default. destruct (decide (group = g)) as [->|]; [|by rewrite lookup_insert_ne].
    by rewrite lookup_insert_eq, Hm.
  - intros g m [[<- <-]|[_ ?]]%lookup_insert_Some; [exact (Hf group members Hm)|eauto].
Qed.

Lemma victim_if_ok ix budget score : page_index_ok ix →
  ∃ best, let visited := take budget (wrap_from (px_order ix) (px_cursor ix)) in
    victim_if ix budget score = Some ((λ '(_, _, key), key) <$> best, with_cursor ix (last_age visited (px_cursor ix))) ∧
    least_victim visited (page_score ix score) None best.
Proof.
  intros Hok. unfold victim_if, scan.
  destruct (scan_entries_spec (take budget (wrap_from (px_order ix) (px_cursor ix))) (px_cursor ix) (page_score ix score) None) as (best & -> & Hb).
  { apply page_score_ok; [done|]. apply Hok. }
  by exists best.
Qed.

Lemma groups_scan_ok ix groups budget score best : page_index_ok ix →
  ∃ r ix', groups_scan ix groups budget score best = Some (r, ix') ∧ page_index_ok ix' ∧ index_view ix' = index_view ix ∧
    px_next_age ix' = px_next_age ix.
Proof.
  revert ix best. induction groups as [|group groups IH]; intros ix best Hok; simpl; [by exists best, ix|].
  destruct (px_groups ix !! group) as [members|] eqn:Hm; [|by apply IH]. unfold scan.
  destruct (scan_entries_spec (take budget (wrap_from (gr_order members) (gr_cursor members))) (gr_cursor members) (page_score ix score) None) as (found & -> & _).
  { apply page_score_ok; [done|]. intros a k Ha. destruct (proj1 (pi_groups ix Hok group a k)) as [s ?]; [unfold group_or_default; by rewrite Hm|]. eauto. }
  set (cursor := last_age _ _). fold (with_group_cursor ix group members cursor).
  destruct (IH (with_group_cursor ix group members cursor) (match found with Some (v, a, k) => if victim_lt v a best then found else best | None => best end))
    as (r & ix' & -> & ? & ? & ?); [by apply with_group_cursor_ok|]. by exists r, ix'.
Qed.

(** ** Runs *)

Inductive index_op :=
| Ix_publish (k : K) (v : V) (segment : N) (group : G)
| Ix_remove (k : K)
| Ix_victim (budget : nat) (score : K → V → option N)
| Ix_victim_in_groups (groups : list G) (budget : nat) (score : K → V → option N).

Definition index_do (op : index_op) ix : option (PageIndex K V G) :=
  match op with
  | Ix_publish k v segment group => snd <$> insert_in ix k v segment group
  | Ix_remove k => snd <$> index_remove_page ix k
  | Ix_victim budget score => snd <$> victim_if ix budget score
  | Ix_victim_in_groups groups budget score => snd <$> victim_in_groups ix groups budget score
  end.

Fixpoint index_run (ops : list index_op) ix : option (PageIndex K V G) :=
  match ops with
  | [] => Some ix
  | op :: ops => index_do op ix ≫= index_run ops
  end.

(** The specification: a queue, and the ages that are spent. *)
Definition queue_do (op : index_op) (q : list Publication * N) : list Publication * N :=
  match op with
  | Ix_publish k v segment group => if q.2 <? U64_MAX then (queue_publish q.1 k v segment group, q.2 + 1) else q
  | Ix_remove k => (queue_remove q.1 k, q.2)
  | _ => q
  end.

Definition queue_run (ops : list index_op) (q : list Publication * N) : list Publication * N := foldl (λ q op, queue_do op q) q ops.

(** The simulation relation. *)
Definition index_sim (q : list Publication * N) ix : Prop := page_index_ok ix ∧ index_view ix = q.1 ∧ px_next_age ix = q.2.

Lemma index_do_sim op q ix : index_sim q ix → ∃ ix', index_do op ix = Some ix' ∧ index_sim (queue_do op q) ix'.
Proof.
  intros (Hok & Hv & Hn). destruct op as [k v segment group|k|budget score|groups budget score]; simpl.
  - rewrite <- Hn. destruct (N.ltb_spec (px_next_age ix) U64_MAX) as [Hlt|Hge].
    + destruct (insert_view ix k v segment group Hok Hlt) as (ix' & -> & ? & Hv' & ?). exists ix'. split; [done|].
      split_and!; [done|by rewrite Hv', Hv|done].
    + exists ix. split; [|done]. unfold insert_in. by rewrite (proj2 (checked_add_None _ _ _)) by lia.
  - destruct (remove_view ix k Hok) as (ix' & -> & ? & Hv' & ?). exists ix'. split; [done|]. split_and!; [done|by rewrite Hv', Hv|simpl; lia].
  - destruct (victim_if_ok ix budget score Hok) as (best & -> & _). eexists. split; [done|]. split_and!; [by destruct Hok|done|done].
  - unfold victim_in_groups. destruct (groups_scan_ok ix groups budget score None Hok) as (r & ix' & -> & ? & ? & ?).
    exists ix'. split; [done|]. split_and!; [done|congruence|congruence].
Qed.

Lemma index_run_sim ops q ix : index_sim q ix → ∃ ix', index_run ops ix = Some ix' ∧ index_sim (queue_run ops q) ix'.
Proof.
  revert q ix. induction ops as [|op ops IH]; intros q ix Hs; simpl; [by exists ix|].
  destruct (index_do_sim op q ix Hs) as (ix1 & -> & Hs1). by apply IH.
Qed.

Lemma index_new_sim : index_sim ([], 0) page_index_new.
Proof. split_and!; [apply page_index_new_ok|done|done]. Qed.

(** C16: an index never panics and is the queue of its publications: a key's mapping is the one it was last published with, the
    mappings of a segment are the queue's publications into it in order, and a segment is empty exactly when the queue has none. *)
Theorem page_index_refines (ops : list index_op) :
  ∃ ix, let queue := (queue_run ops ([], 0)).1 in
    index_run ops page_index_new = Some ix ∧ NoDup (pub_key <$> queue) ∧ index_len ix = N.of_nat (length queue) ∧
    (∀ k v, index_get ix k = Some v ↔ ∃ s g, (k, v, s, g) ∈ queue) ∧
    (∀ s budget, index_segment ix s budget = Some ((λ p, (pub_key p, pub_value p)) <$> take budget (filter (λ p, pub_segment p = s) queue))) ∧
    (∀ s, index_segment_empty ix s = true ↔ ∀ p, p ∈ queue → pub_segment p ≠ s).
Proof.
  destruct (index_run_sim ops _ _ index_new_sim) as (ix & Hrun & Hok & Hv & _). exists ix. cbv zeta. rewrite <- Hv. split_and!; [done| | | | |].
  - by apply view_keys_NoDup.
  - by apply index_len_view.
  - intros k v. setoid_rewrite view_spec; [|done]. unfold index_get. split; [|naive_solver]. intros Hk.
    destruct (proj1 (pi_pages ix Hok k)) as [[[a s] g] Ha]; [by eexists|]. eauto 6.
  - intros s budget. by apply index_segment_view.
  - intros s. by apply segment_empty_view.
Qed.

(** A victim is the least scored, then oldest, of the entries that its scan visits, and the scan rotates the index past them,
    so that every entry is visited once before any is visited again. *)
Theorem victim_rotates (ops : list index_op) budget (score : K → V → option N) :
  ∃ ix best, index_run ops page_index_new = Some ix ∧
    let order := wrap_from (px_order ix) (px_cursor ix) in
    let ix' := with_cursor ix (last_age (take budget order) (px_cursor ix)) in
    victim_if ix budget score = Some ((λ '(_, _, key), key) <$> best, ix') ∧
    least_victim (take budget order) (page_score ix score) None best ∧
    wrap_from (px_order ix') (px_cursor ix') =
      (if (budget <=? length order)%nat then drop budget order ++ take budget order else order).
Proof.
  destruct (index_run_sim ops _ _ index_new_sim) as (ix & Hrun & Hok & _). destruct (victim_if_ok ix budget score Hok) as (best & Hv & Hl).
  exists ix, best. split; [done|]. cbv zeta. split_and!; [done|done|]. cbn [px_order px_cursor with_cursor]. set (order := wrap_from (px_order ix) (px_cursor ix)) in *.
  assert (length order = size (px_order ix)) as Hlen by apply wrap_from_length.
  destruct (Nat.leb_spec budget (length order)) as [Hb|Hb]; [apply wrap_from_rotate; lia|].
  rewrite (take_ge order budget) by lia. rewrite <- (take_ge order (length order)) at 1 by lia. unfold order at 2 3.
  rewrite wrap_from_rotate by lia. fold order. by rewrite drop_ge, take_ge.
Qed.

End index.

(** ** The phantom entries keep the laws of the clock *)

Section phantom.
Context {K : Type} `{Countable K}.
Implicit Types ph : PhantomEntries K.

Lemma evict_pages_ok ph (pages : list K) : page_index_ok (ph_index ph) → NoDup pages → (∀ k, k ∈ pages → is_Some (px_pages (ph_index ph) !! k)) →
  ∃ ph', phantom_evict ph pages = Some ph' ∧ page_index_ok (ph_index ph') ∧ ph_held ph' = ph_held ph ∧ ph_writing ph' = ph_writing ph ∧
    (∀ p, p ∈ index_view (ph_index ph') ↔ p ∈ index_view (ph_index ph) ∧ pub_key p ∉ pages) ∧
    index_len (ph_index ph) = index_len (ph_index ph') + N.of_nat (length pages).
Proof.
  revert ph. induction pages as [|k pages IH]; intros ph Hok Hnd Hin; simpl.
  { exists ph. split_and!; [done..|set_solver|lia]. }
  apply NoDup_cons in Hnd as [Hk Hnd]. destruct (Hin k) as [v Hv]; [set_solver|].
  destruct (remove_view (ph_index ph) k Hok) as (ix & Hr & Hok1 & Hview & _). rewrite Hr, Hv.
  destruct (remove_ok (ph_index ph) k Hok) as (ix0 & Hr0 & _ & Hp & _). rewrite Hr in Hr0. injection Hr0 as <-.
  set (ph1 := mkPhantom ix _ _ _). destruct (IH ph1) as (ph' & -> & ? & ? & ? & Hmem & Hlen); [done|done| |].
  { intros k' Hk'. simpl. rewrite Hp, lookup_delete_ne by (by intros ->). apply Hin. set_solver. }
  exists ph'. split_and!; [done..| |].
  - intros p. rewrite Hmem. simpl. rewrite Hview. unfold queue_remove. rewrite list_elem_of_filter. set_solver.
  - simpl in Hlen. unfold index_len in *. rewrite Hp in Hlen. rewrite map_size_delete_Some in Hlen by (by eexists).
    assert (size (px_pages (ph_index ph)) ≠ 0%nat) by (intros E%map_size_empty_inv; by rewrite E in Hv). lia.
Qed.

Definition in_segment ph (s : N) : list (Publication (K := K) (V := N) (G := ())) := filter (λ p, pub_segment p = s) (index_view (ph_index ph)).

Lemma remove_bounded_ok ph s budget : page_index_ok (ph_index ph) → phantom_can_evict ph s = true →
  ∃ ph', let pages := pub_key <$> take (N.to_nat budget) (in_segment ph s) in
    phantom_remove_bounded ph s budget = Some (N.of_nat (length pages), ph') ∧ page_index_ok (ph_index ph') ∧
    ph_held ph' = ph_held ph ∧ ph_writing ph' = ph_writing ph ∧
    (∀ p, p ∈ index_view (ph_index ph') ↔ p ∈ index_view (ph_index ph) ∧ pub_key p ∉ pages) ∧
    index_len (ph_index ph) = index_len (ph_index ph') + N.of_nat (length pages).
Proof.
  intros Hok Hev. unfold phantom_remove_bounded. rewrite Hev. cbn [negb]. rewrite index_segment_view by done. fold (in_segment ph s).
  set (found := take (N.to_nat budget) (in_segment ph s)).
  assert (((λ p, (pub_key p, pub_value p)) <$> found).*1 = pub_key <$> found) as -> by (rewrite <- list_fmap_compose; done).
  assert (found `sublist_of` index_view (ph_index ph)) as Hsub by (etrans; [apply sublist_take|apply sublist_filter]).
  destruct (evict_pages_ok ph (pub_key <$> found)) as (ph' & -> & ? & ? & ? & ? & ?).
  - done.
  - eapply sublist_NoDup; [exact (view_keys_NoDup _ Hok)|]. by apply fmap_sublist.
  - intros k (p & -> & Hp)%list_elem_of_fmap. eapply elem_of_sublist in Hp; [|exact Hsub]. destruct p as [[[k v] s'] g].
    apply view_spec in Hp as [? _]; [|done]. by eexists.
  - exists ph'. split_and!; done.
Qed.

Lemma length_in_segment ph s : page_index_ok (ph_index ph) → N.of_nat (length (in_segment ph s)) <= index_len (ph_index ph).
Proof. intros Hok. rewrite index_len_view by done. pose proof (length_filter (λ p, pub_segment p = s) (index_view (ph_index ph))). unfold in_segment. lia. Qed.

#[export] Instance phantom_lawful : LawfulEntries (PhantomEntries K).
Proof.
  refine {| entries_ok := λ ph, page_index_ok (ph_index ph); entries_size := λ ph, index_len (ph_index ph) |}; simpl.
  - intros ph s budget n ph' Hok. destruct (phantom_can_evict ph s) eqn:Hev.
    + destruct (remove_bounded_ok ph s budget Hok Hev) as (ph1 & -> & ? & _ & _ & _ & Hlen). intros [= <- <-]. split_and!; [done| |done].
      rewrite length_fmap, length_take. lia.
    + unfold phantom_remove_bounded. rewrite Hev. intros [= <- <-]. split_and!; [done|lia|lia].
  - intros ph s budget n ph' Hok Hev Hsize. destruct (remove_bounded_ok ph s budget Hok Hev) as (ph1 & -> & Hok1 & _ & _ & Hmem & _). intros [= <- <-].
    unfold phantom_segment_empty. apply segment_empty_view; [done|]. intros p [Hp Hno]%Hmem Hseg. apply Hno. apply list_elem_of_fmap. exists p. split; [done|].
    pose proof (length_in_segment ph s Hok). rewrite take_ge by lia. by apply list_elem_of_filter.
  - intros ph s Hok Hz. apply segment_empty_view; [done|]. rewrite index_len_view in Hz by done. destruct (index_view _); [set_solver|done].
  - intros ph s budget n ph' s' Hok. destruct (phantom_can_evict ph s) eqn:Hev.
    + destruct (remove_bounded_ok ph s budget Hok Hev) as (ph1 & -> & _ & Hh & Hw & _ & _). intros [= <- <-].
      unfold phantom_can_evict, phantom_can_reclaim. by rewrite Hh, Hw.
    + unfold phantom_remove_bounded. rewrite Hev. by intros [= <- <-].
Defined.

(** Bounded removal never panics: it takes the oldest mappings of the segment, at most the budget, and nothing else. *)
Theorem phantom_removal_exact ph s budget : page_index_ok (ph_index ph) →
  let pages := if phantom_can_evict ph s then pub_key <$> take (N.to_nat budget) (in_segment ph s) else [] in
  ∃ ph', phantom_remove_bounded ph s budget = Some (N.of_nat (length pages), ph') ∧ page_index_ok (ph_index ph') ∧
    N.of_nat (length pages) <= budget ∧ ∀ p, p ∈ index_view (ph_index ph') ↔ p ∈ index_view (ph_index ph) ∧ pub_key p ∉ pages.
Proof.
  intros Hok pages. destruct (phantom_can_evict ph s) eqn:Hev; subst pages.
  - destruct (remove_bounded_ok ph s budget Hok Hev) as (ph' & ? & ? & _ & _ & ? & _). exists ph'. split_and!; [done|done| |done].
    rewrite length_fmap, length_take. lia.
  - exists ph. unfold phantom_remove_bounded. rewrite Hev. split_and!; [done|done|simpl; lia|set_solver].
Qed.

End phantom.
