(* ===== verification/SegmentProofs.v ===== *)
(** * Segment allocation: the invariant of the table

    The table of [Segments] under every operation.  [seg_ok] says that slots, open segment, free
    set, eviction count and usage totals agree; [lease_ok] ties the lease counters to the leases
    that are outstanding. *)

From S2P Require Import Prelude Segments.
Local Open Scope racer_scope.
Local Open Scope N_scope.

(** ** Alignment *)

Lemma euclid_gcd (n : nat) (a b : N) : b < 2 ^ N.of_nat n → euclid (2 * n + 1) a b = N.gcd a b.
Proof.
  revert a b. induction n as [|n IH]; intros a b Hb.
  - assert (b = 0) as -> by (simpl in Hb; lia). simpl. by rewrite N.gcd_0_r.
  - replace (2 * S n + 1)%nat with (S (S (2 * n + 1))) by lia. cbn [euclid].
    destruct (N.eqb_spec b 0) as [->|Hb0]; [by rewrite N.gcd_0_r|].
    rewrite (N.gcd_comm a b), <- (N.Lcm0.gcd_mod a b), (N.gcd_comm _ b).
    destruct (N.eqb_spec (a mod b) 0) as [->|Hr]; [by rewrite N.gcd_0_r|].
    set (r := a mod b) in *. assert (r < b) by (apply N.mod_lt; lia).
    rewrite IH; [by rewrite (N.gcd_comm b r), <- (N.Lcm0.gcd_mod b r), (N.gcd_comm r)|].
    rewrite Nat2N.inj_succ, N.pow_succ_r' in Hb.
    pose proof (N.div_mod b r ltac:(lia)). pose proof (N.mod_lt b r ltac:(lia)).
    assert (1 <= b / r) by (apply N.div_le_lower_bound; lia). nia.
Qed.

Lemma euclid_fuel_gcd (a b : N) : euclid (euclid_fuel b) a b = N.gcd a b.
Proof.
  apply euclid_gcd. destruct b as [|p]; [done|]. cbn [N.size_nat].
  pose proof (N.size_gt (N.pos p)) as H. cbn [N.size] in H.
  replace (N.of_nat (Pos.size_nat p)) with (N.pos (Pos.size p)); [done|].
  induction p as [p IH|p IH|]; simpl in *; [| |done].
  all: rewrite Nat2N.inj_succ, <- IH; [lia|apply (N.size_gt (N.pos p))].
Qed.

Lemma is_multiple_of_spec (n unit : N) : unit ≠ 0 → is_multiple_of n unit = true ↔ (unit | n).
Proof.
  intros Hu. unfold is_multiple_of. rewrite (proj2 (N.eqb_neq unit 0) Hu), N.eqb_eq.
  by apply N.Lcm0.mod_divide.
Qed.

(** The unit to which lengths are rounded. *)
Definition al_unit (al : Alignment) : N := N.lcm (al_offset al) (al_length al).

Definition al_ok (al : Alignment) : Prop := al_offset al ≠ 0 ∧ al_length al ≠ 0.

Lemma unit_lcm (al : Alignment) :
  al_offset al / euclid (euclid_fuel (al_length al)) (al_offset al) (al_length al) * al_length al = al_unit al.
Proof. rewrite euclid_fuel_gcd. unfold al_unit. rewrite N.lcm_comm. unfold N.lcm. rewrite (N.gcd_comm (al_length al)).
  apply N.mul_comm.
Qed.

Lemma round_up (n u : N) : u ≠ 0 → (u | (n + (u - 1)) / u * u) ∧ n <= (n + (u - 1)) / u * u ∧ (n + (u - 1)) / u * u < n + u.
Proof.
  intros Hu. split; [by exists ((n + (u - 1)) / u)|].
  pose proof (N.div_mod (n + (u - 1)) u Hu). pose proof (N.mod_lt (n + (u - 1)) u Hu).
  set (q := (n + (u - 1)) / u) in *. set (r := (n + (u - 1)) mod u) in *. clearbody q r. nia.
Qed.

Lemma al_unit_nonzero (al : Alignment) : al_ok al → al_unit al ≠ 0.
Proof. intros [Ho Hl] E. apply N.lcm_eq_0 in E. tauto. Qed.

Lemma alignment_extent_Ok (al : Alignment) (offset logical : N) (e : Extent) :
  al_ok al → alignment_extent al offset logical = Ok e →
  ex_offset e = offset ∧ (al_offset al | offset) ∧ (al_unit al | ex_length e) ∧
  logical <= ex_length e < logical + al_unit al ∧ offset + ex_length e <= U64_MAX ∧ 0 < ex_length e <= MAX_TRANSFER_LENGTH.
Proof.
  intros Hal. pose proof (al_unit_nonzero al Hal) as Hu0. destruct Hal as [Ho Hl]. unfold alignment_extent.
  destruct (is_multiple_of offset _) eqn:Hm; [|done]. apply is_multiple_of_spec in Hm; [|done].
  destruct (N.eqb_spec logical 0); [done|]. destruct (N.ltb_spec MAX_TRANSFER_LENGTH logical); [done|].
  cbn [negb orb]. destruct (checked_mul _ _ _) as [u|] eqn:Hu; [|done].
  apply checked_mul_Some in Hu as [_ ->]. rewrite unit_lcm. set (u := al_unit al) in *.
  destruct (checked_add _ _ _ ≫= _) as [len|] eqn:Hlen; [|done].
  apply bind_Some in Hlen as (v & [_ ->]%checked_add_Some & [_ ->]%checked_mul_Some).
  pose proof (round_up logical u Hu0) as (Hd & Hge & Hlt). set (len := _ * u) in *. clearbody len.
  destruct (N.ltb_spec MAX_TRANSFER_LENGTH len); [done|]. unfold extent_new.
  destruct (N.eqb_spec len 0); [done|]. destruct (N.ltb_spec MAX_TRANSFER_LENGTH len); [done|].
  destruct (checked_add U64_MAX offset len) eqn:Hs; [|done]. apply checked_add_Some in Hs as [? _].
  intros [= <-]. cbn [ex_offset ex_length]. split_and!; (done || lia).
Qed.

(** A transfer is rounded up to the least length that is a multiple of both the offset and the length unit. *)
Theorem alignment_extent_least (al : Alignment) (offset logical : N) (e : Extent) :
  al_ok al → alignment_extent al offset logical = Ok e →
  ex_offset e = offset ∧ (al_offset al | ex_length e) ∧ (al_length al | ex_length e) ∧
  logical <= ex_length e <= MAX_TRANSFER_LENGTH ∧ offset + ex_length e <= U64_MAX ∧
  ∀ n, logical <= n → (al_offset al | n) → (al_length al | n) → ex_length e <= n.
Proof.
  intros Hal (He & _ & Hd & Hr & Hs & Hm)%alignment_extent_Ok; [|done].
  pose proof (al_unit_nonzero al Hal). split_and!; [done| | |lia|lia|lia|].
  - by apply (N.divide_trans _ (al_unit al)); [apply N.divide_lcm_l|].
  - by apply (N.divide_trans _ (al_unit al)); [apply N.divide_lcm_r|].
  - intros n Hn H1 H2. assert ((al_unit al | n)) as [k ->] by (by apply N.lcm_least).
    destruct Hd as [q Hq]. rewrite Hq in *. assert (q < k + 1) by nia. nia.
Qed.

Lemma alignment_extent_least_witness :
  ∃ e, alignment_extent (mkAlignment 8 6 4) 18 13 = Ok e ∧ ex_offset e = 18 ∧ (6 | ex_length e) ∧ (4 | ex_length e) ∧
       13 <= ex_length e <= MAX_TRANSFER_LENGTH ∧ ex_length e <= 24.
Proof.
  exists (mkExtent 18 24). split; [by vm_compute|].
  destruct (alignment_extent_least (mkAlignment 8 6 4) 18 13 (mkExtent 18 24)) as (H1 & H2 & H3 & H4 & _ & H5);
    [done|by vm_compute|].
  split_and!; [done|done|done|apply H4|apply H4|]. apply H5; [lia|by exists 4|by exists 6].
Defined.

(** A length that is rounded to itself at offset 0 is rounded to itself at every aligned offset. *)
Lemma alignment_extent_at (al : Alignment) (offset length : N) :
  al_ok al → alignment_extent al 0 length = Ok (mkExtent 0 length) → (al_offset al | offset) → offset + length <= U64_MAX →
  alignment_extent al offset length = Ok (mkExtent offset length).
Proof.
  intros [Ho Hl] H0 Hd Hs. revert H0. unfold alignment_extent. rewrite (proj2 (is_multiple_of_spec offset _ Ho) Hd).
  destruct (is_multiple_of 0 _); [|done]. cbn [negb orb].
  destruct ((length =? 0) || (MAX_TRANSFER_LENGTH <? length)); [done|].
  destruct (checked_mul _ _ _) as [u|]; [|done]. destruct (checked_add _ _ _ ≫= _) as [len|]; [|done].
  destruct (_ <? _); [done|]. unfold extent_new.
  destruct ((len =? 0) || (MAX_TRANSFER_LENGTH <? len)); [done|]. cbn [orb].
  destruct (is_some (checked_add _ 0 len)); [|done]. intros [= ->].
  rewrite (proj2 (checked_add_Some U64_MAX offset length _) (conj Hs eq_refl)). done.
Qed.

(** ** Totals over the slots *)

Section weight.
Context {A : Type}.
Implicit Types (f : A → N) (l : list A).

Definition weight f l : N := foldr (λ x n, f x + n) 0 l.

Lemma weight_insert f l i x y : l !! i = Some x → weight f (<[i := y]> l) + f x = weight f l + f y.
Proof. revert i. induction l as [|z l IH]; intros [|i] H; simplify_eq/=; [lia|]. specialize (IH _ H). unfold weight in *. lia. Qed.

Lemma weight_ge f l i x : l !! i = Some x → f x <= weight f l.
Proof. revert i. induction l as [|z l IH]; intros [|i] H; simplify_eq/=; [lia|]. specialize (IH _ H). unfold weight in *. lia. Qed.

Lemma weight_app f l k : weight f (l ++ k) = weight f l + weight f k.
Proof. induction l as [|z l IH]; simpl; [done|]. unfold weight in *. lia. Qed.

Lemma weight_zero f l : (∀ x, x ∈ l → f x = 0) → weight f l = 0.
Proof. induction l as [|z l IH]; intros H; simpl; [done|]. rewrite (H z), IH; set_solver. Qed.

Lemma weight_pos f l : weight f l ≠ 0 → ∃ x, x ∈ l ∧ f x ≠ 0.
Proof.
  induction l as [|z l IH]; simpl; [done|]. destruct (N.eq_dec (f z) 0) as [E|E]; [|set_solver].
  rewrite E. intros (x & ? & ?)%IH. set_solver.
Qed.

End weight.

(** ** The invariant *)

Definition is_evicting (sl : Slot) : N := if bool_decide (ss_state (sl_image sl) = SegmentState_Evicting) then 1 else 0.
Definition group_used (k : nat) (sl : Slot) : N := if (sl_group sl =? k)%nat then ss_used (sl_image sl) else 0.

Record image_ok (bytes : N) (al : Alignment) (i : N) (im : SegmentSnapshot) : Prop := {
  io_id : ss_id im = i;
  io_generation : 1 <= ss_generation im;
  io_used : ss_used im <= bytes;
  io_offset : (al_offset al | ss_used im);
  io_length : (al_length al | ss_used im);
  io_free : ss_state im = SegmentState_Free ↔ ss_used im = 0;
  io_open : ss_state im = SegmentState_Open → ss_used im < bytes
}.

Record geometry_ok (g : SegmentGeometry) : Prop := {
  go_al : al_ok (ge_alignment g);
  go_positive : ge_segment_bytes g ≠ 0;
  go_offset : (al_offset (ge_alignment g) | ge_segment_bytes g);
  go_length : (al_length (ge_alignment g) | ge_segment_bytes g);
  go_total : ge_segment_count g * ge_segment_bytes g <= U64_MAX
}.

Definition has_state (t : Segments) (p : N) (st : SegmentState) : Prop :=
  ∃ sl, slot_at t p = Some sl ∧ ss_state (sl_image sl) = st.

Record seg_ok (g : SegmentGeometry) (t : Segments) : Prop := {
  so_geometry : sg_geometry t = Some g;
  so_bytes : ge_segment_bytes g = sg_bytes t;
  so_length : N.of_nat (length (sg_slots t)) = ge_segment_count g;
  so_slots : ∀ p sl, slot_at t p = Some sl → image_ok (sg_bytes t) (ge_alignment g) p (sl_image sl);
  so_groups : ∀ p sl, slot_at t p = Some sl → (sl_group sl < length (sg_usage t))%nat;
  so_open : ∀ p, sg_open t = Some p ↔ has_state t p SegmentState_Open;
  so_free : ∀ p, sg_free t !! p = Some () ↔ has_state t p SegmentState_Free;
  so_evicting : sg_evicting t = weight is_evicting (sg_slots t);
  so_usage : ∀ k cap used, sg_usage t !! k = Some (cap, used) → used = weight (group_used k) (sg_slots t)
}.

Lemma slot_at_put t p sl' (t' : Segments) q :
  sg_slots t' = put_slot t p sl' → is_Some (slot_at t p) → slot_at t' q = if decide (q = p) then Some sl' else slot_at t q.
Proof.
  unfold slot_at, put_slot. intros -> [sl Hp]. case_decide as E.
  - subst q. apply list_lookup_insert_eq. by eapply lookup_lt_Some.
  - apply list_lookup_insert_ne. intros ?%N2Nat.inj. done.
Qed.

(** The usage totals move with one slot. *)
Definition usage_moves (usage usage' : list (N * N)) (group : nat) (u u' : N) : Prop :=
  length usage' = length usage ∧
  ∀ k cap v', usage' !! k = Some (cap, v') →
    ∃ v, usage !! k = Some (cap, v) ∧ (if (group =? k)%nat then v' + u = v + u' else v' = v).

Lemma usage_stays (usage : list (N * N)) group u : usage_moves usage usage group u u.
Proof. split; [done|]. intros k cap v' Hk. exists v'. split; [done|]. by case_match. Qed.

Lemma add_usage_moves (usage : list (N * N)) group n u :
  (group < length usage)%nat → ∃ usage', add_usage usage group n = Some usage' ∧ usage_moves usage usage' group u (u + n).
Proof.
  intros [[cap v] Hg]%lookup_lt_is_Some. unfold add_usage. rewrite Hg. eexists. split; [done|].
  split; [apply length_insert|]. intros k cap' v'. destruct (Nat.eqb_spec group k) as [->|Hne].
  - rewrite list_lookup_insert_eq by (by eapply lookup_lt_Some). intros [= <- <-]. exists v. split; [done|lia].
  - rewrite list_lookup_insert_ne by done. eauto.
Qed.

Lemma sub_usage_moves (usage : list (N * N)) group n v cap u :
  usage !! group = Some (cap, v) → n <= v → n <= u →
  ∃ usage', sub_usage usage group n = Some usage' ∧ usage_moves usage usage' group u (u - n).
Proof.
  intros Hg Hn Hu. unfold sub_usage. rewrite Hg. rewrite (proj2 (N.ltb_ge v n) Hn). eexists. split; [done|].
  split; [apply length_insert|]. intros k cap' v'. destruct (Nat.eqb_spec group k) as [->|Hne].
  - rewrite list_lookup_insert_eq by (by eapply lookup_lt_Some). intros [= <- <-]. exists v. split; [done|lia].
  - rewrite list_lookup_insert_ne by done. eauto.
Qed.

(** Replacing one slot keeps the invariant when the indexes move with it. *)
Lemma put_ok g t (t' : Segments) p sl sl' :
  seg_ok g t → slot_at t p = Some sl → image_ok (sg_bytes t) (ge_alignment g) p (sl_image sl') →
  sl_group sl' = sl_group sl → sg_slots t' = put_slot t p sl' → sg_geometry t' = sg_geometry t → sg_bytes t' = sg_bytes t →
  (∀ q, sg_open t' = Some q ↔ if decide (q = p) then ss_state (sl_image sl') = SegmentState_Open else sg_open t = Some q) →
  (∀ q, sg_free t' !! q = Some () ↔ if decide (q = p) then ss_state (sl_image sl') = SegmentState_Free else sg_free t !! q = Some ()) →
  sg_evicting t' + is_evicting sl = sg_evicting t + is_evicting sl' →
  usage_moves (sg_usage t) (sg_usage t') (sl_group sl) (ss_used (sl_image sl)) (ss_used (sl_image sl')) →
  seg_ok g t'.
Proof.
  intros Hok Hp Hi Hg Hs Hgeo Hb Hopen Hfree Hev [Hlen Hus].
  pose proof (λ q, slot_at_put t p sl' t' q Hs ltac:(eauto)) as Hat.
  assert (∀ q st, has_state t' q st ↔ if decide (q = p) then ss_state (sl_image sl') = st else has_state t q st) as Hst.
  { intros q st. unfold has_state. rewrite Hat. case_decide; naive_solver. }
  split.
  - by rewrite Hgeo, (so_geometry g t).
  - by rewrite Hb, (so_bytes g t).
  - rewrite Hs. unfold put_slot. rewrite length_insert. apply Hok.
  - intros q sl0. rewrite Hat, Hb. case_decide; [naive_solver|]. apply Hok.
  - intros q sl0. rewrite Hat, Hlen. case_decide; [intros [= <-]; rewrite Hg|]; eapply Hok; eauto.
  - intros q. rewrite Hopen, Hst. case_decide; [done|]. apply Hok.
  - intros q. rewrite Hfree, Hst. case_decide; [done|]. apply Hok.
  - pose proof (weight_insert is_evicting (sg_slots t) _ sl sl' Hp) as W. rewrite Hs. unfold put_slot.
    rewrite (so_evicting g t Hok) in Hev. lia.
  - intros k cap v' (v & Hv & Hk)%Hus. apply (so_usage g t Hok) in Hv.
    pose proof (weight_insert (group_used k) (sg_slots t) _ sl sl' Hp) as W. rewrite Hs. unfold put_slot.
    unfold group_used in W at 2 4. rewrite Hg in W. case_match; lia.
Qed.

(** ** How slots evolve *)

(** A slot moves to a later generation, or stays and is open only as a continuation; a leased slot keeps its generation and prefix. *)
Definition slot_evolves (sl sl' : Slot) : Prop :=
  let im := sl_image sl in let im' := sl_image sl' in
  (ss_generation im < ss_generation im' ∨
   ss_generation im = ss_generation im' ∧
   (ss_state im' = SegmentState_Free → ss_state im = SegmentState_Free) ∧
   (ss_state im' = SegmentState_Open → ss_state im = SegmentState_Free ∨ ss_state im = SegmentState_Open ∧ ss_used im <= ss_used im')) ∧
  (sl_leases sl ≠ 0 →
   ss_generation im = ss_generation im' ∧ ss_used im <= ss_used im' ∧ (ss_state im' = SegmentState_Free → ss_state im = SegmentState_Free)).

Definition slot_quiet (sl sl' : Slot) : Prop := sl_leases sl' = sl_leases sl ∧ slot_evolves sl sl'.

Definition table_same (t t' : Segments) : Prop :=
  sg_bytes t' = sg_bytes t ∧ sg_geometry t' = sg_geometry t ∧ sg_table t' = sg_table t.

Definition seg_quiet (t t' : Segments) : Prop := table_same t t' ∧ Forall2 slot_quiet (sg_slots t) (sg_slots t').
Definition seg_evolves (t t' : Segments) : Prop := table_same t t' ∧ Forall2 slot_evolves (sg_slots t) (sg_slots t').

Lemma slot_evolves_refl sl : slot_evolves sl sl.
Proof. split; [right; destruct (ss_state (sl_image sl)); naive_solver lia|naive_solver lia]. Qed.

Lemma slot_quiet_refl sl : slot_quiet sl sl.
Proof. split; [done|apply slot_evolves_refl]. Qed.

Lemma slot_quiet_evolves sl1 sl2 sl3 : slot_quiet sl1 sl2 → slot_evolves sl2 sl3 → slot_evolves sl1 sl3.
Proof.
  intros [L1 [E1 P1]] [E2 P2]. split.
  - destruct E1 as [?|(G1 & F1 & O1)], E2 as [?|(G2 & F2 & O2)]; [left; lia|left; lia|left; lia|right].
    split_and!; [congruence|tauto|]. intros H3. destruct (O2 H3) as [H2|[H2 ?]]; [tauto|].
    destruct (O1 H2) as [|[? ?]]; [tauto|]. right. split; [done|lia].
  - intros H1. destruct (P1 H1) as (? & ? & ?). destruct P2 as (? & ? & ?); [congruence|].
    split_and!; [congruence|lia|tauto].
Qed.

Lemma slot_quiet_trans sl1 sl2 sl3 : slot_quiet sl1 sl2 → slot_quiet sl2 sl3 → slot_quiet sl1 sl3.
Proof. intros H1 [L2 E2]. split; [by rewrite L2; apply H1|by eapply slot_quiet_evolves]. Qed.

Lemma seg_quiet_refl t : seg_quiet t t.
Proof. split; [done|]. apply Forall2_same_length_lookup_2; [done|]. intros i x y Hx Hy. simplify_eq. apply slot_quiet_refl. Qed.

Lemma seg_quiet_trans t1 t2 t3 : seg_quiet t1 t2 → seg_quiet t2 t3 → seg_quiet t1 t3.
Proof.
  intros [(? & ? & ?) F1] [(? & ? & ?) F2]. split; [split_and!; congruence|].
  assert (Transitive slot_quiet) by (intros ???; apply slot_quiet_trans). by etrans.
Qed.

Lemma quiet_then_evolves t1 t2 t3 : seg_quiet t1 t2 → seg_evolves t2 t3 → seg_evolves t1 t3.
Proof.
  intros [(? & ? & ?) F1] [(? & ? & ?) F2]. split; [split_and!; congruence|].
  apply Forall2_same_length_lookup_2; [by etrans; [eapply Forall2_length|eapply Forall2_length]|].
  intros i x z Hx Hz. destruct (Forall2_lookup_l _ _ _ _ _ F1 Hx) as (y & Hy & Hxy).
  eapply slot_quiet_evolves; [exact Hxy|]. exact (Forall2_lookup_lr _ _ _ _ _ _ F2 Hy Hz).
Qed.

Lemma quiet_evolves t t' : seg_quiet t t' → seg_evolves t t'.
Proof. intros [? F]. split; [done|]. eapply Forall2_impl; [exact F|]. by intros ?? [_ ?]. Qed.

(** One slot is replaced. *)
Lemma put_relates (R : Slot → Slot → Prop) t (t' : Segments) p sl sl' :
  (∀ x, R x x) → slot_at t p = Some sl → sg_slots t' = put_slot t p sl' → R sl sl' → Forall2 R (sg_slots t) (sg_slots t').
Proof.
  intros Hr Hp -> HR. unfold put_slot, slot_at in *. apply Forall2_same_length_lookup_2; [by rewrite length_insert|].
  intros i x y Hx Hy. destruct (decide (i = N.to_nat p)) as [->|Hne].
  - rewrite list_lookup_insert_eq in Hy by (by eapply lookup_lt_Some). by simplify_eq.
  - rewrite list_lookup_insert_ne in Hy by done. by simplify_eq.
Qed.

(** ** Eviction and recycling *)

Lemma state_at g t p sl st : seg_ok g t → slot_at t p = Some sl → has_state t p st ↔ ss_state (sl_image sl) = st.
Proof. intros _ Hp. unfold has_state. naive_solver. Qed.

Lemma begin_eviction_ok g t id : seg_ok g t →
  seg_ok g (begin_eviction t id).2 ∧ seg_quiet t (begin_eviction t id).2 ∧
  ((begin_eviction t id).1 = Ok () → has_state (begin_eviction t id).2 id SegmentState_Evicting ∧ sg_frozen t = false).
Proof.
  intros Hok. unfold begin_eviction. destruct (sg_frozen t) eqn:Hf; [split_and!; [done|apply seg_quiet_refl|done]|].
  destruct (slot_at t id) as [sl|] eqn:Hp; [|split_and!; [done|apply seg_quiet_refl|done]].
  destruct (ss_state (sl_image sl)) eqn:Hst; [split_and!; [done|apply seg_quiet_refl|done]..| |]; cbn [fst snd].
  2: { split_and!; [done|apply seg_quiet_refl|]. intros _. split; [by exists sl|done]. }
  set (sl' := with_image sl _). set (t' := mkSegments _ _ _ _ _ _ _ _ _ _). split_and!.
  - eapply (put_ok g t t' id sl sl'); try done.
    + destruct (so_slots g t Hok id sl Hp) as [? ? ? ? ? Hfr ?]. split; simpl; try done. rewrite <- Hfr, Hst. done.
    + intros q. simpl. case_decide as E; [|done]. subst q. rewrite (so_open g t Hok), (state_at g t id sl) by done. by rewrite Hst.
    + intros q. simpl. case_decide as E; [|done]. subst q. rewrite (so_free g t Hok), (state_at g t id sl) by done. by rewrite Hst.
    + unfold is_evicting. simpl. rewrite Hst. simpl. lia.
    + apply usage_stays.
  - split; [done|]. eapply (put_relates slot_quiet t t' id sl sl'); [apply slot_quiet_refl|done|done|].
    split; [done|]. unfold slot_evolves. simpl. rewrite Hst. split; [right; naive_solver|naive_solver lia].
  - intros _. split; [|done]. exists sl'. split; [|done]. rewrite (slot_at_put t id sl') by eauto. by rewrite decide_True.
Qed.

Ltac unchanged := do 2 eexists; split; [done|]; split_and!; [done|apply seg_quiet_refl|done|done|right; naive_solver].

Lemma recycle_evicted_ok g t id : seg_ok g t →
  ∃ r t', recycle_evicted t id = Some (r, t') ∧ seg_ok g t' ∧ seg_quiet t t' ∧ sg_frozen t' = sg_frozen t ∧ sg_epoch t' = sg_epoch t ∧
    (r = Ok () ∧ free_count t' = free_count t + 1 ∨
     t' = t ∧ (r = Err SegError_Busy ∨ r = Err SegError_Corrupt ∧ slot_at t id = None ∨ r = Err SegError_Unavailable)).
Proof.
  intros Hok. unfold recycle_evicted.
  destruct (sg_frozen t) eqn:Hf; [unchanged|].
  destruct (slot_at t id) as [sl|] eqn:Hp; [|unchanged].
  destruct (bool_decide_reflect (ss_state (sl_image sl) = SegmentState_Evicting)) as [Hst|];
    [|unchanged].
  destruct (N.eqb_spec (sl_leases sl) 0) as [Hl|]; [|unchanged].
  cbn [negb orb]. destruct (checked_add _ _ _) as [gen|] eqn:Hgen;
    [|unchanged].
  apply checked_add_Some in Hgen as [Hmax ->].
  assert (1 <= sg_evicting t) as Hev.
  { rewrite (so_evicting g t Hok). pose proof (weight_ge is_evicting (sg_slots t) _ sl Hp) as W.
    unfold is_evicting in W at 1. rewrite Hst in W. done. }
  rewrite (proj2 (N.eqb_neq (sg_evicting t) 0)) by lia.
  pose proof (so_groups g t Hok id sl Hp) as [[cap v] Hg]%lookup_lt_is_Some.
  assert (ss_used (sl_image sl) <= v) as Hv.
  { rewrite (so_usage g t Hok _ _ _ Hg). pose proof (weight_ge (group_used (sl_group sl)) (sg_slots t) _ sl Hp) as W.
    unfold group_used in W at 1. by rewrite Nat.eqb_refl in W. }
  destruct (sub_usage_moves _ _ _ _ _ (ss_used (sl_image sl)) Hg Hv ltac:(lia)) as (usage & -> & Hus).
  rewrite N.sub_diag in Hus. do 2 eexists. split; [done|].
  set (sl' := with_image sl _). set (t' := mkSegments _ _ _ _ _ _ _ _ _ _).
  destruct (so_slots g t Hok id sl Hp) as [? ? ? ? ? Hfr ?].
  split_and!; [| |done|done|left; split; [done|]].
  - eapply (put_ok g t t' id sl sl'); try done.
    + split; simpl; try done; [lia|lia|apply N.divide_0_r|apply N.divide_0_r].
    + intros q. simpl. case_decide as E; [|done]. subst q. rewrite (so_open g t Hok), (state_at g t id sl) by done. by rewrite Hst.
    + intros q. simpl. case_decide as E; [subst q; by rewrite lookup_insert_eq|by rewrite lookup_insert_ne].
    + unfold is_evicting. simpl. rewrite Hst. simpl. lia.
  - split; [done|]. eapply (put_relates slot_quiet t t' id sl sl'); [apply slot_quiet_refl|done|done|].
    split; [done|]. unfold slot_evolves. simpl. split; [left; lia|]. by rewrite Hl.
  - unfold free_count. simpl. rewrite map_size_insert_None; [lia|].
    destruct (sg_free t !! id) as [[]|] eqn:E; [|done]. apply (so_free g t Hok), (state_at g t id sl) in E; [|done..]. congruence.
Qed.

(** ** Appending *)

Definition sealed_table t (slots : list Slot) : Segments :=
  mkSegments (sg_bytes t) (sg_geometry t) slots (sg_frozen t) (sg_table t) (sg_epoch t) None (sg_free t) (sg_evicting t) (sg_usage t).

Lemma seal_ok g t : seg_ok g t →
  ∃ slots, seal_open (sg_slots t) (sg_open t) = Some slots ∧ seg_ok g (sealed_table t slots) ∧ seg_quiet t (sealed_table t slots) ∧
    (∀ q, sg_open t ≠ Some q → slot_at (sealed_table t slots) q = slot_at t q).
Proof.
  intros Hok. unfold seal_open. destruct (sg_open t) as [p|] eqn:Ho.
  2: { exists (sg_slots t). assert (sealed_table t (sg_slots t) = t) as -> by (destruct t; simpl in *; by subst).
       split_and!; [done|done|apply seg_quiet_refl|done]. }
  destruct (proj1 (so_open g t Hok p) Ho) as (sl & Hp & Hst). unfold slot_at in Hp. rewrite Hp. eexists. split; [done|].
  set (sl' := with_image sl _). set (t' := sealed_table _ _). fold (slot_at t p) in Hp.
  destruct (so_slots g t Hok p sl Hp) as [? ? ? ? ? Hfr ?]. split_and!.
  - eapply (put_ok g t t' p sl sl'); try done.
    + split; simpl; try done. rewrite <- Hfr, Hst. done.
    + intros q. simpl. case_decide as E; [done|]. rewrite Ho. naive_solver.
    + intros q. simpl. case_decide as E; [|done]. subst q. rewrite (so_free g t Hok), (state_at g t p sl) by done. by rewrite Hst.
    + unfold is_evicting. simpl. rewrite Hst. simpl. lia.
    + apply usage_stays.
  - split; [done|]. eapply (put_relates slot_quiet t t' p sl sl'); [apply slot_quiet_refl|done|done|].
    split; [done|]. unfold slot_evolves. simpl. rewrite Hst. split; [right; naive_solver|naive_solver lia].
  - intros q Hq. rewrite (slot_at_put t p sl') by eauto. rewrite decide_False by congruence. done.
Qed.

Lemma seal_insert (slots : list Slot) i x open :
  open ≠ Some (N.of_nat i) → seal_open (<[i := x]> slots) open = (λ s, <[i := x]> s) <$> seal_open slots open.
Proof.
  unfold seal_open. destruct open as [p|]; [|done]. intros Hp. assert (i ≠ N.to_nat p) by (intros ->; by rewrite N2Nat.id in Hp).
  rewrite list_lookup_insert_ne by done. destruct (slots !! N.to_nat p); [|done]. simpl. f_equal. by apply list_insert_insert_ne.
Qed.

(** What [append] leaves at the position it used. *)
Definition appended (bytes len : N) (sl sl' : Slot) : Prop :=
  let im := sl_image sl in
  let used := ss_used im + len in
  sl' = mkSlot (mkSnapshot (ss_id im) (ss_generation im) (if used =? bytes then SegmentState_Sealed else SegmentState_Open) used (ss_retained im))
          (sl_group sl) (sl_leases sl + 1).

(** The last writes of [append]: the slot at [p] of [t1] grows by [len]. *)
Lemma grow_ok g t1 (t' : Segments) p sl sl' len :
  seg_ok g t1 → slot_at t1 p = Some sl → appended (sg_bytes t1) len sl sl' → 0 < len →
  (al_offset (ge_alignment g) | len) → (al_length (ge_alignment g) | len) → ss_used (sl_image sl) + len <= sg_bytes t1 →
  ss_state (sl_image sl) = SegmentState_Open ∨ ss_state (sl_image sl) = SegmentState_Free ∧ sg_open t1 = None →
  sg_slots t' = put_slot t1 p sl' → table_same t1 t' →
  sg_open t' = (if ss_used (sl_image sl) + len =? sg_bytes t1 then None else Some p) →
  sg_free t' = delete p (sg_free t1) → sg_evicting t' = sg_evicting t1 →
  usage_moves (sg_usage t1) (sg_usage t') (sl_group sl) (ss_used (sl_image sl)) (ss_used (sl_image sl) + len) →
  seg_ok g t' ∧ seg_evolves t1 t'.
Proof.
  intros Hok Hp Ha Hlen Hd1 Hd2 Hfit Hst Hs Hsame Hopen Hfree Hev Hus. red in Ha.
  destruct (so_slots g t1 Hok p sl Hp) as [Hid Hgen Hused Ho Hl Hfr Hop].
  assert (∀ q, sg_open t1 = Some q → q = p) as Honly.
  { intros q Hq. destruct Hst as [Hst|[_ Hn]]; [|congruence].
    assert (sg_open t1 = Some p) by (apply (so_open g t1 Hok); by exists sl). congruence. }
  split.
  - destruct Hsame as (Hb & Hg & _). eapply (put_ok g t1 t' p sl sl'); try done.
    + subst sl'. split; simpl; [done|done|done|by apply N.divide_add_r|by apply N.divide_add_r| |]; case_match eqn:E; simpl; try done.
      all: first [apply N.eqb_eq in E|apply N.eqb_neq in E]; (split; intros; (done || lia)) || (intros; lia).
    + by subst sl'.
    + intros q. subst sl'. simpl. rewrite Hopen. case_decide as E.
      * subst q. by case_match.
      * split; [case_match; congruence|]. intros ?%Honly. done.
    + intros q. subst sl'. simpl. rewrite Hfree. case_decide as E; [subst q; rewrite lookup_delete_eq|by rewrite lookup_delete_ne].
      by case_match.
    + rewrite Hev. unfold is_evicting. subst sl'. simpl. destruct Hst as [->|[-> _]]; case_match; done.
    + by subst sl'.
  - split; [done|]. eapply (put_relates slot_evolves t1 t' p sl sl'); [apply slot_evolves_refl|done|done|].
    subst sl'. unfold slot_evolves. simpl. split; [right|].
    + split_and!; [done|by case_match|]. intros _. destruct Hst as [|[]]; [right; split; [done|lia]|by left].
    + intros _. split_and!; [done|lia|by case_match].
Qed.

Definition leases_at t (q : N) : option N := sl_leases <$> slot_at t q.

Lemma quiet_leases t t' q : seg_quiet t t' → leases_at t' q = leases_at t q.
Proof.
  intros [_ F]. unfold leases_at, slot_at. destruct (sg_slots t !! N.to_nat q) as [sl|] eqn:E.
  - destruct (Forall2_lookup_l _ _ _ _ _ F E) as (sl' & -> & [E' _]). simpl. by rewrite E'.
  - destruct (sg_slots t' !! N.to_nat q) as [sl'|] eqn:E'; [|done].
    destruct (Forall2_lookup_r _ _ _ _ _ F E') as (sl & ? & _). congruence.
Qed.

Lemma slot_fits g t p sl : geometry_ok g → seg_ok g t → slot_at t p = Some sl → p * sg_bytes t + sg_bytes t <= U64_MAX.
Proof.
  intros Hg Hok Hp%lookup_lt_Some. pose proof (go_total g Hg) as Ht. rewrite (so_bytes g t Hok) in Ht.
  pose proof (so_length g t Hok) as Hl. assert (p + 1 <= ge_segment_count g) by lia. nia.
Qed.

Definition lease_of g t (p : N) sl (used : N) : SegmentLease :=
  mkLease p (ss_generation (sl_image sl)) (sg_table t) g (p * sg_bytes t) (p * sg_bytes t + used).

Lemma take_lease_ok g t p sl used : geometry_ok g → seg_ok g t → slot_at t p = Some sl → used <= sg_bytes t →
  take_lease t sl used =
    if sl_leases sl + 1 <=? USIZE_MAX then Ok (lease_of g t p sl used, sl_leases sl + 1) else Err SegError_Busy.
Proof.
  intros Hg Hok Hp Hu. pose proof (slot_fits g t p sl Hg Hok Hp) as Hfit. unfold take_lease.
  rewrite (io_id _ _ _ _ (so_slots g t Hok p sl Hp)), (so_geometry g t Hok).
  rewrite (checked_mul_le U64_MAX p) by lia.
  rewrite (checked_add_le U64_MAX _ used) by lia.
  unfold checked_add. by destruct (_ <=? USIZE_MAX).
Qed.

Definition can_append g t (p len : N) sl (fresh : bool) : Prop :=
  slot_at t p = Some sl ∧ 0 < len ∧ alignment_extent (ge_alignment g) 0 len = Ok (mkExtent 0 len) ∧
  ss_used (sl_image sl) + len <= sg_bytes t ∧
  (fresh = false ∧ ss_state (sl_image sl) = SegmentState_Open ∨ fresh = true ∧ ss_state (sl_image sl) = SegmentState_Free).

(** The checks of [append] that precede its writes all pass, but for the lease counter. *)
Lemma append_at_checks g t p len sl fresh : geometry_ok g → seg_ok g t → can_append g t p len sl fresh →
  let used := ss_used (sl_image sl) + len in
  append_at t (ge_alignment g) len p fresh =
    if sl_leases sl + 1 <=? USIZE_MAX then
      let slots := <[N.to_nat p := mkSlot (sl_image sl) (sl_group sl) (sl_leases sl + 1)]> (sg_slots t) in
      match (if fresh then seal_open slots (sg_open t) else Some slots) with
      | None => None
      | Some slots =>
          match slots !! N.to_nat p, add_usage (sg_usage t) (sl_group sl) len with
          | Some sl', Some usage =>
              let im := mkSnapshot p (ss_generation (sl_image sl)) (if used =? sg_bytes t then SegmentState_Sealed else SegmentState_Open)
                          used (ss_retained (sl_image sl)) in
              Some (Ok (lease_of g t p sl used, mkExtent (p * sg_bytes t + ss_used (sl_image sl)) len),
                    mkSegments (sg_bytes t) (sg_geometry t) (<[N.to_nat p := with_image sl' im]> slots) (sg_frozen t) (sg_table t)
                      (sg_epoch t) (if used =? sg_bytes t then None else Some p)
                      (if fresh then delete p (sg_free t) else sg_free t) (sg_evicting t) usage)
          | _, _ => None
          end
      end
    else Some (Err SegError_Busy, t).
Proof.
  intros Hg Hok (Hp & Hlen & Hal & Hfit & _). simpl. pose proof (slot_fits g t p sl Hg Hok Hp) as Hmax.
  destruct (so_slots g t Hok p sl Hp) as [Hid _ _ Ho _ _ _]. unfold append_at. rewrite Hp, Hid.
  rewrite (checked_mul_le U64_MAX p) by lia. cbn [mbind option_bind].
  rewrite (checked_add_le U64_MAX _ (ss_used (sl_image sl))) by lia.
  rewrite alignment_extent_at; [|apply Hg|done| |lia].
  2: { apply N.divide_add_r; [|done]. apply N.divide_mul_r. rewrite <- (so_bytes g t Hok). apply Hg. }
  rewrite (checked_add_le U64_MAX _ len) by lia.
  rewrite (take_lease_ok g t p sl) by (done || lia). by destruct (_ <=? USIZE_MAX).
Qed.

Lemma append_at_ok g t p len sl fresh : geometry_ok g → seg_ok g t → can_append g t p len sl fresh →
  append_at t (ge_alignment g) len p fresh = Some (Err SegError_Busy, t) ∧ USIZE_MAX <= sl_leases sl ∨
  ∃ t' sl', append_at t (ge_alignment g) len p fresh =
      Some (Ok (lease_of g t p sl (ss_used (sl_image sl) + len), mkExtent (p * sg_bytes t + ss_used (sl_image sl)) len), t') ∧
    seg_ok g t' ∧ seg_evolves t t' ∧ appended (sg_bytes t) len sl sl' ∧ slot_at t' p = Some sl' ∧
    ∀ q, q ≠ p → leases_at t' q = leases_at t q.
Proof.
  intros Hg Hok Hcan. rewrite (append_at_checks g t p len sl fresh) by done.
  destruct (N.leb_spec (sl_leases sl + 1) USIZE_MAX) as [_|]; [right|left; split; [done|lia]].
  destruct Hcan as (Hp & Hlen & Hal & Hfit & Hst).
  destruct (alignment_extent_Ok _ _ _ _ (go_al g Hg) Hal) as (_ & _ & Hd & _). cbn [ex_length] in Hd.
  assert ((al_offset (ge_alignment g) | len)) by (eapply N.divide_trans; [apply N.divide_lcm_l|exact Hd]).
  assert ((al_length (ge_alignment g) | len)) by (eapply N.divide_trans; [apply N.divide_lcm_r|exact Hd]).
  destruct (add_usage_moves _ _ len (ss_used (sl_image sl)) (so_groups g t Hok p sl Hp)) as (usage & -> & Hus).
  pose proof (io_id _ _ _ _ (so_slots g t Hok p sl Hp)) as Hid.
  set (sl1 := mkSlot (sl_image sl) (sl_group sl) (sl_leases sl + 1)).
  set (im := mkSnapshot p _ _ _ _). set (sl' := with_image sl1 im).
  assert (appended (sg_bytes t) len sl sl') as Ha by (red; by rewrite Hid).
  destruct Hst as [[-> Hst]|[-> Hst]]; cbv beta iota zeta.
  - rewrite list_lookup_insert_eq by (by eapply lookup_lt_Some). cbv beta iota zeta. fold sl1 im sl'.
    rewrite list_insert_insert_eq. eexists _, sl'. split; [done|]. set (t' := mkSegments _ _ _ _ _ _ _ _ _ _).
    assert (sg_free t !! p = None) as Hfr.
    { destruct (sg_free t !! p) as [[]|] eqn:E; [|done]. apply (so_free g t Hok), (state_at g t p sl) in E; [congruence|done..]. }
    destruct (grow_ok g t t' p sl sl' len) as [H1 H2]; try done; [by left|by simpl; rewrite delete_id|].
    split_and!; [done|done|done| |]; [|intros q Hq; unfold leases_at]; rewrite (slot_at_put t p sl') by eauto; by case_decide.
  - assert (sg_open t ≠ Some p) as Hne.
    { intros E%(so_open g t Hok). apply (state_at g t p sl) in E; [congruence|done..]. }
    rewrite seal_insert by (by rewrite N2Nat.id). destruct (seal_ok g t Hok) as (slots & -> & Hok1 & Hq1 & Hat). cbn [fmap option_fmap option_map].
    set (t1 := sealed_table t slots) in *. assert (slot_at t1 p = Some sl) as Hp1 by (by rewrite Hat).
    rewrite list_lookup_insert_eq by (by eapply (lookup_lt_Some slots)). cbv beta iota zeta. fold sl1 im sl'.
    rewrite list_insert_insert_eq. eexists _, sl'. split; [done|]. set (t' := mkSegments _ _ _ _ _ _ _ _ _ _).
    destruct (grow_ok g t1 t' p sl sl' len) as [H1 H2]; try done; [by right|].
    split_and!; [done|by eapply quiet_then_evolves|done| |].
    + rewrite (slot_at_put t1 p sl') by eauto. by rewrite decide_True.
    + intros q Hq. rewrite <- (quiet_leases t t1 q Hq1). unfold leases_at. rewrite (slot_at_put t1 p sl') by eauto. by rewrite decide_False.
Qed.

Lemma first_free_Some t p : first_free t = Some p → sg_free t !! p = Some ().
Proof.
  unfold first_free. destruct (btree_iter ord_le (sg_free t)) as [|[q []] l] eqn:E; [done|]. intros [= ->].
  apply (elem_of_btree_iter ord_le). rewrite E. set_solver.
Qed.

Lemma usable_open_ok g t len : seg_ok g t →
  ∃ u, usable_open t len = Some u ∧
    ∀ p, u = Some p → ∃ sl, slot_at t p = Some sl ∧ ss_state (sl_image sl) = SegmentState_Open ∧ ss_used (sl_image sl) + len <= sg_bytes t.
Proof.
  intros Hok. unfold usable_open. destruct (sg_open t) as [q|] eqn:Ho; [|by eexists].
  destruct (proj1 (so_open g t Hok q) Ho) as (sl & Hq & Hst). rewrite Hq.
  pose proof (io_used _ _ _ _ (so_slots g t Hok q sl Hq)). rewrite (proj2 (N.ltb_ge _ _)) by done.
  eexists. split; [done|]. intros p. destruct (N.leb_spec len (sg_bytes t - ss_used (sl_image sl))); [|done].
  intros [= <-]. exists sl. split_and!; [done|done|lia].
Qed.

(** The result of a successful [append]. *)
Definition append_result g t (t' : Segments) (len : N) (r : SegmentLease * Extent) : Prop :=
  ∃ p sl sl', slot_at t p = Some sl ∧ slot_at t' p = Some sl' ∧ appended (sg_bytes t) len sl sl' ∧
    (ss_state (sl_image sl) = SegmentState_Open ∨ ss_state (sl_image sl) = SegmentState_Free) ∧
    0 < len ∧ ss_used (sl_image sl) + len <= sg_bytes t ∧
    r = (lease_of g t p sl (ss_used (sl_image sl) + len), mkExtent (p * sg_bytes t + ss_used (sl_image sl)) len) ∧
    ∀ q, q ≠ p → leases_at t' q = leases_at t q.

Lemma can_append_result g t p len sl fresh : geometry_ok g → seg_ok g t → can_append g t p len sl fresh →
  ∃ r t', append_at t (ge_alignment g) len p fresh = Some (r, t') ∧ seg_ok g t' ∧
    match r with Ok a => seg_evolves t t' ∧ append_result g t t' len a | Err _ => seg_quiet t t' end.
Proof.
  intros Hg Hok Hcan. destruct (append_at_ok g t p len sl fresh Hg Hok Hcan) as [[-> _]|(t' & sl' & -> & ? & ? & ? & ? & ?)].
  - do 2 eexists. split; [done|]. split; [done|apply seg_quiet_refl].
  - do 2 eexists. split; [done|]. split; [done|]. split; [done|]. destruct Hcan as (? & ? & ? & ? & ?).
    exists p, sl, sl'. split_and!; try done. naive_solver.
Qed.

Lemma append_ok g t len : geometry_ok g → seg_ok g t →
  ∃ r t', append t len = Some (r, t') ∧ seg_ok g t' ∧
    match r with Ok a => seg_evolves t t' ∧ append_result g t t' len a | Err _ => seg_quiet t t' end.
Proof.
  intros Hg Hok. assert (∀ e, ∃ r t', Some (Err e : result (SegmentLease * Extent) SegError, t) = Some (r, t') ∧ seg_ok g t' ∧
    match r with Ok a => seg_evolves t t' ∧ append_result g t t' len a | Err _ => seg_quiet t t' end) as Herr.
  { intros e. do 2 eexists. split; [done|]. split; [done|apply seg_quiet_refl]. }
  unfold append. destruct (sg_frozen t) eqn:Hfz; [apply Herr|]. rewrite (so_geometry g t Hok).
  destruct (N.eqb_spec len 0); [apply Herr|]. destruct (N.ltb_spec (sg_bytes t) len); [apply Herr|]. cbn [orb].
  destruct (alignment_extent _ 0 len) as [[o l]|] eqn:Hal; [|apply Herr]. cbn [ex_length].
  destruct (N.eqb_spec l len) as [->|]; [|apply Herr]. cbn [negb].
  assert (o = 0) as -> by (by apply alignment_extent_Ok in Hal as [? _]; [|apply Hg]).
  destruct (usable_open_ok g t len Hok) as (u & -> & Hu). destruct u as [p|].
  - destruct (Hu p eq_refl) as (sl & Hp & Hst & Hfit). apply (can_append_result g t p len sl); [done|done|].
    split_and!; [done|lia|done|done|by left].
  - destruct (first_free t) as [p|] eqn:Hf.
    + apply first_free_Some, (so_free g t Hok) in Hf as (sl & Hp & Hst). apply (can_append_result g t p len sl); [done|done|].
      destruct (so_slots g t Hok p sl Hp) as [? ? ? ? ? Hfr ?]. apply Hfr in Hst as Hz. split_and!; [done|lia|done|lia|by right].
    + destruct (seal_ok g t Hok) as (slots & -> & Hok1 & Hq1 & _). exists (Err SegError_Busy), (sealed_table t slots).
      split; [|done]. unfold sealed_table. by rewrite (so_geometry g t Hok), Hfz.
Qed.

(** ** Leases *)

Definition set_leases t (p : N) sl (n : N) : Segments :=
  mkSegments (sg_bytes t) (sg_geometry t) (put_slot t p (mkSlot (sl_image sl) (sl_group sl) n)) (sg_frozen t) (sg_table t)
    (sg_epoch t) (sg_open t) (sg_free t) (sg_evicting t) (sg_usage t).

Lemma set_leases_ok g t p sl n : seg_ok g t → slot_at t p = Some sl →
  seg_ok g (set_leases t p sl n) ∧ seg_evolves t (set_leases t p sl n) ∧
  ∀ q, leases_at (set_leases t p sl n) q = if decide (q = p) then Some n else leases_at t q.
Proof.
  intros Hok Hp. set (sl' := mkSlot (sl_image sl) (sl_group sl) n). set (t' := set_leases t p sl n). split_and!.
  - eapply (put_ok g t t' p sl sl'); try done.
    + exact (so_slots g t Hok p sl Hp).
    + intros q. simpl. case_decide as E; [|done]. subst q. by rewrite (so_open g t Hok), (state_at g t p sl).
    + intros q. simpl. case_decide as E; [|done]. subst q. by rewrite (so_free g t Hok), (state_at g t p sl).
    + apply usage_stays.
  - split; [done|]. eapply (put_relates slot_evolves t t' p sl sl'); [apply slot_evolves_refl|done|done|].
    exact (slot_evolves_refl sl).
  - intros q. unfold leases_at. rewrite (slot_at_put t p sl') by eauto. by case_decide.
Qed.

Lemma segment_lease_ok g t id generation : geometry_ok g → seg_ok g t →
  match segment_lease t id generation with
  | (Err _, t') => t' = t
  | (Ok lease, t') => ∃ sl, slot_at t id = Some sl ∧ ss_generation (sl_image sl) = generation ∧ readable (ss_state (sl_image sl)) = true ∧
      lease = lease_of g t id sl (ss_used (sl_image sl)) ∧ t' = set_leases t id sl (sl_leases sl + 1)
  end.
Proof.
  intros Hg Hok. unfold segment_lease. destruct (slot_at t id) as [sl|] eqn:Hp; [|done].
  destruct (N.eqb_spec (ss_generation (sl_image sl)) generation) as [Hgen|]; [|done].
  destruct (readable _) eqn:Hr; [|done]. cbn [negb orb].
  rewrite (take_lease_ok g t id sl) by (done || exact (io_used _ _ _ _ (so_slots g t Hok id sl Hp))).
  destruct (_ <=? USIZE_MAX); [|done]. by exists sl.
Qed.

(** ** Restoring *)

Lemma image_corrupt_false bytes al i im : al_ok al → image_corrupt bytes al i im = false →
  (ss_state im = SegmentState_Open → ss_used im ≠ bytes) → image_ok bytes al i im.
Proof.
  intros [Ho Hl] H Hop. unfold image_corrupt in H. rewrite !orb_false_iff, !negb_false_iff in H.
  destruct H as ((((((H1 & H2) & H3) & H4) & H5) & H6) & H7).
  apply N.eqb_eq in H1. apply N.eqb_neq in H2. apply N.ltb_ge in H3.
  apply is_multiple_of_spec in H4; [|done]. apply is_multiple_of_spec in H5; [|done].
  split; [done|lia|done|done|done| |intros ?%Hop; lia].
  destruct (bool_decide_reflect (ss_state im = SegmentState_Free)), (N.eqb_spec (ss_used im) 0); simpl in *; naive_solver.
Qed.

Lemma validate_images_ok bytes al i open images : al_ok al → validate_images bytes al i open images = Ok () →
  ∀ k im, images !! k = Some im → image_ok bytes al (i + N.of_nat k) im.
Proof.
  intros Hal. revert i open. induction images as [|im images IH]; intros i open; [done|]. simpl.
  destruct (image_corrupt bytes al i im) eqn:Hc; [done|].
  assert (∀ open', validate_images bytes al (i + 1) open' images = Ok () → (ss_state im = SegmentState_Open → ss_used im ≠ bytes) →
    ∀ k im0, (im :: images) !! k = Some im0 → image_ok bytes al (i + N.of_nat k) im0) as Hcons.
  { intros open' Hv Ho [|k] im0 Hk.
    - simplify_eq/=. rewrite N.add_0_r. by apply image_corrupt_false.
    - replace (i + N.of_nat (S k)) with (i + 1 + N.of_nat k) by lia. by eapply IH. }
  case_bool_decide as Hst; [|intros Hv; eapply Hcons; [exact Hv|done]].
  destruct open; [done|]. destruct (N.eqb_spec (ss_used im) bytes); [done|]. intros Hv. eapply Hcons; [exact Hv|done].
Qed.

(** The slot that [restore] publishes. *)
Definition restored_slot (im : SegmentSnapshot) sl : Slot :=
  let generation := match restored_generation im (sl_image sl) with Ok g => g | Err _ => 0 end in
  with_image sl (mkSnapshot (ss_id im) generation (sealed_state (ss_state im)) (ss_used im) []).

Lemma restored_generations_ok pairs : restored_generations pairs = Ok () →
  ∀ im sl, (im, sl) ∈ pairs → ∃ g, restored_generation im (sl_image sl) = Ok g.
Proof.
  induction pairs as [|[im l] pairs IH]; simpl; [by intros _ ??; rewrite elem_of_nil|].
  destruct (restored_generation im (sl_image l)) as [g|] eqn:E; [|done]. intros Hr im0 sl0 [[= -> ->]|Hin]%elem_of_cons; eauto.
Qed.

Lemma restore_slots_spec slots images free evicting usage :
  length images = length slots → (∀ im sl, (im, sl) ∈ zip images slots → ∃ g, restored_generation im (sl_image sl) = Ok g) →
  (∀ sl, sl ∈ slots → (sl_group sl < length usage)%nat) →
  ∃ free' evicting' usage', let slots' := zip_with restored_slot images slots in
    restore_slots slots images free evicting usage = Some (Ok (), slots', free', evicting', usage') ∧
    (∀ q, free' !! q = Some () ↔ free !! q = Some () ∨ ∃ sl, sl ∈ slots' ∧ ss_id (sl_image sl) = q ∧ ss_state (sl_image sl) = SegmentState_Free) ∧
    evicting' = evicting + weight is_evicting slots' ∧ length usage' = length usage ∧
    ∀ k cap v', usage' !! k = Some (cap, v') → ∃ v, usage !! k = Some (cap, v) ∧ v' = v + weight (group_used k) slots'.
Proof.
  revert images free evicting usage. induction slots as [|sl slots IH]; intros [|im images] free evicting usage Hlen Hgen Hgr; simplify_eq/=.
  { exists free, evicting, usage. split_and!; [done|set_solver|lia|done|]. intros k cap v' ?. exists v'. split; [done|lia]. }
  destruct (Hgen im sl) as [gen Hg]; [set_solver|]. rewrite Hg.
  destruct (add_usage_moves usage (sl_group sl) (ss_used im) 0) as (usage1 & -> & Hl1 & Hu1); [set_solver|].
  set (free1 := if bool_decide _ then <[ss_id im := ()]> free else free).
  set (ev1 := if bool_decide _ then evicting + 1 else evicting).
  destruct (IH images free1 ev1 usage1) as (free' & ev' & usage' & Heq & Hfree & Hev & Hlu & Hus); [done|set_solver|rewrite Hl1; set_solver|].
  rewrite Heq. exists free', ev', usage'.
  assert (restored_slot im sl = with_image sl (mkSnapshot (ss_id im) gen (sealed_state (ss_state im)) (ss_used im) [])) as Hr
    by (unfold restored_slot; by rewrite Hg).
  split_and!; [by rewrite Hr| | |congruence|].
  - intros q. rewrite Hfree. setoid_rewrite elem_of_cons. rewrite Hr. subst free1.
    case_bool_decide as E; [destruct (decide (ss_id im = q)) as [<-|]; [rewrite lookup_insert_eq|rewrite lookup_insert_ne by done]|]; simpl; naive_solver.
  - rewrite Hev, Hr. subst ev1. unfold is_evicting at 2. simpl. case_bool_decide; unfold weight; lia.
  - intros k cap v' (v1 & (v & Hv & Hm)%Hu1 & ->)%Hus. exists v. split; [done|]. rewrite Hr. unfold group_used at 2. simpl.
    unfold weight in *. case_match; lia.
Qed.

Lemma sealed_state_not_open st : sealed_state st ≠ SegmentState_Open.
Proof. by destruct st. Qed.

Lemma sealed_state_free st : sealed_state st = SegmentState_Free ↔ st = SegmentState_Free.
Proof. by destruct st. Qed.

(** A restored slot that stays at its generation is not reopened, and not freed. *)
Lemma restored_slot_ok bytes al i im sl g : image_ok bytes al i im → restored_generation im (sl_image sl) = Ok g →
  ss_generation (sl_image sl) <= ss_generation im → sl_leases sl = 0 →
  image_ok bytes al i (sl_image (restored_slot im sl)) ∧ slot_quiet sl (restored_slot im sl).
Proof.
  intros [? ? ? ? ? Hfr ?] Hg Hst Hl. unfold restored_slot. rewrite Hg. unfold restored_generation in Hg.
  assert (ss_generation (sl_image sl) < g ∨ ss_generation (sl_image sl) = g ∧
    (ss_state im = SegmentState_Free → ss_state (sl_image sl) = SegmentState_Free)) as Hcase.
  { revert Hg. case_bool_decide; [|cbn [andb]; intros [= <-]; destruct (N.eq_dec (ss_generation (sl_image sl)) (ss_generation im)); [by right|left; lia]].
    destruct (N.eqb_spec (ss_generation im) (ss_generation (sl_image sl))); [|cbn [andb]; intros [= <-]; left; lia].
    case_bool_decide; cbn [andb negb]; [intros [= <-]; by right|].
    destruct (checked_add _ _ _) eqn:E; [|done]. apply checked_add_Some in E as [_ ->]. intros [= <-]. left. lia. }
  assert (1 <= g) by (destruct Hcase as [|[? _]]; [lia|]; subst g;
    revert Hg; destruct (_ && _); [destruct (checked_add _ _ _) eqn:E; [|done]; apply checked_add_Some in E as [_ ->]|]; intros [=]; lia).
  split; [split; simpl; try done; [by rewrite sealed_state_free|by intros ?%sealed_state_not_open]|].
  split; [done|]. split; simpl; [|by rewrite Hl]. destruct Hcase as [|[-> Hf]]; [by left|right].
  split_and!; [done|by rewrite sealed_state_free|by intros ?%sealed_state_not_open].
Qed.

Lemma validate_restore_epoch_ok g t images epoch : geometry_ok g → seg_ok g t → validate_restore_epoch t images = Ok epoch →
  length images = length (sg_slots t) ∧ sg_frozen t = false ∧ epoch = sg_epoch t + 1 ∧
  ∀ k im sl, images !! k = Some im → sg_slots t !! k = Some sl →
    image_ok (sg_bytes t) (ge_alignment g) (N.of_nat k) im ∧ (∃ gen, restored_generation im (sl_image sl) = Ok gen) ∧
    ss_generation (sl_image sl) <= ss_generation im ∧ sl_leases sl = 0.
Proof.
  intros Hg Hok. unfold validate_restore_epoch. destruct (sg_frozen t); [done|].
  destruct (existsb _ (sg_slots t)) eqn:Hl; [done|]. destruct (Nat.eqb_spec (length images) (length (sg_slots t))) as [Hlen|]; [|done].
  cbn [negb]. rewrite (so_geometry g t Hok). destruct (validate_images _ _ _ _ _) as [[]|] eqn:Hv; [|done].
  destruct (existsb _ (zip _ _)) eqn:Hst; [done|]. destruct (restored_generations _) as [[]|] eqn:Hr; [|done].
  destruct (checked_add _ _ _) eqn:He; [|done]. apply checked_add_Some in He as [_ ->]. intros [= <-].
  split_and!; [done|done|done|]. intros k im sl Him Hsl.
  assert ((im, sl) ∈ zip images (sg_slots t)) as Hin.
  { apply list_elem_of_lookup. exists k. rewrite lookup_zip_with, Him. simpl. by rewrite Hsl. }
  split_and!.
  - exact (validate_images_ok _ _ 0 _ _ (go_al g Hg) Hv k im Him).
  - by eapply restored_generations_ok.
  - apply not_true_iff_false in Hst. rewrite existsb_exists in Hst. destruct (N.ltb_spec (ss_generation im) (ss_generation (sl_image sl))); [|done].
    destruct Hst. exists (im, sl). split; [by apply list_elem_of_In|by apply N.ltb_lt].
  - apply not_true_iff_false in Hl. rewrite existsb_exists in Hl. destruct (N.eqb_spec (sl_leases sl) 0) as [|Hne]; [done|].
    destruct Hl. exists sl. split; [apply list_elem_of_In; by eapply list_elem_of_lookup_2|]. by apply negb_true_iff, N.eqb_neq.
Qed.

Definition restored_table t (images : list SegmentSnapshot) (free : gmap N ()) (evicting : N) (usage : list (N * N)) : Segments :=
  mkSegments (sg_bytes t) (sg_geometry t) (zip_with restored_slot images (sg_slots t)) (sg_frozen t) (sg_table t) (sg_epoch t + 1) None
    free evicting usage.

Lemma restore_ok g t images : geometry_ok g → seg_ok g t →
  (∃ e, restore t images = Some (Err e, t)) ∨
  ∃ free evicting usage, let t' := restored_table t images free evicting usage in
    restore t images = Some (Ok (), t') ∧ seg_ok g t' ∧ seg_quiet t t'.
Proof.
  intros Hg Hok. unfold restore. destruct (validate_restore_epoch t images) as [epoch|e] eqn:Hv; [right|left; by exists e].
  destruct (validate_restore_epoch_ok g t images epoch Hg Hok Hv) as (Hlen & Hfz & -> & Hall).
  set (usage0 := _ <$> sg_usage t). assert (length usage0 = length (sg_usage t)) as Hl0 by apply length_fmap.
  destruct (restore_slots_spec (sg_slots t) images ∅ 0 usage0 Hlen) as (free & ev & usage & Heq & Hfree & Hev & Hlu & Hus).
  { intros im sl (k & Hk)%list_elem_of_lookup. rewrite lookup_zip_with in Hk.
    destruct (images !! k) as [im0|] eqn:E1, (sg_slots t !! k) as [sl0|] eqn:E2; simplify_eq/=. apply (Hall k _ _ E1 E2). }
  { intros sl (k & Hk)%list_elem_of_lookup. rewrite Hl0. apply (so_groups g t Hok (N.of_nat k)). unfold slot_at. by rewrite Nat2N.id. }
  rewrite Heq. exists free, ev, usage. split; [done|]. set (t' := restored_table t images free ev usage).
  assert (∀ k sl', sg_slots t' !! k = Some sl' → ∃ im sl, images !! k = Some im ∧ sg_slots t !! k = Some sl ∧ sl' = restored_slot im sl ∧
    image_ok (sg_bytes t) (ge_alignment g) (N.of_nat k) (sl_image sl') ∧ slot_quiet sl sl') as Hat.
  { intros k sl'. simpl. rewrite lookup_zip_with. destruct (images !! k) as [im|] eqn:E1, (sg_slots t !! k) as [sl|] eqn:E2; simpl; try done.
    intros [= <-]. exists im, sl. destruct (Hall k im sl E1 E2) as (? & [gen ?] & ? & ?).
    split_and!; [done..| |]; by eapply (restored_slot_ok _ _ _ im sl gen). }
  assert (length (sg_slots t') = length (sg_slots t)) as Hls by (simpl; rewrite length_zip_with; lia).
  split.
  - split; simpl; [apply Hok|apply Hok|by rewrite <- (so_length g t Hok), <- Hls| | | | |by rewrite Hev|].
    + intros p sl' Hp. apply Hat in Hp as (im & sl & _ & _ & _ & Hi & _). by rewrite N2Nat.id in Hi.
    + intros p sl' Hp. apply Hat in Hp as (im & sl & _ & Hsl & -> & _). rewrite Hlu, Hl0. exact (so_groups g t Hok p sl Hsl).
    + intros p. split; [done|]. intros (sl' & Hp & Hst). apply Hat in Hp as (im & sl & _ & _ & -> & _).
      by apply sealed_state_not_open in Hst.
    + intros p. rewrite Hfree, lookup_empty. split.
      * intros [?|(sl' & (k & Hk)%list_elem_of_lookup & Hid & Hst)]; [done|]. pose proof (Hat k sl' Hk) as (_ & _ & _ & _ & _ & Hi & _).
        rewrite (io_id _ _ _ _ Hi) in Hid. exists sl'. split; [|done]. unfold slot_at. rewrite <- Hid, Nat2N.id. done.
      * intros (sl' & Hp & Hst). right. exists sl'. pose proof (Hat _ sl' Hp) as (_ & _ & _ & _ & _ & Hi & _).
        split_and!; [apply list_elem_of_lookup; by eexists| |done]. by rewrite (io_id _ _ _ _ Hi), N2Nat.id.
    + intros k cap v' (v & Hv0 & ->)%Hus. subst usage0. rewrite list_lookup_fmap in Hv0.
      destruct (sg_usage t !! k) as [[]|]; simplify_eq/=. done.
  - split; [done|]. apply Forall2_same_length_lookup_2; [done|]. intros k sl sl' Hk Hk'.
    apply Hat in Hk' as (im & sl0 & _ & Hsl & _ & _ & Hq). by simplify_eq.
Qed.

(** ** Building a table *)

Lemma geometry_new_ok slab bytes count al g : al_ok al → geometry_new slab bytes count al = Ok g →
  g = mkGeometry slab bytes count al ∧ geometry_ok g.
Proof.
  intros Hal. unfold geometry_new. destruct (_ || _) eqn:E; [done|]. intros [= <-]. split; [done|].
  rewrite !orb_false_iff, !negb_false_iff in E. destruct E as (((((((E1 & E2) & E3) & E4) & E5) & E6) & E7) & E8).
  apply N.eqb_neq in E1. destruct Hal as [Ho Hl]. apply is_multiple_of_spec in E6; [|done]. apply is_multiple_of_spec in E7; [|done].
  destruct (checked_mul _ _ _) eqn:E; [|done]. apply checked_mul_Some in E as [? _]. split; done.
Qed.

Lemma configure_table_ok table bytes capacity count al t : al_ok al →
  configure_table (segments_new table bytes) capacity count al = (Ok (), t) →
  ∃ g, geometry_ok g ∧ seg_ok g t ∧ sg_frozen t = false ∧ (∀ p sl, slot_at t p = Some sl → sl_leases sl = 0) ∧
    sg_table t = table ∧ g = mkGeometry capacity bytes count al.
Proof.
  intros Hal. unfold configure_table. simpl. destruct (MAX_SEGMENTS <? count); [done|].
  destruct (geometry_new _ _ _ _) as [g|] eqn:Hg; [|done]. apply geometry_new_ok in Hg as [-> Hgo]; [|done]. intros [= <-].
  eexists. split; [done|]. set (slots := _ <$> (_ <$> seq 0 (N.to_nat count))).
  assert (∀ k sl, slots !! k = Some sl ↔ (k < N.to_nat count)%nat ∧ sl = mkSlot (free_image (N.of_nat k)) 0 0) as Hs.
  { intros k sl. subst slots. rewrite !list_lookup_fmap. destruct (decide (k < N.to_nat count)%nat) as [Hk|Hk].
    - rewrite lookup_seq_lt by done. simpl. naive_solver.
    - rewrite lookup_seq_ge by lia. naive_solver. }
  split_and!; [|done| |done|done].
  - split; simpl; [done|done|subst slots; rewrite !length_fmap, length_seq; lia| | | | | |].
    + intros p sl [_ ->]%Hs. split; simpl; try done; [by rewrite N2Nat.id|lia|apply N.divide_0_r|apply N.divide_0_r].
    + intros p sl [_ ->]%Hs. simpl. lia.
    + intros p. split; [done|]. by intros (sl & [_ ->]%Hs & ?).
    + intros p. rewrite <- elem_of_list_to_map.
      2: { rewrite <- list_fmap_compose. simpl. rewrite list_fmap_id. apply NoDup_fmap; [apply _|apply NoDup_seq]. }
      split.
      * intros (q & [= <-] & (k & -> & Hk)%list_elem_of_fmap)%list_elem_of_fmap. apply elem_of_seq in Hk.
        exists (mkSlot (free_image (N.of_nat k)) 0 0). split; [|done]. apply Hs. rewrite Nat2N.id. split; [lia|done].
      * intros (sl & [Hk _]%Hs & _). apply list_elem_of_fmap. exists p. split; [done|].
        apply list_elem_of_fmap. exists (N.to_nat p). split; [by rewrite N2Nat.id|]. apply elem_of_seq. lia.
    + rewrite weight_zero; [done|]. intros sl (k & [_ ->]%Hs)%list_elem_of_lookup. done.
    + intros [|k] cap v; [|done]. intros [= <- <-]. symmetry. apply weight_zero. by intros sl (k & [_ ->]%Hs)%list_elem_of_lookup.
  - by intros p sl [_ ->]%Hs.
Qed.

(** ** Usage groups *)

Definition regrouped (lo hi : nat) (sl sl' : Slot) : Prop :=
  sl_image sl' = sl_image sl ∧ sl_leases sl' = sl_leases sl ∧ (lo <= sl_group sl' < hi)%nat.

Lemma regroup_block group count (slots : list Slot) :
  Forall2 (regrouped group (S group)) (take count slots) ((λ sl, mkSlot (sl_image sl) group (sl_leases sl)) <$> take count slots).
Proof. apply Forall2_fmap_r, Forall_Forall2_diag, Forall_forall. intros sl _. split_and!; simpl; (done || lia). Qed.

Lemma weight_block k group (slots : list Slot) :
  weight (group_used k) ((λ sl, mkSlot (sl_image sl) group (sl_leases sl)) <$> slots) =
    if (group =? k)%nat then foldr (λ sl n, ss_used (sl_image sl) + n) 0 ((λ sl, mkSlot (sl_image sl) group (sl_leases sl)) <$> slots) else 0.
Proof.
  induction slots as [|sl slots IH]; [by destruct (_ =? _)%nat|]. rewrite !fmap_cons. unfold weight in *. cbn [foldr]. rewrite IH.
  unfold group_used. cbn [sl_group sl_image]. by destruct (_ =? _)%nat.
Qed.

Lemma weight_outside k lo hi (slots slots' : list Slot) :
  Forall2 (regrouped lo hi) slots slots' → (k < lo ∨ hi <= k)%nat → weight (group_used k) slots' = 0.
Proof.
  intros F Hk. apply weight_zero. intros sl (i & Hi)%list_elem_of_lookup. destruct (Forall2_lookup_r _ _ _ _ _ F Hi) as (? & _ & _ & _ & ?).
  unfold group_used. by rewrite (proj2 (Nat.eqb_neq _ _)) by lia.
Qed.

Lemma usage_groups_spec bytes group slots counts : sum_list counts = length slots →
  let '(slots', usage) := usage_groups bytes group slots counts in
  Forall2 (regrouped group (group + length counts)) slots slots' ∧ length usage = length counts ∧
  ∀ k cap v, usage !! k = Some (cap, v) → v = weight (group_used (group + k)) slots'.
Proof.
  revert group slots. induction counts as [|count counts IH]; intros group slots Hsum; simpl in *.
  { destruct slots; [|done]. split_and!; [constructor|done|done]. }
  specialize (IH (S group) (drop count slots)). rewrite length_drop in IH. specialize (IH ltac:(lia)).
  destruct (usage_groups bytes (S group) (drop count slots) counts) as [rest usage]. destruct IH as (F & Hl & Hu).
  pose proof (regroup_block group count slots) as B. set (here := _ <$> take count slots) in *.
  split_and!; [|simpl; lia|].
  - rewrite <- (take_drop count slots) at 1. apply Forall2_app; [eapply Forall2_impl; [exact B|]|eapply Forall2_impl; [exact F|]].
    all: intros ?? (? & ? & ?); split_and!; (done || lia).
  - intros [|k] cap v; rewrite weight_app.
    + intros [= _ <-]. rewrite Nat.add_0_r, (weight_outside group _ _ _ _ F) by lia. subst here. rewrite weight_block, Nat.eqb_refl. lia.
    + intros Hk. rewrite (weight_outside _ _ _ _ _ B) by lia. rewrite (Hu k cap v Hk). simpl. by rewrite Nat.add_succ_r.
Qed.

Lemma regrouped_quiet lo hi sl sl' : regrouped lo hi sl sl' → slot_quiet sl sl'.
Proof. intros (Hi & Hl & _). split; [done|]. unfold slot_evolves. rewrite Hi. exact (slot_evolves_refl sl). Qed.

Lemma weight_evicting lo hi slots slots' : Forall2 (regrouped lo hi) slots slots' → weight is_evicting slots' = weight is_evicting slots.
Proof. induction 1 as [|? ? ? ? (Hi & _) _ IH]; simpl; [done|]. unfold weight in *. unfold is_evicting at 1 3. by rewrite Hi, IH. Qed.

Lemma configure_usage_groups_ok g t counts : seg_ok g t →
  seg_ok g (configure_usage_groups t counts).2 ∧ seg_quiet t (configure_usage_groups t counts).2.
Proof.
  intros Hok. unfold configure_usage_groups. destruct (_ || _) eqn:E; [split; [done|apply seg_quiet_refl]|].
  rewrite orb_false_iff, negb_false_iff in E. destruct E as [_ Hsum%Nat.eqb_eq].
  pose proof (usage_groups_spec (sg_bytes t) 0 (sg_slots t) counts Hsum) as H.
  destruct (usage_groups _ _ _ _) as [slots' usage]. destruct H as (F & Hl & Hu). cbn [snd]. set (t' := mkSegments _ _ _ _ _ _ _ _ _ _).
  assert (∀ p sl', slot_at t' p = Some sl' → ∃ sl, slot_at t p = Some sl ∧ regrouped 0 (0 + length counts) sl sl') as Hr
    by (intros p sl' Hp; exact (Forall2_lookup_r _ _ _ _ _ F Hp)).
  assert (∀ p st, has_state t' p st ↔ has_state t p st) as Hst.
  { intros p st. split; [intros (sl' & (sl & Hp & Hi & _)%Hr & ?); exists sl; by rewrite <- Hi|].
    intros (sl & Hp & ?). destruct (Forall2_lookup_l _ _ _ _ _ F Hp) as (sl' & Hp' & Hi & _). exists sl'. by rewrite Hi. }
  split.
  - split; [apply Hok|apply Hok| | | | | | |].
    + simpl. rewrite <- (Forall2_length _ _ _ F). apply Hok.
    + intros p sl' (sl & Hp & Hi & _)%Hr. rewrite Hi. by apply Hok.
    + intros p sl' (sl & Hp & _ & _ & ?)%Hr. simpl. lia.
    + intros p. rewrite Hst. apply Hok.
    + intros p. rewrite Hst. apply Hok.
    + simpl. rewrite (weight_evicting _ _ _ _ F). apply Hok.
    + exact Hu.
  - split; [done|]. eapply Forall2_impl; [exact F|]. intros; by eapply regrouped_quiet.
Qed.
