(* ===== verification/SegmentRuns.v ===== *)
(** * Segment allocation: runs

    A table in use: records are appended, leases taken and dropped, segments evicted and recycled,
    tables frozen, restored from images and reclaimed by the clock, in any order.  The world of a
    run is the table, the leases that are outstanding and the reservations made so far; a panic is
    [None].  The mappings and scores of the caller are arbitrary at every reclamation. *)

From S2P Require Import Prelude Segments PageIndex PageIndexRuns SegmentProofs.
Local Open Scope racer_scope.
Local Open Scope N_scope.

Implicit Types (t : Segments) (sl : Slot) (g : SegmentGeometry).

(** ** The clock keeps the table *)

Section clock.
Context {E : Type} `{SegmentEntries E}.
Implicit Types e : E.

(** What any part of a sweep does to the table. *)
Definition swept g t t' : Prop := seg_ok g t' ∧ seg_quiet t t'.

Lemma swept_refl g t : seg_ok g t → swept g t t.
Proof. intros. split; [done|apply seg_quiet_refl]. Qed.

Lemma swept_trans g t1 t2 t3 : swept g t1 t2 → swept g t2 t3 → swept g t1 t3.
Proof. intros [_ ?] [? ?]. split; [done|by eapply seg_quiet_trans]. Qed.

Lemma begin_eviction_free t id : sg_free (begin_eviction t id).2 = sg_free t.
Proof. unfold begin_eviction. destruct (sg_frozen t); [done|]. destruct (slot_at t id) as [sl|]; [|done]. by destruct (ss_state _). Qed.

Lemma drain_ok g t e id budget : seg_ok g t → is_Some (slot_at t id) →
  ∃ r t' e' budget', drain t e id budget = Some (r, t', e', budget') ∧ swept g t t' ∧ budget' <= budget ∧
    free_count t' = free_count t + (if r is Ok true then 1 else 0) ∧
    (r = Err SegError_InvalidConfiguration ∨ r = Err SegError_Unavailable ∨ ∃ b, r = Ok b).
Proof.
  intros Hok [sl Hp]. unfold drain. set (removal := if _ && _ then _ else _).
  assert (∃ r1 e1 b1, removal = (r1, e1, b1) ∧ b1 <= budget ∧ (r1 = Ok () ∨ r1 = Err SegError_InvalidConfiguration)) as (r1 & e1 & b1 & -> & Hb & Hr1).
  { destruct (_ && _); [|do 3 eexists; split; [done|]; split; [lia|by left]].
    destruct (remove_bounded e id budget) as [n e1]. destruct (N.ltb_spec budget n); do 3 eexists; (split; [done|]); (split; [lia|]); tauto. }
  destruct Hr1 as [->| ->].
  2: { do 4 eexists. split; [done|]. split_and!; [by apply swept_refl|done|lia|by left]. }
  destruct (entries_empty e1 id); cbn [negb].
  2: { do 4 eexists. split; [done|]. split_and!; [by apply swept_refl|done|lia|eauto]. }
  destruct (recycle_evicted_ok g t id Hok) as (r & t' & -> & Hok' & Hq & _ & _ & Hc).
  destruct Hc as [[-> Hf]|[-> Hc]]; [do 4 eexists; split; [done|]; split_and!; [by split|done|done|eauto]|].
  destruct Hc as [->|[[_ ?]| ->]]; [|congruence|]; do 4 eexists; (split; [done|]); split_and!; eauto using swept_refl; lia.
Qed.

Lemma evict_ranked_ok g target budget candidates t ck e : seg_ok g t →
  ∃ r t' ck' e', evict_ranked target budget candidates t ck e = Some (r, t', ck', e') ∧ swept g t t' ∧
    (r = Ok () → target <= free_count t').
Proof.
  revert budget t ck e. induction candidates as [|[[[s0 v0] n0] id] candidates IH]; intros budget t ck e Hok; simpl.
  { do 4 eexists. split; [done|]. split; [by apply swept_refl|]. by destruct (N.leb_spec target (free_count t)). }
  unfold segment_state. destruct (slot_at t id) as [sl|] eqn:Hp; [|do 4 eexists; split; [done|]; split; [by apply swept_refl|done]].
  destruct (_ || _); [by apply IH|]. destruct (begin_eviction_ok g t id Hok) as (Hok1 & Hq1 & _).
  destruct (begin_eviction t id) as [[[]|err] t1] eqn:Hb; cbn [fst snd] in *; [|do 4 eexists; split; [done|]; split; [by split|done]].
  destruct (drain_ok g t1 e id budget Hok1) as (r2 & t2 & e2 & b2 & -> & Hs2 & _ & _ & _).
  { destruct (Forall2_lookup_l _ _ _ _ _ (proj2 Hq1) Hp) as (sl1 & ? & _). by exists sl1. }
  assert (swept g t t2) as Hs by (eapply swept_trans; [split; [exact Hok1|exact Hq1]|exact Hs2]).
  destruct r2 as [b|err]; [|do 4 eexists; split; [done|]; split; [done|done]].
  destruct (IH b2 t2 (forget_recent ck id).2 e2 (proj1 Hs2)) as (r & t' & ck' & e' & Heq & Hs' & Hr).
  do 4 eexists. split; [exact Heq|]. split; [by eapply swept_trans|done].
Qed.

Lemma reclaim_scored_ok g t ck e reserve visits entries score : seg_ok g t →
  ∃ r t' ck' e', reclaim_scored t ck e reserve visits entries score = Some (r, t', ck', e') ∧ swept g t t' ∧
    (r = Ok () → N.min reserve (segment_count t) <= free_count t').
Proof.
  intros Hok. unfold reclaim_scored. destruct (N.eqb_spec reserve 0) as [->|].
  { do 4 eexists. split; [done|]. split; [by apply swept_refl|lia]. }
  destruct (N.eqb_spec (segment_count t) 0); [do 4 eexists; split; [done|]; split; [by apply swept_refl|done]|].
  destruct (N.leb_spec (N.min reserve (segment_count t)) (free_count t)); cbn [andb].
  1: destruct (sg_evicting t =? 0); [do 4 eexists; split; [done|]; split; [by apply swept_refl|done]|].
  all: destruct (rank_sweep _ _ _ _ _ _ _) as [[[candidates|err] ck1] e1];
    [by apply evict_ranked_ok|do 4 eexists; split; [done|]; split; [by apply swept_refl|done]].
Qed.

Lemma reclaim_sweep_ok g visits count target free budget t ck e : seg_ok g t → free = free_count t →
  ∃ r t' ck' e', reclaim_sweep visits count target free budget t ck e = Some (r, t', ck', e') ∧ swept g t t' ∧
    (r = Ok () → target <= free_count t').
Proof.
  revert free budget t ck e. induction visits as [|visits IH]; intros free budget t ck e Hok ->; simpl.
  { do 4 eexists. split; [done|]. split; [by apply swept_refl|]. by destruct (N.leb_spec target (free_count t)). }
  destruct (N.leb_spec target (free_count t)); [do 4 eexists; split; [done|]; split; [by apply swept_refl|done]|].
  set (id := ck_hand ck mod count). unfold segment_state.
  destruct (slot_at t id) as [sl|] eqn:Hp; [|do 4 eexists; split; [done|]; split; [by apply swept_refl|done]].
  destruct (negb (candidate _ _ _)); [by apply IH|]. destruct (_ || _); [by apply IH|].
  destruct (begin_eviction_ok g t id Hok) as (Hok1 & Hq1 & _). pose proof (begin_eviction_free t id) as Hf1.
  destruct (begin_eviction t id) as [[[]|err] t1] eqn:Hb; cbn [fst snd] in *; [|do 4 eexists; split; [done|]; split; [by split|done]].
  destruct (drain_ok g t1 e id budget Hok1) as (r2 & t2 & e2 & b2 & -> & Hs2 & _ & Hf2 & _).
  { destruct (Forall2_lookup_l _ _ _ _ _ (proj2 Hq1) Hp) as (sl1 & ? & _). by exists sl1. }
  assert (swept g t t2) as Hs by (eapply swept_trans; [split; [exact Hok1|exact Hq1]|exact Hs2]).
  assert (free_count t1 = free_count t) as Hft by (unfold free_count; by rewrite Hf1).
  destruct r2 as [b|err]; [|do 4 eexists; split; [done|]; split; [done|done]].
  edestruct (IH (if b : bool then free_count t + 1 else free_count t) b2 t2) as (r & t' & ck' & e' & Heq & Hs' & Hr);
    [apply Hs2|destruct b; lia|].
  do 4 eexists. split; [exact Heq|]. split; [by eapply swept_trans|done].
Qed.

Lemma reclaim_ok g t ck e reserve visits entries : seg_ok g t →
  ∃ r t' ck' e', clock_reclaim t ck e reserve visits entries = Some (r, t', ck', e') ∧ swept g t t' ∧
    (r = Ok () → N.min reserve (segment_count t) <= free_count t').
Proof.
  intros Hok. unfold clock_reclaim. destruct (N.eqb_spec reserve 0) as [->|].
  { do 4 eexists. split; [done|]. split; [by apply swept_refl|lia]. }
  destruct (N.eqb_spec (segment_count t) 0); [do 4 eexists; split; [done|]; split; [by apply swept_refl|done]|].
  by apply reclaim_sweep_ok.
Qed.

End clock.

(** ** The clock makes room *)

Section room.
Context {E : Type} `{LawfulEntries E}.
Implicit Types e : E.











Lemma slot_at_lt t q : is_Some (slot_at t q) ↔ q < segment_count t.
Proof. unfold slot_at, segment_count. rewrite lookup_lt_is_Some. lia. Qed.








(** ** The clock stays within its budget *)

(** At most [budget - budget'] mappings are gone. *)
Definition seg_spends e (budget : N) e' (budget' : N) : Prop :=
  entries_ok e' ∧ budget' <= budget ∧ entries_size e + budget' = entries_size e' + budget.

Lemma spends_trans e1 b1 e2 b2 e3 b3 : seg_spends e1 b1 e2 b2 → seg_spends e2 b2 e3 b3 → seg_spends e1 b1 e3 b3.
Proof. intros (_ & ? & ?) (? & ? & ?). split_and!; [done|lia|lia]. Qed.

Lemma drain_spends g t e id budget : seg_ok g t → is_Some (slot_at t id) → entries_ok e →
  ∃ r t' e' budget', drain t e id budget = Some (r, t', e', budget') ∧ seg_ok g t' ∧ seg_spends e budget e' budget' ∧
    (r = Err SegError_Unavailable ∨ ∃ b, r = Ok b).
Proof.
  intros Hok Hp He. unfold drain. set (removal := if _ && _ then _ else _).
  assert (∃ e1 b1, removal = (Ok (), e1, b1) ∧ seg_spends e budget e1 b1) as (e1 & b1 & -> & Hs).
  { unfold removal. destruct (_ && _); [|do 2 eexists; split; [done|]; split_and!; [done|lia|lia]].
    destruct (remove_bounded e id budget) as [n e1] eqn:Hr. destruct (law_removed e id budget n e1 He Hr) as (? & Hn & ?).
    rewrite (proj2 (N.ltb_ge _ _) Hn). do 2 eexists. split; [done|]. split_and!; [done|lia|lia]. }
  destruct (entries_empty e1 id); cbn [negb]; [|do 4 eexists; split; [done|]; split_and!; eauto].
  destruct (recycle_evicted_ok g t id Hok) as (r & t' & -> & Hok' & _ & _ & _ & Hc).
  destruct Hc as [[-> _]|[-> [->|[[_ Hn]| ->]]]]; [| |destruct Hp; congruence|]; do 4 eexists; (split; [done|]); split_and!; eauto.
Qed.

Lemma sweep_spends g visits count target free budget t ck e : seg_ok g t → entries_ok e → count = segment_count t → count ≠ 0 →
  ∃ r t' ck' e' budget', reclaim_sweep visits count target free budget t ck e = Some (r, t', ck', e') ∧ seg_spends e budget e' budget' ∧
    (r = Ok () ∨ r = Err SegError_Busy ∨ r = Err SegError_Unavailable).
Proof.
  revert free budget t ck e. induction visits as [|visits IH]; intros free budget t ck e Hok He Hc Hc0; simpl.
  { eexists _, _, _, _, budget. split; [done|]. split; [split_and!; [done|lia|done]|]. destruct (_ <=? _); tauto. }
  assert (seg_spends e budget e budget) as Hrefl by (split_and!; [done|lia|done]).
  destruct (_ <=? _); [eexists _, _, _, _, budget; split; [done|]; split; [done|tauto]|].
  set (id := ck_hand ck mod count). destruct (proj2 (slot_at_lt t id)) as [sl Hp]; [rewrite <- Hc; by apply N.mod_lt|].
  unfold segment_state. rewrite Hp. destruct (negb (candidate _ _ _)); [by apply IH|]. destruct (_ || _); [by apply IH|].
  destruct (begin_eviction_ok g t id Hok) as (Hok1 & [_ Hq1] & _).
  assert ((begin_eviction t id).1 = Ok () ∨ (begin_eviction t id).1 = Err SegError_Busy) as Hb.
  { unfold begin_eviction. destruct (sg_frozen t); [tauto|]. rewrite Hp. destruct (ss_state _); tauto. }
  destruct (begin_eviction t id) as [r1 t1]. simpl in *. destruct Hb as [->| ->]; [|eexists _, _, _, _, budget; split; [done|]; split; [done|tauto]].
  destruct (drain_spends g t1 e id budget Hok1) as (r2 & t2 & e2 & b2 & Hd & Hok2 & Hs2 & Hr2); [|done|].
  { destruct (Forall2_lookup_l _ _ _ _ _ Hq1 Hp) as (sl1 & ? & _). by exists sl1. }
  rewrite Hd. destruct Hr2 as [->|[b ->]]; [eexists _, _, _, _, b2; split; [done|]; split; [done|tauto]|].
  edestruct (IH (if b : bool then free + 1 else free) b2 t2) as (r & t' & ck' & e' & b' & Heq & Hs & Hr); [done|apply Hs2| |done|].
  { destruct (drain_ok g t1 e id budget Hok1) as (? & ? & ? & ? & Hd' & [_ [_ Hq2]] & _).
    { destruct (Forall2_lookup_l _ _ _ _ _ Hq1 Hp) as (sl1 & ? & _). by exists sl1. }
    rewrite Hd in Hd'. injection Hd' as <- <- <- <-. rewrite Hc. unfold segment_count.
    by rewrite (Forall2_length _ _ _ Hq1), (Forall2_length _ _ _ Hq2). }
  exists r, t', ck', e', b'. split; [exact Heq|]. split; [by eapply spends_trans|done].
Qed.

End room.

(** ** Worlds *)

(** A reservation that [append] returned. *)
Record SegReservation := mkReservation { rv_segment : N; rv_generation : N; rv_extent : Extent }.

Record SegWorld := mkWorld { w_table : Segments; w_leases : list SegmentLease; w_log : list SegReservation }.

Definition ex_end (x : Extent) : N := ex_offset x + ex_length x.
Definition disjoint_extents (x y : Extent) : Prop := ex_end x <= ex_offset y ∨ ex_end y <= ex_offset x.

Section worlds.
Context {E : Type} `{SegmentEntries E}.

Inductive seg_op :=
| Op_append (len : N)
| Op_lease (id generation : N)
| Op_drop (k : nat)
| Op_evict (id : N)
| Op_recycle (id : N)
| Op_freeze
| Op_thaw
| Op_restore (images : list SegmentSnapshot)
| Op_groups (counts : list nat)
| Op_reclaim (ck : SegmentClock) (e : E) (reserve visits entries : N)
| Op_reclaim_scored (ck : SegmentClock) (e : E) (reserve visits entries : N) (score : E → N → N * E).

Definition with_table (w : SegWorld) t : SegWorld := mkWorld t (w_leases w) (w_log w).

Definition seg_do (op : seg_op) (w : SegWorld) : option SegWorld :=
  let t := w_table w in
  match op with
  | Op_append len =>
      match append t len with
      | Some (Ok (lease, extent), t) =>
          Some (mkWorld t (lease :: w_leases w) (w_log w ++ [mkReservation (le_id lease) (le_generation lease) extent]))
      | Some (Err _, t) => Some (with_table w t)
      | None => None
      end
  | Op_lease id generation =>
      match segment_lease t id generation with
      | (Ok lease, t) => Some (mkWorld t (lease :: w_leases w) (w_log w))
      | (Err _, t) => Some (with_table w t)
      end
  | Op_drop k =>
      match w_leases w !! k with
      | Some lease => (λ t, mkWorld t (delete k (w_leases w)) (w_log w)) <$> drop_lease t lease
      | None => Some w
      end
  | Op_evict id => Some (with_table w (begin_eviction t id).2)
  | Op_recycle id => (λ '(_, t), with_table w t) <$> recycle_evicted t id
  | Op_freeze => Some (with_table w (freeze t).2)
  | Op_thaw => Some (with_table w (thaw t))
  | Op_restore images => (λ '(_, t), with_table w t) <$> restore t images
  | Op_groups counts => Some (with_table w (configure_usage_groups t counts).2)
  | Op_reclaim ck e reserve visits entries => (λ '(_, t, _, _), with_table w t) <$> clock_reclaim t ck e reserve visits entries
  | Op_reclaim_scored ck e reserve visits entries score =>
      (λ '(_, t, _, _), with_table w t) <$> reclaim_scored t ck e reserve visits entries score
  end.

Fixpoint seg_run (ops : list seg_op) (w : SegWorld) : option SegWorld :=
  match ops with
  | [] => Some w
  | op :: ops => seg_do op w ≫= seg_run ops
  end.

(** ** The invariant of a world *)

Definition leases_on (leases : list SegmentLease) (q : N) : N := N.of_nat (length (filter (λ l, le_id l = q) leases)).

Definition counters_ok t (leases : list SegmentLease) : Prop := ∀ q n, leases_at t q = Some n → n = leases_on leases q.

(** An outstanding lease names the current generation of its slot, and a prefix that is in use. *)
Definition lease_live g t (l : SegmentLease) : Prop :=
  ∃ sl, slot_at t (le_id l) = Some sl ∧ ss_generation (sl_image sl) = le_generation l ∧
    ss_state (sl_image sl) ≠ SegmentState_Free ∧
    le_start l = le_id l * sg_bytes t ∧ le_end l <= le_start l + ss_used (sl_image sl) ∧ le_table l = sg_table t ∧ le_geometry l = g.

(** A reservation lies in its segment; while its generation is current, the slot is in use and grows only above it. *)
Definition seg_reserved t (r : SegReservation) : Prop :=
  ∃ sl, slot_at t (rv_segment r) = Some sl ∧
    rv_segment r * sg_bytes t <= ex_offset (rv_extent r) ∧ ex_end (rv_extent r) <= (rv_segment r + 1) * sg_bytes t ∧
    rv_generation r <= ss_generation (sl_image sl) ∧
    (rv_generation r = ss_generation (sl_image sl) →
     ss_state (sl_image sl) ≠ SegmentState_Free ∧
     (ss_state (sl_image sl) = SegmentState_Open → ex_end (rv_extent r) <= rv_segment r * sg_bytes t + ss_used (sl_image sl))).

(** [b] is reserved after [a]. *)
Definition reserved_later (a b : SegReservation) : Prop :=
  rv_segment a ≠ rv_segment b ∨ rv_generation a < rv_generation b ∨
  rv_generation a = rv_generation b ∧ disjoint_extents (rv_extent a) (rv_extent b).

Record world_ok g (w : SegWorld) : Prop := {
  wo_table : seg_ok g (w_table w);
  wo_counters : counters_ok (w_table w) (w_leases w);
  wo_leases : ∀ l, l ∈ w_leases w → lease_live g (w_table w) l;
  wo_reserved : ∀ r, r ∈ w_log w → seg_reserved (w_table w) r;
  wo_log : StronglySorted reserved_later (w_log w)
}.

Lemma leases_on_in (leases : list SegmentLease) l : l ∈ leases → leases_on leases (le_id l) ≠ 0.
Proof.
  intros Hin. unfold leases_on. assert (l ∈ filter (λ l', le_id l' = le_id l) leases) as Hf by (by apply list_elem_of_filter).
  destruct (filter _ leases); [by apply elem_of_nil in Hf|]. simpl. lia.
Qed.

Lemma evolves_at t t' p sl : seg_evolves t t' → slot_at t p = Some sl → ∃ sl', slot_at t' p = Some sl' ∧ slot_evolves sl sl'.
Proof. intros [_ F] Hp. exact (Forall2_lookup_l _ _ _ _ _ F Hp). Qed.

Lemma lease_live_evolves g t t' leases l : seg_evolves t t' → counters_ok t leases → l ∈ leases → lease_live g t l → lease_live g t' l.
Proof.
  intros He Hc Hin (sl & Hp & Hgen & Hst & Hstart & Hend & Ht & Hg). destruct (evolves_at t t' _ sl He Hp) as (sl' & Hp' & [_ Hle]).
  destruct He as [(Hb & _ & Htab) _].
  destruct Hle as (Hgen' & Hu & Hf); [rewrite (Hc (le_id l) (sl_leases sl)); [by apply leases_on_in|unfold leases_at; by rewrite Hp]|].
  exists sl'. rewrite Hb, Htab. split_and!; (done || congruence || tauto || lia).
Qed.

Lemma reserved_evolves t t' r : seg_evolves t t' → seg_reserved t r → seg_reserved t' r.
Proof.
  intros He (sl & Hp & H1 & H2 & H3 & H4). destruct (evolves_at t t' _ sl He Hp) as (sl' & Hp' & [Hs _]).
  destruct He as [(Hb & _) _]. exists sl'. rewrite Hb. split_and!; [done|done|done|destruct Hs as [|[]]; lia|]. intros Hgen.
  destruct Hs as [|(Hg & Hf & Ho)]; [lia|]. destruct H4 as [Hnf Hop]; [congruence|]. split; [tauto|].
  intros Hop'. destruct (Ho Hop') as [|[Hop0 ?]]; [done|]. specialize (Hop Hop0). lia.
Qed.

(** A step that makes no reservation and moves no lease. *)
Lemma world_quiet g w t : world_ok g w → seg_ok g t → seg_quiet (w_table w) t → world_ok g (with_table w t).
Proof.
  intros [Hok Hc Hl Hr Hlog] Hok' Hq. pose proof (quiet_evolves _ _ Hq) as He. split; [done| | | |done].
  - intros q n Hn. apply Hc. by rewrite <- (quiet_leases _ _ q Hq).
  - intros l Hin. by eapply lease_live_evolves, Hl.
  - intros r Hin. by eapply reserved_evolves, Hr.
Qed.

Lemma leases_on_cons (leases : list SegmentLease) l q :
  leases_on (l :: leases) q = (if decide (q = le_id l) then 1 else 0) + leases_on leases q.
Proof. unfold leases_on. rewrite filter_cons. repeat case_decide; simpl; (congruence || lia). Qed.

Lemma leases_on_delete (leases : list SegmentLease) k l q : leases !! k = Some l →
  leases_on leases q = (if decide (q = le_id l) then 1 else 0) + leases_on (delete k leases) q.
Proof.
  revert k. induction leases as [|l0 leases IH]; intros [|k] Hk; simplify_eq/=; [apply leases_on_cons|].
  rewrite !leases_on_cons, (IH k Hk). lia.
Qed.

(** The invariant of a world after a lease is taken. *)
Lemma world_lease g w t log lease : world_ok g w → seg_ok g t → seg_evolves (w_table w) t →
  (∀ q, leases_at t q = (λ n, n + if decide (q = le_id lease) then 1 else 0) <$> leases_at (w_table w) q) →
  lease_live g t lease → (∀ r, r ∈ log → seg_reserved t r) → StronglySorted reserved_later log →
  world_ok g (mkWorld t (lease :: w_leases w) log).
Proof.
  intros [Hok Hc Hl Hr Hlog] Hok' He Hat Hlive Hres Hsort. split; [done| | |done|done]; simpl.
  - intros q n. rewrite Hat, leases_on_cons. destruct (leases_at (w_table w) q) as [m|] eqn:E1; [|done].
    intros [= <-]. rewrite (Hc q m E1). lia.
  - intros l [->|Hin]%elem_of_cons; [done|]. by eapply lease_live_evolves, Hl.
Qed.

Lemma world_append g w t len lease extent : world_ok g w → seg_ok g t → seg_evolves (w_table w) t →
  append_result g (w_table w) t len (lease, extent) →
  world_ok g (mkWorld t (lease :: w_leases w) (w_log w ++ [mkReservation (le_id lease) (le_generation lease) extent])).
Proof.
  intros Hw Hok He (p & sl & sl' & Hp & Hp' & Ha & Hst & Hlen & Hfit & [= -> ->] & Hq). red in Ha. simpl.
  pose proof He as [(Hb & _ & Htab) _]. apply (world_lease g w); [done|done|done| | | |].
  - intros q. simpl. case_decide as Eq; [subst q|rewrite (Hq q Eq); destruct (leases_at _ q); simpl; [by rewrite N.add_0_r|done]].
    unfold leases_at. rewrite Hp, Hp', Ha. done.
  - exists sl'. subst sl'. simpl. rewrite Hb, Htab. split_and!; first [done|by destruct (_ =? _)|lia].
  - intros r [Hin| ->%list_elem_of_singleton]%elem_of_app; [by eapply reserved_evolves, Hw|].
    exists sl'. subst sl'. unfold ex_end. simpl. rewrite Hb. split_and!; [done|lia|lia|lia|]. intros _. split; [by destruct (_ =? _)|lia].
  - apply sorted_snoc; [by apply Hw|]. apply Forall_forall. intros r Hin. destruct (wo_reserved g w Hw r Hin) as (sl0 & Hp0 & _ & H2 & H3 & H4).
    unfold reserved_later. simpl. destruct (N.eq_dec (rv_segment r) p) as [Hseg|]; [right|by left].
    rewrite Hseg in *. assert (sl0 = sl) as -> by congruence.
    destruct (N.eq_dec (rv_generation r) (ss_generation (sl_image sl))) as [Hg|]; [right|left; lia].
    split; [done|]. left. destruct (H4 Hg) as [? Ho]. destruct Hst as [Hst|]; [|done]. by apply Ho.
Qed.

Lemma world_drop g w k lease : world_ok g w → w_leases w !! k = Some lease →
  ∃ t, drop_lease (w_table w) lease = Some t ∧ world_ok g (mkWorld t (delete k (w_leases w)) (w_log w)).
Proof.
  intros Hw Hk. pose proof (list_elem_of_lookup_2 _ _ _ Hk) as Hin.
  destruct (wo_leases g w Hw lease Hin) as (sl & Hp & _). unfold drop_lease. rewrite Hp.
  assert (sl_leases sl = leases_on (w_leases w) (le_id lease)) as Hn by (apply (wo_counters g w Hw); unfold leases_at; by rewrite Hp).
  rewrite (proj2 (N.eqb_neq (sl_leases sl) 0)) by (rewrite Hn; by apply leases_on_in). eexists. split; [done|].
  fold (set_leases (w_table w) (le_id lease) sl (sl_leases sl - 1)).
  destruct (set_leases_ok g (w_table w) (le_id lease) sl (sl_leases sl - 1) (wo_table g w Hw) Hp) as (Hok & He & Hat).
  destruct Hw as [_ Hc Hl Hr Hlog]. split; [done| | | |done]; simpl.
  - intros q n. rewrite Hat. pose proof (leases_on_delete _ k lease q Hk) as Hd. case_decide as Eq.
    + subst q. intros [= <-]. lia.
    + intros Hq. rewrite (Hc q n Hq). lia.
  - intros l Hl0. assert (l ∈ w_leases w) by (by eapply elem_of_sublist, sublist_delete). by eapply lease_live_evolves, Hl.
  - intros r Hr0. by eapply reserved_evolves, Hr.
Qed.

Lemma frozen_ok g t b : seg_ok g t → seg_ok g (with_frozen t b) ∧ seg_quiet t (with_frozen t b).
Proof. intros Hok. split; [by destruct Hok|]. destruct (seg_quiet_refl t) as [_ F]. by split. Qed.

Lemma swept_world g w t : world_ok g w → swept g (w_table w) t → world_ok g (with_table w t).
Proof. intros Hw [? ?]. by apply world_quiet. Qed.

(** Every operation keeps the invariant, and none of them panics. *)
Lemma seg_do_ok g w op : geometry_ok g → world_ok g w → ∃ w', seg_do op w = Some w' ∧ world_ok g w'.
Proof.
  intros Hg Hw. pose proof (wo_table g w Hw) as Hok.
  destruct op as [len|id gen|k|id|id| | |images|counts|ck e reserve visits entries|ck e reserve visits entries score]; simpl.
  - destruct (append_ok g (w_table w) len Hg Hok) as ([[lease extent]|err] & t & -> & Hok' & Hr); eexists; (split; [done|]).
    + destruct Hr. by eapply world_append.
    + by apply world_quiet.
  - pose proof (segment_lease_ok g (w_table w) id gen Hg Hok) as Hl. destruct (segment_lease _ _ _) as [[lease|err] t]; eexists; (split; [done|]).
    + destruct Hl as (sl & Hp & Hgen & Hr & -> & ->). destruct (set_leases_ok g (w_table w) id sl (sl_leases sl + 1) Hok Hp) as (Hok' & He & Hat).
      apply world_lease; [done|done|done| | | |apply Hw].
      * intros q. rewrite Hat. simpl. case_decide; [subst q; unfold leases_at; by rewrite Hp|]. destruct (leases_at _ q); simpl; [by rewrite N.add_0_r|done].
      * exists (mkSlot (sl_image sl) (sl_group sl) (sl_leases sl + 1)). simpl. split_and!; try done.
        -- by rewrite (slot_at_put (w_table w) id (mkSlot (sl_image sl) (sl_group sl) (sl_leases sl + 1))), decide_True by eauto.
        -- intros Hf. by rewrite Hf in Hr.
      * intros r Hin. by eapply reserved_evolves, Hw.
    + subst t. destruct w. done.
  - destruct (w_leases w !! k) as [lease|] eqn:Hk; [|by eexists]. destruct (world_drop g w k lease Hw Hk) as (t & -> & ?). by eexists.
  - eexists. split; [done|]. destruct (begin_eviction_ok g (w_table w) id Hok) as (? & ? & _). by apply world_quiet.
  - destruct (recycle_evicted_ok g (w_table w) id Hok) as (r & t & -> & ? & ? & _). eexists. split; [done|]. by apply world_quiet.
  - eexists. split; [done|]. destruct (frozen_ok g (w_table w) true Hok). by apply world_quiet.
  - eexists. split; [done|]. destruct (frozen_ok g (w_table w) false Hok). by apply world_quiet.
  - destruct (restore_ok g (w_table w) images Hg Hok) as [[err ->]|(free & ev & usage & -> & ? & ?)]; eexists; (split; [done|]).
    + by destruct w.
    + by apply world_quiet.
  - eexists. split; [done|]. destruct (configure_usage_groups_ok g (w_table w) counts Hok). by apply world_quiet.
  - destruct (reclaim_ok g (w_table w) ck e reserve visits entries Hok) as (r & t & ck' & e' & -> & ? & _). eexists. split; [done|]. by apply swept_world.
  - destruct (reclaim_scored_ok g (w_table w) ck e reserve visits entries score Hok) as (r & t & ck' & e' & -> & ? & _).
    eexists. split; [done|]. by apply swept_world.
Qed.

Lemma seg_run_ok g w ops : geometry_ok g → world_ok g w → ∃ w', seg_run ops w = Some w' ∧ world_ok g w'.
Proof.
  intros Hg. revert w. induction ops as [|op ops IH]; intros w Hw; simpl; [by exists w|].
  destruct (seg_do_ok g w op Hg Hw) as (w1 & -> & Hw1). by apply IH.
Qed.

Lemma fresh_world_ok table bytes capacity count al t : al_ok al → configure_table (segments_new table bytes) capacity count al = (Ok (), t) →
  geometry_ok (mkGeometry capacity bytes count al) ∧ world_ok (mkGeometry capacity bytes count al) (mkWorld t [] []).
Proof.
  intros Hal Hc. destruct (configure_table_ok _ _ _ _ _ _ Hal Hc) as (g & Hg & Hok & _ & Hl & _ & ->). split; [done|].
  split; simpl; [done| |set_solver|set_solver|constructor].
  intros q n. unfold leases_at. destruct (slot_at t q) as [sl|] eqn:E0; [|done]. intros [= <-]. by rewrite (Hl q sl E0).
Qed.

(** A world that a run reaches from an entirely free table. *)
Definition reaches (table bytes capacity count : N) (al : Alignment) (ops : list seg_op) (w : SegWorld) : Prop :=
  ∃ t, al_ok al ∧ configure_table (segments_new table bytes) capacity count al = (Ok (), t) ∧ seg_run ops (mkWorld t [] []) = Some w.

Lemma reaches_ok table bytes capacity count al ops w : reaches table bytes capacity count al ops w →
  geometry_ok (mkGeometry capacity bytes count al) ∧ world_ok (mkGeometry capacity bytes count al) w.
Proof.
  intros (t & Hal & Hc & Hr). destruct (fresh_world_ok _ _ _ _ _ _ Hal Hc) as [Hg Hw]. split; [done|].
  destruct (seg_run_ok _ _ ops Hg Hw) as (w' & Hr' & Hw'). congruence.
Qed.

(** C14: from an entirely free table of an accepted geometry, no sequence of operations panics, and in the table it leads to the open segment, the free set,
    the eviction count, the usage totals and the lease counters all agree with the slots. *)
Theorem segments_run_safe table bytes capacity count al t ops :
  al_ok al → configure_table (segments_new table bytes) capacity count al = (Ok (), t) →
  ∃ w, seg_run ops (mkWorld t [] []) = Some w ∧ world_ok (mkGeometry capacity bytes count al) w.
Proof. intros Hal Hc. destruct (fresh_world_ok _ _ _ _ _ _ Hal Hc) as [Hg Hw]. by apply seg_run_ok. Qed.

(** C13: while a lease is outstanding its segment keeps its generation, is neither recycled nor restored over, and whatever is
    reserved in it lies above the prefix of the lease. *)
Theorem lease_protects table bytes capacity count al ops w l :
  reaches table bytes capacity count al ops w → l ∈ w_leases w →
  lease_live (mkGeometry capacity bytes count al) (w_table w) l ∧
  recycle_evicted (w_table w) (le_id l) = Some (Err SegError_Busy, w_table w) ∧
  (∀ images, restore (w_table w) images = Some (Err SegError_Busy, w_table w)) ∧
  ∀ len l' x t', append (w_table w) len = Some (Ok (l', x), t') → le_id l' = le_id l →
    le_generation l' = le_generation l ∧ le_end l <= ex_offset x.
Proof.
  intros [Hg Hw]%reaches_ok Hin. pose proof (wo_leases _ w Hw l Hin) as Hlive.
  pose proof Hlive as (sl & Hp & Hgen & Hst & Hstart & Hend & _). split; [done|].
  assert (sl_leases sl ≠ 0) as Hn.
  { rewrite (wo_counters _ w Hw (le_id l) (sl_leases sl)); [by apply leases_on_in|]. unfold leases_at. by rewrite Hp. }
  split_and!.
  - unfold recycle_evicted. destruct (sg_frozen (w_table w)); [done|]. rewrite Hp, (proj2 (N.eqb_neq _ _) Hn). by destruct (negb _).
  - intros images. unfold restore, validate_restore_epoch. destruct (sg_frozen (w_table w)); [done|].
    rewrite (proj2 (existsb_exists _ _)); [done|]. exists sl. split; [apply list_elem_of_In; by eapply list_elem_of_lookup_2|].
    by apply negb_true_iff, N.eqb_neq.
  - intros len l' x t' Ha Hid. destruct (append_ok _ (w_table w) len Hg (wo_table _ w Hw)) as (r & t1 & Ha' & _ & Hr).
    rewrite Ha in Ha'. injection Ha' as <- <-. destruct Hr as [_ (p & sl0 & sl1 & Hp0 & _ & _ & _ & _ & _ & [= -> ->] & _)].
    simpl in *. subst p. assert (sl0 = sl) as -> by congruence. split; [done|lia].
Qed.

(** C12: a mapping that [validate] accepts still has its bytes: nothing reserved after it, under any generation and across any
    number of evictions and restores, overlaps it. *)
Theorem valid_mapping_intact table bytes capacity count al ops w before r after :
  reaches table bytes capacity count al ops w → w_log w = before ++ r :: after →
  segments_validate (w_table w) (rv_segment r) (rv_generation r) (rv_extent r) = Ok () →
  ∀ r', r' ∈ after → disjoint_extents (rv_extent r) (rv_extent r').
Proof.
  intros [Hg Hw]%reaches_ok Hlog Hv r' Hin. pose proof (wo_log _ w Hw) as Hs. rewrite Hlog in Hs.
  apply StronglySorted_app in Hs as (_ & _ & Hs). apply StronglySorted_inv in Hs as [_ Hs]. rewrite Forall_forall in Hs.
  assert (seg_reserved (w_table w) r) as (sl & Hp & Hlo & Hhi & _) by (apply (wo_reserved _ w Hw); rewrite Hlog; set_solver).
  assert (seg_reserved (w_table w) r') as (sl' & Hp' & Hlo' & Hhi' & Hgen' & _) by (apply (wo_reserved _ w Hw); rewrite Hlog; set_solver).
  assert (ss_generation (sl_image sl) = rv_generation r) as Hgen.
  { revert Hv. unfold segments_validate. rewrite Hp. destruct (checked_mul _ _ _); [|done]. destruct (checked_add _ _ _); [|done].
    by destruct (N.eqb_spec (ss_generation (sl_image sl)) (rv_generation r)). }
  destruct (Hs r' Hin) as [Hseg|[Hlt|[_ Hd]]]; [| |done].
  - unfold disjoint_extents. assert (rv_segment r + 1 <= rv_segment r' ∨ rv_segment r' + 1 <= rv_segment r) as [|] by lia; [left|right]; nia.
  - destruct (N.eq_dec (rv_segment r) (rv_segment r')) as [Hseg|Hseg]; [rewrite <- Hseg in Hp'; simplify_eq; lia|].
    unfold disjoint_extents. assert (rv_segment r + 1 <= rv_segment r' ∨ rv_segment r' + 1 <= rv_segment r) as [|] by lia; [left|right]; nia.
Qed.

(** With the caller's entries lawful, a reclamation removes at most the mappings it may, reports the reserve only when the table
    has it, and otherwise reports that it is busy or that a generation is exhausted. *)
Theorem reclaim_bounded `{!LawfulEntries E} table bytes capacity count al ops w ck e reserve visits entries :
  reaches table bytes capacity count al ops w → entries_ok e →
  ∃ r t' ck' e', clock_reclaim (w_table w) ck e reserve visits entries = Some (r, t', ck', e') ∧
    entries_ok e' ∧ entries_size e' <= entries_size e <= entries_size e' + entries ∧
    match r with
    | Ok _ => N.min reserve (segment_count (w_table w)) <= free_count t'
    | Err err => err = SegError_Busy ∨ err = SegError_Unavailable
    end.
Proof.
  intros [Hg Hw]%reaches_ok He. pose proof (wo_table _ w Hw) as Hok.
  destruct (reclaim_ok _ (w_table w) ck e reserve visits entries Hok) as (r & t' & ck' & e' & Heq & _ & Hr).
  exists r, t', ck', e'. split; [done|]. revert Heq. unfold clock_reclaim. destruct (N.eqb_spec reserve 0) as [->|].
  { intros [= <- <- <- <-]. split_and!; [done|lia|lia|lia]. }
  destruct (N.eqb_spec (segment_count (w_table w)) 0); [intros [= <- <- <- <-]; split_and!; [done|lia|lia|tauto]|].
  edestruct (sweep_spends _ (two_rotations (segment_count (w_table w)) visits) (segment_count (w_table w)) (N.min reserve (segment_count (w_table w)))
    (free_count (w_table w)) entries (w_table w) (sync_restore (w_table w) ck) e Hok He) as (r1 & t1 & ck1 & e1 & b1 & -> & (? & ? & ?) & Hr1); [done|done|].
  intros [= -> -> -> ->]. split_and!; [done|lia|lia|]. destruct Hr1 as [->|[->| ->]]; [by apply Hr|by left|by right].
Qed.



End worlds.

(** ** A run of four segments of 16 bytes *)

Module SegmentSample.

Definition al : Alignment := mkAlignment 8 4 4.
Definition fresh : Segments := (configure_table (segments_new 7 16) 64 4 al).2.

(** Two reservations, whose leases are dropped; the first segment is recycled and reserved again. *)
Definition sample_ops : list (seg_op (E := PhantomEntries N)) :=
  [Op_append 8; Op_append 16; Op_drop 0; Op_drop 0; Op_evict 0; Op_recycle 0; Op_append 8].

Definition play (ops : list (seg_op (E := PhantomEntries N))) : SegWorld :=
  match seg_run ops (mkWorld fresh [] []) with Some w => w | None => mkWorld fresh [] [] end.

Lemma play_reaches (ops : list (seg_op (E := PhantomEntries N))) : reaches 7 16 64 4 al ops (play ops).
Proof.
  exists fresh. split; [done|]. split; [by vm_compute|]. unfold play.
  destruct (fresh_world_ok 7 16 64 4 al fresh) as [Hg Hw]; [done|by vm_compute|]. destruct (seg_run_ok _ _ ops Hg Hw) as (w & -> & _). done.
Qed.

(** Mappings: page 1 in segment 0, pages 2 and 3 in segment 1. *)
Definition entries : PhantomEntries N :=
  let publish ph page segment := match phantom_publish ph page 8 segment with Some (_, ph) => ph | None => ph end in
  publish (publish (publish phantom_new 1 0) 2 1) 3 1.

End SegmentSample.

Lemma segments_run_safe_witness :
  ∃ w, seg_run SegmentSample.sample_ops (mkWorld SegmentSample.fresh [] []) = Some w ∧ world_ok (mkGeometry 64 16 4 SegmentSample.al) w.
Proof. apply (segments_run_safe 7 16 64 4 SegmentSample.al SegmentSample.fresh SegmentSample.sample_ops); [done|by vm_compute]. Defined.

Lemma lease_protects_witness :
  ∃ l, l ∈ w_leases (SegmentSample.play SegmentSample.sample_ops) ∧
    recycle_evicted (w_table (SegmentSample.play SegmentSample.sample_ops)) (le_id l) = Some (Err SegError_Busy, w_table (SegmentSample.play SegmentSample.sample_ops)).
Proof.
  destruct (w_leases (SegmentSample.play SegmentSample.sample_ops)) as [|l ls] eqn:E; [by vm_compute in E|]. exists l. split; [left|].
  apply (lease_protects 7 16 64 4 SegmentSample.al SegmentSample.sample_ops (SegmentSample.play SegmentSample.sample_ops) l);
    [apply SegmentSample.play_reaches|rewrite E; left].
Defined.

Lemma valid_mapping_intact_witness :
  let w := SegmentSample.play SegmentSample.sample_ops in
  let r1 := mkReservation 0 1 (mkExtent 0 8) in let r2 := mkReservation 1 1 (mkExtent 16 16) in let r3 := mkReservation 0 2 (mkExtent 0 8) in
  w_log w = [r1; r2; r3] ∧ segments_validate (w_table w) 0 1 (rv_extent r1) = Err SegError_Stale ∧
  segments_validate (w_table w) 1 1 (rv_extent r2) = Ok () ∧ disjoint_extents (rv_extent r2) (rv_extent r3).
Proof.
  intros w r1 r2 r3. split_and!; [by vm_compute..|].
  apply (valid_mapping_intact 7 16 64 4 SegmentSample.al SegmentSample.sample_ops w [r1] r2 [r3]); [apply SegmentSample.play_reaches|by vm_compute..|left].
Defined.

Lemma sample_entries_ok : page_index_ok (ph_index SegmentSample.entries).
Proof.
  destruct (index_run_sim [Ix_publish 1 8 0 (); Ix_publish 2 8 1 (); Ix_publish 3 8 1 ()] ([], 0) (page_index_new : PageIndex N N ()) index_new_sim)
    as (ix & Hrun & Hok & _).
  assert (index_run [Ix_publish 1 8 0 (); Ix_publish 2 8 1 (); Ix_publish 3 8 1 ()] page_index_new = Some (ph_index SegmentSample.entries)) as Hx
    by (by vm_compute). rewrite Hx in Hrun. by injection Hrun as ->.
Qed.

Lemma phantom_removal_exact_witness :
  ∃ ph', phantom_remove_bounded SegmentSample.entries 1 1 = Some (1, ph') ∧ page_index_ok (ph_index ph').
Proof.
  destruct (phantom_removal_exact SegmentSample.entries 1 1 sample_entries_ok) as (ph' & H1 & H2 & _). exists ph'. split; [|exact H2].
  rewrite H1. by vm_compute.
Defined.

Lemma reclaim_bounded_witness :
  ∃ r t' ck' e', clock_reclaim (w_table (SegmentSample.play SegmentSample.sample_ops)) (mkClock 0 ∅ 0) SegmentSample.entries 3 8 1 = Some (r, t', ck', e') ∧
    entries_size SegmentSample.entries <= entries_size e' + 1.
Proof.
  destruct (reclaim_bounded 7 16 64 4 SegmentSample.al SegmentSample.sample_ops (SegmentSample.play SegmentSample.sample_ops) (mkClock 0 ∅ 0) SegmentSample.entries 3 8 1)
    as (r & t' & ck' & e' & H1 & _ & [_ H2] & _); [apply SegmentSample.play_reaches|exact sample_entries_ok|].
  exists r, t', ck', e'. by split.
Defined.

