(* ===== verification/Checkpoint.v ===== *)
(** * Checkpoints

    The versioned binary images from which a node restores its disk cache, from [cmd/racer/src/store/checkpoint.rs] with the snapshot
    types of [src/store/catalog.rs]: geometry, shard validation against an isolated allocation table, the encoder, and the decoder with
    the memory preflight that precedes it.  SHA-256 and the sizes of the decoded types are parameters.  The encoder and decoder are
    local to one call and every error ends it, so they return no state with an error.  The yields of the incremental encoder are
    not modelled.  A panic is [None]. *)

From S2P Require Import Prelude Bytes Http ObjectModel WireCodec Segments.
Local Open Scope racer_scope.
Local Open Scope N_scope.

(** The failures of [src/error.rs] that this part raises. *)
Inductive StoreError :=
| StoreError_InvalidConfiguration
| StoreError_DirectIoUnsupported
| StoreError_Overloaded
| StoreError_CorruptRecord
| StoreError_Unavailable
| StoreError_Io
| StoreError_Cancelled
| StoreError_RenameUncertain
| StoreError_PublishedNotDurable.

(** [From<page_alloc::Error>]. *)
Definition store_error_from_seg (e : SegError) : StoreError :=
  match e with
  | SegError_Unsupported => StoreError_DirectIoUnsupported
  | SegError_InvalidConfiguration => StoreError_InvalidConfiguration
  | SegError_Busy => StoreError_Overloaded
  | SegError_Corrupt => StoreError_CorruptRecord
  | SegError_Stale | SegError_Unavailable => StoreError_Unavailable
  | SegError_Io | SegError_SystemIo _ _ => StoreError_Io
  end.

Definition corrupt {A E} (r : result A E) : result A StoreError := map_err_to r StoreError_CorruptRecord.
Definition reject_when (b : bool) : result () StoreError := if b then Err StoreError_CorruptRecord else Ok ().

(** ** Constants *)

Definition CHECKPOINT_VERSION : N := 2.
Definition CLUSTER_BYTES : N := 36.
Definition FILE_LAYOUT_DIGEST : list N := lit "racer-file-layout-v1" ++ repeat 0 12.
Definition MAX_CHECKPOINT_BYTES : N := 64 * 1024 * 1024.
Definition CHECKPOINT_MAGIC : list N := lit "RACERCP" ++ [0].
Definition CHECKPOINT_HEADER_BYTES : N := 32.
Definition DIGEST_BYTES : N := 32.
Definition MAX_SHARDS : N := 4096.
Definition MAX_ITEMS : N := 1000000.
Definition MAX_STRING_BYTES : N := 8192.
Definition SHARD_BYTES : N := 94.
Definition SEGMENT_BYTES : N := 29.
Definition RETAINED_RECORD_BYTES : N := 20.
Definition DESCRIPTOR_BYTES : N := 52.
Definition PAGE_FIELD_BYTES : N := 56.
Definition PAGE_ENTRY_BYTES : N := DESCRIPTOR_BYTES + PAGE_FIELD_BYTES.

(** ** Images *)

Record CheckpointGeometry := mkCheckpointGeometry {
  cg_digest : list N;
  cg_slab_bytes : N;
  cg_segment_bytes : N;
  cg_segment_count : N;
  cg_memory : N;
  cg_offset : N;
  cg_length : N
}.

Record RecordLocation := mkLocation { rl_segment : N; rl_generation : N; rl_extent : Extent }.
Record IndexedPage := mkIndexedPage { ip_location : RecordLocation; ip_metadata : VersionMetadata; ip_key_id : list N }.
Record IndexSnapshot := mkIndexSnapshot { is_entries : list (PageId * IndexedPage); is_metadata : list VersionMetadata }.
Record ShardImage := mkShardImage { sh_worker : N; sh_geometry : CheckpointGeometry; sh_index : IndexSnapshot; sh_segments : list SegmentSnapshot }.
Record CheckpointImage := mkCheckpointImage { ci_version : N; ci_cluster : list N; ci_sequence : N; ci_shards : list ShardImage }.

(** [From<SegmentGeometry>]. *)
Definition checkpoint_geometry_of (g : SegmentGeometry) : CheckpointGeometry :=
  mkCheckpointGeometry FILE_LAYOUT_DIGEST (ge_slab_bytes g) (ge_segment_bytes g) (ge_segment_count g) (al_memory (ge_alignment g))
    (al_offset (ge_alignment g)) (al_length (ge_alignment g)).

(** [alignment]. *)
Definition cg_alignment (g : CheckpointGeometry) : result Alignment StoreError := corrupt (alignment_new (cg_memory g) (cg_offset g) (cg_length g)).

(** [allocation_geometry]; [validate] drops its result. *)
Definition allocation_geometry (g : CheckpointGeometry) : result SegmentGeometry StoreError :=
  let? al := cg_alignment g in
  if MAX_ITEMS <? cg_segment_count g then Err StoreError_CorruptRecord
  else corrupt (geometry_new (cg_slab_bytes g) (cg_segment_bytes g) (cg_segment_count g) al).

Definition cg_validate (g : CheckpointGeometry) : result () StoreError := let? _ := allocation_geometry g in Ok ().

(** [CheckpointGeometry::new], with [matches_alignment] and [validate_live]. *)
Definition checkpoint_geometry_new (slab_bytes segment_bytes segment_count : N) (al : Alignment) : result CheckpointGeometry StoreError :=
  let g := mkCheckpointGeometry FILE_LAYOUT_DIGEST slab_bytes segment_bytes segment_count (al_memory al) (al_offset al) (al_length al) in
  let? _ := cg_validate g in Ok g.
Definition matches_alignment (g : CheckpointGeometry) (al : Alignment) : bool :=
  (cg_memory g =? al_memory al) && (cg_offset g =? al_offset al) && (cg_length g =? al_length al).
Definition validate_live (g : CheckpointGeometry) (t : Segments) : result () StoreError :=
  let? a := allocation_geometry g in
  if bool_decide (sg_geometry t = Some a) then Ok () else Err StoreError_InvalidConfiguration.

(** ** Validation *)

(** The loop over [lengths]: a version's descriptor must agree with the last one seen of it. *)
Fixpoint compatible_from (lengths : list VersionMetadata) (l : list VersionMetadata) : option (list VersionMetadata) :=
  match l with
  | [] => Some lengths
  | m :: l =>
      match list_find (λ old, vm_version old = vm_version m) lengths with
      | Some (_, old) => if compatible old m then compatible_from (m :: lengths) l else None
      | None => compatible_from (m :: lengths) l
      end
  end.

(** The descriptors of a snapshot, standalone ones first. *)
Definition snapshot_metadata (s : IndexSnapshot) : list VersionMetadata := is_metadata s ++ (ip_metadata ∘ snd <$> is_entries s).

Fixpoint page_lengths (entries : list (PageId * IndexedPage)) : result () StoreError :=
  match entries with
  | [] => Ok ()
  | (page, entry) :: entries => let? _ := corrupt (page_length (ip_metadata entry) page) in page_lengths entries
  end.

(** [validate_metadata]. *)
Definition index_validate_metadata (s : IndexSnapshot) : result () StoreError :=
  if is_some (compatible_from [] (snapshot_metadata s)) then page_lengths (is_entries s) else Err StoreError_CorruptRecord.

(** [validate_descriptor]. *)
Definition validate_descriptor (m : VersionMetadata) : result () StoreError :=
  let v := vm_version m in
  if bool_decide (o_cache (v_object v) = []) || (MAX_STRING_BYTES <? len (o_cache (v_object v))) || (MAX_STRING_BYTES <? len (v_etag v)) ||
     (MAX_WIRE_INTEGER <? vm_length m)
  then Err StoreError_CorruptRecord
  else let? _ := corrupt (etag_parse (v_etag v)) in Ok ().

(** [HashSet::insert] for each element: all of them are new. *)
Fixpoint all_new {A} `{EqDecision A} (seen l : list A) : option (list A) :=
  match l with
  | [] => Some seen
  | x :: l => if bool_decide (x ∈ seen) then None else all_new (x :: seen) l
  end.

Fixpoint standalone_valid (versions : list ObjectVersion) (l : list VersionMetadata) : result () StoreError :=
  match l with
  | [] => Ok ()
  | m :: l =>
      let? _ := validate_descriptor m in
      if bool_decide (vm_version m ∈ versions) then Err StoreError_CorruptRecord else standalone_valid (vm_version m :: versions) l
  end.

(** The loop over the entries: their extents as (start, end). *)
Fixpoint entries_valid (t : Segments) (pages : list PageId) (l : list (PageId * IndexedPage)) : result (list (N * N)) StoreError :=
  match l with
  | [] => Ok []
  | (page, entry) :: l =>
      let? _ := validate_descriptor (ip_metadata entry) in
      if bool_decide (page ∈ pages) then Err StoreError_CorruptRecord
      else
        let loc := ip_location entry in
        let? _ := corrupt (segments_validate t (rl_segment loc) (rl_generation loc) (rl_extent loc)) in
        let? stop := ok_or (checked_add U64_MAX (ex_offset (rl_extent loc)) (ex_length (rl_extent loc))) StoreError_CorruptRecord in
        let? rest := entries_valid t (page :: pages) l in
        Ok ((ex_offset (rl_extent loc), stop) :: rest)
  end.

(** [locations]: the segment at an offset, the last entry winning. *)
Definition location_at (entries : list (PageId * IndexedPage)) (offset : N) : option N :=
  (λ '(_, (_, entry)), rl_segment (ip_location entry)) <$>
    list_find (λ '(_, entry), ex_offset (rl_extent (ip_location entry)) = offset) (reverse entries).

(** The loop over the retained records of one segment, and over the segments. *)
Fixpoint records_valid (entries : list (PageId * IndexedPage)) (id : N) (retained : list N) (records : list (N * Z)) : option (list N) :=
  match records with
  | [] => Some retained
  | (offset, until) :: records =>
      if bool_decide (offset ∈ retained) || negb (is_some (since_epoch until)) || negb (bool_decide (location_at entries offset = Some id))
      then None else records_valid entries id (offset :: retained) records
  end.

Fixpoint holds_valid (entries : list (PageId * IndexedPage)) (retained : list N) (segments : list SegmentSnapshot) : bool :=
  match segments with
  | [] => true
  | s :: segments =>
      match records_valid entries (ss_id s) retained (ss_retained s) with
      | Some retained => holds_valid entries retained segments
      | None => false
      end
  end.

(** [sort_unstable] on pairs, and the windows of two. *)
Definition pair_leb (a b : N * N) : bool := (a.1 <? b.1) || ((a.1 =? b.1) && (a.2 <=? b.2)).
Fixpoint windows_overlap (l : list (N * N)) : bool :=
  match l with
  | a :: (b :: _) as l' => (b.1 <? a.2) || windows_overlap l'
  | _ => false
  end.

(** [ShardImage::validate]; the identity of its isolated table is immaterial. *)
Definition shard_validate (s : ShardImage) : option (result () StoreError) :=
  let entries := is_entries (sh_index s) in
  match (let? a := allocation_geometry (sh_geometry s) in
         let? _ := index_validate_metadata (sh_index s) in
         let? _ := reject_when ((MAX_ITEMS <? len (sh_segments s)) || negb (len (sh_segments s) =? cg_segment_count (sh_geometry s)) ||
                                (MAX_ITEMS <? len entries) || (MAX_ITEMS <? len (is_metadata (sh_index s)))) in
         corrupt (from_geometry 0 a)) with
  | Err e => Some (Err e)
  | Ok t =>
      match restore t (sh_segments s) with
      | None => None
      | Some (Err _, _) => Some (Err StoreError_CorruptRecord)
      | Some (Ok _, t) =>
          Some (let? _ := standalone_valid [] (is_metadata (sh_index s)) in
                let? extents := entries_valid t [] entries in
                let? _ := reject_when (negb (holds_valid entries [] (sh_segments s))) in
                reject_when (windows_overlap (sort_by pair_leb extents)))
      end
  end.

(** [prune_holds]. *)
Definition prune_holds (s : ShardImage) : ShardImage :=
  let offsets := (λ '(_, entry), ex_offset (rl_extent (ip_location entry))) <$> is_entries (sh_index s) in
  mkShardImage (sh_worker s) (sh_geometry s) (sh_index s)
    ((λ g, mkSnapshot (ss_id g) (ss_generation g) (ss_state g) (ss_used g) (filter (λ '(offset, _), offset ∈ offsets) (ss_retained g))) <$> sh_segments s).

(** [Recovery::filter_available], and the filter of the shutdown cut in [WorkerApplication::checkpoint], with the availability of a
    cache and of a page key as predicates. *)
Definition filter_index (metadata_available : list N → bool) (available : list N → list N → bool) (x : IndexSnapshot) : IndexSnapshot :=
  mkIndexSnapshot (filter (λ '(page, entry), available (o_cache (v_object (p_version page))) (ip_key_id entry) = true) (is_entries x))
    (filter (λ m, metadata_available (o_cache (v_object (vm_version m))) = true) (is_metadata x)).
Definition shutdown_filter (metadata_available : list N → bool) (available : list N → list N → bool) (s : ShardImage) : ShardImage :=
  mkShardImage (sh_worker s) (sh_geometry s) (filter_index metadata_available available (sh_index s)) (sh_segments s).
Definition filter_available (metadata_available : list N → bool) (available : list N → list N → bool) (i : CheckpointImage) : CheckpointImage :=
  mkCheckpointImage (ci_version i) (ci_cluster i) (ci_sequence i)
    ((λ s, prune_holds (mkShardImage (sh_worker s) (sh_geometry s) (filter_index metadata_available available (sh_index s)) (sh_segments s))) <$> ci_shards i).

(** [valid_uuid], which the crypto crate re-exports as [canonical_uuid]. *)
Fixpoint uuid_bytes (i : nat) (l : list N) : bool :=
  match l with
  | [] => true
  | b :: l =>
      (if existsb (Nat.eqb i) [8; 13; 18; 23]%nat then b =? 45 else is_ascii_digit b || ((97 <=? b) && (b <=? 102))) && uuid_bytes (S i) l
  end.
Definition valid_uuid (value : list N) : bool := (len value =? 36) && uuid_bytes 0 value.

(** The loop of [validate_image]. *)
Fixpoint shards_valid (workers : list N) (pages : list PageId) (lengths : list VersionMetadata) (shards : list ShardImage) : option (result () StoreError) :=
  match shards with
  | [] => Some (Ok ())
  | s :: shards =>
      if bool_decide (sh_worker s ∈ workers) then Some (Err StoreError_CorruptRecord)
      else
        match shard_validate s with
        | None => None
        | Some (Err e) => Some (Err e)
        | Some (Ok _) =>
            match all_new pages (fst <$> is_entries (sh_index s)), compatible_from lengths (snapshot_metadata (sh_index s)) with
            | Some pages, Some lengths => shards_valid (sh_worker s :: workers) pages lengths shards
            | _, _ => Some (Err StoreError_CorruptRecord)
            end
        end
  end.

(** [validate_image]. *)
Definition validate_image (i : CheckpointImage) : option (result () StoreError) :=
  if negb (ci_version i =? CHECKPOINT_VERSION) || negb (len (ci_cluster i) =? CLUSTER_BYTES) || negb (valid_uuid (ci_cluster i)) ||
     bool_decide (ci_shards i = []) || (MAX_SHARDS <? len (ci_shards i))
  then Some (Err StoreError_CorruptRecord)
  else shards_valid [] [] [] (ci_shards i).

(** ** Sizes *)

(** [descriptor_string_bytes] and its uses. *)
Definition mime_bytes (m : VersionMetadata) : list N := default [] (vm_content_type m).
Definition descriptor_string_bytes (m : VersionMetadata) : N := len (o_cache (v_object (vm_version m))) + len (v_etag (vm_version m)) + len (mime_bytes m).
Definition snapshot_entry_bytes (m : VersionMetadata) : N := PAGE_ENTRY_BYTES + descriptor_string_bytes m.
Definition snapshot_metadata_bytes (m : VersionMetadata) : N := DESCRIPTOR_BYTES + descriptor_string_bytes m.

Definition snapshot_segment_bytes (records : N) : result N StoreError :=
  ok_or (checked_mul USIZE_MAX records RETAINED_RECORD_BYTES ≫= λ n, checked_add USIZE_MAX n SEGMENT_BYTES) StoreError_Overloaded.

(** [snapshot_base_bytes]. *)
Definition snapshot_base_bytes (segments : N) : result N StoreError :=
  let? segment := snapshot_segment_bytes 0 in
  ok_or (checked_mul USIZE_MAX segments segment ≫= λ n, checked_add USIZE_MAX n SHARD_BYTES) StoreError_Overloaded.

Definition add_size (total n : N) : result N StoreError := ok_or (checked_add USIZE_MAX total n) StoreError_Overloaded.

Fixpoint segments_size (total : N) (segments : list SegmentSnapshot) : result N StoreError :=
  match segments with
  | [] => Ok total
  | s :: segments =>
      let? n := snapshot_segment_bytes (len (ss_retained s)) in
      let? total := add_size total n in
      segments_size total segments
  end.

Fixpoint items_size (total : N) (sizes : list N) : result N StoreError :=
  match sizes with
  | [] => Ok total
  | n :: sizes => let? total := add_size total n in items_size total sizes
  end.

Fixpoint shards_size (total : N) (shards : list ShardImage) : result N StoreError :=
  match shards with
  | [] => Ok total
  | s :: shards =>
      let? total := add_size total SHARD_BYTES in
      let? total := segments_size total (sh_segments s) in
      let? total := items_size total ((λ '(_, entry), snapshot_entry_bytes (ip_metadata entry)) <$> is_entries (sh_index s)) in
      let? total := items_size total (snapshot_metadata_bytes <$> is_metadata (sh_index s)) in
      shards_size total shards
  end.

(** [snapshot_image_bytes]. *)
Definition snapshot_image_bytes (shards : list ShardImage) : result N StoreError :=
  shards_size (CHECKPOINT_HEADER_BYTES + CLUSTER_BYTES + 4 + DIGEST_BYTES) shards.

(** ** The encoder *)

(** [Encoder]: the output so far to the output after a field. *)
Definition Encode : Type := list N → result (list N) StoreError.

Definition enc_field (write : Writer → result () WireError * Writer) : Encode := λ out,
  match write (mkWriter out (MAX_CHECKPOINT_BYTES - DIGEST_BYTES) Endian_Little) with
  | (Ok _, w) => Ok (wr_bytes w)
  | (Err _, _) => Err StoreError_CorruptRecord
  end.

Definition enc_bytes (bytes : list N) : Encode := enc_field (λ w, writer_bytes w bytes).
Definition enc_u32 (v : N) : Encode := enc_field (λ w, writer_u32 w v).
Definition enc_u64 (v : N) : Encode := enc_field (λ w, writer_u64 w v).
Definition enc_count (v : N) : Encode := enc_field (λ w, writer_count w v).
Definition enc_string (value : list N) : Encode := enc_field (λ w, writer_prefixed w value U32_MAX).

Definition enc_seq (a b : Encode) : Encode := λ out, let? out := a out in b out.
Definition enc_all {A} (enc : A → Encode) (l : list A) : Encode := foldr (λ x k, enc_seq (enc x) k) (λ out, Ok out) l.
Definition enc_list (l : list Encode) : Encode := enc_all id l.

(** [Encoder::descriptor]. *)
Definition enc_descriptor (m : VersionMetadata) : Encode :=
  enc_list [enc_string (o_cache (v_object (vm_version m))); enc_bytes (o_key (v_object (vm_version m))); enc_string (v_etag (vm_version m));
            enc_u64 (vm_length m); enc_string (mime_bytes m)].

Definition state_byte (st : SegmentState) : N :=
  match st with SegmentState_Free => 0 | SegmentState_Open => 1 | SegmentState_Sealed => 2 | SegmentState_Evicting => 3 end.

Definition enc_record (r : N * Z) : Encode := λ out,
  match since_epoch r.2 with
  | None => Err StoreError_CorruptRecord
  | Some d => enc_list [enc_u64 r.1; enc_u64 (d / NANOS_PER_SECOND); enc_u32 (d mod NANOS_PER_SECOND)] out
  end.

Definition record_leb (a b : N * Z) : bool := a.1 <=? b.1.
Definition enc_segment (s : SegmentSnapshot) : Encode :=
  enc_list [enc_u64 (ss_id s); enc_u64 (ss_generation s); enc_bytes [state_byte (ss_state s)]; enc_u64 (ss_used s);
            enc_count (len (ss_retained s)); enc_all enc_record (sort_by record_leb (ss_retained s))].

Definition enc_entry (e : PageId * IndexedPage) : Encode :=
  let '(page, entry) := e in
  enc_list [enc_descriptor (ip_metadata entry); enc_u64 (p_number page); enc_bytes (ip_key_id entry); enc_u64 (rl_segment (ip_location entry));
            enc_u64 (rl_generation (ip_location entry)); enc_u64 (ex_offset (rl_extent (ip_location entry)));
            enc_u64 (ex_length (rl_extent (ip_location entry)))].

(** The canonical orders: [version_key], then the page number. *)
Definition version_compare (a b : ObjectVersion) : comparison :=
  then_compare (bytes_compare (o_cache (v_object a)) (o_cache (v_object b)))
    (then_compare (bytes_compare (o_key (v_object a)) (o_key (v_object b))) (bytes_compare (v_etag a) (v_etag b))).
Definition page_compare (a b : PageId) : comparison := then_compare (version_compare (p_version a) (p_version b)) (p_number a ?= p_number b).

Definition worker_leb (a b : ShardImage) : bool := sh_worker a <=? sh_worker b.
Definition segment_leb (a b : SegmentSnapshot) : bool := ss_id a <=? ss_id b.
Definition entry_leb (a b : PageId * IndexedPage) : bool := not_gt (page_compare a.1 b.1).
Definition metadata_leb (a b : VersionMetadata) : bool := not_gt (version_compare (vm_version a) (vm_version b)).

Definition enc_geometry (g : CheckpointGeometry) : Encode :=
  enc_list [enc_u64 (cg_slab_bytes g); enc_u64 (cg_segment_bytes g); enc_u64 (cg_segment_count g); enc_u64 (cg_memory g); enc_u64 (cg_offset g);
            enc_u64 (cg_length g); enc_bytes (cg_digest g)].

Definition enc_shard (s : ShardImage) : Encode :=
  enc_list [enc_bytes (endian_bytes Endian_Little 2 (sh_worker s)); enc_geometry (sh_geometry s);
            enc_count (len (sh_segments s)); enc_all enc_segment (sort_by segment_leb (sh_segments s));
            enc_count (len (is_entries (sh_index s))); enc_all enc_entry (sort_by entry_leb (is_entries (sh_index s)));
            enc_count (len (is_metadata (sh_index s))); enc_all enc_descriptor (sort_by metadata_leb (is_metadata (sh_index s)))].

Definition enc_image (i : CheckpointImage) : Encode :=
  enc_list [enc_bytes CHECKPOINT_MAGIC; enc_u32 (ci_version i); enc_u32 0; enc_u64 (ci_sequence i); enc_u64 0; enc_bytes (ci_cluster i);
            enc_count (len (ci_shards i)); enc_all enc_shard (sort_by worker_leb (ci_shards i))].

(** [out[24..32].copy_from_slice]. *)
Definition patch_length (out : list N) (length : N) : list N := take 24 out ++ endian_bytes Endian_Little 8 length ++ drop 32 out.

(** ** The decoder *)

(** [Decoder]: the input to a value and the input after it. *)
Definition Decode (A : Type) : Type := list N → result (A * list N) StoreError.

Definition dec_read {A} (read : Reader → result A WireError * Reader) : Decode A := λ input,
  match read (mkReader input Endian_Little) with
  | (Ok v, r) => Ok (v, rd_remaining r)
  | (Err _, _) => Err StoreError_CorruptRecord
  end.
Definition dec_ret {A} (a : A) : Decode A := λ input, Ok (a, input).
Definition dec_fail {A} (e : StoreError) : Decode A := λ _, Err e.
Definition dec_bind {A B} (d : Decode A) (k : A → Decode B) : Decode B := λ input, let? (a, input) := d input in k a input.
Definition dec_try {A} (r : result A StoreError) : Decode A := λ input, let? a := r in Ok (a, input).

Notation "'let%' x ':=' d 'in' k" := (dec_bind d (λ x, k))
  (at level 10, x pattern, d at level 100, k at level 200, format "'let%'  x  ':='  d  'in'  '//' k") : racer_scope.

Definition dec_take (n : nat) : Decode (list N) := dec_read (λ r, reader_take r n).
Definition dec_u32 : Decode N := dec_read reader_u32.
Definition dec_u64 : Decode N := dec_read reader_u64.
Definition dec_count (max minimum_bytes : N) : Decode N := dec_read (λ r, reader_count r max minimum_bytes).
Definition dec_string : Decode (list N) := dec_read (λ r, reader_prefixed r MAX_STRING_BYTES).

Fixpoint dec_repeat {A} (n : nat) (d : Decode A) : Decode (list A) :=
  match n with
  | O => dec_ret []
  | S n => let% a := d in let% l := dec_repeat n d in dec_ret (a :: l)
  end.

(** A counted list. *)
Definition dec_counted {A} (max minimum_bytes : N) (d : Decode A) : Decode (list A) :=
  let% count := dec_count max minimum_bytes in dec_repeat (N.to_nat count) d.

(** [Decoder::descriptor]. *)
Definition dec_descriptor : Decode VersionMetadata :=
  let% cache := dec_string in
  let% cache := dec_try (ok_or (from_utf8 cache) StoreError_CorruptRecord) in
  let% key := dec_take 32 in
  let% etag := dec_string in
  let% etag := dec_try (corrupt (etag_parse etag)) in
  let% length := dec_u64 in
  let% value := dec_string in
  let% mime := (if bool_decide (value = []) then dec_ret None else dec_try (let? v := corrupt (object_content_type_parse value) in Ok (Some v))) in
  dec_ret (mkVersionMetadata mime (mkVersion (mkObject cache key) etag) length).

Definition dec_record : Decode (N * Z) :=
  let% offset := dec_u64 in
  let% seconds := dec_u64 in
  let% nanos := dec_u32 in
  if NANOS_PER_SECOND <=? nanos then dec_fail StoreError_CorruptRecord
  else
    let% until := dec_try (ok_or (epoch_checked_add (seconds * NANOS_PER_SECOND + nanos)) StoreError_CorruptRecord) in
    dec_ret (offset, until).

Definition dec_state (b : N) : result SegmentState StoreError :=
  if b =? 0 then Ok SegmentState_Free
  else if b =? 1 then Ok SegmentState_Open
  else if b =? 2 then Ok SegmentState_Sealed
  else if b =? 3 then Ok SegmentState_Evicting
  else Err StoreError_CorruptRecord.

Definition dec_segment : Decode SegmentSnapshot :=
  let% id := dec_u64 in
  let% generation := dec_u64 in
  let% st := dec_take 1 in
  let% st := dec_try (dec_state (default 0 (head st))) in
  let% used := dec_u64 in
  let% records := dec_counted MAX_ITEMS RETAINED_RECORD_BYTES dec_record in
  dec_ret (mkSnapshot id generation st used records).

Definition dec_entry : Decode (PageId * IndexedPage) :=
  let% m := dec_descriptor in
  let% number := dec_u64 in
  let% key_id := dec_take 16 in
  let% segment := dec_u64 in
  let% generation := dec_u64 in
  let% offset := dec_u64 in
  let% length := dec_u64 in
  let% extent := dec_try (match extent_new offset length with Ok x => Ok x | Err e => Err (store_error_from_seg e) end) in
  dec_ret (mkPage (vm_version m) number, mkIndexedPage (mkLocation segment generation extent) m key_id).

Definition dec_geometry : Decode CheckpointGeometry :=
  let% slab := dec_u64 in let% bytes := dec_u64 in let% count := dec_u64 in let% memory := dec_u64 in let% offset := dec_u64 in let% length := dec_u64 in let% digest := dec_take 32 in
  dec_ret (mkCheckpointGeometry digest slab bytes count memory offset length).

Definition dec_shard : Decode ShardImage :=
  let% worker := dec_take 2 in
  let% g := dec_geometry in
  let% _ := dec_try (cg_validate g) in
  let% segments := dec_counted MAX_ITEMS SEGMENT_BYTES dec_segment in
  let% entries := dec_counted MAX_ITEMS PAGE_ENTRY_BYTES dec_entry in
  let% metadata := dec_counted MAX_ITEMS DESCRIPTOR_BYTES dec_descriptor in
  dec_ret (mkShardImage (from_endian_bytes Endian_Little worker) g (mkIndexSnapshot entries metadata) segments).

(** The fields after the digest is checked; [total] is the length of the file. *)
Definition dec_image (total : N) : Decode CheckpointImage :=
  let% magic := dec_take 8 in
  let% _ := dec_try (reject_when (negb (bool_decide (magic = CHECKPOINT_MAGIC)))) in
  let% version := dec_u32 in
  let% _ := dec_try (reject_when (negb (version =? CHECKPOINT_VERSION))) in
  let% flags := dec_u32 in
  let% _ := dec_try (reject_when (negb (flags =? 0))) in
  let% sequence := dec_u64 in
  let% length := dec_u64 in
  let% _ := dec_try (reject_when (negb (length =? total))) in
  let% cluster := dec_take 36 in
  let% cluster := dec_try (ok_or (from_utf8 cluster) StoreError_CorruptRecord) in
  let% shards := dec_counted MAX_SHARDS SHARD_BYTES dec_shard in
  dec_ret (mkCheckpointImage version cluster sequence shards).

(** [sequence_hint]. *)
Definition sequence_hint (bytes : list N) : result N StoreError :=
  if (len bytes <? CHECKPOINT_HEADER_BYTES) || negb (bool_decide (take 8 bytes = CHECKPOINT_MAGIC)) ||
     negb (from_endian_bytes Endian_Little (take 4 (drop 8 bytes)) =? CHECKPOINT_VERSION)
  then Err StoreError_CorruptRecord
  else Ok (from_endian_bytes Endian_Little (take 8 (drop 16 bytes))).

(** ** The memory preflight *)

(** [size_of] of the decoded types. *)
Record TypeSizes := mkSizes { sz_image : N; sz_shard : N; sz_segment : N; sz_page : N; sz_metadata : N }.

Section preflight.
Context (sizes : TypeSizes) (budget : N).

(** The preflight threads the bytes in use beside the input. *)
Definition Preflight : Type := N * list N → result (N * list N) StoreError.

(** [charge]. *)
Definition charge (used count size : N) : result N StoreError :=
  match checked_mul USIZE_MAX count size ≫= λ n, checked_add USIZE_MAX used n with
  | Some n => if n <=? budget then Ok n else Err StoreError_Overloaded
  | None => Err StoreError_Overloaded
  end.

(** [descriptor_bytes]. *)
Definition dec_descriptor_bytes : Decode N :=
  let% cache := dec_string in let% _ := dec_take 32 in let% etag := dec_string in let% _ := dec_take 8 in let% mime := dec_string in
  dec_ret (len cache + len etag + len mime).

Fixpoint pre_repeat (n : nat) (step : Preflight) : Preflight := λ st,
  match n with
  | O => Ok st
  | S n => let? st := step st in pre_repeat n step st
  end.

Definition pre_segment : Preflight := λ '(used, input),
  let? (_, input) := dec_take 25 input in
  let? (count, input) := dec_count MAX_ITEMS RETAINED_RECORD_BYTES input in
  let? used := charge used count 128 in
  let? (_, input) := dec_take (N.to_nat (count * RETAINED_RECORD_BYTES)) input in
  Ok (used, input).

Definition pre_descriptor : Preflight := λ '(used, input),
  let? (n, input) := dec_descriptor_bytes input in
  let? used := charge used n 4 in
  Ok (used, input).

Definition pre_entry : Preflight := λ st,
  let? (used, input) := pre_descriptor st in
  let? (_, input) := dec_take (N.to_nat PAGE_FIELD_BYTES) input in
  Ok (used, input).

Definition pre_shard : Preflight := λ '(used, input),
  let? (_, input) := dec_take 2 input in
  let? (_, input) := dec_take 16 input in
  let? (segment_count, input) := dec_u64 input in
  let? (_, input) := dec_take 24 input in
  let? (_, input) := dec_take 32 input in
  let? (segments, input) := dec_count MAX_ITEMS SEGMENT_BYTES input in
  let? _ := reject_when (negb (segment_count =? segments)) in
  let? used := charge used segments (sz_segment sizes + 512) in
  let? (used, input) := pre_repeat (N.to_nat segments) pre_segment (used, input) in
  let? (pages, input) := dec_count MAX_ITEMS PAGE_ENTRY_BYTES input in
  let? used := charge used pages (sz_page sizes + 512) in
  let? (used, input) := pre_repeat (N.to_nat pages) pre_entry (used, input) in
  let? (metadata, input) := dec_count MAX_ITEMS DESCRIPTOR_BYTES input in
  let? used := charge used metadata (sz_metadata sizes + 512) in
  pre_repeat (N.to_nat metadata) pre_descriptor (used, input).

Definition length_rejected (bytes : list N) : bool :=
  (len bytes <? CHECKPOINT_HEADER_BYTES + CLUSTER_BYTES + 4 + DIGEST_BYTES) || (MAX_CHECKPOINT_BYTES <? len bytes).

(** [bytes[..bytes.len() - DIGEST_BYTES]]. *)
Definition checkpoint_body (bytes : list N) : list N := take (length bytes - N.to_nat DIGEST_BYTES) bytes.

(** [recovery_memory]. *)
Definition recovery_memory (bytes : list N) : result N StoreError :=
  let? _ := reject_when (length_rejected bytes) in
  let? _ := sequence_hint bytes in
  let? used := charge (len bytes) 1 (sz_image sizes) in
  let input := drop (N.to_nat CHECKPOINT_HEADER_BYTES) (checkpoint_body bytes) in
  let? (_, input) := dec_take (N.to_nat CLUSTER_BYTES) input in
  let? (shards, input) := dec_count MAX_SHARDS SHARD_BYTES input in
  let? used := charge used shards (sz_shard sizes + 512) in
  let? (used, input) := pre_repeat (N.to_nat shards) pre_shard (used, input) in
  if bool_decide (input = []) then Ok used else Err StoreError_CorruptRecord.

End preflight.

(** ** Encode and decode *)

Section codec.
Context (sha256 : list N → list N) (sizes : TypeSizes).

(** [encode]. *)
Definition checkpoint_encode (i : CheckpointImage) : option (result (list N) StoreError) :=
  match validate_image i with
  | None => None
  | Some (Err e) => Some (Err e)
  | Some (Ok _) =>
      Some (let? out := enc_image i [] in
            let? length := ok_or (checked_add USIZE_MAX (len out) DIGEST_BYTES) StoreError_CorruptRecord in
            let out := patch_length out length in
            Ok (out ++ sha256 out))
  end.

(** [decode_with_budget]; [decode] has the budget [MAX_CHECKPOINT_BYTES]. *)
Definition decode_with_budget (bytes : list N) (budget : N) : option (result CheckpointImage StoreError) :=
  match (let? _ := recovery_memory sizes budget bytes in
         let? _ := reject_when (length_rejected bytes) in
         let? _ := reject_when (negb (bool_decide (sha256 (checkpoint_body bytes) = drop (length bytes - N.to_nat DIGEST_BYTES) bytes))) in
         let? (i, input) := dec_image (len bytes) (checkpoint_body bytes) in
         if bool_decide (input = []) then Ok i else Err StoreError_CorruptRecord) with
  | Err e => Some (Err e)
  | Ok i =>
      match validate_image i with
      | None => None
      | Some (Err e) => Some (Err e)
      | Some (Ok _) => Some (Ok i)
      end
  end.

Definition checkpoint_decode (bytes : list N) : option (result CheckpointImage StoreError) := decode_with_budget bytes MAX_CHECKPOINT_BYTES.

End codec.
