(* ===== verification/CheckpointCodec.v ===== *)
(** * Checkpoints: the codec

    The encoder's output as a function of the image, with its length, and what the decoder and the memory preflight make of it. *)

From S2P Require Import Prelude Bytes Http ObjectModel WireCodec Segments Checkpoint.
Local Open Scope racer_scope.
Local Open Scope N_scope.

(** ** What the encoder writes *)

Definition ENCODER_LIMIT : N := MAX_CHECKPOINT_BYTES - DIGEST_BYTES.

(** [e] appends [x], or fails when the output would exceed its limit. *)
Definition writes (e : Encode) (x : list N) : Prop :=
  ∀ out, len out <= ENCODER_LIMIT → e out = if len out + len x <=? ENCODER_LIMIT then Ok (out ++ x) else Err StoreError_CorruptRecord.

Notation le_bytes := (endian_bytes Endian_Little).

Lemma writes_parts (parts : list (list N)) : parts ≠ [] → writes (enc_field (λ w, writer_append w parts)) (concat parts).
Proof.
  intros Hne out Hout. unfold enc_field, writer_append. cbn [wr_bytes wr_maximum wr_endian]. fold ENCODER_LIMIT. rewrite parts_length_spec.
  destruct (N.leb_spec (len out + len (concat parts)) ENCODER_LIMIT) as [Hle|Hgt].
  - assert (len out + len (concat parts) <= USIZE_MAX) by (unfold ENCODER_LIMIT, MAX_CHECKPOINT_BYTES, DIGEST_BYTES in Hle; unfold USIZE_MAX, U64_MAX; lia).
    rewrite (proj2 (N.leb_le _ _)) by done. by rewrite (proj2 (N.ltb_ge _ _)) by done.
  - destruct (_ <=? USIZE_MAX); [by rewrite (proj2 (N.ltb_lt _ _))|]. by rewrite bool_decide_eq_false_2.
Qed.

Lemma writes_bytes x : writes (enc_bytes x) x.
Proof. pose proof (writes_parts [x] ltac:(done)) as H. simpl in H. by rewrite app_nil_r in H. Qed.

Lemma writes_u32 v : writes (enc_u32 v) (le_bytes 4 v).
Proof. exact (writes_bytes (le_bytes 4 v)). Qed.

Lemma writes_u64 v : writes (enc_u64 v) (le_bytes 8 v).
Proof. exact (writes_bytes (le_bytes 8 v)). Qed.

Lemma writes_count v : v <= U32_MAX → writes (enc_count v) (le_bytes 4 v).
Proof. intros Hv out Hout. unfold enc_count, enc_field, writer_count. rewrite (proj2 (N.ltb_ge _ _)) by done. by apply writes_u32. Qed.

Definition put_string (s : list N) : list N := le_bytes 4 (len s) ++ s.

Lemma writes_string s : len s <= U32_MAX → writes (enc_string s) (put_string s).
Proof.
  intros Hs out Hout. unfold enc_string, enc_field, writer_prefixed. rewrite (proj2 (N.ltb_ge _ _)) by done.
  pose proof (writes_parts [le_bytes 4 (len s); s] ltac:(done) out Hout) as H. simpl in H. by rewrite app_nil_r in H.
Qed.

Lemma writes_seq a b x y : writes a x → writes b y → writes (enc_seq a b) (x ++ y).
Proof.
  intros Ha Hb out Hout. unfold enc_seq. rewrite (Ha out Hout), len_app. destruct (N.leb_spec (len out + len x) ENCODER_LIMIT) as [Hle|Hgt].
  - cbn [result_bind]. rewrite Hb by (by rewrite len_app). rewrite len_app, N.add_assoc, (assoc_L (++)). done.
  - cbn [result_bind]. by rewrite (proj2 (N.leb_gt _ _)) by lia.
Qed.

Lemma writes_all {A} (enc : A → Encode) (put : A → list N) (l : list A) :
  (∀ a, a ∈ l → writes (enc a) (put a)) → writes (enc_all enc l) (concat (put <$> l)).
Proof.
  induction l as [|a l IH]; intros Hl.
  - intros out Hout. change (len (concat (put <$> []))) with 0. rewrite N.add_0_r, (proj2 (N.leb_le _ _)) by done. simpl. by rewrite app_nil_r.
  - simpl. apply writes_seq; [apply Hl; set_solver|apply IH; set_solver].
Qed.

Lemma writes_list (es : list Encode) (xs : list (list N)) : Forall2 writes es xs → writes (enc_list es) (concat xs).
Proof.
  induction 1 as [|e x es xs He _ IH]; [apply (writes_all id (λ _, []) [])|].
  - intros a Ha. by apply elem_of_nil in Ha.
  - by apply (writes_seq e (enc_list es)).
Qed.

(** ** The bytes of an image *)

Definition put_descriptor (m : VersionMetadata) : list N :=
  concat [put_string (o_cache (v_object (vm_version m))); o_key (v_object (vm_version m)); put_string (v_etag (vm_version m));
          le_bytes 8 (vm_length m); put_string (mime_bytes m)].

Definition put_record (r : N * Z) : list N :=
  let d := Z.to_N r.2 in concat [le_bytes 8 r.1; le_bytes 8 (d / NANOS_PER_SECOND); le_bytes 4 (d mod NANOS_PER_SECOND)].

Definition put_list {A} (put : A → list N) (l : list A) : list N := le_bytes 4 (len l) ++ concat (put <$> l).

Definition put_segment (s : SegmentSnapshot) : list N :=
  concat [le_bytes 8 (ss_id s); le_bytes 8 (ss_generation s); [state_byte (ss_state s)]; le_bytes 8 (ss_used s);
          put_list put_record (ss_retained s)].

Definition put_entry (e : PageId * IndexedPage) : list N :=
  let '(page, entry) := e in
  concat [put_descriptor (ip_metadata entry); le_bytes 8 (p_number page); ip_key_id entry; le_bytes 8 (rl_segment (ip_location entry));
          le_bytes 8 (rl_generation (ip_location entry)); le_bytes 8 (ex_offset (rl_extent (ip_location entry)));
          le_bytes 8 (ex_length (rl_extent (ip_location entry)))].

Definition put_geometry (g : CheckpointGeometry) : list N :=
  concat [le_bytes 8 (cg_slab_bytes g); le_bytes 8 (cg_segment_bytes g); le_bytes 8 (cg_segment_count g); le_bytes 8 (cg_memory g);
          le_bytes 8 (cg_offset g); le_bytes 8 (cg_length g); cg_digest g].

Definition put_shard (s : ShardImage) : list N :=
  concat [le_bytes 2 (sh_worker s); put_geometry (sh_geometry s); put_list put_segment (sh_segments s);
          put_list put_entry (is_entries (sh_index s)); put_list put_descriptor (is_metadata (sh_index s))].

Definition put_image (total : N) (i : CheckpointImage) : list N :=
  concat [CHECKPOINT_MAGIC; le_bytes 4 (ci_version i); le_bytes 4 0; le_bytes 8 (ci_sequence i); le_bytes 8 total; ci_cluster i;
          put_list put_shard (ci_shards i)].

(** The image in the encoder's order. *)
Definition canon_segment (s : SegmentSnapshot) : SegmentSnapshot :=
  mkSnapshot (ss_id s) (ss_generation s) (ss_state s) (ss_used s) (sort_by record_leb (ss_retained s)).
Definition canon_shard (s : ShardImage) : ShardImage :=
  mkShardImage (sh_worker s) (sh_geometry s)
    (mkIndexSnapshot (sort_by entry_leb (is_entries (sh_index s))) (sort_by metadata_leb (is_metadata (sh_index s))))
    (canon_segment <$> sort_by segment_leb (sh_segments s)).
Definition canon_image (i : CheckpointImage) : CheckpointImage :=
  mkCheckpointImage (ci_version i) (ci_cluster i) (ci_sequence i) (canon_shard <$> sort_by worker_leb (ci_shards i)).

(** ** Values that the types of the source hold *)

Record metadata_typed (m : VersionMetadata) : Prop := {
  mt_cache : from_utf8 (o_cache (v_object (vm_version m))) = Some (o_cache (v_object (vm_version m)));
  mt_key : length (o_key (v_object (vm_version m))) = 32%nat;
  mt_etag : etag_parse (v_etag (vm_version m)) = Ok (v_etag (vm_version m));
  mt_length : vm_length m <= U64_MAX;
  mt_mime : ∀ v, vm_content_type m = Some v → object_content_type_parse v = Ok v
}.

(** [SystemTime] counts seconds in an [i64]. *)
Definition time_typed (z : Z) : Prop := (z < Z.of_N ((MAX_WIRE_INTEGER + 1) * NANOS_PER_SECOND))%Z.

Record segment_typed (s : SegmentSnapshot) : Prop := {
  st_id : ss_id s <= U64_MAX;
  st_generation : ss_generation s <= U64_MAX;
  st_used : ss_used s <= U64_MAX;
  st_records : ∀ offset until, (offset, until) ∈ ss_retained s → offset <= U64_MAX ∧ time_typed until
}.

Record entry_typed (e : PageId * IndexedPage) : Prop := {
  et_metadata : metadata_typed (ip_metadata e.2);
  et_number : p_number e.1 <= U64_MAX;
  et_key_id : length (ip_key_id e.2) = 16%nat;
  et_segment : rl_segment (ip_location e.2) <= U64_MAX;
  et_generation : rl_generation (ip_location e.2) <= U64_MAX;
  et_extent : extent_new (ex_offset (rl_extent (ip_location e.2))) (ex_length (rl_extent (ip_location e.2))) = Ok (rl_extent (ip_location e.2))
}.

Record geometry_typed (g : CheckpointGeometry) : Prop := {
  gt_digest : length (cg_digest g) = 32%nat;
  gt_bounds : Forall (λ v, v <= U64_MAX) [cg_slab_bytes g; cg_segment_bytes g; cg_segment_count g; cg_memory g; cg_offset g; cg_length g]
}.

Record shard_typed (s : ShardImage) : Prop := {
  sh_worker_typed : sh_worker s < 65536;
  sh_geometry_typed : geometry_typed (sh_geometry s);
  sh_segments_typed : ∀ g, g ∈ sh_segments s → segment_typed g;
  sh_entries_typed : ∀ e, e ∈ is_entries (sh_index s) → entry_typed e;
  sh_metadata_typed : ∀ m, m ∈ is_metadata (sh_index s) → metadata_typed m
}.

Record image_typed (i : CheckpointImage) : Prop := {
  it_cluster : from_utf8 (ci_cluster i) = Some (ci_cluster i);
  it_sequence : ci_sequence i <= U64_MAX;
  it_shards : ∀ s, s ∈ ci_shards i → shard_typed s
}.

(** ** What an image that passes validation also has *)

Definition metadata_codable (m : VersionMetadata) : Prop := metadata_typed m ∧ len (o_cache (v_object (vm_version m))) <= MAX_STRING_BYTES.

Record segment_codable (s : SegmentSnapshot) : Prop := {
  gc_typed : segment_typed s;
  gc_records : len (ss_retained s) <= MAX_ITEMS;
  gc_times : ∀ offset until, (offset, until) ∈ ss_retained s → (0 <= until)%Z
}.

Definition entry_codable (e : PageId * IndexedPage) : Prop :=
  entry_typed e ∧ metadata_codable (ip_metadata e.2) ∧ p_version e.1 = vm_version (ip_metadata e.2).

Record shard_codable (s : ShardImage) : Prop := {
  sc_worker : sh_worker s < 65536;
  sc_geometry : geometry_typed (sh_geometry s);
  sc_valid : cg_validate (sh_geometry s) = Ok ();
  sc_count : len (sh_segments s) = cg_segment_count (sh_geometry s);
  sc_segments : len (sh_segments s) <= MAX_ITEMS ∧ ∀ g, g ∈ sh_segments s → segment_codable g;
  sc_entries : len (is_entries (sh_index s)) <= MAX_ITEMS ∧ ∀ e, e ∈ is_entries (sh_index s) → entry_codable e;
  sc_metadata : len (is_metadata (sh_index s)) <= MAX_ITEMS ∧ ∀ m, m ∈ is_metadata (sh_index s) → metadata_codable m
}.

Record image_codable (i : CheckpointImage) : Prop := {
  ic_version : ci_version i = CHECKPOINT_VERSION;
  ic_cluster : from_utf8 (ci_cluster i) = Some (ci_cluster i) ∧ len (ci_cluster i) = CLUSTER_BYTES;
  ic_sequence : ci_sequence i <= U64_MAX;
  ic_shards : len (ci_shards i) <= MAX_SHARDS ∧ ∀ s, s ∈ ci_shards i → shard_codable s
}.

Lemma len_perm {A} (l k : list A) : l ≡ₚ k → len l = len k.
Proof. intros Hp. unfold len. by rewrite Hp. Qed.

Lemma canon_segment_codable s : segment_codable s → segment_codable (canon_segment s).
Proof.
  intros [[? ? ? Hr] Hl Ht]. pose proof (sort_by_perm record_leb (ss_retained s)) as Hp.
  split; simpl; [split; simpl; try done|by rewrite (len_perm _ _ Hp)|]; intros offset until; rewrite Hp; eauto.
Qed.

Lemma canon_shard_codable s : shard_codable s → shard_codable (canon_shard s).
Proof.
  intros [? ? ? Hc [Hs1 Hs2] [He1 He2] [Hm1 Hm2]].
  assert (len (canon_segment <$> sort_by segment_leb (sh_segments s)) = len (sh_segments s)) as Hls.
  { unfold len. rewrite length_fmap. by rewrite (sort_by_perm segment_leb (sh_segments s)). }
  split; simpl; [done|done|done|by rewrite Hls| | |].
  - rewrite Hls. split; [done|]. intros g (g0 & -> & Hg)%list_elem_of_fmap. rewrite (sort_by_perm segment_leb) in Hg. apply canon_segment_codable. auto.
  - rewrite (len_perm _ _ (sort_by_perm entry_leb _)). split; [done|]. intros e. rewrite (sort_by_perm entry_leb). auto.
  - rewrite (len_perm _ _ (sort_by_perm metadata_leb _)). split; [done|]. intros m. rewrite (sort_by_perm metadata_leb). auto.
Qed.

Lemma canon_image_codable i : image_codable i → image_codable (canon_image i).
Proof.
  intros [? ? ? [Hs1 Hs2]].
  assert (len (canon_shard <$> sort_by worker_leb (ci_shards i)) = len (ci_shards i)) as Hls.
  { unfold len. rewrite length_fmap. by rewrite (sort_by_perm worker_leb (ci_shards i)). }
  split; simpl; [done|done|done|]. rewrite Hls. split; [done|]. intros s (s0 & -> & Hs)%list_elem_of_fmap.
  rewrite (sort_by_perm worker_leb) in Hs. apply canon_shard_codable. auto.
Qed.

(** ** The encoder writes those bytes *)

Lemma etag_bytes_bound v t : etag_parse v = Ok t → len v <= MAX_STRING_BYTES.
Proof.
  unfold etag_parse. destruct (N.leb_spec (len v) MAX_FIELD_BYTES) as [H|H]; [done|]. rewrite andb_false_r. done.
Qed.

Lemma mime_bytes_bound m : metadata_typed m → len (mime_bytes m) <= MAX_CONTENT_TYPE_BYTES ∧ (vm_content_type m ≠ None → mime_bytes m ≠ []).
Proof.
  intros Hm. unfold mime_bytes. destruct (vm_content_type m) as [v|] eqn:E; simpl; [|done].
  pose proof (mt_mime m Hm v E) as Hp. unfold object_content_type_parse in Hp. destruct (N.ltb_spec MAX_CONTENT_TYPE_BYTES (len v)); [done|].
  split; [done|]. intros _ ->. done.
Qed.

Lemma string_bound (s : list N) : len s <= MAX_STRING_BYTES → len s <= U32_MAX.
Proof. unfold MAX_STRING_BYTES, U32_MAX. lia. Qed.

Lemma items_bound n : n <= MAX_ITEMS → n <= U32_MAX.
Proof. unfold MAX_ITEMS, U32_MAX. lia. Qed.

Lemma mime_string_bound m : metadata_typed m → len (mime_bytes m) <= MAX_STRING_BYTES.
Proof. intros [H _]%mime_bytes_bound. unfold MAX_CONTENT_TYPE_BYTES, MAX_STRING_BYTES in *. lia. Qed.

Lemma writes_descriptor m : metadata_codable m → writes (enc_descriptor m) (put_descriptor m).
Proof.
  intros [Hm Hc]. pose proof (etag_bytes_bound _ _ (mt_etag m Hm)). pose proof (mime_string_bound m Hm).
  apply writes_list. repeat constructor; auto using writes_string, writes_bytes, writes_u64, string_bound.
Qed.

Lemma writes_record r : (0 <= r.2)%Z → writes (enc_record r) (put_record r).
Proof.
  intros Hr out Hout. unfold enc_record, since_epoch. rewrite (proj2 (Z.ltb_ge _ _)) by done. revert out Hout. fold (writes (enc_list
    [enc_u64 r.1; enc_u64 (Z.to_N r.2 / NANOS_PER_SECOND); enc_u32 (Z.to_N r.2 mod NANOS_PER_SECOND)]) (put_record r)).
  apply writes_list. repeat constructor; auto using writes_u64, writes_u32.
Qed.

(** A count, its items, and the fields after them. *)
Lemma writes_put_list {A} (enc : A → Encode) (put : A → list N) (l k : list A) (es : list Encode) (y : list N) :
  l ≡ₚ k → len k <= U32_MAX → (∀ a, a ∈ k → writes (enc a) (put a)) → writes (enc_list es) y →
  writes (enc_list (enc_count (len l) :: enc_all enc k :: es)) (put_list put k ++ y).
Proof.
  intros Hl Hk Hw Hes. unfold put_list. rewrite <- (assoc_L (++)). rewrite (len_perm l k Hl).
  apply (writes_seq _ (enc_list _)); [by apply writes_count|]. apply (writes_seq _ (enc_list es)); [by apply writes_all|done].
Qed.

Lemma writes_segment s : segment_codable s → writes (enc_segment s) (put_segment (canon_segment s)).
Proof.
  intros Hs. pose proof (sort_by_perm record_leb (ss_retained s)) as Hp. pose proof (gc_records s Hs).
  apply (writes_list [_; _; _; _; _; _] [_; _; _; _; le_bytes 4 (len (ss_retained (canon_segment s))); concat (put_record <$> ss_retained (canon_segment s))]).
  simpl. rewrite (len_perm _ _ Hp). repeat constructor; auto using writes_u64, writes_bytes, writes_count, items_bound.
  apply writes_all. intros [offset until]. rewrite Hp. intros Hin. apply writes_record. by eapply gc_times.
Qed.

Lemma writes_entry e : entry_codable e → writes (enc_entry e) (put_entry e).
Proof.
  intros (_ & Hm & _). destruct e as [page entry]. apply writes_list. repeat constructor; auto using writes_u64, writes_bytes, writes_descriptor.
Qed.

Lemma writes_geometry g : writes (enc_geometry g) (put_geometry g).
Proof. apply writes_list. repeat constructor; auto using writes_u64, writes_bytes. Qed.

Lemma put_list_fmap {A B} (put : B → list N) (f : A → B) (l : list A) : put_list put (f <$> l) = put_list (put ∘ f) l.
Proof. unfold put_list. f_equal; [unfold len; by rewrite length_fmap|]. by rewrite list_fmap_compose. Qed.

Lemma writes_nil : writes (enc_list []) [].
Proof. by apply (writes_list [] []). Qed.

Lemma writes_shard s : shard_codable s → writes (enc_shard s) (put_shard (canon_shard s)).
Proof.
  intros [? ? ? ? [Hs1 Hs2] [He1 He2] [Hm1 Hm2]]. unfold put_shard. cbn [concat sh_segments canon_shard sh_index is_entries is_metadata sh_worker sh_geometry].
  rewrite put_list_fmap. pose proof (sort_by_perm segment_leb (sh_segments s)) as Ps.
  pose proof (sort_by_perm entry_leb (is_entries (sh_index s))) as Pe. pose proof (sort_by_perm metadata_leb (is_metadata (sh_index s))) as Pm.
  apply (writes_seq _ (enc_list _)); [apply writes_bytes|]. apply (writes_seq _ (enc_list _)); [apply writes_geometry|].
  apply writes_put_list; [done|rewrite (len_perm _ _ Ps); by apply items_bound|intros g; rewrite Ps; intros Hg; by apply writes_segment, Hs2|].
  apply writes_put_list; [done|rewrite (len_perm _ _ Pe); by apply items_bound|intros e; rewrite Pe; intros He; by apply writes_entry, He2|].
  apply writes_put_list; [done|rewrite (len_perm _ _ Pm); by apply items_bound|intros m; rewrite Pm; intros Hm; by apply writes_descriptor, Hm2|].
  apply writes_nil.
Qed.

Lemma writes_image i : image_codable i → writes (enc_image i) (put_image 0 (canon_image i)).
Proof.
  intros [? ? ? [Hs1 Hs2]]. unfold put_image. cbn [concat canon_image ci_version ci_cluster ci_sequence ci_shards]. rewrite put_list_fmap.
  pose proof (sort_by_perm worker_leb (ci_shards i)) as Ps.
  apply (writes_seq _ (enc_list _)); [apply writes_bytes|]. apply (writes_seq _ (enc_list _)); [apply writes_u32|].
  apply (writes_seq _ (enc_list _)); [apply writes_u32|]. apply (writes_seq _ (enc_list _)); [apply writes_u64|].
  apply (writes_seq _ (enc_list _)); [apply writes_u64|]. apply (writes_seq _ (enc_list _)); [apply writes_bytes|].
  apply writes_put_list; [done| |intros s; rewrite Ps; intros Hs; by apply writes_shard, Hs2|apply writes_nil].
  rewrite (len_perm _ _ Ps). unfold MAX_SHARDS, U32_MAX in *. lia.
Qed.

(** ** The decoder reads them back *)

(** [d] takes [x] for [a], whatever follows. *)
Definition reads {A} (d : Decode A) (x : list N) (a : A) : Prop := ∀ rest, d (x ++ rest) = Ok (a, rest).

Lemma reads_bind {A B} (d : Decode A) (k : A → Decode B) x y a b : reads d x a → reads (k a) y b → reads (dec_bind d k) (x ++ y) b.
Proof. intros Hd Hk rest. unfold dec_bind. rewrite <- (assoc_L (++)), (Hd (y ++ rest)). cbn [result_bind]. apply Hk. Qed.

Lemma reads_ret {A} (a : A) : reads (dec_ret a) [] a.
Proof. by intros rest. Qed.

Lemma reads_try {A B} (r : result A StoreError) (k : A → Decode B) a x b : r = Ok a → reads (k a) x b → reads (dec_bind (dec_try r) k) x b.
Proof. intros -> Hk rest. apply Hk. Qed.

Lemma reads_take n x : length x = n → reads (dec_take n) x x.
Proof. intros <- rest. unfold dec_take, dec_read. by rewrite reader_take_app. Qed.

Lemma reads_u32 v : v <= U32_MAX → reads dec_u32 (le_bytes 4 v) v.
Proof.
  intros Hv rest. unfold dec_u32, dec_read, reader_u32. rewrite reader_int_app; [done|].
  unfold U32_MAX in Hv. change (256 ^ N.of_nat 4) with 4294967296. lia.
Qed.

Lemma reads_u64 v : v <= U64_MAX → reads dec_u64 (le_bytes 8 v) v.
Proof.
  intros Hv rest. unfold dec_u64, dec_read, reader_u64. rewrite reader_int_app; [done|].
  unfold U64_MAX in Hv. change (256 ^ N.of_nat 8) with 18446744073709551616. lia.
Qed.

Lemma reads_string s : len s <= MAX_STRING_BYTES → reads dec_string (put_string s) s.
Proof.
  intros Hs rest. unfold dec_string, dec_read, put_string. rewrite <- (assoc_L (++)). by rewrite reader_prefixed_app by auto using string_bound.
Qed.

Lemma reads_repeat {A} (d : Decode A) (put : A → list N) (l : list A) :
  (∀ a, a ∈ l → reads d (put a) a) → reads (dec_repeat (length l) d) (concat (put <$> l)) l.
Proof.
  induction l as [|a l IH]; intros Hl; simpl; [apply reads_ret|]. eapply reads_bind; [apply Hl; set_solver|].
  rewrite <- (app_nil_r (concat _)). eapply reads_bind; [apply IH; set_solver|apply reads_ret].
Qed.

Lemma concat_length_ge {A} (put : A → list N) (l : list A) minimum : (∀ a, a ∈ l → minimum <= len (put a)) → len l * minimum <= len (concat (put <$> l)).
Proof.
  induction l as [|a l IH]; intros Hl; [done|]. rewrite fmap_cons. cbn [concat]. rewrite len_app, len_cons. pose proof (Hl a ltac:(set_solver)). pose proof (IH ltac:(set_solver)). nia.
Qed.

Lemma reads_count n max minimum rest : n <= max → n <= U32_MAX → n * minimum <= len rest → dec_count max minimum (le_bytes 4 n ++ rest) = Ok (n, rest).
Proof. intros ???. unfold dec_count, dec_read. by rewrite reader_count_app. Qed.

(** A counted list is read back when each item has the minimum that the count is checked against. *)
Lemma reads_counted {A} (d : Decode A) (put : A → list N) (l : list A) max minimum : len l <= max → len l <= U32_MAX →
  (∀ a, a ∈ l → minimum <= len (put a)) → (∀ a, a ∈ l → reads d (put a) a) → reads (dec_counted max minimum d) (put_list put l) l.
Proof.
  intros Hmax Hu Hmin Hl rest. unfold dec_counted, dec_bind, put_list. rewrite <- (assoc_L (++)).
  pose proof (concat_length_ge put l minimum Hmin). rewrite reads_count by (rewrite ?len_app; lia). cbn [result_bind].
  unfold len. rewrite Nat2N.id. by apply reads_repeat.
Qed.

(** ** Lengths *)

Lemma len_le n v : len (le_bytes n v) = N.of_nat n.
Proof. unfold len. by rewrite endian_bytes_length. Qed.

Lemma len_concat_cons {A} (x : list A) xs : len (concat (x :: xs)) = len x + len (concat xs).
Proof. apply len_app. Qed.

Ltac len_solve := unfold put_string, put_list; repeat (rewrite ?len_concat_cons, ?len_app, ?len_le); change (len (concat (@nil (list N)))) with 0.

Lemma len_put_descriptor m : metadata_typed m → len (put_descriptor m) = DESCRIPTOR_BYTES + descriptor_string_bytes m.
Proof.
  intros Hm. unfold put_descriptor, descriptor_string_bytes. len_solve. assert (len (o_key (v_object (vm_version m))) = 32) as ->.
  { unfold len. by rewrite (mt_key m Hm). } unfold DESCRIPTOR_BYTES. lia.
Qed.

Lemma len_put_record r : len (put_record r) = RETAINED_RECORD_BYTES.
Proof. unfold put_record. by len_solve. Qed.

Lemma len_concat_const {A} (put : A → list N) (l : list A) n : (∀ a, a ∈ l → len (put a) = n) → len (concat (put <$> l)) = len l * n.
Proof.
  induction l as [|a l IH]; intros Hl; [done|]. rewrite fmap_cons. cbn [concat]. rewrite len_app, len_cons, Hl, IH by set_solver. lia.
Qed.

Lemma len_put_segment s : len (put_segment s) = SEGMENT_BYTES + len (ss_retained s) * RETAINED_RECORD_BYTES.
Proof.
  unfold put_segment. len_solve. rewrite (len_concat_const put_record _ RETAINED_RECORD_BYTES) by (intros; apply len_put_record).
  change (len [state_byte (ss_state s)]) with 1. unfold SEGMENT_BYTES. lia.
Qed.

Lemma len_put_entry e : entry_typed e → len (put_entry e) = PAGE_ENTRY_BYTES + descriptor_string_bytes (ip_metadata e.2).
Proof.
  intros He. destruct e as [page entry]. unfold put_entry. len_solve. rewrite len_put_descriptor by apply He. simpl.
  assert (len (ip_key_id entry) = 16) as -> by (unfold len; pose proof (et_key_id _ He) as Hk; simpl in Hk; by rewrite Hk). unfold PAGE_ENTRY_BYTES, PAGE_FIELD_BYTES. lia.
Qed.

Lemma len_put_geometry g : geometry_typed g → len (put_geometry g) = 80.
Proof. intros Hg. unfold put_geometry. len_solve. assert (len (cg_digest g) = 32) as -> by (unfold len; by rewrite (gt_digest g Hg)). lia. Qed.

Lemma len_put_shard s : geometry_typed (sh_geometry s) →
  len (put_shard s) = SHARD_BYTES + len (concat (put_segment <$> sh_segments s)) + len (concat (put_entry <$> is_entries (sh_index s))) +
    len (concat (put_descriptor <$> is_metadata (sh_index s))).
Proof. intros Hg. unfold put_shard. len_solve. rewrite len_put_geometry by done. unfold SHARD_BYTES. lia. Qed.

(** ** Reading an image *)

Lemma reads_descriptor m : metadata_codable m → reads dec_descriptor (put_descriptor m) m.
Proof.
  intros [Hm Hc]. pose proof (etag_bytes_bound _ _ (mt_etag m Hm)). pose proof (mime_string_bound m Hm). pose proof (mime_bytes_bound m Hm) as [_ Hne].
  eapply reads_bind; [by apply reads_string|]. eapply reads_try; [by rewrite (mt_cache m Hm)|].
  eapply reads_bind; [apply reads_take, Hm|]. eapply reads_bind; [by apply reads_string|].
  eapply reads_try; [unfold corrupt; by rewrite (mt_etag m Hm)|]. eapply reads_bind; [apply reads_u64, Hm|].
  eapply reads_bind; [by apply reads_string|]. destruct m as [mime [[cache key] etag] length]. unfold mime_bytes in *. simpl in *.
  destruct mime as [v|]; simpl in *; cbv beta.
  - rewrite bool_decide_eq_false_2 by (by apply Hne). eapply reads_try; [|apply reads_ret]. unfold corrupt. by rewrite (mt_mime _ Hm v eq_refl).
  - apply (reads_bind _ _ [] [] None); apply reads_ret.
Qed.

Lemma reads_record r : (0 <= r.2)%Z → r.1 <= U64_MAX → time_typed r.2 → reads dec_record (put_record r) r.
Proof.
  intros Hr Ho Ht. unfold time_typed in Ht. destruct r as [offset until]. cbn [fst snd] in *. set (d := Z.to_N until).
  assert (d < (MAX_WIRE_INTEGER + 1) * NANOS_PER_SECOND) by (apply N2Z.inj_lt; unfold d; by rewrite Z2N.id).
  pose proof (N.div_mod d NANOS_PER_SECOND ltac:(done)) as Hdm. pose proof (N.mod_lt d NANOS_PER_SECOND ltac:(done)) as Hm.
  assert (d / NANOS_PER_SECOND < MAX_WIRE_INTEGER + 1) as Hq by (apply N.Div0.div_lt_upper_bound; lia).
  unfold put_record. cbv zeta. cbn [fst snd]. fold d. eapply reads_bind; [by apply reads_u64|].
  eapply reads_bind; [apply reads_u64; unfold MAX_WIRE_INTEGER in Hq; unfold U64_MAX; lia|].
  eapply reads_bind; [apply reads_u32; etrans; [apply N.lt_le_incl, Hm|done]|]. cbn [fst snd]. fold d.
  rewrite (proj2 (N.leb_gt _ _)) by done. replace (d / NANOS_PER_SECOND * NANOS_PER_SECOND + d mod NANOS_PER_SECOND) with d by lia.
  eapply reads_try; [unfold epoch_checked_add; change SECOND with NANOS_PER_SECOND; rewrite (proj2 (N.leb_le _ _)) by lia; done|].
  intros rest. unfold dec_ret. simpl. do 2 f_equal. unfold d. f_equal. lia.
Qed.

Lemma reads_segment s : segment_codable s → reads dec_segment (put_segment s) s.
Proof.
  intros [[Hi Hg Hu Hr] Hl Ht]. unfold dec_segment.
  eapply reads_bind; [by apply reads_u64|]. eapply reads_bind; [by apply reads_u64|]. eapply reads_bind; [by apply reads_take|].
  eapply (reads_try _ _ (ss_state s)); [by destruct (ss_state s)|]. eapply reads_bind; [by apply reads_u64|].
  apply (reads_bind _ _ (put_list put_record (ss_retained s)) [] (ss_retained s)); [|intros rest; by destruct s]. apply reads_counted; [done|by apply items_bound|intros r _; by rewrite len_put_record|].
  intros [offset until] Hin. destruct (Hr _ _ Hin). apply reads_record; [by eapply Ht|done|done].
Qed.

Lemma reads_entry e : entry_codable e → reads dec_entry (put_entry e) e.
Proof.
  intros (He & Hm & Hv). destruct e as [page [[segment generation extent] m key_id]], He as [_ Hn Hk Hs Hg Hx]. unfold dec_entry, put_entry.
  cbn [concat fst snd ip_metadata ip_location ip_key_id rl_segment rl_generation rl_extent] in *.
  destruct (extent_new (ex_offset extent) (ex_length extent)) as [x|] eqn:Ex; [|done]. injection Hx as ->.
  assert (ex_offset extent <= U64_MAX ∧ ex_length extent <= U64_MAX) as [Ho Hl].
  { revert Ex. unfold extent_new. destruct (checked_add U64_MAX (ex_offset extent) (ex_length extent)) as [z|] eqn:E; [|by rewrite orb_true_r].
    intros _. apply checked_add_Some in E as [? _]. lia. }
  eapply reads_bind; [by apply reads_descriptor|]. eapply reads_bind; [by apply reads_u64|]. eapply reads_bind; [by apply reads_take|].
  do 4 (eapply reads_bind; [by apply reads_u64|]). eapply reads_try; [by rewrite Ex|]. destruct page as [version number]. cbn [p_version] in *. subst version. apply reads_ret.
Qed.

Lemma reads_geometry g : geometry_typed g → reads dec_geometry (put_geometry g) g.
Proof.
  intros [Hd Hb]. rewrite !Forall_cons in Hb. destruct Hb as (? & ? & ? & ? & ? & ? & _). unfold dec_geometry.
  do 6 (eapply reads_bind; [by apply reads_u64|]). eapply reads_bind; [by apply reads_take|]. destruct g. apply reads_ret.
Qed.

Lemma reads_shard s : shard_codable s → reads dec_shard (put_shard s) s.
Proof.
  intros [Hw Hg Hv _ [Hs1 Hs2] [He1 He2] [Hm1 Hm2]]. unfold dec_shard.
  eapply reads_bind; [apply reads_take, endian_bytes_length|]. rewrite from_endian_round by done. eapply reads_bind; [by apply reads_geometry|].
  eapply reads_try; [exact Hv|]. eapply reads_bind.
  { apply reads_counted; [done|by apply items_bound| |intros g Hgin; by apply reads_segment, Hs2]. intros g _. rewrite len_put_segment. lia. }
  eapply reads_bind.
  { apply reads_counted; [done|by apply items_bound| |intros e He; by apply reads_entry, He2]. intros e He. rewrite len_put_entry by (by apply He2). lia. }
  apply (reads_bind _ _ (put_list put_descriptor (is_metadata (sh_index s))) [] (is_metadata (sh_index s)));
    [|intros rest; by destruct s as [? ? [? ?] ?]].
  apply reads_counted; [done|by apply items_bound| |intros m Hm; by apply reads_descriptor, Hm2].
  intros m Hm. rewrite len_put_descriptor by (by apply Hm2). lia.
Qed.

Lemma shards_bound n : n <= MAX_SHARDS → n <= U32_MAX.
Proof. unfold MAX_SHARDS, U32_MAX. lia. Qed.

Lemma reads_image total i : image_codable i → total <= U64_MAX → reads (dec_image total) (put_image total i) i.
Proof.
  intros [Hv [Hc Hc36] Hq [Hs1 Hs2]] Ht. unfold dec_image. rewrite <- (app_nil_r (put_image total i)). unfold put_image. cbn [concat].
  rewrite <- !(assoc_L (++)). eapply reads_bind; [by apply reads_take|]. eapply reads_try; [by vm_compute|].
  eapply reads_bind; [apply reads_u32; by rewrite Hv|]. eapply reads_try; [by rewrite Hv|].
  eapply reads_bind; [by apply reads_u32|]. eapply reads_try; [done|]. eapply reads_bind; [by apply reads_u64|].
  eapply reads_bind; [by apply reads_u64|]. eapply reads_try; [by rewrite N.eqb_refl|].
  eapply reads_bind; [apply reads_take; unfold len, CLUSTER_BYTES in Hc36; lia|]. eapply reads_try; [by rewrite Hc|].
  apply (reads_bind _ _ (put_list put_shard (ci_shards i)) [] (ci_shards i)); [|intros rest; by destruct i]. apply reads_counted; [done|by apply shards_bound| |intros s Hs; by apply reads_shard, Hs2].
  intros s Hs. rewrite len_put_shard by (by apply Hs2). lia.
Qed.
