(* ===== verification/CheckpointBudget.v ===== *)
(** * Checkpoints: sizes and the memory preflight

    The length of an encoded image against the sizes the catalog accounts for, and the exact memory that the preflight charges for
    one before anything of it is decoded. *)

From S2P Require Import Prelude Bytes Http ObjectModel WireCodec Segments Checkpoint CheckpointCodec.
Local Open Scope racer_scope.
Local Open Scope N_scope.

(** ** Sums *)

Definition sum_of {A} (f : A → N) (l : list A) : N := foldr (λ a n, f a + n) 0 l.

Lemma sum_of_perm {A} (f : A → N) (l k : list A) : l ≡ₚ k → sum_of f l = sum_of f k.
Proof. induction 1; simpl in *; lia. Qed.

Lemma sum_of_fmap {A B} (f : B → N) (g : A → B) (l : list A) : sum_of f (g <$> l) = sum_of (f ∘ g) l.
Proof. unfold sum_of. by rewrite foldr_fmap. Qed.

Lemma sum_of_ext {A} (f g : A → N) (l : list A) : (∀ a, a ∈ l → f a = g a) → sum_of f l = sum_of g l.
Proof. induction l as [|a l IH]; intros Hl; simpl; [done|]. rewrite Hl, IH by set_solver. done. Qed.

Lemma len_concat_sum {A} (put : A → list N) (l : list A) (f : A → N) : (∀ a, a ∈ l → len (put a) = f a) → len (concat (put <$> l)) = sum_of f l.
Proof.
  induction l as [|a l IH]; intros Hl; [done|]. rewrite fmap_cons. cbn [concat]. rewrite len_app, Hl, IH by set_solver. done.
Qed.

(** ** The length of an image *)

Definition segment_bytes_of (s : SegmentSnapshot) : N := SEGMENT_BYTES + len (ss_retained s) * RETAINED_RECORD_BYTES.
Definition shard_bytes_of (s : ShardImage) : N :=
  SHARD_BYTES + sum_of segment_bytes_of (sh_segments s) + sum_of (λ e, snapshot_entry_bytes (ip_metadata e.2)) (is_entries (sh_index s)) +
    sum_of snapshot_metadata_bytes (is_metadata (sh_index s)).
Definition image_bytes_of (shards : list ShardImage) : N := CHECKPOINT_HEADER_BYTES + CLUSTER_BYTES + 4 + DIGEST_BYTES + sum_of shard_bytes_of shards.

Lemma len_shard s : shard_codable s → len (put_shard s) = shard_bytes_of s.
Proof.
  intros [_ Hg _ _ _ [_ He] [_ Hm]]. rewrite len_put_shard by done. unfold shard_bytes_of.
  rewrite (len_concat_sum _ _ segment_bytes_of) by (intros; apply len_put_segment).
  rewrite (len_concat_sum _ _ (λ e, snapshot_entry_bytes (ip_metadata e.2))) by (intros e Hin; by apply len_put_entry, He).
  by rewrite (len_concat_sum _ _ snapshot_metadata_bytes) by (intros m Hin; by apply len_put_descriptor, Hm).
Qed.

Lemma len_image total i : image_codable i → len (put_image total i) + DIGEST_BYTES = image_bytes_of (ci_shards i).
Proof.
  intros [_ [_ Hc] _ [_ Hs]]. unfold put_image, image_bytes_of. len_solve. rewrite Hc.
  rewrite (len_concat_sum _ _ shard_bytes_of) by (intros s Hin; by apply len_shard, Hs). change (len CHECKPOINT_MAGIC) with 8.
  unfold CHECKPOINT_HEADER_BYTES. lia.
Qed.

Lemma shard_bytes_canon s : shard_bytes_of (canon_shard s) = shard_bytes_of s.
Proof.
  unfold shard_bytes_of. simpl. rewrite sum_of_fmap, (sum_of_perm _ _ _ (sort_by_perm entry_leb _)), (sum_of_perm _ _ _ (sort_by_perm metadata_leb _)).
  rewrite (sum_of_perm _ _ _ (sort_by_perm segment_leb (sh_segments s))). rewrite (sum_of_ext _ segment_bytes_of); [done|].
  intros g _. unfold segment_bytes_of. simpl. by rewrite (len_perm _ _ (sort_by_perm record_leb (ss_retained g))).
Qed.

Lemma image_bytes_canon i : image_bytes_of (ci_shards (canon_image i)) = image_bytes_of (ci_shards i).
Proof.
  unfold image_bytes_of. simpl. rewrite sum_of_fmap, (sum_of_perm _ _ _ (sort_by_perm worker_leb _)).
  by rewrite (sum_of_ext _ shard_bytes_of) by (intros; apply shard_bytes_canon).
Qed.

(** ** The catalog's sizes *)

Lemma items_size_sum total sizes : total + sum_of id sizes <= USIZE_MAX → items_size total sizes = Ok (total + sum_of id sizes).
Proof.
  revert total. induction sizes as [|n sizes IH]; intros total Ht; simpl in *; [by rewrite N.add_0_r|]. unfold add_size.
  rewrite checked_add_le by lia. cbn [ok_or result_bind]. rewrite IH by lia. f_equal. lia.
Qed.

Lemma segment_size_eq s : segment_bytes_of s <= USIZE_MAX → snapshot_segment_bytes (len (ss_retained s)) = Ok (segment_bytes_of s).
Proof.
  unfold segment_bytes_of, snapshot_segment_bytes. intros H. rewrite checked_mul_le by lia. cbn [mbind option_bind].
  rewrite checked_add_le by lia. simpl. f_equal. lia.
Qed.

Lemma segments_size_sum total segments : total + sum_of segment_bytes_of segments <= USIZE_MAX →
  segments_size total segments = Ok (total + sum_of segment_bytes_of segments).
Proof.
  revert total. induction segments as [|s segments IH]; intros total Ht; [simpl; by rewrite N.add_0_r|]. cbn [sum_of foldr] in *. fold (sum_of segment_bytes_of segments) in *.
  cbn [segments_size]. rewrite segment_size_eq by lia. cbn [result_bind]. unfold add_size. rewrite checked_add_le by lia. cbn [ok_or result_bind].
  rewrite IH by lia. f_equal. lia.
Qed.

Lemma shards_size_sum total shards : total + sum_of shard_bytes_of shards <= USIZE_MAX → shards_size total shards = Ok (total + sum_of shard_bytes_of shards).
Proof.
  revert total. induction shards as [|s shards IH]; intros total Ht; [simpl; by rewrite N.add_0_r|]. cbn [sum_of foldr] in *. fold (sum_of shard_bytes_of shards) in *.
  cbn [shards_size]. pose proof (eq_refl (shard_bytes_of s)) as Hs. unfold shard_bytes_of in Hs at 1.
  unfold add_size. rewrite checked_add_le by lia. cbn [ok_or result_bind]. rewrite segments_size_sum by lia. cbn [result_bind].
  rewrite items_size_sum; rewrite sum_of_fmap.
  2: { rewrite (sum_of_ext _ (λ e, snapshot_entry_bytes (ip_metadata e.2))) by (by intros []). lia. }
  rewrite (sum_of_ext _ (λ e, snapshot_entry_bytes (ip_metadata e.2))) by (by intros []). cbn [result_bind].
  rewrite items_size_sum; rewrite sum_of_fmap; change (id ∘ snapshot_metadata_bytes) with snapshot_metadata_bytes; [|lia]. cbn [result_bind].
  rewrite IH by lia. f_equal. lia.
Qed.

Lemma items_size_ok total sizes n : items_size total sizes = Ok n → n = total + sum_of id sizes.
Proof.
  revert total. induction sizes as [|x sizes IH]; intros total; simpl; [intros [= <-]; lia|]. unfold add_size.
  destruct (checked_add _ _ _) as [m|] eqn:E; cbn [ok_or result_bind]; [|done]. apply checked_add_Some in E as [_ ->]. intros ->%IH. unfold id. lia.
Qed.

Lemma segments_size_ok total segments n : segments_size total segments = Ok n → n = total + sum_of segment_bytes_of segments.
Proof.
  revert total. induction segments as [|s segments IH]; intros total; cbn [segments_size]; [intros [= <-]; simpl; lia|].
  unfold snapshot_segment_bytes, add_size. destruct (checked_mul _ _ _) as [m|] eqn:Em; cbn [mbind option_bind ok_or result_bind]; [|done].
  apply checked_mul_Some in Em as [_ ->]. destruct (checked_add _ _ SEGMENT_BYTES) as [m|] eqn:E; cbn [ok_or result_bind]; [|done].
  apply checked_add_Some in E as [_ ->]. destruct (checked_add _ total _) as [m|] eqn:E; cbn [ok_or result_bind]; [|done].
  apply checked_add_Some in E as [_ ->]. intros ->%IH. cbn [sum_of foldr]. fold (sum_of segment_bytes_of segments). unfold segment_bytes_of. lia.
Qed.

Lemma shards_size_ok total shards n : shards_size total shards = Ok n → n = total + sum_of shard_bytes_of shards.
Proof.
  revert total. induction shards as [|s shards IH]; intros total; cbn [shards_size]; [intros [= <-]; simpl; lia|].
  unfold add_size at 1. destruct (checked_add _ _ _) as [m|] eqn:E; cbn [ok_or result_bind]; [|done]. apply checked_add_Some in E as [_ ->].
  destruct (segments_size _ _) as [m|] eqn:E; cbn [result_bind]; [|done]. apply segments_size_ok in E as ->.
  destruct (items_size _ _) as [m|] eqn:E; cbn [result_bind]; [|done]. apply items_size_ok in E as ->. rewrite sum_of_fmap.
  destruct (items_size _ (snapshot_metadata_bytes <$> _)) as [m|] eqn:E; cbn [result_bind]; [|done]. apply items_size_ok in E as ->. rewrite sum_of_fmap.
  intros ->%IH. cbn [sum_of foldr]. fold (sum_of shard_bytes_of shards). unfold shard_bytes_of.
  rewrite (sum_of_ext (id ∘ _) (λ e, snapshot_entry_bytes (ip_metadata e.2))) by (by intros []). change (id ∘ snapshot_metadata_bytes) with snapshot_metadata_bytes. lia.
Qed.

(** ** What the preflight reads *)

Lemma reads_descriptor_bytes m : metadata_codable m → reads dec_descriptor_bytes (put_descriptor m) (descriptor_string_bytes m).
Proof.
  intros [Hm Hc]. pose proof (etag_bytes_bound _ _ (mt_etag m Hm)). pose proof (mime_string_bound m Hm). unfold dec_descriptor_bytes, put_descriptor. cbn [concat].
  eapply reads_bind; [by apply reads_string|]. eapply reads_bind; [apply reads_take, Hm|]. eapply reads_bind; [by apply reads_string|].
  eapply reads_bind; [apply reads_take, endian_bytes_length|]. eapply reads_bind; [by apply reads_string|]. apply reads_ret.
Qed.

(** The bytes of a shard as the preflight walks them. *)
Lemma put_shard_walk s rest : put_shard s ++ rest =
  le_bytes 2 (sh_worker s) ++ (le_bytes 8 (cg_slab_bytes (sh_geometry s)) ++ le_bytes 8 (cg_segment_bytes (sh_geometry s))) ++
  le_bytes 8 (cg_segment_count (sh_geometry s)) ++
  (le_bytes 8 (cg_memory (sh_geometry s)) ++ le_bytes 8 (cg_offset (sh_geometry s)) ++ le_bytes 8 (cg_length (sh_geometry s))) ++ cg_digest (sh_geometry s) ++
  le_bytes 4 (len (sh_segments s)) ++ concat (put_segment <$> sh_segments s) ++
  le_bytes 4 (len (is_entries (sh_index s))) ++ concat (put_entry <$> is_entries (sh_index s)) ++
  le_bytes 4 (len (is_metadata (sh_index s))) ++ concat (put_descriptor <$> is_metadata (sh_index s)) ++ rest.
Proof. unfold put_shard, put_geometry, put_list. cbn [concat]. by rewrite !app_nil_r, <- !(assoc_L (++)). Qed.

(** The bytes of an image as [sequence_hint] and the preflight walk them. *)
Definition image_header (total : N) (i : CheckpointImage) : list N :=
  CHECKPOINT_MAGIC ++ le_bytes 4 (ci_version i) ++ le_bytes 4 0 ++ le_bytes 8 (ci_sequence i) ++ le_bytes 8 total.
Lemma put_image_walk total i : put_image total i =
  image_header total i ++ ci_cluster i ++ le_bytes 4 (len (ci_shards i)) ++ concat (put_shard <$> ci_shards i).
Proof. unfold put_image, image_header, put_list. cbn [concat]. by rewrite !app_nil_r, <- !(assoc_L (++)). Qed.

Lemma image_header_length total i : length (image_header total i) = 32%nat.
Proof. unfold image_header. by rewrite !length_app, !endian_bytes_length. Qed.

Lemma sequence_hint_image total i digest : image_codable i → sequence_hint (put_image total i ++ digest) = Ok (ci_sequence i).
Proof.
  intros Hi. pose proof (ic_sequence i Hi) as Hq. pose proof (ic_version i Hi) as Hv. unfold sequence_hint.
  rewrite put_image_walk, <- (assoc_L (++)). set (body := (_ ++ _) ++ digest).
  rewrite (proj2 (N.ltb_ge _ _)) by (rewrite len_app; unfold len at 1; rewrite image_header_length; unfold CHECKPOINT_HEADER_BYTES; lia).
  unfold image_header. rewrite <- !(assoc_L (++)). rewrite (take_app_length' CHECKPOINT_MAGIC) by done. rewrite bool_decide_eq_true_2 by done.
  rewrite (drop_app_length' CHECKPOINT_MAGIC) by done. rewrite (take_app_length' (le_bytes 4 _)) by (by rewrite endian_bytes_length).
  rewrite (from_endian_round _ 4) by (by rewrite Hv). rewrite Hv, N.eqb_refl. cbn [negb orb].
  change 16%nat with (8 + 8)%nat. rewrite <- drop_drop, (drop_app_length' CHECKPOINT_MAGIC) by done. rewrite (assoc_L (++) (le_bytes 4 _) (le_bytes 4 0)).
  rewrite drop_app_length' by (by rewrite length_app, !endian_bytes_length). rewrite take_app_length' by (by rewrite endian_bytes_length).
  rewrite (from_endian_round _ 8); [done|]. unfold U64_MAX in Hq. change (256 ^ N.of_nat 8) with 18446744073709551616. lia.
Qed.

Lemma checkpoint_body_app x digest : length digest = 32%nat → checkpoint_body (x ++ digest) = x.
Proof. intros Hd. unfold checkpoint_body. rewrite length_app, Hd. apply take_app_length'. unfold DIGEST_BYTES. lia. Qed.

Lemma length_accepted total i digest : image_codable i → length digest = 32%nat → image_bytes_of (ci_shards i) <= MAX_CHECKPOINT_BYTES →
  len (put_image total i ++ digest) = image_bytes_of (ci_shards i) ∧ length_rejected (put_image total i ++ digest) = false.
Proof.
  intros Hi Hd Hmax. pose proof (len_image total i Hi) as Hl. assert (len digest = DIGEST_BYTES) as Hdl by (unfold len; by rewrite Hd).
  assert (len (put_image total i ++ digest) = image_bytes_of (ci_shards i)) as Heq by (rewrite len_app; lia). split; [done|].
  unfold length_rejected. rewrite Heq, (proj2 (N.ltb_ge MAX_CHECKPOINT_BYTES _)) by done. rewrite (proj2 (N.ltb_ge _ _)); [done|].
  unfold image_bytes_of. lia.
Qed.

(** ** The preflight *)

(** What the preflight charges: decoded strings count four times, retained records as map entries. *)
Definition string_memory (m : VersionMetadata) : N := descriptor_string_bytes m * 4.
Definition shard_memory (sizes : TypeSizes) (s : ShardImage) : N :=
  len (sh_segments s) * (sz_segment sizes + 512) + sum_of (λ g, len (ss_retained g) * 128) (sh_segments s) +
  len (is_entries (sh_index s)) * (sz_page sizes + 512) + sum_of (λ e, string_memory (ip_metadata e.2)) (is_entries (sh_index s)) +
  len (is_metadata (sh_index s)) * (sz_metadata sizes + 512) + sum_of string_memory (is_metadata (sh_index s)).
Definition image_memory (sizes : TypeSizes) (i : CheckpointImage) : N :=
  image_bytes_of (ci_shards i) + sz_image sizes + len (ci_shards i) * (sz_shard sizes + 512) + sum_of (shard_memory sizes) (ci_shards i).

Section costs.
Context (sizes : TypeSizes) (budget : N).
Let limit : N := N.min budget USIZE_MAX.

Lemma charge_spec used count size :
  charge budget used count size = if used + count * size <=? limit then Ok (used + count * size) else Err StoreError_Overloaded.
Proof.
  unfold charge, checked_mul, checked_add, limit.
  destruct (N.leb_spec (count * size) USIZE_MAX); cbn [mbind option_bind]; [|by rewrite (proj2 (N.leb_gt _ _)) by lia].
  destruct (N.leb_spec (used + count * size) USIZE_MAX); [|by rewrite (proj2 (N.leb_gt _ _)) by lia].
  destruct (N.leb_spec (used + count * size) budget); [by rewrite (proj2 (N.leb_le _ _)) by lia|by rewrite (proj2 (N.leb_gt _ _)) by lia].
Qed.

(** [p] passes over [x] and charges [c], or stops where the budget is exhausted. *)
Definition costs (p : Preflight) (x : list N) (c : N) : Prop :=
  ∀ used rest, used <= limit → p (used, x ++ rest) = if used + c <=? limit then Ok (used + c, rest) else Err StoreError_Overloaded.

Lemma costs_repeat {A} (p : Preflight) (put : A → list N) (cost : A → N) (l : list A) :
  (∀ a, a ∈ l → costs p (put a) (cost a)) → costs (pre_repeat (length l) p) (concat (put <$> l)) (sum_of cost l).
Proof.
  induction l as [|a l IH]; intros Hl used rest Hu.
  - cbn. by rewrite N.add_0_r, (proj2 (N.leb_le _ _)).
  - rewrite fmap_cons. cbn [concat length pre_repeat sum_of foldr]. fold (sum_of cost l). rewrite <- (assoc_L (++)), (Hl a) by set_solver.
    destruct (N.leb_spec (used + cost a) limit) as [Hle|Hgt]; cbn [result_bind]; [|by rewrite (proj2 (N.leb_gt _ _)) by lia].
    rewrite IH by set_solver. by rewrite N.add_assoc.
Qed.

(** A charge for the number of items, then the items. *)
Lemma charge_repeat {A} (p : Preflight) (put : A → list N) (cost : A → N) (l : list A) size used rest :
  (∀ a, a ∈ l → costs p (put a) (cost a)) → used <= limit →
  (let? used := charge budget used (len l) size in pre_repeat (N.to_nat (len l)) p (used, concat (put <$> l) ++ rest)) =
    if used + (len l * size + sum_of cost l) <=? limit then Ok (used + (len l * size + sum_of cost l), rest) else Err StoreError_Overloaded.
Proof.
  intros Hl Hu. rewrite charge_spec. destruct (N.leb_spec (used + len l * size) limit) as [Hle|Hgt]; cbn [result_bind]; [|by rewrite (proj2 (N.leb_gt _ _)) by lia].
  unfold len at 1. rewrite Nat2N.id, (costs_repeat p put cost l Hl) by done. by rewrite N.add_assoc.
Qed.

Lemma charge_repeat_bind {A B} (p : Preflight) (put : A → list N) (cost : A → N) (l : list A) size used rest (K : N * list N → result B StoreError) :
  (∀ a, a ∈ l → costs p (put a) (cost a)) → used <= limit →
  (let? used := charge budget used (len l) size in result_bind (pre_repeat (N.to_nat (len l)) p (used, concat (put <$> l) ++ rest)) K) =
    if used + (len l * size + sum_of cost l) <=? limit then K (used + (len l * size + sum_of cost l), rest) else Err StoreError_Overloaded.
Proof.
  intros Hl Hu. pose proof (charge_repeat p put cost l size used rest Hl Hu) as H. destruct (charge budget used (len l) size); cbn [result_bind] in *.
  - rewrite H. by destruct (_ <=? _).
  - destruct (_ <=? _) in *; simplify_eq. done.
Qed.

Lemma costs_descriptor m : metadata_codable m → costs (pre_descriptor budget) (put_descriptor m) (string_memory m).
Proof.
  intros Hm used rest Hu. unfold pre_descriptor. rewrite (reads_descriptor_bytes m Hm rest). cbn [result_bind]. rewrite charge_spec.
  unfold string_memory. by destruct (_ <=? limit).
Qed.

Lemma costs_entry e : entry_codable e → costs (pre_entry budget) (put_entry e) (string_memory (ip_metadata e.2)).
Proof.
  intros (He & Hm & _) used rest Hu. destruct e as [page entry]. cbn [fst snd] in *. unfold pre_entry, put_entry. cbn [concat].
  rewrite <- (assoc_L (++)). rewrite (costs_descriptor _ Hm) by done. destruct (_ <=? limit); cbn [result_bind]; [|done].
  rewrite reads_take; [done|]. pose proof (et_key_id _ He) as Hk. cbn [snd] in Hk. rewrite !length_app, !endian_bytes_length, Hk. done.
Qed.

Lemma costs_segment s : segment_codable s → costs (pre_segment budget) (put_segment s) (len (ss_retained s) * 128).
Proof.
  intros Hs used rest Hu. unfold pre_segment, put_segment. cbn [concat].
  set (head := le_bytes 8 (ss_id s) ++ le_bytes 8 (ss_generation s) ++ [state_byte (ss_state s)] ++ le_bytes 8 (ss_used s)).
  set (tail := concat (put_record <$> ss_retained s)). pose proof (gc_records s Hs) as Hr.
  assert (len tail = len (ss_retained s) * RETAINED_RECORD_BYTES) as Ht by (apply len_concat_const; intros; apply len_put_record).
  replace (_ ++ rest) with (head ++ le_bytes 4 (len (ss_retained s)) ++ tail ++ rest); [|unfold head, put_list, tail; by rewrite app_nil_r, <- !(assoc_L (++))].
  rewrite (reads_take 25) by (unfold head; by rewrite !length_app, !endian_bytes_length). cbn [result_bind].
  rewrite reads_count; [|done|by apply items_bound|rewrite len_app; lia]. cbn [result_bind]. rewrite charge_spec.
  destruct (_ <=? limit); cbn [result_bind]; [|done]. rewrite reads_take; [done|]. rewrite <- Ht. unfold len. lia.
Qed.

(** The budget is exhausted here, and so at the end; or it is not, and the walk goes on. *)
Ltac within_budget :=
  match goal with |- (if ?a <=? ?l then _ else _) = _ => destruct (N.leb_spec a l); [|by rewrite (proj2 (N.leb_gt _ _)) by lia] end.

Lemma costs_shard s : shard_codable s → costs (pre_shard sizes budget) (put_shard s) (shard_memory sizes s).
Proof.
  intros [_ [Hd Hb] _ Hc [Hs1 Hs2] [He1 He2] [Hm1 Hm2]] used rest Hu. unfold pre_shard. rewrite put_shard_walk.
  rewrite !Forall_cons in Hb. destruct Hb as (_ & _ & Hcount & _).
  pose proof (concat_length_ge put_segment (sh_segments s) SEGMENT_BYTES ltac:(intros g _; rewrite len_put_segment; lia)).
  pose proof (concat_length_ge put_entry (is_entries (sh_index s)) PAGE_ENTRY_BYTES ltac:(intros e He; rewrite len_put_entry by (by apply He2); lia)).
  pose proof (concat_length_ge put_descriptor (is_metadata (sh_index s)) DESCRIPTOR_BYTES ltac:(intros m Hm; rewrite len_put_descriptor by (by apply Hm2); lia)).
  rewrite (reads_take 2) by apply endian_bytes_length. cbn [result_bind]. rewrite (reads_take 16) by (by rewrite length_app, !endian_bytes_length). cbn [result_bind].
  rewrite reads_u64 by done. cbn [result_bind]. rewrite (reads_take 24) by (by rewrite !length_app, !endian_bytes_length). cbn [result_bind].
  rewrite (reads_take 32) by done. cbn [result_bind]. rewrite reads_count by (rewrite ?len_app; auto using items_bound; lia). cbn [result_bind].
  rewrite Hc at 1. rewrite N.eqb_refl. cbn [negb reject_when result_bind].
  etrans; [apply (charge_repeat_bind _ put_segment (λ g, len (ss_retained g) * 128)); [intros g Hg; by apply costs_segment, Hs2|done]|].
  unfold shard_memory. within_budget.
  cbv beta iota. rewrite reads_count by (rewrite ?len_app; auto using items_bound; lia). cbn [result_bind].
  etrans; [apply (charge_repeat_bind _ put_entry (λ e, string_memory (ip_metadata e.2))); [intros e He; by apply costs_entry, He2|done]|].
  within_budget.
  cbv beta iota. rewrite reads_count by (rewrite ?len_app; auto using items_bound; lia). cbn [result_bind].
  etrans; [apply (charge_repeat _ put_descriptor string_memory); [intros m Hm; by apply costs_descriptor, Hm2|done]|].
  rewrite <- !N.add_assoc. done.
Qed.

(** The preflight of an encoded image charges exactly [image_memory]. *)
Lemma recovery_memory_image total i digest : image_codable i → length digest = 32%nat → image_bytes_of (ci_shards i) <= MAX_CHECKPOINT_BYTES →
  recovery_memory sizes budget (put_image total i ++ digest) =
    if image_memory sizes i <=? limit then Ok (image_memory sizes i) else Err StoreError_Overloaded.
Proof.
  intros Hi Hd Hmax. destruct (length_accepted total i digest Hi Hd Hmax) as [Hlen Hrej]. unfold recovery_memory. rewrite Hrej. cbn [reject_when result_bind].
  rewrite sequence_hint_image by done. cbn [result_bind]. rewrite charge_spec, Hlen, N.mul_1_l, checkpoint_body_app by done.
  unfold image_memory. destruct Hi as [_ [_ Hc] _ [Hs1 Hs2]]. destruct (N.leb_spec (image_bytes_of (ci_shards i) + sz_image sizes) limit) as [Hu|];
    [|by rewrite (proj2 (N.leb_gt _ _)) by lia].
  cbn [result_bind]. rewrite put_image_walk, drop_app_length' by (by rewrite image_header_length).
  rewrite reads_take by (unfold len in Hc; lia). cbn [result_bind].
  rewrite <- (app_nil_r (concat _)). rewrite reads_count; [|done|by apply shards_bound|].
  2: { rewrite app_nil_r. apply concat_length_ge. intros s Hs. rewrite len_shard by auto. unfold shard_bytes_of. lia. }
  cbn [result_bind].
  etrans; [apply (charge_repeat_bind _ put_shard (shard_memory sizes)); [intros s Hs; by apply costs_shard, Hs2|done]|].
  rewrite <- !N.add_assoc. destruct (_ <=? limit); done.
Qed.

(** Whatever the input, the bytes in use only grow, and stay within the budget. *)
Definition grows (p : Preflight) : Prop := ∀ used input used' rest, p (used, input) = Ok (used', rest) → used <= used' <= N.max used budget.

Lemma charge_grows used count size used' : charge budget used count size = Ok used' → used <= used' <= budget.
Proof. rewrite charge_spec. destruct (N.leb_spec (used + count * size) limit); [|done]. intros [= <-]. unfold limit in *. lia. Qed.

Lemma grows_repeat n p : grows p → grows (pre_repeat n p).
Proof.
  intros Hp. induction n as [|n IH]; intros used input used' rest; cbn [pre_repeat]; [intros [= <- <-]; lia|].
  destruct (p (used, input)) as [[u x]|] eqn:E; cbn [result_bind]; [|done]. intros H. apply Hp in E. apply IH in H. lia.
Qed.

(** A step of a preflight that does not fail. *)
Ltac step_ok :=
  match goal with
  | |- result_bind ?r _ = _ → _ => let E := fresh "E" in destruct r as [[? ?]|] eqn:E; cbn [result_bind]; [|done]
  | |- result_bind ?r _ = _ → _ => let E := fresh "E" in destruct r as [?|] eqn:E; cbn [result_bind]; [|done]
  end.

Lemma grows_segment : grows (pre_segment budget).
Proof.
  intros used input used' rest. unfold pre_segment. repeat step_ok. intros [= <- <-]. match goal with H : charge _ _ _ _ = _ |- _ => apply charge_grows in H end. lia.
Qed.

Lemma grows_descriptor : grows (pre_descriptor budget).
Proof.
  intros used input used' rest. unfold pre_descriptor. repeat step_ok. intros [= <- <-]. match goal with H : charge _ _ _ _ = _ |- _ => apply charge_grows in H end. lia.
Qed.

Lemma grows_entry : grows (pre_entry budget).
Proof. intros used input used' rest. unfold pre_entry. step_ok. step_ok. intros [= <- <-]. by apply grows_descriptor in E. Qed.

Lemma grows_shard : grows (pre_shard sizes budget).
Proof.
  intros used input used' rest. unfold pre_shard. repeat step_ok. intros H.
  repeat match goal with H : charge _ _ _ _ = _ |- _ => apply charge_grows in H end.
  repeat match goal with H : pre_repeat _ (pre_segment _) _ = _ |- _ => apply (grows_repeat _ _ grows_segment) in H end.
  repeat match goal with H : pre_repeat _ (pre_entry _) _ = _ |- _ => apply (grows_repeat _ _ grows_entry) in H end.
  apply (grows_repeat _ _ grows_descriptor) in H. lia.
Qed.

Lemma recovery_memory_bounded bytes used : recovery_memory sizes budget bytes = Ok used → len bytes <= used <= budget.
Proof.
  unfold recovery_memory. repeat step_ok. case_bool_decide; [|done]. intros [= <-].
  repeat match goal with H : charge _ _ _ _ = _ |- _ => apply charge_grows in H end.
  match goal with H : pre_repeat _ _ _ = _ |- _ => apply (grows_repeat _ _ grows_shard) in H end. lia.
Qed.
End costs.

Lemma shard_memory_canon sizes s : shard_memory sizes (canon_shard s) = shard_memory sizes s.
Proof.
  unfold shard_memory. simpl. rewrite sum_of_fmap, (sum_of_perm _ _ _ (sort_by_perm entry_leb _)), (sum_of_perm _ _ _ (sort_by_perm metadata_leb _)).
  rewrite (len_perm _ _ (sort_by_perm entry_leb _)), (len_perm _ _ (sort_by_perm metadata_leb _)).
  assert (len (canon_segment <$> sort_by segment_leb (sh_segments s)) = len (sh_segments s)) as ->.
  { unfold len. by rewrite length_fmap, (sort_by_perm segment_leb (sh_segments s)). }
  rewrite (sum_of_perm _ _ _ (sort_by_perm segment_leb (sh_segments s))). do 5 f_equal. apply sum_of_ext.
  intros g _. simpl. by rewrite (len_perm _ _ (sort_by_perm record_leb (ss_retained g))).
Qed.

Lemma image_memory_canon sizes i : image_memory sizes (canon_image i) = image_memory sizes i.
Proof.
  unfold image_memory. rewrite image_bytes_canon. cbn [canon_image ci_shards].
  assert (len (canon_shard <$> sort_by worker_leb (ci_shards i)) = len (ci_shards i)) as ->.
  { unfold len. by rewrite length_fmap, (sort_by_perm worker_leb (ci_shards i)). }
  rewrite sum_of_fmap, (sum_of_perm _ _ _ (sort_by_perm worker_leb _)). by rewrite (sum_of_ext _ (shard_memory sizes)) by (intros; apply shard_memory_canon).
Qed.
