(* ===== verification/CheckpointProofs.v ===== *)
(** * Checkpoints: what validation establishes

    The loops of [validate_image] against conditions that do not depend on the order of shards, entries, descriptors or records, and
    what a valid image has. *)

From S2P Require Import Prelude Bytes Http ObjectModel WireCodec Segments SegmentProofs Checkpoint CheckpointCodec.
Local Open Scope racer_scope.
Local Open Scope N_scope.

(** ** Sets of versions and pages *)

(** At most one descriptor of a version. *)
Definition consistent (l : list VersionMetadata) : Prop := ∀ a b, a ∈ l → b ∈ l → vm_version a = vm_version b → a = b.

Lemma consistent_perm l k : l ≡ₚ k → consistent l → consistent k.
Proof. intros Hp Hc a b. rewrite <- Hp. apply Hc. Qed.

Lemma consistent_incl l k : (∀ a, a ∈ k → a ∈ l) → consistent l → consistent k.
Proof. intros Hi Hc a b Ha Hb. apply Hc; auto. Qed.

Lemma compatible_eq a b : compatible a b = true ↔ a = b.
Proof.
  unfold compatible. rewrite !andb_true_iff, !bool_decide_eq_true, N.eqb_eq. destruct a, b. simpl. naive_solver.
Qed.

Lemma compatible_from_spec lengths l k : consistent lengths →
  compatible_from lengths l = Some k ↔ k = reverse l ++ lengths ∧ consistent (reverse l ++ lengths).
Proof.
  revert lengths. induction l as [|m l IH]; intros lengths Hc; simpl; [naive_solver|].
  assert (compatible_from (m :: lengths) l = Some k ∧ consistent (m :: lengths) ↔ k = reverse (m :: l) ++ lengths ∧ consistent (reverse (m :: l) ++ lengths)) as Hstep.
  { rewrite reverse_cons, <- (assoc_L (++)). simpl. split.
    - intros [H Hm]. by apply IH.
    - intros [-> H]. assert (consistent (m :: lengths)) as Hm by (eapply consistent_incl; [|exact H]; set_solver). split; [|done]. by apply IH. }
  rewrite <- Hstep. clear Hstep IH. destruct (list_find _ _) as [[n old]|] eqn:E.
  - apply list_find_Some in E as (Ho & Hv & _). apply list_elem_of_lookup_2 in Ho. destruct (compatible old m) eqn:Ec.
    + apply compatible_eq in Ec as ->. split; [|naive_solver]. intros H. split; [done|]. eapply consistent_incl; [|exact Hc]. set_solver.
    + split; [done|]. intros [_ H]. exfalso. assert (old = m) as -> by (apply H; [set_solver..|done]). by rewrite (proj2 (compatible_eq m m)) in Ec.
  - apply list_find_None in E. rewrite Forall_forall in E. split; [|naive_solver]. intros H. split; [done|].
    intros a b [->|Ha]%elem_of_cons [->|Hb]%elem_of_cons Hab; [done| | |by apply Hc]; exfalso; eapply E; eauto; congruence.
Qed.

Lemma all_new_spec {A} `{EqDecision A} (seen l k : list A) : NoDup seen → all_new seen l = Some k ↔ k = reverse l ++ seen ∧ NoDup (reverse l ++ seen).
Proof.
  revert seen. induction l as [|x l IH]; intros seen Hs; simpl; [naive_solver|]. rewrite reverse_cons, <- (assoc_L (++)). simpl.
  case_bool_decide as Hx.
  - split; [done|]. intros [_ [_ [_ Hn]]%NoDup_app]. apply NoDup_cons in Hn as [? _]. done.
  - rewrite IH by (by constructor). done.
Qed.

Lemma standalone_valid_spec versions l : standalone_valid versions l = Ok () ↔
  (∀ m, m ∈ l → validate_descriptor m = Ok () ∧ vm_version m ∉ versions) ∧ NoDup (vm_version <$> l).
Proof.
  revert versions. induction l as [|m l IH]; intros versions; cbn [standalone_valid].
  - split; [|done]. intros _. split; [intros m Hm; by apply elem_of_nil in Hm|constructor].
  - rewrite fmap_cons, NoDup_cons. destruct (validate_descriptor m) as [[]|e] eqn:Hd; cbn [result_bind]; [|split; [done|intros [H _]; destruct (H m ltac:(set_solver)); congruence]].
    case_bool_decide as Hin; [split; [done|intros [H _]; destruct (H m ltac:(set_solver)); done]|]. rewrite IH. split.
    + intros [H Hn]. split; [|split; [|done]].
      * intros m' [->|Hm']%elem_of_cons; [done|]. destruct (H m' Hm'). split; [done|set_solver].
      * intros (m' & Hv & Hm')%list_elem_of_fmap. destruct (H m' Hm') as [_ Hnin]. set_solver.
    + intros (H & Hnin & Hn). split; [|done]. intros m' Hm'. destruct (H m' ltac:(set_solver)). split; [done|].
      intros [Hv|?]%elem_of_cons; [|done]. apply Hnin. rewrite <- Hv. by apply list_elem_of_fmap_2.
Qed.

(** ** Entries *)

Definition entry_extent (e : PageId * IndexedPage) : Extent := rl_extent (ip_location e.2).
Definition entry_range (e : PageId * IndexedPage) : N * N := (ex_offset (entry_extent e), ex_offset (entry_extent e) + ex_length (entry_extent e)).
Definition entry_mapped (t : Segments) (e : PageId * IndexedPage) : Prop :=
  validate_descriptor (ip_metadata e.2) = Ok () ∧
  segments_validate t (rl_segment (ip_location e.2)) (rl_generation (ip_location e.2)) (entry_extent e) = Ok () ∧
  ex_offset (entry_extent e) + ex_length (entry_extent e) <= U64_MAX.

Lemma corrupt_ok {A E} (r : result A E) a : corrupt r = Ok a ↔ r = Ok a.
Proof. destruct r; simpl; split; congruence. Qed.

Lemma page_lengths_spec entries : page_lengths entries = Ok () ↔ ∀ e, e ∈ entries → ∃ n, page_length (ip_metadata e.2) e.1 = Ok n.
Proof.
  induction entries as [|[page entry] entries IH]; cbn [page_lengths].
  - split; [|done]. intros _ e He. by apply elem_of_nil in He.
  - destruct (page_length (ip_metadata entry) page) as [n|x] eqn:E; unfold corrupt; cbn [map_err_to result_bind].
    + rewrite IH. split; [intros H e [->|He]%elem_of_cons; eauto|]. intros H e He. apply H. set_solver.
    + split; [done|]. intros H. destruct (H (page, entry) ltac:(set_solver)) as [n Hn]. simpl in Hn. congruence.
Qed.

Lemma entries_valid_spec t pages l x : entries_valid t pages l = Ok x ↔
  (∀ e, e ∈ l → entry_mapped t e ∧ e.1 ∉ pages) ∧ NoDup (fst <$> l) ∧ x = entry_range <$> l.
Proof.
  revert pages x. induction l as [|[page entry] l IH]; intros pages x; cbn [entries_valid].
  - split; [intros [= <-]|naive_solver]. split; [intros e He; by apply elem_of_nil in He|]. split; [constructor|done].
  - assert (∀ A : Prop, (∀ e, e ∈ (page, entry) :: l → entry_mapped t e ∧ e.1 ∉ pages) ∧ A → entry_mapped t (page, entry) ∧ page ∉ pages) as Hh
      by (intros A [H _]; apply (H (page, entry)); set_solver).
    destruct (validate_descriptor _) as [[]|] eqn:Hd; cbn [result_bind]; [|split; [done|intros [[? _] _]%Hh; simpl in *; congruence]].
    case_bool_decide as Hin; [split; [done|intros [_ ?]%Hh; done]|].
    destruct (segments_validate _ _ _ _) as [[]|] eqn:Hs; unfold corrupt; cbn [map_err_to result_bind];
      [|split; [done|intros [(_ & ? & _) _]%Hh; unfold entry_extent in *; simpl in *; congruence]].
    destruct (checked_add _ _ _) as [stop|] eqn:Ha; cbn [ok_or result_bind].
    2: { split; [done|]. intros [(_ & _ & H) _]%Hh. unfold entry_extent in H. simpl in H. by rewrite checked_add_le in Ha. }
    apply checked_add_Some in Ha as [Ha ->]. clear Hh. rewrite fmap_cons, NoDup_cons. split.
    + destruct (entries_valid t (page :: pages) l) as [rest|] eqn:E; [|done]. intros [= <-]. apply IH in E as (H & Hn & ->). split; [|split; [split; [|done]|done]].
      * intros e [->|He]%elem_of_cons; [done|]. destruct (H e He). split; [done|set_solver].
      * intros (e & Hv & He)%list_elem_of_fmap. destruct (H e He). set_solver.
    + intros (H & [Hnin Hn] & ->). erewrite (proj2 (IH (page :: pages) (entry_range <$> l))); [done|]. split; [|done]. intros e He.
      destruct (H e ltac:(set_solver)). split; [done|]. intros [Hv|?]%elem_of_cons; [|done]. apply Hnin. simpl. rewrite <- Hv. by apply list_elem_of_fmap_2.
Qed.

(** ** Extents *)

Lemma pair_leb_total x y : pair_leb x y = true ∨ pair_leb y x = true.
Proof. unfold pair_leb. rewrite !orb_true_iff, !andb_true_iff, !N.ltb_lt, !N.eqb_eq, !N.leb_le. lia. Qed.
Lemma pair_leb_trans x y z : pair_leb x y = true → pair_leb y z = true → pair_leb x z = true.
Proof. unfold pair_leb. rewrite !orb_true_iff, !andb_true_iff, !N.ltb_lt, !N.eqb_eq, !N.leb_le. lia. Qed.
Lemma pair_leb_anti x y : pair_leb x y = true → pair_leb y x = true → x = y.
Proof.
  unfold pair_leb. rewrite !orb_true_iff, !andb_true_iff, !N.ltb_lt, !N.eqb_eq, !N.leb_le. destruct x, y; simpl. intros. f_equal; lia.
Qed.

Lemma windows_perm l k : l ≡ₚ k → windows_overlap (sort_by pair_leb l) = windows_overlap (sort_by pair_leb k).
Proof.
  intros Hp. f_equal. apply sort_by_unique; [apply pair_leb_total|apply pair_leb_trans|intros x y _ _; apply pair_leb_anti|done].
Qed.

Lemma windows_disjoint l : (∀ x, x ∈ l → x.1 < x.2) → windows_overlap l = false → StronglySorted (λ x y, x.2 <= y.1) l.
Proof.
  induction l as [|x l IH]; intros Hx Hw; [constructor|]. assert (windows_overlap l = false ∧ ∀ y, head l = Some y → x.2 <= y.1) as [Hl Hh].
  { destruct l as [|y l]; [done|]. cbn [windows_overlap] in Hw. apply orb_false_iff in Hw as [Hy Hw]. apply N.ltb_ge in Hy. split; [done|]. by intros ? [= <-]. }
  specialize (IH ltac:(set_solver) Hl). constructor; [done|]. destruct l as [|y l]; [constructor|]. specialize (Hh y eq_refl).
  constructor; [done|]. apply StronglySorted_inv in IH as [_ Hy]. eapply Forall_impl; [exact Hy|]. intros z Hz. simpl in *.
  pose proof (Hx y ltac:(set_solver)). lia.
Qed.

Lemma sorted_between {A} (R : A → A → Prop) l x y : StronglySorted R l → x ∈ l → y ∈ l → x = y ∨ R x y ∨ R y x.
Proof.
  induction 1 as [|z l Hl IH Hz]; intros Hx Hy; [by apply elem_of_nil in Hx|]. rewrite Forall_forall in Hz.
  apply elem_of_cons in Hx as [->|Hx], Hy as [->|Hy]; auto.
Qed.

Lemma NoDup_fmap_same {A B} (f : A → B) l x y : NoDup (f <$> l) → x ∈ l → y ∈ l → f x = f y → x = y.
Proof.
  induction l as [|z l IH]; intros Hn Hx Hy Hf; [by apply elem_of_nil in Hx|]. rewrite fmap_cons, NoDup_cons in Hn. destruct Hn as [Hz Hn].
  apply elem_of_cons in Hx as [->|Hx], Hy as [->|Hy]; [done| | |by apply IH];
    [destruct Hz; rewrite Hf|destruct Hz; rewrite <- Hf]; by apply list_elem_of_fmap_2.
Qed.

(** Ranges without overlap in sorted order: their starts are distinct, and any two are apart. *)
Definition entries_apart (entries : list (PageId * IndexedPage)) : Prop :=
  ∀ e f, e ∈ entries → f ∈ entries → e ≠ f → (entry_range e).2 <= (entry_range f).1 ∨ (entry_range f).2 <= (entry_range e).1.

Lemma windows_entries entries : NoDup (fst <$> entries) → (∀ e, e ∈ entries → ex_length (entry_extent e) ≠ 0) →
  windows_overlap (sort_by pair_leb (entry_range <$> entries)) = false →
  NoDup ((λ e, ex_offset (entry_extent e)) <$> entries) ∧ entries_apart entries.
Proof.
  intros Hp Hne Hw. apply windows_disjoint in Hw.
  2: { intros x. rewrite sort_by_perm. intros (e & -> & He)%list_elem_of_fmap. pose proof (Hne e He). simpl. lia. }
  assert (NoDup ((λ e, ex_offset (entry_extent e)) <$> entries)) as Hn.
  { change (λ e, ex_offset (entry_extent e)) with (fst ∘ entry_range). rewrite list_fmap_compose, <- (sort_by_perm pair_leb (entry_range <$> entries)).
    assert (∀ x, x ∈ sort_by pair_leb (entry_range <$> entries) → x.1 < x.2) as Hlt.
    { intros x. rewrite sort_by_perm. intros (e & -> & He)%list_elem_of_fmap. pose proof (Hne e He). simpl. lia. }
    revert Hlt. induction Hw as [|x l Hl IH Hx]; intros Hlt; simpl; constructor; [|apply IH; set_solver].
    intros (y & Hy & Hin)%list_elem_of_fmap. rewrite Forall_forall in Hx. specialize (Hx y Hin). pose proof (Hlt x ltac:(set_solver)). simpl in *. lia. }
  split; [done|]. intros e f He Hf Hef.
  destruct (sorted_between _ _ (entry_range e) (entry_range f) Hw) as [Heq|H]; [rewrite sort_by_perm; by apply list_elem_of_fmap_2..| |exact H].
  destruct Hef. eapply NoDup_fmap_same; [exact Hn|done..|]. by apply (f_equal fst) in Heq.
Qed.

(** Ranges that are apart do not overlap in sorted order. *)
Lemma apart_windows l : StronglySorted (λ x y, pair_leb x y = true) l → (∀ x, x ∈ l → x.1 < x.2) → NoDup l →
  (∀ x y, x ∈ l → y ∈ l → x ≠ y → x.2 <= y.1 ∨ y.2 <= x.1) → windows_overlap l = false.
Proof.
  induction 1 as [|x l Hl IH Hx]; intros Hlt Hn Ha; [done|]. apply NoDup_cons in Hn as [Hnin Hn]. specialize (IH ltac:(set_solver) Hn ltac:(set_solver)).
  destruct l as [|y l]; [done|]. cbn [windows_overlap] in *. rewrite IH, orb_false_r. apply N.ltb_ge.
  apply Forall_cons in Hx as [Hxy _]. destruct (Ha x y) as [H|H]; [set_solver..|done|]. pose proof (Hlt y ltac:(set_solver)).
  unfold pair_leb in Hxy. rewrite orb_true_iff, andb_true_iff, N.ltb_lt, N.eqb_eq in Hxy. lia.
Qed.

Lemma entries_windows entries : NoDup ((λ e, ex_offset (entry_extent e)) <$> entries) → (∀ e, e ∈ entries → ex_length (entry_extent e) ≠ 0) →
  entries_apart entries → windows_overlap (sort_by pair_leb (entry_range <$> entries)) = false.
Proof.
  intros Hn Hne Ha. apply apart_windows; [apply sort_by_sorted; [apply pair_leb_total|apply pair_leb_trans]|..].
  - intros x. rewrite sort_by_perm. intros (e & -> & He)%list_elem_of_fmap. pose proof (Hne e He). simpl. lia.
  - rewrite sort_by_perm. eapply (NoDup_fmap_1 fst). by rewrite <- list_fmap_compose.
  - intros x y. rewrite sort_by_perm. intros (e & -> & He)%list_elem_of_fmap (f & -> & Hf)%list_elem_of_fmap Hef. apply Ha; [done|done|congruence].
Qed.

(** ** Retained records *)

Lemma location_at_spec entries offset id : NoDup ((λ e, ex_offset (entry_extent e)) <$> entries) →
  location_at entries offset = Some id ↔ ∃ e, e ∈ entries ∧ ex_offset (entry_extent e) = offset ∧ rl_segment (ip_location e.2) = id.
Proof.
  intros Hn. unfold location_at. rewrite fmap_Some. split.
  - intros ([n [page entry]] & (Hl & Ho & _)%list_find_Some & ->). apply list_elem_of_lookup_2 in Hl. rewrite elem_of_reverse in Hl. by exists (page, entry).
  - intros (e & He & Ho & <-). destruct (list_find _ _) as [[n f]|] eqn:E.
    + exists (n, f). split; [done|]. apply list_find_Some in E as (Hl & Hf & _). apply list_elem_of_lookup_2 in Hl. rewrite elem_of_reverse in Hl.
      destruct f as [page entry]. replace e with (page, entry); [done|]. symmetry. eapply NoDup_fmap_same; [exact Hn|done..|]. simpl. by rewrite Ho.
    + apply list_find_None in E. rewrite Forall_forall in E. destruct (E e); [by rewrite elem_of_reverse|]. by destruct e.
Qed.

Definition record_held (entries : list (PageId * IndexedPage)) (id : N) (r : N * Z) : Prop := (0 <= r.2)%Z ∧ location_at entries r.1 = Some id.

Lemma records_valid_spec entries id retained records k : NoDup retained →
  records_valid entries id retained records = Some k ↔
  k = reverse (fst <$> records) ++ retained ∧ NoDup (reverse (fst <$> records) ++ retained) ∧ ∀ r, r ∈ records → record_held entries id r.
Proof.
  revert retained. induction records as [|[offset until] records IH]; intros retained Hr; cbn [records_valid].
  { split; [intros [= <-]|naive_solver]. split_and!; [done|done|]. intros r Hin. by apply elem_of_nil in Hin. }
  rewrite fmap_cons, reverse_cons, <- (assoc_L (++)). cbn [fst app].
  assert (is_some (since_epoch until) = true ↔ (0 <= until)%Z) as Htime.
  { unfold since_epoch. destruct (Z.ltb_spec until 0); simpl; split; done || lia. }
  destruct (bool_decide (offset ∈ retained)) eqn:E1; cbn [orb].
  { apply bool_decide_eq_true in E1. split; [done|]. intros (_ & Hn & _). apply NoDup_app in Hn as (_ & _ & [? _]%NoDup_cons). done. }
  apply bool_decide_eq_false in E1. destruct (is_some (since_epoch until)) eqn:E2; cbn [negb orb].
  2: { split; [done|]. intros (_ & _ & H). destruct (H (offset, until) ltac:(set_solver)) as [Ht _]. simpl in Ht. apply Htime in Ht. done. }
  case_bool_decide as E3; cbn [negb].
  2: { split; [done|]. intros (_ & _ & H). destruct (H (offset, until) ltac:(set_solver)) as [_ ?]. done. }
  rewrite IH by (by constructor). split; intros (? & ? & H); (split_and!; [done|done|]); [|set_solver].
  intros r [->|Hin]%elem_of_cons; [|by apply H]. split; [by apply Htime|done].
Qed.

Lemma NoDup_reverse_app {A} (l k : list A) : NoDup (reverse l ++ k) ↔ NoDup (l ++ k).
Proof. by rewrite reverse_Permutation. Qed.

Definition held_offsets (segments : list SegmentSnapshot) : list N := concat ((λ s, fst <$> ss_retained s) <$> segments).

Lemma holds_valid_spec entries retained segments : NoDup retained →
  holds_valid entries retained segments = true ↔
  NoDup (held_offsets segments ++ retained) ∧ ∀ s r, s ∈ segments → r ∈ ss_retained s → record_held entries (ss_id s) r.
Proof.
  revert retained. induction segments as [|s segments IH]; intros retained Hr; cbn [holds_valid].
  { split; [|done]. intros _. split; [done|]. intros s r Hs. by apply elem_of_nil in Hs. }
  unfold held_offsets. rewrite fmap_cons. cbn [concat]. fold (held_offsets segments).
  assert (NoDup (((fst <$> ss_retained s) ++ held_offsets segments) ++ retained) ↔ NoDup (held_offsets segments ++ reverse (fst <$> ss_retained s) ++ retained)) as Hperm.
  { by rewrite reverse_Permutation, (Permutation_app_comm (fst <$> ss_retained s)), <- (assoc_L (++)). }
  rewrite Hperm. destruct (records_valid _ _ _ _) as [k|] eqn:E.
  - apply records_valid_spec in E as (-> & Hn & Hh); [|done]. rewrite IH by done. split; intros [? H]; (split; [done|]); [|set_solver].
    intros s' r [->|Hs']%elem_of_cons Hin; eauto.
  - split; [done|]. intros [Hn H]. assert (Some (reverse (fst <$> ss_retained s) ++ retained) = None); [|done]. rewrite <- E. symmetry.
    apply records_valid_spec; [done|]. split_and!; [done|by apply NoDup_app in Hn as (_ & _ & ?)|]. intros r Hin. apply (H s r); set_solver.
Qed.

(** ** The isolated table *)

Lemma shard_table_ok g a t : allocation_geometry g = Ok a → from_geometry 0 a = Ok t → geometry_ok a ∧ seg_ok a t.
Proof.
  unfold allocation_geometry, cg_alignment. destruct (alignment_new _ _ _) as [al|] eqn:Ha; unfold corrupt; cbn [map_err_to result_bind]; [|done].
  destruct (MAX_ITEMS <? _); [done|]. intros Hg Ht. apply (corrupt_ok (geometry_new _ _ _ _)) in Hg. assert (al_ok al) as Hal.
  { unfold alignment_new in Ha. destruct (_ || _) eqn:E; [done|]. injection Ha as <-. rewrite !orb_false_iff, !N.eqb_neq in E. split; apply E. }
  apply geometry_new_ok in Hg as [-> Hgo]; [|done]. unfold from_geometry in Ht.
  destruct (configure_table _ _ _ _) as [[[]|] t'] eqn:Hc; [|done]. injection Ht as ->. apply configure_table_ok in Hc as (g' & ? & ? & _ & _ & _ & ->); done.
Qed.

(** [restore] does not read the retained records of its images. *)
Section records.
Context (records : SegmentSnapshot → list (N * Z)).
Let relabel (g : SegmentSnapshot) : SegmentSnapshot := mkSnapshot (ss_id g) (ss_generation g) (ss_state g) (ss_used g) (records g).

Lemma validate_images_records bytes al i open images : validate_images bytes al i open (relabel <$> images) = validate_images bytes al i open images.
Proof. revert i open. induction images as [|im images IH]; intros i open; simpl; [done|]. by rewrite !IH. Qed.

Lemma restored_generations_records images slots :
  restored_generations (zip (relabel <$> images) slots) = restored_generations (zip images slots) ∧
  existsb (λ '(im, l), ss_generation im <? ss_generation (sl_image l)) (zip (relabel <$> images) slots) =
  existsb (λ '(im, l), ss_generation im <? ss_generation (sl_image l)) (zip images slots).
Proof.
  revert slots. induction images as [|im images IH]; intros [|sl slots]; [done..|]. cbn [fmap list_fmap zip zip_with restored_generations existsb].
  destruct (IH slots) as [H1 H2]. split; [|by rewrite H2]. change (restored_generation (relabel im) (sl_image sl)) with (restored_generation im (sl_image sl)).
  destruct (restored_generation im _); [exact H1|done].
Qed.

Lemma restore_slots_records slots images free evicting usage :
  restore_slots slots (relabel <$> images) free evicting usage = restore_slots slots images free evicting usage.
Proof.
  revert images free evicting usage. induction slots as [|sl slots IH]; intros [|im images] free evicting usage; [done..|].
  rewrite fmap_cons. cbn [restore_slots]. change (restored_generation (relabel im) (sl_image sl)) with (restored_generation im (sl_image sl)).
  destruct (restored_generation im _); [|done]. cbn [relabel ss_id ss_state ss_used]. destruct (add_usage _ _ _); [|done]. by rewrite IH.
Qed.

Lemma restore_with_records t images : restore t (relabel <$> images) = restore t images.
Proof.
  unfold restore. assert (validate_restore_epoch t (relabel <$> images) = validate_restore_epoch t images) as ->.
  { unfold validate_restore_epoch. rewrite length_fmap. destruct (restored_generations_records images (sg_slots t)) as [-> ->].
    destruct (sg_geometry t); [|done]. by rewrite validate_images_records. }
  destruct (validate_restore_epoch t images); [|done]. by rewrite restore_slots_records.
Qed.
End records.

(** The images of a restored table are in the order of their identifiers. *)
Lemma restored_sorted a t t' images : geometry_ok a → seg_ok a t → restore t images = Some (Ok (), t') → sort_by segment_leb images = images.
Proof.
  intros Hg Hok. unfold restore. destruct (validate_restore_epoch t images) as [epoch|] eqn:Hv; [|done]. intros _.
  destruct (validate_restore_epoch_ok a t images epoch Hg Hok Hv) as (Hlen & _ & _ & Hall).
  assert (∀ k im, images !! k = Some im → ss_id im = N.of_nat k) as Hid.
  { intros k im Him. destruct (sg_slots t !! k) as [sl|] eqn:Hs; [by destruct (Hall k im sl Him Hs) as [[]]|].
    apply lookup_ge_None in Hs. apply lookup_lt_Some in Him. lia. }
  clear Hv Hlen Hall. apply sort_by_id. assert (∃ n, ∀ k im, images !! k = Some im → ss_id im = N.of_nat (n + k)) as [n Hn] by (by exists 0%nat).
  clear Hid. revert n Hn. induction images as [|im images IH]; intros n Hn; constructor.
  - apply (IH (S n)). intros k im' Hk. rewrite (Hn (S k) im' Hk). f_equal. lia.
  - apply Forall_forall. intros im' (k & Hk)%list_elem_of_lookup. unfold segment_leb. apply N.leb_le. rewrite (Hn 0%nat im eq_refl), (Hn (S k) im' Hk). lia.
Qed.

(** A mapping of the table: its segment holds data at this generation, and the extent is inside what is used of it. *)
Lemma segments_validate_ok g t id generation x : geometry_ok g → seg_ok g t → segments_validate t id generation x = Ok () →
  ∃ sl, slot_at t id = Some sl ∧ ss_generation (sl_image sl) = generation ∧ readable (ss_state (sl_image sl)) = true ∧
    id * sg_bytes t <= ex_offset x ∧ ex_offset x + ex_length x <= id * sg_bytes t + ss_used (sl_image sl) ∧ ex_length x ≠ 0.
Proof.
  intros Hg Hok. unfold segments_validate. destruct (slot_at t id) as [sl|]; [|done]. destruct (checked_mul _ _ _) as [start|] eqn:Em; [|done].
  apply checked_mul_Some in Em as [_ ->]. destruct (checked_add U64_MAX (ex_offset x) _) as [stop|] eqn:Es; [|done]. apply checked_add_Some in Es as [_ ->].
  destruct (N.eqb_spec (ss_generation (sl_image sl)) generation) as [<-|]; [|done]. destruct (readable _) eqn:Hr; [|done]. cbn [negb orb].
  destruct (N.ltb_spec (ex_offset x) (id * sg_bytes t)); [done|]. destruct (checked_add _ (id * sg_bytes t) _) as [limit|] eqn:El; [|done].
  apply checked_add_Some in El as [_ ->]. destruct (N.ltb_spec (id * sg_bytes t + ss_used (sl_image sl)) (ex_offset x + ex_length x)); [done|].
  rewrite (so_geometry g t Hok). destruct (alignment_extent _ _ _) as [e|] eqn:Ea; [|done]. case_bool_decide as He; [|done]. subst e. intros _.
  exists sl. split_and!; [done|done|done|done|done|]. destruct (alignment_extent_Ok _ _ _ _ (go_al g Hg) Ea) as (_ & _ & _ & _ & _ & ? & _). lia.
Qed.

(** ** A valid shard *)

(** The conditions of [ShardImage::validate], with the geometry [a] and the restored table [t]. *)
Record shard_valid (s : ShardImage) (a : SegmentGeometry) (t : Segments) : Prop := {
  sv_geometry : allocation_geometry (sh_geometry s) = Ok a;
  sv_table : ∃ t0, from_geometry 0 a = Ok t0 ∧ restore t0 (sh_segments s) = Some (Ok (), t);
  sv_consistent : consistent (snapshot_metadata (sh_index s));
  sv_pages : ∀ e, e ∈ is_entries (sh_index s) → ∃ n, page_length (ip_metadata e.2) e.1 = Ok n;
  sv_counts : len (sh_segments s) <= MAX_ITEMS ∧ len (sh_segments s) = cg_segment_count (sh_geometry s) ∧
    len (is_entries (sh_index s)) <= MAX_ITEMS ∧ len (is_metadata (sh_index s)) <= MAX_ITEMS;
  sv_standalone : (∀ m, m ∈ is_metadata (sh_index s) → validate_descriptor m = Ok ()) ∧ NoDup (vm_version <$> is_metadata (sh_index s));
  sv_entries : (∀ e, e ∈ is_entries (sh_index s) → entry_mapped t e) ∧ NoDup (fst <$> is_entries (sh_index s));
  sv_holds : NoDup (held_offsets (sh_segments s)) ∧
    ∀ g r, g ∈ sh_segments s → r ∈ ss_retained g → record_held (is_entries (sh_index s)) (ss_id g) r;
  sv_windows : windows_overlap (sort_by pair_leb (entry_range <$> is_entries (sh_index s))) = false
}.

Lemma consistent_nil : consistent [].
Proof. intros a b Ha. by apply elem_of_nil in Ha. Qed.

Lemma consistent_reverse l k : consistent (reverse l ++ k) ↔ consistent (l ++ k).
Proof. split; apply consistent_perm; by rewrite reverse_Permutation. Qed.

Lemma validate_metadata_spec s : index_validate_metadata s = Ok () ↔
  consistent (snapshot_metadata s) ∧ ∀ e, e ∈ is_entries s → ∃ n, page_length (ip_metadata e.2) e.1 = Ok n.
Proof.
  unfold index_validate_metadata. rewrite <- page_lengths_spec. rewrite <- (app_nil_r (snapshot_metadata s)) at 2. rewrite <- consistent_reverse.
  destruct (compatible_from [] (snapshot_metadata s)) as [k|] eqn:E; cbn [is_some].
  - apply compatible_from_spec in E as [_ ?]; [naive_solver|apply consistent_nil].
  - split; [done|]. intros [Hc _]. assert (compatible_from [] (snapshot_metadata s) = Some (reverse (snapshot_metadata s) ++ [])) as E'; [|by rewrite E in E'].
    apply compatible_from_spec; [apply consistent_nil|done].
Qed.

Lemma reject_when_ok b : reject_when b = Ok () ↔ b = false.
Proof. by destruct b. Qed.

Lemma result_bind_ok {A B E} (r : result A E) (k : A → result B E) b : result_bind r k = Ok b ↔ ∃ a, r = Ok a ∧ k a = Ok b.
Proof. destruct r; simpl; naive_solver. Qed.

Lemma unit_ok {E} (r : result () E) : (∃ u, r = Ok u) ↔ r = Ok ().
Proof. split; [by intros [[] ?]|eauto]. Qed.

Lemma shard_counts_spec s :
  (MAX_ITEMS <? len (sh_segments s)) || negb (len (sh_segments s) =? cg_segment_count (sh_geometry s)) ||
    (MAX_ITEMS <? len (is_entries (sh_index s))) || (MAX_ITEMS <? len (is_metadata (sh_index s))) = false ↔
  len (sh_segments s) <= MAX_ITEMS ∧ len (sh_segments s) = cg_segment_count (sh_geometry s) ∧
    len (is_entries (sh_index s)) <= MAX_ITEMS ∧ len (is_metadata (sh_index s)) <= MAX_ITEMS.
Proof. rewrite !orb_false_iff, negb_false_iff, N.eqb_eq, !N.ltb_ge. tauto. Qed.

(** The checks after the table is restored. *)
Lemma restored_checks_spec s t :
  (let? _ := standalone_valid [] (is_metadata (sh_index s)) in
   let? extents := entries_valid t [] (is_entries (sh_index s)) in
   let? _ := reject_when (negb (holds_valid (is_entries (sh_index s)) [] (sh_segments s))) in
   reject_when (windows_overlap (sort_by pair_leb extents))) = Ok () ↔
  ((∀ m, m ∈ is_metadata (sh_index s) → validate_descriptor m = Ok ()) ∧ NoDup (vm_version <$> is_metadata (sh_index s))) ∧
  ((∀ e, e ∈ is_entries (sh_index s) → entry_mapped t e) ∧ NoDup (fst <$> is_entries (sh_index s))) ∧
  (NoDup (held_offsets (sh_segments s)) ∧ ∀ g r, g ∈ sh_segments s → r ∈ ss_retained g → record_held (is_entries (sh_index s)) (ss_id g) r) ∧
  windows_overlap (sort_by pair_leb (entry_range <$> is_entries (sh_index s))) = false.
Proof.
  split.
  - intros ([] & Hm & (x & He & ([] & Hh & Hw)%result_bind_ok)%result_bind_ok)%result_bind_ok. apply standalone_valid_spec in Hm as [Hm1 Hm2].
    apply entries_valid_spec in He as (He1 & He2 & ->). apply reject_when_ok, negb_false_iff, holds_valid_spec in Hh as [Hh1 Hh2]; [|constructor].
    rewrite app_nil_r in Hh1. apply reject_when_ok in Hw. split; [split; [intros m Hin; by apply Hm1|done]|].
    split; [split; [intros e Hin; by apply He1|done]|]. by split.
  - intros ([Hm1 Hm2] & [He1 He2] & [Hh1 Hh2] & Hw). apply result_bind_ok. exists (). split.
    { apply standalone_valid_spec. split; [|done]. intros m Hin. split; [by apply Hm1|apply not_elem_of_nil]. }
    apply result_bind_ok. exists (entry_range <$> is_entries (sh_index s)). split.
    { apply entries_valid_spec. split; [|done]. intros e Hin. split; [by apply He1|apply not_elem_of_nil]. }
    apply result_bind_ok. exists (). split; [|by apply reject_when_ok]. apply reject_when_ok, negb_false_iff, holds_valid_spec; [constructor|].
    by rewrite app_nil_r.
Qed.

Lemma shard_validate_spec s : shard_validate s = Some (Ok ()) ↔ ∃ a t, shard_valid s a t.
Proof.
  unfold shard_validate. destruct (allocation_geometry (sh_geometry s)) as [a|] eqn:Ha; cbn [result_bind]; [|split; [done|intros (? & ? & []); congruence]].
  destruct (index_validate_metadata (sh_index s)) as [[]|] eqn:Hm; cbn [result_bind].
  2: { split; [done|]. intros (? & ? & []). assert (index_validate_metadata (sh_index s) = Ok ()); [by apply validate_metadata_spec|congruence]. }
  destruct (reject_when _) as [[]|] eqn:Hc; cbn [result_bind].
  2: { split; [done|]. intros (? & ? & []). revert Hc. rewrite (proj2 (shard_counts_spec s)); done. }
  destruct (from_geometry 0 a) as [t0|] eqn:Ht; unfold corrupt; cbn [map_err_to]; [|split; [done|intros (? & ? & [? (? & ? & ?) ? ? ? ? ? ? ?]); congruence]].
  apply validate_metadata_spec in Hm as [Hm1 Hm2]. apply reject_when_ok, shard_counts_spec in Hc.
  destruct (restore t0 (sh_segments s)) as [[[[]|] t]|] eqn:Hr;
    [|split; [done|intros (? & ? & [? (? & ? & ?) ? ? ? ? ? ? ?]); congruence]..].
  split.
  - intros [= Hok]. apply restored_checks_spec in Hok as (? & ? & ? & ?). exists a, t. split; eauto.
  - intros (a' & t' & [Ha' (t0' & Ht' & Hr') ? ? ? ? ? ? ?]). assert (a' = a) as -> by congruence. assert (t0' = t0) as -> by congruence.
    assert (t' = t) as -> by congruence. f_equal. by apply restored_checks_spec.
Qed.

(** Validation of a shard never panics. *)
Lemma shard_validate_total s : shard_validate s ≠ None.
Proof.
  unfold shard_validate. destruct (allocation_geometry (sh_geometry s)) as [a|] eqn:Ha; cbn [result_bind]; [|done].
  destruct (index_validate_metadata _) as [[]|]; cbn [result_bind]; [|done]. destruct (reject_when _) as [[]|]; cbn [result_bind]; [|done].
  destruct (from_geometry 0 a) as [t|] eqn:Ht; unfold corrupt; cbn [map_err_to]; [|done]. destruct (shard_table_ok _ a t Ha Ht) as [Hg Hok].
  destruct (restore_ok a t (sh_segments s) Hg Hok) as [[e ->]|(f & v & u & -> & _)]; done.
Qed.

Lemma valid_table s a t : shard_valid s a t → geometry_ok a ∧ seg_ok a t ∧ sort_by segment_leb (sh_segments s) = sh_segments s.
Proof.
  intros Hv. destruct (sv_table _ _ _ Hv) as (t0 & Ht & Hr). destruct (shard_table_ok _ a t0 (sv_geometry _ _ _ Hv) Ht) as [Hg Hok].
  split; [done|]. split; [|by eapply restored_sorted].
  destruct (restore_ok a t0 (sh_segments s) Hg Hok) as [[e He]|(f & v & u & Hr' & Hs & _)]; [congruence|]. assert (t = restored_table t0 (sh_segments s) f v u) as -> by congruence. done.
Qed.

(** The extents of a valid shard start at distinct offsets and do not overlap. *)
Lemma valid_extents s a t : shard_valid s a t →
  NoDup ((λ e, ex_offset (entry_extent e)) <$> is_entries (sh_index s)) ∧ entries_apart (is_entries (sh_index s)).
Proof.
  intros Hv. destruct (valid_table s a t Hv) as (Hg & Hok & _). destruct (sv_entries _ _ _ Hv) as [He Hn].
  apply windows_entries; [done| |apply Hv]. intros e Hin. destruct (He e Hin) as (_ & Hs & _).
  by destruct (segments_validate_ok a t _ _ _ Hg Hok Hs) as (sl & _ & _ & _ & _ & _ & ?).
Qed.

Lemma record_held_perm entries entries' id r : NoDup ((λ e, ex_offset (entry_extent e)) <$> entries) → entries ≡ₚ entries' →
  record_held entries id r → record_held entries' id r.
Proof.
  intros Hn Hp [Ht Hl]. split; [done|]. apply location_at_spec in Hl as (e & He & ? & ?); [|done].
  apply location_at_spec; [by rewrite <- Hp|]. exists e. by rewrite <- Hp.
Qed.

Lemma held_offsets_canon segments : held_offsets (canon_segment <$> segments) ≡ₚ held_offsets segments.
Proof.
  unfold held_offsets. induction segments as [|s segments IH]; [done|]. rewrite !fmap_cons. cbn [concat canon_segment ss_retained].
  by rewrite IH, (sort_by_perm record_leb (ss_retained s)).
Qed.

Lemma snapshot_metadata_canon s : snapshot_metadata (sh_index (canon_shard s)) ≡ₚ snapshot_metadata (sh_index s).
Proof. unfold snapshot_metadata. simpl. by rewrite (sort_by_perm metadata_leb), (sort_by_perm entry_leb). Qed.

(** The image in the encoder's order is as valid. *)
Lemma canon_shard_valid s a t : shard_valid s a t → shard_valid (canon_shard s) a t.
Proof.
  intros Hv. destruct (valid_table s a t Hv) as (_ & _ & Hs). destruct (valid_extents s a t Hv) as [Hn _].
  pose proof (sort_by_perm entry_leb (is_entries (sh_index s))) as Pe. pose proof (sort_by_perm metadata_leb (is_metadata (sh_index s))) as Pm.
  destruct Hv as [Hg (t0 & Ht & Hr) Hc Hp (? & ? & ? & ?) [Hm1 Hm2] [He1 He2] [Hh1 Hh2] Hw].
  assert (sh_segments (canon_shard s) = canon_segment <$> sh_segments s) as Hseg by (simpl; by rewrite Hs).
  split; rewrite ?Hseg; cbn [canon_shard sh_geometry sh_index is_entries is_metadata].
  - done.
  - exists t0. split; [done|]. by rewrite (restore_with_records (λ g, sort_by record_leb (ss_retained g))).
  - eapply consistent_perm; [symmetry; apply snapshot_metadata_canon|done].
  - intros e. rewrite Pe. apply Hp.
  - unfold len in *. rewrite length_fmap, Pe, Pm. done.
  - split; [intros m; rewrite Pm; apply Hm1|by rewrite Pm].
  - split; [intros e; rewrite Pe; apply He1|by rewrite Pe].
  - rewrite held_offsets_canon. split; [done|]. intros g r (g0 & -> & Hg0)%list_elem_of_fmap. cbn [canon_segment ss_retained ss_id].
    rewrite (sort_by_perm record_leb). intros Hin. eapply record_held_perm; [exact Hn|by rewrite Pe|by apply Hh2].
  - rewrite <- Hw. apply windows_perm. by rewrite Pe.
Qed.

(** Fewer entries and descriptors, with the holds of the entries that are left. *)
Lemma filter_shard_valid s a t entries metadata : shard_valid s a t → entries `sublist_of` is_entries (sh_index s) →
  metadata `sublist_of` is_metadata (sh_index s) →
  shard_valid (prune_holds (mkShardImage (sh_worker s) (sh_geometry s) (mkIndexSnapshot entries metadata) (sh_segments s))) a t.
Proof.
  intros Hv Hse Hsm. destruct (valid_table s a t Hv) as (Hgo & Hok & _). destruct (valid_extents s a t Hv) as [Hn Hapart].
  assert (∀ e, e ∈ entries → e ∈ is_entries (sh_index s)) as Ie by (intros e He; by eapply elem_of_sublist).
  assert (∀ m, m ∈ metadata → m ∈ is_metadata (sh_index s)) as Im by (intros m Hm; by eapply elem_of_sublist).
  assert (NoDup ((λ e, ex_offset (entry_extent e)) <$> entries)) as Hn' by (eapply sublist_NoDup; [exact Hn|by apply fmap_sublist]).
  destruct Hv as [Hg (t0 & Ht & Hr) Hc Hp (? & ? & ? & ?) [Hm1 Hm2] [He1 He2] [Hh1 Hh2] Hw].
  split; cbn [prune_holds sh_geometry sh_index is_entries is_metadata sh_segments].
  - done.
  - exists t0. split; [done|]. by rewrite (restore_with_records (λ g, filter _ (ss_retained g))).
  - eapply consistent_incl; [|exact Hc]. unfold snapshot_metadata. simpl. intros m. rewrite !elem_of_app, !list_elem_of_fmap. naive_solver.
  - eauto.
  - apply sublist_length in Hse, Hsm. unfold len in *. rewrite length_fmap. split_and!; [done|done|lia|lia].
  - split; [eauto|]. eapply sublist_NoDup; [exact Hm2|by apply fmap_sublist].
  - split; [eauto|]. eapply sublist_NoDup; [exact He2|by apply fmap_sublist].
  - split.
    + eapply sublist_NoDup; [exact Hh1|]. unfold held_offsets. clear. induction (sh_segments s) as [|g l IH]; [done|].
      rewrite !fmap_cons. cbn [concat ss_retained]. apply sublist_app; [apply fmap_sublist, sublist_filter|exact IH].
    + intros g [o u] (g0 & -> & Hg0)%list_elem_of_fmap. cbn [ss_retained ss_id]. intros [Ho Hin]%list_elem_of_filter.
      destruct (Hh2 g0 (o, u) Hg0 Hin) as [Hu Hl]. split; [done|]. cbn [fst] in *. apply location_at_spec in Hl as (e & He & Heo & Hes); [|done].
      apply location_at_spec; [done|]. apply list_elem_of_fmap in Ho as ([page entry] & -> & Hf). exists (page, entry). split_and!; [done|done|].
      rewrite <- Hes. do 2 f_equal. symmetry. f_equal. eapply NoDup_fmap_same; [exact Hn|done|by apply Ie|done].
  - apply entries_windows; [done| |intros e f He Hf; apply Hapart; auto]. intros e He. destruct (He1 e (Ie e He)) as (_ & Hs & _).
    by destruct (segments_validate_ok a t _ _ _ Hgo Hok Hs) as (sl & _ & _ & _ & _ & _ & ?).
Qed.

(** ** A valid image *)

Record image_valid (i : CheckpointImage) : Prop := {
  iv_version : ci_version i = CHECKPOINT_VERSION;
  iv_cluster : len (ci_cluster i) = CLUSTER_BYTES ∧ valid_uuid (ci_cluster i) = true;
  iv_count : ci_shards i ≠ [] ∧ len (ci_shards i) <= MAX_SHARDS;
  iv_workers : NoDup (sh_worker <$> ci_shards i);
  iv_shards : ∀ s, s ∈ ci_shards i → ∃ a t, shard_valid s a t;
  iv_pages : NoDup (concat ((λ s, fst <$> is_entries (sh_index s)) <$> ci_shards i));
  iv_metadata : consistent (concat ((λ s, snapshot_metadata (sh_index s)) <$> ci_shards i))
}.

Lemma shards_valid_spec workers pages lengths shards : NoDup workers → NoDup pages → consistent lengths →
  shards_valid workers pages lengths shards = Some (Ok ()) ↔
  NoDup ((sh_worker <$> shards) ++ workers) ∧ (∀ s, s ∈ shards → ∃ a t, shard_valid s a t) ∧
  NoDup (concat ((λ s, fst <$> is_entries (sh_index s)) <$> shards) ++ pages) ∧
  consistent (concat ((λ s, snapshot_metadata (sh_index s)) <$> shards) ++ lengths).
Proof.
  revert workers pages lengths. induction shards as [|s shards IH]; intros workers pages lengths Hw Hp Hl; cbn [shards_valid].
  { split; [|done]. intros _. split_and!; [done| |done|done]. intros s Hs. by apply elem_of_nil in Hs. }
  rewrite !fmap_cons. cbn [concat]. set (ps := fst <$> is_entries (sh_index s)). set (ms := snapshot_metadata (sh_index s)).
  set (P := concat (_ <$> shards)). set (M := concat (_ <$> shards)).
  assert ((sh_worker s :: (sh_worker <$> shards)) ++ workers ≡ₚ (sh_worker <$> shards) ++ sh_worker s :: workers) as Pw by (by rewrite <- Permutation_middle).
  assert ((ps ++ P) ++ pages ≡ₚ P ++ reverse ps ++ pages) as Pp by (by rewrite reverse_Permutation, (Permutation_app_comm ps), <- (assoc_L (++))).
  assert ((ms ++ M) ++ lengths ≡ₚ M ++ reverse ms ++ lengths) as Pm by (by rewrite reverse_Permutation, (Permutation_app_comm ms), <- (assoc_L (++))).
  rewrite Pw, Pp. assert (consistent ((ms ++ M) ++ lengths) ↔ consistent (M ++ reverse ms ++ lengths)) as -> by (split; by apply consistent_perm).
  case_bool_decide as Hin; [split; [done|]; intros (Hn & _); apply NoDup_app in Hn as (_ & _ & [? _]%NoDup_cons); done|].
  destruct (shard_validate s) as [[[]|]|] eqn:Hs.
  2-3: split; [done|]; intros (_ & H & _); specialize (H s ltac:(set_solver)); apply shard_validate_spec in H; congruence.
  apply shard_validate_spec in Hs. destruct (all_new pages ps) as [pages'|] eqn:Ea.
  2: { split; [done|]. intros (_ & _ & Hn & _). apply NoDup_app in Hn as (_ & _ & Hn). assert (all_new pages ps = Some (reverse ps ++ pages)); [by apply all_new_spec|congruence]. }
  apply all_new_spec in Ea as [-> Hn]; [|done]. destruct (compatible_from lengths ms) as [lengths'|] eqn:Ec.
  2: { split; [done|]. intros (_ & _ & _ & Hc). assert (compatible_from lengths ms = Some (reverse ms ++ lengths)); [|congruence].
       apply compatible_from_spec; [done|]. split; [done|]. eapply consistent_incl; [|exact Hc]. set_solver. }
  apply compatible_from_spec in Ec as [-> Hc]; [|done]. rewrite IH; [|by constructor|done|done].
  split; intros (? & H & ? & ?); (split_and!; [done| |done|done]); [|set_solver]. intros s' [->|?]%elem_of_cons; auto.
Qed.

Lemma validate_image_spec i : validate_image i = Some (Ok ()) ↔ image_valid i.
Proof.
  unfold validate_image. destruct (_ || _) eqn:E.
  - split; [done|]. intros [Hv [Hc Hu] [Hne Hm] _ _ _ _]. rewrite Hv, Hc, Hu, bool_decide_eq_false_2, (proj2 (N.ltb_ge _ _)) in E by done. done.
  - rewrite !orb_false_iff, !negb_false_iff, !N.eqb_eq, bool_decide_eq_false, N.ltb_ge in E. destruct E as ((((? & ?) & ?) & ?) & ?).
    rewrite shards_valid_spec by (done || constructor || apply consistent_nil). rewrite !app_nil_r. split; [intros (? & ? & ? & ?); done|]. by intros [].
Qed.

Lemma validate_image_total i : validate_image i ≠ None.
Proof.
  unfold validate_image. destruct (_ || _); [done|]. generalize (@nil N) (@nil PageId) (@nil VersionMetadata). induction (ci_shards i) as [|s shards IH]; intros w p l; [done|].
  cbn [shards_valid]. case_bool_decide; [done|]. pose proof (shard_validate_total s). destruct (shard_validate s) as [[|]|]; [|done..].
  destruct (all_new _ _); [|done]. destruct (compatible_from _ _); [apply IH|done].
Qed.

Lemma concat_fmap_perm {A B} (f g : A → list B) (l : list A) : (∀ a, a ∈ l → f a ≡ₚ g a) → concat (f <$> l) ≡ₚ concat (g <$> l).
Proof.
  induction l as [|a l IH]; intros H; [done|]. rewrite !fmap_cons. cbn [concat]. by rewrite (H a), IH by set_solver.
Qed.

Lemma canon_image_valid i : image_valid i → image_valid (canon_image i).
Proof.
  intros [? ? [Hne ?] Hw Hs Hp Hm]. pose proof (sort_by_perm worker_leb (ci_shards i)) as Ps. split; cbn [canon_image ci_version ci_cluster ci_shards]; [done|done| | | | |].
  - split; [|unfold len in *; by rewrite length_fmap, Ps]. intros E%fmap_nil_inv. rewrite E in Ps. by apply Permutation_nil_l in Ps.
  - rewrite <- list_fmap_compose. change (sh_worker ∘ canon_shard) with sh_worker. by rewrite Ps.
  - intros s (s0 & -> & Hin)%list_elem_of_fmap. rewrite Ps in Hin. destruct (Hs s0 Hin) as (a & t & ?). exists a, t. by apply canon_shard_valid.
  - rewrite <- list_fmap_compose. rewrite (concat_fmap_perm _ (λ s, fst <$> is_entries (sh_index s))); [by rewrite Ps|].
    intros s _. simpl. by rewrite (sort_by_perm entry_leb).
  - eapply consistent_perm; [|exact Hm]. rewrite <- list_fmap_compose.
    rewrite (concat_fmap_perm (_ ∘ canon_shard) (λ s, snapshot_metadata (sh_index s))); [by rewrite Ps|]. intros s _. apply snapshot_metadata_canon.
Qed.

Lemma filter_available_image i metadata_available available : image_valid i → image_valid (filter_available metadata_available available i).
Proof.
  intros [? ? [Hne ?] Hw Hs Hp Hm]. split; cbn [filter_available ci_version ci_cluster ci_shards]; [done|done| | | | |].
  - unfold len in *. rewrite length_fmap. split; [|done]. by intros E%fmap_nil_inv.
  - rewrite <- list_fmap_compose. exact Hw.
  - intros s (s0 & -> & Hin)%list_elem_of_fmap. destruct (Hs s0 Hin) as (a & t & ?). exists a, t. by apply filter_shard_valid; [|apply sublist_filter..].
  - eapply sublist_NoDup; [exact Hp|]. rewrite <- list_fmap_compose. clear. induction (ci_shards i) as [|s l IH]; [done|]. rewrite !fmap_cons. cbn [concat].
    apply sublist_app; [|exact IH]. apply fmap_sublist, sublist_filter.
  - eapply consistent_incl; [|exact Hm]. rewrite <- list_fmap_compose. clear. induction (ci_shards i) as [|s l IH]; [done|]. intros m. rewrite !fmap_cons. cbn [concat].
    rewrite !elem_of_app. intros [Hin|Hin]; [left|right; by apply IH]. revert Hin. unfold snapshot_metadata. simpl. rewrite !elem_of_app, !list_elem_of_fmap.
    setoid_rewrite list_elem_of_filter. naive_solver.
Qed.

(** ** The canonical order *)

Lemma lawful_version : lawful_compare version_compare.
Proof.
  apply (lawful_map (λ v, (o_cache (v_object v), (o_key (v_object v), v_etag v)))
    (λ x y, then_compare (bytes_compare x.1 y.1) (then_compare (bytes_compare x.2.1 y.2.1) (bytes_compare x.2.2 y.2.2)))).
  - intros [[] ] [[] ]; simpl. by intros [= -> -> ->].
  - apply (lawful_then _ (λ x y, then_compare (bytes_compare x.1 y.1) (bytes_compare x.2 y.2))); [apply lawful_bytes|]. apply lawful_then; apply lawful_bytes.
Qed.

Lemma lawful_page : lawful_compare page_compare.
Proof.
  apply (lawful_map (λ p, (p_version p, p_number p)) (λ x y, then_compare (version_compare x.1 y.1) (x.2 ?= y.2))); [|apply lawful_then; [apply lawful_version|apply lawful_N]].
  intros [] []; simpl. by intros [= -> ->].
Qed.

Lemma leb_sorted {A} (key : A → N) l : sort_by (λ x y, key x <=? key y) (sort_by (λ x y, key x <=? key y) l) = sort_by (λ x y, key x <=? key y) l.
Proof.
  apply sort_by_id, sort_by_sorted; [intros x y; rewrite !N.leb_le; lia|intros x y z; rewrite !N.leb_le; lia].
Qed.

Lemma insert_by_fmap {A} (le : A → A → bool) (f : A → A) x l : (∀ x y, le (f x) (f y) = le x y) → insert_by le (f x) (f <$> l) = f <$> insert_by le x l.
Proof. intros Hf. induction l as [|y l IH]; simpl; [done|]. rewrite Hf. destruct (le x y); [done|]. simpl. f_equal. exact IH. Qed.

Lemma sort_by_fmap {A} (le : A → A → bool) (f : A → A) l : (∀ x y, le (f x) (f y) = le x y) → sort_by le (f <$> l) = f <$> sort_by le l.
Proof.
  intros Hf. induction l as [|x l IH]; [done|]. rewrite fmap_cons. unfold sort_by in *. cbn [foldr]. rewrite IH. by apply insert_by_fmap.
Qed.

Lemma canon_segment_idem g : canon_segment (canon_segment g) = canon_segment g.
Proof. unfold canon_segment. simpl. f_equal. apply (leb_sorted fst). Qed.

Lemma canon_shard_idem s : canon_shard (canon_shard s) = canon_shard s.
Proof.
  unfold canon_shard. simpl. f_equal; [f_equal|].
  - apply (lawful_sorted fst page_compare), lawful_page.
  - apply (lawful_sorted vm_version version_compare), lawful_version.
  - rewrite sort_by_fmap by done. rewrite (leb_sorted ss_id), <- list_fmap_compose. apply list_fmap_ext. intros ? g _. apply canon_segment_idem.
Qed.

Lemma canon_image_idem i : canon_image (canon_image i) = canon_image i.
Proof.
  unfold canon_image. simpl. f_equal. rewrite sort_by_fmap by done. rewrite (leb_sorted sh_worker), <- list_fmap_compose. apply list_fmap_ext. intros ? s _. apply canon_shard_idem.
Qed.
