(* ===== verification/CheckpointRuns.v ===== *)
(** * Checkpoints: encoding and restoring

    Whole images: what encoding produces and its size, what decoding makes of it within a budget, and what holds of every image a
    node restores from. *)

From S2P Require Import Prelude Bytes Http ObjectModel WireCodec Segments SegmentProofs Checkpoint CheckpointCodec CheckpointBudget CheckpointProofs.
Local Open Scope racer_scope.
Local Open Scope N_scope.

(** ** A valid image can be encoded *)

Lemma descriptor_codable m : metadata_typed m → validate_descriptor m = Ok () → metadata_codable m.
Proof.
  intros Hm. unfold validate_descriptor. destruct (_ || _) eqn:E; [done|]. intros _. split; [done|].
  rewrite !orb_false_iff, !N.ltb_ge in E. apply E.
Qed.

Lemma page_length_version m page n : page_length m page = Ok n → p_version page = vm_version m.
Proof.
  unfold page_length. destruct (checked_mul _ _ _); cbn [ok_or result_bind]; [|done]. destruct (bool_decide (p_version page = vm_version m)) eqn:E.
  - by apply bool_decide_eq_true in E.
  - by rewrite orb_true_r.
Qed.

(** The retained records of a segment are some of the entries. *)
Lemma valid_records s a t g : shard_valid s a t → g ∈ sh_segments s → len (ss_retained g) <= MAX_ITEMS.
Proof.
  intros Hv Hg. destruct (valid_extents s a t Hv) as [Hn _]. destruct (sv_holds _ _ _ Hv) as [Hd Hh]. destruct (sv_counts _ _ _ Hv) as (_ & _ & He & _).
  etrans; [|exact He]. unfold len. apply N2Z.inj_le. rewrite !nat_N_Z. apply inj_le.
  rewrite <- (length_fmap fst (ss_retained g)), <- (length_fmap (λ e, ex_offset (entry_extent e)) (is_entries (sh_index s))).
  apply submseteq_length, NoDup_submseteq.
  - apply list_elem_of_split in Hg as (l1 & l2 & Hs). unfold held_offsets in Hd. rewrite Hs, fmap_app, fmap_cons, concat_app in Hd. cbn [concat] in Hd.
    apply NoDup_app in Hd as (_ & _ & Hd). by apply NoDup_app in Hd as (? & _ & _).
  - intros o (r & -> & Hr)%list_elem_of_fmap. destruct (Hh g r Hg Hr) as [_ Hl]. apply location_at_spec in Hl as (e & He' & <- & _); [|done].
    by apply (list_elem_of_fmap_2 (λ e, ex_offset (entry_extent e))).
Qed.

Lemma valid_shard_codable s a t : shard_typed s → shard_valid s a t → shard_codable s.
Proof.
  intros Ht Hv. pose proof (valid_records s a t) as Hr. destruct (sv_counts _ _ _ Hv) as (? & ? & ? & ?). split; try done; [apply Ht|apply Ht| | | |].
  - unfold cg_validate. by rewrite (sv_geometry _ _ _ Hv).
  - split; [done|]. intros g Hg. split; [by apply Ht|by apply Hr|]. intros o u Hin. by destruct (proj2 (sv_holds _ _ _ Hv) g (o, u) Hg Hin).
  - split; [done|]. intros e He. destruct (sh_entries_typed s Ht e He) as [Hm ? ? ? ? ?] eqn:Hte. destruct (sv_pages _ _ _ Hv e He) as [n Hn].
    split; [by apply Ht|]. split; [|by eapply page_length_version]. apply descriptor_codable; [done|]. by destruct (proj1 (sv_entries _ _ _ Hv) e He).
  - split; [done|]. intros m Hm. apply descriptor_codable; [by apply Ht|]. by apply (sv_standalone _ _ _ Hv).
Qed.

Lemma valid_codable i : image_typed i → image_valid i → image_codable i.
Proof.
  intros Ht [? [? ?] [? ?] ? Hs ? ?]. split; [done|split; [apply Ht|done]|apply Ht|]. split; [done|]. intros s Hin.
  destruct (Hs s Hin) as (a & t & Hv). eapply valid_shard_codable; [by apply Ht|done].
Qed.

Lemma canon_shard_typed s : shard_typed s → shard_typed (canon_shard s).
Proof.
  intros [? ? Hs He Hm]. split; simpl; [done|done| |intros e; rewrite (sort_by_perm entry_leb); auto|intros m; rewrite (sort_by_perm metadata_leb); auto].
  intros g (g0 & -> & Hg)%list_elem_of_fmap. rewrite (sort_by_perm segment_leb) in Hg. destruct (Hs g0 Hg) as [? ? ? Hr]. split; simpl; [done..|].
  intros o u. rewrite (sort_by_perm record_leb). apply Hr.
Qed.

Lemma canon_image_typed i : image_typed i → image_typed (canon_image i).
Proof.
  intros [? ? Hs]. split; simpl; [done|done|]. intros s (s0 & -> & Hin)%list_elem_of_fmap. rewrite (sort_by_perm worker_leb) in Hin. by apply canon_shard_typed, Hs.
Qed.

(** ** Encoding *)

Lemma patch_length_image total i : patch_length (put_image 0 i) total = put_image total i.
Proof.
  rewrite !put_image_walk. unfold patch_length, image_header. rewrite <- !(assoc_L (++)).
  set (tail := ci_cluster i ++ _). set (h := CHECKPOINT_MAGIC ++ le_bytes 4 (ci_version i) ++ le_bytes 4 0 ++ le_bytes 8 (ci_sequence i)).
  assert (∀ x, CHECKPOINT_MAGIC ++ le_bytes 4 (ci_version i) ++ le_bytes 4 0 ++ le_bytes 8 (ci_sequence i) ++ x = h ++ x) as Hh
    by (intros; unfold h; by rewrite <- !(assoc_L (++))).
  rewrite !Hh. assert (length h = 24%nat) as Hl by (unfold h; by rewrite !length_app, !endian_bytes_length).
  rewrite take_app_length' by done. change 32%nat with (24 + 8)%nat. rewrite <- drop_drop, drop_app_length' by done.
  by rewrite drop_app_length' by (by rewrite endian_bytes_length).
Qed.

Section whole.
Context (sha256 : list N → list N) (sizes : TypeSizes).

(** The bytes of a checkpoint. *)
Definition checkpoint_bytes (i : CheckpointImage) : list N :=
  let body := put_image (image_bytes_of (ci_shards i)) (canon_image i) in body ++ sha256 body.

Lemma encode_valid i : image_typed i → image_valid i →
  checkpoint_encode sha256 i =
    Some (if image_bytes_of (ci_shards i) <=? MAX_CHECKPOINT_BYTES then Ok (checkpoint_bytes i) else Err StoreError_CorruptRecord).
Proof.
  intros Ht Hv. pose proof (valid_codable i Ht Hv) as Hc. unfold checkpoint_encode. rewrite (proj2 (validate_image_spec i) Hv). f_equal.
  rewrite (writes_image i Hc) by (by vm_compute). pose proof (len_image 0 _ (canon_image_codable i Hc)) as Hl. rewrite image_bytes_canon in Hl.
  change (len (@nil N)) with 0. rewrite N.add_0_l. unfold ENCODER_LIMIT.
  destruct (N.leb_spec (image_bytes_of (ci_shards i)) MAX_CHECKPOINT_BYTES) as [Hle|Hgt].
  - rewrite (proj2 (N.leb_le _ _)) by lia. cbn [result_bind app]. rewrite checked_add_le by (rewrite Hl; unfold MAX_CHECKPOINT_BYTES in Hle; unfold USIZE_MAX, U64_MAX; lia).
    cbn [ok_or result_bind]. rewrite Hl, patch_length_image. done.
  - rewrite (proj2 (N.leb_gt _ _)); [done|]. unfold MAX_CHECKPOINT_BYTES, DIGEST_BYTES in *. lia.
Qed.

Lemma encode_ok_valid i bytes : checkpoint_encode sha256 i = Some (Ok bytes) → image_valid i.
Proof.
  unfold checkpoint_encode. destruct (validate_image i) as [[[]|]|] eqn:E; [|done..]. intros _. by apply validate_image_spec.
Qed.

Lemma encode_ok_bytes i bytes : image_typed i → checkpoint_encode sha256 i = Some (Ok bytes) →
  image_valid i ∧ image_bytes_of (ci_shards i) <= MAX_CHECKPOINT_BYTES ∧ bytes = checkpoint_bytes i.
Proof.
  intros Ht He. pose proof (encode_ok_valid i bytes He) as Hv. rewrite (encode_valid i Ht Hv) in He. split; [done|].
  destruct (N.leb_spec (image_bytes_of (ci_shards i)) MAX_CHECKPOINT_BYTES); [|done]. by injection He as ->.
Qed.

(** C25: of an image whose fields are within their types, encoding refuses exactly what validation refuses, with the same error, and
    what counts, by the size that the catalog and the publisher compute for the shards, above the format limit; any other image is
    encoded, and the file has exactly the size counted. *)
Theorem checkpoint_size_exact i n : image_typed i → snapshot_image_bytes (ci_shards i) = Ok n → (∀ x, length (sha256 x) = 32%nat) →
  ∃ v, validate_image i = Some v ∧
    match v with
    | Err e => checkpoint_encode sha256 i = Some (Err e)
    | Ok _ => if n <=? MAX_CHECKPOINT_BYTES then ∃ bytes, checkpoint_encode sha256 i = Some (Ok bytes) ∧ len bytes = n
              else checkpoint_encode sha256 i = Some (Err StoreError_CorruptRecord)
    end.
Proof.
  intros Ht Hn Hd. destruct (validate_image i) as [[[]|e]|] eqn:Hv; [|exists (Err e); split; [done|]; unfold checkpoint_encode; by rewrite Hv|].
  2: by destruct (validate_image_total i).
  exists (Ok ()). split; [done|]. apply validate_image_spec in Hv. apply shards_size_ok in Hn. fold (image_bytes_of (ci_shards i)) in Hn. subst n.
  rewrite (encode_valid i Ht Hv). destruct (N.leb_spec (image_bytes_of (ci_shards i)) MAX_CHECKPOINT_BYTES); [|done].
  eexists. split; [done|]. unfold checkpoint_bytes. rewrite <- (image_bytes_canon i) in *.
  destruct (length_accepted (image_bytes_of (ci_shards (canon_image i))) (canon_image i) (sha256 (put_image (image_bytes_of (ci_shards (canon_image i))) (canon_image i)))) as [-> _]; try done.
  by apply canon_image_codable, valid_codable.
Qed.

Lemma encode_canon i : image_typed i → image_valid i → image_bytes_of (ci_shards i) <= MAX_CHECKPOINT_BYTES →
  checkpoint_encode sha256 (canon_image i) = Some (Ok (checkpoint_bytes i)).
Proof.
  intros Ht Hv Hmax. rewrite encode_valid by auto using canon_image_typed, canon_image_valid. rewrite image_bytes_canon.
  rewrite (proj2 (N.leb_le _ _)) by done. unfold checkpoint_bytes. by rewrite image_bytes_canon, canon_image_idem.
Qed.

Hypothesis digest_length : ∀ x, length (sha256 x) = 32%nat.

Lemma checkpoint_decode_encoded i bytes budget : image_typed i → checkpoint_encode sha256 i = Some (Ok bytes) →
  decode_with_budget sha256 sizes bytes budget =
    Some (if image_memory sizes i <=? N.min budget USIZE_MAX then Ok (canon_image i) else Err StoreError_Overloaded).
Proof.
  intros Ht He. destruct (encode_ok_bytes i bytes Ht He) as (Hv & Hmax & ->). clear He. pose proof (canon_image_codable i (valid_codable i Ht Hv)) as Hc.
  rewrite <- (image_bytes_canon i) in Hmax. unfold checkpoint_bytes. set (total := image_bytes_of (ci_shards i)). set (body := put_image total (canon_image i)).
  destruct (length_accepted total (canon_image i) (sha256 body) Hc (digest_length _) Hmax) as [Hlen Hrej].
  unfold decode_with_budget. unfold body at 1. rewrite recovery_memory_image by done. rewrite image_memory_canon.
  destruct (image_memory sizes i <=? _); cbn [result_bind]; [|done]. fold body in Hrej. rewrite Hrej. cbn [reject_when result_bind].
  rewrite !checkpoint_body_app by done. rewrite drop_app_length' by (rewrite length_app, digest_length; unfold DIGEST_BYTES; lia).
  rewrite bool_decide_eq_true_2 by done. cbn [negb reject_when result_bind]. fold body in Hlen. rewrite Hlen, image_bytes_canon. fold total.
  pose proof (reads_image total (canon_image i) Hc) as Hr. fold body in Hr. rewrite <- (app_nil_r body), Hr; cbn [result_bind].
  - rewrite bool_decide_eq_true_2 by done. cbn [result_bind]. by rewrite (proj2 (validate_image_spec _) (canon_image_valid i Hv)).
  - rewrite image_bytes_canon in Hmax. fold total in Hmax. unfold MAX_CHECKPOINT_BYTES in Hmax. unfold U64_MAX. lia.
Qed.

(** C23: an image, its fields within their types, that a node encodes is decoded to the same image in canonical order, exactly when the memory that the preflight
    counts for it is within the budget; otherwise decoding is refused as overload.  Encoding the decoded image gives the same bytes. *)
Theorem checkpoint_round_trip i bytes budget : image_typed i → checkpoint_encode sha256 i = Some (Ok bytes) →
  decode_with_budget sha256 sizes bytes budget =
    Some (if image_memory sizes i <=? N.min budget USIZE_MAX then Ok (canon_image i) else Err StoreError_Overloaded) ∧
  checkpoint_encode sha256 (canon_image i) = Some (Ok bytes).
Proof.
  intros Ht He. split; [by apply checkpoint_decode_encoded|]. destruct (encode_ok_bytes i bytes Ht He) as (? & ? & ->). by apply encode_canon.
Qed.

Lemma decode_ok bytes budget i : decode_with_budget sha256 sizes bytes budget = Some (Ok i) →
  image_valid i ∧ sha256 (checkpoint_body bytes) = drop (length bytes - N.to_nat DIGEST_BYTES) bytes ∧
  ∃ used, recovery_memory sizes budget bytes = Ok used.
Proof.
  unfold decode_with_budget. destruct (recovery_memory _ _ _) as [used|]; cbn [result_bind]; [|done].
  destruct (reject_when _) as [[]|]; cbn [result_bind]; [|done]. case_bool_decide as Hd; cbn [negb reject_when result_bind]; [|done].
  destruct (dec_image _ _) as [[j rest]|]; cbn [result_bind]; [|done]. case_bool_decide; [|done].
  destruct (validate_image j) as [[[]|]|] eqn:Hv; [|done..]. intros [= <-]. apply validate_image_spec in Hv. eauto.
Qed.

(** A shard that validation accepts, in terms of the table that its segments restore. *)
Definition shard_restorable (s : ShardImage) : Prop :=
  ∃ a t0 t, allocation_geometry (sh_geometry s) = Ok a ∧ from_geometry 0 a = Ok t0 ∧ restore t0 (sh_segments s) = Some (Ok (), t) ∧ seg_ok a t ∧
    (∀ e, e ∈ is_entries (sh_index s) → ∃ sl, slot_at t (rl_segment (ip_location e.2)) = Some sl ∧
      ss_generation (sl_image sl) = rl_generation (ip_location e.2) ∧ readable (ss_state (sl_image sl)) = true ∧
      rl_segment (ip_location e.2) * sg_bytes t <= ex_offset (entry_extent e) ∧
      ex_offset (entry_extent e) + ex_length (entry_extent e) <= rl_segment (ip_location e.2) * sg_bytes t + ss_used (sl_image sl)) ∧
    entries_apart (is_entries (sh_index s)) ∧
    ∀ g r, g ∈ sh_segments s → r ∈ ss_retained g →
      ∃ e, e ∈ is_entries (sh_index s) ∧ ex_offset (entry_extent e) = r.1 ∧ rl_segment (ip_location e.2) = ss_id g.

Lemma valid_restorable s a t : shard_valid s a t → shard_restorable s.
Proof.
  intros Hv. destruct (valid_table s a t Hv) as (Hg & Hok & _). destruct (valid_extents s a t Hv) as [Hn Ha]. destruct (sv_table _ _ _ Hv) as (t0 & Ht & Hr).
  exists a, t0, t. split_and!; [apply Hv|done|done|done| |done|].
  - intros e He. destruct (proj1 (sv_entries _ _ _ Hv) e He) as (_ & Hs & _).
    destruct (segments_validate_ok a t _ _ _ Hg Hok Hs) as (sl & ? & ? & ? & ? & ? & _). by exists sl.
  - intros g r Hg0 Hr0. destruct (proj2 (sv_holds _ _ _ Hv) g r Hg0 Hr0) as [_ Hl]. by apply location_at_spec in Hl.
Qed.

(** C24: decoding a file, whatever its bytes, returns an image or an error and never panics.  An image is only returned when its digest
    matches and the memory counted for it is within the budget; its shards then hold every page at most once between them, and each
    shard restores a table in which every mapping lies in the used part of a readable segment of its generation, no two mappings
    overlap, and every retained record is that of a mapping. *)
Theorem checkpoint_decode_safe bytes budget :
  decode_with_budget sha256 sizes bytes budget ≠ None ∧
  ∀ i, decode_with_budget sha256 sizes bytes budget = Some (Ok i) →
    sha256 (checkpoint_body bytes) = drop (length bytes - N.to_nat DIGEST_BYTES) bytes ∧
    (∃ used, recovery_memory sizes budget bytes = Ok used ∧ len bytes <= used <= budget) ∧
    NoDup (concat ((λ s, fst <$> is_entries (sh_index s)) <$> ci_shards i)) ∧ ∀ s, s ∈ ci_shards i → shard_restorable s.
Proof.
  split.
  - unfold decode_with_budget. destruct (result_bind _ _) as [i|]; [|done]. pose proof (validate_image_total i). by destruct (validate_image i) as [[|]|].
  - intros i (Hv & Hd & used & Hu)%decode_ok. split; [done|]. split; [exists used; split; [done|by eapply recovery_memory_bounded]|].
    split; [apply Hv|]. intros s Hs. destruct (iv_shards i Hv s Hs) as (a & t & ?). by eapply valid_restorable.
Qed.
End whole.

(** ** Filters *)

(** Dropping from a valid image the pages and descriptors whose cache or key is no longer available, with the holds of the
    pages dropped, leaves a valid image. *)
Theorem filter_available_valid i metadata_available available : validate_image i = Some (Ok ()) →
  validate_image (filter_available metadata_available available i) = Some (Ok ()).
Proof. intros Hv%validate_image_spec. by apply validate_image_spec, filter_available_image. Qed.

(** The cut that a node publishes at shutdown from the snapshots of its workers. *)
Definition shutdown_cut (metadata_available : list N → bool) (available : list N → list N → bool) (i : CheckpointImage) : CheckpointImage :=
  mkCheckpointImage (ci_version i) (ci_cluster i) (ci_sequence i) (shutdown_filter metadata_available available <$> ci_shards i).

(** C26: the shutdown cut of a valid image filters in the same way but keeps every retained record.  When a page that is dropped has one, the cut is
    never published: encoding refuses it. *)
Theorem shutdown_cut_refused sha256 i metadata_available available s g r e : validate_image i = Some (Ok ()) → s ∈ ci_shards i →
  g ∈ sh_segments s → r ∈ ss_retained g → e ∈ is_entries (sh_index s) → ex_offset (entry_extent e) = r.1 →
  available (o_cache (v_object (p_version e.1))) (ip_key_id e.2) = false →
  ∃ error, checkpoint_encode sha256 (shutdown_cut metadata_available available i) = Some (Err error).
Proof.
  intros Hv%validate_image_spec Hs Hg Hr He Ho Hun. destruct (iv_shards i Hv s Hs) as (a & t & Hsv). destruct (valid_extents s a t Hsv) as [Hn _].
  unfold checkpoint_encode. pose proof (validate_image_total (shutdown_cut metadata_available available i)).
  destruct (validate_image _) as [[[]|error]|] eqn:E; [exfalso|eauto|done]. apply validate_image_spec in E.
  destruct (iv_shards _ E (shutdown_filter metadata_available available s)) as (a' & t' & Hv'); [by apply list_elem_of_fmap_2|].
  destruct (proj2 (sv_holds _ _ _ Hv') g r Hg Hr) as [_ Hl]. apply location_at_spec in Hl as (f & Hf & Hfo & _); [|by destruct (valid_extents _ _ _ Hv')].
  simpl in Hf. apply list_elem_of_filter in Hf as [Hav Hf]. assert (f = e) as -> by (eapply NoDup_fmap_same; [exact Hn|done|done|simpl; congruence]).
  destruct e as [page entry]. simpl in *. congruence.
Qed.

(** ** A checkpoint of one shard *)

Module Sample.
Definition digest (_ : list N) : list N := repeat 7 32.
Definition type_sizes : TypeSizes := mkSizes 80 200 56 160 96.
Definition geometry : CheckpointGeometry := mkCheckpointGeometry FILE_LAYOUT_DIGEST 8192 4096 2 4096 512 512.
Definition descriptor : VersionMetadata :=
  mkVersionMetadata (Some (lit "text/plain")) (mkVersion (mkObject (lit "c") (repeat 1 32)) (34 :: lit "e" ++ [34])) (PAGE_BYTES + 5).
Definition entry (number offset : N) : PageId * IndexedPage :=
  (mkPage (vm_version descriptor) number, mkIndexedPage (mkLocation 0 1 (mkExtent offset 512)) descriptor (repeat number 16)).
Definition shard : ShardImage :=
  mkShardImage 3 geometry (mkIndexSnapshot [entry 1 512; entry 0 0] [descriptor])
    [mkSnapshot 0 1 SegmentState_Sealed 1024 [(512, 5000000000%Z); (0, 7000000001%Z)]; mkSnapshot 1 1 SegmentState_Free 0 []].
Definition image : CheckpointImage := mkCheckpointImage CHECKPOINT_VERSION (lit "01234567-89ab-4def-8123-456789abcdef") 9 [shard].

(** Case analysis over a concrete list. *)
Ltac each := repeat (match goal with H : _ ∈ _ :: _ |- _ => apply elem_of_cons in H as [->|H] | H : _ ∈ [] |- _ => by apply elem_of_nil in H end).

Lemma descriptor_typed : metadata_typed descriptor.
Proof. split; [by vm_compute..|]. intros v [= <-]. by vm_compute. Defined.

Lemma image_is_typed : image_typed image.
Proof.
  split; [by vm_compute|by vm_compute|]. intros s Hs. cbn [ci_shards image] in Hs. each. split; [by vm_compute| |..].
  - split; [by vm_compute|]. repeat constructor; by vm_compute.
  - intros g Hg. cbn [sh_segments shard] in Hg. each; (split; [by vm_compute..|]); intros o u Hr; cbn [ss_retained] in Hr;
      repeat (apply elem_of_cons in Hr as [[= -> ->]|Hr]; [by vm_compute|]); by apply elem_of_nil in Hr.
  - intros e He. cbn [sh_index is_entries shard] in He. each; (split; [apply descriptor_typed|by vm_compute..]).
  - intros m Hm. cbn [sh_index is_metadata shard] in Hm. each. apply descriptor_typed.
Defined.
End Sample.

Lemma checkpoint_round_trip_witness : ∃ bytes, checkpoint_encode Sample.digest Sample.image = Some (Ok bytes) ∧
  decode_with_budget Sample.digest Sample.type_sizes bytes 10000 = Some (Ok (canon_image Sample.image)) ∧
  decode_with_budget Sample.digest Sample.type_sizes bytes 1000 = Some (Err StoreError_Overloaded) ∧ canon_image Sample.image ≠ Sample.image.
Proof.
  destruct (checkpoint_encode Sample.digest Sample.image) as [[bytes|]|] eqn:E; [|by vm_compute in E..]. exists bytes. split; [done|].
  split; [|split; [|by vm_compute]].
  - etrans; [exact (proj1 (checkpoint_round_trip Sample.digest Sample.type_sizes ltac:(done) Sample.image bytes 10000 Sample.image_is_typed E))|by vm_compute].
  - etrans; [exact (proj1 (checkpoint_round_trip Sample.digest Sample.type_sizes ltac:(done) Sample.image bytes 1000 Sample.image_is_typed E))|by vm_compute].
Defined.

Lemma checkpoint_size_exact_witness :
  ∃ bytes, checkpoint_encode Sample.digest Sample.image = Some (Ok bytes) ∧ snapshot_image_bytes (ci_shards Sample.image) = Ok (len bytes).
Proof.
  destruct (snapshot_image_bytes (ci_shards Sample.image)) as [n|] eqn:E; [|by vm_compute in E].
  destruct (checkpoint_size_exact Sample.digest Sample.image n Sample.image_is_typed E ltac:(done)) as (v & Hv & H).
  assert (v = Ok ()) as -> by (vm_compute in Hv; by injection Hv as <-). assert (n <=? MAX_CHECKPOINT_BYTES = true) as Hn by (vm_compute in E; injection E as <-; by vm_compute).
  rewrite Hn in H. destruct H as (bytes & Hb & <-). exists bytes. split; [exact Hb|reflexivity].
Defined.

Lemma filter_available_valid_witness :
  let i := filter_available (λ _, true) (λ _ key, bool_decide (head key = Some 0)) Sample.image in
  validate_image i = Some (Ok ()) ∧ (λ s, length (is_entries (sh_index s))) <$> ci_shards i = [1%nat].
Proof. split; [apply (filter_available_valid Sample.image); by vm_compute|by vm_compute]. Defined.

Lemma shutdown_cut_refused_witness :
  ∃ error, checkpoint_encode Sample.digest (shutdown_cut (λ _, true) (λ _ key, bool_decide (head key = Some 0)) Sample.image) = Some (Err error).
Proof.
  apply (shutdown_cut_refused Sample.digest Sample.image (λ _, true) (λ _ key, bool_decide (head key = Some 0)) Sample.shard
    (mkSnapshot 0 1 SegmentState_Sealed 1024 [(512, 5000000000%Z); (0, 7000000001%Z)]) (512, 5000000000%Z) (Sample.entry 1 512));
    [by vm_compute|by left|by left|by left|by left|by vm_compute|by vm_compute].
Defined.
