(* ===== verification/CheckpointSlots.v ===== *)
(** * Checkpoint slots

    Two alternating checkpoint files: staged publication ([publish_new] and [file_replace_chunked] of
    [runtime/src/reactor/filesystem/operations.rs]), the slots with their newest-first candidates
    ([runtime/src/reactor/filesystem/checkpoint.rs]) and the publication of a cut ([Checkpointer::publish] of
    [src/store/checkpoint.rs]).  A directory is the map from the names of its regular files to their contents; what the kernel answers
    is an argument.  A result [None] is a call that does not return: a panic, or a process that stops in the middle. *)

From S2P Require Import Prelude Bytes Http ObjectModel WireCodec Segments Checkpoint.
Local Open Scope racer_scope.
Local Open Scope N_scope.

Notation Files := (gmap (list N) (list N)).

(** ** Staged publication *)

Inductive IoFailure := IoFailure_NotFound | IoFailure_AlreadyExists | IoFailure_Other.

(** What the kernel answers to a write of the rest of a buffer. *)
Inductive WriteAnswer := Write_Bytes (n : nat) | Write_Interrupted | Write_Failed.

(** The write loop of [publish_new]: [bytes] are left, [written] is the stage.  Without an answer the process has stopped. *)
Fixpoint stage_write (answers : list WriteAnswer) (bytes written : list N) : option (result () IoFailure) * list N :=
  match bytes, answers with
  | [], _ => (Some (Ok ()), written)
  | _, [] => (None, written)
  | _, Write_Bytes O :: _ | _, Write_Failed :: _ => (Some (Err IoFailure_Other), written)
  | _, Write_Bytes n :: answers => stage_write answers (drop n bytes) (written ++ take n bytes)
  | _, Write_Interrupted :: answers => stage_write answers bytes written
  end.

(** The answers of the kernel to one publication. *)
Record PublishIo := mkPublishIo {
  pio_directory : bool;
  pio_create : list N → bool;
  pio_writes : list WriteAnswer;
  pio_rename : bool;
  pio_unlink : bool
}.

(** Best-effort cleanup of the stage. *)
Definition unlink_stage (io : PublishIo) (temporary written : list N) (files : Files) : Files :=
  if pio_unlink io then files else <[temporary := written]> files.

(** The loop over the names of stages: a stale one is skipped, a fresh one decides. *)
Fixpoint publish_staged (files : Files) (io : PublishIo) (target bytes : list N) (candidates : list (list N)) : option (result () IoFailure) * Files :=
  match candidates with
  | [] => (Some (Err IoFailure_AlreadyExists), files)
  | temporary :: candidates =>
      if is_some (files !! temporary) then publish_staged files io target bytes candidates
      else if negb (pio_create io temporary) then (Some (Err IoFailure_Other), files)
      else
        match stage_write (pio_writes io) bytes [] with
        | (None, written) => (None, <[temporary := written]> files)
        | (Some (Err e), written) => (Some (Err e), unlink_stage io temporary written files)
        | (Some (Ok _), written) =>
            if pio_rename io then (Some (Ok ()), <[target := written]> files)
            else (Some (Err IoFailure_Other), unlink_stage io temporary written files)
        end
  end.

(** [publish_new]; names are single components of the directory. *)
Definition publish_new (files : Files) (io : PublishIo) (target bytes : list N) (candidates : list (list N)) : option (result () IoFailure) * Files :=
  if negb (pio_directory io) || bool_decide (target ∈ candidates) then (Some (Err IoFailure_Other), files)
  else publish_staged files io target bytes candidates.

(** ** Replacement through the reactor *)

Inductive ReplacementError := ReplacementError_BeforeRename | ReplacementError_RenameUncertain | ReplacementError_Published.

(** [write_complete] of one chunk, with [Buffer::advance]: an empty or overlong completion is a failure.  The answers that are left are
    returned. *)
Fixpoint write_complete (answers : list WriteAnswer) (chunk written : list N) : option (result (list WriteAnswer) ReplacementError) * list N :=
  match chunk, answers with
  | [], _ => (Some (Ok answers), written)
  | _, [] => (None, written)
  | _, Write_Bytes n :: answers =>
      if (n =? 0)%nat || (length chunk <? n)%nat then (Some (Err ReplacementError_BeforeRename), written)
      else write_complete answers (drop n chunk) (written ++ take n chunk)
  | _, Write_Interrupted :: _ | _, Write_Failed :: _ => (Some (Err ReplacementError_BeforeRename), written)
  end.

(** [slice::chunks]. *)
Fixpoint chunks_from (fuel : nat) (size : nat) (bytes : list N) : list (list N) :=
  match fuel, bytes with
  | O, _ | _, [] => []
  | S fuel, _ => take size bytes :: chunks_from fuel size (drop size bytes)
  end.
Definition chunks_of (size : nat) (bytes : list N) : list (list N) := chunks_from (length bytes) size bytes.

(** The loop of [write_replacement]. *)
Fixpoint write_chunks (answers : list WriteAnswer) (chunks : list (list N)) (written : list N) : option (result () ReplacementError) * list N :=
  match chunks with
  | [] => (Some (Ok ()), written)
  | chunk :: chunks =>
      match write_complete answers chunk written with
      | (None, written) => (None, written)
      | (Some (Err e), written) => (Some (Err e), written)
      | (Some (Ok answers), written) => write_chunks answers chunks written
      end
  end.

(** The answers to one replacement; the rename may be applied whatever is reported of it. *)
Record ReplaceIo := mkReplaceIo {
  rio_open : bool;
  rio_unlink : bool;
  rio_create : bool;
  rio_prepare : bool;
  rio_writes : list WriteAnswer;
  rio_rename_applied : bool;
  rio_rename_reported : bool
}.

Definition PERIODIC_STAGE : list N := lit ".checkpoint.periodic.stage".
Definition PERIODIC_CHUNK : nat := N.to_nat 16384.

(** [publish_async] after its name is found: stale stage removed, fresh one created, written in chunks and renamed. *)
Definition replace_staged (files : Files) (io : ReplaceIo) (target bytes : list N) : option (result () ReplacementError) * Files :=
  let before := Some (Err ReplacementError_BeforeRename) in
  if negb (rio_open io) || (is_some (files !! PERIODIC_STAGE) && negb (rio_unlink io)) then (before, files)
  else
    let files := delete PERIODIC_STAGE files in
    if negb (rio_create io) then (before, files)
    else if negb (rio_prepare io) then (before, <[PERIODIC_STAGE := []]> files)
    else
      match write_chunks (rio_writes io) (chunks_of PERIODIC_CHUNK bytes) [] with
      | (None, written) => (None, <[PERIODIC_STAGE := written]> files)
      | (Some (Err e), written) => (Some (Err e), <[PERIODIC_STAGE := written]> files)
      | (Some (Ok _), written) =>
          (if rio_rename_reported io && rio_rename_applied io then Some (Ok ()) else Some (Err ReplacementError_RenameUncertain),
           if rio_rename_applied io then <[target := written]> files else <[PERIODIC_STAGE := written]> files)
      end.

(** ** Slots *)

Record SlotSchema := mkSchema { sc_header : N; sc_names : list (list N); sc_minimum : N; sc_maximum : N }.

Definition STAGE_PREFIX : list N := lit ".checkpoint.".
Definition name_invalid (name : list N) : bool :=
  bool_decide (name = []) || bool_decide (name = lit ".") || bool_decide (name = lit "..") || bool_decide (47 ∈ name) || bool_decide (0 ∈ name) ||
  starts_with name STAGE_PREFIX.

(** [Slots::validate]. *)
Definition slots_validate (s : SlotSchema) : bool :=
  negb ((sc_header s =? 0) || (sc_minimum s <? sc_header s) || (sc_maximum s <? sc_minimum s) || bool_decide (sc_names s !! 0%nat = sc_names s !! 1%nat) ||
        existsb name_invalid (sc_names s)).

(** The directory as [CandidateFile::open] finds it. *)
Inductive SlotDirectory := SlotDirectory_Missing | SlotDirectory_Denied | SlotDirectory_Open (files : Files).

Record Candidate := mkCandidate { cd_slot : nat; cd_sequence : N; cd_bytes : list N }.

Section slots.
Context {T : Type} (schema : SlotSchema) (sequence : list N → result N StoreError) (decode : list N → N → option (result T StoreError)).

(** The probe of one slot: its size, then its header. *)
Definition slot_probe (files : Files) (budget : N) (slot : nat) : option Candidate :=
  name ← sc_names schema !! slot;
  bytes ← files !! name;
  if (len bytes <? sc_minimum schema) || (N.min (sc_maximum schema) budget <? len bytes) || (len bytes <? sc_header schema) then None
  else
    match sequence (take (N.to_nat (sc_header schema)) bytes) with
    | Ok n => Some (mkCandidate slot n bytes)
    | Err _ => None
    end.

Definition candidate_leb (a b : Candidate) : bool := cd_sequence a <=? cd_sequence b.

(** [Slots::candidates]. *)
Definition slot_candidates (directory : SlotDirectory) (budget : N) : result (list Candidate) IoFailure :=
  if negb (slots_validate schema) then Err IoFailure_Other
  else
    match directory with
    | SlotDirectory_Missing => Ok []
    | SlotDirectory_Denied => Err IoFailure_Other
    | SlotDirectory_Open files => Ok (sort_by candidate_leb (omap (slot_probe files budget) (seq 0 (length (sc_names schema)))))
    end.

(** [Candidates::next]: [pop] takes the last candidate, the first of [newest]. *)
Fixpoint next_from (newest : list Candidate) (budget : N) : option (option (nat * T) * list Candidate) :=
  match newest with
  | [] => Some (None, [])
  | c :: newest =>
      match decode (cd_bytes c) budget with
      | None => None
      | Some (Ok image) => Some (Some (cd_slot c, image), newest)
      | Some (Err _) => next_from newest budget
      end
  end.
Definition candidates_next (candidates : list Candidate) (budget : N) : option (option (nat * T) * list Candidate) :=
  match next_from (reverse candidates) budget with
  | None => None
  | Some (image, newest) => Some (image, reverse newest)
  end.

(** [next_publication]. *)
Definition next_publication (newest : option (nat * N)) : option (nat * N) :=
  match newest with
  | Some (slot, n) => if (slot <? 2)%nat then (λ n, ((1 - slot)%nat, n)) <$> checked_add U64_MAX n 1 else None
  | None => Some (0%nat, 1)
  end.

(** The names of the stages: the process and a counter that every publication moves on. *)
Definition stage_names (process counter : N) : list (list N) :=
  (λ i, STAGE_PREFIX ++ to_decimal process ++ lit "." ++ to_decimal ((counter + N.of_nat i) mod (U64_MAX + 1)) ++ lit ".tmp") <$> seq 0 128.

(** [Slots::publish]. *)
Definition slots_publish (files : Files) (io : PublishIo) (process counter : N) (slot : nat) (bytes : list N) : option (result () IoFailure) * Files :=
  match sc_names schema !! slot with
  | Some name => if slots_validate schema then publish_new files io name bytes (stage_names process counter) else (Some (Err IoFailure_Other), files)
  | None => (Some (Err IoFailure_Other), files)
  end.

(** [Slots::publish_async]. *)
Definition slots_publish_async (files : Files) (io : ReplaceIo) (slot : nat) (bytes : list N) : option (result () ReplacementError) * Files :=
  match sc_names schema !! slot with
  | Some name => if slots_validate schema then replace_staged files io name bytes else (Some (Err ReplacementError_BeforeRename), files)
  | None => (Some (Err ReplacementError_BeforeRename), files)
  end.
End slots.

(** ** Checkpoints in their slots *)

(** [SLOTS]. *)
Definition SLOTS : SlotSchema :=
  mkSchema CHECKPOINT_HEADER_BYTES [lit "checkpoint.0"; lit "checkpoint.1"] (CHECKPOINT_HEADER_BYTES + CLUSTER_BYTES + 4 + DIGEST_BYTES) MAX_CHECKPOINT_BYTES.

Section publish.
Context (sha256 : list N → list N) (sizes : TypeSizes).

(** [candidates], and its first image. *)
Definition checkpoint_candidates (directory : SlotDirectory) (budget : N) : result (list Candidate) StoreError :=
  map_err_to (slot_candidates SLOTS sequence_hint directory budget) StoreError_Io.
Definition first_candidate (directory : SlotDirectory) (budget : N) : option (result (option (nat * CheckpointImage)) StoreError) :=
  match checkpoint_candidates directory budget with
  | Err e => Some (Err e)
  | Ok candidates =>
      match candidates_next (decode_with_budget sha256 sizes) candidates budget with
      | None => None
      | Some (image, _) => Some (Ok image)
      end
  end.

(** The files of a directory that a publication creates where it is missing. *)
Definition directory_files (directory : SlotDirectory) : Files := match directory with SlotDirectory_Open files => files | _ => ∅ end.

(** [Checkpointer::publish]. *)
Definition checkpointer_publish (directory : SlotDirectory) (io : PublishIo) (process counter : N) (cluster : list N) (shards : list ShardImage) :
    option (result () StoreError) * SlotDirectory :=
  match first_candidate directory MAX_CHECKPOINT_BYTES with
  | None => (None, directory)
  | Some (Err e) => (Some (Err e), directory)
  | Some (Ok newest) =>
      match next_publication ((λ '(slot, image), (slot, ci_sequence image)) <$> newest) with
      | None => (Some (Err StoreError_Unavailable), directory)
      | Some (slot, n) =>
          match checkpoint_encode sha256 (mkCheckpointImage CHECKPOINT_VERSION cluster n shards) with
          | None => (None, directory)
          | Some (Err e) => (Some (Err e), directory)
          | Some (Ok bytes) =>
              match slots_publish SLOTS (directory_files directory) io process counter slot bytes with
              | (r, files) =>
                  (match r with None => None | Some r => Some (map_err_to r StoreError_Io) end,
                   if pio_directory io then SlotDirectory_Open files else directory)
              end
          end
      end
  end.
End publish.
