(* ===== verification/CheckpointSlotRuns.v ===== *)
(** * Checkpoint slots: publication and recovery

    Publication is atomic and touches one slot; the newest image that decodes is found, and no publication endangers it. *)

From S2P Require Import Prelude Bytes Http ObjectModel WireCodec Segments SegmentProofs Checkpoint CheckpointCodec CheckpointBudget CheckpointProofs.
From S2P Require Import CheckpointRuns CheckpointSlots.
Local Open Scope racer_scope.
Local Open Scope N_scope.

(** ** Staged publication *)

Lemma stage_write_whole answers bytes written r w : stage_write answers bytes written = (r, w) → r = Some (Ok ()) → w = written ++ bytes.
Proof.
  revert bytes written. induction answers as [|a answers IH]; intros [|b bytes] written; simpl; try naive_solver.
  - intros [= <- <-] _. by rewrite app_nil_r.
  - intros [= <- <-] _. by rewrite app_nil_r.
  - destruct a as [[|n]| |]; [naive_solver| |apply IH|naive_solver]. intros H Hr. rewrite (IH _ _ H Hr), <- (assoc_L (++)). f_equal. simpl. by rewrite take_drop.
Qed.

(** The target holds its old contents or all the new ones; a stage may be left, and nothing else changes. *)
Lemma publish_staged_atomic files io target bytes candidates r files' : publish_staged files io target bytes candidates = (r, files') →
  r = Some (Ok ()) ∧ files' = <[target := bytes]> files ∨
  r ≠ Some (Ok ()) ∧ (files' = files ∨ ∃ temporary written, temporary ∈ candidates ∧ files' = <[temporary := written]> files).
Proof.
  induction candidates as [|temporary candidates IH]; cbn [publish_staged]; [intros [= <- <-]; by right; auto|].
  destruct (is_some (files !! temporary)).
  { intros H. destruct (IH H) as [?|[? [?|(t & w & ? & ?)]]]; [by left|by right; auto|]. right. split; [done|]. right. exists t, w. split; [by right|done]. }
  destruct (negb _); [intros [= <- <-]; right; auto|].
  assert (∀ w, unlink_stage io temporary w files = files ∨ ∃ t w', t ∈ temporary :: candidates ∧ unlink_stage io temporary w files = <[t := w']> files) as Hu.
  { intros w. unfold unlink_stage. destruct (pio_unlink io); [by left|]. right. exists temporary, w. split; [by left|done]. }
  destruct (stage_write (pio_writes io) bytes []) as [[[[]|e]|] w] eqn:Hw.
  - destruct (pio_rename io); intros [= <- <-]; [left|right; auto]. apply stage_write_whole in Hw as ->; done.
  - intros [= <- <-]. right. auto.
  - intros [= <- <-]. right. split; [done|]. right. exists temporary, w. split; [by left|done].
Qed.

Lemma write_complete_whole answers chunk written r w : write_complete answers chunk written = (r, w) → is_Some r → (∃ rest, r = Some (Ok rest)) → w = written ++ chunk.
Proof.
  revert chunk written. induction answers as [|a answers IH]; intros [|b chunk] written; simpl; try naive_solver.
  - intros [= <- <-] _ _. by rewrite app_nil_r.
  - intros [= <- <-] _ _. by rewrite app_nil_r.
  - destruct a as [n| |]; [|naive_solver..]. destruct (_ || _); [naive_solver|]. intros H H1 H2. rewrite (IH _ _ H H1 H2), <- (assoc_L (++)). f_equal.
    by rewrite take_drop.
Qed.

Lemma write_chunks_whole answers chunks written r w : write_chunks answers chunks written = (r, w) → r = Some (Ok ()) → w = written ++ concat chunks.
Proof.
  revert answers written. induction chunks as [|chunk chunks IH]; intros answers written; simpl; [intros [= <- <-] _; by rewrite app_nil_r|].
  destruct (write_complete answers chunk written) as [[[rest|e]|] w'] eqn:E; [|naive_solver..]. apply write_complete_whole in E; [|eauto|eauto].
  subst w'. intros H Hr. by rewrite (IH _ _ H Hr), <- (assoc_L (++)).
Qed.

Lemma chunks_of_concat size bytes : (0 < size)%nat → concat (chunks_of size bytes) = bytes.
Proof.
  intros Hs. unfold chunks_of. assert (length bytes <= length bytes)%nat as Hf by done. revert Hf. generalize (length bytes) at 2 3. intros fuel. revert bytes.
  induction fuel as [|fuel IH]; intros [|b bytes] Hf; simpl in *; [done|lia|done|]. rewrite IH; [|rewrite length_drop; simpl; lia]. apply take_drop.
Qed.

(** Replacement through the reactor: as [publish_staged_atomic], with the one stage, and an uncertain rename that may be applied. *)
Lemma replace_staged_atomic files io target bytes r files' : target ≠ PERIODIC_STAGE → replace_staged files io target bytes = (r, files') →
  (files' !! target = Some bytes ∨ r ≠ Some (Ok ()) ∧ files' !! target = files !! target) ∧
  ∀ name, name ≠ target → name ≠ PERIODIC_STAGE → files' !! name = files !! name.
Proof.
  intros Hne. unfold replace_staged. destruct (_ || _); [intros [= <- <-]; by split; [right|]|].
  destruct (negb (rio_create io)); [intros [= <- <-]; split; [right; split; [done|by rewrite lookup_delete_ne]|intros; by rewrite lookup_delete_ne]|].
  assert (∀ w : list N, <[PERIODIC_STAGE := w]> (delete PERIODIC_STAGE files) !! target = files !! target ∧
    ∀ name, name ≠ target → name ≠ PERIODIC_STAGE → <[PERIODIC_STAGE := w]> (delete PERIODIC_STAGE files) !! name = files !! name) as Hs.
  { intros w. split; intros; by rewrite lookup_insert_ne, lookup_delete_ne. }
  destruct (negb (rio_prepare io)); [intros [= <- <-]; destruct (Hs []); split; [right; split; done|done]|].
  destruct (write_chunks _ _ _) as [[[[]|e]|] w] eqn:Hw; [|intros [= <- <-]; destruct (Hs w); split; [right; split; done|done]..].
  apply write_chunks_whole in Hw; [|done]. simpl in Hw. rewrite chunks_of_concat in Hw by (unfold PERIODIC_CHUNK; lia). subst w.
  destruct (rio_rename_applied io); intros [= <- <-].
  - split; [left; by rewrite lookup_insert_eq|]. intros. by rewrite lookup_insert_ne, lookup_delete_ne.
  - destruct (Hs bytes). split; [right; split; [by rewrite andb_false_r|done]|done].
Qed.

(** ** Recovery *)

Lemma dec_bind_ok {A B} (d : Decode A) (k : A → Decode B) input b rest : dec_bind d k input = Ok (b, rest) →
  ∃ a input', d input = Ok (a, input') ∧ k a input' = Ok (b, rest).
Proof. unfold dec_bind. destruct (d input) as [[a input']|]; [|done]. eauto. Qed.

Lemma dec_try_ok {A B} (r : result A StoreError) (k : A → Decode B) input b rest : dec_bind (dec_try r) k input = Ok (b, rest) →
  ∃ a, r = Ok a ∧ k a input = Ok (b, rest).
Proof. intros (a & input' & H & Hk)%dec_bind_ok. unfold dec_try in H. destruct r; [|done]. injection H as -> ->. eauto. Qed.

Lemma dec_take_ok n input a rest : dec_take n input = Ok (a, rest) → a = take n input ∧ rest = drop n input ∧ (n <= length input)%nat.
Proof. unfold dec_take, dec_read, reader_take. simpl. destruct (Nat.leb_spec n (length input)); [|done]. intros [= <- <-]. done. Qed.

Lemma dec_int_ok n input a rest : dec_read (λ r, reader_int r n) input = Ok (a, rest) →
  a = from_endian_bytes Endian_Little (take n input) ∧ rest = drop n input ∧ (n <= length input)%nat.
Proof. unfold dec_read, reader_int, reader_take. simpl. destruct (Nat.leb_spec n (length input)); [|done]. intros [= <- <-]. done. Qed.

(** What an image has read of its header. *)
Lemma dec_image_header total body i rest : dec_image total body = Ok (i, rest) →
  take 8 body = CHECKPOINT_MAGIC ∧ from_endian_bytes Endian_Little (take 4 (drop 8 body)) = CHECKPOINT_VERSION ∧
  ci_sequence i = from_endian_bytes Endian_Little (take 8 (drop 16 body)) ∧ (24 <= length body)%nat.
Proof.
  unfold dec_image. intros (magic & in1 & (-> & -> & _)%dec_take_ok & H)%dec_bind_ok. apply dec_try_ok in H as ([] & Hm%reject_when_ok & H).
  apply dec_bind_ok in H as (version & in2 & (-> & -> & _)%(dec_int_ok 4) & H). apply dec_try_ok in H as ([] & Hv%reject_when_ok & H).
  apply dec_bind_ok in H as (flags & in3 & (-> & -> & _)%(dec_int_ok 4) & H). apply dec_try_ok in H as ([] & _ & H).
  apply dec_bind_ok in H as (n & in4 & (-> & -> & Hlen)%(dec_int_ok 8) & H). rewrite !drop_drop in H. rewrite !drop_drop, !length_drop in Hlen.
  apply dec_bind_ok in H as (l & in5 & _ & H). apply dec_try_ok in H as ([] & _ & H). apply dec_bind_ok in H as (c & in6 & _ & H).
  apply dec_try_ok in H as (cluster & _ & H). apply dec_bind_ok in H as (shards & in7 & _ & H). injection H as <- <-.
  apply negb_false_iff, bool_decide_eq_true in Hm. apply negb_false_iff, N.eqb_eq in Hv. cbn [ci_sequence]. split_and!; [done|done|done|lia].
Qed.

Lemma take_take_drop {A} (l : list A) n k m : (k + n <= m)%nat → take n (drop k (take m l)) = take n (drop k l).
Proof. intros H. rewrite skipn_firstn_comm, take_take. by replace (n `min` (m - k))%nat with n by lia. Qed.

(** The order of the candidates is that of the images they decode to. *)
Lemma decode_sequence sha256 sizes bytes budget i : decode_with_budget sha256 sizes bytes budget = Some (Ok i) →
  sequence_hint (take (N.to_nat CHECKPOINT_HEADER_BYTES) bytes) = Ok (ci_sequence i).
Proof.
  unfold decode_with_budget. destruct (recovery_memory _ _ _) as [used|]; [|done]. cbn [result_bind].
  destruct (length_rejected bytes) eqn:Hl; [done|]. cbn [reject_when result_bind]. destruct (reject_when _) as [[]|]; [|done]. cbn [result_bind].
  destruct (dec_image _ _) as [[j rest]|] eqn:Hd; [|done]. cbn [result_bind]. case_bool_decide; [|done].
  destruct (validate_image j) as [[[]|]|]; [|done..]. intros [= <-]. apply dec_image_header in Hd as (Hm & Hv & Hq & Hb).
  unfold length_rejected in Hl. apply orb_false_iff in Hl as [Hl _]. apply N.ltb_ge in Hl. unfold CHECKPOINT_HEADER_BYTES, CLUSTER_BYTES, DIGEST_BYTES, len in Hl.
  unfold checkpoint_body, DIGEST_BYTES in *. set (k := (length bytes - N.to_nat 32)%nat) in *. assert (72 <= k)%nat by lia. clearbody k.
  rewrite take_take_drop in Hv, Hq by lia. rewrite take_take in Hm. replace (8 `min` k)%nat with 8%nat in Hm by lia.
  unfold sequence_hint, CHECKPOINT_HEADER_BYTES. change (N.to_nat 32) with 32%nat. rewrite !take_take_drop by lia. rewrite take_take. change (8 `min` 32)%nat with 8%nat.
  rewrite Hm, Hv, <- Hq, bool_decide_eq_true_2 by done. rewrite (proj2 (N.ltb_ge _ _)); [done|]. unfold len. rewrite length_take. lia.
Qed.

Section recovery.
Context (sha256 : list N → list N) (sizes : TypeSizes).
Notation decode := (decode_with_budget sha256 sizes).

(** The image in a slot, if recovery can read it within the budget. *)
Definition slot_image (files : Files) (budget : N) (slot : nat) : option CheckpointImage :=
  c ← slot_probe SLOTS sequence_hint files budget slot;
  match decode (cd_bytes c) budget with Some (Ok i) => Some i | _ => None end.

Lemma probe_slot files budget slot c : slot_probe SLOTS sequence_hint files budget slot = Some c →
  cd_slot c = slot ∧ sequence_hint (take (N.to_nat CHECKPOINT_HEADER_BYTES) (cd_bytes c)) = Ok (cd_sequence c).
Proof.
  unfold slot_probe. intros (name & _ & (bytes & _ & H)%bind_Some)%bind_Some. destruct (_ || _); [done|].
  change (sc_header SLOTS) with CHECKPOINT_HEADER_BYTES in H. destruct (sequence_hint _) eqn:E; [|done]. injection H as <-. done.
Qed.

Lemma decode_total bytes budget : ∃ r, decode bytes budget = Some r.
Proof.
  destruct (decode bytes budget) as [r|] eqn:E; [eauto|]. exfalso. revert E. unfold decode_with_budget.
  destruct (result_bind _ _) as [i|]; [|done]. pose proof (validate_image_total i). by destruct (validate_image i) as [[|]|].
Qed.

Lemma next_from_spec newest budget : StronglySorted (flip (λ a b, candidate_leb a b = true)) newest →
  ∃ x rest, next_from decode newest budget = Some (x, rest) ∧
    match x with
    | None => ∀ c, c ∈ newest → ∃ e, decode (cd_bytes c) budget = Some (Err e)
    | Some (slot, i) => ∃ c, c ∈ newest ∧ cd_slot c = slot ∧ decode (cd_bytes c) budget = Some (Ok i) ∧
        ∀ c' j, c' ∈ newest → decode (cd_bytes c') budget = Some (Ok j) → cd_sequence c' <= cd_sequence c
    end.
Proof.
  induction 1 as [|c l Hl IH Hc]; cbn [next_from]; [exists None, []; split; [done|]; intros c Hc; by apply elem_of_nil in Hc|].
  destruct (decode_total (cd_bytes c) budget) as [[i|e] Hd]; rewrite Hd.
  - exists (Some (cd_slot c, i)), l. split; [done|]. exists c. split_and!; [by left|done|done|]. rewrite Forall_forall in Hc.
    intros c' j [->|Hin]%elem_of_cons _; [done|]. by apply N.leb_le, Hc.
  - destruct IH as (x & rest & -> & Hx). exists x, rest. split; [done|]. destruct x as [[slot i]|].
    + destruct Hx as (c0 & ? & ? & ? & Hmax). exists c0. split_and!; [by right|done|done|]. intros c' j [->|Hin]%elem_of_cons Hd'; [congruence|eauto].
    + intros c' [->|Hin]%elem_of_cons; eauto.
Qed.

Lemma sorted_reverse {A} (R : A → A → Prop) l : StronglySorted R l → StronglySorted (flip R) (reverse l).
Proof.
  induction 1 as [|x l Hl IH Hx]; [constructor|]. rewrite reverse_cons. apply StronglySorted_app_2; [|done|repeat constructor].
  intros y z Hy Hz%list_elem_of_singleton. subst z. rewrite elem_of_reverse in Hy. rewrite Forall_forall in Hx. by apply Hx.
Qed.

Lemma candidates_sorted l : StronglySorted (flip (λ a b, candidate_leb a b = true)) (reverse (sort_by candidate_leb l)).
Proof.
  apply sorted_reverse, sort_by_sorted; unfold candidate_leb; [intros x y; rewrite !N.leb_le; lia|intros x y z; rewrite !N.leb_le; lia].
Qed.

(** The candidates of a directory are the slots that pass the probe; those that decode are the images the slots hold. *)
Lemma checkpoint_candidates_slots files budget : ∃ l, checkpoint_candidates (SlotDirectory_Open files) budget = Ok l ∧
  StronglySorted (flip (λ a b, candidate_leb a b = true)) (reverse l) ∧
  ∀ c, c ∈ reverse l ↔ ∃ slot, (slot < 2)%nat ∧ slot_probe SLOTS sequence_hint files budget slot = Some c.
Proof.
  unfold checkpoint_candidates, slot_candidates. replace (slots_validate SLOTS) with true by (by vm_compute). cbn [negb map_err_to]. eexists. split; [done|].
  split; [apply candidates_sorted|]. intros c. rewrite elem_of_reverse, (sort_by_perm candidate_leb _), list_elem_of_omap. change (length (sc_names SLOTS)) with 2%nat. split.
  - intros (slot & Hslot%elem_of_seq & Hp). exists slot. split; [lia|done].
  - intros (slot & Hlt & Hp). exists slot. split; [apply elem_of_seq; lia|done].
Qed.

Lemma slot_image_candidate files budget slot i : slot_image files budget slot = Some i ↔
  ∃ c, slot_probe SLOTS sequence_hint files budget slot = Some c ∧ cd_slot c = slot ∧ decode (cd_bytes c) budget = Some (Ok i) ∧ cd_sequence c = ci_sequence i.
Proof.
  unfold slot_image. split.
  - intros (c & Hp & Hd)%bind_Some. exists c. destruct (decode (cd_bytes c) budget) as [[j|]|] eqn:E; [|done..]. injection Hd as ->.
    apply probe_slot in Hp as Hq. destruct Hq as [Hs Hq]. split_and!; [done..|]. apply decode_sequence in E. congruence.
  - intros (c & Hp & _ & Hd & _). rewrite Hp. simpl. by rewrite Hd.
Qed.

(** Recovery finds the image of the highest sequence among those that a slot holds. *)
Lemma first_candidate_spec files budget : ∃ x, first_candidate sha256 sizes (SlotDirectory_Open files) budget = Some (Ok x) ∧
  match x with
  | None => ∀ slot, (slot < 2)%nat → slot_image files budget slot = None
  | Some (slot, i) => (slot < 2)%nat ∧ slot_image files budget slot = Some i ∧
      ∀ slot' j, (slot' < 2)%nat → slot_image files budget slot' = Some j → ci_sequence j <= ci_sequence i
  end.
Proof.
  unfold first_candidate. destruct (checkpoint_candidates_slots files budget) as (l & -> & Hsort & Hin). unfold candidates_next.
  destruct (next_from_spec (reverse l) budget Hsort) as (x & rest & -> & Hx). exists x. split; [done|]. destruct x as [[slot i]|].
  - destruct Hx as (c & (slot0 & Hlt & Hp)%Hin & Hc & Hd & Hmax). pose proof (probe_slot _ _ _ _ Hp) as [Hps Hh]. assert (slot0 = slot) as -> by congruence.
    assert (cd_sequence c = ci_sequence i) as Hseq by (apply decode_sequence in Hd; congruence).
    split_and!; [done|apply slot_image_candidate; eauto|]. intros slot' j Hlt' (c' & Hp' & _ & Hd' & Hs')%slot_image_candidate. rewrite <- Hseq, <- Hs'.
    eapply Hmax; [|exact Hd']. apply Hin. eauto.
  - intros slot Hlt. destruct (slot_image files budget slot) as [i|] eqn:E; [|done]. apply slot_image_candidate in E as (c & Hp & _ & Hd & _).
    destruct (Hx c) as [e He]; [apply Hin; eauto|]. congruence.
Qed.

(** An image that a slot holds is not lost while that slot's file stays. *)
Lemma newest_at_least files budget slot i : (slot < 2)%nat → slot_image files budget slot = Some i →
  ∃ slot' i', first_candidate sha256 sizes (SlotDirectory_Open files) budget = Some (Ok (Some (slot', i'))) ∧ ci_sequence i <= ci_sequence i'.
Proof.
  intros Hlt Hi. destruct (first_candidate_spec files budget) as ([[slot' i']|] & Hf & Hx); [|by rewrite Hx in Hi].
  exists slot', i'. split; [done|]. destruct Hx as (_ & _ & Hmax). eauto.
Qed.

Lemma slot_image_same files files' budget slot name : sc_names SLOTS !! slot = Some name → files' !! name = files !! name →
  slot_image files' budget slot = slot_image files budget slot.
Proof. intros Hn Hf. unfold slot_image, slot_probe. rewrite Hn. simpl. by rewrite Hf. Qed.
End recovery.

(** ** Publication into a slot *)

Definition slot_name (slot : nat) : list N := default [] (sc_names SLOTS !! slot).

Lemma slot_names slot : (slot < 2)%nat → sc_names SLOTS !! slot = Some (slot_name slot) ∧ slot_name slot ≠ slot_name (1 - slot) ∧ slot_name slot ≠ PERIODIC_STAGE ∧
  ∀ process counter, slot_name slot ∉ stage_names process counter.
Proof.
  intros Hlt. assert (slot = 0%nat ∨ slot = 1%nat) as [-> | ->] by lia; (split_and!; [done|done|done|]);
    intros process counter (i & H & _)%list_elem_of_fmap; by apply (f_equal head) in H.
Qed.

(** One slot's file is left alone, the other's is replaced by all the bytes or, without success, not at all. *)
Definition slot_replaced (files files' : Files) (slot : nat) (bytes : list N) (success : Prop) : Prop :=
  files' !! slot_name (1 - slot) = files !! slot_name (1 - slot) ∧
  (files' !! slot_name slot = Some bytes ∨ ¬ success ∧ files' !! slot_name slot = files !! slot_name slot).

Lemma slots_publish_replaces files io process counter slot bytes r files' : (slot < 2)%nat →
  slots_publish SLOTS files io process counter slot bytes = (r, files') → slot_replaced files files' slot bytes (r = Some (Ok ())).
Proof.
  intros Hlt. destruct (slot_names slot Hlt) as (Hn & Hne & _ & Hst). destruct (slot_names (1 - slot) ltac:(lia)) as (_ & _ & _ & Hst').
  unfold slots_publish. rewrite Hn. replace (slots_validate SLOTS) with true by (by vm_compute). unfold publish_new.
  destruct (_ || _); [intros [= <- <-]; split; [done|by right]|].
  intros [[-> ->]|[Hr [->|(t & w & Ht & ->)]]]%publish_staged_atomic.
  - split; [by rewrite lookup_insert_ne|left; by rewrite lookup_insert_eq].
  - split; [done|by right].
  - assert (t ≠ slot_name slot ∧ t ≠ slot_name (1 - slot)) as [Ht1 Ht2] by (split; intros ->; [by eapply Hst|by eapply Hst']).
    split; [by rewrite lookup_insert_ne|right; split; [done|by rewrite lookup_insert_ne]].
Qed.

Lemma slots_publish_async_replaces files io slot bytes r files' : (slot < 2)%nat →
  slots_publish_async SLOTS files io slot bytes = (r, files') → slot_replaced files files' slot bytes (r = Some (Ok ())).
Proof.
  intros Hlt. destruct (slot_names slot Hlt) as (Hn & Hne & Hp & _). destruct (slot_names (1 - slot) ltac:(lia)) as (_ & _ & Hp' & _).
  unfold slots_publish_async. rewrite Hn. replace (slots_validate SLOTS) with true by (by vm_compute).
  intros [Ht Ho]%replace_staged_atomic; [|done]. split; [apply Ho; [by apply not_eq_sym|done]|exact Ht].
Qed.

(** C21: publishing into one slot, synchronously or through the reactor, leaves the other slot's file alone and replaces its own by
    all the bytes or not at all, whatever the kernel answers and wherever the process stops; success is only reported when the bytes
    are there. *)
Theorem publication_atomic (files : Files) slot bytes : (slot < 2)%nat →
  (∀ io process counter, let '(r, files') := slots_publish SLOTS files io process counter slot bytes in slot_replaced files files' slot bytes (r = Some (Ok ()))) ∧
  (∀ io, let '(r, files') := slots_publish_async SLOTS files io slot bytes in slot_replaced files files' slot bytes (r = Some (Ok ()))).
Proof.
  intros Hlt. split.
  - intros io process counter. destruct (slots_publish _ _ _ _ _ _ _) as [r files'] eqn:E. by eapply slots_publish_replaces.
  - intros io. destruct (slots_publish_async _ _ _ _ _) as [r files'] eqn:E. by eapply slots_publish_async_replaces.
Qed.

Lemma publication_atomic_witness :
  let o := slots_publish SLOTS {[slot_name 0 := [1]; slot_name 1 := [2]]} (mkPublishIo true (λ _, true) [Write_Bytes 2; Write_Interrupted; Write_Bytes 3] true true)
    7 0 1 [5; 6; 7; 8] in
  o.1 = Some (Ok ()) ∧ slot_replaced {[slot_name 0 := [1]; slot_name 1 := [2]]} o.2 1 [5; 6; 7; 8] (o.1 = Some (Ok ())).
Proof.
  split; [by vm_compute|]. destruct (publication_atomic {[slot_name 0 := [1]; slot_name 1 := [2]]} 1 [5; 6; 7; 8] ltac:(lia)) as [H _].
  specialize (H (mkPublishIo true (λ _, true) [Write_Bytes 2; Write_Interrupted; Write_Bytes 3] true true) 7 0).
  destruct (slots_publish _ _ _ _ _ _ _) as [r files']. exact H.
Defined.

(** What may become of a slot when the machine stops around a publication without fsync: any contents, or none. *)
Definition disturb (files : Files) (slot : nat) (contents : option (list N)) : Files := partial_alter (λ _, contents) (slot_name slot) files.

Section publish.
Context (sha256 : list N → list N) (sizes : TypeSizes).

(** A publication never endangers what recovery would find.  It goes to the slot opposite the newest image that decodes, with the
    next sequence; even if that slot then holds anything at all, recovery finds an image that is at least as new as before. *)
Theorem publish_keeps_newest files slot i io process counter cluster shards r directory contents :
  first_candidate sha256 sizes (SlotDirectory_Open files) MAX_CHECKPOINT_BYTES = Some (Ok (Some (slot, i))) →
  checkpointer_publish sha256 sizes (SlotDirectory_Open files) io process counter cluster shards = (r, directory) →
  ∃ files' slot' i', directory = SlotDirectory_Open files' ∧
    first_candidate sha256 sizes (SlotDirectory_Open (disturb files' (1 - slot) contents)) MAX_CHECKPOINT_BYTES = Some (Ok (Some (slot', i'))) ∧
    ci_sequence i <= ci_sequence i'.
Proof.
  intros Hf Hp. destruct (first_candidate_spec sha256 sizes files MAX_CHECKPOINT_BYTES) as (x & Hx & Hspec). rewrite Hf in Hx. injection Hx as <-.
  destruct Hspec as (Hlt & Hi & _). assert (∃ files', directory = SlotDirectory_Open files' ∧ files' !! slot_name slot = files !! slot_name slot) as (files' & -> & Hsame).
  { unfold checkpointer_publish in Hp. rewrite Hf in Hp. cbn [fmap option_fmap option_map next_publication] in Hp.
    rewrite (proj2 (Nat.ltb_lt _ _)) in Hp by done. destruct (checked_add _ _ _) as [n|]; cbn [fmap option_fmap option_map] in Hp; [|simplify_eq; eauto].
    destruct (checkpoint_encode _ _) as [[bytes|]|]; [|simplify_eq; eauto..]. cbn [directory_files] in Hp.
    destruct (slots_publish _ _ _ _ _ _ _) as [r' files'] eqn:E. apply slots_publish_replaces in E as [Ho _]; [|lia].
    replace (1 - (1 - slot))%nat with slot in Ho by lia. destruct (pio_directory io); simplify_eq; eauto. }
  destruct (slot_names slot Hlt) as (Hn & Hne & _ & _).
  destruct (newest_at_least sha256 sizes (disturb files' (1 - slot) contents) MAX_CHECKPOINT_BYTES slot i Hlt) as (slot' & i' & ? & ?); [|by eauto 10].
  rewrite <- Hi. eapply slot_image_same; [exact Hn|]. unfold disturb. rewrite lookup_partial_alter_ne; [done|by apply not_eq_sym].
Qed.

(** An encoded image in a slot is what recovery reads from it. *)
Lemma encoded_slot_image files slot img bytes budget : (∀ x, length (sha256 x) = 32%nat) → (slot < 2)%nat → image_typed img →
  checkpoint_encode sha256 img = Some (Ok bytes) → image_memory sizes img <= N.min budget USIZE_MAX → files !! slot_name slot = Some bytes →
  slot_image sha256 sizes files budget slot = Some (canon_image img).
Proof.
  intros Hd Hlt Ht He Hm Hf. destruct (slot_names slot Hlt) as (Hn & _). destruct (encode_ok_bytes sha256 img bytes Ht He) as (Hv & Hmax & Hb).
  pose proof (checkpoint_decode_encoded sha256 sizes Hd img bytes budget Ht He) as Hdec. rewrite (proj2 (N.leb_le _ _)) in Hdec by done.
  assert (len bytes = image_bytes_of (ci_shards img)) as Hlen.
  { subst bytes. unfold checkpoint_bytes. rewrite <- (image_bytes_canon img) in Hmax.
    destruct (length_accepted (image_bytes_of (ci_shards img)) (canon_image img) (sha256 (put_image (image_bytes_of (ci_shards img)) (canon_image img)))) as [-> _];
      [by apply canon_image_codable, valid_codable|done|done|apply image_bytes_canon]. }
  assert (CHECKPOINT_HEADER_BYTES + CLUSTER_BYTES + 4 + DIGEST_BYTES <= len bytes) as Hmin by (rewrite Hlen; unfold image_bytes_of; lia).
  assert (len bytes <= image_memory sizes img) by (rewrite Hlen; unfold image_memory; lia).
  unfold slot_image, slot_probe. rewrite Hn. cbn [mbind option_bind]. rewrite Hf. cbn [mbind option_bind]. change (sc_minimum SLOTS) with (CHECKPOINT_HEADER_BYTES + CLUSTER_BYTES + 4 + DIGEST_BYTES).
  change (sc_maximum SLOTS) with MAX_CHECKPOINT_BYTES. change (sc_header SLOTS) with CHECKPOINT_HEADER_BYTES.
  rewrite (proj2 (N.ltb_ge _ _)) by done. rewrite (proj2 (N.ltb_ge _ _)) by lia. rewrite (proj2 (N.ltb_ge _ _)) by lia. cbn [orb].
  rewrite (decode_sequence sha256 sizes bytes budget _ Hdec). cbn [mbind option_bind cd_bytes]. by rewrite Hdec.
Qed.

(** What recovery reads from a slot with an encoded image: the image, exactly if its memory is within the budget. *)
Lemma encoded_slot_exact files slot img bytes budget : (∀ x, length (sha256 x) = 32%nat) → (slot < 2)%nat → image_typed img →
  checkpoint_encode sha256 img = Some (Ok bytes) → files !! slot_name slot = Some bytes →
  slot_image sha256 sizes files budget slot = if image_memory sizes img <=? N.min budget USIZE_MAX then Some (canon_image img) else None.
Proof.
  intros Hd Hlt Ht He Hf. pose proof (checkpoint_decode_encoded sha256 sizes Hd img bytes budget Ht He) as Hdec.
  destruct (N.leb_spec (image_memory sizes img) (N.min budget USIZE_MAX)); [by eapply encoded_slot_image|].
  destruct (slot_image _ _ _ _ _) as [i|] eqn:E; [|done]. apply bind_Some in E as (c & Hp & Hi). destruct (slot_names slot Hlt) as (Hn & _).
  assert (cd_bytes c = bytes) as Hb; [|rewrite Hb, Hdec in Hi; done].
  unfold slot_probe in Hp. rewrite Hn in Hp. cbn [mbind option_bind] in Hp. rewrite Hf in Hp. cbn [mbind option_bind] in Hp.
  destruct (_ || _); [done|]. by destruct (sequence_hint _); simplify_eq.
Qed.

(** What recovery finds once the slot opposite the newest image was replaced by a newer one, or by nothing that decodes. *)
Lemma newest_after files files' found slot x budget : first_candidate sha256 sizes (SlotDirectory_Open files) budget = Some (Ok found) →
  slot = from_option (λ y, 1 - y.1)%nat 0%nat found → (∀ j, x = Some j → from_option (ci_sequence ∘ snd) 0 found < ci_sequence j) →
  slot_image sha256 sizes files' budget (1 - slot) = slot_image sha256 sizes files budget (1 - slot) → slot_image sha256 sizes files' budget slot = x →
  first_candidate sha256 sizes (SlotDirectory_Open files') budget = Some (Ok (match x with Some j => Some (slot, j) | None => found end)).
Proof.
  intros Hf -> Hx Ho Hn. destruct (first_candidate_spec sha256 sizes files budget) as (y & Hy & Hold). rewrite Hf in Hy. injection Hy as <-.
  destruct (first_candidate_spec sha256 sizes files' budget) as (y & -> & Hnew). do 2 f_equal.
  destruct found as [[s i]|]; simpl in *.
  - destruct Hold as (Hlt & Hi & _). replace (1 - (1 - s))%nat with s in Ho by lia. rewrite Hi in Ho. destruct y as [[s' k]|]; [|by rewrite Hnew in Ho].
    destruct Hnew as (Hlt' & Hk & Hmax). destruct x as [j|].
    + specialize (Hmax (1 - s)%nat j ltac:(lia) Hn). specialize (Hx j eq_refl). assert (s' ≠ s) as Hne by (intros ->; rewrite Ho in Hk; injection Hk as <-; lia).
      assert (s' = 1 - s)%nat as -> by lia. congruence.
    + assert (s' ≠ 1 - s)%nat as Hne by congruence. assert (s' = s) as -> by lia. congruence.
  - rewrite (Hold 1%nat) in Ho by lia. destruct y as [[s' k]|].
    + destruct Hnew as (Hlt' & Hk & _). assert (s' ≠ 1%nat) as Hne by congruence. assert (s' = 0%nat) as -> by lia. rewrite Hk in Hn. by subst x.
    + rewrite (Hnew 0%nat) in Hn by lia. by subst x.
Qed.

(** Recovery of a directory that is missing finds what it finds in an empty one. *)
Lemma first_candidate_files directory budget found : first_candidate sha256 sizes directory budget = Some (Ok found) →
  first_candidate sha256 sizes (SlotDirectory_Open (directory_files directory)) budget = Some (Ok found).
Proof.
  destruct directory; [|by vm_compute|done]. intros [= <-]. destruct (first_candidate_spec sha256 sizes ∅ budget) as ([[slot i]|] & Hf & Hx); [|exact Hf].
  destruct Hx as (Hlt & Hi & _). apply bind_Some in Hi as (c & Hp & _). unfold slot_probe in Hp. destruct (slot_names slot Hlt) as (Hn & _).
  rewrite Hn in Hp. cbn [mbind option_bind] in Hp. by rewrite lookup_empty in Hp.
Qed.

(** After a publication that reports success, with or without an earlier image, recovery finds the published cut in canonical order,
    with the sequence after the newest and in the other slot, exactly if its memory is within the budget that publication itself reads
    with, and otherwise what it found before. *)
Lemma publish_recovers before found io process counter cluster shards after : (∀ x, length (sha256 x) = 32%nat) →
  (∀ n, n <= U64_MAX → image_typed (mkCheckpointImage CHECKPOINT_VERSION cluster n shards)) →
  first_candidate sha256 sizes before MAX_CHECKPOINT_BYTES = Some (Ok found) →
  checkpointer_publish sha256 sizes before io process counter cluster shards = (Some (Ok ()), after) →
  let slot := from_option (λ y, 1 - y.1)%nat 0%nat found in
  let img := mkCheckpointImage CHECKPOINT_VERSION cluster (from_option (ci_sequence ∘ snd) 0 found + 1) shards in
  first_candidate sha256 sizes after MAX_CHECKPOINT_BYTES =
    Some (Ok (if image_memory sizes img <=? MAX_CHECKPOINT_BYTES then Some (slot, canon_image img) else found)).
Proof.
  intros Hd Ht Hf Hp slot img. unfold checkpointer_publish in Hp. rewrite Hf in Hp. apply first_candidate_files in Hf.
  destruct (first_candidate_spec sha256 sizes (directory_files before) MAX_CHECKPOINT_BYTES) as (x & Hx & Hspec). rewrite Hf in Hx. injection Hx as <-.
  assert (slot < 2)%nat as Hlt by (unfold slot; destruct found as [[]|]; simpl; lia).
  destruct (next_publication _) as [[slot' n]|] eqn:Hnext; [|done].
  assert (slot' = slot ∧ n = ci_sequence img ∧ n <= U64_MAX) as (-> & -> & Hmax).
  { unfold next_publication in Hnext. unfold slot, img. destruct found as [[s i]|]; simpl in *; [|by simplify_eq].
    destruct (s <? 2)%nat; [|done]. apply fmap_Some in Hnext as (m & [? ->]%checked_add_Some & [= -> ->]). done. }
  change (mkCheckpointImage _ _ (ci_sequence img) _) with img in Hp. destruct (checkpoint_encode sha256 img) as [[bytes|]|] eqn:He; [|done..].
  destruct (slots_publish _ _ _ _ _ _ _) as [r files'] eqn:E. destruct r as [r|]; [|done]. pose proof (slots_publish_replaces _ _ _ _ slot _ _ _ Hlt E) as [Ho Hw].
  injection Hp as Hr Hdir. destruct r as [[]|]; [|done]. clear Hr. assert (pio_directory io = true) as Hopen.
  { revert E. unfold slots_publish. destruct (sc_names SLOTS !! _); [|done]. destruct (slots_validate SLOTS); [|done]. unfold publish_new. by destruct (pio_directory io). }
  rewrite Hopen in Hdir. subst after. destruct Hw as [Hw|[[] _]]; [|done].
  pose proof (encoded_slot_exact files' slot img bytes MAX_CHECKPOINT_BYTES Hd Hlt (Ht _ Hmax) He Hw) as Hnew. change (N.min MAX_CHECKPOINT_BYTES USIZE_MAX) with MAX_CHECKPOINT_BYTES in Hnew.
  erewrite (newest_after (directory_files before) files' found slot); [|exact Hf|done| | |exact Hnew]; [by destruct (_ <=? _)| |].
  - intros j. destruct (_ <=? _); [|done]. intros [= <-]. cbn [canon_image ci_sequence img]. lia.
  - eapply slot_image_same; [apply slot_names; lia|exact Ho].
Qed.
End publish.

Definition sample_bytes : list N := match checkpoint_encode Sample.digest Sample.image with Some (Ok bytes) => bytes | _ => [] end.
Definition sample_files : Files := {[slot_name 0 := sample_bytes]}.
Definition sample_io : PublishIo := mkPublishIo true (λ _, true) [Write_Bytes 9; Write_Bytes 1000] true true.

Definition failing_io : PublishIo := mkPublishIo true (λ _, true) [Write_Failed] true true.

Lemma publish_keeps_newest_witness :
  let o := checkpointer_publish Sample.digest Sample.type_sizes (SlotDirectory_Open sample_files) failing_io 7 0 (ci_cluster Sample.image) [Sample.shard] in
  o.1 = Some (Err StoreError_Io) ∧
  ∃ slot i, first_candidate Sample.digest Sample.type_sizes (SlotDirectory_Open (disturb (directory_files o.2) 1 (Some [1; 2; 3]))) MAX_CHECKPOINT_BYTES =
    Some (Ok (Some (slot, i))) ∧ 9 <= ci_sequence i.
Proof.
  split; [by vm_compute|].
  destruct (checkpointer_publish Sample.digest Sample.type_sizes (SlotDirectory_Open sample_files) failing_io 7 0 (ci_cluster Sample.image) [Sample.shard]) as [r directory] eqn:E.
  destruct (publish_keeps_newest Sample.digest Sample.type_sizes sample_files 0 (canon_image Sample.image) failing_io 7 0
    (ci_cluster Sample.image) [Sample.shard] r directory (Some [1; 2; 3])) as (files' & slot & i & -> & Hf & Hq); [by vm_compute|exact E|].
  exists slot, i. split; [exact Hf|exact Hq].
Defined.

