(* ===== verification/CheckpointCut.v ===== *)
(** * Checkpoint cuts

    The coordination of periodic checkpoints across the workers of a node, from [src/app/recovery.rs]: every worker contributes one
    frozen snapshot, the control worker publishes them, and every worker acknowledges the result before the next cut.  The shared
    [CheckpointCut] is behind a mutex; a poll of a worker takes it up to three times, and each of these sections is one step.  What the
    tasks and the clock answer is an argument.  A panic is [None]. *)

From S2P Require Import Prelude Bytes Http ObjectModel WireCodec Segments Checkpoint.
Local Open Scope racer_scope.
Local Open Scope N_scope.

Inductive CutPhase := CutPhase_Collecting | CutPhase_Aborted (e : StoreError) | CutPhase_Publishing | CutPhase_Published (r : result () StoreError).

Record CheckpointCut := mkCut {
  cc_shards : list ShardImage;
  cc_phase : CutPhase;
  cc_generation : N;
  cc_started : option N;
  cc_finished : nat;
  cc_sequence : N;
  cc_slot : nat
}.

(** [Default]. *)
Definition cut_new : CheckpointCut := mkCut [] CutPhase_Collecting 0 None 0 0 0.

Inductive CheckpointPolicy := CheckpointPolicy_Periodic | CheckpointPolicy_Shutdown.

Record CutPublication := mkCutPublication { pb_sequence : N; pb_slot : nat }.

(** [result]. *)
Definition cut_result (c : CheckpointCut) : option (result () StoreError) :=
  match cc_phase c with
  | CutPhase_Collecting | CutPhase_Publishing => None
  | CutPhase_Aborted e => Some (Err e)
  | CutPhase_Published r => Some r
  end.

(** [publication_started]. *)
Definition publication_started (c : CheckpointCut) : bool :=
  match cc_phase c with CutPhase_Publishing | CutPhase_Published _ => true | _ => false end.

Definition with_cut_phase (c : CheckpointCut) (shards : list ShardImage) (phase : CutPhase) : CheckpointCut :=
  mkCut shards phase (cc_generation c) (cc_started c) (cc_finished c) (cc_sequence c) (cc_slot c).

(** [finish]; a collection that ends without an error panics. *)
Definition cut_finish (c : CheckpointCut) (r : result () StoreError) : option CheckpointCut :=
  if publication_started c then Some (with_cut_phase c [] (CutPhase_Published r))
  else match r with Err e => Some (with_cut_phase c [] (CutPhase_Aborted e)) | Ok _ => None end.

(** [fail]. *)
Definition cut_fail (c : CheckpointCut) (e : StoreError) : option CheckpointCut := cut_finish c (Err e).

(** [start_publication]; the assertion panics. *)
Definition start_publication (c : CheckpointCut) : option (list ShardImage * CheckpointCut) :=
  match cc_phase c with
  | CutPhase_Collecting => Some (cc_shards c, with_cut_phase c [] CutPhase_Publishing)
  | _ => None
  end.

(** [last_slot ^ 1]. *)
Definition slot_flip (slot : nat) : nat := N.to_nat (N.lxor (N.of_nat slot) 1).

(** [reserve]. *)
Definition cut_reserve (c : CheckpointCut) (policy : CheckpointPolicy) : result CutPublication StoreError * CheckpointCut :=
  match checked_add U64_MAX (cc_sequence c) 1 with
  | None => (Err StoreError_Unavailable, c)
  | Some n =>
      if (1 <? cc_slot c)%nat then (Err StoreError_Unavailable, c)
      else
        let slot := match policy with
                    | CheckpointPolicy_Shutdown => if cc_sequence c =? 0 then 0%nat else slot_flip (cc_slot c)
                    | CheckpointPolicy_Periodic => slot_flip (cc_slot c)
                    end in
        (Ok (mkCutPublication n slot), mkCut (cc_shards c) (cc_phase c) (cc_generation c) (cc_started c) (cc_finished c) n (cc_slot c))
  end.

(** [published]. *)
Definition cut_published (c : CheckpointCut) (p : CutPublication) : result () StoreError * CheckpointCut :=
  if negb (pb_sequence p =? cc_sequence c) || (1 <? pb_slot p)%nat then (Err StoreError_Unavailable, c)
  else (Ok (), mkCut (cc_shards c) (cc_phase c) (cc_generation c) (cc_started c) (cc_finished c) (cc_sequence c) (pb_slot p)).

(** [restart]. *)
Definition cut_restart (c : CheckpointCut) (now : N) : result () StoreError * CheckpointCut :=
  match checked_add U64_MAX (cc_generation c) 1 with
  | None => (Err StoreError_Unavailable, c)
  | Some generation => (Ok (), mkCut [] CutPhase_Collecting generation (Some now) 0 (cc_sequence c) (cc_slot c))
  end.

(** [blocks_writer]. *)
Definition blocks_writer (c : CheckpointCut) : bool := negb (cc_generation c =? 0) && negb (is_some (cut_result c)).

(** ** A worker *)

(** The fields of [WorkerApplication] that take part, with whether its store holds a finished snapshot frozen
    ([Checkpointer::frozen]), and a publication that its current poll has reserved but not started. *)
Record CutWorker := mkCutWorker {
  cw_started : bool;
  cw_stopping : bool;
  cw_task : option CutPublication;
  cw_snapshot : bool;
  cw_generation : N;
  cw_completed : N;
  cw_frozen : bool;
  cw_reserved : option (CutPublication * list ShardImage)
}.

Definition cut_worker_new : CutWorker := mkCutWorker false false None false 0 0 false None.

Record CutNode := mkCutNode { cn_cut : CheckpointCut; cn_workers : list CutWorker }.

(** The first section of [poll_checkpoint]: the publication task is done. *)
Definition poll_task (c : CheckpointCut) (w : CutWorker) (outcome : result () StoreError) : option (CheckpointCut * CutWorker) :=
  match cw_task w with
  | None => Some (c, w)
  | Some p =>
      let w := mkCutWorker (cw_started w) (cw_stopping w) None (cw_snapshot w) (cw_generation w) (cw_completed w) (cw_frozen w) (cw_reserved w) in
      let '(r, c) := match outcome with Ok _ => cut_published c p | Err e => (Err e, c) end in
      match cut_finish c r with None => None | Some c => Some (c, w) end
  end.

Definition CUT_INTERVAL : N := 5 * NANOS_PER_SECOND.

(** A worker acknowledges the result of a cut. *)
Definition acknowledge (c : CheckpointCut) (w : CutWorker) : CheckpointCut * CutWorker :=
  if cw_completed w =? cc_generation c
  then (c, mkCutWorker (cw_started w) (cw_stopping w) (cw_task w) false (cw_generation w) (cw_completed w) (cw_frozen w) (cw_reserved w))
  else (mkCut (cc_shards c) (cc_phase c) (cc_generation c) (cc_started c) (S (cc_finished c)) (cc_sequence c) (cc_slot c),
        mkCutWorker (cw_started w) (cw_stopping w) (cw_task w) false 0 (cc_generation c) false (cw_reserved w)).

(** The rest of the second section once a cut is open: acknowledgement, the start of this worker's snapshot, or the publication. *)
Definition poll_open (c : CheckpointCut) (w : CutWorker) (control : bool) (count : nat) (writer_busy : bool) : option (CheckpointCut * CutWorker) :=
  c ← (if cw_stopping w && negb (publication_started c) then cut_fail c StoreError_Cancelled else Some c);
  if is_some (cut_result c) then Some (acknowledge c w)
  else if negb (cw_generation w =? cc_generation c) && writer_busy then Some (c, w)
  else
    let w := if cw_generation w =? cc_generation c then w
             else mkCutWorker (cw_started w) (cw_stopping w) (cw_task w) true (cc_generation c) (cw_completed w) (cw_frozen w) (cw_reserved w) in
    if cw_snapshot w then Some (c, w)
    else if control && (length (cc_shards c) =? count)%nat && negb (publication_started c) then
      '(shards, c) ← start_publication c;
      match cut_reserve c CheckpointPolicy_Periodic with
      | (Err e, c) => (λ c, (c, w)) <$> cut_fail c e
      | (Ok p, c) =>
          Some (c, mkCutWorker (cw_started w) (cw_stopping w) (cw_task w) (cw_snapshot w) (cw_generation w) (cw_completed w) (cw_frozen w) (Some (p, shards)))
      end
    else Some (c, w).

(** The second section of [poll_checkpoint], up to where it polls the snapshot or starts the publication. *)
Definition poll_cut (c : CheckpointCut) (w : CutWorker) (now : N) (control : bool) (count : nat) (writer_busy : bool) : option (CheckpointCut * CutWorker) :=
  if negb (cw_started w) then Some (c, w)
  else
    let started := default now (cc_started c) in
    let c := mkCut (cc_shards c) (cc_phase c) (cc_generation c) (Some started) (cc_finished c) (cc_sequence c) (cc_slot c) in
    if (cc_generation c =? 0) || (cc_finished c =? count)%nat then
      if cw_stopping w || (now - started <? CUT_INTERVAL) then Some (c, w)
      else
        match cut_restart c now with
        | (Err _, c) => Some (c, w)
        | (Ok _, c) => poll_open c w control count writer_busy
        end
    else poll_open c w control count writer_busy.

(** The third section: the snapshot of this worker is done; a finished one stays frozen. *)
Definition poll_snapshot (c : CheckpointCut) (w : CutWorker) (outcome : result ShardImage StoreError) : option (CheckpointCut * CutWorker) :=
  if cw_snapshot w then
    let with_frozen := λ frozen, mkCutWorker (cw_started w) (cw_stopping w) (cw_task w) false (cw_generation w) (cw_completed w) frozen (cw_reserved w) in
    match outcome with
    | Ok shard => Some (with_cut_phase c (cc_shards c ++ [shard]) (cc_phase c), with_frozen true)
    | Err e => (λ c, (c, with_frozen false)) <$> cut_fail c e
    end
  else Some (c, w).

(** The start of the publication after the lock is released: [publish_async] refuses it, or it becomes the task.  Its deadline is taken
    to fit the clock, as every deadline the worker sets. *)
Definition poll_publish (c : CheckpointCut) (w : CutWorker) (setup : result () StoreError) : option (CheckpointCut * CutWorker) :=
  match cw_reserved w with
  | None => Some (c, w)
  | Some (p, _) =>
      let with_task := λ task, mkCutWorker (cw_started w) (cw_stopping w) task (cw_snapshot w) (cw_generation w) (cw_completed w) (cw_frozen w) None in
      match setup with
      | Ok _ => Some (c, with_task (Some p))
      | Err e => (λ c, (c, with_task (cw_task w))) <$> cut_fail c e
      end
  end.

(** ** A node *)

(** What happens to a worker, by its position.  Its snapshot ends as a shard of this worker or with an error. *)
Inductive CutEvent :=
| Cut_Start (worker : nat)
| Cut_Stop (worker : nat)
| Cut_Task (worker : nat) (outcome : result () StoreError)
| Cut_Poll (worker : nat) (now : N) (writer_busy : bool)
| Cut_Snapshot (worker : nat) (outcome : result ShardImage StoreError)
| Cut_Publish (worker : nat) (setup : result () StoreError).

Section node.
Context (control_worker : nat).

Definition at_worker (n : CutNode) (worker : nat) (f : CheckpointCut → CutWorker → option (CheckpointCut * CutWorker)) : option CutNode :=
  match cn_workers n !! worker with
  | None => Some n
  | Some w => (λ '(c, w), mkCutNode c (<[worker := w]> (cn_workers n))) <$> f (cn_cut n) w
  end.

(** One section; a poll that has reserved a publication goes on to start it. *)
Definition cut_step (n : CutNode) (e : CutEvent) : option CutNode :=
  match e with
  | Cut_Start worker => at_worker n worker (λ c w,
      Some (c, mkCutWorker true (cw_stopping w) (cw_task w) (cw_snapshot w) (cw_generation w) (cw_completed w) (cw_frozen w) (cw_reserved w)))
  | Cut_Stop worker => at_worker n worker (λ c w,
      Some (c, mkCutWorker (cw_started w) true (cw_task w) (cw_snapshot w) (cw_generation w) (cw_completed w) (cw_frozen w) (cw_reserved w)))
  | Cut_Task worker outcome => at_worker n worker (λ c w, if is_some (cw_reserved w) then Some (c, w) else poll_task c w outcome)
  | Cut_Poll worker now writer_busy => at_worker n worker (λ c w,
      if is_some (cw_reserved w) then Some (c, w)
      else poll_cut c w now (worker =? control_worker)%nat (length (cn_workers n)) writer_busy)
  | Cut_Snapshot worker outcome => at_worker n worker (λ c w, poll_snapshot c w outcome)
  | Cut_Publish worker setup => at_worker n worker (λ c w, poll_publish c w setup)
  end.

Fixpoint cut_run (n : CutNode) (es : list CutEvent) : option CutNode :=
  match es with
  | [] => Some n
  | e :: es => n ← cut_step n e; cut_run n es
  end.
End node.
