(* ===== verification/CheckpointCutRuns.v ===== *)
(** * Checkpoint cuts: all runs

    The invariant of the coordinator over any number of workers, whatever order their polls interleave in and whatever their tasks
    answer. *)

From S2P Require Import Prelude Bytes Http ObjectModel WireCodec Segments Checkpoint CheckpointCut.
Local Open Scope racer_scope.
Local Open Scope N_scope.

(** ** The invariant *)

Definition acked (c : CheckpointCut) (w : CutWorker) : Prop := cw_completed w = cc_generation c.

(** A snapshot of this cut that is finished and frozen. *)
Definition contributed (c : CheckpointCut) (w : CutWorker) : Prop :=
  cw_generation w = cc_generation c ∧ cw_snapshot w = false ∧ cw_frozen w = true.

(** Neither in a cut nor holding anything. *)
Definition at_rest (w : CutWorker) : Prop := cw_generation w = 0 ∧ cw_snapshot w = false ∧ cw_frozen w = false.

Definition publication_ok (c : CheckpointCut) (p : CutPublication) : Prop := pb_sequence p = cc_sequence c ∧ pb_slot p = slot_flip (cc_slot c).

(** The publication a worker owns: the control worker has one while it is published, and nobody else at any time. *)
Definition owns (c : CheckpointCut) (control : bool) (w : CutWorker) : Prop :=
  match cc_phase c with
  | CutPhase_Publishing =>
      if control then ∃ p, publication_ok c p ∧ (cw_task w = Some p ∧ cw_reserved w = None ∨ cw_task w = None ∧ ∃ shards, cw_reserved w = Some (p, shards))
      else cw_task w = None ∧ cw_reserved w = None
  | _ => cw_task w = None ∧ cw_reserved w = None
  end.

(** A worker in an open cut, by its phase. *)
Definition progress_ok (c : CheckpointCut) (w : CutWorker) : Prop :=
  match cc_phase c with
  | CutPhase_Collecting =>
      ¬ acked c w ∧ (at_rest w ∨ contributed c w ∨ cw_generation w = cc_generation c ∧ cw_snapshot w = true ∧ cw_frozen w = false)
  | CutPhase_Publishing => ¬ acked c w ∧ contributed c w
  | CutPhase_Published _ => acked c w ∧ at_rest w ∨ ¬ acked c w ∧ contributed c w
  | CutPhase_Aborted _ =>
      acked c w ∧ at_rest w ∨
      ¬ acked c w ∧ (cw_generation w = 0 ∨ cw_generation w = cc_generation c) ∧ (cw_snapshot w = true ∨ cw_frozen w = true → cw_generation w = cc_generation c)
  end.

Record worker_ok (c : CheckpointCut) (control : bool) (w : CutWorker) : Prop := {
  wo_completed : cw_completed w <= cc_generation c;
  wo_owns : owns c control w;
  wo_progress : if cc_generation c =? 0 then at_rest w else progress_ok c w
}.

Definition acked_count (c : CheckpointCut) (ws : list CutWorker) : nat := length (filter (λ w, cw_completed w = cc_generation c) ws).

(** The shards of a cut that is being collected: one of each worker that has contributed. *)
Definition shards_of_workers (c : CheckpointCut) (ws : list CutWorker) : Prop :=
  NoDup (sh_worker <$> cc_shards c) ∧
  ∀ i, i ∈ (sh_worker <$> cc_shards c) ↔ ∃ k w, i = N.of_nat k ∧ ws !! k = Some w ∧ contributed c w.

Section invariant.
Context (control_worker : nat).

Record cut_ok (n : CutNode) : Prop := {
  co_slot : (cc_slot (cn_cut n) <= 1)%nat;
  co_idle : cc_generation (cn_cut n) = 0 → cc_phase (cn_cut n) = CutPhase_Collecting ∧ cc_shards (cn_cut n) = [];
  co_workers : ∀ k w, cn_workers n !! k = Some w → worker_ok (cn_cut n) (k =? control_worker)%nat w;
  co_finished : cc_generation (cn_cut n) ≠ 0 → cc_finished (cn_cut n) = acked_count (cn_cut n) (cn_workers n);
  co_shards : cc_generation (cn_cut n) ≠ 0 → cc_phase (cn_cut n) = CutPhase_Collecting → shards_of_workers (cn_cut n) (cn_workers n);
  co_reserved : ∀ k w p shards, cn_workers n !! k = Some w → cw_reserved w = Some (p, shards) →
    (sh_worker <$> shards) ≡ₚ (N.of_nat <$> seq 0 (length (cn_workers n)))
}.

(** ** What the parts of the invariant depend on *)

Lemma worker_ok_cut c c' control w : cc_generation c' = cc_generation c → cc_phase c' = cc_phase c → cc_sequence c' = cc_sequence c → cc_slot c' = cc_slot c →
  worker_ok c control w → worker_ok c' control w.
Proof.
  intros Hg Hp Hs Hl [H1 H2 H3]. split; [by rewrite Hg|unfold owns, publication_ok in *; by rewrite Hp, Hs, Hl|].
  unfold progress_ok, acked, contributed in *. by rewrite Hg, Hp.
Qed.

(** The fields of a worker that its part in a cut consists of. *)
Definition same_part (w w' : CutWorker) : Prop :=
  cw_task w' = cw_task w ∧ cw_snapshot w' = cw_snapshot w ∧ cw_generation w' = cw_generation w ∧ cw_completed w' = cw_completed w ∧
  cw_frozen w' = cw_frozen w ∧ cw_reserved w' = cw_reserved w.

Lemma worker_ok_part c control w w' : same_part w w' → worker_ok c control w → worker_ok c control w'.
Proof.
  intros (Ht & Hs & Hg & Hc & Hf & Hr) [H1 H2 H3]. split; [by rewrite Hc|unfold owns in *; by rewrite Ht, Hr|].
  unfold progress_ok, acked, contributed, at_rest in *. by rewrite Hs, Hg, Hc, Hf.
Qed.

Lemma count_insert {A} (P : A → Prop) `{∀ x, Decision (P x)} (l : list A) k x y : l !! k = Some x →
  (length (filter P (<[k := y]> l)) + (if decide (P x) then 1 else 0) = length (filter P l) + (if decide (P y) then 1 else 0))%nat.
Proof.
  revert k. induction l as [|z l IH]; intros [|k]; [done..| |]; intros Hk; simpl in Hk.
  - injection Hk as ->. simpl. rewrite !filter_cons. destruct (decide (P x)), (decide (P y)); simpl; lia.
  - simpl. rewrite !filter_cons. specialize (IH k Hk). destruct (decide (P z)); simpl; lia.
Qed.

Lemma acked_count_same c c' ws k w w' : ws !! k = Some w → cc_generation c' = cc_generation c → cw_completed w' = cw_completed w →
  acked_count c' (<[k := w']> ws) = acked_count c ws.
Proof.
  intros Hk Hg Hc. unfold acked_count. rewrite Hg. pose proof (count_insert (λ w, cw_completed w = cc_generation c) ws k w w' Hk) as H.
  destruct (decide (cw_completed w = cc_generation c)), (decide (cw_completed w' = cc_generation c)); simpl in H; try congruence; lia.
Qed.

(** The workers after one of them changed. *)
Lemma lookup_updated {A} (l : list A) k x y j z : l !! k = Some x → <[k := y]> l !! j = Some z → j = k ∧ z = y ∨ j ≠ k ∧ l !! j = Some z.
Proof.
  intros Hk. destruct (decide (j = k)) as [->|Hne]; [rewrite list_lookup_insert_eq by (by eapply lookup_lt_Some); naive_solver|].
  rewrite list_lookup_insert_ne by done. auto.
Qed.

(** One worker changes, and the cut with it. *)
Lemma cut_ok_update n k w c' w' : cut_ok n → cn_workers n !! k = Some w → (cc_slot c' <= 1)%nat →
  (cc_generation c' = 0 → cc_phase c' = CutPhase_Collecting ∧ cc_shards c' = []) →
  (∀ j v, cn_workers n !! j = Some v → j ≠ k → worker_ok c' (j =? control_worker)%nat v) → worker_ok c' (k =? control_worker)%nat w' →
  (cc_generation c' ≠ 0 → cc_finished c' = acked_count c' (<[k := w']> (cn_workers n))) →
  (cc_generation c' ≠ 0 → cc_phase c' = CutPhase_Collecting → shards_of_workers c' (<[k := w']> (cn_workers n))) →
  (∀ p shards, cw_reserved w' = Some (p, shards) → (sh_worker <$> shards) ≡ₚ (N.of_nat <$> seq 0 (length (cn_workers n)))) →
  cut_ok (mkCutNode c' (<[k := w']> (cn_workers n))).
Proof.
  intros Hok Hk Hsl Hid Hoth Hw Hfin Hsh Hres. split; simpl; [done|done| |done|done|].
  - intros j v Hj. destruct (lookup_updated _ _ _ _ _ _ Hk Hj) as [[-> ->]|[Hne Hv]]; eauto.
  - intros j v p shards Hj Hr. rewrite length_insert. destruct (lookup_updated _ _ _ _ _ _ Hk Hj) as [[-> ->]|[Hne Hv]]; [eauto|by eapply (co_reserved n Hok)].
Qed.

Lemma shards_same c c' ws k w w' : ws !! k = Some w → cc_generation c' = cc_generation c → cc_shards c' = cc_shards c →
  (contributed c w ↔ contributed c w') → shards_of_workers c ws → shards_of_workers c' (<[k := w']> ws).
Proof.
  intros Hk Hg Hs Hc [Hn Hin]. unfold shards_of_workers. rewrite Hs. split; [done|]. intros i. rewrite Hin. unfold contributed at 2. rewrite Hg. fold (contributed c).
  assert (∀ v, (cw_generation v = cc_generation c ∧ cw_snapshot v = false ∧ cw_frozen v = true) = contributed c v) as Hcc by done. setoid_rewrite Hcc.
  split; intros (j & v & -> & Hj & Hv).
  - destruct (decide (j = k)) as [->|Hne]; [|exists j, v; split; [done|]; split; [by rewrite list_lookup_insert_ne|done]].
    exists k, w'. split; [done|]. split; [apply list_lookup_insert_eq; by eapply lookup_lt_Some|]. assert (v = w) as -> by congruence. by apply Hc.
  - destruct (lookup_updated _ _ _ _ _ _ Hk Hj) as [[-> ->]|[Hne Hv']]; [exists k, w; split; [done|]; split; [done|by apply Hc]|by exists j, v].
Qed.

(** ** The sections *)

Lemma unchanged_ok n k w c' w' : cut_ok n → cn_workers n !! k = Some w → same_part w w' →
  cc_generation c' = cc_generation (cn_cut n) → cc_phase c' = cc_phase (cn_cut n) → cc_sequence c' = cc_sequence (cn_cut n) →
  cc_slot c' = cc_slot (cn_cut n) → cc_shards c' = cc_shards (cn_cut n) → cc_finished c' = cc_finished (cn_cut n) →
  cut_ok (mkCutNode c' (<[k := w']> (cn_workers n))).
Proof.
  intros Hok Hk Hp Hg Hph Hs Hl Hsh Hf. eapply cut_ok_update; [done|done|by rewrite Hl; apply Hok|rewrite Hg, Hph, Hsh; apply Hok| | | | |].
  - intros j v Hj _. eapply worker_ok_cut; [done..|]. by apply Hok.
  - eapply worker_ok_part; [done|]. eapply worker_ok_cut; [done..|]. by apply Hok.
  - intros H0. rewrite Hf, (acked_count_same (cn_cut n) c' _ k w w'); [apply Hok; by rewrite <- Hg|done|done|apply Hp].
  - intros H0 Hc. eapply shards_same; [done|done|done| |apply Hok; [by rewrite <- Hg|by rewrite <- Hph]].
    destruct Hp as (_ & Hp1 & Hp2 & _ & Hp3 & _). unfold contributed. by rewrite Hp1, Hp2, Hp3.
  - intros p shards Hr. destruct Hp as (_ & _ & _ & _ & _ & Hp). rewrite Hp in Hr. by eapply (co_reserved n Hok).
Qed.

(** A worker that owns a publication is the control worker, and the cut is being published. *)
Lemma owner_publishing c control w : owns c control w → cw_task w ≠ None ∨ cw_reserved w ≠ None → cc_phase c = CutPhase_Publishing ∧ control = true.
Proof. unfold owns. destruct (cc_phase c); [naive_solver..| |naive_solver]. destruct control; naive_solver. Qed.

(** A cut that is being published ends, whatever the outcome; nobody owns a publication any more. *)
Lemma cut_published_ok n k w w' r slot : cut_ok n → cn_workers n !! k = Some w → cc_phase (cn_cut n) = CutPhase_Publishing → (k =? control_worker)%nat = true →
  (slot <= 1)%nat → cw_task w' = None → cw_reserved w' = None → cw_generation w' = cw_generation w → cw_snapshot w' = cw_snapshot w →
  cw_completed w' = cw_completed w → cw_frozen w' = cw_frozen w →
  let c := cn_cut n in
  cut_ok (mkCutNode (mkCut [] (CutPhase_Published r) (cc_generation c) (cc_started c) (cc_finished c) (cc_sequence c) slot) (<[k := w']> (cn_workers n))).
Proof.
  intros Hok Hk Hp Hctl Hsl Ht Hr Hg Hs Hc Hf c. assert (cc_generation c ≠ 0) as H0 by (intros H; apply (co_idle n Hok) in H as [H _]; unfold c in H; congruence).
  assert (∀ j v, cn_workers n !! j = Some v → ¬ acked c v ∧ contributed c v) as Hall.
  { intros j v Hj. pose proof (wo_progress _ _ _ (co_workers n Hok j v Hj)) as H. fold c in H. rewrite (proj2 (N.eqb_neq _ _)) in H by done.
    unfold progress_ok in H. fold c in Hp. by rewrite Hp in H. }
  eapply cut_ok_update; simpl; [done|done|done|done| | | |done|by rewrite Hr].
  - intros j v Hj Hne. pose proof (co_workers n Hok j v Hj) as [Hw1 Hw2 _]. split; simpl; [done| |].
    + unfold owns in *. rewrite Hp in Hw2. simpl. destruct (Nat.eqb_spec j control_worker); [|done]. apply Nat.eqb_eq in Hctl. congruence.
    + fold c. rewrite (proj2 (N.eqb_neq _ _)) by done. right. by apply (Hall j v).
  - split; simpl; [rewrite Hc; apply (co_workers n Hok k w Hk)|by split|]. fold c. rewrite (proj2 (N.eqb_neq _ _)) by done. right.
    destruct (Hall k w Hk) as [Ha Hb]. unfold acked, contributed in *. by rewrite Hg, Hs, Hc, Hf.
  - intros _. rewrite (acked_count_same c _ _ k w w'); [by apply (co_finished n Hok)|done|done|done].
Qed.

Lemma slot_flip_le slot : (slot <= 1)%nat → (slot_flip slot <= 1)%nat ∧ slot_flip slot ≠ slot.
Proof. intros H. assert (slot = 0 ∨ slot = 1)%nat as [-> | ->] by lia; by vm_compute; split; [lia|]. Qed.

Lemma poll_task_ok n k w outcome : cut_ok n → cn_workers n !! k = Some w → cw_reserved w = None →
  ∃ c' w', poll_task (cn_cut n) w outcome = Some (c', w') ∧ cut_ok (mkCutNode c' (<[k := w']> (cn_workers n))).
Proof.
  intros Hok Hk Hr. unfold poll_task. pose proof (wo_owns _ _ _ (co_workers n Hok k w Hk)) as Ho. destruct (cw_task w) as [p|] eqn:Ht.
  2: { eexists _, _. split; [done|]. by eapply unchanged_ok. }
  destruct (owner_publishing _ _ _ Ho) as [Hp Hctl]; [left; congruence|]. pose proof Ho as Ho'. unfold owns in Ho'. rewrite Hp, Hctl in Ho'.
  destruct Ho' as (p' & [Hseq Hslot] & Hor). assert (p' = p) as -> by (destruct Hor as [[? _]|[? _]]; congruence).
  destruct (slot_flip_le (cc_slot (cn_cut n)) (co_slot n Hok)) as [Hle _].
  destruct outcome as [[]|e].
  - unfold cut_published. rewrite Hseq, N.eqb_refl, Hslot. rewrite (proj2 (Nat.ltb_ge _ _)) by done. cbn [negb orb]. unfold cut_finish, publication_started. simpl. rewrite Hp.
    eexists _, _. split; [done|]. by eapply cut_published_ok.
  - unfold cut_finish, publication_started. rewrite Hp. eexists _, _. split; [done|]. eapply cut_published_ok; [done..| | | | | | |]; [by apply Hok|done..].
Qed.

Lemma poll_publish_ok n k w setup : cut_ok n → cn_workers n !! k = Some w →
  ∃ c' w', poll_publish (cn_cut n) w setup = Some (c', w') ∧ cut_ok (mkCutNode c' (<[k := w']> (cn_workers n))).
Proof.
  intros Hok Hk. unfold poll_publish. pose proof (wo_owns _ _ _ (co_workers n Hok k w Hk)) as Ho. destruct (cw_reserved w) as [[p shards]|] eqn:Hr.
  2: { eexists _, _. split; [done|]. by eapply unchanged_ok. }
  destruct (owner_publishing _ _ _ Ho) as [Hp Hctl]; [right; congruence|]. pose proof Ho as Ho'. unfold owns in Ho'. rewrite Hp, Hctl in Ho'.
  destruct Ho' as (p' & Hpub & [[_ ?]|(Ht & shards' & Hr')]); [congruence|]. assert (p' = p) as -> by congruence.
  destruct setup as [[]|e].
  - eexists _, _. split; [done|]. eapply cut_ok_update; [done|done|apply Hok|apply Hok| | | | |done].
    + intros j v Hj _. by apply Hok.
    + pose proof (co_workers n Hok k w Hk) as [H1 _ H3]. split; [done| |done]. unfold owns. rewrite Hp, Hctl. exists p. split; [done|]. by left.
    + intros H0. rewrite (acked_count_same (cn_cut n) _ _ k w); [by apply Hok|done|done|done].
    + intros _ ?. congruence.
  - unfold cut_fail, cut_finish, publication_started. rewrite Hp. simpl. eexists _, _. split; [done|].
    eapply cut_published_ok; [done..| | | | | | |]; [by apply Hok|done..].
Qed.

Lemma with_cut_phase_same c shards phase : cc_generation (with_cut_phase c shards phase) = cc_generation c ∧ cc_finished (with_cut_phase c shards phase) = cc_finished c.
Proof. done. Qed.

(** In an open cut that is not published, a worker is acknowledged and at rest, or has only begun what belongs to this cut. *)
Definition abortable (c : CheckpointCut) (w : CutWorker) : Prop :=
  acked c w ∧ at_rest w ∨
  ¬ acked c w ∧ (cw_generation w = 0 ∨ cw_generation w = cc_generation c) ∧ (cw_snapshot w = true ∨ cw_frozen w = true → cw_generation w = cc_generation c).

Lemma open_abortable c w : publication_started c = false → progress_ok c w → abortable c w.
Proof.
  unfold publication_started, progress_ok, abortable, at_rest, contributed. destruct (cc_phase c); [|done|done|done]. intros _ [Ha Hc]. right. split; [done|].
  destruct Hc as [(-> & -> & ->)|[(-> & -> & ->)|(-> & -> & ->)]]; naive_solver.
Qed.

Lemma open_owns c control w : publication_started c = false → owns c control w → cw_task w = None ∧ cw_reserved w = None.
Proof. unfold publication_started, owns. by destruct (cc_phase c). Qed.

(** A cut that is not yet published is aborted. *)
Lemma aborted_ok n k w w' e : cut_ok n → cn_workers n !! k = Some w → publication_started (cn_cut n) = false → cc_generation (cn_cut n) ≠ 0 →
  cw_task w' = cw_task w → cw_reserved w' = cw_reserved w → cw_completed w' = cw_completed w → abortable (cn_cut n) w' →
  cut_ok (mkCutNode (with_cut_phase (cn_cut n) [] (CutPhase_Aborted e)) (<[k := w']> (cn_workers n))).
Proof.
  intros Hok Hk Hst H0 Ht Hr Hc Hab. eapply cut_ok_update; simpl; [done|done|apply Hok|done| | | |done|].
  - intros j v Hj _. pose proof (co_workers n Hok j v Hj) as [Hw1 Hw2 Hw3]. split; simpl; [done|unfold owns; simpl; by eapply open_owns|].
    rewrite (proj2 (N.eqb_neq _ _)) in * by done. by apply open_abortable in Hw3.
  - pose proof (co_workers n Hok k w Hk) as [Hw1 Hw2 Hw3]. split; simpl; [by rewrite Hc|unfold owns; simpl; rewrite Ht, Hr; by eapply open_owns|]. rewrite (proj2 (N.eqb_neq _ _)) by done. exact Hab.
  - intros _. rewrite (acked_count_same (cn_cut n) _ _ k w w'); [by apply Hok|done|done|done].
  - intros p shards. rewrite Hr. intros ?. by eapply (co_reserved n Hok).
Qed.

Lemma open_generation n k w : cut_ok n → cn_workers n !! k = Some w → cw_snapshot w = true ∨ cw_frozen w = true → cc_generation (cn_cut n) ≠ 0.
Proof.
  intros Hok Hk Hs H0. pose proof (wo_progress _ _ _ (co_workers n Hok k w Hk)) as H. rewrite H0 in H. destruct H as (_ & ? & ?). destruct Hs; congruence.
Qed.

Lemma poll_snapshot_ok n k w outcome : cut_ok n → cn_workers n !! k = Some w → (∀ s, outcome = Ok s → sh_worker s = N.of_nat k) →
  ∃ c' w', poll_snapshot (cn_cut n) w outcome = Some (c', w') ∧ cut_ok (mkCutNode c' (<[k := w']> (cn_workers n))).
Proof.
  intros Hok Hk Hsh. unfold poll_snapshot. destruct (cw_snapshot w) eqn:Hs; [|eexists _, _; split; [done|by eapply unchanged_ok]].
  pose proof (open_generation n k w Hok Hk (or_introl Hs)) as H0. pose proof (co_workers n Hok k w Hk) as [Hw1 Hw2 Hw3]. rewrite (proj2 (N.eqb_neq _ _)) in Hw3 by done.
  assert (publication_started (cn_cut n) = false ∧ cw_generation w = cc_generation (cn_cut n) ∧ ¬ acked (cn_cut n) w ∧
    (cc_phase (cn_cut n) = CutPhase_Collecting → cw_frozen w = false)) as (Hst & Hg & Ha & Hfz).
  { unfold progress_ok, publication_started, at_rest, contributed in *. destruct (cc_phase (cn_cut n)) as [|x| |x].
    - destruct Hw3 as [Ha [(_ & ? & _)|[(_ & ? & _)|(? & _ & ?)]]]; [congruence..|done].
    - destruct Hw3 as [(_ & _ & ? & _)|(? & _ & Hg)]; [congruence|]. split_and!; [done|apply Hg; by left|done|done].
    - destruct Hw3 as (_ & _ & ? & _). congruence.
    - destruct Hw3 as [(_ & _ & ? & _)|(_ & _ & ? & _)]; congruence. }
  destruct outcome as [shard|e].
  - eexists _, _. split; [done|]. specialize (Hsh shard eq_refl). eapply cut_ok_update; simpl; [done|done|apply Hok|done| | | | |].
    + intros j v Hj _. eapply worker_ok_cut; [..|by apply Hok]; done.
    + eapply worker_ok_cut; [done..|]. split; simpl; [done|by unfold owns in *|]. rewrite (proj2 (N.eqb_neq _ _)) by done.
      unfold progress_ok, publication_started, at_rest, contributed, acked in *. destruct (cc_phase (cn_cut n)); simpl; [split; [done|]; right; left; done| |done|done].
      right. split; [done|]. split; [by right|done].
    + intros _. rewrite (acked_count_same (cn_cut n) _ _ k w); [by apply Hok|done|done|done].
    + intros _ Hc. destruct (co_shards n Hok H0 Hc) as [Hn Hin]. unfold shards_of_workers. simpl. rewrite fmap_app. simpl. rewrite Hsh.
      assert (N.of_nat k ∉ sh_worker <$> cc_shards (cn_cut n)) as Hnin.
      { rewrite Hin. intros (j & v & Heq & Hj & Hv). apply Nat2N.inj in Heq as <-. assert (v = w) as -> by congruence. destruct Hv as (_ & ? & _). congruence. }
      split; [rewrite <- Permutation_cons_append; by constructor|]. intros i. rewrite elem_of_app, list_elem_of_singleton, Hin. split.
      * intros [(j & v & -> & Hj & Hv)| ->].
        -- assert (j ≠ k) by (intros ->; assert (v = w) as -> by congruence; destruct Hv as (_ & ? & _); congruence).
           exists j, v. split; [done|]. split; [by rewrite list_lookup_insert_ne|done].
        -- eexists k, _. split; [done|]. split; [apply list_lookup_insert_eq; by eapply lookup_lt_Some|]. done.
      * intros (j & v & -> & Hj & Hv). destruct (lookup_updated _ _ _ _ _ _ Hk Hj) as [[-> _]|[Hne Hv']]; [by right|left; by exists j, v].
    + intros p shards Hr. by eapply (co_reserved n Hok).
  - unfold cut_fail, cut_finish. rewrite Hst. simpl. eexists _, _. split; [done|]. eapply aborted_ok; [done..|]. right. simpl. split; [done|]. split; [by right|done].
Qed.

Lemma acknowledge_ok n k w : cut_ok n → cn_workers n !! k = Some w → cc_generation (cn_cut n) ≠ 0 → is_Some (cut_result (cn_cut n)) →
  let '(c', w') := acknowledge (cn_cut n) w in cut_ok (mkCutNode c' (<[k := w']> (cn_workers n))).
Proof.
  intros Hok Hk H0 [r Hr]. pose proof (co_workers n Hok k w Hk) as [Hw1 Hw2 Hw3]. rewrite (proj2 (N.eqb_neq _ _)) in Hw3 by done.
  assert (cw_task w = None ∧ cw_reserved w = None) as [Ht Hre] by (unfold owns, cut_result in *; by destruct (cc_phase (cn_cut n))).
  unfold acknowledge. destruct (N.eqb_spec (cw_completed w) (cc_generation (cn_cut n))) as [Ha|Ha].
  - eapply unchanged_ok; [done|done| |done..]. assert (cw_snapshot w = false); [|done].
    unfold cut_result, progress_ok, acked in *. destruct (cc_phase (cn_cut n)); [done| |done|]; destruct Hw3 as [(_ & _ & ? & _)|[? _]]; done.
  - eapply cut_ok_update; simpl; [done|done|apply Hok|done| | | | |congruence].
    + intros j v Hj _. eapply worker_ok_cut; [..|by apply Hok]; done.
    + split; simpl; [done|unfold owns, cut_result in *; simpl; by destruct (cc_phase (cn_cut n))|]. rewrite (proj2 (N.eqb_neq _ _)) by done.
      unfold progress_ok, cut_result in *. simpl. destruct (cc_phase (cn_cut n)); [done|by left|done|by left].
    + intros _. rewrite (co_finished n Hok H0). unfold acked_count. simpl.
      pose proof (count_insert (λ v, cw_completed v = cc_generation (cn_cut n)) _ k w
        (mkCutWorker (cw_started w) (cw_stopping w) (cw_task w) false 0 (cc_generation (cn_cut n)) false (cw_reserved w)) Hk) as H.
      simpl in H. rewrite decide_False, decide_True in H by done. lia.
    + intros _ Hc. unfold cut_result in Hr. by rewrite Hc in Hr.
Qed.

(** With as many shards as workers, every worker has contributed one. *)
Lemma all_contributed n : cut_ok n → cc_generation (cn_cut n) ≠ 0 → cc_phase (cn_cut n) = CutPhase_Collecting →
  length (cc_shards (cn_cut n)) = length (cn_workers n) →
  (sh_worker <$> cc_shards (cn_cut n)) ≡ₚ (N.of_nat <$> seq 0 (length (cn_workers n))) ∧
  ∀ j v, cn_workers n !! j = Some v → ¬ acked (cn_cut n) v ∧ contributed (cn_cut n) v.
Proof.
  intros Hok H0 Hc Hlen. destruct (co_shards n Hok H0 Hc) as [Hn Hin].
  assert ((sh_worker <$> cc_shards (cn_cut n)) ≡ₚ (N.of_nat <$> seq 0 (length (cn_workers n)))) as Hp.
  { apply submseteq_length_Permutation; [|rewrite !length_fmap, length_seq; lia]. apply NoDup_submseteq; [done|].
    intros i (j & v & -> & Hj & _)%Hin. apply list_elem_of_fmap_2, elem_of_seq. apply lookup_lt_Some in Hj. lia. }
  split; [done|]. intros j v Hj. pose proof (wo_progress _ _ _ (co_workers n Hok j v Hj)) as Hw. rewrite (proj2 (N.eqb_neq _ _)) in Hw by done.
  unfold progress_ok in Hw. rewrite Hc in Hw. split; [apply Hw|].
  destruct (proj1 (Hin (N.of_nat j))) as (j' & v' & Heq & Hj' & Hv'); [|apply Nat2N.inj in Heq as <-; congruence].
  rewrite Hp. apply list_elem_of_fmap_2, elem_of_seq. apply lookup_lt_Some in Hj. lia.
Qed.

Lemma start_publication_ok n k w : cut_ok n → cn_workers n !! k = Some w → cc_generation (cn_cut n) ≠ 0 → cc_phase (cn_cut n) = CutPhase_Collecting →
  (k =? control_worker)%nat = true → length (cc_shards (cn_cut n)) = length (cn_workers n) →
  ∃ c' w', ('(shards, c) ← start_publication (cn_cut n);
      match cut_reserve c CheckpointPolicy_Periodic with
      | (Err e, c) => (λ c, (c, w)) <$> cut_fail c e
      | (Ok p, c) =>
          Some (c, mkCutWorker (cw_started w) (cw_stopping w) (cw_task w) (cw_snapshot w) (cw_generation w) (cw_completed w) (cw_frozen w) (Some (p, shards)))
      end) = Some (c', w') ∧ cut_ok (mkCutNode c' (<[k := w']> (cn_workers n))).
Proof.
  intros Hok Hk H0 Hc Hctl Hlen. destruct (all_contributed n Hok H0 Hc Hlen) as [Hperm Hall]. unfold start_publication. rewrite Hc. cbn [mbind option_bind].
  assert (∀ j v, cn_workers n !! j = Some v → cw_task v = None ∧ cw_reserved v = None) as Hno.
  { intros j v Hj. pose proof (wo_owns _ _ _ (co_workers n Hok j v Hj)) as Ho. unfold owns in Ho. by rewrite Hc in Ho. }
  unfold cut_reserve. simpl. destruct (checked_add _ _ _) as [m|] eqn:Hm.
  - rewrite (proj2 (Nat.ltb_ge _ _)) by apply Hok. eexists _, _. split; [done|]. eapply cut_ok_update; simpl; [done|done|apply Hok|done| | | |done|].
    + intros j v Hj Hne. pose proof (co_workers n Hok j v Hj) as [Hw1 _ _]. split; simpl; [done| |rewrite (proj2 (N.eqb_neq _ _)) by done; by apply (Hall j v)].
      unfold owns. simpl. destruct (Nat.eqb_spec j control_worker); [apply Nat.eqb_eq in Hctl; congruence|by apply (Hno j)].
    + pose proof (co_workers n Hok k w Hk) as [Hw1 _ _]. split; simpl; [done| |rewrite (proj2 (N.eqb_neq _ _)) by done; by apply (Hall k w)].
      unfold owns. simpl. rewrite Hctl. eexists. split; [|right; split; [by apply (Hno k)|eauto]]. done.
    + intros _. rewrite (acked_count_same (cn_cut n) _ _ k w); [by apply Hok|done|done|done].
    + intros p shards [= <- <-]. done.
  - unfold cut_fail, cut_finish. simpl. eexists _, _. split; [done|]. eapply cut_ok_update; simpl; [done|done|apply Hok|done| | | |done|].
    + intros j v Hj Hne. pose proof (co_workers n Hok j v Hj) as [Hw1 _ _]. split; simpl; [done|by apply (Hno j)|].
      rewrite (proj2 (N.eqb_neq _ _)) by done. right. by apply (Hall j v).
    + pose proof (co_workers n Hok k w Hk) as [Hw1 _ _]. split; simpl; [done|by apply (Hno k)|]. rewrite (proj2 (N.eqb_neq _ _)) by done. right. by apply (Hall k w).
    + intros _. rewrite (acked_count_same (cn_cut n) _ _ k w); [by apply Hok|done|done|done].
    + intros p shards Hr. destruct (Hno k w Hk). congruence.
Qed.

Lemma poll_open_ok n k w busy : cut_ok n → cn_workers n !! k = Some w → cc_generation (cn_cut n) ≠ 0 → cw_reserved w = None →
  ∃ c' w', poll_open (cn_cut n) w (k =? control_worker)%nat (length (cn_workers n)) busy = Some (c', w') ∧ cut_ok (mkCutNode c' (<[k := w']> (cn_workers n))).
Proof.
  intros Hok Hk H0 Hre. unfold poll_open.
  assert (∃ c1, (if cw_stopping w && negb (publication_started (cn_cut n)) then cut_fail (cn_cut n) StoreError_Cancelled else Some (cn_cut n)) = Some c1 ∧
    cut_ok (mkCutNode c1 (cn_workers n)) ∧ cc_generation c1 ≠ 0 ∧ (is_Some (cut_result c1) ∨ c1 = cn_cut n)) as (c1 & -> & Hok1 & H1 & Hres).
  { destruct (cw_stopping w && negb _) eqn:Hst; [|by exists (cn_cut n); destruct n; auto]. apply andb_true_iff in Hst as [_ Hst%negb_true_iff].
    unfold cut_fail, cut_finish. rewrite Hst. eexists. split; [done|]. split; [|split; [done|left; by eexists]].
    rewrite <- (list_insert_id (cn_workers n) k w) by done. eapply aborted_ok; [done..|]. apply open_abortable; [done|].
    pose proof (wo_progress _ _ _ (co_workers n Hok k w Hk)) as Hw. by rewrite (proj2 (N.eqb_neq _ _)) in Hw. }
  cbn [mbind option_bind]. destruct (cut_result c1) as [r|] eqn:Hr.
  { cbn [is_some]. pose proof (acknowledge_ok (mkCutNode c1 (cn_workers n)) k w Hok1 Hk H1 ltac:(by eexists)) as H. simpl in H.
    destruct (acknowledge c1 w) as [c' w']. by eexists _, _. }
  destruct Hres as [[? ?]| ->]; [congruence|]. clear Hok1 H1. cbn [is_some].
  assert (cut_ok (mkCutNode (cn_cut n) (<[k := w]> (cn_workers n)))) as Hsame by (by eapply unchanged_ok).
  pose proof (co_workers n Hok k w Hk) as [Hw1 Hw2 Hw3]. rewrite (proj2 (N.eqb_neq _ _)) in Hw3 by done.
  destruct (N.eqb_spec (cw_generation w) (cc_generation (cn_cut n))) as [Hg|Hg]; cbn [negb andb].
  - destruct (cw_snapshot w) eqn:Hs; [by eexists _, _|]. destruct ((k =? control_worker)%nat && _ && _) eqn:Hc; [|by eexists _, _].
    apply andb_true_iff in Hc as [[Hctl Hlen%Nat.eqb_eq]%andb_true_iff Hst%negb_true_iff].
    assert (cc_phase (cn_cut n) = CutPhase_Collecting) as Hph by (unfold cut_result, publication_started in *; by destruct (cc_phase (cn_cut n))).
    pose proof (start_publication_ok n k w Hok Hk H0 Hph Hctl Hlen) as H. rewrite Hs in H. exact H.
  - destruct busy; [by eexists _, _|]. simpl. eexists _, _. split; [done|].
    assert (cc_phase (cn_cut n) = CutPhase_Collecting ∧ ¬ acked (cn_cut n) w ∧ at_rest w) as (Hph & Ha & Hrest).
    { unfold cut_result, progress_ok, contributed in *. destruct (cc_phase (cn_cut n)); [|done|by destruct Hw3 as (_ & ? & _)|done]. split; [done|]. split; [apply Hw3|].
      destruct Hw3 as [_ [?|[[? _]|[? _]]]]; done. }
    destruct Hrest as (_ & _ & Hfz). eapply cut_ok_update; simpl; [done|done|apply Hok|done| | | | |].
    + intros j v Hj _. by apply Hok.
    + split; simpl; [done|by unfold owns in *; rewrite Hph in *|]. rewrite (proj2 (N.eqb_neq _ _)) by done. unfold progress_ok. rewrite Hph. split; [done|]. right. by right.
    + intros _. rewrite (acked_count_same (cn_cut n) _ _ k w); [by apply Hok|done|done|done].
    + intros _ _. eapply shards_same; [done|done|done| |by apply Hok]. unfold contributed. simpl. naive_solver.
    + congruence.
Qed.

(** A new cut starts when none is open: every worker is at rest. *)
Lemma restart_ok n now : cut_ok n → cc_generation (cn_cut n) = 0 ∨ cc_finished (cn_cut n) = length (cn_workers n) → cn_workers n ≠ [] →
  match cut_restart (cn_cut n) now with
  | (Ok _, c') => cut_ok (mkCutNode c' (cn_workers n)) ∧ cc_generation c' ≠ 0
  | (Err _, c') => c' = cn_cut n
  end.
Proof.
  intros Hok Hidle Hne. unfold cut_restart. destruct (checked_add _ _ _) as [g|] eqn:Hg; [|done]. apply checked_add_Some in Hg as [_ ->].
  assert (∀ j v, cn_workers n !! j = Some v → at_rest v ∧ cw_task v = None ∧ cw_reserved v = None) as Hall.
  { intros j v Hj. pose proof (co_workers n Hok j v Hj) as [Hw1 Hw2 Hw3]. destruct (N.eqb_spec (cc_generation (cn_cut n)) 0) as [H0|H0].
    - split; [done|]. destruct (co_idle n Hok H0) as [Hph _]. unfold owns in Hw2. by rewrite Hph in Hw2.
    - destruct Hidle as [?|Hf]; [done|]. rewrite (co_finished n Hok H0) in Hf. unfold acked_count in Hf.
      assert (cw_completed v = cc_generation (cn_cut n)) as Hv.
      { destruct (decide (cw_completed v = cc_generation (cn_cut n))) as [|Hx]; [done|].
        pose proof (length_filter_lt (λ w, cw_completed w = cc_generation (cn_cut n)) (cn_workers n) v ltac:(by eapply list_elem_of_lookup_2) Hx). lia. }
      unfold progress_ok, owns, acked in *.
      destruct (cc_phase (cn_cut n)); [by destruct Hw3|destruct Hw3 as [[_ ?]|[? _]]; done|by destruct Hw3|destruct Hw3 as [[_ ?]|[? _]]; done]. }
  split; [|simpl; lia]. split; simpl; [apply Hok|lia| | | |].
  - intros j v Hj. destruct (Hall j v Hj) as (Hr & Ht & Hre). pose proof (wo_completed _ _ _ (co_workers n Hok j v Hj)). split; simpl; [lia|done|].
    rewrite (proj2 (N.eqb_neq _ _)) by lia. unfold progress_ok, acked. simpl. split; [lia|by left].
  - intros _. unfold acked_count. simpl. destruct (filter _ (cn_workers n)) as [|v l] eqn:E; [done|].
    assert (v ∈ filter (λ w, cw_completed w = cc_generation (cn_cut n) + 1) (cn_workers n)) as [Hv (j & Hj)%list_elem_of_lookup]%list_elem_of_filter by (rewrite E; by left).
    pose proof (wo_completed _ _ _ (co_workers n Hok j v Hj)). lia.
  - intros _ _. split; [constructor|]. simpl. intros i. split; [intros H; by apply elem_of_nil in H|]. intros (j & v & _ & Hj & Hv). destruct (Hall j v Hj) as [(_ & _ & Hf) _].
    destruct Hv as (_ & _ & ?). congruence.
  - intros j v p shards Hj Hr. destruct (Hall j v Hj) as (_ & _ & ?). congruence.
Qed.

Lemma poll_cut_ok n k w now busy : cut_ok n → cn_workers n !! k = Some w → cw_reserved w = None →
  ∃ c' w', poll_cut (cn_cut n) w now (k =? control_worker)%nat (length (cn_workers n)) busy = Some (c', w') ∧ cut_ok (mkCutNode c' (<[k := w']> (cn_workers n))).
Proof.
  intros Hok Hk Hr. unfold poll_cut. destruct (negb (cw_started w)); [eexists _, _; split; [done|by eapply unchanged_ok]|].
  set (c := mkCut _ _ _ _ _ _ _). assert (cut_ok (mkCutNode c (cn_workers n))) as Hok1.
  { rewrite <- (list_insert_id (cn_workers n) k w) by done. by eapply unchanged_ok. }
  assert (cut_ok (mkCutNode c (<[k := w]> (cn_workers n)))) as Hsame by (by eapply (unchanged_ok n k w)).
  destruct (_ || _) eqn:Hidle.
  - destruct (cw_stopping w || _); [eexists _, _; split; [reflexivity|exact Hsame]|].
    assert (cn_workers n ≠ []) as Hne by (intros E; by rewrite E in Hk).
    pose proof (restart_ok (mkCutNode c (cn_workers n)) now Hok1) as Hre. simpl in Hre. destruct (cut_restart c now) as [[[]|e] c'].
    + destruct Hre as [Hok2 H0]; [|done|exact (poll_open_ok (mkCutNode c' (cn_workers n)) k w busy Hok2 Hk H0 Hr)].
      apply orb_true_iff in Hidle as [?%N.eqb_eq|?%Nat.eqb_eq]; auto.
    + rewrite Hre; [eexists _, _; split; [reflexivity|exact Hsame]| |done]. apply orb_true_iff in Hidle as [?%N.eqb_eq|?%Nat.eqb_eq]; auto.
  - apply orb_false_iff in Hidle as [H0%N.eqb_neq _]. exact (poll_open_ok (mkCutNode c (cn_workers n)) k w busy Hok1 Hk H0 Hr).
Qed.

(** A snapshot that a worker takes is a shard of that worker. *)
Definition cut_event_ok (e : CutEvent) : Prop :=
  match e with Cut_Snapshot worker (Ok s) => sh_worker s = N.of_nat worker | _ => True end.

Lemma at_worker_ok n k f : cut_ok n →
  (∀ w, cn_workers n !! k = Some w → ∃ c' w', f (cn_cut n) w = Some (c', w') ∧ cut_ok (mkCutNode c' (<[k := w']> (cn_workers n)))) →
  ∃ n', at_worker n k f = Some n' ∧ cut_ok n'.
Proof.
  intros Hok Hf. unfold at_worker. destruct (cn_workers n !! k) as [w|]; [|by exists n]. destruct (Hf w eq_refl) as (c' & w' & -> & Hok'). simpl. eauto.
Qed.

Lemma cut_step_ok n e : cut_ok n → cut_event_ok e → ∃ n', cut_step control_worker n e = Some n' ∧ cut_ok n'.
Proof.
  intros Hok He. destruct e as [k|k|k outcome|k now busy|k outcome|k setup]; apply at_worker_ok; [done| |done| |done| |done| |done| |done|]; intros w Hk.
  1-2: eexists _, _; split; [done|by eapply unchanged_ok].
  - destruct (cw_reserved w) eqn:Hr; simpl; [eexists _, _; split; [done|by eapply unchanged_ok]|by apply poll_task_ok].
  - destruct (cw_reserved w) eqn:Hr; simpl; [eexists _, _; split; [done|by eapply unchanged_ok]|by apply poll_cut_ok].
  - apply poll_snapshot_ok; [done|done|]. intros s ->. exact He.
  - by apply poll_publish_ok.
Qed.

Lemma cut_run_ok n es : cut_ok n → Forall cut_event_ok es → ∃ n', cut_run control_worker n es = Some n' ∧ cut_ok n'.
Proof.
  intros Hok Hes. revert n Hok. induction Hes as [|e es He _ IH]; intros n Hok; cbn [cut_run]; [eauto|].
  destruct (cut_step_ok n e Hok He) as (n1 & -> & Hok1). apply IH, Hok1.
Qed.
End invariant.

(** A node after recovery: the sequence and slot of the newest checkpoint, and no cut yet. *)
Definition cut_node_new (last_sequence : N) (last_slot count : nat) : CutNode :=
  mkCutNode (mkCut [] CutPhase_Collecting 0 None 0 last_sequence last_slot) (replicate count cut_worker_new).

Lemma cut_node_new_ok control_worker last_sequence last_slot count : (last_slot <= 1)%nat → cut_ok control_worker (cut_node_new last_sequence last_slot count).
Proof.
  intros Hl. split; simpl; [done|done| |done|done|].
  - intros k w [-> _]%lookup_replicate_1. split; simpl; done.
  - by intros k w p shards [-> _]%lookup_replicate_1.
Qed.

(** C19: however the polls of the workers interleave and whatever their tasks answer, the coordinator never panics.  A publication
    that is reserved or under way belongs to the control worker alone, carries the current sequence and goes to the slot that does not
    hold the last successful one, while every worker keeps its snapshot of this cut frozen; the cut then has exactly one shard of each
    worker. *)
Theorem cut_run_safe control_worker last_sequence last_slot count es : (last_slot <= 1)%nat → Forall cut_event_ok es →
  ∃ n, cut_run control_worker (cut_node_new last_sequence last_slot count) es = Some n ∧
    (∀ k w p, cn_workers n !! k = Some w → cw_task w = Some p ∨ (∃ shards, cw_reserved w = Some (p, shards)) →
      k = control_worker ∧ pb_sequence p = cc_sequence (cn_cut n) ∧ pb_slot p ≠ cc_slot (cn_cut n) ∧ (pb_slot p <= 1)%nat ∧
      ∀ j v, cn_workers n !! j = Some v → contributed (cn_cut n) v) ∧
    (∀ k w p shards, cn_workers n !! k = Some w → cw_reserved w = Some (p, shards) →
      (sh_worker <$> shards) ≡ₚ (N.of_nat <$> seq 0 (length (cn_workers n)))) ∧
    (∀ k w, cn_workers n !! k = Some w → cw_frozen w = true → cw_generation w = cc_generation (cn_cut n)).
Proof.
  intros Hl Hes. destruct (cut_run_ok control_worker _ es (cut_node_new_ok control_worker last_sequence last_slot count Hl) Hes) as (n & Hn & Hok).
  exists n. split; [done|]. split; [|split; [intros; by eapply (co_reserved _ n Hok)|]].
  - intros k w p Hk Hp. pose proof (co_workers _ n Hok k w Hk) as [_ Ho _]. destruct (owner_publishing _ _ _ Ho) as [Hph Hctl]; [naive_solver|].
    pose proof Ho as Ho'. unfold owns in Ho'. rewrite Hph, Hctl in Ho'. destruct Ho' as (p' & [Hs Hsl] & Hor).
    assert (p' = p) as -> by naive_solver. destruct (slot_flip_le _ (co_slot _ n Hok)) as [Hle Hne]. rewrite Hsl. split; [by apply Nat.eqb_eq|]. split_and!; [done|done|done|].
    intros j v Hj. pose proof (wo_progress _ _ _ (co_workers _ n Hok j v Hj)) as Hw. assert (cc_generation (cn_cut n) ≠ 0) as H0.
    { intros H0. destruct (co_idle _ n Hok H0). congruence. }
    rewrite (proj2 (N.eqb_neq _ _)) in Hw by done. unfold progress_ok in Hw. rewrite Hph in Hw. apply Hw.
  - intros k w Hk Hf. pose proof (open_generation _ n k w Hok Hk (or_intror Hf)) as H0. pose proof (wo_progress _ _ _ (co_workers _ n Hok k w Hk)) as Hw.
    rewrite (proj2 (N.eqb_neq _ _)) in Hw by done. unfold progress_ok, at_rest, contributed in Hw.
    destruct (cc_phase (cn_cut n)); [destruct Hw as [_ [(_ & _ & ?)|[(? & _)|(? & _ & ?)]]]|destruct Hw as [(_ & _ & _ & ?)|(_ & _ & H)]|apply Hw|
      destruct Hw as [(_ & _ & _ & ?)|(_ & ? & _)]]; try congruence. apply H. by right.
Qed.

Definition sample_part (worker : N) : ShardImage := mkShardImage worker (mkCheckpointGeometry [] 8192 4096 2 4096 512 512) (mkIndexSnapshot [] []) [].
Definition sample_cut : list CutEvent :=
  [Cut_Start 0; Cut_Start 1; Cut_Poll 0 0 false; Cut_Poll 1 CUT_INTERVAL true; Cut_Poll 0 CUT_INTERVAL false; Cut_Snapshot 0 (Ok (sample_part 0));
   Cut_Poll 1 CUT_INTERVAL false; Cut_Poll 0 CUT_INTERVAL false; Cut_Snapshot 1 (Ok (sample_part 1)); Cut_Poll 1 CUT_INTERVAL false].

Lemma cut_run_safe_witness : ∃ n w, cut_run 1 (cut_node_new 41 0 2) sample_cut = Some n ∧ cn_workers n !! 1%nat = Some w ∧
  cw_reserved w = Some (mkCutPublication 42 1, [sample_part 0; sample_part 1]) ∧ ∀ j v, cn_workers n !! j = Some v → contributed (cn_cut n) v.
Proof.
  destruct (cut_run_safe 1 41 0 2 sample_cut ltac:(lia) ltac:(repeat constructor)) as (n & Hn & Howner & _). exists n. assert (∃ w, cn_workers n !! 1%nat = Some w ∧
    cw_reserved w = Some (mkCutPublication 42 1, [sample_part 0; sample_part 1])) as (w & Hw & Hr) by (vm_compute in Hn; injection Hn as <-; eexists; split; reflexivity).
  exists w. split; [exact Hn|]. split; [exact Hw|]. split; [exact Hr|]. destruct (Howner 1%nat w (mkCutPublication 42 1) Hw) as (_ & _ & _ & _ & H); [right; eauto|exact H].
Defined.

(** ** Acknowledgement *)

Lemma count_all {A} (P : A → Prop) `{∀ x, Decision (P x)} (l : list A) : length (filter P l) = length l ↔ ∀ x, x ∈ l → P x.
Proof.
  split.
  - intros Hl x Hx. destruct (decide (P x)) as [|Hn]; [done|]. pose proof (length_filter_lt P l x Hx Hn). lia.
  - intros Hall. induction l as [|x l IH]; [done|]. rewrite filter_cons_True by (apply Hall; by left). simpl. f_equal. apply IH. intros y Hy. apply Hall. by right.
Qed.

Section acknowledgement.
Context (control_worker : nat) (now : N) (busy : bool).

Definition acknowledged (c : CheckpointCut) (w : CutWorker) : CutWorker :=
  mkCutWorker (cw_started w) (cw_stopping w) (cw_task w) false 0 (cc_generation c) false (cw_reserved w).

Lemma result_generation n : cut_ok control_worker n → is_Some (cut_result (cn_cut n)) → cc_generation (cn_cut n) ≠ 0.
Proof. intros Hok [r Hr] H0. destruct (co_idle _ n Hok H0) as [Hp _]. unfold cut_result in Hr. by rewrite Hp in Hr. Qed.

Lemma acknowledge_step n k w : cut_ok control_worker n → is_Some (cut_result (cn_cut n)) → cn_workers n !! k = Some w → cw_started w = true →
  cw_completed w ≠ cc_generation (cn_cut n) →
  ∃ c', cut_step control_worker n (Cut_Poll k now busy) = Some (mkCutNode c' (<[k := acknowledged (cn_cut n) w]> (cn_workers n))) ∧
    cc_generation c' = cc_generation (cn_cut n) ∧ is_Some (cut_result c').
Proof.
  intros Hok Hr Hk Hst Ha. pose proof (result_generation n Hok Hr) as H0. destruct Hr as [r Hr].
  pose proof (wo_owns _ _ _ (co_workers _ n Hok k w Hk)) as Ho.
  assert (cw_reserved w = None) as Hre by (unfold owns, cut_result in *; destruct (cc_phase (cn_cut n)); naive_solver).
  assert (cc_finished (cn_cut n) ≠ length (cn_workers n)) as Hfin.
  { rewrite (co_finished _ n Hok H0). unfold acked_count. intros Hall. apply (count_all (λ w, cw_completed w = cc_generation (cn_cut n))) with (x := w) in Hall; [done|].
    by eapply list_elem_of_lookup_2. }
  simpl. unfold at_worker. rewrite Hk, Hre. cbn [is_some]. unfold poll_cut. rewrite Hst. cbn [negb cc_generation cc_finished].
  rewrite (proj2 (N.eqb_neq _ _)), (proj2 (Nat.eqb_neq _ _)) by done. cbn [orb]. unfold poll_open, publication_started, cut_fail, cut_finish. cbn [cc_phase].
  destruct (cc_phase (cn_cut n)) eqn:Hp; unfold cut_result in Hr; rewrite Hp in Hr; [done| |done|]; destruct (cw_stopping w) eqn:Hs; cbn [andb negb mbind option_bind];
    unfold publication_started; cbn [cc_phase cut_result is_some with_cut_phase mbind option_bind]; unfold acknowledge; cbn [cc_generation with_cut_phase];
    (rewrite (proj2 (N.eqb_neq _ _)) by done); eexists; (split; [unfold acknowledged; rewrite Hs; reflexivity|by split; [|eexists]]).
Qed.

Lemma acknowledge_all order n : cut_ok control_worker n → is_Some (cut_result (cn_cut n)) → (∀ w, w ∈ cn_workers n → cw_started w = true) → NoDup order →
  (∀ k, k ∈ order ↔ ∃ w, cn_workers n !! k = Some w ∧ cw_completed w ≠ cc_generation (cn_cut n)) →
  ∃ n', cut_run control_worker n ((λ k, Cut_Poll k now busy) <$> order) = Some n' ∧ cut_ok control_worker n' ∧ is_Some (cut_result (cn_cut n')) ∧
    cc_generation (cn_cut n') = cc_generation (cn_cut n) ∧ ∀ w, w ∈ cn_workers n' → cw_completed w = cc_generation (cn_cut n').
Proof.
  revert n. induction order as [|k order IH]; intros n Hok Hr Hst Hnd Hin.
  { exists n. split_and!; [done..|]. intros w [k Hk]%list_elem_of_lookup. destruct (decide (cw_completed w = cc_generation (cn_cut n))); [done|].
    assert (k ∈ []) as H by (apply Hin; eauto). by apply elem_of_nil in H. }
  destruct (proj1 (Hin k) ltac:(by left)) as (w & Hk & Ha). apply NoDup_cons in Hnd as [Hnk Hnd].
  destruct (acknowledge_step n k w Hok Hr Hk (Hst w ltac:(by eapply list_elem_of_lookup_2)) Ha) as (c' & Hs & Hg & Hr').
  destruct (cut_step_ok control_worker n (Cut_Poll k now busy) Hok I) as (n1 & Hn1 & Hok1). rewrite Hs in Hn1. injection Hn1 as <-. cbn [fmap list_fmap cut_run].
  rewrite Hs. cbn [mbind option_bind]. destruct (IH (mkCutNode c' (<[k := acknowledged (cn_cut n) w]> (cn_workers n)))) as (n' & Hrun & ? & ? & Hg' & ?); [done|done|..|done| |].
  - simpl. intros v [j Hj]%list_elem_of_lookup. destruct (lookup_updated _ _ _ _ _ _ Hk Hj) as [[-> ->]|[_ Hv]]; [simpl|]; apply Hst; by eapply list_elem_of_lookup_2.
  - simpl. intros j. split.
    + intros Hj. destruct (proj1 (Hin j) ltac:(by right)) as (v & Hv & Hne). exists v. rewrite list_lookup_insert_ne by congruence. split; [done|congruence].
    + intros (v & Hv & Hne). destruct (lookup_updated _ _ _ _ _ _ Hk Hv) as [[-> ->]|[Hjk Hv']]; [by rewrite Hg in Hne|].
      assert (j ∈ k :: order) as [?|?]%elem_of_cons; [apply Hin; exists v; split; [done|congruence]|done|done].
  - exists n'. simpl in Hg'. split_and!; [done..|congruence|done].
Qed.

(** C20: once every worker has started, a cut that has a result ends: one poll of each worker that has not acknowledged it, in any order and whatever they
    are doing, closes the cut, with every snapshot thawed and no publication left. *)
Theorem result_acknowledged last_sequence last_slot count es n order : (last_slot <= 1)%nat → Forall cut_event_ok es →
  cut_run control_worker (cut_node_new last_sequence last_slot count) es = Some n → is_Some (cut_result (cn_cut n)) →
  (∀ w, w ∈ cn_workers n → cw_started w = true) → NoDup order →
  (∀ k, k ∈ order ↔ ∃ w, cn_workers n !! k = Some w ∧ cw_completed w ≠ cc_generation (cn_cut n)) →
  ∃ n', cut_run control_worker n ((λ k, Cut_Poll k now busy) <$> order) = Some n' ∧ cc_finished (cn_cut n') = length (cn_workers n') ∧
    ∀ w, w ∈ cn_workers n' → at_rest w ∧ cw_task w = None ∧ cw_reserved w = None.
Proof.
  intros Hl Hes Hrun Hr Hst Hnd Hin. destruct (cut_run_ok control_worker _ es (cut_node_new_ok control_worker last_sequence last_slot count Hl) Hes) as (n0 & Hn0 & Hok).
  rewrite Hrun in Hn0. injection Hn0 as <-. destruct (acknowledge_all order n Hok Hr Hst Hnd Hin) as (n' & Hn' & Hok' & Hr' & Hg & Hall). exists n'. split; [done|].
  pose proof (result_generation n' Hok' Hr') as H0. split; [rewrite (co_finished _ n' Hok' H0); by apply count_all|].
  intros w Hw. pose proof (Hall w Hw) as Ha. apply list_elem_of_lookup in Hw as [k Hk]. pose proof (co_workers _ n' Hok' k w Hk) as [_ Ho Hp].
  rewrite (proj2 (N.eqb_neq _ _)) in Hp by done. destruct Hr' as [r Hr']. unfold owns, progress_ok, cut_result, acked in *.
  destruct (cc_phase (cn_cut n')); [done| |done|]; (split; [|done]); naive_solver.
Qed.
End acknowledgement.

Definition sample_ended : list CutEvent := sample_cut ++ [Cut_Publish 1 (Ok ()); Cut_Stop 0; Cut_Task 1 (Err StoreError_Io)].

Lemma result_acknowledged_witness : ∃ n n', cut_run 1 (cut_node_new 41 0 2) sample_ended = Some n ∧ cut_result (cn_cut n) = Some (Err StoreError_Io) ∧
  cut_run 1 n [Cut_Poll 1 CUT_INTERVAL false; Cut_Poll 0 CUT_INTERVAL false] = Some n' ∧ ∀ w, w ∈ cn_workers n' → at_rest w.
Proof.
  destruct (cut_run 1 (cut_node_new 41 0 2) sample_ended) as [n|] eqn:Hn; [|vm_compute in Hn; discriminate Hn]. pose proof Hn as Hv. vm_compute in Hv. injection Hv as Hv.
  destruct (result_acknowledged 1 CUT_INTERVAL false 41 0 2 sample_ended n [1; 0]%nat) as (n' & Hrun & _ & Hall).
  - clear; lia.
  - vm_compute. repeat constructor.
  - exact Hn.
  - clear Hn; subst n. by eexists.
  - clear Hn; subst n. intros w Hw. cbn [cn_workers] in Hw. repeat (apply elem_of_cons in Hw as [->|Hw]; [done|]). by apply elem_of_nil in Hw.
  - clear. apply (bool_decide_eq_true (NoDup [1; 0]%nat)). by vm_compute.
  - clear Hn; subst n. intros k. cbn [cn_workers cn_cut cc_generation]. split; [intros Hk; repeat (apply elem_of_cons in Hk as [->|Hk]; [by eexists|]); by apply elem_of_nil in Hk|].
    intros (w & Hk & _). destruct k as [|[|k]]; [right; left|left|done].
  - exists n, n'. split; [reflexivity|]. split; [clear Hn; by subst n|]. split; [exact Hrun|]. intros w Hw. exact (proj1 (Hall w Hw)).
Defined.
