(* ===== verification/Lanes.v ===== *)
(** * Recency indexes: ticks and lanes

    The shared part of the memory cache's two recency structures, from
    [cmd/racer/core/src/cache.rs]: the per-lane tick order ([Lanes]), the wrapping cursors
    every bounded pass uses, and the consistency between entries, their ticks, the tick
    order and the lanes.  A [BTreeMap] is a [gmap] iterated with [btree_iter]; ticks are
    [u64] values in [N].  The trait [Grouping] is a class. *)

From S2P Require Import Prelude.

(** The trait [Grouping]: the lane of a key, or [None] to track no lanes. *)
Class Grouping (K G : Type) := group : K → option G.

Definition RECLAIM_WINDOW : nat := 256.
Definition PRESSURE_WINDOW : nat := 8.

(** ** Lanes *)
Section lanes.
Context {G K : Type} `{Ord G}.

Record Lane : Type := mkLane {
  lane_order : gmap N K;
  lane_after : N;
}.

Definition lane_default : Lane := mkLane ∅ 0.

(** [Lanes<G, K>] wraps the map from lane identifiers to lanes. *)
#[local] Notation Lanes := (gmap G Lane).

(** [Lanes::insert]. *)
Definition lanes_insert (g : option G) (tick : N) (id : K) (l : Lanes) : Lanes :=
  match g with
  | Some g =>
      let lane := default lane_default (l !! g) in
      <[g := mkLane (<[tick := id]> (lane_order lane)) (lane_after lane)]> l
  | None => l
  end.

(** [Lanes::remove]. *)
Definition lanes_remove (g : option G) (tick : N) (l : Lanes) : Lanes :=
  match g with
  | None => l
  | Some g =>
      match l !! g with
      | None => l
      | Some lane =>
          let order := delete tick (lane_order lane) in
          if bool_decide (size order = 0) then delete g l
          else <[g := mkLane order (lane_after lane)]> l
      end
  end.

(** [Lanes::candidates]. *)
Definition lanes_candidates (g : G) (l : Lanes) : list (N * K) :=
  match l !! g with
  | None => []
  | Some lane => take RECLAIM_WINDOW (wrap_from (lane_order lane) (lane_after lane))
  end.

(** [Lanes::advance]. *)
Definition lanes_advance (g : G) (tick : N) (l : Lanes) : Lanes :=
  match l !! g with
  | None => l
  | Some lane => <[g := mkLane (lane_order lane) tick]> l
  end.

(** [Lanes::window]. *)
Definition lanes_window (cursor : option G) (l : Lanes) : list G :=
  let keys := match cursor with
              | Some c => wrap_from l c
              | None => btree_iter ord_le l
              end in
  (take PRESSURE_WINDOW keys).*1.

(** What the lanes record: the key at a tick of a lane. *)
Definition lane_at (l : Lanes) (g : G) (t : N) : option K := l !! g ≫= λ lane, lane_order lane !! t.

Definition no_empty_lane (l : Lanes) : Prop := ∀ g lane, l !! g = Some lane → lane_order lane ≠ ∅.

Lemma lane_at_insert l g t id g' t' :
  lane_at (lanes_insert (Some g) t id l) g' t' =
  if decide (g = g' ∧ t = t') then Some id else lane_at l g' t'.
Proof.
  unfold lane_at, lanes_insert. destruct (decide (g = g')) as [->|Hg].
  - rewrite lookup_insert_eq. simpl. destruct (decide (t = t')) as [->|Ht].
    + by rewrite lookup_insert_eq, decide_True.
    + rewrite lookup_insert_ne, decide_False by naive_solver.
      by destruct (l !! g').
  - rewrite lookup_insert_ne, decide_False by naive_solver. done.
Qed.

Lemma lane_at_remove l g t g' t' :
  lane_at (lanes_remove (Some g) t l) g' t' =
  if decide (g = g' ∧ t = t') then None else lane_at l g' t'.
Proof.
  unfold lane_at, lanes_remove. destruct (l !! g) as [lane|] eqn:E.
  2:{ destruct (decide _) as [[-> ->]|]; [by rewrite E|done]. }
  destruct (decide (g = g')) as [->|Hg].
  - rewrite E. simpl. destruct (bool_decide _) eqn:Hb.
    + rewrite lookup_delete_eq. simpl. apply bool_decide_eq_true, map_size_empty_iff in Hb.
      destruct (decide _) as [|Hn]; [done|].
      rewrite <- (lookup_delete_ne (lane_order lane) t) by naive_solver. by rewrite Hb.
    + rewrite lookup_insert_eq. simpl. destruct (decide _) as [[_ ->]|Hn].
      * by rewrite lookup_delete_eq.
      * by rewrite lookup_delete_ne by naive_solver.
  - rewrite (decide_False (P := _ ∧ _)) by naive_solver.
    destruct (bool_decide _); [by rewrite lookup_delete_ne|by rewrite lookup_insert_ne].
Qed.

Lemma lane_at_advance l g t g' t' : lane_at (lanes_advance g t l) g' t' = lane_at l g' t'.
Proof.
  unfold lane_at, lanes_advance. destruct (l !! g) as [lane|] eqn:E; [|done].
  destruct (decide (g = g')) as [->|]; [by rewrite lookup_insert_eq, E|by rewrite lookup_insert_ne].
Qed.

Lemma no_empty_insert l g t id : no_empty_lane l → no_empty_lane (lanes_insert g t id l).
Proof.
  intros Hl. destruct g as [g|]; [|done]. intros g' lane. unfold lanes_insert.
  destruct (decide (g = g')) as [->|].
  - rewrite lookup_insert_eq. intros [= <-]. apply insert_non_empty.
  - rewrite lookup_insert_ne by done. apply Hl.
Qed.

Lemma no_empty_remove l g t : no_empty_lane l → no_empty_lane (lanes_remove g t l).
Proof.
  intros Hl. destruct g as [g|]; [|done]. unfold lanes_remove.
  destruct (l !! g) as [lane|]; [|done]. intros g' lane'. destruct (bool_decide _) eqn:Hb.
  - intros [_ ?]%lookup_delete_Some. by eapply Hl.
  - intros [[_ <-]|[_ ?]]%lookup_insert_Some; [|by eapply Hl].
    apply bool_decide_eq_false in Hb. simpl. by rewrite <- map_size_empty_iff.
Qed.

Lemma no_empty_advance l g t : no_empty_lane l → no_empty_lane (lanes_advance g t l).
Proof.
  intros Hl. unfold lanes_advance. destruct (l !! g) as [lane|] eqn:E; [|done].
  intros g' lane' [[_ <-]|[_ ?]]%lookup_insert_Some; [simpl; by eapply Hl|by eapply Hl].
Qed.
End lanes.
Arguments Lane : clear implicits.

(** ** Rotation of the pressure window

    The caller's next cursor is the last lane of the window it examined. *)
Section rotation.
Context {G K : Type} `{Ord G}.
Implicit Types l : gmap G (Lane K).

(** The lanes examined by [n] consecutive passes over an unchanged index. *)
Fixpoint passes (n : nat) (cursor : option G) l : list G :=
  match n with
  | 0 => []
  | S n =>
      let w := lanes_window cursor l in
      w ++ passes n (match last w with Some g => Some g | None => cursor end) l
  end.

Definition sweep_order (cursor : option G) l : list (G * Lane K) :=
  match cursor with
  | Some c => wrap_from l c
  | None => btree_iter ord_le l
  end.

(** The sweep order splits the iteration at one place. *)
Lemma sweep_order_split cursor l :
  ∃ A B, btree_iter ord_le l = A ++ B ∧ sweep_order cursor l = B ++ A.
Proof.
  destruct cursor as [c|]; simpl; [|by exists [], (btree_iter ord_le l); rewrite app_nil_r].
  exists (filter (λ p, ord_le p.1 c) (btree_iter ord_le l)),
    (filter (λ p, ¬ ord_le p.1 c) (btree_iter ord_le l)).
  split; [|done]. pose proof (btree_iter_sorted ord_le l) as Hs.
  induction Hs as [|p L Hs IH Hall]; [done|]. rewrite !filter_cons.
  destruct (decide (ord_le p.1 c)) as [Hle|Hgt], (decide (¬ ord_le p.1 c)); try done.
  - simpl. by rewrite <- IH.
  - assert (∀ q, q ∈ L → ¬ ord_le q.1 c) as HL.
    { intros q Hq Hqc. apply Hgt. rewrite Forall_forall in Hall. specialize (Hall q Hq).
      unfold key_le in Hall. by etrans. }
    rewrite (filter_none (λ p, ord_le p.1 c) L) by done.
    by rewrite (filter_all (λ p, ¬ ord_le p.1 c) L) by done.
Qed.

(** A pass moves the lanes it examined to the back of the sweep. *)
Lemma sweep_order_rotate cursor l W R g lane :
  sweep_order cursor l = (W ++ [(g, lane)]) ++ R → sweep_order (Some g) l = R ++ W ++ [(g, lane)].
Proof.
  destruct (sweep_order_split cursor l) as (A & B & HAB & ->). intros E.
  apply app_eq_app in E as [C [[-> ->]|[E ->]]]; simpl.
  - rewrite (wrap_from_cut l (A ++ W) g lane C) by (rewrite HAB; by simplify_list_eq).
    by rewrite !(assoc_L (++)).
  - destruct C as [|c C' _] using rev_ind.
    + rewrite app_nil_r in E. subst B. simpl in *.
      rewrite (wrap_from_cut l (R ++ W) g lane []) by (rewrite HAB; by simplify_list_eq).
      simpl. by rewrite <- (assoc_L (++)).
    + rewrite (assoc_L (++)) in E. apply app_inj_tail in E as [-> <-].
      rewrite (wrap_from_cut l C' g lane (R ++ B)) by (rewrite HAB; by simplify_list_eq).
      by rewrite !(assoc_L (++)).
Qed.

Lemma passes_cover n cursor l R D p :
  sweep_order cursor l = R ++ D → length R ≤ n * PRESSURE_WINDOW → p ∈ R → p.1 ∈ passes n cursor l.
Proof.
  revert cursor R D. induction n as [|n IH]; intros cursor R D E Hlen Hp.
  { destruct R; [by apply elem_of_nil in Hp|simpl in Hlen; lia]. }
  assert (lanes_window cursor l = (take PRESSURE_WINDOW (sweep_order cursor l)).*1) as Hw by done.
  simpl. rewrite Hw, E, elem_of_app. clear Hw.
  destruct (decide (length R ≤ PRESSURE_WINDOW)) as [Hs|Hs].
  { left. apply list_elem_of_fmap. exists p. split; [done|].
    rewrite take_app_ge by done. apply elem_of_app. by left. }
  rewrite take_app_le by lia. rewrite <- (take_drop PRESSURE_WINDOW R) in E, Hp.
  destruct (take PRESSURE_WINDOW R) as [|[g lane] W _] eqn:ET using rev_ind.
  { apply (f_equal length) in ET. rewrite length_take, length_nil in ET.
    unfold PRESSURE_WINDOW in *. lia. }
  rewrite fmap_app. change [(g, lane)].*1 with [g]. rewrite last_snoc. apply elem_of_app in Hp as [Hp|Hp].
  { left. change [g] with [(g, lane)].*1. rewrite <- fmap_app. by apply list_elem_of_fmap_2. }
  right. apply (IH _ (drop PRESSURE_WINDOW R) (D ++ W ++ [(g, lane)])).
  - rewrite <- (assoc_L (++)) in E. rewrite (sweep_order_rotate cursor l W (drop PRESSURE_WINDOW R ++ D) g lane E).
    by rewrite <- (assoc_L (++)).
  - rewrite length_drop. unfold PRESSURE_WINDOW in *. lia.
  - done.
Qed.

(** Pressure passes are fair.  Whatever lane the cursor names, present or already gone,
    [ceil(lanes / PRESSURE_WINDOW)] passes over an unchanged index, each resuming after the
    last lane the previous one examined, examine every lane. *)
Theorem window_covers_every_lane cursor l g lane :
  l !! g = Some lane →
  g ∈ passes ((size l + PRESSURE_WINDOW - 1) / PRESSURE_WINDOW) cursor l.
Proof.
  intros Hg. apply (passes_cover _ cursor l (sweep_order cursor l) [] (g, lane)).
  - by rewrite app_nil_r.
  - destruct (sweep_order_split cursor l) as (A & B & HAB & ->).
    pose proof (btree_iter_length ord_le l) as Hl. rewrite HAB, length_app in Hl.
    rewrite length_app, (Nat.add_comm (length B)), Hl. unfold PRESSURE_WINDOW.
    pose proof (Nat.div_mod_eq (size l + 8 - 1) 8).
    pose proof (Nat.mod_upper_bound (size l + 8 - 1) 8). lia.
  - destruct cursor; simpl; [by apply elem_of_wrap_from|by apply elem_of_btree_iter].
Qed.
End rotation.

(** Eleven lanes, the cursor on a lane that is no longer there. *)
Definition eleven_lanes : gmap N (Lane N) :=
  foldr (λ g l, lanes_insert (Some g) g g l) ∅ [0; 1; 2; 3; 4; 5; 6; 7; 8; 10; 11]%N.

Lemma window_covers_every_lane_witness : 8%N ∈ passes 2 (Some 9%N) eleven_lanes.
Proof.
  destruct (eleven_lanes !! 8%N) as [lane|] eqn:E; [|vm_compute in E; discriminate].
  exact (window_covers_every_lane (Some 9%N) eleven_lanes 8%N lane E).
Defined.
