(* ===== verification/Cache.v ===== *)
(** * The memory cache's recency structures

    [TickLru] (verified entries, one unique recency tick each) and [OrderedLru] (unverified
    entries in key order, with a tick per entry) from [cmd/racer/core/src/cache.rs], every
    operation with its lanes.  Indexing a [HashMap] with a missing key panics: operations
    that index return [option], [None] being the panic.  [FnMut] visitors are functions over
    an explicit state. *)

From S2P Require Import Prelude Lanes.

(** ** Consistency of entries, ticks, tick order and lanes *)
Section index.
Context {K G : Type} `{Countable K} `{Ord G} `{Grouping K G}.
Implicit Types (ticks : gmap K N) (order : gmap N K) (lanes : gmap G (Lane K)).

Record index_ok ticks order lanes (clock : N) : Prop := {
  ix_sync : ∀ id t, ticks !! id = Some t ↔ order !! t = Some id;
  ix_range : ∀ t id, order !! t = Some id → (0 < t ≤ clock)%N;
  ix_lane : ∀ g t id, lane_at lanes g t = Some id ↔ order !! t = Some id ∧ group id = Some g;
  ix_full : no_empty_lane lanes;
}.

Lemma index_empty clock : index_ok ∅ ∅ ∅ clock.
Proof.
  split; [|done| |done].
  - intros. by rewrite !lookup_empty.
  - intros. unfold lane_at. rewrite !lookup_empty. naive_solver.
Qed.

Lemma index_remove ticks order lanes clock id t :
  index_ok ticks order lanes clock → ticks !! id = Some t →
  index_ok (delete id ticks) (delete t order) (lanes_remove (group id) t lanes) clock.
Proof.
  intros [Hs Hr Hl Hf] Hid. pose proof (proj1 (Hs id t) Hid) as Ht. split.
  - intros id' t'. rewrite !lookup_delete_Some, Hs.
    split; intros [Hne Ho]; (split; [|done]); intros ->; [congruence|].
    apply Hs in Ho. congruence.
  - intros t' id' [_ ?]%lookup_delete_Some. by eapply Hr.
  - intros g t' id'. rewrite lookup_delete_Some.
    destruct (group id) as [g0|] eqn:Eg; [rewrite lane_at_remove; destruct (decide _) as [[-> ->]|Hn]|];
      [naive_solver|rewrite Hl|simpl; rewrite Hl];
      (split; [intros [? ?]; split_and!; try done; intros ->; naive_solver congruence|naive_solver]).
  - by apply no_empty_remove.
Qed.

Lemma index_insert ticks order lanes clock id t :
  index_ok ticks order lanes clock → ticks !! id = None → (clock < t)%N →
  index_ok (<[id := t]> ticks) (<[t := id]> order) (lanes_insert (group id) t id lanes) t.
Proof.
  intros [Hs Hr Hl Hf] Hid Hc.
  assert (order !! t = None) as Ht.
  { destruct (order !! t) as [id'|] eqn:E; [|done]. apply Hr in E. lia. }
  split.
  - intros id' t'. rewrite !lookup_insert_Some, Hs. split.
    + intros [[-> ->]|[Hne ?]]; [by left|right; split; [|done]]. intros ->. congruence.
    + intros [[-> ->]|[Hne Ho]]; [by left|right; split; [|done]]. intros <-.
      apply Hs in Ho. congruence.
  - intros t' id' [[<- _]|[_ Ho]]%lookup_insert_Some; [lia|]. apply Hr in Ho. lia.
  - intros g t' id'. rewrite lookup_insert_Some.
    destruct (group id) as [g0|] eqn:Eg; [rewrite lane_at_insert; destruct (decide _) as [[-> ->]|Hn]|].
    + split; [intros [= ->]; split; [by left|done]|intros [[[_ ->]|[? _]] _]; done].
    + rewrite Hl. split.
      * intros [Ho ?]. split; [right|done]. split; [|done]. intros ->. congruence.
      * intros [[[-> ->]|[? ?]] Hg]; [|done]. rewrite Hg in Eg. naive_solver.
    + simpl. rewrite Hl. split.
      * intros [Ho ?]. split; [right|done]. split; [|done]. intros ->. congruence.
      * intros [[[-> ->]|[? ?]] Hg]; [congruence|done].
  - by apply no_empty_insert.
Qed.

Lemma index_later ticks order lanes clock clock' :
  index_ok ticks order lanes clock → (clock ≤ clock')%N → index_ok ticks order lanes clock'.
Proof. intros [Hs Hr Hl Hf] Hc. split; [done| |done|done]. intros t id Ht%Hr. lia. Qed.

Lemma index_advance ticks order lanes clock g t :
  index_ok ticks order lanes clock → index_ok ticks order (lanes_advance g t lanes) clock.
Proof.
  intros [Hs Hr Hl Hf]. split; [done|done| |by apply no_empty_advance].
  intros. by rewrite lane_at_advance.
Qed.
End index.

(** What a reclamation visitor wants done with one entry. *)
Inductive Visit := Visit_Skip | Visit_Remove | Visit_Last | Visit_Stop.

#[export] Instance Visit_eq_dec : EqDecision Visit.
Proof. solve_decision. Defined.

(** Tick exhaustion. *)
Inductive ExhaustedError := Exhausted.

(** [expiring]: at most [batch] entries with ticks in [(after, cutoff]], oldest first, and
    the cursor of the next batch. *)
Definition expiring {K} (order : gmap N K) (after cutoff : N) (batch : nat) :
    list (N * K) * option N :=
  let selected :=
    take batch (filter (λ p, after < p.1 ∧ p.1 ≤ cutoff)%N (btree_iter ord_le order)) in
  let next := if bool_decide (length selected = batch) then fst <$> last selected else None in
  (selected, next).

(** ** TickLru *)
Section tick_lru.
Context {K V G : Type} `{Countable K} `{Ord G} `{Grouping K G}.

Record TickLru : Type := mkTickLru {
  pages : gmap K (N * V);
  lru : gmap N K;
  clock : N;
  reclaim_after : N;
  lanes : gmap G (Lane K);
}.

Definition tick_default : TickLru := mkTickLru ∅ ∅ 0 0 ∅.

(** [TickLru::remove]. *)
Definition tick_remove (l : TickLru) (id : K) : option V * TickLru :=
  match pages l !! id with
  | None => (None, l)
  | Some (tick, value) =>
      (Some value,
       mkTickLru (delete id (pages l)) (delete tick (lru l)) (clock l) (reclaim_after l)
                 (lanes_remove (group id) tick (lanes l)))
  end.

(** [TickLru::insert]. *)
Definition tick_insert (l : TickLru) (id : K) (value : V) : result () ExhaustedError * TickLru :=
  match checked_add U64_MAX (clock l) 1 with
  | None => (Err Exhausted, l)
  | Some c =>
      (Ok (),
       mkTickLru (<[id := (c, value)]> (pages l)) (<[c := id]> (lru l)) c (reclaim_after l)
                 (lanes_insert (group id) c id (lanes l)))
  end.

(** [TickLru::touch]. *)
Definition tick_touch (l : TickLru) (id : K) : result () ExhaustedError * TickLru :=
  match pages l !! id with
  | None => (Ok (), l)
  | Some (old, value) =>
      match checked_add U64_MAX (clock l) 1 with
      | None => (Err Exhausted, l)
      | Some tick =>
          (Ok (),
           mkTickLru (<[id := (tick, value)]> (pages l)) (<[tick := id]> (delete old (lru l))) tick
                     (reclaim_after l)
                     (lanes_insert (group id) tick id (lanes_remove (group id) old (lanes l))))
      end
  end.

(** [TickLru::candidates]. *)
Definition tick_candidates (l : TickLru) : list (N * K) :=
  take RECLAIM_WINDOW (wrap_from (lru l) (reclaim_after l)).

Definition set_cursor (l : TickLru) (tick : N) : TickLru :=
  mkTickLru (pages l) (lru l) (clock l) tick (lanes l).

Definition set_lanes (l : TickLru) (ls : gmap G (Lane K)) : TickLru :=
  mkTickLru (pages l) (lru l) (clock l) (reclaim_after l) ls.

(** [TickLru::victim]: [find_map] over the candidates. *)
Fixpoint victim_scan {S} (idle : S → V → bool * S) (cs : list (N * K)) (s : S) (l : TickLru) :
    option (option K * S * TickLru) :=
  match cs with
  | [] => Some (None, s, l)
  | (tick, id) :: cs =>
      let l := set_cursor l tick in
      match pages l !! id with
      | None => None
      | Some (_, v) =>
          let '(b, s) := idle s v in
          if b : bool then Some (Some id, s, l) else victim_scan idle cs s l
      end
  end.

Definition victim {S} (idle : S → V → bool * S) (s : S) (l : TickLru) :
    option (option K * S * TickLru) :=
  victim_scan idle (tick_candidates l) s l.

(** [TickLru::reclaim]: the candidates are collected before the loop mutates the index. *)
Fixpoint reclaim_scan {S} (visit : S → K → V → Visit * S) (cs : list (N * K)) (s : S)
    (l : TickLru) : option (S * TickLru) :=
  match cs with
  | [] => Some (s, l)
  | (tick, id) :: cs =>
      match pages l !! id with
      | None => None
      | Some (_, v) =>
          let '(decision, s) := visit s id v in
          if bool_decide (decision = Visit_Stop) then Some (s, l)
          else
            let l := set_cursor l tick in
            match decision with
            | Visit_Remove => reclaim_scan visit cs s (tick_remove l id).2
            | Visit_Last => Some (s, l)
            | Visit_Skip | Visit_Stop => reclaim_scan visit cs s l
            end
      end
  end.

Definition reclaim {S} (visit : S → K → V → Visit * S) (s : S) (l : TickLru) : option (S * TickLru) :=
  reclaim_scan visit (tick_candidates l) s l.

(** [TickLru::expiring]. *)
Definition tick_expiring (l : TickLru) (after cutoff : N) (batch : nat) :=
  expiring (lru l) after cutoff batch.

(** The index is consistent: every entry has one tick, the order and the lanes hold exactly
    the entries, no empty lane is kept. *)
Definition tick_inv (l : TickLru) : Prop := index_ok (fst <$> pages l) (lru l) (lanes l) (clock l).

Lemma tick_inv_default : tick_inv tick_default.
Proof. unfold tick_inv. simpl. rewrite fmap_empty. apply index_empty. Qed.

Lemma tick_inv_remove l id : tick_inv l → tick_inv (tick_remove l id).2.
Proof.
  unfold tick_inv, tick_remove. intros Hl. destruct (pages l !! id) as [[t v]|] eqn:E; [|done].
  simpl. rewrite fmap_delete. apply index_remove; [done|]. by rewrite lookup_fmap, E.
Qed.

Lemma tick_inv_insert l id v :
  tick_inv l → pages l !! id = None → tick_inv (tick_insert l id v).2.
Proof.
  unfold tick_inv, tick_insert. intros Hl E. destruct (checked_add _ _ _) as [c|] eqn:Ec; [|done].
  apply checked_add_Some in Ec as [_ ->]. simpl. rewrite fmap_insert.
  apply index_insert with (clock := clock l); [done|by rewrite lookup_fmap, E|lia].
Qed.

Lemma tick_inv_touch l id : tick_inv l → tick_inv (tick_touch l id).2.
Proof.
  unfold tick_inv, tick_touch. intros Hl. destruct (pages l !! id) as [[t v]|] eqn:E; [|done].
  destruct (checked_add _ _ _) as [c|] eqn:Ec; [|done]. apply checked_add_Some in Ec as [_ ->].
  simpl. rewrite fmap_insert, <- (insert_delete_eq (fst <$> pages l)).
  apply index_insert with (clock := clock l); [|by rewrite lookup_delete_eq|lia].
  apply index_remove; [done|]. by rewrite lookup_fmap, E.
Qed.

Lemma tick_inv_cursor l t : tick_inv l → tick_inv (set_cursor l t).
Proof. done. Qed.

Lemma tick_inv_advance l g t : tick_inv l → tick_inv (set_lanes l (lanes_advance g t (lanes l))).
Proof. apply index_advance. Qed.

Lemma tick_inv_page l t id : tick_inv l → lru l !! t = Some id → ∃ v, pages l !! id = Some (t, v).
Proof.
  intros Hl Ht. apply (ix_sync _ _ _ _ Hl) in Ht. rewrite lookup_fmap in Ht.
  destruct (pages l !! id) as [[t' v]|]; naive_solver.
Qed.

Lemma elem_of_tick_candidates l t id : (t, id) ∈ tick_candidates l → lru l !! t = Some id.
Proof.
  intros Hc. apply (elem_of_wrap_from _ (reclaim_after l)).
  unfold tick_candidates in Hc. rewrite <- (take_drop RECLAIM_WINDOW), elem_of_app. by left.
Qed.

Lemma tick_candidates_NoDup l : tick_inv l → NoDup (tick_candidates l).*2.
Proof.
  intros Hl. unfold tick_candidates. apply NoDup_fmap_2_strong.
  - intros [t1 id1] [t2 id2] Hc1%elem_of_tick_candidates Hc2%elem_of_tick_candidates Heq.
    simpl in Heq. subst id2. apply (ix_sync _ _ _ _ Hl) in Hc1, Hc2. congruence.
  - apply sublist_NoDup with (wrap_from (lru l) (reclaim_after l)); [|apply sublist_take].
    eapply NoDup_fmap_1, wrap_from_NoDup.
Qed.

(** The decisions of a visitor that sees the entries as they were before the pass. *)
Fixpoint verdicts {S} (visit : S → K → V → Visit * S) (cs : list (N * K)) (s : S)
    (m : gmap K (N * V)) : list (N * K * Visit) * S :=
  match cs with
  | [] => ([], s)
  | (tick, id) :: cs =>
      match m !! id with
      | None => ([], s)
      | Some (_, v) =>
          let '(d, s) := visit s id v in
          match d with
          | Visit_Stop | Visit_Last => ([(tick, id, d)], s)
          | Visit_Skip | Visit_Remove =>
              let '(ds, s) := verdicts visit cs s m in ((tick, id, d) :: ds, s)
          end
      end
  end.

Definition removed (ds : list (N * K * Visit)) : list K :=
  (filter (λ d, d.2 = Visit_Remove) ds).*1.*2.

Definition cursor_after (ds : list (N * K * Visit)) (start : N) : N :=
  default start (last (filter (λ d, d.2 ≠ Visit_Stop) ds).*1.*1).

Lemma verdicts_ext {S} (visit : S → K → V → Visit * S) cs s m m' :
  (∀ id, id ∈ cs.*2 → m !! id = m' !! id) → verdicts visit cs s m = verdicts visit cs s m'.
Proof.
  revert s. induction cs as [|[t id] cs IH]; intros s Hm; [done|]. simpl.
  rewrite <- (Hm id) by (csimpl; left). destruct (m !! id) as [[? v]|]; [|done].
  destruct (visit s id v) as [[] s']; try done;
    (rewrite IH; [done|]; intros id' Hid'; apply Hm; csimpl; by right).
Qed.

Lemma filter_removed_nil (m : gmap K (N * V)) : filter (λ p, p.1 ∉ @nil K) m = m.
Proof. apply map_filter_id. intros ? ? ?. apply not_elem_of_nil. Qed.

Lemma cursor_after_cons t id d ds start :
  d ≠ Visit_Stop → cursor_after ((t, id, d) :: ds) start = cursor_after ds t.
Proof.
  intros Hd. unfold cursor_after. rewrite filter_cons_True by done. rewrite !fmap_cons, last_cons.
  by destruct (last _).
Qed.

Lemma removed_cons t id d ds :
  removed ((t, id, d) :: ds) = (if decide (d = Visit_Remove) then [id] else []) ++ removed ds.
Proof. unfold removed. rewrite filter_cons. by simpl; destruct (decide (d = Visit_Remove)). Qed.

(** The loop acts as if every decision had been taken on the entries before the pass. *)
Lemma reclaim_scan_spec {S} (visit : S → K → V → Visit * S) cs s l :
  tick_inv l → NoDup cs.*2 → (∀ t id, (t, id) ∈ cs → is_Some (pages l !! id)) →
  let '(ds, s') := verdicts visit cs s (pages l) in
  ∃ l', reclaim_scan visit cs s l = Some (s', l') ∧ tick_inv l' ∧
    pages l' = filter (λ p, p.1 ∉ removed ds) (pages l) ∧
    clock l' = clock l ∧ reclaim_after l' = cursor_after ds (reclaim_after l).
Proof.
  revert s l. induction cs as [|[t id] cs IH]; intros s l Hl Hnd Hin; simpl.
  { exists l. by rewrite filter_removed_nil. }
  csimpl in Hnd. apply NoDup_cons in Hnd as [Hid Hnd].
  destruct (Hin t id) as [[t0 v] Ev]; [left|]. rewrite Ev.
  destruct (visit s id v) as [d s1]. destruct d; simpl.
  - specialize (IH s1 (set_cursor l t) Hl Hnd). simpl in IH.
    destruct (verdicts visit cs s1 (pages l)) as [ds s'].
    destruct IH as (l' & Hr & Hi & Hp & Hc & Ha); [intros; eapply Hin; by right|].
    exists l'. rewrite removed_cons, cursor_after_cons by done. by simpl in *.
  - specialize (IH s1 (tick_remove (set_cursor l t) id).2 (tick_inv_remove (set_cursor l t) id Hl) Hnd).
    rewrite (verdicts_ext visit cs s1 (pages l) (pages (tick_remove (set_cursor l t) id).2)).
    2:{ intros id' Hid'. unfold tick_remove. simpl. rewrite Ev. simpl. rewrite lookup_delete_ne; [done|].
        intros ->. done. }
    destruct (verdicts visit cs s1 _) as [ds s'].
    destruct IH as (l' & Hr & Hi & Hp & Hc & Ha).
    { intros t' id' Hid'. unfold tick_remove. simpl. rewrite Ev. simpl. rewrite lookup_delete_ne.
      - eapply Hin. by right.
      - intros <-. apply Hid. by apply (list_elem_of_fmap_2 snd) in Hid'. }
    exists l'. rewrite removed_cons, cursor_after_cons by done.
    unfold tick_remove in Hp, Hc, Ha. simpl in Hp, Hc, Ha. rewrite Ev in Hp, Hc, Ha. simpl in *.
    split_and!; try done. rewrite Hp. apply map_eq. intros id'. apply option_eq. intros x.
    rewrite !map_lookup_filter_Some, lookup_delete_Some, not_elem_of_cons. simpl. naive_solver.
  - exists (set_cursor l t). split_and!; try done. by rewrite filter_removed_nil.
  - exists l. split_and!; try done. by rewrite filter_removed_nil.
Qed.

Lemma reclaim_spec {S} (visit : S → K → V → Visit * S) s l :
  tick_inv l →
  let '(ds, s') := verdicts visit (tick_candidates l) s (pages l) in
  ∃ l', reclaim visit s l = Some (s', l') ∧ tick_inv l' ∧
    pages l' = filter (λ p, p.1 ∉ removed ds) (pages l) ∧
    clock l' = clock l ∧ reclaim_after l' = cursor_after ds (reclaim_after l).
Proof.
  intros Hl. apply reclaim_scan_spec; [done|by apply tick_candidates_NoDup|].
  intros t id Hc%elem_of_tick_candidates. by destruct (tick_inv_page l t id) as [v ->].
Qed.

Lemma victim_scan_spec {S} (idle : S → V → bool * S) cs s l :
  (∀ t id, (t, id) ∈ cs → is_Some (pages l !! id)) →
  ∃ r s' t, victim_scan idle cs s l = Some (r, s', set_cursor l t) ∧
    (∀ id, r = Some id → ∃ tick v s0, (tick, id) ∈ cs ∧ pages l !! id = Some v ∧ idle s0 v.2 = (true, s')).
Proof.
  revert s l. induction cs as [|[t id] cs IH]; intros s l Hin; simpl.
  { exists None, s, (reclaim_after l). split; [by destruct l|done]. }
  destruct (Hin t id) as [[t0 v] Ev]; [left|]. rewrite Ev.
  destruct (idle s v) as [[] s1] eqn:Ei.
  - exists (Some id), s1, t. split; [done|]. intros ? [= <-]. exists t, (t0, v), s.
    split_and!; [left|done|done].
  - destruct (IH s1 (set_cursor l t)) as (r & s' & t' & -> & Hr).
    { intros. eapply Hin. by right. }
    exists r, s', t'. split; [done|]. intros id' Hid'.
    destruct (Hr id' Hid') as (tick & w & s0 & ? & ? & ?). exists tick, w, s0.
    split_and!; [by right|done|done].
Qed.

Inductive tick_reach : TickLru → Prop :=
| reach_default : tick_reach tick_default
| reach_insert l id v :
    tick_reach l → pages l !! id = None → tick_reach (tick_insert l id v).2
| reach_remove l id : tick_reach l → tick_reach (tick_remove l id).2
| reach_touch l id : tick_reach l → tick_reach (tick_touch l id).2
| reach_victim {S} (idle : S → V → bool * S) s l r s' l' :
    tick_reach l → victim idle s l = Some (r, s', l') → tick_reach l'
| reach_reclaim {S} (visit : S → K → V → Visit * S) s l s' l' :
    tick_reach l → reclaim visit s l = Some (s', l') → tick_reach l'
| reach_advance l g t : tick_reach l → tick_reach (set_lanes l (lanes_advance g t (lanes l))).

Lemma victim_spec {S} (idle : S → V → bool * S) s l :
  tick_inv l →
  ∃ r s' t, victim idle s l = Some (r, s', set_cursor l t) ∧
    (∀ id, r = Some id → ∃ tick v s0,
       (tick, id) ∈ tick_candidates l ∧ pages l !! id = Some v ∧ idle s0 v.2 = (true, s')).
Proof.
  intros Hl. apply victim_scan_spec. intros t id Hc%elem_of_tick_candidates.
  by destruct (tick_inv_page l t id) as [v ->].
Qed.

Lemma tick_reach_inv l : tick_reach l → tick_inv l.
Proof.
  induction 1 as [|l id v _ IH Hn|l id _ IH|l id _ IH|S idle s l r s' l' _ IH Hv
                 |S visit s l s' l' _ IH Hr|l g t _ IH].
  - apply tick_inv_default.
  - by apply tick_inv_insert.
  - by apply tick_inv_remove.
  - by apply tick_inv_touch.
  - destruct (victim_spec idle s l IH) as (? & ? & ? & Hv' & _). rewrite Hv in Hv'. by simplify_eq.
  - pose proof (reclaim_spec visit s l IH) as Hspec. destruct (verdicts _ _ _ _) as [ds s1].
    destruct Hspec as (l1 & Hr' & Hi & _). rewrite Hr in Hr'. by simplify_eq.
  - by apply tick_inv_advance.
Qed.

(** The index never drifts.  In every state inserts of absent keys, removals, touches,
    victim scans, reclaim passes and lane cursors can reach, entries, ticks, tick order and
    lanes describe the same set, no empty lane is kept, and an admission scan never indexes
    a missing entry: it moves only the cursor and names a present entry its test accepted. *)
Theorem tick_lru_consistent l :
  tick_reach l →
  tick_inv l ∧
  ∀ S (idle : S → V → bool * S) s,
    ∃ r s' t, victim idle s l = Some (r, s', set_cursor l t) ∧
      (∀ id, r = Some id → ∃ tick v s0,
         (tick, id) ∈ tick_candidates l ∧ pages l !! id = Some v ∧ idle s0 v.2 = (true, s')).
Proof.
  intros Hl%tick_reach_inv. split; [done|]. intros S idle s. by apply victim_spec.
Qed.

(** A reclamation pass does exactly what its visitor decided.  On every reachable index
    the pass completes (no indexing panic although it mutates the index it walks), removes
    exactly the entries the visitor answered [Remove] for, judging the entries as they were
    before the pass, and leaves its cursor at the last entry decided, a [Stop] excluded. *)
Theorem reclaim_removes_decided l S (visit : S → K → V → Visit * S) s :
  tick_reach l →
  let '(ds, s') := verdicts visit (tick_candidates l) s (pages l) in
  ∃ l', reclaim visit s l = Some (s', l') ∧ tick_reach l' ∧
    pages l' = filter (λ p, p.1 ∉ removed ds) (pages l) ∧
    clock l' = clock l ∧ reclaim_after l' = cursor_after ds (reclaim_after l).
Proof.
  intros Hl. pose proof (reclaim_spec visit s l (tick_reach_inv l Hl)) as Hspec.
  destruct (verdicts visit _ s (pages l)) as [ds s'].
  destruct Hspec as (l' & Hr & _ & ? & ? & ?). exists l'. split_and!; try done.
  by eapply reach_reclaim.
Qed.

(** Recency order.  Touching a present entry of a reachable index moves that entry to the
    newest end of the tick order and keeps the relative order of all others; at the last
    tick the touch reports exhaustion and changes nothing. *)
Theorem touch_moves_to_newest l id t v :
  tick_reach l → pages l !! id = Some (t, v) →
  ((clock l < U64_MAX)%N →
     (tick_touch l id).1 = Ok () ∧
     btree_iter ord_le (lru (tick_touch l id).2) =
     filter (λ p, p.2 ≠ id) (btree_iter ord_le (lru l)) ++ [(clock l + 1, id)%N]) ∧
  ((U64_MAX ≤ clock l)%N → tick_touch l id = (Err Exhausted, l)).
Proof.
  intros Hl%tick_reach_inv Hid. unfold tick_touch. rewrite Hid. split; intros Hc.
  - destruct (checked_add U64_MAX (clock l) 1) as [c|] eqn:E.
    2:{ apply checked_add_None in E. lia. }
    apply checked_add_Some in E as [_ ->]. split; [done|]. cbn [snd lru].
    rewrite btree_iter_newest by (intros t' i Hi; apply (ix_range _ _ _ _ Hl) in Hi; lia).
    f_equal. apply filter_iff_elem. intros [t' i] Hi. apply elem_of_btree_iter in Hi; try apply _.
    pose proof (proj1 (ix_sync _ _ _ _ Hl id t)) as Ht. rewrite lookup_fmap, Hid in Ht.
    specialize (Ht eq_refl). simpl. split; intros Hne ->; [|congruence].
    destruct (tick_inv_page l t' id Hl Hi) as [? ?]. congruence.
  - destruct (checked_add U64_MAX (clock l) 1) as [c|] eqn:E; [|done].
    apply checked_add_Some in E as [? _]. lia.
Qed.
End tick_lru.
Arguments TickLru K V G {_ _ _ _}.

(** Lanes by key parity. *)
Definition parity : Grouping N N := λ k, Some (k mod 2)%N.

Section tick_witness.
#[local] Existing Instance parity.

Definition four_pages : TickLru N bool N :=
  foldl (λ l p, (tick_insert l p.1 p.2).2) tick_default
    [(0, false); (1, true); (2, false); (3, true)]%N.

Lemma four_pages_reach : tick_reach four_pages.
Proof.
  unfold four_pages. cbn [foldl fst snd]. repeat (apply reach_insert; [|reflexivity]).
  apply reach_default.
Qed.

Definition drop_odd (seen : list N) (id : N) (v : bool) : Visit * list N :=
  ((if (id =? 2)%N then Visit_Stop else if v then Visit_Remove else Visit_Skip), id :: seen).

Lemma tick_lru_consistent_witness :
  ∃ r s' t, victim (λ s v, (v, s)) tt four_pages = Some (r, s', set_cursor four_pages t).
Proof.
  destruct (tick_lru_consistent four_pages four_pages_reach) as [_ Hv].
  destruct (Hv unit (λ s v, (v, s)) tt) as (r & s' & t & E & _). by exists r, s', t.
Defined.

Lemma reclaim_removes_decided_witness :
  ∃ s' l', reclaim drop_odd [] four_pages = Some (s', l') ∧ reclaim_after l' = 2%N ∧ size (pages l') = 3.
Proof.
  pose proof (reclaim_removes_decided four_pages _ drop_odd [] four_pages_reach) as Hr.
  destruct (verdicts _ _ _ _) as [ds s'] eqn:E. destruct Hr as (l' & Hr & _ & Hp & _ & Ha).
  exists s', l'. vm_compute in E. injection E as <- <-.
  split_and!; [done|by rewrite Ha|by rewrite Hp].
Defined.

Lemma touch_moves_to_newest_witness :
  btree_iter ord_le (lru (tick_touch four_pages 0%N).2) = [(2, 1); (3, 2); (4, 3); (5, 0)]%N.
Proof.
  destruct (touch_moves_to_newest four_pages 0%N 1%N false four_pages_reach eq_refl) as [Ht _].
  rewrite (proj2 (Ht eq_refl)). reflexivity.
Defined.
End tick_witness.
