(* ===== verification/OrderedCache.v ===== *)
(** * Unverified entries in key order

    [OrderedLru] from [cmd/racer/core/src/cache.rs]: entries ordered by key, a tick per entry
    for idle expiry, every operation with its lanes.  The clock saturates instead of
    reporting exhaustion. *)

From S2P Require Import Prelude Lanes Cache.

Section ordered_lru.
Context {K V G : Type} `{Ord K} `{Ord G} `{Grouping K G}.

Record OrderedLru : Type := mkOrdered {
  o_pages : gmap K V;
  o_ticks : gmap K N;
  o_order : gmap N K;
  o_clock : N;
  o_lanes : gmap G (Lane K);
}.

Definition ordered_default : OrderedLru := mkOrdered ∅ ∅ ∅ 0 ∅.

(** [OrderedLru::touch]. *)
Definition ordered_touch (l : OrderedLru) (id : K) : OrderedLru :=
  match o_pages l !! id with
  | None => l
  | Some _ =>
      let clock := saturating_add U64_MAX (o_clock l) 1 in
      let '(order, lanes) :=
        match o_ticks l !! id with
        | Some old => (delete old (o_order l), lanes_remove (group id) old (o_lanes l))
        | None => (o_order l, o_lanes l)
        end in
      mkOrdered (o_pages l) (<[id := clock]> (o_ticks l)) (<[clock := id]> order) clock
                (lanes_insert (group id) clock id lanes)
  end.

(** [OrderedLru::insert]. *)
Definition ordered_insert (l : OrderedLru) (id : K) (page : V) : OrderedLru :=
  ordered_touch
    (mkOrdered (<[id := page]> (o_pages l)) (o_ticks l) (o_order l) (o_clock l) (o_lanes l)) id.

(** [OrderedLru::remove]. *)
Definition ordered_remove (l : OrderedLru) (id : K) : option V * OrderedLru :=
  match o_pages l !! id with
  | None => (None, l)
  | Some page =>
      (Some page,
       match o_ticks l !! id with
       | Some tick =>
           mkOrdered (delete id (o_pages l)) (delete id (o_ticks l)) (delete tick (o_order l))
                     (o_clock l) (lanes_remove (group id) tick (o_lanes l))
       | None =>
           mkOrdered (delete id (o_pages l)) (o_ticks l) (o_order l) (o_clock l) (o_lanes l)
       end)
  end.

(** The keys [keep] rejects, asked in key order. *)
Fixpoint rejected {S} (keep : S → K → bool * S) (ids : list K) (s : S) : list K * S :=
  match ids with
  | [] => ([], s)
  | id :: ids =>
      let '(b, s) := keep s id in
      let '(out, s) := rejected keep ids s in
      (if b : bool then out else id :: out, s)
  end.

(** [OrderedLru::retain]. *)
Definition ordered_retain {S} (keep : S → K → bool * S) (s : S) (l : OrderedLru) : S * OrderedLru :=
  let '(gone, s) := rejected keep (btree_iter ord_le (o_pages l)).*1 s in
  (s, foldl (λ l id, (ordered_remove l id).2) l gone).

(** [OrderedLru::candidates]. *)
Definition ordered_candidates (l : OrderedLru) (cursor : option K) : list K :=
  let keys := (btree_iter ord_le (o_pages l)).*1 in
  let after := match cursor with
               | Some c => filter (λ id, ¬ ord_le id c) keys
               | None => keys
               end in
  let upto := match cursor with
              | Some c => take_while (λ id, bool_decide (ord_le id c)) keys
              | None => []
              end in
  take RECLAIM_WINDOW (after ++ upto).

(** [OrderedLru::expiring]. *)
Definition ordered_expiring (l : OrderedLru) (after cutoff : N) (batch : nat) :=
  expiring (o_order l) after cutoff batch.

Definition ordered_inv (l : OrderedLru) : Prop :=
  dom (o_pages l) = dom (o_ticks l) ∧ index_ok (o_ticks l) (o_order l) (o_lanes l) (o_clock l).

Lemma ordered_inv_default : ordered_inv ordered_default.
Proof. split; [simpl; by rewrite !dom_empty_L|apply index_empty]. Qed.

Lemma ordered_inv_tick l id : ordered_inv l → is_Some (o_pages l !! id) ↔ is_Some (o_ticks l !! id).
Proof. intros [Hd _]. by rewrite <- !elem_of_dom, Hd. Qed.

Lemma ordered_inv_touch l id :
  dom (o_pages l) = dom (o_ticks l) ∪ (if o_pages l !! id is Some _ then {[id]} else ∅) →
  index_ok (o_ticks l) (o_order l) (o_lanes l) (o_clock l) →
  (o_clock l < U64_MAX)%N → ordered_inv (ordered_touch l id).
Proof.
  intros Hd Hi Hc. unfold ordered_touch. destruct (o_pages l !! id) as [v|] eqn:E.
  2:{ split; [by rewrite Hd, (right_id_L ∅ (∪))|done]. }
  unfold saturating_add. rewrite N.min_l by lia.
  destruct (o_ticks l !! id) as [old|] eqn:Et; (split; cbn [o_pages o_ticks o_order o_lanes o_clock];
    [by rewrite dom_insert_L, Hd, (comm_L (∪))|]).
  - rewrite <- (insert_delete_eq (o_ticks l)).
    apply index_insert with (clock := o_clock l); [|by rewrite lookup_delete_eq|lia].
    by apply index_remove.
  - apply index_insert with (clock := o_clock l); [done|done|lia].
Qed.

Lemma ordered_inv_touched l id :
  ordered_inv l → (o_clock l < U64_MAX)%N → ordered_inv (ordered_touch l id).
Proof.
  intros Hl Hc. pose proof Hl as [Hd Hi]. apply ordered_inv_touch; [|done|done].
  destruct (o_pages l !! id) eqn:E; [|by rewrite (right_id_L ∅ (∪))].
  assert (id ∈ dom (o_ticks l)) as Hin by (rewrite <- Hd; by apply elem_of_dom_2 in E).
  rewrite Hd. set_solver.
Qed.

Lemma ordered_inv_insert l id v :
  ordered_inv l → (o_clock l < U64_MAX)%N → ordered_inv (ordered_insert l id v).
Proof.
  intros [Hd Hi] Hc. apply ordered_inv_touch; [|done|done]. simpl.
  rewrite lookup_insert_eq, dom_insert_L, Hd. by rewrite (comm_L (∪)).
Qed.

Lemma ordered_inv_remove l id : ordered_inv l → ordered_inv (ordered_remove l id).2.
Proof.
  intros Hl. pose proof Hl as [Hd Hi]. unfold ordered_remove.
  destruct (o_pages l !! id) as [v|] eqn:E; [|done].
  destruct (proj1 (ordered_inv_tick l id Hl)) as [t Et]; [by rewrite E|].
  rewrite Et. split; simpl; [by rewrite !dom_delete_L, Hd|by apply index_remove].
Qed.

Lemma ordered_remove_pages l id : o_pages (ordered_remove l id).2 = delete id (o_pages l).
Proof.
  unfold ordered_remove. destruct (o_pages l !! id) as [v|] eqn:E.
  - by destruct (o_ticks l !! id).
  - simpl. by rewrite delete_id.
Qed.

Lemma ordered_removes l gone :
  ordered_inv l →
  let l' := foldl (λ l id, (ordered_remove l id).2) l gone in
  ordered_inv l' ∧ o_pages l' = filter (λ p, p.1 ∉ gone) (o_pages l).
Proof.
  revert l. induction gone as [|id gone IH]; intros l Hl; simpl.
  { split; [done|]. symmetry. apply map_filter_id. intros ? ? _. apply not_elem_of_nil. }
  destruct (IH (ordered_remove l id).2 (ordered_inv_remove l id Hl)) as [Hi Hp].
  split; [done|]. rewrite Hp, ordered_remove_pages. apply map_eq. intros id'. apply option_eq.
  intros x. rewrite !map_lookup_filter_Some, lookup_delete_Some, not_elem_of_cons. simpl. naive_solver.
Qed.

(** Operations below the last tick. *)
Inductive ordered_reach : OrderedLru → Prop :=
| oreach_default : ordered_reach ordered_default
| oreach_insert l id v :
    ordered_reach l → (o_clock l < U64_MAX)%N → ordered_reach (ordered_insert l id v)
| oreach_touch l id : ordered_reach l → (o_clock l < U64_MAX)%N → ordered_reach (ordered_touch l id)
| oreach_remove l id : ordered_reach l → ordered_reach (ordered_remove l id).2
| oreach_retain {S} (keep : S → K → bool * S) s l :
    ordered_reach l → ordered_reach (ordered_retain keep s l).2.

Lemma ordered_retain_spec {S} (keep : S → K → bool * S) s l :
  ordered_inv l →
  ordered_inv (ordered_retain keep s l).2 ∧
  o_pages (ordered_retain keep s l).2 =
  filter (λ p, p.1 ∉ (rejected keep (btree_iter ord_le (o_pages l)).*1 s).1) (o_pages l).
Proof.
  intros Hl. unfold ordered_retain. destruct (rejected _ _ _) as [gone s'].
  by apply ordered_removes.
Qed.

Lemma ordered_reach_inv l : ordered_reach l → ordered_inv l.
Proof.
  induction 1; [apply ordered_inv_default|by apply ordered_inv_insert|by apply ordered_inv_touched
               |by apply ordered_inv_remove|by apply ordered_retain_spec].
Qed.

Lemma ordered_candidates_wrap l c :
  ordered_candidates l (Some c) = (take RECLAIM_WINDOW (wrap_from (o_pages l) c)).*1.
Proof.
  unfold ordered_candidates, wrap_from. rewrite fmap_take, fmap_app. f_equal.
  assert (StronglySorted ord_le (btree_iter ord_le (o_pages l)).*1) as Hs.
  { pose proof (btree_iter_sorted ord_le (o_pages l)) as Hs.
    induction Hs as [|p L Hs IH Hall]; [constructor|]. csimpl. constructor; [done|].
    apply Forall_fmap. exact Hall. }
  rewrite (take_while_sorted ord_le c) by done. f_equal; by rewrite filter_fmap.
Qed.

(** The unverified index is consistent in every state its operations reach below the
    last tick: every entry has exactly one tick and no stray tick or lane remains, [retain]
    keeps exactly the entries its test accepts, and a resumed scan visits the entries in the
    wrapping key order that starts just after its cursor. *)
Theorem ordered_lru_consistent l :
  ordered_reach l →
  ordered_inv l ∧
  (∀ S (keep : S → K → bool * S) s,
     o_pages (ordered_retain keep s l).2 =
     filter (λ p, p.1 ∉ (rejected keep (btree_iter ord_le (o_pages l)).*1 s).1) (o_pages l)) ∧
  (∀ c, ordered_candidates l (Some c) = (take RECLAIM_WINDOW (wrap_from (o_pages l) c)).*1).
Proof.
  intros Hl%ordered_reach_inv. split_and!; [done| |].
  - intros. by apply ordered_retain_spec.
  - apply ordered_candidates_wrap.
Qed.

(** C38: at the last tick the index loses entries.  The clock saturates, so when a key holds
    the last tick, touching any other entry reuses that tick: the first key stays cached but
    no tick leads to it any more, so idle expiry can never select it. *)
Theorem saturated_touch_orphans_entry l a b v :
  ordered_inv l → o_clock l = U64_MAX → o_ticks l !! a = Some U64_MAX →
  a ≠ b → o_pages l !! b = Some v →
  is_Some (o_pages (ordered_touch l b) !! a) ∧
  ∀ after cutoff batch id t,
    (t, id) ∈ (ordered_expiring (ordered_touch l b) after cutoff batch).1 → id ≠ a.
Proof.
  intros Hl Hc Ha Hab Hb. pose proof Hl as [_ Hi]. unfold ordered_touch. rewrite Hb, Hc.
  change (saturating_add U64_MAX U64_MAX 1) with U64_MAX.
  destruct (proj1 (ordered_inv_tick l b Hl)) as [old Eo]; [by rewrite Hb|]. rewrite Eo. simpl.
  split; [apply (ordered_inv_tick l a Hl); by rewrite Ha|].
  intros after cutoff batch id t Hin ->. unfold expiring in Hin. simpl in Hin.
  assert ((t, a) ∈ btree_iter ord_le (<[U64_MAX := b]> (delete old (o_order l)))) as Ht.
  { apply elem_of_take_weak, list_elem_of_filter in Hin as [_ ?]. done. }
  apply elem_of_btree_iter in Ht; try apply _.
  apply lookup_insert_Some in Ht as [[_ ?]|[Hne [_ Ht]%lookup_delete_Some]]; [done|].
  apply (ix_sync _ _ _ _ Hi) in Ht. congruence.
Qed.
End ordered_lru.
Arguments OrderedLru K V G {_ _ _ _}.

Section ordered_witness.
#[local] Existing Instance parity.

Definition three_copies : OrderedLru N bool N :=
  foldl (λ l id, ordered_insert l id true) ordered_default [3; 1; 2]%N.

Lemma three_copies_reach : ordered_reach three_copies.
Proof.
  unfold three_copies. cbn [foldl]. repeat (apply oreach_insert; [|reflexivity]). apply oreach_default.
Qed.

Lemma ordered_lru_consistent_witness :
  ordered_candidates three_copies (Some 1%N) = [2; 3; 1]%N ∧
  dom (o_pages (ordered_retain (λ n id, (negb (id =? 2)%N, S n)) 0 three_copies).2) = {[1; 3]}%N.
Proof.
  destruct (ordered_lru_consistent three_copies three_copies_reach) as (_ & Hr & Hc).
  split; [rewrite (Hc 1%N); reflexivity|].
  rewrite (Hr nat (λ n id, (negb (id =? 2)%N, S n)) 0). reflexivity.
Defined.

(** Key 2 was touched long ago; key 1 takes the last tick. *)
Definition before_last : OrderedLru N bool N :=
  mkOrdered {[2%N := true]} (<[2%N := 5%N]> ∅) (<[5%N := 2%N]> ∅) (U64_MAX - 1)
    (lanes_insert (group 2%N) 5%N 2%N ∅).

Definition saturated : OrderedLru N bool N := ordered_insert before_last 1%N true.

Lemma saturated_inv : ordered_inv saturated.
Proof.
  apply ordered_inv_insert; [|reflexivity]. split; [reflexivity|].
  apply index_later with 5%N; [|done].
  apply (index_insert ∅ ∅ ∅ 0%N 2%N 5%N); [apply index_empty|done|done].
Qed.

Lemma saturated_touch_orphans_entry_witness :
  is_Some (o_pages (ordered_touch saturated 2%N) !! 1%N) ∧
  ordered_expiring (ordered_touch saturated 2%N) 0 U64_MAX 32 = ([(U64_MAX, 2%N)], None).
Proof.
  split; [|reflexivity].
  apply (saturated_touch_orphans_entry saturated 1%N 2%N true saturated_inv); done.
Defined.
End ordered_witness.
