(* ===== verification/Expiry.v ===== *)
(** * Idle expiry

    [Expiry] and [expiring] from [cmd/racer/core/src/cache.rs]: the checkpoints that map wall
    time to recency ticks, and the batches that walk the ticks at or below a cutoff.  The
    checkpoint queue, which forgets all but the last aged checkpoint, is shown to answer like
    the complete history of checkpoints. *)

From S2P Require Import Prelude Lanes Cache.

Definition IDLE_TTL : N := 30 * SECOND.
Definition EXPIRY_CHECKPOINT : N := SECOND.
Definition EXPIRY_BATCH : nat := 32.

(** [(time, verified clock, unverified clock)]. *)
Notation Checkpoint := (N * N * N)%type.

Record Expiry : Type := mkExpiry {
  checkpoints : list Checkpoint;
  e_verified : option N;
  e_ciphertext : option N;
}.

Definition expiry_default : Expiry := mkExpiry [] None None.

Definition due (back : option Checkpoint) (now : N) : bool :=
  match back with
  | None => true
  | Some (at_, _, _) => (EXPIRY_CHECKPOINT <=? now - at_)%N
  end.

Definition aged (now : N) (c : Checkpoint) : bool := (IDLE_TTL <=? now - c.1.1)%N.

(** [while self.checkpoints.get(1).is_some_and(old) { pop_front }]. *)
Fixpoint pop_aged (now : N) (cs : list Checkpoint) : list Checkpoint :=
  match cs with
  | _ :: ((c :: _) as rest) => if aged now c then pop_aged now rest else cs
  | _ => cs
  end.

Definition get_or_insert (o : option N) (v : N) : option N := Some (default v o).

(** [Expiry::advance]. *)
Definition expiry_advance (e : Expiry) (now verified ciphertext : N) : option (N * N) * Expiry :=
  let e :=
    if due (last (checkpoints e)) now then
      mkExpiry (checkpoints e ++ [(now, verified, ciphertext)])
               (get_or_insert (e_verified e) 0) (get_or_insert (e_ciphertext e) 0)
    else e in
  let e := mkExpiry (pop_aged now (checkpoints e)) (e_verified e) (e_ciphertext e) in
  (match head (checkpoints e) with
   | Some c => if aged now c then Some (c.1.2, c.2) else None
   | None => None
   end, e).

(** ** The complete history *)

Definition record_checkpoint (h : list Checkpoint) (call : Checkpoint) : list Checkpoint :=
  if due (last h) call.1.1 then h ++ [call] else h.

(** Every checkpoint ever recorded by a sequence of calls. *)
Definition checkpoint_history (calls : list Checkpoint) : list Checkpoint := foldl record_checkpoint [] calls.

Definition run_expiry (calls : list Checkpoint) : Expiry :=
  foldl (λ e c, (expiry_advance e c.1.1 c.1.2 c.2).2) expiry_default calls.

(** The clocks at the newest checkpoint at least [IDLE_TTL] old. *)
Definition newest_aged (now : N) (h : list Checkpoint) : option (N * N) :=
  (λ c, (c.1.2, c.2)) <$> last (filter (λ c, aged now c = true) h).

Definition monotone (calls : list Checkpoint) : Prop := StronglySorted N.le (calls.*1.*1).

(** Checkpoints at least [EXPIRY_CHECKPOINT] apart. *)
Fixpoint spaced (cs : list Checkpoint) : Prop :=
  match cs with
  | a :: ((b :: _) as rest) => (a.1.1 + EXPIRY_CHECKPOINT ≤ b.1.1)%N ∧ spaced rest
  | _ => True
  end.

Record expiry_inv (now : N) (h cs : list Checkpoint) : Prop := {
  xi_split : ∃ d, h = d ++ cs ∧ (d ≠ [] → ∃ c rest, cs = c :: rest ∧ aged now c = true) ∧
             (∀ c c', c ∈ d → c' ∈ cs → (c.1.1 ≤ c'.1.1)%N);
  xi_young : ∀ c, c ∈ tail cs → aged now c = false;
  xi_spaced : spaced cs;
  xi_past : ∀ c, c ∈ cs → (c.1.1 ≤ now)%N;
}.

Lemma spaced_tail a cs : spaced (a :: cs) → spaced cs.
Proof. destruct cs; simpl; naive_solver. Qed.

Lemma spaced_le cs a c : spaced (a :: cs) → c ∈ a :: cs → (a.1.1 ≤ c.1.1)%N.
Proof.
  revert a. induction cs as [|b cs IH]; intros a Hs Hc.
  - apply list_elem_of_singleton in Hc as ->. lia.
  - destruct Hs as [Hab Hs]. apply elem_of_cons in Hc as [->|Hc]; [lia|].
    specialize (IH b Hs Hc). unfold EXPIRY_CHECKPOINT, SECOND in *. lia.
Qed.

Lemma spaced_length cs a c :
  spaced (a :: cs) → last (a :: cs) = Some c → (a.1.1 + len cs * EXPIRY_CHECKPOINT ≤ c.1.1)%N.
Proof.
  revert a. induction cs as [|b cs IH]; intros a Hs Hl.
  - simpl in Hl. simplify_eq. change (len (@nil Checkpoint)) with 0%N. lia.
  - destruct Hs as [Hab Hs]. specialize (IH b Hs Hl). rewrite len_cons. lia.
Qed.

Lemma spaced_snoc cs c :
  spaced cs → (∀ c', last cs = Some c' → (c'.1.1 + EXPIRY_CHECKPOINT ≤ c.1.1)%N) → spaced (cs ++ [c]).
Proof.
  induction cs as [|a cs IH]; intros Hs Hl; [done|]. destruct cs as [|b cs].
  - simpl. split; [by apply Hl|done].
  - destruct Hs as [? Hs]. split; [done|]. apply IH; [done|]. intros c' Hc'. by apply Hl.
Qed.

Lemma aged_le now c c' : (c.1.1 ≤ c'.1.1)%N → aged now c' = true → aged now c = true.
Proof. unfold aged. rewrite !N.leb_le. lia. Qed.

Lemma aged_later now now' c : (now ≤ now')%N → aged now c = true → aged now' c = true.
Proof. unfold aged. rewrite !N.leb_le. lia. Qed.

Lemma pop_aged_spec now cs :
  spaced cs →
  ∃ d, cs = d ++ pop_aged now cs ∧
    (d ≠ [] → ∃ c rest, pop_aged now cs = c :: rest ∧ aged now c = true) ∧
    (∀ c, c ∈ tail (pop_aged now cs) → aged now c = false).
Proof.
  induction cs as [|a cs IH]; intros Hs.
  { exists []. split_and!; [done|done|]. intros c Hc. by apply elem_of_nil in Hc. }
  destruct cs as [|b cs].
  { exists []. split_and!; [done|done|]. intros c Hc. by apply elem_of_nil in Hc. }
  destruct (IH (spaced_tail a _ Hs)) as (d & Hd & Ha & Hy).
  change (pop_aged now (a :: b :: cs))
    with (if aged now b then pop_aged now (b :: cs) else a :: b :: cs).
  destruct (aged now b) eqn:Eb.
  - exists (a :: d). split_and!; [by rewrite <- app_comm_cons, <- Hd| |done]. intros _.
    destruct d as [|x d]; [|by apply Ha]. exists b, cs. by split.
  - exists []. split_and!; [done|done|]. intros c Hc. simpl in Hc.
    destruct (aged now c) eqn:Ec; [|done]. rewrite <- Eb. symmetry.
    apply (aged_le now b c); [|done]. by apply (spaced_le cs); [apply (spaced_tail a)|].
Qed.

Lemma spaced_suffix d cs : spaced (d ++ cs) → spaced cs.
Proof. induction d as [|a d IH]; [done|]. intros Hs. by apply IH, (spaced_tail a). Qed.

Lemma expiry_inv_newest now h cs :
  expiry_inv now h cs →
  newest_aged now h =
  match head cs with Some c => if aged now c then Some (c.1.2, c.2) else None | None => None end.
Proof.
  intros [(d & -> & Hd & _) Hy _ _]. unfold newest_aged. destruct cs as [|c cs].
  { destruct d; [done|]. destruct Hd as (? & ? & ? & _); done. }
  simpl. rewrite filter_app, filter_cons.
  rewrite (filter_none _ cs) by (intros c' Hc'; by rewrite Hy).
  destruct (aged now c) eqn:Ec; simpl.
  - by rewrite last_snoc.
  - destruct d; [done|]. destruct Hd as (? & ? & ? & ?); [done|]. congruence.
Qed.

(** One call keeps the queue a faithful summary of the history. *)
Lemma expiry_inv_step now0 now v c h cs :
  expiry_inv now0 h cs → (now0 ≤ now)%N →
  expiry_inv now (record_checkpoint h (now, v, c))
    (pop_aged now (if due (last cs) now then cs ++ [(now, v, c)] else cs)).
Proof.
  intros [(d & -> & Hd & Hdc) Hy Hs Hp] Hnow. unfold record_checkpoint. cbn [fst].
  assert (last (d ++ cs) = last cs) as ->.
  { rewrite last_app. destruct cs as [|x cs]; [|by destruct (last_is_Some (x :: cs)) as [_ [? ->]]].
    destruct d; [done|]. destruct Hd as (? & ? & ? & _); done. }
  set (cs1 := if due (last cs) now then cs ++ [(now, v, c)] else cs).
  assert ((if due (last cs) now then (d ++ cs) ++ [(now, v, c)] else d ++ cs) = d ++ cs1) as ->.
  { unfold cs1. destruct (due _ _); [by rewrite (assoc_L (++))|done]. }
  assert (∀ x, x ∈ cs1 → x ∈ cs ∨ x = (now, v, c)) as Hin.
  { intros x. unfold cs1. destruct (due _ _); [|by left].
    rewrite elem_of_app, list_elem_of_singleton. done. }
  assert (spaced cs1) as Hs1.
  { unfold cs1. destruct (due _ _) eqn:Edue; [|done]. apply spaced_snoc; [done|].
    intros [[a ?] ?] Hl. rewrite Hl in Edue. simpl in *. apply N.leb_le in Edue.
    unfold EXPIRY_CHECKPOINT, SECOND in *. lia. }
  destruct (pop_aged_spec now cs1 Hs1) as (d1 & E1 & Ha1 & Hy1).
  assert (∀ x, x ∈ cs1 → (x.1.1 ≤ now)%N) as Hp1.
  { intros x [Hx%Hp| ->]%Hin; simpl; lia. }
  split; [|done| |].
  - exists (d ++ d1). split_and!.
    + by rewrite <- (assoc_L (++)), <- E1.
    + intros Hne. destruct d1 as [|x d1]; [|by apply Ha1].
      rewrite app_nil_r in Hne. destruct (Hd Hne) as (c0 & rest & Ecs & Hc0).
      simpl in E1. rewrite <- E1. unfold cs1. rewrite Ecs.
      destruct (due (last (c0 :: rest)) now); [exists c0, (rest ++ [(now, v, c)])|exists c0, rest];
        (split; [done|by apply (aged_later now0)]).
    + intros x y Hx Hy'. assert (y ∈ cs1) as Hyc by (rewrite E1; apply elem_of_app; by right).
      apply elem_of_app in Hx as [Hx|Hx].
      * destruct (Hin y Hyc) as [?| ->]; [by apply Hdc|]. simpl.
        destruct cs as [|z cs]; [destruct Hd as (? & ? & ? & _); [by intros ->; apply elem_of_nil in Hx|done]|].
        pose proof (Hdc x z Hx (list_elem_of_here _ _)).
        pose proof (Hp z (list_elem_of_here _ _)). lia.
      * apply list_elem_of_split in Hx as (l1 & l2 & ->). rewrite E1, <- (assoc_L (++)) in Hs1.
        apply spaced_suffix in Hs1. apply (spaced_le (l2 ++ pop_aged now cs1)); [done|].
        rewrite !elem_of_cons, elem_of_app. by auto.
  - rewrite E1 in Hs1. by apply spaced_suffix in Hs1.
  - intros x Hx. apply Hp1. rewrite E1. apply elem_of_app. by right.
Qed.

Definition last_call_time (calls : list Checkpoint) : N := default 0%N (last calls.*1.*1).

Lemma last_call_time_snoc calls c : last_call_time (calls ++ [c]) = c.1.1.
Proof. unfold last_call_time. rewrite !fmap_app. change [c].*1.*1 with [c.1.1]. by rewrite last_snoc. Qed.

Lemma monotone_snoc calls c :
  monotone (calls ++ [c]) → monotone calls ∧ (last_call_time calls ≤ c.1.1)%N.
Proof.
  unfold monotone, last_call_time. rewrite !fmap_app. intros (Hcross & Hs & _)%StronglySorted_app.
  split; [done|]. destruct (last calls.*1.*1) as [t|] eqn:E; simpl; [|lia].
  apply Hcross; [|apply list_elem_of_here]. apply last_Some in E as [l' ->].
  apply elem_of_app. right. apply list_elem_of_here.
Qed.

Lemma expiry_advance_checkpoints e now v c :
  checkpoints (expiry_advance e now v c).2 =
  pop_aged now (if due (last (checkpoints e)) now then checkpoints e ++ [(now, v, c)] else checkpoints e).
Proof. unfold expiry_advance. by destruct (due _ _). Qed.

Lemma expiry_advance_result e now v c :
  (expiry_advance e now v c).1 =
  match head (checkpoints (expiry_advance e now v c).2) with
  | Some c => if aged now c then Some (c.1.2, c.2) else None
  | None => None
  end.
Proof. done. Qed.

Lemma run_expiry_inv calls :
  monotone calls → expiry_inv (last_call_time calls) (checkpoint_history calls) (checkpoints (run_expiry calls)).
Proof.
  induction calls as [|[[now v] c] calls IH] using rev_ind; intros Hm.
  { split; [|intros ? Hc; by apply elem_of_nil in Hc|done|intros ? Hc; by apply elem_of_nil in Hc].
    exists []. split_and!; [done|done|]. intros ? ? Hc. by apply elem_of_nil in Hc. }
  apply monotone_snoc in Hm as [Hm Hle]. unfold checkpoint_history, run_expiry. rewrite !foldl_app. cbn [foldl].
  rewrite expiry_advance_checkpoints. rewrite last_call_time_snoc. cbn [fst snd].
  by apply (expiry_inv_step (last_call_time calls)); [apply IH|].
Qed.

Lemma expiry_inv_length now h cs :
  expiry_inv now h cs → (len cs ≤ IDLE_TTL / EXPIRY_CHECKPOINT + 1)%N.
Proof.
  intros [_ Hy Hs Hp]. change (IDLE_TTL / EXPIRY_CHECKPOINT + 1)%N with 31%N.
  destruct cs as [|a [|b cs]]; [done|done|]. apply spaced_tail in Hs.
  destruct (last (b :: cs)) as [z|] eqn:E; [|by apply last_None in E].
  pose proof (spaced_length cs b z Hs E) as Hz. rewrite !len_cons.
  specialize (Hy b (list_elem_of_here _ _)). unfold aged in Hy. apply N.leb_gt in Hy.
  assert (z.1.1 ≤ now)%N as Hzn.
  { apply Hp. apply last_Some in E as [l' E]. rewrite E. right. apply elem_of_app. right.
    apply list_elem_of_here. }
  unfold IDLE_TTL, EXPIRY_CHECKPOINT, SECOND in *. lia.
Qed.

(** The checkpoint queue answers like the complete history.  For calls at times that
    never go back, [Expiry::advance] returns the clocks of the newest checkpoint, among all
    ever recorded, that is at least [IDLE_TTL] old, although it keeps at most
    [IDLE_TTL / EXPIRY_CHECKPOINT + 1] checkpoints. *)
Theorem expiry_cutoff_is_newest_aged calls now v c :
  monotone (calls ++ [(now, v, c)]) →
  (expiry_advance (run_expiry calls) now v c).1 = newest_aged now (checkpoint_history (calls ++ [(now, v, c)])) ∧
  (len (checkpoints (expiry_advance (run_expiry calls) now v c).2)
     ≤ IDLE_TTL / EXPIRY_CHECKPOINT + 1)%N.
Proof.
  intros Hm. pose proof (run_expiry_inv _ Hm) as Hi. unfold run_expiry in Hi.
  rewrite last_call_time_snoc, foldl_app in Hi. cbn [foldl fst snd] in Hi.
  change (foldl _ expiry_default calls) with (run_expiry calls) in Hi.
  split; [|by eapply expiry_inv_length].
  rewrite (expiry_inv_newest _ _ _ Hi). apply expiry_advance_result.
Qed.

(** A checkpoint every 20 s; the cutoff at 80 s is the clock at 40 s. *)
Lemma expiry_cutoff_is_newest_aged_witness :
  let calls := [(0, 3, 1); (20 * SECOND, 5, 1); (40 * SECOND, 9, 2); (60 * SECOND, 12, 2)]%N in
  (expiry_advance (run_expiry calls) (80 * SECOND) 20 4).1 = Some (9, 2)%N.
Proof.
  intros calls.
  destruct (expiry_cutoff_is_newest_aged calls (80 * SECOND)%N 20%N 4%N) as [E _].
  { unfold monotone, calls. simpl. repeat constructor; unfold SECOND; lia. }
  rewrite E. reflexivity.
Defined.

(** ** Batches *)
Section batches.
Context {K : Type}.

(** The entries selected by successive batches until one is short. *)
Fixpoint expire_pass (fuel : nat) (order : gmap N K) (after cutoff : N) (batch : nat) :
    option (list (N * K)) :=
  match fuel with
  | 0 => None
  | S fuel =>
      let '(selected, next) := expiring order after cutoff batch in
      match next with
      | None => Some selected
      | Some cursor => (app selected) <$> expire_pass fuel order cursor cutoff batch
      end
  end.

Definition in_range (after cutoff : N) (order : gmap N K) : list (N * K) :=
  filter (λ p, after < p.1 ∧ p.1 ≤ cutoff)%N (btree_iter ord_le order).

(** Resuming after an entry of the range leaves the entries behind it. *)
Lemma in_range_resume order after cutoff W t id R :
  in_range after cutoff order = W ++ (t, id) :: R → in_range t cutoff order = R.
Proof.
  intros E.
  assert (StronglySorted (key_le ord_le) (in_range after cutoff order)) as Hs
    by (apply sorted_filter, btree_iter_sorted; apply _).
  assert (NoDup (in_range after cutoff order).*1) as Hnd.
  { eapply sublist_NoDup; [apply (btree_iter_NoDup ord_le order)|].
    apply fmap_sublist, sublist_filter. }
  assert (t ∈ (in_range after cutoff order).*1) as Hin
    by (rewrite E, fmap_app; apply elem_of_app; right; apply list_elem_of_here).
  apply list_elem_of_fmap in Hin as ([t' i'] & -> & [[Ht _] _]%list_elem_of_filter). simpl in Ht.
  transitivity (filter (λ p, t' < p.1)%N (in_range after cutoff order)).
  { unfold in_range. rewrite list_filter_filter. apply list_filter_iff. intros [x ?]. simpl. lia. }
  rewrite E in Hs, Hnd |- *. apply StronglySorted_app in Hs as (Hcross & _ & Hs).
  apply StronglySorted_cons in Hs as [Hs _]. rewrite fmap_app, fmap_cons in Hnd.
  apply NoDup_app in Hnd as (_ & _ & Hnd). apply NoDup_cons in Hnd as [Hk _].
  rewrite filter_app, filter_cons_False by (simpl; lia).
  rewrite filter_none, filter_all; [done| |].
  - intros [x i] Hx. rewrite Forall_forall in Hs. specialize (Hs _ Hx). unfold key_le in Hs. simpl in *.
    assert (x ≠ t'); [|lia]. intros ->. apply Hk. apply list_elem_of_fmap. by exists (t', i).
  - intros [x i] Hx. specialize (Hcross _ _ Hx (list_elem_of_here _ _)).
    unfold key_le in Hcross. simpl in *. lia.
Qed.

Lemma expire_pass_complete fuel order after cutoff batch :
  0 < batch → length (in_range after cutoff order) < fuel →
  expire_pass fuel order after cutoff batch = Some (in_range after cutoff order).
Proof.
  intros Hb. revert after. induction fuel as [|fuel IH]; intros after Hf; [lia|].
  cbn [expire_pass]. unfold expiring. fold (in_range after cutoff order).
  destruct (bool_decide_reflect (length (take batch (in_range after cutoff order)) = batch)) as [Hl|Hl].
  - assert (batch ≤ length (in_range after cutoff order)) by (rewrite length_take in Hl; lia).
    destruct (take batch (in_range after cutoff order)) as [|[t id] W _] eqn:E using rev_ind.
    { simpl in Hl. lia. }
    rewrite last_snoc. cbn [fmap option_fmap option_map fst].
    pose proof (take_drop batch (in_range after cutoff order)) as Htd.
    rewrite E, <- (assoc_L (++)) in Htd. cbn [app] in Htd.
    rewrite IH; rewrite (in_range_resume order after cutoff W t id _ (eq_sym Htd)).
    + simpl. f_equal. rewrite <- Htd at 2. by rewrite <- (assoc_L (++)).
    + rewrite length_drop. lia.
  - rewrite take_ge; [done|]. rewrite length_take in Hl. lia.
Qed.

(** Expiry batches are complete and terminate.  Batches of any positive size, each
    resuming at the cursor the previous one returned, select every entry with a tick in
    [(after, cutoff]] exactly once, oldest first, in at most one batch more than there are
    entries. *)
Theorem expiry_batches_complete order after cutoff batch :
  0 < batch →
  expire_pass (S (size order)) order after cutoff batch =
  Some (filter (λ p, after < p.1 ∧ p.1 ≤ cutoff)%N (btree_iter ord_le order)).
Proof.
  intros Hb. apply expire_pass_complete; [done|].
  rewrite <- (btree_iter_length ord_le order). unfold in_range.
  pose proof (length_filter (λ p : N * K, after < p.1 ∧ p.1 ≤ cutoff)%N (btree_iter ord_le order)). lia.
Qed.
End batches.

Definition five_ticks : gmap N N := list_to_map [(1, 0); (2, 1); (3, 2); (4, 3); (5, 4)]%N.

Lemma expiry_batches_complete_witness :
  expire_pass (S (size five_ticks)) five_ticks 0 4 2 = Some [(1, 0); (2, 1); (3, 2); (4, 3)]%N.
Proof.
  rewrite (expiry_batches_complete five_ticks 0 4 2); [reflexivity|lia].
Defined.
