(* ===== verification/Prefetch.v ===== *)
(** * Prefetch wire records

    [cmd/racer/core/src/prefetch.rs]: priorities, failure codes, and the page list and result
    record codecs of the owner peer operation.  A byte is an [N] below 256, a byte string a
    list of bytes.  The token bucket of the owner budget computes in [f64] and is not
    modelled here. *)

From S2P Require Import Prelude Bytes.

Definition MAX_OPERATION_PAGES : N := 256.
Definition RESULT_RECORD_BYTES : nat := 5.

Inductive Priority := Priority_High | Priority_Normal | Priority_Low.

(** [Priority::parse]. *)
Definition priority_parse (value : string) : option Priority :=
  if bool_decide (value = "high"%string) then Some Priority_High
  else if bool_decide (value = "normal"%string) then Some Priority_Normal
  else if bool_decide (value = "low"%string) then Some Priority_Low
  else None.

(** [Priority::as_str]. *)
Definition priority_as_str (p : Priority) : string :=
  match p with
  | Priority_High => "high"
  | Priority_Normal => "normal"
  | Priority_Low => "low"
  end.

(** [Priority::index]. *)
Definition priority_index (p : Priority) : nat :=
  match p with
  | Priority_High => 0
  | Priority_Normal => 1
  | Priority_Low => 2
  end.

Inductive FailCode :=
| FailCode_NotResident | FailCode_VersionChanged | FailCode_NotFound | FailCode_Forbidden
| FailCode_OriginError | FailCode_Overloaded | FailCode_Unavailable.

(** [code as u32]. *)
Definition fail_code_wire (c : FailCode) : N :=
  match c with
  | FailCode_NotResident => 0
  | FailCode_VersionChanged => 1
  | FailCode_NotFound => 2
  | FailCode_Forbidden => 3
  | FailCode_OriginError => 4
  | FailCode_Overloaded => 5
  | FailCode_Unavailable => 6
  end.

(** [FailCode::from_wire]. *)
Definition fail_code_from_wire (value : N) : option FailCode :=
  match value with
  | 0 => Some FailCode_NotResident
  | 1 => Some FailCode_VersionChanged
  | 2 => Some FailCode_NotFound
  | 3 => Some FailCode_Forbidden
  | 4 => Some FailCode_OriginError
  | 5 => Some FailCode_Overloaded
  | 6 => Some FailCode_Unavailable
  | _ => None
  end%N.

Inductive PageResult :=
| PageResult_Admitted
| PageResult_Resident
| PageResult_Deferred (retry_after_ms : N)
| PageResult_Failed (code : FailCode).

(** ** Page lists *)

(** [pages.windows(2).all(|w| w[0] < w[1])]. *)
Fixpoint ascending (pages : list N) : bool :=
  match pages with
  | a :: ((b :: _) as rest) => (a <? b)%N && ascending rest
  | _ => true
  end.

Definition valid_pages (pages : list N) : bool :=
  ((1 <=? len pages) && (len pages <=? MAX_OPERATION_PAGES))%N && ascending pages.

Definition encode_pages (pages : list N) : option (list N) :=
  if valid_pages pages then Some (pages ≫= be_bytes 8) else None.

Definition decode_pages (bytes : list N) : option (list N) :=
  if bool_decide (length bytes mod 8 = 0) then
    let pages := from_be_bytes <$> chunks_exact 8 bytes in
    if valid_pages pages then Some pages else None
  else None.

(** ** Results *)

Definition encode_result (r : PageResult) : list N :=
  let '(kind, value) :=
    match r with
    | PageResult_Admitted => (0, 0)
    | PageResult_Resident => (1, 0)
    | PageResult_Deferred ms => (2, ms)
    | PageResult_Failed code => (3, fail_code_wire code)
    end%N in
  kind :: be_bytes 4 value.

Definition encode_results (rs : list PageResult) : list N := rs ≫= encode_result.

Definition decode_result (record : list N) : option PageResult :=
  match record with
  | [] => None
  | kind :: rest =>
      let value := from_be_bytes rest in
      match kind, value with
      | 0, 0 => Some PageResult_Admitted
      | 1, 0 => Some PageResult_Resident
      | 2, ms => Some (PageResult_Deferred ms)
      | 3, code => PageResult_Failed <$> fail_code_from_wire code
      | _, _ => None
      end%N
  end.

Definition decode_results (bytes : list N) : option (list PageResult) :=
  if bool_decide (bytes = []) || negb (bool_decide (length bytes mod RESULT_RECORD_BYTES = 0)) then None
  else mapM decode_result (chunks_exact RESULT_RECORD_BYTES bytes).

Definition results_answer (results : list PageResult) (pages : N) (probe : bool) : bool :=
  (len results =? pages)%N &&
  forallb (λ r, match r with
                | PageResult_Resident => true
                | PageResult_Failed FailCode_NotResident => probe
                | PageResult_Admitted | PageResult_Deferred _ | PageResult_Failed _ => negb probe
                end) results.

(** ** Codec lemmas *)

Lemma u64_pow v : (v ≤ U64_MAX)%N ↔ (v < 256 ^ N.of_nat 8)%N.
Proof. change (256 ^ N.of_nat 8)%N with (U64_MAX + 1)%N. lia. Qed.

Lemma u32_pow v : (v ≤ U32_MAX)%N ↔ (v < 256 ^ N.of_nat 4)%N.
Proof. change (256 ^ N.of_nat 4)%N with (U32_MAX + 1)%N. lia. Qed.

Lemma fail_code_roundtrip c : fail_code_from_wire (fail_code_wire c) = Some c.
Proof. by destruct c. Qed.

Lemma fail_code_wire_small c : (fail_code_wire c ≤ U32_MAX)%N.
Proof. by destruct c. Qed.

Lemma fail_code_from_wire_Some v c : fail_code_from_wire v = Some c → fail_code_wire c = v.
Proof.
  unfold fail_code_from_wire. intros Hc.
  destruct v as [|p]; [by simplify_eq|].
  do 3 (destruct p as [p|p|]; try discriminate; try by simplify_eq).
Qed.

Definition result_ok (r : PageResult) : Prop :=
  match r with PageResult_Deferred ms => (ms ≤ U32_MAX)%N | _ => True end.

Lemma encode_result_length r : length (encode_result r) = RESULT_RECORD_BYTES.
Proof. by destruct r. Qed.

Lemma encode_result_ok r : bytes_ok (encode_result r).
Proof. destruct r; (apply Forall_cons; split; [done|apply be_bytes_ok]). Qed.

Lemma decode_encode_result r : result_ok r → decode_result (encode_result r) = Some r.
Proof.
  intros Hr. destruct r as [| |ms|c]; [done|done| |]; unfold encode_result, decode_result.
  - by rewrite from_be_to_be by by apply u32_pow.
  - rewrite from_be_to_be by apply u32_pow, fail_code_wire_small. by rewrite fail_code_roundtrip.
Qed.

Lemma encode_decode_result record r :
  length record = RESULT_RECORD_BYTES → bytes_ok record → decode_result record = Some r →
  encode_result r = record.
Proof.
  intros Hl Hb Hr. destruct record as [|kind rest]; [done|]. injection Hl as Hl.
  apply Forall_cons in Hb as [_ Hb]. pose proof (to_be_from_be rest Hb) as Hrest. rewrite Hl in Hrest.
  unfold decode_result in Hr. destruct kind as [|[[p|p|]|[p|p|]|]]; try discriminate.
  - destruct (from_be_bytes rest) eqn:E; [|discriminate]. injection Hr as <-.
    unfold encode_result. by rewrite Hrest.
  - destruct (fail_code_from_wire (from_be_bytes rest)) as [c|] eqn:E; [|discriminate].
    injection Hr as <-. apply fail_code_from_wire_Some in E.
    unfold encode_result. by rewrite E, Hrest.
  - injection Hr as <-. unfold encode_result. by rewrite Hrest.
  - destruct (from_be_bytes rest) eqn:E; [|discriminate]. injection Hr as <-.
    unfold encode_result. by rewrite Hrest.
Qed.

(** The page list codec is a bijection between valid page lists and the byte strings
    the decoder accepts: every valid list of [u64] pages encodes and decodes to itself, and
    an accepted byte string is exactly the encoding of the list it decodes to, so no list
    has two encodings. *)
Theorem pages_codec pages bytes :
  (Forall (λ p, p ≤ U64_MAX)%N pages → valid_pages pages = true →
   ∃ bs, encode_pages pages = Some bs ∧ bytes_ok bs ∧ decode_pages bs = Some pages) ∧
  (bytes_ok bytes → decode_pages bytes = Some pages → encode_pages pages = Some bytes).
Proof.
  split.
  - intros Hp Hv. unfold encode_pages. rewrite Hv. eexists. split; [done|]. split.
    + rewrite bind_concat. apply Forall_concat, Forall_fmap, Forall_forall.
      intros p _. apply be_bytes_ok.
    + unfold decode_pages.
      rewrite bool_decide_true by (rewrite (records_length 8) by apply be_bytes_length; apply Nat.Div0.mod_mul).
      rewrite (records_cut 8) by first [apply be_bytes_length|lia]. cbv zeta.
      rewrite <- list_fmap_compose.
      rewrite (list_fmap_ext (from_be_bytes ∘ be_bytes 8) id pages), list_fmap_id, Hv; [done|].
      intros i p Hip. apply from_be_to_be, u64_pow. by apply (Forall_lookup_1 _ _ i p Hp).
  - intros Hb Hd. unfold decode_pages in Hd. case_bool_decide as Hm; [|done]. cbv zeta in Hd.
    destruct (valid_pages _) eqn:Hv; [|done]. injection Hd as <-. unfold encode_pages. rewrite Hv. f_equal.
    apply (records_uncut 8 (be_bytes 8) ltac:(lia) bytes (λ r, Some (from_be_bytes r)));
      [done|done| |apply mapM_from_fmap].
    intros r x Hr Hbr [= <-]. rewrite <- Hr. by apply to_be_from_be.
Qed.

(** Result records round trip and are canonical: decoding an encoded non-empty list
    gives the list back, and the decoder accepts no byte string other than the encoding of
    the list it returns (unknown kinds and codes and stray values are refused). *)
Theorem results_codec rs bytes :
  (rs ≠ [] → Forall result_ok rs →
   bytes_ok (encode_results rs) ∧ decode_results (encode_results rs) = Some rs) ∧
  (bytes_ok bytes → decode_results bytes = Some rs → encode_results rs = bytes ∧ rs ≠ []).
Proof.
  pose proof (records_length RESULT_RECORD_BYTES encode_result encode_result_length) as Hlen.
  split.
  - intros Hne Hok. split.
    { unfold encode_results. rewrite bind_concat. apply Forall_concat, Forall_fmap, Forall_forall.
      intros r _. apply encode_result_ok. }
    unfold decode_results, encode_results. rewrite bool_decide_false; [|].
    2:{ intros E. apply (f_equal length) in E. rewrite Hlen in E. by destruct rs. }
    rewrite bool_decide_true by (rewrite Hlen; apply Nat.Div0.mod_mul). cbn [orb negb].
    rewrite (records_cut RESULT_RECORD_BYTES) by first [apply encode_result_length|unfold RESULT_RECORD_BYTES; lia].
    apply mapM_Some, Forall2_fmap_l, Forall_Forall2_diag.
    eapply Forall_impl; [done|]. intros r. apply decode_encode_result.
  - intros Hb Hd. unfold decode_results in Hd. case_bool_decide as Hn; [done|].
    case_bool_decide as Hm; [|done]. cbn [orb negb] in Hd.
    assert (encode_results rs = bytes) as E.
    { apply (records_uncut RESULT_RECORD_BYTES encode_result
               ltac:(unfold RESULT_RECORD_BYTES; lia) bytes decode_result); try done.
      apply encode_decode_result. }
    split; [done|]. intros ->. by subst bytes.
Qed.
