(* ===== verification/ReadRules.v ===== *)
(** * Read-path rules

    The decision tables of [cmd/racer/core/src/read/mod.rs]: local workers, refresh cohorts,
    serving and persistence policy, the window plan of a range read, the order in which a
    reader visits a page's owners, response classification, and origin authority.  Canonical
    ranks and list positions are [nat]; byte counts, instants and credits are [N]. *)

From S2P Require Import Prelude Bytes Budget ObjectModel.

Local Open Scope racer_scope.

(** ** Local workers *)

Section workers.
(** The crate [sha2]. *)
Variable sha256 : list N → list N.

(** [WorkerMap], its workers sorted. *)
Record WorkerMap := mkWorkerMap { wm_workers : list N }.

Fixpoint adjacent_equal (l : list N) : bool :=
  match l with
  | a :: (b :: _) as rest => (a =? b)%N || adjacent_equal rest
  | _ => false
  end.

(** [WorkerMap::new]. *)
Definition worker_map_new (workers : list N) : result WorkerMap Error :=
  let workers := merge_sort N.le workers in
  if bool_decide (workers = []) || adjacent_equal workers then Err Error_InvalidConfiguration
  else Ok (mkWorkerMap workers).

(** [WorkerMap::select_digest]; indexing outside the workers is [None]. *)
Definition select_digest (m : WorkerMap) (digest : list N) : option N :=
  wm_workers m !! N.to_nat (from_be_bytes (take 8 digest) `mod` len (wm_workers m))%N.

(** [WorkerMap::select] of an object's cache name and key. *)
Definition worker_select (m : WorkerMap) (cache key : list N) (page : N) : option N :=
  select_digest m (sha256 (lit "racer.local-worker.v1" ++ [0%N] ++ be_bytes 8 (len cache) ++ cache ++ key ++
                           be_bytes 8 page)).
End workers.

(** ** Operations and responses *)

Inductive OperationKind :=
| OperationKind_Subscribe
| OperationKind_Page
| OperationKind_Metadata (fresh : bool)
| OperationKind_Bootstrap
| OperationKind_Prefetch.

#[export] Instance OperationKind_eq_dec : EqDecision OperationKind.
Proof. solve_decision. Defined.

Inductive ResponseKind :=
| ResponseKind_Selected
| ResponseKind_Bootstrap
| ResponseKind_Page
| ResponseKind_Metadata
| ResponseKind_Miss
| ResponseKind_NotFound
| ResponseKind_VersionUnavailable
| ResponseKind_Unavailable
| ResponseKind_Overloaded
| ResponseKind_OriginRejected
| ResponseKind_OriginForbidden
| ResponseKind_StaleMembership
| ResponseKind_Prefetch.

#[export] Instance ResponseKind_eq_dec : EqDecision ResponseKind.
Proof. solve_decision. Defined.

(** [PeerResponse] with its payloads as parameters, and [PeerResponse::kind]. *)
Inductive PeerResponse (P G R : Type) :=
| PeerResponse_Selected (metadata : ObjectMetadata) (ciphertext : P) (grant : G)
| PeerResponse_Bootstrap (metadata : ObjectMetadata) (page_zero : option P)
| PeerResponse_Page (metadata : ObjectMetadata) (ciphertext : P)
| PeerResponse_Metadata (metadata : ObjectMetadata)
| PeerResponse_Miss
| PeerResponse_NotFound
| PeerResponse_VersionUnavailable
| PeerResponse_Unavailable
| PeerResponse_Overloaded
| PeerResponse_OriginRejected
| PeerResponse_OriginForbidden
| PeerResponse_StaleMembership
| PeerResponse_Prefetch (results : list R).
Arguments PeerResponse_Selected {P G R}.
Arguments PeerResponse_Bootstrap {P G R}.
Arguments PeerResponse_Page {P G R}.
Arguments PeerResponse_Metadata {P G R}.
Arguments PeerResponse_Miss {P G R}.
Arguments PeerResponse_NotFound {P G R}.
Arguments PeerResponse_VersionUnavailable {P G R}.
Arguments PeerResponse_Unavailable {P G R}.
Arguments PeerResponse_Overloaded {P G R}.
Arguments PeerResponse_OriginRejected {P G R}.
Arguments PeerResponse_OriginForbidden {P G R}.
Arguments PeerResponse_StaleMembership {P G R}.
Arguments PeerResponse_Prefetch {P G R}.

Definition response_kind {P G R} (r : PeerResponse P G R) : ResponseKind :=
  match r with
  | PeerResponse_Selected _ _ _ => ResponseKind_Selected
  | PeerResponse_Bootstrap _ _ => ResponseKind_Bootstrap
  | PeerResponse_Page _ _ => ResponseKind_Page
  | PeerResponse_Metadata _ => ResponseKind_Metadata
  | PeerResponse_Miss => ResponseKind_Miss
  | PeerResponse_NotFound => ResponseKind_NotFound
  | PeerResponse_VersionUnavailable => ResponseKind_VersionUnavailable
  | PeerResponse_Unavailable => ResponseKind_Unavailable
  | PeerResponse_Overloaded => ResponseKind_Overloaded
  | PeerResponse_OriginRejected => ResponseKind_OriginRejected
  | PeerResponse_OriginForbidden => ResponseKind_OriginForbidden
  | PeerResponse_StaleMembership => ResponseKind_StaleMembership
  | PeerResponse_Prefetch _ => ResponseKind_Prefetch
  end.

Definition has_payload (k : ResponseKind) : bool :=
  match k with
  | ResponseKind_Selected | ResponseKind_Bootstrap | ResponseKind_Page | ResponseKind_Metadata => true
  | _ => false
  end.

Definition answers (k : ResponseKind) (operation : OperationKind) : bool :=
  match k, operation with
  | ResponseKind_Selected, OperationKind_Subscribe
  | ResponseKind_Bootstrap, OperationKind_Bootstrap
  | ResponseKind_Page, OperationKind_Page
  | ResponseKind_Metadata, OperationKind_Metadata _ => true
  | _, _ => false
  end.

Inductive ProbeOutcome :=
| ProbeOutcome_CopyMiss
| ProbeOutcome_Unreachable
| ProbeOutcome_Overloaded
| ProbeOutcome_VersionUnavailable
| ProbeOutcome_UnusableCopy.

#[export] Instance ProbeOutcome_eq_dec : EqDecision ProbeOutcome.
Proof. solve_decision. Defined.

(** [classify]: [validate] is the result of validating the payload. *)
Definition classify (response : ResponseKind) (operation : OperationKind) (acquire : bool)
    (validate : result () Error) : result (option ProbeOutcome) Error :=
  match response with
  | ResponseKind_Selected | ResponseKind_Bootstrap | ResponseKind_Page | ResponseKind_Metadata =>
      if negb (answers response operation) then Err Error_CorruptRecord
      else let? _ := validate in Ok None
  | ResponseKind_Miss => Ok (Some ProbeOutcome_CopyMiss)
  | ResponseKind_NotFound =>
      Err (match operation with
           | OperationKind_Bootstrap | OperationKind_Metadata true =>
               if acquire then Error_NotFound else Error_Unauthorized
           | _ => Error_Unauthorized
           end)
  | ResponseKind_VersionUnavailable => Ok (Some ProbeOutcome_VersionUnavailable)
  | ResponseKind_Unavailable => Ok (Some ProbeOutcome_Unreachable)
  | ResponseKind_Overloaded => Ok (Some ProbeOutcome_Overloaded)
  | ResponseKind_OriginRejected => Err Error_OriginRejected
  | ResponseKind_OriginForbidden => Err Error_OriginForbidden
  | ResponseKind_StaleMembership => Err Error_IncompatibleMembership
  | ResponseKind_Prefetch => Err Error_CorruptRecord
  end.

Definition unusable_copy (error : Error) (operation : OperationKind) : option ProbeOutcome :=
  match error, operation with
  | (Error_CorruptRecord | Error_MissingKey), (OperationKind_Page | OperationKind_Bootstrap) =>
      Some ProbeOutcome_UnusableCopy
  | _, _ => None
  end.

(** The outcomes that make a miss transient. *)
Definition transient (outcome : ProbeOutcome) : bool :=
  match outcome with
  | ProbeOutcome_Unreachable | ProbeOutcome_Overloaded | ProbeOutcome_UnusableCopy => true
  | _ => false
  end.

Definition origin_miss_error (predecessor_evidence : list ProbeOutcome) : Error :=
  if existsb transient predecessor_evidence then Error_Unavailable else Error_VersionUnavailable.

(** The facts an origin authority was minted from, for objects of [O]. *)
Record AuthorityFacts (O : Type) := mkAuthority {
  af_object : O; af_page : N; af_rank : nat; af_predecessor_evidence : nat; af_member : bool; af_local : bool
}.
Arguments mkAuthority {O}.
Arguments af_object {O}.
Arguments af_page {O}.
Arguments af_rank {O}.
Arguments af_predecessor_evidence {O}.
Arguments af_member {O}.
Arguments af_local {O}.

Definition validate_origin_authority {O} `{EqDecision O} (facts : AuthorityFacts O) (object : O) (page : N) :
    result () Error :=
  if negb (bool_decide (object = af_object facts)) || negb (page =? af_page facts)%N then Err Error_Unauthorized
  else if (3 <=? af_rank facts)%nat || negb (af_predecessor_evidence facts =? af_rank facts)%nat ||
          negb (af_member facts)
  then Err Error_Unauthorized
  else if af_local facts &&
          (negb (af_rank facts =? 0)%nat || negb (af_predecessor_evidence facts =? 0)%nat)
  then Err Error_Unauthorized
  else Ok ().

(** ** Refresh cohorts *)

Definition MAX_WAITERS : N := 64.
Definition MAX_REFRESH_ATTEMPTS : N := 8.

(** [MetadataSelector] of the object model. *)
Inductive MetadataSelector := MetadataSelector_Fresh | MetadataSelector_Pinned (etag : list N).

Inductive RefreshPurpose :=
| RefreshPurpose_Current
| RefreshPurpose_Pinned (etag : list N)
| RefreshPurpose_Bootstrap.

(** [From<MetadataSelector>]. *)
Definition purpose_from (selector : MetadataSelector) : RefreshPurpose :=
  match selector with
  | MetadataSelector_Fresh => RefreshPurpose_Current
  | MetadataSelector_Pinned etag => RefreshPurpose_Pinned etag
  end.

Definition purpose_selector (p : RefreshPurpose) : MetadataSelector :=
  match p with
  | RefreshPurpose_Current | RefreshPurpose_Bootstrap => MetadataSelector_Fresh
  | RefreshPurpose_Pinned etag => MetadataSelector_Pinned etag
  end.

Definition purpose_bootstrap (p : RefreshPurpose) : bool :=
  match p with RefreshPurpose_Bootstrap => true | _ => false end.

Inductive Settlement := Settlement_Finish | Settlement_Retry.

Definition refresh_settlement (error : Error) (remaining_attempts : N) : Settlement :=
  let rejected := match error with Error_OriginRejected | Error_OriginForbidden => true | _ => false end in
  let caller_budget :=
    match error with
    | Error_Cancelled | Error_DeadlineExceeded | Error_HopBudgetExhausted => true
    | Error_Unavailable => (remaining_attempts =? 0)%N
    | _ => false
    end in
  if rejected || caller_budget then Settlement_Retry else Settlement_Finish.

(** ** Serving peers *)

Record ServeFacts := mkServe {
  sf_operation : OperationKind; sf_copy_only : bool; sf_object_matches : bool; sf_cache_available : bool
}.

Inductive ServeAction :=
| ServeAction_Reject (error : Error)
| ServeAction_Miss
| ServeAction_CopyOnly
| ServeAction_Acquire.

Definition serve_action (facts : ServeFacts) : ServeAction :=
  if bool_decide (sf_operation facts = OperationKind_Subscribe) then ServeAction_Reject Error_InvalidRequest
  else if negb (sf_object_matches facts) then ServeAction_Reject Error_InvalidRequest
  else if negb (sf_cache_available facts) then ServeAction_Miss
  else if sf_copy_only facts && negb (bool_decide (sf_operation facts = OperationKind_Prefetch))
  then ServeAction_CopyOnly
  else ServeAction_Acquire.

Definition serve_deadline (scope route : N) : N := N.min scope route.

(** [iter().position(|n| n == x)]. *)
Definition index_of {A} `{EqDecision A} (x : A) (l : list A) : option nat := fst <$> list_find (x =.) l.

Definition copy_join_allowed {A} `{EqDecision A} (owners : list A) (local requester : A) : bool :=
  match index_of requester owners with
  | None => true
  | Some theirs => match index_of local owners with Some mine => (mine <? theirs)%nat | None => false end
  end.

(** ** Small policies *)

Definition recoverable (error : Error) : bool :=
  match error with
  | Error_Unavailable | Error_Io | Error_Os _ | Error_Overloaded | Error_CorruptRecord | Error_MissingKey
  | Error_Cancelled | Error_InvalidRequest | Error_HeaderTooLarge => true
  | _ => false
  end.

Definition peer_error (error : Error) : option ResponseKind :=
  match error with
  | Error_NotFound => Some ResponseKind_NotFound
  | Error_VersionUnavailable => Some ResponseKind_VersionUnavailable
  | Error_Overloaded => Some ResponseKind_Overloaded
  | Error_OriginRejected => Some ResponseKind_OriginRejected
  | Error_OriginForbidden => Some ResponseKind_OriginForbidden
  | Error_Unavailable | Error_HopBudgetExhausted | Error_DeadlineExceeded => Some ResponseKind_Unavailable
  | _ => None
  end.

Definition optional_ceiling (limit one_page : N) : N := N.min limit (N.max (limit / 2) one_page).

Definition optional_headroom (limit used amount one_page : N) : bool :=
  let ceiling := optional_ceiling limit one_page in
  (amount <=? ceiling)%N && (used <=? ceiling - amount)%N.

Definition retention_eligible (owned enabled seen : bool) : bool := owned || (enabled && seen).

(** [retention_score]: overflow of the [u8] addition is [None]. *)
Definition retention_score (heat : N) (owned enabled : bool) : option N :=
  if enabled then checked_add U8_MAX heat (if owned then 1 else 0)%N else Some 0%N.

Inductive Persist := Persist_Ineligible | Persist_Resident | Persist_NoHeadroom | Persist_Write.

Record PersistFacts := mkPersist {
  pf_eligible : bool; pf_metadata_valid : bool; pf_resident : bool; pf_owned : bool;
  pf_dirty_limit : N; pf_dirty_used : N; pf_amount : N; pf_one_page : N
}.

Definition persist (facts : PersistFacts) : Persist :=
  if negb (pf_eligible facts) || negb (pf_metadata_valid facts) then Persist_Ineligible
  else if pf_resident facts then Persist_Resident
  else if negb (pf_owned facts) &&
          negb (optional_headroom (pf_dirty_limit facts) (pf_dirty_used facts) (pf_amount facts) (pf_one_page facts))
  then Persist_NoHeadroom
  else Persist_Write.

(** ** The window of a range read *)

Definition DIRECT_AHEAD : nat := 1.
Definition SELECTIONS : nat := 4.
Definition PAGE_ATTEMPTS : N := 8.
Definition PAGE_LINKS : N := 16.

Inductive SlotKind :=
| SlotKind_Probing
| SlotKind_Missing (select : bool)
| SlotKind_Fetching
| SlotKind_Selecting
| SlotKind_Ready
| SlotKind_Failed.

#[export] Instance SlotKind_eq_dec : EqDecision SlotKind.
Proof. solve_decision. Defined.

Definition is_missing (s : SlotKind) : bool := match s with SlotKind_Missing _ => true | _ => false end.

Definition first_failure (slots : list SlotKind) : option nat := index_of SlotKind_Failed slots.

(** The loop of [direct_fills] over the slots from [index] up to the limit. *)
Fixpoint fill_ahead (slots : list SlotKind) (elsewhere : nat → bool) (direct_ahead ahead index : nat) : list nat :=
  match slots with
  | [] => []
  | slot :: slots =>
      if (ahead <? direct_ahead)%nat then
        if is_missing slot && negb (elsewhere index)
        then index :: fill_ahead slots elsewhere direct_ahead (S ahead) (S index)
        else fill_ahead slots elsewhere direct_ahead ahead (S index)
      else []
  end.

Definition direct_fills (slots : list SlotKind) (direct_ahead : nat) (elsewhere : nat → bool) : list nat :=
  let limit := default (length slots) (first_failure slots) in
  let head :=
    match slots with
    | slot :: _ => if (0 <? limit)%nat && (is_missing slot || bool_decide (slot = SlotKind_Selecting)) then [0%nat] else []
    | [] => []
    end in
  let ahead := length (List.filter (λ s, bool_decide (s = SlotKind_Fetching)) (drop 1 slots)) in
  head ++ fill_ahead (drop 1 (take limit slots)) elsewhere direct_ahead ahead 1.

Definition may_select (selections spare : nat) : bool :=
  (selections <? SELECTIONS)%nat && ((selections =? 0)%nat || (0 <? spare)%nat).

Definition div_ceil_nat (n d : nat) : nat := Nat.div (n + (d - 1)) d.

Definition share (holes selections spare : nat) : nat :=
  let free := (SELECTIONS - selections)%nat in
  let startable := if (selections =? 0)%nat then Nat.min free (spare + 1) else Nat.min free spare in
  Nat.max (div_ceil_nat holes (Nat.max startable 1)) 1.

(** The intervals of a demand: the newest first while it is built. *)
Definition extend_demand (intervals : list (N * N)) (number : N) (full : bool) : option (list (N * N)) :=
  match intervals with
  | (s, e) :: rest =>
      if (e =? number)%N then Some ((s, e + 1)%N :: rest)
      else if full then None else Some ((number, number + 1)%N :: intervals)
  | [] => if full then None else Some [(number, number + 1)%N]
  end.

(** The loop of [selection_demand]: [intervals] and [pages] are reversed. *)
Fixpoint demand_loop (slots : list SlotKind) (number : N) (elsewhere : N → bool) (limit max_intervals : nat)
    (intervals : list (N * N)) (pages : list N) : list (N * N) * list N :=
  match slots with
  | [] => (intervals, pages)
  | slot :: slots =>
      if (limit <=? length pages)%nat then (intervals, pages)
      else if negb (bool_decide (slot = SlotKind_Missing true)) || elsewhere number
      then demand_loop slots (number + 1) elsewhere limit max_intervals intervals pages
      else
        match extend_demand intervals number (length intervals =? max_intervals - 1)%nat with
        | None => (intervals, pages)
        | Some intervals =>
            demand_loop slots (number + 1) elsewhere limit max_intervals intervals (number :: pages)
        end
  end.

(** [selection_demand]: the pages, a [BTreeSet], in increasing order. *)
Definition selection_demand (slots : list SlotKind) (next : N) (elsewhere : N → bool)
    (limit max_intervals : nat) : option (list (N * N) * list N) :=
  let '(intervals, pages) := demand_loop slots next elsewhere limit max_intervals [] [] in
  if bool_decide (pages = []) then None else Some (rev intervals, rev pages).

Inductive PageBudget :=
| PageBudget_Client (deadline : N)
| PageBudget_Progressing (timeout : N).

Definition next_page (p : PageBudget) (now : N) : result AcquisitionBudget Error :=
  match p with
  | PageBudget_Progressing timeout => Ok (new_budget (now + timeout)%N PAGE_ATTEMPTS PAGE_LINKS)
  | PageBudget_Client deadline =>
      if (deadline <=? now)%N then Err Error_DeadlineExceeded
      else Ok (new_budget deadline PAGE_ATTEMPTS PAGE_LINKS)
  end.

(** ** Leaders *)

Inductive LeaderSource := LeaderSource_Retained | LeaderSource_SharedLocal | LeaderSource_Cached.

Definition leader_source (retained plaintext local_job unverified : bool) : LeaderSource :=
  if retained then LeaderSource_Retained
  else if plaintext && (local_job || unverified) then LeaderSource_SharedLocal
  else LeaderSource_Cached.

Inductive FailureKind (E : Type) :=
| FailureKind_OriginRejected
| FailureKind_OriginForbidden
| FailureKind_Terminal (error : E).
Arguments FailureKind_OriginRejected {E}.
Arguments FailureKind_OriginForbidden {E}.
Arguments FailureKind_Terminal {E}.

Definition acquisition_failure (error : Error) : FailureKind Error :=
  match error with
  | Error_OriginRejected => FailureKind_OriginRejected
  | Error_OriginForbidden => FailureKind_OriginForbidden
  | error => FailureKind_Terminal error
  end.

Definition ciphertext_publish_tolerated (error : Error) : bool :=
  match error with Error_Overloaded | Error_MissingKey | Error_Unavailable => true | _ => false end.

Inductive Source := Source_Local | Source_Hedge | Source_Peer | Source_Origin.

#[export] Instance Source_eq_dec : EqDecision Source.
Proof. solve_decision. Defined.

Definition duplicate_bytes (page_bytes : N) : N := (page_bytes * 2 + 16)%N.

Definition hedge_page_charges (page_bytes pages : N) : N * N :=
  (page_bytes * pages, (page_bytes + 16) * pages)%N.

(** ** The order in which a reader visits a page's owners *)

Inductive ReplicaSelection := ReplicaSelection_Primary | ReplicaSelection_Spread.

#[export] Instance ReplicaSelection_eq_dec : EqDecision ReplicaSelection.
Proof. solve_decision. Defined.

(** An array of three ranks, of which the first [vo_len] are visited. *)
Record VisitOrder := mkOrder { vo_ranks : list nat; vo_len : nat }.

Definition canonical_order (n : nat) : VisitOrder := mkOrder [0; 1; 2]%nat (Nat.min n 3).

(** [VisitOrder::ranks]. *)
Definition order_ranks (o : VisitOrder) : list nat := take (vo_len o) (vo_ranks o).

(** [VisitOrder::get]. *)
Definition order_get (o : VisitOrder) (index : nat) : option nat := order_ranks o !! index.

(** The sort key [(!neighbor, u64::MAX - score, rank)], compared in order. *)
Definition visit_before (neighbor : nat → bool) (score : nat → N) (a b : nat) : bool :=
  let ka := (U64_MAX - score a)%N in
  let kb := (U64_MAX - score b)%N in
  match neighbor a, neighbor b with
  | true, false => true
  | false, true => false
  | _, _ => (ka <? kb)%N || ((ka =? kb)%N && (a <=? b)%nat)
  end.

Definition visit_order (selection : ReplicaSelection) (n : nat) (neighbor : nat → bool) (score : nat → N) :
    VisitOrder :=
  let order := canonical_order n in
  if bool_decide (selection = ReplicaSelection_Primary) || (vo_len order <? 2)%nat then order
  else mkOrder (merge_sort (λ a b, Is_true (visit_before neighbor score a b)) (order_ranks order) ++
                drop (vo_len order) (vo_ranks order)) (vo_len order).

(** [ranks[..=i].rotate_right(1)]. *)
Definition rotate_right_1 {A} (i : nat) (l : list A) : list A :=
  match l !! i with
  | Some x => x :: take i l ++ drop (S i) l
  | None => l
  end.

Definition lineage_first (order : VisitOrder) (since : list (option N)) (neighbor : nat → bool) : VisitOrder :=
  match order_get order 0 with
  | None => order
  | Some first =>
      match since !! first with
      | Some (Some newest) =>
          let first_neighbor := neighbor first in
          let older (i : nat) :=
            match vo_ranks order !! i with
            | Some rank =>
                (first <? rank)%nat && (negb first_neighbor || neighbor rank) &&
                match since !! rank with Some (Some s) => (s <? newest)%N | _ => false end
            | None => false
            end in
          match List.find older (seq 1 (vo_len order - 1)) with
          | Some i => mkOrder (rotate_right_1 i (vo_ranks order)) (vo_len order)
          | None => order
          end
      | _ => order
      end
  end.

Inductive Answering := Answering_Answers | Answering_Unanswered | Answering_Silent.

#[export] Instance Answering_eq_dec : EqDecision Answering.
Proof. solve_decision. Defined.

(** [demote_unanswered]: ranks past the visited ones are left zero. *)
Definition demote_unanswered (order : VisitOrder) (answering : nat → Answering) : VisitOrder :=
  let pass a := List.filter (λ rank, bool_decide (answering rank = a)) (order_ranks order) in
  let ranks := pass Answering_Answers ++ pass Answering_Unanswered ++ pass Answering_Silent in
  mkOrder (ranks ++ replicate (3 - length ranks) 0%nat) (vo_len order).

(** ** Every order visits each owner once *)

(** An order over the first [n] ranks. *)
Definition order_of (n : nat) (o : VisitOrder) : Prop :=
  length (vo_ranks o) = 3 ∧ vo_len o = Nat.min n 3 ∧ order_ranks o ≡ₚ seq 0 (Nat.min n 3).

Lemma order_of_len n o : order_of n o → length (order_ranks o) = Nat.min n 3.
Proof. intros (_ & _ & Hp). by rewrite Hp, length_seq. Qed.

Lemma order_of_get n o i rank : order_of n o → order_get o i = Some rank → rank < Nat.min n 3 ∧ i < Nat.min n 3.
Proof.
  intros Ho Hg. assert (i < Nat.min n 3) by (rewrite <- (order_of_len n o Ho); by eapply lookup_lt_Some).
  destruct Ho as (_ & _ & Hp).
  assert (Hin : rank ∈ order_ranks o) by by eapply list_elem_of_lookup_2.
  rewrite Hp, elem_of_seq in Hin. lia.
Qed.

Lemma canonical_order_of n : order_of n (canonical_order n).
Proof.
  unfold order_of, canonical_order, order_ranks; simpl. split_and!; [done|done|].
  destruct n as [|[|[|n]]]; simpl; try done. by replace (n `min` 0) with 0 by lia.
Qed.

Lemma visit_order_of selection n neighbor score : order_of n (visit_order selection n neighbor score).
Proof.
  unfold visit_order. destruct (bool_decide _ || _); [apply canonical_order_of|].
  destruct (canonical_order_of n) as (H3 & Hl & Hp).
  set (o := canonical_order n) in *. clearbody o.
  match goal with |- context [merge_sort ?R (order_ranks o)] => set (sorted := merge_sort R (order_ranks o)) end.
  assert (Hs : sorted ≡ₚ order_ranks o) by apply merge_sort_Permutation. clearbody sorted.
  assert (Hlen : length (order_ranks o) = vo_len o).
  { unfold order_ranks. rewrite length_take. lia. }
  assert (Hls : length sorted = vo_len o) by (rewrite <- Hlen; by apply Permutation_length).
  unfold order_of; split_and!; [simpl; rewrite length_app, length_drop; lia|done|].
  unfold order_ranks at 1; simpl. rewrite take_app_le, take_ge by lia. by rewrite Hs.
Qed.

Lemma rotate_right_1_perm {A} i (l : list A) : rotate_right_1 i l ≡ₚ l.
Proof.
  unfold rotate_right_1. destruct (l !! i) as [x|] eqn:Hx; [|done].
  rewrite <- (take_drop_middle l i x Hx) at 3. by rewrite Permutation_middle.
Qed.

Lemma take_rotate_right_1 {A} i n (l : list A) : i < n → n ≤ length l → take n (rotate_right_1 i l) = rotate_right_1 i (take n l).
Proof.
  intros Hi Hn. unfold rotate_right_1. destruct (lookup_lt_is_Some_2 l i) as [x Hx]; [lia|].
  rewrite lookup_take_lt, Hx by lia. destruct n as [|n]; [lia|]. simpl. f_equal.
  rewrite take_app_ge by (rewrite length_take; lia). rewrite take_take, Nat.min_l by lia.
  f_equal. rewrite skipn_firstn_comm. rewrite length_take. f_equal. lia.
Qed.

Lemma lineage_first_of n o since neighbor : order_of n o → order_of n (lineage_first o since neighbor).
Proof.
  intros (H3 & Hl & Hp). unfold lineage_first.
  destruct (order_get o 0) as [first|]; [|done]. destruct (since !! first) as [[newest|]|]; [|done|done].
  destruct (List.find _ _) as [i|] eqn:Hf; [|done].
  apply List.find_some in Hf as [Hi _]. apply List.in_seq in Hi.
  unfold order_of, order_ranks in *; simpl.
  rewrite take_rotate_right_1 by lia. rewrite !rotate_right_1_perm. done.
Qed.

Lemma filter_pass_perm {A} (p : A → Answering) (l : list A) :
  List.filter (λ x, bool_decide (p x = Answering_Answers)) l ++
  List.filter (λ x, bool_decide (p x = Answering_Unanswered)) l ++
  List.filter (λ x, bool_decide (p x = Answering_Silent)) l ≡ₚ l.
Proof.
  induction l as [|x l IH]; simpl; [done|].
  destruct (p x); simpl; rewrite <- ?Permutation_middle; by rewrite IH.
Qed.

Lemma demote_ranks n o answering : order_of n o →
  order_ranks (demote_unanswered o answering) =
    List.filter (λ r, bool_decide (answering r = Answering_Answers)) (order_ranks o) ++
    List.filter (λ r, bool_decide (answering r = Answering_Unanswered)) (order_ranks o) ++
    List.filter (λ r, bool_decide (answering r = Answering_Silent)) (order_ranks o).
Proof.
  intros Ho. unfold demote_unanswered, order_ranks at 1; simpl.
  rewrite take_app_le, take_ge; [done|..]; rewrite filter_pass_perm, (order_of_len n o Ho);
    destruct Ho as (_ & -> & _); lia.
Qed.

Lemma demote_unanswered_of n o answering : order_of n o → order_of n (demote_unanswered o answering).
Proof.
  intros Ho. split_and!.
  - unfold demote_unanswered; simpl. rewrite length_app, length_replicate, filter_pass_perm, (order_of_len n o Ho). lia.
  - apply Ho.
  - rewrite (demote_ranks n o answering Ho), filter_pass_perm. apply Ho.
Qed.

(** The derived order of [Answering]. *)
Definition answering_level (a : Answering) : nat :=
  match a with Answering_Answers => 0 | Answering_Unanswered => 1 | Answering_Silent => 2 end.

Lemma filter_level_sorted {A} (p : A → Answering) (a : Answering) (l : list A) :
  StronglySorted (λ x y, answering_level (p x) ≤ answering_level (p y)) (List.filter (λ x, bool_decide (p x = a)) l).
Proof.
  induction l as [|x l IH]; simpl; [constructor|].
  case_bool_decide as Hx; [|done]. constructor; [done|].
  apply Forall_forall. intros y Hy. apply list_elem_of_In, List.filter_In in Hy as [_ Hy].
  apply bool_decide_eq_true in Hy. by rewrite Hx, Hy.
Qed.

Lemma sorted_levels {A} (R : A → A → Prop) l1 l2 :
  StronglySorted R l1 → StronglySorted R l2 → (∀ x y, x ∈ l1 → y ∈ l2 → R x y) → StronglySorted R (l1 ++ l2).
Proof.
  intros H1 H2 H12. induction H1 as [|x l1 H1 IH Hx]; simpl; [done|]. constructor.
  - apply IH. set_solver.
  - apply Forall_app. split; [done|]. apply Forall_forall. set_solver.
Qed.

Lemma elem_of_pass {A} (p : A → Answering) a l x :
  x ∈ List.filter (λ x, bool_decide (p x = a)) l → p x = a.
Proof. intros Hx. apply list_elem_of_In, List.filter_In in Hx as [_ Hx]. by apply bool_decide_eq_true in Hx. Qed.

(** However a reader orders a page's owners (by neighbourhood and score, with an owner that
    arrived earlier moved first, then with unanswering owners demoted), it visits each owner
    exactly once, owners that answer before owners that left a request unanswered before
    silent ones. *)
Theorem reader_visits_every_owner_once selection n neighbor score since answering :
  let order := demote_unanswered (lineage_first (visit_order selection n neighbor score) since neighbor) answering in
  order_ranks order ≡ₚ seq 0 (Nat.min n 3) ∧
  StronglySorted (λ a b, answering_level (answering a) ≤ answering_level (answering b)) (order_ranks order) ∧
  (∀ i, is_Some (order_get order i) ↔ i < Nat.min n 3).
Proof.
  intros order.
  assert (Hb : order_of n (lineage_first (visit_order selection n neighbor score) since neighbor))
    by apply lineage_first_of, visit_order_of.
  assert (Ho : order_of n order) by by apply demote_unanswered_of.
  split_and!; [apply Ho|..].
  - unfold order. rewrite (demote_ranks n) by done.
    apply sorted_levels; [apply filter_level_sorted|apply sorted_levels; try apply filter_level_sorted|].
    + intros x y Hx%elem_of_pass Hy%elem_of_pass. rewrite Hx, Hy. simpl; lia.
    + intros x y Hx%elem_of_pass [Hy%elem_of_pass|Hy%elem_of_pass]%elem_of_app; rewrite Hx, Hy; simpl; lia.
  - intros i. unfold order_get. rewrite lookup_lt_is_Some, (order_of_len n order Ho). done.
Qed.

(** ** The window plan *)

(** The pages of a list of half-open intervals, newest first. *)
Definition demand_ok (next : N) (intervals : list (N * N)) (pages : list N) : Prop :=
  (∀ p, p ∈ pages ↔ ∃ s e, (s, e) ∈ intervals ∧ (s ≤ p < e)%N) ∧
  StronglySorted (λ a b, b < a)%N pages ∧
  StronglySorted (λ a b, b.2 < a.1)%N intervals ∧
  (∀ s e, (s, e) ∈ intervals → (s < e ≤ next)%N) ∧
  (∀ p, p ∈ pages → p < next)%N.

Lemma demand_ok_skip next intervals pages : demand_ok next intervals pages → demand_ok (next + 1) intervals pages.
Proof.
  intros (Hp & Hs & Hi & Hb & Hn). split_and!; [done|done|done|..].
  - intros s e Hin. specialize (Hb s e Hin). lia.
  - intros p Hin. specialize (Hn p Hin). lia.
Qed.

Lemma demand_ok_extend next intervals pages full intervals' : demand_ok next intervals pages →
  extend_demand intervals next full = Some intervals' → demand_ok (next + 1) intervals' (next :: pages).
Proof.
  intros (Hp & Hs & Hi & Hb & Hn) He.
  assert (Hsp : StronglySorted (λ a b, b < a)%N (next :: pages)) by (constructor; [done|by apply Forall_forall]).
  assert (Hnp : ∀ p, p ∈ next :: pages → (p < next + 1)%N).
  { intros p [->|Hin%Hn]%elem_of_cons; lia. }
  assert (Hnew : ∀ l, l = (next, next + 1)%N :: intervals → Forall (λ b, b.2 < next)%N intervals →
    demand_ok (next + 1) l (next :: pages)).
  { intros l -> Hf. split_and!; [|done|by constructor|..|done].
    - intros p. rewrite elem_of_cons, Hp. split.
      + intros [->|(s & e & Hin & Hse)]; [exists next, (next + 1)%N|exists s, e]; (split; [|lia]).
        * by left. * by right.
      + intros (s & e & [[= -> ->]|Hin]%elem_of_cons & Hse); [left; lia|right; by exists s, e].
    - intros s e [[= -> ->]|Hin]%elem_of_cons; [lia|specialize (Hb s e Hin); lia]. }
  unfold extend_demand in He. destruct intervals as [|[s e] rest].
  { destruct full; [done|]. injection He as <-. by apply Hnew. }
  assert (Hse : (s < e ≤ next)%N) by (apply Hb; by left).
  inversion Hi as [|? ? Hi' Hf]; subst.
  destruct (N.eqb_spec e next) as [->|Hne].
  - injection He as <-. split_and!; [|done|by constructor|..|done].
    + intros p. rewrite elem_of_cons, Hp. split.
      * intros [->|(s' & e' & [[= -> ->]|Hin]%elem_of_cons & Hb')].
        -- exists s, (next + 1)%N. split; [by left|lia].
        -- exists s, (next + 1)%N. split; [by left|lia].
        -- exists s', e'. split; [by right|lia].
      * intros (s' & e' & [[= -> ->]|Hin]%elem_of_cons & Hb').
        -- destruct (decide (p = next)) as [->|]; [by left|]. right. exists s, next. split; [by left|lia].
        -- right. exists s', e'. split; [by right|lia].
    + intros s' e' [[= -> ->]|Hin]%elem_of_cons; [lia|].
      specialize (Hb s' e' ltac:(by right)). lia.
  - destruct full; [done|]. injection He as <-. apply Hnew; [done|].
    constructor; [simpl; lia|]. eapply Forall_impl; [exact Hf|]. intros [s' e'] Hlt; simpl in *. lia.
Qed.

(** The pages a selection could demand, in order. *)
Fixpoint selectable (slots : list SlotKind) (number : N) (elsewhere : N → bool) : list N :=
  match slots with
  | [] => []
  | slot :: slots =>
      (if bool_decide (slot = SlotKind_Missing true) && negb (elsewhere number) then [number] else []) ++
      selectable slots (number + 1) elsewhere
  end.

Lemma extend_demand_length intervals number full intervals' (mx : nat) :
  full = (length intervals =? mx - 1)%nat → length intervals ≤ mx - 1 →
  extend_demand intervals number full = Some intervals' → length intervals' ≤ mx - 1.
Proof.
  intros Hf Hl He. unfold extend_demand in He. destruct intervals as [|[s e] rest].
  - destruct full; [done|]. injection He as <-. symmetry in Hf. apply Nat.eqb_neq in Hf. simpl in *. lia.
  - destruct (e =? number)%N; [by injection He as <-|]. destruct full; [done|]. injection He as <-.
    symmetry in Hf. apply Nat.eqb_neq in Hf. simpl in *. lia.
Qed.

Lemma demand_loop_spec slots number elsewhere limit mx intervals pages :
  demand_ok number intervals pages → length pages ≤ limit → length intervals ≤ mx - 1 →
  ∃ taken rest next,
    selectable slots number elsewhere = taken ++ rest ∧
    demand_ok next (demand_loop slots number elsewhere limit mx intervals pages).1
      (demand_loop slots number elsewhere limit mx intervals pages).2 ∧
    (demand_loop slots number elsewhere limit mx intervals pages).2 = rev taken ++ pages ∧
    length (rev taken ++ pages) ≤ limit ∧
    length (demand_loop slots number elsewhere limit mx intervals pages).1 ≤ mx - 1 ∧
    (rest ≠ [] → length (rev taken ++ pages) = limit ∨
      length (demand_loop slots number elsewhere limit mx intervals pages).1 = mx - 1).
Proof.
  revert number intervals pages. induction slots as [|slot slots IH]; intros number intervals pages Hok Hp Hi; simpl.
  { by exists [], [], number. }
  destruct (Nat.leb_spec limit (length pages)) as [Hle|Hlt].
  { exists [], (selectable (slot :: slots) number elsewhere), number. simpl. split_and!; try done. left. lia. }
  destruct (bool_decide (slot = SlotKind_Missing true)) eqn:Hm, (elsewhere number) eqn:He; simpl.
  1,3,4: apply IH; [by apply demand_ok_skip|done|done].
  destruct (extend_demand intervals number (length intervals =? mx - 1)) as [intervals'|] eqn:Hx.
  - destruct (IH (number + 1)%N intervals' (number :: pages)) as (taken & rest & next & Hs & Hd & H2 & Hl & Hm' & Hr).
    + by eapply demand_ok_extend.
    + simpl; lia.
    + by eapply extend_demand_length.
    + assert (Hrev : rev taken ++ number :: pages = rev (number :: taken) ++ pages).
      { simpl. by rewrite <- app_assoc. }
      exists (number :: taken), rest, next. rewrite <- Hrev. rewrite Hs. by split_and!.
  - exists [], (number :: selectable slots (number + 1) elsewhere), number. simpl. split_and!; try done; try lia.
    intros _. right. unfold extend_demand in Hx. destruct intervals as [|[s e] r].
    + destruct (Nat.eqb_spec (length (@nil (N * N))) (mx - 1)); [done|done].
    + destruct (e =? number)%N; [done|]. destruct (Nat.eqb_spec (length ((s, e) :: r)) (mx - 1)); done.
Qed.

Lemma demand_ok_nil number : demand_ok number [] [].
Proof. split_and!; try constructor; set_solver. Qed.

Lemma elem_of_rev_iff {A} (x : A) l : x ∈ rev l ↔ x ∈ l.
Proof. rewrite !list_elem_of_In. symmetry. apply List.in_rev. Qed.

Lemma StronglySorted_rev {A} (R : A → A → Prop) l : StronglySorted R l → StronglySorted (λ a b, R b a) (rev l).
Proof.
  induction 1 as [|x l Hl IH Hx]; simpl; [constructor|]. apply sorted_levels; [done|repeat constructor|].
  intros a b Ha ->%list_elem_of_singleton. rewrite Forall_forall in Hx. apply Hx.
  by apply elem_of_rev_iff.
Qed.

(** A selection demands exactly the first selectable pages of the window: a nonempty prefix
    of them, within the page limit, described page for page by at most [max_intervals - 1]
    disjoint, non-adjacent, increasing intervals; it stops short only at one of the two
    limits, and demands nothing only if nothing is selectable. *)
Theorem selection_demand_exact slots next elsewhere (limit max_intervals : nat) :
  0 < limit → 1 < max_intervals →
  match selection_demand slots next elsewhere limit max_intervals with
  | None => selectable slots next elsewhere = []
  | Some (intervals, pages) =>
      pages ≠ [] ∧ length pages ≤ limit ∧ length intervals ≤ max_intervals - 1 ∧
      (∀ p, p ∈ pages ↔ ∃ s e, (s, e) ∈ intervals ∧ (s ≤ p < e)%N) ∧
      StronglySorted (λ a b, a.2 < b.1)%N intervals ∧ StronglySorted N.lt pages ∧
      ∃ rest, selectable slots next elsewhere = pages ++ rest ∧
        (rest ≠ [] → length pages = limit ∨ length intervals = max_intervals - 1)
  end.
Proof.
  intros Hlimit Hmax. unfold selection_demand.
  destruct (demand_loop_spec slots next elsewhere limit max_intervals [] []) as (taken & rest & nx & Hs & Hd & H2 & Hl & Hm & Hr);
    [apply demand_ok_nil|simpl; lia|simpl; lia|].
  destruct (demand_loop _ _ _ _ _ _ _) as [intervals pages]. simpl in *. rewrite app_nil_r in *. subst pages.
  destruct Hd as (Hp & Hsp & Hsi & Hb & _).
  case_bool_decide as Hn.
  - assert (taken = []) as -> by (by destruct taken as [|t ts] using rev_ind; [|rewrite rev_app_distr in Hn]).
    destruct rest as [|r rest]; [done|]. exfalso.
    assert (intervals = []) as ->.
    { destruct intervals as [|[s e] l]; [done|]. exfalso. specialize (Hb s e ltac:(by left)).
      simpl in Hp. assert (Hin : s ∈ @nil N) by (apply Hp; exists s, e; split; [by left|lia]). by apply elem_of_nil in Hin. }
    simpl in Hr. destruct Hr; [done|lia|lia].
  - rewrite rev_involutive, length_rev. rewrite length_rev in Hl, Hr. split_and!; try done.
    + intros ->. by apply Hn.
    + intros p. rewrite <- elem_of_rev_iff, Hp. by setoid_rewrite elem_of_rev_iff.
    + by apply (StronglySorted_rev (λ a b, b.2 < a.1)%N).
    + apply StronglySorted_rev in Hsp. by rewrite rev_involutive in Hsp.
    + exists rest. split; [done|]. intros Hrest. destruct (Hr Hrest); [by left|by right].
Qed.

Lemma selection_demand_exact_witness :
  let slots := [SlotKind_Missing true; SlotKind_Missing true; SlotKind_Ready; SlotKind_Missing true; SlotKind_Missing true] in
  selection_demand slots 10 (λ _, false) 3 3 = Some ([(10, 12); (13, 14)]%N, [10; 11; 13]%N) ∧ [10; 11; 13]%N ≠ [].
Proof.
  split; [vm_compute; reflexivity|].
  apply (selection_demand_exact [SlotKind_Missing true; SlotKind_Missing true; SlotKind_Ready; SlotKind_Missing true;
    SlotKind_Missing true] 10 (λ _, false) 3 3); lia.
Defined.
