(* ===== verification/CheckpointDisk.v ===== *)
(** * Checkpoints on disk across a restart

    The asynchronous publication of a cut ([Checkpointer::publish_async] of [src/store/checkpoint.rs]) joined to the coordinator that
    drives it, and the selection of a cut at startup ([validate_candidate], [select] and the part of [recover_node] of
    [src/app/recovery.rs] that reads the slots, with [validate_capacity] of [src/store/catalog.rs]). *)

From S2P Require Import Prelude Bytes Http ObjectModel WireCodec Segments Checkpoint CheckpointSlots CheckpointCut ReadRules.
Local Open Scope racer_scope.
Local Open Scope N_scope.

#[export] Instance CheckpointGeometry_eq_dec : EqDecision CheckpointGeometry.
Proof. solve_decision. Defined.

(** ** Publication of a cut *)

(** [From<ReplacementError>]; what failed before the rename is an error of the filesystem. *)
Definition replacement_error (e : ReplacementError) : StoreError :=
  match e with
  | ReplacementError_BeforeRename => StoreError_Io
  | ReplacementError_RenameUncertain => StoreError_RenameUncertain
  | ReplacementError_Published => StoreError_PublishedNotDurable
  end.

(** [publish_async] up to the operation it returns. *)
Definition publish_async_setup (shards : list ShardImage) (budget : N) : result () StoreError :=
  let? estimated := snapshot_image_bytes shards in
  if budget / 2 <? estimated then Err StoreError_Overloaded else Ok ().

Section publication.
Context (sha256 : list N → list N) (cluster : list N) (budget : N).

(** The operation it returns; [encode_incremental] yields between records and is otherwise [encode]. *)
Definition publish_async_task (files : Files) (io : ReplaceIo) (n : N) (slot : nat) (shards : list ShardImage) : option (result () StoreError) * Files :=
  match checkpoint_encode sha256 (mkCheckpointImage CHECKPOINT_VERSION cluster n shards) with
  | None => (None, files)
  | Some (Err e) => (Some (Err e), files)
  | Some (Ok bytes) =>
      if budget / 2 <? len bytes then (Some (Err StoreError_Overloaded), files)
      else
        match slots_publish_async SLOTS files io slot bytes with
        | (None, files) => (None, files)
        | (Some (Ok _), files) => (Some (Ok ()), files)
        | (Some (Err e), files) => (Some (Err (replacement_error e)), files)
        end
  end.

(** ** The coordinator with its disk *)

(** A node with the files of its checkpoint directory; the node is gone once its process stops.  [ck_published] lists the sequences
    whose publication was reported as a success. *)
Record CutDisk := mkCutDisk { ck_node : option CutNode; ck_files : Files; ck_published : list N }.

(** A section of a poll that touches no file, the setup and the task of a publication with the shards it was given, and a stop. *)
Inductive DiskEvent :=
| Disk_Poll (worker : nat) (now : N) (writer_busy : bool)
| Disk_Start (worker : nat)
| Disk_Stopping (worker : nat)
| Disk_Snapshot (worker : nat) (outcome : result ShardImage StoreError)
| Disk_Publish (worker : nat)
| Disk_Task (worker : nat) (io : ReplaceIo) (shards : list ShardImage)
| Disk_Crash.

Context (control_worker : nat).

Definition reserved_shards (n : CutNode) (worker : nat) : list ShardImage :=
  match cn_workers n !! worker with Some w => match cw_reserved w with Some (_, shards) => shards | None => [] end | None => [] end.

(** The publication whose task a poll of a worker finds. *)
Definition task_of (n : CutNode) (worker : nat) : option CutPublication :=
  w ← cn_workers n !! worker; if is_some (cw_reserved w) then None else cw_task w.

Definition disk_step (d : CutDisk) (e : DiskEvent) : option CutDisk :=
  match ck_node d with
  | None => Some d
  | Some n =>
      let with_node := λ o, (λ n, mkCutDisk (Some n) (ck_files d) (ck_published d)) <$> o in
      match e with
      | Disk_Poll worker now writer_busy => with_node (cut_step control_worker n (Cut_Poll worker now writer_busy))
      | Disk_Start worker => with_node (cut_step control_worker n (Cut_Start worker))
      | Disk_Stopping worker => with_node (cut_step control_worker n (Cut_Stop worker))
      | Disk_Snapshot worker outcome => with_node (cut_step control_worker n (Cut_Snapshot worker outcome))
      | Disk_Publish worker => with_node (cut_step control_worker n (Cut_Publish worker (publish_async_setup (reserved_shards n worker) budget)))
      | Disk_Task worker io shards =>
          match task_of n worker with
          | None => Some d
          | Some p =>
              match publish_async_task (ck_files d) io (pb_sequence p) (pb_slot p) shards with
              | (None, files) => Some (mkCutDisk None files (ck_published d))
              | (Some outcome, files) =>
                  (λ n, mkCutDisk (Some n) files (match outcome with Ok _ => pb_sequence p :: ck_published d | Err _ => ck_published d end)) <$>
                  cut_step control_worker n (Cut_Task worker outcome)
              end
          end
      | Disk_Crash => Some (mkCutDisk None (ck_files d) (ck_published d))
      end
  end.

Fixpoint disk_run (d : CutDisk) (es : list DiskEvent) : option CutDisk :=
  match es with
  | [] => Some d
  | e :: es => d ← disk_step d e; disk_run d es
  end.
End publication.

(** ** Selection at startup *)

Definition MAX_ID_BYTES : N := 4096.
Definition MAX_ETAG_BYTES : N := 8192.

(** [Index::validate_descriptor]. *)
Definition index_descriptor_valid (m : VersionMetadata) : bool :=
  let v := vm_version m in
  negb (bool_decide (o_cache (v_object v) = []) || (MAX_ID_BYTES <? len (o_cache (v_object v))) || bool_decide (v_etag v = []) || (MAX_ETAG_BYTES <? len (v_etag v))).

(** [validate_capacity]. *)
Definition validate_capacity (s : IndexSnapshot) (page_capacity metadata_capacity : N) : result () StoreError :=
  let? _ := reject_when ((page_capacity <? len (is_entries s)) || (metadata_capacity <? len (is_metadata s))) in
  let? _ := index_validate_metadata s in
  let? _ := reject_when (negb (forallb index_descriptor_valid (is_metadata s ++ ((λ '(_, entry), ip_metadata entry) <$> is_entries s)))) in
  reject_when (negb (bool_decide (NoDup (fst <$> is_entries s))) || negb (bool_decide (NoDup (vm_version <$> is_metadata s)))).

Section selection.
(** The digest of records and of worker ownership, and the sizes of the decoded types. *)
Context (sha256 : list N → list N) (sizes : TypeSizes).
(** The cluster and keys of the node, the geometry and directory of its workers and their capacities. *)
Context (cluster : list N) (metadata_available : list N → bool) (available : list N → list N → bool).
Context (geometry : gmap N CheckpointGeometry) (workers : WorkerMap) (page_capacity metadata_capacity : N).
(** The page entries of each worker where the node has a device plan. *)
Context (devices : option (list N)).

(** [page_owner], [metadata_owner]. *)
Definition shard_owns_page (worker : N) (page : PageId) : bool :=
  let object := v_object (p_version page) in bool_decide (worker_select sha256 workers (o_cache object) (o_key object) (p_number page) = Some worker).
Definition shard_owns_metadata (worker : N) (object : ObjectId) : bool :=
  bool_decide (worker_select sha256 workers (o_cache object) (o_key object) 0 = Some worker).

(** One shard of a candidate; [shard_validate] may panic. *)
Definition shard_acceptable (s : ShardImage) : option bool :=
  if negb (bool_decide (geometry !! sh_worker s = Some (sh_geometry s))) then Some false
  else
    (λ r, match r with
          | Err _ => false
          | Ok _ =>
              negb (page_capacity =? 0) && is_ok (validate_capacity (sh_index s) page_capacity metadata_capacity) &&
              forallb (λ '(page, _), shard_owns_page (sh_worker s) page) (is_entries (sh_index s)) &&
              forallb (λ m, shard_owns_metadata (sh_worker s) (v_object (vm_version m))) (is_metadata (sh_index s))
          end) <$> shard_validate s.
Fixpoint shards_acceptable (l : list ShardImage) : option bool :=
  match l with
  | [] => Some true
  | s :: l => b ← shard_acceptable s; if (b : bool) then shards_acceptable l else Some false
  end.

(** [validate_candidate]. *)
Definition validate_candidate (i : CheckpointImage) : option (option CheckpointImage) :=
  let ids := sh_worker <$> ci_shards i in
  if negb (bool_decide (ci_cluster i = cluster)) then Some None
  else if negb (bool_decide (NoDup ids)) || negb (bool_decide ((list_to_set ids : gset N) = dom geometry)) then Some None
  else
    let i := filter_available metadata_available available i in
    (λ b : bool, if b then Some i else None) <$> shards_acceptable (ci_shards i).

(** The filter of [recover_node] by its device plan. *)
Definition fits_devices (i : CheckpointImage) : bool :=
  match devices with
  | None => true
  | Some plan =>
      forallb (λ s, match plan !! N.to_nat (sh_worker s) with
                    | Some page_entries => is_ok (validate_capacity (sh_index s) page_entries metadata_capacity)
                    | None => false
                    end) (ci_shards i)
  end.

(** [select] over the candidates, newest first; the first that decodes seeds the coordinator. *)
Fixpoint select_from (newest : list Candidate) (budget : N) (seed : option (nat * N)) : option (option CheckpointImage * option (nat * N)) :=
  match newest with
  | [] => Some (None, seed)
  | c :: newest =>
      match decode_with_budget sha256 sizes (cd_bytes c) budget with
      | None => None
      | Some (Err _) => select_from newest budget seed
      | Some (Ok image) =>
          let seed := match seed with Some s => Some s | None => Some (cd_slot c, ci_sequence image) end in
          if fits_devices image then
            match validate_candidate image with
            | None => None
            | Some (Some image) => Some (Some image, seed)
            | Some None => select_from newest budget seed
            end
          else select_from newest budget seed
      end
  end.

(** What [recover_node] selects on the control worker, with the coordinator that it seeds. *)
Definition recover_select (directory : SlotDirectory) (budget : N) : option (result (option CheckpointImage * CheckpointCut) StoreError) :=
  match checkpoint_candidates directory budget with
  | Err e => Some (Err e)
  | Ok candidates =>
      match select_from (reverse candidates) budget None with
      | None => None
      | Some (image, seed) =>
          Some (Ok (image,
            match seed with
            | Some (slot, n) => mkCut (cc_shards cut_new) (cc_phase cut_new) (cc_generation cut_new) (cc_started cut_new) (cc_finished cut_new) n slot
            | None => cut_new
            end))
      end
  end.
End selection.
