(* ===== verification/CheckpointDiskRuns.v ===== *)
(** * Checkpoints on disk across a restart: all runs

    No checkpoint that was reported as published is lost, wherever the process stops, if recovery can decode those published within
    its budget; when it can is stated exactly.  The cut selected at startup can be installed. *)

From S2P Require Import Prelude Bytes Http ObjectModel WireCodec Segments SegmentProofs Checkpoint CheckpointCodec CheckpointBudget CheckpointProofs.
From S2P Require Import CheckpointRuns CheckpointSlots CheckpointSlotRuns CheckpointCut CheckpointCutRuns ReadRules CheckpointDisk.
Local Open Scope racer_scope.
Local Open Scope N_scope.

(** ** What the coordinator does to the slot and the sequence *)

Definition advances (c c' : CheckpointCut) : Prop :=
  cc_slot c' = cc_slot c ∧ cc_sequence c <= cc_sequence c' ∧ (cc_sequence c <= U64_MAX → cc_sequence c' <= U64_MAX).

Lemma advances_same c c' : cc_slot c' = cc_slot c → cc_sequence c' = cc_sequence c → advances c c'.
Proof. unfold advances. intros -> ->. done. Qed.

Lemma advances_trans a b c : advances a b → advances b c → advances a c.
Proof. intros (? & ? & ?) (? & ? & ?). split_and!; [congruence|lia|auto]. Qed.

Lemma finish_advances c r c' : cut_finish c r = Some c' → advances c c'.
Proof. unfold cut_finish. intros H. destruct (publication_started c), r as [[]|]; simplify_eq; by apply advances_same. Qed.

Lemma reserve_advances c policy r c' : cut_reserve c policy = (r, c') → advances c c'.
Proof.
  unfold cut_reserve. destruct (checked_add _ _ _) as [n|] eqn:Hn; [|intros [= <- <-]; by apply advances_same]. apply checked_add_Some in Hn as [Hle ->].
  destruct (1 <? cc_slot c)%nat; intros [= <- <-]; [by apply advances_same|]. unfold advances. simpl. split_and!; [done|lia|done].
Qed.

Lemma poll_open_advances c w control count busy c' w' : poll_open c w control count busy = Some (c', w') → advances c c'.
Proof.
  unfold poll_open. intros (c1 & H1 & H)%bind_Some.
  assert (advances c c1) as Ha by (destruct (_ && _); [by eapply finish_advances|simplify_eq; by apply advances_same]).
  eapply advances_trans; [exact Ha|]. clear H1 Ha. destruct (is_some (cut_result c1)).
  { injection H as H. unfold acknowledge in H. destruct (_ =? _); simplify_eq; by apply advances_same. }
  destruct (_ && busy); [simplify_eq; by apply advances_same|]. cbn zeta in H. destruct (cw_snapshot _); [simplify_eq; by apply advances_same|].
  destruct (control && _ && _); [|simplify_eq; by apply advances_same]. apply bind_Some in H as ([shards c2] & Hs & H).
  assert (advances c1 c2) as Hs' by (unfold start_publication in Hs; destruct (cc_phase c1); simplify_eq; by apply advances_same).
  eapply advances_trans; [exact Hs'|]. destruct (cut_reserve c2 _) as [[p|e] c3] eqn:Hr; apply reserve_advances in Hr; [by simplify_eq|].
  eapply advances_trans; [exact Hr|]. apply fmap_Some in H as (c4 & H%finish_advances & [= -> ->]). done.
Qed.

Lemma poll_cut_advances c w now control count busy c' w' : poll_cut c w now control count busy = Some (c', w') → advances c c'.
Proof.
  unfold poll_cut. destruct (negb _); [intros [= <- <-]; by apply advances_same|]. set (c1 := mkCut _ _ _ _ _ _ _). intros H.
  assert (advances c c1) as H1 by (by apply advances_same). destruct (_ || (_ =? _)%nat); [|eapply advances_trans; [exact H1|by eapply poll_open_advances]].
  destruct (_ || _); [injection H as <- <-; done|]. unfold cut_restart in H. destruct (checked_add _ _ _); [|injection H as <- <-; done].
  eapply advances_trans; [|by eapply poll_open_advances]. by apply advances_same.
Qed.

Lemma at_worker_advances n k f n' : at_worker n k f = Some n' →
  (∀ w c' w', cn_workers n !! k = Some w → f (cn_cut n) w = Some (c', w') → advances (cn_cut n) c') → advances (cn_cut n) (cn_cut n').
Proof.
  unfold at_worker. destruct (cn_workers n !! k) as [w|] eqn:Hk; [|intros [= <-] _; by apply advances_same].
  intros ([c' w'] & Hf & ->)%fmap_Some H. eapply H; eauto.
Qed.

(** Only a publication that succeeded moves the slot. *)
Lemma cut_step_advances control n e n' : cut_step control n e = Some n' → (∀ k, e ≠ Cut_Task k (Ok ())) → advances (cn_cut n) (cn_cut n').
Proof.
  intros H Hne. destruct e as [k|k|k outcome|k now busy|k outcome|k setup]; eapply at_worker_advances; try exact H; intros w c' w' Hk; cbn beta.
  1-2: intros [= <- <-]; by apply advances_same.
  - destruct (is_some _); [intros [= <- <-]; by apply advances_same|]. unfold poll_task. destruct (cw_task w) as [p|]; [|intros [= <- <-]; by apply advances_same].
    destruct outcome as [[]|e]; [by destruct (Hne k)|]. destruct (cut_finish _ _) eqn:Hf; [|done]. intros [= <- <-]. by eapply finish_advances.
  - destruct (is_some _); [intros [= <- <-]; by apply advances_same|apply poll_cut_advances].
  - unfold poll_snapshot. destruct (cw_snapshot w); [|intros [= <- <-]; by apply advances_same]. destruct outcome; [intros [= <- <-]; by apply advances_same|].
    intros (c1 & Hf%finish_advances & [= -> ->])%fmap_Some. done.
  - unfold poll_publish. destruct (cw_reserved w) as [[p shards]|]; [|intros [= <- <-]; by apply advances_same].
    destruct setup; [intros [= <- <-]; by apply advances_same|]. intros (c1 & Hf%finish_advances & [= -> ->])%fmap_Some. done.
Qed.

(** The task that succeeded commits its slot. *)
Lemma task_commits control n k p n' : cut_ok control n → task_of n k = Some p → cut_step control n (Cut_Task k (Ok ())) = Some n' →
  publication_ok (cn_cut n) p ∧ cc_slot (cn_cut n') = pb_slot p ∧ cc_sequence (cn_cut n') = cc_sequence (cn_cut n).
Proof.
  intros Hok (w & Hk & Hp)%bind_Some. destruct (is_some (cw_reserved w)) eqn:Hr; [done|]. pose proof (wo_owns _ _ _ (co_workers _ n Hok k w Hk)) as Ho.
  assert (publication_ok (cn_cut n) p) as Hpok.
  { unfold owns in Ho. destruct (cc_phase (cn_cut n)); [naive_solver..| |naive_solver]. destruct (k =? control)%nat; [|naive_solver]. naive_solver. }
  simpl. unfold at_worker. rewrite Hk, Hr. intros ([c' w'] & H & ->)%fmap_Some. split; [done|]. simpl. unfold poll_task in H. rewrite Hp in H.
  destruct Hpok as [Hs Hl]. destruct (slot_flip_le _ (co_slot _ n Hok)) as [Hle _]. rewrite <- Hl in Hle. unfold cut_published in H.
  rewrite (proj2 (N.eqb_eq _ _) Hs), (proj2 (Nat.ltb_ge _ _)) in H by lia. cbn [negb orb] in H.
  destruct (cut_finish _ _) as [c1|] eqn:Hf; [|done]. injection H as <- _. apply finish_advances in Hf as Ha. unfold cut_finish in Hf.
  destruct (publication_started _); [|done]. injection Hf as <-. done.
Qed.

(** ** The files *)

Section disk.
Context (sha256 : list N → list N) (sizes : TypeSizes) (cluster : list N) (budget : N) (control_worker : nat).
(** That every cut of the run which passes the size check of its publication fits the budget of recovery. *)
Context (fit : Prop).
Hypothesis sha256_length : ∀ x, length (sha256 x) = 32%nat.

Lemma publish_async_task_files files io n slot shards r files' : (slot < 2)%nat →
  publish_async_task sha256 cluster budget files io n slot shards = (r, files') →
  files' !! slot_name (1 - slot) = files !! slot_name (1 - slot) ∧
  (r = Some (Ok ()) → ∃ bytes, checkpoint_encode sha256 (mkCheckpointImage CHECKPOINT_VERSION cluster n shards) = Some (Ok bytes) ∧ len bytes <= budget / 2 ∧
    files' !! slot_name slot = Some bytes).
Proof.
  intros Hlt. unfold publish_async_task. destruct (checkpoint_encode _ _) as [[bytes|e]|] eqn:He; [|intros [= <- <-]; by split..].
  destruct (N.ltb_spec (budget / 2) (len bytes)); [intros [= <- <-]; by split|]. destruct (slots_publish_async _ _ _ _ _) as [q files1] eqn:E.
  apply slots_publish_async_replaces in E as [Ho Hw]; [|done]. destruct q as [[[]|e]|]; intros [= <- <-]; (split; [done|]); [|done|done].
  intros _. exists bytes. split_and!; [done|done|]. destruct Hw as [?|[[] _]]; done.
Qed.

(** What a publication that reports success leaves in its slot: the cut, but only if recovery can decode it within the same budget. *)
Lemma publish_async_exact files io n slot shards files' : (slot < 2)%nat → image_typed (mkCheckpointImage CHECKPOINT_VERSION cluster n shards) →
  publish_async_task sha256 cluster budget files io n slot shards = (Some (Ok ()), files') →
  slot_image sha256 sizes files' budget slot =
    if image_memory sizes (mkCheckpointImage CHECKPOINT_VERSION cluster n shards) <=? N.min budget USIZE_MAX
    then Some (canon_image (mkCheckpointImage CHECKPOINT_VERSION cluster n shards)) else None.
Proof.
  intros Hlt Ht Hp. apply publish_async_task_files in Hp as [_ Hw]; [|done]. destruct (Hw eq_refl) as (bytes & He & _ & Hf). by eapply encoded_slot_exact.
Qed.

(** The values of a run are within their types, and a snapshot is that of the worker which takes it. *)
Definition disk_event_typed (e : DiskEvent) : Prop :=
  match e with
  | Disk_Snapshot worker outcome => cut_event_ok (Cut_Snapshot worker outcome)
  | Disk_Task _ _ shards => ∀ n, n <= U64_MAX → image_typed (mkCheckpointImage CHECKPOINT_VERSION cluster n shards)
  | _ => True
  end.

(** A cut that passes the size check of its publication fits the budget of recovery. *)
Definition publication_fits (e : DiskEvent) : Prop :=
  match e with
  | Disk_Task _ _ shards => ∀ n bytes, checkpoint_encode sha256 (mkCheckpointImage CHECKPOINT_VERSION cluster n shards) = Some (Ok bytes) →
      len bytes <= budget / 2 → image_memory sizes (mkCheckpointImage CHECKPOINT_VERSION cluster n shards) <= N.min budget USIZE_MAX
  | _ => True
  end.

Definition disk_event_ok (e : DiskEvent) : Prop := disk_event_typed e ∧ (fit → publication_fits e).

(** If all fit, a slot holds an image at least as new as all those reported; while the node runs, it is the slot the coordinator will not write. *)
Definition safe_in (files : Files) (published : list N) (slot : nat) (bound : N) : Prop :=
  fit → published = [] ∨ ∃ i, slot_image sha256 sizes files budget slot = Some i ∧ Forall (λ n, n <= ci_sequence i) published ∧ ci_sequence i <= bound.
Definition disk_ok (d : CutDisk) : Prop :=
  match ck_node d with
  | Some n => cut_ok control_worker n ∧ cc_sequence (cn_cut n) <= U64_MAX ∧ safe_in (ck_files d) (ck_published d) (cc_slot (cn_cut n)) (cc_sequence (cn_cut n))
  | None => ∃ slot bound, (slot < 2)%nat ∧ safe_in (ck_files d) (ck_published d) slot bound
  end.

Lemma safe_in_same files files' published slot bound bound' : (slot < 2)%nat → files' !! slot_name slot = files !! slot_name slot → bound <= bound' →
  safe_in files published slot bound → safe_in files' published slot bound'.
Proof.
  intros Hlt Hf Hb Hs Hfit. destruct (Hs Hfit) as [?|(i & Hi & Hall & Hle)]; [by left|]. right. exists i. split_and!; [|done|lia].
  rewrite <- Hi. eapply slot_image_same; [by apply slot_names|exact Hf].
Qed.

Lemma quiet_step_ok d n e : disk_ok d → ck_node d = Some n → cut_event_ok e → (∀ k, e ≠ Cut_Task k (Ok ())) →
  ∃ d', (λ n, mkCutDisk (Some n) (ck_files d) (ck_published d)) <$> cut_step control_worker n e = Some d' ∧ disk_ok d'.
Proof.
  unfold disk_ok at 1. intros Hd Hn He Hne. rewrite Hn in Hd. destruct Hd as (Hok & Hmax & Hsafe). destruct (cut_step_ok control_worker n e Hok He) as (n' & Hs & Hok').
  rewrite Hs. eexists. split; [done|]. destruct (cut_step_advances _ _ _ _ Hs Hne) as (Hslot & Hseq & Hm). split_and!; [done|auto|]. simpl. rewrite Hslot.
  eapply safe_in_same; [|done|exact Hseq|done]. pose proof (co_slot _ _ Hok). lia.
Qed.

Lemma task_step_ok d n k io shards : disk_ok d → ck_node d = Some n → disk_event_ok (Disk_Task k io shards) →
  ∃ d', disk_step sha256 cluster budget control_worker d (Disk_Task k io shards) = Some d' ∧ disk_ok d'.
Proof.
  intros Hd Hn [Hty Hsh]. pose proof Hd as Hd'. unfold disk_ok in Hd'. rewrite Hn in Hd'. destruct Hd' as (Hok & Hmax & Hsafe). unfold disk_step. rewrite Hn.
  destruct (task_of n k) as [p|] eqn:Hp; [|by exists d]. destruct (publish_async_task _ _ _ _ _ _ _ _) as [r files] eqn:E.
  destruct (cut_step_ok control_worker n (Cut_Task k (Ok ())) Hok I) as (n1 & Hn1 & Hok1). destruct (task_commits _ _ _ _ _ Hok Hp Hn1) as ([Hpn Hps] & Hslot & Hseq).
  destruct (slot_flip_le _ (co_slot _ n Hok)) as [Hle Hne]. pose proof (co_slot _ n Hok). rewrite <- Hps in Hle, Hne.
  apply publish_async_task_files in E as [Ho Hw]; [|lia]. replace (1 - pb_slot p)%nat with (cc_slot (cn_cut n)) in Ho by lia.
  assert (∀ bound, cc_sequence (cn_cut n) <= bound → safe_in files (ck_published d) (cc_slot (cn_cut n)) bound) as Hkeep.
  { intros bound Hb. eapply safe_in_same; [|exact Ho|exact Hb|exact Hsafe]. lia. }
  destruct r as [[[]|e]|].
  - rewrite Hn1. eexists. split; [done|]. unfold disk_ok. simpl. rewrite Hslot, Hseq. split_and!; [done|done|]. intros Hfit. right.
    destruct (Hw eq_refl) as (bytes & He & Hb & Hf). specialize (Hty (pb_sequence p) ltac:(lia)). specialize (Hsh Hfit (pb_sequence p) bytes He Hb).
    pose proof (encoded_slot_image sha256 sizes files (pb_slot p) _ bytes budget sha256_length ltac:(lia) Hty He Hsh Hf) as Himg.
    eexists. split; [exact Himg|]. cbn [canon_image ci_sequence]. split; [|lia]. constructor; [done|]. destruct (Hsafe Hfit) as [->|(i & _ & Hall & Hi)]; [constructor|].
    eapply Forall_impl; [exact Hall|]. intros q ?. simpl in *. lia.
  - destruct (cut_step_ok control_worker n (Cut_Task k (Err e)) Hok I) as (n2 & Hn2 & Hok2). rewrite Hn2. eexists. split; [done|].
    destruct (cut_step_advances _ _ _ _ Hn2) as (Hslot2 & Hseq2 & Hm2); [done|]. unfold disk_ok. simpl. rewrite Hslot2. auto.
  - eexists. split; [done|]. unfold disk_ok. simpl. exists (cc_slot (cn_cut n)), (cc_sequence (cn_cut n)). split; [lia|]. by apply Hkeep.
Qed.

Lemma disk_step_ok d e : disk_ok d → disk_event_ok e → ∃ d', disk_step sha256 cluster budget control_worker d e = Some d' ∧ disk_ok d'.
Proof.
  intros Hd He. destruct (ck_node d) as [n|] eqn:Hn; [|exists d; unfold disk_step; by rewrite Hn].
  destruct e as [k now busy|k|k|k outcome|k|k io shards|]; [..|by eapply task_step_ok|].
  1-5: destruct He as [He _]; unfold disk_step; rewrite Hn; by apply quiet_step_ok.
  unfold disk_step. rewrite Hn. eexists. split; [done|]. unfold disk_ok in *. rewrite Hn in Hd. simpl. destruct Hd as (Hok & _ & Hs).
  exists (cc_slot (cn_cut n)), (cc_sequence (cn_cut n)). split; [pose proof (co_slot _ n Hok); lia|done].
Qed.

Lemma disk_run_ok d es : disk_ok d → Forall disk_event_ok es → ∃ d', disk_run sha256 cluster budget control_worker d es = Some d' ∧ disk_ok d'.
Proof.
  intros Hok Hes. revert d Hok. induction Hes as [|e es He _ IH]; intros d Hok; cbn [disk_run]; [eauto|].
  destruct (disk_step_ok d e Hok He) as (d1 & -> & Hok1). apply IH, Hok1.
Qed.

Lemma disk_ok_found d q : disk_ok d → fit → q ∈ ck_published d →
  ∃ slot i, first_candidate sha256 sizes (SlotDirectory_Open (ck_files d)) budget = Some (Ok (Some (slot, i))) ∧ q <= ci_sequence i.
Proof.
  intros Hd Hfit Hq. assert (∃ slot bound, (slot < 2)%nat ∧ safe_in (ck_files d) (ck_published d) slot bound) as (slot & bound & Hlt & Hs).
  { unfold disk_ok in Hd. destruct (ck_node d) as [n|]; [|done]. destruct Hd as (Hok & _ & Hs). eexists _, _. split; [|exact Hs]. pose proof (co_slot _ n Hok). lia. }
  destruct (Hs Hfit) as [Hs'|(i & Hi & Hall & _)]; [rewrite Hs' in Hq; by apply elem_of_nil in Hq|]. rewrite Forall_forall in Hall. specialize (Hall q Hq).
  destruct (newest_at_least sha256 sizes (ck_files d) budget slot i Hlt Hi) as (slot' & i' & Hf & Hle). exists slot', i'. split; [exact Hf|]. simpl in Hall. lia.
Qed.
End disk.

(** ** Selection *)

Section selected.
Context (sha256 : list N → list N) (sizes : TypeSizes) (cluster : list N) (metadata_available : list N → bool) (available : list N → list N → bool).
Context (geometry : gmap N CheckpointGeometry) (workers : WorkerMap) (page_capacity metadata_capacity : N) (devices : option (list N)).
Notation shard_acceptable := (shard_acceptable sha256 geometry workers page_capacity metadata_capacity).
Notation shards_acceptable := (shards_acceptable sha256 geometry workers page_capacity metadata_capacity).
Notation validate_candidate := (validate_candidate sha256 cluster metadata_available available geometry workers page_capacity metadata_capacity).
Notation select_from := (select_from sha256 sizes cluster metadata_available available geometry workers page_capacity metadata_capacity devices).
Notation recover_select := (recover_select sha256 sizes cluster metadata_available available geometry workers page_capacity metadata_capacity devices).
Notation decode := (decode_with_budget sha256 sizes).

(** A shard that its worker can install. *)
Record shard_installable (s : ShardImage) : Prop := {
  si_geometry : geometry !! sh_worker s = Some (sh_geometry s);
  si_valid : shard_validate s = Some (Ok ());
  si_capacity : 0 < page_capacity ∧ len (is_entries (sh_index s)) <= page_capacity ∧ len (is_metadata (sh_index s)) <= metadata_capacity;
  si_pages : ∀ page entry, (page, entry) ∈ is_entries (sh_index s) →
    worker_select sha256 workers (o_cache (v_object (p_version page))) (o_key (v_object (p_version page))) (p_number page) = Some (sh_worker s);
  si_metadata : ∀ m, m ∈ is_metadata (sh_index s) →
    worker_select sha256 workers (o_cache (v_object (vm_version m))) (o_key (v_object (vm_version m))) 0 = Some (sh_worker s)
}.

(** A cut of this cluster with one shard for each worker. *)
Record cut_installable (i : CheckpointImage) : Prop := {
  ii_cluster : ci_cluster i = cluster;
  ii_workers : NoDup (sh_worker <$> ci_shards i) ∧ (list_to_set (sh_worker <$> ci_shards i) : gset N) = dom geometry;
  ii_shards : ∀ s, s ∈ ci_shards i → shard_installable s
}.

Lemma shard_acceptable_total s : ∃ b, shard_acceptable s = Some b.
Proof.
  unfold CheckpointDisk.shard_acceptable. destruct (negb _); [eauto|]. pose proof (shard_validate_total s). destruct (shard_validate s); [simpl; eauto|done].
Qed.

Lemma shard_acceptable_installable s : shard_acceptable s = Some true → shard_installable s.
Proof.
  unfold CheckpointDisk.shard_acceptable. case_bool_decide as Hg; [|done]. cbn [negb]. intros (r & Hv & Hr)%fmap_Some. destruct r as [[]|]; [|done].
  symmetry in Hr. rewrite !andb_true_iff in Hr. destruct Hr as (((Hp%negb_true_iff%N.eqb_neq & Hc) & He) & Hm). unfold validate_capacity in Hc.
  destruct (_ || _) eqn:Hcap; [done|]. apply orb_false_iff in Hcap as [H1%N.ltb_ge H2%N.ltb_ge]. rewrite forallb_forall in He, Hm.
  split; [done|done|split_and!; [lia|done|done]|..].
  - intros page entry Hin%list_elem_of_In%He. unfold shard_owns_page in Hin. by apply bool_decide_eq_true in Hin.
  - intros m Hin%list_elem_of_In%Hm. unfold shard_owns_metadata in Hin. by apply bool_decide_eq_true in Hin.
Qed.

Lemma shards_acceptable_spec l : ∃ b, shards_acceptable l = Some b ∧ (b = true → ∀ s, s ∈ l → shard_installable s).
Proof.
  induction l as [|s l (b & IH & Hb)]; cbn [CheckpointDisk.shards_acceptable]; [exists true; split; [done|]; intros _ s Hs; by apply elem_of_nil in Hs|].
  destruct (shard_acceptable_total s) as [[|] Hs]; rewrite Hs; cbn [mbind option_bind]; [|by exists false]. exists b. split; [done|].
  intros Ht s' [->|?]%elem_of_cons; [by apply shard_acceptable_installable|auto].
Qed.

Lemma validate_candidate_spec i : ∃ r, validate_candidate i = Some r ∧
  ∀ j, r = Some j → j = filter_available metadata_available available i ∧ cut_installable j.
Proof.
  unfold CheckpointDisk.validate_candidate. case_bool_decide as Hc; [|by eexists]. cbn [negb]. destruct (_ || _) eqn:E; [by eexists|].
  apply orb_false_iff in E as [H1%negb_false_iff%bool_decide_eq_true H2%negb_false_iff%bool_decide_eq_true].
  set (j := filter_available _ _ i). destruct (shards_acceptable_spec (ci_shards j)) as ([|] & -> & Hs); cbn [fmap option_fmap option_map]; [|by eexists].
  eexists. split; [done|]. intros k [= <-]. split; [done|]. assert (sh_worker <$> ci_shards j = sh_worker <$> ci_shards i) as Hw.
  { unfold j, filter_available. simpl. rewrite <- list_fmap_compose. done. }
  split; [done|by rewrite Hw|auto].
Qed.

(** What selection takes. *)
Definition cut_accepted (i : CheckpointImage) : Prop := fits_devices metadata_capacity devices i = true ∧ ∃ j, validate_candidate i = Some (Some j).

Lemma select_from_spec newest budget seed : StronglySorted (flip (λ a b, candidate_leb a b = true)) newest →
  ∃ x, select_from newest budget seed = Some (x, match seed with
    | Some s => Some s
    | None => match next_from decode newest budget with Some (Some (slot, i), _) => Some (slot, ci_sequence i) | _ => None end
    end) ∧
    match x with
    | None => ∀ c i, c ∈ newest → decode (cd_bytes c) budget = Some (Ok i) → ¬ cut_accepted i
    | Some j => ∃ c i, c ∈ newest ∧ decode (cd_bytes c) budget = Some (Ok i) ∧ fits_devices metadata_capacity devices i = true ∧ validate_candidate i = Some (Some j) ∧
        ∀ c' i', c' ∈ newest → decode (cd_bytes c') budget = Some (Ok i') → cut_accepted i' → cd_sequence c' <= cd_sequence c
    end.
Proof.
  intros Hsort. revert seed. induction Hsort as [|c l Hl IH Hc]; intros seed; cbn [CheckpointDisk.select_from next_from].
  { exists None. split; [by destruct seed|]. intros c i Hc. by apply elem_of_nil in Hc. }
  assert (∀ seed' x, (∀ i, decode (cd_bytes c) budget = Some (Ok i) → ¬ cut_accepted i) → select_from l budget seed' = Some x →
    ∃ y, x = (y, x.2) ∧ match y with
    | None => ∀ c0 i, c0 ∈ c :: l → decode (cd_bytes c0) budget = Some (Ok i) → ¬ cut_accepted i
    | Some j => ∃ c0 i, c0 ∈ c :: l ∧ decode (cd_bytes c0) budget = Some (Ok i) ∧ fits_devices metadata_capacity devices i = true ∧ validate_candidate i = Some (Some j) ∧
        ∀ c' i', c' ∈ c :: l → decode (cd_bytes c') budget = Some (Ok i') → cut_accepted i' → cd_sequence c' <= cd_sequence c0
    end) as Hskip.
  { intros seed' x Hno Hx. destruct (IH seed') as (y & Hy & Hspec). rewrite Hx in Hy. injection Hy as ->. exists y. split; [done|]. destruct y as [j|].
    - destruct Hspec as (c0 & i & ? & ? & ? & ? & Hmax). exists c0, i. split_and!; [by right|done..|]. intros c' i' [->|Hin]%elem_of_cons Hd Ha; [by destruct (Hno i' Hd)|eauto].
    - intros c0 i [->|Hin]%elem_of_cons; eauto. }
  destruct (decode_total sha256 sizes (cd_bytes c) budget) as [[i|e] Hd]; rewrite Hd.
  - set (seed' := match seed with Some s => Some s | None => _ end). destruct (validate_candidate_spec i) as (r & Hv & _).
    assert (is_Some seed') as [s Hs] by (unfold seed'; destruct seed; eauto). replace (match seed with Some s => _ | None => _ end) with seed' by done.
    destruct (fits_devices _ _ i) eqn:Hfit; [rewrite Hv; destruct r as [j|]|].
    + exists (Some j). split; [done|]. exists c, i. split_and!; [by left|done..|]. rewrite Forall_forall in Hc. intros c' i' [->|Hin]%elem_of_cons _ _; [done|]. by apply N.leb_le, Hc.
    + destruct (IH seed') as (x & Hx & _). rewrite Hs in Hx. rewrite Hs, Hx. destruct (Hskip (Some s) _ ltac:(intros i' Hi' (_ & j & Hj); congruence) Hx) as (y & [= ->] & Hy).
      eexists. split; [done|exact Hy].
    + destruct (IH seed') as (x & Hx & _). rewrite Hs in Hx. rewrite Hs, Hx. destruct (Hskip (Some s) _ ltac:(intros i' Hi' (Hf & _); congruence) Hx) as (y & [= ->] & Hy).
      eexists. split; [done|exact Hy].
  - destruct (IH seed) as (x & Hx & _). rewrite Hx. destruct (Hskip seed _ ltac:(intros i' Hi'; congruence) Hx) as (y & [= ->] & Hy). eexists. split; [done|exact Hy].
Qed.

Lemma recover_select_spec files budget : ∃ x found, first_candidate sha256 sizes (SlotDirectory_Open files) budget = Some (Ok found) ∧
  recover_select (SlotDirectory_Open files) budget =
    Some (Ok (x, mkCut [] CutPhase_Collecting 0 None 0 (from_option (ci_sequence ∘ snd) 0 found) (from_option fst 0%nat found))) ∧
  match x with
  | None => ∀ slot i, (slot < 2)%nat → slot_image sha256 sizes files budget slot = Some i → ¬ cut_accepted i
  | Some j => ∃ slot i, (slot < 2)%nat ∧ slot_image sha256 sizes files budget slot = Some i ∧ j = filter_available metadata_available available i ∧ cut_installable j ∧
      ∀ slot' i', (slot' < 2)%nat → slot_image sha256 sizes files budget slot' = Some i' → cut_accepted i' → ci_sequence i' <= ci_sequence i
  end.
Proof.
  unfold CheckpointDisk.recover_select, first_candidate, candidates_next. destruct (checkpoint_candidates_slots files budget) as (l & -> & Hsort & Hin).
  destruct (select_from_spec (reverse l) budget None Hsort) as (x & -> & Hx). destruct (next_from_spec sha256 sizes (reverse l) budget Hsort) as (found & rest & -> & _).
  exists x, found. split; [done|]. split; [by destruct found as [[]|]|]. destruct x as [j|].
  - destruct Hx as (c & i & (slot & Hlt & Hp)%Hin & Hd & _ & Hv & Hmax). exists slot, i.
    assert (slot_image sha256 sizes files budget slot = Some i) as Hi by (unfold slot_image; rewrite Hp; simpl; by rewrite Hd).
    destruct (validate_candidate_spec i) as (r & Hr & Hspec). rewrite Hv in Hr. injection Hr as <-. destruct (Hspec j eq_refl) as [Hj Hins].
    split_and!; [done|done|exact Hj|exact Hins|]. intros slot' i' Hlt' (c' & Hp' & _ & Hd' & Hs')%slot_image_candidate Ha.
    apply slot_image_candidate in Hi as (c1 & Hp1 & _ & _ & <-). rewrite Hp in Hp1. injection Hp1 as <-. rewrite <- Hs'. eapply Hmax; [|exact Hd'|exact Ha]. apply Hin. eauto.
  - intros slot i Hlt (c & Hp & _ & Hd & _)%slot_image_candidate. eapply Hx; [|exact Hd]. apply Hin. eauto.
Qed.

(** C18: startup always gets an answer from a directory it can open.  What it selects is, of the images a slot holds, the newest
    acceptable one without the records of lost caches and keys, and it can be installed: a valid cut of this cluster with exactly one
    shard for each worker, in the worker's geometry and capacity, of pages and metadata the worker owns.  It selects none only if no
    slot holds an acceptable image. *)
Theorem selected_cut_installable files budget : ∃ x c, recover_select (SlotDirectory_Open files) budget = Some (Ok (x, c)) ∧
  match x with
  | None => ∀ slot i, (slot < 2)%nat → slot_image sha256 sizes files budget slot = Some i → ¬ cut_accepted i
  | Some j => ∃ slot i, (slot < 2)%nat ∧ slot_image sha256 sizes files budget slot = Some i ∧ j = filter_available metadata_available available i ∧ cut_installable j ∧
      ∀ slot' i', (slot' < 2)%nat → slot_image sha256 sizes files budget slot' = Some i' → cut_accepted i' → ci_sequence i' <= ci_sequence i
  end.
Proof. destruct (recover_select_spec files budget) as (x & found & _ & -> & Hx). eauto. Qed.

(** The node as recovery leaves it: the sequences that recovery found count as published. *)
Definition recovered_disk (files : Files) (c : CheckpointCut) (found : option (nat * CheckpointImage)) (count : nat) : CutDisk :=
  mkCutDisk (Some (mkCutNode c (replicate count cut_worker_new))) files (from_option (λ '(_, i), [ci_sequence i]) [] found).

(** C17: no checkpoint is lost.  A node recovers and runs its cuts with any number of workers; however their polls interleave, whatever
    the kernel answers and wherever the process stops, nothing panics.  If every cut that passes the size check of its publication,
    which is on its encoded bytes, also fits the budget of recovery, which counts the decoded image, then recovery afterwards finds an
    image at least as new as the one found before and as every one whose publication was reported as a success. *)
Theorem checkpoint_never_lost budget control_worker files x c found count es : (∀ b, length (sha256 b) = 32%nat) →
  recover_select (SlotDirectory_Open files) budget = Some (Ok (x, c)) → first_candidate sha256 sizes (SlotDirectory_Open files) budget = Some (Ok found) →
  cc_sequence c <= U64_MAX → Forall (disk_event_typed cluster) es →
  ∃ d, disk_run sha256 cluster budget control_worker (recovered_disk files c found count) es = Some d ∧
    (Forall (publication_fits sha256 sizes cluster budget) es →
     ∀ q, q ∈ ck_published d → ∃ slot i, first_candidate sha256 sizes (SlotDirectory_Open (ck_files d)) budget = Some (Ok (Some (slot, i))) ∧ q <= ci_sequence i).
Proof.
  intros Hd Hr Hf Hmax Hes. set (fit := Forall (publication_fits sha256 sizes cluster budget) es).
  destruct (disk_run_ok sha256 sizes cluster budget control_worker fit Hd (recovered_disk files c found count) es) as (d & Hrun & Hok).
  - destruct (recover_select_spec files budget) as (x' & found' & Hf' & Hr' & _). rewrite Hf in Hf'. injection Hf' as <-. rewrite Hr in Hr'. injection Hr' as _ ->.
    destruct (first_candidate_spec sha256 sizes files budget) as (y & Hy & Hspec). rewrite Hf in Hy. injection Hy as <-. unfold disk_ok. simpl.
    assert (from_option fst 0%nat found <= 1)%nat as Hslot by (destruct found as [[slot i]|]; simpl; [destruct Hspec; lia|lia]).
    split_and!; [by apply cut_node_new_ok|done|]. intros _. destruct found as [[slot i]|]; [|by left]. right. exists i. destruct Hspec as (_ & Hi & _). split_and!; [done|by repeat constructor|done].
  - rewrite Forall_forall in Hes |- *. intros e He. split; [auto|]. intros Hfit. unfold fit in Hfit. rewrite Forall_forall in Hfit. auto.
  - exists d. split; [done|]. intros Hfit q. eapply disk_ok_found; [exact Hok|exact Hfit].
Qed.

(** C22: what a publication that reports success leaves to recovery.  After the synchronous one, with or without an earlier image and
    even if the directory did not exist, recovery finds the published cut in canonical order, in the other slot and with the next
    sequence, exactly if its decoded memory is within the budget publication reads with, and otherwise what it found before.  After
    the one through the reactor the slot holds the cut exactly if its decoded memory is within the budget; its own size check, on half
    the budget, does not imply this. *)
Theorem published_cut_recovered shards : (∀ x, length (sha256 x) = 32%nat) →
  (∀ n, n <= U64_MAX → image_typed (mkCheckpointImage CHECKPOINT_VERSION cluster n shards)) →
  (∀ before found io process counter after, first_candidate sha256 sizes before MAX_CHECKPOINT_BYTES = Some (Ok found) →
     checkpointer_publish sha256 sizes before io process counter cluster shards = (Some (Ok ()), after) →
     let slot := from_option (λ y, 1 - y.1)%nat 0%nat found in
     let img := mkCheckpointImage CHECKPOINT_VERSION cluster (from_option (ci_sequence ∘ snd) 0 found + 1) shards in
     first_candidate sha256 sizes after MAX_CHECKPOINT_BYTES =
       Some (Ok (if image_memory sizes img <=? MAX_CHECKPOINT_BYTES then Some (slot, canon_image img) else found))) ∧
  (∀ budget files io n slot files', (slot < 2)%nat → n <= U64_MAX →
     publish_async_task sha256 cluster budget files io n slot shards = (Some (Ok ()), files') →
     let img := mkCheckpointImage CHECKPOINT_VERSION cluster n shards in
     slot_image sha256 sizes files' budget slot = if image_memory sizes img <=? N.min budget USIZE_MAX then Some (canon_image img) else None).
Proof.
  intros Hd Ht. split.
  - intros before found io process counter after Hf Hp. by apply (publish_recovers sha256 sizes before found io process counter cluster shards after).
  - intros budget files io n slot files' Hlt Hn Hp. eapply publish_async_exact; [done|done|by apply Ht|exact Hp].
Qed.
End selected.

(** ** A run *)

Definition sample_shard : ShardImage := mkShardImage 0 (sh_geometry Sample.shard) (sh_index Sample.shard) (sh_segments Sample.shard).
Definition sample_second : N := NANOS_PER_SECOND.
Definition sample_run : list DiskEvent :=
  [Disk_Start 0; Disk_Poll 0 0 false; Disk_Poll 0 (5 * sample_second) false; Disk_Snapshot 0 (Ok sample_shard); Disk_Poll 0 (6 * sample_second) false;
   Disk_Publish 0; Disk_Task 0 (mkReplaceIo true true true true [Write_Bytes 100; Write_Bytes (length sample_bytes - 100)] true true) [sample_shard]; Disk_Crash].
Notation sample_recover := (recover_select Sample.digest Sample.type_sizes (ci_cluster Sample.image) (λ _, true) (λ _ _, true) {[3 := Sample.geometry]} (mkWorkerMap [3]) 10 10 None
  (SlotDirectory_Open sample_files) 100000).

Lemma sample_shards_typed n : n <= U64_MAX → image_typed (mkCheckpointImage CHECKPOINT_VERSION (ci_cluster Sample.image) n [sample_shard]).
Proof.
  intros Hn. split; [by vm_compute|done|]. intros s ->%list_elem_of_singleton.
  destruct (it_shards _ Sample.image_is_typed Sample.shard ltac:(by left)) as [_ H1 H2 H3 H4]. by split.
Qed.

Lemma sample_run_typed : Forall (disk_event_typed (ci_cluster Sample.image)) sample_run.
Proof. do 6 (apply Forall_cons_2; [exact I || reflexivity|]). apply Forall_cons_2; [exact sample_shards_typed|]. apply Forall_cons_2; [exact I|apply Forall_nil_2]. Qed.

Lemma sample_run_fits : Forall (publication_fits Sample.digest Sample.type_sizes (ci_cluster Sample.image) 100000) sample_run.
Proof. do 6 (apply Forall_cons_2; [exact I|]). apply Forall_cons_2; [intros n bytes _ _; by vm_compute|]. apply Forall_cons_2; [exact I|apply Forall_nil_2]. Qed.

Lemma checkpoint_never_lost_witness : ∃ x c d slot i, sample_recover = Some (Ok (x, c)) ∧ ck_published d = [10; 9] ∧
  disk_run Sample.digest (ci_cluster Sample.image) 100000 0 (recovered_disk sample_files c (Some (0%nat, canon_image Sample.image)) 1) sample_run = Some d ∧
  first_candidate Sample.digest Sample.type_sizes (SlotDirectory_Open (ck_files d)) 100000 = Some (Ok (Some (slot, i))) ∧ 10 <= ci_sequence i.
Proof.
  destruct sample_recover as [[[x c]|]|] eqn:E; [|by vm_compute in E..].
  assert (c = mkCut [] CutPhase_Collecting 0 None 0 9 0) as Hc by (vm_compute in E; by injection E as _ <-).
  destruct (checkpoint_never_lost Sample.digest Sample.type_sizes (ci_cluster Sample.image) (λ _, true) (λ _ _, true) {[3 := Sample.geometry]} (mkWorkerMap [3]) 10 10 None
    100000 0 sample_files x c (Some (0%nat, canon_image Sample.image)) 1 sample_run) as (d & Hd & Hq);
    [intros b; reflexivity|exact E|by vm_compute|rewrite Hc; by vm_compute|exact sample_run_typed|]. clear E. specialize (Hq sample_run_fits).
  assert (ck_published d = [10; 9]) as Hp.
  { assert (ck_published <$> Some d = Some [10; 9]) as H; [|by injection H]. rewrite <- Hd, Hc. clear. by vm_compute. }
  destruct (Hq 10) as (slot & i & Hf & Hi); [rewrite Hp; left|]. exists x, c, d, slot, i. split; [reflexivity|]. split; [exact Hp|]. split; [exact Hd|]. split; [exact Hf|exact Hi].
Defined.

(** The first publication, into a directory that does not exist yet, and one that passes its size check but not that of recovery. *)
Lemma published_cut_recovered_witness : let image n := mkCheckpointImage CHECKPOINT_VERSION (ci_cluster Sample.image) n [sample_shard] in
  (∃ after, checkpointer_publish Sample.digest Sample.type_sizes SlotDirectory_Missing sample_io 7 0 (ci_cluster Sample.image) [sample_shard] = (Some (Ok ()), after) ∧
     first_candidate Sample.digest Sample.type_sizes after MAX_CHECKPOINT_BYTES = Some (Ok (Some (0%nat, canon_image (image 1))))) ∧
  ∃ files', publish_async_task Sample.digest (ci_cluster Sample.image) 2000 ∅ (mkReplaceIo true true true true [Write_Bytes (length sample_bytes)] true true) 1 0 [sample_shard] =
      (Some (Ok ()), files') ∧ slot_image Sample.digest Sample.type_sizes files' 2000 0 = None.
Proof.
  intros image. destruct (published_cut_recovered Sample.digest Sample.type_sizes (ci_cluster Sample.image) [sample_shard] ltac:(done) sample_shards_typed) as [Hs Ha]. split.
  - destruct (checkpointer_publish _ _ _ _ _ _ _ _) as [r after] eqn:E. assert (r = Some (Ok ())) as -> by (apply (f_equal fst) in E; cbn [fst] in E; rewrite <- E; clear; vm_compute; reflexivity).
    exists after. split; [reflexivity|]. etrans; [exact (Hs SlotDirectory_Missing None sample_io 7 0 after eq_refl E)|]. clear. vm_compute. reflexivity.
  - destruct (publish_async_task _ _ _ _ _ _ _ _) as [r files'] eqn:E. assert (r = Some (Ok ())) as -> by (apply (f_equal fst) in E; cbn [fst] in E; rewrite <- E; clear; vm_compute; reflexivity).
    exists files'. split; [reflexivity|]. etrans; [refine (Ha 2000 ∅ _ 1 0%nat files' _ _ E); [lia|discriminate]|]. clear. vm_compute. reflexivity.
Defined.
