(* ===== verification/Targets.v ===== *)
(** * Handoff targets

    Which nodes besides the ranked owners an owner asks for a copy before it goes to the
    origin, from [cmd/racer/core/src/read/walk.rs] and [cmd/racer/core/src/read/hints.rs]:
    owners under the previous membership, later owners that arrived earlier, demoted
    members, and hinted successors.  A node is a value of [A]; a [List<T, N>] is the list of
    its items, at most [N] of them. *)

From S2P Require Import Prelude ReadRules.

Definition REPLICAS : nat := 3.
Definition RETAINED_DEPTH : nat := 12.
Definition MAX_HANDOFF : nat := 3.
Definition MAX_LINEAGE : nat := 6.
Definition REPLICAS_BELOW : nat := MAX_HANDOFF - 1.
Definition MAX_TARGETS : nat := REPLICAS_BELOW + MAX_LINEAGE.
Definition DEMOTED : nat := RETAINED_DEPTH - REPLICAS.

(** [List::push] of a list of capacity [cap]. *)
Definition list_push {A} (cap : nat) (l : list A) (x : A) : list A :=
  if (cap <=? length l)%nat then l else l ++ [x].

(** [List::from_slice], and [collect] into a [List]. *)
Definition list_collect {A} (cap : nat) (l : list A) : list A := take cap l.

Section targets.
Context {A : Type} `{EqDecision A}.

(** [slice.contains]. *)
Definition list_contains (x : A) (l : list A) : bool := bool_decide (x ∈ l).

(** [same_rank_previous]: a set of bits. *)
Definition same_rank_previous (previous current : list A) (rank : nat) : N :=
  foldl (λ bits c, N.lor bits (N.shiftl 1 (N.of_nat c))) 0%N
    (List.filter (λ c, bool_decide (is_Some (current !! c) ∧ previous !! c = current !! c))
       (seq 0 (Nat.min (Nat.min rank (length current)) 8))).

Definition handoff_targets (previous current : list A) (rank : nat) : list A :=
  if (length previous =? length current)%nat && forallb (λ n, list_contains n current) previous then []
  else
    let me := current !! rank in
    list_collect MAX_HANDOFF
      (List.filter (λ n, negb (bool_decide (Some n = me)) &&
                         negb (list_contains n (take (Nat.min rank (length current)) current))) previous).

Definition arrived_before (mine : N) (s : option N) : bool :=
  match s with Some s => (s <? mine)%N | None => false end.

Definition lineage_targets (owners : list A) (since : list (option N)) (rank : nat) : list A :=
  match since !! rank with
  | Some (Some mine) =>
      list_collect MAX_HANDOFF
        (fst <$> List.filter (λ ns, arrived_before mine ns.2) (drop (rank + 1) (zip owners since)))
  | _ => []
  end.

(** Members ranked above the demoted member [k] that had arrived by [arrival]. *)
Definition present_above (since demoted_since : list (option N)) (k : nat) (arrival : N) : nat :=
  length (List.filter (λ s, match s with Some s => (s <=? arrival)%N | None => true end)
            (since ++ take k demoted_since)).

Definition demoted_targets (since : list (option N)) (demoted : list A) (demoted_since : list (option N))
    (rank : nat) (oldest : option N) : list A :=
  match since !! rank with
  | Some (Some mine) =>
      list_collect MAX_LINEAGE
        (omap id (imap (λ k (ns : A * option N),
           match ns.2 with
           | None => None
           | Some arrival =>
               let unknown := bool_decide (oldest = Some arrival) in
               if (arrival <? mine)%N &&
                  (unknown || (present_above since demoted_since k arrival <? MAX_HANDOFF)%nat)
               then Some ns.1 else None
           end) (zip demoted demoted_since)))
  | _ => []
  end.

(** [take_while(..).count()]. *)
Fixpoint granted_prefix (handoff granted : list A) : nat :=
  match handoff with
  | n :: handoff => if list_contains n granted then S (granted_prefix handoff granted) else 0
  | [] => 0
  end.

Definition lineage_counts (since : list (option N)) : list nat :=
  (λ rank, match since !! rank with
           | Some (Some mine) =>
               Nat.min (length (List.filter (arrived_before mine) (drop (rank + 1) since))) MAX_HANDOFF
           | _ => 0
           end) <$> seq 0 MAX_HANDOFF.

Definition push_new (cap : nat) (targets : list A) (n : A) : list A :=
  if list_contains n targets then targets else list_push cap targets n.

Definition merge_handoff (previous lineage : list A) : list A :=
  foldl (λ targets n, if (MAX_HANDOFF <=? length targets)%nat then targets else push_new MAX_TARGETS targets n)
    (list_collect MAX_TARGETS (take MAX_LINEAGE lineage)) previous.

(** [successor_targets] of [hints.rs]. *)
Definition successor_targets (hints owners : list A) (rank : nat) : list A :=
  foldl (λ out n,
    if match index_of n owners with Some r => (rank <? r)%nat | None => false end
    then push_new MAX_HANDOFF out n else out) [] (rev hints).

(** [with_successors] of [hints.rs]. *)
Definition with_successors (successors handoff : list A) : list A * nat :=
  let out := foldl (λ out n, if (length out <? MAX_HANDOFF)%nat then push_new MAX_TARGETS out n else out) [] successors in
  (foldl (push_new MAX_TARGETS) out handoff, length out).
End targets.
