(* ===== verification/Walk.v ===== *)
(** * The candidate walk

    [CandidateWalk], [RemainingWalk] and the attempt plan of
    [cmd/racer/core/src/read/walk.rs]: which owner of a page is asked next, on which credits,
    and how the walk of one membership epoch ends.  A [&mut self] method returns its result
    with the walk and the caller's budget; a failed [assert!] or [expect] is [None]. *)

From S2P Require Import Prelude Budget HotPage Rank0 ReadRules Targets.
Local Open Scope N_scope.
Local Open Scope racer_scope.

Inductive Mode := Mode_CopyOnly | Mode_Acquire.

#[export] Instance Mode_eq_dec : EqDecision Mode.
Proof. solve_decision. Defined.

Inductive RouteMode := RouteMode_SharedRoute | RouteMode_FundedRoute | RouteMode_DirectHedge.

#[export] Instance RouteMode_eq_dec : EqDecision RouteMode.
Proof. solve_decision. Defined.

Record Continuation := mkContinuation {
  primary_consumed : bool; primary_outcome : option ProbeOutcome; bounded_routes : bool
}.

(** [Continuation::default()]. *)
Definition continuation_default : Continuation := mkContinuation false None false.

Record WalkConfig := mkWalkConfig {
  wc_rank : option nat;
  wc_owners : nat;
  wc_order : VisitOrder;
  wc_page_operation : bool;
  wc_continuation : Continuation;
  wc_handoff : nat;
  wc_previous : N;
  wc_helper : bool;
  wc_lineage : list nat;
  wc_granted : nat;
  wc_parallel_granted : bool;
  wc_rank0 : Rank0State
}.

Definition SUCCESSOR_GRANT_ATTEMPTS : N := 1.
Definition SUCCESSOR_SHARE_DIVISOR : N := 4.
Definition SUCCESSOR_GRANT_LINKS : N := 8.
Definition FUNDED_MIN_LINKS : N := 2.
Definition PREVIOUS_MEMBERSHIP_WITHIN : N := 10 * SECOND.

Definition granted_budget (deadline : N) : AcquisitionBudget :=
  new_budget deadline SUCCESSOR_GRANT_ATTEMPTS SUCCESSOR_GRANT_LINKS.

Definition owner_funding_min (canonical : nat) : N := N.of_nat canonical + 2.

Definition owner_funding (canonical : nat) : N :=
  owner_funding_min canonical + (if (0 <? canonical)%nat then 1 else 0).

Definition funded_links (budget : AcquisitionBudget) : option N :=
  if MAX_ROUTE_LINKS <=? b_links budget then Some MAX_ROUTE_LINKS
  else
    let links := route_links budget in
    if FUNDED_MIN_LINKS <=? links then Some links else None.

Definition shared_share_short (budget : AcquisitionBudget) (canonical opportunities : nat) : bool :=
  (0 <? canonical)%nat &&
  (div_ceil (b_attempts budget - 1) (N.of_nat (Nat.max opportunities 1)) <? owner_funding_min canonical - 1).

Record Probe := mkProbe {
  pr_index : nat; pr_canonical : nat; pr_mode : Mode; pr_remaining_opportunities : N;
  pr_route : RouteMode; pr_previous : bool
}.

Inductive Outcome :=
| Outcome_Copy
| Outcome_Probe (outcome : ProbeOutcome)
| Outcome_Transport (outcome : ProbeOutcome)
| Outcome_StaleMembership
| Outcome_StaleDestination
| Outcome_Shed
| Outcome_TimedOut
| Outcome_Failed.

#[export] Instance Outcome_eq_dec : EqDecision Outcome.
Proof. solve_decision. Defined.

Inductive End_ :=
| End_Copy
| End_StaleMembership
| End_Origin (rank : nat) (evidence : list ProbeOutcome)
| End_VersionUnavailable
| End_Exhausted (funding : bool).

Inductive Step :=
| Step_Probe (probe : Probe)
| Step_Granted (probes : list Probe)
| Step_End (e : End_).

Inductive Helper := Helper_Unset | Helper_Off | Helper_Armed | Helper_Due | Helper_Used.

#[export] Instance Helper_eq_dec : EqDecision Helper.
Proof. solve_decision. Defined.

Record PendingProbe := mkPendingProbe {
  pd_bounded : option AcquisitionBudget;
  pd_handoff : bool;
  pd_delegated : bool;
  pd_rank0 : bool;
  pd_previous : bool;
  pd_helper : bool;
  pd_granted : bool
}.

Record CandidateWalk := mkWalk {
  cw_config : WalkConfig;
  cw_order : VisitOrder;
  cw_targets : list nat;
  cw_count : nat;
  cw_batch : nat;
  cw_index : nat;
  cw_evidence : list ProbeOutcome;
  cw_saw_transient : bool;
  cw_saw_version : bool;
  cw_funding : bool;
  cw_pending : option PendingProbe;
  cw_done : bool;
  cw_helper : Helper;
  cw_rank0_unanswered : bool;
  cw_saw_busy : bool
}.

Implicit Types (w : CandidateWalk) (b : AcquisitionBudget).

(** ** Updates of single fields *)

Definition walk_at w (index : nat) : CandidateWalk :=
  mkWalk (cw_config w) (cw_order w) (cw_targets w) (cw_count w) (cw_batch w) index (cw_evidence w)
    (cw_saw_transient w) (cw_saw_version w) (cw_funding w) (cw_pending w) (cw_done w) (cw_helper w)
    (cw_rank0_unanswered w) (cw_saw_busy w).

Definition walk_pending w (pending : option PendingProbe) : CandidateWalk :=
  mkWalk (cw_config w) (cw_order w) (cw_targets w) (cw_count w) (cw_batch w) (cw_index w) (cw_evidence w)
    (cw_saw_transient w) (cw_saw_version w) (cw_funding w) pending (cw_done w) (cw_helper w)
    (cw_rank0_unanswered w) (cw_saw_busy w).

Definition walk_batch w (batch : nat) : CandidateWalk :=
  mkWalk (cw_config w) (cw_order w) (cw_targets w) (cw_count w) batch (cw_index w) (cw_evidence w)
    (cw_saw_transient w) (cw_saw_version w) (cw_funding w) (cw_pending w) (cw_done w) (cw_helper w)
    (cw_rank0_unanswered w) (cw_saw_busy w).

Definition walk_done w : CandidateWalk :=
  mkWalk (cw_config w) (cw_order w) (cw_targets w) (cw_count w) (cw_batch w) (cw_index w) (cw_evidence w)
    (cw_saw_transient w) (cw_saw_version w) (cw_funding w) (cw_pending w) true (cw_helper w)
    (cw_rank0_unanswered w) (cw_saw_busy w).

Definition walk_helper w (helper : Helper) : CandidateWalk :=
  mkWalk (cw_config w) (cw_order w) (cw_targets w) (cw_count w) (cw_batch w) (cw_index w) (cw_evidence w)
    (cw_saw_transient w) (cw_saw_version w) (cw_funding w) (cw_pending w) (cw_done w) helper
    (cw_rank0_unanswered w) (cw_saw_busy w).

Definition walk_order w (order : VisitOrder) : CandidateWalk :=
  mkWalk (cw_config w) order (cw_targets w) (cw_count w) (cw_batch w) (cw_index w) (cw_evidence w)
    (cw_saw_transient w) (cw_saw_version w) (cw_funding w) (cw_pending w) (cw_done w) (cw_helper w)
    (cw_rank0_unanswered w) (cw_saw_busy w).

(** [saw_version |= version; saw_transient |= transient; evidence.extend(evidence)]. *)
Definition walk_saw w (version transient_ : bool) (evidence : list ProbeOutcome) : CandidateWalk :=
  mkWalk (cw_config w) (cw_order w) (cw_targets w) (cw_count w) (cw_batch w) (cw_index w)
    (cw_evidence w ++ evidence) (cw_saw_transient w || transient_) (cw_saw_version w || version) (cw_funding w)
    (cw_pending w) (cw_done w) (cw_helper w) (cw_rank0_unanswered w) (cw_saw_busy w).

(** [saw_busy |= busy; rank0_unanswered |= unanswered]. *)
Definition walk_busy w (busy unanswered : bool) : CandidateWalk :=
  mkWalk (cw_config w) (cw_order w) (cw_targets w) (cw_count w) (cw_batch w) (cw_index w) (cw_evidence w)
    (cw_saw_transient w) (cw_saw_version w) (cw_funding w) (cw_pending w) (cw_done w) (cw_helper w)
    (cw_rank0_unanswered w || unanswered) (cw_saw_busy w || busy).

(** [saw_transient = true; funding = true]. *)
Definition walk_unfunded w : CandidateWalk :=
  mkWalk (cw_config w) (cw_order w) (cw_targets w) (cw_count w) (cw_batch w) (cw_index w) (cw_evidence w)
    true (cw_saw_version w) true (cw_pending w) (cw_done w) (cw_helper w) (cw_rank0_unanswered w) (cw_saw_busy w).

(** ** Construction *)

(** [CandidateWalk::new]: an owner's targets are its predecessors, then the handoff targets. *)
Definition walk_new (config : WalkConfig) : CandidateWalk :=
  match wc_rank config with
  | Some rank =>
      let rank := Nat.min rank 2 in
      let handoff :=
        if wc_page_operation config
        then (λ i, Nat.modulo (wc_owners config + i) 256) <$> seq 0 (Nat.min (wc_handoff config) MAX_TARGETS)
        else [] in
      let targets := seq 0 rank ++ handoff in
      mkWalk config (canonical_order rank) (targets ++ replicate (2 + MAX_TARGETS - length targets) 0%nat)
        (length targets) 0 0 [] false false false None false Helper_Unset false false
  | None =>
      mkWalk config (wc_order config) (replicate (2 + MAX_TARGETS) 0%nat) (wc_owners config)
        0 0 [] false false false None false Helper_Unset false false
  end.

(** [start]. *)
Definition walk_start w b : CandidateWalk :=
  let c := cw_config w in
  let eligible :=
    wc_helper c && negb (is_some (wc_rank c)) && wc_page_operation c && (HELPER_MIN_ATTEMPTS <=? b_attempts b) in
  let w := walk_helper w (if eligible then Helper_Armed else Helper_Off) in
  if negb (is_some (wc_rank c)) && negb (bounded_routes (wc_continuation c)) &&
     negb (primary_consumed (wc_continuation c)) &&
     match order_get (cw_order w) 0 with
     | Some first => (0 <? first)%nat && (b_attempts b <? owner_funding_min first)
     | None => false
     end
  then walk_order w (canonical_order (length (order_ranks (cw_order w))))
  else w.

(** [target]: the canonical rank, or [owners + i] for handoff target [i], at an index. *)
Definition target w (index : nat) : option nat :=
  if is_some (wc_rank (cw_config w)) then
    if (index <? cw_count w)%nat then cw_targets w !! index else None
  else order_get (cw_order w) index.

Definition sum_N (l : list N) : N := foldr N.add 0 l.

(** The indexes after [index], with their targets. *)
Definition later_targets w (index : nat) : list (nat * nat) :=
  omap (λ later, (λ c, (later, c)) <$> target w later) (seq (index + 1) (cw_count w - (index + 1))).

Definition later_minimum w (index : nat) : N :=
  sum_N ((λ lc, owner_funding_min lc.2) <$>
    List.filter (λ lc, (lc.1 <? lc.2)%nat || bounded_routes (wc_continuation (cw_config w))) (later_targets w index)).

Definition later_reserve w (index : nat) : N :=
  sum_N ((λ lc, owner_funding_min lc.2) <$> later_targets w index).

(** ** Planning a probe *)

(** [helper_probe]: ask the page's helper, funded from what is left. *)
Definition helper_probe w b : result Step Error * (CandidateWalk * AcquisitionBudget) :=
  let attempts := N.min (b_attempts b) HELPER_ATTEMPTS in
  let links := N.min (b_links b) HELPER_LINKS in
  match partition b attempts links with
  | (Err e, b) => (Err e, (w, b))
  | (Ok child, b) =>
      let child := note_route_failure child in
      (Ok (Step_Probe (mkProbe (cw_index w) (wc_owners (cw_config w)) Mode_Acquire
                         (N.of_nat (cw_count w - cw_index w + 1)) RouteMode_FundedRoute false)),
       (walk_pending w (Some (mkPendingProbe (Some child) true false false false true false)), b))
  end.

(** A handoff target asked on its own grant. *)
Definition is_granted w (canonical : nat) : bool :=
  (wc_owners (cw_config w) <=? canonical)%nat && (canonical - wc_owners (cw_config w) <? wc_granted (cw_config w))%nat.

(** The loop that collects every granted target from [index] on. *)
Fixpoint granted_run (fuel : nat) w (remaining_opportunities : N) (index : nat) : list Probe :=
  match fuel with
  | O => []
  | S fuel =>
      match target w index with
      | Some canonical =>
          if is_granted w canonical
          then mkProbe index canonical Mode_CopyOnly remaining_opportunities RouteMode_FundedRoute false
               :: granted_run fuel w remaining_opportunities (S index)
          else []
      | None => []
      end
  end.

(** One iteration of the loop of [next]. *)
Inductive Planned :=
| Planned_Continue (w : CandidateWalk)
| Planned_Break (w : CandidateWalk)
| Planned_Return (r : result Step Error) (w : CandidateWalk) (b : AcquisitionBudget).

(** Credits left for the later predecessors and this owner's origin. *)
Definition credits_left w (index : nat) : N :=
  match wc_rank (cw_config w) with Some rank => N.of_nat (Nat.min rank 2 - index) | None => 0 end.

(** Whether this owner asks rank 0 to acquire. *)
Definition delegates w b (index canonical : nat) : bool :=
  match wc_rank (cw_config w) with Some rank => (0 <? rank)%nat | None => false end &&
  (canonical =? 0)%nat && wc_page_operation (cw_config w) &&
  (credits_left w index + 2 <=? b_attempts b) && (credits_left w index <=? b_links b).

(** Spare credits a delegation forwards. *)
Definition delegation_spare w b (index : nat) (delegated : bool) : N :=
  let spare_for :=
    if (0 <? wc_handoff (cw_config w))%nat then N.of_nat MAX_HANDOFF
    else N.of_nat (default 0%nat (wc_lineage (cw_config w) !! 0%nat)) in
  if delegated && (0 <? spare_for) then N.min (b_attempts b - (credits_left w index + 2)) spare_for else 0.

(** Attempts and links a non-owner funds the owner at [canonical] with. *)
Definition funded_attempts w b (index canonical : nat) : N :=
  let lineage :=
    N.of_nat (default 0%nat (wc_lineage (cw_config w) !! canonical)) +
    (if (0 <? canonical)%nat then N.of_nat (default 0%nat (wc_lineage (cw_config w) !! 0%nat)) else 0) in
  if (0 <? lineage) && (owner_funding canonical + lineage + later_reserve w index <=? b_attempts b)
  then owner_funding canonical + lineage
  else if owner_funding canonical + later_minimum w index <=? b_attempts b then owner_funding canonical
  else owner_funding_min canonical.

(** The credits of the probe's child budget: [Some None] when it spends the caller's budget
    instead, [None] when its destination cannot be funded. *)
Definition bounded_child w b (index canonical : nat) (handoff delegated copy_only : bool) (owner_attempts : N) :
    option (option (N * N)) :=
  let c := cw_config w in
  let rank := wc_rank c in
  let sharing :=
    if handoff then 1%nat
    else Nat.max (match rank with Some rank => Nat.min rank 2 | None => cw_count w end - index) 1 in
  let first_links := N.max (N.min (route_links b) (b_links b - (N.of_nat sharing - 1))) 1 in
  if delegated then Some (Some (owner_attempts, first_links))
  else if is_some rank && (b_links b <? N.of_nat sharing * route_links b) then
    Some (Some (owner_attempts,
      if (canonical =? 0)%nat && negb handoff && wc_page_operation c then first_links
      else N.min (b_links b / N.of_nat sharing) 4))
  else if bounded_routes (wc_continuation c) ||
          (negb (is_some rank) && negb copy_only &&
           ((index <? canonical)%nat ||
            (shared_share_short b canonical (cw_count w - index) && negb (cw_saw_busy w))) &&
           (owner_funding_min canonical <=? b_attempts b) && is_some (funded_links b))
  then
    let attempts := if is_some rank then owner_attempts else funded_attempts w b index canonical in
    let links := if is_some rank then 4
                 else if bounded_routes (wc_continuation c) then MAX_ROUTE_LINKS
                 else default MAX_ROUTE_LINKS (funded_links b) in
    if (b_attempts b <? attempts) || (b_links b <? links) then None
    else Some (Some (attempts, links))
  else Some None.

(** The loop body past the granted targets. *)
Definition plan_owned w b (index canonical : nat) : Planned :=
  let c := cw_config w in
  let rank := wc_rank c in
  let handoff := (wc_owners c <=? canonical)%nat in
  if handoff && ((b_attempts b <? 2) || (b_links b =? 0)) then Planned_Break w
  else
    let previous :=
      negb handoff && is_some rank && wc_page_operation c && (canonical <? 8)%nat &&
      N.testbit (wc_previous c) (N.of_nat canonical) in
    let delegated := delegates w b index canonical in
    if primary_consumed (wc_continuation c) && (index =? 0)%nat then
      let outcome := default ProbeOutcome_Unreachable (primary_outcome (wc_continuation c)) in
      Planned_Continue
        (walk_at (walk_saw w (bool_decide (outcome = ProbeOutcome_VersionUnavailable)) (transient outcome) []) (S index))
    else
      let copy_only :=
        (is_some rank && negb delegated) ||
        (negb (bounded_routes (wc_continuation c)) && (b_attempts b =? 1) && wc_page_operation c) in
      let mode := if copy_only then Mode_CopyOnly else Mode_Acquire in
      let owner_attempts := 1 + (if delegated then 1 else 0) + delegation_spare w b index delegated in
      match bounded_child w b index canonical handoff delegated copy_only owner_attempts with
      | None => Planned_Break (walk_unfunded w)
      | Some child =>
          let '(bounded, b') :=
            match child with
            | Some (attempts, links) => let '(r, b') := partition b attempts links in (Some r, b')
            | None => (None, b)
            end in
          match bounded with
          | Some (Err e) => Planned_Return (Err e) w b'
          | _ =>
              let bounded := match bounded with
                             | Some (Ok child) =>
                                 (* only a reader's funded child carries the failure note *)
                                 Some (if is_some rank then child else note_route_failure child)
                             | _ => None
                             end in
              let funded := bounded_routes (wc_continuation c) || delegated || (negb (is_some rank) && is_some bounded) in
              Planned_Return
                (Ok (Step_Probe (mkProbe index canonical mode
                       (N.of_nat (cw_count w - index + (if is_some rank then 1 else 0)))
                       (if funded then RouteMode_FundedRoute else RouteMode_SharedRoute) previous)))
                (walk_pending w (Some (mkPendingProbe bounded handoff delegated
                   (is_some rank && (canonical =? 0)%nat && negb handoff && wc_page_operation c) previous false false)))
                b'
          end
      end.

(** [finish]; an origin end takes the evidence. *)
Definition walk_finish w : End_ * CandidateWalk :=
  match wc_rank (cw_config w) with
  | Some rank =>
      if cw_rank0_unanswered w then (End_Exhausted false, w)
      else (End_Origin rank (cw_evidence w),
            mkWalk (cw_config w) (cw_order w) (cw_targets w) (cw_count w) (cw_batch w) (cw_index w) []
              (cw_saw_transient w) (cw_saw_version w) (cw_funding w) (cw_pending w) (cw_done w) (cw_helper w)
              (cw_rank0_unanswered w) (cw_saw_busy w))
  | None =>
      (if cw_saw_version w && negb (cw_saw_transient w) then End_VersionUnavailable else End_Exhausted (cw_funding w), w)
  end.

Definition walk_ended w b : result Step Error * (CandidateWalk * AcquisitionBudget) :=
  let '(e, w) := walk_finish (walk_done w) in (Ok (Step_End e), (w, b)).

(** The loop of [next].  Only a skipped hedge primary, at index 0, continues it, so two
    iterations are enough; running out of fuel is [None]. *)
Fixpoint next_loop (fuel : nat) w b : option (result Step Error * (CandidateWalk * AcquisitionBudget)) :=
  match fuel with
  | O => None
  | S fuel =>
      let index := cw_index w in
      match target w index with
      | None => Some (walk_ended w b)
      | Some canonical =>
          let granted_opportunities := N.of_nat (cw_count w - index + 1) + SUCCESSOR_SHARE_DIVISOR in
          if is_granted w canonical then
            if wc_parallel_granted (cw_config w) then
              let probes := granted_run (length (cw_targets w) + 3) w granted_opportunities index in
              Some (Ok (Step_Granted probes), (walk_batch (walk_at w (index + length probes)) (length probes), b))
            else
              let child := new_budget (b_deadline b) SUCCESSOR_GRANT_ATTEMPTS SUCCESSOR_GRANT_LINKS in
              Some (Ok (Step_Probe (mkProbe index canonical Mode_CopyOnly granted_opportunities
                                      RouteMode_FundedRoute false)),
                    (walk_pending w (Some (mkPendingProbe (Some child) true false false false false true)), b))
          else
            match plan_owned w b index canonical with
            | Planned_Continue w => next_loop fuel w b
            | Planned_Break w => Some (walk_ended w b)
            | Planned_Return r w b => Some (r, (w, b))
            end
      end
  end.

(** [next]. *)
Definition walk_next w b : option (result Step Error * (CandidateWalk * AcquisitionBudget)) :=
  if is_some (cw_pending w) || negb (cw_batch w =? 0)%nat || cw_done w then None
  else
    let w := if bool_decide (cw_helper w = Helper_Unset) then walk_start w b else w in
    if bool_decide (cw_helper w = Helper_Due) then
      let w := walk_helper w Helper_Used in
      if (HELPER_FLOOR_ATTEMPTS <=? b_attempts b) && (HELPER_FLOOR_LINKS <=? b_links b)
      then Some (helper_probe w b)
      else next_loop 2 w b
    else next_loop 2 w b.

(** ** Reporting a probe *)

(** [request_budget]: what the pending probe spends, and how to put it back. *)
Definition request_budget w b : AcquisitionBudget :=
  match cw_pending w ≫= pd_bounded with Some bounded => bounded | None => b end.

Definition pending_with (p : PendingProbe) (bounded : AcquisitionBudget) : PendingProbe :=
  mkPendingProbe (Some bounded) (pd_handoff p) (pd_delegated p) (pd_rank0 p) (pd_previous p) (pd_helper p)
    (pd_granted p).

(** The walk and the caller's budget after the pending probe spent [spent] of [request_budget]. *)
Definition put_request_budget w b (spent : AcquisitionBudget) : CandidateWalk * AcquisitionBudget :=
  match cw_pending w with
  | Some p =>
      match pd_bounded p with
      | Some _ => (walk_pending w (Some (pending_with p spent)), b)
      | None => (w, spent)
      end
  | None => (w, spent)
  end.

Definition complete_granted w (copy : bool) : option (option End_ * CandidateWalk) :=
  if (cw_batch w =? 0)%nat then None
  else
    let w := walk_batch w 0 in
    Some (if copy then (Some End_Copy, walk_done w) else (None, w)).

(** The child budget that is reunited with the caller's. *)
Definition owed_child (p : option PendingProbe) : option AcquisitionBudget :=
  match p with
  | Some p => if pd_granted p then None else pd_bounded p
  | None => None
  end.

(** [if let Some(child) = .. { budget.reunite(child)? }]. *)
Definition reunite_opt b (child : option AcquisitionBudget) : result () Error * AcquisitionBudget :=
  match child with Some child => reunite b child | None => (Ok (), b) end.

(** [abandon]. *)
Definition walk_abandon w b : result () Error * (CandidateWalk * AcquisitionBudget) :=
  let '(r, b) := reunite_opt b (owed_child (cw_pending w)) in
  (r, (walk_pending (walk_batch (walk_done w) 0) None, b)).

(** [retry_pending]: the child is returned, granted or not. *)
Definition retry_pending w b : result () Error * (CandidateWalk * AcquisitionBudget) :=
  let '(r, b) := reunite_opt b (cw_pending w ≫= pd_bounded) in
  (r, (walk_pending w None, b)).

Definition retry_affordable w b : bool :=
  let '(attempts, links, route) :=
    match owed_child (cw_pending w) with
    | Some child => (b_attempts child, b_links child, route_links child)
    | None => (0, 0, 0)
    end in
  let attempts := saturating_add U32_MAX (b_attempts b) attempts in
  let links := b_links b + links in
  let later := len (later_targets w (cw_index w)) in
  let need := 1 + match target w (cw_index w) with Some c => owner_funding_min c | None => 0 end +
              later_reserve w (cw_index w) in
  let route := N.max (N.max route (route_links b)) 1 in
  (need <=? attempts) && (route * (1 + later) <=? links).

Definition is_route_failure (outcome : ProbeOutcome) : bool :=
  match outcome with ProbeOutcome_Unreachable | ProbeOutcome_Overloaded => true | _ => false end.

(** [complete], once the child is reunited: a timeout and rank 0's own failure are normalized,
    an overload of an owner or its route marks the walk. *)
Definition normalize_outcome w (p : PendingProbe) (outcome : Outcome) : Outcome * CandidateWalk :=
  match outcome with
  | Outcome_TimedOut =>
      (Outcome_Transport ProbeOutcome_Unreachable,
       walk_busy w (negb (pd_helper p) && negb (pd_handoff p))
         (pd_rank0 p && negb (bool_decide (wc_rank0 (cw_config w) = Rank0State_Overdue))))
  | Outcome_Failed =>
      (Outcome_Probe ProbeOutcome_Unreachable,
       walk_busy w false (pd_rank0 p && bool_decide (wc_rank0 (cw_config w) = Rank0State_Failed)))
  | outcome => (outcome, w)
  end.

Definition mark_overload w (p : PendingProbe) (outcome : Outcome) : CandidateWalk :=
  match outcome with
  | Outcome_Probe ProbeOutcome_Overloaded | Outcome_Transport ProbeOutcome_Overloaded =>
      if negb (pd_helper p) && negb (pd_handoff p)
      then walk_busy w true (pd_rank0 p && negb (bool_decide (wc_rank0 (cw_config w) = Rank0State_Overdue)))
      else w
  | _ => w
  end.

Definition note_failure_if (c : bool) b : AcquisitionBudget := if c then note_route_failure b else b.

(** The outcome of the helper's probe, which takes no visit position. *)
Definition complete_helper w b (outcome : Outcome) : option End_ * (CandidateWalk * AcquisitionBudget) :=
  match outcome with
  | Outcome_Copy => (Some End_Copy, (walk_done w, b))
  | Outcome_Probe o | Outcome_Transport o => (None, (w, note_failure_if (is_route_failure o) b))
  | _ => (None, (w, b))
  end.

(** The outcome of a visit. *)
Definition complete_visit w b (p : PendingProbe) (outcome : Outcome) :
    option End_ * (CandidateWalk * AcquisitionBudget) :=
  match outcome with
  | Outcome_Probe o | Outcome_Transport o =>
      if pd_delegated p &&
         bool_decide (outcome = Outcome_Probe ProbeOutcome_VersionUnavailable)
      then (Some End_VersionUnavailable, (walk_done w, b))
      else if pd_handoff p then (None, (w, note_failure_if (negb (pd_granted p) && is_route_failure o) b))
      else (None, (walk_saw w (bool_decide (o = ProbeOutcome_VersionUnavailable)) (transient o) [o],
                   note_failure_if (is_route_failure o) b))
  | Outcome_StaleMembership =>
      if pd_handoff p then (None, (w, b))
      else if pd_previous p then (None, (walk_saw w false true [ProbeOutcome_Unreachable], b))
      else (Some End_StaleMembership, (walk_done w, b))
  | Outcome_StaleDestination =>
      if pd_handoff p then (None, (w, b))
      else (None, (walk_saw w false true [ProbeOutcome_Unreachable], b))
  | Outcome_Shed =>
      if pd_handoff p then (None, (w, b))
      else (None, (walk_saw (walk_busy w true false) false true [ProbeOutcome_Overloaded], b))
  | Outcome_Copy => (Some End_Copy, (walk_done w, b))
  | Outcome_TimedOut | Outcome_Failed => (None, (w, b))
  end.

(** [complete]. *)
Definition walk_complete w b (outcome : Outcome) :
    option (result (option End_) Error * (CandidateWalk * AcquisitionBudget)) :=
  match cw_pending w with
  | None => None
  | Some p =>
      let w := walk_pending w None in
      match reunite_opt b (owed_child (Some p)) with
      | (Err e, b) => Some (Err e, (w, b))
      | (Ok _, b) =>
          let '(outcome, w) := normalize_outcome w p outcome in
          let w := mark_overload w p outcome in
          if pd_helper p then let '(e, wb) := complete_helper w b outcome in Some (Ok e, wb)
          else
            let w := walk_at w (S (cw_index w)) in
            let w := if bool_decide (cw_helper w = Helper_Armed) && bool_decide (outcome = Outcome_Shed)
                     then walk_helper w Helper_Due else w in
            let '(e, wb) := complete_visit w b p outcome in Some (Ok e, wb)
      end
  end.

(** ** The walk after an origin version miss *)

Record RemainingWalk := mkRemaining {
  rw_owners : nat; rw_index : nat; rw_transient : bool; rw_pending : bool
}.

Inductive RemainingEnd := RemainingEnd_Copy | RemainingEnd_None | RemainingEnd_Unavailable.

Definition remaining_new (rank owners : nat) : RemainingWalk := mkRemaining owners (rank + 1) false false.

Definition next_probe (r : RemainingWalk) : option (result Probe RemainingEnd * RemainingWalk) :=
  if rw_pending r then None
  else if (rw_owners r <=? rw_index r)%nat then
    Some (Err (if rw_transient r then RemainingEnd_Unavailable else RemainingEnd_None), r)
  else
    Some (Ok (mkProbe (rw_index r) (rw_index r) Mode_CopyOnly (N.of_nat (rw_owners r - rw_index r))
                RouteMode_SharedRoute false),
          mkRemaining (rw_owners r) (rw_index r) (rw_transient r) true).

Definition remaining_complete (r : RemainingWalk) b (outcome : Outcome) :
    option (option RemainingEnd * (RemainingWalk * AcquisitionBudget)) :=
  if negb (rw_pending r) then None
  else
    let step t := mkRemaining (rw_owners r) (S (rw_index r)) (rw_transient r || t) false in
    Some (match outcome with
          | Outcome_Copy => (Some RemainingEnd_Copy, (step false, b))
          | Outcome_Probe o => (None, (step (transient o), b))
          | Outcome_Shed | Outcome_Failed | Outcome_StaleMembership | Outcome_StaleDestination => (None, (step true, b))
          | Outcome_Transport _ | Outcome_TimedOut => (None, (step true, note_route_failure b))
          end).

(** ** One exchange *)

Definition transport_outcome (error : Error) : option ProbeOutcome :=
  match error with
  | Error_Unavailable | Error_Io | Error_Os _ | Error_HopBudgetExhausted => Some ProbeOutcome_Unreachable
  | Error_Overloaded => Some ProbeOutcome_Overloaded
  | _ => None
  end.

Record AttemptPlan := mkAttemptPlan {
  ap_links : N; ap_overall : N; ap_share : N; ap_attempt_end : N; ap_idle : N; ap_remote_attempts : N;
  ap_complete_by : N; ap_observation : N
}.

Record AttemptInputs := mkAttemptInputs {
  ai_now : N; ai_caller_deadline : N; ai_remaining_opportunities : N; ai_route : RouteMode; ai_mode : Mode;
  ai_attempt_timeout : N; ai_failure_links : N
}.

Definition plan_attempt b (i : AttemptInputs) : result AttemptPlan Error * AcquisitionBudget :=
  let links := route_links b in
  if links =? 0 then (Err Error_HopBudgetExhausted, b)
  else
    let now := ai_now i in
    match begin_peer_attempt b now (ai_caller_deadline i) links with
    | (Err e, b) => (Err e, b)
    | (Ok overall, b) =>
        let opportunities := N.max (ai_remaining_opportunities i) 1 in
        let share := now + (overall - now) / opportunities in
        let attempt_end :=
          now + N.min (ai_attempt_timeout i)
                  (if bool_decide (ai_route i = RouteMode_DirectHedge) then (overall - now) / 3 else overall - now) in
        let idle := N.min (share - now) (attempt_end - now) in
        let '(remote, b) :=
          match ai_mode i with
          | Mode_Acquire =>
              send_remote b (if bool_decide (ai_route i = RouteMode_FundedRoute) then b_attempts b
                             else div_ceil (b_attempts b) opportunities)
          | Mode_CopyOnly => (Ok 0, b)
          end in
        match remote with
        | Err e => (Err e, b)
        | Ok remote_attempts =>
            let reserve := N.min (share - now) ((overall - share) / 2) in
            let complete_by :=
              if (1 <? ai_remaining_opportunities i) && (0 <? b_attempts b) &&
                 (ai_failure_links i <=? b_links b) && negb (reserve =? 0)
              then N.min attempt_end (overall - reserve) else attempt_end in
            let observation := N.max (N.min (share - now) ((attempt_end - now) / 3)) 1 in
            (Ok (mkAttemptPlan links overall share attempt_end idle remote_attempts complete_by observation), b)
        end
    end.

(** ** Hedges and stale destinations *)

(** [hedge_eligible]; [owners[first]] and [owners[second]] outside the owners panic. *)
Definition hedge_eligible (page owner : bool) (owners : list N) (first second : nat) b : option bool :=
  if page && negb owner && (2 <=? length owners)%nat && (first =? 0)%nat then
    match owners !! first, owners !! second with
    | Some a, Some a' =>
        Some (negb (a =? a') && (3 + owner_funding_min second <=? b_attempts b) && (10 <=? b_links b))
    | _, _ => None
    end
  else Some false.

Definition hedge_budgets b : result (AcquisitionBudget * AcquisitionBudget) Error * AcquisitionBudget :=
  match partition b 1 1 with
  | (Err e, b) => (Err e, b)
  | (Ok secondary, b) =>
      match partition b 2 1 with
      | (Err e, b) => (Err e, b)
      | (Ok primary, b) => (Ok (secondary, primary), b)
      end
  end.

Definition hedge_fallback (error : Error) : bool :=
  match error with
  | Error_Unavailable | Error_Io | Error_Os _ | Error_Overloaded | Error_CorruptRecord | Error_MissingKey
  | Error_InvalidRequest | Error_HeaderTooLarge => true
  | _ => false
  end.

Inductive StaleAction := StaleAction_Refresh | StaleAction_Skip.

Definition stale_action (retried : bool) (previous : N) (latest : option N) : result StaleAction Error :=
  let? latest := ok_or latest Error_Unavailable in
  Ok (if negb retried && (previous <? latest) then StaleAction_Refresh else StaleAction_Skip).

Definition MAX_STALE_WAIT : N := 4 * SECOND.
Definition MAX_STALE_WAITS : N := 2.
Definition MIN_STALE_WAIT : N := 250000000.

Definition stale_wait (waits : N) (affordable : bool) (remaining : N) : option N :=
  if (MAX_STALE_WAITS <=? waits) || ((0 <? waits) && negb affordable) then None
  else
    let wait := N.min (remaining / 3) MAX_STALE_WAIT in
    if MIN_STALE_WAIT <=? wait then Some wait else None.

Definition previous_fallback (owner retried previous_recent_member : bool) : bool :=
  negb owner && negb retried && previous_recent_member.
