(* ===== verification/WalkRuns.v ===== *)
(** * Runs of the candidate walk

    What holds along every walk of [cmd/racer/core/src/read/walk.rs], whatever the probes
    answer and spend: the walk's shape, the positions still to visit, the evidence an owner
    has collected, and the credits held by the caller and the pending probe. *)

From S2P Require Import Prelude Budget HotPage Rank0 ReadRules Targets Walk.
Local Open Scope N_scope.

(** ** Well-formed walks *)

(** A configuration for at most three owners: an owner's rank is one of them, a reader's order
    visits each once. *)
Definition config_ok (c : WalkConfig) : Prop :=
  (wc_owners c ≤ 3)%nat ∧
  match wc_rank c with
  | Some r => (r < wc_owners c)%nat
  | None => order_of (wc_owners c) (wc_order c)
  end.

(** Handoff targets an owner visits after its predecessors. *)
Definition handoff_count (c : WalkConfig) : nat :=
  if wc_page_operation c then Nat.min (wc_handoff c) MAX_TARGETS else 0.

Definition shape (w : CandidateWalk) : Prop :=
  let c := cw_config w in
  match wc_rank c with
  | Some r =>
      cw_count w = (r + handoff_count c)%nat ∧
      (∀ i, (i < cw_count w)%nat →
        cw_targets w !! i = Some (if (i <? r)%nat then i else (wc_owners c + (i - r))%nat)) ∧
      (cw_helper w = Helper_Unset ∨ cw_helper w = Helper_Off)
  | None => cw_count w = wc_owners c ∧ order_of (wc_owners c) (cw_order w)
  end.

(** What a pending probe asks, against the walk's position. *)
Definition pending_ok (w : CandidateWalk) (p : PendingProbe) : Prop :=
  (pd_helper p = true → wc_rank (cw_config w) = None ∧ pd_handoff p = true) ∧
  (pd_granted p = true → is_Some (wc_rank (cw_config w)) ∧ pd_handoff p = true ∧ is_Some (pd_bounded p)) ∧
  (pd_helper p = false →
    (cw_index w < cw_count w)%nat ∧
    (pd_handoff p = true ↔ ∃ r, wc_rank (cw_config w) = Some r ∧ (r ≤ cw_index w)%nat)) ∧
  (pd_rank0 p = true → ∃ r, wc_rank (cw_config w) = Some r ∧ (0 < r)%nat ∧ pd_handoff p = false).

Record walk_inv (w : CandidateWalk) : Prop := {
  wi_config : config_ok (cw_config w);
  wi_shape : shape w;
  wi_index : (cw_index w ≤ cw_count w)%nat;
  wi_pending : ∀ p, cw_pending w = Some p → cw_batch w = 0%nat ∧ cw_done w = false ∧ pending_ok w p;
  wi_batch : cw_batch w ≠ 0%nat → cw_done w = false;
  wi_evidence : ∀ r, wc_rank (cw_config w) = Some r → primary_consumed (wc_continuation (cw_config w)) = false →
    length (cw_evidence w) = Nat.min (cw_index w) r
}.

(** The positions and helper probe still ahead, counting an unanswered helper or batch. *)
Definition ahead (w : CandidateWalk) : nat :=
  (cw_count w - cw_index w) +
  match cw_helper w with Helper_Unset | Helper_Armed | Helper_Due => 1 | _ => 0 end +
  match cw_pending w with Some p => if pd_helper p then 1 else 0 | None => 0 end +
  (if (cw_batch w =? 0)%nat then 0 else 1).

(** The walk waits for its next step. *)
Definition ready (w : CandidateWalk) : Prop := cw_pending w = None ∧ cw_batch w = 0%nat ∧ cw_done w = false.

Lemma walk_new_inv c : config_ok c → walk_inv (walk_new c) ∧ ready (walk_new c) ∧ cw_config (walk_new c) = c ∧
  (ahead (walk_new c) ≤ 11)%nat.
Proof.
  intros [Ho Hr]. unfold walk_new. destruct (wc_rank c) as [r|] eqn:Er.
  - assert (Hm : Nat.min r 2 = r) by lia. rewrite Hm.
    set (handoff := if wc_page_operation c then _ else _).
    assert (Hh : length handoff = handoff_count c).
    { unfold handoff, handoff_count. destruct (wc_page_operation c); [|done]. by rewrite length_fmap, length_seq. }
    assert (Hhl : (handoff_count c ≤ 8)%nat).
    { unfold handoff_count, MAX_TARGETS, REPLICAS_BELOW, MAX_HANDOFF, MAX_LINEAGE. destruct (wc_page_operation c); lia. }
    assert (Hlen : length (seq 0 r ++ handoff) = (r + handoff_count c)%nat) by (by rewrite length_app, length_seq, Hh).
    split_and!; [|done|done|].
    + constructor; simpl; [split; [done|by rewrite Er]| |lia|done|done|done].
      unfold shape; simpl. rewrite Er. split_and!; [done| |by left].
      * intros i Hi. rewrite lookup_app_l by lia. destruct (Nat.ltb_spec i r).
        -- rewrite lookup_app_l by (rewrite length_seq; lia). rewrite lookup_seq_lt by lia. done.
        -- rewrite lookup_app_r by (rewrite length_seq; lia). rewrite length_seq.
           rewrite Hlen in Hi. unfold handoff, handoff_count in *. destruct (wc_page_operation c); [|lia].
           rewrite list_lookup_fmap, lookup_seq_lt by lia. cbn [fmap option_fmap option_map]. f_equal.
           rewrite Nat.mod_small by (unfold MAX_TARGETS, REPLICAS_BELOW, MAX_HANDOFF, MAX_LINEAGE in *; lia). lia.
    + unfold ahead; simpl. rewrite Hlen. lia.
  - split_and!; [|done|done|].
    + constructor; simpl; [split; [done|by rewrite Er]| |lia|done|done|intros r; by rewrite Er].
      unfold shape; simpl. by rewrite Er.
    + unfold ahead; simpl. lia.
Qed.

(** ** Targets *)

Lemma target_owner w r i : shape w → wc_rank (cw_config w) = Some r →
  target w i = if (i <? cw_count w)%nat
               then Some (if (i <? r)%nat then i else (wc_owners (cw_config w) + (i - r))%nat) else None.
Proof.
  intros Hs Hr. unfold shape in Hs. unfold target. rewrite Hr in *; simpl.
  destruct (Nat.ltb_spec i (cw_count w)); [|done]. destruct Hs as (_ & Ht & _). by apply Ht.
Qed.

Lemma target_reader w i c : shape w → config_ok (cw_config w) → wc_rank (cw_config w) = None → target w i = Some c →
  (c < wc_owners (cw_config w))%nat ∧ (i < cw_count w)%nat.
Proof.
  intros Hs [Ho _] Hr Ht. unfold shape in Hs. unfold target in Ht. rewrite Hr in *; simpl in *.
  destruct Hs as [-> Hord]. apply (order_of_get _ _ _ _ Hord) in Ht. lia.
Qed.

Lemma target_reader_None w i : shape w → config_ok (cw_config w) → wc_rank (cw_config w) = None → target w i = None →
  (cw_count w ≤ i)%nat.
Proof.
  intros Hs [Ho _] Hr Ht. unfold shape in Hs. unfold target in Ht. rewrite Hr in *; simpl in *.
  destruct Hs as [-> Hord]. apply lookup_ge_None in Ht. rewrite (order_of_len _ _ Hord) in Ht. lia.
Qed.

Lemma target_lt w i c : walk_inv w → target w i = Some c → (i < cw_count w)%nat.
Proof.
  intros Hi Ht. destruct (wc_rank (cw_config w)) as [r|] eqn:Hr.
  - rewrite (target_owner w r) in Ht by (done || apply Hi). by destruct (Nat.ltb_spec i (cw_count w)).
  - eapply target_reader in Ht; [apply Ht|apply Hi|apply Hi|done].
Qed.

Lemma target_None w i : walk_inv w → target w i = None → (cw_count w ≤ i)%nat.
Proof.
  intros Hi Ht. destruct (wc_rank (cw_config w)) as [r|] eqn:Hr.
  - rewrite (target_owner w r) in Ht by (done || apply Hi). by destruct (Nat.ltb_spec i (cw_count w)).
  - eapply target_reader_None in Ht; [apply Ht|apply Hi|apply Hi|done].
Qed.

(** A target past the owners is a handoff target, visited after the predecessors. *)
Lemma target_handoff w i c : walk_inv w → target w i = Some c →
  ((wc_owners (cw_config w) ≤ c)%nat ↔ ∃ r, wc_rank (cw_config w) = Some r ∧ (r ≤ i)%nat).
Proof.
  intros Hi Ht. destruct (wc_rank (cw_config w)) as [r|] eqn:Hr.
  - rewrite (target_owner w r) in Ht by (done || apply Hi).
    destruct (Nat.ltb_spec i (cw_count w)); [|done]. injection Ht as <-.
    destruct (wi_config _ Hi) as [_ Hro]. rewrite Hr in Hro.
    destruct (Nat.ltb_spec i r); split; [lia| |exists r; split; [done|lia]|lia].
    intros (r' & [= ->] & Hle). lia.
  - eapply target_reader in Ht; [|apply Hi|apply Hi|done]. split; [lia|]. by intros (r & ? & _).
Qed.

Lemma granted_owner w i c : walk_inv w → target w i = Some c → is_granted w c = true →
  ∃ r, wc_rank (cw_config w) = Some r ∧ (r ≤ i)%nat.
Proof.
  intros Hi Ht Hg. apply (target_handoff w i c Hi Ht). unfold is_granted in Hg.
  apply andb_true_iff in Hg as [Hle _]. by apply Nat.leb_le in Hle.
Qed.

(** Changing only counters, flags and the pending probe keeps the shape. *)
Lemma shape_same w w' : cw_config w' = cw_config w → cw_count w' = cw_count w → cw_targets w' = cw_targets w →
  cw_order w' = cw_order w → cw_helper w' = cw_helper w → shape w → shape w'.
Proof. unfold shape. by intros -> -> -> -> ->. Qed.

Lemma walk_start_inv w b : walk_inv w → ready w → cw_helper w = Helper_Unset →
  walk_inv (walk_start w b) ∧ ready (walk_start w b) ∧ (ahead (walk_start w b) ≤ ahead w)%nat ∧
  cw_config (walk_start w b) = cw_config w ∧ cw_index (walk_start w b) = cw_index w ∧
  cw_evidence (walk_start w b) = cw_evidence w ∧ cw_rank0_unanswered (walk_start w b) = cw_rank0_unanswered w ∧
  cw_helper (walk_start w b) ≠ Helper_Due.
Proof.
  intros Hi (Hp & Hb & Hd) Hu. unfold walk_start.
  match goal with |- context [walk_helper w (if ?e then _ else _)] => set (eligible := e) end.
  match goal with |- context [if ?c then walk_order _ _ else _] => set (reorder := c) end.
  assert (Hel : ∀ r, wc_rank (cw_config w) = Some r → eligible = false ∧ reorder = false).
  { intros r Hr. unfold eligible, reorder. rewrite Hr; simpl. by rewrite andb_false_r. }
  assert (Hs : shape (walk_helper w (if eligible then Helper_Armed else Helper_Off))).
  { pose proof (wi_shape _ Hi) as Hs. unfold shape in *; simpl. destruct (wc_rank (cw_config w)) as [r|] eqn:Hr; [|done].
    destruct (Hel r eq_refl) as [-> _]. destruct Hs as (? & ? & _). split_and!; [done|done|by right]. }
  destruct reorder eqn:Hre.
  - assert (Hr : wc_rank (cw_config w) = None).
    { destruct (wc_rank (cw_config w)) as [r|]; [|done]. by destruct (Hel r eq_refl). }
    unfold shape in Hs; simpl in Hs. rewrite Hr in Hs. destruct Hs as [Hc Ho].
    split_and!; try done; [|unfold ahead; simpl; rewrite Hu, Hp, Hb; simpl; destruct eligible; lia|
                           simpl; destruct eligible; discriminate].
    constructor; simpl; [apply Hi| |apply Hi|by intros p; rewrite Hp|by rewrite Hb|intros r; by rewrite Hr].
    unfold shape; simpl. rewrite Hr. split; [done|].
    pose proof (canonical_order_of (wc_owners (cw_config w))) as Hcan.
    rewrite (order_of_len _ _ Ho). unfold canonical_order in *.
    by rewrite (Nat.min_l (Nat.min (wc_owners (cw_config w)) 3) 3) by lia.
  - split_and!; try done; [|unfold ahead; simpl; rewrite Hu, Hp, Hb; simpl; destruct eligible; lia|
                           simpl; destruct eligible; discriminate].
    constructor; simpl; [apply Hi|done|apply Hi|by intros p; rewrite Hp|by rewrite Hb|apply Hi].
Qed.

(** ** Planning *)

Definition owner_attempts w b index canonical : N :=
  1 + (if delegates w b index canonical then 1 else 0) + delegation_spare w b index (delegates w b index canonical).

Lemma delegation_affordable w b index canonical : delegates w b index canonical = true →
  owner_attempts w b index canonical + credits_left w index ≤ b_attempts b ∧ credits_left w index ≤ b_links b.
Proof.
  intros Hd. unfold owner_attempts. rewrite Hd. unfold delegates in Hd.
  apply andb_true_iff in Hd as [Hd Hl%N.leb_le]. apply andb_true_iff in Hd as [_ Ha%N.leb_le].
  split; [|done]. unfold delegation_spare. simpl.
  destruct (0 <? _); lia.
Qed.

Lemma bounded_child_spec w b index canonical handoff copy_only a l :
  (delegates w b index canonical = true → 1 ≤ credits_left w index) →
  bounded_child w b index canonical handoff (delegates w b index canonical) copy_only (owner_attempts w b index canonical)
    = Some (Some (a, l)) →
  l ≤ b_links b ∧
  (a ≤ b_attempts b ∨ b_attempts b = 0 ∧ is_Some (wc_rank (cw_config w))) ∧
  (is_Some (wc_rank (cw_config w)) → a = owner_attempts w b index canonical).
Proof.
  intros Hc. unfold bounded_child.
  match goal with |- context [N.of_nat ?s - 1] => set (sharing := s) end.
  assert (Hsh : (1 ≤ sharing)%nat) by (unfold sharing; destruct handoff; lia).
  destruct (delegates w b index canonical) eqn:Hd.
  { intros [= <- <-]. specialize (Hc eq_refl). destruct (delegation_affordable _ _ _ _ Hd) as [Ha Hl].
    split_and!; [unfold route_links; lia|left; lia|done]. }
  assert (Ho : owner_attempts w b index canonical = 1) by (unfold owner_attempts, delegation_spare; by rewrite Hd).
  destruct (is_some (wc_rank (cw_config w)) && (b_links b <? N.of_nat sharing * route_links b)) eqn:Hb.
  { apply andb_true_iff in Hb as [Hr Hlt%N.ltb_lt]. intros [= <- <-]. rewrite Ho.
    assert (Hrank : is_Some (wc_rank (cw_config w))) by (by destruct (wc_rank (cw_config w))).
    split_and!; [|destruct (b_attempts b) eqn:E; [right|left; lia]; done|done].
    destruct (_ && wc_page_operation _).
    - assert (b_links b ≠ 0) by (intros Hz; unfold route_links in Hlt; lia). unfold route_links in *. lia.
    - etransitivity; [apply N.le_min_l|]. apply N.Div0.div_le_upper_bound. nia. }
  match goal with |- context [if ?c then _ else Some None] => destruct c end; [|discriminate].
  match goal with |- context [if ?c then None else _] => destruct c eqn:Hf end; [discriminate|]. apply orb_false_iff in Hf as [Ha%N.ltb_ge Hl%N.ltb_ge].
  intros [= <- <-]. split_and!; [done|by left|]. intros [r Hr]. by rewrite Hr.
Qed.

Lemma bounded_child_short w b index canonical handoff delegated copy_only attempts :
  bounded_child w b index canonical handoff delegated copy_only attempts = None →
  wc_rank (cw_config w) = None ∨ bounded_routes (wc_continuation (cw_config w)) = true.
Proof.
  unfold bounded_child. destruct delegated; [done|]. destruct (_ && (b_links b <? _)); [done|].
  destruct (bounded_routes _); [by right|]. destruct (wc_rank _); simpl; [done|by left].
Qed.

(** The credits of the caller and the pending child. *)
Definition splits b b' (child : option AcquisitionBudget) : Prop :=
  match child with
  | Some child =>
      b_attempts b' + b_attempts child = b_attempts b ∧ b_links b' + b_links child = b_links b ∧
      b_deadline child = b_deadline b ∧ b_deadline b' = b_deadline b ∧
      b_remote_sent b' = b_remote_sent b ∧ b_charged_links b' = b_charged_links b ∧
      b_remote_sent child = 0 ∧ b_charged_links child = 0
  | None => b' = b
  end.

Lemma partition_splits b a l : a ≤ b_attempts b → l ≤ b_links b →
  ∃ child b', partition b a l = (Ok child, b') ∧ splits b b' (Some child) ∧ b_attempts child = a ∧
    splits b b' (Some (note_route_failure child)).
Proof.
  intros Ha Hl. unfold partition, checked_sub.
  destruct (N.leb_spec a (b_attempts b)); [|lia]. destruct (N.leb_spec l (b_links b)); [|lia].
  do 2 eexists. split; [done|]. unfold splits; simpl. split_and!; lia.
Qed.

(** A probe names an owner, the helper of a reader, or a handoff target of an owner. *)
Definition addressed (c : WalkConfig) (probe : Probe) : Prop :=
  (pr_canonical probe < wc_owners c)%nat ∨
  wc_rank c = None ∧ pr_canonical probe = wc_owners c ∨
  is_Some (wc_rank c) ∧ (wc_owners c ≤ pr_canonical probe < wc_owners c + wc_handoff c)%nat.

Lemma target_addressed w i c probe : walk_inv w → target w i = Some c → pr_canonical probe = c →
  addressed (cw_config w) probe.
Proof.
  intros Hi Ht Hc. unfold addressed. rewrite Hc. destruct (wc_rank (cw_config w)) as [r|] eqn:Hr.
  - destruct (wi_config _ Hi) as [_ Hro]. rewrite Hr in Hro. pose proof (wi_shape _ Hi) as Hs. unfold shape in Hs. rewrite Hr in Hs.
    rewrite (target_owner w r) in Ht by (done || apply Hi). destruct (Nat.ltb_spec i (cw_count w)); [|done].
    injection Ht as <-. destruct (Nat.ltb_spec i r); [left; lia|]. right; right. split; [done|].
    destruct Hs as [Hcount _]. unfold handoff_count in Hcount. destruct (wc_page_operation (cw_config w)); lia.
  - left. eapply target_reader in Ht; [apply Ht|apply Hi|apply Hi|done].
Qed.

(** What one planned probe is funded with: an owner keeps the credits of its later
    predecessors and its origin. *)
Definition funding_ok w b (probe : Probe) (p : PendingProbe) b' : Prop :=
  (pd_handoff p = true → pd_helper p = false → pd_granted p = false → 2 ≤ b_attempts b) ∧
  ∀ r, wc_rank (cw_config w) = Some r → pd_granted p = false →
    match pd_bounded p with
    | Some child => b_attempts child = 1 ∨ 1 ≤ credits_left w (cw_index w) ≤ b_attempts b'
    | None => pr_mode probe = Mode_CopyOnly
    end.

Definition planned_ok w b (p : Planned) : Prop :=
  match p with
  | Planned_Continue w' =>
      cw_index w = 0%nat ∧ primary_consumed (wc_continuation (cw_config w)) = true ∧
      ∃ version transient_, w' = walk_at (walk_saw w version transient_ []) 1
  | Planned_Break w' =>
      w' = w ∧ (∃ r, wc_rank (cw_config w) = Some r ∧ (r ≤ cw_index w)%nat) ∨
      w' = walk_unfunded w ∧
        (wc_rank (cw_config w) = None ∨ bounded_routes (wc_continuation (cw_config w)) = true)
  | Planned_Return (Err e) w' b' => e = Error_Unavailable ∧ b_attempts b = 0 ∧ w' = w ∧ b' = b
  | Planned_Return (Ok s) w' b' =>
      ∃ probe p, s = Step_Probe probe ∧ w' = walk_pending w (Some p) ∧ pending_ok w p ∧ pd_granted p = false ∧
        pd_helper p = false ∧ splits b b' (pd_bounded p) ∧ funding_ok w b probe p b' ∧
        addressed (cw_config w) probe
  end.

Lemma delegates_left w b i : walk_inv w → target w i = Some 0%nat → delegates w b i 0 = true → 1 ≤ credits_left w i.
Proof.
  intros Hi Ht Hd. unfold delegates, credits_left in *. destruct (wc_rank (cw_config w)) as [r|] eqn:Hr; [|done].
  rewrite (target_owner w r) in Ht by (done || apply Hi). destruct (i <? cw_count w)%nat; [|done].
  destruct (wi_config _ Hi) as [_ Hro]. rewrite Hr in Hro.
  destruct (Nat.ltb_spec i r); simplify_eq; [|lia]. lia.
Qed.

Lemma partition_short b a l : l ≤ b_links b → b_attempts b < a → partition b a l = (Err Error_Unavailable, b).
Proof. intros _ Ha. unfold partition, checked_sub. destruct (N.leb_spec a (b_attempts b)); [lia|done]. Qed.

Lemma plan_owned_ok w b canonical : walk_inv w → target w (cw_index w) = Some canonical →
  planned_ok w b (plan_owned w b (cw_index w) canonical).
Proof.
  intros Hi Ht. pose proof (target_handoff w _ _ Hi Ht) as Hh. pose proof (target_lt w _ _ Hi Ht) as Hlt.
  unfold plan_owned. set (handoff := (wc_owners (cw_config w) <=? canonical)%nat).
  assert (Hho : handoff = true ↔ ∃ r, wc_rank (cw_config w) = Some r ∧ (r ≤ cw_index w)%nat).
  { rewrite <- Hh. unfold handoff. by rewrite Nat.leb_le. }
  destruct (handoff && _) eqn:Hbr.
  { apply andb_true_iff in Hbr as [Hbr _]. left. split; [done|by apply Hho]. }
  destruct (primary_consumed _ && _) eqn:Hpc.
  { apply andb_true_iff in Hpc as [Hpc Hz%Nat.eqb_eq]. split_and!; [done|done|]. rewrite Hz. by eexists _, _. }
  fold (owner_attempts w b (cw_index w) canonical).
  set (copy_only := _ || _). set (delegated := delegates w b (cw_index w) canonical).
  assert (Hdl : delegated = true → 1 ≤ credits_left w (cw_index w)).
  { intros Hd. destruct (decide (canonical = 0%nat)) as [->|Hne]; [by apply (delegates_left w b)|].
    exfalso. unfold delegated, delegates in Hd. apply Nat.eqb_neq in Hne. rewrite Hne in Hd.
    by destruct (wc_rank (cw_config w)); rewrite ?andb_false_r in Hd. }
  destruct (bounded_child _ _ _ _ _ _ _ _) as [child|] eqn:Hc; [|right; split; [done|by eapply bounded_child_short]].
  assert (Hp : ∀ bounded previous, pending_ok w (mkPendingProbe bounded handoff delegated
    (is_some (wc_rank (cw_config w)) && (canonical =? 0)%nat && negb handoff && wc_page_operation (cw_config w)) previous false false)).
  { intros bounded previous. unfold pending_ok; simpl. split_and!; [done|done|done|].
    destruct (wc_rank (cw_config w)) as [r|] eqn:Hr; [|done]. simpl. destruct handoff eqn:Hhe; [by rewrite andb_false_r|].
    intros Hz. exists r. split_and!; [done| |done]. destruct (decide (r = 0%nat)) as [->|]; [|lia].
    exfalso. assert (false = true); [|done]. apply Hho. exists 0%nat. split; [done|lia]. }
  assert (Hha : handoff = true → 2 ≤ b_attempts b).
  { intros Htrue. rewrite Htrue in Hbr; simpl in Hbr. apply orb_false_iff in Hbr as [Hbr%N.ltb_ge _]. done. }
  destruct child as [[a l]|].
  - apply bounded_child_spec in Hc as (Hl & Ha & Hao); [|done].
    destruct (N.le_gt_cases a (b_attempts b)) as [Hle|Hgt].
    2: { rewrite partition_short by done. destruct Ha as [?|[Hz _]]; [lia|]. by split_and!. }
    destruct (partition_splits b a l Hle Hl) as (child & b' & -> & Hs & Hca & Hs').
    do 2 eexists. split_and!; [done|done|apply Hp|done|done|simpl; by destruct (wc_rank (cw_config w))| |by eapply (target_addressed w)].
    split; simpl; [intros Hx _ _; by apply Hha|]. intros r Hr _. rewrite Hr; simpl.
    destruct delegated eqn:Hd.
    + right. destruct (delegation_affordable w b (cw_index w) canonical Hd) as [Hda _].
      rewrite <- Hao in Hda by by rewrite Hr. specialize (Hdl eq_refl). unfold splits in Hs. lia.
    + left. rewrite Hca, Hao by by rewrite Hr. unfold owner_attempts, delegation_spare, delegated in *. by rewrite Hd.
  - do 2 eexists. split_and!; [done|done|apply Hp|done|done|done| |by eapply (target_addressed w)].
    split; simpl; [intros Hx _ _; by apply Hha|]. intros r Hr _.
    assert (delegated = false) as Hd.
    { unfold bounded_child in Hc. by destruct delegated. }
    unfold copy_only. fold delegated. by rewrite Hr, Hd.
Qed.

(** ** The next step *)

(** How a walk that runs out of targets may end. *)
Definition end_ok w (e : End_) : Prop :=
  match e with
  | End_Origin r evidence =>
      wc_rank (cw_config w) = Some r ∧ cw_rank0_unanswered w = false ∧ evidence = cw_evidence w ∧
      (bounded_routes (wc_continuation (cw_config w)) = false →
       primary_consumed (wc_continuation (cw_config w)) = false → length evidence = r)
  | End_Exhausted _ => wc_rank (cw_config w) = None ∨ cw_rank0_unanswered w = true
  | End_VersionUnavailable => wc_rank (cw_config w) = None
  | End_Copy | End_StaleMembership => False
  end.

Definition next_ok w b (x : result Step Error * (CandidateWalk * AcquisitionBudget)) : Prop :=
  let '(r, (w', b')) := x in
  cw_config w' = cw_config w ∧ cw_rank0_unanswered w' = cw_rank0_unanswered w ∧
  match r with
  | Err e => e = Error_Unavailable ∧ b_attempts b = 0 ∧ b' = b ∧ cw_pending w' = None
  | Ok (Step_Probe probe) =>
      walk_inv w' ∧ (ahead w' ≤ ahead w)%nat ∧ cw_evidence w' = cw_evidence w ∧
      ∃ p, cw_pending w' = Some p ∧
        (if pd_granted p then b' = b ∧ pd_bounded p = Some (granted_budget (b_deadline b))
         else splits b b' (pd_bounded p)) ∧
        funding_ok w' b probe p b' ∧ addressed (cw_config w) probe
  | Ok (Step_Granted probes) =>
      walk_inv w' ∧ (ahead w' ≤ ahead w)%nat ∧ cw_evidence w' = cw_evidence w ∧ cw_pending w' = None ∧ b' = b ∧
      probes ≠ [] ∧ cw_batch w' = length probes ∧
      (∃ r, wc_rank (cw_config w) = Some r ∧ (r ≤ cw_index w')%nat) ∧
      (∃ h, (h + length probes ≤ wc_handoff (cw_config w))%nat ∧
        ∀ i p, probes !! i = Some p → pr_canonical p = (wc_owners (cw_config w) + h + i)%nat)
  | Ok (Step_End e) => b' = b ∧ cw_pending w' = None ∧ end_ok w e
  end.

Lemma granted_run_ok fuel w ro r i : walk_inv w → wc_rank (cw_config w) = Some r → (r ≤ i)%nat →
  (length (granted_run fuel w ro i) ≤ cw_count w - i)%nat ∧
  ∀ k p, granted_run fuel w ro i !! k = Some p → pr_canonical p = (wc_owners (cw_config w) + (i - r) + k)%nat.
Proof.
  intros Hi Hr. revert i. induction fuel as [|fuel IH]; intros i Hle; simpl; [split; [lia|done]|].
  destruct (target w i) as [c|] eqn:Ht; [|split; [simpl; lia|done]].
  destruct (is_granted w c) eqn:Hg; [|split; [simpl; lia|done]].
  pose proof (target_lt w i c Hi Ht) as Hlt. rewrite (target_owner w r) in Ht by (done || apply Hi).
  destruct (Nat.ltb_spec i (cw_count w)); [|done]. destruct (Nat.ltb_spec i r); [lia|]. injection Ht as <-.
  destruct (IH (S i)) as [Hl Hf]; [lia|]. split; [simpl; lia|].
  intros [|k] p Hk; simpl in Hk; [injection Hk as <-; simpl; lia|]. rewrite (Hf k p Hk). lia.
Qed.

Lemma walk_ended_ok w b : walk_inv w → ready w →
  (∀ r, wc_rank (cw_config w) = Some r → bounded_routes (wc_continuation (cw_config w)) = false → (r ≤ cw_index w)%nat) →
  next_ok w b (walk_ended w b).
Proof.
  intros Hi (Hp & _ & _) Hr. unfold walk_ended, walk_finish; simpl.
  destruct (wc_rank (cw_config w)) as [r|] eqn:Er.
  - destruct (cw_rank0_unanswered w) eqn:Hu; simpl; split_and!; try done; [by right|].
    intros Hb Hpc. rewrite (wi_evidence _ Hi r Er Hpc). specialize (Hr r eq_refl Hb). lia.
  - destruct (_ && _); simpl; split_and!; try done. by left.
Qed.

(** A step from a later state of the same walk is a step of the walk. *)
Lemma next_ok_after w w' b x : cw_config w' = cw_config w → cw_rank0_unanswered w' = cw_rank0_unanswered w →
  cw_evidence w' = cw_evidence w → (ahead w' ≤ ahead w)%nat → next_ok w' b x → next_ok w b x.
Proof.
  intros Hc Hu He Ha. destruct x as [r [w'' b'']]. unfold next_ok, end_ok. rewrite Hc, Hu, He.
  destruct r as [[probe|probes|e]|e]; naive_solver lia.
Qed.

Lemma pending_inv w p : walk_inv w → ready w → pending_ok w p → walk_inv (walk_pending w (Some p)).
Proof.
  intros Hi (Hp & Hb & Hd) Hok.
  constructor; simpl; [apply Hi|apply (shape_same w); try done; apply Hi|apply Hi| |by rewrite Hb|apply Hi].
  intros p' [= <-]. by split_and!.
Qed.

Lemma next_granted_ok w b c : walk_inv w → ready w → target w (cw_index w) = Some c → is_granted w c = true →
  let opportunities := N.of_nat (cw_count w - cw_index w + 1) + SUCCESSOR_SHARE_DIVISOR in
  let probes := granted_run (length (cw_targets w) + 3) w opportunities (cw_index w) in
  next_ok w b (Ok (Step_Granted probes), (walk_batch (walk_at w (cw_index w + length probes)) (length probes), b)) ∧
  next_ok w b (Ok (Step_Probe (mkProbe (cw_index w) c Mode_CopyOnly opportunities RouteMode_FundedRoute false)),
    (walk_pending w (Some (mkPendingProbe
       (Some (new_budget (b_deadline b) SUCCESSOR_GRANT_ATTEMPTS SUCCESSOR_GRANT_LINKS)) true false false false false true)), b)).
Proof.
  intros Hi Hready Ht Hg opportunities probes. pose proof Hready as (Hp & Hb & Hd).
  destruct (granted_owner w _ _ Hi Ht Hg) as (r & Hr & Hle). pose proof (target_lt w _ _ Hi Ht) as Hlt.
  assert (Hne : probes ≠ []).
  { unfold probes. destruct (length (cw_targets w) + 3)%nat as [|n] eqn:Hn; [lia|]. simpl. by rewrite Ht, Hg. }
  destruct (granted_run_ok (length (cw_targets w) + 3) w opportunities r (cw_index w) Hi Hr Hle) as [Hlen Hall].
  fold probes in Hlen, Hall. assert (Hpos : (0 < length probes)%nat) by (destruct probes; [done|simpl; lia]).
  split; unfold next_ok; simpl.
  - split_and!; try done.
    + constructor; simpl; [apply Hi|apply (shape_same w); try done; apply Hi|lia|by rewrite Hp|done|].
      intros r' Hr' Hpc. rewrite (wi_evidence _ Hi r' Hr' Hpc). rewrite Hr in Hr'. injection Hr' as <-. lia.
    + unfold ahead; simpl. rewrite Hp, Hb. destruct (Nat.eqb_spec (length probes) 0); simpl; lia.
    + exists r. split; [done|lia].
    + exists (cw_index w - r)%nat. split; [|exact Hall]. pose proof (wi_shape _ Hi) as Hs. unfold shape in Hs.
      rewrite Hr in Hs. destruct Hs as [Hcount _]. unfold handoff_count in Hcount.
      destruct (wc_page_operation (cw_config w)); lia.
  - split_and!; try done.
    + apply pending_inv; [done|done|]. unfold pending_ok; simpl. split_and!; try done.
      intros _. split; [done|]. split; [intros _; by exists r|done].
    + unfold ahead; simpl. rewrite Hp. lia.
    + eexists. split; [done|]. simpl. split_and!; [done|done| |by eapply (target_addressed w)].
      split; [done|]. intros r' _ Hf. done.
Qed.

Lemma next_break_ok w b c w' : walk_inv w → ready w → target w (cw_index w) = Some c →
  planned_ok w b (Planned_Break w') → next_ok w b (walk_ended w' b).
Proof.
  intros Hi Hready Ht [(-> & r & Hr & Hle)|(-> & Hor)].
  - apply walk_ended_ok; [done|done|]. intros r' Hr' _. rewrite Hr in Hr'. by injection Hr' as <-.
  - apply (next_ok_after w (walk_unfunded w)); [done..|]. apply walk_ended_ok; [|done|].
    + constructor; apply Hi.
    + simpl. intros r Hr Hbr. destruct Hor; congruence.
Qed.

Lemma next_return_ok w b r w' b' : walk_inv w → ready w → planned_ok w b (Planned_Return r w' b') → next_ok w b (r, (w', b')).
Proof.
  intros Hi Hready. destruct r as [s|e]; simpl.
  - intros (probe & p & -> & -> & Hpok & Hpg & Hph & Hs & Hf & Hadr). split_and!; try done.
    + by apply pending_inv.
    + destruct Hready as (Hp & _). unfold ahead; simpl. rewrite Hp, Hph. lia.
    + exists p. split; [done|]. rewrite Hpg. by split_and!.
  - intros (-> & Hz & -> & ->). split_and!; try done. apply Hready.
Qed.

Lemma next_loop_once fuel w b : walk_inv w → ready w →
  (∀ w', walk_inv w' → ready w' → cw_index w' = 1%nat → cw_index w = 0%nat → ∃ x, next_loop fuel w' b = Some x ∧ next_ok w' b x) →
  ∃ x, next_loop (S fuel) w b = Some x ∧ next_ok w b x.
Proof.
  intros Hi Hready Hcont. pose proof Hready as (Hp & Hb & Hd). simpl.
  destruct (target w (cw_index w)) as [c|] eqn:Ht.
  2: { eexists. split; [done|]. apply walk_ended_ok; [done|done|].
       intros r Hr _. apply (target_None w _ Hi) in Ht. pose proof (wi_shape _ Hi) as Hs. unfold shape in Hs.
       rewrite Hr in Hs. lia. }
  pose proof (target_lt w _ _ Hi Ht) as Hlt.
  destruct (is_granted w c) eqn:Hg.
  { destruct (next_granted_ok w b c Hi Hready Ht Hg) as [H1 H2].
    destruct (wc_parallel_granted (cw_config w)); by eexists. }
  pose proof (plan_owned_ok w b c Hi Ht) as Hplan.
  destruct (plan_owned w b (cw_index w) c) as [w'|w'|r w' b'].
  - destruct Hplan as (Hz & Hpc & v & t & ->).
    destruct (Hcont (walk_at (walk_saw w v t []) 1)) as (x & Hx & Hok); [|done..|].
    + constructor; simpl; [apply Hi|apply (shape_same w); try done; apply Hi|lia|by rewrite Hp|by rewrite Hb|].
      intros r _ Hf. by rewrite Hpc in Hf.
    + eexists. split; [done|]. eapply next_ok_after; [..|exact Hok]; try done; simpl; [by rewrite app_nil_r|].
      unfold ahead; simpl. rewrite Hz. lia.
  - eexists. split; [done|]. by eapply next_break_ok.
  - eexists. split; [done|]. by apply next_return_ok.
Qed.

Lemma next_loop_ok w b : walk_inv w → ready w → ∃ x, next_loop 2 w b = Some x ∧ next_ok w b x.
Proof.
  intros Hi Hr. apply next_loop_once; [done|done|]. intros w' Hi' Hr' H1 _.
  apply next_loop_once; [done|done|]. intros w'' _ _ _ Hz. rewrite H1 in Hz. done.
Qed.

Lemma helper_probe_ok w b : walk_inv w → ready w → wc_rank (cw_config w) = None → cw_helper w = Helper_Due →
  next_ok w b (helper_probe (walk_helper w Helper_Used) b).
Proof.
  intros Hi Hready Hn Hdue. unfold helper_probe; simpl.
  destruct (partition_splits b (N.min (b_attempts b) HELPER_ATTEMPTS) (N.min (b_links b) HELPER_LINKS))
    as (child & b' & -> & _ & _ & Hs); [lia|lia|].
  destruct Hready as (Hp & Hb & Hd). unfold next_ok; simpl. split_and!; try done.
  - constructor; simpl; [apply Hi| |apply Hi| |by rewrite Hb|apply Hi].
    + pose proof (wi_shape _ Hi) as Hs'. unfold shape in *; simpl. by rewrite Hn in *.
    + intros p [= <-]. split_and!; [done|done|]. unfold pending_ok; simpl. by split_and!.
  - unfold ahead; simpl. rewrite Hdue, Hp. lia.
  - eexists. split; [done|]. simpl. split; [done|]. split; [|by right; left].
    split; simpl; [done|]. intros r Hr. by rewrite Hn in Hr.
Qed.

(** Every ready walk plans a next step, without panicking. *)
Lemma walk_next_ok w b : walk_inv w → ready w → ∃ x, walk_next w b = Some x ∧ next_ok w b x.
Proof.
  intros Hi Hready. pose proof Hready as (Hp & Hb & Hd). unfold walk_next. rewrite Hp, Hb, Hd. simpl.
  destruct (bool_decide_reflect (cw_helper w = Helper_Unset)) as [Hu|Hu].
  - destruct (walk_start_inv w b Hi Hready Hu) as (Hi' & Hr' & Ha & Hc & Hx & He & H0 & Hdue).
    rewrite bool_decide_eq_false_2 by done.
    destruct (next_loop_ok (walk_start w b) b Hi' Hr') as (x & Hn & Hok). exists x. split; [done|].
    by eapply next_ok_after.
  - case_bool_decide as Hdue; [|by apply next_loop_ok].
    assert (Hn : wc_rank (cw_config w) = None).
    { pose proof (wi_shape _ Hi) as Hs. unfold shape in Hs. destruct (wc_rank (cw_config w)); [|done].
      destruct Hs as (_ & _ & [?|?]); congruence. }
    destruct (_ && _); [eexists; split; [done|by apply helper_probe_ok]|].
    destruct (next_loop_ok (walk_helper w Helper_Used) b) as (x & Hx & Hok); [| |exists x; split; [done|]].
    + constructor; simpl; try apply Hi.
      pose proof (wi_shape _ Hi) as Hs. unfold shape in *; simpl. by rewrite Hn in *.
    + by split_and!.
    + eapply next_ok_after; [..|exact Hok]; try done. unfold ahead; simpl. rewrite Hdue. lia.
Qed.

(** ** Reporting a probe *)

(** Credits of the child that returns to the caller, if any. *)
Definition fits b (child : option AcquisitionBudget) : Prop :=
  match child with
  | Some child => b_attempts b + b_attempts child ≤ U32_MAX ∧ b_links b + b_links child ≤ U8_MAX
  | None => True
  end.

Definition child_attempts (child : option AcquisitionBudget) : N :=
  match child with Some child => b_attempts child | None => 0 end.
Definition child_links (child : option AcquisitionBudget) : N :=
  match child with Some child => b_links child | None => 0 end.
Definition child_deadline b (child : option AcquisitionBudget) : N :=
  match child with Some child => N.min (b_deadline b) (b_deadline child) | None => b_deadline b end.

(** The caller's budget with the child's credits returned. *)
Definition reunited b (child : option AcquisitionBudget) b' : Prop :=
  b_attempts b' = b_attempts b + child_attempts child ∧ b_links b' = b_links b + child_links child ∧
  b_deadline b' = child_deadline b child ∧ b_remote_sent b' = b_remote_sent b ∧ b_charged_links b' = b_charged_links b.

Lemma reunite_opt_ok b child : fits b child → ∃ b', reunite_opt b child = (Ok (), b') ∧ reunited b child b'.
Proof.
  destruct child as [child|]; simpl; [|intros _; exists b; split; [done|]; split_and!; simpl; lia].
  intros [Ha Hl]. unfold reunite, checked_add.
  destruct (N.leb_spec (b_attempts b + b_attempts child) U32_MAX); [|lia].
  destruct (N.leb_spec (b_links b + b_links child) U8_MAX); [|lia].
  eexists. split; [done|]. split_and!; done.
Qed.

Lemma reunited_note b child b' c : reunited b child b' → reunited b child (note_failure_if c b').
Proof. intros H. by destruct c. Qed.

(** The outcomes of rank 0's probe that leave the fetch to it. *)
Definition withholds (state : Rank0State) (outcome : Outcome) : bool :=
  match outcome with
  | Outcome_TimedOut | Outcome_Probe ProbeOutcome_Overloaded | Outcome_Transport ProbeOutcome_Overloaded =>
      negb (bool_decide (state = Rank0State_Overdue))
  | Outcome_Failed => bool_decide (state = Rank0State_Failed)
  | _ => false
  end.

Definition complete_ok w b (p : PendingProbe) (outcome : Outcome)
    (x : result (option End_) Error * (CandidateWalk * AcquisitionBudget)) : Prop :=
  let '(r, (w', b')) := x in
  cw_config w' = cw_config w ∧ cw_pending w' = None ∧ cw_batch w' = 0%nat ∧ reunited b (owed_child (Some p)) b' ∧
  match r with
  | Ok None =>
      walk_inv w' ∧ ready w' ∧ (ahead w' < ahead w)%nat ∧
      cw_index w' = (if pd_helper p then cw_index w else S (cw_index w)) ∧
      cw_rank0_unanswered w' =
        cw_rank0_unanswered w || (pd_rank0 p && withholds (wc_rank0 (cw_config w)) outcome)
  | Ok (Some e) =>
      e = End_Copy ∧ outcome = Outcome_Copy ∨
      e = End_StaleMembership ∧ outcome = Outcome_StaleMembership ∧ pd_handoff p = false ∧ pd_previous p = false ∨
      e = End_VersionUnavailable ∧ pd_delegated p = true
  | Err _ => False
  end.

(** The flags a report may change. *)
Definition same_position w w' : Prop :=
  cw_config w' = cw_config w ∧ cw_order w' = cw_order w ∧ cw_targets w' = cw_targets w ∧ cw_count w' = cw_count w ∧
  cw_batch w' = cw_batch w ∧ cw_index w' = cw_index w ∧ cw_evidence w' = cw_evidence w ∧ cw_pending w' = cw_pending w ∧
  cw_done w' = cw_done w ∧ cw_helper w' = cw_helper w.

Lemma same_position_refl w : same_position w w.
Proof. by split_and!. Qed.

Definition marked w (p : PendingProbe) (outcome : Outcome) : Outcome * CandidateWalk :=
  let '(outcome, w) := normalize_outcome w p outcome in (outcome, mark_overload w p outcome).

Lemma marked_position w p outcome : same_position w (marked w p outcome).2.
Proof.
  unfold marked, normalize_outcome, mark_overload.
  destruct outcome as [|[]|[]| | | | |]; simpl; try destruct (_ && _); by split_and!.
Qed.

Lemma marked_rank0 w p outcome : pending_ok w p →
  cw_rank0_unanswered (marked w p outcome).2 =
    cw_rank0_unanswered w || (pd_rank0 p && withholds (wc_rank0 (cw_config w)) outcome).
Proof.
  intros (Hh & _ & _ & Hr). unfold marked, normalize_outcome, mark_overload.
  destruct p as [bounded handoff delegated rank0 previous helper granted]; simpl in *.
  assert (Hn : rank0 = true → negb helper && negb handoff = true).
  { intros ->. destruct (Hr eq_refl) as (r & Hrank & _ & ->). destruct helper; [|done].
    destruct (Hh eq_refl) as [Hn _]. by rewrite Hn in Hrank. }
  destruct outcome as [|[]|[]| | | | |]; simpl; rewrite ?andb_false_r, ?orb_false_r; try done;
    (destruct (negb helper && negb handoff) eqn:Hx; simpl;
      [done|destruct rank0; [by specialize (Hn eq_refl)|by rewrite orb_false_r]]).
Qed.

Lemma marked_outcome w p outcome :
  (marked w p outcome).1 = outcome ∨
  (marked w p outcome).1 = Outcome_Transport ProbeOutcome_Unreachable ∨
  (marked w p outcome).1 = Outcome_Probe ProbeOutcome_Unreachable.
Proof. unfold marked, normalize_outcome. destruct outcome; simpl; auto. Qed.

(** A visit that does not end the walk moves on by one, with one more piece of evidence from a
    predecessor. *)
Lemma visited_inv w p w' evidence : walk_inv w → cw_pending w = Some p → pd_helper p = false →
  cw_config w' = cw_config w → cw_order w' = cw_order w → cw_targets w' = cw_targets w → cw_count w' = cw_count w →
  cw_batch w' = cw_batch w → cw_index w' = S (cw_index w) → cw_pending w' = None → cw_done w' = cw_done w →
  cw_evidence w' = cw_evidence w ++ evidence → length evidence = (if pd_handoff p then 0 else 1)%nat →
  (cw_helper w' = cw_helper w ∨ cw_helper w = Helper_Armed ∧ cw_helper w' = Helper_Due) →
  walk_inv w' ∧ ready w' ∧ (ahead w' < ahead w)%nat.
Proof.
  intros Hi Hp Hh Hc Ho Ht Hn Hb Hx Hp' Hd He Hl Hhelper.
  destruct (wi_pending _ Hi p Hp) as (Hb0 & Hd0 & Hok). destruct Hok as (_ & _ & Hv & _).
  destruct (Hv Hh) as [Hlt Hhand]. split_and!.
  - constructor; rewrite ?Hc, ?Hx, ?Hn, ?Hb, ?Hd; try apply Hi; [|lia|by rewrite Hp'|].
    + pose proof (wi_shape _ Hi) as Hs. unfold shape in *. rewrite Hc, Hn, Ht, Ho.
      destruct (wc_rank (cw_config w)); [|done]. destruct Hs as (? & ? & Hhs). split_and!; [done|done|].
      destruct Hhelper as [->|[Ha _]]; [done|]. rewrite Ha in Hhs. by destruct Hhs.
    + intros r Hr Hpc. rewrite He, length_app, Hl, (wi_evidence _ Hi r Hr Hpc).
      destruct (pd_handoff p).
      * destruct Hhand as [Hhand _]. destruct (Hhand eq_refl) as (r' & Hr' & Hle). rewrite Hr in Hr'. injection Hr' as <-. lia.
      * destruct (decide (r ≤ cw_index w)%nat); [|lia]. exfalso. assert (false = true); [|done]. apply Hhand. by exists r.
  - unfold ready. by rewrite Hb, Hd.
  - unfold ahead. rewrite Hn, Hx, Hp', Hb, Hb0, Hp, Hh. simpl. destruct Hhelper as [->|[-> ->]]; lia.
Qed.

(** The outcome as the walk records it, with the walk it is recorded in. *)
Definition reported (outcome outcome' : Outcome) : Prop :=
  outcome' = outcome ∨ outcome' = Outcome_Transport ProbeOutcome_Unreachable ∨
  outcome' = Outcome_Probe ProbeOutcome_Unreachable.

Lemma complete_helper_ok w b p outcome outcome' w2 b1 : reunited b (owed_child (Some p)) b1 → reported outcome outcome' →
  cw_config w2 = cw_config w → cw_pending w2 = None → cw_batch w2 = 0%nat →
  cw_index w2 = cw_index w → pd_helper p = true → walk_inv w2 → ready w2 → (ahead w2 < ahead w)%nat →
  cw_rank0_unanswered w2 = cw_rank0_unanswered w || (pd_rank0 p && withholds (wc_rank0 (cw_config w)) outcome) →
  complete_ok w b p outcome (let '(e, wb) := complete_helper w2 b1 outcome' in (Ok e, wb)).
Proof.
  intros Hre Hout Hc Hp Hb Hx Hh Hi Hready Ha Hr0. unfold complete_helper.
  destruct outcome' as [|o|o| | | | |]; simpl; rewrite ?Hh; split_and!; try done; try by apply reunited_note.
  left. split; [done|]. destruct Hout as [<-|[?|?]]; congruence.
Qed.

Lemma complete_visit_ok w b p outcome outcome' w3 b1 : reunited b (owed_child (Some p)) b1 → reported outcome outcome' →
  walk_inv w → cw_pending w = Some p → pd_helper p = false → outcome' ≠ Outcome_TimedOut → outcome' ≠ Outcome_Failed →
  cw_config w3 = cw_config w → cw_order w3 = cw_order w → cw_targets w3 = cw_targets w → cw_count w3 = cw_count w →
  cw_batch w3 = 0%nat → cw_index w3 = S (cw_index w) → cw_evidence w3 = cw_evidence w → cw_pending w3 = None →
  cw_done w3 = cw_done w →
  (cw_helper w3 = cw_helper w ∨ cw_helper w = Helper_Armed ∧ cw_helper w3 = Helper_Due) →
  cw_rank0_unanswered w3 = cw_rank0_unanswered w || (pd_rank0 p && withholds (wc_rank0 (cw_config w)) outcome) →
  complete_ok w b p outcome (let '(e, wb) := complete_visit w3 b1 p outcome' in (Ok e, wb)).
Proof.
  intros Hre Hout Hi Hp Hh Ht Hfail Hc Ho Htg Hn Hb Hx He Hp' Hd Hhelper Hr0.
  destruct (wi_pending _ Hi p Hp) as (Hb0 & _ & _).
  assert (Hstay : pd_handoff p = true → walk_inv w3 ∧ ready w3 ∧ (ahead w3 < ahead w)%nat).
  { intros Hhand. eapply (visited_inv w p w3 []); try done; [congruence|by rewrite app_nil_r|by rewrite Hhand]. }
  assert (Hmove : pd_handoff p = false → ∀ busy version transient_ o,
    let w4 := walk_saw (walk_busy w3 busy false) version transient_ [o] in
    walk_inv w4 ∧ ready w4 ∧ (ahead w4 < ahead w)%nat).
  { intros Hhand busy version transient_ o. simpl. apply (visited_inv w p _ [o]); simpl; try done; [congruence| |].
    - by rewrite He. - by rewrite Hhand. }
  assert (Hsaw : ∀ version transient_ o, walk_saw w3 version transient_ [o] = walk_saw (walk_busy w3 false false) version transient_ [o]).
  { intros. unfold walk_saw, walk_busy; simpl. by rewrite !orb_false_r. }
  assert (Hsame : ∀ x, reported outcome x → outcome' = x → x ≠ Outcome_Transport ProbeOutcome_Unreachable →
    x ≠ Outcome_Probe ProbeOutcome_Unreachable → x = outcome).
  { intros x [|[|]] -> ? ?; congruence. }
  unfold complete_visit. destruct outcome' as [|o|o| | | | |]; simpl; try done.
  all: try destruct (pd_delegated p && _) eqn:Hdel; try destruct (pd_handoff p) eqn:Hhand;
    try destruct (pd_previous p) eqn:Hprev; simpl; rewrite ?Hsaw, ?Hh.
  all: split_and!; try done; try (by apply reunited_note); try (by apply Hmove); try (by destruct (Hstay eq_refl) as (? & ? & ?)).
  all: try (rewrite orb_false_r; done).
  all: try (apply andb_true_iff in Hdel as [Hdel _]; right; right; done).
  all: try (right; left; split_and!; [done|symmetry; by apply Hsame|done|done]).
  all: try (left; split; [done|symmetry; by apply Hsame]).
Qed.

Lemma walk_complete_ok w b p outcome : walk_inv w → cw_pending w = Some p → fits b (owed_child (Some p)) →
  ∃ x, walk_complete w b outcome = Some x ∧ complete_ok w b p outcome x.
Proof.
  intros Hi Hp Hf. destruct (wi_pending _ Hi p Hp) as (Hb0 & Hd0 & Hok).
  unfold walk_complete. rewrite Hp. destruct (reunite_opt_ok b _ Hf) as (b1 & -> & Hre).
  assert (Hok' : pending_ok (walk_pending w None) p) by exact Hok.
  pose proof (marked_rank0 _ _ outcome Hok') as Hr0. pose proof (marked_position (walk_pending w None) p outcome) as Hpos.
  pose proof (marked_outcome (walk_pending w None) p outcome) as Hout. fold (reported outcome (marked (walk_pending w None) p outcome).1) in Hout.
  assert (Hnot : (marked (walk_pending w None) p outcome).1 ≠ Outcome_TimedOut ∧
                 (marked (walk_pending w None) p outcome).1 ≠ Outcome_Failed)
    by (unfold marked, normalize_outcome; by destruct outcome).
  unfold marked in *.
  destruct (normalize_outcome (walk_pending w None) p outcome) as [o' w1]. simpl in Hr0, Hpos, Hout, Hnot.
  set (w2 := mark_overload w1 p o') in *. destruct Hpos as (P1 & P2 & P3 & P4 & P5 & P6 & P7 & P8 & P9 & P10).
  simpl in P1, P2, P3, P4, P5, P6, P7, P8, P9, P10. clearbody w2.
  destruct (pd_helper p) eqn:Hh.
  - destruct (complete_helper w2 b1 o') as [e wb] eqn:Hx. eexists. split; [done|].
    pose proof (complete_helper_ok w b p outcome o' w2 b1) as Hco. rewrite Hx in Hco. apply Hco; try done; [congruence|..].
    + constructor; rewrite ?P1, ?P4, ?P5, ?P6, ?P7, ?P8, ?P9; try apply Hi; [|done].
      apply (shape_same w); try done. apply Hi.
    + unfold ready. by rewrite P8, P5, P9.
    + unfold ahead. rewrite P4, P6, P10, P8, P5, Hb0, Hp, Hh. simpl. lia.
  - match goal with |- context [complete_visit ?x b1 p o'] => set (w3 := x) end.
    destruct (complete_visit w3 b1 p o') as [e wb] eqn:Hx. eexists. split; [done|].
    pose proof (complete_visit_ok w b p outcome o' w3 b1) as Hco. rewrite Hx in Hco.
    assert (Hhelper : cw_helper w3 = cw_helper w ∨ cw_helper w = Helper_Armed ∧ cw_helper w3 = Helper_Due).
    { unfold w3; simpl. case_bool_decide as Ha; simpl; [|by left; rewrite P10].
      case_bool_decide; simpl; [right; rewrite P10 in Ha; done|by left; rewrite P10]. }
    destruct Hnot. apply Hco; try done; unfold w3;
      (match goal with |- context [if ?c then walk_helper _ _ else _] => destruct c end); simpl; congruence.
Qed.

(** ** Exchanges *)

(** Planning an exchange only spends. *)
Lemma plan_attempt_spends b i : let '(r, spent) := plan_attempt b i in
  b_attempts spent ≤ b_attempts b ∧ b_links spent ≤ b_links b ∧ b_deadline spent = b_deadline b ∧
  (ai_mode i = Mode_CopyOnly → b_attempts b ≤ b_attempts spent + 1).
Proof.
  unfold plan_attempt. destruct (route_links b =? 0); [split_and!; lia|].
  destruct (begin_peer_attempt b (ai_now i) (ai_caller_deadline i) (route_links b)) as [[overall|e] b1] eqn:Hb.
  - assert (H1 : b_attempts b1 + 1 = b_attempts b ∧ b_links b1 ≤ b_links b ∧ b_deadline b1 = b_deadline b).
    { unfold begin_peer_attempt, checked_sub in Hb. destruct (_ =? 0); [done|]. destruct (_ <=? _); [done|].
      destruct (N.eqb_spec (b_attempts b) 0); [done|]. destruct (_ <=? _); [|done]. simplify_eq; simpl. lia. }
    destruct (ai_mode i); [split_and!; lia|].
    destruct (send_remote _ _) as [[n|e] b2] eqn:Hs; unfold send_remote, checked_sub in Hs; destruct (_ <=? _);
      simplify_eq; simpl; split_and!; try done; lia.
  - unfold begin_peer_attempt in Hb. repeat (case_match; simplify_eq); split_and!; lia.
Qed.

(** Positions of a run: the walk, the caller's budget, and the probe still to be sent. *)
Definition WalkState : Type := CandidateWalk * AcquisitionBudget * option Probe.

(** One step of a driver: plan a step, send the planned probe on its budget, report a probe or a
    batch that did not end the walk. *)
Inductive walk_step : WalkState → WalkState → Prop :=
| ws_probe w b l probe w' b' :
    walk_next w b = Some (Ok (Step_Probe probe), (w', b')) → walk_step (w, b, l) (w', b', Some probe)
| ws_granted w b l probes w' b' :
    walk_next w b = Some (Ok (Step_Granted probes), (w', b')) → walk_step (w, b, l) (w', b', None)
| ws_exchange w b probe i r spent w' b' :
    is_Some (cw_pending w) → ai_mode i = pr_mode probe → ai_route i = pr_route probe →
    plan_attempt (request_budget w b) i = (r, spent) →
    put_request_budget w b spent = (w', b') → walk_step (w, b, Some probe) (w', b', None)
| ws_complete w b l outcome w' b' :
    walk_complete w b outcome = Some (Ok None, (w', b')) → walk_step (w, b, l) (w', b', None)
| ws_batch w b l w' :
    complete_granted w false = Some (None, w') → walk_step (w, b, l) (w', b, None).

(** What an owner's budget always covers: its later predecessors and its origin request. *)
Definition covered (r : nat) (s : WalkState) : Prop :=
  let '(w, b, l) := s in
  match cw_pending w with
  | None => N.of_nat (r - cw_index w) + 1 ≤ b_attempts b
  | Some p =>
      if pd_granted p then 1 ≤ b_attempts b
      else match pd_bounded p, l with
           | None, Some probe =>
               pr_mode probe = Mode_CopyOnly ∧ N.of_nat (r - cw_index w) + 1 ≤ b_attempts b ∧ 2 ≤ b_attempts b
           | _, _ => N.of_nat (r - S (cw_index w)) + 1 ≤ b_attempts b
           end
  end.

(** The invariant of an owner's run from the budget [b0]. *)
Definition run_inv (c : WalkConfig) (b0 : AcquisitionBudget) (s : WalkState) : Prop :=
  let '(w, b, l) := s in
  walk_inv w ∧ cw_config w = c ∧ cw_done w = false ∧
  b_attempts b + child_attempts (owed_child (cw_pending w)) ≤ b_attempts b0 ∧
  b_links b + child_links (owed_child (cw_pending w)) ≤ b_links b0 ∧
  b_deadline b = b_deadline b0 ∧ child_deadline b (owed_child (cw_pending w)) = b_deadline b0.

Lemma walk_next_ready w b x : walk_next w b = Some x → ready w.
Proof.
  unfold walk_next, ready. destruct (cw_pending w); [done|]. destruct (Nat.eqb_spec (cw_batch w) 0); [|done].
  by destruct (cw_done w).
Qed.

Lemma owed_granted p : pd_granted p = true → owed_child (Some p) = None.
Proof. simpl. by intros ->. Qed.

Lemma owed_bounded p : pd_granted p = false → owed_child (Some p) = pd_bounded p.
Proof. simpl. by intros ->. Qed.

Lemma splits_totals b b' child : splits b b' child →
  b_attempts b' + child_attempts child = b_attempts b ∧ b_links b' + child_links child = b_links b ∧
  b_deadline b' = b_deadline b ∧ child_deadline b' child = b_deadline b.
Proof.
  destruct child as [child|]; simpl; [|intros ->; lia].
  intros (? & ? & ? & ? & _). split_and!; try done. lia.
Qed.

Lemma pending_with_inv w p spent : walk_inv w → cw_pending w = Some p →
  walk_inv (walk_pending w (Some (pending_with p spent))).
Proof.
  intros Hi Hp. destruct (wi_pending _ Hi p Hp) as (Hb & Hd & Hok).
  constructor; simpl; [apply Hi|apply (shape_same w); try done; apply Hi|apply Hi| |by rewrite Hb|apply Hi].
  intros p' [= <-]. split_and!; [done|done|]. destruct Hok as (H1 & H2 & H3 & H5). split_and!; simpl; [done| |done|done].
  intros Hg. destruct (H2 Hg) as (? & ? & _). by split_and!.
Qed.

Lemma complete_granted_inv w w' : walk_inv w → complete_granted w false = Some (None, w') →
  w' = walk_batch w 0 ∧ walk_inv w' ∧ cw_pending w' = None ∧ ready w' ∧ (ahead w' < ahead w)%nat.
Proof.
  intros Hi Hc. unfold complete_granted in Hc. destruct (Nat.eqb_spec (cw_batch w) 0) as [|Hb]; [done|]. simplify_eq.
  assert (Hp : cw_pending w = None).
  { destruct (cw_pending w) as [p|] eqn:Hp; [|done]. by destruct (wi_pending _ Hi p Hp). }
  split_and!; [done| |done|by apply (conj Hp), conj; [|apply (wi_batch _ Hi)]|].
  - constructor; simpl; [apply Hi|apply (shape_same w); try done; apply Hi|apply Hi|by rewrite Hp|done|apply Hi].
  - unfold ahead; simpl. rewrite Hp. destruct (Nat.eqb_spec (cw_batch w) 0); [done|lia].
Qed.

Lemma walk_step_inv c b0 s s' : b_attempts b0 ≤ U32_MAX → b_links b0 ≤ U8_MAX →
  run_inv c b0 s → walk_step s s' → run_inv c b0 s'.
Proof.
  intros Ha0 Hl0 Hinv Hstep.
  destruct Hstep as [w b l probe w' b' Hn|w b l probes w' b' Hn|w b probe i r spent w' b' Hp Hm Hro Hplan Hput|
                     w b l outcome w' b' Hcp|w b l w' Hcg]; destruct Hinv as (Hi & Hc & Hd & Ha & Hl & Hdl & Hcd).
  - pose proof (walk_next_ready _ _ _ Hn) as Hr. destruct (walk_next_ok w b Hi Hr) as (x & Hx & Hok).
    rewrite Hn in Hx. injection Hx as <-. destruct Hok as (Hc' & _ & Hi' & _ & _ & p & Hp & Hs & _).
    destruct Hr as (Hp0 & _). rewrite Hp0 in *. simpl in *.
    destruct (wi_pending _ Hi' p Hp) as (_ & Hd' & _). unfold run_inv. rewrite Hp.
    destruct (pd_granted p) eqn:Hg.
    + rewrite (owed_granted p Hg). destruct Hs as [-> _]. split_and!; try done; congruence.
    + rewrite (owed_bounded p Hg). apply splits_totals in Hs as (? & ? & ? & ?). split_and!; try done; try congruence; lia.
  - pose proof (walk_next_ready _ _ _ Hn) as Hr. destruct (walk_next_ok w b Hi Hr) as (x & Hx & Hok).
    rewrite Hn in Hx. injection Hx as <-. destruct Hok as (Hc' & _ & Hi' & _ & _ & Hp & -> & Hne & Hb & _).
    destruct Hr as (Hp0 & _). rewrite Hp0 in *. unfold run_inv. rewrite Hp. split_and!; try done; try congruence.
    apply (wi_batch _ Hi'). rewrite Hb. by destruct probes.
  - destruct Hp as [p Hp]. unfold put_request_budget in Hput. unfold request_budget in Hplan. rewrite Hp in *; simpl in *.
    pose proof (plan_attempt_spends (match pd_bounded p with Some c => c | None => b end) i) as Hsp.
    rewrite Hplan in Hsp. destruct (pd_bounded p) as [child|] eqn:Hb; simplify_eq; unfold run_inv; rewrite ?Hp; simpl.
    + pose proof (pending_with_inv w p spent Hi Hp). destruct (pd_granted p); rewrite ?Hb in *; simpl in *;
        split_and!; try done; lia.
    + rewrite Hb in *. destruct (pd_granted p); simpl in *; split_and!; try done; lia.
  - unfold walk_complete in Hcp. destruct (cw_pending w) as [p|] eqn:Hp; [|done]. fold (walk_complete w b outcome) in Hcp.
    destruct (walk_complete_ok w b p outcome Hi Hp) as (x & Hx & Hok).
    { unfold fits. destruct (owed_child (Some p)) as [child|]; [|done]. simpl in *. lia. }
    unfold walk_complete in Hx. rewrite Hp in Hx. rewrite Hcp in Hx. injection Hx as <-.
    destruct Hok as (Hc' & Hp' & _ & Hre & Hi' & (_ & _ & Hd') & _). unfold run_inv. rewrite Hp'.
    destruct Hre as (? & ? & ? & _). simpl child_attempts. simpl child_links. simpl child_deadline.
    split_and!; try done; try congruence; lia.
  - destruct (complete_granted_inv w w' Hi Hcg) as (-> & Hi' & Hp' & (_ & _ & Hd') & _).
    unfold run_inv. simpl in Hp'. simpl. rewrite Hp' in *. by split_and!.
Qed.

(** An owner that asks every predecessor itself. *)
Definition owner_walk (c : WalkConfig) (r : nat) : Prop :=
  config_ok c ∧ wc_rank c = Some r ∧ primary_consumed (wc_continuation c) = false.

Lemma same_evidence_position w w' r : walk_inv w → walk_inv w' → owner_walk (cw_config w) r →
  cw_config w' = cw_config w → cw_evidence w' = cw_evidence w → (r - cw_index w' = r - cw_index w)%nat.
Proof.
  intros Hi Hi' (_ & Hr & Hpc) Hc He. pose proof (wi_evidence _ Hi r Hr Hpc) as H1.
  assert (H2 : length (cw_evidence w') = Nat.min (cw_index w') r) by (apply Hi'; by rewrite Hc).
  rewrite He in H2. lia.
Qed.

Lemma covered_probe r w b l probe w' b' : walk_inv w → owner_walk (cw_config w) r → covered r (w, b, l) →
  walk_next w b = Some (Ok (Step_Probe probe), (w', b')) → covered r (w', b', Some probe).
Proof.
  intros Hi Hown Hcov Hn. pose proof (walk_next_ready _ _ _ Hn) as Hready.
  destruct (walk_next_ok w b Hi Hready) as (x & Hx & Hok). rewrite Hn in Hx. injection Hx as <-.
  destruct Hok as (Hc & _ & Hi' & _ & He & p & Hp & Hs & [Hf2 Hf] & _).
  pose proof (same_evidence_position w w' r Hi Hi' Hown Hc He) as Hpos. destruct Hown as (_ & Hr & _).
  unfold covered in *. destruct Hready as (Hp0 & _). rewrite Hp0 in Hcov. rewrite Hp.
  destruct (wi_pending _ Hi' p Hp) as (_ & _ & Hh & Hg & Hv & _).
  assert (Hhelper : pd_helper p = false).
  { destruct (pd_helper p) eqn:E; [|done]. destruct (Hh eq_refl) as [Hn' _]. rewrite Hc, Hr in Hn'. done. }
  destruct (Hv Hhelper) as [Hlt Hhand].
  destruct (pd_granted p) eqn:Hgr; [destruct Hs as [-> _]; lia|].
  rewrite Hc in Hf, Hhand. specialize (Hf r Hr eq_refl).
  assert (Hend : (r ≤ cw_index w')%nat → 2 ≤ b_attempts b).
  { intros Hle. apply Hf2; [|done|done]. apply Hhand. by exists r. }
  assert (H2r : credits_left w' (cw_index w') = N.of_nat (r - cw_index w')).
  { unfold credits_left. rewrite Hc, Hr. destruct (wi_config _ Hi) as [Ho Hrr]. rewrite Hr in Hrr. lia. }
  destruct (pd_bounded p) as [child|] eqn:Hb.
  - destruct Hs as (Hsum & _). rewrite H2r in Hf. destruct (decide (r ≤ cw_index w')%nat) as [Hle|]; [specialize (Hend Hle)|]; lia.
  - simpl in Hs. subst b'. split_and!; [done|lia|]. destruct (decide (r ≤ cw_index w')%nat); [by apply Hend|lia].
Qed.

Lemma covered_step c b0 r s s' : b_attempts b0 ≤ U32_MAX → b_links b0 ≤ U8_MAX → owner_walk c r →
  run_inv c b0 s → covered r s → walk_step s s' → covered r s'.
Proof.
  intros Ha0 Hl0 Hown Hinv Hcov Hstep. pose proof (walk_step_inv _ _ _ _ Ha0 Hl0 Hinv Hstep) as Hinv'.
  destruct Hstep as [w b l probe w' b' Hn|w b l probes w' b' Hn|w b probe i r' spent w' b' Hp Hm Hro Hplan Hput|
                     w b l outcome w' b' Hcp|w b l w' Hcg]; destruct Hinv as (Hi & <- & Hd & Ha & Hl & _ & _).
  - by eapply covered_probe.
  - pose proof (walk_next_ready _ _ _ Hn) as Hready. destruct (walk_next_ok w b Hi Hready) as (x & Hx & Hok).
    rewrite Hn in Hx. injection Hx as <-. destruct Hok as (Hc & _ & Hi' & _ & He & Hp & -> & _).
    pose proof (same_evidence_position w w' r Hi Hi' Hown Hc He) as Hpos.
    unfold covered in *. destruct Hready as (Hp0 & _). rewrite Hp0 in Hcov. rewrite Hp. lia.
  - destruct Hp as [p Hp]. unfold put_request_budget in Hput. unfold request_budget in Hplan. unfold covered in *.
    rewrite Hp in *; simpl in *.
    pose proof (plan_attempt_spends (match pd_bounded p with Some c => c | None => b end) i) as Hsp.
    rewrite Hplan in Hsp. destruct (pd_bounded p) as [child|] eqn:Hb; simplify_eq; simpl; rewrite ?Hp, ?Hb.
    + by destruct (pd_granted p).
    + destruct (wi_pending _ Hi p Hp) as (_ & _ & _ & Hg & _).
      destruct (pd_granted p); [destruct (Hg eq_refl) as (_ & _ & ? & ?); congruence|].
      destruct Hcov as (Hmode & ? & ?), Hsp as (_ & _ & _ & Hsp). specialize (Hsp ltac:(congruence)). lia.
  - destruct (cw_pending w) as [p|] eqn:Hp; [|by unfold walk_complete in Hcp; rewrite Hp in Hcp].
    destruct (walk_complete_ok w b p outcome Hi Hp) as (x & Hx & Hok).
    { unfold fits. destruct (owed_child (Some p)) as [child|]; [|done]. simpl in *. lia. }
    rewrite Hcp in Hx. injection Hx as <-. destruct Hok as (Hc' & Hp' & _ & Hre & _ & _ & _ & Hx & _).
    destruct (wi_pending _ Hi p Hp) as (_ & _ & Hh & Hg & Hv & _). destruct Hown as (_ & Hr & _).
    assert (Hhelper : pd_helper p = false).
    { destruct (pd_helper p) eqn:E; [|done]. destruct (Hh eq_refl) as [Hn' _]. by rewrite Hr in Hn'. }
    rewrite Hhelper in Hx. destruct Hre as (Hat & _). unfold covered in *. rewrite Hp in Hcov. rewrite Hp', Hx, Hat.
    destruct (pd_granted p) eqn:Hgr.
    + destruct (Hg eq_refl) as (_ & Hhand & _), (Hv Hhelper) as [_ Hiff]. apply Hiff in Hhand as (r' & Hr' & Hle).
      rewrite Hr in Hr'. injection Hr' as <-. lia.
    + destruct (pd_bounded p), l; lia.
  - destruct (complete_granted_inv w w' Hi Hcg) as (-> & Hi' & Hp' & _). unfold covered in *; simpl in *. by rewrite Hp' in *.
Qed.

(** ** Guarantees *)

(** The first state of a walk. *)
Definition walk_initial (c : WalkConfig) (b0 : AcquisitionBudget) : WalkState := (walk_new c, b0, None).

Lemma walk_run_inv c b0 s : config_ok c → b_attempts b0 ≤ U32_MAX → b_links b0 ≤ U8_MAX →
  rtc walk_step (walk_initial c b0) s → run_inv c b0 s.
Proof.
  intros Hc Ha Hl Hrun. destruct (walk_new_inv c Hc) as (Hi & (Hp & _ & Hd) & Hcc & _).
  assert (Hstart : run_inv c b0 (walk_initial c b0)).
  { unfold run_inv, walk_initial. rewrite Hp. simpl. split_and!; try done; lia. }
  revert Hstart. induction Hrun as [|s s1 s2 Hs _ IH]; [done|]. intros Hinv. apply IH. by eapply walk_step_inv.
Qed.

Lemma walk_run_covered c b0 r s : owner_walk c r → b_attempts b0 ≤ U32_MAX → b_links b0 ≤ U8_MAX →
  N.of_nat r + 1 ≤ b_attempts b0 → rtc walk_step (walk_initial c b0) s → run_inv c b0 s ∧ covered r s.
Proof.
  intros Hown Ha Hl Hcr Hrun. pose proof (walk_run_inv c b0 s (proj1 Hown) Ha Hl Hrun) as Hinv. split; [done|].
  assert (Hstart : covered r (walk_initial c b0) ∧ run_inv c b0 (walk_initial c b0)).
  { split; [|by apply walk_run_inv; [apply Hown|..|constructor]].
    destruct (walk_new_inv c (proj1 Hown)) as (_ & (Hp & _) & _). unfold covered, walk_initial. rewrite Hp.
    unfold walk_new. destruct (wc_rank c); simpl; lia. }
  clear Hinv. revert Hstart. induction Hrun as [|s s1 s2 Hs _ IH]; intros [Hcov Hinv]; [done|].
  apply IH. split; [by eapply covered_step|by eapply walk_step_inv].
Qed.

(** An owner's walk that starts with a credit for each predecessor and one for its origin
    reaches its end whatever its probes answer and spend: planning never panics or fails; a
    grant of origin authority comes with an outcome of every predecessor, so it passes the
    authority check, never after rank 0 left its probe unanswered, and with an attempt left
    for the origin request. *)
Theorem owner_authority_is_funded c b0 r w b l (object page : N) :
  owner_walk c r → bounded_routes (wc_continuation c) = false →
  b_attempts b0 ≤ U32_MAX → b_links b0 ≤ U8_MAX → N.of_nat r + 1 ≤ b_attempts b0 →
  rtc walk_step (walk_initial c b0) (w, b, l) → cw_pending w = None → cw_batch w = 0%nat →
  ∃ step w' b', walk_next w b = Some (Ok step, (w', b')) ∧
    match step with
    | Step_End (End_Origin rank evidence) =>
        rank = r ∧ length evidence = r ∧ cw_rank0_unanswered w = false ∧
        validate_origin_authority (mkAuthority object page rank (length evidence) true false) object page = Ok () ∧
        1 ≤ b_attempts b'
    | Step_End e => (∃ funding, e = End_Exhausted funding) ∧ cw_rank0_unanswered w = true
    | Step_Probe _ | Step_Granted _ => (ahead w' ≤ ahead w)%nat
    end.
Proof.
  intros Hown Hb Ha Hl Hcr Hrun Hp Hbt.
  destruct (walk_run_covered c b0 r _ Hown Ha Hl Hcr Hrun) as [(Hi & Hc & Hd & _) Hcov].
  unfold covered in Hcov. rewrite Hp in Hcov.
  destruct (walk_next_ok w b Hi) as ([res [w' b']] & Hx & Hcfg & _ & Hok); [by split_and!|].
  destruct Hown as (Hconf & Hr & Hpc).
  destruct res as [step|e]; [|destruct Hok as (_ & Hz & _); lia].
  exists step, w', b'. split; [done|]. destruct step as [probe|probes|e]; [apply Hok|apply Hok|].
  destruct Hok as (-> & _ & Hend). destruct e as [| |rank evidence| |funding]; try done.
  - destruct Hend as (Hrank & H0 & -> & Hlen). rewrite Hc in *. rewrite Hr in Hrank. injection Hrank as <-.
    specialize (Hlen Hb Hpc). destruct Hconf as [Ho Hro]. rewrite Hr in Hro.
    split_and!; try done; [|lia]. unfold validate_origin_authority; simpl. rewrite Hlen.
    rewrite bool_decide_eq_true_2, N.eqb_refl, Nat.eqb_refl by done. simpl. destruct r as [|[|[|r]]]; [done..|lia].
  - exfalso. simpl in Hend. congruence.
  - simpl in Hend. split; [by eexists|]. destruct Hend; [congruence|done].
Qed.

(** An owner at rank 1 whose probe of rank 0 answers a miss. *)
Definition sample_walk : WalkConfig :=
  mkWalkConfig (Some 1%nat) 3 (canonical_order 0) true continuation_default 0 0 false [0; 0; 0]%nat 0 false Rank0State_Unknown.

Definition sample_budget0 : AcquisitionBudget := new_budget 1000 4 8.

Definition sample_asked : CandidateWalk * AcquisitionBudget :=
  Eval vm_compute in
    match walk_next (walk_new sample_walk) sample_budget0 with Some (_, s) => s | None => (walk_new sample_walk, sample_budget0) end.

Definition sample_answered : CandidateWalk * AcquisitionBudget :=
  Eval vm_compute in
    match walk_complete sample_asked.1 sample_asked.2 (Outcome_Probe ProbeOutcome_CopyMiss) with
    | Some (_, s) => s | None => sample_asked end.

Lemma owner_authority_is_funded_witness :
  ∃ w b, walk_next sample_answered.1 sample_answered.2 = Some (Ok (Step_End (End_Origin 1 [ProbeOutcome_CopyMiss])), (w, b)) ∧
    1 ≤ b_attempts b.
Proof.
  destruct (owner_authority_is_funded sample_walk sample_budget0 1 sample_answered.1 sample_answered.2 None 3 4)
    as (step & w & b & H & Hstep); try (vm_compute; (reflexivity || discriminate)).
  - split; [split; simpl; lia|]. split; reflexivity.
  - eapply rtc_l; [apply ws_probe; vm_compute; reflexivity|].
    eapply rtc_l; [eapply (ws_complete _ _ _ (Outcome_Probe ProbeOutcome_CopyMiss)); vm_compute; reflexivity|]. apply rtc_refl.
  - exists w, b. vm_compute in H. injection H as <- <- <-. split; [vm_compute; reflexivity|]. apply Hstep.
Defined.
