(* ===== verification/Fill.v ===== *)
(** * One read's acquisition

    [Fill] of [cmd/racer/core/src/read/walk.rs]: the state machine that ranks a page, races a
    hedge, walks the owners, refreshes or falls back to another membership, and asks the
    origin.  The caller performs each [Action] and reports an [Event].  The fields of the
    struct are grouped into records by what they describe; the methods run in a monad over
    the fill and the caller's budget, with errors as values and panics as [None]. *)

From S2P Require Import Prelude Budget Rank0 Silence ReadRules Targets Walk.
Local Open Scope N_scope.
Local Open Scope racer_scope.

(** Previous owners that are not current members. *)
Definition NOT_MEMBER : N := U32_MAX.

(** ** Features *)

Record Features := mkFeatures { ft_bits : N; ft_lineage_cap : nat }.

Definition LINEAGE_GRANTS : N := 1.
Definition LINEAGE_SLACK : N := 2.
Definition PARALLEL_GRANTED : N := 4.
Definition HELPER : N := 8.
Definition STALE_FALLBACK : N := 16.
Definition STALE_WAIT : N := 32.
Definition RANK0_FAILED : N := 64.

Definition PRODUCTION : Features := mkFeatures 127 MAX_LINEAGE.

Definition features_new (bits : N) (lineage_cap : nat) : Features :=
  mkFeatures bits (if (lineage_cap <? MAX_LINEAGE)%nat then lineage_cap else MAX_LINEAGE).

Definition features_with (f : Features) (bit : N) (on : bool) : Features :=
  mkFeatures (if on then N.lor (ft_bits f) bit else N.ldiff (ft_bits f) bit) (ft_lineage_cap f).

Definition features_has (f : Features) (bit : N) : bool := negb (N.land (ft_bits f) bit =? 0).

(** ** Inputs, events and actions *)

Record FillConfig := mkFillConfig {
  fc_operation : OperationKind; fc_hedge : bool; fc_walk_only : bool; fc_scope : N; fc_features : Features
}.

Inductive Ranking := Ranking_Current | Ranking_Previous | Ranking_Fallback | Ranking_Authority.

Record Ranked := mkRanked {
  rk_version : N;
  rk_owners : list N;
  rk_rank : option nat;
  rk_since : list (option N);
  rk_order : VisitOrder;
  rk_demoted : list N;
  rk_demoted_since : list (option N);
  rk_oldest : option N;
  rk_members : nat;
  rk_recent_member : bool
}.

(** [Ranked::new]. *)
Definition ranked_new (version : N) (owners : list N) (rank : option nat) : Ranked :=
  mkRanked version (list_collect MAX_HANDOFF owners) rank (replicate MAX_HANDOFF None)
    (canonical_order (length owners)) [] (replicate DEMOTED None) None 0 false.

Inductive HedgeEnd :=
| HedgeEnd_NotStarted
| HedgeEnd_Won
| HedgeEnd_Lost (stale : bool) (primary : option ProbeOutcome) (error : option Error).

Inductive Reply :=
| Reply_Answer (kind : ResponseKind) (signed : bool)
| Reply_TimedOut
| Reply_Failed (error : Error) (sent scope_live : bool).

Inductive Event :=
| Event_Start (local_hit : bool)
| Event_Ranked (ranked : result Ranked Error)
| Event_Hints (hints : list N) (rank0 : Rank0State)
| Event_Hedge (e : HedgeEnd)
| Event_Reply (reply : Reply)
| Event_Validated (r : result (option ProbeOutcome) Error)
| Event_NoHelper
| Event_BatchDone (copy : bool)
| Event_Timer
| Event_Membership (latest : option N) (previous_recent_member : bool)
| Event_Origin (r : result () Error)
| Event_Published (r : result () Error)
| Event_Abort (error : Error).

Inductive Action :=
| Action_Rank (ranking : Ranking) (version : option N)
| Action_Hints
| Action_Hedge (eligible : bool) (first second : nat)
| Action_Refresh
| Action_Probe (probe : Probe)
| Action_Validate
| Action_Batch (first count : nat) (remaining_opportunities : N)
| Action_Wait (wait : N)
| Action_Origin (rank : nat)
| Action_Publish (source : Source)
| Action_Done (r : result Source Error)
| Action_Idle.

(** ** Evidence *)

Inductive SilenceNote := SilenceNote_Answered | SilenceNote_Shed | SilenceNote_TimedOut (needed : N).

Inductive Rank0Note := Rank0Note_Answered | Rank0Note_Failed | Rank0Note_TimedOut.

Record Evidence := mkEvidence {
  ev_outcome : option (result Outcome Error);
  ev_helper : bool;
  ev_granted : bool;
  ev_rank0_probe : bool;
  ev_silence : option SilenceNote;
  ev_rank0 : option Rank0Note;
  ev_notes : N
}.

(** [Evidence::default()]. *)
Definition evidence_default : Evidence := mkEvidence None false false false None None 0.

Definition STALE_SKIP : N := 1.
Definition OWNER_STALE_SKIP : N := 2.
Definition REFRESH : N := 4.
Definition FALLBACK : N := 8.
Definition FALLBACK_DENIED : N := 16.
Definition WAIT_DENIED : N := 32.
Definition FALLBACK_BLOCKED : N := 64.
Definition RANK0_LEFT : N := 128.
Definition WALK_COPY : N := 256.
Definition EXHAUSTED : N := 512.
Definition EXHAUSTED_FUNDING : N := 1024.
Definition EXHAUSTED_STALE : N := 2048.
Definition REMAINING : N := 4096.

Inductive TargetKind := TargetKind_Successor | TargetKind_Lineage | TargetKind_Demoted | TargetKind_Handoff.

Inductive Walking :=
| Walking_None
| Walking_Candidates (w : CandidateWalk)
| Walking_Remaining (r : RemainingWalk).

(** ** The state *)

(** The plan: [hedge], [ranking], [hedge_refresh], [bounded] and [continuation]. *)
Record Plan := mkPlan {
  pl_hedge : bool; pl_ranking : Ranking; pl_hedge_refresh : bool; pl_bounded : bool; pl_continuation : Continuation
}.

(** The walked ranking and its targets. *)
Record Walked := mkWalked {
  wk_version : N;
  wk_owners : list N;
  wk_rank : option nat;
  wk_order : VisitOrder;
  wk_members : nat;
  wk_lineage : list nat;
  wk_lineage_targets : list N;
  wk_demoted : list N;
  wk_handoff : list N;
  wk_successors : nat;
  wk_granted : nat;
  wk_previous : N;
  wk_rank0 : Rank0State
}.

(** What is kept across epochs. *)
Record Epochs := mkEpochs {
  ep_retried : bool;
  ep_fell_back : bool;
  ep_fallback_denied : bool;
  ep_waits : N;
  ep_waiting : bool;
  ep_stale : N;
  ep_latest : N
}.

(** The origin authority and the result. *)
Record Ending := mkEnding {
  en_evidence : list ProbeOutcome;
  en_origin_rank : nat;
  en_origin_pending : bool;
  en_source : Source;
  en_funding : bool;
  en_remaining_end : option RemainingEnd
}.

Record Fill := mkFill {
  f_config : FillConfig;
  f_plan : Plan;
  f_ranked : Walked;
  f_epochs : Epochs;
  f_walk : Walking;
  f_probe : option Probe;
  f_signed : bool;
  f_ending : Ending;
  f_out : Evidence
}.

(** [Fill::new]. *)
Definition fill_new (config : FillConfig) : Fill :=
  mkFill config
    (mkPlan (fc_hedge config && negb (fc_walk_only config)) Ranking_Current false false continuation_default)
    (mkWalked 0 [] None (canonical_order 0) 0 (replicate MAX_HANDOFF 0%nat) [] [] [] 0 0 0 Rank0State_Unknown)
    (mkEpochs false false false 0 false 0 0)
    Walking_None None false
    (mkEnding [] 0 false Source_Peer false None)
    evidence_default.

Implicit Types (f : Fill) (b : AcquisitionBudget).

(** ** The monad of the methods *)

Definition FM (A : Type) : Type :=
  Fill → AcquisitionBudget → option (result A Error * (Fill * AcquisitionBudget)).

Definition fret {A} (x : A) : FM A := λ f b, Some (Ok x, (f, b)).
Definition ferr {A} (e : Error) : FM A := λ f b, Some (Err e, (f, b)).
Definition fpanic {A} : FM A := λ _ _, None.

Definition fbind {A B} (m : FM A) (k : A → FM B) : FM B := λ f b,
  match m f b with
  | None => None
  | Some (Err e, (f, b)) => Some (Err e, (f, b))
  | Some (Ok x, (f, b)) => k x f b
  end.

Notation "'let!' x ':=' m 'in' k" :=
  (fbind m (λ x, k))
  (at level 10, x pattern, m at level 100, k at level 200, format "'let!'  x  ':='  m  'in'  '//' k") : racer_scope.
Notation "m ';!' k" := (fbind m (λ _, k)) (at level 101, right associativity) : racer_scope.

Definition fget : FM Fill := λ f b, Some (Ok f, (f, b)).
Definition fbudget : FM AcquisitionBudget := λ f b, Some (Ok b, (f, b)).
Definition fset (g : Fill → Fill) : FM () := λ f b, Some (Ok (), (g f, b)).
Definition flift {A} (r : result A Error) : FM A := λ f b, Some (r, (f, b)).

Definition fplan (g : Plan → Plan) : FM () := fset (λ f,
  mkFill (f_config f) (g (f_plan f)) (f_ranked f) (f_epochs f) (f_walk f) (f_probe f) (f_signed f) (f_ending f) (f_out f)).
Definition franked (g : Walked → Walked) : FM () := fset (λ f,
  mkFill (f_config f) (f_plan f) (g (f_ranked f)) (f_epochs f) (f_walk f) (f_probe f) (f_signed f) (f_ending f) (f_out f)).
Definition fepochs (g : Epochs → Epochs) : FM () := fset (λ f,
  mkFill (f_config f) (f_plan f) (f_ranked f) (g (f_epochs f)) (f_walk f) (f_probe f) (f_signed f) (f_ending f) (f_out f)).
Definition fwalk (walk : Walking) : FM () := fset (λ f,
  mkFill (f_config f) (f_plan f) (f_ranked f) (f_epochs f) walk (f_probe f) (f_signed f) (f_ending f) (f_out f)).
Definition fprobe (probe : option Probe) : FM () := fset (λ f,
  mkFill (f_config f) (f_plan f) (f_ranked f) (f_epochs f) (f_walk f) probe (f_signed f) (f_ending f) (f_out f)).
Definition fsigned (signed : bool) : FM () := fset (λ f,
  mkFill (f_config f) (f_plan f) (f_ranked f) (f_epochs f) (f_walk f) (f_probe f) signed (f_ending f) (f_out f)).
Definition fending (g : Ending → Ending) : FM () := fset (λ f,
  mkFill (f_config f) (f_plan f) (f_ranked f) (f_epochs f) (f_walk f) (f_probe f) (f_signed f) (g (f_ending f)) (f_out f)).
Definition fout (g : Evidence → Evidence) : FM () := fset (λ f,
  mkFill (f_config f) (f_plan f) (f_ranked f) (f_epochs f) (f_walk f) (f_probe f) (f_signed f) (f_ending f) (g (f_out f))).

(** [note]. *)
Definition note (n : N) : FM () := fout (λ o,
  mkEvidence (ev_outcome o) (ev_helper o) (ev_granted o) (ev_rank0_probe o) (ev_silence o) (ev_rank0 o)
    (N.lor (ev_notes o) n)).

Definition out_outcome (r : result Outcome Error) : FM () := fout (λ o,
  mkEvidence (Some r) (ev_helper o) (ev_granted o) (ev_rank0_probe o) (ev_silence o) (ev_rank0 o) (ev_notes o)).

Definition out_silence (s : SilenceNote) : FM () := fout (λ o,
  mkEvidence (ev_outcome o) (ev_helper o) (ev_granted o) (ev_rank0_probe o) (Some s) (ev_rank0 o) (ev_notes o)).

Definition is_page f : bool := bool_decide (fc_operation (f_config f) = OperationKind_Page).

Definition fill_has f (bit : N) : bool := features_has (fc_features (f_config f)) bit.

(** [rank_next]. *)
Definition rank_next (ranking : Ranking) (version : option N) : FM Action :=
  fplan (λ p, mkPlan (pl_hedge p) ranking (pl_hedge_refresh p) (pl_bounded p) (pl_continuation p)) ;!
  fret (Action_Rank ranking version).

(** [publish]. *)
Definition publish (source : Source) : FM Action :=
  fending (λ e, mkEnding (en_evidence e) (en_origin_rank e) (en_origin_pending e) source (en_funding e)
                  (en_remaining_end e)) ;!
  fret (Action_Publish source).

(** [walked]. *)
Definition walked (source : Source) : FM Action :=
  let! f := fget in
  if fc_walk_only (f_config f) then fret (Action_Done (Ok source)) else publish source.

(** ** Walking *)

(** [end]. *)
Definition fill_end (e : End_) : FM Action :=
  let! f := fget in
  match f_walk f with
  | Walking_Candidates w =>
      fending (λ e, mkEnding (en_evidence e) (en_origin_rank e) (en_origin_pending e) (en_source e) (cw_funding w)
                      (en_remaining_end e)) ;!
      if cw_rank0_unanswered w then note RANK0_LEFT else fret ()
  | _ => fret ()
  end ;!
  fwalk Walking_None ;!
  match e with
  | End_Copy => note WALK_COPY ;! walked Source_Peer
  | End_StaleMembership =>
      note REFRESH ;!
      fepochs (λ s, mkEpochs true (ep_fell_back s) (ep_fallback_denied s) (ep_waits s) (ep_waiting s) (ep_stale s)
                      (ep_latest s)) ;!
      fplan (λ p, mkPlan (pl_hedge p) (pl_ranking p) (pl_hedge_refresh p) (pl_bounded p)
                    (mkContinuation false None (pl_bounded p))) ;!
      rank_next Ranking_Current (Some (ep_latest (f_epochs f)))
  | End_Origin rank evidence =>
      fending (λ e, mkEnding evidence rank (en_origin_pending e) (en_source e) (en_funding e) (en_remaining_end e)) ;!
      rank_next Ranking_Authority (Some (wk_version (f_ranked f)))
  | End_VersionUnavailable => ferr Error_VersionUnavailable
  | End_Exhausted funding =>
      note (if funding then EXHAUSTED_FUNDING else EXHAUSTED) ;!
      (if 0 <? ep_stale (f_epochs f) then note EXHAUSTED_STALE else fret ()) ;!
      ferr Error_Unavailable
  end.

(** [remaining_ended]. *)
Definition remaining_ended (e : RemainingEnd) : FM Action :=
  fwalk Walking_None ;!
  fending (λ s, mkEnding (en_evidence s) (en_origin_rank s) (en_origin_pending s) (en_source s) (en_funding s)
                  (Some e)) ;!
  let! f := fget in
  match e with
  | RemainingEnd_Copy => publish Source_Peer
  | RemainingEnd_None => ferr (origin_miss_error (en_evidence (f_ending f)))
  | RemainingEnd_Unavailable => ferr Error_Unavailable
  end.

(** A walk's method run on the current walk [w]. *)
Definition on_walk {A} w (m : CandidateWalk → AcquisitionBudget →
    option (result A Error * (CandidateWalk * AcquisitionBudget))) : FM A := λ f b,
  match m w b with
  | None => None
  | Some (r, (w, b)) =>
      match fwalk (Walking_Candidates w) f b with
      | Some (_, (f, _)) => Some (r, (f, b))
      | None => None
      end
  end.

(** [next]. *)
Definition fill_next : FM Action :=
  let! f := fget in
  match f_walk f with
  | Walking_Candidates w =>
      let! step := on_walk w walk_next in
      match step with
      | Step_Probe probe => fprobe (Some probe) ;! fret (Action_Probe probe)
      | Step_Granted probes =>
          match probes with
          | [] => fpanic
          | first :: _ =>
              fret (Action_Batch (pr_canonical first - length (wk_owners (f_ranked f))) (length probes)
                      (pr_remaining_opportunities first))
          end
      | Step_End e => fill_end e
      end
  | Walking_Remaining r =>
      match next_probe r with
      | None => fpanic
      | Some (Ok probe, r) =>
          fwalk (Walking_Remaining r) ;! fprobe (Some probe) ;! fret (Action_Probe probe)
      | Some (Err e, r) => fwalk (Walking_Remaining r) ;! remaining_ended e
      end
  | Walking_None => fret Action_Idle
  end.

(** The targets asked on their own grant. *)
Definition fill_granted f : nat :=
  let r := f_ranked f in
  if fill_has f LINEAGE_GRANTS && bool_decide (wk_rank r = Some 0%nat) && is_page f then length (wk_handoff r)
  else
    (wk_successors r +
     (if fill_has f LINEAGE_GRANTS && is_some (wk_rank r)
      then granted_prefix (drop (wk_successors r) (wk_handoff r)) (wk_lineage_targets r) else 0))%nat.

Definition set_granted (r : Walked) (granted : nat) : Walked :=
  mkWalked (wk_version r) (wk_owners r) (wk_rank r) (wk_order r) (wk_members r) (wk_lineage r) (wk_lineage_targets r)
    (wk_demoted r) (wk_handoff r) (wk_successors r) granted (wk_previous r) (wk_rank0 r).

Definition walk_config f (granted : nat) (continuation : Continuation) : WalkConfig :=
  let r := f_ranked f in
  mkWalkConfig (wk_rank r) (length (wk_owners r)) (wk_order r) (is_page f) continuation (length (wk_handoff r))
    (wk_previous r)
    (negb (is_some (wk_rank r)) && is_page f && fill_has f HELPER && (length (wk_owners r) + 1 <? wk_members r)%nat)
    (wk_lineage r) granted (fill_has f PARALLEL_GRANTED) (wk_rank0 r).

(** [start_walk]. *)
Definition start_walk : FM Action :=
  let! f := fget in
  let granted := fill_granted f in
  let continuation := pl_continuation (f_plan f) in
  franked (λ r, set_granted r granted) ;!
  fplan (λ p, mkPlan (pl_hedge p) (pl_ranking p) (pl_hedge_refresh p) (bounded_routes continuation)
                continuation_default) ;!
  fwalk (Walking_Candidates (walk_new (walk_config f granted continuation))) ;!
  fill_next.

(** [walk_or_hedge]. *)
Definition walk_or_hedge : FM Action :=
  let! f := fget in
  let! b := fbudget in
  if negb (pl_hedge (f_plan f)) then start_walk
  else
    let r := f_ranked f in
    let first := default 0%nat (order_get (wk_order r) 0) in
    let second := default 0%nat (order_get (wk_order r) 1) in
    match hedge_eligible (is_page f) (is_some (wk_rank r)) (wk_owners r) first second b with
    | None => fpanic
    | Some eligible => fret (Action_Hedge eligible first second)
    end.

(** [targets]. *)
Definition fill_targets : FM Action :=
  let! f := fget in
  if is_some (wk_rank (f_ranked f)) && is_page f then fret Action_Hints else walk_or_hedge.

(** The lineage targets of an owner: later owners that arrived earlier, then demoted members. *)
Definition owner_lineage f (ranked : Ranked) (rank : nat) : list N * list N :=
  let since := take (length (rk_owners ranked)) (rk_since ranked) in
  let demoted := demoted_targets since (rk_demoted ranked)
                   (take (length (rk_demoted ranked)) (rk_demoted_since ranked)) rank (rk_oldest ranked) in
  (foldl (λ targets n,
     if negb (list_contains n targets) && (length targets <? ft_lineage_cap (fc_features (f_config f)))%nat
     then list_push MAX_LINEAGE targets n else targets)
     (list_collect MAX_LINEAGE (lineage_targets (rk_owners ranked) since rank)) demoted,
   demoted).

(** [ranked]. *)
Definition fill_ranked (ranked : Ranked) : FM Action :=
  if bool_decide (rk_owners ranked = []) then ferr Error_Unavailable
  else
    let! f := fget in
    let page := is_page f in
    let since := take (length (rk_owners ranked)) (rk_since ranked) in
    let order := if is_some (rk_rank ranked) then canonical_order 0 else rk_order ranked in
    let lineage :=
      if negb page || (fill_has f LINEAGE_GRANTS && negb (fill_has f LINEAGE_SLACK))
      then replicate MAX_HANDOFF 0%nat else lineage_counts since in
    let '(lineage_targets, demoted) :=
      match rk_rank ranked with
      | Some rank => if page then owner_lineage f ranked rank else ([], [])
      | None => ([], [])
      end in
    franked (λ r, mkWalked (rk_version ranked) (rk_owners ranked) (rk_rank ranked) order (rk_members ranked) lineage
                    lineage_targets demoted (list_collect MAX_TARGETS lineage_targets) 0 (wk_granted r) 0
                    Rank0State_Unknown) ;!
    fepochs (λ s, mkEpochs (ep_retried s) (ep_fell_back s) (ep_fallback_denied s) (ep_waits s) (ep_waiting s) 0
                    (ep_latest s)) ;!
    match rk_rank ranked, page, checked_sub (rk_version ranked) 1 with
    | Some _, true, Some previous => rank_next Ranking_Previous (Some previous)
    | _, _, _ => fill_targets
    end.

(** ** Replies *)

(** [after]. *)
Definition fill_after (e : option End_) (skipped : bool) : FM Action :=
  match e with
  | Some e => fill_end e
  | None =>
      let! f := fget in
      (if skipped && negb (is_some (wk_rank (f_ranked f))) && negb (ep_retried (f_epochs f)) &&
          negb (ep_fell_back (f_epochs f))
       then note FALLBACK_BLOCKED else fret ()) ;!
      fill_next
  end.

(** [pending]: note what the outstanding probe asked; true when a stale answer must not refresh. *)
Definition fill_pending : FM bool :=
  let! f := fget in
  match f_walk f with
  | Walking_Candidates w =>
      let asked (g : PendingProbe → bool) := match cw_pending w with Some p => g p | None => false end in
      fout (λ o, mkEvidence (ev_outcome o) (asked pd_helper) (asked pd_granted) (asked pd_rank0) (ev_silence o)
                   (ev_rank0 o) (ev_notes o)) ;!
      fret (asked (λ p, pd_handoff p || pd_previous p))
  | _ => fret false
  end.

(** [walk_complete]. *)
Definition fill_walk_complete (outcome : Outcome) : FM Action :=
  let! f := fget in
  let! b := fbudget in
  match f_walk f with
  | Walking_Candidates w =>
      let! e := on_walk w (λ w b, walk_complete w b outcome) in
      fill_after e false
  | Walking_Remaining r =>
      match remaining_complete r b outcome with
      | None => fpanic
      | Some (e, (r, b)) =>
          (λ f _, fwalk (Walking_Remaining r) f b) ;!
          match e with
          | Some e => remaining_ended e
          | None => fill_next
          end
      end
  | Walking_None => fret Action_Idle
  end.

(** What a probe of rank 0 says about its acquisition. *)
Definition rank0_note (outcome : Outcome) : option Rank0Note :=
  match outcome with
  | Outcome_TimedOut
  | Outcome_Probe ProbeOutcome_Overloaded | Outcome_Transport ProbeOutcome_Overloaded => Some Rank0Note_TimedOut
  | Outcome_Failed => Some Rank0Note_Failed
  | Outcome_Copy
  | Outcome_Probe (ProbeOutcome_CopyMiss | ProbeOutcome_VersionUnavailable | ProbeOutcome_Unreachable) =>
      Some Rank0Note_Answered
  | _ => None
  end.

(** [complete]. *)
Definition fill_complete (outcome : Outcome) : FM Action :=
  fill_pending ;!
  out_outcome (Ok outcome) ;!
  let! f := fget in
  let overloaded := match outcome with
                    | Outcome_Probe ProbeOutcome_Overloaded | Outcome_Transport ProbeOutcome_Overloaded => true
                    | _ => false
                    end in
  (if ev_rank0_probe (f_out f) && negb (ev_helper (f_out f)) &&
      (f_signed f || bool_decide (outcome = Outcome_TimedOut) || overloaded)
   then fout (λ o, mkEvidence (ev_outcome o) (ev_helper o) (ev_granted o) (ev_rank0_probe o) (ev_silence o)
                     (rank0_note outcome) (ev_notes o))
   else fret ()) ;!
  fill_walk_complete outcome.

(** The answered kinds of [reply]: a finished action, or the walk's outcome. *)
Definition answer_outcome (probe : Probe) (kind : ResponseKind) (signed no_refresh remaining : bool) :
    FM (Action + Outcome) :=
  let! f := fget in
  match kind with
  | ResponseKind_Overloaded =>
      if signed then fret (inr Outcome_Shed) else fret (inr (Outcome_Probe ProbeOutcome_Overloaded))
  | ResponseKind_StaleMembership =>
      if remaining then
        out_outcome (Err Error_IncompatibleMembership) ;! ferr Error_IncompatibleMembership
      else if no_refresh then fret (inr Outcome_StaleMembership)
      else
        fplan (λ p, mkPlan (pl_hedge p) (pl_ranking p) false (pl_bounded p) (pl_continuation p)) ;!
        fret (inl Action_Refresh)
  | _ =>
      if bool_decide (kind = ResponseKind_Unavailable) && signed && ev_rank0_probe (f_out f) && fill_has f RANK0_FAILED
      then fret (inr Outcome_Failed)
      else if has_payload kind then fret (inl Action_Validate)
      else
        match classify kind (fc_operation (f_config f)) (bool_decide (pr_mode probe = Mode_Acquire)) (Ok ()) with
        | Ok outcome => fret (inr (Outcome_Probe (default ProbeOutcome_UnusableCopy outcome)))
        | Err error =>
            match unusable_copy error (fc_operation (f_config f)) with
            | Some outcome => fret (inr (Outcome_Probe outcome))
            | None => out_outcome (Err error) ;! ferr error
            end
        end
  end.

(** [reply]. *)
Definition fill_reply (reply : Reply) : FM Action :=
  let! f := fget in
  match f_probe f with
  | None => fpanic
  | Some probe =>
      let page := is_page f in
      let! no_refresh := fill_pending in
      let remaining := match f_walk f with Walking_Remaining _ => true | _ => false end in
      fsigned false ;!
      match reply with
      | Reply_Answer kind signed =>
          fsigned signed ;!
          (if signed
           then out_silence (if bool_decide (kind = ResponseKind_Overloaded) && page
                             then SilenceNote_Shed else SilenceNote_Answered)
           else fret ()) ;!
          let! r := answer_outcome probe kind signed no_refresh remaining in
          match r with
          | inl action => fret action
          | inr outcome => fill_complete outcome
          end
      | Reply_TimedOut =>
          let! f := fget in
          (if page then
             let rank0 := ev_rank0_probe (f_out f) ||
                          (negb (is_some (wk_rank (f_ranked f))) && (pr_canonical probe =? 0)%nat &&
                           negb (ev_helper (f_out f))) in
             out_silence (SilenceNote_TimedOut (if rank0 then RANK0_TIMEOUTS else NO_PING))
           else fret ()) ;!
          fill_complete Outcome_TimedOut
      | Reply_Failed error sent scope_live =>
          let! f := fget in
          let outcome :=
            match transport_outcome error with
            | Some outcome => Some outcome
            | None => if ev_granted (f_out f) && scope_live then Some ProbeOutcome_Unreachable else None
            end in
          match outcome with
          | None => (if sent then out_outcome (Err error) else fret ()) ;! ferr error
          | Some outcome =>
              if negb sent then
                fout (λ o, mkEvidence None false false false None None (ev_notes o)) ;!
                fill_walk_complete (Outcome_Transport outcome)
              else fill_complete (Outcome_Transport outcome)
          end
      end
  end.

(** ** Stale destinations *)

Definition count_stale : FM () :=
  fepochs (λ s, mkEpochs (ep_retried s) (ep_fell_back s) (ep_fallback_denied s) (ep_waits s) (ep_waiting s)
                  (ep_stale s + 1) (ep_latest s)).

(** [skip]. *)
Definition fill_skip : FM Action :=
  count_stale ;!
  note STALE_SKIP ;!
  let! f := fget in
  (if is_some (wk_rank (f_ranked f)) then note OWNER_STALE_SKIP else fret ()) ;!
  fill_pending ;!
  out_outcome (Ok Outcome_StaleDestination) ;!
  let! f := fget in
  match f_walk f with
  | Walking_Candidates w =>
      let! e := on_walk w (λ w b, walk_complete w b Outcome_StaleDestination) in
      fill_after e true
  | _ => fret Action_Idle
  end.

(** [wait]. *)
Definition fill_wait (now : N) : FM (option N) :=
  let! f := fget in
  let! b := fbudget in
  if negb (fill_has f STALE_WAIT) then fret None
  else
    let deadline := N.min (b_deadline b) (fc_scope (f_config f)) in
    match f_walk f with
    | Walking_Candidates w =>
        match stale_wait (ep_waits (f_epochs f)) (retry_affordable w b) (deadline - now) with
        | None => fret None
        | Some wait =>
            on_walk w (λ w b, Some (retry_pending w b)) ;!
            fepochs (λ s, mkEpochs (ep_retried s) (ep_fell_back s) (ep_fallback_denied s)
                            (saturating_add U8_MAX (ep_waits s) 1) true (ep_stale s) (ep_latest s)) ;!
            fret (Some wait)
        end
    | _ => fret None
    end.

(** [membership]. *)
Definition fill_membership (latest : option N) (previous_recent_member : bool) (now : N) : FM Action :=
  let! f := fget in
  match stale_action (ep_retried (f_epochs f)) (wk_version (f_ranked f)) latest with
  | Err error =>
      (if pl_hedge_refresh (f_plan f) then fret () else fill_pending ;! out_outcome (Err error)) ;!
      ferr error
  | Ok action =>
      let latest := default 0 latest in
      match pl_hedge_refresh (f_plan f), action with
      | true, StaleAction_Refresh =>
          note REFRESH ;!
          fepochs (λ s, mkEpochs true (ep_fell_back s) (ep_fallback_denied s) (ep_waits s) (ep_waiting s) (ep_stale s)
                          (ep_latest s)) ;!
          rank_next Ranking_Current (Some latest)
      | true, StaleAction_Skip => note STALE_SKIP ;! start_walk
      | false, StaleAction_Refresh =>
          fepochs (λ s, mkEpochs (ep_retried s) (ep_fell_back s) (ep_fallback_denied s) (ep_waits s) (ep_waiting s)
                          (ep_stale s) latest) ;!
          fill_complete Outcome_StaleMembership
      | false, StaleAction_Skip =>
          let owner := is_some (wk_rank (f_ranked f)) in
          if fill_has f STALE_FALLBACK && negb (ep_fallback_denied (f_epochs f)) &&
             previous_fallback owner (ep_retried (f_epochs f) || ep_fell_back (f_epochs f)) previous_recent_member
          then
            match checked_sub (wk_version (f_ranked f)) 1 with
            | None => fpanic
            | Some version =>
                fepochs (λ s, mkEpochs (ep_retried s) true (ep_fallback_denied s) (ep_waits s) (ep_waiting s)
                                (ep_stale s) (ep_latest s)) ;!
                rank_next Ranking_Fallback (Some version)
            end
          else
            let! wait := if owner then fret None else fill_wait now in
            match wait with
            | Some wait => fret (Action_Wait wait)
            | None => fill_skip
            end
      end
  end.

(** The part of [fallback_ranked] that walks the previous membership. *)
Definition fallback_allowed (ranked : Ranked) : FM Action :=
  count_stale ;!
  note (N.lor STALE_SKIP FALLBACK) ;!
  fill_pending ;!
  out_outcome (Ok Outcome_StaleDestination) ;!
  let! f := fget in
  match f_walk f with
  | Walking_Candidates w =>
      on_walk w (λ w b, walk_complete w b Outcome_StaleDestination) ;!
      let! f := fget in
      match f_walk f with
      | Walking_Candidates w => on_walk w (λ w b, Some (walk_abandon w b))
      | _ => fret ()
      end
  | _ => fret ()
  end ;!
  fwalk Walking_None ;!
  fepochs (λ s, mkEpochs true (ep_fell_back s) (ep_fallback_denied s) (ep_waits s) (ep_waiting s) (ep_stale s)
                  (ep_latest s)) ;!
  fplan (λ p, mkPlan (pl_hedge p) (pl_ranking p) (pl_hedge_refresh p) (pl_bounded p) continuation_default) ;!
  fill_ranked ranked.

(** [fallback_ranked]. *)
Definition fallback_ranked (ranked : result Ranked Error) (now : N) : FM Action :=
  match ranked with
  | Ok r =>
      if negb (bool_decide (rk_owners r = [])) && negb (is_some (rk_rank r)) then fallback_allowed r
      else
        note FALLBACK_DENIED ;!
        fepochs (λ s, mkEpochs (ep_retried s) false true (ep_waits s) (ep_waiting s) (ep_stale s) (ep_latest s)) ;!
        let! wait := fill_wait now in
        match wait with
        | Some wait => note WAIT_DENIED ;! fret (Action_Wait wait)
        | None => fill_skip
        end
  | Err _ =>
      fepochs (λ s, mkEpochs (ep_retried s) false (ep_fallback_denied s) (ep_waits s) (ep_waiting s) (ep_stale s)
                      (ep_latest s)) ;!
      let! wait := fill_wait now in
      match wait with
      | Some wait => fret (Action_Wait wait)
      | None => fill_skip
      end
  end.

(** ** Events *)

(** [Event::Ranked] with the previous membership's ranking. *)
Definition previous_ranked (ranked : result Ranked Error) : FM Action :=
  let! f := fget in
  match ranked, wk_rank (f_ranked f) with
  | Ok previous, Some rank =>
      let owners := wk_owners (f_ranked f) in
      let targets := list_collect MAX_HANDOFF
        (List.filter (λ n, negb (n =? NOT_MEMBER)) (handoff_targets (rk_owners previous) owners rank)) in
      franked (λ r, mkWalked (wk_version r) (wk_owners r) (wk_rank r) (wk_order r) (wk_members r) (wk_lineage r)
        (wk_lineage_targets r) (wk_demoted r) (merge_handoff targets (wk_lineage_targets r)) (wk_successors r)
        (wk_granted r)
        (if rk_recent_member previous then same_rank_previous (rk_owners previous) owners rank else wk_previous r)
        (wk_rank0 r))
  | _, _ => fret ()
  end ;!
  fill_targets.

(** [Event::Hints]. *)
Definition fill_hints (hints : list N) (rank0 : Rank0State) : FM Action :=
  franked (λ r,
    let '(handoff, successors) :=
      match wk_rank r with
      | Some rank =>
          let targets := successor_targets hints (wk_owners r) rank in
          if bool_decide (targets = []) then (wk_handoff r, wk_successors r)
          else with_successors targets (wk_handoff r)
      | None => (wk_handoff r, wk_successors r)
      end in
    mkWalked (wk_version r) (wk_owners r) (wk_rank r) (wk_order r) (wk_members r) (wk_lineage r)
      (wk_lineage_targets r) (wk_demoted r) handoff successors (wk_granted r) (wk_previous r) rank0) ;!
  walk_or_hedge.

(** [Event::Hedge]. *)
Definition fill_hedge (e : HedgeEnd) : FM Action :=
  fplan (λ p, mkPlan false (pl_ranking p) (pl_hedge_refresh p) (pl_bounded p) (pl_continuation p)) ;!
  match e with
  | HedgeEnd_NotStarted => start_walk
  | HedgeEnd_Won => walked Source_Hedge
  | HedgeEnd_Lost stale primary error =>
      match error with
      | Some error => if hedge_fallback error then fret () else ferr error
      | None => fret ()
      end ;!
      fplan (λ p, mkPlan (pl_hedge p) (pl_ranking p) (pl_hedge_refresh p || stale) (pl_bounded p)
        (mkContinuation (negb stale) (if stale then None else Some (default ProbeOutcome_Unreachable primary)) true)) ;!
      if stale then fret Action_Refresh else start_walk
  end.

(** [Event::Origin]. *)
Definition fill_origin (r : result () Error) : FM Action :=
  let! f := fget in
  fending (λ e, mkEnding (en_evidence e) (en_origin_rank e) false (en_source e) (en_funding e) (en_remaining_end e)) ;!
  if negb (en_origin_pending (f_ending f)) then fpanic
  else
    match r with
    | Ok _ => publish Source_Origin
    | Err Error_VersionUnavailable =>
        note REMAINING ;!
        fwalk (Walking_Remaining
          (remaining_new (default 0%nat (wk_rank (f_ranked f))) (length (wk_owners (f_ranked f))))) ;!
        fill_next
    | Err error => ferr error
    end.

(** [Event::Ranked] before origin: only an unchanged ranking fetches. *)
Definition authority_ranked (ranked : result Ranked Error) : FM Action :=
  let! ranked := flift ranked in
  let! f := fget in
  if negb (bool_decide (rk_owners ranked = wk_owners (f_ranked f))) then ferr Error_IncompatibleMembership
  else
    fending (λ e, mkEnding (en_evidence e) (en_origin_rank e) (negb (fc_walk_only (f_config f))) (en_source e)
                    (en_funding e) (en_remaining_end e)) ;!
    fret (Action_Origin (en_origin_rank (f_ending f))).

(** [handle]. *)
Definition handle (event : Event) (now : N) : FM Action :=
  let! f := fget in
  match event with
  | Event_Start local_hit =>
      if local_hit then fret (Action_Done (Ok Source_Local)) else rank_next Ranking_Current None
  | Event_Ranked ranked =>
      match pl_ranking (f_plan f) with
      | Ranking_Current => let! ranked := flift ranked in fill_ranked ranked
      | Ranking_Previous => previous_ranked ranked
      | Ranking_Fallback => fallback_ranked ranked now
      | Ranking_Authority => authority_ranked ranked
      end
  | Event_Hints hints rank0 => fill_hints hints rank0
  | Event_Hedge e => fill_hedge e
  | Event_Reply reply => fill_reply reply
  | Event_Validated r =>
      match r with
      | Ok None => fill_complete Outcome_Copy
      | Ok (Some outcome) => fill_complete (Outcome_Probe outcome)
      | Err error => fill_pending ;! out_outcome (Err error) ;! ferr error
      end
  | Event_NoHelper =>
      match f_walk f with
      | Walking_Candidates w =>
          let! e := on_walk w (λ w b, walk_complete w b (Outcome_Probe ProbeOutcome_CopyMiss)) in
          fill_after e false
      | _ => fret Action_Idle
      end
  | Event_BatchDone copy =>
      match f_walk f with
      | Walking_Candidates w =>
          match complete_granted w copy with
          | None => fpanic
          | Some (e, w) =>
              fwalk (Walking_Candidates w) ;!
              match e with Some e => fill_end e | None => fill_next end
          end
      | _ => fret Action_Idle
      end
  | Event_Timer =>
      if ep_waiting (f_epochs f) then
        fepochs (λ s, mkEpochs (ep_retried s) (ep_fell_back s) (ep_fallback_denied s) (ep_waits s) false (ep_stale s)
                        (ep_latest s)) ;!
        fill_next
      else fret Action_Idle
  | Event_Membership latest previous_recent_member => fill_membership latest previous_recent_member now
  | Event_Origin r => fill_origin r
  | Event_Published r =>
      match r with
      | Ok _ => fret (Action_Done (Ok (en_source (f_ending f))))
      | Err error => ferr error
      end
  | Event_Abort error => ferr error
  end.

(** [on]: an error abandons the walk and ends the fill; the evidence is taken. *)
Definition fill_on f b (event : Event) (now : N) : option (Action * Evidence * (Fill * AcquisitionBudget)) :=
  let take_out f := mkFill (f_config f) (f_plan f) (f_ranked f) (f_epochs f) (f_walk f) (f_probe f) (f_signed f)
                      (f_ending f) evidence_default in
  let drop_walk f := mkFill (f_config f) (f_plan f) (f_ranked f) (f_epochs f) Walking_None (f_probe f) (f_signed f)
                       (f_ending f) (f_out f) in
  match handle event now f b with
  | None => None
  | Some (Ok action, (f, b)) => Some (action, f_out f, (take_out f, b))
  | Some (Err error, (f, b)) =>
      let b := match f_walk f with Walking_Candidates w => (walk_abandon w b).2.2 | _ => b end in
      let f := drop_walk f in
      Some (Action_Done (Err error), f_out f, (take_out f, b))
  end.

(** [request_budget]: what the outstanding probe spends. *)
Definition fill_request_budget f b : AcquisitionBudget :=
  match f_walk f with Walking_Candidates w => request_budget w b | _ => b end.

(** [dest]: [None] is a panic, [Some None] the helper. *)
Definition fill_dest f (probe : Probe) : option (option N) :=
  match checked_sub (N.of_nat (pr_canonical probe)) (len (wk_owners (f_ranked f))) with
  | Some i =>
      if is_some (wk_rank (f_ranked f)) then Some <$> (wk_handoff (f_ranked f) !! N.to_nat i)
      else Some None
  | None => Some <$> (wk_owners (f_ranked f) !! pr_canonical probe)
  end.

(** [target_kind]; an index past the targets panics where the source indexes. *)
Definition target_kind f (i : nat) : option TargetKind :=
  let r := f_ranked f in
  if (i <? wk_successors r)%nat then Some TargetKind_Successor
  else if (i <? wk_granted r)%nat then
    match wk_handoff r !! i with
    | None => None
    | Some n =>
        if list_contains n (wk_demoted r) then Some TargetKind_Demoted
        else if list_contains n (wk_lineage_targets r) then Some TargetKind_Lineage
        else Some TargetKind_Handoff
    end
  else Some TargetKind_Handoff.
