(* ===== verification/FillRuns.v ===== *)
(** * Runs of a fill

    A driver performs each action of a [Fill] ([cmd/racer/core/src/read/walk.rs]) and reports
    an event that answers it, spending from the budgets it is handed.  Along every such run
    the fill never panics, holds the credits it was given, and comes closer to its end with
    every event. *)

From S2P Require Import Prelude Budget HotPage Rank0 ReadRules Targets Walk WalkRuns Fill.
Local Open Scope N_scope.
Local Open Scope racer_scope.

(** ** What a driver may report *)

(** A ranking of at most three owners; an owner's rank is one of them, a reader's order visits
    each once. *)
Definition ranking_ok (owners : list N) (rank : option nat) (order : VisitOrder) : Prop :=
  (length owners ≤ 3)%nat ∧
  match rank with
  | Some r => (r < length owners)%nat
  | None => order_of (length owners) order
  end.

Definition ranked_ok (r : Ranked) : Prop := ranking_ok (rk_owners r) (rk_rank r) (rk_order r).

(** The pending probe asks the helper. *)
Definition helper_pending (walk : Walking) : bool :=
  match walk with
  | Walking_Candidates w => match cw_pending w with Some p => pd_helper p | None => false end
  | _ => false
  end.

(** The events that answer an action; a driver may also abort. *)
Inductive answers_action (f : Fill) : Action → Event → Prop :=
| aa_rank ranking version r :
    (∀ x, r = Ok x → ranked_ok x) → answers_action f (Action_Rank ranking version) (Event_Ranked r)
| aa_hints hints rank0 : answers_action f Action_Hints (Event_Hints hints rank0)
| aa_hedge eligible first second e :
    (eligible = false → e = HedgeEnd_NotStarted) → answers_action f (Action_Hedge eligible first second) (Event_Hedge e)
| aa_refresh latest recent :
    (recent = true → 0 < wk_version (f_ranked f)) → answers_action f Action_Refresh (Event_Membership latest recent)
| aa_probe probe reply : answers_action f (Action_Probe probe) (Event_Reply reply)
| aa_no_helper probe : helper_pending (f_walk f) = true → answers_action f (Action_Probe probe) Event_NoHelper
| aa_validate r : answers_action f Action_Validate (Event_Validated r)
| aa_batch first count ro copy : answers_action f (Action_Batch first count ro) (Event_BatchDone copy)
| aa_wait wait : answers_action f (Action_Wait wait) Event_Timer
| aa_origin rank r : fc_walk_only (f_config f) = false → answers_action f (Action_Origin rank) (Event_Origin r)
| aa_publish source r : answers_action f (Action_Publish source) (Event_Published r)
| aa_abort a error : (∀ r, a ≠ Action_Done r) → answers_action f a (Event_Abort error).

(** Spending never adds credit, counting what may still be refunded. *)
Definition spends b b' : Prop :=
  attempt_credit b' ≤ attempt_credit b ∧ link_credit b' ≤ link_credit b ∧ b_deadline b' = b_deadline b.

(** ** The credits a fill holds *)

Definition owed_walk (walk : Walking) : option AcquisitionBudget :=
  match walk with Walking_Candidates w => owed_child (cw_pending w) | _ => None end.

Definition credit_of (g : AcquisitionBudget → N) (child : option AcquisitionBudget) : N :=
  match child with Some child => g child | None => 0 end.

(** The caller's budget and the child that returns to it make up [b0]'s attempts and links;
    with what may still be refunded, they stay within its credits. *)
Definition held (b0 : AcquisitionBudget) (walk : Walking) b : Prop :=
  b_attempts b + credit_of b_attempts (owed_walk walk) = b_attempts b0 ∧
  b_links b + credit_of b_links (owed_walk walk) = b_links b0 ∧
  attempt_credit b + credit_of attempt_credit (owed_walk walk) ≤ attempt_credit b0 ∧
  link_credit b + credit_of link_credit (owed_walk walk) ≤ link_credit b0 ∧
  b_deadline b = b_deadline b0 ∧ child_deadline b (owed_walk walk) = b_deadline b0.

(** Budgets whose credits fit their counters. *)
Definition bounded_budget (b0 : AcquisitionBudget) : Prop :=
  attempt_credit b0 ≤ U32_MAX ∧ link_credit b0 ≤ U8_MAX.

Lemma held_fits b0 w b p : bounded_budget b0 → cw_pending w = Some p → held b0 (Walking_Candidates w) b →
  fits b (owed_child (Some p)).
Proof.
  intros [Ha Hl] Hp (_ & _ & H1 & H2 & _). unfold owed_walk in *. rewrite Hp in *.
  unfold fits, credit_of, attempt_credit, link_credit in *. destruct (owed_child (Some p)); [|done]. lia.
Qed.

Lemma held_reunited b0 w b p w' b' : cw_pending w = Some p → held b0 (Walking_Candidates w) b →
  reunited b (owed_child (Some p)) b' → cw_pending w' = None → held b0 (Walking_Candidates w') b'.
Proof.
  intros Hp (G1 & G2 & H1 & H2 & H3 & H4) (R1 & R2 & R3 & R4 & R5) Hp'. unfold held, owed_walk in *. rewrite Hp in *. rewrite Hp'.
  unfold child_attempts, child_links, credit_of, attempt_credit, link_credit in *.
  destruct (owed_child (Some p)); simpl in *; lia.
Qed.

Lemma held_none b0 b w : cw_pending w = None → held b0 (Walking_Candidates w) b ↔ held b0 Walking_None b.
Proof. intros Hp. unfold held, owed_walk. by rewrite Hp. Qed.

(** ** The invariant of a run *)

Definition ranked_inv f : Prop :=
  ranking_ok (wk_owners (f_ranked f)) (wk_rank (f_ranked f)) (wk_order (f_ranked f)).

(** Owners a remaining walk has still to ask. *)
Definition remaining_left (r : RemainingWalk) : nat := rw_owners r - rw_index r.

Definition walking_ok f : Prop :=
  match f_walk f with
  | Walking_Candidates w =>
      let c := cw_config w in
      walk_inv w ∧ (ahead w ≤ 11)%nat ∧ ranked_inv f ∧
      wc_rank c = wk_rank (f_ranked f) ∧ wc_owners c = length (wk_owners (f_ranked f)) ∧
      wc_handoff c = length (wk_handoff (f_ranked f)) ∧
      bounded_routes (wc_continuation c) = pl_bounded (f_plan f) ∧
      (is_Some (wc_rank c) → primary_consumed (wc_continuation c) = false)
  | Walking_Remaining r => (remaining_left r ≤ 2)%nat ∧ ranked_inv f ∧ rw_owners r = length (wk_owners (f_ranked f))
  | Walking_None => True
  end.

(** A probe is outstanding. *)
Definition probing f : Prop :=
  (∃ w p, f_walk f = Walking_Candidates w ∧ cw_pending w = Some p) ∨
  (∃ r, f_walk f = Walking_Remaining r ∧ rw_pending r = true ∧ (rw_index r < rw_owners r)%nat).

(** The outstanding probe visits an owner under the walked membership. *)
Definition visiting f : Prop :=
  ∃ w p, f_walk f = Walking_Candidates w ∧ cw_pending w = Some p ∧ pd_handoff p = false ∧ pd_previous p = false.

(** This node may ask the origin: it is an owner, with an outcome of every predecessor unless
    a hedge bounded its routes. *)
Definition authorized f : Prop :=
  ranked_inv f ∧ wk_rank (f_ranked f) = Some (en_origin_rank (f_ending f)) ∧
  (pl_bounded (f_plan f) = false → length (en_evidence (f_ending f)) = en_origin_rank (f_ending f)).

Definition action_ok f (a : Action) : Prop :=
  match a with
  | Action_Rank ranking _ =>
      pl_ranking (f_plan f) = ranking ∧
      match ranking with
      | Ranking_Current => f_walk f = Walking_None
      | Ranking_Previous => f_walk f = Walking_None ∧ ranked_inv f
      | Ranking_Fallback => visiting f ∧ wk_rank (f_ranked f) = None ∧ ep_retried (f_epochs f) = false
      | Ranking_Authority => f_walk f = Walking_None ∧ authorized f
      end
  | Action_Hints => f_walk f = Walking_None ∧ ranked_inv f
  | Action_Hedge eligible _ _ =>
      f_walk f = Walking_None ∧ ranked_inv f ∧ (eligible = true → wk_rank (f_ranked f) = None)
  | Action_Refresh =>
      if pl_hedge_refresh (f_plan f) then f_walk f = Walking_None ∧ ranked_inv f else visiting f
  | Action_Probe probe => f_probe f = Some probe ∧ probing f ∧ is_Some (fill_dest f probe)
  | Action_Validate => probing f
  | Action_Batch first count _ =>
      (first + count ≤ length (wk_handoff (f_ranked f)))%nat ∧ ∃ w, f_walk f = Walking_Candidates w ∧ cw_batch w ≠ 0%nat
  | Action_Wait _ => ep_waiting (f_epochs f) = true ∧ ∃ w, f_walk f = Walking_Candidates w ∧ ready w
  | Action_Origin rank =>
      f_walk f = Walking_None ∧ authorized f ∧ en_origin_rank (f_ending f) = rank ∧
      en_origin_pending (f_ending f) = negb (fc_walk_only (f_config f))
  | Action_Publish _ | Action_Done _ => f_walk f = Walking_None
  | Action_Idle => False
  end.

Definition fill_ok b0 f b (a : Action) : Prop :=
  held b0 (f_walk f) b ∧ walking_ok f ∧ primary_consumed (pl_continuation (f_plan f)) = false ∧ action_ok f a.

(** ** The events still ahead *)

Definition later f : nat :=
  60 * (if ep_retried (f_epochs f) then 0 else 1) + 4 * (2 - N.to_nat (ep_waits (f_epochs f))).

(** An upper bound on the events of a walk at a stage of its current probe. *)
Definition walk_events f (stage remaining : nat) : nat :=
  match f_walk f with
  | Walking_Candidates w => 8 + 4 * ahead w + stage + later f
  | Walking_Remaining r => 2 * remaining_left r + remaining
  | Walking_None => 57 + later f
  end.

(** An upper bound on the events a fill waiting for the answer to [a] may still see. *)
Definition events_left f (a : Action) : nat :=
  match a with
  | Action_Done _ | Action_Idle => 0
  | Action_Publish _ => 1
  | Action_Origin _ => 6
  | Action_Rank Ranking_Authority _ => 7
  | Action_Rank Ranking_Current _ => 61 + later f
  | Action_Rank Ranking_Previous _ => 60 + later f
  | Action_Hints => 59 + later f
  | Action_Hedge _ _ _ => 58 + later f
  | Action_Probe _ => walk_events f 4 1
  | Action_Validate | Action_Refresh => walk_events f 3 0
  | Action_Rank Ranking_Fallback _ => walk_events f 2 0
  | Action_Batch _ _ _ => walk_events f 4 0
  | Action_Wait _ => walk_events f 5 0
  end.

(** ** Running the methods *)

Definition runs {A} (m : FM A) f b (Q : result A Error → Fill → AcquisitionBudget → Prop) : Prop :=
  ∃ r f' b', m f b = Some (r, (f', b')) ∧ Q r f' b'.

Lemma runs_bind {A B} (m : FM A) (k : A → FM B) f b Q :
  runs m f b (λ r f' b', match r with Ok x => runs (k x) f' b' Q | Err e => Q (Err e) f' b' end) →
  runs (fbind m k) f b Q.
Proof.
  intros (r & f' & b' & Hm & Hk). unfold runs, fbind. rewrite Hm. destruct r as [x|e]; [exact Hk|].
  by exists (Err e), f', b'.
Qed.

Lemma runs_mono {A} (m : FM A) f b (Q Q' : result A Error → Fill → AcquisitionBudget → Prop) :
  runs m f b Q → (∀ r f' b', Q r f' b' → Q' r f' b') → runs m f b Q'.
Proof. intros (r & f' & b' & Hm & HQ) HQ'. exists r, f', b'. split; [done|by apply HQ']. Qed.

Lemma runs_ret {A} (x : A) f b Q : Q (Ok x) f b → runs (fret x) f b Q.
Proof. intros H. by exists (Ok x), f, b. Qed.

Lemma runs_err {A} e f b (Q : result A Error → _ → _ → Prop) : Q (Err e) f b → runs (ferr e) f b Q.
Proof. intros H. by exists (Err e), f, b. Qed.

Lemma runs_get f b Q : Q (Ok f) f b → runs fget f b Q.
Proof. intros H. by exists (Ok f), f, b. Qed.

Lemma runs_budget f b Q : Q (Ok b) f b → runs fbudget f b Q.
Proof. intros H. by exists (Ok b), f, b. Qed.

Lemma runs_set g f b Q : Q (Ok ()) (g f) b → runs (fset g) f b Q.
Proof. intros H. by exists (Ok ()), (g f), b. Qed.

Lemma runs_on_walk {A} w m f b (Q : result A Error → _ → _ → Prop) r w' b' :
  m w b = Some (r, (w', b')) →
  Q r (mkFill (f_config f) (f_plan f) (f_ranked f) (f_epochs f) (Walking_Candidates w') (f_probe f) (f_signed f)
         (f_ending f) (f_out f)) b' →
  runs (on_walk w m) f b Q.
Proof. intros Hm HQ. unfold runs, on_walk. rewrite Hm. simpl. by do 3 eexists. Qed.

(** One step through the monad: bind, read or write the state. *)
Ltac fstep :=
  lazymatch goal with
  | |- runs (fbind _ _) _ _ _ => apply runs_bind
  | |- runs (fret _) _ _ _ => apply runs_ret
  | |- runs (ferr _) _ _ _ => apply runs_err
  | |- runs fget _ _ _ => apply runs_get
  | |- runs fbudget _ _ _ => apply runs_budget
  | |- runs (fset _) _ _ _ => apply runs_set
  | |- runs (fplan _) _ _ _ => apply runs_set
  | |- runs (franked _) _ _ _ => apply runs_set
  | |- runs (fepochs _) _ _ _ => apply runs_set
  | |- runs (fwalk _) _ _ _ => apply runs_set
  | |- runs (fprobe _) _ _ _ => apply runs_set
  | |- runs (fsigned _) _ _ _ => apply runs_set
  | |- runs (fending _) _ _ _ => apply runs_set
  | |- runs (fout _) _ _ _ => apply runs_set
  | |- runs (note _) _ _ _ => apply runs_set
  | |- runs (out_outcome _) _ _ _ => apply runs_set
  | |- runs (out_silence _) _ _ _ => apply runs_set
  end.
Ltac frun := repeat (fstep; cbn beta iota).

(** The result of a method of the fill: an action with a bounded number of events to come, or
    an error that still holds the credits. *)
Definition post b0 (K : nat) (r : result Action Error) f b : Prop :=
  match r with
  | Ok a => fill_ok b0 f b a ∧ (events_left f a ≤ K)%nat
  | Err _ => held b0 (f_walk f) b
  end.

Ltac fsimp :=
  cbn [f_config f_plan f_ranked f_epochs f_walk f_probe f_signed f_ending f_out
       pl_hedge pl_ranking pl_hedge_refresh pl_bounded pl_continuation
       wk_version wk_owners wk_rank wk_order wk_members wk_lineage wk_lineage_targets wk_demoted wk_handoff
       wk_successors wk_granted wk_previous wk_rank0
       ep_retried ep_fell_back ep_fallback_denied ep_waits ep_waiting ep_stale ep_latest
       en_evidence en_origin_rank en_origin_pending en_source en_funding en_remaining_end set_granted
       primary_consumed primary_outcome bounded_routes] in *.

(** Run to the end, splitting on the conditions met on the way. *)
Ltac fgo :=
  repeat first
    [ fstep; cbn beta iota; fsimp
    | lazymatch goal with
      | |- runs (if ?c then _ else _) _ _ _ => lazymatch type of c with bool => destruct c end
      end ].

(** Unfold the invariant of a result. *)
Ltac fleaf :=
  unfold post, fill_ok, action_ok, walking_ok, authorized, ranked_inv, events_left, walk_events, later in *; fsimp.

Ltac fdone := repeat match goal with |- _ ∧ _ => split end; first [done | lia | tauto | idtac].

Lemma fill_end_ok b0 f b w e K :
  f_walk f = Walking_Candidates w → cw_pending w = None → held b0 Walking_None b →
  primary_consumed (pl_continuation (f_plan f)) = false → ranked_inv f →
  match e with
  | End_Copy => (1 ≤ K)%nat
  | End_StaleMembership => (61 + 4 * (2 - N.to_nat (ep_waits (f_epochs f))) ≤ K)%nat
  | End_Origin r evidence =>
      wk_rank (f_ranked f) = Some r ∧ (pl_bounded (f_plan f) = false → length evidence = r) ∧ (7 ≤ K)%nat
  | _ => True
  end →
  runs (fill_end e) f b (post b0 K).
Proof.
  intros Hw Hp Hh Hc Hr He. unfold fill_end. fgo. rewrite Hw. fgo; (destruct e as [| |r evidence| |funding]);
    unfold walked, rank_next, publish; fgo; fleaf; fdone.
Qed.

(** The caller's budget and a planned probe's child hold what the caller held. *)
Lemma held_splits b0 b b' w p : held b0 Walking_None b → cw_pending w = Some p →
  (if pd_granted p then b' = b ∧ pd_bounded p = Some (granted_budget (b_deadline b)) else splits b b' (pd_bounded p)) →
  held b0 (Walking_Candidates w) b'.
Proof.
  intros (G1 & G2 & H1 & H2 & H3 & H4) Hp Hs. unfold held, owed_walk in *. rewrite Hp. simpl in *.
  destruct (pd_granted p); [destruct Hs as [-> _]; simpl; lia|].
  unfold splits, credit_of, attempt_credit, link_credit, child_deadline in *.
  destruct (pd_bounded p) as [child|]; [|subst b'; simpl; lia]. destruct Hs as (? & ? & ? & ? & ? & ? & ? & ?). lia.
Qed.

(** [walking_ok] of a walk that goes on under the same configuration. *)
Definition walk_matches f w : Prop :=
  let c := cw_config w in
  wc_rank c = wk_rank (f_ranked f) ∧ wc_owners c = length (wk_owners (f_ranked f)) ∧
  wc_handoff c = length (wk_handoff (f_ranked f)) ∧
  bounded_routes (wc_continuation c) = pl_bounded (f_plan f) ∧
  (is_Some (wc_rank c) → primary_consumed (wc_continuation c) = false).

Lemma owner_dest f probe : (pr_canonical probe < length (wk_owners (f_ranked f)))%nat → is_Some (fill_dest f probe).
Proof.
  intros Hlt. unfold fill_dest, checked_sub, len.
  destruct (N.leb_spec (N.of_nat (length (wk_owners (f_ranked f)))) (N.of_nat (pr_canonical probe))); [lia|].
  by apply fmap_is_Some, lookup_lt_is_Some.
Qed.

(** An addressed probe has a destination: an owner, a handoff target or the helper. *)
Lemma addressed_dest f w probe : walk_matches f w → addressed (cw_config w) probe → is_Some (fill_dest f probe).
Proof.
  intros (Hr & Ho & Hh & _) Ha. unfold addressed in Ha. rewrite Hr, Ho, Hh in Ha.
  destruct (Nat.lt_ge_cases (pr_canonical probe) (length (wk_owners (f_ranked f)))) as [Hlt|Hge]; [by apply owner_dest|].
  unfold fill_dest, checked_sub, len.
  destruct (N.leb_spec (N.of_nat (length (wk_owners (f_ranked f)))) (N.of_nat (pr_canonical probe))); [|lia].
  destruct (wk_rank (f_ranked f)) as [r|]; simpl; [|done].
  destruct Ha as [?|[[? _]|[_ ?]]]; [lia|done|]. apply fmap_is_Some, lookup_lt_is_Some. lia.
Qed.

Lemma walk_next_runs b0 f b w : f_walk f = Walking_Candidates w → walk_inv w → ready w → (ahead w ≤ 11)%nat →
  ranked_inv f → walk_matches f w → held b0 Walking_None b → primary_consumed (pl_continuation (f_plan f)) = false →
  runs fill_next f b (post b0 (8 + 4 * ahead w + 4 + later f)).
Proof.
  intros Hw Hi Hready Ha Hr Hm Hh Hc. unfold fill_next. fgo. rewrite Hw. fgo.
  destruct (walk_next_ok w b Hi Hready) as ([res [w' b']] & Hx & Hcfg & _ & Hok).
  eapply runs_on_walk; [exact Hx|]. destruct res as [step|e]; cbn beta iota.
  2: { destruct Hok as (_ & _ & -> & Hp). fleaf. by apply held_none. }
  unfold walk_matches in Hm. rewrite <- Hcfg in Hm. destruct step as [probe|probes|e]; cbn beta iota.
  - destruct Hok as (Hi' & Ha' & _ & p & Hp & Hs & _ & Hadr). fgo. pose proof (held_splits b0 b b' w' p Hh Hp Hs).
    assert (Hdest : is_Some (fill_dest f probe)) by (apply (addressed_dest f w'); [done|by rewrite Hcfg]).
    fleaf. fdone. left. by exists w', p.
  - destruct Hok as (Hi' & Ha' & _ & Hp & -> & Hne & Hb & _ & h & Hh1 & Hh2). destruct probes as [|first probes]; [done|]. fgo.
    specialize (Hh2 0%nat first eq_refl). rewrite <- Hcfg in Hh1, Hh2. destruct Hm as (? & ? & ? & ? & ?).
    fleaf. fdone; [by apply held_none|]. exists w'. split; [done|]. by rewrite Hb.
  - destruct Hok as (-> & Hp & Hend). eapply fill_end_ok; [done|done|done|done|exact Hr|].
    destruct e as [| |r evidence| |funding]; try done. fsimp. destruct Hend as (Hrank & _ & -> & Hlen).
    rewrite Hcfg in *. destruct Hm as (Hm1 & _ & _ & Hm4 & Hm5). split_and!; [congruence| |lia].
    intros Hbr. apply Hlen; [congruence|]. apply Hm5. by rewrite Hrank.
Qed.

Lemma walk_config_ok f granted continuation : ranked_inv f → config_ok (walk_config f granted continuation).
Proof. intros [Hl Hr]. split; [done|]. done. Qed.

Lemma start_walk_runs b0 f b : f_walk f = Walking_None → ranked_inv f →
  (is_Some (wk_rank (f_ranked f)) → primary_consumed (pl_continuation (f_plan f)) = false) → held b0 Walking_None b →
  runs start_walk f b (post b0 (56 + later f)).
Proof.
  intros Hw Hr Hc Hh. unfold start_walk. fgo.
  set (c := walk_config f (fill_granted f) (pl_continuation (f_plan f))).
  destruct (walk_new_inv c) as (Hi & Hready & Hcc & Ha); [by apply walk_config_ok|].
  eapply runs_mono; [eapply (walk_next_runs b0 _ b (walk_new c)); try done|].
  - unfold walk_matches. rewrite Hcc. fsimp. by split_and!.
  - intros r f' b'. unfold post. destruct r as [a|e]; [|done]. intros [? Hle]. split; [done|].
    etransitivity; [exact Hle|]. unfold later. fsimp. lia.
Qed.

Lemma post_weaken b0 K K' r f b : post b0 K r f b → (K ≤ K')%nat → post b0 K' r f b.
Proof. unfold post. destruct r; [|done]. intros [? ?] ?. split; [done|lia]. Qed.

Lemma walk_or_hedge_runs b0 f b : f_walk f = Walking_None → ranked_inv f →
  primary_consumed (pl_continuation (f_plan f)) = false → held b0 Walking_None b →
  runs walk_or_hedge f b (post b0 (58 + later f)).
Proof.
  intros Hw Hr Hc Hh. unfold walk_or_hedge. fgo.
  { eapply runs_mono; [by apply (start_walk_runs b0)|]. intros r f' b' Hp. eapply post_weaken; [exact Hp|lia]. }
  unfold hedge_eligible. destruct (is_page f && _ && _ && _) eqn:He.
  2: { fgo. fleaf. rewrite Hw. fdone. }
  apply andb_true_iff in He as [He Hz%Nat.eqb_eq]. apply andb_true_iff in He as [He Hl2%Nat.leb_le].
  apply andb_true_iff in He as [_ Hn]. destruct (wk_rank (f_ranked f)) as [r|] eqn:Hrank; [done|].
  pose proof Hr as [Hl Hord]. rewrite Hrank in Hord.
  assert (Hlk : ∀ i, is_Some (wk_owners (f_ranked f) !! default 0%nat (order_get (wk_order (f_ranked f)) i))).
  { intros i. apply lookup_lt_is_Some. destruct (order_get _ i) as [c|] eqn:Hg; simpl; [|lia].
    apply (order_of_get _ _ _ _ Hord) in Hg. lia. }
  destruct (Hlk 0%nat) as [a Ha], (Hlk 1%nat) as [a' Ha']. rewrite Ha, Ha'. fgo. fleaf. rewrite Hw. fdone.
Qed.

Lemma fill_targets_runs b0 f b : f_walk f = Walking_None → ranked_inv f →
  primary_consumed (pl_continuation (f_plan f)) = false → held b0 Walking_None b →
  runs fill_targets f b (post b0 (59 + later f)).
Proof.
  intros Hw Hr Hc Hh. unfold fill_targets. fgo; [fleaf; rewrite Hw; fdone|].
  eapply runs_mono; [by apply (walk_or_hedge_runs b0)|]. intros r f' b' Hp. eapply post_weaken; [exact Hp|lia].
Qed.

Lemma fill_ranked_runs b0 f b ranked : ranked_ok ranked → f_walk f = Walking_None →
  primary_consumed (pl_continuation (f_plan f)) = false → held b0 Walking_None b →
  runs (fill_ranked ranked) f b (post b0 (60 + later f)).
Proof.
  intros Hro Hw Hc Hh. unfold fill_ranked. fgo; [fleaf; by rewrite Hw|].
  destruct (match rk_rank ranked with Some rank => _ | None => _ end) as [lineage demoted]. fgo.
  match goal with |- runs _ ?f1 b _ => set (f1' := f1) end.
  assert (Hr1 : ranked_inv f1').
  { unfold f1', ranked_inv, ranked_ok, ranking_ok in *. fsimp. destruct Hro as [Hl Hro]. split; [done|].
    destruct (rk_rank ranked); simpl; exact Hro. }
  assert (Hlat : later f1' = later f) by done.
  assert (Htargets : runs fill_targets f1' b (post b0 (60 + later f))).
  { eapply runs_mono; [by apply (fill_targets_runs b0)|]. intros r f' b' Hp. eapply post_weaken; [exact Hp|rewrite Hlat; lia]. }
  destruct (rk_rank ranked) as [rank|]; [|done]. destruct (is_page f); [|done].
  destruct (checked_sub (rk_version ranked) 1) as [previous|]; [|done].
  unfold rank_next. fgo. unfold f1' in *. fleaf. rewrite Hw in *. fdone.
Qed.

(** ** Completing a probe *)

(** The events left once the outstanding probe is reported. *)
Definition reported_events f : nat :=
  match f_walk f with
  | Walking_Candidates w => 8 + 4 * ahead w + later f
  | Walking_Remaining r => 2 * remaining_left r - 1
  | Walking_None => 0
  end.

(** A stale answer that ends the walk needs an epoch left. *)
Definition stale_ok f (outcome : Outcome) : Prop :=
  outcome = Outcome_StaleMembership → ∀ w p, f_walk f = Walking_Candidates w → cw_pending w = Some p →
    pd_handoff p = true ∨ pd_previous p = true ∨ ep_retried (f_epochs f) = false.

Lemma walking_matches f w : f_walk f = Walking_Candidates w → walking_ok f →
  walk_inv w ∧ (ahead w ≤ 11)%nat ∧ ranked_inv f ∧ walk_matches f w.
Proof. intros Hw Hok. unfold walking_ok in Hok. rewrite Hw in Hok. unfold walk_matches. tauto. Qed.

Lemma candidate_complete_runs b0 f b w p outcome skipped : bounded_budget b0 →
  f_walk f = Walking_Candidates w → cw_pending w = Some p → walking_ok f → held b0 (f_walk f) b →
  primary_consumed (pl_continuation (f_plan f)) = false → stale_ok f outcome →
  runs (let! e := on_walk w (λ w b, walk_complete w b outcome) in fill_after e skipped) f b
    (post b0 (8 + 4 * ahead w + later f)).
Proof.
  intros Hb Hw Hp Hok Hh Hc Hst. destruct (walking_matches f w Hw Hok) as (Hi & Ha & Hr & Hm). rewrite Hw in Hh.
  destruct (walk_complete_ok w b p outcome Hi Hp) as ([res [w' b']] & Hx & Hcfg & Hp' & Hb' & Hre & Hres).
  { by eapply held_fits. }
  pose proof (held_reunited b0 w b p w' b' Hp Hh Hre Hp') as Hh'.
  assert (Hh0 : held b0 Walking_None b') by by apply (held_none b0 b' w').
  unfold walk_matches in Hm. rewrite <- Hcfg in Hm.
  assert (Ha1 : (1 ≤ ahead w)%nat).
  { destruct (wi_pending _ Hi p Hp) as (_ & _ & _ & _ & Hv & _). unfold ahead. rewrite Hp.
    destruct (pd_helper p); [lia|]. destruct (Hv eq_refl). lia. }
  fstep. eapply runs_on_walk; [exact Hx|]. destruct res as [[e|]|]; [..|done]; cbn beta iota.
  - unfold fill_after. eapply fill_end_ok; [done|done|done|done|exact Hr|].
    destruct Hres as [[-> _]|[(-> & -> & Hnh & Hnp)|[-> _]]]; [lia| |done]. fsimp.
    destruct (Hst eq_refl w p Hw Hp) as [?|[?|Hret]]; [congruence..|]. unfold later. rewrite Hret. lia.
  - destruct Hres as (Hi' & Hready & Ha' & _). unfold fill_after. fgo.
    all: eapply runs_mono; [eapply (walk_next_runs b0 _ b' w'); try done; lia|].
    all: intros r f' b'' Hpost; eapply post_weaken; [exact Hpost|unfold later; fsimp; lia].
Qed.

Lemma remaining_next_runs b0 f b r : f_walk f = Walking_Remaining r → rw_pending r = false → walking_ok f →
  held b0 Walking_None b → primary_consumed (pl_continuation (f_plan f)) = false →
  runs fill_next f b (post b0 (2 * remaining_left r + 1)).
Proof.
  intros Hw Hp Hok Hh Hc. unfold fill_next. fgo. rewrite Hw. unfold next_probe. rewrite Hp.
  destruct (Nat.leb_spec (rw_owners r) (rw_index r)) as [Hle|Hlt].
  - fgo. unfold remaining_ended. fgo. by destruct (rw_transient r); fgo.
  - fgo. fleaf. rewrite Hw in Hok. unfold remaining_left in *. fsimp. fdone.
    + right. eexists. split; [done|]. done.
    + apply owner_dest. simpl. lia.
Qed.

Lemma walk_complete_runs b0 f b outcome : bounded_budget b0 → probing f → walking_ok f → held b0 (f_walk f) b →
  primary_consumed (pl_continuation (f_plan f)) = false → stale_ok f outcome →
  runs (fill_walk_complete outcome) f b (post b0 (reported_events f)).
Proof.
  intros Hb0 [(w & p & Hw & Hp)|(r & Hw & Hp & Hlt)] Hok Hh Hc Hst; unfold fill_walk_complete, reported_events; fgo; rewrite Hw.
  - by eapply candidate_complete_runs.
  - rewrite Hw in Hh. unfold remaining_complete. rewrite Hp. simpl negb. cbn iota.
    assert (Hnext : ∀ t f1 b1, f_walk f1 = Walking_Remaining (mkRemaining (rw_owners r) (S (rw_index r)) t false) →
      f_plan f1 = f_plan f → f_ranked f1 = f_ranked f → held b0 Walking_None b1 →
      runs fill_next f1 b1 (post b0 (2 * remaining_left r - 1))).
    { intros t f1 b1 Hw1 Hpl Hrk Hh1. unfold walking_ok in Hok. rewrite Hw in Hok. destruct Hok as (Hrem & Hri & Hown).
      eapply runs_mono; [eapply (remaining_next_runs b0 f1 b1 _ Hw1); try done|].
      - unfold walking_ok, ranked_inv in *. rewrite Hw1, Hrk. unfold remaining_left in *. simpl. split_and!; [lia|done|done].
      - by rewrite Hpl.
      - intros x f' b' Hpost. eapply post_weaken; [exact Hpost|]. unfold remaining_left; simpl. lia. }
    assert (Hnote : ∀ b1, held b0 Walking_None b1 → held b0 Walking_None (note_route_failure b1)) by done.
    destruct outcome; (apply runs_bind; eexists _, _, _; split; [reflexivity|]; cbn beta iota).
    all: try (eapply Hnext; [reflexivity|done|done|done]).
    unfold remaining_ended, publish. fgo. fleaf. unfold remaining_left. fdone.
Qed.

(** ** Evidence does not steer the fill *)

Definition set_out f (o : Evidence) : Fill :=
  mkFill (f_config f) (f_plan f) (f_ranked f) (f_epochs f) (f_walk f) (f_probe f) (f_signed f) (f_ending f) o.

(** Whether a stale answer to the outstanding probe must not refresh. *)
Definition no_refresh f : bool :=
  match f_walk f with
  | Walking_Candidates w => match cw_pending w with Some p => pd_handoff p || pd_previous p | None => false end
  | _ => false
  end.

Lemma pending_runs f b Q : (∀ o, Q (Ok (no_refresh f)) (set_out f o) b) → runs fill_pending f b Q.
Proof.
  intros HQ. unfold fill_pending, no_refresh in *. fgo. destruct (f_walk f) as [|w|r] eqn:Hw.
  - fstep. specialize (HQ (f_out f)). unfold set_out in HQ. rewrite Hw in HQ. destruct f; fsimp; by subst.
  - fgo. match goal with |- Q _ (mkFill _ _ _ _ _ _ _ _ ?o) _ => specialize (HQ o) end.
    unfold set_out in HQ. by destruct (cw_pending w).
  - fstep. specialize (HQ (f_out f)). unfold set_out in HQ. rewrite Hw in HQ. destruct f; fsimp; by subst.
Qed.

(** A fill that differs in its evidence and signature flag only. *)
Definition same_fill f f' : Prop :=
  f_config f' = f_config f ∧ f_plan f' = f_plan f ∧ f_ranked f' = f_ranked f ∧ f_epochs f' = f_epochs f ∧
  f_walk f' = f_walk f ∧ f_probe f' = f_probe f ∧ f_ending f' = f_ending f.

Lemma complete_runs b0 f f1 b outcome : same_fill f f1 → bounded_budget b0 → probing f → walking_ok f →
  held b0 (f_walk f) b → primary_consumed (pl_continuation (f_plan f)) = false → stale_ok f outcome →
  runs (fill_complete outcome) f1 b (post b0 (reported_events f)).
Proof.
  intros (E1 & E2 & E3 & E4 & E5 & E6 & E7) Hb Hp Hok Hh Hc Hst. unfold fill_complete.
  assert (Hrun : ∀ f2, same_fill f f2 → runs (fill_walk_complete outcome) f2 b (post b0 (reported_events f))).
  { intros f2 (D1 & D2 & D3 & D4 & D5 & D6 & D7).
    assert (reported_events f = reported_events f2) as -> by (unfold reported_events, later; by rewrite D5, D4).
    apply walk_complete_runs; [done|..]; unfold probing, walking_ok, ranked_inv, stale_ok in *; by rewrite ?D2, ?D3, ?D4, ?D5. }
  fstep. apply pending_runs. intros o. fgo; apply Hrun; by unfold same_fill, set_out; fsimp.
Qed.

(** ** Replies *)

Lemma answer_runs b0 f b probe kind signed remaining Q :
  bounded_budget b0 → held b0 (f_walk f) b →
  (remaining = match f_walk f with Walking_Remaining _ => true | _ => false end) →
  (∀ e f', same_fill f f' → Q (Err e) f' b) →
  (∀ outcome, (outcome = Outcome_StaleMembership → no_refresh f = true) → ∀ f', same_fill f f' → Q (Ok (inr outcome)) f' b) →
  (∀ f', same_fill f f' → Q (Ok (inl Action_Validate)) f' b) →
  (remaining = false → no_refresh f = false → ∀ f', f_config f' = f_config f →
    f_plan f' = mkPlan (pl_hedge (f_plan f)) (pl_ranking (f_plan f)) false (pl_bounded (f_plan f)) (pl_continuation (f_plan f)) →
    f_ranked f' = f_ranked f → f_epochs f' = f_epochs f → f_walk f' = f_walk f → Q (Ok (inl Action_Refresh)) f' b) →
  runs (answer_outcome probe kind signed (no_refresh f) remaining) f b Q.
Proof.
  intros Hb Hh Hrem Herr Hout Hval Href. unfold answer_outcome. fgo.
  assert (Hsame : same_fill f f) by by unfold same_fill.
  destruct kind; fgo; try (by apply Hout); try (by apply Hval); try (by apply Herr); try (by apply Href).
  all: unfold classify; try (destruct (fc_operation (f_config f)) as [| |[]| |]; simpl;
         try destruct (bool_decide _); simpl; fgo; try (by apply Hout); by apply Herr).
  all: simpl; fgo; try (by apply Hout); by apply Herr.
Qed.

Lemma same_fill_ok b0 f f' b a : same_fill f f' → action_ok f a → walking_ok f → held b0 (f_walk f) b →
  primary_consumed (pl_continuation (f_plan f)) = false → fill_ok b0 f' b a ∧ events_left f' a = events_left f a.
Proof.
  intros (E1 & E2 & E3 & E4 & E5 & E6 & E7) Ha Hw Hh Hc.
  unfold fill_ok, action_ok, walking_ok, authorized, probing, visiting, ranked_inv, fill_dest, events_left, walk_events, later in *.
  by rewrite E1, E2, E3, E4, E5, E6, E7.
Qed.

Lemma reported_le f : (reported_events f ≤ walk_events f 3 0)%nat.
Proof. unfold reported_events, walk_events. destruct (f_walk f); lia. Qed.

Lemma probing_stale f outcome : probing f → (outcome = Outcome_StaleMembership → no_refresh f = true) → stale_ok f outcome.
Proof.
  intros _ Hn Ho w p Hw Hp. specialize (Hn Ho). unfold no_refresh in Hn. rewrite Hw, Hp in Hn.
  apply orb_true_iff in Hn as [?|?]; [by left|by right; left].
Qed.

Lemma reply_runs b0 f b reply probe : bounded_budget b0 → fill_ok b0 f b (Action_Probe probe) →
  runs (fill_reply reply) f b (post b0 (walk_events f 3 0)).
Proof.
  intros Hb (Hh & Hok & Hc & Hprobe & Hp & _). unfold fill_reply. fgo. rewrite Hprobe. fstep. apply pending_runs. intros o.
  unfold set_out. cbn beta iota.
  assert (Hcomplete : ∀ outcome f1, (outcome = Outcome_StaleMembership → no_refresh f = true) → same_fill f f1 →
    runs (fill_complete outcome) f1 b (post b0 (walk_events f 3 0))).
  { intros outcome f1 Hst Hs. eapply runs_mono; [eapply (complete_runs b0 f f1 b outcome); try done|].
    - by apply probing_stale.
    - intros r f' b' Hpost. eapply post_weaken; [exact Hpost|apply reported_le]. }
  destruct reply as [kind signed| |error sent scope_live]; fgo.
  1,2: (match goal with |- runs _ ?f1 _ _ => set (f1' := f1) end; change (no_refresh f) with (no_refresh f1');
    apply (answer_runs b0); [done|done|done|..]).
  1,5: (intros e f' Hs; fleaf; destruct Hs as (_ & _ & _ & _ & E & _); rewrite E; done).
  1,4: (intros outcome Hst f' Hs; cbn beta iota; apply Hcomplete; [done|]; unfold same_fill, f1' in *; fsimp; tauto).
  1,3: (intros f' Hs; cbn beta iota; fstep; unfold post; destruct (same_fill_ok b0 f f' b Action_Validate) as [H1 H2];
    [unfold same_fill, f1' in *; fsimp; tauto|done|done|done|done|split; [done|by rewrite H2]]).
  1,2: (intros Hrem Hnr f' D1 D2 D3 D4 D5; cbn beta iota; fstep; unfold f1' in *; fleaf; unfold probing, visiting, no_refresh in *;
    rewrite D2, D3, D4, D5; fsimp; destruct Hp as [(w & p & Hw & Hpp)|(r & Hw & _)]; rewrite Hw in *; [|done];
    rewrite Hpp in Hnr; apply orb_false_iff in Hnr as [? ?]; fdone; by exists w, p).
  1,2: by apply Hcomplete.
  match goal with |- runs (match ?x with _ => _ end) _ _ _ => destruct x as [outcome|] end; fgo; try (by apply Hcomplete).
  2,3: done.
  eapply runs_mono; [apply (walk_complete_runs b0); try done|].
  intros r f' b' Hpost. eapply post_weaken; [exact Hpost|apply (reported_le f)].
Qed.

(** ** Stale destinations *)

(** The bound shared by a retried and a skipped destination. *)
Definition skip_events f : nat := match f_walk f with Walking_Candidates w => 9 + 4 * ahead w + later f | _ => 0 end.

Lemma skip_runs b0 f b : bounded_budget b0 → visiting f → walking_ok f → held b0 (f_walk f) b →
  primary_consumed (pl_continuation (f_plan f)) = false → runs fill_skip f b (post b0 (skip_events f)).
Proof.
  intros Hb (w & p & Hw & Hp & _) Hok Hh Hc. unfold fill_skip, count_stale, skip_events.
  unfold walking_ok in Hok. rewrite Hw in *.
  fgo; apply pending_runs; intros o; unfold set_out; fgo; rewrite Hw.
  all: eapply runs_mono; [eapply (candidate_complete_runs b0 _ b w p); try done; by rewrite Hw in Hh|].
  all: intros r f' b' Hpost; eapply post_weaken; [exact Hpost|unfold later; fsimp; lia].
Qed.

Lemma retry_ok b0 w b p : bounded_budget b0 → walk_inv w → cw_pending w = Some p → pd_handoff p = false →
  held b0 (Walking_Candidates w) b → ∃ w' b', retry_pending w b = (Ok (), (w', b')) ∧ w' = walk_pending w None ∧
    walk_inv w' ∧ ready w' ∧ ahead w' = ahead w ∧ held b0 (Walking_Candidates w') b'.
Proof.
  intros Hb Hi Hp Hn Hh. destruct (wi_pending _ Hi p Hp) as (Hb0 & Hd & Hhelp & Hgr & _).
  assert (pd_granted p = false) as Hg by (destruct (pd_granted p); [by destruct (Hgr eq_refl) as (_ & ? & _); congruence|done]).
  assert (pd_helper p = false) as Hnh by (destruct (pd_helper p); [by destruct (Hhelp eq_refl); congruence|done]).
  pose proof (held_fits b0 w b p Hb Hp Hh) as Hf. destruct (reunite_opt_ok b _ Hf) as (b' & Hre & Hr).
  unfold retry_pending. rewrite Hp. simpl. rewrite (owed_bounded p Hg) in *. rewrite Hre. do 2 eexists. split; [done|]. split; [done|].
  split_and!; [|done| |].
  - constructor; simpl; try apply Hi; done.
  - unfold ahead. simpl. by rewrite Hp, Hnh.
  - apply (held_reunited b0 w b p); try done. by rewrite (owed_bounded p Hg).
Qed.

Lemma wait_runs b0 f b now Q : bounded_budget b0 → visiting f → walking_ok f → held b0 (f_walk f) b →
  primary_consumed (pl_continuation (f_plan f)) = false → Q (Ok None) f b →
  (∀ wait f' b', fill_ok b0 f' b' (Action_Wait wait) → (events_left f' (Action_Wait wait) ≤ skip_events f)%nat →
     Q (Ok (Some wait)) f' b') →
  runs (fill_wait now) f b Q.
Proof.
  intros Hb (w & p & Hw & Hp & Hn & _) Hok Hh Hc Hnone Hsome. unfold fill_wait. fgo; [done|]. rewrite Hw.
  destruct (stale_wait _ _ _) as [wait|] eqn:Hwait; fgo; [|done].
  assert (Hwaits : ep_waits (f_epochs f) < 2).
  { unfold stale_wait in Hwait. destruct (_ || _) eqn:Ho; [done|]. apply orb_false_iff in Ho as [Ho%N.leb_gt _]. exact Ho. }
  destruct (walking_matches f w Hw Hok) as (Hi & Ha & Hr & Hm). rewrite Hw in Hh.
  destruct (retry_ok b0 w b p Hb Hi Hp Hn Hh) as (w' & b' & Hx & Hw' & Hi' & Hready & Ha' & Hh').
  eapply runs_on_walk; [by rewrite Hx|]. cbn beta iota. fgo. apply Hsome.
  - fleaf. fdone; [subst w'; by destruct Hm as (? & ? & ? & ? & ?)|subst w'; by apply Hm..|]. by exists w'.
  - unfold events_left, walk_events, skip_events, later. fsimp. rewrite Hw, Ha'. unfold saturating_add.
    rewrite N.min_l by (unfold U8_MAX; lia). lia.
Qed.

(** The result of a fill that a method improves on. *)
Definition improves b0 f (a : Action) := post b0 (pred (events_left f a)).

Lemma wait_or_skip_runs b0 f b now K (k : N → FM Action) : bounded_budget b0 → visiting f → walking_ok f →
  held b0 (f_walk f) b → primary_consumed (pl_continuation (f_plan f)) = false → (skip_events f ≤ K)%nat →
  (∀ wait f' b', post b0 K (Ok (Action_Wait wait)) f' b' → runs (k wait) f' b' (post b0 K)) →
  runs (fill_wait now) f b (λ r f' b',
    match r with
    | Ok x => runs match x with Some wait => k wait | None => fill_skip end f' b' (post b0 K)
    | Err e => post b0 K (Err e) f' b'
    end).
Proof.
  intros Hb Hv Hok Hh Hc HK Hk. apply (wait_runs b0); try done; cbn beta iota.
  - eapply runs_mono; [by apply (skip_runs b0)|]. intros r f' b' Hpost. by eapply post_weaken.
  - intros wait f' b' Hok' Hle. apply Hk. split; [exact Hok'|lia].
Qed.

Lemma membership_runs b0 f b latest recent now : bounded_budget b0 → fill_ok b0 f b Action_Refresh →
  (recent = true → 0 < wk_version (f_ranked f)) →
  runs (fill_membership latest recent now) f b (improves b0 f Action_Refresh).
Proof.
  intros Hb (Hh & Hok & Hc & Ha) Hrec. unfold improves, fill_membership, stale_action, action_ok in *. fgo.
  destruct latest as [latest|]; cbn [ok_or result_bind].
  2: { destruct (pl_hedge_refresh (f_plan f)); fgo; [done|]. apply pending_runs. intros o. unfold set_out. by fgo. }
  destruct (pl_hedge_refresh (f_plan f)).
  - destruct Ha as [Hw Hr]. rewrite Hw in Hh. destruct (negb (ep_retried (f_epochs f)) && _) eqn:Hn.
    + apply andb_true_iff in Hn as [Hn%negb_true_iff _]. unfold rank_next. fgo. fleaf. rewrite Hw, Hn. fdone.
    + fgo. eapply runs_mono; [by apply (start_walk_runs b0)|]. intros r f' b' Hpost. eapply post_weaken; [exact Hpost|].
      unfold events_left, walk_events, later. rewrite Hw. fsimp. lia.
  - assert (Hv := Ha). destruct Ha as (w & p & Hw & Hp & Hn1 & Hn2). destruct (negb (ep_retried (f_epochs f)) && _) eqn:Hn.
    + apply andb_true_iff in Hn as [Hn%negb_true_iff _]. fgo.
      match goal with |- runs _ ?f1 _ _ => eapply runs_mono; [apply (complete_runs b0 f1); try done|] end.
      * left. by exists w, p.
      * intros _ w' p' _ _. by right; right.
      * intros r f' b' Hpost. eapply post_weaken; [exact Hpost|].
        unfold reported_events, events_left, walk_events, later. fsimp. rewrite Hw. lia.
    + assert (HK : (skip_events f ≤ pred (events_left f Action_Refresh))%nat).
      { unfold skip_events, events_left, walk_events. rewrite Hw. lia. }
      destruct (fill_has f STALE_FALLBACK && _ && _) eqn:Hfb; [|destruct (is_some (wk_rank (f_ranked f))); fgo].
      * apply andb_true_iff in Hfb as [_ Hfb]. unfold previous_fallback in Hfb. repeat (apply andb_true_iff in Hfb as [Hfb ?]).
        destruct (wk_rank (f_ranked f)) eqn:Hrank; [done|]. destruct recent; [|done].
        destruct (ep_retried (f_epochs f)) eqn:Hret; [done|]. specialize (Hrec eq_refl).
        unfold checked_sub. destruct (N.leb_spec 1 (wk_version (f_ranked f))); [|lia]. unfold rank_next. fgo.
        fleaf. unfold visiting in *. rewrite Hw in *. fdone; by rewrite ?Hrank in *.
      * eapply runs_mono; [by apply (skip_runs b0)|]. intros r f' b' Hpost. by eapply post_weaken.
      * apply (wait_or_skip_runs b0); try done. intros wait f' b' Hpost. by fstep.
Qed.

(** ** Rankings *)

Lemma fallback_allowed_runs b0 f b ranked : bounded_budget b0 → fill_ok b0 f b (Action_Rank Ranking_Fallback None) →
  ranked_ok ranked → runs (fallback_allowed ranked) f b (post b0 (later f)).
Proof.
  intros Hb (Hh & Hok & Hc & _ & (w & p & Hw & Hp & _) & _ & Hret) Hro. unfold fallback_allowed, count_stale. fgo.
  apply pending_runs. intros o. unfold set_out. fgo. rewrite Hw in Hh |- *. fgo.
  destruct (walking_matches f w Hw Hok) as (Hi & _).
  destruct (walk_complete_ok w b p Outcome_StaleDestination Hi Hp) as ([res [w' b']] & Hx & _ & Hp' & _ & Hre & Hres).
  { by eapply held_fits. }
  pose proof (held_reunited b0 w b p w' b' Hp Hh Hre Hp') as Hh'.
  assert (Hh0 : held b0 Walking_None b') by by apply (held_none b0 b' w').
  eapply runs_on_walk; [exact Hx|]. destruct res as [e|]; [|done]. cbn beta iota. fgo.
  eapply runs_on_walk; [unfold walk_abandon; by rewrite Hp'|]. cbn beta iota. fgo.
  eapply runs_mono; [by apply (fill_ranked_runs b0)|]. intros r f' b1 Hpost. eapply post_weaken; [exact Hpost|].
  unfold later. fsimp. rewrite Hret. lia.
Qed.

Lemma fallback_runs b0 f b version ranked now : bounded_budget b0 → fill_ok b0 f b (Action_Rank Ranking_Fallback version) →
  (∀ x, ranked = Ok x → ranked_ok x) →
  runs (fallback_ranked ranked now) f b (improves b0 f (Action_Rank Ranking_Fallback version)).
Proof.
  intros Hb Hfill Hro. assert (Hfill' := Hfill). destruct Hfill' as (Hh & Hok & Hc & _ & Hv & _ & Hret).
  assert (Hw := Hv). destruct Hw as (w & p & Hw & Hp & _). unfold fallback_ranked, improves, events_left, walk_events.
  destruct ranked as [r|e].
  - destruct (negb _ && _).
    + eapply runs_mono; [apply (fallback_allowed_runs b0); try done; by apply Hro|].
      intros x f' b' Hpost. eapply post_weaken; [exact Hpost|]. rewrite Hw. lia.
    + fgo. apply (wait_or_skip_runs b0); try done.
      * unfold skip_events, later. fsimp. rewrite Hw. lia.
      * intros wait f' b' Hpost. by fgo.
  - fgo. apply (wait_or_skip_runs b0); try done.
    + unfold skip_events, later. fsimp. rewrite Hw. lia.
    + intros wait f' b' Hpost. by fgo.
Qed.

Lemma previous_runs b0 f b version ranked : fill_ok b0 f b (Action_Rank Ranking_Previous version) →
  runs (previous_ranked ranked) f b (improves b0 f (Action_Rank Ranking_Previous version)).
Proof.
  intros (Hh & Hok & Hc & _ & Hw & Hr). rewrite Hw in Hh. unfold previous_ranked, improves. fgo.
  assert (Htargets : ∀ f1, f_walk f1 = Walking_None → ranked_inv f1 → f_plan f1 = f_plan f → f_epochs f1 = f_epochs f →
    runs fill_targets f1 b (post b0 (pred (events_left f (Action_Rank Ranking_Previous version))))).
  { intros f1 Hw1 Hr1 Hpl He. eapply runs_mono; [apply (fill_targets_runs b0); try done; by rewrite Hpl|].
    intros r f' b' Hpost. eapply post_weaken; [exact Hpost|]. unfold events_left, later. rewrite He. lia. }
  destruct ranked as [previous|e], (wk_rank (f_ranked f)) as [rank|] eqn:Hrank; fgo; by apply Htargets.
Qed.

Lemma hints_runs b0 f b hints rank0 : fill_ok b0 f b Action_Hints →
  runs (fill_hints hints rank0) f b (improves b0 f Action_Hints).
Proof.
  intros (Hh & Hok & Hc & Hw & Hr). rewrite Hw in Hh. unfold fill_hints, improves. fgo.
  eapply runs_mono; [apply (walk_or_hedge_runs b0); try done|].
  - unfold ranked_inv in *. fsimp. by destruct (match wk_rank (f_ranked f) with Some _ => _ | None => _ end).
  - by intros r f' b' Hpost; eapply post_weaken; [exact Hpost|].
Qed.

Lemma hedge_runs b0 f b eligible first second e : fill_ok b0 f b (Action_Hedge eligible first second) →
  (eligible = false → e = HedgeEnd_NotStarted) →
  runs (fill_hedge e) f b (improves b0 f (Action_Hedge eligible first second)).
Proof.
  intros (Hh & Hok & Hc & Hw & Hr & Hel) He. rewrite Hw in Hh. unfold fill_hedge, improves. fgo.
  assert (Hstart : ∀ f1, f_walk f1 = Walking_None → f_ranked f1 = f_ranked f → f_epochs f1 = f_epochs f →
    (is_Some (wk_rank (f_ranked f1)) → primary_consumed (pl_continuation (f_plan f1)) = false) →
    runs start_walk f1 b (post b0 (pred (events_left f (Action_Hedge eligible first second))))).
  { intros f1 Hw1 Hr1 He1 Hc1. eapply runs_mono; [apply (start_walk_runs b0); try done; unfold ranked_inv; by rewrite Hr1|].
    intros r f' b' Hpost. eapply post_weaken; [exact Hpost|]. unfold events_left, later. rewrite He1. lia. }
  destruct e as [| |stale primary error].
  - by apply Hstart.
  - unfold walked, publish. fgo; fleaf; rewrite Hw; fdone.
  - destruct eligible; [|by discriminate He]. specialize (Hel eq_refl).
    destruct error as [error|]; fgo; try (fleaf; by rewrite Hw).
    all: try (apply Hstart; try done; fsimp; rewrite Hel; by intros []).
    all: fleaf; rewrite orb_true_r, Hw; fdone.
Qed.

Lemma authority_runs b0 f b version ranked : fill_ok b0 f b (Action_Rank Ranking_Authority version) →
  runs (authority_ranked ranked) f b (improves b0 f (Action_Rank Ranking_Authority version)).
Proof.
  intros (Hh & Hok & Hc & _ & Hw & Ha). unfold authority_ranked, improves. destruct ranked as [r|e].
  2: { exists (Err e), f, b. done. }
  apply runs_bind. exists (Ok r), f, b. split; [done|]. fgo; fleaf; rewrite Hw in *; fdone.
Qed.

Lemma origin_runs b0 f b rank r : fill_ok b0 f b (Action_Origin rank) → fc_walk_only (f_config f) = false →
  runs (fill_origin r) f b (improves b0 f (Action_Origin rank)).
Proof.
  intros (Hh & Hok & Hc & Hw & Ha & Hrank & Hpend) Hwo. rewrite Hw in Hh. unfold fill_origin, improves. do 4 (fstep; cbn beta iota).
  rewrite Hpend, Hwo. cbn [negb]. destruct r as [?|e].
  { unfold publish. fgo. fleaf. rewrite Hw. fdone. }
  destruct e; fgo; try (by fleaf; rewrite Hw).
  destruct Ha as ([Hl Hr] & Hrk & _). rewrite Hrk in *.
  match goal with |- runs _ ?f1 _ _ => match eval cbn in (f_walk f1) with Walking_Remaining ?rw => set (r := rw) end;
    eapply runs_mono; [apply (remaining_next_runs b0 f1 b r); try done|] end.
  - unfold walking_ok, remaining_left, ranked_inv. fsimp. rewrite Hrk. unfold r, remaining_new. simpl. fdone.
  - intros x f' b' Hpost. eapply post_weaken; [exact Hpost|]. unfold remaining_left, r, remaining_new. simpl. lia.
Qed.

(** ** Events *)

Lemma current_runs b0 f b version ranked : fill_ok b0 f b (Action_Rank Ranking_Current version) →
  (∀ x, ranked = Ok x → ranked_ok x) →
  runs (let! ranked := flift ranked in fill_ranked ranked) f b (improves b0 f (Action_Rank Ranking_Current version)).
Proof.
  intros (Hh & Hok & Hc & _ & Hw) Hro. apply runs_bind. exists ranked, f, b. split; [done|].
  destruct ranked as [r|e]; [|done]. rewrite Hw in Hh.
  eapply runs_mono; [apply (fill_ranked_runs b0); try done; by apply Hro|].
  intros x f' b' Hpost. eapply post_weaken; [exact Hpost|]. unfold events_left. lia.
Qed.

Lemma validated_runs b0 f b r : bounded_budget b0 → fill_ok b0 f b Action_Validate →
  runs (handle (Event_Validated r) 0) f b (improves b0 f Action_Validate).
Proof.
  intros Hb (Hh & Hok & Hc & Hp). unfold handle, improves. fgo.
  assert (Hcomplete : ∀ outcome, outcome ≠ Outcome_StaleMembership →
    runs (fill_complete outcome) f b (post b0 (pred (events_left f Action_Validate)))).
  { intros outcome Hne. eapply runs_mono; [by apply (complete_runs b0 f f b outcome); try done; intros ->|].
    intros x f' b' Hpost. eapply post_weaken; [exact Hpost|]. unfold reported_events, events_left, walk_events.
    unfold probing in Hp. destruct Hp as [(w & p & Hw & _)|(rw & Hw & _ & Hlt)]; rewrite Hw; unfold remaining_left; lia. }
  destruct r as [[outcome|]|e]; fgo; [by apply Hcomplete..|].
  apply pending_runs. intros o. unfold set_out. by fgo.
Qed.

Lemma batch_runs b0 f b first count ro copy : fill_ok b0 f b (Action_Batch first count ro) →
  runs (handle (Event_BatchDone copy) 0) f b (improves b0 f (Action_Batch first count ro)).
Proof.
  intros (Hh & Hok & Hc & _ & w & Hw & Hb). unfold handle, improves, events_left, walk_events. fgo. rewrite Hw.
  destruct (walking_matches f w Hw Hok) as (Hi & Ha & Hr & Hm). rewrite Hw in Hh.
  assert (Hp : cw_pending w = None).
  { destruct (cw_pending w) as [p|] eqn:Hp; [|done]. by destruct (wi_pending _ Hi p Hp). }
  apply held_none in Hh; [|done].
  destruct copy.
  - unfold complete_granted. destruct (Nat.eqb_spec (cw_batch w) 0); [done|]. fgo.
    eapply fill_end_ok; try done. lia.
  - destruct (complete_granted w false) as [[e w']|] eqn:Hg.
    2: { unfold complete_granted in Hg. by destruct (Nat.eqb_spec (cw_batch w) 0). }
    assert (e = None) as -> by (unfold complete_granted in Hg; by destruct (Nat.eqb_spec (cw_batch w) 0); simplify_eq).
    destruct (complete_granted_inv w w' Hi Hg) as (-> & Hi' & Hp' & Hready & Ha'). fgo.
    eapply runs_mono; [eapply (walk_next_runs b0 _ b (walk_batch w 0)); try done; lia|].
    intros x f' b' Hpost. eapply post_weaken; [exact Hpost|]. unfold later. fsimp. lia.
Qed.

Lemma timer_runs b0 f b wait : fill_ok b0 f b (Action_Wait wait) →
  runs (handle Event_Timer 0) f b (improves b0 f (Action_Wait wait)).
Proof.
  intros (Hh & Hok & Hc & Hwait & w & Hw & Hready). unfold handle, improves, events_left, walk_events.
  do 2 (fstep; cbn beta iota). rewrite Hwait, Hw. fgo. destruct (walking_matches f w Hw Hok) as (Hi & Ha & Hr & Hm).
  rewrite Hw in Hh. apply held_none in Hh; [|by destruct Hready].
  eapply runs_mono; [eapply (walk_next_runs b0 _ b w); try done|].
  intros x f' b' Hpost. eapply post_weaken; [exact Hpost|]. unfold later. fsimp. lia.
Qed.

Lemma no_helper_runs b0 f b probe : bounded_budget b0 → fill_ok b0 f b (Action_Probe probe) →
  helper_pending (f_walk f) = true → runs (handle Event_NoHelper 0) f b (improves b0 f (Action_Probe probe)).
Proof.
  intros Hb (Hh & Hok & Hc & _ & Hp) Hhelp. unfold handle, improves, events_left, walk_events. do 2 (fstep; cbn beta iota).
  unfold helper_pending in Hhelp. destruct (f_walk f) as [|w|r] eqn:Hw; [done| |done].
  destruct (cw_pending w) as [p|] eqn:Hpp; [|done].
  eapply runs_mono; [eapply (candidate_complete_runs b0 f b w p); try done; by rewrite Hw|].
  intros x f' b' Hpost. eapply post_weaken; [exact Hpost|]. lia.
Qed.

(** Every event that answers an action brings the fill closer to its end. *)
Lemma handle_runs b0 f b a event now : bounded_budget b0 → fill_ok b0 f b a → answers_action f a event →
  runs (handle event now) f b (improves b0 f a).
Proof.
  intros Hb Hok Ha.
  destruct Ha as [ranking version r Hr|hints rank0|el i j e He|latest recent Hrec|probe reply|probe Hhelp|r
                 |first count ro copy|wait|rank r Hwo|source r|a e Hne].
  - assert (Hrk : pl_ranking (f_plan f) = ranking) by by destruct Hok as (_ & _ & _ & ? & _).
    unfold handle. do 2 (fstep; cbn beta iota). rewrite Hrk. destruct ranking.
    + by apply current_runs.
    + by apply previous_runs.
    + by apply fallback_runs.
    + by apply authority_runs.
  - exact (hints_runs b0 f b hints rank0 Hok).
  - exact (hedge_runs b0 f b el i j e Hok He).
  - exact (membership_runs b0 f b latest recent now Hb Hok Hrec).
  - unfold handle. do 2 (fstep; cbn beta iota). eapply runs_mono; [by eapply (reply_runs b0)|].
    intros x f' b' Hpost. eapply post_weaken; [exact Hpost|]. unfold events_left, walk_events.
    destruct Hok as (_ & _ & _ & _ & [(w & p & -> & _)|(rw & -> & _)] & _); lia.
  - exact (no_helper_runs b0 f b probe Hb Hok Hhelp).
  - exact (validated_runs b0 f b r Hb Hok).
  - exact (batch_runs b0 f b first count ro copy Hok).
  - exact (timer_runs b0 f b wait Hok).
  - exact (origin_runs b0 f b rank r Hok Hwo).
  - destruct Hok as (Hh & Hwk & Hc & Hw). unfold handle, improves. fgo. destruct r; fgo; [|by fleaf].
    fleaf. rewrite Hw in *. fdone.
  - unfold handle. fgo. by destruct Hok.
Qed.

Lemma events_left_pos b0 f b a event : fill_ok b0 f b a → answers_action f a event → (1 ≤ events_left f a)%nat.
Proof.
  intros (_ & _ & _ & Ha) Hans.
  assert (Hpos : ∀ stage rem, probing f → (1 ≤ walk_events f stage rem)%nat).
  { intros stage rem [(w & p & Hw & _)|(r & Hw & _ & Hlt)]; unfold walk_events; rewrite Hw; unfold remaining_left; lia. }
  assert (Hv : visiting f → probing f) by (intros (w & p & ? & ? & _); left; by exists w, p).
  destruct a as [[] version| | | | | | | | | |r|]; unfold events_left, action_ok in *; try lia;
    try (by apply Hpos, Hv); try (by apply Hpos, Ha); try (by apply Hpos, Hv, Ha); try (by apply Hpos).
  - destruct (pl_hedge_refresh (f_plan f)); [unfold walk_events; destruct Ha as [-> _]; lia|by apply Hpos, Hv].
  - destruct Ha as (_ & w & Hw & _). unfold walk_events. rewrite Hw. lia.
  - destruct Ha as (_ & w & Hw & _). unfold walk_events. rewrite Hw. lia.
  - inversion Hans as [| | | | | | | | | | |? ? Hne]; simplify_eq. by destruct (Hne r).
Qed.

(** A fill between events: waiting for the answer to [a], or done with every credit returned. *)
Definition state_ok b0 f b (a : Action) : Prop :=
  match a with Action_Done _ => f_walk f = Walking_None ∧ held b0 Walking_None b | _ => fill_ok b0 f b a end.

Lemma state_held b0 f b a : state_ok b0 f b a → held b0 (f_walk f) b.
Proof. intros Hs. destruct a; try (by apply Hs). by destruct Hs as [-> ?]. Qed.

Lemma fill_state_ok b0 f b a : fill_ok b0 f b a → state_ok b0 f b a.
Proof. intros Hok. destruct a; try done. destruct Hok as (Hh & _ & _ & Hw). simpl in Hw. split; [done|by rewrite Hw in Hh]. Qed.

Lemma abandon_ok b0 f b : bounded_budget b0 → held b0 (f_walk f) b →
  held b0 Walking_None match f_walk f with Walking_Candidates w => (walk_abandon w b).2.2 | _ => b end.
Proof.
  intros Hb Hh. destruct (f_walk f) as [|w|r]; [done| |done]. unfold walk_abandon.
  destruct (cw_pending w) as [p|] eqn:Hp; [|by apply (held_none b0 b w)].
  destruct (reunite_opt_ok b _ (held_fits b0 w b p Hb Hp Hh)) as (b' & -> & Hre). simpl.
  refine (proj1 (held_none b0 b' (walk_pending w None) eq_refl) _). by apply (held_reunited b0 w b p).
Qed.

(** [on] answers every event that answers the last action. *)
Lemma on_ok b0 f b a event now : bounded_budget b0 → state_ok b0 f b a → answers_action f a event →
  ∃ a' out f' b', fill_on f b event now = Some (a', out, (f', b')) ∧ state_ok b0 f' b' a' ∧
    (events_left f' a' < events_left f a)%nat.
Proof.
  intros Hb Hs Hans.
  assert (Hok : fill_ok b0 f b a).
  { destruct a; try done. inversion Hans as [| | | | | | | | | | |? ? Hne]; simplify_eq. by destruct (Hne r). }
  pose proof (events_left_pos b0 f b a event Hok Hans) as Hpos.
  destruct (handle_runs b0 f b a event now Hb Hok Hans) as (r & f1 & b1 & Hx & Hpost). unfold fill_on. rewrite Hx.
  unfold improves, post in Hpost. destruct r as [a'|e]; do 4 eexists; (split; [done|]).
  - destruct Hpost as [(Hh & Hw & Hc & Ha) Hle].
    match goal with |- state_ok _ ?f2 _ _ ∧ _ => destruct (same_fill_ok b0 f1 f2 b1 a') as [Hok' ->]; try done end.
    split; [by apply fill_state_ok|lia].
  - split; [|simpl; lia]. split; [done|]. by apply abandon_ok.
Qed.

(** The start of a fill. *)
Lemma start_ok config b0 hit now : ∃ a out f, fill_on (fill_new config) b0 (Event_Start hit) now = Some (a, out, (f, b0)) ∧
  state_ok b0 f b0 a ∧ (events_left f a ≤ 129)%nat.
Proof.
  assert (Hh : held b0 Walking_None b0) by (unfold held; simpl; lia).
  destruct hit; unfold fill_on, handle; do 3 eexists; (split; [reflexivity|]); [|by fleaf; fdone].
  split; [done|simpl; lia].
Qed.

(** ** Runs *)

(** A fill, the caller's budget and the action to perform. *)
Definition FillState : Type := Fill * AcquisitionBudget * Action.

(** What a driver spends of the outstanding request's budget. *)
Definition fill_put_budget f b (spent : AcquisitionBudget) : Fill * AcquisitionBudget :=
  match f_walk f with
  | Walking_Candidates w =>
      let '(w, b) := put_request_budget w b spent in
      (mkFill (f_config f) (f_plan f) (f_ranked f) (f_epochs f) (Walking_Candidates w) (f_probe f) (f_signed f)
         (f_ending f) (f_out f), b)
  | _ => (f, spent)
  end.

(** A driver's run of [n] events: it performs the action, spending from the budget it is
    handed, and reports an event that answers it. *)
Inductive fill_run : nat → FillState → FillState → Prop :=
| fr_refl s : fill_run 0 s s
| fr_event n s f b a event now a' out f' b' :
    fill_run n s (f, b, a) → answers_action f a event →
    fill_on f b event now = Some (a', out, (f', b')) → fill_run (S n) s (f', b', a')
| fr_spend n s f b a spent f' b' :
    fill_run n s (f, b, a) → spends (fill_request_budget f b) spent →
    fill_put_budget f b spent = (f', b') → fill_run n s (f', b', a).

(** The fill after its first event, with a budget of its own. *)
Definition started (config : FillConfig) b0 (s : FillState) : Prop :=
  bounded_budget b0 ∧ ∃ hit now a out f b, fill_on (fill_new config) b0 (Event_Start hit) now = Some (a, out, (f, b)) ∧
    s = (f, b, a).

(** The totals after a driver's spending: fewer attempts and links, the same credits. *)
Lemma held_respent b0 walk b walk' b' : held b0 walk b →
  attempt_credit b' + credit_of attempt_credit (owed_walk walk') ≤ attempt_credit b + credit_of attempt_credit (owed_walk walk) →
  link_credit b' + credit_of link_credit (owed_walk walk') ≤ link_credit b + credit_of link_credit (owed_walk walk) →
  b_deadline b' = b_deadline b → child_deadline b' (owed_walk walk') = child_deadline b (owed_walk walk) →
  ∃ b1, held b1 walk' b' ∧ attempt_credit b1 = attempt_credit b0 ∧ link_credit b1 = link_credit b0 ∧
    b_deadline b1 = b_deadline b0.
Proof.
  intros (G1 & G2 & H1 & H2 & H3 & H4) Ha Hl Hd Hcd. unfold held. set (n := owed_walk walk') in *.
  exists (mkBudget (b_deadline b0) (b_attempts b' + credit_of b_attempts n) (b_links b' + credit_of b_links n)
    (link_credit b0 - (b_links b' + credit_of b_links n)) false (attempt_credit b0 - (b_attempts b' + credit_of b_attempts n))).
  assert (credit_of b_attempts n ≤ credit_of attempt_credit n ∧ credit_of b_links n ≤ credit_of link_credit n) as [? ?]
    by (unfold credit_of, attempt_credit, link_credit; destruct n; lia).
  clearbody n. unfold attempt_credit, link_credit in *. simpl. split_and!; lia || congruence.
Qed.

Lemma put_budget_cases f b spent f' b' : fill_put_budget f b spent = (f', b') →
  (f' = f ∧ b' = spent ∧ fill_request_budget f b = b) ∨
  (∃ w p child, f_walk f = Walking_Candidates w ∧ cw_pending w = Some p ∧ pd_bounded p = Some child ∧ b' = b ∧
     fill_request_budget f b = child ∧
     f' = mkFill (f_config f) (f_plan f) (f_ranked f) (f_epochs f)
            (Walking_Candidates (walk_pending w (Some (pending_with p spent)))) (f_probe f) (f_signed f) (f_ending f) (f_out f)).
Proof.
  unfold fill_put_budget, fill_request_budget, put_request_budget, request_budget.
  destruct (f_walk f) as [|w|r] eqn:Hw; [intros [= <- <-]; by left| |intros [= <- <-]; by left].
  destruct (cw_pending w) as [p|] eqn:Hp; simpl; [destruct (pd_bounded p) as [child|] eqn:Hc|]; intros [= <- <-].
  - right. by exists w, p, child.
  - left. split; [|done]. destruct f; simpl in *; by subst.
  - left. split; [|done]. destruct f; simpl in *; by subst.
Qed.

Lemma held_spent b0 f b spent f' b' : held b0 (f_walk f) b → spends (fill_request_budget f b) spent →
  fill_put_budget f b spent = (f', b') →
  ∃ b1, held b1 (f_walk f') b' ∧ attempt_credit b1 = attempt_credit b0 ∧ link_credit b1 = link_credit b0 ∧
    b_deadline b1 = b_deadline b0.
Proof.
  intros Hh (S1 & S2 & S3) Hput.
  destruct (put_budget_cases f b spent f' b' Hput) as [(-> & -> & Hrb)|(w & p & child & Hw & Hp & Hc & -> & Hrb & ->)];
    rewrite Hrb in *; simpl; eapply held_respent; try exact Hh; try lia.
  - unfold child_deadline. by rewrite S3.
  - rewrite Hw. unfold owed_walk. simpl. rewrite Hp. simpl. destruct (pd_granted p); simpl; rewrite ?Hc; simpl; lia.
  - rewrite Hw. unfold owed_walk. simpl. rewrite Hp. simpl. destruct (pd_granted p); simpl; rewrite ?Hc; simpl; lia.
  - rewrite Hw. unfold owed_walk. simpl. rewrite Hp. simpl. destruct (pd_granted p); simpl; rewrite ?Hc; simpl; [done|].
    by rewrite S3.
Qed.

(** Spending on a probe's child moves nothing but its credits. *)
Lemma respent_ok w p spent : walk_inv w → cw_pending w = Some p →
  let w' := walk_pending w (Some (pending_with p spent)) in
  walk_inv w' ∧ ahead w' = ahead w ∧ cw_config w' = cw_config w ∧ cw_batch w' = cw_batch w.
Proof.
  intros Hi Hp. split_and!; [by apply pending_with_inv| |done|done].
  unfold ahead. simpl. by rewrite Hp.
Qed.

Lemma respent_fill f w p spent a : f_walk f = Walking_Candidates w → cw_pending w = Some p → walking_ok f → action_ok f a →
  let f' := mkFill (f_config f) (f_plan f) (f_ranked f) (f_epochs f)
              (Walking_Candidates (walk_pending w (Some (pending_with p spent)))) (f_probe f) (f_signed f) (f_ending f) (f_out f) in
  walking_ok f' ∧ action_ok f' a ∧ events_left f' a = events_left f a.
Proof.
  intros Hw Hp Hok Ha. destruct (walking_matches f w Hw Hok) as (Hi & Hah & Hr & Hm).
  destruct (respent_ok w p spent Hi Hp) as (Hi' & Ha' & Hcfg & Hbt).
  set (w' := walk_pending w (Some (pending_with p spent))) in *.
  assert (Hp' : cw_pending w' = Some (pending_with p spent)) by done. clearbody w'. intros f'.
  assert (Hprobing : probing f → probing f') by (intros _; left; by exists w', (pending_with p spent)).
  assert (Hvisiting : visiting f → visiting f').
  { intros (w1 & p1 & Hw1 & Hp1 & ? & ?). rewrite Hw in Hw1. simplify_eq. by exists w', (pending_with p spent). }
  split; [|split].
  - unfold walking_ok, walk_matches in *. simpl. rewrite Ha', Hcfg. tauto.
  - destruct a as [[] version| | | | | | | | | | |]; simpl in *; try tauto; rewrite ?Hw in *; try (by destruct Ha); try tauto.
    + by destruct Ha as (_ & ? & _).
    + by destruct Ha as (_ & ? & _).
    + destruct (pl_hedge_refresh (f_plan f)); [by destruct Ha|auto].
    + destruct Ha as (? & w1 & [= <-] & Hne). split; [done|]. exists w'. by rewrite Hbt.
    + destruct Ha as (_ & w1 & [= <-] & Hn & _). congruence.
    + done.
    + done.
  - unfold events_left, walk_events, later. simpl. rewrite Hw, Ha'. done.
Qed.

Lemma spend_ok b0 f b a spent f' b' : state_ok b0 f b a → spends (fill_request_budget f b) spent →
  fill_put_budget f b spent = (f', b') →
  ∃ b1, state_ok b1 f' b' a ∧ events_left f' a = events_left f a ∧ attempt_credit b1 = attempt_credit b0 ∧
    link_credit b1 = link_credit b0 ∧ b_deadline b1 = b_deadline b0.
Proof.
  intros Hs Hsp Hput.
  pose proof (state_held b0 f b a Hs) as Hh.
  destruct (held_spent b0 f b spent f' b' Hh Hsp Hput) as (b1 & Hh' & E1 & E2 & E3). exists b1.
  destruct (put_budget_cases f b spent f' b' Hput) as [(-> & -> & _)|(w & p & child & Hw & Hp & Hc & -> & _ & ->)].
  - split; [|done]. destruct a; try (destruct Hs as (_ & ? & ? & ?); by split_and!).
    destruct Hs as [Hw _]. rewrite Hw in Hh'. by split.
  - assert (Hok : fill_ok b0 f b a) by (destruct a; try done; destruct Hs; congruence).
    destruct Hok as (_ & Hwk & Hcont & Ha). destruct (respent_fill f w p spent a Hw Hp Hwk Ha) as (Hwk' & Ha' & ->).
    split; [|done]. by apply fill_state_ok.
Qed.

(** ** Whole runs *)

(** The invariant of a run: [b1] stands for the credits not yet spent. *)
Definition run_ok b0 (s : FillState) : Prop :=
  let '(f, b, a) := s in
  ∃ b1, state_ok b1 f b a ∧ attempt_credit b1 = attempt_credit b0 ∧ link_credit b1 = link_credit b0 ∧
    b_deadline b1 = b_deadline b0.

Definition state_events (s : FillState) : nat := let '(f, _, a) := s in events_left f a.

Lemma fill_run_ok b0 n s s' : bounded_budget b0 → run_ok b0 s → fill_run n s s' →
  run_ok b0 s' ∧ (n + state_events s' ≤ state_events s)%nat.
Proof.
  intros Hb Hs Hrun. induction Hrun as [s|n s f b a event now a' out f' b' _ IH Hans Hon|n s f b a spent f' b' _ IH Hsp Hput];
    [by split|destruct (IH Hs) as [(b1 & Hst & E1 & E2 & E3) Hle]..]; simpl in Hle.
  - destruct (on_ok b1 f b a event now) as (a1 & out1 & f1 & b2 & Hon' & Hst' & Hlt); try done.
    { unfold bounded_budget in *. by rewrite E1, E2. }
    rewrite Hon in Hon'. simplify_eq. split; [by exists b1|]. simpl. lia.
  - destruct (spend_ok b1 f b a spent f' b' Hst Hsp Hput) as (b2 & Hst' & Hev & F1 & F2 & F3).
    split; [exists b2; by rewrite F1, F2, F3|]. simpl. by rewrite Hev.
Qed.

Lemma started_ok config b0 s : started config b0 s → bounded_budget b0 ∧ run_ok b0 s ∧ (state_events s ≤ 129)%nat.
Proof.
  intros (Hb & hit & now & a & out & f & b & Hon & ->). split; [done|].
  destruct (start_ok config b0 hit now) as (a1 & out1 & f1 & Hon' & Hst & Hle). rewrite Hon in Hon'. simplify_eq.
  split; [by exists b0|done].
Qed.

Lemma run_facts config b0 n s f b a : started config b0 s → fill_run n s (f, b, a) →
  ∃ b1, bounded_budget b1 ∧ state_ok b1 f b a ∧ (n + events_left f a ≤ 129)%nat ∧
    attempt_credit b1 = attempt_credit b0 ∧ link_credit b1 = link_credit b0 ∧ b_deadline b1 = b_deadline b0.
Proof.
  intros Hs Hrun. destruct (started_ok config b0 s Hs) as (Hb & Hok & Hev).
  destruct (fill_run_ok b0 n s _ Hb Hok Hrun) as [(b1 & Hst & E1 & E2 & E3) Hle]. simpl in Hle.
  exists b1. split_and!; try done; [unfold bounded_budget in *; by rewrite E1, E2..|lia].
Qed.

Lemma state_events_pos b0 f b a : state_ok b0 f b a → (∃ r, a = Action_Done r) ∨ (1 ≤ events_left f a)%nat.
Proof.
  intros Hst. destruct a as [| | | | | | | | | |r|]; [right..|by left; exists r|right];
    (eapply (events_left_pos b0 f b _ (Event_Abort Error_Unavailable)); [exact Hst|by apply aa_abort]).
Qed.

(** C4: However its driver answers and spends, a fill never panics and never idles, and it
    ends: it sees at most 130 events, its start included, and every event that answers an
    action yields a next one. *)
Theorem fill_ends config b0 n s f b a : started config b0 s → fill_run n s (f, b, a) →
  (n ≤ 129)%nat ∧ a ≠ Action_Idle ∧ (n = 129%nat → ∃ r, a = Action_Done r) ∧
  ∀ event now, answers_action f a event → ∃ a' out f' b', fill_on f b event now = Some (a', out, (f', b')).
Proof.
  intros Hs Hrun. destruct (run_facts config b0 n s f b a Hs Hrun) as (b1 & Hb & Hst & Hle & _).
  split; [lia|]. split; [intros ->; by destruct Hst as (_ & _ & _ & [])|]. split.
  - intros ->. destruct (state_events_pos b1 f b a Hst); [done|lia].
  - intros event now Hans. destruct (on_ok b1 f b a event now Hb Hst Hans) as (a' & out & f' & b' & Hon & _). eauto.
Qed.

(** C5: A fill asks the origin at most once, and only as an owner: at the rank it was ranked
    with, and, unless a lost hedge bounded its routes, with evidence that passes the authority
    check. *)
Theorem fill_asks_origin_once config b0 n s f b rank (object page : N) :
  started config b0 s → fill_run n s (f, b, Action_Origin rank) →
  wk_rank (f_ranked f) = Some rank ∧ (rank < length (wk_owners (f_ranked f)))%nat ∧
  (pl_bounded (f_plan f) = false →
   validate_origin_authority (mkAuthority object page rank (length (en_evidence (f_ending f))) true false) object page = Ok ()) ∧
  ∀ m f' b' rank', fill_run m (f, b, Action_Origin rank) (f', b', Action_Origin rank') → m = 0%nat.
Proof.
  intros Hs Hrun. destruct (run_facts config b0 n s f b _ Hs Hrun) as (b1 & Hb & Hst & Hle & _).
  assert (Hst' := Hst). destruct Hst' as (_ & _ & _ & Hw & ((Hl & Hr) & Hrk & Hev) & Her & _). rewrite Her in *. rewrite Hrk in Hr.
  split_and!; [done|done| |].
  - intros Hbd. specialize (Hev Hbd). unfold validate_origin_authority; simpl. rewrite Hev.
    rewrite bool_decide_eq_true_2, N.eqb_refl, Nat.eqb_refl by done. simpl. destruct rank as [|[|[|rank]]]; [done..|lia].
  - intros m f' b' rank' Hrun'. assert (Hok : run_ok b1 (f, b, Action_Origin rank)) by by exists b1.
    destruct (fill_run_ok b1 m _ _ Hb Hok Hrun') as [_ Hle'].
    simpl in Hle'. lia.
Qed.

(** C6: A fill neither makes nor loses credit: along a run its budget and the child it lent
    stay within the caller's initial credits and deadline, an event moves attempts and links
    between the two without changing their sum, and a fill that is done has returned all. *)
Theorem fill_conserves_credit config b0 n s f b a event now a' out f' b' :
  started config b0 s → fill_run n s (f, b, a) → answers_action f a event →
  fill_on f b event now = Some (a', out, (f', b')) →
  attempt_credit b + credit_of attempt_credit (owed_walk (f_walk f)) ≤ attempt_credit b0 ∧
  link_credit b + credit_of link_credit (owed_walk (f_walk f)) ≤ link_credit b0 ∧
  b_deadline b' = b_deadline b0 ∧
  b_attempts b' + credit_of b_attempts (owed_walk (f_walk f')) = b_attempts b + credit_of b_attempts (owed_walk (f_walk f)) ∧
  b_links b' + credit_of b_links (owed_walk (f_walk f')) = b_links b + credit_of b_links (owed_walk (f_walk f)) ∧
  ((∃ r, a' = Action_Done r) → owed_walk (f_walk f') = None).
Proof.
  intros Hs Hrun Hans Hon. destruct (run_facts config b0 n s f b a Hs Hrun) as (b1 & Hb & Hst & Hle & E1 & E2 & E3).
  destruct (on_ok b1 f b a event now Hb Hst Hans) as (a1 & out1 & f1 & b2 & Hon' & Hst' & _). rewrite Hon in Hon'. simplify_eq.
  destruct (state_held b1 f b a Hst) as (G1 & G2 & G3 & G4 & _).
  destruct (state_held b1 f1 b2 a1 Hst') as (F1 & F2 & _ & _ & F5 & _).
  split_and!; try lia. intros [r ->]. destruct Hst' as [-> _]. done.
Qed.

(** Every probe a fill asks for has a destination, and every batch names handoff targets
    the fill has. *)
Theorem fill_probes_are_addressed config b0 n s f b a : started config b0 s → fill_run n s (f, b, a) →
  (∀ probe, a = Action_Probe probe → is_Some (fill_dest f probe)) ∧
  (∀ first count ro, a = Action_Batch first count ro → (first + count ≤ length (wk_handoff (f_ranked f)))%nat).
Proof.
  intros Hs Hrun. destruct (run_facts config b0 n s f b a Hs Hrun) as (b1 & Hb & Hst & _).
  split; [intros probe ->|intros first count ro ->]; by apply Hst.
Qed.

(** ** A sample run: an owner at rank 1 asks rank 0, then the origin. *)

Module FillSample.

Definition play_event (s : FillState) (event : Event) : FillState :=
  let '(f, b, a) := s in
  match fill_on f b event 0 with Some (a, _, (f, b)) => (f, b, a) | None => s end.

Definition sample_config : FillConfig := mkFillConfig OperationKind_Page false false 60000000000 (mkFeatures 0 4).
Definition sample_budget : AcquisitionBudget := new_budget 60000000000 12 24.
Definition sample_ranked : Event := Event_Ranked (Ok (ranked_new 5 [7; 8; 9] (Some 1%nat))).

Definition sample_started : FillState :=
  Eval vm_compute in play_event (fill_new sample_config, sample_budget, Action_Idle) (Event_Start false).
Definition sample_previous : FillState := Eval vm_compute in play_event sample_started sample_ranked.
Definition sample_hints : FillState := Eval vm_compute in play_event sample_previous (Event_Ranked (Err Error_Unavailable)).
Definition sample_probe : FillState := Eval vm_compute in play_event sample_hints (Event_Hints [] Rank0State_Unknown).
Definition sample_authority : FillState :=
  Eval vm_compute in play_event sample_probe (Event_Reply (Reply_Answer ResponseKind_Miss true)).
Definition sample_origin : FillState := Eval vm_compute in play_event sample_authority sample_ranked.

Lemma play_run n s s1 s2 event : fill_run n s s1 → answers_action s1.1.1 s1.2 event →
  is_some (fill_on s1.1.1 s1.1.2 event 0) = true → play_event s1 event = s2 → fill_run (S n) s s2.
Proof.
  destruct s1 as [[f b] a]. simpl. intros Hrun Hans Hon <-. destruct (fill_on f b event 0) as [[[a' out] [f' b']]|] eqn:E; [|done].
  by eapply fr_event.
Qed.

Lemma sample_is_started : started sample_config sample_budget sample_started.
Proof.
  split; [by vm_compute|]. exists false, 0, sample_started.2, evidence_default, sample_started.1.1, sample_started.1.2.
  split; vm_compute; reflexivity.
Qed.

Lemma sample_ranked_answers f version ranking : answers_action f (Action_Rank ranking version) sample_ranked.
Proof. apply aa_rank. intros x [= <-]. split; simpl; lia. Qed.

Lemma sample_run_probe : fill_run 3 sample_started sample_probe.
Proof.
  apply (play_run 2 _ sample_hints _ (Event_Hints [] Rank0State_Unknown)); [|apply aa_hints|vm_compute; reflexivity..].
  apply (play_run 1 _ sample_previous _ (Event_Ranked (Err Error_Unavailable))); [|by apply aa_rank|vm_compute; reflexivity..].
  apply (play_run 0 _ sample_started _ sample_ranked); [apply fr_refl|apply sample_ranked_answers|vm_compute; reflexivity..].
Qed.

Lemma sample_run_origin : fill_run 5 sample_started sample_origin.
Proof.
  apply (play_run 4 _ sample_authority _ sample_ranked); [|apply sample_ranked_answers|vm_compute; reflexivity..].
  apply (play_run 3 _ sample_probe _ (Event_Reply (Reply_Answer ResponseKind_Miss true)));
    [apply sample_run_probe|apply aa_probe|vm_compute; reflexivity..].
Qed.

End FillSample.

Section sample.
Import FillSample.

Lemma fill_ends_witness : sample_origin.2 ≠ Action_Idle ∧ (5 ≤ 129)%nat.
Proof.
  destruct (fill_ends sample_config sample_budget 5 sample_started sample_origin.1.1 sample_origin.1.2 sample_origin.2
    sample_is_started sample_run_origin) as (H1 & H2 & _). by split.
Defined.

Lemma fill_asks_origin_once_witness :
  validate_origin_authority
    (mkAuthority 3 4 1 (length (en_evidence (f_ending sample_origin.1.1))) true false) 3 4 = Ok ().
Proof.
  apply (fill_asks_origin_once sample_config sample_budget 5 sample_started sample_origin.1.1 sample_origin.1.2 1 3 4
    sample_is_started sample_run_origin). reflexivity.
Defined.

Lemma fill_conserves_credit_witness :
  b_attempts sample_authority.1.2 + 0 = b_attempts sample_probe.1.2 + 2 ∧ owed_walk (f_walk sample_authority.1.1) = None.
Proof.
  destruct (fill_conserves_credit sample_config sample_budget 3 sample_started sample_probe.1.1 sample_probe.1.2 sample_probe.2
    (Event_Reply (Reply_Answer ResponseKind_Miss true)) 0 sample_authority.2
    (default evidence_default ((λ x, x.1.2) <$> fill_on sample_probe.1.1 sample_probe.1.2
       (Event_Reply (Reply_Answer ResponseKind_Miss true)) 0))
    sample_authority.1.1 sample_authority.1.2 sample_is_started sample_run_probe) as (_ & _ & _ & H & _ & _).
  - apply aa_probe.
  - vm_compute. reflexivity.
  - split; [exact H|reflexivity].
Defined.

Lemma fill_probes_are_addressed_witness : fill_dest sample_probe.1.1 (mkProbe 0 0 Mode_Acquire 2 RouteMode_FundedRoute false) = Some (Some 7).
Proof.
  destruct (fill_probes_are_addressed sample_config sample_budget 3 sample_started sample_probe.1.1 sample_probe.1.2 sample_probe.2
    sample_is_started sample_run_probe) as [H _]. destruct (H _ eq_refl) as [d Hd]. vm_compute in Hd |- *. reflexivity.
Defined.
End sample.

(** ** A sample run: a reader loses a stale hedge, becomes an owner and runs short of links. *)

Module ShortSample.
Import FillSample.










End ShortSample.




