(* ===== verification/Notices.v ===== *)
(** * Orphan notices

    An owner that fetched a page from the origin while an earlier owner did not answer later
    offers its copy to that owner, from [cmd/racer/core/src/read/hints.rs].  Pending offers sit
    in one queue per number of tries and in a heap of offers deferred by a blocked group of
    targets; their entries live in one map.  A [BinaryHeap] of distinct pairs under [Reverse]
    is the ascending list of its items.  Pages are [K], nodes [A], groups [G].  The counter
    [seq] does not wrap in the model. *)

From S2P Require Import Prelude ReadRules Walk.
Local Open Scope N_scope.

Definition NOTICE_DELAYS : list N := [5 * SECOND; 15 * SECOND; 45 * SECOND; 90 * SECOND].
Definition NOTICE_TRIES : nat := 4.
Definition NOTICE_CAPACITY : nat := 1024.
Definition NOTICE_LINKS : N := SUCCESSOR_GRANT_LINKS.
Definition PROBE_HOLD : N := 10 * SECOND.

(** [OfferEnd]. *)
Inductive OfferEnd := OfferEnd_Dropped | OfferEnd_Delivered | OfferEnd_Refused | OfferEnd_Cut.

#[export] Instance OfferEnd_eq_dec : EqDecision OfferEnd.
Proof. solve_decision. Defined.

(** [OfferEnd::of]. *)
Definition offer_end_of (answer : option bool) : OfferEnd :=
  match answer with
  | Some true => OfferEnd_Delivered
  | Some false => OfferEnd_Refused
  | None => OfferEnd_Cut
  end.

Definition should_notice (rank : option nat) : bool :=
  match rank with Some r => (0 <? r)%nat | None => false end.

Definition notice_indexes (rank : option nat) (evidence : list ProbeOutcome) : list N :=
  N.of_nat <$>
    List.filter (λ i, (i =? 0)%nat ||
      negb match evidence !! i with
           | Some (ProbeOutcome_CopyMiss | ProbeOutcome_VersionUnavailable) => true
           | _ => false
           end)
      (seq 0 (match rank with Some r => Nat.min r 2 | None => 0 end)).

Definition notice_target {A} `{EqDecision A} (local : A) (owners : list A) (holds : bool) (index : N) : option A :=
  match position (λ o, bool_decide (o = local)) owners with
  | None => None
  | Some rank => if holds && (N.to_nat index <? rank)%nat then owners !! N.to_nat index else None
  end.

Section notices.
Context {K A G : Type} `{Countable K} `{Countable G}.

(** [Due]. *)
Record Due := mkDue { due_key : K; due_target : A; due_tries : nat }.

Record NoticeEntry := mkNotice { ne_target : A; ne_tries : nat; ne_due : N }.

Record OrphanNotices := mkNotices {
  on_capacity : nat;
  on_entries : gmap K NoticeEntry;
  on_queues : list (list (K * N));
  on_deferred : list (N * N);
  on_deferred_keys : gmap N K;
  on_seq : N;
  on_blocked : gmap G N
}.

Implicit Types (s : OrphanNotices).

Definition notices_with s entries queues deferred keys : OrphanNotices :=
  mkNotices (on_capacity s) entries queues deferred keys (on_seq s) (on_blocked s).
Definition notices_blocked s blocked : OrphanNotices :=
  mkNotices (on_capacity s) (on_entries s) (on_queues s) (on_deferred s) (on_deferred_keys s) (on_seq s) blocked.

(** [OrphanNotices::new]. *)
Definition notices_new (capacity : nat) : OrphanNotices :=
  mkNotices (Nat.max capacity 1) ∅ (replicate NOTICE_TRIES []) [] ∅ 0 ∅.

(** [pending]. *)
Definition notice_pending s (key : K) : bool := is_some (on_entries s !! key).

(** [live]. *)
Definition notice_live (entries : gmap K NoticeEntry) (level : nat) (item : K * N) : bool :=
  match entries !! item.1 with
  | Some e => (ne_tries e =? level)%nat && (ne_due e =? item.2)
  | None => false
  end.

(** A deferred item whose entry is still due then. *)
Definition deferred_live (entries : gmap K NoticeEntry) (keys : gmap N K) (item : N * N) : bool :=
  match keys !! item.2 ≫= (λ k, entries !! k) with
  | Some e => ne_due e =? item.1
  | None => false
  end.

Fixpoint skip_queue (live : K * N → bool) (q : list (K * N)) : list (K * N) :=
  match q with
  | [] => []
  | item :: rest => if live item then q else skip_queue live rest
  end.

(** [skip_stale]. *)
Definition skip_stale s : OrphanNotices :=
  notices_with s (on_entries s) (imap (λ level q, skip_queue (notice_live (on_entries s) level) q) (on_queues s))
    (on_deferred s) (on_deferred_keys s).

Fixpoint skip_deferred (entries : gmap K NoticeEntry) (deferred : list (N * N)) (keys : gmap N K) :
    list (N * N) * gmap N K :=
  match deferred with
  | [] => ([], keys)
  | item :: rest => if deferred_live entries keys item then (deferred, keys) else skip_deferred entries rest (delete item.2 keys)
  end.

(** [deferred_head]. *)
Definition deferred_head s : option (N * N) * OrphanNotices :=
  let '(deferred, keys) := skip_deferred (on_entries s) (on_deferred s) (on_deferred_keys s) in
  (head deferred, notices_with s (on_entries s) (on_queues s) deferred keys).

(** [has_deferred]. *)
Definition has_deferred s : bool * OrphanNotices :=
  let '(h, s) := deferred_head s in (is_some h, s).

(** [blocked]. *)
Definition group_blocked s (group : G) (now : N) : option N :=
  match on_blocked s !! group with
  | Some until => if now <? until then Some until else None
  | None => None
  end.

(** The due times at the fronts of the queues, with their levels. *)
Fixpoint fronts (level : nat) (queues : list (list (K * N))) : list (N * nat) :=
  match queues with
  | [] => []
  | q :: rest => match q with (_, at_) :: _ => [(at_, level)] | [] => [] end ++ fronts (S level) rest
  end.

(** [next_due]. *)
Definition next_due s : option N * OrphanNotices :=
  let s := skip_stale s in
  let '(h, s) := deferred_head s in
  (snd <$> min_by_key id ((fronts 0 (on_queues s)).*1 ++ match h with Some (at_, _) => [at_] | None => [] end), s).

Definition pop_queue s (level : nat) : option (K * OrphanNotices) :=
  match on_queues s !! level with
  | Some ((key, _) :: rest) =>
      Some (key, notices_with s (on_entries s) (<[level := rest]> (on_queues s)) (on_deferred s) (on_deferred_keys s))
  | _ => None
  end.

Definition pop_deferred s (seq : N) : option (K * OrphanNotices) :=
  match on_deferred_keys s !! seq with
  | Some key =>
      Some (key, notices_with s (on_entries s) (on_queues s) (tail (on_deferred s)) (delete seq (on_deferred_keys s)))
  | None => None
  end.

(** The entry of a popped key leaves the map. *)
Definition take_notice (popped : option (K * OrphanNotices)) : option (option Due * OrphanNotices) :=
  match popped with
  | Some (key, s) =>
      match on_entries s !! key with
      | Some e =>
          Some (Some (mkDue key (ne_target e) (ne_tries e)),
                notices_with s (delete key (on_entries s)) (on_queues s) (on_deferred s) (on_deferred_keys s))
      | None => None
      end
  | None => None
  end.

(** [pop_due]; [None] is a panic. *)
Definition pop_due s (now : N) : option (option Due * OrphanNotices) :=
  let s := skip_stale s in
  let queued := snd <$> min_by_key fst (List.filter (λ c, c.1 <=? now) (fronts 0 (on_queues s))) in
  let '(h, s) := deferred_head s in
  let deferred := match h with Some (at_, seq) => if at_ <=? now then Some (at_, seq) else None | None => None end in
  match queued, deferred with
  | Some (at_, level), Some (at', seq) => take_notice (if at_ <=? at' then pop_queue s level else pop_deferred s seq)
  | Some (_, level), None => take_notice (pop_queue s level)
  | None, Some (_, seq) => take_notice (pop_deferred s seq)
  | None, None => Some (None, s)
  end.

(** [block]. *)
Definition block_group s (group : G) (until now : N) : OrphanNotices :=
  if negb (is_some (on_blocked s !! group)) && (on_capacity s <=? size (on_blocked s))%nat then
    let blocked := filter (λ kv, now < kv.2) (on_blocked s) in
    if (on_capacity s <=? size blocked)%nat then notices_blocked s blocked
    else notices_blocked s (<[group := until]> blocked)
  else notices_blocked s (<[group := until]> (on_blocked s)).

(** [evict]: the first front from the last queue down, then a deferred notice. *)
Fixpoint last_front (queues : list (list (K * N))) : option (nat * K) :=
  match queues with
  | [] => None
  | q :: rest =>
      match last_front rest with
      | Some (level, key) => Some (S level, key)
      | None => match q with (key, _) :: _ => Some (0%nat, key) | [] => None end
      end
  end.

Definition evict s : option (bool * OrphanNotices) :=
  let s := skip_stale s in
  match last_front (on_queues s) with
  | Some (level, key) =>
      match pop_queue s level with
      | Some (_, s) => Some (true, notices_with s (delete key (on_entries s)) (on_queues s) (on_deferred s) (on_deferred_keys s))
      | None => None
      end
  | None =>
      let '(h, s) := deferred_head s in
      match h with
      | Some (_, seq) =>
          match pop_deferred s seq with
          | Some (key, s) =>
              Some (true, notices_with s (delete key (on_entries s)) (on_queues s) (on_deferred s) (on_deferred_keys s))
          | None => None
          end
      | None => Some (false, s)
      end
  end.

(** [while self.entries.len() >= self.capacity && self.evict() {}]; out of fuel is [None]. *)
Fixpoint notice_make_room (fuel : nat) s : option OrphanNotices :=
  match fuel with
  | O => None
  | S fuel =>
      if (on_capacity s <=? size (on_entries s))%nat then
        match evict s with
        | Some (true, s) => notice_make_room fuel s
        | Some (false, s) => Some s
        | None => None
        end
      else Some s
  end.

Definition room s : option OrphanNotices := notice_make_room (S (size (on_entries s))) s.

(** [compact]. *)
Definition compact_deferred s : OrphanNotices :=
  if (2 * on_capacity s <? length (on_deferred s))%nat then
    let live := deferred_live (on_entries s) (on_deferred_keys s) in
    notices_with s (on_entries s) (on_queues s) (List.filter live (on_deferred s))
      (foldl (λ keys item, if live item then keys else delete item.2 keys) (on_deferred_keys s) (on_deferred s))
  else s.

Definition notices_compact s : OrphanNotices :=
  let s := compact_deferred s in
  if (sum_list_with length (on_queues s) <=? 2 * on_capacity s)%nat then s
  else notices_with s (on_entries s)
         (imap (λ level q, List.filter (notice_live (on_entries s) level) q) (on_queues s))
         (on_deferred s) (on_deferred_keys s).

(** [schedule]; [tries] past the delays panics. *)
Definition notice_schedule s (key : K) (target : A) (tries : nat) (now : N) : option (N * OrphanNotices) :=
  match NOTICE_DELAYS !! tries, on_queues s !! tries with
  | Some delay, Some q =>
      let due := now + delay in
      Some (due, notices_compact
        (notices_with s (<[key := mkNotice target tries due]> (on_entries s))
           (<[tries := q ++ [(key, due)]]> (on_queues s)) (on_deferred s) (on_deferred_keys s)))
  | _, _ => None
  end.

(** [note]. *)
Definition notice_note s (key : K) (target : A) (now : N) : option (N * OrphanNotices) :=
  match (if is_some (on_entries s !! key) then Some s else room s) with
  | Some s => notice_schedule s key target 0 now
  | None => None
  end.

(** [failed]. *)
Definition notice_failed s (due : Due) (now : N) : option (option N * OrphanNotices) :=
  let tries := S (due_tries due) in
  if (NOTICE_TRIES <=? tries)%nat || is_some (on_entries s !! due_key due) then Some (None, s)
  else
    match room s with
    | Some s =>
        match notice_schedule s (due_key due) (due_target due) tries now with
        | Some (at_, s) => Some (Some at_, s)
        | None => None
        end
    | None => None
    end.

(** [forget]. *)
Definition notice_forget s (key : K) : OrphanNotices :=
  notices_with s (delete key (on_entries s)) (on_queues s) (on_deferred s) (on_deferred_keys s).

(** Insertion into the heap. *)
Fixpoint heap_push (item : N * N) (heap : list (N * N)) : list (N * N) :=
  match heap with
  | [] => [item]
  | x :: rest => if (item.1 <? x.1) || ((item.1 =? x.1) && (item.2 <=? x.2)) then item :: heap else x :: heap_push item rest
  end.

(** [defer]. *)
Definition notice_defer s (due : Due) (until : N) : option OrphanNotices :=
  if is_some (on_entries s !! due_key due) then Some s
  else
    match room s with
    | Some s =>
        let seq := on_seq s + 1 in
        Some (notices_compact
          (mkNotices (on_capacity s)
             (<[due_key due := mkNotice (due_target due) (due_tries due) until]> (on_entries s))
             (on_queues s) (heap_push (until, seq) (on_deferred s)) (<[seq := due_key due]> (on_deferred_keys s))
             seq (on_blocked s)))
    | None => None
    end.

(** [pop_open]; out of fuel is [None]. *)
Fixpoint pop_open_loop (fuel : nat) s (now : N) (group_of : A → G) : option (option Due * OrphanNotices) :=
  match fuel with
  | O => None
  | S fuel =>
      match pop_due s now with
      | None => None
      | Some (None, s) => Some (None, s)
      | Some (Some due, s) =>
          let group := group_of (due_target due) in
          match group_blocked s group now with
          | Some until =>
              match notice_defer s due until with
              | Some s => pop_open_loop fuel s now group_of
              | None => None
              end
          | None =>
              Some (Some due,
                    if is_some (on_blocked s !! group) then block_group s group (now + PROBE_HOLD) now else s)
          end
      end
  end.

Definition pop_open s (now : N) (group_of : A → G) : option (option Due * OrphanNotices) :=
  pop_open_loop (S (size (on_entries s))) s now group_of.

(** [observe]. *)
Definition notice_observe s (group : G) (cut : bool) (now : N) : OrphanNotices :=
  if (size (on_entries s) =? 0)%nat then s
  else if cut then
    let until := now + PROBE_HOLD in
    if match group_blocked s group now with Some u => u <? until | None => true end
    then block_group s group until now else s
  else notices_blocked s (delete group (on_blocked s)).

(** [release]. *)
Definition notice_release s (group : G) : OrphanNotices := notices_blocked s (delete group (on_blocked s)).

(** [offer_result]. *)
Definition offer_result s (due : Due) (e : OfferEnd) (group : G) (now : N) : option (option N * OrphanNotices) :=
  match e with
  | OfferEnd_Cut =>
      match NOTICE_DELAYS !! Nat.min (S (due_tries due)) (NOTICE_TRIES - 1), notice_failed s due now with
      | Some delay, Some (next, s) => Some (next, block_group s group (default (now + delay) next) now)
      | _, _ => None
      end
  | OfferEnd_Refused => notice_failed (notice_release s group) due now
  | OfferEnd_Delivered | OfferEnd_Dropped => Some (None, notice_release s group)
  end.
End notices.

Arguments Due : clear implicits.
Arguments OrphanNotices _ _ _ {_ _ _ _}.
