(* ===== verification/NoticeRuns.v ===== *)
(** * Runs of the orphan notices

    The queues and the heap of [Notices] are an index of its entries: every pending notice is
    found at its due time, none is lost, and the structure stays within its capacity, along
    every run whose clock does not go back. *)

From S2P Require Import Prelude ReadRules Walk Notices.
Local Open Scope N_scope.

Section runs.
Context {K A G : Type} `{Countable K} `{Countable G}.
Implicit Types (s : OrphanNotices K A G) (entries : gmap K (@NoticeEntry A)).

(** ** The invariant *)

Definition heap_lt (a b : N * N) : Prop := a.1 < b.1 ∨ a.1 = b.1 ∧ a.2 < b.2.

(** The notice for [k] sits in its queue, or in the heap. *)
Definition located s (k : K) (e : @NoticeEntry A) : Prop :=
  (∃ q, on_queues s !! ne_tries e = Some q ∧ (k, ne_due e) ∈ q) ∨
  (∃ seq, (ne_due e, seq) ∈ on_deferred s ∧ on_deferred_keys s !! seq = Some k).

Record notices_inv s : Prop := {
  ni_cap : (1 ≤ on_capacity s)%nat;
  ni_size : (size (on_entries s) ≤ on_capacity s)%nat;
  ni_blocked : (size (on_blocked s) ≤ on_capacity s)%nat;
  ni_queues : length (on_queues s) = NOTICE_TRIES;
  ni_entry : ∀ k e, on_entries s !! k = Some e → located s k e ∧ (ne_tries e < NOTICE_TRIES)%nat;
  ni_sorted : StronglySorted heap_lt (on_deferred s);
  ni_seqs : NoDup (on_deferred s).*2;
  ni_seq : ∀ item, item ∈ on_deferred s → item.2 ≤ on_seq s;
  ni_keys : ∀ item, item ∈ on_deferred s → is_Some (on_deferred_keys s !! item.2);
  ni_dom : ∀ seq k, on_deferred_keys s !! seq = Some k → seq ∈ (on_deferred s).*2
}.

(** Queues in the order of their due times, none later than a note at [t] would be. *)
Definition clocked (t : N) s : Prop := ∀ level q delay,
  on_queues s !! level = Some q → NOTICE_DELAYS !! level = Some delay →
  StronglySorted (λ a b, a.2 ≤ b.2) q ∧ Forall (λ item, item.2 ≤ t + delay) q.

(** ** Dropping what is not live *)

Record shrinks s s' : Prop := {
  sh_cap : on_capacity s' = on_capacity s;
  sh_blocked : on_blocked s' = on_blocked s;
  sh_seq : on_seq s' = on_seq s;
  sh_entries : on_entries s' ⊆ on_entries s;
  sh_len : length (on_queues s') = length (on_queues s);
  sh_queues : ∀ level q', on_queues s' !! level = Some q' → ∃ q, on_queues s !! level = Some q ∧ sublist q' q ∧
    ∀ item, item ∈ q → notice_live (on_entries s') level item = true → item ∈ q';
  sh_deferred : sublist (on_deferred s') (on_deferred s);
  sh_kept : ∀ item, item ∈ on_deferred s →
    deferred_live (on_entries s') (on_deferred_keys s) item = true → item ∈ on_deferred s';
  sh_keys : ∀ item, item ∈ on_deferred s' → on_deferred_keys s' !! item.2 = on_deferred_keys s !! item.2;
  sh_dom : ∀ seq k, on_deferred_keys s' !! seq = Some k → on_deferred_keys s !! seq = Some k ∧
    (seq ∈ (on_deferred s).*2 → seq ∈ (on_deferred s').*2)
}.

Lemma shrinks_refl s : shrinks s s.
Proof. split; try done. intros level q Hq. by exists q. Qed.

Lemma notice_live_sub entries entries' level item : entries' ⊆ entries →
  notice_live entries' level item = true → notice_live entries level item = true.
Proof.
  intros Hsub. unfold notice_live. destruct (entries' !! item.1) as [e|] eqn:He; [|done].
  by rewrite (lookup_weaken _ _ _ _ He Hsub).
Qed.

Lemma deferred_live_sub entries entries' keys item : entries' ⊆ entries →
  deferred_live entries' keys item = true → deferred_live entries keys item = true.
Proof.
  intros Hsub. unfold deferred_live. destruct (keys !! item.2) as [k|]; simpl; [|done].
  destruct (entries' !! k) as [e|] eqn:He; [|done]. by rewrite (lookup_weaken _ _ _ _ He Hsub).
Qed.

Lemma shrinks_trans s1 s2 s3 : shrinks s1 s2 → shrinks s2 s3 → shrinks s1 s3.
Proof.
  intros S1 S2. destruct S1 as [C1 B1 Q1 E1 L1 F1 D1 K1 Y1 M1], S2 as [C2 B2 Q2 E2 L2 F2 D2 K2 Y2 M2].
  split; try congruence; [by etransitivity| | | | |].
  - intros level q3 Hq3. destruct (F2 level q3 Hq3) as (q2 & Hq2 & Hs2 & Hk2).
    destruct (F1 level q2 Hq2) as (q1 & Hq1 & Hs1 & Hk1). exists q1. split_and!; [done|by etransitivity|].
    intros item Hi Hl. apply Hk2; [|done]. apply Hk1; [done|]. by eapply notice_live_sub.
  - by etransitivity.
  - intros item Hi Hl. assert (Hi2 : item ∈ on_deferred s2) by (apply K1; [done|by eapply deferred_live_sub]).
    apply K2; [done|]. unfold deferred_live in *. by rewrite (Y1 item Hi2).
  - intros item Hi. rewrite (Y2 item Hi). apply Y1. by eapply elem_of_sublist.
  - intros seq k Hk. destruct (M2 seq k Hk) as [Hk2 Hd2]. destruct (M1 seq k Hk2) as [Hk1 Hd1]. auto.
Qed.

Lemma notice_live_entry entries k e : entries !! k = Some e → notice_live entries (ne_tries e) (k, ne_due e) = true.
Proof. intros He. unfold notice_live. simpl. by rewrite He, Nat.eqb_refl, N.eqb_refl. Qed.

Lemma deferred_live_entry entries keys k e seq : entries !! k = Some e → keys !! seq = Some k →
  deferred_live entries keys (ne_due e, seq) = true.
Proof. intros He Hk. unfold deferred_live. simpl. rewrite Hk. simpl. by rewrite He, N.eqb_refl. Qed.

Lemma shrinks_inv s s' : notices_inv s → shrinks s s' → notices_inv s'.
Proof.
  intros Hi [C B Q E L F D Kp Y M]. split; rewrite ?C, ?B, ?Q, ?L; try apply Hi.
  - etransitivity; [by apply map_subseteq_size|apply Hi].
  - intros k e He. pose proof (lookup_weaken _ _ _ _ He E) as He0. destruct (ni_entry s Hi k e He0) as [Hloc Ht].
    split; [|done]. destruct Hloc as [(q & Hq & Hin)|(seq & Hin & Hk)].
    + left. assert (Hlen : (ne_tries e < length (on_queues s'))%nat) by (rewrite L; by eapply lookup_lt_Some).
      apply lookup_lt_is_Some in Hlen as [q' Hq']. destruct (F _ _ Hq') as (q0 & Hq0 & _ & Hkeep). simplify_eq.
      exists q'. split; [done|]. apply Hkeep; [done|by apply notice_live_entry].
    + right. exists seq. assert (Hin' : (ne_due e, seq) ∈ on_deferred s') by (apply Kp; [done|by eapply deferred_live_entry]).
      split; [done|]. specialize (Y _ Hin'). simpl in Y. by rewrite Y.
  - eapply sorted_sublist; [exact D|apply Hi].
  - eapply sublist_NoDup; [apply Hi|]. by apply fmap_sublist.
  - intros item Hitem. apply Hi. by eapply elem_of_sublist.
  - intros item Hitem. rewrite (Y _ Hitem). apply Hi. by eapply elem_of_sublist.
  - intros seq k Hk. destruct (M _ _ Hk) as [Hk0 Hd]. apply Hd. by eapply ni_dom.
Qed.

Lemma shrinks_clocked t s s' : clocked t s → shrinks s s' → clocked t s'.
Proof.
  intros Hc Hs level q delay Hq Hd. destruct (sh_queues _ _ Hs level q Hq) as (q0 & Hq0 & Hsub & _).
  destruct (Hc level q0 delay Hq0 Hd) as [Hso Hf]. split; [by eapply sorted_sublist|].
  rewrite Forall_forall in *. intros item Hitem. apply Hf. by eapply elem_of_sublist.
Qed.

(** ** Skipping *)

Lemma skip_queue_spec (live : K * N → bool) q :
  sublist (skip_queue live q) q ∧ (∀ item, item ∈ q → live item = true → item ∈ skip_queue live q) ∧
  (∀ item rest, skip_queue live q = item :: rest → live item = true).
Proof.
  induction q as [|x q (IH1 & IH2 & IH3)]; simpl; [done|]. destruct (live x) eqn:Hx.
  - split_and!; [done|done|]. by intros item rest [= <- <-].
  - split_and!; [by apply sublist_cons|..|done].
    intros item [->|Hin]%elem_of_cons Hl; [congruence|by apply IH2].
Qed.

Lemma skip_stale_shrinks s : shrinks s (skip_stale s).
Proof.
  unfold skip_stale. split; simpl; try done; [by rewrite length_imap|].
  intros level q'. rewrite list_lookup_imap. intros (q & Hq & ->)%fmap_Some. exists q.
  destruct (skip_queue_spec (notice_live (on_entries s) level) q) as (H1 & H2 & _). by split_and!.
Qed.

Lemma skip_stale_live s level item rest : on_queues (skip_stale s) !! level = Some (item :: rest) →
  notice_live (on_entries s) level item = true.
Proof.
  unfold skip_stale. simpl. rewrite list_lookup_imap. intros (q & Hq & He)%fmap_Some.
  destruct (skip_queue_spec (notice_live (on_entries s) level) q) as (_ & _ & H3). by eapply H3.
Qed.

Lemma skip_deferred_spec entries deferred keys : NoDup deferred.*2 →
  let '(deferred', keys') := skip_deferred entries deferred keys in
  ∃ dropped, deferred = dropped ++ deferred' ∧ (∀ item, item ∈ dropped → deferred_live entries keys item = false) ∧
    (∀ item, head deferred' = Some item → deferred_live entries keys' item = true) ∧
    ∀ seq, keys' !! seq = if bool_decide (seq ∈ dropped.*2) then None else keys !! seq.
Proof.
  revert keys. induction deferred as [|x deferred IH]; intros keys Hnd; simpl.
  { exists []. split_and!; [done|set_solver|done|]. intros seq. by rewrite bool_decide_eq_false_2 by set_solver. }
  apply NoDup_cons in Hnd as [Hx Hnd]. destruct (deferred_live entries keys x) eqn:Hl.
  { exists []. split_and!; [done|set_solver|by intros item [= <-]|]. intros seq. by rewrite bool_decide_eq_false_2 by set_solver. }
  specialize (IH (delete x.2 keys) Hnd). destruct (skip_deferred _ _ _) as [deferred' keys'].
  destruct IH as (dropped & -> & Hdead & Hlive & Hkeys). exists (x :: dropped). split_and!; [done| |done|].
  - intros item [->|Hin]%elem_of_cons; [done|]. specialize (Hdead item Hin). unfold deferred_live in *.
    rewrite lookup_delete_ne in Hdead; [done|]. intros Heq. apply Hx. rewrite Heq. apply list_elem_of_fmap.
    exists item. split; [done|]. set_solver.
  - intros seq. rewrite Hkeys, lookup_delete. simpl. destruct (decide (x.2 = seq)) as [<-|Hne];
      repeat case_bool_decide; try done; exfalso; set_solver.
Qed.

Lemma deferred_head_spec s : notices_inv s →
  let '(h, s') := deferred_head s in
  shrinks s s' ∧ on_entries s' = on_entries s ∧ on_queues s' = on_queues s ∧ h = head (on_deferred s') ∧
  ∀ item, h = Some item → deferred_live (on_entries s') (on_deferred_keys s') item = true.
Proof.
  intros Hi. unfold deferred_head. pose proof (skip_deferred_spec (on_entries s) (on_deferred s) (on_deferred_keys s) (ni_seqs s Hi)) as Hsp.
  destruct (skip_deferred _ _ _) as [deferred keys]. destruct Hsp as (dropped & Hd & Hdead & Hlive & Hkeys). simpl.
  pose proof (ni_seqs s Hi) as Hnd. rewrite Hd, fmap_app in Hnd. apply NoDup_app in Hnd as (_ & Hdisj & _).
  split_and!; try done. split; simpl; try done.
  - intros level q Hq. exists q. by split_and!.
  - rewrite Hd. apply sublist_inserts_l. done.
  - intros item. rewrite Hd. intros [Hin|Hin]%elem_of_app Hl; [by rewrite (Hdead item Hin) in Hl|done].
  - intros item Hin. rewrite Hkeys, bool_decide_eq_false_2; [done|]. intros Hx. apply (Hdisj _ Hx). by apply list_elem_of_fmap_2.
  - intros seq k Hk. rewrite Hkeys in Hk. case_bool_decide as Hx; [done|]. split; [done|].
    rewrite Hd, fmap_app. intros [?|?]%elem_of_app; done.
Qed.

(** ** Removing a front *)

Lemma drop_front s level key at_ rest : on_queues s !! level = Some ((key, at_) :: rest) →
  shrinks s (notices_with s (delete key (on_entries s)) (<[level := rest]> (on_queues s)) (on_deferred s) (on_deferred_keys s)).
Proof.
  intros Hq. split; simpl; try done; [apply delete_subseteq|by rewrite length_insert|].
  intros l q'. destruct (decide (level = l)) as [<-|Hne].
  - rewrite list_lookup_insert_eq by by eapply lookup_lt_Some. intros [= <-]. eexists. split_and!; [done|by apply sublist_cons|].
    intros item [->|Hin]%elem_of_cons Hl; [|done]. unfold notice_live in Hl. simpl in Hl. by rewrite lookup_delete_eq in Hl.
  - rewrite list_lookup_insert_ne by done. intros Hq'. exists q'. by split_and!.
Qed.

Lemma drop_head s at_ seq rest key : notices_inv s → on_deferred s = (at_, seq) :: rest → on_deferred_keys s !! seq = Some key →
  shrinks s (notices_with s (delete key (on_entries s)) (on_queues s) rest (delete seq (on_deferred_keys s))).
Proof.
  intros Hi Hd Hk. pose proof (ni_seqs s Hi) as Hnd. rewrite Hd in Hnd. apply NoDup_cons in Hnd as [Hnew _].
  split; simpl; try done; [apply delete_subseteq|..].
  - intros l q Hq. exists q. by split_and!.
  - rewrite Hd. by apply sublist_cons.
  - intros item. rewrite Hd. intros [->|Hin]%elem_of_cons Hl; [|done]. unfold deferred_live in Hl. simpl in Hl.
    rewrite Hk in Hl. simpl in Hl. by rewrite lookup_delete_eq in Hl.
  - intros item Hin. rewrite lookup_delete_ne; [done|]. intros ->. apply Hnew. apply (list_elem_of_fmap_2 snd rest item Hin).
  - intros seq' k Hk'. apply lookup_delete_Some in Hk' as [Hne Hk']. split; [done|]. rewrite Hd. simpl.
    intros [->|?]%elem_of_cons; done.
Qed.

Lemma forget_shrinks s key : shrinks s (notice_forget s key).
Proof.
  split; simpl; try done; [apply delete_subseteq|]. intros l q Hq. exists q. by split_and!.
Qed.

Lemma fronts_spec level0 (queues : list (list (K * N))) at_ level : (at_, level) ∈ fronts level0 queues ↔
  (level0 ≤ level)%nat ∧ ∃ key rest, queues !! (level - level0)%nat = Some ((key, at_) :: rest).
Proof.
  revert level0. induction queues as [|q queues IH]; intros level0; simpl.
  { split; [by intros ?%elem_of_nil|]. by intros (_ & key & rest & ?). }
  rewrite elem_of_app, (IH (S level0)). split.
  - intros [Hin|(Hle & key & rest & Hq)].
    + destruct q as [|[key at'] rest]; [by apply elem_of_nil in Hin|]. apply list_elem_of_singleton in Hin as [= -> ->].
      split; [done|]. rewrite Nat.sub_diag. by exists key, rest.
    + split; [lia|]. exists key, rest. by replace (level - level0)%nat with (S (level - S level0)) by lia.
  - intros (Hle & key & rest & Hq). destruct (decide (level = level0)) as [->|Hne].
    + rewrite Nat.sub_diag in Hq. simpl in Hq. injection Hq as ->. left. by left.
    + right. split; [lia|]. exists key, rest. by replace (level - level0)%nat with (S (level - S level0)) in Hq by lia.
Qed.

(** A state whose fronts and head are live. *)
Definition fronts_settled s : Prop :=
  (∀ level item rest, on_queues s !! level = Some (item :: rest) → notice_live (on_entries s) level item = true) ∧
  (∀ item, head (on_deferred s) = Some item → deferred_live (on_entries s) (on_deferred_keys s) item = true).

Lemma notice_settle_spec s : notices_inv s →
  let '(h, s') := deferred_head (skip_stale s) in
  shrinks s s' ∧ on_entries s' = on_entries s ∧ on_queues s' = on_queues (skip_stale s) ∧ h = head (on_deferred s') ∧
  fronts_settled s' ∧ notices_inv s'.
Proof.
  intros Hi. pose proof (skip_stale_shrinks s) as H1. pose proof (shrinks_inv _ _ Hi H1) as Hi1.
  pose proof (deferred_head_spec (skip_stale s) Hi1) as H2. destruct (deferred_head (skip_stale s)) as [h s'].
  destruct H2 as (H2 & He & Hq & Hh & Hl). pose proof (shrinks_trans _ _ _ H1 H2) as Hs.
  split_and!; try done; [|by eapply shrinks_inv]. split.
  - intros level item rest Hfront. rewrite Hq in Hfront. rewrite He. by apply skip_stale_live in Hfront.
  - intros item Hitem. apply Hl. by rewrite Hh.
Qed.

(** In a settled state a pending notice is no earlier than some front or the head. *)
Lemma settled_bound t s k e : notices_inv s → clocked t s → on_entries s !! k = Some e →
  (∃ at_ level, (at_, level) ∈ fronts 0 (on_queues s) ∧ at_ ≤ ne_due e) ∨
  (∃ item, head (on_deferred s) = Some item ∧ item.1 ≤ ne_due e).
Proof.
  intros Hi Hc He. destruct (ni_entry s Hi k e He) as [[(q & Hq & Hin)|(seq & Hin & _)] Ht].
  - left. destruct q as [|[key at_] rest]; [by apply elem_of_nil in Hin|]. exists at_, (ne_tries e). split.
    + apply fronts_spec. split; [lia|]. rewrite Nat.sub_0_r. eauto.
    + assert (Hd : is_Some (NOTICE_DELAYS !! ne_tries e)) by (apply lookup_lt_is_Some; done). destruct Hd as [delay Hd].
      destruct (Hc _ _ _ Hq Hd) as [Hso _]. apply StronglySorted_inv in Hso as [_ Hf].
      apply elem_of_cons in Hin as [[= -> ->]|Hin]; [done|]. rewrite Forall_forall in Hf. apply (Hf _ Hin).
  - right. pose proof (ni_sorted s Hi) as Hso. destruct (on_deferred s) as [|x rest]; [by apply elem_of_nil in Hin|].
    exists x. split; [done|]. apply StronglySorted_inv in Hso as [_ Hf].
    apply elem_of_cons in Hin as [<-|Hin]; [done|]. rewrite Forall_forall in Hf. destruct (Hf _ Hin) as [?|[? _]]; simpl in *; lia.
Qed.

Lemma live_entry entries level key at_ : notice_live entries level (key, at_) = true →
  ∃ e, entries !! key = Some e ∧ ne_tries e = level ∧ ne_due e = at_.
Proof.
  unfold notice_live. simpl. destruct (entries !! key) as [e|]; [|done].
  intros [?%Nat.eqb_eq ?%N.eqb_eq]%andb_true_iff. by exists e.
Qed.

Lemma deferred_entry entries keys at_ seq : deferred_live entries keys (at_, seq) = true →
  ∃ key e, keys !! seq = Some key ∧ entries !! key = Some e ∧ ne_due e = at_.
Proof.
  unfold deferred_live. simpl. destruct (keys !! seq) as [key|]; simpl; [|done].
  destruct (entries !! key) as [e|] eqn:He; [|done]. intros ?%N.eqb_eq. by exists key, e.
Qed.

(** ** Due notices *)

(** The earliest front due at [now]. *)
Lemma queued_spec s now :
  match snd <$> min_by_key fst (List.filter (λ c, c.1 <=? now) (fronts 0 (on_queues s))) with
  | Some (at_, level) => at_ ≤ now ∧ (∃ key rest, on_queues s !! level = Some ((key, at_) :: rest)) ∧
      ∀ at' level', (at', level') ∈ fronts 0 (on_queues s) → at' ≤ now → at_ ≤ at'
  | None => ∀ at' level', (at', level') ∈ fronts 0 (on_queues s) → now < at'
  end.
Proof.
  set (l := List.filter _ _).
  assert (Hin : ∀ c, c ∈ l ↔ c ∈ fronts 0 (on_queues s) ∧ c.1 ≤ now).
  { intros c. unfold l. rewrite list_elem_of_In, filter_In, <- list_elem_of_In, N.leb_le. done. }
  destruct (min_by_key fst l) as [[i [at_ level]]|] eqn:Hm; simpl.
  - apply min_by_key_Some in Hm as [Hi Hmin]. apply list_elem_of_lookup_2, Hin in Hi as [Hf Hle]. simpl in Hle.
    split; [done|]. apply fronts_spec in Hf as (_ & key & rest & Hq). rewrite Nat.sub_0_r in Hq. split; [eauto|].
    intros at' level' Hf' Hle'. apply (Hmin (at', level')), Hin. done.
  - apply min_by_key_None in Hm. intros at' level' Hf. apply N.lt_nge. intros Hle.
    assert (Hx : (at', level') ∈ l) by by apply Hin. rewrite Hm in Hx. by apply elem_of_nil in Hx.
Qed.

(** Removing the earliest notice. *)
Definition popped_ok s now (r : option (Due K A)) s' : Prop :=
  match r with
  | None => on_entries s' = on_entries s ∧ ∀ k e, on_entries s !! k = Some e → now < ne_due e
  | Some d => ∃ e, on_entries s !! due_key d = Some e ∧ due_target d = ne_target e ∧ due_tries d = ne_tries e ∧
      ne_due e ≤ now ∧ on_entries s' = delete (due_key d) (on_entries s) ∧
      ∀ k e', on_entries s !! k = Some e' → ne_due e ≤ ne_due e'
  end.

Lemma pop_front_ok t s level key at_ rest now : notices_inv s → clocked t s → fronts_settled s →
  on_queues s !! level = Some ((key, at_) :: rest) → at_ ≤ now →
  (∀ at' level', (at', level') ∈ fronts 0 (on_queues s) → at' ≤ now → at_ ≤ at') →
  (∀ item, head (on_deferred s) = Some item → item.1 ≤ now → at_ ≤ item.1) →
  ∃ d s', take_notice (pop_queue s level) = Some (Some d, s') ∧ shrinks s s' ∧ popped_ok s now (Some d) s'.
Proof.
  intros Hi Hc [Hf _] Hq Hle Hmin Hmin'. destruct (live_entry _ _ _ _ (Hf _ _ _ Hq)) as (e & He & Ht & Hd).
  do 2 eexists. split; [unfold take_notice, pop_queue; rewrite Hq; simpl; by rewrite He|].
  split; [apply (drop_front s level key at_ rest Hq)|]. exists e. simpl. split_and!; try done; [lia|].
  intros k e' He'. destruct (settled_bound t s k e' Hi Hc He') as [(at' & level' & Hin & Hle')|(item & Hh & Hle')].
  - destruct (N.le_gt_cases at' now); [|lia]. specialize (Hmin _ _ Hin ltac:(done)). lia.
  - destruct (N.le_gt_cases item.1 now); [|lia]. specialize (Hmin' _ Hh ltac:(done)). lia.
Qed.

Lemma pop_head_ok t s at_ seq now : notices_inv s → clocked t s → fronts_settled s →
  head (on_deferred s) = Some (at_, seq) → at_ ≤ now →
  (∀ at' level', (at', level') ∈ fronts 0 (on_queues s) → at' ≤ now → at_ ≤ at') →
  ∃ d s', take_notice (pop_deferred s seq) = Some (Some d, s') ∧ shrinks s s' ∧ popped_ok s now (Some d) s'.
Proof.
  intros Hi Hc [_ Hl] Hh Hle Hmin. destruct (deferred_entry _ _ _ _ (Hl _ Hh)) as (key & e & Hk & He & Hd).
  destruct (on_deferred s) as [|x rest] eqn:Hdef; [done|]. injection Hh as ->.
  do 2 eexists. split; [unfold take_notice, pop_deferred; rewrite Hk; simpl; by rewrite He|].
  split; [simpl; rewrite Hdef; apply (drop_head s at_ seq rest key Hi Hdef Hk)|]. exists e. simpl. split_and!; try done; [lia|].
  intros k e' He'. destruct (settled_bound t s k e' Hi Hc He') as [(at' & level' & Hin & Hle')|(item & Hh & Hle')].
  - destruct (N.le_gt_cases at' now); [|lia]. specialize (Hmin _ _ Hin ltac:(done)). lia.
  - rewrite Hdef in Hh. injection Hh as <-. simpl in *. lia.
Qed.

Lemma pop_due_spec t s now : notices_inv s → clocked t s →
  ∃ r s', pop_due s now = Some (r, s') ∧ shrinks s s' ∧ popped_ok s now r s'.
Proof.
  intros Hi Hc. unfold pop_due. pose proof (notice_settle_spec s Hi) as Hset. pose proof (queued_spec (skip_stale s) now) as Hq.
  destruct (deferred_head (skip_stale s)) as [h s2]. destruct Hset as (Hs & He & Hqs & Hh & Hset & Hi2). rewrite <- Hqs in Hq |- *.
  pose proof (shrinks_clocked t _ _ Hc Hs) as Hc2. set (queued := snd <$> _) in *. clearbody queued.
  assert (Hgo : ∀ r s', shrinks s2 s' → popped_ok s2 now r s' → shrinks s s' ∧ popped_ok s now r s').
  { intros r s' Hs' Hp. split; [by eapply shrinks_trans|]. unfold popped_ok in *. by rewrite He in Hp. }
  assert (Hpop : ∀ o, (∃ d s', o = Some (Some d, s') ∧ shrinks s2 s' ∧ popped_ok s2 now (Some d) s') →
    ∃ r s', o = Some (r, s') ∧ shrinks s s' ∧ popped_ok s now r s').
  { intros o (d & s' & -> & H1 & H2). do 2 eexists. split; [done|]. by apply Hgo. }
  subst h. destruct queued as [[at_ level]|].
  - destruct Hq as (Hle & (key & rest & Hfr) & Hmin).
    assert (Hfront : (∀ item, head (on_deferred s2) = Some item → item.1 ≤ now → at_ ≤ item.1) →
      ∃ r s', take_notice (pop_queue s2 level) = Some (r, s') ∧ shrinks s s' ∧ popped_ok s now r s')
      by (intros Hmin'; apply Hpop; by eapply (pop_front_ok t)).
    destruct (head (on_deferred s2)) as [[at' seq]|] eqn:Hh; [|by apply Hfront].
    destruct (N.leb_spec at' now); [|by apply Hfront; intros item [= <-] ?; simpl in *; lia].
    destruct (N.leb_spec at_ at'); [by apply Hfront; intros item [= <-] ?|].
    apply Hpop. eapply (pop_head_ok t); try done. intros a l Hin Ha. specialize (Hmin a l Hin Ha). lia.
  - assert (Hnone : ∀ at' level', (at', level') ∈ fronts 0 (on_queues s2) → at' ≤ now → False)
      by (intros a l Hin Ha; specialize (Hq a l Hin); lia).
    assert (Hempty : (∀ item, head (on_deferred s2) = Some item → now < item.1) →
      ∃ r s', Some (None, s2) = Some (r, s') ∧ shrinks s s' ∧ popped_ok s now r s').
    { intros Hhead. do 2 eexists. split; [done|]. split; [done|]. split; [done|]. intros k e Hk. rewrite <- He in Hk.
      destruct (settled_bound t s2 k e Hi2 Hc2 Hk) as [(a & l & Hin & Hle)|(item & Hh & Hle)].
      - specialize (Hq a l Hin). lia.
      - specialize (Hhead item Hh). lia. }
    destruct (head (on_deferred s2)) as [[at' seq]|] eqn:Hh; [|by apply Hempty].
    destruct (N.leb_spec at' now); [|by apply Hempty; intros item [= <-]].
    apply Hpop. eapply (pop_head_ok t); try done. intros a l Hin Ha. by destruct (Hnone a l Hin Ha).
Qed.

(** The next due time is that of the earliest notice. *)
Lemma next_due_spec t s : notices_inv s → clocked t s →
  let '(r, s') := next_due s in
  shrinks s s' ∧ on_entries s' = on_entries s ∧
  match r with
  | None => on_entries s = ∅
  | Some d => (∃ k e, on_entries s !! k = Some e ∧ ne_due e = d) ∧ ∀ k e, on_entries s !! k = Some e → d ≤ ne_due e
  end.
Proof.
  intros Hi Hc. unfold next_due. pose proof (notice_settle_spec s Hi) as Hset. destruct (deferred_head (skip_stale s)) as [h s2].
  destruct Hset as (Hs & He & _ & Hh & [Hf Hl] & Hi2). pose proof (shrinks_clocked t _ _ Hc Hs) as Hc2. subst h.
  set (l := (fronts 0 (on_queues s2)).*1 ++ _).
  assert (Hin : ∀ d, d ∈ l ↔ (∃ level, (d, level) ∈ fronts 0 (on_queues s2)) ∨ (∃ seq, head (on_deferred s2) = Some (d, seq))).
  { intros d. unfold l. rewrite elem_of_app, list_elem_of_fmap. destruct (head (on_deferred s2)) as [[at' seq]|].
    - rewrite list_elem_of_singleton. split; [intros [([d' lv] & -> & ?)| ->]|intros [[lv ?]|[seq' [= -> ->]]]]; eauto.
      left. by exists (d, lv).
    - rewrite elem_of_nil. split; [intros [([d' lv] & -> & ?)|[]]|intros [[lv ?]|[seq' ?]]]; eauto; [|done]. left. by exists (d, lv). }
  clearbody l. split_and!; [done|done|]. destruct (min_by_key id l) as [[i d]|] eqn:Hm; simpl.
  - apply min_by_key_Some in Hm as [Hd Hmin]. apply list_elem_of_lookup_2, Hin in Hd. split.
    + destruct Hd as [[level Hfr]|[seq Hh]].
      * apply fronts_spec in Hfr as (_ & key & rest & Hq). rewrite Nat.sub_0_r in Hq.
        destruct (live_entry _ _ _ _ (Hf _ _ _ Hq)) as (e & He' & _ & Hd). exists key, e. by rewrite <- He.
      * destruct (deferred_entry _ _ _ _ (Hl _ Hh)) as (key & e & _ & He' & Hd). exists key, e. by rewrite <- He.
    + intros k e Hk. rewrite <- He in Hk. destruct (settled_bound t s2 k e Hi2 Hc2 Hk) as [(a & lv & Hfr & Hle)|([a seq] & Hh & Hle)].
      * assert (id d ≤ id a) by (apply Hmin, Hin; eauto). unfold id in *. lia.
      * assert (id d ≤ id a) by (apply Hmin, Hin; eauto). unfold id in *. simpl in *. lia.
  - apply min_by_key_None in Hm. apply map_empty. intros k. apply eq_None_not_Some. intros [e Hk]. rewrite <- He in Hk.
    destruct (settled_bound t s2 k e Hi2 Hc2 Hk) as [(a & lv & Hfr & _)|([a seq] & Hh & _)].
    + assert (Hx : a ∈ l) by (apply Hin; eauto). rewrite Hm in Hx. by apply elem_of_nil in Hx.
    + assert (Hx : a ∈ l) by (apply Hin; eauto). rewrite Hm in Hx. by apply elem_of_nil in Hx.
Qed.

(** ** Making room *)

Lemma last_front_spec (queues : list (list (K * N))) :
  match last_front queues with
  | Some (level, key) => ∃ at_ rest, queues !! level = Some ((key, at_) :: rest)
  | None => ∀ level q, queues !! level = Some q → q = []
  end.
Proof.
  induction queues as [|q queues IH]; simpl; [done|]. destruct (last_front queues) as [[level key]|]; [done|].
  destruct q as [|[key at_] rest]; [|by exists at_, rest]. intros [|level] q Hq; [by injection Hq|by eapply IH].
Qed.

Lemma evict_spec s : notices_inv s → ∃ ok s', evict s = Some (ok, s') ∧ shrinks s s' ∧
  if ok then (size (on_entries s') < size (on_entries s))%nat else on_entries s = ∅.
Proof.
  intros Hi. unfold evict. pose proof (skip_stale_shrinks s) as H1. pose proof (shrinks_inv _ _ Hi H1) as Hi1.
  pose proof (last_front_spec (on_queues (skip_stale s))) as Hlf. destruct (last_front _) as [[level key]|].
  - destruct Hlf as (at_ & rest & Hq). unfold pop_queue. rewrite Hq. do 2 eexists. split; [done|]. split.
    + eapply shrinks_trans; [exact H1|]. apply (drop_front _ level key at_ rest Hq).
    + simpl. destruct (live_entry _ _ _ _ (skip_stale_live s level _ _ Hq)) as (e & He & _).
      rewrite map_size_delete_Some by eauto. assert (size (on_entries s) ≠ 0%nat) by (eapply map_size_ne_0_lookup_2; eauto). lia.
  - pose proof (deferred_head_spec _ Hi1) as H2. destruct (deferred_head (skip_stale s)) as [h s2].
    destruct H2 as (H2 & He & Hq & Hh & Hl). pose proof (shrinks_inv _ _ Hi1 H2) as Hi2. destruct h as [[at_ seq]|].
    + destruct (deferred_entry _ _ _ _ (Hl _ eq_refl)) as (key & e & Hk & He' & _). unfold pop_deferred. rewrite Hk.
      destruct (on_deferred s2) as [|x rest] eqn:Hd; [done|]. injection Hh as <-. do 2 eexists. split; [done|]. split.
      * eapply shrinks_trans; [exact H1|]. eapply shrinks_trans; [exact H2|]. simpl. apply (drop_head s2 at_ seq rest key Hi2 Hd Hk).
      * simpl. rewrite map_size_delete_Some by eauto. rewrite He in He' |- *.
        assert (size (on_entries s) ≠ 0%nat) by (eapply map_size_ne_0_lookup_2; eauto). simpl in *. lia.
    + do 2 eexists. split; [done|]. split; [by eapply shrinks_trans|]. change (on_entries s) with (on_entries (skip_stale s)).
      rewrite <- He. apply map_empty. intros k. apply eq_None_not_Some. intros [e Hk].
      destruct (ni_entry s2 Hi2 k e Hk) as [[(q & Hq' & Hin)|(seq & Hin & _)] _].
      * rewrite Hq in Hq'. rewrite (Hlf _ _ Hq') in Hin. by apply elem_of_nil in Hin.
      * destruct (on_deferred s2); [by apply elem_of_nil in Hin|done].
Qed.

Lemma notice_room_loop fuel s : notices_inv s → (size (on_entries s) < fuel)%nat →
  ∃ s', notice_make_room fuel s = Some s' ∧ shrinks s s' ∧ (size (on_entries s') < on_capacity s')%nat ∧
    ((size (on_entries s) < on_capacity s)%nat → s' = s).
Proof.
  revert s. induction fuel as [|fuel IH]; intros s Hi Hf; [lia|]. simpl.
  destruct (Nat.leb_spec (on_capacity s) (size (on_entries s))) as [Hge|Hlt].
  2: { exists s. split_and!; [done|apply shrinks_refl|done|done]. }
  destruct (evict_spec s Hi) as (ok & s1 & -> & Hs & Hok). pose proof (shrinks_inv _ _ Hi Hs) as Hi1. destruct ok.
  - destruct (IH s1 Hi1 ltac:(lia)) as (s' & Hm & Hs' & Hlt & _). exists s'. split_and!; [done|by eapply shrinks_trans|done|lia].
  - exfalso. pose proof (ni_cap s Hi). rewrite Hok, map_size_empty in Hge. lia.
Qed.

Lemma notice_room_spec s : notices_inv s → ∃ s', room s = Some s' ∧ shrinks s s' ∧ (size (on_entries s') < on_capacity s')%nat ∧
  ((size (on_entries s) < on_capacity s)%nat → s' = s).
Proof. intros Hi. apply notice_room_loop; [done|lia]. Qed.

(** ** Compaction *)

Lemma pruned_keys (live : N * N → bool) (deferred : list (N * N)) (keys : gmap N K) seq :
  foldl (λ keys item, if live item then keys else delete item.2 keys) keys deferred !! seq =
  if bool_decide (seq ∈ (List.filter (λ item, negb (live item)) deferred).*2) then None else keys !! seq.
Proof.
  revert keys. induction deferred as [|x deferred IH]; intros keys; simpl.
  { done. }
  rewrite IH. destruct (live x); simpl; [done|]. rewrite lookup_delete.
  destruct (decide (x.2 = seq)) as [<-|Hne]; repeat case_bool_decide; try done; exfalso; set_solver.
Qed.

Lemma compact_deferred_shrinks s : notices_inv s → shrinks s (compact_deferred s).
Proof.
  intros Hi. unfold compact_deferred. destruct (_ <? _)%nat; [|apply shrinks_refl].
  set (live := deferred_live (on_entries s) (on_deferred_keys s)).
  assert (Huniq : ∀ a b, a ∈ on_deferred s → b ∈ on_deferred s → a.2 = b.2 → a = b).
  { intros a b Ha Hb Hab. pose proof (ni_seqs s Hi) as Hnd. apply list_elem_of_lookup in Ha as [i Ha], Hb as [j Hb].
    assert (i = j) as ->; [|by simplify_eq]. eapply NoDup_lookup; [exact Hnd|by rewrite list_lookup_fmap, Ha|].
    rewrite list_lookup_fmap, Hb. simpl. by rewrite Hab. }
  split; simpl; try done.
  - intros level q Hq. exists q. by split_and!.
  - apply filter_sublist.
  - intros item Hin Hl. by apply elem_of_filter_b.
  - intros item [Hin Hl]%elem_of_filter_b. rewrite pruned_keys, bool_decide_eq_false_2; [done|].
    intros (b & Hab & [Hb Hbl]%elem_of_filter_b)%list_elem_of_fmap. rewrite (Huniq _ _ Hin Hb Hab) in Hl. by rewrite Hl in Hbl.
  - intros seq k. rewrite pruned_keys. case_bool_decide as Hx; [done|]. intros Hk. split; [done|].
    intros (a & -> & Ha)%list_elem_of_fmap. apply list_elem_of_fmap. exists a. split; [done|]. apply elem_of_filter_b.
    split; [done|]. destruct (live a) eqn:Hl; [done|]. exfalso. apply Hx, list_elem_of_fmap. exists a. split; [done|].
    apply elem_of_filter_b. by rewrite Hl.
Qed.

Lemma compact_shrinks s : notices_inv s → shrinks s (notices_compact s) ∧ on_entries (notices_compact s) = on_entries s.
Proof.
  intros Hi. unfold notices_compact. pose proof (compact_deferred_shrinks s Hi) as H1.
  assert (He : on_entries (compact_deferred s) = on_entries s) by (unfold compact_deferred; by destruct (_ <? _)%nat).
  destruct (_ <=? _)%nat; [done|]. split; [|done]. eapply shrinks_trans; [exact H1|].
  split; simpl; try done; [by rewrite length_imap|].
  intros level q'. rewrite list_lookup_imap. intros (q & Hq & ->)%fmap_Some. exists q.
  split_and!; [done|apply filter_sublist|]. intros item Hin Hl. by apply elem_of_filter_b.
Qed.

(** ** Scheduling *)

Lemma clocked_mono t t' s : t ≤ t' → clocked t s → clocked t' s.
Proof.
  intros Ht Hc level q delay Hq Hd. destruct (Hc level q delay Hq Hd) as [Hs Hf]. split; [done|].
  eapply Forall_impl; [exact Hf|]. simpl. lia.
Qed.

(** An entry put in its queue. *)
Lemma push_inv s key target tries due q :
  notices_inv s → (tries < NOTICE_TRIES)%nat → on_queues s !! tries = Some q →
  ((size (on_entries s) < on_capacity s)%nat ∨ is_Some (on_entries s !! key)) →
  notices_inv (notices_with s (<[key := mkNotice target tries due]> (on_entries s))
    (<[tries := q ++ [(key, due)]]> (on_queues s)) (on_deferred s) (on_deferred_keys s)).
Proof.
  intros Hi Ht Hq Hroom. pose proof (lookup_lt_Some _ _ _ Hq) as Hlt.
  split; simpl; try apply Hi; [apply insert_size_le; pose proof (ni_size s Hi); tauto|by rewrite length_insert; apply Hi|].
  intros k e He. apply lookup_insert_Some in He as [[<- <-]|[Hne He]]; simpl.
  - split; [|done]. left. exists (q ++ [(key, due)]). simpl. split; [by apply list_lookup_insert_eq|]. set_solver.
  - destruct (ni_entry s Hi k e He) as [[(q0 & Hq0 & Hin)|Hdef] Htr]; (split; [|done]); [left|by right].
    destruct (decide (tries = ne_tries e)) as [->|Hnt].
    + simplify_eq. exists (q ++ [(key, due)]). simpl. split; [by apply list_lookup_insert_eq|]. set_solver.
    + exists q0. simpl. split; [by rewrite list_lookup_insert_ne|done].
Qed.

Lemma schedule_spec t s key target tries now : notices_inv s → clocked t s → t ≤ now → (tries < NOTICE_TRIES)%nat →
  ((size (on_entries s) < on_capacity s)%nat ∨ is_Some (on_entries s !! key)) →
  ∃ delay s', NOTICE_DELAYS !! tries = Some delay ∧ notice_schedule s key target tries now = Some (now + delay, s') ∧
    notices_inv s' ∧ clocked now s' ∧ on_entries s' = <[key := mkNotice target tries (now + delay)]> (on_entries s) ∧
    on_capacity s' = on_capacity s ∧ on_blocked s' = on_blocked s.
Proof.
  intros Hi Hc Ht Htr Hroom. destruct (lookup_lt_is_Some_2 NOTICE_DELAYS tries) as [delay Hd]; [done|].
  destruct (lookup_lt_is_Some_2 (on_queues s) tries) as [q Hq]; [by rewrite (ni_queues s Hi)|].
  exists delay. unfold notice_schedule. rewrite Hd, Hq. eexists. split; [done|]. split; [done|].
  match goal with |- context [notices_compact ?x] => set (s1 := x) end.
  assert (Hi1 : notices_inv s1) by by apply push_inv. destruct (compact_shrinks s1 Hi1) as [Hs He].
  split_and!; [by eapply shrinks_inv| |done|apply Hs|apply Hs].
  eapply shrinks_clocked; [|exact Hs]. intros level q' delay' Hq' Hd'. unfold s1 in Hq'. simpl in Hq'.
  destruct (decide (tries = level)) as [<-|Hne].
  - rewrite list_lookup_insert_eq in Hq' by by eapply lookup_lt_Some. simplify_eq. destruct (Hc _ _ _ Hq Hd) as [Hso Hf].
    assert (Hf' : Forall (λ item, item.2 ≤ now + delay) q) by (eapply Forall_impl; [exact Hf|]; simpl; lia).
    split; [by apply (sorted_snoc (λ a b : K * N, a.2 ≤ b.2))|]. apply Forall_app. split; [done|]. by constructor.
  - rewrite list_lookup_insert_ne in Hq' by done. apply (clocked_mono t now s Ht Hc level q' delay' Hq' Hd').
Qed.

(** ** Deferring *)

Lemma heap_push_perm item heap : heap_push item heap ≡ₚ item :: heap.
Proof.
  induction heap as [|x heap IH]; simpl; [done|]. destruct (_ || _); [done|]. rewrite IH. apply Permutation_swap.
Qed.

Lemma heap_push_sorted item heap : StronglySorted heap_lt heap → item.2 ∉ heap.*2 → StronglySorted heap_lt (heap_push item heap).
Proof.
  induction heap as [|x heap IH]; simpl; intros Hs Hn; [repeat constructor|]. apply StronglySorted_inv in Hs as [Hs Hx].
  assert (Hne : item.2 ≠ x.2) by set_solver. destruct (_ || _) eqn:Hc.
  - assert (Hlt : heap_lt item x).
    { unfold heap_lt. apply orb_true_iff in Hc as [?%N.ltb_lt|[?%N.eqb_eq ?%N.leb_le]%andb_true_iff]; lia. }
    constructor; [by constructor|]. constructor; [done|]. eapply Forall_impl; [exact Hx|]. intros y Hy.
    unfold heap_lt in *. lia.
  - constructor; [apply IH; [done|set_solver]|]. rewrite heap_push_perm. constructor; [|done].
    unfold heap_lt. apply orb_false_iff in Hc as [?%N.ltb_ge Hc]. apply andb_false_iff in Hc as [?%N.eqb_neq|?%N.leb_gt]; lia.
Qed.

Lemma defer_spec t s due until : notices_inv s → clocked t s → on_entries s !! due_key due = None →
  (size (on_entries s) < on_capacity s)%nat → (due_tries due < NOTICE_TRIES)%nat →
  ∃ s', notice_defer s due until = Some s' ∧ notices_inv s' ∧ clocked t s' ∧
    on_entries s' = <[due_key due := mkNotice (due_target due) (due_tries due) until]> (on_entries s) ∧
    on_capacity s' = on_capacity s ∧ on_blocked s' = on_blocked s.
Proof.
  intros Hi Hc Hn Hroom Ht. unfold notice_defer. rewrite Hn. simpl.
  destruct (notice_room_spec s Hi) as (s0 & -> & _ & _ & Hsame). rewrite (Hsame Hroom). eexists. split; [done|].
  match goal with |- context [notices_compact ?x] => set (s1 := x) end.
  assert (Hfresh : on_seq s + 1 ∉ (on_deferred s).*2).
  { intros (item & Hq & Hin)%list_elem_of_fmap. pose proof (ni_seq s Hi item Hin). lia. }
  assert (Hkfresh : on_deferred_keys s !! (on_seq s + 1) = None).
  { apply eq_None_not_Some. intros [k Hk]. apply Hfresh. by eapply ni_dom. }
  assert (Hin : ∀ item, item ∈ on_deferred s1 ↔ item = (until, on_seq s + 1) ∨ item ∈ on_deferred s).
  { intros item. simpl. rewrite heap_push_perm. by rewrite elem_of_cons. }
  assert (Hi1 : notices_inv s1).
  { split; try apply Hi.
    - apply insert_size_le. by left.
    - intros k e He. simpl in He. apply lookup_insert_Some in He as [[<- <-]|[Hne He]].
      + split; [|done]. right. exists (on_seq s + 1). rewrite Hin. split; [by left|]. simpl. apply lookup_insert_eq.
      + destruct (ni_entry s Hi k e He) as [[Hq|(seq & Hd & Hk)] Htr]; (split; [|done]); [by left|right].
        exists seq. rewrite Hin. split; [by right|]. simpl. rewrite lookup_insert_ne; [done|]. intros <-. congruence.
    - apply heap_push_sorted; [apply Hi|done].
    - simpl. rewrite heap_push_perm. simpl. apply NoDup_cons. split; [done|apply Hi].
    - intros item [->|Hd]%Hin; simpl; [lia|]. pose proof (ni_seq s Hi item Hd). lia.
    - intros item [->|Hd]%Hin; simpl; [rewrite lookup_insert_eq; by eexists|].
      destruct (ni_keys s Hi item Hd) as [k Hk]. destruct (decide (on_seq s + 1 = item.2)) as [->|?];
        [rewrite lookup_insert_eq; by eexists|rewrite lookup_insert_ne by done; by eexists].
    - intros seq k Hk. simpl in Hk |- *. rewrite heap_push_perm. simpl.
      apply lookup_insert_Some in Hk as [[<- _]|[_ Hk]]; [set_solver|]. apply elem_of_cons. right. by eapply ni_dom. }
  destruct (compact_shrinks s1 Hi1) as [Hs He].
  split_and!; [by eapply shrinks_inv|apply (shrinks_clocked t s1); [exact Hc|exact Hs]|done|apply Hs|apply Hs].
Qed.

(** ** Blocked groups *)

Lemma block_group_ok t s group until now : notices_inv s → clocked t s →
  notices_inv (block_group s group until now) ∧ clocked t (block_group s group until now) ∧
  on_entries (block_group s group until now) = on_entries s.
Proof.
  intros Hi Hc. unfold block_group.
  assert (Hgo : ∀ blocked, (size blocked ≤ on_capacity s)%nat → notices_inv (notices_blocked s blocked) ∧
    clocked t (notices_blocked s blocked) ∧ on_entries (notices_blocked s blocked) = on_entries s).
  { intros blocked Hsize. split_and!; [|exact Hc|done]. split; try apply Hi. exact Hsize. }
  set (kept := filter _ _). assert (Hkept : (size kept ≤ on_capacity s)%nat).
  { etransitivity; [apply map_subseteq_size, map_filter_subseteq|apply Hi]. }
  destruct (negb _ && _) eqn:Hfull.
  - destruct (Nat.leb_spec (on_capacity s) (size kept)); apply Hgo; [done|]. rewrite map_size_insert. destruct (kept !! group); unfold id; lia.
  - apply Hgo. rewrite map_size_insert. pose proof (ni_blocked s Hi). destruct (on_blocked s !! group); simpl in *; unfold id; [done|].
    apply Nat.leb_gt in Hfull. lia.
Qed.

Lemma release_ok t s group : notices_inv s → clocked t s →
  notices_inv (notice_release s group) ∧ clocked t (notice_release s group).
Proof.
  intros Hi Hc. split; [|exact Hc]. split; try apply Hi. simpl.
  etransitivity; [apply map_subseteq_size, delete_subseteq|apply Hi].
Qed.

(** ** Open offers *)

Variable group_of : A → G.

(** A notice kept as it was, or put off to the end of its group's block without spending a try. *)
Definition postponed s now (e e' : @NoticeEntry A) : Prop :=
  ne_target e' = ne_target e ∧ ne_tries e' = ne_tries e ∧
  (ne_due e' = ne_due e ∨ ne_due e ≤ now ∧ group_blocked s (group_of (ne_target e)) now = Some (ne_due e')).

(** What popping an open offer does to the notices. *)
Record opened s now (r : option (Due K A)) s' : Prop := {
  op_kept : ∀ k e', on_entries s' !! k = Some e' → ∃ e, on_entries s !! k = Some e ∧ postponed s now e e';
  op_all : ∀ k e, on_entries s !! k = Some e → is_Some (on_entries s' !! k) ∨ ∃ d, r = Some d ∧ due_key d = k;
  op_due :
    match r with
    | None => ∀ k e', on_entries s' !! k = Some e' → now < ne_due e'
    | Some d => ∃ e, on_entries s !! due_key d = Some e ∧ due_target d = ne_target e ∧ due_tries d = ne_tries e ∧
        ne_due e ≤ now ∧ group_blocked s (group_of (ne_target e)) now = None ∧ on_entries s' !! due_key d = None ∧
        ∀ k e0, on_entries s !! k = Some e0 → group_blocked s (group_of (ne_target e0)) now = None → ne_due e ≤ ne_due e0
    end
}.

Definition due_count s now : nat := size (filter (λ kv : K * _, ne_due kv.2 ≤ now) (on_entries s)).

Lemma group_blocked_later s group now until : group_blocked s group now = Some until → now < until.
Proof. unfold group_blocked. destruct (on_blocked s !! group) as [u|]; [|done]. destruct (N.ltb_spec now u); naive_solver. Qed.

Lemma opened_step s now k e until s2 r s' : on_entries s !! k = Some e → ne_due e ≤ now →
  group_blocked s (group_of (ne_target e)) now = Some until → on_blocked s2 = on_blocked s →
  on_entries s2 = <[k := mkNotice (ne_target e) (ne_tries e) until]> (on_entries s) →
  opened s2 now r s' → opened s now r s'.
Proof.
  intros He Hle Hbl Hb Hes [O1 O2 O3]. pose proof (group_blocked_later _ _ _ _ Hbl) as Hlater.
  assert (Hgb : ∀ g, group_blocked s2 g now = group_blocked s g now) by (intros g; unfold group_blocked; by rewrite Hb).
  split.
  - intros k' e' He'. destruct (O1 k' e' He') as (e2 & He2 & P1 & P2 & P3). rewrite Hes in He2.
    apply lookup_insert_Some in He2 as [[<- <-]|[Hne He2]]; simpl in *.
    + exists e. split; [done|]. split_and!; [done|done|]. right. split; [done|]. destruct P3 as [->|[? _]]; [done|lia].
    + exists e2. split; [done|]. split_and!; [done|done|]. by rewrite <- Hgb.
  - intros k' e' He'. destruct (decide (k = k')) as [<-|Hne].
    + apply (O2 k (mkNotice (ne_target e) (ne_tries e) until)). by rewrite Hes, lookup_insert_eq.
    + apply (O2 k' e'). by rewrite Hes, lookup_insert_ne.
  - destruct r as [d|]; [|done]. destruct O3 as (e2 & He2 & T1 & T2 & T3 & T4 & T5 & T6). rewrite Hes in He2.
    apply lookup_insert_Some in He2 as [[Hk <-]|[Hne He2]]; simpl in *; [lia|]. exists e2. rewrite Hgb in T4.
    split_and!; try done. intros k' e0 He0 Hopen. destruct (decide (k = k')) as [<-|Hne'].
    + by simplify_eq.
    + apply (T6 k' e0); [by rewrite Hes, lookup_insert_ne|by rewrite Hgb].
Qed.

Lemma due_count_step s now k e until s2 : on_entries s !! k = Some e → ne_due e ≤ now → now < until →
  on_entries s2 = <[k := mkNotice (ne_target e) (ne_tries e) until]> (on_entries s) → (due_count s2 now < due_count s now)%nat.
Proof.
  intros He Hle Hlt Hes. unfold due_count. rewrite Hes.
  rewrite map_filter_insert_False by (simpl; lia). rewrite map_filter_delete.
  assert (Hin : filter (λ kv : K * _, ne_due kv.2 ≤ now) (on_entries s) !! k = Some e) by by apply map_lookup_filter_Some.
  rewrite map_size_delete_Some by eauto.
  assert (size (filter (λ kv : K * @NoticeEntry A, ne_due kv.2 ≤ now) (on_entries s)) ≠ 0%nat) by (eapply map_size_ne_0_lookup_2; eauto). lia.
Qed.

Lemma pop_open_loop_spec t fuel s now : notices_inv s → clocked t s → (due_count s now < fuel)%nat →
  ∃ r s', pop_open_loop fuel s now group_of = Some (r, s') ∧ notices_inv s' ∧ clocked t s' ∧ opened s now r s'.
Proof.
  revert s. induction fuel as [|fuel IH]; intros s Hi Hc Hf; [lia|]. simpl.
  destruct (pop_due_spec t s now Hi Hc) as (r & s1 & -> & Hs & Hp). pose proof (shrinks_inv _ _ Hi Hs) as Hi1.
  pose proof (shrinks_clocked t _ _ Hc Hs) as Hc1. destruct r as [d|].
  2: { destruct Hp as [He Hn]. do 2 eexists. split; [done|]. split_and!; [done|done|]. split; rewrite He.
       - intros k e' He'. exists e'. split; [done|]. by split_and!; [..|left].
       - intros k e He'. left. by eexists.
       - done. }
  destruct Hp as (e & He & T1 & T2 & Hle & Hdel & Hmin). rewrite T1.
  assert (Hgb : ∀ g, group_blocked s1 g now = group_blocked s g now) by (intros g; unfold group_blocked; by rewrite (sh_blocked _ _ Hs)).
  rewrite Hgb. destruct (group_blocked s (group_of (ne_target e)) now) as [until|] eqn:Hbl.
  - pose proof (group_blocked_later _ _ _ _ Hbl) as Hlater.
    destruct (defer_spec t s1 d until Hi1 Hc1) as (s2 & -> & Hi2 & Hc2 & Hes & _ & Hb2).
    { by rewrite Hdel, lookup_delete_eq. }
    { rewrite Hdel, map_size_delete_Some by eauto. pose proof (ni_size s Hi). rewrite (sh_cap _ _ Hs). pose proof (ni_cap s Hi). lia. }
    { rewrite T2. by apply (ni_entry s Hi _ _ He). }
    rewrite Hdel, insert_delete_eq, T1, T2 in Hes. rewrite (sh_blocked _ _ Hs) in Hb2.
    destruct (IH s2 Hi2 Hc2) as (r & s' & -> & Hi' & Hc' & Hop).
    { pose proof (due_count_step s now _ e until s2 He Hle Hlater Hes). lia. }
    do 2 eexists. split; [done|]. split_and!; [done|done|]. by eapply opened_step.
  - set (s2 := if is_some _ then _ else s1).
    assert (Hok : notices_inv s2 ∧ clocked t s2 ∧ on_entries s2 = on_entries s1).
    { unfold s2. destruct (is_some _); [by apply block_group_ok|done]. }
    destruct Hok as (Hi2 & Hc2 & He2). do 2 eexists. split; [done|]. split_and!; [done|done|]. split; rewrite ?He2, ?Hdel.
    + intros k e' He'. apply lookup_delete_Some in He' as [_ He']. exists e'. split; [done|]. by split_and!; [..|left].
    + intros k e' He'. destruct (decide (due_key d = k)) as [<-|Hne]; [right; by exists d|left]. rewrite lookup_delete_ne by done. by eexists.
    + exists e. split_and!; try done; [by rewrite lookup_delete_eq|]. intros k e0 He0 _. by apply (Hmin k).
Qed.

Lemma pop_open_spec t s now : notices_inv s → clocked t s →
  ∃ r s', pop_open s now group_of = Some (r, s') ∧ notices_inv s' ∧ clocked t s' ∧ opened s now r s'.
Proof.
  intros Hi Hc. apply pop_open_loop_spec; [done|done|]. unfold due_count.
  assert (size (filter (λ kv : K * @NoticeEntry A, (ne_due kv.2 ≤ now)%N) (on_entries s)) ≤ size (on_entries s))%nat; [|lia].
  apply map_subseteq_size, map_filter_subseteq.
Qed.

(** ** Runs *)

Lemma note_spec t s key target now : notices_inv s → clocked t s → t ≤ now →
  ∃ s', notice_note s key target now = Some (now + 5 * SECOND, s') ∧ notices_inv s' ∧ clocked now s' ∧
    on_entries s' !! key = Some (mkNotice target 0 (now + 5 * SECOND)).
Proof.
  intros Hi Hc Ht. unfold notice_note.
  assert (Hpre : ∃ s1, (if is_some (on_entries s !! key) then Some s else room s) = Some s1 ∧ notices_inv s1 ∧ clocked t s1 ∧
    ((size (on_entries s1) < on_capacity s1)%nat ∨ is_Some (on_entries s1 !! key))).
  { destruct (on_entries s !! key) as [e|] eqn:He; simpl; [exists s; split_and!; try done; right; by rewrite He|].
    destruct (notice_room_spec s Hi) as (s1 & -> & Hs & Hlt & _). exists s1.
    split_and!; [done|by eapply shrinks_inv|by eapply shrinks_clocked|by left]. }
  destruct Hpre as (s1 & -> & Hi1 & Hc1 & Hroom).
  destruct (schedule_spec t s1 key target 0 now Hi1 Hc1 Ht ltac:(unfold NOTICE_TRIES; lia) Hroom)
    as (delay & s' & [= <-] & -> & Hi' & Hc' & He & _).
  exists s'. split_and!; try done. by rewrite He, lookup_insert_eq.
Qed.

Lemma failed_spec t s due now : notices_inv s → clocked t s → t ≤ now →
  ∃ r s', notice_failed s due now = Some (r, s') ∧ notices_inv s' ∧ clocked now s'.
Proof.
  intros Hi Hc Ht. unfold notice_failed. destruct (Nat.leb_spec NOTICE_TRIES (S (due_tries due))) as [|Hlt]; simpl.
  { do 2 eexists. split_and!; [done|done|by eapply clocked_mono]. }
  destruct (on_entries s !! due_key due) as [e|] eqn:He; simpl.
  { do 2 eexists. split_and!; [done|done|by eapply clocked_mono]. }
  destruct (notice_room_spec s Hi) as (s1 & -> & Hs & Hroom & _).
  destruct (schedule_spec t s1 (due_key due) (due_target due) (S (due_tries due)) now) as (delay & s' & _ & -> & Hi' & Hc' & _);
    [by eapply shrinks_inv|by eapply shrinks_clocked|done|done|by left|].
  by do 2 eexists.
Qed.

(** The operations of a holder. *)
Inductive NoticeOp :=
| NoticeOp_Note (key : K) (target : A)
| NoticeOp_PopOpen
| NoticeOp_Failed (due : Due K A)
| NoticeOp_Result (due : Due K A) (e : OfferEnd) (group : G)
| NoticeOp_Observe (group : G) (cut : bool)
| NoticeOp_Release (group : G)
| NoticeOp_Forget (key : K)
| NoticeOp_NextDue
| NoticeOp_HasDeferred.

Definition run_notice s (now : N) (op : NoticeOp) : option (OrphanNotices K A G) :=
  match op with
  | NoticeOp_Note key target => snd <$> notice_note s key target now
  | NoticeOp_PopOpen => snd <$> pop_open s now group_of
  | NoticeOp_Failed due => snd <$> notice_failed s due now
  | NoticeOp_Result due e group => snd <$> offer_result s due e group now
  | NoticeOp_Observe group cut => Some (notice_observe s group cut now)
  | NoticeOp_Release group => Some (notice_release s group)
  | NoticeOp_Forget key => Some (notice_forget s key)
  | NoticeOp_NextDue => Some (next_due s).2
  | NoticeOp_HasDeferred => Some (has_deferred s).2
  end.

Lemma run_notice_ok t s now op : notices_inv s → clocked t s → t ≤ now →
  ∃ s', run_notice s now op = Some s' ∧ notices_inv s' ∧ clocked now s'.
Proof.
  intros Hi Hc Ht. assert (Hc' : clocked now s) by by eapply clocked_mono.
  assert (Hshrunk : ∀ s', shrinks s s' → notices_inv s' ∧ clocked now s')
    by (intros s' Hs; split; [by eapply shrinks_inv|by eapply shrinks_clocked]).
  destruct op as [key target| |due|due e group|group cut|group|key| |]; simpl.
  - destruct (note_spec t s key target now Hi Hc Ht) as (s' & -> & ? & ? & _). by exists s'.
  - destruct (pop_open_spec now s now Hi Hc') as (r & s' & -> & ? & ? & _). by exists s'.
  - destruct (failed_spec t s due now Hi Hc Ht) as (r & s' & -> & ? & ?). by exists s'.
  - unfold offer_result. destruct e.
    + destruct (release_ok now s group Hi Hc'). by eexists.
    + destruct (release_ok now s group Hi Hc'). by eexists.
    + destruct (release_ok t s group Hi Hc) as [Hi1 Hc1]. destruct (failed_spec t _ due now Hi1 Hc1 Ht) as (r & s' & -> & ? & ?). by exists s'.
    + destruct (lookup_lt_is_Some_2 NOTICE_DELAYS (Nat.min (S (due_tries due)) (NOTICE_TRIES - 1))) as [delay ->];
        [unfold NOTICE_TRIES; simpl; lia|].
      destruct (failed_spec t s due now Hi Hc Ht) as (r & s' & -> & Hi' & Hc1). eexists. split; [done|].
      destruct (block_group_ok now s' group (default (now + delay) r) now Hi' Hc1) as (? & ? & _). done.
  - eexists. split; [done|]. unfold notice_observe. destruct (_ =? 0)%nat; [done|]. destruct cut; [|by apply release_ok].
    destruct (match group_blocked s group now with Some _ => _ | None => _ end); [|done].
    destruct (block_group_ok now s group (now + PROBE_HOLD) now Hi Hc') as (? & ? & _). done.
  - eexists. split; [done|]. by apply release_ok.
  - eexists. split; [done|]. apply Hshrunk, forget_shrinks.
  - eexists. split; [done|]. pose proof (next_due_spec t s Hi Hc) as Hn. destruct (next_due s) as [r s']. apply Hshrunk, Hn.
  - eexists. split; [done|]. unfold has_deferred. pose proof (deferred_head_spec s Hi) as Hd. destruct (deferred_head s) as [r s'].
    apply Hshrunk, Hd.
Qed.

(** A run whose clock does not go back. *)
Inductive notice_run (capacity : nat) : N → OrphanNotices K A G → Prop :=
| nr_new now : notice_run capacity now (notices_new capacity)
| nr_step t now s op s' : notice_run capacity t s → t ≤ now → run_notice s now op = Some s' → notice_run capacity now s'.

Lemma notices_new_ok capacity now : notices_inv (notices_new capacity) ∧ clocked now (notices_new capacity).
Proof.
  split.
  - split; simpl; try done; try lia; try apply SSorted_nil; try apply NoDup_nil_2; try (by rewrite map_size_empty; lia); by intros ? ?%elem_of_nil.
  - intros level q delay Hq _. simpl in Hq. destruct level as [|[|[|[|level]]]]; simpl in Hq; simplify_eq; split; constructor.
Qed.

Lemma notice_run_ok capacity t s : notice_run capacity t s → notices_inv s ∧ clocked t s.
Proof.
  induction 1 as [now|t now s op s' _ [Hi Hc] Ht Hrun]; [apply notices_new_ok|].
  destruct (run_notice_ok t s now op Hi Hc Ht) as (s1 & Hrun' & Hok). rewrite Hrun in Hrun'. by simplify_eq.
Qed.

(** ** The capacity of a run *)

Lemma skip_stale_cap s : on_capacity (skip_stale s) = on_capacity s.
Proof. done. Qed.

Lemma deferred_head_cap s : on_capacity (deferred_head s).2 = on_capacity s.
Proof. unfold deferred_head. by destruct (skip_deferred _ _ _). Qed.

Lemma block_group_cap s group until now : on_capacity (block_group s group until now) = on_capacity s.
Proof. unfold block_group. by repeat case_match. Qed.

Lemma compact_cap s : on_capacity (notices_compact s) = on_capacity s.
Proof. unfold notices_compact, compact_deferred. by repeat case_match. Qed.

Lemma evict_cap s b s' : evict s = Some (b, s') → on_capacity s' = on_capacity s.
Proof.
  unfold evict, pop_queue, pop_deferred. pose proof (deferred_head_cap (skip_stale s)) as Hd.
  destruct (deferred_head (skip_stale s)) as [h s2]. simpl in Hd. repeat case_match; intros; by simplify_eq/=.
Qed.

Lemma make_room_cap fuel s s' : notice_make_room fuel s = Some s' → on_capacity s' = on_capacity s.
Proof.
  revert s. induction fuel as [|fuel IH]; intros s; [done|]. simpl. case_match; [|by intros [= <-]].
  destruct (evict s) as [[[] s1]|] eqn:He; [|by intros [= <-]; eapply evict_cap|done].
  intros Hr. rewrite (IH _ Hr). by eapply evict_cap.
Qed.

Lemma schedule_cap s key target tries now d s' : notice_schedule s key target tries now = Some (d, s') → on_capacity s' = on_capacity s.
Proof. unfold notice_schedule. repeat case_match; intros [= <- <-]; by rewrite compact_cap. Qed.

Lemma failed_cap s due now r s' : notice_failed s due now = Some (r, s') → on_capacity s' = on_capacity s.
Proof.
  unfold notice_failed, room. case_match; [by intros [= <- <-]|]. destruct (notice_make_room _ _) as [s1|] eqn:Hr; [|done].
  destruct (notice_schedule _ _ _ _ _) as [[d s2]|] eqn:Hs; intros [= <- <-]. rewrite (schedule_cap _ _ _ _ _ _ _ Hs). by eapply make_room_cap.
Qed.

Lemma pop_due_cap s now r s' : pop_due s now = Some (r, s') → on_capacity s' = on_capacity s.
Proof.
  unfold pop_due, take_notice, pop_queue, pop_deferred. pose proof (deferred_head_cap (skip_stale s)) as Hd.
  destruct (deferred_head (skip_stale s)) as [h s2]. simpl in Hd. repeat case_match; intros; by simplify_eq/=.
Qed.

Lemma defer_cap s due until s' : notice_defer s due until = Some s' → on_capacity s' = on_capacity s.
Proof.
  unfold notice_defer, room. destruct (is_some _); [by intros [= <-]|]. destruct (notice_make_room _ _) as [s2|] eqn:Hr; [|done].
  intros [= <-]. rewrite compact_cap. simpl. by eapply make_room_cap.
Qed.

Lemma pop_open_cap fuel s now r s' : pop_open_loop fuel s now group_of = Some (r, s') → on_capacity s' = on_capacity s.
Proof.
  revert s. induction fuel as [|fuel IH]; intros s; [done|]. simpl.
  destruct (pop_due s now) as [[[due|] s1]|] eqn:Hp; [|by intros [= <- <-]; eapply pop_due_cap|done].
  rewrite <- (pop_due_cap _ _ _ _ Hp). destruct (group_blocked s1 _ now) as [until|].
  - destruct (notice_defer s1 due until) as [s2|] eqn:Hd; [|done]. intros Hl. rewrite (IH _ Hl). by eapply defer_cap.
  - intros [= <- <-]. case_match; [apply block_group_cap|done].
Qed.

Lemma run_notice_cap s now op s' : run_notice s now op = Some s' → on_capacity s' = on_capacity s.
Proof.
  destruct op as [key target| |due|due e group|group cut|group|key| |]; simpl; intros Hr.
  - unfold notice_note, room in Hr. apply fmap_Some in Hr as ([d s1] & Hr & ->). destruct (is_some _).
    + by eapply schedule_cap.
    + destruct (notice_make_room _ _) as [s2|] eqn:Hm; [|done]. rewrite <- (make_room_cap _ _ _ Hm). by eapply schedule_cap.
  - apply fmap_Some in Hr as ([d s1] & Hr & ->). by eapply pop_open_cap.
  - apply fmap_Some in Hr as ([d s1] & Hr & ->). by eapply failed_cap.
  - apply fmap_Some in Hr as ([d s1] & Hr & ->). unfold offer_result in Hr. destruct e; [by simplify_eq|by simplify_eq|by apply failed_cap in Hr|].
    destruct (NOTICE_DELAYS !! _); [|done]. destruct (notice_failed s due now) as [[next s2]|] eqn:Hf; simplify_eq.
    simpl. rewrite block_group_cap. by eapply failed_cap.
  - simplify_eq. unfold notice_observe. repeat case_match; try done; apply block_group_cap.
  - by simplify_eq.
  - by simplify_eq.
  - simplify_eq. unfold next_due. pose proof (deferred_head_cap (skip_stale s)) as Hd. by destruct (deferred_head _).
  - simplify_eq. unfold has_deferred. pose proof (deferred_head_cap s) as Hd. by destruct (deferred_head _).
Qed.

Lemma notice_run_cap capacity t s : notice_run capacity t s → on_capacity s = Nat.max capacity 1.
Proof. induction 1 as [|t now s op s' _ IH _ Hr]; [done|]. rewrite <- IH. by eapply run_notice_cap. Qed.

(** A run given by its timed operations. *)
Fixpoint notice_play (t : N) s (ops : list (N * NoticeOp)) : option (N * OrphanNotices K A G) :=
  match ops with
  | [] => Some (t, s)
  | (now, op) :: ops => if t <=? now then match run_notice s now op with Some s => notice_play now s ops | None => None end else None
  end.

Lemma notice_play_run capacity t s ops t' s' : notice_run capacity t s → notice_play t s ops = Some (t', s') → notice_run capacity t' s'.
Proof.
  revert t s. induction ops as [|[now op] ops IH]; intros t s Hr; simpl; [by intros [= <- <-]|].
  destruct (N.leb_spec t now) as [Ht|]; [|done]. destruct (run_notice s now op) as [s1|] eqn:Hs; [|done].
  apply IH. by eapply nr_step.
Qed.

(** C8: From a new table and along every sequence of operations whose clock does not go back,
    no operation of [OrphanNotices] panics (no queue front or heap head is missing its entry)
    and no eviction or pop loop runs on; at most [capacity] notices and at most [capacity]
    blocked groups are held, and no notice has used up its [NOTICE_TRIES]. *)
Theorem notices_run_safe capacity t s (Hrun : notice_run capacity t s) :
  (size (on_entries s) ≤ Nat.max capacity 1)%nat ∧ (size (on_blocked s) ≤ Nat.max capacity 1)%nat ∧
  (∀ k e, on_entries s !! k = Some e → (ne_tries e < NOTICE_TRIES)%nat) ∧
  ∀ now op, t ≤ now → is_Some (run_notice s now op).
Proof.
  destruct (notice_run_ok _ _ _ Hrun) as [Hi Hc]. pose proof (notice_run_cap _ _ _ Hrun) as Hcap. split_and!.
  - rewrite <- Hcap. apply Hi.
  - rewrite <- Hcap. apply Hi.
  - intros k e He. by apply (ni_entry s Hi k e).
  - intros now op Ht. destruct (run_notice_ok t s now op Hi Hc Ht) as (s' & -> & _). by eexists.
Qed.

(** C7: Along every run, [pop_open] returns the earliest due notice of a group that is not
    blocked, and nothing only when no notice is left due: the due notices of blocked groups
    are put off to the end of their block without spending a try, and every other notice is
    kept as it was ([opened]). [next_due] is the earliest due time of the pending notices. *)
Theorem open_offer_exact capacity t now s (Hrun : notice_run capacity t s) (Ht : t ≤ now) :
  (∃ r s', pop_open s now group_of = Some (r, s') ∧ opened s now r s') ∧
  match (next_due s).1 with
  | None => on_entries s = ∅
  | Some d => (∃ k e, on_entries s !! k = Some e ∧ ne_due e = d) ∧ ∀ k e, on_entries s !! k = Some e → d ≤ ne_due e
  end.
Proof.
  destruct (notice_run_ok _ _ _ Hrun) as [Hi Hc]. split.
  - destruct (pop_open_spec t s now Hi Hc) as (r & s' & Hp & _ & _ & Ho). by exists r, s'.
  - pose proof (next_due_spec t s Hi Hc) as Hn. destruct (next_due s) as [r s']. apply Hn.
Qed.

(** An offer that was not answered is tried again after the next delay, unless it was the last;
    one cut off also blocks its group until then, when the table of groups has room. *)
Theorem cut_offer_backs_off capacity t now s due group (Hrun : notice_run capacity t s) (Ht : t ≤ now)
    (Hnew : on_entries s !! due_key due = None) (Hroom : (size (on_blocked s) < Nat.max capacity 1)%nat) :
  ∃ r s', offer_result s due OfferEnd_Cut group now = Some (r, s') ∧
    (r = (if (S (due_tries due) <? NOTICE_TRIES)%nat then (λ d, now + d) <$> NOTICE_DELAYS !! S (due_tries due) else None)) ∧
    (∀ at_, r = Some at_ → on_entries s' !! due_key due = Some (mkNotice (due_target due) (S (due_tries due)) at_)) ∧
    (∃ until, group_blocked s' group now = Some until ∧ (∀ at_, r = Some at_ → until = at_)).
Proof.
  destruct (notice_run_ok _ _ _ Hrun) as [Hi Hc]. pose proof (notice_run_cap _ _ _ Hrun) as Hcap. unfold offer_result.
  destruct (lookup_lt_is_Some_2 NOTICE_DELAYS (Nat.min (S (due_tries due)) (NOTICE_TRIES - 1))) as [delay Hdelay];
    [unfold NOTICE_TRIES; simpl; lia|]. rewrite Hdelay.
  assert (Hblock : ∀ s1 until, on_blocked s1 = on_blocked s → on_capacity s1 = on_capacity s → now < until →
    on_entries (block_group s1 group until now) = on_entries s1 ∧ group_blocked (block_group s1 group until now) group now = Some until).
  { intros s1 until Hb Hc1 Hl. unfold block_group. rewrite Hb, Hc1, Hcap, (proj2 (Nat.leb_gt _ _) Hroom), andb_false_r.
    split; [done|]. unfold group_blocked. simpl. by rewrite lookup_insert_eq, (proj2 (N.ltb_lt _ _) Hl). }
  assert (Hpos : ∀ i d, NOTICE_DELAYS !! i = Some d → 0 < d).
  { intros i d Hd. apply list_elem_of_lookup_2 in Hd. unfold NOTICE_DELAYS in Hd. rewrite !elem_of_cons, elem_of_nil in Hd.
    unfold SECOND in *. naive_solver lia. }
  unfold notice_failed. rewrite Hnew, orb_false_r. destruct (Nat.leb_spec NOTICE_TRIES (S (due_tries due))) as [Hle|Hlt].
  { destruct (Hblock s (now + delay)) as [_ Hg]; [done|done|by specialize (Hpos _ _ Hdelay); lia|].
    do 2 eexists. split; [done|]. rewrite (proj2 (Nat.ltb_ge _ _) Hle). split_and!; [done|done|]. simpl. by eexists. }
  destruct (notice_room_spec s Hi) as (s1 & -> & Hs & Hr1 & _).
  destruct (schedule_spec t s1 (due_key due) (due_target due) (S (due_tries due)) now) as (d & s' & Hd & -> & _ & _ & He & Hc' & Hb');
    [by eapply shrinks_inv|by eapply shrinks_clocked|done|done|by left|].
  rewrite (proj2 (Nat.ltb_lt _ _) Hlt), Hd. simpl.
  destruct (Hblock s' (now + d)) as [He' Hg]; [by rewrite Hb', (sh_blocked _ _ Hs)|by rewrite Hc', (sh_cap _ _ Hs)|by specialize (Hpos _ _ Hd); lia|].
  do 2 eexists. split; [done|]. split_and!; [done| |].
  - intros at_ [= <-]. by rewrite He', He, lookup_insert_eq.
  - eexists. split; [done|]. by intros at_ [= <-].
Qed.
End runs.

(** ** A small table *)

Module NoticeSample.

(** Pages 1 and 2 are noted for targets 7 and 8, then the route to 7 is cut. *)
Definition ops : list (N * NoticeOp (K := N) (A := N) (G := N)) :=
  [(0, NoticeOp_Note 1 7); (SECOND, NoticeOp_Note 2 8); (5 * SECOND - 1, NoticeOp_Observe 7 true)].

Definition table : OrphanNotices N N N := default (notices_new 2) (snd <$> notice_play id 0 (notices_new 2) ops).

Lemma table_run : notice_run id 2 (5 * SECOND - 1) table.
Proof. apply (notice_play_run id 2 0 (notices_new 2) ops); [apply nr_new|vm_compute; reflexivity]. Qed.
End NoticeSample.

Lemma notices_run_safe_witness : (size (on_entries NoticeSample.table) ≤ 2)%nat ∧ size (on_entries NoticeSample.table) = 2%nat.
Proof. split; [exact (proj1 (notices_run_safe id 2 _ _ NoticeSample.table_run))|vm_compute; reflexivity]. Defined.

Lemma open_offer_exact_witness :
  (∃ r s', pop_open NoticeSample.table (6 * SECOND) id = Some (r, s') ∧ opened id NoticeSample.table (6 * SECOND) r s') ∧
  fst <$> pop_open NoticeSample.table (6 * SECOND) id = Some (Some (mkDue 2 8 0)).
Proof.
  split; [|vm_compute; reflexivity].
  refine (proj1 (open_offer_exact id 2 _ (6 * SECOND) _ NoticeSample.table_run _)). vm_compute; discriminate.
Defined.

Lemma cut_offer_backs_off_witness :
  ∃ r s', offer_result NoticeSample.table (mkDue 3 9 0) OfferEnd_Cut 9 (6 * SECOND) = Some (r, s') ∧
    on_entries s' !! 3 = Some (mkNotice 9 1 (21 * SECOND)).
Proof.
  destruct (cut_offer_backs_off id 2 _ (6 * SECOND) NoticeSample.table (mkDue 3 9 0) 9 NoticeSample.table_run)
    as (r & s' & Hr & Hnext & Hentry & _).
  - vm_compute; discriminate.
  - vm_compute; reflexivity.
  - vm_compute; lia.
  - exists r, s'. split; [exact Hr|]. apply Hentry. rewrite Hnext. vm_compute; reflexivity.
Defined.
