(* ===== verification/Hints.v ===== *)
(** * Successor hints

    A node that answered another owner's page probe without a copy remembers that owner, and
    later sends readers to it instead of fetching the page again, from
    [cmd/racer/core/src/read/hints.rs]; [note_successor], [serve_offer] and
    [defer_to_successor] of the coordinator, from [cmd/racer/src/read.rs], drive the table.
    The coordinator ranks the page's owners between looking at the hints and charging one of
    them, and other requests run meanwhile: a deferral is two steps, with the requests between
    them in [hw_waiting].  Pages are [K], nodes [A]; [uses] does not wrap in the model. *)

From S2P Require Import Prelude ReadRules Targets.
Local Open Scope N_scope.

Definition HINTS_PER_PAGE : nat := 2.
Definition HINT_TTL : N := 600 * SECOND.
Definition PROBE_TTL : N := 3600 * SECOND.
Definition MAX_DEFERRALS : N := 8.
Definition PROBE_AFTER : N := 2 * SECOND.
Definition HINT_CAPACITY : nat := 4096.
Definition RETURN_WITHIN : N := 60 * SECOND.

Section hints.
Context {K A : Type} `{Countable K} `{EqDecision A}.

Record HintEntry := mkHint {
  he_nodes : list A;
  he_at : N;
  he_uses : N;
  he_max : N;
  he_probed : bool;
  he_offered : bool;
  he_senders : list A;
  he_deferred : list (A * N)
}.

Record SuccessorHints := mkHints {
  sh_capacity : nat;
  sh_ttl : N;
  sh_entries : gmap K HintEntry;
  sh_order : list (K * N)
}.

Implicit Types (s : SuccessorHints) (e : HintEntry).

Definition hints_with s entries order : SuccessorHints := mkHints (sh_capacity s) (sh_ttl s) entries order.

(** [SuccessorHints::new]. *)
Definition hints_new (capacity : nat) (ttl : N) : SuccessorHints := mkHints (Nat.max capacity 1) ttl ∅ [].

(** [retain(|n| *n != node)]. *)
Definition without (node : A) (l : list A) : list A := List.filter (λ n, negb (bool_decide (n = node))) l.

(** [Vec::remove(0)] past a bound. *)
Definition keep_newest {B} (bound : nat) (l : list B) : list B := if (bound <? length l)%nat then tail l else l.

(** A stamp of the order is live while its entry was noted then. *)
Definition stamp_live (entries : gmap K HintEntry) (item : K * N) : bool :=
  match entries !! item.1 with Some e => he_at e =? item.2 | None => false end.

(** [compact]. *)
Definition hints_compact s : SuccessorHints :=
  if (length (sh_order s) <=? 2 * sh_capacity s)%nat then s
  else hints_with s (sh_entries s) (List.filter (stamp_live (sh_entries s)) (sh_order s)).

(** The eviction loop of [note]. *)
Fixpoint hint_evict (capacity : nat) (entries : gmap K HintEntry) (order : list (K * N)) :
    gmap K HintEntry * list (K * N) :=
  match order with
  | [] => (entries, [])
  | item :: rest =>
      if (capacity <=? size entries)%nat
      then hint_evict capacity (if stamp_live entries item then delete item.1 entries else entries) rest
      else (entries, order)
  end.

Definition renew_hint e (node : A) (now : N) : HintEntry :=
  let nodes := keep_newest HINTS_PER_PAGE (without node (he_nodes e) ++ [node]) in
  mkHint nodes now 0 U32_MAX false false
    (List.filter (λ n, contains_b nodes n) (without node (he_senders e))) (he_deferred e).

(** [note]. *)
Definition hint_note s (key : K) (node : A) (now : N) : SuccessorHints :=
  match sh_entries s !! key with
  | Some e => hints_compact (hints_with s (<[key := renew_hint e node now]> (sh_entries s)) (sh_order s ++ [(key, now)]))
  | None =>
      let '(entries, order) := hint_evict (sh_capacity s) (sh_entries s) (sh_order s) in
      hints_compact (hints_with s (<[key := mkHint [node] now 0 U32_MAX false false [] []]> entries) (order ++ [(key, now)]))
  end.

(** [note_offer]. *)
Definition hint_note_offer s (key : K) (node : A) (holds acquiring : bool) (now : N) : bool * SuccessorHints :=
  if holds || acquiring then (false, s)
  else
    let kept := (λ e, (he_uses e, he_max e)) <$> sh_entries s !! key in
    let s := hint_note s key node now in
    (true,
     match sh_entries s !! key with
     | Some e =>
         let '(uses, max) := default (0, 0) kept in
         hints_with s (<[key := mkHint (he_nodes e) (he_at e) uses max (he_probed e) true (he_senders e ++ [node]) (he_deferred e)]>
                         (sh_entries s)) (sh_order s)
     | None => s
     end).

(** [peek]. *)
Definition hint_peek s (key : K) (now : N) : list A :=
  match sh_entries s !! key with
  | Some e => if (now - he_at e <=? sh_ttl s) && (he_uses e <? he_max e) then he_nodes e else []
  | None => []
  end.

(** [probe]. *)
Definition hint_probe s (key : K) (now : N) : list A * SuccessorHints :=
  let ttl := N.max (sh_ttl s) PROBE_TTL in
  match sh_entries s !! key with
  | Some e =>
      if negb (he_probed e) && (now - he_at e <=? ttl) && (he_offered e || (PROBE_AFTER <=? now - he_at e))
      then (he_nodes e,
            hints_with s (<[key := mkHint (he_nodes e) (he_at e) (he_uses e) (he_max e) true (he_offered e) (he_senders e) (he_deferred e)]>
                            (sh_entries s)) (sh_order s))
      else ([], s)
  | None => ([], s)
  end.

(** [names]. *)
Definition hint_names s (key : K) (node : A) : bool :=
  match sh_entries s !! key with Some e => contains_b (he_nodes e) node | None => false end.

(** [peek_for]. *)
Definition hint_returned s (key : K) (requester : A) (now : N) : bool :=
  match sh_entries s !! key with
  | Some e => existsb (λ d, bool_decide (d.1 = requester) && (now - d.2 <=? RETURN_WITHIN)) (he_deferred e)
  | None => false
  end.

Definition peek_for s (key : K) (requester : A) (now : N) : list A :=
  if hint_returned s key requester now then [] else hint_peek s key now.

(** [charge]. *)
Definition hint_charge s (key : K) (requester to : A) (max now : N) : SuccessorHints :=
  match sh_entries s !! key with
  | Some e =>
      let deferred :=
        if contains_b (he_senders e) to
        then keep_newest (N.to_nat MAX_DEFERRALS)
               (List.filter (λ d, negb (bool_decide (d.1 = requester))) (he_deferred e) ++ [(requester, now)])
        else he_deferred e in
      hints_with s (<[key := mkHint (he_nodes e) (he_at e) (he_uses e + 1) max (he_probed e) (he_offered e) (he_senders e) deferred]>
                      (sh_entries s)) (sh_order s)
  | None => s
  end.

(** [forget]. *)
Definition hint_forget s (key : K) : SuccessorHints := hints_with s (delete key (sh_entries s)) (sh_order s).

Definition should_note (local requester : A) (owners : list A) : bool :=
  negb (bool_decide (local = requester)) && contains_b owners local && contains_b owners requester.

Definition successor_deferral (hints : list A) (local requester : A) (owners : list A) : option A :=
  match index_of local owners with
  | None => None
  | Some me =>
      if contains_b owners requester then None
      else List.find (λ n, negb (bool_decide (n = requester)) &&
             match index_of n owners with Some r => (me <? r)%nat | None => false end) (rev hints)
  end.

Definition defer_allowed (acquiring : bool) : bool := negb acquiring.

(** ** The coordinator *)

(** A deferral that waits for the page's owners: the page, the requester and the hints it saw. *)
Record Waiting := mkWaiting { wt_key : K; wt_requester : A; wt_hints : list A }.

Record HintWorld := mkHintWorld { hw_hints : SuccessorHints; hw_waiting : list Waiting }.

Implicit Types (w : HintWorld).

(** [Coordinator::note_successor]: [owners] is whether the cached ranking shows both as owners. *)
Definition note_successor s (passthrough : bool) (local : A) (key : K) (requester : A) (copy_only owners : bool) (now : N) :
    SuccessorHints :=
  if passthrough then s
  else if bool_decide (local = requester) || negb (copy_only || owners) then s
  else hint_note s key requester now.

(** [Coordinator::serve_offer]; the answer is [Miss]. *)
Definition serve_offer s (local : A) (key : K) (requester : A) (holds acquiring : bool) (now : N) : SuccessorHints :=
  if bool_decide (local = requester) then s else (hint_note_offer s key requester holds acquiring now).2.

(** [Coordinator::defer_to_successor] up to the ranking of the page's owners; [false] answers at once. *)
Definition defer_start w (passthrough acquiring : bool) (key : K) (requester : A) (now : N) : bool * HintWorld :=
  if passthrough then (false, w)
  else if negb (defer_allowed acquiring) then (false, w)
  else
    match peek_for (hw_hints w) key requester now with
    | [] => (false, w)
    | hints => (true, mkHintWorld (hw_hints w) (hw_waiting w ++ [mkWaiting key requester hints]))
    end.

(** The rest of [defer_to_successor], for the [i]-th waiting request, once its owners are ranked. *)
Definition defer_finish w (i : nat) (local : A) (owners : option (list A)) (now : N) : bool * HintWorld :=
  match hw_waiting w !! i with
  | None => (false, w)
  | Some q =>
      let rest := delete i (hw_waiting w) in
      match owners with
      | None => (false, mkHintWorld (hw_hints w) rest)
      | Some owners =>
          match successor_deferral (wt_hints q) local (wt_requester q) (take 3 owners) with
          | None => (false, mkHintWorld (hw_hints w) rest)
          | Some to => (true, mkHintWorld (hint_charge (hw_hints w) (wt_key q) (wt_requester q) to MAX_DEFERRALS now) rest)
          end
      end
  end.
End hints.

Arguments HintEntry : clear implicits.
Arguments SuccessorHints _ _ {_ _}.
Arguments HintWorld _ _ {_ _}.
