(* ===== verification/HintRuns.v ===== *)
(** * Runs of the successor hints

    The table of [Hints] stays within its bounds along every interleaving of the requests that
    note, probe and defer on it; the number of readers a hint sends away is bounded by
    [MAX_DEFERRALS] and the number of requests that look at it at once; and a reader sent to a
    node that offered its copy is not sent away again when it comes back. *)

From S2P Require Import Prelude ReadRules Targets Hints.
Local Open Scope N_scope.

Section runs.
Context {K A : Type} `{Countable K} `{EqDecision A}.
Implicit Types (s : SuccessorHints K A) (w : HintWorld K A) (e : HintEntry A) (entries : gmap K (HintEntry A)).

(** ** The invariant *)

(** An entry at [t]: the deferral limit is set by the first deferral, or is that of a note or
    of an offer that was never deferred to. *)
Record hint_ok (t : N) e : Prop := {
  ho_some : he_nodes e ≠ [];
  ho_nodes : (length (he_nodes e) ≤ HINTS_PER_PAGE)%nat;
  ho_distinct : NoDup (he_nodes e);
  ho_senders : ∀ n, n ∈ he_senders e → n ∈ he_nodes e;
  ho_sent : NoDup (he_senders e);
  ho_deferred : (length (he_deferred e) ≤ N.to_nat MAX_DEFERRALS)%nat;
  ho_requesters : NoDup (he_deferred e).*1;
  ho_times : Forall (λ d, d.2 ≤ t) (he_deferred e);
  ho_limit : he_max e = MAX_DEFERRALS ∨ he_uses e = 0 ∧ (he_max e = U32_MAX ∨ he_max e = 0)
}.

Definition hint_stamped entries (order : list (K * N)) : Prop := ∀ k e, entries !! k = Some e → (k, he_at e) ∈ order.

Record hints_inv (t : N) s : Prop := {
  hi_cap : (1 ≤ sh_capacity s)%nat;
  hi_size : (size (sh_entries s) ≤ sh_capacity s)%nat;
  hi_entry : ∀ k e, sh_entries s !! k = Some e → hint_ok t e;
  hi_stamped : hint_stamped (sh_entries s) (sh_order s);
  hi_sorted : StronglySorted (λ a b, a.2 ≤ b.2) (sh_order s);
  hi_past : Forall (λ item, item.2 ≤ t) (sh_order s)
}.

Lemma hint_ok_mono t t' e : t ≤ t' → hint_ok t e → hint_ok t' e.
Proof. intros Ht []. split; try done. eapply Forall_impl; [done|]. simpl. lia. Qed.

Lemma hints_inv_mono t t' s : t ≤ t' → hints_inv t s → hints_inv t' s.
Proof.
  intros Ht []. split; try done; [intros k e He; eapply hint_ok_mono; eauto|]. eapply Forall_impl; [done|]. simpl. lia.
Qed.

(** ** Lists of nodes *)

Lemma filter_bool_NoDup {B C} (f : B → C) (p : B → bool) (l : list B) : NoDup (f <$> l) → NoDup (f <$> List.filter p l).
Proof. intros Hn. eapply sublist_NoDup; [done|]. apply fmap_sublist, filter_sublist. Qed.

Lemma elem_of_without node n (l : list A) : n ∈ without node l ↔ n ∈ l ∧ n ≠ node.
Proof. unfold without. rewrite elem_of_filter_b, negb_true_iff, bool_decide_eq_false. done. Qed.

Lemma without_NoDup node (l : list A) : NoDup l → NoDup (without node l).
Proof. intros Hn. eapply sublist_NoDup; [done|]. apply filter_sublist. Qed.

Lemma keep_newest_sublist {B} bound (l : list B) : keep_newest bound l `sublist_of` l.
Proof. unfold keep_newest. case_match; [|done]. destruct l; [done|]. by constructor. Qed.

Lemma keep_newest_length {B} bound (l : list B) : (length l ≤ S bound)%nat → (length (keep_newest bound l) ≤ bound)%nat.
Proof. unfold keep_newest. destruct (Nat.ltb_spec bound (length l)); [|lia]. destruct l; simpl in *; lia. Qed.

Lemma keep_newest_snoc {B} bound (l : list B) x : (1 ≤ bound)%nat → x ∈ keep_newest bound (l ++ [x]).
Proof.
  intros Hb. unfold keep_newest. destruct (Nat.ltb_spec bound (length (l ++ [x]))) as [Hlt|]; [|set_solver].
  destruct l as [|y l]; simpl in *; [lia|]. set_solver.
Qed.

Lemma without_length node (l : list A) : (length (without node l) ≤ length l)%nat.
Proof. apply sublist_length, filter_sublist. Qed.

(** ** Notes *)

Lemma renew_ok t e node now : t ≤ now → hint_ok t e → hint_ok now (renew_hint e node now).
Proof.
  intros Ht He. pose proof (hint_ok_mono _ _ _ Ht He) as [Hs Hn Hd Hse Hst Hdl Hr Hti Hl]. split; simpl; try done.
  - intros Hnil. pose proof (keep_newest_snoc HINTS_PER_PAGE (without node (he_nodes e)) node ltac:(unfold HINTS_PER_PAGE; lia)) as Hin.
    rewrite Hnil in Hin. by apply elem_of_nil in Hin.
  - apply keep_newest_length. rewrite length_app. simpl. pose proof (without_length node (he_nodes e)). lia.
  - eapply sublist_NoDup; [|apply keep_newest_sublist]. apply NoDup_app. split_and!.
    + by apply without_NoDup.
    + intros n [_ Hne]%elem_of_without ->%list_elem_of_singleton. done.
    + apply NoDup_singleton.
  - intros n [_ Hc]%elem_of_filter_b. unfold contains_b in Hc. by apply bool_decide_eq_true in Hc.
  - eapply sublist_NoDup; [|apply filter_sublist]. by apply without_NoDup.
  - by right; split; [|left].
Qed.

Lemma fresh_ok (node : A) now : hint_ok now (mkHint [node] now 0 U32_MAX false false [] []).
Proof.
  split; simpl; try done; try lia; try apply NoDup_nil_2; try apply Forall_nil_2; try apply NoDup_singleton.
  - unfold HINTS_PER_PAGE. lia.
  - by intros n ?%elem_of_nil.
Qed.

Lemma evict_idle capacity entries order : (size entries < capacity)%nat → hint_evict capacity entries order = (entries, order).
Proof. intros Hs. destruct order as [|item rest]; simpl; [done|]. by rewrite (proj2 (Nat.leb_gt _ _)). Qed.

Lemma stamp_live_true entries item : stamp_live entries item = true ↔ ∃ e, entries !! item.1 = Some e ∧ he_at e = item.2.
Proof.
  unfold stamp_live. destruct (entries !! item.1) as [e|]; [|naive_solver]. rewrite N.eqb_eq. naive_solver.
Qed.

(** The eviction makes room by dropping the entry noted longest ago. *)
Definition evicted capacity entries entries' : Prop :=
  (size entries < capacity)%nat ∧ entries' = entries ∨
  ∃ old e, entries !! old = Some e ∧ entries' = delete old entries ∧ ∀ k e', entries !! k = Some e' → he_at e ≤ he_at e'.

Lemma hint_evict_spec capacity entries order : (1 ≤ capacity)%nat → (size entries ≤ capacity)%nat → hint_stamped entries order →
  StronglySorted (λ a b : K * N, a.2 ≤ b.2) order →
  let '(entries', order') := hint_evict capacity entries order in
  evicted capacity entries entries' ∧ hint_stamped entries' order' ∧ (size entries' < capacity)%nat ∧ ∃ dropped, order = dropped ++ order'.
Proof.
  intros Hc. revert entries. induction order as [|item rest IH]; intros entries Hsz Hst Hso; simpl.
  { assert (He : entries = ∅). { apply map_eq. intros k. rewrite lookup_empty. destruct (entries !! k) as [e|] eqn:He; [|done].
      by apply Hst, elem_of_nil in He. }
    rewrite He, map_size_empty. split_and!; [left; rewrite map_size_empty; split; [lia|done]|by intros ???|lia|by exists []]. }
  apply StronglySorted_inv in Hso as [Hso Hmin]. destruct (Nat.leb_spec capacity (size entries)) as [Hle|Hlt].
  2: { split_and!; [by left|done|done|by exists []]. }
  destruct (stamp_live entries item) eqn:Hlive.
  - apply stamp_live_true in Hlive as (e & He & Hat).
    assert (Hsize : (size (delete item.1 entries) < capacity)%nat)
      by (rewrite map_size_delete_Some by eauto; lia).
    rewrite evict_idle by done. split_and!; [|intros k e' He'|done|by exists [item]].
    + right. exists item.1, e. split_and!; [done|done|]. intros k e' He'. rewrite Hat. apply Hst in He'.
      apply elem_of_cons in He' as [<-|Hin]; [done|]. rewrite Forall_forall in Hmin. by apply (Hmin _ Hin).
    + apply lookup_delete_Some in He' as [Hne He']. apply Hst, elem_of_cons in He' as [<-|Hin]; done.
  - assert (Hst' : hint_stamped entries rest).
    { intros k e He. pose proof (Hst k e He) as [<-|Hin]%elem_of_cons; [|done].
      assert (stamp_live entries (k, he_at e) = true) by (apply stamp_live_true; eauto). congruence. }
    specialize (IH entries Hsz Hst' Hso). destruct (hint_evict capacity entries rest) as [entries' order'].
    destruct IH as (He & Hs' & Hl & dropped & ->). split_and!; [done|done|done|]. by exists (item :: dropped).
Qed.

Lemma hint_compact_inv t s : hints_inv t s → hints_inv t (hints_compact s).
Proof.
  intros Hi. unfold hints_compact. case_match; [done|]. split; simpl; try apply Hi.
  - intros k e He. apply elem_of_filter_b. split; [by apply (hi_stamped t s Hi)|]. apply stamp_live_true. eauto.
  - eapply sorted_sublist; [apply filter_sublist|apply Hi].
  - pose proof (hi_past t s Hi) as Hp. rewrite Forall_forall in *. intros item [Hin _]%elem_of_filter_b. by apply Hp.
Qed.

Lemma hint_compact_entries s : sh_entries (hints_compact s) = sh_entries s ∧ sh_capacity (hints_compact s) = sh_capacity s ∧
  sh_ttl (hints_compact s) = sh_ttl s.
Proof. unfold hints_compact. by case_match. Qed.

(** A stamped entry written at [now]. *)
Lemma write_inv t now s entries order key e dropped : t ≤ now → hints_inv t s → sh_order s = dropped ++ order →
  entries ⊆ sh_entries s → hint_stamped entries order → hint_ok now e → he_at e = now →
  (size (<[key := e]> entries) ≤ sh_capacity s)%nat →
  hints_inv now (hints_with s (<[key := e]> entries) (order ++ [(key, now)])).
Proof.
  intros Ht Hi Hord Hsub Hst He Hat Hsz. apply (hints_inv_mono t now) in Hi; [|done]. split; simpl; try done.
  - apply Hi.
  - intros k e' [[<- <-]|[_ He']]%lookup_insert_Some; [done|]. apply (hi_entry now s Hi k). by eapply lookup_weaken.
  - intros k e' [[<- <-]|[_ He']]%lookup_insert_Some; apply elem_of_app; [right; rewrite Hat; set_solver|left; by apply Hst].
  - pose proof (hi_sorted now s Hi) as Hs. pose proof (hi_past now s Hi) as Hp. rewrite Hord in Hs, Hp.
    apply Forall_app in Hp as [_ Hp]. apply (sorted_snoc (λ a b : K * N, a.2 ≤ b.2)); [|done]. eapply sorted_sublist; [|exact Hs]. by apply sublist_inserts_l.
  - pose proof (hi_past now s Hi) as Hp. rewrite Hord in Hp. apply Forall_app in Hp as [_ Hp]. apply Forall_app. split; [done|].
    by repeat constructor.
Qed.

Definition note_entry s key (node : A) now : HintEntry A :=
  match sh_entries s !! key with Some e => renew_hint e node now | None => mkHint [node] now 0 U32_MAX false false [] [] end.

(** What a note writes, and what it evicts: nothing, or for a new page in a full table the entry
    noted longest ago. *)
Lemma hint_note_spec t s key node now : t ≤ now → hints_inv t s →
  let s' := hint_note s key node now in
  hints_inv now s' ∧ sh_capacity s' = sh_capacity s ∧ sh_ttl s' = sh_ttl s ∧
  ∃ entries, sh_entries s' = <[key := note_entry s key node now]> entries ∧
    match sh_entries s !! key with Some _ => entries = sh_entries s | None => evicted (sh_capacity s) (sh_entries s) entries end.
Proof.
  intros Ht Hi. unfold hint_note, note_entry. destruct (sh_entries s !! key) as [e|] eqn:He.
  - match goal with |- context[hints_compact ?x] => destruct (hint_compact_entries x) as (-> & -> & ->) end. split_and!; [|done|done|by eexists].
    apply hint_compact_inv. eapply (write_inv t now s _ _ key _ []); try done; [apply Hi|eapply renew_ok, Hi; done|].
    apply insert_size_le. right. split; [by eexists|apply Hi].
  - pose proof (hint_evict_spec (sh_capacity s) (sh_entries s) (sh_order s) (hi_cap t s Hi) (hi_size t s Hi) (hi_stamped t s Hi) (hi_sorted t s Hi)) as Hev.
    destruct (hint_evict _ _ _) as [entries order]. destruct Hev as (Hev & Hst & Hsz & dropped & Hord).
    match goal with |- context[hints_compact ?x] => destruct (hint_compact_entries x) as (-> & -> & ->) end. split_and!; [|done|done|by eexists].
    apply hint_compact_inv. eapply (write_inv t now s entries order key _ dropped); try done; [|apply fresh_ok|by apply insert_size_le; left].
    destruct Hev as [[_ ->]|(old & e & _ & -> & _)]; [done|apply delete_subseteq].
Qed.

(** An entry rewritten in place. *)
Lemma rewrite_inv t s key e e' : hints_inv t s → sh_entries s !! key = Some e → hint_ok t e' → he_at e' = he_at e →
  hints_inv t (hints_with s (<[key := e']> (sh_entries s)) (sh_order s)).
Proof.
  intros Hi He Hok Hat. split; simpl; try apply Hi.
  - apply insert_size_le. right. split; [by eexists|apply Hi].
  - intros k e0 [[<- <-]|[_ He0]]%lookup_insert_Some; [done|]. by apply (hi_entry t s Hi k).
  - intros k e0 [[<- <-]|[_ He0]]%lookup_insert_Some; [rewrite Hat|]; by apply (hi_stamped t s Hi).
Qed.

Lemma note_entry_ok t s key node now : t ≤ now → hints_inv t s → hint_ok now (note_entry s key node now).
Proof.
  intros Ht Hi. unfold note_entry. destruct (sh_entries s !! key) as [e|] eqn:He; [|apply fresh_ok].
  eapply renew_ok, Hi; done.
Qed.

(** The entry an offer leaves. *)
Definition offer_entry s key (node : A) now : HintEntry A :=
  let e := note_entry s key node now in
  let '(uses, max) := default (0, 0) ((λ e, (he_uses e, he_max e)) <$> sh_entries s !! key) in
  mkHint (he_nodes e) (he_at e) uses max (he_probed e) true (he_senders e ++ [node]) (he_deferred e).

Lemma note_entry_node s key node now : node ∈ he_nodes (note_entry s key node now) ∧ node ∉ he_senders (note_entry s key node now).
Proof.
  unfold note_entry. destruct (sh_entries s !! key) as [e|]; simpl; [|set_solver]. split.
  - apply keep_newest_snoc. unfold HINTS_PER_PAGE. lia.
  - intros [Hw _]%elem_of_filter_b. by apply elem_of_without in Hw as [_ ?].
Qed.

Lemma offer_entry_ok t s key node now : t ≤ now → hints_inv t s → hint_ok now (offer_entry s key node now).
Proof.
  intros Ht Hi. pose proof (note_entry_ok t s key node now Ht Hi) as Hok. destruct (note_entry_node s key node now) as [Hin Hout].
  assert (Hlim : let '(uses, max) := default (0, 0) ((λ e, (he_uses e, he_max e)) <$> sh_entries s !! key) in
    max = MAX_DEFERRALS ∨ uses = 0 ∧ (max = U32_MAX ∨ max = 0)).
  { destruct (sh_entries s !! key) as [e|] eqn:He; simpl; [by eapply ho_limit, Hi|]. tauto. }
  unfold offer_entry. destruct (default _ _) as [uses max]. split; simpl; try apply Hok; try done.
  - intros n [Hn| ->%list_elem_of_singleton]%elem_of_app; [by eapply ho_senders|done].
  - apply NoDup_app. split_and!; [apply Hok|by intros n Hn ->%list_elem_of_singleton|apply NoDup_singleton].
Qed.

Lemma note_offer_spec t s key node now : t ≤ now → hints_inv t s →
  let s' := (hint_note_offer s key node false false now).2 in
  hints_inv now s' ∧ sh_capacity s' = sh_capacity s ∧ sh_ttl s' = sh_ttl s ∧
  ∃ entries, sh_entries s' = <[key := offer_entry s key node now]> entries ∧
    match sh_entries s !! key with Some _ => entries = sh_entries s | None => evicted (sh_capacity s) (sh_entries s) entries end.
Proof.
  intros Ht Hi. unfold hint_note_offer. simpl. destruct (hint_note_spec t s key node now Ht Hi) as (Hi' & Hc & Htl & entries & He & Hev).
  assert (Hk : sh_entries (hint_note s key node now) !! key = Some (note_entry s key node now)) by by rewrite He, lookup_insert_eq.
  rewrite Hk. pose proof (offer_entry_ok t s key node now Ht Hi) as Hok. unfold offer_entry in *.
  destruct (default _ _) as [uses max]. split_and!; [by eapply rewrite_inv|done|done|].
  exists entries. split; [|done]. simpl. by rewrite He, insert_insert_eq.
Qed.

Lemma probe_inv t s key now : hints_inv t s → hints_inv t (hint_probe s key now).2.
Proof.
  intros Hi. unfold hint_probe. destruct (sh_entries s !! key) as [e|] eqn:He; [|done]. case_match; [|done].
  eapply rewrite_inv; [done|done| |done]. destruct (hi_entry t s Hi key e He). by split.
Qed.

Lemma forget_inv t s key : hints_inv t s → hints_inv t (hint_forget s key).
Proof.
  intros Hi. split; simpl; try apply Hi.
  - etransitivity; [apply map_subseteq_size, delete_subseteq|apply Hi].
  - intros k e [_ He]%lookup_delete_Some. by apply (hi_entry t s Hi k).
  - intros k e [_ He]%lookup_delete_Some. by apply (hi_stamped t s Hi).
Qed.

Lemma charge_inv t s key requester to now : t ≤ now → hints_inv t s → hints_inv now (hint_charge s key requester to MAX_DEFERRALS now).
Proof.
  intros Ht Hi0. pose proof (hints_inv_mono t now s Ht Hi0) as Hi. unfold hint_charge. destruct (sh_entries s !! key) as [e|] eqn:He; [|done].
  eapply rewrite_inv; [done|done| |done]. destruct (hi_entry now s Hi key e He) as [Hs Hn Hd Hse Hst Hdl Hr Hti Hl].
  assert (Hsub : ∀ P : A * N → Prop, Forall P (he_deferred e) → P (requester, now) →
    Forall P (keep_newest (N.to_nat MAX_DEFERRALS) (List.filter (λ d : A * N, negb (bool_decide (d.1 = requester))) (he_deferred e) ++ [(requester, now)]))).
  { intros P HP HP1. rewrite Forall_forall in *. intros d Hin. eapply elem_of_sublist in Hin; [|apply keep_newest_sublist].
    apply elem_of_app in Hin as [[Hin _]%elem_of_filter_b| ->%list_elem_of_singleton]; [by apply HP|done]. }
  destruct (contains_b (he_senders e) to); split; simpl; try done; try (by left).
  - apply keep_newest_length. rewrite length_app. simpl.
    pose proof (sublist_length _ _ (filter_sublist (λ d : A * N, negb (bool_decide (d.1 = requester))) (he_deferred e))). lia.
  - eapply sublist_NoDup; [|apply fmap_sublist, keep_newest_sublist]. rewrite fmap_app. apply NoDup_app. split_and!.
    + by apply filter_bool_NoDup.
    + intros n (d & Hd' & [_ Hne]%elem_of_filter_b)%list_elem_of_fmap Hn'%list_elem_of_singleton.
      apply negb_true_iff, bool_decide_eq_false in Hne. apply Hne. by rewrite <- Hd', Hn'.
    + apply NoDup_singleton.
  - apply Hsub; [done|]. simpl. lia.
Qed.

(** ** Runs *)

Variable local : A.

(** The requests of a node that touch its hints. *)
Inductive HintOp :=
| HintOp_Note (passthrough : bool) (key : K) (requester : A) (copy_only owners : bool)
| HintOp_Offer (key : K) (requester : A) (holds acquiring : bool)
| HintOp_Probe (key : K)
| HintOp_Forget (key : K)
| HintOp_Defer (passthrough acquiring : bool) (key : K) (requester : A)
| HintOp_Ranked (i : nat) (owners : option (list A)).

Definition run_hint w (now : N) (op : HintOp) : HintWorld K A :=
  match op with
  | HintOp_Note passthrough key requester copy_only owners =>
      mkHintWorld (note_successor (hw_hints w) passthrough local key requester copy_only owners now) (hw_waiting w)
  | HintOp_Offer key requester holds acquiring =>
      mkHintWorld (serve_offer (hw_hints w) local key requester holds acquiring now) (hw_waiting w)
  | HintOp_Probe key => mkHintWorld (hint_probe (hw_hints w) key now).2 (hw_waiting w)
  | HintOp_Forget key => mkHintWorld (hint_forget (hw_hints w) key) (hw_waiting w)
  | HintOp_Defer passthrough acquiring key requester => (defer_start w passthrough acquiring key requester now).2
  | HintOp_Ranked i owners => (defer_finish w i local owners now).2
  end.

(** The deferrals for a page that wait at once. *)
Definition waiting_for w (key : K) : nat := length (filter (λ q, wt_key q = key) (hw_waiting w)).

(** A run whose clock does not go back, with at most [crowd] deferrals of one page at once. *)
Inductive hint_run (capacity : nat) (ttl : N) (crowd : nat) : N → HintWorld K A → Prop :=
| hr_new now : hint_run capacity ttl crowd now (mkHintWorld (hints_new capacity ttl) [])
| hr_step t now w op : hint_run capacity ttl crowd t w → t ≤ now → (∀ key, waiting_for (run_hint w now op) key ≤ crowd)%nat →
    hint_run capacity ttl crowd now (run_hint w now op).

Lemma hints_new_inv capacity ttl now : hints_inv now (hints_new capacity ttl : SuccessorHints K A).
Proof. split; simpl; [lia|rewrite map_size_empty; lia|done|done|apply SSorted_nil|apply Forall_nil_2]. Qed.

Lemma run_hint_inv t w now op : t ≤ now → hints_inv t (hw_hints w) → hints_inv now (hw_hints (run_hint w now op)).
Proof.
  intros Ht Hi. pose proof (hints_inv_mono t now _ Ht Hi) as Hn.
  destruct op as [pass key req copy own|key req holds acq|key|key|pass acq key req|i owners]; simpl.
  - unfold note_successor. repeat case_match; try done. by apply (hint_note_spec t).
  - unfold serve_offer. case_match; [done|]. destruct holds; [done|]. destruct acq; [done|]. by apply (note_offer_spec t).
  - by apply probe_inv.
  - by apply forget_inv.
  - unfold defer_start. by repeat case_match.
  - unfold defer_finish. repeat case_match; try done. simpl. by eapply charge_inv.
Qed.

Lemma hint_run_inv capacity ttl crowd t w : hint_run capacity ttl crowd t w → hints_inv t (hw_hints w).
Proof. induction 1 as [now|t now w op _ IH Ht _]; [apply hints_new_inv|by eapply run_hint_inv]. Qed.

(** *** Capacity and age *)

Lemma run_hint_fixed t w now op : t ≤ now → hints_inv t (hw_hints w) →
  sh_capacity (hw_hints (run_hint w now op)) = sh_capacity (hw_hints w) ∧ sh_ttl (hw_hints (run_hint w now op)) = sh_ttl (hw_hints w).
Proof.
  intros Ht Hi. destruct op as [pass key req copy own|key req holds acq|key|key|pass acq key req|i owners]; simpl.
  - unfold note_successor. repeat case_match; try done. by destruct (hint_note_spec t (hw_hints w) key req now) as (_ & ? & ? & _).
  - unfold serve_offer. case_match; [done|]. destruct holds; [done|]. destruct acq; [done|].
    by destruct (note_offer_spec t (hw_hints w) key req now) as (_ & ? & ? & _).
  - unfold hint_probe. by repeat case_match.
  - done.
  - unfold defer_start. by repeat case_match.
  - unfold defer_finish, hint_charge. by repeat case_match.
Qed.

Lemma hint_run_fixed capacity ttl crowd t w : hint_run capacity ttl crowd t w →
  sh_capacity (hw_hints w) = Nat.max capacity 1 ∧ sh_ttl (hw_hints w) = ttl.
Proof.
  induction 1 as [now|t now w op Hr [IH1 IH2] Ht _]; [done|].
  destruct (run_hint_fixed t w now op Ht (hint_run_inv _ _ _ _ _ Hr)) as [-> ->]. done.
Qed.

(** Along every interleaving of the requests that touch the hints, the table holds at most
    [capacity] pages; each names one or two distinct nodes, the senders among them, and
    remembers at most [MAX_DEFERRALS] distinct requesters; and a note of a new page in a full
    table evicts exactly one page, the one noted longest ago. *)
Theorem hints_run_sound capacity ttl crowd t w (Hrun : hint_run capacity ttl crowd t w) :
  let s := hw_hints w in
  (size (sh_entries s) ≤ Nat.max capacity 1)%nat ∧
  (∀ k e, sh_entries s !! k = Some e →
     (1 ≤ length (he_nodes e) ≤ HINTS_PER_PAGE)%nat ∧ NoDup (he_nodes e) ∧ (∀ n, n ∈ he_senders e → n ∈ he_nodes e) ∧
     (length (he_deferred e) ≤ N.to_nat MAX_DEFERRALS)%nat ∧ NoDup (he_deferred e).*1) ∧
  ∀ now key node, t ≤ now → sh_entries s !! key = None → size (sh_entries s) = Nat.max capacity 1 →
    ∃ old e, sh_entries s !! old = Some e ∧
      sh_entries (hint_note s key node now) = <[key := mkHint [node] now 0 U32_MAX false false [] []]> (delete old (sh_entries s)) ∧
      ∀ k e', sh_entries s !! k = Some e' → he_at e ≤ he_at e'.
Proof.
  pose proof (hint_run_inv _ _ _ _ _ Hrun) as Hi. destruct (hint_run_fixed _ _ _ _ _ Hrun) as [Hc _]. cbv zeta. split_and!.
  - rewrite <- Hc. apply Hi.
  - intros k e He. destruct (hi_entry _ _ Hi k e He) as [Hs Hn Hd Hse Hst Hdl Hr Hti Hl]. split_and!; try done.
    destruct (he_nodes e); [done|simpl; lia].
  - intros now key node Ht Hk Hfull. destruct (hint_note_spec t (hw_hints w) key node now Ht Hi) as (_ & _ & _ & entries & He & Hev).
    rewrite Hk in Hev. unfold note_entry in He. rewrite Hk in He. destruct Hev as [[Hlt _]|(old & e & Hold & -> & Hmin)]; [lia|].
    by exists old, e.
Qed.

(** *** Deferrals *)

Lemma evicted_sub capacity entries entries' : evicted capacity entries entries' → entries' ⊆ entries.
Proof. intros [[_ ->]|(old & e & _ & -> & _)]; [done|apply delete_subseteq]. Qed.

(** What an entry of another page, or of the page written, was before. *)
Lemma written_entry t s key node now (write : SuccessorHints K A → K → A → N → HintEntry A) s' entries k e' :
  hints_inv t s → sh_entries s' = <[key := write s key node now]> entries →
  match sh_entries s !! key with Some _ => entries = sh_entries s | None => evicted (sh_capacity s) (sh_entries s) entries end →
  sh_entries s' !! k = Some e' → k = key ∧ e' = write s key node now ∨ k ≠ key ∧ sh_entries s !! k = Some e'.
Proof.
  intros Hi He Hev He'. rewrite He in He'. apply lookup_insert_Some in He' as [[<- <-]|[Hne He']]; [by left|right]. split; [done|].
  destruct (sh_entries s !! key); [by subst|]. eapply lookup_weaken; [done|by eapply evicted_sub].
Qed.

(** Only a ranked deferral counts; a note starts over. *)
Lemma run_hint_uses t w now op k e' : t ≤ now → hints_inv t (hw_hints w) → (∀ i owners, op ≠ HintOp_Ranked i owners) →
  sh_entries (hw_hints (run_hint w now op)) !! k = Some e' →
  he_uses e' = 0 ∨ ∃ e, sh_entries (hw_hints w) !! k = Some e ∧ he_uses e' = he_uses e.
Proof.
  intros Ht Hi Hop. set (s := hw_hints w) in *.
  destruct op as [pass key req copy own|key req holds acq|key|key|pass acq key req|i owners]; simpl; fold s.
  - unfold note_successor. repeat case_match; try by eauto. intros He'.
    destruct (hint_note_spec t s key req now Ht Hi) as (_ & _ & _ & entries & He & Hev).
    destruct (written_entry t s key req now note_entry _ _ k e' Hi He Hev He') as [[-> ->]|[_ ?]]; [|eauto].
    left. unfold note_entry. by destruct (sh_entries s !! key).
  - unfold serve_offer. case_match; [eauto|]. destruct holds; [eauto|]. destruct acq; [eauto|]. intros He'.
    destruct (note_offer_spec t s key req now Ht Hi) as (_ & _ & _ & entries & He & Hev).
    destruct (written_entry t s key req now offer_entry _ _ k e' Hi He Hev He') as [[-> ->]|[_ ?]]; [|eauto].
    unfold offer_entry. destruct (sh_entries s !! key) as [e|]; [right; by exists e|by left].
  - unfold hint_probe. destruct (sh_entries s !! key) as [e|] eqn:He; [|eauto]. case_match; [|eauto]. simpl.
    intros [[<- <-]|[_ ?]]%lookup_insert_Some; eauto.
  - intros [_ ?]%lookup_delete_Some. eauto.
  - unfold defer_start. repeat case_match; eauto.
  - by destruct (Hop i owners).
Qed.

Lemma run_hint_waiting w now op : (∀ i owners, op ≠ HintOp_Ranked i owners) →
  hw_waiting (run_hint w now op) = hw_waiting w ∨
  ∃ key requester, hw_hints (run_hint w now op) = hw_hints w ∧ hint_peek (hw_hints w) key now ≠ [] ∧
    hw_waiting (run_hint w now op) = hw_waiting w ++ [mkWaiting key requester (hint_peek (hw_hints w) key now)].
Proof.
  intros Hop. destruct op as [pass key req copy own|key req holds acq|key|key|pass acq key req|i owners]; simpl; try by left.
  - unfold defer_start, peek_for. destruct pass; [by left|]. destruct (negb _); [by left|]. destruct (hint_returned _ _ _ _); [by left|].
    destruct (hint_peek (hw_hints w) key now) as [|n l] eqn:Hp; [by left|]. right. exists key, req. simpl. by rewrite Hp.
  - by destruct (Hop i owners).
Qed.

Lemma waiting_for_delete w i q key : hw_waiting w !! i = Some q →
  waiting_for w key = ((if decide (wt_key q = key) then 1 else 0) + length (filter (λ q, wt_key q = key) (delete i (hw_waiting w))))%nat.
Proof.
  intros Hq. unfold waiting_for. rewrite (delete_Permutation _ _ _ Hq) at 1. rewrite filter_cons. by case_decide.
Qed.

Definition uses_bound (crowd : nat) w : Prop := ∀ k e, sh_entries (hw_hints w) !! k = Some e →
  he_uses e + N.of_nat (waiting_for w k) ≤ MAX_DEFERRALS - 1 + N.of_nat crowd.

Lemma ranked_uses crowd w i owners now : uses_bound crowd w → uses_bound crowd (run_hint w now (HintOp_Ranked i owners)).
Proof.
  intros Hu. simpl. unfold defer_finish. destruct (hw_waiting w !! i) as [q|] eqn:Hq; [|done].
  assert (Hdrop : uses_bound crowd (mkHintWorld (hw_hints w) (delete i (hw_waiting w)))).
  { intros k e He. specialize (Hu k e He). rewrite (waiting_for_delete w i q k Hq) in Hu. unfold waiting_for. simpl. lia. }
  destruct owners as [owners|]; [|done]. destruct (successor_deferral _ _ _ _) as [to|]; [|done]. intros k e'. simpl. unfold hint_charge.
  destruct (sh_entries (hw_hints w) !! wt_key q) as [e|] eqn:He; [|by apply Hdrop]. simpl.
  intros [[<- <-]|[_ He']]%lookup_insert_Some; [|by apply Hdrop]. simpl. specialize (Hu (wt_key q) e He).
  rewrite (waiting_for_delete w i q (wt_key q) Hq), decide_True in Hu by done. unfold waiting_for. simpl. lia.
Qed.

Lemma run_hint_bound t crowd w now op : t ≤ now → hints_inv t (hw_hints w) → (∀ key, waiting_for (run_hint w now op) key ≤ crowd)%nat →
  uses_bound crowd w → uses_bound crowd (run_hint w now op).
Proof.
  intros Ht Hi Hc Hu. assert (Hcase : (∃ i owners, op = HintOp_Ranked i owners) ∨ ∀ i owners, op ≠ HintOp_Ranked i owners)
    by (destruct op; eauto; by right).
  destruct Hcase as [(i & owners & ->)|Hop]; [by apply ranked_uses|]. intros k e' He'. specialize (Hc k).
  destruct (run_hint_waiting w now op Hop) as [Hw|(key & req & Hh & Hp & Hw)].
  - destruct (run_hint_uses t w now op k e' Ht Hi Hop He') as [->|(e & He & ->)]; [lia|]. specialize (Hu k e He).
    unfold waiting_for in *. rewrite Hw. lia.
  - rewrite Hh in He'. destruct (decide (key = k)) as [<-|Hne].
    + unfold hint_peek in Hp. rewrite He' in Hp. destruct (_ && _) eqn:Hb; [|done]. apply andb_true_iff in Hb as [_ Hb%N.ltb_lt].
      destruct (ho_limit _ _ (hi_entry _ _ Hi key e' He')) as [Hm|[-> _]]; [|lia]. rewrite Hm in Hb. unfold MAX_DEFERRALS in *. lia.
    + specialize (Hu k e' He'). unfold waiting_for in *. rewrite Hw, filter_app, length_app, filter_cons_False by done. simpl. lia.
Qed.

(** C9: Each hint sends away at most [MAX_DEFERRALS - 1 + crowd] readers before it is renewed,
    when at most [crowd] deferrals of one page wait for its owners at once: with one at a time
    the limit is [MAX_DEFERRALS] itself. *)
Theorem deferrals_bounded capacity ttl crowd t w key e (Hrun : hint_run capacity ttl crowd t w)
    (He : sh_entries (hw_hints w) !! key = Some e) :
  he_uses e ≤ MAX_DEFERRALS - 1 + N.of_nat crowd.
Proof.
  assert (Hu : uses_bound crowd w).
  { clear He. induction Hrun as [now|t now w op Hr IH Ht Hc]; [by intros k e'|].
    apply (run_hint_bound t); [done|by eapply hint_run_inv|done|exact IH]. }
  specialize (Hu key e He). lia.
Qed.

(** *** Returning requesters *)

Definition ranked (op : HintOp) : bool := match op with HintOp_Ranked _ _ => true | _ => false end.

Lemma run_hint_deferred t w now op k e e' : t ≤ now → hints_inv t (hw_hints w) → ranked op = false →
  sh_entries (hw_hints w) !! k = Some e → sh_entries (hw_hints (run_hint w now op)) !! k = Some e' → he_deferred e' = he_deferred e.
Proof.
  intros Ht Hi Hop Hk. set (s := hw_hints w) in *.
  destruct op as [pass key req copy own|key req holds acq|key|key|pass acq key req|i owners]; simpl in *; fold s.
  - unfold note_successor. repeat case_match; intros He'; try congruence.
    destruct (hint_note_spec t s key req now Ht Hi) as (_ & _ & _ & entries & He & Hev).
    destruct (written_entry t s key req now note_entry _ _ k e' Hi He Hev He') as [[-> ->]|[_ ?]]; [|congruence].
    unfold note_entry. by rewrite Hk.
  - unfold serve_offer. case_match; [by simpl; intros; congruence|]. destruct holds; [by simpl; intros; congruence|]. destruct acq; [by simpl; intros; congruence|]. intros He'.
    destruct (note_offer_spec t s key req now Ht Hi) as (_ & _ & _ & entries & He & Hev).
    destruct (written_entry t s key req now offer_entry _ _ k e' Hi He Hev He') as [[-> ->]|[_ ?]]; [|congruence].
    unfold offer_entry, note_entry. by rewrite Hk.
  - unfold hint_probe. destruct (sh_entries s !! key) as [e0|] eqn:He; [|by simpl; intros; congruence]. case_match; [|by simpl; intros; congruence]. simpl.
    intros [[<- <-]|[_ ?]]%lookup_insert_Some; simpl; congruence.
  - intros [_ ?]%lookup_delete_Some. congruence.
  - subst s. unfold defer_start. repeat case_match; simpl; intros; congruence.
  - done.
Qed.

(** The deferral of [requester] since [since] is remembered, with at most [n] others after it. *)
Definition remembered key (requester : A) (since : N) (n : nat) w : Prop := ∃ e pre post at_,
  sh_entries (hw_hints w) !! key = Some e ∧ he_deferred e = pre ++ (requester, at_) :: post ∧ since ≤ at_ ∧ (length post ≤ n)%nat.

Lemma keep_newest_tail {B} bound (pre post : list B) x : (length post < bound)%nat →
  ∃ pre', keep_newest bound (pre ++ x :: post) = pre' ++ x :: post.
Proof.
  intros Hb. unfold keep_newest. destruct (Nat.ltb_spec bound (length (pre ++ x :: post))) as [Hlt|]; [|by exists pre].
  destruct pre as [|y pre]; simpl in *; [lia|]. by exists pre.
Qed.

(** A charge keeps the memory of [requester], or renews it. *)
Lemma charge_remembers requester since n (deferred pre post : list (A * N)) at_ r now :
  deferred = pre ++ (requester, at_) :: post → since ≤ at_ → since ≤ now → (length post ≤ n)%nat → (S n < N.to_nat MAX_DEFERRALS)%nat →
  ∃ pre' post' at', keep_newest (N.to_nat MAX_DEFERRALS)
      (List.filter (λ d : A * N, negb (bool_decide (d.1 = r))) deferred ++ [(r, now)]) = pre' ++ (requester, at') :: post' ∧
    since ≤ at' ∧ (length post' ≤ S n)%nat.
Proof.
  intros -> Ha Hn Hl Hlim. destruct (decide (r = requester)) as [->|Hne].
  - match goal with |- context[keep_newest ?b (?l ++ [?x])] => destruct (keep_newest_tail b l [] x) as [pre' ->] end; [simpl; lia|].
    exists pre', [], now. split_and!; [done|done|simpl; lia].
  - rewrite List.filter_app. simpl. rewrite (bool_decide_eq_false_2 (requester = r)) by congruence. simpl.
    pose proof (sublist_length _ _ (filter_sublist (λ d : A * N, negb (bool_decide (d.1 = r))) post)) as Hp.
    rewrite <- app_assoc. simpl.
    match goal with |- context[keep_newest ?b (?l ++ ?x :: ?r)] => destruct (keep_newest_tail b l r x) as [pre' ->] end.
    { rewrite length_app. simpl. lia. }
    eexists pre', _, at_. split_and!; [done|done|]. rewrite length_app. simpl. lia.
Qed.

Lemma remembered_step t w now op key requester since n : t ≤ now → hints_inv t (hw_hints w) → since ≤ now →
  (S n < N.to_nat MAX_DEFERRALS)%nat ∨ ranked op = false → is_Some (sh_entries (hw_hints (run_hint w now op)) !! key) →
  remembered key requester since n w → remembered key requester since (if ranked op then S n else n) (run_hint w now op).
Proof.
  intros Ht Hi Hs Hn [e' He'] (e & pre & post & at_ & He & Hd & Ha & Hl). destruct (ranked op) eqn:Hop.
  2: { exists e', pre, post, at_. split_and!; try done. by rewrite (run_hint_deferred t w now op key e e'). }
  destruct Hn as [Hn|]; [|done]. destruct op as [| | | | |i owners]; try done. simpl in *. unfold defer_finish in *.
  assert (Hsame : remembered key requester since (S n) (mkHintWorld (hw_hints w) (delete i (hw_waiting w))))
    by (exists e, pre, post, at_; split_and!; [done|done|done|lia]).
  destruct (hw_waiting w !! i) as [q|]; [|by exists e, pre, post, at_; split_and!; [done|done|done|lia]].
  destruct owners as [owners|]; [|done]. destruct (successor_deferral _ _ _ _) as [to|]; [|done]. simpl in *. unfold hint_charge in *.
  destruct (sh_entries (hw_hints w) !! wt_key q) as [e0|] eqn:He0; [|done]. unfold remembered. simpl in *.
  destruct (decide (wt_key q = key)) as [<-|Hne].
  2: { rewrite lookup_insert_ne by done. exists e, pre, post, at_. split_and!; [done|done|done|lia]. }
  rewrite lookup_insert_eq. assert (e0 = e) as -> by congruence. destruct (contains_b _ _).
  - destruct (charge_remembers requester since n (he_deferred e) pre post at_ (wt_requester q) now Hd Ha Hs Hl Hn)
      as (pre' & post' & at' & Hk & Ha' & Hl').
    eexists _, pre', post', at'. split_and!; [done|exact Hk|done|done].
  - eexists _, pre, post, at_. split_and!; [done|exact Hd|done|lia].
Qed.

(** A run in which the page's hints are neither forgotten nor evicted, with [n] deferrals ranked. *)
Inductive kept_run (key : K) : nat → N → HintWorld K A → N → HintWorld K A → Prop :=
| kr_refl t w : kept_run key 0 t w t w
| kr_step n t w u w' now op : kept_run key n t w u w' → u ≤ now → is_Some (sh_entries (hw_hints (run_hint w' now op)) !! key) →
    kept_run key (if ranked op then S n else n) t w now (run_hint w' now op).

Lemma kept_run_remembers key requester n t w u w' : kept_run key n t w u w' → hints_inv t (hw_hints w) → remembered key requester t 0 w →
  (n < N.to_nat MAX_DEFERRALS)%nat → t ≤ u ∧ hints_inv u (hw_hints w') ∧ remembered key requester t n w'.
Proof.
  induction 1 as [t w|n t w u w' now op Hk IH Hu Hsome]; intros Hi Hr Hn; [done|].
  destruct IH as (Htu & Hi' & Hr'); [done|done|by destruct (ranked op); lia|]. split_and!.
  - lia.
  - by eapply run_hint_inv.
  - apply (remembered_step u); try done; [lia|]. destruct (ranked op); [by left|by right].
Qed.

(** A requester sent to a node that offered its copy and back within [RETURN_WITHIN] is not
    sent away again, however the hints of the page were renewed, offered or probed meanwhile,
    unless they were evicted or [MAX_DEFERRALS] other deferrals were made since. *)
Theorem returning_requester_stays capacity ttl crowd t w i q e to owners now n u w' now' passthrough acquiring
    (Hrun : hint_run capacity ttl crowd t w) (Hnow : t ≤ now) (Hq : hw_waiting w !! i = Some q)
    (He : sh_entries (hw_hints w) !! wt_key q = Some e)
    (Hto : successor_deferral (wt_hints q) local (wt_requester q) (take 3 owners) = Some to) (Hsender : to ∈ he_senders e)
    (Hkept : kept_run (wt_key q) n now (defer_finish w i local (Some owners) now).2 u w') (Hn : (n < N.to_nat MAX_DEFERRALS)%nat)
    (Hback : u ≤ now') (Hwithin : now' - now ≤ RETURN_WITHIN) :
  (defer_finish w i local (Some owners) now).1 = true ∧
  defer_start w' passthrough acquiring (wt_key q) (wt_requester q) now' = (false, w').
Proof.
  pose proof (hint_run_inv _ _ _ _ _ Hrun) as Hi.
  pose proof (run_hint_inv t w now (HintOp_Ranked i (Some owners)) Hnow Hi) as Hi1. simpl in Hi1.
  assert (Hr : remembered (wt_key q) (wt_requester q) now 0 (defer_finish w i local (Some owners) now).2).
  { unfold defer_finish. rewrite Hq, Hto. unfold remembered, hint_charge. simpl. rewrite He. simpl. rewrite lookup_insert_eq.
    unfold contains_b. rewrite bool_decide_eq_true_2 by done.
    match goal with |- context[keep_newest ?b (?l ++ [?x])] => destruct (keep_newest_tail b l [] x) as [pre Hpre] end;
      [unfold MAX_DEFERRALS; simpl; lia|]. eexists _, pre, [], now. split_and!; [done|exact Hpre|done|simpl; lia]. }
  destruct (kept_run_remembers _ _ _ _ _ _ _ Hkept Hi1 Hr Hn) as (Hu & _ & e' & pre & post & at_ & He' & Hd & Ha & _). split.
  { unfold defer_finish. by rewrite Hq, Hto. }
  assert (Hret : hint_returned (hw_hints w') (wt_key q) (wt_requester q) now' = true).
  { unfold hint_returned. rewrite He', Hd. apply existsb_exists. exists (wt_requester q, at_). split; [apply in_app_iff; simpl; tauto|].
    simpl. rewrite bool_decide_eq_true_2 by done. simpl. apply N.leb_le. lia. }
  unfold defer_start, peek_for. rewrite Hret. by repeat case_match.
Qed.
End runs.

Arguments HintOp : clear implicits.

(** Who a reader is sent to: the newest hinted owner ranked after this node, never an owner's
    reader. *)
Theorem deferral_moves_on `{EqDecision A} (hints : list A) (local requester : A) (owners : list A) (to : A) :
  successor_deferral hints local requester owners = Some to →
  requester ∉ owners ∧ ∃ me r older newer, index_of local owners = Some me ∧ index_of to owners = Some r ∧ (me < r)%nat ∧
    hints = older ++ to :: newer ∧ ∀ n r', n ∈ newer → index_of n owners = Some r' → (r' ≤ me)%nat.
Proof.
  unfold successor_deferral. destruct (index_of local owners) as [me|] eqn:Hme; [|done].
  unfold contains_b. case_bool_decide as Hreq; [done|]. set (ok := λ n : A, _ && _).
  assert (Hfind : ∀ l, List.find ok l = Some to → ∃ newer older, l = newer ++ to :: older ∧ ok to = true ∧ ∀ n, n ∈ newer → ok n = false).
  { induction l as [|x l IH]; simpl; [done|]. destruct (ok x) eqn:Hx; [intros [= ->]; exists [], l; split_and!; [done|done|set_solver]|].
    intros (newer & older & -> & Ht & Hn)%IH. exists (x :: newer), older. split_and!; [done|done|]. intros n [->|Hin]%elem_of_cons; auto. }
  intros (newer & older & Hl & Ht & Hn)%Hfind. split; [done|]. unfold ok in Ht. apply andb_true_iff in Ht as [_ Ht].
  destruct (index_of to owners) as [r|] eqn:Hr; [|done]. apply Nat.ltb_lt in Ht. exists me, r, (rev older), (rev newer).
  split_and!; [done|done|done| |].
  - rewrite <- (rev_involutive hints), Hl, rev_app_distr. simpl. by rewrite <- app_assoc.
  - intros n r' Hin Hr'. rewrite list_elem_of_In, <- in_rev, <- list_elem_of_In in Hin. pose proof (Hn n Hin) as Hok. unfold ok in Hok. rewrite Hr' in Hok.
    destruct (Nat.ltb_spec me r'); [|done]. rewrite andb_true_r, negb_false_iff, bool_decide_eq_true in Hok. subst n.
    unfold index_of in Hr'. apply fmap_Some in Hr' as ([j x] & Hf & ->). apply list_find_Some in Hf as (Hj & -> & _).
    by apply list_elem_of_lookup_2 in Hj.
Qed.

(** ** A crowd at one hint *)

Module CrowdSample.

(** Node 0 noted page 7 for node 1; reader 5 asks for it again and again. *)
Definition waiting : Waiting := mkWaiting 7 5 [1].

Definition hinted (uses max : N) (waiters : nat) : HintWorld N N :=
  mkHintWorld (mkHints HINT_CAPACITY HINT_TTL {[7 := mkHint [1] 0 uses max false false [] []]} [(7, 0)]) (replicate waiters waiting).

Definition noted : HintOp N N := HintOp_Note false 7 1 true false.
Definition ask : HintOp N N := HintOp_Defer false false 7 5.
Definition answer : HintOp N N := HintOp_Ranked 0 (Some [0; 1]).

Lemma ask_step uses max n : uses < max → run_hint 0 (hinted uses max n) 0 ask = hinted uses max (S n).
Proof.
  intros Hlt. unfold hinted, ask, run_hint, defer_start, peek_for, hint_returned, hint_peek. simpl.
  rewrite lookup_singleton_eq. simpl. rewrite (proj2 (N.ltb_lt _ _) Hlt). simpl. by rewrite <- replicate_cons_app.
Qed.

Lemma answer_step uses max n : run_hint 0 (hinted uses max (S n)) 0 answer = hinted (uses + 1) MAX_DEFERRALS n.
Proof.
  unfold hinted, answer, run_hint, defer_finish, hint_charge. simpl. rewrite lookup_singleton_eq. simpl. by rewrite insert_singleton_eq.
Qed.

Lemma crowd_of uses max n key : (waiting_for (hinted uses max n) key ≤ n)%nat.
Proof.
  unfold waiting_for. simpl. etransitivity; [apply length_filter|]. by rewrite length_replicate.
Qed.

Lemma hinted_step crowd uses max n op uses' max' n' : hint_run 0 HINT_CAPACITY HINT_TTL crowd 0 (hinted uses max n) →
  run_hint 0 (hinted uses max n) 0 op = hinted uses' max' n' → (n' ≤ crowd)%nat →
  hint_run 0 HINT_CAPACITY HINT_TTL crowd 0 (hinted uses' max' n').
Proof.
  intros Hr Hs Hn. rewrite <- Hs. eapply hr_step; [exact Hr|done|]. intros key. rewrite Hs.
  pose proof (crowd_of uses' max' n' key). lia.
Qed.

Lemma hinted_start crowd : hint_run 0 HINT_CAPACITY HINT_TTL crowd 0 (hinted 0 U32_MAX 0).
Proof.
  assert (Hn : run_hint 0 (mkHintWorld (hints_new HINT_CAPACITY HINT_TTL) []) 0 noted = hinted 0 U32_MAX 0) by (vm_compute; reflexivity).
  rewrite <- Hn. eapply hr_step; [apply (hr_new 0 HINT_CAPACITY HINT_TTL crowd 0)|done|]. intros key. rewrite Hn.
  pose proof (crowd_of 0 U32_MAX 0 key). lia.
Qed.

(** One reader at a time. *)
Lemma one_reader crowd uses max : (1 ≤ crowd)%nat → uses < max → hint_run 0 HINT_CAPACITY HINT_TTL crowd 0 (hinted uses max 0) →
  hint_run 0 HINT_CAPACITY HINT_TTL crowd 0 (hinted (uses + 1) MAX_DEFERRALS 0).
Proof.
  intros Hc Hlt Hr. eapply hinted_step; [|apply (answer_step uses max)|lia]. eapply hinted_step; [exact Hr|by apply ask_step|lia].
Qed.

(** [n] readers ask before the first is answered. *)
Lemma readers_ask crowd uses max n : (n ≤ crowd)%nat → uses < max → hint_run 0 HINT_CAPACITY HINT_TTL crowd 0 (hinted uses max 0) →
  hint_run 0 HINT_CAPACITY HINT_TTL crowd 0 (hinted uses max n).
Proof.
  intros Hn Hlt Hr. induction n as [|n IH]; [done|]. eapply hinted_step; [apply IH; lia|by apply ask_step|lia].
Qed.

Lemma readers_answered crowd uses n : (n ≤ crowd)%nat → hint_run 0 HINT_CAPACITY HINT_TTL crowd 0 (hinted uses MAX_DEFERRALS n) →
  hint_run 0 HINT_CAPACITY HINT_TTL crowd 0 (hinted (uses + N.of_nat n) MAX_DEFERRALS 0).
Proof.
  revert uses. induction n as [|n IH]; intros uses Hn Hr; [by rewrite N.add_0_r|].
  replace (uses + N.of_nat (S n)) with (uses + 1 + N.of_nat n) by lia. apply IH; [lia|].
  eapply hinted_step; [exact Hr|apply answer_step|lia].
Qed.
End CrowdSample.

(** C40: The deferral limit is not enforced across concurrent requests: with [crowd + 1]
    deferrals of a page at once, a hint can send away [MAX_DEFERRALS + crowd] readers, since the
    coordinator looks at the count before it ranks the page's owners and adds to it after. *)
Theorem deferrals_pass_the_limit (crowd : nat) : ∃ w e, hint_run 0 HINT_CAPACITY HINT_TTL (S crowd) 0 w ∧
  sh_entries (hw_hints w) !! 7 = Some e ∧ he_uses e = MAX_DEFERRALS + N.of_nat crowd.
Proof.
  assert (Hseven : hint_run 0 HINT_CAPACITY HINT_TTL (S crowd) 0 (CrowdSample.hinted 7 MAX_DEFERRALS 0)).
  { change 7 with (0 + 1 + 1 + 1 + 1 + 1 + 1 + 1). do 6 (apply CrowdSample.one_reader with (max := MAX_DEFERRALS); [lia|done|]).
    apply CrowdSample.one_reader with (max := U32_MAX); [lia|done|]. apply CrowdSample.hinted_start. }
  apply (CrowdSample.readers_ask _ 7 MAX_DEFERRALS (S crowd)) in Hseven; [|lia|done].
  apply CrowdSample.readers_answered in Hseven; [|lia].
  eexists _, _. split; [exact Hseven|]. simpl. split; [apply lookup_singleton_eq|]. simpl. unfold MAX_DEFERRALS. lia.
Qed.

Lemma hints_run_sound_witness : (size (sh_entries (hw_hints (CrowdSample.hinted 0 U32_MAX 0))) ≤ HINT_CAPACITY)%nat ∧
  sh_entries (hw_hints (CrowdSample.hinted 0 U32_MAX 0)) !! 7 = Some (mkHint [1] 0 0 U32_MAX false false [] []).
Proof.
  split; [exact (proj1 (hints_run_sound 0 HINT_CAPACITY HINT_TTL 1 0 _ (CrowdSample.hinted_start 1)))|vm_compute; reflexivity].
Defined.

Lemma deferrals_bounded_witness : ∃ e, sh_entries (hw_hints (CrowdSample.hinted 1 MAX_DEFERRALS 0)) !! 7 = Some e ∧
  he_uses e = 1 ∧ he_uses e ≤ MAX_DEFERRALS.
Proof.
  exists (mkHint [1] 0 1 MAX_DEFERRALS false false [] []). split; [vm_compute; reflexivity|]. split; [reflexivity|].
  refine (deferrals_bounded 0 HINT_CAPACITY HINT_TTL 1 0 (CrowdSample.hinted 1 MAX_DEFERRALS 0) 7 _ _ _).
  - apply (CrowdSample.one_reader 1 0 U32_MAX); [lia|reflexivity|apply CrowdSample.hinted_start].
  - vm_compute; reflexivity.
Defined.

(** ** A reader that comes back *)

Module ReturnSample.

(** Node 1 asked for page 7 and then offered its copy; reader 5 waits to be sent there. *)
Definition offered : HintWorld N N :=
  run_hint 0 (CrowdSample.hinted 0 U32_MAX 0) 0 (HintOp_Offer 7 1 false false).
Definition waits : HintWorld N N := run_hint 0 offered 0 CrowdSample.ask.
Definition sent : HintWorld N N := (defer_finish waits 0 0 (Some [0; 1]) 0).2.
Definition renewed : HintWorld N N := run_hint 0 sent (10 * SECOND) (HintOp_Note false 7 1 true false).

Lemma waits_run : hint_run 0 HINT_CAPACITY HINT_TTL 1 0 waits.
Proof.
  assert (Hone : ∀ w : HintWorld N N, (length (hw_waiting w) ≤ 1)%nat → ∀ key, (waiting_for w key ≤ 1)%nat).
  { intros w Hl key. unfold waiting_for. etransitivity; [apply length_filter|done]. }
  unfold waits. apply (hr_step 0 HINT_CAPACITY HINT_TTL 1 0 0); [|done|apply Hone; vm_compute; lia].
  unfold offered. apply (hr_step 0 HINT_CAPACITY HINT_TTL 1 0 0); [apply CrowdSample.hinted_start|done|apply Hone; vm_compute; lia].
Qed.

Lemma renewed_kept : kept_run 0 7 0 0 sent (10 * SECOND) renewed.
Proof.
  unfold renewed. apply (kr_step 0 7 0 0 sent 0 sent (10 * SECOND) (HintOp_Note false 7 1 true false));
    [apply kr_refl|vm_compute; discriminate|vm_compute; eauto].
Qed.
End ReturnSample.

Lemma returning_requester_stays_witness :
  (defer_finish ReturnSample.waits 0 0 (Some [0; 1]) 0).1 = true ∧
  defer_start ReturnSample.renewed false false 7 5 (30 * SECOND) = (false, ReturnSample.renewed).
Proof.
  refine (returning_requester_stays 0 HINT_CAPACITY HINT_TTL 1 0 ReturnSample.waits 0 (mkWaiting 7 5 [1])
    (mkHint [1] 0 0 U32_MAX false true [1] []) 1 [0; 1] 0 0 (10 * SECOND) ReturnSample.renewed (30 * SECOND) false false
    ReturnSample.waits_run _ _ _ _ _ ReturnSample.renewed_kept _ _ _); try (vm_compute; reflexivity).
  - vm_compute; discriminate.
  - apply list_elem_of_singleton. reflexivity.
  - vm_compute; lia.
  - vm_compute; discriminate.
  - vm_compute; discriminate.
Defined.
