(* ===== verification/FlightState.v ===== *)
(** * Flight lifecycle

    The state machine of [cmd/racer/flow/src/coalesce.rs], module [flight::state]: attached
    callers, election, handover, publication behind the completion fence, revocation,
    settlement and bounded expiry, with the generation fence [Identity].

    The request policy is the trait [WaiterPolicy]: its fixed [deadline] is a function of the
    policy value, while [check] and the clock read the world (cancellation cells, time), so
    they are functions over an explicit world [Env] threaded through every call.  Wake
    targets are values of [T]; enqueued wakes are a list.  A [BTreeMap] is a [gmap] iterated
    with [btree_iter]. *)

From S2P Require Import Prelude.

(** ** Identity *)

(** [Exhausted] and [Stale] of the flight module. *)
Inductive FlightExhausted := IdExhausted.
Inductive StaleError := Stale.

(** The owner is compared by pointer: a number stands for the allocation. *)
Record Identity : Type := mkIdentity {
  id_owner : N;
  incarnation : N;
  generation : N;
}.

Definition same_registration (a b : Identity) : bool :=
  (id_owner a =? id_owner b)%N && (incarnation a =? incarnation b)%N.

(** [Identity::validate]. *)
Definition identity_validate (a current : Identity) : result () StaleError :=
  if negb (same_registration a current) || negb (generation a =? generation current)%N then Err Stale
  else Ok ().

(** [Identity::advance]. *)
Definition identity_advance (i : Identity) (limit : N) : result () FlightExhausted * Identity :=
  if (limit <=? generation i)%N then (Err IdExhausted, i)
  else match checked_add U64_MAX (generation i) 1 with
       | None => (Err IdExhausted, i)
       | Some g => (Ok (), mkIdentity (id_owner i) (incarnation i) g)
       end.

(** [Cursor::next]: the next live identifier, wrapping to the first. *)
Definition cursor_next {V} (cursor : N) (entries : gmap N V) : option (N * V) :=
  match head (filter (λ p, cursor < p.1)%N (btree_iter ord_le entries)) with
  | Some p => Some p
  | None => head (btree_iter ord_le entries)
  end.

Inductive FlightOutcome (O E : Type) :=
| FlightOutcome_Published (o : O)
| FlightOutcome_Failed (e : E)
| FlightOutcome_Retry.
Arguments FlightOutcome_Published {O E} o.
Arguments FlightOutcome_Failed {O E} e.
Arguments FlightOutcome_Retry {O E}.

Inductive Phase (C O E : Type) :=
| Phase_Acquiring
| Phase_RetryPending
| Phase_Draining (o : FlightOutcome O E)
| Phase_Complete (c : C)
| Phase_Failed (e : E).
Arguments Phase_Acquiring {C O E}.
Arguments Phase_RetryPending {C O E}.
Arguments Phase_Draining {C O E} o.
Arguments Phase_Complete {C O E} c.
Arguments Phase_Failed {C O E} e.

Inductive Published (C P : Type) :=
| Published_Complete (c : C)
| Published_Partial (p : P).
Arguments Published_Complete {C P} c.
Arguments Published_Partial {C P} p.

Section state.
Context {C P O E W T Env : Type}.
Variable deadline : W → N.
Variable check : Env → W → option E * Env.
Variable clock_now : Env → N * Env.
Variable split_published : O → Published C P.

Record Waiter : Type := mkWaiter {
  w_policy : W;
  w_acquisition : bool;
  w_complete : bool;
  w_issued : bool;
  w_error : option E;
  w_waker : option T;
}.

(** [Waiter::eligible]. *)
Definition eligible (w : Waiter) : bool :=
  w_acquisition w && negb (w_issued w) && negb (is_some (w_error w)).

Record State : Type := mkState {
  phase : Phase C O E;
  leader : option N;
  elected : option N;
  handover : bool;
  waiters : gmap N Waiter;
  deadlines : gmap (N * N) ();
  partial : option P;
  cursor : N;
}.

Definition state_default : State := mkState Phase_RetryPending None None false ∅ ∅ None 0.

Definition with_phase (s : State) (p : Phase C O E) : State :=
  mkState p (leader s) (elected s) (handover s) (waiters s) (deadlines s) (partial s) (cursor s).

Definition with_leader (s : State) (l e : option N) (h : bool) : State :=
  mkState (phase s) l e h (waiters s) (deadlines s) (partial s) (cursor s).

Definition with_waiters (s : State) (ws : gmap N Waiter) (ds : gmap (N * N) ()) : State :=
  mkState (phase s) (leader s) (elected s) (handover s) ws ds (partial s) (cursor s).

Definition with_partial (s : State) (p : option P) : State :=
  mkState (phase s) (leader s) (elected s) (handover s) (waiters s) (deadlines s) p (cursor s).

Definition with_error (e : option E) (w : Waiter) : Waiter :=
  mkWaiter (w_policy w) (w_acquisition w) (w_complete w) (w_issued w) e (w_waker w).

Definition with_waker (t : option T) (w : Waiter) : Waiter :=
  mkWaiter (w_policy w) (w_acquisition w) (w_complete w) (w_issued w) (w_error w) t.

Definition with_issued (b : bool) (w : Waiter) : Waiter :=
  mkWaiter (w_policy w) (w_acquisition w) (w_complete w) b (w_error w) (w_waker w).

(** [State::register]. *)
Definition register (s : State) (id : N) (policy : W) (acquisition complete : bool) : State :=
  with_waiters s (<[id := mkWaiter policy acquisition complete false None None]> (waiters s))
    (<[(deadline policy, id) := ()]> (deadlines s)).

(** [State::detach]. *)
Definition detach (s : State) (id : N) : State :=
  match waiters s !! id with
  | Some w => with_waiters s (delete id (waiters s)) (delete (deadline (w_policy w), id) (deadlines s))
  | None => s
  end.

(** [State::validate_registration]. *)
Definition validate_registration (s : State) (id : N) (attached : bool) (registered current : Identity) :
    result () StaleError :=
  if negb attached || negb (same_registration registered current) ||
     negb (is_some (waiters s !! id)) then Err Stale else Ok ().

(** [State::cancel]. *)
Definition cancel (s : State) (id : N) (error : E) : State :=
  with_waiters s (alter (with_error (Some error)) id (waiters s)) (deadlines s).

(** [State::begin_completion]. *)
Definition begin_completion (s : State) (o : FlightOutcome O E) : State :=
  with_phase s (Phase_Draining o).

(** [State::notify]. *)
Definition notify (s : State) (wakes : list T) : State * list T :=
  (with_waiters s (with_waker None <$> waiters s) (deadlines s),
   wakes ++ omap (λ p, w_waker p.2) (btree_iter ord_le (waiters s))).

(** What a call can do to the world outside the state: enqueue wakes, read policy and time. *)
Definition Effects : Type := (list T * Env)%type.

(** [State::refresh_waiter]. *)
Definition refresh_waiter (s : State) (id : N) (fx : Effects) : State * Effects :=
  match waiters s !! id with
  | None => (s, fx)
  | Some w =>
      let '(error, env) :=
        match w_error w with
        | Some e => (Some e, fx.2)
        | None => check fx.2 (w_policy w)
        end in
      match error with
      | None => (with_waiters s (<[id := with_error None w]> (waiters s)) (deadlines s), (fx.1, env))
      | Some e =>
          (with_waiters s (<[id := with_waker None (with_error (Some e) w)]> (waiters s))
             (delete (deadline (w_policy w), id) (deadlines s)),
           (fx.1 ++ match w_waker w with Some t => [t] | None => [] end, env))
      end
  end.

(** [State::sweep_waiter]. *)
Definition sweep_waiter (s : State) (fx : Effects) : State * Effects :=
  match cursor_next (cursor s) (waiters s) with
  | Some (id, _) =>
      refresh_waiter (mkState (phase s) (leader s) (elected s) (handover s) (waiters s) (deadlines s)
                              (partial s) id) id fx
  | None => (s, fx)
  end.

(** [State::elect]. *)
Definition elect (s : State) (id : N) (current : Identity) (limit : N) :
    result bool FlightExhausted * (State * Identity) :=
  match phase s with
  | Phase_RetryPending =>
      match waiters s !! id with
      | Some w =>
          if eligible w then
            match identity_advance current limit with
            | (Err e, current) => (Err e, (s, current))
            | (Ok _, current) =>
                (Ok true,
                 (with_waiters (with_leader (with_phase s Phase_Acquiring) (Some id) (Some id) false)
                    (<[id := with_issued true w]> (waiters s)) (deadlines s), current))
            end
          else (Ok false, (s, current))
      | None => (Ok false, (s, current))
      end
  | _ => (Ok false, (s, current))
  end.

Definition acquiring (s : State) : bool := match phase s with Phase_Acquiring => true | _ => false end.

(** [State::allow_handover]. *)
Definition allow_handover (s : State) : State :=
  if acquiring s then with_leader s (leader s) (elected s) true else s.

(** [State::handed_over]. *)
Definition handed_over (s : State) : bool := acquiring s && negb (bool_decide (leader s = elected s)).

(** [State::leader_deadline]. *)
Definition leader_deadline (s : State) : option N :=
  if acquiring s then
    id ← leader s; (λ w, deadline (w_policy w)) <$> waiters s !! id
  else None.

(** [State::validate_leader]. *)
Definition validate_leader (s : State) (id : N) (active : bool) : result () StaleError :=
  if negb active || negb (acquiring s) ||
     (negb (bool_decide (leader s = Some id)) && negb (bool_decide (elected s = Some id)))
  then Err Stale else Ok ().

(** The candidates of [State::hand_over], latest deadline first. *)
Definition heirs (s : State) : list (N * N) :=
  merge_sort (flip pair_le)
    (omap (λ p, if bool_decide (Some p.1 ≠ leader s) && eligible p.2
                then Some (deadline (w_policy p.2), p.1) else None)
          (btree_iter ord_le (waiters s))).

Fixpoint hand_over_scan (cs : list (N * N)) (s : State) (fx : Effects) : bool * (State * Effects) :=
  match cs with
  | [] => (false, (s, fx))
  | (_, id) :: cs =>
      let '(s, fx) := refresh_waiter s id fx in
      match waiters s !! id with
      | Some w =>
          if is_some (w_error w) then hand_over_scan cs s fx
          else (true, (with_leader s (Some id) (elected s) (handover s), fx))
      | None => hand_over_scan cs s fx
      end
  end.

(** [State::hand_over]. *)
Definition hand_over (s : State) (fx : Effects) : bool * (State * Effects) :=
  hand_over_scan (heirs s) s fx.

Definition any_eligible (s : State) : bool := existsb (λ p, eligible p.2) (map_to_list (waiters s)).

(** The phase a drained outcome settles to, with its effect on waiters and partial result. *)
Definition settled (s : State) (outcome : FlightOutcome O E) (unavailable : E) : State :=
  match outcome with
  | FlightOutcome_Published value =>
      match split_published value with
      | Published_Complete value => with_phase (with_partial s None) (Phase_Complete value)
      | Published_Partial value =>
          with_phase
            (with_waiters (with_partial s (Some value))
               ((λ w, if w_complete w then with_issued false w else w) <$> waiters s) (deadlines s))
            Phase_RetryPending
      end
  | FlightOutcome_Failed error => with_phase s (Phase_Failed error)
  | FlightOutcome_Retry =>
      if any_eligible s then with_phase s Phase_RetryPending else with_phase s (Phase_Failed unavailable)
  end.

(** [State::settle]. *)
Definition flight_settle (s : State) (idle : bool) (unavailable : E) (wakes : list T) : State * list T :=
  if negb idle then (s, wakes)
  else match phase s with
       | Phase_Draining outcome =>
           notify (settled (with_leader (with_phase s Phase_RetryPending) None None false)
                     outcome unavailable) wakes
       | _ => (s, wakes)
       end.

(** [State::revoke]. *)
Definition revoke (s : State) (error : E) (wakes : list T) : State * list T :=
  let s := match elected s with
           | Some id => with_waiters s (alter (with_error (Some error)) id (waiters s)) (deadlines s)
           | None => s
           end in
  notify (with_phase s (Phase_Draining FlightOutcome_Retry)) wakes.

(** [State::refresh_expired]: at most [n] due deadline entries. *)
Fixpoint refresh_expired (n : nat) (s : State) (fx : Effects) : State * Effects :=
  match n with
  | 0 => (s, fx)
  | S n =>
      match head (btree_iter ord_le (deadlines s)) with
      | None => (s, fx)
      | Some ((d, id), _) =>
          let '(now, env) := clock_now fx.2 in
          if (now <? d)%N then (s, (fx.1, env))
          else
            let '(s, fx) :=
              refresh_waiter (with_waiters s (waiters s) (delete (d, id) (deadlines s))) id (fx.1, env) in
            refresh_expired n s fx
      end
  end.

Definition EXPIRED_PER_REFRESH : nat := 64.

(** The leader's part of [State::refresh]: hand over or revoke a failed acquisition. *)
Definition refresh_leader (s : State) (idle : bool) (canceled : E) (fx : Effects) : State * Effects :=
  if acquiring s then
    let w := id ← leader s; waiters s !! id in
    let failed := match w with None => true | Some w => is_some (w_error w) end in
    if failed then
      let error := default canceled (w ≫= w_error) in
      if handover s && negb idle then
        let '(passed, (s, fx)) := hand_over s fx in
        if passed : bool then (s, fx)
        else let '(s, wakes) := revoke s error fx.1 in (s, (wakes, fx.2))
      else let '(s, wakes) := revoke s error fx.1 in (s, (wakes, fx.2))
    else (s, fx)
  else (s, fx).

(** The tail of [State::refresh]: settle, and fail a flight nobody can acquire for. *)
Definition refresh_settle (s : State) (idle : bool) (unavailable : E) (wakes : list T) : State * list T :=
  let '(s, wakes) := flight_settle s idle unavailable wakes in
  match phase s with
  | Phase_RetryPending =>
      if negb (is_some (partial s)) && negb (any_eligible s) then
        flight_settle (with_phase s (Phase_Draining (FlightOutcome_Failed unavailable))) idle unavailable wakes
      else (s, wakes)
  | _ => (s, wakes)
  end.

(** [State::refresh]. *)
Definition refresh (s : State) (idle : bool) (unavailable canceled : E) (fx : Effects) : State * Effects :=
  let '(s, fx) := match leader s with Some id => refresh_waiter s id fx | None => (s, fx) end in
  let '(s, fx) := refresh_expired EXPIRED_PER_REFRESH s fx in
  let '(s, fx) := refresh_leader s idle canceled fx in
  let '(s, wakes) := refresh_settle s idle unavailable fx.1 in
  (s, (wakes, fx.2)).

(** [State::stop]. *)
Definition flight_stop (s : State) (error : E) (wakes : list T) : State * list T :=
  let s := with_waiters s (with_error (Some error) <$> waiters s) (deadlines s) in
  let s := with_phase s (Phase_Draining (FlightOutcome_Failed error)) in
  let '(s, wakes) := notify s wakes in
  (with_waiters s ∅ ∅, wakes).

(** [store_waker]: [will_wake] is a parameter of the wake target. *)
Definition store_waker (will_wake : T → T → bool) (slot : option T) (waker : T) :
    option T * option T :=
  if match slot with Some old => will_wake old waker | None => false end then (slot, Some waker)
  else (Some waker, slot).

(** ** Checking callers

    What policy checks do to a state: errors and wakes appear, nothing else moves. *)

Definition ages (w w' : Waiter) : Prop :=
  w_policy w' = w_policy w ∧ w_acquisition w' = w_acquisition w ∧ w_complete w' = w_complete w ∧
  w_issued w' = w_issued w ∧ (∀ e, w_error w = Some e → w_error w' = Some e) ∧
  (w_error w' = None → w_waker w' = w_waker w).

Record drifts (s : State) (fx : Effects) (s' : State) (fx' : Effects) : Prop := {
  dr_phase : phase s' = phase s;
  dr_elected : elected s' = elected s;
  dr_handover : handover s' = handover s;
  dr_partial : partial s' = partial s;
  dr_deadlines : deadlines s' ⊆ deadlines s;
  dr_waiters : ∀ id, option_Forall2 ages (waiters s !! id) (waiters s' !! id);
  dr_wakes : ∀ t, t ∈ fx.1 → t ∈ fx'.1;
  dr_wakers : ∀ id w t, waiters s !! id = Some w → w_waker w = Some t →
    t ∈ fx'.1 ∨ ∃ w', waiters s' !! id = Some w' ∧ w_waker w' = Some t;
}.

Lemma ages_refl w : ages w w.
Proof. by repeat split. Qed.

Lemma ages_trans w1 w2 w3 : ages w1 w2 → ages w2 w3 → ages w1 w3.
Proof.
  intros (?&?&?&?&He1&Hw1) (?&?&?&?&He2&Hw2). unfold ages. split_and!; try congruence.
  - intros e He. by apply He2, He1.
  - intros He. destruct (w_error w2) as [e|] eqn:Ee; [rewrite (He2 e) in He by done; done|].
    rewrite (Hw2 He). by apply Hw1.
Qed.

Lemma ages_eligible w w' : ages w w' → eligible w' = true → eligible w = true.
Proof.
  intros (_ & Ha & _ & Hi & He & _) Hw. unfold eligible in *. rewrite Ha, Hi in Hw.
  destruct (w_error w) as [e|]; [|destruct (w_error w'); simpl in *; by destruct (w_acquisition w), (w_issued w)].
  rewrite (He e) in Hw by done. done.
Qed.

Lemma drifts_refl s fx : drifts s fx s fx.
Proof.
  split; try done.
  - intros id. destruct (waiters s !! id); constructor. apply ages_refl.
  - intros id w t Hw Ht. right. by exists w.
Qed.

Lemma drifts_trans s1 f1 s2 f2 s3 f3 : drifts s1 f1 s2 f2 → drifts s2 f2 s3 f3 → drifts s1 f1 s3 f3.
Proof.
  intros [p1 e1 h1 q1 d1 w1 k1 n1] [p2 e2 h2 q2 d2 w2 k2 n2]. split; try congruence.
  - by transitivity (deadlines s2).
  - intros id. specialize (w1 id). specialize (w2 id).
    destruct w1 as [a b Hab|]; inversion w2; subst; constructor. by eapply ages_trans.
  - intros t Ht. by apply k2, k1.
  - intros id w t Hw Ht. destruct (n1 id w t Hw Ht) as [Hk|(w' & Hw' & Ht')]; [by left; apply k2|].
    by eapply n2.
Qed.

Lemma drifts_lookup s fx s' fx' id w' :
  drifts s fx s' fx' → waiters s' !! id = Some w' → ∃ w, waiters s !! id = Some w ∧ ages w w'.
Proof.
  intros Hd Hw'. pose proof (dr_waiters _ _ _ _ Hd id) as Hr. rewrite Hw' in Hr.
  inversion Hr as [w ? Ha Ew|]; subst. by exists w.
Qed.

Lemma drifts_insert s fx id w w' ds fx' :
  waiters s !! id = Some w → ages w w' → ds ⊆ deadlines s →
  (∀ t, t ∈ fx.1 → t ∈ fx'.1) → (∀ t, w_waker w = Some t → t ∈ fx'.1 ∨ w_waker w' = Some t) →
  drifts s fx (with_waiters s (<[id := w']> (waiters s)) ds) fx'.
Proof.
  intros Hw Ha Hds Hk Hn. split; try done; simpl.
  - intros id'. destruct (decide (id = id')) as [<-|Hne].
    + rewrite Hw, lookup_insert_eq. by constructor.
    + rewrite lookup_insert_ne by done. destruct (waiters s !! id'); constructor. apply ages_refl.
  - intros id' w0 t Hw0 Ht. destruct (decide (id = id')) as [<-|Hne].
    + rewrite Hw in Hw0. injection Hw0 as <-. destruct (Hn t Ht) as [?|?]; [by left|right].
      exists w'. by rewrite lookup_insert_eq.
    + right. exists w0. by rewrite lookup_insert_ne.
Qed.

Lemma refresh_waiter_drifts s id fx :
  let '(s', fx') := refresh_waiter s id fx in
  drifts s fx s' fx' ∧ leader s' = leader s.
Proof.
  unfold refresh_waiter. destruct (waiters s !! id) as [w|] eqn:Hw; [|split; [apply drifts_refl|done]].
  destruct (match w_error w with Some e => (Some e, fx.2) | None => check fx.2 (w_policy w) end)
    as [[e|] env] eqn:Hc; (split; [|done]).
  - apply drifts_insert with w; [done| |apply delete_subseteq| |]; simpl.
    + repeat split; [|done]. intros e' He'. simpl. rewrite He' in Hc. congruence.
    + intros t Ht. apply elem_of_app. by left.
    + intros t ->. left. apply elem_of_app. right. apply list_elem_of_here.
  - apply drifts_insert with w; [done| |done|done|]; simpl.
    + repeat split. intros e' He'. rewrite He' in Hc. discriminate.
    + intros t ->. by right.
Qed.

Lemma refresh_expired_drifts n s fx :
  let '(s', fx') := refresh_expired n s fx in
  drifts s fx s' fx' ∧ leader s' = leader s.
Proof.
  revert s fx. induction n as [|n IH]; intros s fx; simpl; [split; [apply drifts_refl|done]|].
  destruct (head _) as [[[d id] u]|]; [|split; [apply drifts_refl|done]].
  destruct (clock_now fx.2) as [now env]. destruct (now <? d)%N.
  { split; [by destruct (drifts_refl s fx)|done]. }
  pose proof (refresh_waiter_drifts (with_waiters s (waiters s) (delete (d, id) (deadlines s))) id (fx.1, env)) as H1.
  destruct (refresh_waiter _ id (fx.1, env)) as [s1 fx1]. destruct H1 as [H1 L1].
  specialize (IH s1 fx1). destruct (refresh_expired n s1 fx1) as [s2 fx2]. destruct IH as [H2 L2].
  split; [|by rewrite L2, L1].
  apply (drifts_trans _ _ s1 fx1); [|done].
  apply (drifts_trans _ _ (with_waiters s (waiters s) (delete (d, id) (deadlines s))) (fx.1, env)); [|done].
  destruct (drifts_refl s fx). split; simpl; try done. apply delete_subseteq.
Qed.

Lemma refresh_waiter_live s id fx s' fx' w :
  refresh_waiter s id fx = (s', fx') → waiters s' !! id = Some w → w_error w = None →
  ∃ w0, waiters s !! id = Some w0 ∧ w_error w0 = None.
Proof.
  intros Hr Hw He. pose proof (refresh_waiter_drifts s id fx) as Hd. rewrite Hr in Hd. destruct Hd as [Hd _].
  destruct (drifts_lookup _ _ _ _ id w Hd Hw) as (w0 & Hw0 & Ha). exists w0. split; [done|].
  destruct Ha as (_ & _ & _ & _ & Ha & _). destruct (w_error w0) as [e|] eqn:Ee; [|done].
  rewrite (Ha e) in He by done. done.
Qed.

(** ** Handover *)

Definition has_error (s : State) (id : N) : Prop :=
  ∃ w e, waiters s !! id = Some w ∧ w_error w = Some e.

Lemma has_error_drifts s fx s' fx' id : drifts s fx s' fx' → has_error s id → has_error s' id.
Proof.
  intros Hd (w & e & Hw & He). pose proof (dr_waiters _ _ _ _ Hd id) as Hr. rewrite Hw in Hr.
  inversion Hr as [? w' Ha Ew|]; subst. exists w', e. split; [done|]. by apply Ha.
Qed.

Lemma hand_over_scan_spec cs s fx :
  (∀ d id, (d, id) ∈ cs → is_Some (waiters s !! id)) →
  let '(passed, (s', fx')) := hand_over_scan cs s fx in
  drifts s fx s' fx' ∧
  (passed = true → ∃ pre d id post w, cs = pre ++ (d, id) :: post ∧ leader s' = Some id ∧
     waiters s' !! id = Some w ∧ w_error w = None ∧ ∀ d' id', (d', id') ∈ pre → has_error s' id') ∧
  (passed = false → leader s' = leader s ∧ ∀ d' id', (d', id') ∈ cs → has_error s' id').
Proof.
  revert s fx. induction cs as [|[d id] cs IH]; intros s fx Hin; simpl.
  { split_and!; [apply drifts_refl|done|]. intros _. split; [done|].
    intros d' id' Hd. by apply elem_of_nil in Hd. }
  pose proof (refresh_waiter_drifts s id fx) as Hr.
  destruct (refresh_waiter s id fx) as [s1 fx1]. destruct Hr as [Hd Hl].
  assert (∀ i, is_Some (waiters s !! i) → is_Some (waiters s1 !! i)) as Hsome.
  { intros i [w Hw]. pose proof (dr_waiters _ _ _ _ Hd i) as Hr. rewrite Hw in Hr.
    inversion Hr. by eexists. }
  destruct (Hsome id (Hin d id (list_elem_of_here _ _))) as [w Hw]. rewrite Hw.
  destruct (w_error w) as [e|] eqn:He; simpl.
  - specialize (IH s1 fx1). destruct (hand_over_scan cs s1 fx1) as [b [s2 fx2]].
    destruct IH as (Hd2 & Ht & Hf).
    { intros d' id' Hd'. eapply Hsome, Hin. by right. }
    assert (has_error s2 id) as Herr by (eapply has_error_drifts; [done|by exists w, e]).
    split_and!; [by eapply drifts_trans| |].
    + intros Hb. destruct (Ht Hb) as (pre & d' & id' & post & w' & -> & ? & ? & ? & Hpre).
      exists ((d, id) :: pre), d', id', post, w'. split_and!; try done.
      intros d0 id0 [[= -> ->]|Hi]%elem_of_cons; [done|by eapply Hpre].
    + intros Hb. destruct (Hf Hb) as [Hl2 Hall]. split; [by rewrite Hl2, Hl|].
      intros d0 id0 [[= -> ->]|Hi]%elem_of_cons; [done|by eapply Hall].
  - split_and!; [|intros _|done].
    + destruct Hd. by split.
    + exists [], d, id, cs, w. split_and!; try done. intros ? ? Hi. by apply elem_of_nil in Hi.
Qed.

Lemma elem_of_heirs s d id :
  (d, id) ∈ heirs s ↔ ∃ w, waiters s !! id = Some w ∧ eligible w = true ∧ Some id ≠ leader s ∧
                          deadline (w_policy w) = d.
Proof.
  unfold heirs. rewrite merge_sort_Permutation, list_elem_of_omap. split.
  - intros ([i w] & Hw & Hs). apply elem_of_btree_iter in Hw; try apply _. simpl in Hs.
    case_bool_decide as Hl; [|done]. destruct (eligible w) eqn:Ew; [|done]. simpl in Hs.
    injection Hs as <- <-. by exists w.
  - intros (w & Hw & He & Hl & <-). exists (id, w). split; [by apply elem_of_btree_iter|].
    simpl. by rewrite He, bool_decide_true.
Qed.

#[local] Instance flip_pair_le_total : Total (flip pair_le).
Proof. intros [a b] [c d]. unfold flip, pair_le. simpl. lia. Qed.

#[local] Instance flip_pair_le_trans : Transitive (flip pair_le).
Proof. intros [a b] [c d] [e f]. unfold flip, pair_le. simpl. lia. Qed.

Lemma heirs_sorted s pre d id post d' id' :
  heirs s = pre ++ (d, id) :: post → (d', id') ∈ post → (d' ≤ d)%N.
Proof.
  intros Hh Hin. assert (StronglySorted (flip pair_le) (heirs s)) as Hs
    by (apply StronglySorted_merge_sort; apply _).
  rewrite Hh in Hs. apply StronglySorted_app in Hs as (_ & _ & Hs).
  apply StronglySorted_cons in Hs as [Hs _]. rewrite Forall_forall in Hs.
  specialize (Hs _ Hin). unfold flip, pair_le in Hs. simpl in Hs. lia.
Qed.

(** Whom [hand_over] passes the acquisition to. *)
Lemma hand_over_spec s fx :
  let '(passed, (s', fx')) := hand_over s fx in
  drifts s fx s' fx' ∧
  (passed = true → ∃ id w, leader s' = Some id ∧ Some id ≠ leader s ∧ waiters s' !! id = Some w ∧
     eligible w = true ∧
     ∀ id2 w2, waiters s' !! id2 = Some w2 → eligible w2 = true → Some id2 ≠ leader s →
       (deadline (w_policy w2) ≤ deadline (w_policy w))%N) ∧
  (passed = false → leader s' = leader s ∧
     ∀ id w, waiters s' !! id = Some w → eligible w = true → Some id = leader s).
Proof.
  pose proof (hand_over_scan_spec (heirs s) s fx) as Hs. unfold hand_over.
  destruct (hand_over_scan (heirs s) s fx) as [passed [s' fx']]. destruct Hs as (Hd & Ht & Hf).
  { intros d id (w & Hw & _)%elem_of_heirs. by exists w. }
  assert (∀ id w, waiters s' !! id = Some w → eligible w = true → ¬ has_error s' id) as Hne.
  { intros id w Hw He (w1 & e & Hw1 & He1). rewrite Hw in Hw1. injection Hw1 as <-.
    unfold eligible in He. rewrite He1 in He. by destruct (w_acquisition w), (w_issued w). }
  assert (∀ id w, waiters s' !! id = Some w → eligible w = true → Some id ≠ leader s →
            (deadline (w_policy w), id) ∈ heirs s) as Hheir.
  { intros id w Hw He Hl. destruct (drifts_lookup _ _ _ _ id w Hd Hw) as (w0 & Hw0 & Ha).
    apply elem_of_heirs. exists w0. split_and!; [done|by eapply ages_eligible|done|].
    by destruct Ha as [-> _]. }
  split_and!; [done| |].
  - intros Hp. destruct (Ht Hp) as (pre & d & id & post & w & Hh & Hl & Hw & He & Hpre).
    assert ((d, id) ∈ heirs s) as Hin
      by (rewrite Hh; apply elem_of_app; right; apply list_elem_of_here).
    apply elem_of_heirs in Hin as (w0 & Hw0 & He0 & Hl0 & Hd0).
    destruct (drifts_lookup _ _ _ _ id w Hd Hw) as (w1 & Hw1 & Ha). rewrite Hw0 in Hw1. injection Hw1 as <-.
    destruct Ha as (Hpol & Hacq & _ & Hiss & _). exists id, w. split_and!; try done.
    { unfold eligible in *. rewrite Hacq, Hiss, He. by destruct (w_acquisition w0), (w_issued w0), (w_error w0). }
    intros id2 w2 Hw2 He2 Hl2. rewrite Hpol, Hd0. specialize (Hheir id2 w2 Hw2 He2 Hl2).
    rewrite Hh in Hheir. apply elem_of_app in Hheir as [Hi|[[= -> _]|Hi]%elem_of_cons]; [|done|].
    + by destruct (Hne id2 w2 Hw2 He2 (Hpre _ _ Hi)).
    + by eapply heirs_sorted.
  - intros Hp. destruct (Hf Hp) as [Hl Hall]. split; [done|]. intros id w Hw He.
    destruct (decide (Some id = leader s)) as [|Hn]; [done|].
    by destruct (Hne id w Hw He (Hall _ _ (Hheir id w Hw He Hn))).
Qed.
End state.
