(* ===== verification/FlightRuns.v ===== *)
(** * Flight runs

    The operations an owning adapter drives on one flight, as a sequence of steps over the
    state, its identity and the world, and what holds along every run: the well-formedness of
    the state, the completion fence, the bound on a caller's acquisitions, progress of a
    refresh and its notifications, and the handover rule. *)

From S2P Require Import Prelude FlightState.

Section runs.
Context {C P O E W T Env : Type}.
Variable deadline : W → N.
Variable check : Env → W → option E * Env.
Variable clock_now : Env → N * Env.
Variable split_published : O → Published C P.

#[local] Notation State := (@State C P O E W T).
#[local] Notation Effects := (@Effects T Env).
#[local] Notation settle_f := (flight_settle split_published).
#[local] Notation refresh_f := (refresh deadline check clock_now split_published).

Implicit Types (s : State) (fx : Effects).

Record Flight : Type := mkFlight {
  fl_state : State;
  fl_identity : Identity;
  fl_effects : Effects;
}.

(** What an adapter does to a flight.  A leader's publication or revocation is preceded by
    the validation of its capability; a world step changes policies and time. *)
Inductive FlightOp :=
| FOp_Register (id : N) (policy : W) (acquisition complete : bool)
| FOp_Detach (id : N)
| FOp_Cancel (id : N) (e : E)
| FOp_Park (id : N) (t : T)
| FOp_Sweep
| FOp_Elect (id limit : N)
| FOp_AllowHandover
| FOp_Finish (id : N) (active : bool) (o : FlightOutcome O E)
| FOp_Revoke (id : N) (active : bool) (e : E)
| FOp_GiveUp (e : E)
| FOp_Settle (idle : bool) (unavailable : E)
| FOp_Refresh (idle : bool) (unavailable canceled : E)
| FOp_Stop (e : E)
| FOp_World (env : Env).

Definition put (f : Flight) (s : State) : Flight := mkFlight s (fl_identity f) (fl_effects f).

Definition put_wakes (f : Flight) (r : State * list T) : Flight :=
  mkFlight r.1 (fl_identity f) (r.2, (fl_effects f).2).

Definition put_effects (f : Flight) (r : State * Effects) : Flight := mkFlight r.1 (fl_identity f) r.2.

Definition flight_step (f : Flight) (op : FlightOp) : Flight :=
  let s := fl_state f in
  let wakes := (fl_effects f).1 in
  match op with
  | FOp_Register id policy acquisition complete => put f (register deadline s id policy acquisition complete)
  | FOp_Detach id => put f (detach deadline s id)
  | FOp_Cancel id e => put f (cancel s id e)
  | FOp_Park id t => put f (with_waiters s (alter (with_waker (Some t)) id (waiters s)) (deadlines s))
  | FOp_Sweep => put_effects f (sweep_waiter deadline check s (fl_effects f))
  | FOp_Elect id limit =>
      let '(_, (s, i)) := elect s id (fl_identity f) limit in mkFlight s i (fl_effects f)
  | FOp_AllowHandover => put f (allow_handover s)
  | FOp_Finish id active o =>
      if is_ok (validate_leader s id active) then put f (begin_completion s o) else f
  | FOp_Revoke id active e =>
      if is_ok (validate_leader s id active) then put_wakes f (revoke s e wakes) else f
  | FOp_GiveUp e =>
      match phase s with
      | Phase_RetryPending => put f (begin_completion s (FlightOutcome_Failed e))
      | _ => f
      end
  | FOp_Settle idle unavailable => put_wakes f (settle_f s idle unavailable wakes)
  | FOp_Refresh idle unavailable canceled =>
      put_effects f (refresh_f s idle unavailable canceled (fl_effects f))
  | FOp_Stop e => put_wakes f (flight_stop s e wakes)
  | FOp_World env => mkFlight s (fl_identity f) (wakes, env)
  end.

Definition flight_run (f : Flight) (ops : list FlightOp) : Flight := foldl flight_step f ops.

(** ** Phases *)

Definition busy (s : State) : bool :=
  match phase s with Phase_Acquiring | Phase_Draining _ => true | _ => false end.

Definition draining (s : State) : bool :=
  match phase s with Phase_Draining _ => true | _ => false end.

(** The operations that report every retained operation complete. *)
Definition reports_idle (op : FlightOp) : bool :=
  match op with FOp_Settle idle _ | FOp_Refresh idle _ _ => idle | _ => false end.

Lemma sweep_waiter_drifts s fx :
  let '(s', fx') := sweep_waiter deadline check s fx in drifts s fx s' fx' ∧ leader s' = leader s.
Proof.
  unfold sweep_waiter. destruct (cursor_next _ _) as [[id w]|]; [|split; [apply drifts_refl|done]].
  pose proof (refresh_waiter_drifts deadline check
    (mkState (phase s) (leader s) (elected s) (handover s) (waiters s) (deadlines s) (partial s) id) id fx) as Hd.
  destruct (refresh_waiter _ _ _ id fx) as [s' fx']. destruct Hd as [[] Hl]. split; [|done].
  by split.
Qed.

(** The checks that open a refresh. *)
Definition refresh_checks (s : State) (fx : Effects) : State * Effects :=
  let '(s, fx) := match leader s with Some id => refresh_waiter deadline check s id fx | None => (s, fx) end in
  refresh_expired deadline check clock_now EXPIRED_PER_REFRESH s fx.

Lemma refresh_checks_drifts s fx :
  let '(s', fx') := refresh_checks s fx in drifts s fx s' fx' ∧ leader s' = leader s.
Proof.
  unfold refresh_checks.
  assert (let '(s', fx') := match leader s with Some id => refresh_waiter deadline check s id fx | None => (s, fx) end in
          drifts s fx s' fx' ∧ leader s' = leader s) as H1.
  { destruct (leader s) as [id|] eqn:El; [rewrite <- El; apply refresh_waiter_drifts|].
    split; [apply drifts_refl|done]. }
  destruct (match leader s with Some id => _ | None => _ end) as [s1 fx1]. destruct H1 as [H1 L1].
  pose proof (refresh_expired_drifts deadline check clock_now EXPIRED_PER_REFRESH s1 fx1) as H2.
  destruct (refresh_expired _ _ _ _ s1 fx1) as [s2 fx2]. destruct H2 as [H2 L2].
  split; [by eapply drifts_trans|congruence].
Qed.

Lemma refresh_unfold s idle unavailable canceled fx :
  refresh_f s idle unavailable canceled fx =
  let '(s, fx) := refresh_checks s fx in
  let '(s, fx) := refresh_leader deadline check s idle canceled fx in
  let '(s, wakes) := refresh_settle split_published s idle unavailable fx.1 in
  (s, (wakes, fx.2)).
Proof.
  unfold refresh, refresh_checks.
  by destruct (match leader s with Some id => _ | None => _ end) as [s1 fx1].
Qed.

Lemma settle_not_idle s unavailable wakes : settle_f s false unavailable wakes = (s, wakes).
Proof. done. Qed.

(** ** Callers across a step

    Attachment and wake targets: no step loses a stored wake target without enqueueing it. *)

Definition kin (w w' : @Waiter E W T) : Prop :=
  w_policy w' = w_policy w ∧ w_acquisition w' = w_acquisition w ∧ w_complete w' = w_complete w.

Record conserves s (ws : list T) s' (ws' : list T) : Prop := {
  cv_wakes : ∀ t, t ∈ ws → t ∈ ws';
  cv_kin : ∀ id, option_Forall2 kin (waiters s !! id) (waiters s' !! id);
  cv_wakers : ∀ id w t, waiters s !! id = Some w → w_waker w = Some t →
    t ∈ ws' ∨ ∃ w', waiters s' !! id = Some w' ∧ w_waker w' = Some t;
}.

(** Every attached caller's wake target has been taken. *)
Definition all_notified s : Prop := ∀ id w, waiters s !! id = Some w → w_waker w = None.

Lemma conserves_map s ws s' (g : @Waiter E W T → @Waiter E W T) :
  waiters s' = g <$> waiters s → (∀ w, kin w (g w)) → (∀ w, w_waker (g w) = w_waker w) →
  conserves s ws s' ws.
Proof.
  intros Hw Hk Ht. split; [done| |].
  - intros id. rewrite Hw, lookup_fmap. destruct (waiters s !! id); constructor. apply Hk.
  - intros id w t Hid Hwt. right. exists (g w). by rewrite Hw, lookup_fmap, Hid, Ht.
Qed.

Lemma conserves_same s ws s' : waiters s' = waiters s → conserves s ws s' ws.
Proof. intros Hw. apply (conserves_map s ws s' id); [by rewrite map_fmap_id|done|done]. Qed.

Lemma conserves_trans s1 w1 s2 w2 s3 w3 :
  conserves s1 w1 s2 w2 → conserves s2 w2 s3 w3 → conserves s1 w1 s3 w3.
Proof.
  intros [a1 k1 n1] [a2 k2 n2]. split.
  - intros t Ht. by apply a2, a1.
  - intros i. specialize (k1 i). specialize (k2 i).
    destruct k1 as [x y (?&?&?)|]; inversion k2 as [? z (?&?&?)|]; subst; constructor.
    repeat split; congruence.
  - intros i w t Hw Ht. destruct (n1 i w t Hw Ht) as [?|(w' & ? & ?)]; [left; by apply a2|by eapply n2].
Qed.

Lemma drifts_conserves s fx s' fx' : drifts s fx s' fx' → conserves s fx.1 s' fx'.1.
Proof.
  intros [_ _ _ _ _ Hw Hk Hn]. split; [done| |done]. intros i. specialize (Hw i).
  destruct Hw as [x y (?&?&?&_)|]; constructor. done.
Qed.

Lemma conserves_notified s ws s' ws' i w t :
  conserves s ws s' ws' → all_notified s' → waiters s !! i = Some w → w_waker w = Some t → t ∈ ws'.
Proof.
  intros Hc Hn Hw Ht. destruct (cv_wakers _ _ _ _ Hc i w t Hw Ht) as [?|(w' & Hw' & Ht')]; [done|].
  rewrite (Hn i w' Hw') in Ht'. done.
Qed.

Lemma notify_spec s ws :
  conserves s ws (notify s ws).1 (notify s ws).2 ∧ all_notified (notify s ws).1 ∧
  waiters (notify s ws).1 = with_waker None <$> waiters s.
Proof.
  split_and!; [split| |done]; simpl.
  - intros t Ht. apply elem_of_app. by left.
  - intros i. rewrite lookup_fmap. destruct (waiters s !! i); by constructor.
  - intros i w t Hw Ht. left. apply elem_of_app. right. apply list_elem_of_omap.
    exists (i, w). split; [by apply elem_of_btree_iter|done].
  - intros i w. simpl. rewrite lookup_fmap. intros Hw. destruct (waiters s !! i); by simplify_eq/=.
Qed.

(** [settle] of a drained outcome. *)
Lemma settled_conserves s o unavailable ws :
  conserves s ws (settled split_published s o unavailable) ws.
Proof.
  destruct o as [o|e|]; simpl.
  - destruct (split_published o); [by apply conserves_same|].
    apply (conserves_map s ws _ (λ w, if w_complete w then with_issued false w else w)); [done| |];
      by intros w; destruct (w_complete w).
  - by apply conserves_same.
  - destruct (any_eligible s); by apply conserves_same.
Qed.

Lemma settled_phase s o unavailable :
  busy (settled split_published s o unavailable) = false ∧
  leader (settled split_published s o unavailable) = leader s ∧
  elected (settled split_published s o unavailable) = elected s ∧
  handover (settled split_published s o unavailable) = handover s ∧
  deadlines (settled split_published s o unavailable) = deadlines s.
Proof.
  destruct o as [o|e|]; simpl; [destruct (split_published o)| |destruct (any_eligible s)]; by split_and!.
Qed.

Lemma settle_spec s idle unavailable ws :
  let '(s', ws') := settle_f s idle unavailable ws in
  conserves s ws s' ws' ∧ deadlines s' = deadlines s ∧
  ((s' = s ∧ ws' = ws ∧ (idle = true → draining s = false)) ∨
   (idle = true ∧ draining s = true ∧ busy s' = false ∧ leader s' = None ∧ elected s' = None ∧
    handover s' = false ∧ all_notified s')).
Proof.
  unfold flight_settle. destruct idle; simpl; [|split_and!; [by apply conserves_same|done|by left]].
  unfold draining. destruct (phase s) as [| |o|c|e] eqn:Ep;
    try (split_and!; [by apply conserves_same|done|by left]).
  set (s0 := with_leader (with_phase s Phase_RetryPending) None None false).
  destruct (settled_phase s0 o unavailable) as (Hb & Hl & He & Hh & Hd).
  destruct (notify_spec (settled split_published s0 o unavailable) ws) as (Hc & Hn & _).
  split_and!; [|exact Hd|right].
  - apply (conserves_trans _ _ s0 ws); [by apply conserves_same|].
    eapply conserves_trans; [apply settled_conserves|exact Hc].
  - split_and!; [done|done|exact Hb|exact Hl|exact He|exact Hh|exact Hn].
Qed.

(** No caller gets its acquisition opportunity back. *)
Definition keeps_issued s s' : Prop :=
  ∀ id w, waiters s !! id = Some w → w_issued w = true →
    ∃ w', waiters s' !! id = Some w' ∧ w_issued w' = true.

Lemma keeps_issued_trans s1 s2 s3 : keeps_issued s1 s2 → keeps_issued s2 s3 → keeps_issued s1 s3.
Proof. intros H1 H2 i w Hw Hi. destruct (H1 i w Hw Hi) as (w' & ? & ?). by eapply H2. Qed.

Lemma keeps_issued_fmap s s' (g : @Waiter E W T → @Waiter E W T) :
  waiters s' = g <$> waiters s → (∀ w, w_issued (g w) = w_issued w) → keeps_issued s s'.
Proof. intros Hw Hg i w Hi Hs. exists (g w). by rewrite Hw, lookup_fmap, Hi, Hg. Qed.

Lemma keeps_issued_alter s s' j (g : @Waiter E W T → @Waiter E W T) :
  waiters s' = alter g j (waiters s) → (∀ w, w_issued (g w) = w_issued w) → keeps_issued s s'.
Proof.
  intros Hw Hg i w Hi Hs. rewrite Hw. destruct (decide (j = i)) as [<-|].
  - exists (g w). by rewrite lookup_alter_eq, Hi, Hg.
  - exists w. by rewrite lookup_alter_ne.
Qed.

Lemma keeps_issued_drifts s fx s' fx' : drifts s fx s' fx' → keeps_issued s s'.
Proof.
  intros Hd i w Hw Hi. pose proof (dr_waiters _ _ _ _ Hd i) as Hr. rewrite Hw in Hr.
  inversion Hr as [? w' (_ & _ & _ & Hiss & _) Ew|]; subst. exists w'. by rewrite Hiss.
Qed.

Lemma revoke_spec s e ws :
  let '(s', ws') := revoke s e ws in
  keeps_issued s s' ∧ conserves s ws s' ws' ∧ deadlines s' = deadlines s ∧ phase s' = Phase_Draining FlightOutcome_Retry ∧
  leader s' = leader s ∧ elected s' = elected s ∧ all_notified s'.
Proof.
  unfold revoke.
  set (s0 := match elected s with Some id => _ | None => s end).
  assert (keeps_issued s s0 ∧ conserves s ws s0 ws ∧ deadlines s0 = deadlines s ∧ leader s0 = leader s ∧
          elected s0 = elected s) as (Hk & H0 & Hd & Hl & He).
  { unfold s0. destruct (elected s) as [i|] eqn:Ei.
    2:{ split_and!; [|by apply conserves_same|done..]. intros i w Hw Hi. by exists w. }
    split_and!; [by apply (keeps_issued_alter s _ i (with_error (Some e)))| |done|done|done].
    split; [done| |]; simpl.
    - intros j. destruct (decide (i = j)) as [<-|]; [rewrite lookup_alter_eq|rewrite lookup_alter_ne by done];
        destruct (waiters s !! _); by constructor.
    - intros j w t Hw Ht. right. destruct (decide (i = j)) as [<-|].
      + exists (with_error (Some e) w). by rewrite lookup_alter_eq, Hw.
      + exists w. by rewrite lookup_alter_ne. }
  destruct (notify_spec (with_phase s0 (Phase_Draining FlightOutcome_Retry)) ws) as (Hc & Hn & _).
  destruct (notify _ ws) as [s' ws'] eqn:En. unfold notify in En. simplify_eq. simpl in *.
  split_and!; try done.
  - apply (keeps_issued_trans s s0); [done|]. by apply (keeps_issued_fmap s0 _ (with_waker None)).
  - eapply conserves_trans; [exact H0|]. eapply conserves_trans; [|exact Hc]. by apply conserves_same.
Qed.

(** The leader of a running acquisition is attached and has not failed. *)
Definition leader_live s : Prop := ∃ id w, leader s = Some id ∧ waiters s !! id = Some w ∧ w_error w = None.

Lemma refresh_leader_spec s idle canceled fx :
  let '(s', fx') := refresh_leader deadline check s idle canceled fx in
  keeps_issued s s' ∧ conserves s fx.1 s' fx'.1 ∧ deadlines s' ⊆ deadlines s ∧ elected s' = elected s ∧
  ((acquiring s = false ∧ s' = s) ∨
   (acquiring s = true ∧ drifts s fx s' fx' ∧ leader_live s') ∨
   (acquiring s = true ∧ phase s' = Phase_Draining FlightOutcome_Retry ∧ is_Some (leader s') = is_Some (leader s) ∧
    all_notified s')).
Proof.
  assert (∀ s0 e fx0, drifts s fx s0 fx0 → leader s0 = leader s → acquiring s = true →
    let '(s', fx') := (let '(s', wakes) := revoke s0 e fx0.1 in (s', (wakes, fx0.2))) in
    keeps_issued s s' ∧ conserves s fx.1 s' fx'.1 ∧ deadlines s' ⊆ deadlines s ∧ elected s' = elected s ∧
    ((acquiring s = false ∧ s' = s) ∨ (acquiring s = true ∧ drifts s fx s' fx' ∧ leader_live s') ∨
     (acquiring s = true ∧ phase s' = Phase_Draining FlightOutcome_Retry ∧
      is_Some (leader s') = is_Some (leader s) ∧ all_notified s'))) as Hrevoke.
  { intros s0 e fx0 Hd Hl Ha. pose proof (revoke_spec s0 e fx0.1) as Hr.
    destruct (revoke s0 e fx0.1) as [s' ws']. destruct Hr as (Hk & Hc & Hds & Hp & Hl' & He & Hn).
    split_and!.
    - apply (keeps_issued_trans s s0); [by apply keeps_issued_drifts in Hd|done].
    - eapply conserves_trans; [by apply drifts_conserves|done].
    - rewrite Hds. apply Hd.
    - rewrite He. apply Hd.
    - right; right. split_and!; [done|done|by rewrite Hl', Hl|done]. }
  unfold refresh_leader. destruct (acquiring s) eqn:Ha.
  2:{ split_and!; [by intros i w; eauto|by apply conserves_same|done|done|by left]. }
  cbv zeta. destruct (leader s ≫= λ id, waiters s !! id) as [w|] eqn:Ew.
  1: destruct (w_error w) as [e|] eqn:Ee; cbn [is_some].
  2:{ split_and!; [by intros i w'; eauto|by apply conserves_same|done|done|right; left]. split_and!; [done|apply drifts_refl|].
      destruct (leader s) as [i|] eqn:El; [|done]. by exists i, w. }
  all: destruct (handover s && negb idle); [|by apply Hrevoke; [apply drifts_refl|..]].
  all: pose proof (hand_over_spec deadline check s fx) as Hh; destruct (hand_over deadline check s fx) as [[] [s1 fx1]];
    destruct Hh as (Hd & Ht & Hf); [|by apply Hrevoke; [|apply Hf|]].
  all: destruct (Ht eq_refl) as (i & w' & Hl & _ & Hw & He & _).
  all: split_and!; [by apply keeps_issued_drifts in Hd|by apply drifts_conserves|apply Hd|apply Hd|right; left; split_and!; [done|done|]].
  all: exists i, w'; split_and!; [done|done|]; unfold eligible in He; destruct (w_error w'); [|done].
  all: by destruct (w_acquisition w'), (w_issued w').
Qed.

Definition terminal s : bool := match phase s with Phase_Complete _ | Phase_Failed _ => true | _ => false end.

Lemma any_eligible_spec s :
  any_eligible s = true ↔ ∃ id w, waiters s !! id = Some w ∧ eligible w = true.
Proof.
  unfold any_eligible. rewrite existsb_exists. split.
  - intros ([i w] & Hin & He). apply list_elem_of_In, elem_of_map_to_list in Hin. by exists i, w.
  - intros (i & w & Hw & He). exists (i, w). split; [|done]. by apply list_elem_of_In, elem_of_map_to_list.
Qed.

Lemma refresh_settle_spec s idle unavailable ws :
  let '(s', ws') := refresh_settle split_published s idle unavailable ws in
  conserves s ws s' ws' ∧ deadlines s' = deadlines s ∧
  (acquiring s' = true → s' = s) ∧
  (idle = false → busy s = true → s' = s) ∧
  (idle = true → draining s' = false ∧
     (phase s' = Phase_RetryPending → is_Some (partial s') ∨ any_eligible s' = true)) ∧
  (terminal s = false → terminal s' = true → all_notified s') ∧
  (busy s' = false → s' = s ∨ (leader s' = None ∧ elected s' = None ∧ handover s' = false)) ∧
  (elected s' = elected s ∨ elected s' = None).
Proof.
  unfold refresh_settle. pose proof (settle_spec s idle unavailable ws) as H1.
  destruct (settle_f s idle unavailable ws) as [s1 ws1]. destruct H1 as (Hc & Hds & Hcase).
  assert (draining s1 = true → s1 = s ∧ idle = false) as Hdr.
  { destruct Hcase as [(-> & _ & Hi)|(_ & _ & Hb & _)].
    - intros Hd. destruct idle; [|done]. by rewrite (Hi eq_refl) in Hd.
    - unfold busy, draining in *. by destruct (phase s1). }
  assert (acquiring s1 = true → s1 = s) as Hacq.
  { destruct Hcase as [(-> & _)|(_ & _ & Hb & _)]; [done|]. unfold busy, acquiring in *. by destruct (phase s1). }
  assert (idle = false → s1 = s) as Hni by (destruct Hcase as [(-> & _)|(-> & _)]; done).
  assert (terminal s = false → terminal s1 = true → all_notified s1) as Hterm.
  { destruct Hcase as [(-> & _)|(_ & _ & _ & _ & _ & _ & Hn)]; [congruence|done]. }
  assert (busy s1 = false → s1 = s ∨ (leader s1 = None ∧ elected s1 = None ∧ handover s1 = false)) as Hlead.
  { destruct Hcase as [(-> & _)|(_ & _ & _ & ? & ? & ? & _)]; [by left|by right]. }
  assert (elected s1 = elected s ∨ elected s1 = None) as Hel.
  { destruct Hcase as [(-> & _)|(_ & _ & _ & _ & ? & _)]; [by left|by right]. }
  destruct (phase s1) as [| |o|c|e] eqn:Ep.
  2: destruct (negb (is_some (partial s1)) && negb (any_eligible s1)) eqn:Ec.
  2:{ pose proof (settle_spec (with_phase s1 (Phase_Draining (FlightOutcome_Failed unavailable))) idle unavailable ws1) as H2.
      destruct idle; simpl in *.
      - destruct H2 as (Hc2 & Hd2 & [(_ & _ & Hbad)|(_ & _ & _ & Hl & He & Hh & Hn)]); [by specialize (Hbad eq_refl)|].
        split_and!; try done; [|intros _; by right|by right].
        apply (conserves_trans _ _ s1 ws1); [done|].
        apply (conserves_trans _ _ (with_phase s1 (Phase_Draining (FlightOutcome_Failed unavailable))) ws1);
          [by apply conserves_same|exact Hc2].
      - split_and!; try done; [by eapply conserves_trans; [exact Hc|apply conserves_same]|].
        intros _ Hb. rewrite <- (Hni eq_refl) in Hb. unfold busy in Hb. by rewrite Ep in Hb. }
  all: split_and!; try done; intros; try (by apply Hni); try (by apply Hlead);
    unfold draining, terminal, acquiring in *; rewrite ?Ep in *; try done; try (by apply Hacq); try (by apply Hterm).
  - split; [done|]. intros _. destruct (is_some (partial s1)) eqn:Epa; [left; by destruct (partial s1)|].
    right. by destruct (any_eligible s1).
  - by destruct (Hdr eq_refl) as [_ ->].
Qed.

Lemma drifts_more_wakes s fx s' fx1 fx2 :
  drifts s fx s' fx1 → (∀ t, t ∈ fx1.1 → t ∈ fx2.1) → drifts s fx s' fx2.
Proof.
  intros [? ? ? ? ? ? Hk Hn] Hw. split; try done.
  - intros t Ht. by apply Hw, Hk.
  - intros i w t Hi Ht. destruct (Hn i w t Hi Ht) as [?|?]; [left; by apply Hw|by right].
Qed.

Lemma refresh_spec s idle unavailable canceled fx :
  let '(s', fx') := refresh_f s idle unavailable canceled fx in
  conserves s fx.1 s' fx'.1 ∧ deadlines s' ⊆ deadlines s ∧
  (acquiring s' = true → acquiring s = true ∧ drifts s fx s' fx' ∧ leader_live s') ∧
  (idle = false → busy s = true → busy s' = true ∧ (draining s = true → draining s' = true)) ∧
  (idle = true → draining s' = false ∧
     (phase s' = Phase_RetryPending → is_Some (partial s') ∨ any_eligible s' = true)) ∧
  (terminal s = false → terminal s' = true → all_notified s') ∧
  (busy s' = false →
     (busy s = false ∧ leader s' = leader s ∧ elected s' = elected s ∧ handover s' = handover s) ∨
     (leader s' = None ∧ elected s' = None ∧ handover s' = false)) ∧
  (elected s' = elected s ∨ elected s' = None).
Proof.
  rewrite refresh_unfold. pose proof (refresh_checks_drifts s fx) as H1.
  destruct (refresh_checks s fx) as [s1 fx1]. destruct H1 as [Hd1 Hl1].
  pose proof (refresh_leader_spec s1 idle canceled fx1) as H2.
  destruct (refresh_leader deadline check s1 idle canceled fx1) as [s2 fx2].
  destruct H2 as (_ & Hc2 & Hds2 & He2 & Hcase).
  pose proof (refresh_settle_spec s2 idle unavailable fx2.1) as H3.
  destruct (refresh_settle split_published s2 idle unavailable fx2.1) as [s3 ws3].
  destruct H3 as (Hc3 & Hds3 & Hacq & Hnidle & Hidle & Hterm & Hlead & Hel). simpl.
  pose proof (drifts_conserves _ _ _ _ Hd1) as Hc1. pose proof (dr_phase _ _ _ _ Hd1) as Hp1.
  assert (busy s2 = busy s ∧ (draining s = true → draining s2 = true) ∧ terminal s2 = terminal s) as (Hb & Hdr & Ht).
  { unfold busy, draining, terminal, acquiring in *. rewrite <- Hp1.
    destruct Hcase as [[_ ->]|[(Ha & Hd & _)|(Ha & -> & _)]]; [done| |by destruct (phase s1)].
    rewrite (dr_phase _ _ _ _ Hd). done. }
  split_and!.
  - eapply conserves_trans; [exact Hc1|]. by eapply conserves_trans.
  - rewrite Hds3. transitivity (deadlines s1); [done|apply Hd1].
  - intros Ha. rewrite (Hacq Ha) in Ha |- *.
    destruct Hcase as [[Hn ->]|[(Ha1 & Hd & Hlive)|(_ & Hp & _)]]; [congruence| |].
    + split_and!; [unfold acquiring in *; by rewrite <- Hp1| |done].
      apply (drifts_more_wakes _ _ _ fx2); [by eapply drifts_trans|]. apply Hc3.
    + unfold acquiring in Ha. by rewrite Hp in Ha.
  - intros Hi Hbs. rewrite (Hnidle Hi) by by rewrite Hb. rewrite Hb. done.
  - done.
  - intros Hts. apply Hterm. by rewrite Ht.
  - intros Hb3. destruct (Hlead Hb3) as [->|?]; [left|by right].
    rewrite <- Hb. split; [done|].
    destruct Hcase as [[_ ->]|[(Ha & Hd & _)|(Ha & Hp & _)]].
    + split_and!; [done|apply Hd1|apply Hd1].
    + unfold busy, acquiring in *. rewrite (dr_phase _ _ _ _ Hd) in Hb3. by destruct (phase s1).
    + unfold busy in Hb3. by rewrite Hp in Hb3.
  - rewrite <- (dr_elected _ _ _ _ Hd1), <- He2. done.
Qed.

(** ** Well-formedness *)

Definition registered (ops : list FlightOp) : list N :=
  omap (λ op, match op with FOp_Register id _ _ _ => Some id | _ => None end) ops.

Record flight_inv (used : list N) s : Prop := {
  fi_phase :
    match phase s with
    | Phase_Acquiring =>
        is_Some (leader s) ∧ is_Some (elected s) ∧
        ∀ id w, elected s = Some id → waiters s !! id = Some w → w_issued w = true
    | Phase_Draining _ => True
    | _ => leader s = None ∧ elected s = None ∧ handover s = false
    end;
  fi_deadlines : ∀ d id, deadlines s !! (d, id) = Some () →
    ∃ w, waiters s !! id = Some w ∧ deadline (w_policy w) = d;
  fi_used : ∀ id, is_Some (waiters s !! id) ∨ elected s = Some id → id ∈ used;
}.

(** A step that keeps callers attached and adds no deadline only has to mind the phase. *)
Lemma flight_inv_kin used s s' :
  flight_inv used s → (∀ id, option_Forall2 kin (waiters s !! id) (waiters s' !! id)) → deadlines s' ⊆ deadlines s →
  (elected s' = elected s ∨ elected s' = None) →
  match phase s' with
  | Phase_Acquiring =>
      is_Some (leader s') ∧ is_Some (elected s') ∧
      ∀ id w, elected s' = Some id → waiters s' !! id = Some w → w_issued w = true
  | Phase_Draining _ => True
  | _ => leader s' = None ∧ elected s' = None ∧ handover s' = false
  end → flight_inv used s'.
Proof.
  intros [_ Hd Hu] Hk Hds He Hp. split; [done| |].
  - intros d i Hi. destruct (Hd d i) as (w & Hw & Hdl); [by eapply lookup_weaken|].
    specialize (Hk i). rewrite Hw in Hk. inversion Hk as [? w' (Hpol & _) Ew|]; subst.
    exists w'. by rewrite Hpol.
  - intros i [[w' Hw']|Hi].
    + specialize (Hk i). rewrite Hw' in Hk. inversion Hk as [w ? ? Ew|]; subst. apply Hu. left. by exists w.
    + destruct He as [He|He]; rewrite He in Hi; [apply Hu; by right|done].
Qed.

Lemma flight_inv_drifts used s fx s' fx' :
  flight_inv used s → drifts s fx s' fx' → (is_Some (leader s) → is_Some (leader s')) →
  (leader s = None → leader s' = None) → flight_inv used s'.
Proof.
  intros Hi Hd Hl Hn. eapply flight_inv_kin; [done|by apply (drifts_conserves _ _ _ _ Hd)|apply Hd|left; apply Hd|].
  pose proof (fi_phase _ _ Hi) as Hp. rewrite (dr_phase _ _ _ _ Hd).
  rewrite (dr_elected _ _ _ _ Hd), (dr_handover _ _ _ _ Hd).
  destruct (phase s); [|naive_solver..].
  destruct Hp as (? & ? & Hiss). split_and!; [by apply Hl|done|].
  intros i w' He Hw'. destruct (drifts_lookup _ _ _ _ i w' Hd Hw') as (w & Hw & _ & _ & _ & -> & _).
  by apply (Hiss i w).
Qed.

Lemma kin_refl w : kin w w.
Proof. done. Qed.

Lemma kin_alter s i (g : @Waiter E W T → @Waiter E W T) id :
  (∀ w, kin w (g w)) → option_Forall2 kin (waiters s !! id) (alter g i (waiters s) !! id).
Proof.
  intros Hg. destruct (decide (i = id)) as [<-|]; [rewrite lookup_alter_eq|rewrite lookup_alter_ne by done];
    destruct (waiters s !! _); constructor; [apply Hg|apply kin_refl].
Qed.

(** Altering one caller's error or wake target. *)
Lemma flight_inv_alter used s i (g : @Waiter E W T → @Waiter E W T) :
  (∀ w, kin w (g w) ∧ w_issued (g w) = w_issued w) → flight_inv used s →
  flight_inv used (with_waiters s (alter g i (waiters s)) (deadlines s)).
Proof.
  intros Hg Hi. eapply flight_inv_kin; [done|intros id; by apply kin_alter, Hg|done|by left|].
  pose proof (fi_phase _ _ Hi) as Hp. simpl. destruct (phase s); try done.
  destruct Hp as (? & ? & Hiss). split_and!; [done|done|]. intros id w He.
  rewrite lookup_alter_Some. intros [(-> & w0 & Hw0 & ->)|[_ Hw]]; [|by apply (Hiss id)].
  destruct (Hg w0) as [_ ->]. by apply (Hiss id).
Qed.

Lemma flight_inv_used used used' s : flight_inv used s → (∀ i, i ∈ used → i ∈ used') → flight_inv used' s.
Proof. intros [Hp Hd Hu] Hs. split; [done|done|]. intros i Hi. by apply Hs, Hu. Qed.

Lemma flight_inv_register used s id policy acquisition complete :
  flight_inv used s → id ∉ used →
  flight_inv (id :: used) (register deadline s id policy acquisition complete).
Proof.
  intros [Hp Hd Hu] Hid.
  assert (waiters s !! id = None) as Hnew.
  { destruct (waiters s !! id) eqn:Ew; [|done]. destruct Hid. apply Hu. left. by rewrite Ew. }
  split; simpl.
  - destruct (phase s); try done. destruct Hp as (? & He & Hiss). split_and!; [done|done|].
    intros i w Hi. rewrite lookup_insert_ne by (intros <-; apply Hid, Hu; by right). by apply Hiss.
  - intros d i. rewrite lookup_insert_Some. intros [[[= <- <-] _]|[_ Hi]].
    + eexists. by rewrite lookup_insert_eq.
    + destruct (Hd d i Hi) as (w & Hw & Hdl). exists w. rewrite lookup_insert_ne; [done|congruence].
  - intros i [[w Hw]|He]; apply elem_of_cons; [|right; apply Hu; by right].
    apply lookup_insert_Some in Hw as [[<- _]|[_ Hw]]; [by left|right; apply Hu; left; by exists w].
Qed.

Lemma flight_inv_detach used s id : flight_inv used s → flight_inv used (detach deadline s id).
Proof.
  intros [Hp Hd Hu]. unfold detach. destruct (waiters s !! id) as [w0|] eqn:Ew; [|done]. split; simpl.
  - destruct (phase s); try done. destruct Hp as (? & ? & Hiss). split_and!; [done|done|].
    intros i w He [_ Hw]%lookup_delete_Some. by apply (Hiss i).
  - intros d i [Hne Hi]%lookup_delete_Some. destruct (Hd d i Hi) as (w & Hw & Hdl). exists w.
    split; [|done]. apply lookup_delete_Some. split; [|done]. intros <-. rewrite Ew in Hw. congruence.
  - intros i [[w [_ Hw]%lookup_delete_Some]|He]; apply Hu; [left; by exists w|by right].
Qed.

Lemma flight_inv_elect used s id i limit :
  flight_inv used s → flight_inv used (elect s id i limit).2.1.
Proof.
  intros Hi. unfold elect. destruct (phase s) eqn:Ep; try done.
  destruct (waiters s !! id) as [w|] eqn:Ew; [|done]. destruct (eligible w); [|done].
  destruct (identity_advance i limit) as [[] i']; [|done]. simpl. destruct Hi as [Hp Hd Hu]. split; simpl.
  - split_and!; [done|done|]. intros j w' [= <-]. rewrite lookup_insert_eq. by intros [= <-].
  - intros d j Hj. destruct (Hd d j Hj) as (w' & Hw' & Hdl). destruct (decide (id = j)) as [<-|].
    + rewrite Ew in Hw'. injection Hw' as <-. eexists. by rewrite lookup_insert_eq.
    + exists w'. by rewrite lookup_insert_ne.
  - intros j [[w' Hw']|[= <-]]; [|apply Hu; left; by exists w].
    apply lookup_insert_Some in Hw' as [[<- _]|[_ Hw']]; apply Hu; left; by eexists.
Qed.

Lemma flight_inv_draining used s o : flight_inv used s → flight_inv used (with_phase s (Phase_Draining o)).
Proof. intros [_ Hd Hu]. by split. Qed.

Lemma flight_inv_settle used s idle unavailable ws :
  flight_inv used s → flight_inv used (settle_f s idle unavailable ws).1.
Proof.
  intros Hi. pose proof (settle_spec s idle unavailable ws) as Hs.
  destruct (settle_f s idle unavailable ws) as [s' ws']. destruct Hs as (Hc & Hd & [(-> & _)|Hs]); [done|].
  destruct Hs as (_ & _ & Hb & Hl & He & Hh & _). simpl.
  eapply flight_inv_kin; [done|apply Hc|by rewrite Hd|by right|].
  simpl in *. unfold busy in Hb. by destruct (phase s').
Qed.

Lemma flight_inv_refresh used s idle unavailable canceled fx :
  flight_inv used s → flight_inv used (refresh_f s idle unavailable canceled fx).1.
Proof.
  intros Hi. pose proof (refresh_spec s idle unavailable canceled fx) as Hr.
  destruct (refresh_f s idle unavailable canceled fx) as [s' fx'].
  destruct Hr as (Hc & Hd & Ha & _ & _ & _ & Hb & He). simpl.
  destruct (acquiring s') eqn:Ea.
  - destruct (Ha eq_refl) as (_ & Hdr & i & w & Hl & _).
    eapply (flight_inv_drifts _ s fx); [done|done|by rewrite Hl|].
    pose proof (fi_phase _ _ Hi) as Hp. destruct (Ha eq_refl) as (Has & _).
    unfold acquiring in Has. destruct (phase s); try done. destruct Hp as ([? Hls] & _). by rewrite Hls.
  - eapply flight_inv_kin; [done|apply Hc|done|done|].
    unfold busy, acquiring in *. pose proof (fi_phase _ _ Hi) as Hp.
    destruct (phase s') eqn:Ep; try done;
      (destruct (Hb eq_refl) as [(Hbs & -> & -> & ->)|?]; [by destruct (phase s)|done]).
Qed.

Lemma flight_inv_step used f op :
  flight_inv used (fl_state f) → (∀ id, id ∈ registered [op] → id ∉ used) →
  flight_inv (registered [op] ++ used) (fl_state (flight_step f op)).
Proof.
  intros Hi Hnew. destruct op as [id p a c|id|id e|id t| |id limit| |id act o|id act e|e|idle u|idle u c|e|env];
    simpl in *.
  - apply flight_inv_register; [done|apply Hnew, list_elem_of_here].
  - by apply flight_inv_detach.
  - by apply flight_inv_alter.
  - by apply flight_inv_alter.
  - pose proof (sweep_waiter_drifts (fl_state f) (fl_effects f)) as Hd.
    destruct (sweep_waiter _ _ _ _) as [s' fx']. destruct Hd as [Hd Hl]. simpl.
    eapply flight_inv_drifts; [done|done|by rewrite Hl|by rewrite Hl].
  - pose proof (flight_inv_elect used (fl_state f) id (fl_identity f) limit Hi) as He.
    by destruct (elect _ _ _ _) as [r [s' i']].
  - unfold allow_handover. destruct (acquiring (fl_state f)) eqn:Ea; [|done].
    destruct Hi as [Hp Hd Hu]. split; try done. simpl. unfold acquiring in Ea. by destruct (phase (fl_state f)).
  - destruct (is_ok _); [by apply flight_inv_draining|done].
  - destruct (is_ok _); [|done]. pose proof (revoke_spec (fl_state f) e (fl_effects f).1) as Hr.
    destruct (revoke _ _ _) as [s' ws']. destruct Hr as (_ & Hc & Hd & Hp & _ & He & _). simpl.
    eapply flight_inv_kin; [done|apply Hc|by rewrite Hd|by left|by rewrite Hp].
  - destruct (phase (fl_state f)); try done. by apply flight_inv_draining.
  - by apply flight_inv_settle.
  - by apply flight_inv_refresh.
  - unfold flight_stop, notify. simpl. split; [done| |].
    + intros d i. simpl. by rewrite lookup_empty.
    + intros i. simpl. rewrite lookup_empty. intros [[? ?]|?]; [done|]. apply (fi_used _ _ Hi). by right.
  - done.
Qed.

Lemma flight_inv_run used f ops :
  flight_inv used (fl_state f) → NoDup (registered ops) → (∀ id, id ∈ registered ops → id ∉ used) →
  flight_inv (registered ops ++ used) (fl_state (flight_run f ops)).
Proof.
  revert used f. induction ops as [|op ops IH]; intros used f Hi Hnd Hnew; [done|].
  assert (registered (op :: ops) = registered [op] ++ registered ops) as Hreg
    by (unfold registered; simpl; destruct op; done).
  rewrite Hreg in *. apply NoDup_app in Hnd as (_ & Hdis & Hnd).
  simpl. eapply flight_inv_used; [apply (IH (registered [op] ++ used))|].
  - apply flight_inv_step; [done|]. intros id Hid. apply Hnew, elem_of_app. by left.
  - done.
  - intros id Hid. rewrite elem_of_app. intros [Ho|Hu]; [by apply (Hdis id)|].
    apply (Hnew id); [apply elem_of_app; by right|done].
  - intros i. rewrite !elem_of_app. naive_solver.
Qed.

(** ** The completion fence *)

Lemma fence_step f op :
  reports_idle op = false → busy (fl_state f) = true →
  busy (fl_state (flight_step f op)) = true ∧ fl_identity (flight_step f op) = fl_identity f ∧
  (draining (fl_state f) = true → draining (fl_state (flight_step f op)) = true).
Proof.
  intros Hop Hb. destruct op as [id p a c|id|id e|id t| |id limit| |id act o|id act e|e|idle u|idle u c|e|env];
    simpl in *; try done.
  - unfold detach. by destruct (waiters (fl_state f) !! id).
  - pose proof (sweep_waiter_drifts (fl_state f) (fl_effects f)) as Hd.
    destruct (sweep_waiter _ _ _ _) as [s' fx']. destruct Hd as [Hd _]. simpl.
    unfold busy, draining. by rewrite (dr_phase _ _ _ _ Hd).
  - unfold elect, busy in *. destruct (phase (fl_state f)) eqn:Ep; try done; simpl; by rewrite Ep.
  - unfold allow_handover. by destruct (acquiring (fl_state f)).
  - by destruct (is_ok _).
  - destruct (is_ok _); [|done]. pose proof (revoke_spec (fl_state f) e (fl_effects f).1) as Hr.
    destruct (revoke _ _ _) as [s' ws']. destruct Hr as (_ & _ & _ & Hp & _). simpl.
    unfold busy, draining. by rewrite Hp.
  - unfold busy, draining in *. destruct (phase (fl_state f)) eqn:Ep; try done; by rewrite Ep.
  - by rewrite Hop.
  - pose proof (refresh_spec (fl_state f) idle u c (fl_effects f)) as Hr.
    destruct (refresh_f _ _ _ _ _) as [s' fx']. destruct Hr as (_ & _ & _ & Hf & _). simpl.
    by destruct (Hf Hop Hb).
Qed.

Lemma fence_run f ops :
  Forall (λ op, reports_idle op = false) ops → busy (fl_state f) = true →
  busy (fl_state (flight_run f ops)) = true ∧ fl_identity (flight_run f ops) = fl_identity f ∧
  (draining (fl_state f) = true → draining (fl_state (flight_run f ops)) = true).
Proof.
  revert f. induction ops as [|op ops IH]; intros f Hops Hb; [done|].
  apply Forall_cons in Hops as [Hop Hops]. destruct (fence_step f op Hop Hb) as (Hb1 & Hi1 & Hd1).
  destruct (IH (flight_step f op) Hops Hb1) as (Hb2 & Hi2 & Hd2). simpl. split_and!; [done|congruence|].
  intros Hd. by apply Hd2, Hd1.
Qed.

(** ** Acquisition opportunities *)

Definition partial_outcome (o : FlightOutcome O E) : bool :=
  match o with
  | FlightOutcome_Published v => match split_published v with Published_Partial _ => true | _ => false end
  | _ => false
  end.

(** The caller was issued its opportunity and no partial result is about to settle. *)
Definition issued_out (id : N) s : Prop :=
  (∃ w, waiters s !! id = Some w ∧ w_issued w = true) ∧
  ∀ o, phase s = Phase_Draining o → partial_outcome o = false.

Definition keeps_caller (id : N) (op : FlightOp) : Prop :=
  match op with
  | FOp_Register i _ _ _ | FOp_Detach i => i ≠ id
  | FOp_Stop _ => False
  | FOp_Finish _ _ o => partial_outcome o = false
  | _ => True
  end.

Lemma spent_keeps id s s' : issued_out id s → keeps_issued s s' → phase s' = phase s → issued_out id s'.
Proof.
  intros [(w & Hw & Hi) Hp] Hk Hph. split; [by apply (Hk id w)|]. intros o. rewrite Hph. apply Hp.
Qed.

Lemma settle_spent id s idle unavailable ws : issued_out id s → issued_out id (settle_f s idle unavailable ws).1.
Proof.
  intros Hs. unfold flight_settle. destruct idle; [|done]. cbn [negb].
  destruct (phase s) as [| |o|c|e] eqn:Ep; try done. destruct Hs as [(w & Hw & Hi) Hp].
  specialize (Hp o Ep). set (s0 := with_leader (with_phase s Phase_RetryPending) None None false).
  assert (waiters (settled split_published s0 o unavailable) = waiters s) as Hws.
  { destruct o as [v|e|]; simpl in *; [by destruct (split_published v)|done|by destruct (any_eligible s0)]. }
  destruct (settled_phase s0 o unavailable) as [Hb _]. split.
  - exists (with_waker None w). simpl. by rewrite lookup_fmap, Hws, Hw.
  - intros o'. simpl. unfold busy in Hb. intros Ho. by rewrite Ho in Hb.
Qed.

Lemma refresh_spent id s idle unavailable canceled fx :
  issued_out id s → issued_out id (refresh_f s idle unavailable canceled fx).1.
Proof.
  intros Hs. rewrite refresh_unfold. pose proof (refresh_checks_drifts s fx) as H1.
  destruct (refresh_checks s fx) as [s1 fx1]. destruct H1 as [Hd1 _].
  apply (spent_keeps id s s1) in Hs; [|by apply keeps_issued_drifts in Hd1|apply Hd1].
  pose proof (refresh_leader_spec s1 idle canceled fx1) as H2.
  destruct (refresh_leader deadline check s1 idle canceled fx1) as [s2 fx2].
  destruct H2 as (Hk & _ & _ & _ & Hcase).
  assert (issued_out id s2) as Hs2.
  { destruct Hcase as [[_ ->]|[(_ & Hd & _)|(_ & Hp & _)]]; [done| |].
    - apply (spent_keeps id s1); [done|done|apply Hd].
    - destruct Hs as [(w & Hw & Hi) _]. split; [by apply (Hk id w)|]. intros o. rewrite Hp. by intros [= <-]. }
  pose proof (settle_spent id s2 idle unavailable fx2.1 Hs2) as Hs3. unfold refresh_settle.
  destruct (settle_f s2 idle unavailable fx2.1) as [s3 ws3]. simpl in Hs3.
  destruct (phase s3) eqn:Ep; try done. destruct (negb _ && negb _); [|done].
  assert (issued_out id (with_phase s3 (Phase_Draining (FlightOutcome_Failed unavailable)))) as Hs4.
  { destruct Hs3 as [Hw _]. split; [done|]. intros o. simpl. by intros [= <-]. }
  pose proof (settle_spent id _ idle unavailable ws3 Hs4) as Hs5.
  by destruct (settle_f _ idle unavailable ws3).
Qed.

Lemma spent_step id f op :
  keeps_caller id op → issued_out id (fl_state f) → issued_out id (fl_state (flight_step f op)).
Proof.
  intros Hop Hs. destruct op as [i p a c|i|i e|i t| |i limit| |i act o|i act e|e|idle u|idle u c|e|env];
    simpl in *; try done.
  - destruct Hs as [(w & Hw & Hi) Hp]. split; [|done]. exists w. simpl. by rewrite lookup_insert_ne.
  - unfold detach. destruct (waiters (fl_state f) !! i); [|done].
    destruct Hs as [(w' & Hw & Hi) Hp]. split; [|done]. exists w'. simpl. by rewrite lookup_delete_ne.
  - apply (spent_keeps id (fl_state f)); [done| |done]. by apply (keeps_issued_alter _ _ i (with_error (Some e))).
  - apply (spent_keeps id (fl_state f)); [done| |done]. by apply (keeps_issued_alter _ _ i (with_waker (Some t))).
  - pose proof (sweep_waiter_drifts (fl_state f) (fl_effects f)) as Hd.
    destruct (sweep_waiter _ _ _ _) as [s' fx']. destruct Hd as [Hd _]. simpl.
    apply (spent_keeps id (fl_state f)); [done|by apply keeps_issued_drifts in Hd|apply Hd].
  - unfold elect. destruct (phase (fl_state f)) eqn:Ep; try done.
    destruct (waiters (fl_state f) !! i) as [w|] eqn:Ew; [|done]. destruct (eligible w); [|done].
    destruct (identity_advance _ _) as [[] i']; [|done]. simpl. destruct Hs as [(w' & Hw & Hi) _].
    split; [|done]. simpl. destruct (decide (i = id)) as [->|].
    + eexists. by rewrite lookup_insert_eq.
    + exists w'. by rewrite lookup_insert_ne.
  - unfold allow_handover. by destruct (acquiring (fl_state f)).
  - destruct (is_ok _); [|done]. destruct Hs as [Hw _]. split; [done|]. intros o'. simpl. by intros [= <-].
  - destruct (is_ok _); [|done]. pose proof (revoke_spec (fl_state f) e (fl_effects f).1) as Hr.
    destruct (revoke _ _ _) as [s' ws']. destruct Hr as (Hk & _ & _ & Hp & _). simpl.
    destruct Hs as [(w & Hw & Hi) _]. split; [by apply (Hk id w)|]. intros o. rewrite Hp. by intros [= <-].
  - destruct (phase (fl_state f)) eqn:Ep; try done. destruct Hs as [Hw _]. split; [done|].
    intros o'. simpl. by intros [= <-].
  - by apply settle_spent.
  - by apply refresh_spent.
Qed.

(** ** Theorems *)

Definition flight_new (identity : Identity) (env : Env) : Flight := mkFlight state_default identity ([], env).

(** Well-formedness of a flight.  Along every run in which no waiter identifier is
    registered twice, a running acquisition has a leader and an elected caller that was
    issued its opportunity, an idle flight has neither, and every entry of the deadline
    index belongs to an attached caller with that deadline. *)
Theorem flight_run_invariant i env ops :
  NoDup (registered ops) →
  flight_inv (registered ops) (fl_state (flight_run (flight_new i env) ops)).
Proof.
  intros Hnd. rewrite <- (app_nil_r (registered ops)). apply flight_inv_run; [|done|].
  - split; [done| |]; simpl.
    + intros d id. by rewrite lookup_empty.
    + intros id. rewrite lookup_empty. by intros [[? ?]|?].
  - intros id _. apply not_elem_of_nil.
Qed.

(** C31: the completion fence.  Once an attempt runs, until the adapter reports its operations
    idle, no sequence of operations elects again (the generation is unchanged and the flight
    stays busy); and once its outcome is recorded or it is revoked, every leader capability
    is stale, so nothing else can be published. *)
Theorem completion_fence f ops :
  busy (fl_state f) = true → Forall (λ op, reports_idle op = false) ops →
  let f' := flight_run f ops in
  busy (fl_state f') = true ∧ fl_identity f' = fl_identity f ∧
  (draining (fl_state f) = true → ∀ id active, validate_leader (fl_state f') id active = Err Stale).
Proof.
  intros Hb Hops. destruct (fence_run f ops Hops Hb) as (Hb' & Hi & Hd). split_and!; [done|done|].
  intros Hdr id active. specialize (Hd Hdr). unfold validate_leader, draining, acquiring in *.
  destruct (phase _); try done. by destruct active.
Qed.

(** One acquisition per caller.  A caller that was issued its opportunity is refused
    every later election, whatever checks, revocations, handovers, failures and retries
    happen, as long as it stays attached and no partial result is published. *)
Theorem issued_caller_not_reelected f id ops limit :
  issued_out id (fl_state f) → Forall (keeps_caller id) ops →
  let f' := flight_run f ops in
  elect (fl_state f') id (fl_identity f') limit = (Ok false, (fl_state f', fl_identity f')).
Proof.
  intros Hs Hops. assert (issued_out id (fl_state (flight_run f ops))) as [(w & Hw & Hi) _].
  { revert f Hs. induction Hops as [|op ops Hop Hops IH]; intros f Hs; [done|].
    simpl. by apply IH, spent_step. }
  unfold elect. destruct (phase _); try done. rewrite Hw. unfold eligible. rewrite Hi.
  by destruct (w_acquisition w).
Qed.

(** C32: a refresh makes progress and loses no wake-up.  After a refresh a running acquisition
    is led by an attached caller that has not failed; if the operations are idle nothing is
    left draining, and a flight left to retry has a partial result or an eligible caller; and
    when the refresh ends the flight, every stored wake target has been enqueued. *)
Theorem refresh_progress s idle unavailable canceled fx :
  let '(s', fx') := refresh_f s idle unavailable canceled fx in
  (acquiring s' = true → ∃ id w, leader s' = Some id ∧ waiters s' !! id = Some w ∧ w_error w = None) ∧
  (idle = true → draining s' = false ∧
     (phase s' = Phase_RetryPending →
        is_Some (partial s') ∨ ∃ id w, waiters s' !! id = Some w ∧ eligible w = true)) ∧
  (terminal s = false → terminal s' = true →
     ∀ id w t, waiters s !! id = Some w → w_waker w = Some t → t ∈ fx'.1) ∧
  (∀ t, t ∈ fx.1 → t ∈ fx'.1).
Proof.
  pose proof (refresh_spec s idle unavailable canceled fx) as Hr.
  destruct (refresh_f s idle unavailable canceled fx) as [s' fx'].
  destruct Hr as (Hc & _ & Ha & _ & Hi & Ht & _). split_and!.
  - intros Has. by apply Ha.
  - intros Hid. destruct (Hi Hid) as [Hd Hp]. split; [done|]. intros Hph.
    destruct (Hp Hph) as [?|?]; [by left|right; by apply any_eligible_spec].
  - intros Hts Hts' id w t Hw Hwt. by eapply conserves_notified; [exact Hc|apply Ht|..].
  - apply Hc.
Qed.

(** Handover keeps the operation running for the best caller.  A successful handover of a
    running acquisition names an attached, eligible, error-free caller other than the failed
    leader, with the latest deadline among the callers still eligible; the elected caller's
    publication capability stays valid and no caller's own opportunity is issued_out.  A refused
    handover means no other caller is eligible. *)
Theorem handover_picks_latest_deadline s fx :
  acquiring s = true →
  let '(passed, (s', fx')) := hand_over deadline check s fx in
  (passed = true →
     (∃ id w, leader s' = Some id ∧ Some id ≠ leader s ∧ waiters s' !! id = Some w ∧ eligible w = true ∧
        ∀ id2 w2, waiters s' !! id2 = Some w2 → eligible w2 = true → Some id2 ≠ leader s →
          (deadline (w_policy w2) ≤ deadline (w_policy w))%N) ∧
     (∀ e, elected s = Some e → validate_leader s' e true = Ok ()) ∧
     (∀ id w', waiters s' !! id = Some w' → ∃ w, waiters s !! id = Some w ∧ w_issued w' = w_issued w)) ∧
  (passed = false →
     leader s' = leader s ∧ ∀ id w, waiters s' !! id = Some w → eligible w = true → Some id = leader s).
Proof.
  intros Ha. pose proof (hand_over_spec deadline check s fx) as Hs.
  destruct (hand_over deadline check s fx) as [passed [s' fx']]. destruct Hs as (Hd & Ht & Hf).
  split; [|done]. intros Hp. split_and!; [by apply Ht| |].
  - intros e He. unfold validate_leader, acquiring in *. rewrite (dr_phase _ _ _ _ Hd), (dr_elected _ _ _ _ Hd).
    destruct (phase s); try done. rewrite (bool_decide_true (elected s = Some e)) by done. simpl.
    by rewrite andb_false_r.
  - intros id w' Hw'. destruct (drifts_lookup _ _ _ _ id w' Hd Hw') as (w & Hw & _ & _ & _ & Hi & _).
    by exists w.
Qed.
End runs.

(** ** Witnesses

    A policy is a deadline, the world is the time, a publication is its own interpretation. *)
Section witnesses.

#[local] Notation wflight := (@Flight N N (Published N N) N N N N).

Definition wcheck (now due : N) : option N * N := (if (due <=? now)%N then Some 7%N else None, now).

Definition wclock (now : N) : N * N := (now, now).

Definition wrun : wflight → list (@FlightOp (Published N N) N N N N) → wflight :=
  flight_run id wcheck wclock id.

(** Callers 1 and 2 attach, 1 is elected, then time passes its deadline. *)
Definition two_callers : list (@FlightOp (Published N N) N N N N) :=
  [FOp_Register 1 10 true true; FOp_Register 2 50 true true; FOp_Park 2 22; FOp_Elect 1 4; FOp_World 20]%N.

Definition led : wflight := wrun (flight_new (mkIdentity 0 1 0) 0%N) two_callers.

Lemma flight_run_invariant_witness :
  flight_inv id (registered two_callers) (fl_state led).
Proof.
  apply (flight_run_invariant id wcheck wclock id (mkIdentity 0 1 0) 0%N two_callers).
  repeat constructor; set_solver.
Defined.

(** The leader has failed, but its operation still runs: nobody else is elected. *)
Lemma completion_fence_witness :
  let f' := wrun led [FOp_Refresh false 9 8; FOp_Elect 2 4; FOp_Settle false 9]%N in
  busy (fl_state f') = true ∧ generation (fl_identity f') = 1%N ∧
  validate_leader (fl_state f') 1 true = Err Stale.
Proof.
  destruct (completion_fence id wcheck wclock id led
    [FOp_Refresh false 9 8; FOp_Elect 2 4; FOp_Settle false 9]%N) as (Hb & Hi & _).
  { reflexivity. }
  { repeat constructor. }
  split_and!; [exact Hb|unfold wrun; rewrite Hi; reflexivity|reflexivity].
Defined.

Lemma issued_caller_not_reelected_witness :
  let f' := wrun led [FOp_Refresh true 9 8; FOp_Sweep]%N in
  (elect (fl_state f') 1 (fl_identity f') 4).1 = Ok false ∧ (elect (fl_state f') 2 (fl_identity f') 4).1 = Ok true.
Proof.
  split; [|reflexivity].
  apply (f_equal fst (issued_caller_not_reelected id wcheck wclock id led 1%N
    [FOp_Refresh true 9 8; FOp_Sweep]%N 4%N
    ltac:(split; [eexists; split; reflexivity|intros o Ho; discriminate Ho]) ltac:(repeat constructor))).
Defined.

(** With handover allowed the operation passes to caller 2. *)
Definition adopting : wflight := wrun led [FOp_AllowHandover].

Lemma handover_picks_latest_deadline_witness :
  let '(passed, (s', _)) := hand_over id wcheck (fl_state adopting) (fl_effects adopting) in
  passed = true ∧ leader s' = Some 2%N ∧ validate_leader s' 1 true = Ok ().
Proof.
  pose proof (handover_picks_latest_deadline id wcheck (fl_state adopting) (fl_effects adopting) eq_refl) as Hh.
  destruct (hand_over _ _ _ _) as [passed [s' fx']] eqn:Eh. destruct Hh as [Hh _].
  vm_compute in Eh. injection Eh as <- <- <-. destruct (Hh eq_refl) as (_ & Hv & _).
  split_and!; [done|done|]. by apply Hv.
Defined.
End witnesses.
