(* ===== verification/FlightTable.v ===== *)
(** * Flight tables and operation slots

    [flight::Table], [flight::Counter] and [flight::Operations] of
    [cmd/racer/flow/src/coalesce.rs]: owned membership with a bounded round-robin sweep, and
    the two-phase completion slots.  The trait [Entry] is a pair of section variables; its
    [refresh] may read the world, which is threaded explicitly.  A panic ([unreachable!] or
    arithmetic underflow) is the value [None]. *)

From S2P Require Import Prelude FlightState.

(** [Counter::next_id]. *)
Definition next_id (counter : N) : result N FlightExhausted * N :=
  match checked_add U64_MAX counter 1 with
  | None => (Err IdExhausted, counter)
  | Some n => (Ok n, n)
  end.

Section table.
Context {K E T Env : Type} `{Countable K}.
Variable entry_refresh : E → list T → Env → E * list T * Env.
Variable quiescent : E → bool.

Record Table : Type := mkTable {
  (** [Indexed]: the sweep identifier and the entry. *)
  tb_entries : gmap K (N * E);
  tb_sweep : gmap N K;
  next_sweep_id : N;
  tb_cursor : N;
  tb_incarnation : N;
  next_waiter : N;
  next_operation : N;
  stopping : bool;
  drain_waker : option T;
}.

Definition table_default : Table := mkTable ∅ ∅ 0 0 0 0 0 false None.

Definition with_entries (t : Table) (es : gmap K (N * E)) (sw : gmap N K) : Table :=
  mkTable es sw (next_sweep_id t) (tb_cursor t) (tb_incarnation t) (next_waiter t) (next_operation t)
          (stopping t) (drain_waker t).

(** [Table::next_waiter_id]; [next_operation_id] and [identity] allocate the same way. *)
Definition next_waiter_id (t : Table) : result N FlightExhausted * Table :=
  let '(r, n) := next_id (next_waiter t) in
  (r, mkTable (tb_entries t) (tb_sweep t) (next_sweep_id t) (tb_cursor t) (tb_incarnation t) n
              (next_operation t) (stopping t) (drain_waker t)).

Definition next_operation_id (t : Table) : result N FlightExhausted * Table :=
  let '(r, n) := next_id (next_operation t) in
  (r, mkTable (tb_entries t) (tb_sweep t) (next_sweep_id t) (tb_cursor t) (tb_incarnation t)
              (next_waiter t) n (stopping t) (drain_waker t)).

(** [Table::identity]. *)
Definition table_identity (t : Table) (owner : N) : result Identity FlightExhausted * Table :=
  let '(r, n) := next_id (tb_incarnation t) in
  (match r with Ok i => Ok (mkIdentity owner i 0) | Err e => Err e end,
   mkTable (tb_entries t) (tb_sweep t) (next_sweep_id t) (tb_cursor t) n (next_waiter t)
           (next_operation t) (stopping t) (drain_waker t)).

(** [Table::register_drain] and [Table::notify_drain]. *)
Definition register_drain (t : Table) (waker : T) : option T * Table :=
  (drain_waker t,
   mkTable (tb_entries t) (tb_sweep t) (next_sweep_id t) (tb_cursor t) (tb_incarnation t)
           (next_waiter t) (next_operation t) (stopping t) (Some waker)).

Definition notify_drain (t : Table) (wakes : list T) : Table * list T :=
  (mkTable (tb_entries t) (tb_sweep t) (next_sweep_id t) (tb_cursor t) (tb_incarnation t)
           (next_waiter t) (next_operation t) (stopping t) None,
   wakes ++ match drain_waker t with Some w => [w] | None => [] end).

(** [Table::get]. *)
Definition table_get (t : Table) (key : K) : option E := snd <$> tb_entries t !! key.

(** The probe loop of [Table::allocate_sweep_id]; [None] is its [unreachable!]. *)
Fixpoint probe (n : nat) (next : N) (sw : gmap N K) : option N :=
  match n with
  | 0 => None
  | S n =>
      let next := wrapping_add64 next 1 in
      match sw !! next with
      | None => Some next
      | Some _ => probe n next sw
      end
  end.

Definition allocate_sweep_id (t : Table) : option N :=
  probe (S (size (tb_sweep t))) (next_sweep_id t) (tb_sweep t).

(** [Table::insert]. *)
Definition table_insert (t : Table) (key : K) (entry : E) : option (result () (K * E) * Table) :=
  match tb_entries t !! key with
  | Some _ => Some (Err (key, entry), t)
  | None =>
      match allocate_sweep_id t with
      | None => None
      | Some sid =>
          Some (Ok (),
                mkTable (<[key := (sid, entry)]> (tb_entries t)) (<[sid := key]> (tb_sweep t)) sid
                        (tb_cursor t) (tb_incarnation t) (next_waiter t) (next_operation t)
                        (stopping t) (drain_waker t))
      end
  end.

(** [Table::remove_quiescent]. *)
Definition remove_quiescent (t : Table) (key : K) : option E * Table :=
  match tb_entries t !! key with
  | Some (sid, entry) =>
      if quiescent entry then
        (Some entry, with_entries t (delete key (tb_entries t)) (delete sid (tb_sweep t)))
      else (None, t)
  | None => (None, t)
  end.

(** [Table::stop]: [values_mut] order is the map's. *)
Definition table_stop (t : Table) (wakes : list T) (stop : E → list T → E * list T) : Table * list T :=
  let '(es, wakes) :=
    foldl (λ acc p, let '(e, wakes) := stop p.2.2 acc.2 in (<[p.1 := (p.2.1, e)]> acc.1, wakes))
          (tb_entries t, wakes) (map_to_list (tb_entries t)) in
  (mkTable es (tb_sweep t) (next_sweep_id t) (tb_cursor t) (tb_incarnation t) (next_waiter t)
           (next_operation t) true (drain_waker t), wakes).

(** One iteration of [Table::sweep]. *)
Definition sweep_one (t : Table) (removed : list E) (wakes : list T) (env : Env) :
    option (Table * list E * list T * Env) :=
  match cursor_next (tb_cursor t) (tb_sweep t) with
  | None => None
  | Some (sid, key) =>
      let t := mkTable (tb_entries t) (tb_sweep t) (next_sweep_id t) sid (tb_incarnation t)
                       (next_waiter t) (next_operation t) (stopping t) (drain_waker t) in
      let '(t, wakes, env) :=
        match tb_entries t !! key with
        | Some (sid, entry) =>
            let '(entry, wakes, env) := entry_refresh entry wakes env in
            (with_entries t (<[key := (sid, entry)]> (tb_entries t)) (tb_sweep t), wakes, env)
        | None => (t, wakes, env)
        end in
      let '(gone, t) := remove_quiescent t key in
      Some (t, removed ++ match gone with Some e => [e] | None => [] end, wakes, env)
  end.

Fixpoint sweep_loop (n : nat) (t : Table) (removed : list E) (wakes : list T) (env : Env) :
    Table * list E * list T * Env :=
  match n with
  | 0 => (t, removed, wakes, env)
  | S n =>
      match sweep_one t removed wakes env with
      | None => (t, removed, wakes, env)
      | Some (t, removed, wakes, env) => sweep_loop n t removed wakes env
      end
  end.

(** [Table::sweep]. *)
Definition table_sweep (budget : nat) (t : Table) (wakes : list T) (env : Env) :
    Table * list E * list T * Env :=
  let '(t, removed, wakes, env) := sweep_loop (Nat.min budget (size (tb_sweep t))) t [] wakes env in
  let '(t, wakes) :=
    if bool_decide (size (tb_entries t) = 0) then notify_drain t wakes else (t, wakes) in
  (t, removed, wakes, env).

(** ** Membership *)

(** Entries and sweep index name the same keys. *)
Record table_inv (t : Table) : Prop := {
  ti_entry : ∀ k sid e, tb_entries t !! k = Some (sid, e) → tb_sweep t !! sid = Some k;
  ti_sweep : ∀ sid k, tb_sweep t !! sid = Some k → ∃ e, tb_entries t !! k = Some (sid, e);
}.

(** The identifiers the probe loop tries. *)
Fixpoint probed (n : nat) (next : N) : list N :=
  match n with
  | 0 => []
  | S n => wrapping_add64 next 1 :: probed n (wrapping_add64 next 1)
  end.

Lemma probe_None n next sw : probe n next sw = None → ∀ i, i ∈ probed n next → is_Some (sw !! i).
Proof.
  revert next. induction n as [|n IH]; intros next Hp i Hi; [by apply elem_of_nil in Hi|].
  simpl in Hp. destruct (sw !! wrapping_add64 next 1) eqn:Es; [|done].
  apply elem_of_cons in Hi as [->|Hi]; [by rewrite Es|by eapply IH].
Qed.

Lemma probe_Some n next sw i : probe n next sw = Some i → sw !! i = None.
Proof.
  revert next. induction n as [|n IH]; intros next Hp; [done|]. simpl in Hp.
  destruct (sw !! wrapping_add64 next 1) eqn:Es; [by eapply IH|congruence].
Qed.

Lemma probed_spec n next i :
  i ∈ probed n next ↔ ∃ j, (0 < j ≤ N.of_nat n ∧ i = wrapping_add64 next j)%N.
Proof.
  revert next. induction n as [|n IH]; intros next; simpl.
  - split; [intros Hi; by apply elem_of_nil in Hi|intros (j & ? & _); lia].
  - rewrite elem_of_cons, IH. unfold wrapping_add64. split.
    + intros [->|(j & Hj & ->)]; [exists 1%N; split; [lia|done]|].
      exists (j + 1)%N. split; [lia|]. rewrite N.Div0.add_mod_idemp_l. f_equal. lia.
    + intros (j & Hj & ->). destruct (decide (j = 1%N)) as [->|]; [by left|right].
      exists (j - 1)%N. split; [lia|]. rewrite N.Div0.add_mod_idemp_l. f_equal. lia.
Qed.

(** Below [2^64] probes no identifier is tried twice. *)
Lemma probed_NoDup n next : (N.of_nat n ≤ 2 ^ 64)%N → NoDup (probed n next).
Proof.
  revert next. induction n as [|n IH]; intros next Hn; [constructor|]. simpl. constructor; [|apply IH; lia].
  intros (j & Hj & He)%probed_spec. unfold wrapping_add64 in He.
  rewrite N.Div0.add_mod_idemp_l in He.
  set (a := (next + 1)%N) in *. clearbody a.
  pose proof (N.div_mod a (2 ^ 64)) as Ha. pose proof (N.div_mod (a + j) (2 ^ 64)) as Haj.
  rewrite <- He in Haj. set (q1 := (a / 2 ^ 64)%N) in *. set (q2 := ((a + j) / 2 ^ 64)%N) in *.
  specialize (Ha ltac:(done)). specialize (Haj ltac:(done)).
  assert (j = 2 ^ 64 * (q2 - q1))%N as Hj2 by nia. destruct (decide (q2 - q1 = 0)%N) as [E0|E0]; [lia|nia].
Qed.

Lemma allocate_total t :
  (N.of_nat (size (tb_sweep t)) < 2 ^ 64)%N → is_Some (allocate_sweep_id t).
Proof.
  intros Hs. unfold allocate_sweep_id. destruct (probe _ _ _) as [i|] eqn:Ep; [by exists i|].
  exfalso. pose proof (probe_None _ _ _ Ep) as Hall.
  set (n := S (size (tb_sweep t))) in *.
  assert (NoDup (probed n (next_sweep_id t))) as Hnd by (apply probed_NoDup; lia).
  assert (length (probed n (next_sweep_id t)) = n) as Hlen.
  { generalize (next_sweep_id t). clear. induction n as [|n IH]; intros next; [done|]. simpl. by rewrite IH. }
  assert (n ≤ size (tb_sweep t)); [|lia].
  rewrite <- Hlen, <- (size_list_to_set (C := gset N)), <- size_dom by done.
  apply subseteq_size. intros i. rewrite elem_of_list_to_set, elem_of_dom. apply Hall.
Qed.

Lemma table_inv_insert t key entry r t' :
  table_inv t → table_insert t key entry = Some (r, t') → table_inv t'.
Proof.
  intros [He Hs] Hi. unfold table_insert in Hi. destruct (tb_entries t !! key) eqn:Ek; [by simplify_eq|].
  destruct (allocate_sweep_id t) as [sid|] eqn:Ea; [|done]. injection Hi as <- <-.
  apply probe_Some in Ea. split; simpl.
  - intros k s e [[<- [= <- <-]]|[Hne Hk]]%lookup_insert_Some; [by rewrite lookup_insert_eq|].
    rewrite lookup_insert_ne; [by eapply He|]. intros <-. apply He in Hk. congruence.
  - intros s k [[<- <-]|[Hne Hk]]%lookup_insert_Some; [exists entry; by rewrite lookup_insert_eq|].
    destruct (Hs s k Hk) as [e Hke]. exists e. rewrite lookup_insert_ne; [done|]. intros <-. congruence.
Qed.

Lemma table_inv_refreshed t key sid e e' :
  table_inv t → tb_entries t !! key = Some (sid, e) →
  table_inv (with_entries t (<[key := (sid, e')]> (tb_entries t)) (tb_sweep t)).
Proof.
  intros [He Hs] Hk. split; simpl.
  - intros k s x [[<- [= <- <-]]|[Hne Hx]]%lookup_insert_Some; by eapply He.
  - intros s k Hsk. destruct (Hs s k Hsk) as [x Hx]. destruct (decide (key = k)) as [<-|].
    + rewrite Hk in Hx. injection Hx as <- <-. exists e'. by rewrite lookup_insert_eq.
    + exists x. by rewrite lookup_insert_ne.
Qed.

Lemma table_inv_remove t key : table_inv t → table_inv (remove_quiescent t key).2.
Proof.
  intros Hi. unfold remove_quiescent. destruct (tb_entries t !! key) as [[sid e]|] eqn:Ek; [|done].
  destruct (quiescent e); [|done]. destruct Hi as [He Hs]. split; simpl.
  - intros k s x [Hne Hx]%lookup_delete_Some. apply lookup_delete_Some. split; [|by eapply He].
    intros <-. apply He in Hx, Ek. congruence.
  - intros s k [Hne Hsk]%lookup_delete_Some. destruct (Hs s k Hsk) as [x Hx]. exists x.
    apply lookup_delete_Some. split; [|done]. intros <-. congruence.
Qed.

(** ** The sweep against its reference

    The abstract view of a table is the map from keys to entries; the reference sweep visits
    a list of keys. *)

Definition view (t : Table) : gmap K E := snd <$> tb_entries t.

Definition visit (acc : gmap K E * list E * list T * Env) (key : K) : gmap K E * list E * list T * Env :=
  let '(m, removed, wakes, env) := acc in
  match m !! key with
  | None => acc
  | Some e =>
      let '(e, wakes, env) := entry_refresh e wakes env in
      if quiescent e then (delete key m, removed ++ [e], wakes, env)
      else (<[key := e]> m, removed, wakes, env)
  end.

(** The keys a sweep starting now would visit, in order. *)
Definition sweep_keys (t : Table) : list K := (wrap_from (tb_sweep t) (tb_cursor t)).*2.

Lemma cursor_next_wrap {V} cur (m : gmap N V) : cursor_next cur m = head (wrap_from m cur).
Proof.
  unfold cursor_next, wrap_from. change (@ord_le N _ _ _) with N.le.
  rewrite (filter_iff_elem (λ p : N * V, (cur < p.1)%N) (λ p : N * V, ¬ (p.1 ≤ cur)%N)) by (intros [k v] _; simpl; lia).
  destruct (filter (λ p : N * V, ¬ (p.1 ≤ cur)%N) _) as [|p l] eqn:Ef; [|done]. simpl.
  rewrite (filter_all (λ p : N * V, (p.1 ≤ cur)%N)); [done|].
  intros p Hp. destruct (decide (p.1 ≤ cur)%N) as [|Hn]; [done|].
  assert (p ∈ @nil (N * V)) as Hin by (rewrite <- Ef; by apply list_elem_of_filter).
  by apply elem_of_nil in Hin.
Qed.

(** One iteration visits the next key of the order; the rest of the order is unchanged, and a
    kept entry moves to its end. *)
Lemma sweep_one_spec t removed wakes env sid key rest :
  table_inv t → wrap_from (tb_sweep t) (tb_cursor t) = (sid, key) :: rest →
  ∃ t' removed' wakes' env',
    sweep_one t removed wakes env = Some (t', removed', wakes', env') ∧ table_inv t' ∧
    visit (view t, removed, wakes, env) key = (view t', removed', wakes', env') ∧
    ∃ kept, wrap_from (tb_sweep t') (tb_cursor t') = rest ++ kept.
Proof.
  intros Hi Hw. unfold sweep_one. rewrite cursor_next_wrap, Hw. cbn [head].
  assert (tb_sweep t !! sid = Some key) as Hsid.
  { apply (elem_of_wrap_from _ (tb_cursor t)). rewrite Hw. apply list_elem_of_here. }
  destruct (ti_sweep _ Hi sid key Hsid) as [e He]. cbn [tb_entries]. rewrite He.
  unfold visit, view. rewrite lookup_fmap, He. cbn [fmap option_fmap option_map snd].
  destruct (entry_refresh e wakes env) as [[e' wakes'] env'] eqn:Er.
  set (t0 := mkTable (tb_entries t) (tb_sweep t) (next_sweep_id t) sid (tb_incarnation t)
               (next_waiter t) (next_operation t) (stopping t) (drain_waker t)).
  set (t1 := with_entries t0 (<[key := (sid, e')]> (tb_entries t0)) (tb_sweep t0)).
  assert (table_inv t1) as Hi1.
  { apply (table_inv_refreshed t0 key sid e e'); [|done]. destruct Hi as [H1 H2]. by split. }
  pose proof (table_inv_remove t1 key Hi1) as Hi2. unfold remove_quiescent in *.
  cbn [t1 with_entries tb_entries] in *. rewrite lookup_insert_eq in *.
  destruct (quiescent e') eqn:Eq; do 4 eexists; (split; [reflexivity|]); (split; [exact Hi2|]); split.
  - cbn [with_entries tb_entries]. rewrite fmap_delete, fmap_insert. cbn [t0 tb_entries snd].
    by rewrite delete_insert_eq.
  - exists []. rewrite app_nil_r. cbn [with_entries tb_sweep tb_cursor t0].
    by apply (wrap_from_step_delete _ (tb_cursor t) sid key).
  - cbn [with_entries tb_entries]. by rewrite fmap_insert, app_nil_r.
  - exists [(sid, key)]. cbn [with_entries tb_sweep tb_cursor t0]. by apply (wrap_from_step _ (tb_cursor t)).
Qed.

(** Sweeping leaves the drain waker alone until the end. *)
Lemma sweep_loop_drain n t removed wakes env :
  drain_waker (sweep_loop n t removed wakes env).1.1.1 = drain_waker t.
Proof.
  revert t removed wakes env. induction n as [|n IH]; intros t removed wakes env; [done|]. simpl.
  destruct (sweep_one t removed wakes env) as [[[[t1 r1] w1] e1]|] eqn:E1; [|done]. rewrite IH.
  unfold sweep_one, remove_quiescent in E1. repeat (case_match; simplify_eq/=); done.
Qed.

Lemma sweep_loop_spec n t removed wakes env now later :
  table_inv t → wrap_from (tb_sweep t) (tb_cursor t) = now ++ later → length now = n →
  let '(t', removed', wakes', env') := sweep_loop n t removed wakes env in
  table_inv t' ∧ foldl visit (view t, removed, wakes, env) now.*2 = (view t', removed', wakes', env').
Proof.
  revert t removed wakes env now later. induction n as [|n IH]; intros t removed wakes env now later Hi Hw Hn.
  { destruct now; [done|done]. }
  destruct now as [|[sid key] now]; [done|]. injection Hn as Hn. simpl in Hw.
  destruct (sweep_one_spec t removed wakes env sid key (now ++ later) Hi Hw)
    as (t' & removed' & wakes' & env' & E1 & Hi' & Hv & kept & Hw').
  cbn [sweep_loop]. rewrite E1. rewrite <- (assoc_L (++)) in Hw'.
  specialize (IH t' removed' wakes' env' now _ Hi' Hw' Hn).
  destruct (sweep_loop n t' removed' wakes' env') as [[[t2 r2] w2] e2].
  destruct IH as [Hi2 Hf]. split; [done|]. rewrite fmap_cons. cbn [foldl snd]. by rewrite Hv.
Qed.

Inductive table_reach : Table → Prop :=
| treach_default : table_reach table_default
| treach_insert t key entry r t' :
    table_reach t → table_insert t key entry = Some (r, t') → table_reach t'
| treach_update t key sid e e' :
    table_reach t → tb_entries t !! key = Some (sid, e) →
    table_reach (with_entries t (<[key := (sid, e')]> (tb_entries t)) (tb_sweep t))
| treach_remove t key : table_reach t → table_reach (remove_quiescent t key).2
| treach_sweep budget t wakes env : table_reach t → table_reach (table_sweep budget t wakes env).1.1.1
| treach_waiter t : table_reach t → table_reach (next_waiter_id t).2
| treach_operation t : table_reach t → table_reach (next_operation_id t).2
| treach_identity t owner : table_reach t → table_reach (table_identity t owner).2
| treach_drain t waker : table_reach t → table_reach (register_drain t waker).2.

(** Counters, flags and the drain waker are no part of membership. *)
Lemma table_inv_same t t' :
  table_inv t → tb_entries t' = tb_entries t → tb_sweep t' = tb_sweep t → table_inv t'.
Proof. intros [He Hs] E1 E2. split; rewrite E1, E2; done. Qed.

Lemma sweep_spec budget t wakes env :
  table_inv t →
  let '(t', removed, wakes', env') := table_sweep budget t wakes env in
  table_inv t' ∧ ∃ wakes1,
    foldl visit (view t, [], wakes, env) (take budget (sweep_keys t)) = (view t', removed, wakes1, env') ∧
    wakes' = wakes1 ++ (if bool_decide (size (view t') = 0) then match drain_waker t with Some w => [w] | None => [] end else []).
Proof.
  intros Hi. unfold table_sweep.
  set (n := Nat.min budget (size (tb_sweep t))).
  pose proof (take_drop n (wrap_from (tb_sweep t) (tb_cursor t))) as Htd.
  assert (length (take n (wrap_from (tb_sweep t) (tb_cursor t))) = n) as Hlen.
  { rewrite length_take, wrap_from_length. lia. }
  pose proof (sweep_loop_spec n t [] wakes env _ _ Hi (eq_sym Htd) Hlen) as Hl.
  pose proof (sweep_loop_drain n t [] wakes env) as Hdw.
  destruct (sweep_loop n t [] wakes env) as [[[t1 removed] wakes1] env1]. destruct Hl as [Hi1 Hf].
  simpl in Hdw.
  assert (take budget (sweep_keys t) = (take n (wrap_from (tb_sweep t) (tb_cursor t))).*2) as Hk.
  { unfold sweep_keys. rewrite <- fmap_take. f_equal. unfold n.
    rewrite <- (wrap_from_length (tb_sweep t) (tb_cursor t)).
    destruct (decide (budget ≤ length (wrap_from (tb_sweep t) (tb_cursor t)))).
    - by rewrite Nat.min_l.
    - rewrite Nat.min_r by lia. rewrite !take_ge by lia. done. }
  rewrite Hk, Hf. unfold view.
  destruct (bool_decide (size (tb_entries t1) = 0)) eqn:Ez; simpl.
  - split; [by eapply table_inv_same|]. exists wakes1. rewrite map_size_fmap, Ez, Hdw. done.
  - split; [done|]. exists wakes1. by rewrite map_size_fmap, Ez, app_nil_r.
Qed.

Lemma table_reach_inv t : table_reach t → table_inv t.
Proof.
  induction 1 as [|t key entry r t' _ IH Hins|t key sid e e' _ IH Hk|t key _ IH|budget t wakes env _ IH
                 |t _ IH|t _ IH|t owner _ IH|t waker _ IH].
  - by split.
  - by eapply table_inv_insert.
  - by eapply table_inv_refreshed.
  - by apply table_inv_remove.
  - pose proof (sweep_spec budget t wakes env IH) as Hs.
    destruct (table_sweep budget t wakes env) as [[[t' ?] ?] ?]. apply Hs.
  - unfold next_waiter_id. destruct (next_id _). by eapply table_inv_same.
  - unfold next_operation_id. destruct (next_id _). by eapply table_inv_same.
  - unfold table_identity. destruct (next_id _). by eapply table_inv_same.
  - by eapply table_inv_same.
Qed.

(** Inserting never hits the [unreachable!].  On every reachable table of fewer than
    [2^64] entries, an insert into a vacant key finds a free sweep identifier within
    [len + 1] probes, even when the counter wraps, adds exactly that entry and keeps the
    index consistent; an occupied key is refused and returned, changing nothing. *)
Theorem table_insert_total t key entry :
  table_reach t → (N.of_nat (size (tb_sweep t)) < 2 ^ 64)%N →
  match tb_entries t !! key with
  | Some _ => table_insert t key entry = Some (Err (key, entry), t)
  | None => ∃ t', table_insert t key entry = Some (Ok (), t') ∧ table_inv t' ∧
              view t' = <[key := entry]> (view t)
  end.
Proof.
  intros Ht Hsize. apply table_reach_inv in Ht. destruct (tb_entries t !! key) eqn:Ek.
  { unfold table_insert. by rewrite Ek. }
  destruct (allocate_total t Hsize) as [sid Ha].
  assert (∃ t', table_insert t key entry = Some (Ok (), t') ∧ view t' = <[key := entry]> (view t)) as (t' & Hins & Hv).
  { unfold table_insert. rewrite Ek, Ha. eexists. split; [reflexivity|]. unfold view. simpl.
    by rewrite fmap_insert. }
  exists t'. split_and!; [done|by eapply table_inv_insert|done].
Qed.

(** The sweep is fair and exact.  A sweep of any budget visits the keys of the table in
    the wrapping order that starts after its cursor, each at most once: it refreshes exactly
    those entries, removes exactly the ones that are then quiescent, returns them in order,
    and wakes the drain exactly when the table is empty; a budget of the table's size
    visits every key. *)
Theorem sweep_visits_in_order budget t wakes env :
  table_reach t →
  let '(t', removed, wakes', env') := table_sweep budget t wakes env in
  NoDup (sweep_keys t) ∧ (∀ k, k ∈ sweep_keys t ↔ is_Some (view t !! k)) ∧
  ∃ wakes1,
    foldl visit (view t, [], wakes, env) (take budget (sweep_keys t)) = (view t', removed, wakes1, env') ∧
    wakes' = wakes1 ++ (if bool_decide (size (view t') = 0) then match drain_waker t with Some w => [w] | None => [] end else []).
Proof.
  intros Ht%table_reach_inv. pose proof (sweep_spec budget t wakes env Ht) as Hs.
  destruct (table_sweep budget t wakes env) as [[[t' removed] wakes'] env']. destruct Hs as [_ Hs].
  split_and!; [| |done].
  - unfold sweep_keys. apply NoDup_fmap_2_strong; [|eapply NoDup_fmap_1, wrap_from_NoDup].
    intros [s1 k1] [s2 k2] Hk1%elem_of_wrap_from Hk2%elem_of_wrap_from Heq. simpl in Heq. subst k2.
    destruct (ti_sweep _ Ht _ _ Hk1) as [e1 He1], (ti_sweep _ Ht _ _ Hk2) as [e2 He2]. congruence.
  - intros k. unfold sweep_keys, view. rewrite list_elem_of_fmap, lookup_fmap. split.
    + intros ([sid k'] & -> & Hk%elem_of_wrap_from). destruct (ti_sweep _ Ht _ _ Hk) as [e He].
      simpl. rewrite He. by eexists.
    + destruct (tb_entries t !! k) as [[sid e]|] eqn:Ek; [|by intros []]. intros _. exists (sid, k).
      split; [done|]. apply elem_of_wrap_from. by eapply ti_entry.
Qed.
End table.

(** ** Two-phase completion slots *)
Section operations.
Context {R : Type}.

Inductive OperationSlot :=
| OperationSlot_Retained (r : R)
| OperationSlot_Completing.

Record Operations : Type := mkOperations {
  slots : gmap N OperationSlot;
  completing : N;
}.

Definition operations_default : Operations := mkOperations ∅ 0.

(** [Operations::insert]. *)
Definition operations_insert (o : Operations) (id : N) (resources : R) : option Operations :=
  let slots' := <[id := OperationSlot_Retained resources]> (slots o) in
  match slots o !! id with
  | Some OperationSlot_Completing => mkOperations slots' <$> checked_sub (completing o) 1
  | _ => Some (mkOperations slots' (completing o))
  end.

(** [Operations::take]. *)
Definition operations_take (o : Operations) (id : N) : result R StaleError * Operations :=
  match slots o !! id with
  | None => (Err Stale, o)
  | Some slot =>
      let slots' := <[id := OperationSlot_Completing]> (slots o) in
      match slot with
      | OperationSlot_Retained resources => (Ok resources, mkOperations slots' (completing o + 1))
      | OperationSlot_Completing => (Err Stale, mkOperations slots' (completing o))
      end
  end.

(** [Operations::complete]. *)
Definition operations_complete (o : Operations) (id : N) : option (result () StaleError * Operations) :=
  match slots o !! id with
  | Some OperationSlot_Completing =>
      (λ c, (Ok (), mkOperations (delete id (slots o)) c)) <$> checked_sub (completing o) 1
  | _ => Some (Err Stale, o)
  end.

Inductive OperationsOp :=
| OOp_Insert (id : N) (r : R)
| OOp_Take (id : N)
| OOp_Complete (id : N).

Definition operations_step (o : option Operations) (op : OperationsOp) : option Operations :=
  o ← o;
  match op with
  | OOp_Insert id r => operations_insert o id r
  | OOp_Take id => Some (operations_take o id).2
  | OOp_Complete id => snd <$> operations_complete o id
  end.

Definition operations_run (o : Operations) (ops : list OperationsOp) : option Operations :=
  foldl operations_step (Some o) ops.

Definition tombstone (s : OperationSlot) : N :=
  match s with OperationSlot_Completing => 1 | OperationSlot_Retained _ => 0 end.

Definition tombstones (o : Operations) : N := map_sum tombstone (slots o).

Definition releases (id : N) (op : OperationsOp) : Prop :=
  match op with OOp_Insert i _ | OOp_Complete i => i = id | OOp_Take _ => False end.

Lemma map_sum_insert_any (m : gmap N OperationSlot) id s :
  (map_sum tombstone (<[id := s]> m) + default 0 (tombstone <$> m !! id) =
   map_sum tombstone m + tombstone s)%N.
Proof.
  destruct (m !! id) as [x|] eqn:Em; simpl.
  - rewrite (map_sum_lookup tombstone m id x Em).
    rewrite (map_sum_lookup tombstone (<[id := s]> m) id s) by apply lookup_insert_eq.
    rewrite delete_insert_eq. lia.
  - rewrite map_sum_insert_new by done. lia.
Qed.

Lemma operations_step_spec o op :
  completing o = tombstones o →
  ∃ o', operations_step (Some o) op = Some o' ∧ completing o' = tombstones o' ∧
    ∀ id, slots o !! id = Some OperationSlot_Completing → ¬ releases id op →
          slots o' !! id = Some OperationSlot_Completing.
Proof.
  intros Hc. unfold tombstones in Hc. destruct op as [i r|i|i]; simpl.
  - pose proof (map_sum_insert_any (slots o) i (OperationSlot_Retained r)) as Hm.
    unfold operations_insert, checked_sub. destruct (slots o !! i) as [[x|]|] eqn:Es; simpl in Hm.
    2: rewrite (proj2 (N.leb_le 1 (completing o))) by lia.
    all: eexists; (split; [reflexivity|]); (split; [unfold tombstones; simpl; lia|]).
    all: intros id Hid Hr; simpl; by rewrite lookup_insert_ne by naive_solver.
  - pose proof (map_sum_insert_any (slots o) i OperationSlot_Completing) as Hm.
    unfold operations_take. destruct (slots o !! i) as [[x|]|] eqn:Es; simpl in Hm; [| |by exists o].
    all: eexists; (split; [reflexivity|]); (split; [unfold tombstones; simpl; lia|]).
    all: intros id Hid Hr; simpl; destruct (decide (i = id)) as [->|];
      [by rewrite lookup_insert_eq|by rewrite lookup_insert_ne].
  - unfold operations_complete, checked_sub. destruct (slots o !! i) as [[x|]|] eqn:Es; [by exists o| |by exists o].
    pose proof (map_sum_lookup tombstone (slots o) i _ Es) as Hm. simpl in Hm.
    rewrite (proj2 (N.leb_le 1 (completing o))) by lia.
    eexists. split; [reflexivity|]. split; [unfold tombstones; simpl; lia|].
    intros id Hid Hr. simpl. by rewrite lookup_delete_ne by naive_solver.
Qed.

Lemma operations_run_spec o ops :
  completing o = tombstones o →
  ∃ o', operations_run o ops = Some o' ∧ completing o' = tombstones o' ∧
    ∀ id, slots o !! id = Some OperationSlot_Completing → Forall (λ op, ¬ releases id op) ops →
          slots o' !! id = Some OperationSlot_Completing.
Proof.
  revert o. induction ops as [|op ops IH]; intros o Hc; [by exists o|].
  destruct (operations_step_spec o op Hc) as (o1 & E1 & Hc1 & Hk1).
  destruct (IH o1 Hc1) as (o2 & E2 & Hc2 & Hk2). exists o2. unfold operations_run in *. cbn [foldl].
  rewrite E1. split_and!; [done|done|]. intros id Hid [Hr Hrs]%Forall_cons. by apply Hk2; [apply Hk1|].
Qed.

(** The destruction fence.  Whatever the sequence of inserts, takes and completions, the
    slots never underflow their count of unfinished completions, which equals the number of
    tombstones; and a slot whose resources were taken refuses a second take and stays
    occupied until that slot is completed (or replaced), whatever happens to the others. *)
Theorem operations_fence ops id :
  ∃ o, operations_run operations_default ops = Some o ∧ completing o = tombstones o ∧
    (slots o !! id = Some OperationSlot_Completing →
     (operations_take o id).1 = Err Stale ∧
     ∀ ops', Forall (λ op, ¬ releases id op) ops' →
       ∃ o', operations_run o ops' = Some o' ∧ slots o' !! id = Some OperationSlot_Completing).
Proof.
  destruct (operations_run_spec operations_default ops) as (o & E & Hc & _); [done|].
  exists o. split_and!; [done|done|]. intros Hid. split.
  - unfold operations_take. by rewrite Hid.
  - intros ops' Hr. destruct (operations_run_spec o ops' Hc) as (o' & E' & _ & Hk). exists o'.
    split; [done|]. by apply Hk.
Qed.
End operations.

Section table_witness.

(** An entry counts down and is quiescent at zero; the world counts refreshes. *)
Definition count_down (e : nat) (wakes : list N) (env : nat) : nat * list N * nat := (pred e, wakes, S env).

Definition at_zero (e : nat) : bool := Nat.eqb e 0.

Definition insert_or (t : @Table N nat N _ _) (p : N * nat) : @Table N nat N _ _ :=
  match table_insert t p.1 p.2 with Some (_, t') => t' | None => t end.

(** Three flights, one refresh short of quiescence or more. *)
Definition three_flights : @Table N nat N _ _ :=
  foldl insert_or table_default [(7%N, 1); (8%N, 2); (9%N, 1)].

Lemma three_flights_reach : table_reach count_down at_zero three_flights.
Proof.
  unfold three_flights. cbn [foldl].
  assert (∀ t p, table_reach count_down at_zero t → table_reach count_down at_zero (insert_or t p)) as Hi.
  { intros t p Ht. unfold insert_or. destruct (table_insert t p.1 p.2) as [[r t']|] eqn:Ei; [|done].
    by eapply treach_insert. }
  repeat apply Hi. apply treach_default.
Qed.

Lemma table_insert_total_witness :
  ∃ t', table_insert three_flights 4%N 5 = Some (Ok (), t') ∧ size (view t') = 4.
Proof.
  pose proof (table_insert_total count_down at_zero three_flights 4%N 5 three_flights_reach eq_refl) as Hi.
  destruct (tb_entries three_flights !! 4%N) eqn:Ek; [vm_compute in Ek; discriminate|].
  destruct Hi as (t' & Hins & _ & Hv). exists t'. split; [done|]. rewrite Hv. reflexivity.
Defined.

Lemma sweep_visits_in_order_witness :
  view (table_sweep count_down at_zero 2 three_flights [] 0).1.1.1 = {[8%N := 1; 9%N := 1]}.
Proof.
  pose proof (sweep_visits_in_order count_down at_zero 2 three_flights [] 0 three_flights_reach) as Hs.
  destruct (table_sweep _ _ _ _ _ _) as [[[t' removed] wakes'] env'].
  destruct Hs as (_ & _ & wakes1 & Hf & _). cbn [fst].
  pose proof (f_equal (λ x, x.1.1.1) Hf) as Hv. cbn [fst] in Hv. rewrite <- Hv. reflexivity.
Defined.
End table_witness.
