(* ===== verification/PageFlights.v ===== *)
(** * Page flights

    The rules that pages add to the flights of [FlightState], and the table of page flights of
    a driver without I/O, from [cmd/racer/core/src/read/flight.rs].  The clock cell the waiters
    share is the world of their policies; wakes are tokens appended to a list.  The rules are
    generic in the error type [E] over the errors of the read path, given by [from_error], and
    in the policy of the waiters; the table fixes both.  A panic is [None]. *)

From S2P Require Import Prelude Budget ReadRules FlightState.
Local Open Scope N_scope.

Record FlightLimits := mkFlightLimits {
  fli_entries : nat;
  fli_waiters_per_flight : nat;
  fli_operations_per_flight : nat;
  fli_generations_per_flight : N
}.

(** [FlightLimits::default]. *)
Definition flight_limits_default : FlightLimits := mkFlightLimits 1024 256 64 1024.

Definition join_budget_gate (now deadline attempts : N) (partial : bool) : result () Error :=
  if deadline <=? now then Err Error_DeadlineExceeded
  else if (attempts =? 0) && negb partial then Err Error_Unavailable
  else Ok ().

Definition entry_cap_gate (entries : nat) (limits : FlightLimits) : result () Error :=
  if (fli_entries limits <=? entries)%nat then Err Error_Overloaded else Ok ().

Inductive Settled (C P : Type) :=
| Settled_Complete (result : C)
| Settled_Partial (partial : P).
Arguments Settled_Complete {C P} result.
Arguments Settled_Partial {C P} partial.

Inductive JoinReject (E : Type) :=
| JoinReject_Failed (error : E)
| JoinReject_WaiterCap.
Arguments JoinReject_Failed {E} error.
Arguments JoinReject_WaiterCap {E}.

(** [JoinReject::error]. *)
Definition join_reject_error {E} (from_error : Error → E) (r : JoinReject E) : E :=
  match r with
  | JoinReject_Failed error => error
  | JoinReject_WaiterCap => from_error Error_Overloaded
  end.

Inductive CopyJoin (C P : Type) :=
| CopyJoin_Miss
| CopyJoin_Settled (s : Settled C P)
| CopyJoin_Register.
Arguments CopyJoin_Miss {C P}.
Arguments CopyJoin_Settled {C P} s.
Arguments CopyJoin_Register {C P}.

Inductive Wait (C P E : Type) :=
| Wait_Lead
| Wait_Ready (s : Settled C P)
| Wait_Failed (e : E)
| Wait_Pending.
Arguments Wait_Lead {C P E}.
Arguments Wait_Ready {C P E} s.
Arguments Wait_Failed {C P E} e.
Arguments Wait_Pending {C P E}.

Definition HANDOVER_SPANS : N := 4.

Definition handover_ceiling (now leader_deadline : N) (handover : bool) : N :=
  if negb handover then leader_deadline
  else let span := leader_deadline - now in leader_deadline + span * HANDOVER_SPANS.

(** ** Steps of one flight *)

Section rules.
Context {C P O E W T Env : Type} `{EqDecision E}.
Variable from_error : Error → E.
Variable deadline : W → N.
Variable check : Env → W → option E * Env.
Variable clock_now : Env → N * Env.
Variable split : O → Published C P.

#[local] Notation State := (@State C P O E W T).
#[local] Notation Effects := (@Effects T Env).
Implicit Types (s : State) (fx : Effects).

Definition join_existing s (plaintext : bool) (limits : FlightLimits) : result (option (Settled C P)) (JoinReject E) :=
  match phase s with
  | Phase_Complete c => Ok (Some (Settled_Complete c))
  | _ =>
      match (if negb plaintext then partial s else None) with
      | Some p => Ok (Some (Settled_Partial p))
      | None =>
          match phase s with
          | Phase_Failed error => Err (JoinReject_Failed error)
          | _ => if (fli_waiters_per_flight limits <=? size (waiters s))%nat then Err JoinReject_WaiterCap else Ok None
          end
      end
  end.

Definition join_copy_existing s (limits : FlightLimits) : result (CopyJoin C P) E :=
  match phase s with
  | Phase_Complete c => Ok (CopyJoin_Settled (Settled_Complete c))
  | _ =>
      match partial s with
      | Some p => Ok (CopyJoin_Settled (Settled_Partial p))
      | None =>
          match phase s with
          | Phase_Failed _ | Phase_Draining _ => Ok CopyJoin_Miss
          | _ => if (fli_waiters_per_flight limits <=? size (waiters s))%nat then Err (from_error Error_Overloaded)
                 else Ok CopyJoin_Register
          end
      end
  end.

(** [refresh]. *)
Definition page_refresh s (idle : bool) fx : State * Effects :=
  refresh deadline check clock_now split s idle (from_error Error_Unavailable) (from_error Error_Cancelled) fx.

(** [settle]. *)
Definition page_settle s (idle : bool) (wakes : list T) : State * list T :=
  flight_settle split s idle (from_error Error_Unavailable) wakes.

(** [park] storing the wake target of a waiter. *)
Definition park s (id : N) (t : T) : State :=
  with_waiters s (alter (with_waker (Some t)) id (waiters s)) (deadlines s).

Definition wait s (id : N) (identity : Identity) (generations budget_deadline attempts : N) (idle : bool) (t : T) fx :
    option (Wait C P E * (State * Identity * Effects)) :=
  match waiters s !! id with
  | None => None
  | Some w => Some
      (match w_error w with
       | Some error => (Wait_Failed error, (s, identity, fx))
       | None =>
           match phase s with
           | Phase_Complete c => (Wait_Ready (Settled_Complete c), (s, identity, fx))
           | _ =>
               match (if negb (w_complete w) then partial s else None) with
               | Some p => (Wait_Ready (Settled_Partial p), (s, identity, fx))
               | None =>
                   match phase s with
                   | Phase_Failed error => (Wait_Failed error, (s, identity, fx))
                   | Phase_RetryPending =>
                       if w_issued w then (Wait_Pending, (park s id t, identity, fx))
                       else
                         let '(now, env) := clock_now fx.2 in
                         let fx := (fx.1, env) in
                         if (budget_deadline <=? now) || ((attempts =? 0) && negb (is_some (partial s))) then
                           let error := from_error (if attempts =? 0 then Error_Unavailable else Error_DeadlineExceeded) in
                           let '(s, fx) := page_refresh (cancel s id error) idle fx in
                           (Wait_Failed error, (s, identity, fx))
                         else
                           match elect s id identity generations with
                           | (Err _, (s, identity)) =>
                               let s := begin_completion s (FlightOutcome_Failed (from_error Error_Unavailable)) in
                               let '(s, wakes) := page_settle s idle fx.1 in
                               (Wait_Failed (from_error Error_Unavailable), (s, identity, (wakes, fx.2)))
                           | (Ok _, (s, identity)) => (Wait_Lead, (s, identity, fx))
                           end
                   | _ => (Wait_Pending, (park s id t, identity, fx))
                   end
               end
           end
       end)
  end.

Definition copy_wait s (id : N) (t : T) : option (option (result (Settled C P) E) * State) :=
  match waiters s !! id with
  | None => None
  | Some w => Some
      (match w_error w with
       | Some error => (Some (Err error), s)
       | None =>
           match phase s with
           | Phase_Failed error => (Some (Err error), s)
           | Phase_Complete c => (Some (Ok (Settled_Complete c)), s)
           | _ =>
               match partial s with
               | Some p => (Some (Ok (Settled_Partial p)), s)
               | None => (None, park s id t)
               end
           end
       end)
  end.

(** [publish]. *)
Definition page_publish s (page : O) (idle : bool) (wakes : list T) : State * list T :=
  page_settle (begin_completion s (FlightOutcome_Published page)) idle wakes.

(** The outcome [fail] settles on, with the caller's own error. *)
Definition fail_outcome s (caller : N) (failure : FailureKind E) : State * FlightOutcome O E :=
  match failure with
  | FailureKind_OriginRejected => (cancel s caller (from_error Error_OriginRejected), FlightOutcome_Retry)
  | FailureKind_OriginForbidden => (cancel s caller (from_error Error_OriginForbidden), FlightOutcome_Retry)
  | FailureKind_Terminal error =>
      (s, if handed_over s && (bool_decide (error = from_error Error_DeadlineExceeded) ||
                               bool_decide (error = from_error Error_Cancelled))
          then FlightOutcome_Retry else FlightOutcome_Failed error)
  end.

(** [fail]. *)
Definition page_fail s (caller : N) (failure : FailureKind E) (idle : bool) (wakes : list T) : State * list T :=
  let '(s, outcome) := fail_outcome s caller failure in
  let '(s, wakes) := notify (begin_completion s outcome) wakes in
  page_settle s idle wakes.
End rules.

(** ** The table *)

Inductive Reserve := Reserve_Waiter | Reserve_Flight.

Inductive Joined (C P : Type) :=
| Joined_Miss
| Joined_Settled (s : Settled C P)
| Joined_Waiter (id : N).
Arguments Joined_Miss {C P}.
Arguments Joined_Settled {C P} s.
Arguments Joined_Waiter {C P} id.

Section table.
Context {K C P O R Q : Type} `{Countable K}.

(** [Waiter<R>]: its charge is released when it is dropped. *)
Record PageWaiter := mkPageWaiter { pw_deadline : N; pw_charge : R }.

(** [WaiterPolicy::check] against the table's clock. *)
Definition page_check (now : N) (w : PageWaiter) : option Error * N :=
  (if pw_deadline w <=? now then Some Error_DeadlineExceeded else None, now).

Definition page_now (now : N) : N * N := (now, now).

#[local] Notation PageState := (@State C P O Error PageWaiter N).
#[local] Notation PageEffects := (@Effects N N).

Record PageFlight := mkPageFlight {
  pfl_state : PageState;
  pfl_identity : Identity;
  pfl_operations : N;
  pfl_charge : R
}.

(** [Flight::idle]. *)
Definition pfl_idle (f : PageFlight) : bool := pfl_operations f =? 0.

Record PageFlights := mkPageFlights {
  pf_flights : gmap K PageFlight;
  pf_limits : FlightLimits;
  pf_now : N;
  pf_next_id : N
}.

Variable split : O → Published C P.
(** The closure of a join that reserves charges, over its state [Q]. *)
Variable reserve : Q → Reserve → result R Error * Q.

Implicit Types (t : PageFlights) (f : PageFlight) (wakes : list N) (page : K).

Definition set_now t now : PageFlights := mkPageFlights (pf_flights t) (pf_limits t) now (pf_next_id t).
Definition set_flight t page f : PageFlights :=
  mkPageFlights (<[page := f]> (pf_flights t)) (pf_limits t) (pf_now t) (pf_next_id t).
Definition flight_with f (s : PageState) : PageFlight := mkPageFlight s (pfl_identity f) (pfl_operations f) (pfl_charge f).

(** [PageFlights::new]. *)
Definition page_flights_new (limits : FlightLimits) (now : N) : PageFlights := mkPageFlights ∅ limits now 0.

(** [waiters]. *)
Definition page_waiters t page : nat :=
  match pf_flights t !! page with Some f => size (waiters (pfl_state f)) | None => 0%nat end.

(** A refresh of one flight at the table's time. *)
Definition refresh_flight (now : N) f wakes : PageFlight * list N :=
  let '(s, fx) := page_refresh id pw_deadline page_check page_now split (pfl_state f) (pfl_idle f) (wakes, now) in
  (flight_with f s, fx.1).

(** [refreshed]. *)
Definition refreshed t page wakes : option PageFlight * (PageFlights * list N) :=
  match pf_flights t !! page with
  | None => (None, (t, wakes))
  | Some f => let '(f, wakes) := refresh_flight (pf_now t) f wakes in (Some f, (set_flight t page f, wakes))
  end.

(** [waiter]. *)
Definition take_id t : N * PageFlights :=
  (pf_next_id t, mkPageFlights (pf_flights t) (pf_limits t) (pf_now t) (pf_next_id t + 1)).

Definition new_flight (charge : R) : PageFlight := mkPageFlight state_default (mkIdentity 0 0 0) 0 charge.

(** The part of [join] after the gates of an existing flight. *)
Definition join_register t page (deadline attempts : N) (plaintext partial : bool) (q : Q) :
    result (Joined C P) Error * (PageFlights * Q) :=
  match join_budget_gate (pf_now t) deadline attempts partial with
  | Err e => (Err e, (t, q))
  | Ok _ =>
      match reserve q Reserve_Waiter with
      | (Err e, q) => (Err e, (t, q))
      | (Ok charge, q) =>
          let '(id, t) := take_id t in
          let enter t f q :=
            (Ok (Joined_Waiter id),
             (set_flight t page (flight_with f (register pw_deadline (pfl_state f) id (mkPageWaiter deadline charge) true plaintext)), q)) in
          match pf_flights t !! page with
          | Some f => enter t f q
          | None =>
              match entry_cap_gate (size (pf_flights t)) (pf_limits t) with
              | Err e => (Err e, (t, q))
              | Ok _ =>
                  match reserve q Reserve_Flight with
                  | (Err e, q) => (Err e, (t, q))
                  | (Ok charge, q) => enter t (new_flight charge) q
                  end
              end
          end
      end
  end.

(** [join]. *)
Definition page_join t page (now deadline attempts : N) (plaintext : bool) (q : Q) wakes :
    result (Joined C P) Error * (PageFlights * Q * list N) :=
  let '(existing, (t, wakes)) := refreshed (set_now t now) page wakes in
  let go partial := let '(r, (t, q)) := join_register t page deadline attempts plaintext partial q in (r, (t, q, wakes)) in
  match existing with
  | None => go false
  | Some f =>
      match join_existing (pfl_state f) plaintext (pf_limits t) with
      | Err reject => (Err (join_reject_error id reject), (t, q, wakes))
      | Ok (Some settled) => (Ok (Joined_Settled settled), (t, q, wakes))
      | Ok None => go (is_some (partial (pfl_state f)))
      end
  end.

(** [join_copy]. *)
Definition page_join_copy t page (now deadline : N) (q : Q) wakes : result (Joined C P) Error * (PageFlights * Q * list N) :=
  let '(existing, (t, wakes)) := refreshed (set_now t now) page wakes in
  match existing with
  | None => (Ok Joined_Miss, (t, q, wakes))
  | Some f =>
      match join_copy_existing id (pfl_state f) (pf_limits t) with
      | Err e => (Err e, (t, q, wakes))
      | Ok CopyJoin_Miss => (Ok Joined_Miss, (t, q, wakes))
      | Ok (CopyJoin_Settled settled) => (Ok (Joined_Settled settled), (t, q, wakes))
      | Ok CopyJoin_Register =>
          match reserve q Reserve_Waiter with
          | (Err e, q) => (Err e, (t, q, wakes))
          | (Ok charge, q) =>
              let '(id, t) := take_id t in
              (Ok (Joined_Waiter id),
               (set_flight t page (flight_with f (register pw_deadline (pfl_state f) id (mkPageWaiter deadline charge) false false)),
                q, wakes))
          end
      end
  end.

(** The part of [poll] after the checks of the waiter, on its refreshed flight. *)
Definition poll_flight f (id now deadline attempts : N) (copy : bool) (generations token : N) wakes :
    option (Wait C P Error * (PageFlight * list N)) :=
  let idle := pfl_idle f in
  let '(f, wakes) := refresh_flight now f wakes in
  if copy then
    match copy_wait (pfl_state f) id token with
    | None => None
    | Some (r, s) =>
        Some (match r with None => Wait_Pending | Some (Ok settled) => Wait_Ready settled | Some (Err e) => Wait_Failed e end,
              (flight_with f s, wakes))
    end
  else
    match wait Datatypes.id pw_deadline page_check page_now split (pfl_state f) id (pfl_identity f) generations deadline attempts idle
            token (wakes, now) with
    | None => None
    | Some (r, (s, identity, fx)) => Some (r, (mkPageFlight s identity (pfl_operations f) (pfl_charge f), fx.1))
    end.

(** [poll]. *)
Definition page_poll t page (id now attempts token : N) wakes : option (result (Wait C P Error) Error * (PageFlights * list N)) :=
  let t := set_now t now in
  match pf_flights t !! page with
  | None => Some (Err Error_Internal, (t, wakes))
  | Some f =>
      match waiters (pfl_state f) !! id with
      | None => Some (Err Error_Internal, (t, wakes))
      | Some w =>
          let deadline := pw_deadline (w_policy w) in
          if bool_decide (w_error w = Some Error_Cancelled) then Some (Ok (Wait_Failed Error_Cancelled), (t, wakes))
          else if deadline <=? now then
            let f := flight_with f (cancel (pfl_state f) id Error_DeadlineExceeded) in
            let '(f, wakes) := refresh_flight now f wakes in
            Some (Ok (Wait_Failed Error_DeadlineExceeded), (set_flight t page f, wakes))
          else
            match poll_flight f id now deadline attempts (negb (w_acquisition w)) (fli_generations_per_flight (pf_limits t)) token wakes with
            | None => None
            | Some (r, (f, wakes)) => Some (Ok r, (set_flight t page f, wakes))
            end
      end
  end.

(** [leader]: the refreshed flight [id] leads. *)
Definition led_flight t page (id : N) wakes : result PageFlight Error * (PageFlights * list N) :=
  let '(existing, (t, wakes)) := refreshed t page wakes in
  match existing with
  | None => (Err Error_Internal, (t, wakes))
  | Some f => (if is_ok (validate_leader (pfl_state f) id true) then Ok f else Err Error_Internal, (t, wakes))
  end.

(** [finish]. *)
Definition page_finish t page (id : N) (r : result O (FailureKind Error)) wakes : result () Error * (PageFlights * list N) :=
  let '(led, (t, wakes)) := led_flight t page id wakes in
  match led with
  | Err e => (Err e, (t, wakes))
  | Ok f =>
      let idle := pfl_idle f in
      let '(s, wakes) :=
        match r with
        | Ok o => page_publish Datatypes.id split (pfl_state f) o idle wakes
        | Err failure => page_fail Datatypes.id split (pfl_state f) id failure idle wakes
        end in
      (Ok (), (set_flight t page (flight_with f s), wakes))
  end.

(** [allow_handover]. *)
Definition page_allow_handover t page (id : N) wakes : result () Error * (PageFlights * list N) :=
  let '(led, (t, wakes)) := led_flight t page id wakes in
  match led with
  | Err e => (Err e, (t, wakes))
  | Ok f => (Ok (), (set_flight t page (flight_with f (allow_handover (pfl_state f))), wakes))
  end.

(** [leader_deadline], [acquiring], [handed_over] and [is_leader]. *)
Definition page_leader_deadline t page : option N :=
  pf_flights t !! page ≫= λ f, leader_deadline pw_deadline (pfl_state f).
Definition page_acquiring t page : bool :=
  match pf_flights t !! page with Some f => acquiring (pfl_state f) | None => false end.
Definition page_handed_over t page : bool :=
  match pf_flights t !! page with Some f => handed_over (pfl_state f) | None => false end.
Definition page_is_leader t page (id : N) : bool :=
  match pf_flights t !! page with Some f => is_ok (validate_leader (pfl_state f) id true) | None => false end.

(** [retain_operation]. *)
Definition page_retain t page (id : N) wakes : result () Error * (PageFlights * list N) :=
  let '(led, (t, wakes)) := led_flight t page id wakes in
  match led with
  | Err e => (Err e, (t, wakes))
  | Ok f => (Ok (), (set_flight t page (mkPageFlight (pfl_state f) (pfl_identity f) (pfl_operations f + 1) (pfl_charge f)), wakes))
  end.

(** [remove_quiescent]. *)
Definition drop_quiescent t page : PageFlights :=
  match pf_flights t !! page with
  | Some f =>
      if (size (waiters (pfl_state f)) =? 0)%nat && pfl_idle f
      then mkPageFlights (delete page (pf_flights t)) (pf_limits t) (pf_now t) (pf_next_id t) else t
  | None => t
  end.

(** [complete_operation]. *)
Definition page_complete t page wakes : result () Error * (PageFlights * list N) :=
  match pf_flights t !! page with
  | None => (Err Error_Internal, (t, wakes))
  | Some f =>
      match checked_sub (pfl_operations f) 1 with
      | None => (Err Error_Internal, (t, wakes))
      | Some n =>
          let '(f, wakes) := refresh_flight (pf_now t) (mkPageFlight (pfl_state f) (pfl_identity f) n (pfl_charge f)) wakes in
          let '(s, wakes) := notify (pfl_state f) wakes in
          (Ok (), (drop_quiescent (set_flight t page (flight_with f s)) page, wakes))
      end
  end.

(** [abandon]. *)
Definition page_abandon t page (id : N) wakes : PageFlights * list N :=
  match pf_flights t !! page with
  | None => (t, wakes)
  | Some f =>
      if is_ok (validate_leader (pfl_state f) id true) then
        let '(s, wakes) := revoke (pfl_state f) Error_Cancelled wakes in
        let '(s, wakes) := page_settle Datatypes.id split s (pfl_idle f) wakes in
        (set_flight t page (flight_with f s), wakes)
      else (t, wakes)
  end.

(** [cancel]. *)
Definition page_cancel t page (id : N) wakes : PageFlights * list N :=
  match pf_flights t !! page with
  | None => (t, wakes)
  | Some f => (refreshed (set_flight t page (flight_with f (cancel (pfl_state f) id Error_Cancelled))) page wakes).2
  end.

(** [detach]. *)
Definition page_detach t page (id : N) wakes : PageFlights * list N :=
  match pf_flights t !! page with
  | None => (t, wakes)
  | Some f =>
      let '(t, wakes) := (refreshed (set_flight t page (flight_with f (detach pw_deadline (pfl_state f) id))) page wakes).2 in
      (drop_quiescent t page, wakes)
  end.

(** [refresh]. *)
Definition page_refresh_at t page (now : N) wakes : PageFlights * list N := (refreshed (set_now t now) page wakes).2.
End table.

Arguments PageWaiter : clear implicits.
Arguments PageFlight : clear implicits.
Arguments PageFlights _ _ _ _ _ {_ _}.
