(* ===== verification/PageFlightRuns.v ===== *)
(** * Runs of the page flights

    Every operation of the table of [PageFlights] moves one flight by steps of [FlightRuns],
    with the idle flag the table reports for it; what those steps preserve holds in every
    reachable table. *)

From S2P Require Import Prelude Budget ReadRules FlightState FlightRuns PageFlights.
Local Open Scope N_scope.

(** ** Steps of one flight *)

Section steps.
Context {C P O E W T Env : Type}.
Variable deadline : W → N.
Variable check : Env → W → option E * Env.
Variable clock_now : Env → N * Env.
Variable split_published : O → Published C P.

#[local] Notation FState := (@State C P O E W T).
#[local] Notation FFlight := (@Flight C P O E W T Env).
#[local] Notation fstep := (flight_step deadline check clock_now split_published).
Implicit Types (s : FState) (f : FFlight) (op : @FlightOp O E W T Env).

(** A waiter without an error has a result to collect, or the turn to lead. *)
Definition wait_ready s (w : @Waiter E W T) : bool :=
  match phase s with
  | Phase_Complete _ | Phase_Failed _ => true
  | Phase_RetryPending => w_acquisition w && negb (w_issued w)
  | _ => false
  end || (is_some (partial s) && negb (w_complete w)).

Definition parked_ok s : Prop := ∀ id w, waiters s !! id = Some w → w_error w = None → is_Some (w_waker w) → wait_ready s w = false.

(** The invariant of a flight whose retained operations are [idle]. *)
Record core (used : list N) (gens : N) (idle : bool) f : Prop := {
  co_inv : flight_inv deadline used (fl_state f);
  co_busy : idle = false → busy (fl_state f) = true;
  co_gens : generation (fl_identity f) ≤ gens;
  co_parked : parked_ok (fl_state f)
}.

Definition keeps_ids s s' : Prop := ∀ id, is_Some (waiters s !! id) ↔ is_Some (waiters s' !! id).

(** Wakes accumulate, and a stored wake target is kept or enqueued. *)
Definition keeps_wakes s (ws : list T) s' (ws' : list T) : Prop :=
  (∀ t, t ∈ ws → t ∈ ws') ∧
  ∀ id w t, waiters s !! id = Some w → w_waker w = Some t → t ∈ ws' ∨ ∃ w', waiters s' !! id = Some w' ∧ w_waker w' = Some t.

Lemma conserves_keeps s ws s' ws' : conserves s ws s' ws' → keeps_ids s s' ∧ keeps_wakes s ws s' ws'.
Proof.
  intros [Hw Hk Hn]. split; [|done]. intros id. specialize (Hk id). destruct Hk; [|done]. by split; eauto.
Qed.

Lemma parked_notified s : all_notified s → parked_ok s.
Proof. intros Hn id w Hw _ [t Ht]. by rewrite (Hn id w Hw) in Ht. Qed.

Lemma parked_drifts s fx s' fx' : drifts (Env := Env) s fx s' fx' → parked_ok s → parked_ok s'.
Proof.
  intros Hd Hp id w' Hw' He Hk. destruct (drifts_lookup _ _ _ _ id w' Hd Hw') as (w & Hw & Ha).
  destruct Ha as (Hpol & Hacq & Hcom & Hiss & Herr & Hwk). rewrite (Hwk He) in Hk.
  assert (Hew : w_error w = None) by (destruct (w_error w) as [e|]; [by rewrite (Herr e) in He|done]).
  pose proof (Hp id w Hw Hew Hk) as Hr. unfold wait_ready in *.
  by rewrite (dr_phase _ _ _ _ Hd), (dr_partial _ _ _ _ Hd), Hacq, Hcom, Hiss.
Qed.

(** A change of phase that offers nothing new. *)
Lemma parked_phase s s' : waiters s' = waiters s → partial s' = partial s → busy s' = true → parked_ok s → parked_ok s'.
Proof.
  intros Hw Hpa Hb Hp id w Hid He Hk. rewrite Hw in Hid. pose proof (Hp id w Hid He Hk) as Hr. unfold wait_ready, busy in *. rewrite Hpa.
  apply orb_false_iff in Hr as [_ Hr]. rewrite Hr. by destruct (phase s').
Qed.

Lemma parked_settle s idle unavailable ws : parked_ok s → parked_ok (flight_settle split_published s idle unavailable ws).1.
Proof.
  intros Hp. pose proof (settle_spec split_published s idle unavailable ws) as Hs.
  destruct (flight_settle _ _ _ _ _) as [s' ws']. destruct Hs as (_ & _ & [(-> & _)|(_ & _ & _ & _ & _ & _ & Hn)]); [done|].
  by apply parked_notified.
Qed.

Lemma parked_refresh s idle unavailable canceled fx : parked_ok s →
  parked_ok (refresh deadline check clock_now split_published s idle unavailable canceled fx).1.
Proof.
  intros Hp. rewrite refresh_unfold. pose proof (refresh_checks_drifts deadline check clock_now s fx) as H1.
  destruct (refresh_checks _ _ _ s fx) as [s1 fx1]. destruct H1 as [Hd1 _].
  pose proof (refresh_leader_spec deadline check s1 idle canceled fx1) as H2.
  destruct (refresh_leader deadline check s1 idle canceled fx1) as [s2 fx2]. destruct H2 as (_ & _ & _ & _ & Hcase).
  assert (Hp1 : parked_ok s1) by by eapply parked_drifts.
  assert (Hp2 : parked_ok s2).
  { destruct Hcase as [[_ ->]|[(_ & Hd & _)|(_ & _ & _ & Hn)]]; [done|by eapply parked_drifts|by apply parked_notified]. }
  assert (Hp3 : parked_ok (refresh_settle split_published s2 idle unavailable fx2.1).1).
  { unfold refresh_settle. pose proof (parked_settle s2 idle unavailable fx2.1 Hp2) as Hs.
    destruct (flight_settle _ s2 _ _ _) as [s3 ws3]. simpl in Hs. destruct (phase s3); try done.
    destruct (_ && _); [|done]. apply parked_settle. by apply (parked_phase s3). }
  by destruct (refresh_settle _ s2 _ _ _) as [s3 ws3].
Qed.

(** The steps the table takes, with the flags it passes. *)
Definition step_ok (used : list N) (gens : N) (idle : bool) f op : Prop :=
  match op with
  | FOp_Register id _ _ _ => id ∉ used
  | FOp_Park id _ => ∀ w, waiters (fl_state f) !! id = Some w → wait_ready (fl_state f) w = false
  | FOp_Elect _ limit => limit = gens
  | FOp_Settle i _ | FOp_Refresh i _ _ => i = idle
  | FOp_Sweep | FOp_Stop _ => False
  | _ => True
  end.

Lemma advance_gens i gens : generation i ≤ gens → generation (identity_advance i gens).2 ≤ gens.
Proof.
  intros Hg. unfold identity_advance. destruct (N.leb_spec gens (generation i)); [done|]. unfold checked_add.
  destruct (_ <=? _); simpl; lia.
Qed.

Lemma step_gens used gens idle f op : core used gens idle f → step_ok used gens idle f op →
  generation (fl_identity (fstep f op)) ≤ gens.
Proof.
  intros Hc Hok. pose proof (co_gens _ _ _ _ Hc) as Hg.
  destruct op as [id p a c|id|id e|id t| |id limit| |id act o|id act e|e|i u|i u c|e|env]; simpl in *; try done; try by case_match.
  subst limit. pose proof (advance_gens (fl_identity f) gens Hg) as Ha. unfold elect.
  destruct (phase (fl_state f)); try done. destruct (waiters (fl_state f) !! id) as [w|]; [|done].
  destruct (eligible w); [|done]. by destruct (identity_advance _ _) as [[]].
Qed.

Lemma parked_alter s id (g : @Waiter E W T → @Waiter E W T) :
  (∀ w, waiters s !! id = Some w → w_error (g w) = None → is_Some (w_waker (g w)) → wait_ready s (g w) = false) →
  parked_ok s → parked_ok (with_waiters s (alter g id (waiters s)) (deadlines s)).
Proof.
  intros Hg Hp i w Hw He Hk. simpl in Hw. destruct (decide (id = i)) as [<-|Hne].
  - rewrite lookup_alter_eq in Hw. apply fmap_Some in Hw as (w0 & Hw0 & ->). by apply Hg.
  - rewrite lookup_alter_ne in Hw by done. by apply (Hp i).
Qed.

Lemma step_parked used gens idle f op : core used gens idle f → step_ok used gens idle f op → parked_ok (fl_state (fstep f op)).
Proof.
  intros Hc Hok. pose proof (co_parked _ _ _ _ Hc) as Hp.
  destruct op as [id p a c|id|id e|id t| |id limit| |id act o|id act e|e|i u|i u c|e|env]; simpl in *; try done.
  - intros i w Hw He Hk. simpl in Hw. apply lookup_insert_Some in Hw as [[_ <-]|[_ Hw]]; [by destruct Hk|by apply (Hp i)].
  - unfold detach. destruct (waiters (fl_state f) !! id) eqn:Ew; [|done]. intros i w' Hw He Hk.
    simpl in Hw. apply lookup_delete_Some in Hw as [_ Hw]. by apply (Hp i).
  - apply parked_alter; [by intros|done].
  - apply parked_alter; [|done]. intros w Hw _ _. exact (Hok w Hw).
  - unfold elect. destruct (phase (fl_state f)) eqn:Eph; try done. destruct (waiters (fl_state f) !! id) as [w|] eqn:Ew; [|done].
    destruct (eligible w); [|done]. destruct (identity_advance _ _) as [[] ident]; [|done]. simpl.
    intros i w' Hw He Hk. simpl in Hw. apply lookup_insert_Some in Hw as [[<- <-]|[_ Hw]]; simpl in *.
    + pose proof (Hp id w Ew He Hk) as Hr. unfold wait_ready in *. apply orb_false_iff in Hr as [_ Hr]. simpl. by rewrite Hr.
    + pose proof (Hp i w' Hw He Hk) as Hr. unfold wait_ready in *. apply orb_false_iff in Hr as [_ Hr]. simpl. by rewrite Hr.
  - unfold allow_handover. by destruct (acquiring (fl_state f)).
  - destruct (is_ok _); [|done]. by apply (parked_phase (fl_state f)).
  - destruct (is_ok _); [|done]. pose proof (revoke_spec (fl_state f) e (fl_effects f).1) as Hr.
    destruct (revoke _ _ _) as [s' ws']. apply parked_notified, Hr.
  - destruct (phase (fl_state f)); try done. by apply (parked_phase (fl_state f)).
  - by apply parked_settle.
  - by apply parked_refresh.
Qed.

Lemma core_step used gens idle f op : core used gens idle f → step_ok used gens idle f op →
  core (registered [op] ++ used) gens idle (fstep f op).
Proof.
  intros Hc Hok. split.
  - apply flight_inv_step; [apply Hc|]. intros id Hid. destruct op; try by apply elem_of_nil in Hid.
    apply list_elem_of_singleton in Hid as ->. exact Hok.
  - intros Hi. apply fence_step; [|by apply Hc]. destruct op; simpl in *; congruence || done.
  - by eapply step_gens.
  - by eapply step_parked.
Qed.

(** Who is attached and who is woken across a step that parks nobody. *)
Lemma step_keeps f op : match op with FOp_Register _ _ _ _ | FOp_Detach _ | FOp_Park _ _ | FOp_Sweep | FOp_Stop _ => False | _ => True end →
  keeps_ids (fl_state f) (fl_state (fstep f op)) ∧
  keeps_wakes (fl_state f) (fl_effects f).1 (fl_state (fstep f op)) (fl_effects (fstep f op)).1.
Proof.
  intros Hop. assert (Hsame : ∀ s', waiters s' = waiters (fl_state f) → keeps_ids (fl_state f) s' ∧
    keeps_wakes (fl_state f) (fl_effects f).1 s' (fl_effects f).1) by (intros s' Hw; by apply conserves_keeps, conserves_same).
  destruct op as [id p a c|id|id e|id t| |id limit| |id act o|id act e|e|i u|i u c|e|env]; simpl in *; try done; try by apply Hsame.
  - unfold keeps_ids, keeps_wakes. simpl. split_and!; [|done|].
    + intros i. destruct (decide (id = i)) as [<-|]; [by rewrite lookup_alter_eq, fmap_is_Some|by rewrite lookup_alter_ne].
    + intros i w t Hw Ht. right. destruct (decide (id = i)) as [<-|]; [|exists w; by rewrite lookup_alter_ne].
      exists (with_error (Some e) w). by rewrite lookup_alter_eq, Hw.
  - unfold elect. destruct (phase (fl_state f)); try by apply Hsame. destruct (waiters (fl_state f) !! id) as [w|] eqn:Ew; [|by apply Hsame].
    destruct (eligible w); [|by apply Hsame]. destruct (identity_advance _ _) as [[] ident]; [|by apply Hsame].
    unfold keeps_ids, keeps_wakes. simpl. split_and!; [|done|].
    + intros i. destruct (decide (id = i)) as [<-|]; [rewrite lookup_insert_eq, Ew; by split; eauto|by rewrite lookup_insert_ne].
    + intros i w' t Hw Ht. right. destruct (decide (id = i)) as [<-|]; [|exists w'; by rewrite lookup_insert_ne].
      rewrite Ew in Hw. injection Hw as ->. exists (with_issued true w'). by rewrite lookup_insert_eq.
  - unfold allow_handover. destruct (acquiring (fl_state f)); by apply Hsame.
  - destruct (is_ok _); by apply Hsame.
  - destruct (is_ok _); [|by apply Hsame]. pose proof (revoke_spec (fl_state f) e (fl_effects f).1) as Hr.
    destruct (revoke _ _ _) as [s' ws']. apply conserves_keeps, Hr.
  - destruct (phase (fl_state f)); by apply Hsame.
  - pose proof (settle_spec split_published (fl_state f) i u (fl_effects f).1) as Hr.
    destruct (flight_settle _ _ _ _ _) as [s' ws']. apply conserves_keeps, Hr.
  - pose proof (refresh_spec deadline check clock_now split_published (fl_state f) i u c (fl_effects f)) as Hr.
    destruct (refresh _ _ _ _ _ _ _ _ _) as [s' fx']. apply conserves_keeps, Hr.
Qed.

Lemma core_notify used gens idle f : core used gens idle f → core used gens idle (put_wakes f (notify (fl_state f) (fl_effects f).1)).
Proof.
  intros Hc. destruct (notify_spec (fl_state f) (fl_effects f).1) as (Hcv & Hn & _). split; simpl; try apply Hc.
  - eapply flight_inv_kin; [apply Hc|apply Hcv|done|by left|]. pose proof (fi_phase _ _ _ (co_inv _ _ _ _ Hc)) as Hph. simpl.
    destruct (phase (fl_state f)); try done. destruct Hph as (Hl & He & Hiss). split_and!; [done|done|]. intros id w Hid Hw.
    rewrite lookup_fmap in Hw. apply fmap_Some in Hw as (w0 & Hw0 & ->). by apply (Hiss id w0).
  - by apply parked_notified.
Qed.
End steps.

(** ** Flights of the table *)

Section flights.
Context {C P O R : Type}.
Variable split : O → Published C P.

#[local] Notation PFlight := (PageFlight C P O R).
#[local] Notation PState := (@State C P O Error (PageWaiter R) N).
#[local] Notation pstep := (flight_step pw_deadline page_check page_now split).
Implicit Types (f : PFlight) (s : PState) (ws : list N).

Definition as_flight f ws (now : N) : @Flight C P O Error (PageWaiter R) N N := mkFlight (pfl_state f) (pfl_identity f) (ws, now).

(** A flight whose waiters have identifiers below [next]. *)
Definition pcore (gens next : N) (idle : bool) s (i : Identity) : Prop :=
  ∃ used, (∀ id, id ∈ used → id < next) ∧ core (Env := N) pw_deadline used gens idle (mkFlight s i ([], 0)).

Definition flight_ok (limits : FlightLimits) (next : N) f : Prop :=
  pcore (fli_generations_per_flight limits) next (pfl_idle f) (pfl_state f) (pfl_identity f) ∧
  (size (waiters (pfl_state f)) ≤ Nat.max (fli_waiters_per_flight limits) 1)%nat.

Lemma core_effects used gens idle s i (fx fx' : @Effects N N) :
  core (Env := N) pw_deadline used gens idle (mkFlight s i fx) → core (Env := N) pw_deadline used gens idle (mkFlight (T := N) s i fx').
Proof. by intros []. Qed.

Lemma pcore_step gens next idle s i fx op s' i' fx' : pcore gens next idle s i → registered [op] = [] →
  (∀ used, step_ok used gens idle (mkFlight s i fx) op) → pstep (mkFlight s i fx) op = mkFlight s' i' fx' → pcore gens next idle s' i'.
Proof.
  intros (used & Hu & Hc) Hreg Hok Hs. exists used. split; [done|].
  apply (core_effects _ _ _ _ _ _ fx) in Hc. pose proof (core_step pw_deadline page_check page_now split _ _ _ _ op Hc (Hok used)) as Hc'.
  rewrite Hs, Hreg in Hc'. by eapply core_effects.
Qed.

Lemma pcore_mono gens next next' idle s i : next ≤ next' → pcore gens next idle s i → pcore gens next' idle s i.
Proof. intros Hn (used & Hu & Hc). exists used. split; [|done]. intros id Hid%Hu. lia. Qed.

Lemma pcore_idle gens next idle idle' s i : pcore gens next idle s i → (idle' = false → busy s = true) → pcore gens next idle' s i.
Proof. intros (used & Hu & []) Hb. exists used. by split. Qed.

Lemma pcore_busy gens next idle s i : pcore gens next idle s i → idle = false → busy s = true.
Proof. intros (used & _ & Hc). apply Hc. Qed.

Lemma pcore_parked gens next idle s i : pcore gens next idle s i → parked_ok s.
Proof. intros (used & _ & Hc). apply Hc. Qed.

Lemma keeps_ids_size s s' : keeps_ids s s' → size (waiters s') = size (waiters s).
Proof.
  intros Hk. rewrite <- !size_dom. apply set_size_proper. intros id. rewrite !elem_of_dom. symmetry. apply Hk.
Qed.

(** Wakes across an operation on a flight, [id0] being the waiter it is about. *)
Definition fkeeps (id0 : option N) s ws s' ws' : Prop :=
  (∀ t, t ∈ ws → t ∈ ws') ∧
  ∀ id w t, Some id ≠ id0 → waiters s !! id = Some w → w_waker w = Some t →
    t ∈ ws' ∨ ∃ w', waiters s' !! id = Some w' ∧ w_waker w' = Some t.

Lemma fkeeps_refl id0 s ws : fkeeps id0 s ws s ws.
Proof. split; [done|]. intros id w t _ Hw Ht. right. by exists w. Qed.

Lemma fkeeps_trans id0 s1 w1 s2 w2 s3 w3 : fkeeps id0 s1 w1 s2 w2 → fkeeps id0 s2 w2 s3 w3 → fkeeps id0 s1 w1 s3 w3.
Proof.
  intros [A1 B1] [A2 B2]. split; [by intros t ?%A1%A2|]. intros id w t Hid Hw Ht.
  destruct (B1 id w t Hid Hw Ht) as [?|(w' & ? & ?)]; [left; by apply A2|by apply (B2 id w' t)].
Qed.

Lemma keeps_fkeeps id0 s ws s' ws' : keeps_wakes s ws s' ws' → fkeeps id0 s ws s' ws'.
Proof. intros [A B]. split; [done|]. intros id w t _. apply B. Qed.

(** A step of the flight that neither attaches, detaches nor parks. *)
Lemma plain_step gens next idle s i fx op s' i' fx' id0 : pcore gens next idle s i →
  match op with FOp_Register _ _ _ _ | FOp_Detach _ | FOp_Park _ _ | FOp_Sweep | FOp_Stop _ => False | _ => True end →
  (∀ used, step_ok used gens idle (mkFlight s i fx) op) → pstep (mkFlight s i fx) op = mkFlight s' i' fx' →
  pcore gens next idle s' i' ∧ keeps_ids s s' ∧ fkeeps id0 s fx.1 s' fx'.1.
Proof.
  intros Hc Hop Hok Hs. split; [eapply pcore_step; [done| |done|done]; by destruct op|].
  pose proof (step_keeps pw_deadline page_check page_now split (mkFlight s i fx) op Hop) as [Hi Hw]. rewrite Hs in Hi, Hw. simpl in *.
  split; [done|by apply keeps_fkeeps].
Qed.

Lemma keeps_ids_trans s1 s2 s3 : keeps_ids s1 s2 → keeps_ids s2 s3 → keeps_ids s1 s3.
Proof. intros A B id. by rewrite (A id). Qed.

Lemma notify_step gens next idle s i ws id0 : pcore gens next idle s i →
  pcore gens next idle (notify s ws).1 i ∧ keeps_ids s (notify s ws).1 ∧ fkeeps id0 s ws (notify s ws).1 (notify s ws).2.
Proof.
  intros (used & Hu & Hc). destruct (notify_spec s ws) as (Hcv & _ & _). destruct (conserves_keeps _ _ _ _ Hcv) as [Hi Hw]. split_and!.
  - exists used. split; [done|]. apply (core_effects _ _ _ _ _ _ (ws, 0)), core_notify in Hc. by eapply core_effects.
  - done.
  - by apply keeps_fkeeps.
Qed.

Definition refreshed_state now s (idle : bool) ws : PState * list N :=
  let '(s, fx) := page_refresh id pw_deadline page_check page_now split s idle (ws, now) in (s, fx.1).

Lemma refresh_step gens next idle s i now ws id0 : pcore gens next idle s i →
  let '(s', ws') := refreshed_state now s idle ws in
  pcore gens next idle s' i ∧ keeps_ids s s' ∧ fkeeps id0 s ws s' ws' ∧
  ∀ id w, waiters s !! id = Some w → ∃ w', waiters s' !! id = Some w' ∧ w_acquisition w' = w_acquisition w.
Proof.
  intros Hc. unfold refreshed_state, page_refresh, id. destruct (refresh _ _ _ _ _ _ _ _ _) as [s' fx'] eqn:Hr.
  destruct (plain_step gens next idle s i (ws, now) (FOp_Refresh idle Error_Unavailable Error_Cancelled) s' i fx' id0 Hc I) as (H1 & H2 & H3);
    [done|simpl; by rewrite Hr|]. split_and!; try done.
  intros id w Hw. pose proof (refresh_spec pw_deadline page_check page_now split s idle Error_Unavailable Error_Cancelled (ws, now)) as Hsp.
  rewrite Hr in Hsp. destruct Hsp as (Hcv & _). pose proof (cv_kin _ _ _ _ Hcv id) as Hk. rewrite Hw in Hk.
  inversion Hk as [? w' (_ & Ha & _) E1 E2|]; subst. by exists w'.
Qed.

(** *** Joining and leaving *)

Lemma register_step gens next idle s i w acquisition complete : pcore gens next idle s i →
  pcore gens (next + 1) idle (register pw_deadline s next w acquisition complete) i ∧
  (∀ ws, fkeeps None s ws (register pw_deadline s next w acquisition complete) ws) ∧
  size (waiters (register pw_deadline s next w acquisition complete)) = S (size (waiters s)).
Proof.
  intros (used & Hu & Hc). assert (Hnew : next ∉ used) by (intros Hin%Hu; lia).
  assert (Hno : waiters s !! next = None).
  { destruct (waiters s !! next) as [w'|] eqn:Hw; [|done]. destruct Hnew. apply (fi_used _ _ _ (co_inv _ _ _ _ _ Hc)). left. simpl. by rewrite Hw. }
  split_and!.
  - exists (next :: used). split; [intros id [->|Hin%Hu]%elem_of_cons; lia|].
    apply (core_step pw_deadline page_check page_now split _ _ _ _ (FOp_Register next w acquisition complete)) in Hc; [|exact Hnew].
    exact Hc.
  - intros ws. split; [done|]. intros id w' t _ Hw Ht. right. exists w'. split; [|done]. simpl. rewrite lookup_insert_ne by congruence. done.
  - simpl. rewrite map_size_insert_None by done. done.
Qed.

Lemma detach_step gens next idle s i id : pcore gens next idle s i →
  pcore gens next idle (detach pw_deadline s id) i ∧ (∀ ws, fkeeps (Some id) s ws (detach pw_deadline s id) ws) ∧
  (size (waiters (detach pw_deadline s id)) ≤ size (waiters s))%nat.
Proof.
  intros Hc. split_and!.
  - eapply (pcore_step gens next idle s i ([], 0) (FOp_Detach id)); done.
  - intros ws. split; [done|]. intros id' w t Hid Hw Ht. right. exists w. split; [|done]. unfold detach.
    destruct (waiters s !! id); [|done]. simpl. rewrite lookup_delete_ne by congruence. done.
  - unfold detach. destruct (waiters s !! id); [|done]. simpl. apply map_subseteq_size, delete_subseteq.
Qed.

(** *** Polling *)

Lemma park_step gens next idle s i id (t : N) w : pcore gens next idle s i → waiters s !! id = Some w → wait_ready s w = false →
  pcore gens next idle (park s id t) i ∧ keeps_ids s (park s id t) ∧ ∀ ws, fkeeps (Some id) s ws (park s id t) ws.
Proof.
  intros Hc Hw Hr. split_and!.
  - eapply (pcore_step gens next idle s i ([], 0) (FOp_Park id t)); [done|done| |done]. intros used w' Hw'. simpl in *. by simplify_eq.
  - intros id'. unfold park. simpl. destruct (decide (id = id')) as [<-|]; [by rewrite lookup_alter_eq, fmap_is_Some|by rewrite lookup_alter_ne].
  - intros ws. split; [done|]. intros id' w' t' Hid Hw' Ht. right. exists w'. split; [|done]. simpl. rewrite lookup_alter_ne by congruence. done.
Qed.

(** What a poll that elects its caller leaves. *)
Definition leads s i id s' i' : Prop :=
  busy s = false ∧ generation i' = generation i + 1 ∧ phase s' = Phase_Acquiring ∧ leader s' = Some id ∧ elected s' = Some id.

Lemma elect_step gens next idle s i id w ws (now : N) : pcore gens next idle s i → phase s = Phase_RetryPending → waiters s !! id = Some w →
  eligible w = true →
  match elect s id i gens with
  | (Err _, (s', i')) => s' = s ∧ i' = i
  | (Ok _, (s', i')) => pcore gens next idle s' i' ∧ keeps_ids s s' ∧ fkeeps (Some id) s ws s' ws ∧ leads s i id s' i'
  end.
Proof.
  intros Hc Hp Hw He. pose proof (plain_step gens next idle s i (ws, now) (FOp_Elect id gens)) as Hst. simpl in Hst.
  unfold leads, elect in *. rewrite Hp, Hw, He in *. unfold identity_advance in *. destruct (gens <=? generation i); [done|].
  unfold checked_add in *. destruct (_ <=? U64_MAX); [|done].
  edestruct Hst as (H1 & H2 & H3); [done|done|done|reflexivity|]. split_and!; try done. unfold busy. by rewrite Hp.
Qed.

Lemma wait_step gens next idle s i id w (budget attempts token now : N) ws : pcore gens next idle s i → waiters s !! id = Some w →
  w_acquisition w = true →
  ∃ r s' i' fx', wait Datatypes.id pw_deadline page_check page_now split s id i gens budget attempts idle token (ws, now) = Some (r, (s', i', fx')) ∧
    pcore gens next idle s' i' ∧ keeps_ids s s' ∧ fkeeps (Some id) s ws s' fx'.1 ∧ (r = Wait_Lead → leads s i id s' i').
Proof.
  intros Hc Hw Ha. unfold wait. rewrite Hw.
  assert (Hsame : ∀ r : Wait C P Error, r ≠ Wait_Lead → ∃ r0 s' i' fx', Some (r, (s, i, (ws, now))) = Some (r0, (s', i', fx')) ∧
    pcore gens next idle s' i' ∧ keeps_ids s s' ∧ fkeeps (Some id) s ws s' fx'.1 ∧ (r0 = Wait_Lead → leads s i id s' i'))
    by (intros r Hr; do 4 eexists; split; [done|]; split_and!; [done|done|apply fkeeps_refl|done]).
  assert (Hpark : wait_ready s w = false → ∃ (r0 : Wait C P Error) s' i' fx', Some (Wait_Pending, (park s id token, i, (ws, now))) = Some (r0, (s', i', fx')) ∧
    pcore gens next idle s' i' ∧ keeps_ids s s' ∧ fkeeps (Some id) s ws s' fx'.1 ∧ (r0 = Wait_Lead → leads s i id s' i')).
  { intros Hr. destruct (park_step gens next idle s i id token w Hc Hw Hr) as (H1 & H2 & H3).
    do 4 eexists. split; [done|]. split_and!; [done|done|apply H3|done]. }
  destruct (w_error w) as [e|] eqn:He; [by apply Hsame|].
  assert (Hready : match phase s with Phase_Complete _ | Phase_Failed _ => true | Phase_RetryPending => negb (w_issued w) | _ => false end = false →
    (if negb (w_complete w) then partial s else None) = None → wait_ready s w = false).
  { intros Hph Hpa. unfold wait_ready. rewrite Ha. simpl. apply orb_false_iff. split; [by destruct (phase s)|].
    destruct (w_complete w); [by rewrite andb_false_r|]. simpl in Hpa. by rewrite Hpa. }
  destruct (phase s) as [| |o|c|e] eqn:Hp; try by apply Hsame.
  all: destruct (if negb (w_complete w) then partial s else None) as [p|] eqn:Hpart; [by apply Hsame|].
  all: try by apply Hsame.
  all: try by apply Hpark, Hready.
  destruct (w_issued w) eqn:Hi; [by apply Hpark, Hready|]. simpl.
  assert (Helig : eligible w = true) by (unfold eligible; by rewrite Ha, Hi, He).
  destruct (_ || _).
  - destruct (plain_step gens next idle s i (ws, now) (FOp_Cancel id (if attempts =? 0 then Error_Unavailable else Error_DeadlineExceeded))
      _ _ _ (Some id) Hc I ltac:(done) eq_refl) as (H1 & H2 & H3). simpl in *.
    pose proof (refresh_step gens next idle _ i now ws (Some id) H1) as Hr. unfold refreshed_state, page_refresh, Datatypes.id in *.
    destruct (refresh _ _ _ _ _ _ _ _ _) as [s' fx']. destruct Hr as (R1 & R2 & R3 & _).
    do 4 eexists. split; [done|]. split_and!; [done|by eapply keeps_ids_trans|by eapply fkeeps_trans|done].
  - pose proof (elect_step gens next idle s i id w ws now Hc Hp Hw Helig) as Hel. destruct (elect s id i gens) as [[b|x] [s1 i1]].
    + destruct Hel as (H1 & H2 & H3 & H4). do 4 eexists. split; [done|]. by split_and!.
    + destruct Hel as [-> ->].
      destruct (plain_step gens next idle s i (ws, now) (FOp_GiveUp Error_Unavailable) (begin_completion s (FlightOutcome_Failed Error_Unavailable))
        i (ws, now) (Some id) Hc I ltac:(done)) as (H1 & H2 & H3); [simpl; by rewrite Hp|].
      unfold page_settle, Datatypes.id. destruct (flight_settle _ _ _ _ _) as [s' ws'] eqn:Hst.
      destruct (plain_step gens next idle _ i (ws, now) (FOp_Settle idle Error_Unavailable) s' i (ws', now) (Some id) H1 I ltac:(done)) as (S1 & S2 & S3);
        [simpl; by rewrite Hst|].
      do 4 eexists. split; [done|]. split_and!; [done|exact (keeps_ids_trans _ _ _ H2 S2)|exact (fkeeps_trans _ _ _ _ _ _ _ H3 S3)|done].
Qed.

Lemma copy_wait_step gens next idle s i id w token ws : pcore gens next idle s i → waiters s !! id = Some w → w_acquisition w = false →
  ∃ r s', copy_wait s id token = Some (r, s') ∧ pcore gens next idle s' i ∧ keeps_ids s s' ∧ fkeeps (Some id) s ws s' ws.
Proof.
  intros Hc Hw Ha. unfold copy_wait. rewrite Hw.
  assert (Hsame : ∀ r : option (result (Settled C P) Error), ∃ r0 s', Some (r, s) = Some (r0, s') ∧ pcore gens next idle s' i ∧ keeps_ids s s' ∧
    fkeeps (Some id) s ws s' ws) by (intros r; do 2 eexists; split; [done|]; split_and!; [done|done|apply fkeeps_refl]).
  destruct (w_error w); [by apply Hsame|]. destruct (phase s) as [| |o|c|e] eqn:Hp; try by apply Hsame.
  all: destruct (partial s) as [p|] eqn:Hpa; [by apply Hsame|].
  all: destruct (park_step gens next idle s i id token w Hc Hw) as (H1 & H2 & H3); [unfold wait_ready; by rewrite Hp, Hpa, ?Ha|].
  all: do 2 eexists; split; [done|]; by split_and!.
Qed.

(** *** Outcomes *)

Lemma validate_acquiring s id : is_ok (validate_leader s id true) = true → acquiring s = true.
Proof. unfold validate_leader. by destruct (acquiring s). Qed.

Lemma settle_step gens next idle s i ws id0 : pcore gens next idle s i →
  let '(s', ws') := page_settle Datatypes.id split s idle ws in
  pcore gens next idle s' i ∧ keeps_ids s s' ∧ fkeeps id0 s ws s' ws'.
Proof.
  intros Hc. unfold page_settle, Datatypes.id. destruct (flight_settle _ _ _ _ _) as [s' ws'] eqn:Hst.
  apply (plain_step gens next idle s i (ws, 0) (FOp_Settle idle Error_Unavailable) s' i (ws', 0) id0 Hc I); [done|]. simpl. by rewrite Hst.
Qed.

Lemma begin_step gens next idle s i id o ws id0 : pcore gens next idle s i → is_ok (validate_leader s id true) = true →
  pcore gens next idle (begin_completion s o) i ∧ keeps_ids s (begin_completion s o) ∧ fkeeps id0 s ws (begin_completion s o) ws.
Proof.
  intros Hc Hv. apply (plain_step gens next idle s i (ws, 0) (FOp_Finish id true o) _ i (ws, 0) id0 Hc I); [done|]. simpl. by rewrite Hv.
Qed.

Lemma cancel_step gens next idle s i id e ws id0 : pcore gens next idle s i →
  pcore gens next idle (cancel s id e) i ∧ keeps_ids s (cancel s id e) ∧ fkeeps id0 s ws (cancel s id e) ws.
Proof. intros Hc. by apply (plain_step gens next idle s i (ws, 0) (FOp_Cancel id e) _ i (ws, 0) id0 Hc I). Qed.

Lemma fail_outcome_step gens next idle s i id failure ws id0 : pcore gens next idle s i → is_ok (validate_leader s id true) = true →
  let '(s', _) := fail_outcome Datatypes.id s id failure in
  pcore gens next idle s' i ∧ keeps_ids s s' ∧ fkeeps id0 s ws s' ws ∧ is_ok (validate_leader s' id true) = true.
Proof.
  intros Hc Hv. unfold fail_outcome. destruct failure.
  - destruct (cancel_step gens next idle s i id Error_OriginRejected ws id0 Hc) as (H1 & H2 & H3). by split_and!.
  - destruct (cancel_step gens next idle s i id Error_OriginForbidden ws id0 Hc) as (H1 & H2 & H3). by split_and!.
  - split_and!; [done|done|apply fkeeps_refl|done].
Qed.

Lemma finish_step gens next idle s i id (r : result O (FailureKind Error)) ws id0 : pcore gens next idle s i →
  is_ok (validate_leader s id true) = true →
  let '(s', ws') := match r with
    | Ok o => page_publish Datatypes.id split s o idle ws
    | Err failure => page_fail Datatypes.id split s id failure idle ws end in
  pcore gens next idle s' i ∧ keeps_ids s s' ∧ fkeeps id0 s ws s' ws'.
Proof.
  intros Hc Hv. destruct r as [o|failure].
  - unfold page_publish. destruct (begin_step gens next idle s i id (FlightOutcome_Published o) ws id0 Hc Hv) as (H1 & H2 & H3).
    pose proof (settle_step gens next idle _ i ws id0 H1) as Hs. destruct (page_settle _ _ _ _ _) as [s' ws'].
    destruct Hs as (S1 & S2 & S3). split_and!; [done|exact (keeps_ids_trans _ _ _ H2 S2)|exact (fkeeps_trans _ _ _ _ _ _ _ H3 S3)].
  - unfold page_fail. pose proof (fail_outcome_step gens next idle s i id failure ws id0 Hc Hv) as Hf.
    destruct (fail_outcome _ _ _ _) as [s1 o]. destruct Hf as (F1 & F2 & F3 & F4).
    destruct (begin_step gens next idle s1 i id o ws id0 F1 F4) as (H1 & H2 & H3).
    destruct (notify_step gens next idle _ i ws id0 H1) as (N1 & N2 & N3). destruct (notify _ _) as [s2 ws2].
    pose proof (settle_step gens next idle _ i ws2 id0 N1) as Hs. destruct (page_settle _ _ _ _ _) as [s' ws'].
    destruct Hs as (S1 & S2 & S3). split_and!; [done| |].
    + exact (keeps_ids_trans _ _ _ F2 (keeps_ids_trans _ _ _ H2 (keeps_ids_trans _ _ _ N2 S2))).
    + exact (fkeeps_trans _ _ _ _ _ _ _ F3 (fkeeps_trans _ _ _ _ _ _ _ H3 (fkeeps_trans _ _ _ _ _ _ _ N3 S3))).
Qed.

Lemma abandon_step gens next idle s i id ws id0 : pcore gens next idle s i → is_ok (validate_leader s id true) = true →
  let '(s1, ws1) := revoke s Error_Cancelled ws in
  let '(s', ws') := page_settle Datatypes.id split s1 idle ws1 in
  pcore gens next idle s' i ∧ keeps_ids s s' ∧ fkeeps id0 s ws s' ws'.
Proof.
  intros Hc Hv. destruct (revoke s Error_Cancelled ws) as [s1 ws1] eqn:Hr.
  destruct (plain_step gens next idle s i (ws, 0) (FOp_Revoke id true Error_Cancelled) s1 i (ws1, 0) id0 Hc I) as (H1 & H2 & H3);
    [done|simpl; by rewrite Hv, Hr|]. simpl in H3.
  pose proof (settle_step gens next idle s1 i ws1 id0 H1) as Hs. destruct (page_settle _ _ _ _ _) as [s' ws'].
  destruct Hs as (S1 & S2 & S3). split_and!; [done|exact (keeps_ids_trans _ _ _ H2 S2)|exact (fkeeps_trans _ _ _ _ _ _ _ H3 S3)].
Qed.
End flights.

(** ** Runs of the table *)

Section table.
Context {K C P O R Q : Type} `{Countable K}.
Variable split : O → Published C P.
Variable reserve : Q → Reserve → result R Error * Q.

#[local] Notation PFlight := (PageFlight C P O R).
#[local] Notation PFlights := (PageFlights K C P O R).
Implicit Types (t : PFlights) (f : PFlight) (ws : list N) (page : K).

Definition live_flight f : Prop := size (waiters (pfl_state f)) ≠ 0%nat ∨ pfl_operations f ≠ 0.

Record table_ok t : Prop := {
  to_size : (size (pf_flights t) ≤ fli_entries (pf_limits t))%nat;
  to_flight : ∀ page f, pf_flights t !! page = Some f → flight_ok (pf_limits t) (pf_next_id t) f;
  to_live : ∀ page f, pf_flights t !! page = Some f → live_flight f
}.

(** Wakes across an operation of the table about the waiter [subject]. *)
Definition tkeeps (subject : option (K * N)) t ws t' ws' : Prop :=
  (∀ tok, tok ∈ ws → tok ∈ ws') ∧
  ∀ page f id w tok, pf_flights t !! page = Some f → waiters (pfl_state f) !! id = Some w → w_waker w = Some tok →
    Some (page, id) ≠ subject →
    tok ∈ ws' ∨ ∃ f' w', pf_flights t' !! page = Some f' ∧ waiters (pfl_state f') !! id = Some w' ∧ w_waker w' = Some tok.

Definition tstep (subject : option (K * N)) t ws t' ws' : Prop :=
  table_ok t' ∧ pf_limits t' = pf_limits t ∧ tkeeps subject t ws t' ws'.

Lemma tkeeps_same subject t ws t' : pf_flights t' = pf_flights t → tkeeps subject t ws t' ws.
Proof. intros Hf. split; [done|]. intros page f id w tok Hp Hw Ht _. right. exists f, w. by rewrite Hf. Qed.

Lemma tstep_trans subject t1 w1 t2 w2 t3 w3 : tstep subject t1 w1 t2 w2 → tstep subject t2 w2 t3 w3 → tstep subject t1 w1 t3 w3.
Proof.
  intros (_ & L1 & A1 & B1) (O2 & L2 & A2 & B2). split_and!; [done|congruence|]. split; [by intros tok ?%A1%A2|].
  intros page f id w tok Hf Hw Ht Hs. destruct (B1 page f id w tok Hf Hw Ht Hs) as [?|(f' & w' & ? & ? & ?)]; [left; by apply A2|].
  by apply (B2 page f' id w' tok).
Qed.

(** One flight of the table moves. *)
Lemma update_step subject t ws page f f' ws' : table_ok t → pf_flights t !! page = Some f →
  flight_ok (pf_limits t) (pf_next_id t) f' → live_flight f' →
  (∀ id0, (∀ id, Some (page, id) = subject → Some id = id0) → fkeeps id0 (pfl_state f) ws (pfl_state f') ws') →
  tstep subject t ws (set_flight t page f') ws'.
Proof.
  intros Ht Hf Hok Hlive Hk. split_and!; [split; simpl|done|].
  - rewrite map_size_insert_Some by eauto. apply Ht.
  - intros page' f0 [[<- <-]|[_ Hf0]]%lookup_insert_Some; [done|by eapply to_flight].
  - intros page' f0 [[<- <-]|[_ Hf0]]%lookup_insert_Some; [done|by eapply to_live].
  - set (id0 := match subject with Some (p, id) => if decide (p = page) then Some id else None | None => None end).
    destruct (Hk id0) as [A B].
    { intros id <-. unfold id0. by rewrite decide_True. }
    split; [done|]. intros page' f0 id w tok Hf0 Hw Htok Hs. simpl. destruct (decide (page = page')) as [<-|Hne].
    + simplify_eq. destruct (B id w tok) as [?|(w' & ? & ?)]; [|done|done|by left|right; exists f', w'; by rewrite lookup_insert_eq].
      unfold id0. destruct subject as [[p j]|]; [|done]. destruct (decide (p = page)); [|done]. congruence.
    + right. exists f0, w. by rewrite lookup_insert_ne.
Qed.

(** Leaving the waiters attached, a flight stays live and within its bound. *)
Lemma kept_flight limits next f s i : flight_ok limits next f →
  pcore (fli_generations_per_flight limits) next (pfl_idle f) s i → keeps_ids (pfl_state f) s →
  flight_ok limits next (mkPageFlight s i (pfl_operations f) (pfl_charge f)) ∧
  (live_flight f → live_flight (mkPageFlight s i (pfl_operations f) (pfl_charge f))).
Proof.
  intros [_ Hs] Hc Hk. pose proof (keeps_ids_size _ _ Hk) as Hsz. unfold flight_ok, live_flight. simpl. rewrite Hsz.
  split; [by split|done].
Qed.

Lemma kept_step subject t ws page f s i ws' : table_ok t → pf_flights t !! page = Some f →
  (∀ id0, (∀ id, Some (page, id) = subject → Some id = id0) →
     pcore (fli_generations_per_flight (pf_limits t)) (pf_next_id t) (pfl_idle f) s i ∧ keeps_ids (pfl_state f) s ∧
     fkeeps id0 (pfl_state f) ws s ws') →
  tstep subject t ws (set_flight t page (mkPageFlight s i (pfl_operations f) (pfl_charge f))) ws'.
Proof.
  intros Ht Hf Hgo. destruct (Hgo (match subject with Some (p, id) => if decide (p = page) then Some id else None | None => None end)) as (Hc & Hk & _).
  { intros id <-. by rewrite decide_True. }
  destruct (kept_flight (pf_limits t) (pf_next_id t) f s i (to_flight t Ht page f Hf) Hc Hk) as [Hok Hl].
  eapply update_step; [done|done|done|by apply Hl, (to_live t Ht page)|]. intros id0 Hid. apply (Hgo id0 Hid).
Qed.

Lemma set_now_step subject t ws now : table_ok t → tstep subject t ws (set_now t now) ws.
Proof. intros []. split_and!; [by split|done|by apply tkeeps_same]. Qed.

Lemma tstep_refl subject t ws : table_ok t → tstep subject t ws t ws.
Proof. intros Ht. split_and!; [done|done|by apply tkeeps_same]. Qed.

Lemma refresh_flight_state now f ws : refresh_flight split now f ws =
  let '(s, ws') := refreshed_state split now (pfl_state f) (pfl_idle f) ws in (flight_with f s, ws').
Proof. unfold refresh_flight, refreshed_state. by destruct (page_refresh _ _ _ _ _ _ _ _) as [s fx]. Qed.

(** What a refreshed flight is to the one before. *)
Lemma refreshed_step subject t page ws : table_ok t →
  let '(existing, (t', ws')) := refreshed split t page ws in
  tstep subject t ws t' ws' ∧ pf_next_id t' = pf_next_id t ∧
  match existing with
  | None => pf_flights t !! page = None ∧ t' = t
  | Some f' => pf_flights t' !! page = Some f' ∧ ∃ f, pf_flights t !! page = Some f ∧ pfl_operations f' = pfl_operations f
  end.
Proof.
  intros Ht. unfold refreshed. destruct (pf_flights t !! page) as [f|] eqn:Hf; [|split_and!; [by apply tstep_refl|done|done|done]].
  rewrite refresh_flight_state.
  assert (Hstep : let '(s, ws') := refreshed_state split (pf_now t) (pfl_state f) (pfl_idle f) ws in
    tstep subject t ws (set_flight t page (flight_with f s)) ws').
  { destruct (refreshed_state _ _ _ _ _) as [s ws'] eqn:Hr. apply kept_step; [done|done|]. intros id0 _.
    pose proof (refresh_step split _ _ _ _ _ (pf_now t) ws id0 (proj1 (to_flight t Ht page f Hf))) as Hs. rewrite Hr in Hs.
    destruct Hs as (H1 & H2 & H3 & _). done. }
  destruct (refreshed_state _ _ _ _ _) as [s ws']. split_and!; [done|done|simpl; by rewrite lookup_insert_eq|by exists f].
Qed.

(** *** Joins *)

(** A waiter enters [f], which is in the table or new. *)
Lemma enter_step t ws page f deadline charge acquisition plaintext : table_ok t →
  (pf_flights t !! page = Some f ∧ (size (waiters (pfl_state f)) < fli_waiters_per_flight (pf_limits t))%nat) ∨
  (pf_flights t !! page = None ∧ (size (pf_flights t) < fli_entries (pf_limits t))%nat ∧ ∃ c, f = new_flight c) →
  let t' := mkPageFlights (pf_flights t) (pf_limits t) (pf_now t) (pf_next_id t + 1) in
  tstep None t ws
    (set_flight t' page (flight_with f (register pw_deadline (pfl_state f) (pf_next_id t) (mkPageWaiter deadline charge) acquisition plaintext))) ws.
Proof.
  intros Ht Hcase t'.
  assert (Hmono : ∀ f0, flight_ok (pf_limits t) (pf_next_id t) f0 → flight_ok (pf_limits t) (pf_next_id t + 1) f0)
    by (intros f0 [Hc Hs]; split; [eapply pcore_mono; [|done]; lia|done]).
  assert (Hc : pcore (fli_generations_per_flight (pf_limits t)) (pf_next_id t) (pfl_idle f) (pfl_state f) (pfl_identity f)).
  { destruct Hcase as [[Hf _]|(_ & _ & c & ->)]; [by apply (to_flight t Ht page f Hf)|]. exists []. split; [by intros id ?%elem_of_nil|].
    split; simpl; [|done|lia|by intros id w]. split; simpl; [done|by intros d id|]. intros id [[w Hw]|?]; [by rewrite lookup_empty in Hw|done]. }
  destruct (register_step split _ _ _ _ _ (mkPageWaiter deadline charge) acquisition plaintext Hc) as (H1 & H2 & H3).
  set (s' := register _ _ _ _ _ _) in *. clearbody s'.
  assert (Hok : flight_ok (pf_limits t) (pf_next_id t + 1) (flight_with f s')).
  { split; [exact H1|]. simpl. rewrite H3. destruct Hcase as [[_ Hlt]|(_ & _ & c & ->)]; [lia|]. simpl. rewrite map_size_empty. lia. }
  assert (Hlive : live_flight (flight_with f s')) by (left; simpl; by rewrite H3).
  split_and!; [split; simpl| |split; [done|]]; [| | |done|].
  - destruct Hcase as [[Hf _]|(Hf & Hlt & _)]; [rewrite map_size_insert_Some by eauto; apply Ht|rewrite map_size_insert_None by done; lia].
  - intros page' f0 [[<- <-]|[_ Hf0]]%lookup_insert_Some; [done|]. by eapply Hmono, to_flight.
  - intros page' f0 [[<- <-]|[_ Hf0]]%lookup_insert_Some; [done|]. by eapply to_live.
  - intros page' f0 id w tok Hf0 Hw Htok _. simpl. destruct (decide (page = page')) as [<-|Hne]; [|right; exists f0, w; by rewrite lookup_insert_ne].
    destruct Hcase as [[Hf _]|(Hf & _)]; [|congruence]. simplify_eq. destruct (proj2 (H2 ws) id w tok) as [?|(w' & ? & ?)]; try done; [by left|].
    right. eexists _, w'. rewrite lookup_insert_eq. done.
Qed.

Lemma skip_id_step t ws : table_ok t → tstep None t ws (mkPageFlights (pf_flights t) (pf_limits t) (pf_now t) (pf_next_id t + 1)) ws.
Proof.
  intros []. split_and!; [split; simpl; try done|done|by apply tkeeps_same]. intros page f Hf. destruct (to_flight0 page f Hf) as [Hc Hs].
  split; [eapply pcore_mono; [|done]; lia|done].
Qed.

Lemma join_register_step t page deadline attempts plaintext partial q ws : table_ok t →
  (∀ f, pf_flights t !! page = Some f → (size (waiters (pfl_state f)) < fli_waiters_per_flight (pf_limits t))%nat) →
  let '(_, (t', _)) := join_register reserve t page deadline attempts plaintext partial q in tstep None t ws t' ws.
Proof.
  intros Ht Hw. unfold join_register. destruct (join_budget_gate _ _ _ _) as [[]|e]; [|by apply tstep_refl].
  destruct (reserve q Reserve_Waiter) as [[charge|e] q1]; [|by apply tstep_refl]. simpl.
  destruct (pf_flights t !! page) as [f|] eqn:Hf; [apply enter_step; [done|]; left; auto|].
  unfold entry_cap_gate. destruct (Nat.leb_spec (fli_entries (pf_limits t)) (size (pf_flights t))); [by apply skip_id_step|].
  destruct (reserve q1 Reserve_Flight) as [[c|e] q2]; [|by apply skip_id_step]. apply enter_step; [done|]. right. split_and!; [done|done|by exists c].
Qed.

Lemma join_existing_room (s : @State C P O Error (PageWaiter R) N) plaintext limits :
  join_existing s plaintext limits = Ok None → (size (waiters s) < fli_waiters_per_flight limits)%nat.
Proof.
  unfold join_existing. intros Hj. destruct (Nat.leb_spec (fli_waiters_per_flight limits) (size (waiters s))); [|done]. exfalso. by repeat case_match.
Qed.

Lemma page_join_step t page now deadline attempts plaintext q ws : table_ok t →
  let '(_, (t', _, ws')) := page_join split reserve t page now deadline attempts plaintext q ws in tstep None t ws t' ws'.
Proof.
  intros Ht. pose proof (set_now_step None t ws now Ht) as Hn. unfold page_join.
  pose proof (refreshed_step None (set_now t now) page ws (proj1 Hn)) as Hr. destruct (refreshed split (set_now t now) page ws) as [existing [t1 ws1]].
  destruct Hr as (Hs & _ & He). pose proof (tstep_trans _ _ _ _ _ _ _ Hn Hs) as Hs1.
  assert (Hgo : ∀ partial, (∀ f, pf_flights t1 !! page = Some f → (size (waiters (pfl_state f)) < fli_waiters_per_flight (pf_limits t1))%nat) →
    let '(_, (t', _, ws')) := (let '(r, (t', q')) := join_register reserve t1 page deadline attempts plaintext partial q in (r, (t', q', ws1))) in
    tstep None t ws t' ws').
  { intros partial Hroom. pose proof (join_register_step t1 page deadline attempts plaintext partial q ws1 (proj1 Hs) Hroom) as Hj.
    destruct (join_register _ _ _ _ _ _ _ _) as [r [t' q']]. by eapply tstep_trans. }
  destruct existing as [f|].
  - destruct (join_existing (pfl_state f) plaintext (pf_limits t1)) as [[settled|]|e] eqn:Hj; [done| |done]. apply Hgo.
    intros f' Hf'. destruct He as [Hf _]. simplify_eq. by eapply join_existing_room.
  - apply Hgo. destruct He as [Hno ->]. intros f Hf. congruence.
Qed.

Lemma page_join_copy_step t page now deadline q ws : table_ok t →
  let '(_, (t', _, ws')) := page_join_copy split reserve t page now deadline q ws in tstep None t ws t' ws'.
Proof.
  intros Ht. pose proof (set_now_step None t ws now Ht) as Hn. unfold page_join_copy.
  pose proof (refreshed_step None (set_now t now) page ws (proj1 Hn)) as Hr. destruct (refreshed split (set_now t now) page ws) as [existing [t1 ws1]].
  destruct Hr as (Hs & _ & He). pose proof (tstep_trans _ _ _ _ _ _ _ Hn Hs) as Hs1. destruct existing as [f|]; [|done].
  destruct (join_copy_existing _ _ _) as [[|settled|]|e] eqn:Hj; try done.
  destruct (reserve q Reserve_Waiter) as [[charge|e] q1]; [|done]. simpl. eapply tstep_trans; [exact Hs1|].
  apply (enter_step t1 ws1 page f); [apply Hs|]. left. split; [apply He|].
  unfold join_copy_existing in Hj. destruct (Nat.leb_spec (fli_waiters_per_flight (pf_limits t1)) (size (waiters (pfl_state f)))); [|done].
  exfalso. by repeat case_match.
Qed.

(** *** Polls *)

(** [id] leads the only acquisition of the flight, which retains no operation yet. *)
Definition elected_flight (id : N) f f' : Prop :=
  pfl_operations f = 0 ∧ generation (pfl_identity f') = generation (pfl_identity f) + 1 ∧
  phase (pfl_state f') = Phase_Acquiring ∧ leader (pfl_state f') = Some id ∧ elected (pfl_state f') = Some id.

Lemma poll_flight_step gens next f id w now deadline attempts token ws :
  pcore gens next (pfl_idle f) (pfl_state f) (pfl_identity f) → waiters (pfl_state f) !! id = Some w →
  ∃ r s' i' ws', poll_flight split f id now deadline attempts (negb (w_acquisition w)) gens token ws =
      Some (r, (mkPageFlight s' i' (pfl_operations f) (pfl_charge f), ws')) ∧
    pcore gens next (pfl_idle f) s' i' ∧ keeps_ids (pfl_state f) s' ∧ fkeeps (Some id) (pfl_state f) ws s' ws' ∧
    (r = Wait_Lead → elected_flight id f (mkPageFlight s' i' (pfl_operations f) (pfl_charge f))).
Proof.
  intros Hc Hw. unfold poll_flight. rewrite refresh_flight_state.
  pose proof (refresh_step split _ _ _ _ _ now ws (Some id) Hc) as Hr. destruct (refreshed_state _ _ _ _ _) as [s1 ws1].
  destruct Hr as (R1 & R2 & R3 & R4). destruct (R4 id w Hw) as (w1 & Hw1 & Ha). simpl. destruct (w_acquisition w); simpl.
  - destruct (wait_step split _ _ _ s1 _ id w1 deadline attempts token now ws1 R1 Hw1 Ha) as (r & s' & i' & fx' & -> & W1 & W2 & W3 & W4).
    do 4 eexists. split; [done|]. split_and!; [done|exact (keeps_ids_trans _ _ _ R2 W2)|exact (fkeeps_trans _ _ _ _ _ _ _ R3 W3)|].
    intros Hlead. destruct (W4 Hlead) as (Hb & Hg & Hp & Hl & He). split_and!; try done.
    destruct (pfl_idle f) eqn:Hi; [by apply N.eqb_eq in Hi|]. by rewrite (pcore_busy _ _ _ _ _ R1 eq_refl) in Hb.
  - destruct (copy_wait_step split _ _ _ s1 _ id w1 token ws1 R1 Hw1 Ha) as (r & s' & -> & W1 & W2 & W3).
    do 4 eexists. split; [done|]. split_and!; [done|exact (keeps_ids_trans _ _ _ R2 W2)|exact (fkeeps_trans _ _ _ _ _ _ _ R3 W3)|].
    by destruct r as [[]|].
Qed.

Lemma subject_id page (id : N) (id0 : option N) : (∀ id', Some (page, id') = Some (page, id) → Some id' = id0) → id0 = Some id.
Proof. intros Hs. symmetry. by apply Hs. Qed.

Lemma page_poll_step t page id now attempts token ws : table_ok t →
  ∃ r t' ws', page_poll split t page id now attempts token ws = Some (r, (t', ws')) ∧ tstep (Some (page, id)) t ws t' ws' ∧
    (r = Ok Wait_Lead → ∃ f f', pf_flights t !! page = Some f ∧ pf_flights t' !! page = Some f' ∧ elected_flight id f f').
Proof.
  intros Ht. pose proof (set_now_step (Some (page, id)) t ws now Ht) as Hn. unfold page_poll. simpl.
  destruct (pf_flights t !! page) as [f|] eqn:Hf; [|do 3 eexists; split_and!; [reflexivity|exact Hn|discriminate]].
  destruct (waiters (pfl_state f) !! id) as [w|] eqn:Hw; [|do 3 eexists; split_and!; [reflexivity|exact Hn|discriminate]].
  case_bool_decide; [do 3 eexists; split_and!; [reflexivity|exact Hn|discriminate]|]. pose proof (proj1 (to_flight t Ht page f Hf)) as Hc.
  destruct (_ <=? now).
  - rewrite refresh_flight_state. simpl.
    destruct (cancel_step split _ _ _ _ _ id Error_DeadlineExceeded ws (Some id) Hc) as (C1 & C2 & C3).
    pose proof (refresh_step split _ _ _ _ _ now ws (Some id) C1) as Hr. unfold pfl_idle in *. simpl in *.
    destruct (refreshed_state _ _ _ _ _) as [s1 ws1]. destruct Hr as (R1 & R2 & R3 & _).
    do 3 eexists. split_and!; [done| |done]. eapply tstep_trans; [exact Hn|]. apply (kept_step (Some (page, id)) (set_now t now) ws page f s1 (pfl_identity f)); [apply Hn|done|].
    intros id0 ->%subject_id. split_and!; [exact R1|exact (keeps_ids_trans _ _ _ C2 R2)|exact (fkeeps_trans _ _ _ _ _ _ _ C3 R3)].
  - destruct (poll_flight_step _ _ f id w now (pw_deadline (w_policy w)) attempts token ws Hc Hw) as (r & s' & i' & ws' & -> & P1 & P2 & P3 & P4).
    do 3 eexists. split_and!; [done| |].
    + eapply tstep_trans; [exact Hn|]. apply kept_step; [apply Hn|done|]. intros id0 ->%subject_id. by split_and!.
    + intros [= ->]. eexists f, _. split_and!; [done|simpl; by rewrite lookup_insert_eq|by apply P4].
Qed.

(** *** Leaders *)

Lemma led_flight_step subject t page id ws : table_ok t →
  let '(led, (t', ws')) := led_flight split t page id ws in
  tstep subject t ws t' ws' ∧
  ∀ f', led = Ok f' → pf_flights t' !! page = Some f' ∧ is_ok (validate_leader (pfl_state f') id true) = true.
Proof.
  intros Ht. unfold led_flight. pose proof (refreshed_step subject t page ws Ht) as Hr.
  destruct (refreshed split t page ws) as [[f|] [t' ws']]; destruct Hr as (Hs & _ & He); [|done].
  split; [done|]. intros f'. destruct (is_ok _) eqn:Hv; [|done]. intros [= <-]. by destruct He.
Qed.

Lemma page_finish_step t page id r ws : table_ok t → let '(_, (t', ws')) := page_finish split t page id r ws in tstep None t ws t' ws'.
Proof.
  intros Ht. unfold page_finish. pose proof (led_flight_step None t page id ws Ht) as Hl.
  destruct (led_flight split t page id ws) as [[f|e] [t1 ws1]]; destruct Hl as [Hs Hv]; [|done].
  destruct (Hv f eq_refl) as [Hf Hok].
  assert (Hgo : let '(s, ws') := match r with Ok o => page_publish Datatypes.id split (pfl_state f) o (pfl_idle f) ws1
    | Err failure => page_fail Datatypes.id split (pfl_state f) id failure (pfl_idle f) ws1 end in tstep None t1 ws1 (set_flight t1 page (flight_with f s)) ws').
  { destruct (match r with Ok _ => _ | Err _ => _ end) as [s ws'] eqn:Hr. apply kept_step; [apply Hs|done|]. intros id0 _.
    pose proof (finish_step split _ _ _ _ _ id r ws1 id0 (proj1 (to_flight t1 (proj1 Hs) page f Hf)) Hok) as Hfin. by rewrite Hr in Hfin. }
  destruct (match r with Ok _ => _ | Err _ => _ end) as [s ws']. by eapply tstep_trans.
Qed.

Lemma page_allow_handover_step t page id ws : table_ok t → let '(_, (t', ws')) := page_allow_handover split t page id ws in tstep None t ws t' ws'.
Proof.
  intros Ht. unfold page_allow_handover. pose proof (led_flight_step None t page id ws Ht) as Hl.
  destruct (led_flight split t page id ws) as [[f|e] [t1 ws1]]; destruct Hl as [Hs Hv]; [|done].
  destruct (Hv f eq_refl) as [Hf Hok]. eapply tstep_trans; [exact Hs|]. apply kept_step; [apply Hs|done|]. intros id0 _.
  by apply (plain_step split _ _ _ _ _ (ws1, 0) FOp_AllowHandover _ _ (ws1, 0) id0 (proj1 (to_flight t1 (proj1 Hs) page f Hf)) I).
Qed.

Lemma page_retain_step t page id ws : table_ok t → let '(_, (t', ws')) := page_retain split t page id ws in tstep None t ws t' ws'.
Proof.
  intros Ht. unfold page_retain. pose proof (led_flight_step None t page id ws Ht) as Hl.
  destruct (led_flight split t page id ws) as [[f|e] [t1 ws1]]; destruct Hl as [Hs Hv]; [|done].
  destruct (Hv f eq_refl) as [Hf Hok]. destruct (to_flight t1 (proj1 Hs) page f Hf) as [Hc Hsz]. eapply tstep_trans; [exact Hs|].
  eapply update_step; [apply Hs|done| |by right; simpl; lia|by intros; apply fkeeps_refl].
  split; [|exact Hsz]. simpl. eapply pcore_idle; [exact Hc|]. intros _. apply validate_acquiring in Hok.
  unfold acquiring, busy in *. by destruct (phase (pfl_state f)).
Qed.

(** *** Leaving *)

(** One flight moves, and is removed when nothing holds it. *)
Lemma drop_step subject t ws page f f' ws' : table_ok t → pf_flights t !! page = Some f → flight_ok (pf_limits t) (pf_next_id t) f' →
  (∀ id0, (∀ id, Some (page, id) = subject → Some id = id0) → fkeeps id0 (pfl_state f) ws (pfl_state f') ws') →
  tstep subject t ws (drop_quiescent (set_flight t page f') page) ws'.
Proof.
  intros Ht Hf Hok Hk. unfold drop_quiescent. simpl. rewrite lookup_insert_eq.
  destruct ((size (waiters (pfl_state f')) =? 0)%nat && pfl_idle f') eqn:Hq.
  2: { eapply update_step; try done. unfold live_flight. unfold pfl_idle in Hq. apply andb_false_iff in Hq as [Hq%Nat.eqb_neq|Hq%N.eqb_neq]; auto. }
  apply andb_true_iff in Hq as [Hz%Nat.eqb_eq _]. rewrite delete_insert_eq. split_and!; [split; simpl|done|].
  - rewrite map_size_delete_Some by eauto. pose proof (to_size t Ht). lia.
  - intros page' f0 [_ Hf0]%lookup_delete_Some. by eapply to_flight.
  - intros page' f0 [_ Hf0]%lookup_delete_Some. by eapply to_live.
  - set (id0 := match subject with Some (p, id) => if decide (p = page) then Some id else None | None => None end).
    destruct (Hk id0) as [A B]. { intros id <-. unfold id0. by rewrite decide_True. }
    split; [done|]. intros page' f0 id w tok Hf0 Hw Htok Hs. simpl. destruct (decide (page = page')) as [<-|Hne].
    + simplify_eq. destruct (B id w tok) as [?|(w' & Hw' & _)]; [|done|done|by left|].
      { unfold id0. destruct subject as [[p j]|]; [|done]. destruct (decide (p = page)); [|done]. congruence. }
      apply map_size_empty_inv in Hz. rewrite Hz in Hw'. by rewrite lookup_empty in Hw'.
    + right. exists f0, w. by rewrite lookup_delete_ne.
Qed.

Lemma page_complete_step t page ws : table_ok t → let '(_, (t', ws')) := page_complete split t page ws in tstep None t ws t' ws'.
Proof.
  intros Ht. unfold page_complete. destruct (pf_flights t !! page) as [f|] eqn:Hf; [|by apply tstep_refl].
  unfold checked_sub. destruct (N.leb_spec 1 (pfl_operations f)) as [Hle|]; [|by apply tstep_refl].
  rewrite refresh_flight_state. simpl. set (idle := pfl_idle _). destruct (to_flight t Ht page f Hf) as [Hc Hsz].
  assert (Hc' : pcore (fli_generations_per_flight (pf_limits t)) (pf_next_id t) idle (pfl_state f) (pfl_identity f)).
  { eapply pcore_idle; [exact Hc|]. intros _. eapply pcore_busy; [exact Hc|]. unfold pfl_idle. apply N.eqb_neq. lia. }
  pose proof (refresh_step split _ _ _ _ _ (pf_now t) ws None Hc') as Hr. destruct (refreshed_state _ _ _ _ _) as [s1 ws1].
  destruct Hr as (R1 & R2 & R3 & _). simpl. destruct (notify_step _ _ _ _ _ ws1 None R1) as (N1 & N2 & N3).
  unfold notify in *. simpl in *. eapply drop_step; [done|done| |].
  - split; [exact N1|]. pose proof (keeps_ids_size _ _ (keeps_ids_trans _ _ _ R2 N2)) as Hk. simpl in *. by rewrite Hk.
  - intros id0 _. pose proof (fkeeps_trans _ _ _ _ _ _ _ R3 N3) as [A B]. split; [done|]. intros id w tok _. by apply B.
Qed.

Lemma page_abandon_step t page id ws : table_ok t → let '(t', ws') := page_abandon split t page id ws in tstep None t ws t' ws'.
Proof.
  intros Ht. unfold page_abandon. destruct (pf_flights t !! page) as [f|] eqn:Hf; [|by apply tstep_refl].
  destruct (is_ok _) eqn:Hv; [|by apply tstep_refl].
  pose proof (λ id0, abandon_step split _ _ _ _ _ id ws id0 (proj1 (to_flight t Ht page f Hf)) Hv) as Ha.
  destruct (revoke _ _ _) as [s1 ws1]. destruct (page_settle _ _ _ _ _) as [s2 ws2]. apply kept_step; [done|done|]. intros id0 _. apply Ha.
Qed.

Lemma refresh_with_step t page f s ws id0 : table_ok t → pf_flights t !! page = Some f →
  pcore (fli_generations_per_flight (pf_limits t)) (pf_next_id t) (pfl_idle f) s (pfl_identity f) →
  let '(t', ws') := (refreshed split (set_flight t page (flight_with f s)) page ws).2 in
  ∃ s', t' = set_flight t page (flight_with f s') ∧
    pcore (fli_generations_per_flight (pf_limits t)) (pf_next_id t) (pfl_idle f) s' (pfl_identity f) ∧ keeps_ids s s' ∧ fkeeps id0 s ws s' ws'.
Proof.
  intros Ht Hf Hc. unfold refreshed. simpl. rewrite lookup_insert_eq, refresh_flight_state. simpl.
  pose proof (refresh_step split _ _ _ _ _ (pf_now t) ws id0 Hc) as Hr. unfold pfl_idle in *. simpl.
  destruct (refreshed_state _ _ _ _ _) as [s' ws']. destruct Hr as (R1 & R2 & R3 & _). simpl. exists s'. split_and!; try done.
  unfold set_flight. simpl. by rewrite insert_insert_eq.
Qed.

Lemma page_cancel_step t page id ws : table_ok t → let '(t', ws') := page_cancel split t page id ws in tstep None t ws t' ws'.
Proof.
  intros Ht. unfold page_cancel. destruct (pf_flights t !! page) as [f|] eqn:Hf; [|by apply tstep_refl].
  destruct (cancel_step split _ _ _ _ _ id Error_Cancelled ws None (proj1 (to_flight t Ht page f Hf))) as (C1 & C2 & C3).
  pose proof (refresh_with_step t page f _ ws None Ht Hf C1) as Hr.
  destruct (refreshed split _ page ws) as [e [t' ws']]. simpl in *. destruct Hr as (s' & -> & R1 & R2 & R3).
  apply kept_step; [done|done|]. intros id0 _. pose proof (fkeeps_trans _ _ _ _ _ _ _ C3 R3) as [A B].
  split_and!; [done|exact (keeps_ids_trans _ _ _ C2 R2)|split; [done|]]. intros i w tok _. by apply B.
Qed.

Lemma page_detach_step t page id ws : table_ok t → let '(t', ws') := page_detach split t page id ws in tstep (Some (page, id)) t ws t' ws'.
Proof.
  intros Ht. unfold page_detach. destruct (pf_flights t !! page) as [f|] eqn:Hf; [|by apply tstep_refl].
  destruct (to_flight t Ht page f Hf) as [Hc Hsz]. destruct (detach_step split _ _ _ _ _ id Hc) as (D1 & D2 & D3).
  pose proof (refresh_with_step t page f _ ws (Some id) Ht Hf D1) as Hr.
  destruct (refreshed split _ page ws) as [e [t' ws']]. simpl in *. destruct Hr as (s' & -> & R1 & R2 & R3).
  eapply drop_step; [done|done| |].
  - split; [exact R1|]. simpl. rewrite (keeps_ids_size _ _ R2). lia.
  - intros id0 ->%subject_id. exact (fkeeps_trans _ _ _ _ _ _ _ (D2 ws) R3).
Qed.

Lemma page_refresh_at_step t page now ws : table_ok t → let '(t', ws') := page_refresh_at split t page now ws in tstep None t ws t' ws'.
Proof.
  intros Ht. unfold page_refresh_at. pose proof (set_now_step None t ws now Ht) as Hn.
  pose proof (refreshed_step None (set_now t now) page ws (proj1 Hn)) as Hr. destruct (refreshed split _ page ws) as [e [t' ws']].
  destruct Hr as (Hs & _). exact (tstep_trans _ _ _ _ _ _ _ Hn Hs).
Qed.

(** *** Delivery *)

(** A waiter without an error whose deadline is ahead. *)
Definition alive (now : N) (s : @State C P O Error (PageWaiter R) N) (id : N) : Prop :=
  ∃ w, waiters s !! id = Some w ∧ w_error w = None ∧ now < pw_deadline (w_policy w).

Lemma refresh_waiter_alive s i ws now id : alive now s id →
  alive now (refresh_waiter pw_deadline page_check s i (ws, now)).1 id ∧ (refresh_waiter pw_deadline page_check s i (ws, now)).2.2 = now.
Proof.
  intros (w & Hw & He & Hd). unfold refresh_waiter. destruct (waiters s !! i) as [wi|] eqn:Hi; [|split; [by exists w|done]].
  destruct (decide (i = id)) as [->|Hne].
  - simplify_eq. simpl. rewrite He. unfold page_check. rewrite (proj2 (N.leb_gt _ _) Hd). simpl. split; [|done].
    exists (with_error None w). simpl. by rewrite lookup_insert_eq.
  - simpl. destruct (w_error wi) as [e|]; simpl; [|destruct (_ <=? now); simpl].
    all: split; [exists w; simpl; by rewrite lookup_insert_ne|done].
Qed.

Lemma refresh_expired_alive n s ws now id : alive now s id →
  alive now (refresh_expired pw_deadline page_check page_now n s (ws, now)).1 id ∧
  (refresh_expired pw_deadline page_check page_now n s (ws, now)).2.2 = now.
Proof.
  revert s ws. induction n as [|n IH]; intros s ws Ha; simpl; [done|]. destruct (head _) as [[[d i] u]|]; [|done].
  destruct (now <? d); [done|].
  destruct (refresh_waiter_alive (with_waiters s (waiters s) (delete (d, i) (deadlines s))) i ws now id Ha) as [H1 H2].
  destruct (refresh_waiter _ _ _ _ _) as [s1 [ws1 env]]. simpl in *. subst env. by apply IH.
Qed.

Lemma complete_refreshed now s idle ws id c : phase s = Phase_Complete c → alive now s id →
  let '(s', _) := refreshed_state split now s idle ws in phase s' = Phase_Complete c ∧ alive now s' id.
Proof.
  intros Hp Ha. unfold refreshed_state, page_refresh. rewrite refresh_unfold.
  pose proof (refresh_checks_drifts pw_deadline page_check page_now s (ws, now)) as Hd.
  assert (Hal : alive now (refresh_checks pw_deadline page_check page_now s (ws, now)).1 id).
  { unfold refresh_checks. destruct (leader s) as [l|]; [|by apply (refresh_expired_alive EXPIRED_PER_REFRESH)].
    destruct (refresh_waiter_alive s l ws now id Ha) as [H1 H2]. destruct (refresh_waiter _ _ _ _ _) as [s1 [ws1 env]].
    simpl in H1, H2. subst env. by apply (refresh_expired_alive EXPIRED_PER_REFRESH). }
  destruct (refresh_checks _ _ _ s (ws, now)) as [s1 fx1]. destruct Hd as [Hd _]. pose proof (dr_phase _ _ _ _ Hd) as Hp1. rewrite Hp in Hp1.
  unfold refresh_leader, acquiring. rewrite Hp1. unfold refresh_settle, flight_settle. rewrite Hp1.
  destruct (negb idle); simpl; by rewrite Hp1.
Qed.

Lemma poll_complete t page f id now attempts token ws c : pf_flights t !! page = Some f → phase (pfl_state f) = Phase_Complete c →
  alive now (pfl_state f) id → fst <$> page_poll split t page id now attempts token ws = Some (Ok (Wait_Ready (Settled_Complete c))).
Proof.
  intros Hf Hp Ha. pose proof Ha as (w & Hw & He & Hd). unfold page_poll. simpl. rewrite Hf, Hw, He, (proj2 (N.leb_gt _ _) Hd). simpl.
  unfold poll_flight. rewrite refresh_flight_state. pose proof (complete_refreshed now (pfl_state f) (pfl_idle f) ws id c Hp Ha) as Hr.
  destruct (refreshed_state _ _ _ _ _) as [s' ws']. destruct Hr as [Hp' (w' & Hw' & He' & _)]. simpl.
  destruct (negb (w_acquisition w)).
  - unfold copy_wait. by rewrite Hw', He', Hp'.
  - unfold wait. by rewrite Hw', He', Hp'.
Qed.

Lemma publish_complete t page id o c ws t' ws' f' : split o = Published_Complete c →
  page_finish split t page id (Ok o) ws = (Ok (), (t', ws')) → pf_flights t' !! page = Some f' → pfl_operations f' = 0 →
  phase (pfl_state f') = Phase_Complete c.
Proof.
  intros Ho Hfin Hf' Hz. unfold page_finish in Hfin. destruct (led_flight split t page id ws) as [[f|e] [t1 ws1]]; [|done].
  unfold page_publish, page_settle in Hfin. destruct (flight_settle _ _ _ _ _) as [s2 ws2] eqn:Hst. injection Hfin as <- <-. simpl in Hf'.
  rewrite lookup_insert_eq in Hf'. injection Hf' as <-. simpl in *. unfold pfl_idle, flight_settle in Hst. rewrite Hz in Hst. simpl in Hst.
  rewrite Ho in Hst. unfold notify in Hst. injection Hst as <- <-. done.
Qed.

(** *** The run *)

Inductive PageOp :=
| PageOp_Join (page : K) (now deadline attempts : N) (plaintext : bool)
| PageOp_JoinCopy (page : K) (now deadline : N)
| PageOp_Poll (page : K) (id now attempts token : N)
| PageOp_Finish (page : K) (id : N) (r : result O (FailureKind Error))
| PageOp_AllowHandover (page : K) (id : N)
| PageOp_Retain (page : K) (id : N)
| PageOp_Complete (page : K)
| PageOp_Abandon (page : K) (id : N)
| PageOp_Cancel (page : K) (id : N)
| PageOp_Detach (page : K) (id : N)
| PageOp_Refresh (page : K) (now : N).

(** The table, the state of the reservations, and the wakes so far. *)
Definition World : Type := (PFlights * Q * list N)%type.

Definition run_page (w : World) (op : PageOp) : option World :=
  let '(t, q, ws) := w in
  let keep (r : PFlights * list N) := (r.1, q, r.2) in
  match op with
  | PageOp_Join page now deadline attempts plaintext => Some (page_join split reserve t page now deadline attempts plaintext q ws).2
  | PageOp_JoinCopy page now deadline => Some (page_join_copy split reserve t page now deadline q ws).2
  | PageOp_Poll page id now attempts token => keep ∘ snd <$> page_poll split t page id now attempts token ws
  | PageOp_Finish page id r => Some (keep (page_finish split t page id r ws).2)
  | PageOp_AllowHandover page id => Some (keep (page_allow_handover split t page id ws).2)
  | PageOp_Retain page id => Some (keep (page_retain split t page id ws).2)
  | PageOp_Complete page => Some (keep (page_complete split t page ws).2)
  | PageOp_Abandon page id => Some (keep (page_abandon split t page id ws))
  | PageOp_Cancel page id => Some (keep (page_cancel split t page id ws))
  | PageOp_Detach page id => Some (keep (page_detach split t page id ws))
  | PageOp_Refresh page now => Some (keep (page_refresh_at split t page now ws))
  end.

(** The waiter an operation is about: it takes or drops its own wake target. *)
Definition subject (op : PageOp) : option (K * N) :=
  match op with PageOp_Poll page id _ _ _ | PageOp_Detach page id => Some (page, id) | _ => None end.

Lemma run_page_step w op : table_ok w.1.1 → ∃ w', run_page w op = Some w' ∧ tstep (subject op) w.1.1 w.2 w'.1.1 w'.2.
Proof.
  destruct w as [[t q] ws]. simpl. intros Ht.
  destruct op as [page now d a pt|page now d|page id now a tok|page id r|page id|page id|page|page id|page id|page id|page now]; simpl.
  - pose proof (page_join_step t page now d a pt q ws Ht) as Hs. destruct (page_join _ _ _ _ _ _ _ _ _ _) as [r [[t' q'] ws']]. by eexists.
  - pose proof (page_join_copy_step t page now d q ws Ht) as Hs. destruct (page_join_copy _ _ _ _ _ _ _ _) as [r [[t' q'] ws']]. by eexists.
  - destruct (page_poll_step t page id now a tok ws Ht) as (r & t' & ws' & -> & Hs & _). by eexists.
  - pose proof (page_finish_step t page id r ws Ht) as Hs. destruct (page_finish _ _ _ _ _ _) as [x [t' ws']]. by eexists.
  - pose proof (page_allow_handover_step t page id ws Ht) as Hs. destruct (page_allow_handover _ _ _ _ _) as [x [t' ws']]. by eexists.
  - pose proof (page_retain_step t page id ws Ht) as Hs. destruct (page_retain _ _ _ _ _) as [x [t' ws']]. by eexists.
  - pose proof (page_complete_step t page ws Ht) as Hs. destruct (page_complete _ _ _ _) as [x [t' ws']]. by eexists.
  - pose proof (page_abandon_step t page id ws Ht) as Hs. destruct (page_abandon _ _ _ _ _) as [t' ws']. by eexists.
  - pose proof (page_cancel_step t page id ws Ht) as Hs. destruct (page_cancel _ _ _ _ _) as [t' ws']. by eexists.
  - pose proof (page_detach_step t page id ws Ht) as Hs. destruct (page_detach _ _ _ _ _) as [t' ws']. by eexists.
  - pose proof (page_refresh_at_step t page now ws Ht) as Hs. destruct (page_refresh_at _ _ _ _ _) as [t' ws']. by eexists.
Qed.

Inductive page_run (limits : FlightLimits) : World → Prop :=
| pr_new now q : page_run limits (page_flights_new limits now, q, [])
| pr_step w op w' : page_run limits w → run_page w op = Some w' → page_run limits w'.

Lemma page_run_ok limits w : page_run limits w → table_ok w.1.1 ∧ pf_limits w.1.1 = limits.
Proof.
  induction 1 as [now q|w op w' _ [Ht Hl] Hr]; simpl.
  - split; [|done]. split; simpl; [rewrite map_size_empty; lia|done|done].
  - destruct (run_page_step w op Ht) as (w1 & Hr1 & Hok & Hl1 & _). rewrite Hr in Hr1. simplify_eq. split; [done|congruence].
Qed.

(** Along every run of the page flights no operation panics, the table and each flight's
    waiters stay within their limits, no flight is held by neither a waiter nor a retained
    operation, and no identity passes the limit of generations. *)
Theorem page_flights_bounded limits w (Hrun : page_run limits w) :
  (size (pf_flights w.1.1) ≤ fli_entries limits)%nat ∧
  (∀ page f, pf_flights w.1.1 !! page = Some f →
     (size (waiters (pfl_state f)) ≤ Nat.max (fli_waiters_per_flight limits) 1)%nat ∧
     (size (waiters (pfl_state f)) ≠ 0%nat ∨ pfl_operations f ≠ 0) ∧
     generation (pfl_identity f) ≤ fli_generations_per_flight limits) ∧
  ∀ op, is_Some (run_page w op).
Proof.
  destruct (page_run_ok _ _ Hrun) as [Ht <-]. split_and!; [apply Ht| |].
  - intros page f Hf. destruct (to_flight _ Ht page f Hf) as [(used & _ & Hc) Hs]. split_and!; [done|by eapply to_live|apply Hc].
  - intros op. destruct (run_page_step w op Ht) as (w' & -> & _). by eexists.
Qed.

(** C10: At most one acquisition of a page runs at a time.  A poll that makes its caller the
    leader finds no operation retained by an earlier acquisition of the page, starts a new
    generation, and leaves the caller the only leader; and while a flight retains an
    operation its acquisition is running or draining. *)
Theorem one_acquisition_per_page limits w (Hrun : page_run limits w) :
  (∀ page f, pf_flights w.1.1 !! page = Some f → pfl_operations f ≠ 0 → busy (pfl_state f) = true) ∧
  ∀ page id now attempts token t' ws', page_poll split w.1.1 page id now attempts token w.2 = Some (Ok Wait_Lead, (t', ws')) →
    ∃ f f', pf_flights w.1.1 !! page = Some f ∧ pf_flights t' !! page = Some f' ∧ pfl_operations f = 0 ∧
      generation (pfl_identity f') = generation (pfl_identity f) + 1 ∧
      page_acquiring t' page = true ∧ ∀ id', page_is_leader t' page id' = bool_decide (id' = id).
Proof.
  destruct (page_run_ok _ _ Hrun) as [Ht _]. split.
  - intros page f Hf Hn. apply (pcore_busy _ _ _ _ _ (proj1 (to_flight _ Ht page f Hf))). by apply N.eqb_neq.
  - intros page id now attempts token t' ws' Hp.
    destruct (page_poll_step w.1.1 page id now attempts token w.2 Ht) as (r & t1 & ws1 & Hp' & _ & Hlead).
    rewrite Hp in Hp'. simplify_eq. destruct (Hlead eq_refl) as (f & f' & Hf & Hf' & Hz & Hg & Hph & Hl & He).
    exists f, f'. split_and!; try done; unfold page_acquiring, page_is_leader, validate_leader, acquiring; rewrite Hf', Hph; [done|].
    intros id'. rewrite Hl, He. simpl. case_bool_decide as E1; case_bool_decide as E2; try done; congruence.
Qed.

(** C11: No wake-up is lost.  In every reachable table a waiter whose wake target is stored and
    that has no error has nothing to collect: its flight has not settled for it and it is not
    its turn to lead; and every operation keeps each stored wake target or enqueues it, except
    that of the waiter it polls or detaches. *)
Theorem no_lost_wakeup limits w (Hrun : page_run limits w) :
  (∀ page f id wt, pf_flights w.1.1 !! page = Some f → waiters (pfl_state f) !! id = Some wt → w_error wt = None →
     is_Some (w_waker wt) → wait_ready (pfl_state f) wt = false) ∧
  ∀ op w' page f id wt tok, run_page w op = Some w' → pf_flights w.1.1 !! page = Some f → waiters (pfl_state f) !! id = Some wt →
    w_waker wt = Some tok → Some (page, id) ≠ subject op →
    tok ∈ w'.2 ∨ ∃ f' wt', pf_flights w'.1.1 !! page = Some f' ∧ waiters (pfl_state f') !! id = Some wt' ∧ w_waker wt' = Some tok.
Proof.
  destruct (page_run_ok _ _ Hrun) as [Ht _]. split.
  - intros page f id wt Hf Hw He Hk. exact (pcore_parked _ _ _ _ _ (proj1 (to_flight _ Ht page f Hf)) id wt Hw He Hk).
  - intros op w' page f id wt tok Hr Hf Hw Htok Hs. destruct (run_page_step w op Ht) as (w1 & Hr1 & _ & _ & _ & Hk).
    rewrite Hr in Hr1. simplify_eq. by apply (Hk page f id wt tok).
Qed.

(** A published page reaches everyone who waits for it.  When a leader's finish with a
    complete page is accepted and no operation is retained, every poll of an attached waiter
    that has no error and whose deadline is ahead, copy waiters included, returns the page. *)
Theorem publication_reaches_waiters t page id o c ws t' ws' f' id' wt now attempts token
    (Ho : split o = Published_Complete c) (Hfin : page_finish split t page id (Ok o) ws = (Ok (), (t', ws')))
    (Hf : pf_flights t' !! page = Some f') (Hops : pfl_operations f' = 0)
    (Hw : waiters (pfl_state f') !! id' = Some wt) (He : w_error wt = None) (Hd : now < pw_deadline (w_policy wt)) :
  fst <$> page_poll split t' page id' now attempts token ws' = Some (Ok (Wait_Ready (Settled_Complete c))).
Proof. eapply poll_complete; [exact Hf|by eapply publish_complete|by exists wt]. Qed.
End table.

(** ** A shared page *)

Module PageSample.

#[local] Notation Op := (PageOp (K := N) (O := Published N N)).
#[local] Notation Table := (PageFlights N N N (Published N N) ()).

Definition free (q : ()) (_ : Reserve) : result () Error * () := (Ok (), q).
Definition limits : FlightLimits := mkFlightLimits 4 4 4 4.
Definition page_start : @World N N N (Published N N) () () _ _ := (page_flights_new limits 0, (), []).

Fixpoint page_play (w : @World N N N (Published N N) () () _ _) (ops : list Op) : option (@World N N N (Published N N) () () _ _) :=
  match ops with
  | [] => Some w
  | op :: ops => match run_page Datatypes.id free w op with Some w => page_play w ops | None => None end
  end.

Lemma page_play_run w ops w' : page_run Datatypes.id free limits w → page_play w ops = Some w' → page_run Datatypes.id free limits w'.
Proof.
  revert w. induction ops as [|op ops IH]; intros w Hr; simpl; [by intros [= <-]|].
  destruct (run_page _ _ w op) as [w1|] eqn:Hs; [|done]. apply IH. by eapply pr_step.
Qed.

(** A reader and a copy reader join page 1; the copy reader parks token 11. *)
Definition joined : @World N N N (Published N N) () () _ _ :=
  default page_start (page_play page_start [PageOp_Join 1 0 100 1 false; PageOp_JoinCopy 1 0 100; PageOp_Poll 1 1 0 0 11]).
(** The reader is elected and its fetch is retained until it is done. *)
Definition page_led : @World N N N (Published N N) () () _ _ :=
  default page_start (page_play joined [PageOp_Poll 1 0 0 1 10; PageOp_Retain 1 0; PageOp_Complete 1]).
Definition published : @World N N N (Published N N) () () _ _ := default page_start (page_play page_led [PageOp_Finish 1 0 (Ok (Published_Complete 42))]).

Lemma page_start_run : page_run Datatypes.id free limits page_start.
Proof. apply pr_new. Qed.

Lemma joined_run : page_run Datatypes.id free limits joined.
Proof.
  apply (page_play_run page_start [PageOp_Join 1 0 100 1 false; PageOp_JoinCopy 1 0 100; PageOp_Poll 1 1 0 0 11]); [apply page_start_run|].
  vm_compute; reflexivity.
Qed.
End PageSample.

Lemma page_flights_bounded_witness : (size (pf_flights PageSample.joined.1.1) ≤ 4)%nat ∧ page_waiters PageSample.joined.1.1 1 = 2%nat.
Proof. split; [exact (proj1 (page_flights_bounded _ _ _ _ PageSample.joined_run))|vm_compute; reflexivity]. Defined.

Lemma one_acquisition_per_page_witness : ∃ t' ws',
  page_poll Datatypes.id PageSample.joined.1.1 1 0 0 1 10 PageSample.joined.2 = Some (Ok Wait_Lead, (t', ws')) ∧
  page_acquiring t' 1 = true ∧ page_is_leader t' 1 0 = true.
Proof.
  destruct (page_poll Datatypes.id PageSample.joined.1.1 1 0 0 1 10 PageSample.joined.2) as [[r [t' ws']]|] eqn:Hp; [|vm_compute in Hp; discriminate].
  assert (Hr : r = Ok Wait_Lead) by (vm_compute in Hp; injection Hp as <- _ _; reflexivity). subst r. exists t', ws'. split; [reflexivity|].
  destruct (proj2 (one_acquisition_per_page _ _ _ _ PageSample.joined_run) 1 0 0 1 10 t' ws' Hp) as (f & f' & _ & _ & _ & _ & Ha & Hl).
  split; [exact Ha|]. rewrite Hl. reflexivity.
Defined.

Lemma no_lost_wakeup_witness : ∃ f wt, pf_flights PageSample.joined.1.1 !! 1 = Some f ∧ waiters (pfl_state f) !! 1 = Some wt ∧
  w_waker wt = Some 11 ∧ wait_ready (pfl_state f) wt = false.
Proof.
  destruct (pf_flights PageSample.joined.1.1 !! 1) as [f|] eqn:Hf; [|vm_compute in Hf; discriminate].
  destruct (waiters (pfl_state f) !! 1) as [wt|] eqn:Hw; [|vm_compute in Hf; injection Hf as <-; vm_compute in Hw; discriminate].
  assert (Hk : w_waker wt = Some 11 ∧ w_error wt = None)
    by (vm_compute in Hf; injection Hf as <-; vm_compute in Hw; injection Hw as <-; split; reflexivity).
  exists f, wt. split; [reflexivity|]. split; [exact Hw|]. split; [exact (proj1 Hk)|].
  apply (proj1 (no_lost_wakeup _ _ _ _ PageSample.joined_run) 1 f 1 wt Hf Hw); [exact (proj2 Hk)|]. rewrite (proj1 Hk). eauto.
Defined.

Lemma publication_reaches_waiters_witness :
  fst <$> page_poll Datatypes.id PageSample.published.1.1 1 1 5 0 12 PageSample.published.2 = Some (Ok (Wait_Ready (Settled_Complete 42))).
Proof.
  destruct (pf_flights PageSample.published.1.1 !! 1) as [f|] eqn:Hf; [|vm_compute in Hf; discriminate].
  destruct (waiters (pfl_state f) !! 1) as [wt|] eqn:Hw; [|vm_compute in Hf; injection Hf as <-; vm_compute in Hw; discriminate].
  refine (publication_reaches_waiters Datatypes.id PageSample.page_led.1.1 1 0 (Published_Complete 42) 42 PageSample.page_led.2 _ _ f 1 wt 5 0 12
    eq_refl _ Hf _ Hw _ _).
  - vm_compute; reflexivity.
  - vm_compute in Hf. injection Hf as <-. reflexivity.
  - vm_compute in Hf. injection Hf as <-. vm_compute in Hw. injection Hw as <-. reflexivity.
  - vm_compute in Hf. injection Hf as <-. vm_compute in Hw. injection Hw as <-. reflexivity.
Defined.
