(* ===== verification/AdmissionRules.v ===== *)
(** * Admission rules

    [cmd/racer/core/src/admission.rs]: resource classes, per-worker limits, byte floors and the
    pure admission rules shared by the dataplane and the simulator.  [usize] values are [N];
    a [NonZeroUsize] is an [N] whose positivity is a hypothesis where it matters. *)

From S2P Require Import Prelude.

Inductive ResourceClass :=
| ResourceClass_Plaintext
| ResourceClass_Ciphertext
| ResourceClass_DirtyCiphertext
| ResourceClass_Registered
| ResourceClass_RequestContext
| ResourceClass_Flight
| ResourceClass_Waiter
| ResourceClass_Connection
| ResourceClass_Pipe
| ResourceClass_ControlProgress
| ResourceClass_Relay
| ResourceClass_IngressConnection
| ResourceClass_OutboundConnection
| ResourceClass_ControlConnection
| ResourceClass_OrdinaryOutboundConnection.

Definition class_all : list ResourceClass :=
  [ResourceClass_Plaintext; ResourceClass_Ciphertext; ResourceClass_DirtyCiphertext;
   ResourceClass_Registered; ResourceClass_RequestContext; ResourceClass_Flight;
   ResourceClass_Waiter; ResourceClass_Connection; ResourceClass_Pipe;
   ResourceClass_ControlProgress; ResourceClass_Relay; ResourceClass_IngressConnection;
   ResourceClass_OutboundConnection; ResourceClass_ControlConnection;
   ResourceClass_OrdinaryOutboundConnection].

(** [Class::index]: the discriminant. *)
Definition class_index (c : ResourceClass) : nat :=
  match c with
  | ResourceClass_Plaintext => 0
  | ResourceClass_Ciphertext => 1
  | ResourceClass_DirtyCiphertext => 2
  | ResourceClass_Registered => 3
  | ResourceClass_RequestContext => 4
  | ResourceClass_Flight => 5
  | ResourceClass_Waiter => 6
  | ResourceClass_Connection => 7
  | ResourceClass_Pipe => 8
  | ResourceClass_ControlProgress => 9
  | ResourceClass_Relay => 10
  | ResourceClass_IngressConnection => 11
  | ResourceClass_OutboundConnection => 12
  | ResourceClass_ControlConnection => 13
  | ResourceClass_OrdinaryOutboundConnection => 14
  end.

Definition CLASS_COUNT : nat := 15.

Definition requires_wipe (c : ResourceClass) : bool :=
  match c with ResourceClass_Ciphertext => false | _ => true end.

Definition METADATA_OUTBOUND_RESERVE : N := 1.

Definition MIB : N := 1024 * 1024.

Record Limits : Type := mkLimits {
  plaintext_bytes : N;
  ciphertext_bytes : N;
  dirty_bytes : N;
  registered_bytes : N;
  request_context_bytes : N;
  flights : N;
  waiters_per_flight : N;
  queue_entries : N;
  connections_per_neighbor : N;
  client_connections : N;
  pipes : N;
  range_window_pages : N;
  header_bytes : N;
  placement_cache_bytes : N;
  cached_paths : N;
  path_cache_bytes : N;
  active_path_searches : N;
  retained_snapshots : N;
  metadata_entries : N;
  relay_transfers : N;
}.

(** [Limits::default]. *)
Definition limits_default : Limits := {|
  plaintext_bytes := 64 * MIB;
  ciphertext_bytes := 128 * MIB;
  dirty_bytes := 160 * MIB;
  registered_bytes := 384 * MIB;
  request_context_bytes := 32 * MIB;
  flights := 64;
  waiters_per_flight := 64;
  queue_entries := 256;
  connections_per_neighbor := 2;
  client_connections := 64;
  pipes := 16;
  range_window_pages := 2;
  header_bytes := 32 * 1024;
  placement_cache_bytes := 16 * MIB;
  cached_paths := 128;
  path_cache_bytes := 8 * MIB;
  active_path_searches := 8;
  retained_snapshots := 2;
  metadata_entries := 4096;
  relay_transfers := 16;
|}.

Record Floors : Type := mkFloors {
  floor_plaintext : N;
  floor_ciphertext : N;
  floor_sealed : N;
  floor_record : N;
}.

Definition ALLOCATION_UNIT : N := 64 * 1024.

(** [Floors::for_page]. *)
Definition floors_for_page (page_bytes max_header_bytes : N) : Floors :=
  let record := (page_bytes + 16 + max_header_bytes + 4096)%N in
  mkFloors page_bytes (div_ceil record ALLOCATION_UNIT * ALLOCATION_UNIT) (page_bytes + 16)
           (page_bytes + 16 + max_header_bytes).

Record Rules : Type := mkRules {
  limits : Limits;
  floors : Floors;
}.

Definition control_limit (r : Rules) : N := N.min (client_connections (limits r) / 4) 3.

Definition outbound_limit (r : Rules) : N := (client_connections (limits r) / 4)%N.

(** [Rules::limit]; its recursive calls are on the two classes above. *)
Definition rules_limit (r : Rules) (class : ResourceClass) : N :=
  let l := limits r in
  match class with
  | ResourceClass_Plaintext => plaintext_bytes l
  | ResourceClass_Ciphertext => ciphertext_bytes l
  | ResourceClass_DirtyCiphertext => dirty_bytes l
  | ResourceClass_Registered => registered_bytes l
  | ResourceClass_RequestContext => request_context_bytes l
  | ResourceClass_Flight => flights l
  | ResourceClass_Waiter => saturating_mul USIZE_MAX (flights l) (waiters_per_flight l)
  | ResourceClass_Connection => client_connections l
  | ResourceClass_ControlConnection => control_limit r
  | ResourceClass_OutboundConnection => outbound_limit r
  | ResourceClass_OrdinaryOutboundConnection =>
      let outbound := outbound_limit r in
      outbound - (if 2 <=? outbound then 1 else 0) * METADATA_OUTBOUND_RESERVE
  | ResourceClass_IngressConnection => client_connections l - (control_limit r + outbound_limit r)
  | ResourceClass_Pipe => pipes l
  | ResourceClass_ControlProgress => queue_entries l
  | ResourceClass_Relay => relay_transfers l
  end%N.

(** [Rules::floor]. *)
Definition rules_floor (r : Rules) (class : ResourceClass) : N :=
  match class with
  | ResourceClass_Plaintext => floor_plaintext (floors r)
  | ResourceClass_Ciphertext => floor_ciphertext (floors r)
  | ResourceClass_DirtyCiphertext | ResourceClass_Registered => floor_sealed (floors r)
  | _ => 1
  end%N.

(** [Rules::progress]. *)
Definition rules_progress (r : Rules) (class : ResourceClass) : N :=
  let window := range_window_pages (limits r) in
  match class with
  | ResourceClass_Plaintext =>
      saturating_mul USIZE_MAX (saturating_add USIZE_MAX window 1) (floor_plaintext (floors r))
  | ResourceClass_Ciphertext =>
      saturating_add USIZE_MAX (saturating_mul USIZE_MAX window (floor_sealed (floors r)))
        (floor_record (floors r))
  | _ => 0
  end%N.

(** [Rules::weighted], [wakes], [allows_stopped], [covers], [max_keys]. *)
Definition rules_weighted (class : ResourceClass) : bool :=
  match class with
  | ResourceClass_Plaintext | ResourceClass_Ciphertext | ResourceClass_DirtyCiphertext => true
  | _ => false
  end.

Definition rules_max_keys (r : Rules) : N := metadata_entries (limits r).

Definition rules_wakes (class : ResourceClass) : bool :=
  match class with ResourceClass_Connection | ResourceClass_IngressConnection => true | _ => false end.

Definition rules_allows_stopped (class : ResourceClass) : bool :=
  match class with ResourceClass_ControlProgress => true | _ => false end.

Definition rules_covers (class : ResourceClass) : bool :=
  match class with ResourceClass_Ciphertext => true | _ => false end.

(** The discriminants number the listed classes. *)
Lemma class_index_all c : class_all !! class_index c = Some c.
Proof. by destruct c. Qed.

Lemma class_index_bound c : class_index c < CLASS_COUNT.
Proof. apply (lookup_lt_Some class_all _ c), class_index_all. Qed.

(** Every floor fits the allocation behind it. *)
Lemma floors_nested page_bytes header :
  let f := floors_for_page page_bytes header in
  (floor_plaintext f ≤ floor_sealed f ∧ floor_sealed f ≤ floor_record f ∧
   floor_record f + 4096 ≤ floor_ciphertext f ∧ floor_ciphertext f mod ALLOCATION_UNIT = 0 ∧
   floor_ciphertext f < floor_record f + 4096 + ALLOCATION_UNIT)%N.
Proof.
  unfold floors_for_page, div_ceil. cbv zeta. cbn [floor_plaintext floor_ciphertext floor_sealed floor_record].
  set (rec := (page_bytes + 16 + header + 4096)%N).
  pose proof (N.div_mod (rec + ALLOCATION_UNIT - 1) ALLOCATION_UNIT ltac:(done)) as Hd.
  pose proof (N.mod_lt (rec + ALLOCATION_UNIT - 1) ALLOCATION_UNIT ltac:(done)) as Hm.
  set (q := ((rec + ALLOCATION_UNIT - 1) / ALLOCATION_UNIT)%N) in *.
  set (m := ((rec + ALLOCATION_UNIT - 1) mod ALLOCATION_UNIT)%N) in *.
  split_and!; [lia|lia| |by apply N.Div0.mod_mul|]; unfold ALLOCATION_UNIT in *; subst rec; lia.
Qed.

(** The connection budget is split without overlap or loss.  Control, outbound and ingress
    sockets together use exactly the client connections; ingress always keeps at least half
    of them and at least one; ordinary outbound traffic leaves the metadata reserve free
    whenever a worker has two outbound slots, and keeps a slot whenever it has one. *)
Theorem connection_split r :
  (0 < client_connections (limits r))%N →
  let ingress := rules_limit r ResourceClass_IngressConnection in
  let control := rules_limit r ResourceClass_ControlConnection in
  let outbound := rules_limit r ResourceClass_OutboundConnection in
  let ordinary := rules_limit r ResourceClass_OrdinaryOutboundConnection in
  (ingress + control + outbound = rules_limit r ResourceClass_Connection ∧
   client_connections (limits r) ≤ 2 * ingress ∧ 0 < ingress ∧ control ≤ 3 ∧
   (2 ≤ outbound → ordinary + METADATA_OUTBOUND_RESERVE = outbound) ∧
   (0 < outbound → 0 < ordinary ≤ outbound))%N.
Proof.
  intros Hc. cbv zeta. cbn [rules_limit]. cbv zeta.
  unfold control_limit, outbound_limit, METADATA_OUTBOUND_RESERVE.
  set (c := client_connections (limits r)) in *.
  pose proof (N.div_mod c 4 ltac:(done)) as Hd. pose proof (N.mod_lt c 4 ltac:(done)) as Hm.
  set (q := (c / 4)%N) in *. set (m := (c mod 4)%N) in *. clearbody m q c.
  destruct (N.leb_spec 2 q); split_and!; lia.
Qed.

Lemma connection_split_witness :
  (rules_limit (mkRules limits_default (floors_for_page (4 * MIB) 512)) ResourceClass_IngressConnection = 45)%N.
Proof.
  destruct (connection_split (mkRules limits_default (floors_for_page (4 * MIB) 512)) eq_refl) as [E _].
  change (rules_limit _ ResourceClass_ControlConnection) with 3%N in E.
  change (rules_limit _ ResourceClass_OutboundConnection) with 16%N in E.
  change (rules_limit _ ResourceClass_Connection) with 64%N in E. lia.
Defined.
