(* ===== verification/Shares.v ===== *)
(** * Fair shares of the disk

    The published priorities of caches as weights ([src/priority.rs]) and the payload that a worker's retention policy charges to each
    cache ([src/retention.rs]), with the two derived structures it keeps up to date: the count of resident caches that are not
    published, and the resident caches in the order of their pressure.  The table is read and written by one step at a time.  A panic
    is [None]. *)

From S2P Require Import Prelude Bytes.
Local Open Scope racer_scope.
Local Open Scope N_scope.

(** ** Weights *)

Definition DEFAULT_PRIORITY : N := 500.

Record WeightTable := mkWeightTable { tb_weights : gmap (list N) N; tb_total : N; tb_generation : N }.
Definition table_new : WeightTable := mkWeightTable ∅ 0 0.

(** [update] from the identities and priorities of the published catalog; the last definition of a cache counts. *)
Definition catalog_weights (caches : list (list N * N)) : gmap (list N) N := foldl (λ m '(cache, priority), <[cache := priority]> m) ∅ caches.
Definition table_update (t : WeightTable) (caches : list (list N * N)) : bool * WeightTable :=
  let next := catalog_weights caches in
  if bool_decide (tb_weights t = next) then (false, t)
  else (true, mkWeightTable next (map_sum id next) (tb_generation t + 1)).

(** [weight], [weight_at]. *)
Definition weight_of (t : WeightTable) (cache : list N) : N := default DEFAULT_PRIORITY (tb_weights t !! cache).
Definition weight_at (t : WeightTable) (cache : list N) (generation : N) : option N := if tb_generation t =? generation then Some (weight_of t cache) else None.

Record ShareBasis := mkBasis { sb_published : bool; sb_total : N; sb_members : N }.
Record Unpublished := mkUnpublished { up_generation : N; up_count : N }.

(** Members that are not in the table count with the default priority. *)
Definition unknown_count (t : WeightTable) (extra : list (list N)) : N := len (filter (λ cache, tb_weights t !! cache = None) extra).
Definition basis_of (t : WeightTable) (unknown : N) : ShareBasis :=
  mkBasis (negb (bool_decide (tb_weights t = ∅))) (tb_total t + unknown * DEFAULT_PRIORITY) (N.of_nat (size (tb_weights t)) + unknown).

(** [basis], [unpublished], [published_at], [basis_from]. *)
Definition weights_basis (t : WeightTable) (extra : list (list N)) : ShareBasis := basis_of t (unknown_count t extra).
Definition count_unpublished (t : WeightTable) (extra : list (list N)) : Unpublished := mkUnpublished (tb_generation t) (unknown_count t extra).
Definition published_at (t : WeightTable) (cache : list N) (generation : N) : option bool :=
  if tb_generation t =? generation then Some (is_some (tb_weights t !! cache)) else None.
Definition basis_from (t : WeightTable) (u : Unpublished) : option ShareBasis := if tb_generation t =? up_generation u then Some (basis_of t (up_count u)) else None.

(** [ShareBasis::share]; the quotient is cut to 64 bits. *)
Definition basis_share (b : ShareBasis) (capacity weight : N) : N :=
  if sb_total b =? 0 then capacity / N.max (sb_members b) 1 else (capacity * weight / sb_total b) mod (U64_MAX + 1).

(** [share_in], [shares]. *)
Definition share_in (t : WeightTable) (b : ShareBasis) (capacity : N) (cache : list N) : N :=
  if sb_published b then basis_share b capacity (weight_of t cache) else capacity.
Definition shares (t : WeightTable) (capacity : N) (caches : list (list N)) : list N :=
  let b := weights_basis t caches in share_in t b capacity <$> caches.

(** ** Pressure *)

Record Pressure := mkPressure { pr_resident : N; pr_weight : N; pr_cache : list N }.

(** [Ord for Pressure]: bytes per unit of weight, without a division. *)
Definition pressure_cmp (a b : Pressure) : comparison :=
  let ratio := if (pr_weight a =? 0) && (pr_weight b =? 0) then Eq
               else if pr_weight a =? 0 then Gt
               else if pr_weight b =? 0 then Lt
               else (pr_resident a * pr_weight b ?= pr_resident b * pr_weight a) in
  then_compare ratio (then_compare (pr_resident a ?= pr_resident b) (bytes_compare (pr_cache b) (pr_cache a))).

(** [BTreeSet]: its elements in increasing order. *)
Fixpoint set_insert (p : Pressure) (l : list Pressure) : list Pressure :=
  match l with
  | [] => [p]
  | q :: l => match pressure_cmp p q with Lt => p :: q :: l | Eq => q :: l | Gt => q :: set_insert p l end
  end.
Fixpoint set_remove (p : Pressure) (l : list Pressure) : list Pressure :=
  match l with
  | [] => []
  | q :: l => match pressure_cmp p q with Lt => q :: l | Eq => l | Gt => q :: set_remove p l end
  end.

Record PressureOrder := mkPressureOrder { po_generation : N; po_order : list Pressure }.

(** ** Charged payload *)

(** The fields of [Retention] that account for payload. *)
Record Retention := mkRetention {
  rt_pending : N;
  rt_indexed : N;
  rt_cache_bytes : gmap (list N) N;
  rt_weights : WeightTable;
  rt_unpublished : option Unpublished;
  rt_pressure : option PressureOrder
}.
Definition retention_new : Retention := mkRetention 0 0 ∅ table_new None None.

(** [set_weights], and an update of the shared table. *)
Definition set_weights (r : Retention) (t : WeightTable) : Retention := mkRetention (rt_pending r) (rt_indexed r) (rt_cache_bytes r) t None None.
Definition with_weight_table (r : Retention) (t : WeightTable) : Retention :=
  mkRetention (rt_pending r) (rt_indexed r) (rt_cache_bytes r) t (rt_unpublished r) (rt_pressure r).
Definition with_unpublished (r : Retention) (u : option Unpublished) : Retention :=
  mkRetention (rt_pending r) (rt_indexed r) (rt_cache_bytes r) (rt_weights r) u (rt_pressure r).
Definition with_pressure (r : Retention) (o : option PressureOrder) : Retention :=
  mkRetention (rt_pending r) (rt_indexed r) (rt_cache_bytes r) (rt_weights r) (rt_unpublished r) o.
Definition with_cache_bytes (r : Retention) (m : gmap (list N) N) : Retention :=
  mkRetention (rt_pending r) (rt_indexed r) m (rt_weights r) (rt_unpublished r) (rt_pressure r).

(** The keys of [cache_bytes]. *)
Definition resident_caches (r : Retention) : list (list N) := (map_to_list (rt_cache_bytes r)).*1.

(** [share_basis]; a recount under the same table is accepted, so the loop ends after one round. *)
Definition share_basis (r : Retention) : option (ShareBasis * Retention) :=
  match u ← rt_unpublished r; basis_from (rt_weights r) u with
  | Some b => Some (b, r)
  | None =>
      let counted := count_unpublished (rt_weights r) (resident_caches r) in
      b ← basis_from (rt_weights r) counted; Some (b, with_unpublished r (Some counted))
  end.

(** [member_changed]; the subtraction panics below zero. *)
Definition member_changed (r : Retention) (cache : list N) (joined : bool) : option Retention :=
  match rt_unpublished r with
  | None => Some r
  | Some u =>
      match published_at (rt_weights r) cache (up_generation u) with
      | Some true => Some r
      | Some false =>
          count ← (if joined then Some (up_count u + 1) else checked_sub (up_count u) 1);
          Some (with_unpublished r (Some (mkUnpublished (up_generation u) count)))
      | None => Some (with_unpublished r None)
      end
  end.

(** [pressure_changed]. *)
Definition pressure_changed (r : Retention) (cache : list N) (old new : N) : Retention :=
  match rt_pressure r with
  | None => r
  | Some o =>
      match weight_at (rt_weights r) cache (po_generation o) with
      | None => with_pressure r None
      | Some weight =>
          let order := if old =? 0 then po_order o else set_remove (mkPressure old weight cache) (po_order o) in
          let order := if new =? 0 then order else set_insert (mkPressure new weight cache) order in
          with_pressure r (Some (mkPressureOrder (po_generation o) order))
      end
  end.

(** [pressure_order]; the set built from a map does not depend on the order in which the map is walked. *)
Definition pressure_rebuild (r : Retention) : PressureOrder :=
  mkPressureOrder (tb_generation (rt_weights r))
    (foldl (λ order '(cache, resident), set_insert (mkPressure resident (weight_of (rt_weights r) cache) cache) order) [] (map_to_list (rt_cache_bytes r))).
Definition pressure_order (r : Retention) (limit : nat) : list (list N) * Retention :=
  let o := match rt_pressure r with
           | Some o => if po_generation o =? tb_generation (rt_weights r) then o else pressure_rebuild r
           | None => pressure_rebuild r
           end in
  (pr_cache <$> take limit (reverse (po_order o)), with_pressure r (Some o)).

(** A [Payload]: its bytes and, when it is indexed, the cache they are charged to. *)
Record Payload := mkPayload { pl_bytes : N; pl_indexed : bool; pl_cache : option (list N) }.

(** [payload]; a gauge that overflows panics. *)
Definition payload_new (r : Retention) (bytes : N) (indexed : bool) : option (Payload * Retention) :=
  if indexed then
    gauge ← checked_add U64_MAX (rt_indexed r) bytes;
    Some (mkPayload bytes true None, mkRetention (rt_pending r) gauge (rt_cache_bytes r) (rt_weights r) (rt_unpublished r) (rt_pressure r))
  else
    gauge ← checked_add U64_MAX (rt_pending r) bytes;
    Some (mkPayload bytes false None, mkRetention gauge (rt_indexed r) (rt_cache_bytes r) (rt_weights r) (rt_unpublished r) (rt_pressure r)).

(** [indexed_payload]. *)
Definition indexed_payload (r : Retention) (cache : list N) (bytes : N) : option (Payload * Retention) :=
  '(p, r) ← payload_new r bytes true;
  let old := default 0 (rt_cache_bytes r !! cache) in
  new ← checked_add U64_MAX old bytes;
  let r := pressure_changed (with_cache_bytes r (<[cache := new]> (rt_cache_bytes r))) cache old new in
  r ← (if old =? 0 then member_changed r cache true else Some r);
  Some (mkPayload (pl_bytes p) (pl_indexed p) (Some cache), r).

(** [Drop for Payload]. *)
Definition payload_drop (r : Retention) (p : Payload) : option Retention :=
  r ← (if pl_indexed p
       then gauge ← checked_sub (rt_indexed r) (pl_bytes p);
            Some (mkRetention (rt_pending r) gauge (rt_cache_bytes r) (rt_weights r) (rt_unpublished r) (rt_pressure r))
       else gauge ← checked_sub (rt_pending r) (pl_bytes p);
            Some (mkRetention gauge (rt_indexed r) (rt_cache_bytes r) (rt_weights r) (rt_unpublished r) (rt_pressure r)));
  match pl_cache p with
  | None => Some r
  | Some cache =>
      old ← rt_cache_bytes r !! cache;
      new ← checked_sub old (pl_bytes p);
      let m := if new =? 0 then delete cache (rt_cache_bytes r) else <[cache := new]> (rt_cache_bytes r) in
      let r := pressure_changed (with_cache_bytes r m) cache old new in
      if new =? 0 then member_changed r cache false else Some r
  end.

(** ** Classification *)

(** [over_share]. *)
Definition over_share (resident share capacity : N) : bool := (share <? capacity) && (share <? resident).

(** [cache_payload_bytes], [Retention::over_share]. *)
Definition cache_payload_bytes (r : Retention) (cache : list N) : N := default 0 (rt_cache_bytes r !! cache).
Definition retention_over_share (r : Retention) (cache : list N) (capacity : N) : option (bool * Retention) :=
  let resident := cache_payload_bytes r cache in
  if resident =? 0 then Some (false, r)
  else '(b, r) ← share_basis r; Some (over_share resident (share_in (rt_weights r) b capacity cache) capacity, r).

(** [cache_disk]: the residency and share of every cache of the catalog or with resident payload. *)
Record CacheDisk := mkCacheDisk { cd_cache : list N; cd_resident : N; cd_share : N }.
Definition cache_disk (r : Retention) (capacity : N) : list CacheDisk :=
  let caches := resident_caches r ++ filter (λ c, rt_cache_bytes r !! c = None) (map_to_list (tb_weights (rt_weights r))).*1 in
  let caches := sort_by (λ a b, not_gt (bytes_compare a b)) caches in
  zip_with (λ cache share, mkCacheDisk cache (cache_payload_bytes r cache) share) caches (shares (rt_weights r) capacity caches).

(** A [Scoring] pass: the basis and the classifications it has pinned so far. *)
Record Scoring := mkScoring { sk_capacity : N; sk_basis : option ShareBasis; sk_classified : gmap (list N) bool; sk_any : option bool }.
Definition scoring_at (capacity : N) : Scoring := mkScoring capacity None ∅ None.

(** [Scoring::classify], [Scoring::over_share]. *)
Definition scoring_over_share (k : Scoring) (r : Retention) (cache : list N) : option (bool * Scoring * Retention) :=
  match sk_classified k !! cache with
  | Some over => Some (over, k, r)
  | None =>
      let resident := cache_payload_bytes r cache in
      let with_class := λ over basis, mkScoring (sk_capacity k) basis (<[cache := over]> (sk_classified k)) (sk_any k) in
      if resident =? 0 then Some (false, with_class false (sk_basis k), r)
      else
        '(b, r) ← (match sk_basis k with Some b => Some (b, r) | None => share_basis r end);
        let over := over_share resident (share_in (rt_weights r) b (sk_capacity k) cache) (sk_capacity k) in
        Some (over, with_class over (Some b), r)
  end.

(** [over_share_candidates]: [retain] over the top of the pressure order. *)
Fixpoint retain_over (k : Scoring) (r : Retention) (caches : list (list N)) : option (list (list N) * Scoring * Retention) :=
  match caches with
  | [] => Some ([], k, r)
  | cache :: caches =>
      '(over, k, r) ← scoring_over_share k r cache;
      '(kept, k, r) ← retain_over k r caches;
      Some (if (over : bool) then cache :: kept else kept, k, r)
  end.
Definition over_share_candidates (k : Scoring) (r : Retention) (limit : nat) : option (list (list N) * Scoring * Retention) :=
  let '(caches, r) := pressure_order r limit in retain_over k r caches.

(** [any_over_share]. *)
Definition any_over_share (k : Scoring) (r : Retention) : option (bool * Scoring * Retention) :=
  match sk_any k with
  | Some any => Some (any, k, r)
  | None =>
      '(caches, k, r) ← over_share_candidates k r 2;
      let any := negb (bool_decide (caches = [])) in
      Some (any, mkScoring (sk_capacity k) (sk_basis k) (sk_classified k) (Some any), r)
  end.

(** [rank] of a page with the retention score [score]. *)
Definition scoring_rank (k : Scoring) (r : Retention) (cache : list N) (score : N) : option (N * Scoring * Retention) :=
  '(over, k, r) ← scoring_over_share k r cache; Some (N.lor (N.shiftl (if (over : bool) then 0 else 1) 8) score, k, r).

(** ** Runs *)

(** What happens to a worker's policy: payload is charged and dropped, the catalog changes or is replaced, passes look at the shares. *)
Inductive ShareEvent :=
| Share_Index (cache : list N) (bytes : N)
| Share_Pending (bytes : N)
| Share_Drop (payload : nat)
| Share_Update (caches : list (list N * N))
| Share_Replace (catalogs : list (list (list N * N)))
| Share_Over (cache : list N) (capacity : N)
| Share_Any (capacity : N)
| Share_Candidates (capacity : N) (limit : nat).

(** The policy with the payloads that are alive. *)
Record ShareState := mkShareState { sh_retention : Retention; sh_live : list Payload }.

Definition share_step (s : ShareState) (e : ShareEvent) : option ShareState :=
  let r := sh_retention s in
  let keep := λ r, mkShareState r (sh_live s) in
  match e with
  | Share_Index cache bytes => '(p, r) ← indexed_payload r cache bytes; Some (mkShareState r (p :: sh_live s))
  | Share_Pending bytes => '(p, r) ← payload_new r bytes false; Some (mkShareState r (p :: sh_live s))
  | Share_Drop k =>
      match sh_live s !! k with
      | None => Some s
      | Some p => r ← payload_drop r p; Some (mkShareState r (delete k (sh_live s)))
      end
  | Share_Update caches => Some (keep (with_weight_table r (table_update (rt_weights r) caches).2))
  | Share_Replace catalogs => Some (keep (set_weights r (foldl (λ t caches, (table_update t caches).2) table_new catalogs)))
  | Share_Over cache capacity => '(_, r) ← retention_over_share r cache capacity; Some (keep r)
  | Share_Any capacity => '(_, _, r) ← any_over_share (scoring_at capacity) r; Some (keep r)
  | Share_Candidates capacity limit => '(_, _, r) ← over_share_candidates (scoring_at capacity) r limit; Some (keep r)
  end.

Fixpoint share_run (s : ShareState) (es : list ShareEvent) : option ShareState :=
  match es with
  | [] => Some s
  | e :: es => s ← share_step s e; share_run s es
  end.
