(* ===== verification/ShareRuns.v ===== *)
(** * Fair shares of the disk: all runs

    What the retention policy keeps up to date always equals a recount, and looking only at the top of the pressure order misses no
    cache that is over its share. *)

From S2P Require Import Prelude Bytes Shares.
Local Open Scope racer_scope.
Local Open Scope N_scope.

(** ** The pressure order *)

Definition pressure_lt (a b : Pressure) : Prop := pressure_cmp a b = Lt.

Definition ratio_cmp (a b : Pressure) : comparison :=
  if (pr_weight a =? 0) && (pr_weight b =? 0) then Eq
  else if pr_weight a =? 0 then Gt
  else if pr_weight b =? 0 then Lt
  else (pr_resident a * pr_weight b ?= pr_resident b * pr_weight a).

Lemma pressure_cmp_ratio a b : pressure_cmp a b =
  then_compare (ratio_cmp a b) (then_compare (pr_resident a ?= pr_resident b) (bytes_compare (pr_cache b) (pr_cache a))).
Proof. done. Qed.

Lemma ratio_cmp_opp a b : ratio_cmp b a = CompOpp (ratio_cmp a b).
Proof.
  unfold ratio_cmp. destruct (N.eqb_spec (pr_weight a) 0) as [Ha|Ha], (N.eqb_spec (pr_weight b) 0) as [Hb|Hb]; cbn [andb]; [done..|]. by rewrite <- N.compare_antisym.
Qed.

(** The ratios of two elements, related through a third. *)
Lemma ratio_cmp_trans a b d x : ratio_cmp a b = x → (x = Lt → ratio_cmp b d ≠ Gt → ratio_cmp a d = Lt) ∧ (x = Eq → ratio_cmp a d = ratio_cmp b d).
Proof.
  unfold ratio_cmp. intros <-. destruct (N.eqb_spec (pr_weight a) 0) as [Ha|], (N.eqb_spec (pr_weight b) 0) as [Hb|], (N.eqb_spec (pr_weight d) 0) as [Hd|]; cbn [andb];
    (split; [try done|try done]).
  - destruct (N.compare_spec (pr_resident a * pr_weight b) (pr_resident b * pr_weight a)) as [| |]; try done. intros _.
    destruct (N.compare_spec (pr_resident b * pr_weight d) (pr_resident d * pr_weight b)) as [| |]; try done; intros _; apply N.compare_lt_iff; nia.
  - intros ?%N.compare_eq_iff. destruct (N.compare_spec (pr_resident b * pr_weight d) (pr_resident d * pr_weight b)) as [| |];
      [apply N.compare_eq_iff|apply N.compare_lt_iff|apply N.compare_gt_iff]; nia.
Qed.

Lemma pressure_cmp_opp a b : pressure_cmp b a = CompOpp (pressure_cmp a b).
Proof.
  rewrite !pressure_cmp_ratio, ratio_cmp_opp, (N.compare_antisym (pr_resident a)), (lc_opp _ lawful_bytes (pr_cache b) (pr_cache a)).
  by destruct (ratio_cmp a b), (pr_resident a ?= pr_resident b).
Qed.

Lemma pressure_lt_trans a b d : pressure_lt a b → pressure_lt b d → pressure_lt a d.
Proof.
  unfold pressure_lt. rewrite !pressure_cmp_ratio. destruct (ratio_cmp_trans a b d _ eq_refl) as [Hlt Heq]. destruct (ratio_cmp a b); cbn [then_compare]; [|..|done].
  - rewrite (Heq eq_refl). intros H1. destruct (ratio_cmp b d); cbn [then_compare]; [|done..]. revert H1.
    destruct (N.compare_spec (pr_resident a) (pr_resident b)) as [->|H|H]; cbn [then_compare]; [|intros _|done].
    + intros H1. destruct (pr_resident b ?= pr_resident d); cbn [then_compare]; [|done..]. intros H2. by eapply (lc_trans _ lawful_bytes).
    + destruct (N.compare_spec (pr_resident b) (pr_resident d)) as [<-|H'|H']; cbn [then_compare]; [| |done]; intros _; by rewrite (proj2 (N.compare_lt_iff _ _)) by lia.
  - intros _ H2. rewrite Hlt; [done|done|]. by destruct (ratio_cmp b d).
Qed.

Lemma pressure_cmp_eq a b : pressure_cmp a b = Eq → pr_cache a = pr_cache b.
Proof.
  rewrite pressure_cmp_ratio. destruct (ratio_cmp a b); [|done..]. destruct (pr_resident a ?= pr_resident b); [|done..]. cbn [then_compare]. intros H.
  symmetry. by apply (lc_eq _ lawful_bytes).
Qed.

Lemma pressure_cmp_refl a : pressure_cmp a a = Eq.
Proof. pose proof (pressure_cmp_opp a a) as H. by destruct (pressure_cmp a a). Qed.

(** ** The set *)

Lemma set_insert_spec p l : StronglySorted pressure_lt l → (∀ q, q ∈ l → pr_cache q ≠ pr_cache p) →
  StronglySorted pressure_lt (set_insert p l) ∧ set_insert p l ≡ₚ p :: l.
Proof.
  induction 1 as [|q l Hs IH Hall]; intros Hne; cbn [set_insert]; [by repeat constructor|]. destruct (pressure_cmp p q) eqn:E.
  - by apply pressure_cmp_eq, eq_sym, Hne in E; [|left].
  - split; [|done]. constructor; [by constructor|]. constructor; [done|]. eapply Forall_impl; [exact Hall|]. intros d. by apply pressure_lt_trans.
  - destruct IH as [IHs IHp]; [intros; apply Hne; by right|]. split; [|rewrite IHp; apply Permutation_swap]. constructor; [done|]. rewrite IHp. constructor; [|done].
    unfold pressure_lt. by rewrite pressure_cmp_opp, E.
Qed.

Lemma set_remove_spec p l : StronglySorted pressure_lt l → p ∈ l → StronglySorted pressure_lt (set_remove p l) ∧ l ≡ₚ p :: set_remove p l.
Proof.
  induction 1 as [|q l Hs IH Hall]; cbn [set_remove]; [by intros ?%elem_of_nil|]. intros [->|Hin]%elem_of_cons; [by rewrite pressure_cmp_refl|].
  rewrite Forall_forall in Hall. pose proof (Hall p Hin) as Hq. rewrite pressure_cmp_opp. unfold pressure_lt in Hq. rewrite Hq. cbn [CompOpp].
  destruct (IH Hin) as [IHs IHp]. split; [|rewrite IHp at 1; apply Permutation_swap]. constructor; [done|]. apply Forall_forall. intros x Hx. apply Hall. rewrite IHp. by right.
Qed.

(** The order of the resident caches under a table. *)
Record order_ok (t : WeightTable) (m : gmap (list N) N) (l : list Pressure) : Prop := {
  oo_sorted : StronglySorted pressure_lt l;
  oo_members : l ≡ₚ (λ '(cache, resident), mkPressure resident (weight_of t cache) cache) <$> map_to_list m
}.

Definition entry_pressure (t : WeightTable) : list N * N → Pressure := λ '(cache, resident), mkPressure resident (weight_of t cache) cache.

Lemma order_elem t m l p : order_ok t m l → p ∈ l ↔ m !! pr_cache p = Some (pr_resident p) ∧ pr_weight p = weight_of t (pr_cache p).
Proof.
  intros [_ Hp]. rewrite Hp, list_elem_of_fmap. split.
  - intros ([cache resident] & -> & Hin%elem_of_map_to_list). done.
  - intros [Hm Hw]. exists (pr_cache p, pr_resident p). split; [|by apply elem_of_map_to_list]. destruct p; simpl in *. by rewrite Hw.
Qed.

Lemma rebuild_ok r : order_ok (rt_weights r) (rt_cache_bytes r) (po_order (pressure_rebuild r)).
Proof.
  unfold pressure_rebuild. simpl. set (t := rt_weights r).
  assert (∀ entries l, NoDup entries.*1 → (∀ q, q ∈ l → pr_cache q ∉ entries.*1) → StronglySorted pressure_lt l →
    let l' := foldl (λ order '(cache, resident), set_insert (mkPressure resident (weight_of t cache) cache) order) l entries in
    StronglySorted pressure_lt l' ∧ l' ≡ₚ (entry_pressure t <$> entries) ++ l) as H.
  { induction entries as [|[cache resident] entries IH]; intros l Hnd Hdis Hs; [by split|]. rewrite fmap_cons in Hnd, Hdis. apply NoDup_cons in Hnd as [Hnin Hnd].
    cbn [foldl]. destruct (set_insert_spec (mkPressure resident (weight_of t cache) cache) l Hs) as [Hs' Hp'].
    { intros q Hq He. apply (Hdis q Hq). simpl in *. rewrite He. by left. }
    destruct (IH (set_insert (mkPressure resident (weight_of t cache) cache) l) Hnd) as [IHs IHp]; [|exact Hs'|].
    { intros q. rewrite Hp'. intros [->|Hq]%elem_of_cons; [done|]. intros Hin. apply (Hdis q Hq). by right. }
    split; [done|]. rewrite IHp, Hp', fmap_cons. cbn [app entry_pressure]. by rewrite <- Permutation_middle. }
  destruct (H (map_to_list (rt_cache_bytes r)) []) as [Hs Hp]; [apply NoDup_fst_map_to_list|by intros q ?%elem_of_nil|constructor|].
  split; [exact Hs|]. rewrite Hp, app_nil_r. done.
Qed.

(** ** One cache changes *)

Definition keys (m : gmap (list N) N) : list (list N) := (map_to_list m).*1.

Lemma order_insert t m l cache v : m !! cache = None → order_ok t m l → order_ok t (<[cache := v]> m) (set_insert (mkPressure v (weight_of t cache) cache) l).
Proof.
  intros Hm Ho. destruct (set_insert_spec (mkPressure v (weight_of t cache) cache) l (oo_sorted _ _ _ Ho)) as [Hs Hp].
  { intros q Hq. apply (order_elem t m l q Ho) in Hq as [Hq _]. simpl. congruence. }
  split; [done|]. rewrite Hp, (oo_members _ _ _ Ho), map_to_list_insert by done. done.
Qed.

Lemma order_delete t m l cache v : m !! cache = Some v → order_ok t m l → order_ok t (delete cache m) (set_remove (mkPressure v (weight_of t cache) cache) l).
Proof.
  intros Hm Ho. destruct (set_remove_spec (mkPressure v (weight_of t cache) cache) l (oo_sorted _ _ _ Ho)) as [Hs Hp]; [by apply (order_elem t m l _ Ho)|].
  split; [done|]. pose proof (Permutation_trans (Permutation_sym Hp) (oo_members _ _ _ Ho)) as H. rewrite <- (map_to_list_delete m cache v Hm), fmap_cons in H.
  exact (Permutation_cons_inv H).
Qed.

Lemma unknown_insert t m cache v : m !! cache = None →
  unknown_count t (keys (<[cache := v]> m)) = (if is_some (tb_weights t !! cache) then 0 else 1) + unknown_count t (keys m).
Proof.
  intros Hm. unfold unknown_count, keys, len. assert (filter (λ c, tb_weights t !! c = None) (map_to_list (<[cache := v]> m)).*1 ≡ₚ
    filter (λ c, tb_weights t !! c = None) (cache :: (map_to_list m).*1)) as Hp by (by rewrite map_to_list_insert by done).
  rewrite (Permutation_length Hp), filter_cons. destruct (tb_weights t !! cache) as [w|]; [rewrite decide_False by done|rewrite decide_True by done]; simpl; lia.
Qed.

Lemma unknown_delete t m cache v : m !! cache = Some v →
  unknown_count t (keys m) = (if is_some (tb_weights t !! cache) then 0 else 1) + unknown_count t (keys (delete cache m)).
Proof. intros Hm. rewrite <- (unknown_insert t (delete cache m) cache v) by apply lookup_delete_eq. by rewrite insert_delete_id. Qed.

(** What is derived from the residency agrees with it, unless the table has changed since. *)
Record derived_ok (r : Retention) : Prop := {
  dv_unpublished : ∀ u, rt_unpublished r = Some u → up_generation u <= tb_generation (rt_weights r) ∧
    (up_generation u = tb_generation (rt_weights r) → up_count u = unknown_count (rt_weights r) (keys (rt_cache_bytes r)));
  dv_pressure : ∀ o, rt_pressure r = Some o → po_generation o <= tb_generation (rt_weights r) ∧
    (po_generation o = tb_generation (rt_weights r) → order_ok (rt_weights r) (rt_cache_bytes r) (po_order o))
}.

(** The residency of a cache moves from [old] to [new]. *)
Definition moved (m : gmap (list N) N) (cache : list N) (new : N) : gmap (list N) N := if new =? 0 then delete cache m else <[cache := new]> m.

(** The fields that nothing derived depends on are kept. *)
Definition same_accounts (r r' : Retention) : Prop :=
  rt_pending r' = rt_pending r ∧ rt_indexed r' = rt_indexed r ∧ rt_cache_bytes r' = rt_cache_bytes r ∧ rt_weights r' = rt_weights r.

Lemma order_moved t m l cache old new : default 0 (m !! cache) = old → (∀ v, m !! cache = Some v → v ≠ 0) → order_ok t m l →
  let l := if old =? 0 then l else set_remove (mkPressure old (weight_of t cache) cache) l in
  order_ok t (moved m cache new) (if new =? 0 then l else set_insert (mkPressure new (weight_of t cache) cache) l).
Proof.
  intros <- Hpos Ho l'. assert (order_ok t (delete cache m) l') as Ho'.
  { unfold l'. destruct (m !! cache) as [v|] eqn:Hm; simpl; [|by rewrite delete_id]. rewrite (proj2 (N.eqb_neq _ _)) by eauto. by apply order_delete. }
  unfold moved. destruct (new =? 0); [done|]. rewrite <- insert_delete_eq. apply order_insert; [apply lookup_delete_eq|done].
Qed.

Lemma pressure_changed_ok r m cache old new : derived_ok (with_cache_bytes r m) → default 0 (m !! cache) = old → (∀ v, m !! cache = Some v → v ≠ 0) →
  let r' := pressure_changed (with_cache_bytes r (moved m cache new)) cache old new in
  same_accounts (with_cache_bytes r (moved m cache new)) r' ∧ rt_unpublished r' = rt_unpublished r ∧
  ∀ o, rt_pressure r' = Some o → po_generation o <= tb_generation (rt_weights r) ∧
    (po_generation o = tb_generation (rt_weights r) → order_ok (rt_weights r) (moved m cache new) (po_order o)).
Proof.
  intros [_ Hd] Hold Hpos. simpl in Hd. unfold pressure_changed. simpl. destruct (rt_pressure r) as [o|] eqn:Ho; [|split; [done|]; split; [done|]; simpl; congruence].
  destruct (Hd o eq_refl) as [Hg Hord]. unfold weight_at. destruct (N.eqb_spec (tb_generation (rt_weights r)) (po_generation o)) as [Heq|]; [|done].
  split; [done|]. split; [done|]. simpl. intros o' [= <-]. split; [done|]. intros _. by apply order_moved; [..|apply Hord].
Qed.

Lemma member_changed_ok r m cache (joined : bool) old new : rt_cache_bytes r = moved m cache new → default 0 (m !! cache) = old → (∀ v, m !! cache = Some v → v ≠ 0) →
  (∀ u, rt_unpublished r = Some u → up_generation u <= tb_generation (rt_weights r) ∧
    (up_generation u = tb_generation (rt_weights r) → up_count u = unknown_count (rt_weights r) (keys m))) →
  (∀ o, rt_pressure r = Some o → po_generation o <= tb_generation (rt_weights r) ∧
    (po_generation o = tb_generation (rt_weights r) → order_ok (rt_weights r) (rt_cache_bytes r) (po_order o))) →
  (if joined then old = 0 ∧ new ≠ 0 else old ≠ 0 ∧ new = 0) →
  ∃ r', member_changed r cache joined = Some r' ∧ same_accounts r r' ∧ derived_ok r'.
Proof.
  intros Hr Hold Hpos Hu Hp Hj. unfold member_changed. destruct (rt_unpublished r) as [u|] eqn:Eu; [|exists r; split; [done|]; split; [done|]; split; [congruence|done]].
  destruct (Hu u eq_refl) as [Hg Hc]. unfold published_at. destruct (N.eqb_spec (tb_generation (rt_weights r)) (up_generation u)) as [Heq|Hne].
  2: { eexists. split; [done|]. split; [done|]. by split. }
  specialize (Hc (eq_sym Heq)). assert (if joined then unknown_count (rt_weights r) (keys (rt_cache_bytes r)) =
      (if is_some (tb_weights (rt_weights r) !! cache) then 0 else 1) + up_count u
    else up_count u = (if is_some (tb_weights (rt_weights r) !! cache) then 0 else 1) + unknown_count (rt_weights r) (keys (rt_cache_bytes r))) as Hn.
  { rewrite Hr, Hc. unfold moved. destruct joined, Hj as [H1 H2]; subst old.
    - rewrite (proj2 (N.eqb_neq _ _)) by done. apply unknown_insert. destruct (m !! cache) as [v|] eqn:Hm; [by destruct (Hpos v)|done].
    - subst new. rewrite N.eqb_refl. destruct (m !! cache) as [v|] eqn:Hm; [by eapply unknown_delete|done]. }
  destruct (is_some (tb_weights (rt_weights r) !! cache)).
  { exists r. split; [done|]. split; [done|]. split; [|done]. intros u' Hu'. rewrite Eu in Hu'. injection Hu' as <-. split; [done|]. intros _. destruct joined; lia. }
  assert ((if joined then Some (up_count u + 1) else checked_sub (up_count u) 1) = Some (unknown_count (rt_weights r) (keys (rt_cache_bytes r)))) as ->.
  { destruct joined; [rewrite Hn; f_equal; lia|]. apply checked_sub_Some. lia. }
  eexists. split; [done|]. split; [done|]. split; [|done]. simpl. intros u' [= <-]. done.
Qed.

(** ** The invariant *)

(** The live payload of a cache, of the index and of pending writes. *)
Definition charged (cache : list N) (p : Payload) : N := if bool_decide (pl_cache p = Some cache) then pl_bytes p else 0.
Definition indexed_bytes (p : Payload) : N := if pl_indexed p then pl_bytes p else 0.
Definition pending_bytes (p : Payload) : N := if pl_indexed p then 0 else pl_bytes p.

(** An indexed payload is some bytes of a cache. *)
Definition payload_ok (p : Payload) : Prop := if pl_indexed p then is_Some (pl_cache p) ∧ pl_bytes p ≠ 0 else pl_cache p = None.

Record accounts_ok (r : Retention) (live : list Payload) : Prop := {
  ac_payloads : Forall payload_ok live;
  ac_caches : ∀ cache, rt_cache_bytes r !! cache = if sum_by (charged cache) live =? 0 then None else Some (sum_by (charged cache) live);
  ac_indexed : rt_indexed r = sum_by indexed_bytes live;
  ac_pending : rt_pending r = sum_by pending_bytes live;
  ac_total : tb_total (rt_weights r) = map_sum id (tb_weights (rt_weights r))
}.

Record share_ok (s : ShareState) : Prop := {
  so_accounts : accounts_ok (sh_retention s) (sh_live s);
  so_derived : derived_ok (sh_retention s)
}.

Lemma charged_default r live cache : accounts_ok r live → default 0 (rt_cache_bytes r !! cache) = sum_by (charged cache) live.
Proof. intros Ha. rewrite (ac_caches _ _ Ha). by destruct (N.eqb_spec (sum_by (charged cache) live) 0) as [->|]. Qed.

Lemma resident_positive r live cache v : accounts_ok r live → rt_cache_bytes r !! cache = Some v → v ≠ 0.
Proof. intros Ha. rewrite (ac_caches _ _ Ha). destruct (N.eqb_spec (sum_by (charged cache) live) 0); naive_solver. Qed.

Lemma charged_le cache live : Forall payload_ok live → sum_by (charged cache) live <= sum_by indexed_bytes live.
Proof.
  induction 1 as [|p l Hp _ IH]; [done|]. unfold sum_by, charged, indexed_bytes in *. cbn [foldr]. unfold payload_ok in Hp. case_bool_decide as E; destruct (pl_indexed p); [lia| |lia|lia].
  congruence.
Qed.

Lemma accounts_same r r' live : same_accounts r r' → accounts_ok r live → accounts_ok r' live.
Proof. intros (Hp & Hi & Hc & Hw) [H1 H2 H3 H4 H5]. split; rewrite ?Hp, ?Hi, ?Hc, ?Hw; done. Qed.

Lemma sum_by_cons {A} (f : A → N) x l : sum_by f (x :: l) = f x + sum_by f l.
Proof. done. Qed.

(** Indexed payload is charged to its cache. *)
Lemma indexed_payload_ok r live cache bytes : accounts_ok r live → derived_ok r → bytes ≠ 0 → rt_indexed r + bytes <= U64_MAX →
  ∃ r', indexed_payload r cache bytes = Some (mkPayload bytes true (Some cache), r') ∧ accounts_ok r' (mkPayload bytes true (Some cache) :: live) ∧ derived_ok r' ∧
    rt_weights r' = rt_weights r.
Proof.
  intros Ha Hd Hb Hmax. unfold indexed_payload, payload_new. rewrite checked_add_le by done. cbn [mbind option_bind rt_cache_bytes pl_bytes pl_indexed].
  set (r0 := mkRetention (rt_pending r) (rt_indexed r + bytes) (rt_cache_bytes r) (rt_weights r) (rt_unpublished r) (rt_pressure r)).
  set (m := rt_cache_bytes r) in *. set (old := default 0 (m !! cache)). assert (old = sum_by (charged cache) live) as Hold by by apply charged_default.
  assert (old <= rt_indexed r) as Hle by (rewrite Hold, (ac_indexed _ _ Ha); apply charged_le, Ha). rewrite checked_add_le by lia. cbn [mbind option_bind].
  assert (<[cache := old + bytes]> m = moved m cache (old + bytes)) as -> by (unfold moved; by rewrite (proj2 (N.eqb_neq _ _)) by lia).
  assert (derived_ok (with_cache_bytes r0 m)) as Hd0 by (destruct Hd; by split).
  destruct (pressure_changed_ok r0 m cache old (old + bytes) Hd0 eq_refl (λ v, resident_positive r live cache v Ha)) as (Hs & Hu & Hp).
  set (r1 := pressure_changed _ _ _ _) in *. pose proof Hs as (Hs1 & Hs2 & Hs3 & Hs4). simpl in Hs1, Hs2, Hs3, Hs4.
  assert (accounts_ok r1 (mkPayload bytes true (Some cache) :: live)) as Ha1.
  { split; rewrite ?Hs1, ?Hs2, ?Hs3, ?Hs4.
    - constructor; [by split|apply Ha].
    - intros c. rewrite sum_by_cons. unfold charged at 1 3. cbn [pl_cache pl_bytes]. unfold moved. rewrite (proj2 (N.eqb_neq (old + bytes) 0)) by lia.
      destruct (decide (c = cache)) as [->|Hne].
      + rewrite lookup_insert_eq, bool_decide_eq_true_2, <- Hold, (proj2 (N.eqb_neq _ _)) by (done || lia). f_equal. lia.
      + rewrite lookup_insert_ne, bool_decide_eq_false_2 by congruence. apply Ha.
    - rewrite sum_by_cons, <- (ac_indexed _ _ Ha). apply N.add_comm.
    - rewrite sum_by_cons, <- (ac_pending _ _ Ha). done.
    - apply Ha. }
  destruct (N.eqb_spec old 0) as [H0|H0].
  - destruct (member_changed_ok r1 m cache true old (old + bytes)) as (r2 & -> & Hsame & Hd2); [done|done|by intros v; apply resident_positive with (live := live)|..].
    + rewrite Hu, Hs4. apply Hd.
    + rewrite Hs3, Hs4. exact Hp.
    + split; [done|lia].
    + cbn [mbind option_bind]. exists r2. split; [done|]. split; [by eapply accounts_same|]. split; [done|]. destruct Hsame as (_ & _ & _ & ->). done.
  - cbn [mbind option_bind]. exists r1. split; [done|]. split; [done|]. split; [|done]. split; rewrite ?Hs3, ?Hs4; [|exact Hp]. rewrite Hu. simpl.
    assert (unknown_count (rt_weights r) (keys (moved m cache (old + bytes))) = unknown_count (rt_weights r) (keys m)) as Hn; [|rewrite Hn; apply Hd].
    unfold moved. rewrite (proj2 (N.eqb_neq _ _)) by lia. unfold old in H0. destruct (m !! cache) as [v|] eqn:Hm; [|done].
    by rewrite <- insert_delete_eq, unknown_insert, <- (unknown_delete _ _ _ v) by (apply lookup_delete_eq || done).
Qed.

(** Dropped payload is taken off again. *)
Lemma payload_drop_ok r live k p : accounts_ok r live → derived_ok r → live !! k = Some p →
  ∃ r', payload_drop r p = Some r' ∧ accounts_ok r' (delete k live) ∧ derived_ok r' ∧ rt_weights r' = rt_weights r.
Proof.
  intros Ha Hd Hk. pose proof (delete_Permutation _ _ _ Hk) as Hperm. assert (∀ f, sum_by f live = f p + sum_by f (delete k live)) as Hsum.
  { intros f. by rewrite (sum_by_perm _ _ _ Hperm), sum_by_cons. }
  pose proof (ac_payloads _ _ Ha) as Hpl. rewrite Hperm in Hpl. apply Forall_cons in Hpl as [Hp Hpl]. unfold payload_drop.
  pose proof (ac_indexed _ _ Ha) as Hi. pose proof (ac_pending _ _ Ha) as Hn. rewrite Hsum in Hi, Hn. unfold indexed_bytes at 1 in Hi. unfold pending_bytes at 1 in Hn. unfold payload_ok in Hp.
  destruct (pl_indexed p) eqn:Hx.
  2: { rewrite Hp. unfold checked_sub. rewrite (proj2 (N.leb_le _ _)) by lia. cbn [mbind option_bind]. eexists. split; [done|]. split; [|by split; [destruct Hd; by split|]].
       split; simpl; [done| |lia|lia|apply Ha]. intros c. rewrite (ac_caches _ _ Ha), Hsum. unfold charged at 1 3. rewrite Hp. by rewrite bool_decide_eq_false_2. }
  destruct Hp as [[cache Hc] Hb]. rewrite Hc. rewrite (proj2 (checked_sub_Some (rt_indexed r) (pl_bytes p) (rt_indexed r - pl_bytes p))) by lia. cbn [mbind option_bind rt_cache_bytes].
  set (r0 := mkRetention _ _ _ _ _ _). set (m := rt_cache_bytes r) in *. pose proof (Hsum (charged cache)) as Hcs. unfold charged at 2 in Hcs.
  rewrite Hc, bool_decide_eq_true_2 in Hcs by done. pose proof (ac_caches _ _ Ha cache) as Hm. rewrite (proj2 (N.eqb_neq _ _)) in Hm by lia. fold m in Hm. rewrite Hm. cbn [mbind option_bind].
  set (old := sum_by (charged cache) live) in *. set (new := sum_by (charged cache) (delete k live)) in *.
  unfold checked_sub. rewrite (proj2 (N.leb_le _ _)) by lia. replace (old - pl_bytes p) with new by lia. cbn [mbind option_bind]. fold (moved m cache new).
  assert (derived_ok (with_cache_bytes r0 m)) as Hd0 by (destruct Hd; by split).
  destruct (pressure_changed_ok r0 m cache old new Hd0) as (Hs & Hu & Hpr); [by rewrite Hm|by intros v; apply resident_positive with (live := live)|].
  set (r1 := pressure_changed _ _ _ _) in *. pose proof Hs as (Hs1 & Hs2 & Hs3 & Hs4). simpl in Hs1, Hs2, Hs3, Hs4.
  assert (accounts_ok r1 (delete k live)) as Ha1.
  { split; rewrite ?Hs1, ?Hs2, ?Hs3, ?Hs4; [done| |lia|lia|apply Ha]. intros c. unfold moved. destruct (decide (c = cache)) as [->|Hne].
    - destruct (N.eqb_spec new 0) as [H0|H0]; fold new; [rewrite (proj2 (N.eqb_eq _ _) H0); apply lookup_delete_eq|].
      rewrite (proj2 (N.eqb_neq _ _) H0). apply lookup_insert_eq.
    - transitivity (m !! c); [destruct (new =? 0); [by rewrite lookup_delete_ne|by rewrite lookup_insert_ne]|]. unfold m. rewrite (ac_caches _ _ Ha), Hsum.
      unfold charged at 1 3. rewrite Hc. by rewrite bool_decide_eq_false_2 by congruence. }
  destruct (N.eqb_spec new 0) as [H0|H0].
  - destruct (member_changed_ok r1 m cache false old new) as (r2 & -> & Hsame & Hd2); [done|by rewrite Hm|by intros v; apply resident_positive with (live := live)|..].
    + rewrite Hu, Hs4. apply Hd.
    + rewrite Hs3, Hs4. exact Hpr.
    + split; [lia|done].
    + exists r2. split; [done|]. split; [by eapply accounts_same|]. split; [done|]. destruct Hsame as (_ & _ & _ & ->). done.
  - exists r1. split; [done|]. split; [done|]. split; [|done]. split; rewrite ?Hs3, ?Hs4; [|exact Hpr]. rewrite Hu. simpl.
    assert (unknown_count (rt_weights r) (keys (moved m cache new)) = unknown_count (rt_weights r) (keys m)) as Heq; [|rewrite Heq; apply Hd].
    unfold moved. rewrite (proj2 (N.eqb_neq _ _)) by done. by rewrite <- insert_delete_eq, unknown_insert, <- (unknown_delete _ _ _ old) by (apply lookup_delete_eq || done).
Qed.

(** ** Queries *)

Lemma same_accounts_trans a b c : same_accounts a b → same_accounts b c → same_accounts a c.
Proof. unfold same_accounts. intuition congruence. Qed.

Definition current_basis (r : Retention) : ShareBasis := weights_basis (rt_weights r) (resident_caches r).

Lemma share_basis_ok r : derived_ok r → ∃ r', share_basis r = Some (current_basis r, r') ∧ same_accounts r r' ∧ derived_ok r'.
Proof.
  intros Hd. unfold share_basis. destruct (u ← rt_unpublished r; basis_from (rt_weights r) u) as [b|] eqn:E.
  - apply bind_Some in E as (u & Hu & Hb). unfold basis_from in Hb. destruct (N.eqb_spec (tb_generation (rt_weights r)) (up_generation u)) as [Hg|]; [|done].
    injection Hb as <-. destruct (dv_unpublished r Hd u Hu) as [_ Hc]. rewrite Hc by done. exists r. done.
  - unfold basis_from, count_unpublished. cbn [up_generation up_count]. rewrite N.eqb_refl. cbn [mbind option_bind]. eexists. split; [done|]. split; [done|].
    destruct Hd as [_ Hp]. split; [|done]. simpl. intros u [= <-]. done.
Qed.

Lemma pressure_order_ok r limit : derived_ok r → ∃ order r', pressure_order r limit = (pr_cache <$> take limit (reverse order), r') ∧
  order_ok (rt_weights r) (rt_cache_bytes r) order ∧ same_accounts r r' ∧ derived_ok r'.
Proof.
  intros Hd. unfold pressure_order. set (o := match rt_pressure r with Some _ => _ | None => _ end). exists (po_order o). eexists. split; [done|].
  assert (po_generation o = tb_generation (rt_weights r) ∧ order_ok (rt_weights r) (rt_cache_bytes r) (po_order o)) as [Hg Ho].
  { unfold o. destruct (rt_pressure r) as [o'|] eqn:E; [|split; [done|apply rebuild_ok]]. destruct (N.eqb_spec (po_generation o') (tb_generation (rt_weights r))) as [Hg|];
      [split; [done|by apply (dv_pressure r Hd o' E)]|split; [done|apply rebuild_ok]]. }
  split; [done|]. split; [done|]. destruct Hd as [Hu _]. split; [done|]. simpl. intros o' [= <-]. split; [lia|done].
Qed.

(** A cache over its share of the capacity. *)
Definition is_over (r : Retention) (capacity : N) (cache : list N) : bool :=
  over_share (cache_payload_bytes r cache) (share_in (rt_weights r) (current_basis r) capacity cache) capacity.

(** What a pass has pinned holds as long as nothing is charged or dropped. *)
Record pass_ok (k : Scoring) (r : Retention) : Prop := {
  pk_basis : ∀ b, sk_basis k = Some b → b = current_basis r;
  pk_classified : ∀ cache over, sk_classified k !! cache = Some over → over = is_over r (sk_capacity k) cache
}.

Lemma is_over_same r r' capacity cache : same_accounts r r' → is_over r' capacity cache = is_over r capacity cache ∧ current_basis r' = current_basis r.
Proof. intros (_ & _ & Hc & Hw). unfold is_over, current_basis, cache_payload_bytes, resident_caches. by rewrite Hc, Hw. Qed.

Lemma filter_over_same r r' capacity (l : list (list N)) : same_accounts r r' → filter (λ c, is_over r' capacity c = true) l = filter (λ c, is_over r capacity c = true) l.
Proof. intros Hs. apply list_filter_iff. intros c. by rewrite (proj1 (is_over_same r r' capacity c Hs)). Qed.

Lemma scoring_over_share_ok k r cache : derived_ok r → pass_ok k r → ∃ k' r', scoring_over_share k r cache = Some (is_over r (sk_capacity k) cache, k', r') ∧
  sk_capacity k' = sk_capacity k ∧ sk_any k' = sk_any k ∧ pass_ok k' r' ∧ same_accounts r r' ∧ derived_ok r'.
Proof.
  intros Hd [Hb Hc]. unfold scoring_over_share. destruct (sk_classified k !! cache) as [over|] eqn:E; [apply Hc in E as ->; by exists k, r|].
  assert (∀ b r', (∀ x, b = Some x → x = current_basis r) → same_accounts r r' →
    pass_ok (mkScoring (sk_capacity k) b (<[cache := is_over r (sk_capacity k) cache]> (sk_classified k)) (sk_any k)) r') as Hpin.
  { intros b r' Hx Hs. destruct (is_over_same r r' (sk_capacity k) cache Hs) as [Ho Hcb]. split; simpl; [intros x ->%Hx; by rewrite Hcb|].
    intros c over [[<- <-]|[_ H]]%lookup_insert_Some; [by rewrite Ho|]. apply Hc in H as ->. symmetry. by apply is_over_same. }
  destruct (N.eqb_spec (cache_payload_bytes r cache) 0) as [H0|H0].
  { assert (is_over r (sk_capacity k) cache = false) as Hf by (unfold is_over, over_share; rewrite H0; apply andb_false_iff; right; by apply N.ltb_ge, N.le_0_l).
    rewrite Hf in *. eexists _, r. split; [done|]. split; [done|]. split; [done|]. by split; [apply Hpin|]. }
  assert (∃ r', match sk_basis k with Some b => Some (b, r) | None => share_basis r end = Some (current_basis r, r') ∧ same_accounts r r' ∧ derived_ok r') as (r' & -> & Hs & Hd').
  { destruct (sk_basis k) as [b|]; [exists r; by rewrite (Hb b eq_refl)|by apply share_basis_ok]. }
  cbn [mbind option_bind]. assert (over_share (cache_payload_bytes r cache) (share_in (rt_weights r') (current_basis r) (sk_capacity k) cache) (sk_capacity k) =
    is_over r (sk_capacity k) cache) as -> by (unfold is_over; destruct Hs as (_ & _ & _ & ->); done).
  eexists _, r'. split; [done|]. split; [done|]. split; [done|]. split; [|done]. apply Hpin; [by intros x [= <-]|done].
Qed.

Lemma retain_over_ok caches k r : derived_ok r → pass_ok k r → ∃ k' r',
  retain_over k r caches = Some (filter (λ c, is_over r (sk_capacity k) c = true) caches, k', r') ∧ sk_any k' = sk_any k ∧ same_accounts r r' ∧ derived_ok r'.
Proof.
  revert k r. induction caches as [|cache caches IH]; intros k r Hd Hp; cbn [retain_over]; [by exists k, r|].
  destruct (scoring_over_share_ok k r cache Hd Hp) as (k1 & r1 & -> & Hk1 & Ha1 & Hp1 & Hs1 & Hd1). cbn [mbind option_bind].
  destruct (IH k1 r1 Hd1 Hp1) as (k2 & r2 & -> & Ha2 & Hs2 & Hd2). cbn [mbind option_bind]. exists k2, r2. split; [|split; [congruence|split; [by eapply same_accounts_trans|done]]].
  f_equal. f_equal. f_equal. rewrite Hk1, filter_cons, (filter_over_same r r1) by done.
  by destruct (is_over r (sk_capacity k) cache).
Qed.

Lemma fresh_pass capacity r : pass_ok (scoring_at capacity) r.
Proof. split; simpl; [done|]. intros cache over H. by rewrite lookup_empty in H. Qed.

(** ** Runs *)

(** A page has at least one byte of payload. *)
Definition share_event_ok (e : ShareEvent) : Prop := match e with Share_Index _ bytes => bytes ≠ 0 | _ => True end.
Definition event_bytes (e : ShareEvent) : N := match e with Share_Index _ bytes | Share_Pending bytes => bytes | _ => 0 end.

Lemma live_bytes live : sum_by pl_bytes live = sum_by indexed_bytes live + sum_by pending_bytes live.
Proof. induction live as [|p l IH]; [done|]. rewrite !sum_by_cons, IH. unfold indexed_bytes, pending_bytes. destruct (pl_indexed p); lia. Qed.

Lemma table_update_ok t caches : tb_total t = map_sum id (tb_weights t) →
  let t' := (table_update t caches).2 in tb_total t' = map_sum id (tb_weights t') ∧ (t' = t ∨ tb_generation t < tb_generation t').
Proof. intros Ht. unfold table_update. case_bool_decide; simpl; [auto|]. split; [done|]. right. lia. Qed.

Lemma any_over_share_ok capacity r : derived_ok r → ∃ order k r', order_ok (rt_weights r) (rt_cache_bytes r) order ∧
  any_over_share (scoring_at capacity) r =
    Some (negb (bool_decide (filter (λ c, is_over r capacity c = true) (pr_cache <$> take 2 (reverse order)) = [])), k, r') ∧ same_accounts r r' ∧ derived_ok r'.
Proof.
  intros Hd. unfold any_over_share, over_share_candidates. cbn [scoring_at sk_any]. destruct (pressure_order_ok r 2 Hd) as (order & r1 & -> & Ho & Hs1 & Hd1). exists order.
  destruct (retain_over_ok (pr_cache <$> take 2 (reverse order)) (scoring_at capacity) r1 Hd1 (fresh_pass capacity r1)) as (k & r2 & -> & _ & Hs2 & Hd2). cbn [mbind option_bind].
  eexists _, r2. split; [done|]. split; [|split; [by eapply same_accounts_trans|done]].
  by rewrite <- (filter_over_same r r1) by done.
Qed.

Lemma candidates_ok capacity limit r : derived_ok r → ∃ order k r', order_ok (rt_weights r) (rt_cache_bytes r) order ∧
  over_share_candidates (scoring_at capacity) r limit = Some (filter (λ c, is_over r capacity c = true) (pr_cache <$> take limit (reverse order)), k, r') ∧
  same_accounts r r' ∧ derived_ok r'.
Proof.
  intros Hd. unfold over_share_candidates. destruct (pressure_order_ok r limit Hd) as (order & r1 & -> & Ho & Hs1 & Hd1). exists order.
  destruct (retain_over_ok (pr_cache <$> take limit (reverse order)) (scoring_at capacity) r1 Hd1 (fresh_pass capacity r1)) as (k & r2 & -> & _ & Hs2 & Hd2).
  eexists _, r2. split; [done|]. split; [|split; [by eapply same_accounts_trans|done]].
  by rewrite <- (filter_over_same r r1) by done.
Qed.

Lemma retention_over_ok r cache capacity : derived_ok r → ∃ r', retention_over_share r cache capacity = Some (is_over r capacity cache, r') ∧ same_accounts r r' ∧ derived_ok r'.
Proof.
  intros Hd. unfold retention_over_share, is_over. destruct (N.eqb_spec (cache_payload_bytes r cache) 0) as [H0|H0].
  { exists r. split; [|done]. do 2 f_equal. rewrite H0. unfold over_share. symmetry. apply andb_false_iff. right. by apply N.ltb_ge, N.le_0_l. }
  destruct (share_basis_ok r Hd) as (r' & -> & Hs & Hd'). cbn [mbind option_bind]. exists r'. split; [|done]. do 3 f_equal. by destruct Hs as (_ & _ & _ & ->).
Qed.

Lemma share_step_ok s e : share_ok s → share_event_ok e → sum_by pl_bytes (sh_live s) + event_bytes e <= U64_MAX →
  ∃ s', share_step s e = Some s' ∧ share_ok s' ∧ sum_by pl_bytes (sh_live s') <= sum_by pl_bytes (sh_live s) + event_bytes e.
Proof.
  intros [Ha Hd] He Hmax. rewrite live_bytes, <- (ac_indexed _ _ Ha), <- (ac_pending _ _ Ha) in Hmax.
  assert (∀ r', same_accounts (sh_retention s) r' → derived_ok r' → share_ok (mkShareState r' (sh_live s)) ∧ sum_by pl_bytes (sh_live s) <= sum_by pl_bytes (sh_live s) + 0) as Hsame.
  { intros r' Hs Hd'. split; [|lia]. split; [by eapply accounts_same|done]. }
  destruct e as [cache bytes|bytes|k|caches|catalogs|cache capacity|capacity|capacity limit]; cbn [share_step event_bytes] in *.
  - destruct (indexed_payload_ok _ _ cache bytes Ha Hd He ltac:(lia)) as (r' & -> & Ha' & Hd' & _). eexists. split; [done|]. split; [by split|]. cbn [sh_live]. rewrite sum_by_cons. cbn [pl_bytes]. lia.
  - unfold payload_new. rewrite checked_add_le by lia. cbn [mbind option_bind]. eexists. split; [done|]. split; [|cbn [sh_live]; rewrite sum_by_cons; cbn [pl_bytes]; lia].
    split; [|destruct Hd; by split]. destruct Ha as [H1 H2 H3 H4 H5]. split; cbn [sh_retention sh_live rt_cache_bytes rt_indexed rt_pending rt_weights]; [by constructor| |..].
    + intros c. rewrite H2, sum_by_cons. unfold charged at 4 6. simpl. done.
    + rewrite sum_by_cons, <- H3. done.
    + rewrite sum_by_cons, <- H4. apply N.add_comm.
    + done.
  - destruct (sh_live s !! k) as [p|] eqn:Hk; [|exists s; split; [done|]; split; [done|lia]].
    destruct (payload_drop_ok _ _ k p Ha Hd Hk) as (r' & -> & Ha' & Hd' & _). eexists. split; [done|]. split; [by split|]. cbn [sh_live].
    rewrite (sum_by_perm _ _ _ (delete_Permutation _ _ _ Hk)), sum_by_cons. lia.
  - eexists. split; [done|]. split; [|simpl; lia]. destruct (table_update_ok (rt_weights (sh_retention s)) caches (ac_total _ _ Ha)) as [Ht Hg]. simpl in Ht, Hg.
    split; [destruct Ha; by split|]. destruct Hd as [Hu Hp]. destruct Hg as [Hg|Hg]; simpl; [rewrite Hg; by split|].
    split; simpl; [intros u Hu'%Hu|intros o Ho'%Hp]; (split; [lia|intros; lia]).
  - eexists. split; [done|]. split; [|simpl; lia]. split; [|by split]. destruct Ha as [H1 H2 H3 H4 _]. split; simpl; [done..|]. clear.
    assert (∀ t, tb_total t = map_sum id (tb_weights t) → let t' := foldl (λ t caches, (table_update t caches).2) t catalogs in tb_total t' = map_sum id (tb_weights t')) as H.
    { induction catalogs as [|c l IH]; intros t Ht; [done|]. cbn [foldl]. apply IH. by apply table_update_ok. }
    apply H. done.
  - destruct (retention_over_ok _ cache capacity Hd) as (r' & -> & Hs & Hd'). eexists. split; [done|]. by apply Hsame.
  - destruct (any_over_share_ok capacity _ Hd) as (order & k & r' & _ & -> & Hs & Hd'). eexists. split; [done|]. by apply Hsame.
  - destruct (candidates_ok capacity limit _ Hd) as (order & k & r' & _ & -> & Hs & Hd'). eexists. split; [done|]. by apply Hsame.
Qed.

Lemma share_run_ok s es : share_ok s → Forall share_event_ok es → sum_by pl_bytes (sh_live s) + sum_by event_bytes es <= U64_MAX →
  ∃ s', share_run s es = Some s' ∧ share_ok s'.
Proof.
  intros Hok Hes. revert s Hok. induction Hes as [|e es He _ IH]; intros s Hok Hmax; cbn [share_run]; [eauto|]. rewrite sum_by_cons in Hmax.
  destruct (share_step_ok s e Hok He ltac:(lia)) as (s1 & -> & Hok1 & Hle). apply IH; [done|lia].
Qed.

Definition share_state_new : ShareState := mkShareState retention_new [].

Lemma share_state_new_ok : share_ok share_state_new.
Proof. split; split; simpl; done. Qed.

(** The policy as some run leaves it. *)
Definition share_reachable (s : ShareState) : Prop :=
  ∃ es, Forall share_event_ok es ∧ sum_by event_bytes es <= U64_MAX ∧ share_run share_state_new es = Some s.

Lemma share_reachable_ok s : share_reachable s → share_ok s.
Proof.
  intros (es & Hes & Hmax & Hrun). destruct (share_run_ok share_state_new es share_state_new_ok Hes) as (s' & Hs' & Hok); [done|]. rewrite Hrun in Hs'. by injection Hs' as ->.
Qed.

(** ** Who is over its share *)

Lemma unknown_member t cache extra : cache ∈ extra → tb_weights t !! cache = None → 1 <= unknown_count t extra.
Proof.
  intros Hin Hn. unfold unknown_count, len. assert (cache ∈ filter (λ c, tb_weights t !! c = None) extra) as H by (by apply list_elem_of_filter).
  destruct (filter _ extra); [by apply elem_of_nil in H|]. simpl. lia.
Qed.

Lemma unknown_members t a b extra : a ≠ b → a ∈ extra → b ∈ extra → tb_weights t !! a = None → tb_weights t !! b = None → 2 <= unknown_count t extra.
Proof.
  intros Hne Ha Hb Hna Hnb. unfold unknown_count, len. set (l := filter _ extra).
  assert (a ∈ l ∧ b ∈ l) as [H1 H2] by (split; by apply list_elem_of_filter). destruct l as [|x [|y l]]; [by apply elem_of_nil in H1| |simpl; lia].
  apply list_elem_of_singleton in H1, H2. congruence.
Qed.

(** The weights of two resident caches are parts of the total. *)
Lemma weights_within r live a b : accounts_ok r live → a ≠ b → is_Some (rt_cache_bytes r !! a) → is_Some (rt_cache_bytes r !! b) →
  weight_of (rt_weights r) a + weight_of (rt_weights r) b <= sb_total (current_basis r).
Proof.
  intros Ha Hne Hra Hrb. unfold current_basis, weights_basis, basis_of. cbn [sb_total]. rewrite (ac_total _ _ Ha). set (t := rt_weights r).
  assert (∀ c, is_Some (rt_cache_bytes r !! c) → c ∈ resident_caches r) as Hin.
  { intros c [v Hv]. unfold resident_caches. apply list_elem_of_fmap. exists (c, v). split; [done|]. by apply elem_of_map_to_list. }
  unfold weight_of. destruct (tb_weights t !! a) as [wa|] eqn:Ea, (tb_weights t !! b) as [wb|] eqn:Eb; cbn [default].
  - rewrite (map_sum_lookup id _ a wa Ea), (map_sum_lookup id _ b wb) by (by rewrite lookup_delete_ne). unfold id. simpl. lia.
  - rewrite (map_sum_lookup id _ a wa Ea). pose proof (unknown_member t b _ (Hin b Hrb) Eb). unfold id, DEFAULT_PRIORITY. simpl. nia.
  - rewrite (map_sum_lookup id _ b wb Eb). pose proof (unknown_member t a _ (Hin a Hra) Ea). unfold id, DEFAULT_PRIORITY. simpl. nia.
  - pose proof (unknown_members t a b _ Hne (Hin a Hra) (Hin b Hrb) Ea Eb). simpl. unfold DEFAULT_PRIORITY. nia.
Qed.

(** The share of a weight within the total, without the cut to 64 bits. *)
Lemma share_exact b capacity weight : sb_total b ≠ 0 → weight <= sb_total b → capacity <= U64_MAX → basis_share b capacity weight = capacity * weight / sb_total b.
Proof.
  intros Hb Hw Hc. unfold basis_share. rewrite (proj2 (N.eqb_neq _ _)) by done. apply N.mod_small. assert (capacity * weight / sb_total b <= capacity); [|lia].
  apply N.Div0.div_le_upper_bound. nia.
Qed.

(** A resident cache with at least the pressure of one that is over its share is over its own. *)
Lemma over_upward r live capacity p q : accounts_ok r live → capacity <= U64_MAX →
  rt_cache_bytes r !! pr_cache p = Some (pr_resident p) → pr_weight p = weight_of (rt_weights r) (pr_cache p) →
  rt_cache_bytes r !! pr_cache q = Some (pr_resident q) → pr_weight q = weight_of (rt_weights r) (pr_cache q) →
  pressure_cmp q p ≠ Gt → is_over r capacity (pr_cache q) = true → is_over r capacity (pr_cache p) = true.
Proof.
  intros Ha Hcap Hp Hwp Hq Hwq Hle Hover. destruct (decide (pr_cache q = pr_cache p)) as [He|Hne]; [by rewrite <- He|].
  pose proof (weights_within r live _ _ Ha Hne ltac:(eauto) ltac:(eauto)) as Hw. rewrite <- Hwp, <- Hwq in Hw. revert Hover.
  unfold is_over, over_share, share_in, cache_payload_bytes. rewrite Hp, Hq, <- Hwp, <- Hwq. cbn [default]. unfold id. destruct (sb_published (current_basis r)); [|rewrite N.ltb_irrefl; done].
  rewrite !andb_true_iff, !N.ltb_lt. rewrite pressure_cmp_ratio in Hle. unfold ratio_cmp in Hle. set (b := current_basis r) in *.
  destruct (N.eq_dec (sb_total b) 0) as [H0|H0].
  - rewrite (proj2 (N.eqb_eq (pr_weight q) 0)), (proj2 (N.eqb_eq (pr_weight p) 0)) in Hle by lia. cbn [andb then_compare] in Hle.
    unfold basis_share. rewrite H0, N.eqb_refl. intros [H1 H2]. split; [done|].
    destruct (N.compare_spec (pr_resident q) (pr_resident p)); cbn [then_compare] in Hle; [lia|lia|done].
  - rewrite !share_exact by (done || lia). intros [H1 H2]. destruct (N.eqb_spec (pr_weight p) 0) as [Hp0|Hp0].
    { rewrite Hp0, N.mul_0_r, N.Div0.div_0_l. split; [exact (N.le_lt_trans _ _ _ (N.le_0_l _) H1)|]. apply N.neq_0_lt_0. exact (resident_positive r live _ _ Ha Hp). }
    destruct (N.eqb_spec (pr_weight q) 0) as [Hq0|Hq0]; cbn [andb then_compare] in Hle; [done|].
    assert (pr_resident q * pr_weight p <= pr_resident p * pr_weight q) as Hr.
    { destruct (N.compare_spec (pr_resident q * pr_weight p) (pr_resident p * pr_weight q)); cbn [then_compare] in Hle; [lia|lia|done]. }
    assert (capacity * pr_weight q < sb_total b * pr_resident q) as Hq'.
    { apply N.nle_gt. intros Hc. apply N.lt_nge in H2. apply H2. by apply N.div_le_lower_bound. }
    pose proof (N.le_lt_trans _ _ _ (N.le_0_l _) H1) as Hc0. split; apply N.Div0.div_lt_upper_bound; [nia|].
    apply (N.mul_lt_mono_pos_l (pr_weight q)); [lia|]. apply (N.lt_le_trans _ (sb_total b * pr_resident q * pr_weight p)); nia.
Qed.

Lemma is_over_resident r capacity cache : is_over r capacity cache = true → ∃ v, rt_cache_bytes r !! cache = Some v ∧ cache_payload_bytes r cache = v.
Proof.
  unfold is_over, over_share, cache_payload_bytes. intros [_ H%N.ltb_lt]%andb_true_iff. destruct (rt_cache_bytes r !! cache) as [v|]; [by exists v|].
  by apply N.nlt_0_r in H.
Qed.

(** The top of the pressure order has every cache over its share, or is full of them. *)
Lemma top_over r live capacity order limit : accounts_ok r live → capacity <= U64_MAX → order_ok (rt_weights r) (rt_cache_bytes r) order →
  let l := filter (λ c, is_over r capacity c = true) (pr_cache <$> take limit (reverse order)) in
  length l = limit ∨ ∀ c, is_over r capacity c = true → c ∈ l.
Proof.
  intros Ha Hcap Ho l. destruct (decide (length l = limit)) as [|Hlen]; [by left|]. right. intros c Hc. destruct (is_over_resident r capacity c Hc) as (v & Hv & _).
  set (q := mkPressure v (weight_of (rt_weights r) c) c). assert (q ∈ reverse order) as Hq by (rewrite elem_of_reverse; by apply (order_elem _ _ _ q Ho)).
  rewrite <- (take_drop limit (reverse order)) in Hq. apply elem_of_app in Hq as [Hq|Hq].
  { apply list_elem_of_filter. split; [done|]. apply list_elem_of_fmap. by exists q. }
  exfalso. apply Hlen. unfold l. assert (∀ p, p ∈ take limit (reverse order) → is_over r capacity (pr_cache p) = true) as Hall.
  { intros p Hp. assert (p ∈ order) as [Hp1 Hp2]%(order_elem _ _ _ p Ho) by (rewrite <- elem_of_reverse, <- (take_drop limit (reverse order)); apply elem_of_app; by left).
    apply (over_upward r live capacity p q); try done. pose proof (oo_sorted _ _ _ Ho) as Hs. rewrite <- (reverse_involutive order), <- (take_drop limit (reverse order)), reverse_app in Hs.
    assert (pressure_lt q p) as Hlt; [|unfold pressure_lt in Hlt; congruence]. eapply StronglySorted_app_1_elem_of; [exact Hs|by apply elem_of_reverse..]. }
  assert (filter (λ c, is_over r capacity c = true) (pr_cache <$> take limit (reverse order)) = pr_cache <$> take limit (reverse order)) as ->.
  { clear Hq l Hlen. induction (take limit (reverse order)) as [|p l' IH]; [done|]. rewrite fmap_cons, filter_cons_True by (apply Hall; by left). f_equal. apply IH. intros. apply Hall. by right. }
  rewrite length_fmap, length_take. assert (limit < length (reverse order))%nat; [|lia]. destruct (decide (limit < length (reverse order)))%nat; [done|].
  rewrite drop_ge in Hq by lia. by apply elem_of_nil in Hq.
Qed.

(** C27: a pass that looks only at the top of the pressure order finds the caches over their share.  What [over_share_candidates] returns
    are caches over their share, and all of them unless the limit is reached; [any_over_share], which looks at two caches, is exact. *)
Theorem over_share_found s capacity limit : share_reachable s → capacity <= U64_MAX →
  (∃ l k r, over_share_candidates (scoring_at capacity) (sh_retention s) limit = Some (l, k, r) ∧ (∀ c, c ∈ l → is_over (sh_retention s) capacity c = true) ∧
    (length l = limit ∨ ∀ c, is_over (sh_retention s) capacity c = true → c ∈ l)) ∧
  (∃ any k r, any_over_share (scoring_at capacity) (sh_retention s) = Some (any, k, r) ∧ (any = true ↔ ∃ c, is_over (sh_retention s) capacity c = true)).
Proof.
  intros [Ha Hd]%share_reachable_ok Hcap. split.
  - destruct (candidates_ok capacity limit _ Hd) as (order & k & r & Ho & -> & _). eexists _, k, r. split; [done|]. split; [by intros c [? _]%list_elem_of_filter|].
    by eapply top_over.
  - destruct (any_over_share_ok capacity _ Hd) as (order & k & r & Ho & -> & _). eexists _, k, r. split; [done|]. rewrite negb_true_iff, bool_decide_eq_false. split.
    + intros Hne. destruct (filter _ _) as [|c l] eqn:E; [done|]. exists c.
      assert (c ∈ c :: l) as Hin by left. rewrite <- E in Hin. by apply list_elem_of_filter in Hin as [? _].
    + intros [c Hc] Hnil. destruct (top_over _ _ capacity order 2 Ha Hcap Ho) as [Hl|Hl]; [by rewrite Hnil in Hl|]. specialize (Hl c Hc). rewrite Hnil in Hl. by apply elem_of_nil in Hl.
Qed.

(** ** Recounts *)

Definition pressure_leb (a b : Pressure) : bool := not_gt (pressure_cmp a b).

Lemma pressure_cmp_congr a b d : pressure_cmp a b = Eq → pressure_cmp a d = pressure_cmp b d.
Proof.
  intros H. pose proof (pressure_cmp_eq a b H) as Hc. rewrite pressure_cmp_ratio in H. destruct (ratio_cmp a b) eqn:Hr; [|done..]. cbn [then_compare] in H.
  destruct (N.compare_spec (pr_resident a) (pr_resident b)) as [He| |]; [|done..]. rewrite !pressure_cmp_ratio, Hc, He. destruct (ratio_cmp_trans a b d _ Hr) as [_ ->]; done.
Qed.

Lemma pressure_leb_trans a b d : pressure_leb a b = true → pressure_leb b d = true → pressure_leb a d = true.
Proof.
  unfold pressure_leb. destruct (pressure_cmp a b) eqn:E; [by rewrite (pressure_cmp_congr a b d E)| |done]. intros _.
  destruct (pressure_cmp b d) eqn:E'; [| |done]; intros _; [|by rewrite (pressure_lt_trans a b d E E')].
  assert (pressure_cmp d b = Eq) as H by (by rewrite pressure_cmp_opp, E'). by rewrite pressure_cmp_opp, (pressure_cmp_congr d b a H), pressure_cmp_opp, E.
Qed.

(** The set is the sorted list of its elements. *)
Lemma order_sorted t m order : order_ok t m order → order = sort_by pressure_leb (entry_pressure t <$> map_to_list m).
Proof.
  intros Ho. rewrite <- (sort_by_id pressure_leb order).
  - apply sort_by_unique; [|apply pressure_leb_trans| |exact (oo_members _ _ _ Ho)].
    + intros x y. unfold pressure_leb. rewrite (pressure_cmp_opp x y). destruct (pressure_cmp x y); simpl; auto.
    + intros x y Hx Hy. unfold pressure_leb. rewrite (pressure_cmp_opp x y). destruct (pressure_cmp x y) eqn:E; [|done..]. intros _ _. apply pressure_cmp_eq in E.
      apply (order_elem _ _ _ _ Ho) in Hx as [Hx1 Hx2], Hy as [Hy1 Hy2]. destruct x, y; simpl in *. congruence.
  - pose proof (oo_sorted _ _ _ Ho) as Hs. clear Ho. induction Hs as [|p l _ IH Hall]; constructor; [done|]. eapply Forall_impl; [exact Hall|]. unfold pressure_leb, pressure_lt.
    by intros q ->.
Qed.

(** C28: whatever is charged, dropped, published and asked, if no indexed charge is zero, as the length of a page never is, and all
    charges together are within u64, the accounts never panic and never drift.  Each cache, the index and the
    pending writes are charged exactly their live payload; the denominator of the shares equals a recount over all resident caches, and
    the pressure order equals sorting them afresh, although both are kept from event to event. *)
Theorem shares_exact es : Forall share_event_ok es → sum_by event_bytes es <= U64_MAX →
  ∃ s, share_run share_state_new es = Some s ∧ (∀ c, cache_payload_bytes (sh_retention s) c = sum_by (charged c) (sh_live s)) ∧
    rt_indexed (sh_retention s) = sum_by indexed_bytes (sh_live s) ∧ rt_pending (sh_retention s) = sum_by pending_bytes (sh_live s) ∧
    (∃ r, share_basis (sh_retention s) = Some (weights_basis (rt_weights (sh_retention s)) (resident_caches (sh_retention s)), r)) ∧
    ∀ limit, (pressure_order (sh_retention s) limit).1 =
      pr_cache <$> take limit (reverse (sort_by pressure_leb (entry_pressure (rt_weights (sh_retention s)) <$> map_to_list (rt_cache_bytes (sh_retention s))))).
Proof.
  intros Hes Hmax. destruct (share_run_ok share_state_new es share_state_new_ok Hes Hmax) as (s & Hs & [Ha Hd]). exists s. split; [done|].
  split; [intros c; by apply charged_default|]. split; [apply Ha|]. split; [apply Ha|]. split; [destruct (share_basis_ok _ Hd) as (r & Hr & _); eauto|].
  intros limit. destruct (pressure_order_ok _ limit Hd) as (order & r & -> & Ho & _). simpl. by rewrite <- (order_sorted _ _ _ Ho).
Qed.

(** ** The shares together *)

(** The caches that [cache_disk] reports: the published ones and, beside them, the resident ones that are not. *)
Definition disk_caches (r : Retention) : list (list N) :=
  sort_by (λ a b, not_gt (bytes_compare a b)) (resident_caches r ++ filter (λ c, rt_cache_bytes r !! c = None) (map_to_list (tb_weights (rt_weights r))).*1).

Lemma resident_elem r c : c ∈ resident_caches r ↔ is_Some (rt_cache_bytes r !! c).
Proof.
  unfold resident_caches. rewrite list_elem_of_fmap. split; [intros ([c' v] & -> & ?%elem_of_map_to_list); eauto|]. intros [v Hv]. exists (c, v). by rewrite elem_of_map_to_list.
Qed.
Lemma published_elem t c : c ∈ (map_to_list (tb_weights t)).*1 ↔ is_Some (tb_weights t !! c).
Proof. rewrite list_elem_of_fmap. split; [intros ([c' v] & -> & ?%elem_of_map_to_list); eauto|]. intros [v Hv]. exists (c, v). by rewrite elem_of_map_to_list. Qed.

Lemma disk_caches_perm r : disk_caches r ≡ₚ (map_to_list (tb_weights (rt_weights r))).*1 ++ filter (λ c, tb_weights (rt_weights r) !! c = None) (resident_caches r).
Proof.
  unfold disk_caches. rewrite sort_by_perm. apply NoDup_Permutation.
  - apply NoDup_app. split; [apply NoDup_fst_map_to_list|]. split; [|apply NoDup_filter, NoDup_fst_map_to_list]. intros c [v Hv]%resident_elem [Hn _]%list_elem_of_filter. congruence.
  - apply NoDup_app. split; [apply NoDup_fst_map_to_list|]. split; [|apply NoDup_filter, NoDup_fst_map_to_list]. intros c [v Hv]%published_elem [Hn _]%list_elem_of_filter. congruence.
  - intros c. rewrite !elem_of_app, !list_elem_of_filter, resident_elem, published_elem.
    destruct (rt_cache_bytes r !! c), (tb_weights (rt_weights r) !! c); naive_solver.
Qed.

Lemma disk_basis r : weights_basis (rt_weights r) (disk_caches r) = current_basis r.
Proof.
  unfold current_basis, weights_basis. f_equal. unfold unknown_count, len.
  assert (filter (λ c, tb_weights (rt_weights r) !! c = None) (disk_caches r) ≡ₚ filter (λ c, tb_weights (rt_weights r) !! c = None) (resident_caches r)) as Hp; [|by rewrite Hp].
  rewrite disk_caches_perm, filter_app, list_filter_filter. assert (filter (λ c, tb_weights (rt_weights r) !! c = None) (map_to_list (tb_weights (rt_weights r))).*1 = []) as ->.
  { destruct (filter _ _) as [|c l] eqn:E; [done|]. assert (c ∈ c :: l) as H by left. rewrite <- E in H.
    apply list_elem_of_filter in H as [Hn [v Hv]%published_elem]. congruence. }
  simpl. erewrite list_filter_iff; [done|]. naive_solver.
Qed.

Lemma sum_by_ext {A} (f g : A → N) l : (∀ x, x ∈ l → f x = g x) → sum_by f l = sum_by g l.
Proof. intros H. induction l as [|x l IH]; [done|]. rewrite !sum_by_cons, IH, H; [done|by left|]. intros y Hy. apply H. by right. Qed.
Lemma sum_by_map {A B} (h : A → B) (f : B → N) l : sum_by f (h <$> l) = sum_by (λ x, f (h x)) l.
Proof. induction l as [|x l IH]; [done|]. by rewrite fmap_cons, !sum_by_cons, IH. Qed.
Lemma sum_by_elem {A} (f : A → N) l x : x ∈ l → f x <= sum_by f l.
Proof. induction l as [|y l IH]; [by intros ?%elem_of_nil|]. rewrite sum_by_cons. intros [->|H%IH]%elem_of_cons; lia. Qed.
Lemma sum_by_const {A} (n : N) (l : list A) : sum_by (λ _, n) l = n * len l.
Proof. unfold len. induction l as [|x l IH]; [simpl; lia|]. rewrite sum_by_cons, IH. simpl. lia. Qed.
Lemma sum_by_quotients {A} (f : A → N) a b l : b * sum_by (λ x, a * f x / b) l <= a * sum_by f l.
Proof.
  induction l as [|x l IH]; [simpl; lia|]. rewrite !sum_by_cons. pose proof (N.Div0.mul_div_le (a * f x) b). lia.
Qed.

(** The weights of the reported caches add up to the denominator of their shares. *)
Lemma disk_weights r live : accounts_ok r live → sum_by (weight_of (rt_weights r)) (disk_caches r) = sb_total (current_basis r) ∧ len (disk_caches r) = sb_members (current_basis r).
Proof.
  intros Ha. pose proof (disk_caches_perm r) as Hp. unfold current_basis, weights_basis, basis_of. cbn [sb_total sb_members]. rewrite (ac_total _ _ Ha). split.
  - rewrite (sum_by_perm _ _ _ Hp), sum_by_app, sum_by_map. f_equal.
    + apply sum_by_ext. intros [c v] Hc%elem_of_map_to_list. unfold weight_of. simpl. by rewrite Hc.
    + unfold unknown_count. rewrite N.mul_comm, <- sum_by_const. apply sum_by_ext. intros c [Hn _]%list_elem_of_filter. unfold weight_of. by rewrite Hn.
  - unfold len, unknown_count, len. rewrite (Permutation_length Hp), length_app, length_fmap, length_map_to_list. lia.
Qed.

Lemma cache_disk_map r capacity : cache_disk r capacity =
  (λ c, mkCacheDisk c (cache_payload_bytes r c) (share_in (rt_weights r) (current_basis r) capacity c)) <$> disk_caches r.
Proof. unfold cache_disk, shares. fold (disk_caches r). by rewrite disk_basis, zip_with_fmap_r, zip_with_diag. Qed.

(** C29: the report of the disk has every published or resident cache once, with its live payload and the share by which passes classify
    it; and once a catalog is published, the shares of all the caches together are within the capacity. *)
Theorem cache_disk_exact s capacity : share_reachable s → capacity <= U64_MAX →
  NoDup (cd_cache <$> cache_disk (sh_retention s) capacity) ∧
  (∀ c, c ∈ cd_cache <$> cache_disk (sh_retention s) capacity ↔ is_Some (rt_cache_bytes (sh_retention s) !! c) ∨ is_Some (tb_weights (rt_weights (sh_retention s)) !! c)) ∧
  (∀ d, d ∈ cache_disk (sh_retention s) capacity → cd_resident d = sum_by (charged (cd_cache d)) (sh_live s) ∧
    over_share (cd_resident d) (cd_share d) capacity = is_over (sh_retention s) capacity (cd_cache d)) ∧
  (tb_weights (rt_weights (sh_retention s)) ≠ ∅ → sum_by cd_share (cache_disk (sh_retention s) capacity) <= capacity).
Proof.
  intros [Ha Hd]%share_reachable_ok Hcap. set (r := sh_retention s) in *. rewrite cache_disk_map, <- list_fmap_compose, list_fmap_id.
  pose proof (disk_caches_perm r) as Hp. split; [|split; [|split]].
  - rewrite Hp. apply NoDup_app. split; [apply NoDup_fst_map_to_list|]. split; [|apply NoDup_filter, NoDup_fst_map_to_list]. intros c [v Hv]%published_elem [Hn _]%list_elem_of_filter. congruence.
  - intros c. rewrite Hp, elem_of_app, list_elem_of_filter, resident_elem, published_elem. destruct (tb_weights (rt_weights r) !! c); naive_solver.
  - intros d (c & -> & _)%list_elem_of_fmap. split; [by apply charged_default|done].
  - intros Hne. rewrite sum_by_map. cbn [cd_share]. destruct (disk_weights r _ Ha) as [Hw Hm]. unfold share_in.
    assert (sb_published (current_basis r) = true) as Hpub by (unfold current_basis, weights_basis, basis_of; simpl; by rewrite bool_decide_eq_false_2). rewrite Hpub.
    destruct (N.eq_dec (sb_total (current_basis r)) 0) as [H0|H0].
    + rewrite (sum_by_ext _ (λ _, capacity / N.max (sb_members (current_basis r)) 1)) by (intros; unfold basis_share; by rewrite H0).
      rewrite sum_by_const, Hm. pose proof (N.Div0.mul_div_le capacity (N.max (sb_members (current_basis r)) 1)). nia.
    + rewrite (sum_by_ext _ (λ c, capacity * weight_of (rt_weights r) c / sb_total (current_basis r))).
      * pose proof (sum_by_quotients (weight_of (rt_weights r)) capacity (sb_total (current_basis r)) (disk_caches r)) as H. rewrite Hw in H. nia.
      * intros c Hc. apply share_exact; [done| |done]. rewrite <- Hw. by apply sum_by_elem.
Qed.

(** ** A run *)

Definition sample_shares : list ShareEvent :=
  [Share_Index (lit "a") 300; Share_Any 1000; Share_Update [(lit "a", 900); (lit "b", 100)]; Share_Index (lit "b") 300; Share_Index (lit "u") 400; Share_Pending 7;
   Share_Index (lit "a") 300; Share_Index (lit "v") 1; Share_Candidates 1000 2; Share_Drop 0; Share_Over (lit "u") 1000].

Lemma sample_shares_ok : Forall share_event_ok sample_shares ∧ sum_by event_bytes sample_shares <= U64_MAX.
Proof. split; [repeat (constructor; [exact I || discriminate|]); constructor|by vm_compute]. Defined.

Lemma sample_capacity : 1000 <= U64_MAX.
Proof. by vm_compute. Defined.

Lemma shares_exact_witness : ∃ s, share_run share_state_new sample_shares = Some s ∧ cache_payload_bytes (sh_retention s) (lit "a") = 600 ∧
  rt_indexed (sh_retention s) = 1300 ∧ rt_pending (sh_retention s) = 7.
Proof.
  destruct sample_shares_ok as [Hes Hmax]. destruct (shares_exact sample_shares Hes Hmax) as (s & Hs & Hc & Hi & Hp & _). exists s.
  assert (sh_live <$> share_run share_state_new sample_shares = Some [mkPayload 300 true (Some (lit "a")); mkPayload 7 false None; mkPayload 400 true (Some (lit "u"));
    mkPayload 300 true (Some (lit "b")); mkPayload 300 true (Some (lit "a"))]) as Hl by (vm_compute; reflexivity).
  rewrite Hs in Hl. cbn [fmap option_fmap option_map] in Hl. injection Hl as Hl.
  rewrite Hc, Hi, Hp, Hl. split; [exact Hs|]. split; [|split]; vm_compute; reflexivity.
Defined.

Lemma over_share_found_witness : ∃ s k r, share_run share_state_new sample_shares = Some s ∧ any_over_share (scoring_at 1000) (sh_retention s) = Some (true, k, r) ∧
  ∃ c, is_over (sh_retention s) 1000 c = true.
Proof.
  destruct sample_shares_ok as [Hes Hmax]. destruct (share_run share_state_new sample_shares) as [s|] eqn:Hs; [|by vm_compute in Hs]. exists s.
  destruct (over_share_found s 1000 2 (ex_intro _ sample_shares (conj Hes (conj Hmax Hs))) sample_capacity) as [_ (any & k & r & Ha & Hany)].
  assert (any = true) as ->.
  { assert ((λ '(any, _, _), any) <$> (s ← share_run share_state_new sample_shares; any_over_share (scoring_at 1000) (sh_retention s)) = Some true) as H
      by (vm_compute; reflexivity). rewrite Hs in H. cbn [mbind option_bind] in H. rewrite Ha in H. by injection H. }
  exists k, r. split; [reflexivity|]. split; [exact Ha|]. by apply Hany.
Defined.

Lemma cache_disk_exact_witness : ∃ s, share_run share_state_new sample_shares = Some s ∧ sum_by cd_share (cache_disk (sh_retention s) 1000) <= 1000.
Proof.
  destruct sample_shares_ok as [Hes Hmax]. destruct (share_run share_state_new sample_shares) as [s|] eqn:Hs; [|by vm_compute in Hs]. exists s. split; [reflexivity|].
  apply (cache_disk_exact s 1000 (ex_intro _ sample_shares (conj Hes (conj Hmax Hs))) sample_capacity). intros H0.
  assert ((λ s, tb_weights (rt_weights (sh_retention s)) !! lit "a") <$> share_run share_state_new sample_shares = Some (Some 900)) as H by (vm_compute; reflexivity).
  rewrite Hs in H. cbn [fmap option_fmap option_map] in H. by rewrite H0, lookup_empty in H.
Defined.
