(* ===== verification/SecondSight.v ===== *)
(** * Page history and heat

    [alloc/src/retention.rs]: the rotating Bloom history that admits a page on its second sight, and the exact heat of resident pages.
    Instants and periods are nanoseconds.  Indexing outside a generation is [None]. *)

From S2P Require Import Prelude Bytes.
Local Open Scope racer_scope.
Local Open Scope N_scope.

Definition GENERATIONS : nat := 4.
Definition TWO_64 : N := U64_MAX + 1.

(** ** The history *)

Record SecondSight := mkSight {
  st_pages : list (list N);
  st_occupancy : list N;
  st_current : nat;
  st_rotated : N;
  st_period : N
}.

(** [with_hasher]. *)
Definition sight_new (bytes period now : N) : option SecondSight :=
  let words := bytes / (N.of_nat GENERATIONS * 8) in
  if (words =? 0) || (period =? 0) || (U64_MAX <? period) then None
  else Some (mkSight (replicate GENERATIONS (replicate (N.to_nat words) 0)) (replicate GENERATIONS 0) 0 now period).

(** One turn of the loop of [rotate]: the oldest generation becomes the current one, empty. *)
Definition sight_advance (s : SecondSight) : SecondSight :=
  let current := ((st_current s + 1) mod GENERATIONS)%nat in
  mkSight (alter (fmap (λ _, 0)) current (st_pages s)) (<[current := 0]> (st_occupancy s)) current (st_rotated s) (st_period s).

(** [rotate]. *)
Definition sight_rotate (s : SecondSight) (now : N) : SecondSight :=
  let elapsed := now - st_rotated s in
  let periods := elapsed / st_period s in
  if periods =? 0 then s
  else
    let s := Nat.iter (N.to_nat (N.min periods (N.of_nat GENERATIONS))) sight_advance s in
    mkSight (st_pages s) (st_occupancy s) (st_current s) (now - elapsed mod st_period s) (st_period s).

(** [u64::rotate_left]. *)
Definition rotate_left (h n : N) : N := N.lor (N.shiftl h n mod TWO_64) (N.shiftr h (64 - n)).

(** The four bits of a hash among [bits] bits. *)
Definition hash_bits (hash bits : N) : list N :=
  let step := N.lor (rotate_left hash 29) 1 in
  (λ i, ((hash + (step * i) mod TWO_64) mod TWO_64) mod bits) <$> [0; 1; 2; 3].

Definition bit_mask (bit : N) : N := N.shiftl 1 (bit mod 64).
Definition bit_word (bit : N) : nat := N.to_nat (bit / 64).

(** [bits.iter().all(..)] over one generation, and [any] over all of them. *)
Fixpoint all_marked (generation : list N) (bits : list N) : option bool :=
  match bits with
  | [] => Some true
  | bit :: bits => word ← generation !! bit_word bit; if N.land word (bit_mask bit) =? 0 then Some false else all_marked generation bits
  end.
Fixpoint any_marked (generations : list (list N)) (bits : list N) : option bool :=
  match generations with
  | [] => Some false
  | generation :: generations => b ← all_marked generation bits; if (b : bool) then Some true else any_marked generations bits
  end.

(** The loop that marks the bits in the current generation, with its count of marks. *)
Fixpoint mark_all (generation : list N) (occupancy : N) (bits : list N) : option (list N * N) :=
  match bits with
  | [] => Some (generation, occupancy)
  | bit :: bits =>
      word ← generation !! bit_word bit;
      if N.land word (bit_mask bit) =? 0 then mark_all (<[bit_word bit := N.lor word (bit_mask bit)]> generation) (occupancy + 1) bits
      else mark_all generation occupancy bits
  end.

(** [observe] of a key with the hash [hash]. *)
Definition sight_observe (s : SecondSight) (hash now : N) : option (bool * SecondSight) :=
  let s := sight_rotate s now in
  first ← st_pages s !! 0%nat;
  let bits := hash_bits hash (len first * 64) in
  seen ← any_marked (st_pages s) bits;
  generation ← st_pages s !! st_current s;
  occupancy ← st_occupancy s !! st_current s;
  '(generation, occupancy) ← mark_all generation occupancy bits;
  Some (seen, mkSight (<[st_current s := generation]> (st_pages s)) (<[st_current s := occupancy]> (st_occupancy s)) (st_current s) (st_rotated s) (st_period s)).

(** [occupancy]. *)
Definition sight_occupancy (s : SecondSight) (now : N) : option (N * N * SecondSight) :=
  let s := sight_rotate s now in
  first ← st_pages s !! 0%nat;
  Some (sum_by id (st_occupancy s), len first * 64 * N.of_nat GENERATIONS, s).

(** ** Heat *)

Record Temperature := mkTemperature { tp_value : N; tp_decayed : N }.
Definition DECAY_SECONDS : N := 60.

(** [decay]. *)
Definition temperature_decay (t : Temperature) (now : N) : Temperature :=
  let periods := (now - tp_decayed t) / NANOS_PER_SECOND / DECAY_SECONDS in
  mkTemperature (tp_value t - N.min periods 3) (tp_decayed t + periods * DECAY_SECONDS * NANOS_PER_SECOND).

Section heat.
Context {K : Type} `{Countable K}.

Record Heat := mkHeat { ht_entries : gmap K Temperature; ht_capacity : nat }.

(** [with_hasher]. *)
Definition heat_new (capacity : nat) : option Heat := if (capacity =? 0)%nat then None else Some (mkHeat ∅ capacity).

(** [track]. *)
Definition heat_track (h : Heat) (key : K) (now : N) : bool * Heat :=
  if is_some (ht_entries h !! key) then (true, h)
  else if (ht_capacity h <=? size (ht_entries h))%nat then (false, h)
  else (true, mkHeat (<[key := mkTemperature 0 now]> (ht_entries h)) (ht_capacity h)).

(** [forget]. *)
Definition heat_forget (h : Heat) (key : K) : Heat := mkHeat (delete key (ht_entries h)) (ht_capacity h).

(** [touch]. *)
Definition heat_touch (h : Heat) (key : K) (now : N) : Heat :=
  match ht_entries h !! key with
  | None => h
  | Some t =>
      let t := temperature_decay t now in
      mkHeat (<[key := mkTemperature (N.min (tp_value t + 1) 3) (tp_decayed t)]> (ht_entries h)) (ht_capacity h)
  end.

(** [score]. *)
Definition heat_score (h : Heat) (key : K) (now : N) : N * Heat :=
  match ht_entries h !! key with
  | None => (0, h)
  | Some t => let t := temperature_decay t now in (tp_value t, mkHeat (<[key := t]> (ht_entries h)) (ht_capacity h))
  end.
End heat.
Arguments Heat : clear implicits.
Arguments Heat K {_ _}.
