(* ===== verification/SightRuns.v ===== *)
(** * Page history and heat: all runs

    A page observed is seen again for at least three periods and forgotten after four without observations, the occupancy is exact, and
    heat depends only on touches and the clock. *)

From S2P Require Import Prelude Bytes SecondSight.
Local Open Scope racer_scope.
Local Open Scope N_scope.

(** ** Bits *)

Definition bit_marked (page : list N) (bit : N) : Prop := ∃ w, page !! bit_word bit = Some w ∧ N.testbit w (bit mod 64) = true.

(** The set bits of a word and of a generation. *)
Definition popcount (w : N) : N := len (filter (λ i, N.testbit w (N.of_nat i) = true) (seq 0 64)).
Definition count_bits (page : list N) : N := sum_by popcount page.

Lemma mask_bits bit i : N.testbit (bit_mask bit) i = (i =? bit mod 64).
Proof. unfold bit_mask. rewrite N.shiftl_1_l, N.pow2_bits_eqb. apply N.eqb_sym. Qed.

Lemma land_mask w bit : (N.land w (bit_mask bit) =? 0) = negb (N.testbit w (bit mod 64)).
Proof.
  destruct (N.testbit w (bit mod 64)) eqn:E; simpl.
  - apply N.eqb_neq. intros H. assert (N.testbit (N.land w (bit_mask bit)) (bit mod 64) = true) as Ht by (by rewrite N.land_spec, E, mask_bits, N.eqb_refl).
    rewrite H in Ht. by rewrite N.bits_0 in Ht.
  - apply N.eqb_eq, N.bits_inj. intros i. rewrite N.land_spec, mask_bits, N.bits_0. destruct (N.eqb_spec i (bit mod 64)) as [->|]; [by rewrite E|apply andb_false_r].
Qed.

Lemma lor_mask w bit i : N.testbit (N.lor w (bit_mask bit)) i = N.testbit w i || (i =? bit mod 64).
Proof. by rewrite N.lor_spec, mask_bits. Qed.

Lemma popcount_lor w bit : N.testbit w (bit mod 64) = false → popcount (N.lor w (bit_mask bit)) = popcount w + 1.
Proof.
  intros Hw. unfold popcount, len. assert (bit mod 64 < 64) as Hb by (by apply N.mod_lt). set (b := N.to_nat (bit mod 64)).
  assert (filter (λ i, N.testbit (N.lor w (bit_mask bit)) (N.of_nat i) = true) (seq 0 64) ≡ₚ b :: filter (λ i, N.testbit w (N.of_nat i) = true) (seq 0 64)) as Hp; [|rewrite (Permutation_length Hp); simpl; lia].
  apply NoDup_Permutation.
  - apply NoDup_filter, NoDup_seq.
  - apply NoDup_cons. split; [|apply NoDup_filter, NoDup_seq]. intros [H _]%list_elem_of_filter. unfold b in H. rewrite N2Nat.id in H. congruence.
  - intros i. rewrite elem_of_cons, !list_elem_of_filter, elem_of_seq, lor_mask, orb_true_iff, N.eqb_eq. unfold b. split; [|intros [->|[? ?]]; [rewrite N2Nat.id; split; [by right|lia]|auto]].
    intros [[?|?] ?]; [by right|left; lia].
Qed.

Lemma sum_by_insert {A} (f : A → N) (l : list A) i x y : l !! i = Some x → sum_by f (<[i := y]> l) + f x = sum_by f l + f y.
Proof. revert i. induction l as [|z l IH]; intros [|i] H; [done..| |]; simpl in H; [injection H as ->; simpl; lia|]. specialize (IH i H). simpl. lia. Qed.

Lemma all_marked_spec page bits : (∀ b, b ∈ bits → b < len page * 64) → ∃ r, all_marked page bits = Some r ∧ (r = true ↔ ∀ b, b ∈ bits → bit_marked page b).
Proof.
  induction bits as [|bit bits IH]; intros Hin; cbn [all_marked]; [exists true; split; [done|]; split; [intros _ b Hb; by apply elem_of_nil in Hb|done]|].
  destruct (lookup_lt_is_Some_2 page (bit_word bit)) as [w Hw].
  { pose proof (Hin bit ltac:(by left)) as Hb. unfold bit_word, len in *. assert (bit / 64 < N.of_nat (length page)) by (apply N.Div0.div_lt_upper_bound; lia). lia. }
  rewrite Hw. cbn [mbind option_bind]. rewrite land_mask. destruct (N.testbit w (bit mod 64)) eqn:Eb; cbn [negb].
  - destruct IH as (r & -> & Hr); [intros; apply Hin; by right|]. exists r. split; [done|]. rewrite Hr. split.
    + intros H b [->|Hb]%elem_of_cons; [by exists w|auto].
    + intros H b Hb. apply H. by right.
  - exists false. split; [done|]. split; [done|]. intros H. destruct (H bit ltac:(by left)) as (w' & Hw' & Ht). congruence.
Qed.

Lemma any_marked_spec pages bits : (∀ page, page ∈ pages → ∀ b, b ∈ bits → b < len page * 64) →
  ∃ r, any_marked pages bits = Some r ∧ (r = true ↔ ∃ page, page ∈ pages ∧ ∀ b, b ∈ bits → bit_marked page b).
Proof.
  induction pages as [|page pages IH]; intros Hin; cbn [any_marked]; [exists false; split; [done|]; split; [done|]; intros (p & Hp & _); by apply elem_of_nil in Hp|].
  destruct (all_marked_spec page bits (Hin page ltac:(by left))) as (r & -> & Hr). cbn [mbind option_bind]. destruct r.
  - exists true. split; [done|]. split; [|done]. intros _. exists page. split; [by left|by apply Hr].
  - destruct IH as (r & -> & Hr'); [intros; eapply Hin; [by right|done]|]. exists r. split; [done|]. rewrite Hr'. split.
    + intros (p & Hp & H). exists p. split; [by right|done].
    + intros (p & [->|Hp]%elem_of_cons & H); [by apply Hr in H|eauto].
Qed.

Lemma mark_all_spec page occupancy bits : (∀ b, b ∈ bits → b < len page * 64) →
  ∃ page' occupancy', mark_all page occupancy bits = Some (page', occupancy') ∧ length page' = length page ∧ occupancy' + count_bits page = occupancy + count_bits page' ∧
    (∀ b, bit_marked page b → bit_marked page' b) ∧ ∀ b, b ∈ bits → bit_marked page' b.
Proof.
  revert page occupancy. induction bits as [|bit bits IH]; intros page occupancy Hin; cbn [mark_all].
  { exists page, occupancy. split_and!; [done..|]. intros b Hb. by apply elem_of_nil in Hb. }
  destruct (lookup_lt_is_Some_2 page (bit_word bit)) as [w Hw].
  { pose proof (Hin bit ltac:(by left)) as Hb. unfold bit_word, len in *. assert (bit / 64 < N.of_nat (length page)) by (apply N.Div0.div_lt_upper_bound; lia). lia. }
  rewrite Hw. cbn [mbind option_bind]. rewrite land_mask. destruct (N.testbit w (bit mod 64)) eqn:Eb; cbn [negb].
  - destruct (IH page occupancy) as (page' & occupancy' & -> & Hl & Hc & Hk & Hm); [intros; apply Hin; by right|]. exists page', occupancy'. split_and!; [done..|].
    intros b [->|Hb]%elem_of_cons; [apply Hk; by exists w|auto].
  - set (page1 := <[bit_word bit := N.lor w (bit_mask bit)]> page). assert (length page1 = length page) as Hl1 by apply length_insert.
    destruct (IH page1 (occupancy + 1)) as (page' & occupancy' & -> & Hl & Hc & Hk & Hm); [unfold len; rewrite Hl1; intros; apply Hin; by right|].
    pose proof (sum_by_insert popcount page _ _ (N.lor w (bit_mask bit)) Hw) as Hs. rewrite (popcount_lor w bit Eb) in Hs. fold page1 in Hs. unfold count_bits in *.
    assert (bit_marked page1 bit) as Hb1.
    { exists (N.lor w (bit_mask bit)). split; [apply list_lookup_insert_eq; by eapply lookup_lt_Some|]. by rewrite lor_mask, N.eqb_refl, orb_true_r. }
    exists page', occupancy'. split_and!; [done|congruence|lia| |intros b [->|Hb]%elem_of_cons; auto].
    intros b (v & Hv & Ht). apply Hk. destruct (decide (bit_word b = bit_word bit)) as [He|Hne]; [|exists v; split; [unfold page1; by rewrite list_lookup_insert_ne|done]].
    rewrite He in Hv. rewrite Hw in Hv. injection Hv as <-. exists (N.lor w (bit_mask bit)). rewrite He. split; [apply list_lookup_insert_eq; by eapply lookup_lt_Some|].
    by rewrite lor_mask, Ht.
Qed.

(** ** The invariant *)

Record sight_ok (words : nat) (s : SecondSight) : Prop := {
  sg_pages : length (st_pages s) = GENERATIONS;
  sg_words : words ≠ 0%nat ∧ Forall (λ page, length page = words) (st_pages s);
  sg_occupancy : st_occupancy s = count_bits <$> st_pages s;
  sg_current : (st_current s < GENERATIONS)%nat;
  sg_period : st_period s ≠ 0
}.

Lemma alter_insert {A} (f : A → A) (l : list A) i x : l !! i = Some x → alter f i l = <[i := f x]> l.
Proof. revert i. induction l as [|y l IH]; intros [|i] H; [done..| |]; simpl in H; [by injection H as ->|]. cbn. f_equal. by apply IH. Qed.

Lemma count_zero (page : list N) : count_bits ((λ _, 0) <$> page) = 0.
Proof. unfold count_bits. induction page as [|w page IH]; [done|]. rewrite fmap_cons. change (popcount 0 + sum_by popcount ((λ _, 0) <$> page) = 0). rewrite IH. by vm_compute. Qed.

Lemma page_lookup words s g : sight_ok words s → (g < GENERATIONS)%nat → ∃ page, st_pages s !! g = Some page ∧ length page = words.
Proof.
  intros Hs Hg. destruct (lookup_lt_is_Some_2 (st_pages s) g) as [page Hp]; [by rewrite (sg_pages _ _ Hs)|]. exists page. split; [done|].
  destruct (sg_words _ _ Hs) as [_ Hw]. rewrite Forall_forall in Hw. apply Hw. by eapply list_elem_of_lookup_2.
Qed.

(** One page is replaced. *)
Lemma replace_page words s g page current rotated : sight_ok words s → (g < GENERATIONS)%nat → length page = words → (current < GENERATIONS)%nat →
  sight_ok words (mkSight (<[g := page]> (st_pages s)) (<[g := count_bits page]> (st_occupancy s)) current rotated (st_period s)).
Proof.
  intros Hs Hg Hl Hc. destruct (sg_words _ _ Hs) as [Hw Hall]. split; simpl; [by rewrite length_insert, (sg_pages _ _ Hs)|split; [done|by apply Forall_insert]| |done|apply Hs].
  by rewrite list_fmap_insert, (sg_occupancy _ _ Hs).
Qed.

Definition next_generation (s : SecondSight) : nat := ((st_current s + 1) mod GENERATIONS)%nat.

Lemma advance_ok words s : sight_ok words s → sight_ok words (sight_advance s) ∧ st_current (sight_advance s) = next_generation s ∧
  (∀ g, g ≠ next_generation s → st_pages (sight_advance s) !! g = st_pages s !! g) ∧ (∀ page, st_pages (sight_advance s) !! next_generation s = Some page → count_bits page = 0) ∧
  st_rotated (sight_advance s) = st_rotated s ∧ st_period (sight_advance s) = st_period s.
Proof.
  intros Hs. assert (next_generation s < GENERATIONS)%nat as Hn by (by apply Nat.mod_upper_bound). destruct (page_lookup words s _ Hs Hn) as (page & Hp & Hl).
  assert (sight_advance s = mkSight (<[next_generation s := (λ _, 0) <$> page]> (st_pages s)) (<[next_generation s := count_bits ((λ _, 0) <$> page)]> (st_occupancy s))
    (next_generation s) (st_rotated s) (st_period s)) as -> by (unfold sight_advance; fold (next_generation s); by rewrite (alter_insert _ _ _ _ Hp), count_zero).
  split; [apply replace_page; [done|done|by rewrite length_fmap|done]|]. simpl. split_and!; [done| | |done|done].
  - intros g Hg. by rewrite list_lookup_insert_ne by congruence.
  - intros page'. rewrite list_lookup_insert_eq by (by rewrite (sg_pages _ _ Hs)). intros [= <-]. apply count_zero.
Qed.

(** How many rotations ago a generation was the current one. *)
Definition age (s : SecondSight) (g : nat) : nat := ((st_current s + GENERATIONS - g) mod GENERATIONS)%nat.

Lemma age_advance words s g : sight_ok words s → (g < GENERATIONS)%nat → (age s g < 3)%nat → g ≠ next_generation s ∧ age (sight_advance s) g = S (age s g).
Proof.
  intros Hs Hg. destruct (advance_ok words s Hs) as (_ & Hc & _). unfold age. rewrite Hc. unfold next_generation. pose proof (sg_current _ _ Hs) as Hcur.
  unfold GENERATIONS in *. destruct (st_current s) as [|[|[|[|c]]]], g as [|[|[|[|g]]]]; simpl; lia.
Qed.

Lemma iterate_ok words n s : sight_ok words s → let s' := Nat.iter n sight_advance s in
  sight_ok words s' ∧ st_rotated s' = st_rotated s ∧ st_period s' = st_period s ∧
  (∀ g, (g < GENERATIONS)%nat → (age s g + n <= 3)%nat → st_pages s' !! g = st_pages s !! g ∧ age s' g = (age s g + n)%nat).
Proof.
  intros Hs. induction n as [|n IH]; simpl; [split_and!; [done..|]; intros g Hg _; split; [done|lia]|]. destruct IH as (Hs' & Hr & Hp & Hg'). simpl in *.
  destruct (advance_ok words _ Hs') as (Hs1 & _ & Hkeep & _ & Hr1 & Hp1). split_and!; [done|congruence|congruence|]. intros g Hg Hage.
  destruct (Hg' g Hg ltac:(lia)) as [Hl Ha]. destruct (age_advance words _ g Hs' Hg ltac:(lia)) as [Hne Ha']. rewrite Hkeep, Ha' by done. split; [done|lia].
Qed.

(** The generation that was current when a bit was bit_marked is cleared no earlier than this. *)
Definition expiry (s : SecondSight) (g : nat) : N := st_rotated s + N.of_nat (GENERATIONS - age s g) * st_period s.

Lemma rotate_ok words s now : sight_ok words s → let s' := sight_rotate s now in
  sight_ok words s' ∧ st_period s' = st_period s ∧ now < st_rotated s' + st_period s' ∧
  ∀ g, (g < GENERATIONS)%nat → now < expiry s g → st_pages s' !! g = st_pages s !! g ∧ expiry s' g = expiry s g.
Proof.
  intros Hs. pose proof (sg_period _ _ Hs) as Hp0. unfold sight_rotate. set (elapsed := now - st_rotated s). set (k := elapsed / st_period s).
  pose proof (N.div_mod elapsed (st_period s) Hp0) as Hdm. fold k in Hdm. pose proof (N.mod_lt elapsed (st_period s) Hp0) as Hml. destruct (N.eqb_spec k 0) as [Hk|Hk].
  { simpl. split_and!; [done|done| |done]. rewrite Hk in Hdm. unfold elapsed in *. lia. }
  destruct (iterate_ok words (N.to_nat (N.min k (N.of_nat GENERATIONS))) s Hs) as ([H1 H2 H3 H4 H5] & Hr & Hp & Hg). set (s' := Nat.iter _ _ _) in *. simpl.
  assert (st_rotated s <= now) as Hle.
  { destruct (N.le_gt_cases (st_rotated s) now) as [|Hgt]; [done|]. exfalso. apply Hk. unfold k. replace elapsed with 0 by (unfold elapsed; lia). apply N.Div0.div_0_l. }
  assert (now - elapsed mod st_period s = st_rotated s + k * st_period s) as Hrot by (unfold elapsed in *; lia). split_and!; [by split|done|rewrite Hp, Hrot; nia|].
  intros g Hg4 Hexp. unfold expiry in Hexp. assert (age s g < GENERATIONS)%nat as Hage by (by apply Nat.mod_upper_bound).
  assert (k * st_period s < N.of_nat (GENERATIONS - age s g) * st_period s) as Hkp . { apply (N.add_lt_mono_l _ _ (st_rotated s)). rewrite <- Hrot. exact (N.le_lt_trans _ _ _ (N.le_sub_l _ _) Hexp). }
  apply N.mul_lt_mono_pos_r in Hkp; [|lia].
  assert (k + N.of_nat (age s g) <= 3) as Hk3 by (unfold GENERATIONS in *; lia). destruct (Hg g Hg4) as [Hl Ha]; [unfold GENERATIONS in *; lia|]. split; [done|].
  
  unfold expiry. cbn [st_rotated st_period]. change (age (mkSight _ _ _ _ _) g) with (age s' g). rewrite Ha, Hp, Hrot.
  replace (N.of_nat (GENERATIONS - age s g)) with (k + N.of_nat (GENERATIONS - (age s g + N.to_nat (N.min k (N.of_nat GENERATIONS))))) by (unfold GENERATIONS in *; lia). lia.
Qed.

(** ** Observations *)

Definition key_bits (words : nat) (hash : N) : list N := hash_bits hash (N.of_nat words * 64).

(** Bits that stay bit_marked through a deadline. *)
Definition history_holds (s : SecondSight) (bits : list N) (deadline : N) : Prop :=
  ∃ g page, (g < GENERATIONS)%nat ∧ st_pages s !! g = Some page ∧ (∀ b, b ∈ bits → bit_marked page b) ∧ deadline < expiry s g.

Lemma key_bits_range words hash b : words ≠ 0%nat → b ∈ key_bits words hash → b < N.of_nat words * 64.
Proof. intros Hw (i & -> & _)%list_elem_of_fmap. apply N.mod_lt. lia. Qed.

Lemma rotate_holds words s now bits deadline : sight_ok words s → now <= deadline → history_holds s bits deadline → history_holds (sight_rotate s now) bits deadline.
Proof.
  intros Hs Hd (g & page & Hg & Hp & Hm & He). destruct (rotate_ok words s now Hs) as (_ & _ & _ & Hkeep). destruct (Hkeep g Hg ltac:(lia)) as [Hl Hx].
  exists g, page. split_and!; [done|by rewrite Hl|done|by rewrite Hx].
Qed.

Lemma observe_ok words s hash now : sight_ok words s → ∃ seen s', sight_observe s hash now = Some (seen, s') ∧ sight_ok words s' ∧ st_period s' = st_period s ∧
  history_holds s' (key_bits words hash) (now + 3 * st_period s) ∧ (∀ bits deadline, now <= deadline → history_holds s bits deadline → history_holds s' bits deadline) ∧
  (∀ deadline, now <= deadline → history_holds s (key_bits words hash) deadline → seen = true).
Proof.
  intros Hs. destruct (rotate_ok words s now Hs) as (Hs1 & Hp1 & Hnow & _). unfold sight_observe. set (s1 := sight_rotate s now) in *. destruct (sg_words _ _ Hs1) as [Hw Hall].
  destruct (page_lookup words s1 0 Hs1 ltac:(unfold GENERATIONS; lia)) as (first & -> & Hfirst). cbn [mbind option_bind].
  replace (len first) with (N.of_nat words) by (unfold len; congruence). fold (key_bits words hash).
  assert (∀ page : list N, length page = words → ∀ b, b ∈ key_bits words hash → b < len page * 64) as Hrange by (unfold len; intros page Hpl b Hb; rewrite Hpl; exact (key_bits_range words hash b Hw Hb)).
  destruct (any_marked_spec (st_pages s1) (key_bits words hash)) as (seen & -> & Hseen); [intros page Hin; apply Hrange; rewrite Forall_forall in Hall; by apply Hall|]. cbn [mbind option_bind].
  destruct (page_lookup words s1 _ Hs1 (sg_current _ _ Hs1)) as (page & Hp & Hl). rewrite Hp, (sg_occupancy _ _ Hs1), list_lookup_fmap, Hp. cbn [mbind option_bind fmap option_fmap option_map].
  destruct (mark_all_spec page (count_bits page) (key_bits words hash) (Hrange page Hl)) as (page' & occupancy & -> & Hl' & Hc & Hkeep & Hmark). cbn [mbind option_bind].
  replace occupancy with (count_bits page') by lia. set (s2 := mkSight _ _ _ _ _). exists seen, s2. split; [done|].
  assert (st_pages s2 !! st_current s1 = Some page') as Hcur by (apply list_lookup_insert_eq; by eapply lookup_lt_Some).
  split_and!; [unfold s2; rewrite <- (sg_occupancy _ _ Hs1); apply replace_page; [done|apply Hs1|congruence|apply Hs1]|done| | |].
  - exists (st_current s1), page'. split_and!; [apply Hs1|done|done|]. unfold expiry, age. simpl. rewrite Nat.add_comm, Nat.add_sub. rewrite <- Hp1. unfold GENERATIONS. simpl. lia.
  - intros bits deadline Hd (g & q & Hg & Hq & Hm & He)%(rotate_holds words s now bits deadline Hs Hd). fold s1 in Hq, He. destruct (decide (g = st_current s1)) as [->|Hne].
    + rewrite Hp in Hq. injection Hq as <-. exists (st_current s1), page'. split_and!; [done|done|auto|exact He].
    + exists g, q. split_and!; [done| |done|exact He]. simpl. by rewrite list_lookup_insert_ne.
  - intros deadline Hd (g & q & Hg & Hq & Hm & He)%(rotate_holds words s now _ deadline Hs Hd). fold s1 in Hq. apply Hseen. exists q. split; [by eapply list_elem_of_lookup_2|done].
Qed.

(** Observations of keys by their hashes at some instants. *)
Fixpoint sight_run (s : SecondSight) (es : list (N * N)) : option SecondSight :=
  match es with
  | [] => Some s
  | (hash, now) :: es => '(_, s) ← sight_observe s hash now; sight_run s es
  end.

Lemma sight_run_ok words s es : sight_ok words s → ∃ s', sight_run s es = Some s' ∧ sight_ok words s' ∧ st_period s' = st_period s ∧
  ∀ bits deadline, Forall (λ e, e.2 <= deadline) es → history_holds s bits deadline → history_holds s' bits deadline.
Proof.
  revert s. induction es as [|[hash now] es IH]; intros s Hs; cbn [sight_run]; [by exists s|].
  destruct (observe_ok words s hash now Hs) as (seen & s1 & -> & Hs1 & Hp1 & _ & Hk1 & _). cbn [mbind option_bind]. destruct (IH s1 Hs1) as (s' & -> & Hs' & Hp' & Hk').
  exists s'. split_and!; [done|done|congruence|]. intros bits deadline [? ?]%Forall_cons Hh. auto.
Qed.

Lemma sight_new_ok bytes period now s : sight_new bytes period now = Some s → ∃ words, sight_ok words s ∧ st_period s = period.
Proof.
  unfold sight_new. set (words := bytes / _). destruct (_ || _ || _) eqn:E; [done|]. intros [= <-]. apply orb_false_iff in E as [[Hw%N.eqb_neq Hp%N.eqb_neq]%orb_false_iff _].
  exists (N.to_nat words). split; [|done]. split; cbn [st_pages st_occupancy st_current st_period]; [reflexivity|split; [lia|]| |unfold GENERATIONS; lia|done].
  - repeat (constructor; [apply length_replicate|]). constructor.
  - pose proof (count_zero (replicate (N.to_nat words) 0)) as Hz. rewrite fmap_replicate in Hz. rewrite !fmap_cons, Hz. reflexivity.
Qed.

(** C30: second sight.  A key observed at some instant is seen again by every observation within three periods of it, whatever is
    observed before and in between and even if the clock steps back; no observation panics. *)
Theorem second_sight bytes period start s0 before hash first between now : sight_new bytes period start = Some s0 →
  Forall (λ e, e.2 <= first + 3 * period) between → now <= first + 3 * period →
  ∃ s1 seen s2 s3 s4, sight_run s0 before = Some s1 ∧ sight_observe s1 hash first = Some (seen, s2) ∧ sight_run s2 between = Some s3 ∧
    sight_observe s3 hash now = Some (true, s4).
Proof.
  intros (words & Hs0 & <-)%sight_new_ok Hb Hn. destruct (sight_run_ok words s0 before Hs0) as (s1 & H1 & Hs1 & Hp1 & _).
  destruct (observe_ok words s1 hash first Hs1) as (seen & s2 & H2 & Hs2 & Hp2 & Hh2 & _). destruct (sight_run_ok words s2 between Hs2) as (s3 & H3 & Hs3 & Hp3 & Hk3).
  rewrite Hp1 in Hh2. destruct (observe_ok words s3 hash now Hs3) as (seen' & s4 & H4 & _ & _ & _ & _ & Hseen). rewrite (Hseen _ Hn (Hk3 _ _ Hb Hh2)) in H4. eauto 10.
Qed.

(** ** Occupancy and forgetting *)

Lemma popcount_le w : popcount w <= 64.
Proof. unfold popcount, len. pose proof (length_filter (λ i, N.testbit w (N.of_nat i) = true) (seq 0 64)) as H. rewrite length_seq in H. lia. Qed.

Lemma count_bits_le page : count_bits page <= len page * 64.
Proof. unfold count_bits, len. induction page as [|w page IH]; [done|]. change (popcount w + sum_by popcount page <= N.of_nat (S (length page)) * 64). pose proof (popcount_le w). lia. Qed.

Lemma marked_counted page bit : bit_marked page bit → count_bits page ≠ 0.
Proof.
  intros (w & Hw & Ht). assert (popcount w ≠ 0) as Hp.
  { unfold popcount, len. assert (N.to_nat (bit mod 64) ∈ filter (λ i, N.testbit w (N.of_nat i) = true) (seq 0 64)) as H.
    { assert (bit mod 64 < 64) as Hb by (by apply N.mod_lt). revert Ht Hb. generalize (bit mod 64). intros b Ht Hb. apply list_elem_of_filter. rewrite N2Nat.id.
      split; [done|]. apply elem_of_seq. lia. }
    destruct (filter _ _); [by apply elem_of_nil in H|done]. }
  unfold count_bits. pose proof (sum_by_insert popcount page _ _ 0 Hw). change (popcount 0) with 0 in *. lia.
Qed.

Lemma iterate_clears words n s g page : sight_ok words s → (g < GENERATIONS)%nat → (age (Nat.iter n sight_advance s) g < n)%nat →
  st_pages (Nat.iter n sight_advance s) !! g = Some page → count_bits page = 0.
Proof.
  intros Hs Hg. revert page. induction n as [|n IH]; intros page Ha Hp; [lia|]. cbn [Nat.iter nat_rect] in *. destruct (iterate_ok words n s Hs) as (Hs' & _). simpl in Hs'.
  change (nat_rect _ s (λ _, sight_advance) n) with (Nat.iter n sight_advance s) in *. set (s' := Nat.iter n sight_advance s) in *.
  destruct (advance_ok words s' Hs') as (_ & _ & Hkeep & Hzero & _). destruct (decide (g = next_generation s')) as [->|Hne]; [by eapply Hzero|].
  rewrite Hkeep in Hp by done. apply IH; [|done]. assert (age s' g < 3)%nat as H3.
  { unfold age, next_generation in *. pose proof (sg_current _ _ Hs') as Hc. unfold GENERATIONS in *. destruct (st_current s') as [|[|[|[|c]]]], g as [|[|[|[|g]]]]; simpl in *; lia. }
  destruct (age_advance words s' g Hs' Hg H3) as [_ Hage]. lia.
Qed.

Lemma rotate_clears words s now g page : sight_ok words s → st_rotated s + 4 * st_period s <= now → (g < GENERATIONS)%nat →
  st_pages (sight_rotate s now) !! g = Some page → count_bits page = 0.
Proof.
  intros Hs Hn Hg. unfold sight_rotate. pose proof (sg_period _ _ Hs) as Hp0. assert (4 <= (now - st_rotated s) / st_period s) as Hk by (apply N.div_le_lower_bound; lia).
  rewrite (proj2 (N.eqb_neq _ _)), N.min_r by (unfold GENERATIONS; lia). cbn [st_pages]. apply (iterate_clears words); [done|done|]. unfold age. rewrite Nat2N.id. by apply Nat.mod_upper_bound.
Qed.

Lemma rotate_rotated s now bound : st_period s ≠ 0 → st_rotated s <= bound → now <= bound → st_rotated (sight_rotate s now) <= bound.
Proof. intros Hp Hs Hn. unfold sight_rotate. destruct (_ =? 0); [done|]. exact (N.le_trans _ _ _ (N.le_sub_l _ _) Hn). Qed.

Lemma sight_run_rotated words s es bound s' : sight_ok words s → Forall (λ e, e.2 <= bound) es → st_rotated s <= bound → sight_run s es = Some s' → st_rotated s' <= bound.
Proof.
  intros Hs Hes. revert s Hs. induction Hes as [|[hash now] es He _ IH]; intros s Hs Hb; cbn [sight_run]; [by intros [= <-]|].
  destruct (observe_ok words s hash now Hs) as (seen & s1 & Ho & Hs1 & _). rewrite Ho. cbn [mbind option_bind]. apply (IH s1 Hs1).
  unfold sight_observe in Ho. apply bind_Some in Ho as (? & _ & Ho). apply bind_Some in Ho as (? & _ & Ho). apply bind_Some in Ho as (? & _ & Ho).
  apply bind_Some in Ho as (? & _ & Ho). apply bind_Some in Ho as ([? ?] & _ & [= _ <-]). apply rotate_rotated; [apply Hs|done|done].
Qed.

(** The history stays within its bits and forgets.  Its occupancy is the number of marks, at most the bits it has; four periods
    after the last observation it is empty, and no key is seen. *)
Theorem history_forgets bytes period start s0 es now : sight_new bytes period start = Some s0 →
  ∃ s occupied bits s', sight_run s0 es = Some s ∧ sight_occupancy s now = Some (occupied, bits, s') ∧ occupied = sum_by count_bits (st_pages s') ∧ occupied <= bits ∧
    (Forall (λ e, e.2 + 4 * period <= now) es → start + 4 * period <= now → occupied = 0 ∧ ∀ hash, ∃ s'', sight_observe s hash now = Some (false, s'')).
Proof.
  intros Hnew. pose proof (sight_new_ok _ _ _ _ Hnew) as (words & Hs0 & Hp0). destruct (sight_run_ok words s0 es Hs0) as (s & Hrun & Hs & Hp & _).
  destruct (rotate_ok words s now Hs) as (Hs1 & _). destruct (page_lookup words _ 0 Hs1 ltac:(unfold GENERATIONS; lia)) as (first & Hf & Hlf). exists s.
  assert (sum_by id (st_occupancy (sight_rotate s now)) = sum_by count_bits (st_pages (sight_rotate s now))) as Hsum.
  { rewrite (sg_occupancy _ _ Hs1). generalize (st_pages (sight_rotate s now)). intros l. induction l as [|x l IH]; [done|]. cbn. by f_equal. }
  eexists _, _, _. split; [done|]. unfold sight_occupancy. rewrite Hf. cbn [mbind option_bind]. split; [done|]. split; [exact Hsum|]. rewrite Hsum. split.
  { destruct (sg_words _ _ Hs1) as [_ Hall]. pose proof (sg_pages _ _ Hs1) as Hl. unfold len. rewrite Hlf, <- Hl. clear -Hall.
    induction Hall as [|page l Hpage _ IH]; [simpl; lia|]. pose proof (count_bits_le page) as Hc. unfold len in Hc. rewrite Hpage in Hc. simpl. lia. }
  intros Hes Hst. assert (st_rotated s + 4 * st_period s <= now) as Hold.
  { assert (st_rotated s <= now - 4 * period); [|rewrite Hp, Hp0; lia]. eapply (sight_run_rotated words s0 es); [done| | |done].
    - eapply Forall_impl; [exact Hes|]. intros e ?. simpl in *. lia.
    - unfold sight_new in Hnew. destruct (_ || _); [done|]. injection Hnew as <-. simpl. lia. }
  assert (∀ page, page ∈ st_pages (sight_rotate s now) → count_bits page = 0) as Hz.
  { intros page [g Hg]%list_elem_of_lookup. apply (rotate_clears words s now g page Hs Hold); [|exact Hg]. rewrite <- (sg_pages _ _ Hs1). by eapply lookup_lt_Some. }
  split; [clear -Hz; induction (st_pages (sight_rotate s now)) as [|page l IH]; [done|]; simpl; rewrite (Hz page ltac:(by left)), IH; [done|intros; apply Hz; by right]|].
  intros hash. destruct (observe_ok words s hash now Hs) as (seen & s2 & Ho & _). rewrite Ho. destruct seen; [|eauto]. exfalso. unfold sight_observe in Ho. rewrite Hf in Ho. cbn [mbind option_bind] in Ho.
  apply bind_Some in Ho as (seen & Ha & Ho). apply bind_Some in Ho as (? & _ & Ho). apply bind_Some in Ho as (? & _ & Ho). apply bind_Some in Ho as ([? ?] & _ & [= -> _]).
  destruct (any_marked_spec (st_pages (sight_rotate s now)) (hash_bits hash (len first * 64))) as (r & Hr & Hspec).
  { intros page Hin b Hb. destruct (sg_words _ _ Hs1) as [Hw Hall]. rewrite Forall_forall in Hall. unfold len in *. rewrite (Hall page Hin), Hlf in *. by apply (key_bits_range words hash). }
  rewrite Ha in Hr. injection Hr as <-. destruct (proj1 Hspec eq_refl) as (page & Hin & Hm). eapply marked_counted; [apply Hm; by left|by apply Hz].
Qed.

Definition sample_sight : SecondSight := default (mkSight [] [] 0 0 0) (sight_new 64 60 1000).

Lemma second_sight_witness : ∃ s1 seen s2 s3 s4, sight_run sample_sight [(5, 1010)] = Some s1 ∧ sight_observe s1 77 1030 = Some (seen, s2) ∧
  sight_run s2 [(8, 1100); (9, 1050)] = Some s3 ∧ sight_observe s3 77 1210 = Some (true, s4).
Proof. apply (second_sight 64 60 1000 sample_sight [(5, 1010)] 77 1030 [(8, 1100); (9, 1050)] 1210); [by vm_compute|repeat constructor; by vm_compute|by vm_compute]. Defined.

Lemma history_forgets_witness : ∃ s s'', sight_run sample_sight [(5, 1010); (77, 1030)] = Some s ∧ sight_observe s 77 1270 = Some (false, s'').
Proof.
  destruct (history_forgets 64 60 1000 sample_sight [(5, 1010); (77, 1030)] 1270 ltac:(by vm_compute)) as (s & occupied & bits & s' & Hr & _ & _ & _ & Hf).
  destruct Hf as [_ Hf]; [repeat constructor; by vm_compute|by vm_compute|]. destruct (Hf 77) as [s'' Ho]. exists s, s''. split; [exact Hr|exact Ho].
Defined.

(** ** Heat *)

Lemma decay_twice t early now : tp_value t <= 3 → early <= now → temperature_decay (temperature_decay t early) now = temperature_decay t now.
Proof.
  intros Hv He. unfold temperature_decay. cbn [tp_value tp_decayed]. rewrite !N.Div0.div_div. unfold NANOS_PER_SECOND, DECAY_SECONDS.
  set (m := 1000000000 * 60). set (p := (early - tp_decayed t) / m). assert (p * m <= early - tp_decayed t) as Hp by (rewrite N.mul_comm; apply N.Div0.mul_div_le).
  assert (p <= (now - tp_decayed t) / m) as Hle by (apply N.Div0.div_le_mono; lia). assert (∀ n, n * 60 * 1000000000 = n * m) as Hmul by (intros n; unfold m; lia).
  rewrite !Hmul. assert (m ≠ 0) as Hm by done. clearbody m p. assert ((now - (tp_decayed t + p * m)) / m = (now - tp_decayed t) / m - p) as ->.
  { replace (now - tp_decayed t) with (now - (tp_decayed t + p * m) + p * m) by lia. rewrite N.div_add by done. by rewrite N.add_sub. }
  generalize dependent ((now - tp_decayed t) / m). intros q Hle. f_equal; [lia|]. nia.
Qed.

(** Nothing is left to decay at the instant of a decay. *)
Lemma decay_settled t now v : tp_value t <= 3 → temperature_decay (mkTemperature v (tp_decayed (temperature_decay t now))) now = mkTemperature v (tp_decayed (temperature_decay t now)).
Proof.
  intros Hv. pose proof (f_equal tp_decayed (decay_twice t now now Hv (N.le_refl now))) as H. set (d := tp_decayed (temperature_decay t now)) in *.
  change (d + (now - d) / NANOS_PER_SECOND / DECAY_SECONDS * DECAY_SECONDS * NANOS_PER_SECOND = d) in H. unfold temperature_decay. cbn [tp_value tp_decayed].
  assert ((now - d) / NANOS_PER_SECOND / DECAY_SECONDS = 0) as ->.
  { revert H. generalize ((now - d) / NANOS_PER_SECOND / DECAY_SECONDS). unfold DECAY_SECONDS, NANOS_PER_SECOND. intros p H. lia. }
  f_equal; [apply N.sub_0_r|apply N.add_0_r].
Qed.

Section heat_runs.
Context {K : Type} `{Countable K}.
Implicit Types h : Heat K.

Inductive HeatEvent := Heat_Track (key : K) (now : N) | Heat_Forget (key : K) | Heat_Touch (key : K) (now : N) | Heat_Score (key : K) (now : N).

Definition heat_step h (e : HeatEvent) : Heat K :=
  match e with
  | Heat_Track key now => (heat_track h key now).2
  | Heat_Forget key => heat_forget h key
  | Heat_Touch key now => heat_touch h key now
  | Heat_Score key now => (heat_score h key now).2
  end.
Definition heat_run h (es : list HeatEvent) : Heat K := foldl heat_step h es.
Definition heat_polls h (polls : list (K * N)) : Heat K := foldl (λ h '(key, now), (heat_score h key now).2) h polls.

Record heat_ok (capacity : nat) h : Prop := {
  hk_capacity : ht_capacity h = capacity;
  hk_size : (size (ht_entries h) <= capacity)%nat;
  hk_values : ∀ key t, ht_entries h !! key = Some t → tp_value t <= 3
}.

Lemma heat_update capacity h key t t' : heat_ok capacity h → ht_entries h !! key = Some t → tp_value t' <= 3 →
  heat_ok capacity (mkHeat (<[key := t']> (ht_entries h)) (ht_capacity h)).
Proof.
  intros [Hc Hs Hv] Hk Ht. split; simpl; [done|rewrite map_size_insert_Some by eauto; done|]. intros k x [[_ <-]|[_ ?]]%lookup_insert_Some; [done|eauto].
Qed.

Lemma heat_step_ok capacity h e : heat_ok capacity h → heat_ok capacity (heat_step h e).
Proof.
  intros Hh. pose proof Hh as [Hc Hs Hv]. destruct e as [key now|key|key now|key now]; simpl.
  - unfold heat_track. destruct (ht_entries h !! key) eqn:E; [done|]. cbn [is_some]. destruct (Nat.leb_spec (ht_capacity h) (size (ht_entries h))); [done|].
    split; simpl; [done|rewrite map_size_insert_None by done; lia|]. intros k x [[_ <-]|[_ ?]]%lookup_insert_Some; [done|eauto].
  - split; simpl; [done|pose proof (map_size_delete key (ht_entries h)) as Hd; destruct (ht_entries h !! key); simpl in *; lia|]. intros k x [_ ?]%lookup_delete_Some. eauto.
  - unfold heat_touch. destruct (ht_entries h !! key) as [t|] eqn:E; [|done]. eapply heat_update; [done|done|]. simpl. lia.
  - unfold heat_score. destruct (ht_entries h !! key) as [t|] eqn:E; [|done]. eapply heat_update; [done|done|]. exact (N.le_trans _ _ _ (N.le_sub_l _ _) (Hv key t E)).
Qed.

Lemma heat_run_ok capacity h es : heat_ok capacity h → heat_ok capacity (heat_run h es).
Proof. revert h. induction es as [|e es IH]; intros h Hh; [done|]. apply IH. by apply heat_step_ok. Qed.

Lemma poll_same capacity h polled early key now : heat_ok capacity h → early <= now → (heat_score (heat_score h polled early).2 key now).1 = (heat_score h key now).1.
Proof.
  intros Hh He. unfold heat_score at 2. destruct (ht_entries h !! polled) as [t|] eqn:E; [|done]. unfold heat_score. cbn [snd ht_entries].
  destruct (decide (key = polled)) as [->|Hne]; [|rewrite lookup_insert_ne by congruence; by destruct (ht_entries h !! key)]. rewrite lookup_insert_eq, E. cbn [fst]. by rewrite (decay_twice t early now (hk_values _ _ Hh polled t E) He).
Qed.

(** Heat stays between zero and three for at most the given number of keys, and asking for it does not cool it: whatever keys are
    scored, and how often and in whatever order, a later score of any key is as if none had been asked.  A touch warms a tracked key by
    one, up to three, and nothing else. *)
Theorem heat_ignores_polls capacity h0 es polls key now : heat_new capacity = Some h0 → Forall (λ e, e.2 <= now) polls →
  let h := heat_run h0 es in
  (heat_score (heat_polls h polls) key now).1 = (heat_score h key now).1 ∧ (heat_score h key now).1 <= 3 ∧ (size (ht_entries h) <= capacity)%nat ∧
  ∀ touched, (heat_score (heat_touch h touched now) key now).1 =
    if bool_decide (touched = key) && is_some (ht_entries h !! key) then N.min ((heat_score h key now).1 + 1) 3 else (heat_score h key now).1.
Proof.
  intros Hnew Hp h. assert (heat_ok capacity h0) as H0.
  { unfold heat_new in Hnew. destruct (capacity =? 0)%nat; [done|]. injection Hnew as <-. split; simpl; [done|rewrite map_size_empty; lia|]. intros k t Hk. by rewrite lookup_empty in Hk. }
  pose proof (heat_run_ok capacity h0 es H0) as Hh. fold h in Hh. split; [|split; [|split; [apply Hh|]]].
  - clear Hnew. revert Hh. generalize h. clear h. induction Hp as [|[polled early] polls He _ IH]; intros h Hh; [done|]. cbn [heat_polls foldl].
    change (foldl _ (heat_score h polled early).2 polls) with (heat_polls (heat_score h polled early).2 polls). rewrite IH by (by apply (heat_step_ok capacity h (Heat_Score polled early))).
    by eapply poll_same.
  - unfold heat_score. destruct (ht_entries h !! key) as [t|] eqn:E; [|done]. exact (N.le_trans _ _ _ (N.le_sub_l _ _) (hk_values _ _ Hh key t E)).
  - intros touched. unfold heat_touch. destruct (ht_entries h !! touched) as [t|] eqn:E.
    + unfold heat_score. cbn [ht_entries]. case_bool_decide as Hk; [subst touched; rewrite lookup_insert_eq, E|rewrite lookup_insert_ne by congruence; by destruct (ht_entries h !! key)]. cbn [is_some andb fst].
      by rewrite (decay_settled t now _ (hk_values _ _ Hh key t E)).
    + case_bool_decide as Hk; [subst touched; by rewrite E|done].
Qed.
End heat_runs.

Lemma heat_ignores_polls_witness : ∃ h0 : Heat nat, heat_new 2 = Some h0 ∧
  let h := heat_run h0 [Heat_Track 1%nat 0; Heat_Touch 1%nat 5; Heat_Touch 1%nat 6; Heat_Track 2%nat 7; Heat_Track 3%nat 8] in
  (heat_score (heat_polls h [(1%nat, 59 * NANOS_PER_SECOND); (1%nat, 30)]) 1%nat (60 * NANOS_PER_SECOND)).1 = 1.
Proof.
  eexists. split; [reflexivity|]. cbv zeta. etrans; [eapply (heat_ignores_polls 2); [reflexivity|repeat constructor; by vm_compute]|by vm_compute].
Defined.
