(* ===== verification/MemoryCache.v ===== *)
(** * The worker's memory cache

    The retention part of [MemoryCache] in [cmd/racer/src/memory.rs]: verified and unverified
    ciphertext entries over [TickLru] and [OrderedLru], the per-version page sets, idle expiry
    and every reclamation path.  Reference counts of shared ciphertext, queued writer copies
    and quota excess live outside the cache: whether an entry is idle, what a queued copy or
    the writer releases, are functions over an explicit world [Env].  A page's cache and
    version are functions of its identifier.  An indexing panic is [None]. *)

From S2P Require Import Prelude Lanes Cache OrderedCache Expiry.

Section memory.
Context {K V U G Ver Env : Type} `{Ord K} `{Ord G} `{Countable Ver}.
Variable cache_of : K → G.
Variable version_of : K → Ver.
Variable idle_v : Env → V → bool.
Variable idle_u : Env → U → bool.
Variable amount_v : V → N.
Variable amount_u : U → N.
Variable excess : Env → G → N.
Variable release_queued : Env → K → V → N * Env.
Variable reclaim_writer : Env → option G → N → N * Env.

(** [ByCache]. *)
#[local] Instance by_cache : Grouping K G := λ k, Some (cache_of k).

Record Entries : Type := mkEntries {
  e_lru : TickLru K V G;
  versions : gmap Ver (gset K);
}.

Definition entries_default : Entries := mkEntries tick_default ∅.

(** [Entries::forget_version]. *)
Definition forget_version (vs : gmap Ver (gset K)) (id : K) : gmap Ver (gset K) :=
  match vs !! version_of id with
  | None => vs
  | Some pages =>
      let pages := pages ∖ {[id]} in
      if bool_decide (pages = ∅) then delete (version_of id) vs else <[version_of id := pages]> vs
  end.

(** [Entries::remove]. *)
Definition entries_remove (e : Entries) (id : K) : option V * Entries :=
  let '(page, l) := tick_remove (e_lru e) id in
  match page with
  | None => (None, mkEntries l (versions e))
  | Some page => (Some page, mkEntries l (forget_version (versions e) id))
  end.

(** [Entries::insert]: exhaustion is the overload error. *)
Definition entries_insert (e : Entries) (id : K) (page : V) : result () ExhaustedError * Entries :=
  match tick_insert (e_lru e) id page with
  | (Err err, l) => (Err err, mkEntries l (versions e))
  | (Ok _, l) =>
      (Ok (), mkEntries l (<[version_of id := {[id]} ∪ default ∅ (versions e !! version_of id)]> (versions e)))
  end.

(** [Entries::touch]. *)
Definition entries_touch (e : Entries) (id : K) : result () ExhaustedError * Entries :=
  let '(r, l) := tick_touch (e_lru e) id in (r, mkEntries l (versions e)).

Record MemoryCache : Type := mkMemory {
  entries : Entries;
  ciphertext_entries : OrderedLru K U G;
  ciphertext_cursor : option K;
  pressure_cursor : option G;
  m_expiry : Expiry;
}.

Definition memory_new : MemoryCache := mkMemory entries_default ordered_default None None expiry_default.

Definition put_entries (m : MemoryCache) (e : Entries) : MemoryCache :=
  mkMemory e (ciphertext_entries m) (ciphertext_cursor m) (pressure_cursor m) (m_expiry m).

Definition put_ciphertext (m : MemoryCache) (c : OrderedLru K U G) : MemoryCache :=
  mkMemory (entries m) c (ciphertext_cursor m) (pressure_cursor m) (m_expiry m).

(** ** Idle expiry *)

Fixpoint expire_entries (env : Env) (selected : list (N * K)) (released : N) (e : Entries) :
    option (N * Entries) :=
  match selected with
  | [] => Some (released, e)
  | (_, id) :: selected =>
      match pages (e_lru e) !! id with
      | None => None
      | Some (_, v) =>
          if idle_v env v then expire_entries env selected (released + 1) (entries_remove e id).2
          else expire_entries env selected released e
      end
  end.

Fixpoint expire_ciphertext (env : Env) (selected : list (N * K)) (released : N) (c : OrderedLru K U G) :
    option (N * OrderedLru K U G) :=
  match selected with
  | [] => Some (released, c)
  | (_, id) :: selected =>
      match o_pages c !! id with
      | None => None
      | Some u =>
          if idle_u env u then expire_ciphertext env selected (released + 1) (ordered_remove c id).2
          else expire_ciphertext env selected released c
      end
  end.

(** The verified half of [MemoryCache::expire_idle]. *)
Definition expire_verified (env : Env) (m : MemoryCache) (cutoff : N) : option (N * MemoryCache) :=
  match e_verified (m_expiry m) with
  | None => Some (0%N, m)
  | Some after =>
      let '(selected, next) := tick_expiring (e_lru (entries m)) after cutoff EXPIRY_BATCH in
      '(released, e) ← expire_entries env selected 0 (entries m);
      Some (released,
            mkMemory e (ciphertext_entries m) (ciphertext_cursor m) (pressure_cursor m)
              (mkExpiry (checkpoints (m_expiry m)) next (e_ciphertext (m_expiry m))))
  end.

(** Its unverified half. *)
Definition expire_unverified (env : Env) (m : MemoryCache) (released cutoff : N) : option (N * MemoryCache) :=
  match e_ciphertext (m_expiry m) with
  | None => Some (released, m)
  | Some after =>
      let '(selected, next) := ordered_expiring (ciphertext_entries m) after cutoff EXPIRY_BATCH in
      '(released, c) ← expire_ciphertext env selected released (ciphertext_entries m);
      Some (released,
            mkMemory (entries m) c (ciphertext_cursor m) (pressure_cursor m)
              (mkExpiry (checkpoints (m_expiry m)) (e_verified (m_expiry m)) next))
  end.

(** [MemoryCache::expire_idle]. *)
Definition expire_idle (env : Env) (m : MemoryCache) (now : N) : option (N * MemoryCache) :=
  let '(cutoffs, x) :=
    expiry_advance (m_expiry m) now (clock (e_lru (entries m))) (o_clock (ciphertext_entries m)) in
  let m := mkMemory (entries m) (ciphertext_entries m) (ciphertext_cursor m) (pressure_cursor m) x in
  match cutoffs with
  | None => Some (0%N, m)
  | Some (verified_cutoff, ciphertext_cutoff) =>
      '(released, m) ← expire_verified env m verified_cutoff;
      expire_unverified env m released ciphertext_cutoff
  end.

(** ** Reclamation *)

(** [MemoryCache::reclaim_ciphertext]. *)
Fixpoint reclaim_ciphertext_scan (env : Env) (cache : option G) (bytes : N) (selected : list K)
    (released : N) (c : OrderedLru K U G) (cur : option K) : option (N * OrderedLru K U G * option K) :=
  match selected with
  | [] => Some (released, c, cur)
  | id :: selected =>
      if (bytes <=? released)%N then Some (released, c, cur)
      else
        let cur := Some id in
        if match cache with Some g => negb (bool_decide (g = cache_of id)) | None => false end then
          reclaim_ciphertext_scan env cache bytes selected released c cur
        else
          match o_pages c !! id with
          | None => None
          | Some u =>
              if idle_u env u then
                match ordered_remove c id with
                | (Some u, c) => reclaim_ciphertext_scan env cache bytes selected (released + amount_u u) c cur
                | (None, c) => reclaim_ciphertext_scan env cache bytes selected released c cur
                end
              else reclaim_ciphertext_scan env cache bytes selected released c cur
          end
  end.

Definition reclaim_ciphertext (env : Env) (m : MemoryCache) (cache : option G) (bytes : N) :
    option (N * MemoryCache) :=
  '(released, c, cur) ←
    reclaim_ciphertext_scan env cache bytes
      (ordered_candidates (ciphertext_entries m) (ciphertext_cursor m)) 0 (ciphertext_entries m)
      (ciphertext_cursor m);
  Some (released, mkMemory (entries m) c cur (pressure_cursor m) (m_expiry m)).

(** The state of the reclaim visitors: bytes released, removed pages, world. *)
Definition VisitState : Type := (N * list K * Env)%type.

(** The visitor of [MemoryCache::evict_idle]. *)
Definition evict_visit (bytes : N) (s : VisitState) (id : K) (v : V) : Visit * VisitState :=
  let '(released, removed, env) := s in
  if (bytes <=? released)%N then (Visit_Stop, s)
  else if negb (idle_v env v) then (Visit_Skip, s)
  else (Visit_Remove, (saturating_add USIZE_MAX released (amount_v v), removed ++ [id], env)).

(** The visitor of [MemoryCache::reclaim_idle]. *)
Definition reclaim_visit (cache : option G) (bytes : N) (s : VisitState) (id : K) (v : V) :
    Visit * VisitState :=
  let '(released, removed, env) := s in
  if (bytes <=? released)%N then (Visit_Stop, s)
  else if match cache with Some g => negb (bool_decide (g = cache_of id)) | None => false end then
    (Visit_Skip, s)
  else
    let '(n, env) := release_queued env id v in
    let released := saturating_add USIZE_MAX released n in
    if (bytes <=? released)%N then (Visit_Last, (released, removed, env))
    else if negb (idle_v env v) then (Visit_Skip, (released, removed, env))
    else (Visit_Remove, (saturating_add USIZE_MAX released (amount_v v), removed ++ [id], env)).

(** One [TickLru::reclaim] pass with its version bookkeeping. *)
Definition reclaim_entries (visit : VisitState → K → V → Visit * VisitState) (released : N) (env : Env)
    (m : MemoryCache) : option (N * Env * MemoryCache) :=
  '(s, l) ← reclaim visit (released, [], env) (e_lru (entries m));
  let '(released, removed, env) := s in
  Some (released, env, put_entries m (mkEntries l (foldl forget_version (versions (entries m)) removed))).

(** [MemoryCache::evict_idle]; the buffer pool's own maintenance does not touch the cache. *)
Definition evict_idle (env : Env) (m : MemoryCache) (bytes : N) : option (N * Env * MemoryCache) :=
  '(released, m) ← reclaim_ciphertext env m None bytes;
  reclaim_entries (evict_visit bytes) released env m.

(** [MemoryCache::reclaim_idle] for the ciphertext class; any other class releases nothing. *)
Definition reclaim_idle (env : Env) (m : MemoryCache) (cache : option G) (bytes : N) :
    option (N * Env * MemoryCache) :=
  '(released, m) ← reclaim_ciphertext env m cache bytes;
  reclaim_entries (reclaim_visit cache bytes) released env m.

(** The two loops of [MemoryCache::reclaim_cache]. *)
Fixpoint reclaim_lane_ciphertext (env : Env) (g : G) (bytes : N) (cs : list (N * K)) (released : N)
    (c : OrderedLru K U G) : option (N * OrderedLru K U G) :=
  match cs with
  | [] => Some (released, c)
  | (tick, id) :: cs =>
      if (bytes <=? released)%N then Some (released, c)
      else
        let c := mkOrdered (o_pages c) (o_ticks c) (o_order c) (o_clock c) (lanes_advance g tick (o_lanes c)) in
        match o_pages c !! id with
        | None => None
        | Some u =>
            if idle_u env u then
              match ordered_remove c id with
              | (Some u, c) => reclaim_lane_ciphertext env g bytes cs (released + amount_u u) c
              | (None, c) => reclaim_lane_ciphertext env g bytes cs released c
              end
            else reclaim_lane_ciphertext env g bytes cs released c
        end
  end.

Fixpoint reclaim_lane_entries (g : G) (bytes : N) (cs : list (N * K)) (released : N) (env : Env)
    (e : Entries) : option (N * Env * Entries) :=
  match cs with
  | [] => Some (released, env, e)
  | (tick, id) :: cs =>
      if (bytes <=? released)%N then Some (released, env, e)
      else
        let e := mkEntries (set_lanes (e_lru e) (lanes_advance g tick (lanes (e_lru e)))) (versions e) in
        match pages (e_lru e) !! id with
        | None => None
        | Some (_, v) =>
            let '(n, env) := release_queued env id v in
            let released := saturating_add USIZE_MAX released n in
            if (bytes <=? released)%N then Some (released, env, e)
            else if idle_v env v then
              reclaim_lane_entries g bytes cs (saturating_add USIZE_MAX released (amount_v v)) env
                (entries_remove e id).2
            else reclaim_lane_entries g bytes cs released env e
        end
  end.

(** [MemoryCache::reclaim_cache]. *)
Definition reclaim_cache (env : Env) (m : MemoryCache) (g : G) (bytes : N) :
    option (N * Env * MemoryCache) :=
  '(released, c) ←
    reclaim_lane_ciphertext env g bytes (lanes_candidates g (o_lanes (ciphertext_entries m))) 0
      (ciphertext_entries m);
  '(released, env, e) ←
    reclaim_lane_entries g bytes (lanes_candidates g (lanes (e_lru (entries m)))) released env (entries m);
  Some (released, env, put_entries (put_ciphertext m c) e).

(** [Vec::dedup]. *)
Fixpoint dedup (l : list G) : list G :=
  match l with
  | a :: rest =>
      match dedup rest with
      | b :: _ as rest' => if bool_decide (a = b) then rest' else a :: rest'
      | [] => [a]
      end
  | [] => []
  end.

Definition wrapped (cur : option G) (g : G) : bool :=
  match cur with Some c => bool_decide (ord_le g c) | None => false end.

(** Wrapped order: caches after the cursor come first. *)
Definition wrapped_le (cur : option G) (a b : G) : Prop :=
  (wrapped cur a = false ∧ wrapped cur b = true) ∨ (wrapped cur a = wrapped cur b ∧ ord_le a b).

#[local] Instance wrapped_le_dec cur : RelDecision (wrapped_le cur).
Proof. intros a b. unfold wrapped_le. apply _. Defined.

(** [MemoryCache::pressure_window]. *)
Definition pressure_window (m : MemoryCache) : list G :=
  let cur := pressure_cursor m in
  let caches := lanes_window cur (lanes (e_lru (entries m))) ++
                lanes_window cur (o_lanes (ciphertext_entries m)) in
  take PRESSURE_WINDOW (dedup (merge_sort (wrapped_le cur) caches)).

(** The over-share window of a global [MemoryCache::reclaim]. *)
Fixpoint reclaim_window (caches : list G) (bytes released : N) (env : Env) (m : MemoryCache) :
    option (N * Env * MemoryCache) :=
  match caches with
  | [] => Some (released, env, m)
  | g :: caches =>
      if (bytes <=? released)%N then Some (released, env, m)
      else
        let m := mkMemory (entries m) (ciphertext_entries m) (ciphertext_cursor m) (Some g) (m_expiry m) in
        let want := N.min (excess env g) (bytes - released) in
        if (want =? 0)%N then reclaim_window caches bytes released env m
        else
          '(got, env, m) ← reclaim_cache env m g want;
          let '(got, env) :=
            if (got <? want)%N then
              let '(n, env) := reclaim_writer env (Some g) (want - got) in
              (saturating_add USIZE_MAX got n, env)
            else (got, env) in
          reclaim_window caches bytes (saturating_add USIZE_MAX released got) env m
  end.

(** [MemoryCache::reclaim] for the ciphertext class; any other class releases nothing. *)
Definition memory_reclaim (env : Env) (m : MemoryCache) (owner : option G) (bytes : N) :
    option (N * Env * MemoryCache) :=
  if (bytes =? 0)%N then Some (0%N, env, m)
  else
    match owner with
    | Some g =>
        '(released, env, m) ← reclaim_cache env m g bytes;
        if (bytes <=? released)%N then Some (released, env, m)
        else
          let '(n, env) := reclaim_writer env (Some g) (bytes - released) in
          Some (saturating_add USIZE_MAX released n, env, m)
    | None =>
        '(released, env, m) ← reclaim_window (pressure_window m) bytes 0 env m;
        '(released, env, m) ←
          (if (released <? bytes)%N then
             '(n, env, m) ← reclaim_idle env m None (bytes - released);
             Some (saturating_add USIZE_MAX released n, env, m)
           else Some (released, env, m));
        if (released <? bytes)%N then
          let '(n, env) := reclaim_writer env None (bytes - released) in
          Some (saturating_add USIZE_MAX released n, env, m)
        else Some (released, env, m)
    end.

(** [MemoryCache::remove_caches]. *)
Definition remove_caches (m : MemoryCache) (caches : gset G) : MemoryCache :=
  if bool_decide (caches = ∅) then m
  else
    let c := (ordered_retain (λ (s : ()) id, (negb (bool_decide (cache_of id ∈ caches)), s)) ()
                (ciphertext_entries m)).2 in
    let removed := filter (λ id, cache_of id ∈ caches) (map_to_list (pages (e_lru (entries m)))).*1 in
    put_entries (put_ciphertext m c) (foldl (λ e id, (entries_remove e id).2) (entries m) removed).

(** ** Consistency *)

(** The page sets hold exactly the present pages, each under its version. *)
Definition versions_hold (present : gset K) (vs : gmap Ver (gset K)) : Prop :=
  (∀ w ids, vs !! w = Some ids → ids ≠ ∅ ∧ ∀ id, id ∈ ids → version_of id = w) ∧ ∀ id, id ∈ present ↔ ∃ ids, vs !! version_of id = Some ids ∧ id ∈ ids.

Record entries_inv (e : Entries) : Prop := {
  en_tick : tick_inv (e_lru e);
  en_versions : versions_hold (dom (pages (e_lru e))) (versions e);
}.

Lemma versions_forget present vs id :
  versions_hold present vs → versions_hold (present ∖ {[id]}) (forget_version vs id).
Proof.
  intros [Hok Hin]. unfold forget_version. destruct (vs !! version_of id) as [ids|] eqn:Ev.
  2:{ split; [done|]. intros id'. rewrite elem_of_difference, Hin, elem_of_singleton. split; [naive_solver|].
      intros (ids & Hids & Hid'). split; [naive_solver|]. intros ->. congruence. }
  case_bool_decide as Hempty.
  - split.
    + intros w ids' [_ ?]%lookup_delete_Some. by apply Hok.
    + intros id'. rewrite elem_of_difference, Hin, elem_of_singleton. split.
      * intros [(ids' & Hids & Hid') Hne]. exists ids'. split; [|done]. apply lookup_delete_Some.
        split; [|done]. intros Heq. rewrite <- Heq, Ev in Hids. injection Hids as <-. set_solver.
      * intros (ids' & [Hne Hids]%lookup_delete_Some & Hid'). split; [by exists ids'|]. congruence.
  - split.
    + intros w ids' [[<- <-]|[_ ?]]%lookup_insert_Some; [|by apply Hok]. split; [done|].
      intros id' Hid'. apply (Hok _ ids Ev). set_solver.
    + intros id'. rewrite elem_of_difference, Hin, elem_of_singleton.
      destruct (decide (version_of id = version_of id')) as [Heq|Hne].
      * rewrite <- Heq, lookup_insert_eq, Ev. split.
        -- intros [(ids' & [= <-] & Hid') Hne]. eexists. split; [done|].
           by apply elem_of_difference; rewrite elem_of_singleton.
        -- intros (ids' & [= <-] & [Hid' Hne]%elem_of_difference). rewrite elem_of_singleton in Hne.
           split; [by exists ids|done].
      * rewrite lookup_insert_ne by done. split; [naive_solver|]. intros Hids. split; [done|]. congruence.
Qed.

Lemma versions_forget_all present vs ids :
  versions_hold present vs → versions_hold (present ∖ list_to_set ids) (foldl forget_version vs ids).
Proof.
  revert present vs. induction ids as [|id ids IH]; intros present vs Hv; simpl.
  - by rewrite difference_empty_L.
  - apply (versions_forget _ _ id), IH in Hv. by rewrite difference_difference_l_L in Hv.
Qed.

Lemma versions_insert present vs id :
  versions_hold present vs →
  versions_hold ({[id]} ∪ present) (<[version_of id := {[id]} ∪ default ∅ (vs !! version_of id)]> vs).
Proof.
  intros [Hok Hin]. split.
  - intros w ids [[<- <-]|[_ ?]]%lookup_insert_Some; [|by apply Hok]. split; [set_solver|].
    intros id' [->%elem_of_singleton|Hid']%elem_of_union; [done|].
    destruct (vs !! version_of id) as [ids|] eqn:Ev; [by apply (Hok _ ids Ev)|set_solver].
  - intros id'. rewrite elem_of_union, elem_of_singleton, Hin.
    destruct (decide (version_of id = version_of id')) as [Heq|Hne].
    + rewrite <- Heq, lookup_insert_eq. split.
      * intros [->|(ids & Hids & Hid')]; eexists; (split; [done|]); [set_solver|].
        rewrite Hids. set_solver.
      * intros (ids & [= <-] & [->%elem_of_singleton|Hid']%elem_of_union); [by left|right].
        destruct (vs !! version_of id) as [ids|] eqn:Ev; [by exists ids|set_solver].
    + rewrite lookup_insert_ne by done. split; [|by right]. intros [->|?]; done.
Qed.

Lemma tick_remove_pages (l : TickLru K V G) id :
  pages (tick_remove l id).2 = delete id (pages l) ∧ clock (tick_remove l id).2 = clock l.
Proof.
  unfold tick_remove. destruct (pages l !! id) as [[t v]|] eqn:Ep; simpl; [done|]. by rewrite delete_id.
Qed.

Lemma entries_remove_spec e id :
  entries_inv e →
  let e' := (entries_remove e id).2 in
  entries_inv e' ∧ pages (e_lru e') = delete id (pages (e_lru e)) ∧ clock (e_lru e') = clock (e_lru e).
Proof.
  intros [Ht Hv]. destruct (tick_remove_pages (e_lru e) id) as [Hp Hc].
  pose proof (tick_inv_remove (e_lru e) id Ht) as Ht'. unfold entries_remove.
  assert (pages (e_lru e) !! id = None → (tick_remove (e_lru e) id).2 = e_lru e) as Hnone
    by (unfold tick_remove; by intros ->).
  destruct (tick_remove (e_lru e) id) as [[v|] l] eqn:Er; simpl in *; (split_and!; [split; simpl; [done|]|done|done]).
  - rewrite Hp, dom_delete_L. by apply versions_forget.
  - assert (pages (e_lru e) !! id = None) as Hn.
    { unfold tick_remove in Er. by destruct (pages (e_lru e) !! id) as [[? ?]|]. }
    by rewrite (Hnone Hn).
Qed.

Lemma ordered_remove_index (c : OrderedLru K U G) id :
  o_ticks (ordered_remove c id).2 ⊆ o_ticks c ∧ o_clock (ordered_remove c id).2 = o_clock c.
Proof.
  unfold ordered_remove. destruct (o_pages c !! id); [|done]. destruct (o_ticks c !! id); [|done].
  split; [apply delete_subseteq|done].
Qed.

(** ** What expiry and reclamation may do: only remove *)

Record removes (m m' : MemoryCache) : Prop := {
  rm_entries : entries_inv (entries m');
  rm_ciphertext : ordered_inv (ciphertext_entries m');
  rm_pages : pages (e_lru (entries m')) ⊆ pages (e_lru (entries m));
  rm_clock : clock (e_lru (entries m')) = clock (e_lru (entries m));
  rm_o_pages : o_pages (ciphertext_entries m') ⊆ o_pages (ciphertext_entries m);
  rm_o_ticks : o_ticks (ciphertext_entries m') ⊆ o_ticks (ciphertext_entries m);
  rm_o_clock : o_clock (ciphertext_entries m') = o_clock (ciphertext_entries m);
}.

Definition mem_inv (m : MemoryCache) : Prop :=
  entries_inv (entries m) ∧ ordered_inv (ciphertext_entries m).

Lemma removes_refl m m' :
  mem_inv m → entries m' = entries m → ciphertext_entries m' = ciphertext_entries m → removes m m'.
Proof. intros [He Hc] E1 E2. split; by rewrite ?E1, ?E2. Qed.

Lemma removes_inv m m' : removes m m' → mem_inv m'.
Proof. by intros []. Qed.

Lemma removes_trans m1 m2 m3 : removes m1 m2 → removes m2 m3 → removes m1 m3.
Proof. intros [] []. split; try done; try (by etrans). Qed.

(** ** Expiry loops *)

(** An entry survives a pass over [ids] unless it is among them and idle. *)
Definition survives {A} (ids : list K) (idle : A → bool) (p : K * A) : Prop :=
  ¬ (p.1 ∈ ids ∧ idle p.2 = true).

#[local] Instance survives_dec {A} ids (idle : A → bool) p : Decision (survives ids idle p).
Proof. unfold survives. apply _. Defined.

Lemma survives_nil {A} (idle : A → bool) (m : gmap K A) : filter (survives [] idle) m = m.
Proof. apply map_filter_id. intros id x _ [Hb _]. by apply elem_of_nil in Hb. Qed.

Lemma survives_evict {A} (idle : A → bool) (m : gmap K A) id x ids :
  m !! id = Some x → idle x = true →
  filter (survives ids idle) (delete id m) = filter (survives (id :: ids) idle) m.
Proof.
  intros Ex Hidle. apply map_eq. intros id'. apply option_eq. intros y.
  rewrite !map_lookup_filter_Some, lookup_delete_Some. unfold survives. simpl. rewrite elem_of_cons. split.
  - intros [[Hne Hy] Hnot]. split; [done|]. intros [[->|Hs] Hi]; [done|by apply Hnot].
  - intros [Hy Hnot]. split; [split; [|done]|by intros [? ?]; apply Hnot; auto].
    intros <-. rewrite Ex in Hy. injection Hy as <-. apply Hnot. by split; [left|].
Qed.

Lemma survives_keep {A} (idle : A → bool) (m : gmap K A) id x ids :
  m !! id = Some x → idle x = false → filter (survives ids idle) m = filter (survives (id :: ids) idle) m.
Proof.
  intros Ex Hidle. apply map_filter_ext. intros id' y Hy. unfold survives. simpl. rewrite elem_of_cons.
  split; [|naive_solver]. intros Hnot [[->|Hs] Hi]; [|by apply Hnot]. congruence.
Qed.

Lemma expire_entries_spec env sel n e :
  entries_inv e → NoDup sel.*2 → (∀ t id, (t, id) ∈ sel → is_Some (pages (e_lru e) !! id)) →
  ∃ n' e', expire_entries env sel n e = Some (n', e') ∧ entries_inv e' ∧
    clock (e_lru e') = clock (e_lru e) ∧
    pages (e_lru e') =
    filter (survives sel.*2 (λ x, idle_v env x.2)) (pages (e_lru e)).
Proof.
  revert n e. induction sel as [|[t id] sel IH]; intros n e Hi Hnd Hin; simpl.
  { exists n, e. split_and!; [done|done|done|]. by rewrite survives_nil. }
  csimpl in Hnd. apply NoDup_cons in Hnd as [Hid Hnd].
  destruct (Hin t id) as [[t0 v] Ev]; [left|]. rewrite Ev. destruct (idle_v env v) eqn:Eidle.
  - destruct (entries_remove_spec e id Hi) as (Hi' & Hp & Hc).
    destruct (IH (n + 1)%N (entries_remove e id).2 Hi' Hnd) as (n' & e' & E' & Hi2 & Hc2 & Hp2).
    { intros t' id' Hin'. rewrite Hp, lookup_delete_ne; [eapply Hin; by right|].
      intros <-. apply Hid. by apply (list_elem_of_fmap_2 snd) in Hin'. }
    exists n', e'. split_and!; [done|done|congruence|]. rewrite Hp2, Hp.
    by apply (survives_evict (λ x, idle_v env x.2) _ id (t0, v)).
  - destruct (IH n e Hi Hnd) as (n' & e' & E' & Hi2 & Hc2 & Hp2); [intros; eapply Hin; by right|].
    exists n', e'. split_and!; [done|done|done|]. rewrite Hp2.
    by apply (survives_keep (λ x, idle_v env x.2) _ id (t0, v)).
Qed.

Lemma expire_ciphertext_spec env sel n (c : OrderedLru K U G) :
  ordered_inv c → NoDup sel.*2 → (∀ t id, (t, id) ∈ sel → is_Some (o_pages c !! id)) →
  ∃ n' c', expire_ciphertext env sel n c = Some (n', c') ∧ ordered_inv c' ∧
    o_clock c' = o_clock c ∧ o_ticks c' ⊆ o_ticks c ∧
    o_pages c' = filter (survives sel.*2 (idle_u env)) (o_pages c).
Proof.
  revert n c. induction sel as [|[t id] sel IH]; intros n c Hi Hnd Hin; simpl.
  { exists n, c. split_and!; [done|done|done|done|]. by rewrite survives_nil. }
  csimpl in Hnd. apply NoDup_cons in Hnd as [Hid Hnd].
  destruct (Hin t id) as [u Eu]; [left|]. rewrite Eu. destruct (idle_u env u) eqn:Eidle.
  - pose proof (ordered_remove_pages c id) as Hp. destruct (ordered_remove_index c id) as [Ht Hc].
    destruct (IH (n + 1)%N (ordered_remove c id).2 (ordered_inv_remove c id Hi) Hnd)
      as (n' & c' & E' & Hi2 & Hc2 & Ht2 & Hp2).
    { intros t' id' Hin'. rewrite Hp, lookup_delete_ne; [eapply Hin; by right|].
      intros <-. apply Hid. by apply (list_elem_of_fmap_2 snd) in Hin'. }
    exists n', c'. split_and!; [done|done|congruence|by etrans|]. rewrite Hp2, Hp.
    by apply (survives_evict (idle_u env) _ id u).
  - destruct (IH n c Hi Hnd) as (n' & c' & E' & Hi2 & Hc2 & Ht2 & Hp2); [intros; eapply Hin; by right|].
    exists n', c'. split_and!; [done|done|done|done|]. rewrite Hp2.
    by apply (survives_keep (idle_u env) _ id u).
Qed.

Lemma expiring_elem (order : gmap N K) after cutoff batch t id :
  (t, id) ∈ (expiring order after cutoff batch).1 → order !! t = Some id ∧ (t ≤ cutoff)%N.
Proof.
  simpl. intros Hin%elem_of_take_weak. apply list_elem_of_filter in Hin as [[_ Ht] Hin].
  apply elem_of_btree_iter in Hin; try apply _. done.
Qed.

Lemma expiring_NoDup ticks (order : gmap N K) (ls : gmap G (Lane K)) clk after cutoff batch :
  index_ok ticks order ls clk → NoDup (expiring order after cutoff batch).1.*2.
Proof.
  intros Hi. apply NoDup_fmap_2_strong.
  - intros [t1 id1] [t2 id2] [Ht1 _]%expiring_elem [Ht2 _]%expiring_elem Heq. simpl in Heq. subst id2.
    apply (ix_sync _ _ _ _ Hi) in Ht1, Ht2. congruence.
  - simpl. eapply sublist_NoDup; [|apply sublist_take]. apply NoDup_filter.
    eapply NoDup_fmap_1, btree_iter_NoDup.
Qed.

(** An aged checkpoint at or above the tick. *)
Definition below_cutoff (now : N) (cs : list (N * N * N)) (clk : N * N * N → N) (tick : N) : Prop :=
  ∃ c, c ∈ cs ∧ aged now c = true ∧ (tick ≤ clk c)%N.

(** An entry is kept, or it was selected and idle. *)
Lemma survives_or_lost {A} (idle : A → bool) (m : gmap K A) ids id x :
  m !! id = Some x →
  filter (survives ids idle) m !! id = Some x ∨
  filter (survives ids idle) m !! id = None ∧ idle x = true ∧ id ∈ ids.
Proof.
  intros Hid. destruct (decide (survives ids idle (id, x))) as [Hs|Hs].
  - left. by apply map_lookup_filter_Some.
  - right. split.
    + apply map_lookup_filter_None. right. intros y Hy. rewrite Hid in Hy. by injection Hy as <-.
    + by apply dec_stable in Hs as [? ?].
Qed.

Lemma expire_verified_spec env m cutoff :
  mem_inv m →
  ∃ n m', expire_verified env m cutoff = Some (n, m') ∧ removes m m' ∧
    ciphertext_entries m' = ciphertext_entries m ∧ checkpoints (m_expiry m') = checkpoints (m_expiry m) ∧
    ∀ id t v, pages (e_lru (entries m)) !! id = Some (t, v) →
      pages (e_lru (entries m')) !! id = Some (t, v) ∨
      pages (e_lru (entries m')) !! id = None ∧ idle_v env v = true ∧ (t ≤ cutoff)%N.
Proof.
  intros Hm. pose proof Hm as [He Hc]. pose proof (en_tick _ He) as Ht. unfold expire_verified.
  destruct (e_verified (m_expiry m)) as [after|].
  2:{ eexists _, _. split; [reflexivity|]. split_and!; [by apply removes_refl|done|done|by left]. }
  unfold tick_expiring. destruct (expiring _ _ _ _) as [sel next] eqn:Esel.
  assert (∀ t id, (t, id) ∈ sel → lru (e_lru (entries m)) !! t = Some id ∧ (t ≤ cutoff)%N) as Hsel.
  { intros t id Hin. apply (expiring_elem (lru (e_lru (entries m))) after cutoff EXPIRY_BATCH). by rewrite Esel. }
  destruct (expire_entries_spec env sel 0 (entries m) He) as (n1 & e1 & E1 & Hi1 & Hclk & Hp1).
  { pose proof (expiring_NoDup _ _ _ _ after cutoff EXPIRY_BATCH Ht) as Hnd. by rewrite Esel in Hnd. }
  { intros t id [Hid _]%Hsel. destruct (tick_inv_page _ t id Ht Hid) as [v ->]. by eexists. }
  rewrite E1. cbn [mbind option_bind]. eexists _, _. split; [reflexivity|]. split_and!; [|done|done|].
  - split; simpl; try done. rewrite Hp1. apply map_filter_subseteq.
  - intros id t v Hid. simpl. rewrite Hp1.
    destruct (survives_or_lost (λ x, idle_v env x.2) _ sel.*2 id (t, v) Hid) as [?|(? & ? & Hin)]; [by left|right].
    split_and!; [done|done|]. apply list_elem_of_fmap in Hin as ([t' id'] & -> & [Ht' Hle]%Hsel). simpl in *.
    destruct (tick_inv_page _ t' id' Ht Ht') as [v' Hv']. rewrite Hid in Hv'. by injection Hv' as -> _.
Qed.

Lemma expire_unverified_spec env m n cutoff :
  mem_inv m →
  ∃ n' m', expire_unverified env m n cutoff = Some (n', m') ∧ removes m m' ∧
    entries m' = entries m ∧ checkpoints (m_expiry m') = checkpoints (m_expiry m) ∧
    ∀ id t u, o_ticks (ciphertext_entries m) !! id = Some t → o_pages (ciphertext_entries m) !! id = Some u →
      o_pages (ciphertext_entries m') !! id = Some u ∨
      o_pages (ciphertext_entries m') !! id = None ∧ idle_u env u = true ∧ (t ≤ cutoff)%N.
Proof.
  intros Hm. pose proof Hm as [He Hc]. pose proof Hc as [_ Hix]. unfold expire_unverified.
  destruct (e_ciphertext (m_expiry m)) as [after|].
  2:{ eexists _, _. split; [reflexivity|]. split_and!; [by apply removes_refl|done|done|by left]. }
  unfold ordered_expiring. destruct (expiring _ _ _ _) as [sel next] eqn:Esel.
  assert (∀ t id, (t, id) ∈ sel → o_ticks (ciphertext_entries m) !! id = Some t ∧ (t ≤ cutoff)%N) as Hsel.
  { intros t id Hin. rewrite (ix_sync _ _ _ _ Hix).
    apply (expiring_elem (o_order (ciphertext_entries m)) after cutoff EXPIRY_BATCH). by rewrite Esel. }
  destruct (expire_ciphertext_spec env sel n (ciphertext_entries m) Hc) as (n2 & c2 & E2 & Hi2 & Hclk2 & Ht2 & Hp2).
  { pose proof (expiring_NoDup _ _ _ _ after cutoff EXPIRY_BATCH Hix) as Hnd. by rewrite Esel in Hnd. }
  { intros t id [Hid _]%Hsel. apply ordered_inv_tick; [done|]. by rewrite Hid. }
  rewrite E2. cbn [mbind option_bind]. eexists _, _. split; [reflexivity|]. split_and!; [|done|done|].
  - split; simpl; try done. rewrite Hp2. apply map_filter_subseteq.
  - intros id t u Htick Hid. simpl. rewrite Hp2.
    destruct (survives_or_lost (idle_u env) _ sel.*2 id u Hid) as [?|(? & ? & Hin)]; [by left|right].
    split_and!; [done|done|]. apply list_elem_of_fmap in Hin as ([t' id'] & -> & [Ht' Hle]%Hsel). simpl in *.
    rewrite Htick in Ht'. by injection Ht' as ->.
Qed.

Lemma expire_idle_spec env m now :
  mem_inv m →
  let cs := checkpoints (expiry_advance (m_expiry m) now (clock (e_lru (entries m)))
                           (o_clock (ciphertext_entries m))).2 in
  ∃ n m', expire_idle env m now = Some (n, m') ∧ removes m m' ∧ checkpoints (m_expiry m') = cs ∧
    (∀ id t v, pages (e_lru (entries m)) !! id = Some (t, v) →
       pages (e_lru (entries m')) !! id = Some (t, v) ∨
       pages (e_lru (entries m')) !! id = None ∧ idle_v env v = true ∧ below_cutoff now cs (λ c, c.1.2) t) ∧
    (∀ id t u, o_ticks (ciphertext_entries m) !! id = Some t → o_pages (ciphertext_entries m) !! id = Some u →
       o_pages (ciphertext_entries m') !! id = Some u ∨
       o_pages (ciphertext_entries m') !! id = None ∧ idle_u env u = true ∧ below_cutoff now cs (λ c, c.2) t).
Proof.
  intros Hm. unfold expire_idle.
  pose proof (expiry_advance_result (m_expiry m) now (clock (e_lru (entries m))) (o_clock (ciphertext_entries m))) as Hres.
  destruct (expiry_advance _ _ _ _) as [cutoffs x]. cbn [fst snd] in Hres. cbv zeta. cbn [snd].
  destruct cutoffs as [[vc cc]|].
  2:{ eexists _, _. split; [reflexivity|]. split_and!; [by apply removes_refl|done|by left|by left]. }
  destruct (head (checkpoints x)) as [c|] eqn:Eh; [|done].
  destruct (aged now c) eqn:Ea; [|done]. injection Hres as -> ->.
  assert (c ∈ checkpoints x) as Hcx by (destruct (checkpoints x); simplify_eq/=; apply list_elem_of_here).
  set (m0 := mkMemory (entries m) (ciphertext_entries m) (ciphertext_cursor m) (pressure_cursor m) x).
  destruct (expire_verified_spec env m0 c.1.2 Hm) as (n1 & m1 & -> & Hr1 & Hc1 & Hx1 & Hl1).
  destruct (expire_unverified_spec env m1 n1 c.2 (removes_inv _ _ Hr1)) as (n2 & m2 & E2 & Hr2 & He2 & Hx2 & Hl2).
  cbn [mbind option_bind]. exists n2, m2. split; [done|]. split_and!.
  - apply (removes_trans m m0); [by apply removes_refl|]. by eapply removes_trans.
  - by rewrite Hx2, Hx1.
  - intros id t v Hid. rewrite He2. destruct (Hl1 id t v Hid) as [?|(? & ? & ?)]; [by left|right].
    split_and!; [done|done|by exists c].
  - rewrite Hc1 in Hl2. intros id t u Ht Hid. destruct (Hl2 id t u Ht Hid) as [?|(? & ? & ?)]; [by left|right].
    split_and!; [done|done|by exists c].
Qed.

(** ** Reclamation loops *)

Record ordered_removes (c c' : OrderedLru K U G) : Prop := {
  or_inv : ordered_inv c';
  or_pages : o_pages c' ⊆ o_pages c;
  or_ticks : o_ticks c' ⊆ o_ticks c;
  or_clock : o_clock c' = o_clock c;
}.

Lemma ordered_removes_refl c : ordered_inv c → ordered_removes c c.
Proof. by split. Qed.

Lemma ordered_removes_trans c1 c2 c3 : ordered_removes c1 c2 → ordered_removes c2 c3 → ordered_removes c1 c3.
Proof. intros [] []. split; try done; [by etrans|by etrans|congruence]. Qed.

Lemma ordered_remove_removes c id : ordered_inv c → ordered_removes c (ordered_remove c id).2.
Proof.
  intros Hi. destruct (ordered_remove_index c id). split; [by apply ordered_inv_remove| |done|done].
  rewrite ordered_remove_pages. apply delete_subseteq.
Qed.

Lemma ordered_remove_value (c : OrderedLru K U G) id u : o_pages c !! id = Some u → (ordered_remove c id).1 = Some u.
Proof. unfold ordered_remove. by intros ->. Qed.

(** Whether a keyed pass may touch a page. *)
Definition concerns (cache : option G) (id : K) : Prop := match cache with Some g => cache_of id = g | None => True end.

Lemma reclaim_ciphertext_scan_spec env cache bytes sel released (c : OrderedLru K U G) cur :
  ordered_inv c → NoDup sel → (∀ id, id ∈ sel → is_Some (o_pages c !! id)) →
  ∃ r c' cur', reclaim_ciphertext_scan env cache bytes sel released c cur = Some (r, c', cur') ∧
    ordered_removes c c' ∧ ∀ id, ¬ concerns cache id → o_pages c' !! id = o_pages c !! id.
Proof.
  revert released c cur. induction sel as [|id sel IH]; intros released c cur Hi Hnd Hin; simpl.
  { exists released, c, cur. split_and!; [done|by apply ordered_removes_refl|done]. }
  apply NoDup_cons in Hnd as [Hid Hnd].
  destruct (bytes <=? released)%N; [exists released, c, cur; split_and!; [done|by apply ordered_removes_refl|done]|].
  assert (∀ id', id' ∈ sel → is_Some (o_pages c !! id')) as Hin' by (intros; apply Hin; by right).
  destruct (match cache with Some g => negb (bool_decide (g = cache_of id)) | None => false end) eqn:Ek; [by apply IH|].
  destruct (Hin id) as [u Eu]; [left|]. rewrite Eu. destruct (idle_u env u); [|by apply IH].
  pose proof (ordered_remove_value c id u Eu) as Hv. pose proof (ordered_remove_removes c id Hi) as Hr.
  pose proof (ordered_remove_pages c id) as Hp.
  destruct (ordered_remove c id) as [o c1]. simpl in Hv, Hr, Hp. subst o.
  destruct (IH (released + amount_u u)%N c1 (Some id) (or_inv _ _ Hr) Hnd) as (r & c' & cur' & E' & Hr' & Ho).
  { intros id' Hid'. rewrite Hp, lookup_delete_ne by (intros ->; done). by apply Hin'. }
  exists r, c', cur'. split_and!; [done|by eapply ordered_removes_trans|].
  intros id' Hc'. rewrite Ho by done. rewrite Hp, lookup_delete_ne; [done|]. intros ->. apply Hc'.
  destruct cache as [g|]; [|done]. case_bool_decide; done.
Qed.

Lemma ordered_candidates_spec (c : OrderedLru K U G) cur :
  NoDup (ordered_candidates c cur) ∧ ∀ id, id ∈ ordered_candidates c cur → is_Some (o_pages c !! id).
Proof.
  assert (∀ l : list (K * U), l ≡ₚ map_to_list (o_pages c) →
    NoDup (take RECLAIM_WINDOW l).*1 ∧ ∀ id, id ∈ (take RECLAIM_WINDOW l).*1 → is_Some (o_pages c !! id)) as Hl.
  { intros l Hl. split.
    - apply (sublist_NoDup _ l.*1); [rewrite Hl; apply NoDup_fst_map_to_list|apply fmap_sublist, sublist_take].
    - intros id ([id' u] & -> & Hin%elem_of_take_weak)%list_elem_of_fmap.
      rewrite Hl in Hin. apply elem_of_map_to_list in Hin. by exists u. }
  destruct cur as [k|].
  - rewrite ordered_candidates_wrap. apply Hl, wrap_from_perm.
  - unfold ordered_candidates. rewrite app_nil_r, <- fmap_take. apply Hl, btree_iter_perm.
Qed.

Definition outside (cache : option G) (m m' : MemoryCache) : Prop :=
  ∀ id, ¬ concerns cache id →
    pages (e_lru (entries m')) !! id = pages (e_lru (entries m)) !! id ∧
    o_pages (ciphertext_entries m') !! id = o_pages (ciphertext_entries m) !! id.

Lemma outside_trans cache m1 m2 m3 : outside cache m1 m2 → outside cache m2 m3 → outside cache m1 m3.
Proof.
  intros Ho1 Ho2 id Hid. destruct (Ho1 id Hid) as [<- <-]. by apply Ho2.
Qed.

Lemma reclaim_ciphertext_spec env m cache bytes :
  mem_inv m →
  ∃ n m', reclaim_ciphertext env m cache bytes = Some (n, m') ∧ removes m m' ∧ outside cache m m' ∧
    m_expiry m' = m_expiry m.
Proof.
  intros [He Hc]. destruct (ordered_candidates_spec (ciphertext_entries m) (ciphertext_cursor m)) as [Hnd Hin].
  destruct (reclaim_ciphertext_scan_spec env cache bytes _ 0 _ (ciphertext_cursor m) Hc Hnd Hin)
    as (r & c' & cur' & Es & [] & Ho).
  unfold reclaim_ciphertext. rewrite Es. eexists _, _. split; [reflexivity|].
  split_and!; [by split|by intros id Hid; split; [|apply Ho]|done].
Qed.

(** A visitor that records exactly the pages it removes, all of them within [cache]. *)
Definition records (cache : option G) (visit : VisitState → K → V → Visit * VisitState) : Prop :=
  ∀ released removed env id v,
    let '(d, (_, removed', _)) := visit (released, removed, env) id v in
    (d = Visit_Remove ∧ removed' = removed ++ [id] ∧ concerns cache id) ∨ (d ≠ Visit_Remove ∧ removed' = removed).

Lemma evict_visit_records bytes : records None (evict_visit bytes).
Proof.
  intros released removed env id v. unfold evict_visit. destruct (bytes <=? released)%N; [by right|].
  destruct (negb (idle_v env v)); [by right|by left].
Qed.

Lemma reclaim_visit_records cache bytes : records cache (reclaim_visit cache bytes).
Proof.
  intros released removed env id v. unfold reclaim_visit. destruct (bytes <=? released)%N; [by right|].
  destruct (match cache with Some g => _ | None => _ end) eqn:Ek; [by right|].
  assert (concerns cache id) as Hc by (destruct cache as [g|]; [case_bool_decide; done|done]).
  destruct (release_queued env id v) as [n env']. destruct (bytes <=? _)%N; [by right|].
  destruct (negb (idle_v env' v)); [by right|by left].
Qed.

Lemma verdicts_records cache visit cs released removed0 env (mp : gmap K (N * V)) :
  records cache visit →
  let '(ds, (_, removed', _)) := verdicts visit cs (released, removed0, env) mp in
  removed' = removed0 ++ removed ds ∧ ∀ id, id ∈ removed ds → concerns cache id.
Proof.
  intros Hrec. revert released removed0 env. induction cs as [|[t id] cs IH]; intros released removed0 env; simpl.
  { split; [by rewrite app_nil_r|]. intros id Hid. by apply elem_of_nil in Hid. }
  destruct (mp !! id) as [[t0 v]|].
  2:{ split; [by rewrite app_nil_r|]. intros id' Hid. by apply elem_of_nil in Hid. }
  specialize (Hrec released removed0 env id v).
  destruct (visit (released, removed0, env) id v) as [d [[r1 rm1] env1]].
  destruct Hrec as [(-> & -> & Hc)|[Hd ->]].
  - specialize (IH r1 (removed0 ++ [id]) env1).
    destruct (verdicts visit cs (r1, removed0 ++ [id], env1) mp) as [ds [[r2 rm2] env2]].
    destruct IH as [-> Hall]. rewrite removed_cons, decide_True by done. split; [by rewrite <- (assoc_L (++))|].
    intros id' [->%list_elem_of_singleton|?]%elem_of_app; [done|by apply Hall].
  - destruct d; try done.
    + specialize (IH r1 removed0 env1). destruct (verdicts visit cs (r1, removed0, env1) mp) as [ds [[r2 rm2] env2]].
      rewrite removed_cons, decide_False by done. done.
    + split; [by rewrite app_nil_r|]. intros id' Hid. by apply elem_of_nil in Hid.
    + split; [by rewrite app_nil_r|]. intros id' Hid. by apply elem_of_nil in Hid.
Qed.

Lemma reclaim_entries_spec cache visit released env m :
  records cache visit → mem_inv m →
  ∃ n env' m', reclaim_entries visit released env m = Some (n, env', m') ∧ removes m m' ∧
    outside cache m m' ∧ m_expiry m' = m_expiry m.
Proof.
  intros Hrec [He Hc]. pose proof (reclaim_spec visit (released, [], env) (e_lru (entries m)) (en_tick _ He)) as Hs.
  pose proof (verdicts_records cache visit (tick_candidates (e_lru (entries m))) released [] env
                (pages (e_lru (entries m))) Hrec) as Hv.
  destruct (verdicts visit _ _ _) as [ds [[r1 rm1] env1]]. destruct Hs as (l' & Er & Ht & Hp & Hclk & _).
  destruct Hv as [-> Hall]. unfold reclaim_entries. rewrite Er. cbn [mbind option_bind app].
  eexists _, _, _. split; [reflexivity|]. split_and!; [split; simpl; try done|..|done].
  - split; simpl; [done|]. rewrite Hp.
    assert (dom (filter (λ p, p.1 ∉ removed ds) (pages (e_lru (entries m)))) =
            dom (pages (e_lru (entries m))) ∖ list_to_set (removed ds)) as ->.
    { apply set_eq. intros id. rewrite elem_of_difference, elem_of_list_to_set, !elem_of_dom. split.
      - intros [x [Hx Hn]%map_lookup_filter_Some]. split; [by eexists|done].
      - intros [[x Hx] Hn]. exists x. by apply map_lookup_filter_Some. }
    apply versions_forget_all. apply He.
  - rewrite Hp. apply map_filter_subseteq.
  - intros id Hid. split; [|done]. simpl. rewrite Hp. apply option_eq. intros x.
    rewrite map_lookup_filter_Some. split; [by intros [? _]|]. intros Hx. split; [done|].
    intros Hin. by apply Hid, Hall.
Qed.

Lemma evict_idle_spec env m bytes :
  mem_inv m →
  ∃ n env' m', evict_idle env m bytes = Some (n, env', m') ∧ removes m m' ∧ m_expiry m' = m_expiry m.
Proof.
  intros Hm. destruct (reclaim_ciphertext_spec env m None bytes Hm) as (n1 & m1 & E1 & Hr1 & _ & Hx1).
  destruct (reclaim_entries_spec None _ n1 env m1 (evict_visit_records bytes) (removes_inv _ _ Hr1))
    as (n2 & env2 & m2 & E2 & Hr2 & _ & Hx2).
  exists n2, env2, m2. unfold evict_idle. rewrite E1. cbn [mbind option_bind].
  split_and!; [done|by eapply removes_trans|congruence].
Qed.

Lemma reclaim_idle_spec env m cache bytes :
  mem_inv m →
  ∃ n env' m', reclaim_idle env m cache bytes = Some (n, env', m') ∧ removes m m' ∧
    outside cache m m' ∧ m_expiry m' = m_expiry m.
Proof.
  intros Hm. destruct (reclaim_ciphertext_spec env m cache bytes Hm) as (n1 & m1 & E1 & Hr1 & Ho1 & Hx1).
  destruct (reclaim_entries_spec cache _ n1 env m1 (reclaim_visit_records cache bytes) (removes_inv _ _ Hr1))
    as (n2 & env2 & m2 & E2 & Hr2 & Ho2 & Hx2).
  exists n2, env2, m2. unfold reclaim_idle. rewrite E1. cbn [mbind option_bind].
  split_and!; [done|by eapply removes_trans|by eapply outside_trans|congruence].
Qed.

Lemma lane_candidates_spec ticks (order : gmap N K) (ls : gmap G (Lane K)) clk g :
  index_ok ticks order ls clk →
  NoDup (lanes_candidates g ls).*2 ∧
  ∀ t id, (t, id) ∈ lanes_candidates g ls → ticks !! id = Some t ∧ cache_of id = g.
Proof.
  intros Hi. unfold lanes_candidates. destruct (ls !! g) as [lane|] eqn:El; [|split; [constructor|by intros ? ? ?%elem_of_nil]].
  assert (∀ t id, (t, id) ∈ take RECLAIM_WINDOW (wrap_from (lane_order lane) (lane_after lane)) →
            ticks !! id = Some t ∧ cache_of id = g) as Hin.
  { intros t id Hc. apply elem_of_take_weak, elem_of_wrap_from in Hc.
    destruct (proj1 (ix_lane _ _ _ _ Hi g t id)) as [Ho Hg]; [unfold lane_at; by rewrite El|].
    split; [by apply Hi|]. by injection Hg. }
  split; [|done]. apply NoDup_fmap_2_strong.
  - intros [t1 id1] [t2 id2] Ha Hb Heq. simpl in Heq. subst id2.
    destruct (Hin _ _ Ha), (Hin _ _ Hb). congruence.
  - apply (sublist_NoDup _ (wrap_from (lane_order lane) (lane_after lane))); [|apply sublist_take].
    apply (NoDup_fmap_1 fst), wrap_from_NoDup.
Qed.

Lemma reclaim_lane_ciphertext_spec env g bytes cs released (c : OrderedLru K U G) :
  ordered_inv c → NoDup cs.*2 → (∀ t id, (t, id) ∈ cs → is_Some (o_pages c !! id) ∧ cache_of id = g) →
  ∃ r c', reclaim_lane_ciphertext env g bytes cs released c = Some (r, c') ∧
    ordered_removes c c' ∧ ∀ id, cache_of id ≠ g → o_pages c' !! id = o_pages c !! id.
Proof.
  revert released c. induction cs as [|[t id] cs IH]; intros released c Hi Hnd Hin; simpl.
  { exists released, c. split_and!; [done|by apply ordered_removes_refl|done]. }
  apply NoDup_cons in Hnd as [Hid Hnd].
  destruct (bytes <=? released)%N; [exists released, c; split_and!; [done|by apply ordered_removes_refl|done]|].
  set (c0 := mkOrdered _ _ _ _ _).
  assert (ordered_removes c c0) as Hr0.
  { split; [|done..]. split; [apply Hi|]. apply index_advance, Hi. }
  assert (∀ t' id', (t', id') ∈ cs → is_Some (o_pages c0 !! id') ∧ cache_of id' = g) as Hin'
    by (intros; eapply Hin; by right).
  destruct (Hin t id) as [[u Eu] Hg]; [left|]. rewrite Eu.
  change (o_pages c !! id = Some u) with (o_pages c0 !! id = Some u) in Eu.
  destruct (idle_u env u).
  2:{ destruct (IH released c0 (or_inv _ _ Hr0) Hnd Hin') as (r & c' & E' & Hr' & Ho).
      exists r, c'. split_and!; [done|by eapply ordered_removes_trans|done]. }
  pose proof (ordered_remove_value c0 id u Eu) as Hv.
  pose proof (ordered_remove_removes c0 id (or_inv _ _ Hr0)) as Hr. pose proof (ordered_remove_pages c0 id) as Hp.
  destruct (ordered_remove c0 id) as [o c1]. simpl in Hv, Hr, Hp. subst o.
  destruct (IH (released + amount_u u)%N c1 (or_inv _ _ Hr) Hnd) as (r & c' & E' & Hr' & Ho).
  { intros t' id' Hid'. destruct (Hin' _ _ Hid') as [? ?]. split; [|done]. rewrite Hp, lookup_delete_ne; [done|].
    intros <-. apply Hid. apply list_elem_of_fmap. by exists (t', id). }
  exists r, c'. split_and!; [done|eapply ordered_removes_trans; [done|]; by eapply ordered_removes_trans|].
  intros id' Hc'. rewrite Ho by done. rewrite Hp, lookup_delete_ne; [done|]. congruence.
Qed.

Record entries_removes (e e' : Entries) : Prop := {
  er_inv : entries_inv e';
  er_pages : pages (e_lru e') ⊆ pages (e_lru e);
  er_clock : clock (e_lru e') = clock (e_lru e);
}.

Lemma entries_removes_refl e : entries_inv e → entries_removes e e.
Proof. by split. Qed.

Lemma entries_removes_trans e1 e2 e3 : entries_removes e1 e2 → entries_removes e2 e3 → entries_removes e1 e3.
Proof. intros [] []. split; [done|by etrans|congruence]. Qed.

Lemma reclaim_lane_entries_spec g bytes cs released env (e : Entries) :
  entries_inv e → NoDup cs.*2 → (∀ t id, (t, id) ∈ cs → is_Some (pages (e_lru e) !! id) ∧ cache_of id = g) →
  ∃ r env' e', reclaim_lane_entries g bytes cs released env e = Some (r, env', e') ∧
    entries_removes e e' ∧ ∀ id, cache_of id ≠ g → pages (e_lru e') !! id = pages (e_lru e) !! id.
Proof.
  revert released env e. induction cs as [|[t id] cs IH]; intros released env e Hi Hnd Hin; simpl.
  { exists released, env, e. split_and!; [done|by apply entries_removes_refl|done]. }
  apply NoDup_cons in Hnd as [Hid Hnd].
  destruct (bytes <=? released)%N; [exists released, env, e; split_and!; [done|by apply entries_removes_refl|done]|].
  set (e0 := mkEntries (set_lanes _ _) _).
  assert (entries_removes e e0) as Hr0.
  { split; [|done..]. split; [apply tick_inv_advance, Hi|apply Hi]. }
  assert (∀ t' id', (t', id') ∈ cs → is_Some (pages (e_lru e0) !! id') ∧ cache_of id' = g) as Hin'
    by (intros; eapply Hin; by right).
  destruct (Hin t id) as [[[tk v] Ev] Hg]; [left|]. rewrite Ev. destruct (release_queued env id v) as [n env1].
  destruct (bytes <=? _)%N; [eexists _, _, _; by split_and!|].
  destruct (idle_v env1 v).
  2:{ destruct (IH (saturating_add USIZE_MAX released n) env1 e0 (er_inv _ _ Hr0) Hnd Hin') as (r & env' & e' & E' & Hr' & Ho).
      eexists _, _, _. split_and!; [done|by eapply entries_removes_trans|done]. }
  destruct (entries_remove_spec e0 id (er_inv _ _ Hr0)) as (Hi1 & Hp & Hc1).
  assert (entries_removes e (entries_remove e0 id).2) as Hr1.
  { eapply entries_removes_trans; [done|]. split; [done|rewrite Hp; apply delete_subseteq|done]. }
  destruct (IH (saturating_add USIZE_MAX (saturating_add USIZE_MAX released n) (amount_v v)) env1 _ Hi1 Hnd)
    as (r & env' & e' & E' & Hr' & Ho).
  { intros t' id' Hid'. destruct (Hin' _ _ Hid') as [? ?]. split; [|done]. rewrite Hp, lookup_delete_ne; [done|].
    intros <-. apply Hid. apply list_elem_of_fmap. by exists (t', id). }
  eexists _, _, _. split_and!; [done|by eapply entries_removes_trans|].
  intros id' Hc'. rewrite Ho by done. rewrite Hp, lookup_delete_ne; [done|]. congruence.
Qed.

Lemma reclaim_cache_spec env m g bytes :
  mem_inv m →
  ∃ n env' m', reclaim_cache env m g bytes = Some (n, env', m') ∧ removes m m' ∧
    outside (Some g) m m' ∧ m_expiry m' = m_expiry m.
Proof.
  intros [He Hc]. unfold reclaim_cache.
  destruct (lane_candidates_spec _ _ _ _ g (proj2 Hc)) as [Hnd1 Hin1].
  destruct (lane_candidates_spec _ _ _ _ g (en_tick _ He)) as [Hnd2 Hin2].
  destruct (reclaim_lane_ciphertext_spec env g bytes _ 0 _ Hc Hnd1) as (r1 & c' & E1 & [] & Ho1).
  { intros t id Hid. destruct (Hin1 t id Hid). split; [|done]. apply ordered_inv_tick; by eauto. }
  destruct (reclaim_lane_entries_spec g bytes _ r1 env _ He Hnd2) as (r2 & env' & e' & E2 & [] & Ho2).
  { intros t id Hid. destruct (Hin2 t id Hid) as [Ht ?]. split; [|done]. rewrite lookup_fmap in Ht.
    destruct (pages (e_lru (entries m)) !! id); [by eexists|done]. }
  rewrite E1. cbn [mbind option_bind]. rewrite E2. eexists _, _, _. split; [reflexivity|].
  split_and!; [by split| |done]. intros id Hid. split; [by apply Ho2|by apply Ho1].
Qed.

Lemma reclaim_window_spec caches bytes released env m :
  mem_inv m →
  ∃ n env' m', reclaim_window caches bytes released env m = Some (n, env', m') ∧ removes m m' ∧
    m_expiry m' = m_expiry m.
Proof.
  revert released env m. induction caches as [|g caches IH]; intros released env m Hm; simpl.
  { eexists _, _, _. split_and!; [done|by apply removes_refl|done]. }
  destruct (bytes <=? released)%N; [eexists _, _, _; split_and!; [done|by apply removes_refl|done]|].
  set (m0 := mkMemory _ _ _ _ _). assert (removes m m0) as Hr0 by by apply removes_refl.
  destruct (N.eqb _ _).
  { destruct (IH released env m0 (removes_inv _ _ Hr0)) as (n & env' & m' & E' & Hr' & Hx).
    eexists _, _, _. split_and!; [done|by eapply removes_trans|done]. }
  destruct (reclaim_cache_spec env m0 g (N.min (excess env g) (bytes - released)) (removes_inv _ _ Hr0))
    as (got & env1 & m1 & E1 & Hr1 & _ & Hx1). rewrite E1. cbn [mbind option_bind].
  destruct (if (got <? _)%N then _ else _) as [got' env2].
  destruct (IH (saturating_add USIZE_MAX released got') env2 m1 (removes_inv _ _ Hr1)) as (n & env' & m' & E' & Hr' & Hx).
  eexists _, _, _. split_and!; [done|eapply removes_trans; [done|]; by eapply removes_trans|by rewrite Hx, Hx1].
Qed.

Lemma memory_reclaim_spec env m owner bytes :
  mem_inv m →
  ∃ n env' m', memory_reclaim env m owner bytes = Some (n, env', m') ∧ removes m m' ∧
    outside owner m m' ∧ m_expiry m' = m_expiry m.
Proof.
  intros Hm. unfold memory_reclaim.
  destruct (bytes =? 0)%N; [eexists _, _, _; split_and!; [done|by apply removes_refl|done|done]|].
  destruct owner as [g|].
  - destruct (reclaim_cache_spec env m g bytes Hm) as (n & env' & m' & E' & Hr' & Ho & Hx).
    rewrite E'. cbn [mbind option_bind]. destruct (bytes <=? n)%N; [by eexists _, _, _|].
    destruct (reclaim_writer env' (Some g) (bytes - n)) as [n1 env1]. by eexists _, _, _.
  - destruct (reclaim_window_spec (pressure_window m) bytes 0 env m Hm) as (n & env1 & m1 & E1 & Hr1 & Hx1).
    rewrite E1. cbn [mbind option_bind].
    assert (∃ n2 env2 m2,
      (if (n <? bytes)%N
       then '(k, env, m) ← reclaim_idle env1 m1 None (bytes - n); Some (saturating_add USIZE_MAX n k, env, m)
       else Some (n, env1, m1)) = Some (n2, env2, m2) ∧ removes m m2 ∧ m_expiry m2 = m_expiry m)
      as (n2 & env2 & m2 & E2 & Hr2 & Hx2).
    { destruct (n <? bytes)%N; [|by eexists _, _, _].
      destruct (reclaim_idle_spec env1 m1 None (bytes - n) (removes_inv _ _ Hr1)) as (k & env2 & m2 & E2 & Hr2 & _ & Hx2).
      rewrite E2. eexists _, _, _. split_and!; [done|by eapply removes_trans|congruence]. }
    rewrite E2. cbn [mbind option_bind].
    assert (outside None m m2) as Ho by (intros id Hid; exfalso; by apply Hid).
    destruct (n2 <? bytes)%N; [|by eexists _, _, _].
    destruct (reclaim_writer env2 None (bytes - n2)) as [n3 env3]. by eexists _, _, _.
Qed.
End memory.
